(* ===== verification/_CoqProject ===== *)
-Q . S2P
Prelude.v
Words.v
ApInt.v
ApIntSpec.v
LimbArith.v
ApIntOps.v
ApIntArith.v
ApIntTheorems.v
ApIntText.v
ApIntTextSpec.v
Lang.v
LangSpec.v
SatSolver.v
SatLits.v
SatProp.v
SatAnalyze.v
SatSearch.v
SatSolve.v
SatTheorems.v
Dag.v
DagSpec.v
Bits.v
Gates.v
FloatCircuits.v
Bitblast.v
FloatSem.v
BlastSem.v
GateSpec.v
CircuitSpec.v
CircuitWord.v
FloatSpec.v
FloatInt.v
FloatTheorems.v
BlastSpec.v
BlastNode.v
BlastGraph.v
BlastTheorems.v
SmtAst.v
SmtLower.v
SmtMeaning.v
SmtNodes.v
SmtOperators.v
SmtTerms.v
SmtTermSpec.v
SmtFormula.v
SmtSolver.v
SmtSolverSpec.v
SmtTheorems.v
UnionFind.v
UnionFindSpec.v
Pbqp.v
PbqpSpec.v
PbqpCost.v
PbqpReduce.v
PbqpMerge.v
PbqpRun.v
PbqpTheorems.v
Memory.v
MemorySpec.v
MemoryBytes.v
MemoryTheorems.v
MemoryService.v
MemoryServiceTheorems.v
ObjFile.v
Elf.v
ElfSpec.v
ElfTheorems.v
Encode.v
EncodeBits.v
EncodeTheorems.v
Writer.v
WriterSpec.v
WriterTheorems.v
Jit.v
JitReloc.v
JitTheorems.v
Extract.v
ExtractSpec.v
ExtractTable.v
ExtractTheorems.v
