(* ===== verification/Prelude.v ===== *)
(** * TIR: a verification development of its engines

    TIR is a compiler infrastructure in Rust. Its optimiser, its machine
    descriptions, its simulator and its JIT lean on engines of its own:
    arbitrary-width integers, a table of scalar operators with an evaluator, a
    CDCL SAT solver, a bit-blaster over formula graphs that decides whether one
    expression implements another, a union-find with offsets under its equality
    reasoning, an SMT solver with an SMT-LIB front end on top of the
    bit-blaster, a PBQP solver that assigns registers, the memory of simulated
    guests with the service that orders accesses to it, the table-driven encoder
    and decoder of instructions, the object writer, ELF files, the loader that
    relocates JIT-compiled objects, and the extraction of least-cost terms from
    a relational e-graph. This development models those engines and proves that
    they compute what they promise. Source paths below are relative to [src/].

    ** Components, files and correspondence

    - [libs/adt/src/apint.rs], arbitrary-width integers. [Words] (the [u64]
      operations and limb vectors), [ApInt] (the record [APInt], one
      definition per method of the same name; [count_ones] is [popcount]),
      [ApIntSpec] (the invariant [wf], the number [uval], the canonical
      representation [repr]), [LimbArith] (limb routines), [ApIntOps] and
      [ApIntArith] (each operation against [repr]), [ApIntTheorems]; the text
      forms are [ApIntText], [ApIntTextSpec].
    - [libs/symbolic/src/lang/mod.rs] and [ops.rs], semantic kinds and scalar
      operators. [Lang] ([SymKind], the table [SCALAR_OPS], [eval_int], the
      algebraic facts), [LangSpec] (the bit-vector function [bv_op] of a
      kind, and that the evaluator computes it).
    - [libs/symbolic/src/sat/mod.rs], the CDCL solver. [SatSolver] (the record
      [Solver] and one definition per function, loops as fuelled fixpoints),
      then the invariants bottom up: [SatLits] (literals, clauses,
      the activity heap, trail, watches, what the state stands
      for), [SatProp] (propagation), [SatAnalyze] (conflict analysis),
      [SatSearch] (backjumping, learning, Luby), [SatSolve] (the main loop,
      its measure, the building interface), [SatTheorems].
    - [libs/adt/src/dag.rs], the append-only graph. [Dag], [DagSpec] (the
      abstract list of nodes a graph is a view of, and the traversals).
    - [libs/symbolic/src/bitblast/], the bit-blaster. [Gates] ([mod.rs]: the
      gate primitives, over the class [CnfSink] of things that take variables
      and clauses; [arith.rs]), [FloatCircuits] ([fp.rs]),
      [Bitblast] ([mod.rs]: [Blaster], the encoder of every node kind,
      definedness, solving and decoding). Specification: [Bits] (vectors as
      numbers, the total operators of SMT-LIB), [BlastSem] (types
      and interpretations of a graph). Proofs: [GateSpec] (contexts, triples,
      the class [CnfLaws] of lawful sinks, of which the SAT solver is an
      instance), [CircuitSpec], [CircuitWord] (circuits), [BlastSpec],
      [BlastNode] (encoders), [BlastGraph] (the loop over the nodes, that
      interpretations exist, solving), [BlastTheorems].
    - The floating-point circuits of [bitblast/fp.rs] have a specification of
      their own: [FloatSem] (IEEE 754 data, the operations on them and
      rounding to nearest even), [FloatSpec],
      [FloatInt] (each circuit against it), [FloatTheorems].
    - [libs/symbolic/src/smtlib/], the SMT-LIB language. [SmtAst] ([ast.rs]
      and the printer [print.rs]), [SmtLower] ([convert.rs] and
      [convert/lower.rs]: a script becomes a formula graph), [SmtMeaning] (what
      a term means, by the SMT-LIB standard and without a graph). Proofs:
      [SmtNodes], [SmtOperators], [SmtTerms], [SmtTermSpec] (terms, then
      scripts).
    - [libs/symbolic/src/solver/], the SMT solver. [SmtSolver] ([mod.rs]: the
      record [Solver], its scopes, [check_sat_assuming], [eval_term],
      [get_model], [get_value]; [driver.rs]: the command loop [run_script]),
      [SmtFormula], [SmtSolverSpec] (checks and reported values),
      [SmtTheorems].
    - [libs/relational/src/unionfind.rs], union-find with offsets.
      [UnionFind], [UnionFindSpec] (equations and their congruence, the
      operations against it).
    - [core/src/backend/pbqp.rs], the PBQP solver of the register allocator.
      [Pbqp] (problem, matrices, the record [Solver], one definition per
      function), [PbqpSpec] (capped costs, matrices as functions,
      [normalize] on a matrix, the invariant [ok], the measure
      [potential]), [PbqpCost] ([total], the cost of the live graph,
      and adding costs), [PbqpReduce] (the contract [solves_to] of a
      reduction, R0, R1, R2), [PbqpMerge] (RM), [PbqpRun] (RN,
      the loop, back-propagation, setting up a problem), [PbqpTheorems].
    - [libs/simcore/src/memory.rs], guest memory. [Memory] (address spaces of
      mappings, backings of sparse pages, [read], [write], [fetch_add] and the
      other operations), [MemorySpec] (the invariant of an address space and
      the flat map from addresses to bytes it stands for), [MemoryBytes]
      (pages and spans of bytes), [MemoryTheorems].
    - [libs/simcore/src/memory_service.rs] and
      [core/src/backend/exec/protocol.rs], the memory service.
      [MemoryService] (requests, staged stores, atomics, devices that clear on
      read, commit and cancellation; the invariant of the service and a
      program-ordered reference), [MemoryServiceTheorems].
    - [core/src/backend/binary/], instructions and object files. [ObjFile]
      ([mod.rs], [format.rs]: sections, symbols, relocations, the target's
      format), [Encode] ([encodings.rs]: [encode_with], [decode_with],
      [patch_with] over tables of shapes), [EncodeBits] (runs of bits, shapes,
      guards), [EncodeTheorems]; [Writer] ([writer.rs]: [write_module] over the
      items of an assembly module, [valid_block_layout]), [WriterSpec] (a
      two-pass reference assembler), [WriterTheorems]; [Elf] ([elf.rs]: [write_elf]; [elf_read.rs]:
      [parse_elf]), [ElfSpec] (positions in a file, readers that decode what a
      writer wrote, string tables), [ElfTheorems].
    - [libs/jit/src/loader.rs], [reloc.rs], the JIT loader. [Jit] (section
      layout, trampolines, relocation of x86-64, AArch64 and RISC-V
      fields, [load]), [JitReloc] (what a relocation field denotes and
      that [apply] fills it; sections and trampolines are placed apart),
      [JitTheorems].
    - [libs/relational/src/csr.rs], [extract.rs] and
      [libs/egraph/src/extract.rs], extraction. [Extract] (the counting sort
      [Csr], the table of members, the worklist [fold] and its incremental use),
      [ExtractSpec] (spellings of an id and their cost; the rounds of the
      worklist), [ExtractTable] (the table represents the members),
      [ExtractTheorems].

    ** How the parts interact

    The bit-blaster reads a [Dag] whose leaves carry [APInt] constants and
    writes clauses through [CnfSink]; its theorems are proved against
    [CnfLaws], which [GateSpec] discharges for [SatSolver]. [BlastTheorems]
    composes them: blasting, solving and decoding decide a formula, and
    [evaluator_agrees] ties the circuits to [eval_int]. The SMT solver lowers
    its open assertions to a graph on every check ([SmtTermSpec]), blasts
    and solves it; [check_sat_decides] composes the three, from the meaning of
    the script to the verdict. The memory service owns a guest memory and
    commits staged stores to it; its theorems use the flat view of
    [MemorySpec], not the pages. The JIT loader computes a layout, then
    writes relocations against it; [JitTheorems] joins the two. The object
    writer emits what [Encode] encodes and resolves it with [patch_with]; the ELF
    writer and the loader take the [ObjectFile] it makes ([ObjFile]). Extraction
    builds its table with [Csr] and folds over it.

    ** Conventions

    A function that can panic returns [option]; [None] is the panic. A [Result]
    is a sum, the inductive [result] of [Words], or an inductive of its own; where
    both occur the [option] is outside. Machine words are elements of [Z] with
    each wrap-around written out; indices, node ids and literals are [nat].
    A [BTreeMap] that is iterated over is the list of its entries in ascending
    key order, a [HashMap] a [gmap].
    Loops that are not structural take fuel; each theorem about such a loop
    gives an amount that is enough, so that [None] is never the end of fuel:
    [script_fuel] (the nesting depth after macro expansion) for lowering,
    [enough_fuel] main-loop turns for the SAT solver, the number of nodes for the
    graph traversals, the number of ids for a union-find path, two rounds per
    limb for decimal printing, [potential] for the PBQP reductions, one turn per
    byte for a memory access, one round per id and one more for extraction.

    Bounds are hypotheses of the theorems that need them. Guest memory and its
    service: fewer than [2 ^ 64] operations, guest addresses that leave room
    for an access below [u64::MAX], atomics of positive size. Loader:
    section sizes and addresses below [2 ^ 60], host addresses below [2 ^ 62],
    alignments that are powers of two, relocated words inside their section and
    apart. Encodings: at most 16 bytes; decoding reads words of at most four and
    operands of at most 63 bits. Object writer: modules of fewer than [2 ^ 62]
    bytes, scales below 63. ELF files: bodies and padding of at most
    [2 ^ 31] bytes, fewer than [0xFF00] sections. Extraction: fewer than [u32::MAX] ids, members and edges, and
    prices that add up to less than [UNPRICED].

    ** What the theorems show

    - SAT: [solve] decides; a conflict budget keeps verdicts right; clauses are
      conjoined; propagation is exhaustive; analysis learns entailed asserting
      clauses.
    - Integers: ring operations, division with its panics, shifts, resizing
      and high products, at every width; the invariant is closed; printing and
      parsing round-trip.
    - Operators: [eval_int] is the bit-vector function; declared facts hold.
    - Graph: traversals are exact, preorder in depth-first order; building refines a list of nodes.
    - Bit-blasting: models are interpretations; solving decides; definedness
      refinement decides; circuits implement SMT-LIB; error results; typing.
    - Floating point: comparisons, rounding an integer below [2 ^ bias] to a
      float, and a float to an integer (of two bits or more when signed), are
      IEEE 754's.
    - SMT: a script without captures lowers to a graph whose interpretations are
      its assignments and whose root is its conjunction; a check gives the right
      verdict when that root is the last node; reported values are the model's,
      in the form of their sort where the names of the term tell it; [pop] restores what [push] saved.
    - Union-find: [find] decides the congruence of the accepted equations,
      verdicts are right, [flatten] is the map to representatives.
    - PBQP: [solve] is total and in range, its verdict is exact, the reductions
      keep the optimum, and a run without a heuristic decision is optimal.
    - Guest memory: reads and writes are those of a flat map of bytes under
      the permissions of its mappings, and mappings stay apart.
    - Memory service: what an instruction reads is memory with its own staged
      stores over it, committed stores reach memory in program order, and
      cancelled ones leave no trace.
    - Encodings: what is encoded decodes to the same operation; patching a
      fixup is encoding the resolved value; an encoder refuses for a stated
      reason only.
    - Object writer: code assembles to what a two-pass assembler makes of it, and
      [valid_block_layout] says when; any module gives an error or a
      well-formed object.
    - ELF: [parse_elf] reads what [write_elf] wrote.
    - JIT loader: for an object whose relocated words lie in its sections, [load] either yields an image whose sections are aligned and
      whose fields reach their symbols, or an error that states its cause.
    - Extraction, while sums stay below [UNPRICED]: [fold] terminates with the
      least cost of each id and the first member that attains it; with positive
      prices reading its answers off ends with a term of that cost; refolding the changed ids gives what a full fold gives.

    ** Not modelled

    The theorems about whole graphs are about the bit-vector fragment
    ([BlastSem.class_of]); the floating-point circuits are specified one by
    one. The SMT-LIB parser is built from the combinators of the third-party
    crate chumsky, and the conversion from a graph back to SMT-LIB
    ([lift.rs]) feeds only its printer; both are left out. A [HashMap] the solver
    iterates over is a [gmap], in that map's order. The system calls of the JIT
    ([mmap], [mprotect], the instruction cache) are not modelled, only the
    bytes given to them; neither is telemetry. Extraction takes the rows
    of the relational engine as arguments. Unsafe containers and SIMD
    kernels, the equality saturation and relational engines above the union-find
    and extraction, the IR, the passes, the backends and TMDL are listed in the
    manifest with the reason each is left out.

    The SAT solver's activities are
    binary64 values, computed with the Standard Library's [SpecFloat]. *)
From Stdlib Require Export ZArith Lia Bool.
From stdpp Require Export base list gmap option numbers.

#[global] Open Scope Z_scope.

(** ** Panics

    A Rust function that can panic (an [assert!], an [unwrap] of [None], an
    index out of range) returns [option]: [None] is the panic. *)

Declare Scope rust_scope.
Delimit Scope rust_scope with rust.
#[global] Open Scope rust_scope.

Notation "'assert!' b ; k" := (if (b : bool) then k else None)
  (at level 100, b at level 99, k at level 200, right associativity) : rust_scope.

(** [Ordering::then_with] and [Ordering::reverse]. *)
Definition then_with (c d : comparison) : comparison :=
  match c with Eq => d | _ => c end.

Definition bool_cmp (a b : bool) : comparison :=
  match a, b with
  | false, true => Lt
  | true, false => Gt
  | _, _ => Eq
  end.

(** [Iterator::cmp]: the lexicographic order. *)
Fixpoint lex_cmp (a b : list Z) : comparison :=
  match a, b with
  | [], [] => Eq
  | [], _ :: _ => Lt
  | _ :: _, [] => Gt
  | x :: a', y :: b' => then_with (x ?= y) (lex_cmp a' b')
  end.

(** [Vec::resize]. *)
Definition vec_resize {A} (n : nat) (fill : A) (l : list A) : list A :=
  take n l ++ replicate (n - length l) fill.

(** [vec[i] = x], which panics out of range. *)
Definition vset {A} (l : list A) (i : nat) (x : A) : option (list A) :=
  if (i <? length l)%nat then Some (<[i := x]> l) else None.

Lemma vset_Some {A} (l : list A) i x : (i < length l)%nat -> vset l i x = Some (<[i := x]> l).
Proof. intros H. unfold vset. by rewrite (proj2 (Nat.ltb_lt _ _) H). Qed.

Lemma snoc_cases {A} (l : list A) : l = [] \/ exists l' x, l = l' ++ [x].
Proof. destruct l as [|x l'] using rev_ind; eauto. Qed.

(** ** Automation *)
Create HintDb limbs.

(** [lia] with the defining equations of [/] and [mod]. *)
Ltac divlia := Z.to_euclidean_division_equations; lia.

(** Goals [is_Some o <-> P] with [o] a constructor and [P] arithmetic. *)
Ltac solve_is_some :=
  split; [intros [? ?]; try discriminate; lia | intros; first [exfalso; lia | eauto]].
