(* ===== verification/Words.v ===== *)
(** * Machine words and limb vectors

    The integer types the Rust code computes with: [u64] values are elements
    of [Z] in [[0, 2^64)], each operation written with its wrap-around, and a
    [Vec<u64>] of limbs (least significant first) denotes the number [lval].
    The lemmas relate the limb vectors to that number, arithmetically
    ([lval_app]) and bit by bit ([lval_testbit]). *)
From S2P Require Import Prelude.

(** ** [u64], [i64] *)
Definition u64_max : Z := 2 ^ 64 - 1.
Definition wrap64 (x : Z) : Z := x mod 2 ^ 64.
Definition wrapping_add (a b : Z) : Z := wrap64 (a + b).
Definition wrapping_sub (a b : Z) : Z := wrap64 (a - b).
Definition overflowing_add (a b : Z) : Z * bool := (wrap64 (a + b), 2 ^ 64 <=? a + b).
Definition overflowing_sub (a b : Z) : Z * bool := (wrap64 (a - b), a <? b).

(** [!x], [x << s] and [x >> s] on a [u64]; every shift in the modelled code
    is by less than 64. *)
Definition not64 (x : Z) : Z := u64_max - x.
Definition shl64 (x s : Z) : Z := wrap64 (Z.shiftl x s).
Definition shr64 (x s : Z) : Z := Z.shiftr x s.

(** [x as i64] of a [u64]; a negative [i64 as u64] is [wrap64]. *)
Definition as_i64 (x : Z) : Z := if x <? 2 ^ 63 then x else x - 2 ^ 64.

Fixpoint pos_trailing_zeros (p : positive) : Z :=
  match p with xO p' => 1 + pos_trailing_zeros p' | _ => 0 end.

Fixpoint pos_count_ones (p : positive) : Z :=
  match p with
  | xH => 1
  | xO p' => pos_count_ones p'
  | xI p' => 1 + pos_count_ones p'
  end.

(** [u64::leading_zeros], [u64::trailing_zeros], [u64::count_ones]. *)
Definition leading_zeros (x : Z) : Z := if x =? 0 then 64 else 63 - Z.log2 x.
Definition trailing_zeros (x : Z) : Z :=
  match x with Zpos p => pos_trailing_zeros p | _ => 64 end.
Definition count_ones (x : Z) : Z :=
  match x with Zpos p => pos_count_ones p | _ => 0 end.

(** ** The number a limb vector denotes *)
Definition is_u64 (x : Z) : Prop := 0 <= x < 2 ^ 64.
Definition limbs_ok (ws : list Z) : Prop := Forall is_u64 ws.

Fixpoint lval (ws : list Z) : Z :=
  match ws with [] => 0 | w :: ws' => w + 2 ^ 64 * lval ws' end.

Fixpoint limbs_of (n : nat) (v : Z) : list Z :=
  match n with
  | O => []
  | S n' => v mod 2 ^ 64 :: limbs_of n' (v / 2 ^ 64)
  end.

Definition bits_of (ws : list Z) : Z := 64 * Z.of_nat (length ws).

(** ** Powers of two and bits *)
Lemma pow2_pos k : 0 <= k -> 0 < 2 ^ k.
Proof. intros. apply Z.pow_pos_nonneg; lia. Qed.

Lemma pow2_64_split k : 0 <= k -> 2 ^ (64 + k) = 2 ^ 64 * 2 ^ k.
Proof. intros. by rewrite Z.pow_add_r by lia. Qed.

Lemma wrap64_range x : is_u64 (wrap64 x).
Proof. unfold is_u64, wrap64. apply Z.mod_pos_bound. lia. Qed.

Lemma wrap64_small x : is_u64 x -> wrap64 x = x.
Proof. intros. by apply Z.mod_small. Qed.

Lemma u64_testbit_high x k : is_u64 x -> 64 <= k -> Z.testbit x k = false.
Proof.
  intros [] Hk. destruct (decide (x = 0)) as [->|]; [apply Z.testbit_0_l|].
  apply Z.bits_above_log2; [lia|].
  apply Z.lt_le_trans with 64; [|done]. apply Z.log2_lt_pow2; lia.
Qed.

Lemma bounded_testbit x n k : 0 <= n -> 0 <= x < 2 ^ n -> n <= k -> Z.testbit x k = false.
Proof.
  intros Hn [H0 H1] Hk.
  exact (proj1 (Z.bounded_iff_bits_nonneg' n x Hn H0) (conj H0 H1) k Hk).
Qed.

Lemma testbit_bounded x n : 0 <= n -> 0 <= x -> (forall k, n <= k -> Z.testbit x k = false) -> 0 <= x < 2 ^ n.
Proof. intros. by apply Z.bounded_iff_bits_nonneg'. Qed.

Lemma testbit_is_u64 x : 0 <= x -> (forall k, 64 <= k -> Z.testbit x k = false) -> is_u64 x.
Proof. intros. apply testbit_bounded; [lia|done|done]. Qed.

Lemma land_u64 a b : is_u64 a -> is_u64 b -> is_u64 (Z.land a b).
Proof.
  intros Ha Hb. apply testbit_is_u64; [apply Z.land_nonneg; destruct Ha; lia|].
  intros. by rewrite Z.land_spec, u64_testbit_high.
Qed.

Lemma lor_u64 a b : is_u64 a -> is_u64 b -> is_u64 (Z.lor a b).
Proof.
  intros Ha Hb. apply testbit_is_u64; [apply Z.lor_nonneg; destruct Ha, Hb; lia|].
  intros. by rewrite Z.lor_spec, !u64_testbit_high.
Qed.

Lemma lxor_u64 a b : is_u64 a -> is_u64 b -> is_u64 (Z.lxor a b).
Proof.
  intros Ha Hb. apply testbit_is_u64; [apply Z.lxor_nonneg; destruct Ha, Hb; lia|].
  intros. by rewrite Z.lxor_spec, !u64_testbit_high.
Qed.

Lemma not64_u64 a : is_u64 a -> is_u64 (not64 a).
Proof. unfold is_u64, not64, u64_max. lia. Qed.

Lemma shl64_u64 a s : is_u64 (shl64 a s).
Proof. apply wrap64_range. Qed.

Lemma shr64_u64 a s : 0 <= s -> is_u64 a -> is_u64 (shr64 a s).
Proof.
  intros Hs [H0 H1]. unfold shr64, is_u64. rewrite Z.shiftr_div_pow2 by done.
  pose proof (pow2_pos s Hs). split; [apply Z.div_pos; lia|].
  apply Z.div_lt_upper_bound; nia.
Qed.

Lemma not64_testbit a k : is_u64 a -> 0 <= k < 64 -> Z.testbit (not64 a) k = negb (Z.testbit a k).
Proof.
  intros Ha Hk. unfold not64, u64_max.
  replace (2 ^ 64 - 1 - a) with (Z.lnot a + 1 * 2 ^ 64) by (unfold Z.lnot; lia).
  rewrite <- (Z.mod_pow2_bits_low _ 64) by lia.
  rewrite Z.mod_add by lia. rewrite Z.mod_pow2_bits_low by lia.
  apply Z.lnot_spec. lia.
Qed.

Lemma shl64_testbit a s k : 0 <= k -> Z.testbit (shl64 a s) k = (k <? 64) && Z.testbit a (k - s).
Proof.
  intros. unfold shl64, wrap64. rewrite Z.testbit_mod_pow2 by lia.
  by rewrite Z.shiftl_spec.
Qed.

Lemma shr64_testbit a s k : 0 <= k -> Z.testbit (shr64 a s) k = Z.testbit a (k + s).
Proof. intros. by apply Z.shiftr_spec. Qed.

(** ** Limb vectors *)
Lemma bits_of_nonneg ws : 0 <= bits_of ws.
Proof. unfold bits_of. lia. Qed.

Lemma bits_of_cons w ws : bits_of (w :: ws) = 64 + bits_of ws.
Proof. unfold bits_of. cbn [length]. lia. Qed.

Lemma bits_of_app a b : bits_of (a ++ b) = bits_of a + bits_of b.
Proof. unfold bits_of. rewrite length_app. lia. Qed.

#[export] Hint Resolve bits_of_nonneg wrap64_range : limbs.

Lemma pow_bits_cons w ws : 2 ^ bits_of (w :: ws) = 2 ^ 64 * 2 ^ bits_of ws.
Proof. rewrite bits_of_cons. apply pow2_64_split, bits_of_nonneg. Qed.

Lemma lval_bounds ws : limbs_ok ws -> 0 <= lval ws < 2 ^ bits_of ws.
Proof.
  induction 1 as [|w ws [Hw1 Hw2] _ IH]; [done|].
  rewrite pow_bits_cons. cbn [lval]. nia.
Qed.

Lemma lval_app a b : lval (a ++ b) = lval a + 2 ^ bits_of a * lval b.
Proof.
  induction a as [|x a IH]; [cbn [app lval bits_of length]; unfold bits_of; cbn; lia|].
  cbn [app lval]. rewrite IH, pow_bits_cons. lia.
Qed.

Lemma lval_replicate_0 n : lval (replicate n 0) = 0.
Proof. induction n as [|n IH]; cbn [replicate lval]; [done|]. rewrite IH. lia. Qed.

Lemma limbs_ok_app a b : limbs_ok (a ++ b) <-> limbs_ok a /\ limbs_ok b.
Proof. apply Forall_app. Qed.

Lemma limbs_ok_replicate n x : is_u64 x -> limbs_ok (replicate n x).
Proof. intros. by apply Forall_replicate. Qed.

Lemma length_limbs_of n v : length (limbs_of n v) = n.
Proof. revert v; induction n as [|n IH]; intros; cbn; [done|]. by rewrite IH. Qed.

Lemma limbs_of_ok n v : limbs_ok (limbs_of n v).
Proof.
  revert v; induction n as [|n IH]; intros; cbn [limbs_of]; [constructor|].
  constructor; [apply wrap64_range|apply IH].
Qed.

Lemma lval_limbs_of n v : lval (limbs_of n v) = v mod 2 ^ (64 * Z.of_nat n).
Proof.
  revert v; induction n as [|n IH]; intros; cbn [limbs_of lval].
  - by rewrite Z.mod_1_r.
  - rewrite IH. replace (64 * Z.of_nat (S n)) with (64 + 64 * Z.of_nat n) by lia.
    rewrite pow2_64_split by lia.
    rewrite Z.rem_mul_r; [done|lia|]. apply pow2_pos. lia.
Qed.

Lemma limbs_ext a b : limbs_ok a -> limbs_ok b -> length a = length b -> lval a = lval b -> a = b.
Proof.
  intros Ha; revert b; induction Ha as [|x a [] Ha IH]; intros [|y b] Hb Hl Hv; try done.
  inversion Hb as [|?? [] Hb']; subst. cbn [lval] in Hv.
  assert (x = y /\ lval a = lval b) as [-> Hv'].
  { pose proof (lval_bounds a Ha). pose proof (lval_bounds b Hb'). nia. }
  f_equal. by apply IH; [| injection Hl|].
Qed.

Lemma limbs_of_lval ws : limbs_ok ws -> limbs_of (length ws) (lval ws) = ws.
Proof.
  intros H. apply limbs_ext; [apply limbs_of_ok|done|apply length_limbs_of|].
  rewrite lval_limbs_of. apply Z.mod_small. by apply lval_bounds.
Qed.

(** The limb at an index, zero past the end: [words.get(i).unwrap_or(0)]. *)
Definition limb_at (ws : list Z) (i : nat) : Z := default 0 (ws !! i).

Lemma limb_at_u64 ws i : limbs_ok ws -> is_u64 (limb_at ws i).
Proof.
  intros H. unfold limb_at. destruct (ws !! i) eqn:E; cbn; [|done].
  by apply (Forall_lookup_1 _ _ _ _ H E).
Qed.

Lemma limb_at_over ws i : (length ws <= i)%nat -> limb_at ws i = 0.
Proof. intros. unfold limb_at. by rewrite lookup_ge_None_2. Qed.

Lemma lval_testbit ws k : limbs_ok ws -> 0 <= k ->
  Z.testbit (lval ws) k = Z.testbit (limb_at ws (Z.to_nat (k / 64))) (k mod 64).
Proof.
  intros H; revert k; induction H as [|w ws Hw H IH]; intros k Hk.
  { cbn [lval]. unfold limb_at. by rewrite lookup_nil, !Z.testbit_0_l. }
  cbn [lval]. destruct (Z.ltb_spec k 64).
  - rewrite Z.div_small, Z.mod_small by lia. cbn.
    rewrite <- (Z.mod_pow2_bits_low _ 64) by lia.
    rewrite Z.mul_comm, Z.mod_add, Z.mod_small by (done || lia). done.
  - replace k with ((k - 64) + 64) at 1 by lia.
    rewrite <- Z.div_pow2_bits by lia.
    rewrite Z.mul_comm, Z.div_add, Z.div_small by (done || lia).
    rewrite Z.add_0_l, IH by lia.
    replace (k / 64) with (1 + (k - 64) / 64) by divlia.
    replace (k mod 64) with ((k - 64) mod 64) by divlia.
    rewrite Z2Nat.inj_add by (try apply Z.div_pos; lia). done.
Qed.

Lemma limb_testbit ws i k : limbs_ok ws -> 0 <= k < 64 ->
  Z.testbit (limb_at ws i) k = Z.testbit (lval ws) (64 * Z.of_nat i + k).
Proof.
  intros H Hk. rewrite lval_testbit by (done || lia).
  rewrite (Z.mul_comm 64), Z.add_comm, Z.div_add, Z.div_small, Z.mod_add, Z.mod_small by lia.
  rewrite Z.add_0_l. by rewrite Nat2Z.id.
Qed.

(** Two numbers below [2^n] with the same bits below [n] are equal. *)
Lemma bounded_bits_ext n x y : 0 <= n -> 0 <= x < 2 ^ n -> 0 <= y < 2 ^ n ->
  (forall k, 0 <= k < n -> Z.testbit x k = Z.testbit y k) -> x = y.
Proof.
  intros Hn Hx Hy H. apply Z.bits_inj'. intros k Hk.
  destruct (Z.ltb_spec k n); [apply H; lia|].
  by rewrite !(bounded_testbit _ n).
Qed.

(** A limb vector is determined bit by bit by the number it denotes. *)
Lemma lval_bits ws v : limbs_ok ws ->
  (forall i k, (i < length ws)%nat -> 0 <= k < 64 ->
     Z.testbit (limb_at ws i) k = Z.testbit v (64 * Z.of_nat i + k)) ->
  lval ws = v mod 2 ^ bits_of ws.
Proof.
  intros Hok H. pose proof (bits_of_nonneg ws) as Hb. pose proof (pow2_pos _ Hb) as Hp.
  apply (bounded_bits_ext (bits_of ws)); [done|by apply lval_bounds|by apply Z.mod_pos_bound|].
  intros k Hk. rewrite Z.mod_pow2_bits_low by lia. rewrite lval_testbit by (done || lia).
  pose proof (Z.mod_pos_bound k 64 ltac:(lia)). pose proof (Z.div_mod k 64 ltac:(lia)).
  pose proof (Z.div_pos k 64 ltac:(lia) ltac:(lia)).
  rewrite H; [|unfold bits_of in Hk; lia|done]. f_equal. lia.
Qed.

(** ** Checked arithmetic and slices *)

Definition checked_add (a b : Z) : option Z := if a + b <=? u64_max then Some (a + b) else None.
Definition checked_sub (a b : Z) : option Z := if b <=? a then Some (a - b) else None.

(** [l[a..b]] and [l[a..a + n].copy_from_slice(s)]. *)
Definition slice {A} (l : list A) (a b : nat) : option (list A) :=
  if (a <=? b)%nat && (b <=? length l)%nat then Some (take (b - a) (drop a l)) else None.
Definition copy_at {A} (l : list A) (a : nat) (s : list A) : option (list A) :=
  if (a + length s <=? length l)%nat then Some (take a l ++ s ++ drop (a + length s) l) else None.

Lemma slice_spec {A} (l : list A) a n : (a + n <= length l)%nat ->
  exists s, slice l a (a + n) = Some s /\ length s = n /\ forall i, (i < n)%nat -> s !! i = l !! (a + i)%nat.
Proof.
  intros H. unfold slice. rewrite (proj2 (Nat.leb_le _ _)), (proj2 (Nat.leb_le _ _)) by lia. cbn. replace (a + n - a)%nat with n by lia.
  eexists. split; [done|]. split; [rewrite length_take, length_drop; lia|]. intros i Hi.
  by rewrite lookup_take_lt, lookup_drop by lia.
Qed.

Lemma copy_at_spec {A} (l : list A) a s : (a + length s <= length l)%nat ->
  exists l', copy_at l a s = Some l' /\ length l' = length l /\
    forall i, l' !! i = if (a <=? i)%nat && (i <? a + length s)%nat then s !! (i - a)%nat else l !! i.
Proof.
  intros H. unfold copy_at. rewrite (proj2 (Nat.leb_le _ _)) by lia. eexists. split; [done|].
  split; [rewrite !length_app, length_take, length_drop; lia|]. intros i.
  destruct (Nat.leb_spec a i); cbn [andb]; [destruct (Nat.ltb_spec i (a + length s))|].
  - rewrite lookup_app_r, length_take, Nat.min_l by (rewrite ?length_take; lia). by rewrite lookup_app_l by lia.
  - rewrite lookup_app_r, length_take, Nat.min_l by (rewrite ?length_take; lia). rewrite lookup_app_r, lookup_drop by lia.
    f_equal. lia.
  - rewrite lookup_app_l by (rewrite length_take; lia). by rewrite lookup_take_lt by lia.
Qed.

Ltac natcase := repeat match goal with
  | |- context [Nat.leb ?a ?b] => destruct (Nat.leb_spec a b)
  | |- context [Nat.ltb ?a ?b] => destruct (Nat.ltb_spec a b)
  end; cbn [andb orb negb].

(** ** [Result] *)

Inductive result (A E : Type) := Ok (a : A) | Err (e : E).
Arguments Ok {A E}.
Arguments Err {A E}.

(** A computation that can panic and can fail; [e ?; k] is Rust's [e?; k]. *)
Definition try_bind {A B E} (c : option (result A E)) (k : A -> option (result B E)) : option (result B E) :=
  r ← c; match r with Ok a => k a | Err e => Some (Err e) end.
Notation "x <-? c ; k" := (try_bind c (fun x => k))
  (at level 100, c at next level, k at level 200, right associativity) : rust_scope.

Lemma try_bind_assoc {A B C E} (c : option (result A E)) (f : A -> option (result B E)) (g : B -> option (result C E)) :
  try_bind (try_bind c f) g = try_bind c (fun x => try_bind (f x) g).
Proof. by destruct c as [[|]|]. Qed.

