(* ===== verification/ApInt.v ===== *)
(** * [APInt]: arbitrary-precision integers ([libs/adt/src/apint.rs])

    The data type and its operations, as the Rust code writes them: values of
    at most 64 bits are one word, wider ones keep the limbs above the low word
    beside it. An operation that can panic returns [option]. *)
From S2P Require Import Prelude Words.

(** ** The type *)
Record APInt := mkAPInt {
  width : Z;
  signed : bool;
  value : Z;
  (* [Some] exactly when [64 < width], with the bits past [width] clear. *)
  high : option (list Z);
}.

#[export] Instance APInt_eq_dec : EqDecision APInt.
Proof. solve_decision. Defined.

Definition limb_count (width : Z) : nat := Z.to_nat ((width + 63) / 64).

Definition mask_for_width (width : Z) : Z :=
  if 64 <=? width then u64_max else shl64 1 width - 1.

Definition limbs (a : APInt) : list Z := value a :: default [] (high a).

Definition high_limbs (a : APInt) : list Z := default [] (high a).

(** [words[0]] panics on the empty vector a zero width gives. *)
Definition from_words (width : Z) (signed : bool) (words : list Z) : option APInt :=
  let words := vec_resize (limb_count width) 0 words in
  let words :=
    alter (fun top => Z.land top (mask_for_width (width - 64 * (Z.of_nat (limb_count width) - 1))))
      (pred (length words)) words in
  let high := if 64 <? width then Some (drop 1 words) else None in
  value ← words !! 0%nat;
  Some (mkAPInt width signed value high).

(** ** Constructors *)
Definition new (width value : Z) : option APInt :=
  assert! 0 <? width;
  if 64 <? width then from_words width false [value]
  else Some (mkAPInt width false (Z.land value (mask_for_width width)) None).

(** [value] is an [i64]; [value as u64] is [wrap64 value]. *)
Definition new_signed (width value : Z) : option APInt :=
  assert! 0 <? width;
  if 64 <? width then
    let fill := if value <? 0 then u64_max else 0 in
    let words := replicate (limb_count width) fill in
    from_words width true (<[0%nat := wrap64 value]> words)
  else Some (mkAPInt width true (Z.land (wrap64 value) (mask_for_width width)) None).

Definition from_limbs (width : Z) (limbs : list Z) : option APInt :=
  assert! 0 <? width;
  from_words width false limbs.

Definition from_u64 (value : Z) : option APInt := new 64 value.
Definition from_i64 (value : Z) : option APInt := new_signed 64 value.
Definition zero (width : Z) : option APInt := new width 0.
Definition one (width : Z) : option APInt := new width 1.

(** ** Observers *)
Definition to_u64 (a : APInt) : Z := value a.

(** The callers ask for bits below [width], whose limb is always present. *)
Definition bit (a : APInt) (index : Z) : bool :=
  let limb :=
    match index / 64 with
    | 0 => value a
    | n => match high a with None => 0 | Some hs => limb_at hs (Z.to_nat n - 1) end
    end in
  negb (Z.land (shr64 limb (index mod 64)) 1 =? 0).

Definition top_bit (a : APInt) : bool := bit a (width a - 1).
Definition is_negative (a : APInt) : bool := signed a && top_bit a.

Definition to_i64 (a : APInt) : Z :=
  if signed a && is_negative a then
    let extension := if 64 <=? width a then 0 else shl64 u64_max (width a) in
    as_i64 (Z.lor (value a) extension)
  else as_i64 (value a).

Definition signed_at_width (a : APInt) : Z :=
  if 64 <=? width a then as_i64 (value a)
  else
    let shift := 64 - width a in
    Z.shiftr (as_i64 (shl64 (value a) shift)) shift.

Definition is_zero (a : APInt) : bool :=
  (value a =? 0) &&
  match high a with None => true | Some hs => forallb (fun limb => limb =? 0) hs end.

Definition with_signed (a : APInt) (signed : bool) : APInt :=
  mkAPInt (width a) signed (value a) (high a).

(** ** Limb-vector arithmetic *)
Fixpoint add_words_go (carry : bool) (a b : list Z) : list Z :=
  match a, b with
  | x :: a', y :: b' =>
      let '(sum, first) := overflowing_add x y in
      let '(sum, second) := overflowing_add sum (Z.b2z carry) in
      sum :: add_words_go (first || second) a' b'
  | _, _ => []
  end.
Definition add_words (a b : list Z) : list Z := add_words_go false a b.

Fixpoint sub_words_go (borrow : bool) (a b : list Z) : list Z :=
  match a, b with
  | x :: a', y :: b' =>
      let '(difference, first) := overflowing_sub x y in
      let '(difference, second) := overflowing_sub difference (Z.b2z borrow) in
      difference :: sub_words_go (first || second) a' b'
  | _, _ => []
  end.
Definition sub_words (a b : list Z) : list Z := sub_words_go false a b.

(** The inner loop over [j]: [current] is a [u128], which holds
    [2^64 * 2^64 - 1] at most here. *)
Fixpoint mul_words_inner (i j : nat) (x : Z) (bs : list Z) (carry : Z)
    (product : list Z) : option (list Z) :=
  match bs with
  | [] => Some product
  | y :: bs' =>
      p ← product !! (i + j)%nat;
      let current := x * y + p + carry in
      mul_words_inner i (S j) x bs' (Z.shiftr current 64)
        (<[(i + j)%nat := wrap64 current]> product)
  end.

(** The outer loop over [i]; the row's last carry is dropped. *)
Fixpoint mul_words_outer (i : nat) (xs b product : list Z) : option (list Z) :=
  match xs with
  | [] => Some product
  | x :: xs' =>
      product ← mul_words_inner i 0 x (take (length product - i) b) 0 product;
      mul_words_outer (S i) xs' b product
  end.
Definition mul_words (a b : list Z) : option (list Z) :=
  mul_words_outer 0 a b (replicate (length a) 0).

Definition shl_words (words : list Z) (shift : Z) : list Z :=
  let limbs := Z.to_nat (shift / 64) in
  let bits := shift mod 64 in
  map (fun i : nat =>
         let at_ (k : nat) := if (k <=? i)%nat then limb_at words (i - k) else 0 in
         match bits with
         | 0 => at_ limbs
         | _ => Z.lor (shl64 (at_ limbs) bits) (shr64 (at_ (limbs + 1)%nat) (64 - bits))
         end)
    (seq 0 (length words)).

Definition lshr_words (words : list Z) (shift : Z) : list Z :=
  let limbs := Z.to_nat (shift / 64) in
  let bits := shift mod 64 in
  map (fun i : nat =>
         let at_ (k : nat) := limb_at words (i + k) in
         match bits with
         | 0 => at_ limbs
         | _ => Z.lor (shr64 (at_ limbs) bits) (shl64 (at_ (limbs + 1)%nat) (64 - bits))
         end)
    (seq 0 (length words)).

Definition cmp_words (a b : list Z) : comparison := lex_cmp (rev a) (rev b).

(** One turn of the restoring division, for the dividend bit [bit]. *)
Definition divrem_step (a divisor : list Z) (bit : Z) (qr : list Z * list Z)
    : option (list Z * list Z) :=
  let '(quotient, remainder) := qr in
  let remainder := shl_words remainder 1 in
  word ← a !! Z.to_nat (bit / 64);
  let remainder := alter (Z.lor (Z.land (shr64 word (bit mod 64)) 1)) 0%nat remainder in
  match cmp_words remainder divisor with
  | Lt => Some (quotient, remainder)
  | _ =>
      let remainder := sub_words remainder divisor in
      q ← quotient !! Z.to_nat (bit / 64);
      Some (<[Z.to_nat (bit / 64) := Z.lor q (shl64 1 (bit mod 64))]> quotient, remainder)
  end.

(** [for bit in (0..n).rev()]. *)
Fixpoint divrem_loop (a divisor : list Z) (n : nat) (qr : list Z * list Z)
    : option (list Z * list Z) :=
  match n with
  | O => Some qr
  | S n' =>
      qr ← divrem_step a divisor (Z.of_nat n') qr;
      divrem_loop a divisor n' qr
  end.

Definition divrem_words (a b : list Z) (width : Z) : option (list Z * list Z) :=
  '(quotient, remainder) ← divrem_loop a (b ++ [0]) (Z.to_nat width)
    (replicate (length a) 0, replicate (length a + 1) 0);
  Some (quotient, removelast remainder).

(** ** Width changes *)
Definition zero_extend (a : APInt) (new_width : Z) : option APInt :=
  assert! width a <=? new_width;
  from_words new_width false (limbs a).

Definition sign_extend (a : APInt) (new_width : Z) : option APInt :=
  assert! width a <=? new_width;
  if negb (is_negative a) then from_words new_width (signed a) (limbs a)
  else
    let words := limbs a in
    let top := pred (length words) in
    let words :=
      alter (fun w => Z.lor w (not64 (mask_for_width (width a - 64 * Z.of_nat top)))) top words in
    let words := vec_resize (limb_count new_width) u64_max words in
    from_words new_width true words.

Definition truncate (a : APInt) (new_width : Z) : option APInt :=
  assert! new_width <=? width a;
  from_words new_width (signed a) (limbs a).

Definition extract_bits (a : APInt) (high low : Z) : option APInt :=
  assert! low <=? high;
  assert! high <? width a;
  let new_width := high - low + 1 in
  if 64 <? width a then from_words new_width false (lshr_words (limbs a) low)
  else
    let mask := mask_for_width new_width in
    Some (mkAPInt new_width false (Z.land (shr64 (value a) low) mask) None).

(** ** Bitwise operations *)
Definition limbwise (a b : APInt) (f : Z -> Z -> Z) : option APInt :=
  assert! width a =? width b;
  from_words (width a) (signed a && signed b) (zip_with f (limbs a) (limbs b)).

Definition and (a b : APInt) : option APInt :=
  if 64 <? width a then limbwise a b Z.land
  else
    assert! width a =? width b;
    Some (mkAPInt (width a) (signed a && signed b) (Z.land (value a) (value b)) None).

Definition or (a b : APInt) : option APInt :=
  if 64 <? width a then limbwise a b Z.lor
  else
    assert! width a =? width b;
    Some (mkAPInt (width a) (signed a && signed b) (Z.lor (value a) (value b)) None).

Definition xor (a b : APInt) : option APInt :=
  if 64 <? width a then limbwise a b Z.lxor
  else
    assert! width a =? width b;
    Some (mkAPInt (width a) (signed a && signed b) (Z.lxor (value a) (value b)) None).

Definition not (a : APInt) : option APInt :=
  if 64 <? width a then from_words (width a) (signed a) (map not64 (limbs a))
  else
    let mask := mask_for_width (width a) in
    Some (mkAPInt (width a) (signed a) (Z.land (not64 (value a)) mask) None).

(** ** Shifts *)
Definition shl (a : APInt) (shift : Z) : option APInt :=
  if width a <=? shift then zero (width a)
  else if 64 <? width a then from_words (width a) (signed a) (shl_words (limbs a) shift)
  else
    let mask := mask_for_width (width a) in
    Some (mkAPInt (width a) (signed a) (Z.land (shl64 (value a) shift) mask) None).

Definition lshr (a : APInt) (shift : Z) : option APInt :=
  if width a <=? shift then zero (width a)
  else if 64 <? width a then from_words (width a) false (lshr_words (limbs a) shift)
  else Some (mkAPInt (width a) false (shr64 (value a) shift) None).

Definition ashr (a : APInt) (shift : Z) : option APInt :=
  if shift =? 0 then Some a
  else if 64 <? width a then
    if negb (is_negative a) then lshr a shift
    else
      inverted ← not a;
      shifted ← lshr inverted shift;
      filled ← not shifted;
      Some (with_signed filled (signed a))
  else if width a <=? shift then
    if is_negative a then Some (mkAPInt (width a) (signed a) (mask_for_width (width a)) None)
    else zero (width a)
  else if signed a && is_negative a then
    let mask := mask_for_width (width a) in
    let sign_extension := Z.land (shl64 mask (width a - shift)) mask in
    Some (mkAPInt (width a) (signed a) (Z.lor (shr64 (value a) shift) sign_extension) None)
  else lshr a shift.

Definition max_value (width : Z) (signed : bool) : option APInt :=
  if 64 <? width then
    ones ← from_words width signed (replicate (limb_count width) u64_max);
    if signed then
      shifted ← lshr ones 1;
      Some (with_signed shifted true)
    else Some ones
  else if signed then
    let mask := mask_for_width width in
    let sign_bit := shl64 1 (width - 1) in
    Some (mkAPInt width true (Z.land mask (not64 sign_bit)) None)
  else Some (mkAPInt width false (mask_for_width width) None).

(** ** Arithmetic *)
Definition add (a b : APInt) : option APInt :=
  assert! width a =? width b;
  if 64 <? width a then
    from_words (width a) (signed a && signed b) (add_words (limbs a) (limbs b))
  else
    let mask := mask_for_width (width a) in
    Some (mkAPInt (width a) (signed a && signed b)
            (Z.land (wrapping_add (value a) (value b)) mask) None).

Definition sub (a b : APInt) : option APInt :=
  assert! width a =? width b;
  if 64 <? width a then
    from_words (width a) (signed a && signed b) (sub_words (limbs a) (limbs b))
  else
    let mask := mask_for_width (width a) in
    Some (mkAPInt (width a) (signed a && signed b)
            (Z.land (wrapping_sub (value a) (value b)) mask) None).

Definition mul (a b : APInt) : option APInt :=
  assert! width a =? width b;
  if 64 <? width a then
    words ← mul_words (limbs a) (limbs b);
    from_words (width a) (signed a && signed b) words
  else
    let full_result := value a * value b in
    let mask := mask_for_width (width a) in
    Some (mkAPInt (width a) (signed a && signed b) (Z.land (wrap64 full_result) mask) None).

Definition neg (a : APInt) : option APInt :=
  if 64 <? width a then
    z ← zero (width a);
    difference ← sub z a;
    Some (with_signed difference (signed a))
  else
    let mask := mask_for_width (width a) in
    Some (mkAPInt (width a) (signed a) (Z.land (wrapping_add (not64 (value a)) 1) mask) None).

Definition abs (a : APInt) : option APInt := if is_negative a then neg a else Some a.

Definition mulhu (a b : APInt) : option APInt :=
  assert! width a =? width b;
  if 64 <? width a then
    let double := 2 * width a in
    x ← zero_extend a double;
    y ← zero_extend b double;
    product ← mul x y;
    extract_bits product (double - 1) (width a)
  else
    let full_result := value a * value b in
    let high_bits := wrap64 (Z.shiftr full_result (width a)) in
    let mask := mask_for_width (width a) in
    Some (mkAPInt (width a) false (Z.land high_bits mask) None).

(** A [u128] and its reading as an [i128]. *)
Definition sext_u128 (a : APInt) : Z :=
  if is_negative a then
    Z.lor (value a) (Z.shiftl (2 ^ 128 - 1) (width a) mod 2 ^ 128)
  else value a.

Definition as_i128 (x : Z) : Z := if x <? 2 ^ 127 then x else x - 2 ^ 128.

Definition mulh (a b : APInt) : option APInt :=
  assert! width a =? width b;
  if 64 <? width a then
    let double := 2 * width a in
    x ← sign_extend a double;
    y ← sign_extend b double;
    product ← mul x y;
    bits ← extract_bits product (double - 1) (width a);
    Some (with_signed bits true)
  else
    let full_result := (as_i128 (sext_u128 a) * as_i128 (sext_u128 b)) mod 2 ^ 128 in
    let high_bits := wrap64 (Z.shiftr full_result (width a)) in
    let mask := mask_for_width (width a) in
    Some (mkAPInt (width a) true (Z.land high_bits mask) None).

(** ** Division *)
Definition magnitude (a : APInt) : option (list Z) :=
  if top_bit a then
    negated ← neg a;
    Some (limbs negated)
  else Some (limbs a).

Definition signed_divrem (a b : APInt) : option (APInt * APInt) :=
  x ← magnitude a;
  y ← magnitude b;
  '(quotient, remainder) ← divrem_words x y (width a);
  quotient ← from_words (width a) true quotient;
  remainder ← from_words (width a) true remainder;
  q ← (if xorb (top_bit a) (top_bit b) then neg quotient else Some quotient);
  r ← (if top_bit a then neg remainder else Some remainder);
  Some (q, r).

(** [wrapping_div] and [wrapping_rem] of [i64] truncate; [i64::MIN / -1] wraps,
    which [wrap64] of the quotient expresses. *)
Definition divrem (a b : APInt) (signed : bool) : option (APInt * APInt) :=
  assert! width a =? width b;
  assert! negb (is_zero b);
  if (64 <? width a) && signed then signed_divrem a b
  else if 64 <? width a then
    '(quotient, remainder) ← divrem_words (limbs a) (limbs b) (width a);
    q ← from_words (width a) false quotient;
    r ← from_words (width a) false remainder;
    Some (q, r)
  else
    let '(quotient, remainder) :=
      if signed then
        let lhs := signed_at_width a in
        let rhs := signed_at_width b in
        (wrap64 (Z.quot lhs rhs), wrap64 (Z.rem lhs rhs))
      else (value a / value b, value a mod value b) in
    let mask := mask_for_width (width a) in
    let word v := mkAPInt (width a) signed (Z.land v mask) None in
    Some (word quotient, word remainder).

Definition udiv (a b : APInt) : option APInt := fst <$> divrem a b false.
Definition sdiv (a b : APInt) : option APInt := fst <$> divrem a b true.
Definition urem (a b : APInt) : option APInt := snd <$> divrem a b false.
Definition srem (a b : APInt) : option APInt := snd <$> divrem a b true.

(** ** Comparisons *)
Definition ucmp (a b : APInt) : option comparison :=
  assert! width a =? width b;
  if 64 <? width a then Some (cmp_words (limbs a) (limbs b))
  else Some (value a ?= value b).

Definition scmp (a b : APInt) : option comparison :=
  assert! width a =? width b;
  if 64 <? width a then
    Some (then_with (bool_cmp (top_bit b) (top_bit a)) (cmp_words (limbs a) (limbs b)))
  else Some (signed_at_width a ?= signed_at_width b).

Definition numeric_key (a : APInt) : Z := if signed a then to_i64 a else value a.

Definition numeric_cmp (a b : APInt) : option comparison :=
  if (width a <=? 64) && (width b <=? 64) then Some (numeric_key a ?= numeric_key b)
  else
    let width := Z.max (width a) (width b) + 1 in
    let widen v := if is_negative v then sign_extend v width else zero_extend v width in
    x ← widen a;
    y ← widen b;
    scmp x y.

(** [impl Ord for APInt]. *)
Definition cmp (a b : APInt) : option comparison :=
  c ← numeric_cmp a b;
  Some (then_with (then_with c (width a ?= width b)) (bool_cmp (signed a) (signed b))).

Definition is_lt (c : comparison) : bool := match c with Lt => true | _ => false end.
Definition is_le (c : comparison) : bool := match c with Gt => false | _ => true end.
Definition is_gt (c : comparison) : bool := match c with Gt => true | _ => false end.
Definition is_ge (c : comparison) : bool := match c with Lt => false | _ => true end.

Definition ult (a b : APInt) : option bool := is_lt <$> ucmp a b.
Definition ule (a b : APInt) : option bool := is_le <$> ucmp a b.
Definition ugt (a b : APInt) : option bool := is_gt <$> ucmp a b.
Definition uge (a b : APInt) : option bool := is_ge <$> ucmp a b.
Definition slt (a b : APInt) : option bool := is_lt <$> scmp a b.
Definition sle (a b : APInt) : option bool := is_le <$> scmp a b.
Definition sgt (a b : APInt) : option bool := is_gt <$> scmp a b.
Definition sge (a b : APInt) : option bool := is_ge <$> scmp a b.

(** ** Bit counts *)

(** [iter().position(p)] and [iter().rposition(p)], [unwrap_or(0)]. *)
Fixpoint position_nonzero (ws : list Z) : option nat :=
  match ws with
  | [] => None
  | w :: ws' => if w =? 0 then S <$> position_nonzero ws' else Some 0%nat
  end.
Fixpoint rposition_nonzero (ws : list Z) : option nat :=
  match ws with
  | [] => None
  | w :: ws' =>
      match rposition_nonzero ws' with
      | Some i => Some (S i)
      | None => if w =? 0 then None else Some 0%nat
      end
  end.

Definition count_leading_zeros (a : APInt) : Z :=
  if is_zero a then width a
  else if 64 <? width a then
    let limbs := limbs a in
    let top := default 0%nat (rposition_nonzero limbs) in
    let set := 64 * Z.of_nat top + 64 - leading_zeros (limb_at limbs top) in
    width a - set
  else
    let mask := mask_for_width (width a) in
    let effective_value := Z.land (value a) mask in
    leading_zeros effective_value - (64 - width a).

Definition count_trailing_zeros (a : APInt) : Z :=
  if is_zero a then width a
  else if 64 <? width a then
    let limbs := limbs a in
    let low := default 0%nat (position_nonzero limbs) in
    64 * Z.of_nat low + trailing_zeros (limb_at limbs low)
  else Z.min (trailing_zeros (value a)) (width a).

Definition popcount (a : APInt) : Z :=
  if 64 <? width a then foldr Z.add 0 (map count_ones (limbs a))
  else count_ones (Z.land (value a) (mask_for_width (width a))).

Example add_wide :
  (x ← new 128 u64_max; y ← one 128; r ← add x y; Some (limbs r)) = Some [0; 1].
Proof. reflexivity. Qed.
Example sdiv_wide :
  (x ← new_signed 100 (-7); y ← new_signed 100 2; q ← sdiv x y; r ← srem x y;
   Some (to_i64 q, to_i64 r)) = Some (-3, -1).
Proof. vm_compute. reflexivity. Qed.
Example mulh_small :
  (x ← new_signed 8 (-100); y ← new_signed 8 100; r ← mulh x y; Some (to_i64 r)) = Some (-40).
Proof. vm_compute. reflexivity. Qed.
