(* ===== verification/ApIntSpec.v ===== *)
(** * The number an [APInt] denotes

    [uval] and [sval] read a value as an unsigned and as a two's-complement
    number, [wf] is the representation invariant, and [repr w s v] is the one
    well-formed value of width [w] and flag [s] that denotes [v] modulo [2^w].
    Every operation is characterised by an equation [op a b = Some (repr ..)],
    which says at once that it does not panic, that the result is well formed
    and what it denotes; the word path and the limb path of an operation give
    the same equation. *)
From S2P Require Import Prelude Words ApInt.

Definition uval (a : APInt) : Z := lval (limbs a).
Definition sign_of (w v : Z) : Z := if v <? 2 ^ (w - 1) then v else v - 2 ^ w.
Definition sval (a : APInt) : Z := sign_of (width a) (uval a).
(** The value the [signed] flag selects. *)
Definition ival (a : APInt) : Z := if signed a then sval a else uval a.

Record wf (a : APInt) : Prop := {
  wf_width : 0 < width a;
  wf_high : is_Some (high a) <-> 64 < width a;
  wf_length : length (limbs a) = limb_count (width a);
  wf_limbs : limbs_ok (limbs a);
  wf_bound : uval a < 2 ^ width a;
}.

Definition wfb (a : APInt) : bool :=
  (0 <? width a) &&
  Bool.eqb (match high a with Some _ => true | None => false end) (64 <? width a) &&
  (length (limbs a) =? limb_count (width a))%nat &&
  forallb (fun w => (0 <=? w) && (w <? 2 ^ 64)) (limbs a) &&
  (uval a <? 2 ^ width a).

Definition repr (w : Z) (s : bool) (v : Z) : APInt :=
  let ws := limbs_of (limb_count w) (v mod 2 ^ w) in
  mkAPInt w s (limb_at ws 0) (if 64 <? w then Some (drop 1 ws) else None).

Lemma wfb_wf a : wfb a = true -> wf a.
Proof.
  unfold wfb. rewrite !andb_true_iff. intros [[[[Hw Hh] Hl] Ho] Hb].
  split; [lia| |by apply Nat.eqb_eq| |lia].
  - apply eqb_prop in Hh. destruct (high a), (Z.ltb_spec 64 (width a)); try done.
    solve_is_some.
  - apply Forall_forall. intros x Hx. rewrite forallb_forall in Ho.
    apply Ho in Hx. unfold is_u64. lia.
Qed.

(** ** Limb counts and masks *)
Lemma limb_count_pos w : 0 < w -> (0 < limb_count w)%nat.
Proof. intros. unfold limb_count. divlia. Qed.

Lemma limb_count_bits w : 0 < w -> w <= 64 * Z.of_nat (limb_count w) < w + 64.
Proof. intros. unfold limb_count. divlia. Qed.

Lemma limb_count_small w : 0 < w <= 64 -> limb_count w = 1%nat.
Proof. intros. unfold limb_count. divlia. Qed.

Lemma mask_ones w : 0 <= w <= 64 -> mask_for_width w = Z.ones w.
Proof.
  intros. unfold mask_for_width. destruct (Z.leb_spec 64 w).
  - replace w with 64 by lia. done.
  - unfold shl64, wrap64. rewrite Z.shiftl_1_l, Z.ones_equiv, Z.mod_small; [lia|].
    split; [apply Z.pow_nonneg; lia|]. apply Z.pow_lt_mono_r; lia.
Qed.

Lemma land_mask w v : 0 <= w <= 64 -> Z.land v (mask_for_width w) = v mod 2 ^ w.
Proof. intros. rewrite mask_ones by done. apply Z.land_ones. lia. Qed.

Lemma wrap64_mod v w : 0 <= w <= 64 -> wrap64 v mod 2 ^ w = v mod 2 ^ w.
Proof.
  intros. unfold wrap64. symmetry.
  replace 64 with (w + (64 - w)) by lia. rewrite Z.pow_add_r by lia.
  rewrite Z.rem_mul_r, (Z.mul_comm (2 ^ w)), Z.mod_add, Z.mod_mod; try done; pose proof (pow2_pos w); lia.
Qed.

Lemma mod_pow2_mono v w w' : 0 <= w <= w' -> (v mod 2 ^ w') mod 2 ^ w = v mod 2 ^ w.
Proof.
  intros. apply Z.bits_inj'. intros k Hk. rewrite !Z.testbit_mod_pow2 by lia.
  destruct (Z.ltb_spec k w), (Z.ltb_spec k w'); try done; lia.
Qed.

(** ** [repr] *)
Lemma limbs_repr w s v : 0 < w -> limbs (repr w s v) = limbs_of (limb_count w) (v mod 2 ^ w).
Proof.
  intros Hw. pose proof (limb_count_pos w Hw). unfold limbs, repr; cbn.
  destruct (limb_count w) as [|n] eqn:E; [lia|]. cbn.
  destruct (Z.ltb_spec 64 w); cbn; [done|].
  rewrite limb_count_small in E by lia. by injection E as <-.
Qed.

Lemma uval_repr w s v : 0 < w -> uval (repr w s v) = v mod 2 ^ w.
Proof.
  intros Hw. unfold uval. rewrite limbs_repr, lval_limbs_of by done.
  apply Z.mod_small. pose proof (Z.mod_pos_bound v (2 ^ w) (pow2_pos w ltac:(lia))).
  split; [lia|]. eapply Z.lt_le_trans; [apply H|].
  apply Z.pow_le_mono_r; [lia|]. pose proof (limb_count_bits w Hw). lia.
Qed.

Lemma repr_wf w s v : 0 < w -> wf (repr w s v).
Proof.
  intros Hw. split; [done| | | |].
  - cbn. destruct (Z.ltb_spec 64 w); solve_is_some.
  - rewrite limbs_repr by done. apply length_limbs_of.
  - rewrite limbs_repr by done. apply limbs_of_ok.
  - rewrite uval_repr by done. cbn. apply Z.mod_pos_bound, pow2_pos. lia.
Qed.

Lemma uval_bounds a : wf a -> 0 <= uval a < 2 ^ width a.
Proof. intros [_ _ _ Hl Hb]. split; [by apply lval_bounds|done]. Qed.

Lemma wf_repr a : wf a -> a = repr (width a) (signed a) (uval a).
Proof.
  intros Ha. pose proof (uval_bounds a Ha). destruct Ha as [Hw Hh Hl Ho Hb].
  pose proof (limbs_repr (width a) (signed a) (uval a) Hw) as E.
  rewrite (Z.mod_small (uval a)) in E by done.
  unfold uval in E at 2. rewrite <- Hl, limbs_of_lval in E by done.
  destruct a as [w s v h]. unfold limbs, repr in *. cbn [width signed value high] in *.
  injection E as E1 E2. f_equal.
  - by rewrite E1.
  - destruct (Z.ltb_spec 64 w), h as [h|]; try done.
    + f_equal. exact (eq_sym E2).
    + destruct Hh as [_ Hh]. by destruct Hh.
    + destruct Hh as [Hh _]. exfalso. specialize (Hh (mk_is_Some _ _ eq_refl)). lia.
Qed.

Lemma repr_ext w s v v' : v mod 2 ^ w = v' mod 2 ^ w -> repr w s v = repr w s v'.
Proof. intros H. unfold repr. by rewrite H. Qed.

Lemma repr_mod w s v : 0 <= w -> repr w s (v mod 2 ^ w) = repr w s v.
Proof. intros. apply repr_ext, Z.mod_mod. pose proof (pow2_pos w). lia. Qed.

Lemma repr_eq a w s v : wf a -> width a = w -> signed a = s -> uval a = v mod 2 ^ w -> a = repr w s v.
Proof.
  intros Ha <- <- Hv. rewrite (wf_repr a Ha) at 1. rewrite Hv.
  apply repr_mod. destruct Ha. lia.
Qed.

Lemma wf_ext a b : wf a -> wf b -> width a = width b -> signed a = signed b -> uval a = uval b -> a = b.
Proof. intros Ha Hb Hw Hs Hu. rewrite (wf_repr a Ha), (wf_repr b Hb). congruence. Qed.

(** ** Words and [from_words] *)
Lemma small_repr w s v : 0 < w <= 64 -> 0 <= v < 2 ^ w -> mkAPInt w s v None = repr w s v.
Proof.
  intros Hw Hv. unfold repr. rewrite limb_count_small by done.
  assert (2 ^ w <= 2 ^ 64) by (apply Z.pow_le_mono_r; lia).
  cbn. rewrite (Z.mod_small v), (Z.mod_small v) by lia.
  by destruct (Z.ltb_spec 64 w); [lia|].
Qed.

Lemma masked_repr w s v : 0 < w <= 64 ->
  mkAPInt w s (Z.land v (mask_for_width w)) None = repr w s v.
Proof.
  intros Hw. rewrite land_mask by lia. rewrite small_repr; [apply repr_mod; lia|done|].
  apply Z.mod_pos_bound, pow2_pos. lia.
Qed.

Lemma wf_small a : wf a -> width a <= 64 -> value a = uval a /\ high a = None.
Proof.
  intros [Hw Hh Hl Ho Hb] Hs. assert (high a = None) as E.
  { destruct (high a) eqn:E; [|done]. destruct Hh as [Hh _].
    specialize (Hh (mk_is_Some _ _ eq_refl)). lia. }
  split; [|done]. unfold uval, limbs. rewrite E. cbn. lia.
Qed.

Lemma length_vec_resize {A} n (x : A) l : length (vec_resize n x l) = n.
Proof. unfold vec_resize. rewrite length_app, length_take, length_replicate. lia. Qed.

Lemma limbs_ok_resize n l x : is_u64 x -> limbs_ok l -> limbs_ok (vec_resize n x l).
Proof.
  intros. apply limbs_ok_app. split; [by apply Forall_take|by apply limbs_ok_replicate].
Qed.

Lemma lval_take n l : limbs_ok l -> lval (take n l) = lval l mod 2 ^ (64 * Z.of_nat n).
Proof.
  intros Hl. destruct (decide (length l <= n)%nat) as [Hle|Hgt].
  - rewrite take_ge by done. symmetry. apply Z.mod_small.
    pose proof (lval_bounds l Hl). split; [lia|]. eapply Z.lt_le_trans; [apply H|].
    apply Z.pow_le_mono_r; unfold bits_of; lia.
  - rewrite <- (take_drop n l) at 2. rewrite lval_app.
    unfold bits_of. rewrite length_take, Nat.min_l by lia.
    pose proof (pow2_pos (64 * Z.of_nat n) ltac:(lia)).
    rewrite Z.mul_comm, Z.mod_add by lia. symmetry. apply Z.mod_small.
    pose proof (lval_bounds (take n l) (Forall_take _ _ _ Hl)) as Hb.
    unfold bits_of in Hb. rewrite length_take, Nat.min_l in Hb by lia. done.
Qed.

Lemma lval_resize_0 n l : limbs_ok l ->
  lval (vec_resize n 0 l) = lval l mod 2 ^ (64 * Z.of_nat n).
Proof.
  intros. unfold vec_resize. rewrite lval_app, lval_replicate_0, lval_take by done. lia.
Qed.

Lemma alter_last {A} (f : A -> A) l x : alter f (pred (length (l ++ [x]))) (l ++ [x]) = l ++ [f x].
Proof.
  rewrite length_app. cbn. replace (pred (length l + 1)) with (length l) by lia.
  replace (length l) with (length l + 0)%nat by lia.
  by rewrite alter_app_r.
Qed.

Lemma snoc_split (l : list Z) : (0 < length l)%nat -> exists l' x, l = l' ++ [x].
Proof. destruct l as [|] using rev_ind; cbn; [lia|]. eauto. Qed.

(** Masking the top limb reduces modulo the width. *)
Lemma lval_mask_top ws w : limbs_ok ws -> 0 < w -> length ws = limb_count w ->
  lval (alter (fun top => Z.land top (mask_for_width (w - 64 * (Z.of_nat (limb_count w) - 1))))
          (pred (length ws)) ws) = lval ws mod 2 ^ w.
Proof.
  intros Hok Hw Hlen. pose proof (limb_count_pos w Hw). pose proof (limb_count_bits w Hw).
  destruct (snoc_split ws) as (l & x & ->); [lia|].
  rewrite alter_last, !lval_app. cbn [lval]. rewrite !Z.mul_0_r, !Z.add_0_r.
  rewrite length_app in Hlen. cbn in Hlen.
  set (k := w - 64 * (Z.of_nat (limb_count w) - 1)).
  assert (bits_of l = w - k) as Hbits by (unfold bits_of; lia).
  rewrite land_mask by lia. rewrite Hbits.
  replace w with ((w - k) + k) at 3 by lia. rewrite Z.pow_add_r by lia.
  pose proof (pow2_pos (w - k) ltac:(lia)). pose proof (pow2_pos k ltac:(lia)).
  apply limbs_ok_app in Hok as [Hl Hx]. pose proof (lval_bounds l Hl) as Hb. rewrite Hbits in Hb.
  rewrite Z.rem_mul_r by lia.
  rewrite (Z.mul_comm _ x), Z.mod_add, Z.div_add, (Z.mod_small (lval l)), (Z.div_small (lval l)) by lia.
  by rewrite Z.add_0_l.
Qed.

Lemma limbs_ok_alter_land ws i m : is_u64 m -> limbs_ok ws -> limbs_ok (alter (fun x => Z.land x m) i ws).
Proof. intros. apply Forall_alter; [done|]. intros. by apply land_u64. Qed.

Lemma mask_u64 w : 0 <= w -> is_u64 (mask_for_width w).
Proof.
  intros. unfold mask_for_width. destruct (Z.leb_spec 64 w); [done|].
  change (shl64 1 w - 1) with (shl64 1 w - 1).
  replace (shl64 1 w - 1) with (mask_for_width w) by (unfold mask_for_width; by destruct (Z.leb_spec 64 w); [lia|]).
  rewrite mask_ones by lia. rewrite Z.ones_equiv. pose proof (pow2_pos w).
  assert (2 ^ w <= 2 ^ 64) by (apply Z.pow_le_mono_r; lia). unfold is_u64. lia.
Qed.

Theorem from_words_repr w s ws : 0 < w -> limbs_ok ws -> from_words w s ws = Some (repr w s (lval ws)).
Proof.
  intros Hw Hok. unfold from_words.
  set (r := vec_resize (limb_count w) 0 ws). set (m := alter _ _ r).
  pose proof (limb_count_pos w Hw) as Hc. pose proof (limb_count_bits w Hw) as Hbits.
  assert (length r = limb_count w) as Hr by apply length_vec_resize.
  assert (limbs_ok r) as Hro by (by apply limbs_ok_resize).
  assert (length m = limb_count w) as Hm by (unfold m; by rewrite length_alter).
  assert (lval m = lval ws mod 2 ^ w) as Hv.
  { unfold m. rewrite lval_mask_top by done. unfold r. rewrite lval_resize_0 by done.
    apply mod_pow2_mono. lia. }
  assert (limbs_ok m) as Hmo by (apply limbs_ok_alter_land; [apply mask_u64; lia|done]).
  destruct m as [|x m]; [cbn in Hm; lia|]. cbn [lookup list_lookup].
  cbn. f_equal. apply repr_eq; [|done|done|].
  - split; [done| | | |]; cbn.
    + destruct (Z.ltb_spec 64 w); solve_is_some.
    + rewrite <- Hm. destruct (Z.ltb_spec 64 w); cbn; [done|].
      rewrite limb_count_small in Hm by lia. cbn in Hm. lia.
    + destruct (Z.ltb_spec 64 w); cbn; [done|]. inversion Hmo; subst. by constructor.
    + unfold uval, limbs; cbn. destruct (Z.ltb_spec 64 w); cbn.
      * change (lval (x :: m) < 2 ^ w). rewrite Hv. apply Z.mod_pos_bound, pow2_pos. lia.
      * rewrite limb_count_small in Hm by lia. destruct m; [|done].
        cbn in Hv. rewrite Hv. apply Z.mod_pos_bound, pow2_pos. lia.
  - unfold uval, limbs; cbn. destruct (Z.ltb_spec 64 w); cbn; [done|].
    rewrite limb_count_small in Hm by lia. by destruct m.
Qed.
