(* ===== verification/LimbArith.v ===== *)
(** * Limb-vector arithmetic

    The carry chains, the schoolbook product, the shifts, the comparison and
    the restoring division of [ApInt] against the numbers their operands
    denote. *)
From S2P Require Import Prelude Words ApInt ApIntSpec.

(** ** Addition and subtraction *)
Lemma wrap64_once s : 0 <= s < 2 * 2 ^ 64 -> wrap64 s = s - 2 ^ 64 * Z.b2z (2 ^ 64 <=? s).
Proof. intros. unfold wrap64. destruct (Z.leb_spec (2 ^ 64) s); cbn [Z.b2z]; divlia. Qed.

Lemma wrap64_borrow s : - 2 ^ 64 <= s < 2 ^ 64 -> wrap64 s = s + 2 ^ 64 * Z.b2z (s <? 0).
Proof. intros. unfold wrap64. destruct (Z.ltb_spec s 0); cbn [Z.b2z]; divlia. Qed.

Lemma add_words_go_spec c a b : limbs_ok a -> limbs_ok b -> length a = length b ->
  limbs_ok (add_words_go c a b) /\ length (add_words_go c a b) = length a /\
  exists co, lval (add_words_go c a b) + 2 ^ bits_of a * Z.b2z co = lval a + lval b + Z.b2z c.
Proof.
  intros Ha; revert c b; induction Ha as [|x a Hx Ha IH]; intros c [|y b] Hb Hlen; try done.
  { split; [constructor|split; [done|]]. exists c. by destruct c. }
  inversion Hb as [|?? Hy Hb']; subst. cbn [add_words_go overflowing_add].
  unfold overflowing_add. cbn [fst snd].
  set (s := wrap64 (x + y)). set (c1 := 2 ^ 64 <=? x + y). set (c2 := 2 ^ 64 <=? s + Z.b2z c).
  destruct (IH (c1 || c2) b Hb' ltac:(by injection Hlen)) as (Hok & Hl & co & Hv).
  split; [constructor; [apply wrap64_range|done]|]. split; [cbn; by rewrite Hl|].
  exists co. rewrite pow_bits_cons. cbn [lval].
  assert (wrap64 (s + Z.b2z c) + 2 ^ 64 * Z.b2z (c1 || c2) = x + y + Z.b2z c) as E.
  { unfold is_u64 in *. unfold c1, c2, s. rewrite (wrap64_once (x + y)) by lia.
    destruct c; cbn [Z.b2z]; destruct (Z.leb_spec (2 ^ 64) (x + y)); cbn [Z.b2z orb];
      rewrite wrap64_once by lia;
      match goal with |- context [?u <=? ?v] => destruct (Z.leb_spec u v) end; cbn [Z.b2z]; lia. }
  nia.
Qed.

Lemma sub_words_go_spec c a b : limbs_ok a -> limbs_ok b -> length a = length b ->
  limbs_ok (sub_words_go c a b) /\ length (sub_words_go c a b) = length a /\
  exists co, lval (sub_words_go c a b) - 2 ^ bits_of a * Z.b2z co = lval a - lval b - Z.b2z c.
Proof.
  intros Ha; revert c b; induction Ha as [|x a Hx Ha IH]; intros c [|y b] Hb Hlen; try done.
  { split; [constructor|split; [done|]]. exists c. by destruct c. }
  inversion Hb as [|?? Hy Hb']; subst. cbn [sub_words_go]. unfold overflowing_sub. cbn [fst snd].
  set (s := wrap64 (x - y)). set (c1 := x <? y). set (c2 := s <? Z.b2z c).
  destruct (IH (c1 || c2) b Hb' ltac:(by injection Hlen)) as (Hok & Hl & co & Hv).
  split; [constructor; [apply wrap64_range|done]|]. split; [cbn; by rewrite Hl|].
  exists co. rewrite pow_bits_cons. cbn [lval].
  assert (wrap64 (s - Z.b2z c) - 2 ^ 64 * Z.b2z (c1 || c2) = x - y - Z.b2z c) as E.
  { unfold is_u64 in *. unfold c1, c2, s. rewrite (wrap64_borrow (x - y)) by lia.
    destruct c; cbn [Z.b2z]; destruct (Z.ltb_spec (x - y) 0), (Z.ltb_spec x y); try lia; cbn [Z.b2z orb];
      rewrite wrap64_borrow by lia;
      repeat match goal with |- context [?u <? ?v] => destruct (Z.ltb_spec u v) end; cbn [Z.b2z]; lia. }
  nia.
Qed.

Lemma mod_add_mul_r x m k : m <> 0 -> (x + m * k) mod m = x mod m.
Proof. intros. by rewrite (Z.mul_comm m), Z.mod_add. Qed.

Lemma add_words_spec a b : limbs_ok a -> limbs_ok b -> length a = length b ->
  limbs_ok (add_words a b) /\ length (add_words a b) = length a /\
  lval (add_words a b) = (lval a + lval b) mod 2 ^ bits_of a.
Proof.
  intros Ha Hb Hl. destruct (add_words_go_spec false a b Ha Hb Hl) as (Hok & Hlen & co & Hv).
  split; [done|]. split; [done|]. fold (add_words a b) in *. cbn [Z.b2z] in Hv.
  rewrite Z.add_0_r in Hv. rewrite <- Hv, mod_add_mul_r by (apply Z.pow_nonzero; [lia|apply bits_of_nonneg]).
  symmetry. apply Z.mod_small. pose proof (lval_bounds _ Hok) as Hb'.
  unfold bits_of in *. by rewrite Hlen in Hb'.
Qed.

Lemma sub_words_spec a b : limbs_ok a -> limbs_ok b -> length a = length b ->
  limbs_ok (sub_words a b) /\ length (sub_words a b) = length a /\
  lval (sub_words a b) = (lval a - lval b) mod 2 ^ bits_of a.
Proof.
  intros Ha Hb Hl. destruct (sub_words_go_spec false a b Ha Hb Hl) as (Hok & Hlen & co & Hv).
  split; [done|]. split; [done|]. fold (sub_words a b) in *. cbn [Z.b2z] in Hv.
  rewrite Z.sub_0_r in Hv. rewrite <- Hv.
  replace (lval (sub_words a b) - 2 ^ bits_of a * Z.b2z co)
    with (lval (sub_words a b) + 2 ^ bits_of a * - Z.b2z co) by lia.
  rewrite mod_add_mul_r by (apply Z.pow_nonzero; [lia|apply bits_of_nonneg]).
  symmetry. apply Z.mod_small. pose proof (lval_bounds _ Hok) as Hb'.
  unfold bits_of in *. by rewrite Hlen in Hb'.
Qed.

(** ** Multiplication *)

(** One row on the tail [ps] of the product the row writes. *)
Fixpoint mul_row (x : Z) (bs : list Z) (carry : Z) (ps : list Z) : list Z :=
  match bs, ps with
  | y :: bs', p :: ps' =>
      let current := x * y + p + carry in
      wrap64 current :: mul_row x bs' (Z.shiftr current 64) ps'
  | _, _ => ps
  end.

Lemma mul_words_inner_row i j x bs carry pre ps :
  length pre = (i + j)%nat -> (length bs <= length ps)%nat ->
  mul_words_inner i j x bs carry (pre ++ ps) = Some (pre ++ mul_row x bs carry ps).
Proof.
  revert j carry pre ps; induction bs as [|y bs IH]; intros j carry pre [|p ps] Hp Hl;
    cbn [mul_words_inner mul_row length] in *; try done; [lia|].
  rewrite list_lookup_middle by done. cbn [mbind option_bind].
  replace (i + j)%nat with (length pre + 0)%nat by lia. rewrite insert_app_r. cbn [insert list_insert].
  change (wrap64 (x * y + p + carry) :: ps) with ([wrap64 (x * y + p + carry)] ++ ps).
  rewrite app_assoc, IH; [by rewrite <- app_assoc|rewrite length_app; cbn; lia|lia].
Qed.

Lemma mul_row_spec x bs carry ps :
  is_u64 x -> limbs_ok bs -> limbs_ok ps -> is_u64 carry -> length bs = length ps ->
  limbs_ok (mul_row x bs carry ps) /\ length (mul_row x bs carry ps) = length ps /\
  exists co, lval (mul_row x bs carry ps) + 2 ^ bits_of ps * co = x * lval bs + lval ps + carry.
Proof.
  intros Hx Hbs; revert carry ps; induction Hbs as [|y bs Hy Hbs IH];
    intros carry [|p ps] Hps Hc Hl; try done.
  { split; [done|split; [done|]]. exists carry. change (2 ^ bits_of []) with 1. cbn. lia. }
  inversion Hps as [|?? Hp Hps']; subst. cbn [mul_row].
  set (cur := x * y + p + carry).
  assert (0 <= cur < 2 ^ 64 * 2 ^ 64) as Hcur by (unfold cur, is_u64 in *; nia).
  assert (is_u64 (Z.shiftr cur 64)) as Hcar.
  { unfold is_u64. rewrite Z.shiftr_div_pow2 by lia. split; [apply Z.div_pos; lia|].
    apply Z.div_lt_upper_bound; lia. }
  destruct (IH _ ps Hps' Hcar ltac:(by injection Hl)) as (Hok & Hlen & co & Hv).
  split; [constructor; [apply wrap64_range|done]|]. split; [cbn; by rewrite Hlen|].
  exists co. rewrite pow_bits_cons. cbn [lval].
  pose proof (Z.div_mod cur (2 ^ 64) ltac:(lia)) as Hd.
  rewrite Z.shiftr_div_pow2 in Hv by lia. rewrite Z.shiftr_div_pow2 by lia. unfold wrap64.
  unfold cur in *. nia.
Qed.

Lemma mul_words_outer_spec xs b pre ps i :
  limbs_ok xs -> limbs_ok b -> limbs_ok pre -> limbs_ok ps ->
  length pre = i -> length xs = length ps -> (length ps <= length b)%nat ->
  exists r, mul_words_outer i xs b (pre ++ ps) = Some (pre ++ r) /\
    limbs_ok r /\ length r = length ps /\
    lval r = (lval ps + lval xs * lval b) mod 2 ^ bits_of ps.
Proof.
  intros Hxs Hb; revert i pre ps; induction Hxs as [|x xs Hx Hxs IH];
    intros i pre ps Hpre Hps Hi Hl Hlb.
  { exists ps. destruct ps; [|done]. done. }
  cbn [mul_words_outer]. rewrite length_app, Hi.
  replace (i + length ps - i)%nat with (length ps) by lia.
  destruct (mul_row_spec x (take (length ps) b) 0 ps) as (Hok & Hlen & co & Hv);
    [done|by apply Forall_take|done|done|rewrite length_take; lia|].
  rewrite mul_words_inner_row; [|lia|rewrite length_take; lia]. cbn [mbind option_bind].
  destruct ps as [|p ps]; [cbn in *; lia|].
  destruct (mul_row _ _ _ _) as [|w row]; [cbn in *; lia|].
  replace (pre ++ w :: row) with ((pre ++ [w]) ++ row) by (by rewrite <- app_assoc).
  inversion Hok as [|?? Hw Hrow]; subst.
  destruct (IH (S (length pre)) (pre ++ [w]) row) as (r & -> & Hr & Hrl & Hrv);
    [apply limbs_ok_app; split; [done|by constructor]|done|rewrite length_app; cbn; lia| |..].
  { cbn [length] in *. lia. }
  { cbn [length] in *. lia. }
  exists (w :: r). rewrite <- app_assoc. split; [done|].
  split; [by constructor|]. split; [cbn [length] in *; lia|].
  assert (bits_of row = bits_of ps) as Hbr by (unfold bits_of; cbn [length] in *; lia).
  assert (bits_of r = bits_of ps) as Hbrr by (unfold bits_of; cbn [length] in *; lia).
  pose proof (lval_bounds _ Hr) as Hrb. rewrite Hbrr in Hrb. rewrite Hbr in Hrv.
  pose proof (pow2_pos _ (bits_of_nonneg ps)) as HQ. rewrite pow_bits_cons.
  cbn [lval] in *. rewrite lval_take in Hv by done.
  replace (64 * Z.of_nat (length (p :: ps))) with (64 + bits_of ps) in Hv
    by (unfold bits_of; cbn [length]; lia).
  rewrite pow_bits_cons in Hv. rewrite pow2_64_split in Hv by apply bits_of_nonneg.
  set (Q := 2 ^ bits_of ps) in *.
  pose proof (Z.div_mod (lval b) (2 ^ 64 * Q) ltac:(lia)) as Hm.
  pose proof (Z.div_mod (lval row + lval xs * lval b) Q ltac:(lia)) as Hk.
  rewrite <- Hrv in Hk.
  set (m := lval b / (2 ^ 64 * Q)) in *. set (k := (lval row + lval xs * lval b) / Q) in *.
  apply (Z.mod_unique_pos _ _ (co + k + x * m)); [unfold is_u64 in *; nia|].
  replace (lval b mod (2 ^ 64 * Q)) with (lval b - 2 ^ 64 * Q * m) in Hv by lia. nia.
Qed.

Lemma mul_words_spec a b : limbs_ok a -> limbs_ok b -> length a = length b ->
  exists r, mul_words a b = Some r /\ limbs_ok r /\ length r = length a /\
    lval r = (lval a * lval b) mod 2 ^ bits_of a.
Proof.
  intros Ha Hb Hl.
  destruct (mul_words_outer_spec a b [] (replicate (length a) 0) 0) as (r & Hr & Hok & Hlen & Hv);
    [done|done|constructor|by apply limbs_ok_replicate|done|by rewrite length_replicate
    |rewrite length_replicate; lia|].
  exists r. split; [exact Hr|]. split; [done|]. rewrite length_replicate in Hlen. split; [done|].
  rewrite Hv, lval_replicate_0. f_equal. f_equal. unfold bits_of. by rewrite length_replicate.
Qed.

(** ** Shifts *)
Lemma limb_at_map_seq (f : nat -> Z) n i : (i < n)%nat -> limb_at (map f (seq 0 n)) i = f i.
Proof.
  intros. unfold limb_at.
  rewrite list_lookup_fmap, lookup_seq_lt by done. done.
Qed.

Lemma limbs_ok_map_seq (f : nat -> Z) n :
  (forall i, is_u64 (f i)) -> limbs_ok (map f (seq 0 n)).
Proof.
  intros H. apply Forall_forall. intros x Hx. apply in_map_iff in Hx as (i & <- & _). apply H.
Qed.

Lemma shl_words_length ws s : length (shl_words ws s) = length ws.
Proof. unfold shl_words. by rewrite length_map, length_seq. Qed.

Lemma lshr_words_length ws s : length (lshr_words ws s) = length ws.
Proof. unfold lshr_words. by rewrite length_map, length_seq. Qed.

Lemma shl_at_testbit ws i k b : limbs_ok ws -> 0 <= b < 64 ->
  Z.testbit (if (k <=? i)%nat then limb_at ws (i - k) else 0) b =
  Z.testbit (lval ws) (64 * (Z.of_nat i - Z.of_nat k) + b).
Proof.
  intros Hok Hb. destruct (Nat.leb_spec k i).
  - rewrite limb_testbit by done. f_equal. lia.
  - rewrite Z.testbit_0_l, Z.testbit_neg_r; [done|lia].
Qed.

Lemma shl_at_u64 ws i k : limbs_ok ws -> is_u64 (if (k <=? i)%nat then limb_at ws (i - k) else 0).
Proof. intros. destruct (k <=? i)%nat; [by apply limb_at_u64|done]. Qed.

Lemma shl_words_ok ws s : limbs_ok ws -> limbs_ok (shl_words ws s).
Proof.
  intros Hok. apply limbs_ok_map_seq. intros i.
  pose proof (Z.mod_pos_bound s 64 ltac:(lia)).
  destruct (s mod 64) as [|p|p]; [by apply shl_at_u64| |lia].
  apply lor_u64; [apply shl64_u64|apply shr64_u64; [lia|by apply shl_at_u64]].
Qed.

Lemma shl_words_spec ws s : limbs_ok ws -> 0 <= s ->
  lval (shl_words ws s) = (lval ws * 2 ^ s) mod 2 ^ bits_of ws.
Proof.
  intros Hok Hs. rewrite <- Z.shiftl_mul_pow2 by done.
  replace (bits_of ws) with (bits_of (shl_words ws s)) by (unfold bits_of; by rewrite shl_words_length).
  apply lval_bits; [by apply shl_words_ok|]. rewrite shl_words_length. intros i k Hi Hk.
  unfold shl_words. rewrite limb_at_map_seq by done. rewrite Z.shiftl_spec by lia.
  pose proof (Z.mod_pos_bound s 64 ltac:(lia)) as Hm. pose proof (Z.div_mod s 64 ltac:(lia)) as Hd.
  pose proof (Z.div_pos s 64 ltac:(lia) ltac:(lia)).
  assert (s mod 64 = 0 \/ 0 < s mod 64) as [E|E] by lia.
  - rewrite E. rewrite shl_at_testbit by done. f_equal. lia.
  - destruct (s mod 64) as [|p|p]; [lia| |lia]. set (b := Z.pos p) in *.
    rewrite Z.lor_spec, shl64_testbit, shr64_testbit by lia.
    destruct (Z.ltb_spec k 64); [|lia]. rewrite andb_true_l.
    destruct (Z.leb_spec b k).
    + rewrite (u64_testbit_high _ (k + (64 - b))), orb_false_r by (by apply shl_at_u64 || lia).
      rewrite shl_at_testbit by (done || lia). f_equal. lia.
    + rewrite (Z.testbit_neg_r _ (k - b)), orb_false_l by lia.
      rewrite shl_at_testbit by (done || lia). f_equal. lia.
Qed.

Lemma lshr_words_ok ws s : limbs_ok ws -> limbs_ok (lshr_words ws s).
Proof.
  intros Hok. apply limbs_ok_map_seq. intros i.
  pose proof (Z.mod_pos_bound s 64 ltac:(lia)).
  destruct (s mod 64) as [|p|p]; [by apply limb_at_u64| |lia].
  apply lor_u64; [apply shr64_u64; [lia|by apply limb_at_u64]|apply shl64_u64].
Qed.

Lemma lshr_words_spec ws s : limbs_ok ws -> 0 <= s -> lval (lshr_words ws s) = Z.shiftr (lval ws) s.
Proof.
  intros Hok Hs. pose proof (bits_of_nonneg ws) as Hb.
  assert (bits_of (lshr_words ws s) = bits_of ws) as Hbits by (unfold bits_of; by rewrite lshr_words_length).
  assert (0 <= Z.shiftr (lval ws) s < 2 ^ bits_of ws) as Hr.
  { pose proof (lval_bounds ws Hok). rewrite Z.shiftr_div_pow2 by done. pose proof (pow2_pos s Hs).
    split; [apply Z.div_pos; lia|]. apply Z.div_lt_upper_bound; nia. }
  rewrite <- (Z.mod_small (Z.shiftr (lval ws) s) (2 ^ bits_of ws)) by done. rewrite <- Hbits.
  apply lval_bits; [by apply lshr_words_ok|]. rewrite lshr_words_length. intros i k Hi Hk.
  unfold lshr_words. rewrite limb_at_map_seq by done. rewrite Z.shiftr_spec by lia.
  pose proof (Z.mod_pos_bound s 64 ltac:(lia)) as Hm. pose proof (Z.div_mod s 64 ltac:(lia)) as Hd.
  pose proof (Z.div_pos s 64 ltac:(lia) ltac:(lia)).
  assert (s mod 64 = 0 \/ 0 < s mod 64) as [E|E] by lia.
  - rewrite E. rewrite limb_testbit by done. f_equal. lia.
  - destruct (s mod 64) as [|p|p]; [lia| |lia]. set (b := Z.pos p) in *.
    rewrite Z.lor_spec, shl64_testbit, shr64_testbit by lia.
    destruct (Z.ltb_spec k 64); [|lia]. rewrite andb_true_l.
    destruct (Z.ltb_spec (k + b) 64).
    + rewrite (Z.testbit_neg_r _ (k - (64 - b))), orb_false_r by lia.
      rewrite limb_testbit by (done || lia). f_equal. lia.
    + rewrite (u64_testbit_high _ (k + b)), orb_false_l by (by apply limb_at_u64 || lia).
      rewrite limb_testbit by (done || lia). f_equal. lia.
Qed.

(** ** Comparison *)
Lemma lex_cmp_app a b c d : length a = length c ->
  lex_cmp (a ++ b) (c ++ d) = then_with (lex_cmp a c) (lex_cmp b d).
Proof.
  revert c; induction a as [|x a IH]; intros [|y c] Hl; try done. cbn.
  rewrite IH by (by injection Hl). by destruct (x ?= y).
Qed.

Lemma cmp_words_spec a b : limbs_ok a -> limbs_ok b -> length a = length b ->
  cmp_words a b = (lval a ?= lval b).
Proof.
  unfold cmp_words. intros Ha; revert b; induction Ha as [|x a Hx Ha IH]; intros [|y b] Hb Hl; try done.
  inversion Hb as [|?? Hy Hb']; subst. cbn [rev lval].
  rewrite lex_cmp_app by (rewrite !length_rev; by injection Hl).
  rewrite IH by (done || by injection Hl). cbn [lex_cmp]. unfold is_u64 in *.
  destruct (Z.compare_spec (lval a) (lval b)); cbn [then_with]; symmetry.
  - rewrite H. destruct (Z.compare_spec x y); cbn; [apply Z.compare_eq_iff|apply Z.compare_lt_iff|apply Z.compare_gt_iff]; lia.
  - apply Z.compare_lt_iff. nia.
  - apply Z.compare_gt_iff. nia.
Qed.

(** ** Restoring division *)
Lemma lval_alter_low ws m : limbs_ok ws -> (0 < length ws)%nat -> 0 <= m < 2 ^ 64 ->
  Z.land (lval ws) m = 0 -> lval (alter (Z.lor m) 0%nat ws) = lval ws + m.
Proof.
  intros Hok Hl Hm Hd. destruct ws as [|w ws]; [cbn in Hl; lia|]. inversion Hok as [|?? Hw]; subst.
  change (alter (Z.lor m) 0%nat (w :: ws)) with (Z.lor m w :: ws). cbn [lval] in *.
  assert (Z.land w m = 0) as E.
  { apply Z.bits_inj'. intros k Hk. rewrite Z.bits_0, Z.land_spec.
    destruct (Z.ltb_spec k 64).
    - apply (f_equal (fun z => Z.testbit z k)) in Hd. rewrite Z.land_spec, Z.bits_0 in Hd.
      rewrite <- (Z.mod_pow2_bits_low (_ + _) 64) in Hd by lia.
      rewrite mod_add_mul_r, Z.mod_small in Hd by (done || lia). done.
    - by rewrite u64_testbit_high. }
  rewrite Z.lor_comm. rewrite <- Z.lxor_lor, <- Z.add_nocarry_lxor by done. lia.
Qed.

Lemma quotient_bit qs n : limbs_ok qs -> 0 <= n < bits_of qs -> Z.testbit (lval qs) n = false ->
  exists q, qs !! Z.to_nat (n / 64) = Some q /\
    let qs' := <[Z.to_nat (n / 64) := Z.lor q (shl64 1 (n mod 64))]> qs in
    limbs_ok qs' /\ length qs' = length qs /\ lval qs' = lval qs + 2 ^ n.
Proof.
  intros Hok Hn Ht. pose proof (Z.mod_pos_bound n 64 ltac:(lia)) as Hm.
  pose proof (Z.div_mod n 64 ltac:(lia)) as Hd. pose proof (Z.div_pos n 64 ltac:(lia) ltac:(lia)).
  set (i := Z.to_nat (n / 64)). assert (i < length qs)%nat as Hi by (unfold bits_of in Hn; lia).
  destruct (lookup_lt_is_Some_2 qs i Hi) as [q Hq]. exists q. split; [done|]. cbn zeta.
  destruct (list_elem_of_split_length qs i q Hq) as (l1 & l2 & -> & El).
  replace i with (length l1 + 0)%nat by lia. rewrite insert_app_r. cbn [insert list_insert].
  apply limbs_ok_app in Hok as [Hl1 Hl2]. inversion Hl2 as [|?? Hqu Hl2']; subst.
  assert (shl64 1 (n mod 64) = 2 ^ (n mod 64)) as Es.
  { unfold shl64, wrap64. rewrite Z.shiftl_1_l. apply Z.mod_small.
    split; [apply Z.pow_nonneg; lia|apply Z.pow_lt_mono_r; lia]. }
  rewrite Es. split; [|split; [by rewrite !length_app|]].
  - apply limbs_ok_app. split; [done|]. constructor; [|done]. apply lor_u64; [done|].
    rewrite <- Es. apply shl64_u64.
  - rewrite !lval_app. cbn [lval].
    assert (Z.lor q (2 ^ (n mod 64)) = q + 2 ^ (n mod 64)) as ->.
    { assert (Z.land q (2 ^ (n mod 64)) = 0) as E; [|by rewrite <- Z.lxor_lor, <- Z.add_nocarry_lxor].
      rewrite lval_testbit in Ht by (lia || by apply limbs_ok_app).
      fold i in Ht. unfold limb_at in Ht. rewrite Hq in Ht. cbn in Ht.
      apply Z.bits_inj'. intros k Hk. rewrite Z.land_spec, Z.bits_0, Z.pow2_bits_eqb by lia.
      destruct (Z.eqb_spec (n mod 64) k) as [<-|]; [by rewrite Ht|apply andb_false_r]. }
    rewrite Z.mul_add_distr_l, (Z.mul_add_distr_l _ q).
    replace (2 ^ n) with (2 ^ bits_of l1 * 2 ^ (n mod 64)); [lia|].
    rewrite <- Z.pow_add_r by (lia || apply bits_of_nonneg). f_equal. unfold bits_of. lia.
Qed.

Lemma lval_snoc_0 ws : lval (ws ++ [0]) = lval ws.
Proof. rewrite lval_app. cbn. lia. Qed.

Lemma div_next_bit x n : 0 <= n ->
  x / 2 ^ n = 2 * (x / 2 ^ (n + 1)) + Z.b2z (Z.testbit x n).
Proof.
  intros. rewrite Z.testbit_spec' by done. rewrite Z.pow_add_r by lia.
  rewrite <- Z.div_div by (pose proof (pow2_pos n); lia). apply Z.div_mod. lia.
Qed.

Section Divide.
Context (a b : list Z) (w : Z).
Hypothesis Ha : limbs_ok a.
Hypothesis Hb : limbs_ok b.
Hypothesis Hlen : length a = length b.
Hypothesis Hpos : 0 < lval b.
Hypothesis Haw : lval a < 2 ^ w.
Hypothesis Hw : 0 <= w <= bits_of a.

(** Before bit [n - 1] is looked at: the quotient of the bits above. *)
Record div_inv (n : Z) (q r : list Z) : Prop := {
  di_q : limbs_ok q;
  di_ql : length q = length a;
  di_r : limbs_ok r;
  di_rl : length r = S (length a);
  di_lt : lval r < lval b;
  di_val : exists Q, lval q = Q * 2 ^ n /\ lval a / 2 ^ n = Q * lval b + lval r;
}.

Lemma divrem_step_spec n q r : 0 <= n < w -> div_inv (n + 1) q r ->
  exists q' r', divrem_step a (b ++ [0]) n (q, r) = Some (q', r') /\ div_inv n q' r'.
Proof.
  intros Hn [Hq Hql Hr Hrl Hlt (Q & HQ & HA)]. unfold divrem_step.
  pose proof (lval_bounds _ Hr) as Hr0. pose proof (lval_bounds _ Hb) as Hb0.
  assert (bits_of b = bits_of a) as Hba by (unfold bits_of; by rewrite Hlen).
  assert (bits_of r = 64 + bits_of a) as Hra by (unfold bits_of; lia).
  assert (2 ^ bits_of r = 2 ^ 64 * 2 ^ bits_of a) as Hpr by (rewrite Hra; apply pow2_64_split, bits_of_nonneg).
  set (r1 := shl_words r 1).
  assert (limbs_ok r1) as Hr1 by (by apply shl_words_ok).
  assert (lval r1 = 2 * lval r) as Hv1.
  { unfold r1. rewrite shl_words_spec by (done || lia). change (2 ^ 1) with 2.
    rewrite Z.mod_small; rewrite ?Hba in *; nia. }
  assert (Z.to_nat (n / 64) < length a)%nat as Hi.
  { unfold bits_of in Hw. pose proof (Z.div_pos n 64 ltac:(lia) ltac:(lia)). divlia. }
  destruct (lookup_lt_is_Some_2 a _ Hi) as [x Hx]. rewrite Hx. cbn [mbind option_bind].
  assert (Z.land (shr64 x (n mod 64)) 1 = Z.b2z (Z.testbit (lval a) n)) as Hbit.
  { rewrite lval_testbit by (done || lia). unfold limb_at. rewrite Hx. cbn [default id].
    unfold shr64. change 1 with (Z.ones 1). rewrite Z.land_ones by lia. change (2 ^ 1) with 2.
    rewrite <- Z.bit0_mod, Z.shiftr_spec by lia. done. }
  rewrite Hbit. set (r2 := alter _ _ r1).
  assert (length r2 = S (length a)) as Hl2 by (unfold r2; rewrite length_alter; unfold r1; by rewrite shl_words_length).
  set (c := Z.b2z (Z.testbit (lval a) n)) in *.
  assert (0 <= c <= 1) as Hc by (unfold c; destruct (Z.testbit _ _); cbn; lia).
  assert (limbs_ok r2) as Hr2.
  { apply Forall_alter; [done|]. intros y _ Hy. apply lor_u64; [unfold is_u64; lia|done]. }
  assert (lval r2 = 2 * lval r + c) as Hv2.
  { unfold r2. rewrite lval_alter_low; [lia|done|unfold r1; rewrite shl_words_length; lia|lia|].
    rewrite Hv1. assert (c = 0 \/ c = 1) as [->| ->] by lia; [apply Z.land_0_r|].
    change 1 with (Z.ones 1). rewrite Z.land_ones by lia. change (2 ^ 1) with 2. divlia. }
  pose proof (div_next_bit (lval a) n ltac:(lia)) as Hnext. fold c in Hnext. rewrite HA in Hnext.
  assert (limbs_ok (b ++ [0])) as Hb' by (apply limbs_ok_app; split; [done|by constructor]).
  assert (length (b ++ [0]) = length r2) as Hbl by (rewrite length_app; cbn; lia).
  rewrite cmp_words_spec by done. rewrite lval_snoc_0, Hv2.
  assert (2 ^ (n + 1) = 2 * 2 ^ n) as Hp2 by (rewrite Z.pow_add_r by lia; lia).
  destruct (Z.ltb_spec (2 * lval r + c) (lval b)) as [Hl|Hl].
  - rewrite (proj2 (Z.compare_lt_iff _ _) Hl). eexists _, _. split; [done|].
    split; [done|done|done|done|lia|]. exists (2 * Q). split; nia.
  - assert (forall (A : Type) (x y : A),
      match 2 * lval r + c ?= lval b with Lt => x | _ => y end = y) as Hm.
    { intros. destruct (Z.compare_spec (2 * lval r + c) (lval b)); [done|lia|done]. }
    rewrite Hm. clear Hm.
    destruct (sub_words_spec r2 (b ++ [0]) Hr2 Hb' ltac:(done)) as (Hs & Hsl & Hsv).
    rewrite lval_snoc_0, Hv2 in Hsv. rewrite Z.mod_small in Hsv.
    2:{ replace (bits_of r2) with (bits_of r) by (unfold bits_of; lia). rewrite Hpr, <- ?Hba in *. nia. }
    destruct (quotient_bit q n Hq) as (y & Hy & Hq' & Hql' & Hqv').
    { unfold bits_of in *. lia. }
    { rewrite HQ. replace (Q * 2 ^ (n + 1)) with (Z.shiftl Q (n + 1)) by (by rewrite Z.shiftl_mul_pow2 by lia).
      rewrite Z.shiftl_spec by lia. apply Z.testbit_neg_r. lia. }
    rewrite Hy. cbn [mbind option_bind]. eexists _, _. split; [done|].
    split; [done|lia|done|lia|lia|]. exists (2 * Q + 1). rewrite Hqv', Hsv. split; nia.
Qed.

Lemma divrem_loop_spec n q r : Z.of_nat n <= w -> div_inv (Z.of_nat n) q r ->
  exists q' r', divrem_loop a (b ++ [0]) n (q, r) = Some (q', r') /\ div_inv 0 q' r'.
Proof.
  revert q r; induction n as [|n IH]; intros q r Hn Hinv; [by exists q, r|].
  cbn [divrem_loop]. destruct (divrem_step_spec (Z.of_nat n) q r) as (q1 & r1 & -> & H1); [lia| |].
  { by replace (Z.of_nat n + 1) with (Z.of_nat (S n)) by lia. }
  cbn [mbind option_bind]. apply IH; [lia|done].
Qed.

Lemma divrem_words_spec : exists q r, divrem_words a b w = Some (q, r) /\
  limbs_ok q /\ limbs_ok r /\ lval q = lval a / lval b /\ lval r = lval a mod lval b.
Proof.
  unfold divrem_words. pose proof (lval_bounds _ Ha).
  destruct (divrem_loop_spec (Z.to_nat w) (replicate (length a) 0) (replicate (length a + 1) 0))
    as (q & r & Hqr & [Hq Hql Hr Hrl Hlt (Q & HQ & HA)]); [lia| |].
  { split; rewrite ?length_replicate, ?lval_replicate_0;
      [by apply limbs_ok_replicate|done|by apply limbs_ok_replicate|lia|done|].
    exists 0. rewrite Z2Nat.id by lia. split; [lia|]. rewrite Z.div_small by lia. lia. }
  rewrite Hqr. cbn [mbind option_bind].
  destruct (snoc_split r ltac:(lia)) as (r' & x & ->).
  rewrite removelast_last. change (2 ^ 0) with 1 in *. rewrite Z.div_1_r in HA.
  apply limbs_ok_app in Hr as [Hr' Hx]. inversion Hx as [|?? Hxu]; subst.
  rewrite length_app in Hrl. cbn in Hrl.
  assert (x = 0) as ->.
  { rewrite lval_app in Hlt. cbn in Hlt. pose proof (lval_bounds _ Hb) as Hb0.
    pose proof (lval_bounds _ Hr') as Hr0. unfold is_u64 in Hxu.
    replace (bits_of r') with (bits_of b) in * by (unfold bits_of; lia). nia. }
  rewrite lval_snoc_0 in *. pose proof (lval_bounds _ Hr').
  exists q, r'. split; [done|]. split; [done|]. split; [done|]. split.
  - rewrite HQ. apply (Z.div_unique _ _ _ (lval r')); [lia|]. nia.
  - apply (Z.mod_unique _ _ Q); [lia|]. nia.
Qed.
End Divide.
