(* ===== verification/ApIntOps.v ===== *)
(** * Every [APInt] operation as an equation

    The word path (at most 64 bits) and the limb path of each operation give
    the same [repr] of the same number. *)
From S2P Require Import Prelude Words ApInt ApIntSpec LimbArith.

(** ** Number lemmas *)
Lemma mod_repr_range v w : 0 < w -> 0 <= v mod 2 ^ w < 2 ^ w.
Proof. intros. apply Z.mod_pos_bound, pow2_pos. lia. Qed.

Lemma limb_bits_ge w : 0 < w -> w <= bits_of (replicate (limb_count w) 0).
Proof. intros Hw. unfold bits_of. rewrite length_replicate. apply limb_count_bits in Hw. lia. Qed.

Lemma wf_bits_of a : wf a -> width a <= bits_of (limbs a).
Proof. intros [Hw _ Hl _ _]. unfold bits_of. rewrite Hl. apply limb_count_bits in Hw. lia. Qed.

Lemma repr_limbs_mod w s ws v : 0 < w <= bits_of ws ->
  lval ws = v mod 2 ^ bits_of ws -> repr w s (lval ws) = repr w s v.
Proof. intros Hw ->. apply repr_ext. apply mod_pow2_mono. lia. Qed.

Lemma pow2_half w : 0 < w -> 2 ^ w = 2 * 2 ^ (w - 1).
Proof. intros. replace w with ((w - 1) + 1) at 1 by lia. rewrite Z.pow_add_r by lia. lia. Qed.

Lemma sign_of_range w v : 0 < w -> 0 <= v < 2 ^ w -> - 2 ^ (w - 1) <= sign_of w v < 2 ^ (w - 1).
Proof.
  intros Hw Hv. pose proof (pow2_half w Hw). unfold sign_of.
  destruct (Z.ltb_spec v (2 ^ (w - 1))); lia.
Qed.

Lemma sign_of_mod w v : 0 < w -> sign_of w v mod 2 ^ w = v mod 2 ^ w.
Proof.
  intros Hw. unfold sign_of. destruct (v <? 2 ^ (w - 1)); [done|].
  replace (v - 2 ^ w) with (v + (-1) * 2 ^ w) by lia. apply Z.mod_add.
  pose proof (pow2_pos w). lia.
Qed.

Lemma repr_sval w s a : width a = w -> 0 < w -> repr w s (sval a) = repr w s (uval a).
Proof. intros <- Hw. apply repr_ext. by apply sign_of_mod. Qed.

Lemma repr_ival w s a : width a = w -> 0 < w -> repr w s (ival a) = repr w s (uval a).
Proof. intros E Hw. unfold ival. destruct (signed a); [by apply repr_sval|done]. Qed.

Lemma sval_range a : wf a -> - 2 ^ (width a - 1) <= sval a < 2 ^ (width a - 1).
Proof. intros Ha. apply sign_of_range; [by destruct Ha|by apply uval_bounds]. Qed.

(** ** Observers *)
Lemma bit_spec a i : wf a -> 0 <= i < width a -> bit a i = Z.testbit (uval a) i.
Proof.
  intros Ha Hi. pose proof Ha as [Hw Hh Hl Ho Hb]. unfold uval. rewrite lval_testbit by (done || lia).
  pose proof (Z.mod_pos_bound i 64 ltac:(lia)) as Hm.
  assert (forall x, negb (Z.land (shr64 x (i mod 64)) 1 =? 0) = Z.testbit x (i mod 64)) as Hx.
  { intros x. change 1 with (Z.ones 1). rewrite Z.land_ones by lia. change (2 ^ 1) with 2.
    rewrite <- Z.bit0_mod. unfold shr64. rewrite Z.shiftr_spec by lia. rewrite Z.add_0_l.
    by destruct (Z.testbit x (i mod 64)). }
  unfold bit. rewrite Hx. f_equal. unfold limb_at, limbs.
  pose proof (Z.div_pos i 64 ltac:(lia) ltac:(lia)).
  destruct (i / 64) as [|p|p] eqn:E; [done| |lia].
  assert (64 < width a) as Hwide by divlia.
  destruct (proj2 Hh Hwide) as [hs Hs]. rewrite Hs. cbn [default id].
  destruct (Z.to_nat (Z.pos p)) as [|n] eqn:En; [lia|]. unfold limb_at. cbn [lookup list_lookup].
  by replace (S n - 1)%nat with n by lia.
Qed.

Lemma testbit_top w v : 0 < w -> 0 <= v < 2 ^ w -> Z.testbit v (w - 1) = (2 ^ (w - 1) <=? v).
Proof.
  intros Hw Hv. pose proof (pow2_half w Hw). pose proof (pow2_pos (w - 1) ltac:(lia)).
  apply eq_true_iff_eq. rewrite Z.leb_le. rewrite Z.testbit_true by lia.
  destruct (Z.leb_spec (2 ^ (w - 1)) v).
  - replace (v / 2 ^ (w - 1)) with 1; [change (1 mod 2) with 1; lia|]. apply Z.div_unique with (v - 2 ^ (w - 1)); lia.
  - rewrite Z.div_small by lia. change (0 mod 2) with 0. lia.
Qed.

Lemma top_bit_spec a : wf a -> top_bit a = (sval a <? 0).
Proof.
  intros Ha. pose proof Ha as [Hw _ _ _ _]. unfold top_bit. rewrite bit_spec by (done || lia).
  pose proof (uval_bounds a Ha) as Hu. rewrite testbit_top by done. unfold sval, sign_of.
  pose proof (pow2_half _ Hw). apply eq_true_iff_eq. rewrite Z.leb_le, Z.ltb_lt.
  destruct (Z.ltb_spec (uval a) (2 ^ (width a - 1))); lia.
Qed.

Lemma sval_nonneg a : wf a -> 0 <= sval a -> sval a = uval a.
Proof.
  intros Ha. pose proof (uval_bounds a Ha). unfold sval, sign_of.
  destruct (uval a <? 2 ^ (width a - 1)); lia.
Qed.

Lemma sval_neg a : wf a -> sval a < 0 -> sval a = uval a - 2 ^ width a.
Proof.
  intros Ha. pose proof (uval_bounds a Ha). unfold sval, sign_of.
  destruct (uval a <? 2 ^ (width a - 1)); lia.
Qed.

Lemma is_negative_spec a : wf a -> is_negative a = (ival a <? 0).
Proof.
  intros Ha. unfold is_negative, ival. rewrite top_bit_spec by done.
  destruct (signed a); [done|]. cbn [andb]. pose proof (uval_bounds a Ha). symmetry. apply Z.ltb_ge. lia.
Qed.

Lemma ival_negative a : wf a -> is_negative a = true -> signed a = true /\ ival a = sval a /\ sval a < 0.
Proof.
  intros Ha. unfold is_negative. rewrite top_bit_spec by done. unfold ival.
  destruct (signed a); [|done]. cbn. rewrite Z.ltb_lt. done.
Qed.

Lemma ival_nonnegative a : wf a -> is_negative a = false -> ival a = uval a.
Proof.
  intros Ha. unfold is_negative. rewrite top_bit_spec by done. unfold ival.
  destruct (signed a); [|done]. cbn. rewrite Z.ltb_ge. by apply sval_nonneg.
Qed.

Lemma lval_zero ws : limbs_ok ws -> lval ws = 0 <-> forallb (fun w => w =? 0) ws = true.
Proof.
  induction 1 as [|w ws Hw Hok IH]; [done|]. cbn [lval forallb]. pose proof (lval_bounds _ Hok).
  unfold is_u64 in Hw. rewrite andb_true_iff, <- IH, Z.eqb_eq. lia.
Qed.

Lemma is_zero_spec a : wf a -> is_zero a = (uval a =? 0).
Proof.
  intros [Hw Hh Hl Ho Hb]. apply eq_true_iff_eq. rewrite Z.eqb_eq.
  unfold uval. rewrite lval_zero by done. unfold is_zero, limbs. destruct (high a); cbn; by rewrite ?andb_true_r.
Qed.

Lemma as_i64_sign v : as_i64 v = sign_of 64 v.
Proof. done. Qed.

Lemma signed_at_width_spec a : wf a -> width a <= 64 -> signed_at_width a = sval a.
Proof.
  intros Ha Hs. destruct (wf_small a Ha Hs) as [Hv _]. pose proof Ha as [Hw _ _ _ _].
  pose proof (uval_bounds a Ha) as Hu. unfold signed_at_width. rewrite Hv.
  destruct (Z.leb_spec 64 (width a)) as [|Hlt].
  { unfold sval. replace (width a) with 64 by lia. done. }
  unfold shl64, wrap64. rewrite Z.shiftl_mul_pow2 by lia. set (k := 64 - width a).
  assert (2 ^ 64 = 2 ^ width a * 2 ^ k) as E by (rewrite <- Z.pow_add_r by lia; f_equal; lia).
  assert (2 ^ 63 = 2 ^ (width a - 1) * 2 ^ k) as E' by (rewrite <- Z.pow_add_r by lia; f_equal; lia).
  pose proof (pow2_pos k ltac:(lia)) as Hk.
  rewrite Z.mod_small by nia. rewrite Z.shiftr_div_pow2 by lia. unfold as_i64, sval, sign_of.
  destruct (Z.ltb_spec (uval a) (2 ^ (width a - 1))), (Z.ltb_spec (uval a * 2 ^ k) (2 ^ 63)); try nia.
  - apply Z.div_mul. lia.
  - rewrite E. replace (uval a * 2 ^ k - 2 ^ width a * 2 ^ k) with ((uval a - 2 ^ width a) * 2 ^ k) by lia.
    apply Z.div_mul. lia.
Qed.

Lemma lor_high v w n : 0 <= w <= n -> 0 <= v < 2 ^ w ->
  Z.lor v (Z.shiftl (2 ^ n - 1) w mod 2 ^ n) = v + 2 ^ n - 2 ^ w.
Proof.
  intros Hw Hv. pose proof (pow2_pos w ltac:(lia)).
  assert (2 ^ w <= 2 ^ n) by (apply Z.pow_le_mono_r; lia).
  assert (Z.shiftl (2 ^ n - 1) w mod 2 ^ n = 2 ^ n - 2 ^ w) as ->.
  { rewrite Z.shiftl_mul_pow2 by lia. symmetry. apply Z.mod_unique with (2 ^ w - 1); lia. }
  assert (Z.land v (2 ^ n - 2 ^ w) = 0) as E.
  { apply Z.bits_inj'. intros k Hk. rewrite Z.land_spec, Z.bits_0.
    destruct (Z.ltb_spec k w); [|by rewrite (bounded_testbit v w) by lia].
    replace (2 ^ n - 2 ^ w) with ((2 ^ (n - w) - 1) * 2 ^ w).
    2:{ rewrite Z.mul_sub_distr_r, <- Z.pow_add_r by lia. replace (n - w + w) with n by lia. lia. }
    rewrite <- Z.shiftl_mul_pow2 by lia. rewrite Z.shiftl_spec, (Z.testbit_neg_r _ (k - w)) by lia.
    apply andb_false_r. }
  rewrite <- Z.lxor_lor, <- Z.add_nocarry_lxor by done. lia.
Qed.

Lemma to_i64_spec a : wf a -> width a <= 64 -> to_i64 a = if signed a then sval a else as_i64 (uval a).
Proof.
  intros Ha Hs. destruct (wf_small a Ha Hs) as [Hv _]. pose proof Ha as [Hw _ _ _ _].
  pose proof (uval_bounds a Ha) as Hu. unfold to_i64. rewrite Hv.
  destruct (signed a) eqn:Hsg; cbn [andb]; [|done].
  assert (2 ^ width a <= 2 ^ 64) by (apply Z.pow_le_mono_r; lia).
  destruct (is_negative a) eqn:Hn.
  - destruct (ival_negative a Ha Hn) as (_ & _ & Hneg).
    destruct (Z.leb_spec 64 (width a)).
    + rewrite Z.lor_0_r. unfold sval. by replace (width a) with 64 by lia.
    + rewrite sval_neg in * by done.
      unfold shl64, wrap64, u64_max. rewrite lor_high by lia. unfold as_i64.
      pose proof (pow2_half _ Hw). assert (2 ^ (width a) <= 2 ^ 63) by (apply Z.pow_le_mono_r; lia).
      destruct (Z.ltb_spec (uval a + 2 ^ 64 - 2 ^ width a) (2 ^ 63)); lia.
  - pose proof (ival_nonnegative a Ha Hn) as E. unfold ival in E. rewrite Hsg in E. rewrite E.
    unfold as_i64. destruct (Z.ltb_spec (uval a) (2 ^ 63)); [done|].
    pose proof (sval_range a Ha). rewrite E in *.
    assert (2 ^ (width a - 1) <= 2 ^ 63) by (apply Z.pow_le_mono_r; lia). lia.
Qed.

(** ** Constructors and width changes *)
Lemma new_repr w v : 0 < w -> is_u64 v -> new w v = Some (repr w false v).
Proof.
  intros Hw Hv. unfold new. rewrite (proj2 (Z.ltb_lt 0 w) Hw).
  destruct (Z.ltb_spec 64 w).
  - rewrite from_words_repr by (done || by constructor). f_equal. f_equal. cbn. lia.
  - by rewrite masked_repr by lia.
Qed.

Lemma zero_repr w : 0 < w -> zero w = Some (repr w false 0).
Proof. intros. by apply new_repr. Qed.

Lemma lval_replicate_max n : lval (replicate n u64_max) = 2 ^ (64 * Z.of_nat n) - 1.
Proof.
  induction n as [|n IH]; [done|]. cbn [replicate lval]. rewrite IH.
  replace (64 * Z.of_nat (S n)) with (64 + 64 * Z.of_nat n) by lia.
  rewrite pow2_64_split by lia. unfold u64_max. lia.
Qed.

Lemma new_signed_repr w v : 0 < w -> - 2 ^ 63 <= v < 2 ^ 63 -> new_signed w v = Some (repr w true v).
Proof.
  intros Hw Hv. unfold new_signed. rewrite (proj2 (Z.ltb_lt 0 w) Hw).
  pose proof (limb_count_pos w Hw) as Hc. pose proof (limb_count_bits w Hw) as Hbits.
  destruct (Z.ltb_spec 64 w) as [Hwide|Hsmall].
  - set (fill := if v <? 0 then u64_max else 0).
    destruct (limb_count w) as [|n] eqn:En; [lia|]. cbn [replicate].
    change (<[0%nat:=wrap64 v]> (fill :: replicate n fill)) with (wrap64 v :: replicate n fill).
    assert (is_u64 fill) as Hf by (unfold fill; by destruct (v <? 0)).
    rewrite from_words_repr; [|done|constructor; [apply wrap64_range|by apply limbs_ok_replicate]].
    f_equal. apply repr_ext. cbn [lval]. unfold fill.
    destruct (Z.ltb_spec v 0).
    + rewrite lval_replicate_max.
      replace (wrap64 v) with (v + 2 ^ 64) by (unfold wrap64; divlia).
      replace (v + 2 ^ 64 + 2 ^ 64 * (2 ^ (64 * Z.of_nat n) - 1)) with (v + 2 ^ 64 * 2 ^ (64 * Z.of_nat n)) by lia.
      rewrite <- pow2_64_split by lia.
      replace (64 + 64 * Z.of_nat n) with (w + (64 + 64 * Z.of_nat n - w)) by lia.
      rewrite Z.pow_add_r by lia. apply mod_add_mul_r. pose proof (pow2_pos w). lia.
    + rewrite lval_replicate_0, wrap64_small by (unfold is_u64; lia). f_equal. lia.
  - rewrite masked_repr by lia. f_equal. apply repr_ext, wrap64_mod. lia.
Qed.

Lemma with_signed_repr w s v s' : with_signed (repr w s v) s' = repr w s' v.
Proof. done. Qed.

Lemma with_signed_wf a s : wf a -> wf (with_signed a s).
Proof. intros [? ? ? ? ?]. by split. Qed.

Lemma zero_extend_repr a n : wf a -> width a <= n -> zero_extend a n = Some (repr n false (uval a)).
Proof.
  intros [Hw Hh Hl Ho Hb] Hn. unfold zero_extend. rewrite (proj2 (Z.leb_le _ _) Hn).
  by apply from_words_repr; [lia|].
Qed.

Lemma lval_resize_ones n l : limbs_ok l -> (length l <= n)%nat ->
  lval (vec_resize n u64_max l) = lval l + 2 ^ (64 * Z.of_nat n) - 2 ^ bits_of l.
Proof.
  intros Hl Hn. unfold vec_resize. rewrite take_ge by done. rewrite lval_app, lval_replicate_max.
  rewrite Z.mul_sub_distr_l, <- Z.pow_add_r by (lia || apply bits_of_nonneg).
  unfold bits_of. rewrite Nat2Z.inj_sub by done.
  replace (64 * Z.of_nat (length l) + 64 * (Z.of_nat n - Z.of_nat (length l))) with (64 * Z.of_nat n) by lia. lia.
Qed.

(** Setting the bits of the top limb above the width. *)
Lemma lval_fill_top ws w : limbs_ok ws -> 0 < w -> length ws = limb_count w -> lval ws < 2 ^ w ->
  let ws' := alter (fun x => Z.lor x (not64 (mask_for_width (w - 64 * Z.of_nat (pred (length ws))))))
               (pred (length ws)) ws in
  limbs_ok ws' /\ length ws' = length ws /\ lval ws' = lval ws + 2 ^ bits_of ws - 2 ^ w.
Proof.
  intros Hok Hw Hlen Hlt. pose proof (limb_count_pos w Hw). pose proof (limb_count_bits w Hw).
  destruct (snoc_split ws) as (l & x & ->); [lia|]. cbn zeta.
  rewrite alter_last, !length_app in *. cbn [length] in *.
  set (k := w - 64 * Z.of_nat (pred (length l + 1))).
  assert (0 < k <= 64) as Hk by (unfold k; lia).
  apply limbs_ok_app in Hok as [Hl Hx]. inversion Hx as [|?? Hxu _]; subst.
  pose proof (mask_u64 k ltac:(lia)) as Hmu. pose proof (not64_u64 _ Hmu) as Hnu.
  split; [apply limbs_ok_app; split; [done|constructor; [by apply lor_u64|done]]|].
  split; [done|].
  rewrite !lval_app in *. cbn [lval] in *. rewrite !Z.mul_0_r, !Z.add_0_r in *.
  pose proof (lval_bounds _ Hl) as Hlb. pose proof (pow2_pos _ (bits_of_nonneg l)) as Hp.
  assert (2 ^ w = 2 ^ bits_of l * 2 ^ k) as Ew.
  { rewrite <- Z.pow_add_r by (lia || apply bits_of_nonneg). f_equal. unfold bits_of, k. lia. }
  assert (x < 2 ^ k) as Hxk by nia. unfold is_u64 in Hxu.
  pose proof (lor_high x k 64 ltac:(lia) ltac:(lia)) as Hlor.
  assert (Z.shiftl (2 ^ 64 - 1) k mod 2 ^ 64 = not64 (mask_for_width k)) as Es.
  { rewrite mask_ones by lia. rewrite Z.ones_equiv. unfold not64, u64_max.
    rewrite Z.shiftl_mul_pow2 by lia. symmetry.
    assert (2 ^ k <= 2 ^ 64) by (apply Z.pow_le_mono_r; lia). pose proof (pow2_pos k ltac:(lia)).
    apply Z.mod_unique with (2 ^ k - 1); lia. }
  rewrite Es in Hlor. rewrite Hlor, bits_of_app. change (bits_of [x]) with 64.
  rewrite Z.pow_add_r by (lia || apply bits_of_nonneg). nia.
Qed.

Lemma sign_extend_repr a n : wf a -> width a <= n -> sign_extend a n = Some (repr n (signed a) (ival a)).
Proof.
  intros Ha Hn. pose proof Ha as [Hw Hh Hl Ho Hb]. unfold sign_extend. rewrite (proj2 (Z.leb_le _ _) Hn).
  destruct (is_negative a) eqn:Hneg; cbn [negb].
  - destruct (ival_negative a Ha Hneg) as (Hs & -> & Hlt). rewrite Hs.
    destruct (lval_fill_top (limbs a) (width a) Ho Hw Hl Hb) as (Hok & Hlen & Hv). cbn zeta in *.
    set (ws := alter _ _ _) in *.
    assert (length ws <= limb_count n)%nat as Hle.
    { rewrite Hlen, Hl. unfold limb_count. divlia. }
    pose proof (limb_count_bits n ltac:(lia)) as Hcb.
    rewrite from_words_repr by (lia || by apply limbs_ok_resize).
    f_equal. apply repr_ext. rewrite lval_resize_ones, Hv by done. rewrite sval_neg by done.
    assert (bits_of ws = bits_of (limbs a)) as -> by (unfold bits_of; by rewrite Hlen).
    fold (uval a).
    replace (uval a + 2 ^ bits_of (limbs a) - 2 ^ width a + 2 ^ (64 * Z.of_nat (limb_count n)) - 2 ^ bits_of (limbs a))
      with (uval a - 2 ^ width a + 2 ^ (64 * Z.of_nat (limb_count n))) by lia.
    replace (64 * Z.of_nat (limb_count n)) with (n + (64 * Z.of_nat (limb_count n) - n)) by lia.
    rewrite Z.pow_add_r by lia. apply mod_add_mul_r. pose proof (pow2_pos n). lia.
  - rewrite from_words_repr by (lia || done). by rewrite ival_nonnegative.
Qed.

Lemma truncate_repr a n : wf a -> 0 < n <= width a -> truncate a n = Some (repr n (signed a) (uval a)).
Proof.
  intros [Hw Hh Hl Ho Hb] Hn. unfold truncate. rewrite (proj2 (Z.leb_le _ _)) by lia.
  by apply from_words_repr; [lia|].
Qed.

Lemma extract_bits_repr a hi lo : wf a -> 0 <= lo <= hi -> hi < width a ->
  extract_bits a hi lo = Some (repr (hi - lo + 1) false (Z.shiftr (uval a) lo)).
Proof.
  intros Ha Hlo Hhi. pose proof Ha as [Hw Hh Hl Ho Hb]. unfold extract_bits.
  rewrite (proj2 (Z.leb_le _ _)), (proj2 (Z.ltb_lt _ _)) by lia.
  destruct (Z.ltb_spec 64 (width a)).
  - rewrite from_words_repr by (lia || by apply lshr_words_ok). by rewrite lshr_words_spec by (done || lia).
  - destruct (wf_small a Ha) as [-> _]; [lia|]. by rewrite masked_repr by lia.
Qed.

(** ** Bitwise operations *)
Lemma limb_at_zip f a b i : length a = length b -> f 0 0 = 0 ->
  limb_at (zip_with f a b) i = f (limb_at a i) (limb_at b i).
Proof.
  intros Hl Hf. unfold limb_at. rewrite lookup_zip_with.
  destruct (decide (i < length a)%nat) as [Hi|Hi].
  - destruct (lookup_lt_is_Some_2 a i Hi) as [x ->].
    destruct (lookup_lt_is_Some_2 b i ltac:(lia)) as [y ->]. done.
  - rewrite !lookup_ge_None_2 by lia. by cbn.
Qed.

Lemma bitwise_lval (f : Z -> Z -> Z) (g : bool -> bool -> bool) a b :
  (forall x y k, Z.testbit (f x y) k = g (Z.testbit x k) (Z.testbit y k)) ->
  (forall x y, is_u64 x -> is_u64 y -> is_u64 (f x y)) -> f 0 0 = 0 ->
  limbs_ok a -> limbs_ok b -> length a = length b ->
  limbs_ok (zip_with f a b) /\ length (zip_with f a b) = length a /\
  lval (zip_with f a b) = f (lval a) (lval b) mod 2 ^ bits_of (zip_with f a b).
Proof.
  intros Hfg Hfu Hf0 Ha Hb Hl.
  assert (limbs_ok (zip_with f a b)) as Hok.
  { clear Hl. revert b Hb. induction Ha as [|x a Hx Ha IH]; intros [|y b] Hb; try constructor;
      inversion Hb; subst; [by apply Hfu|by apply IH]. }
  assert (length (zip_with f a b) = length a) as Hlen by (rewrite length_zip_with; lia).
  split; [done|]. split; [done|]. apply lval_bits; [done|]. intros i k Hi Hk.
  rewrite limb_at_zip by done. rewrite !Hfg. by rewrite !limb_testbit by done.
Qed.

Lemma bitwise_repr (op : APInt -> APInt -> option APInt) (f : Z -> Z -> Z) (g : bool -> bool -> bool) a b :
  (forall x y k, Z.testbit (f x y) k = g (Z.testbit x k) (Z.testbit y k)) ->
  (forall x y, is_u64 x -> is_u64 y -> is_u64 (f x y)) ->
  (forall x y n, 0 <= n -> 0 <= x < 2 ^ n -> 0 <= y < 2 ^ n -> 0 <= f x y < 2 ^ n) -> f 0 0 = 0 ->
  op a b = (if 64 <? width a then limbwise a b f
            else assert! width a =? width b;
                 Some (mkAPInt (width a) (signed a && signed b) (f (value a) (value b)) None)) ->
  wf a -> wf b -> width a = width b ->
  op a b = Some (repr (width a) (signed a && signed b) (f (uval a) (uval b))).
Proof.
  intros Hfg Hfu Hfb Hf0 -> Ha Hb Hw. pose proof Ha as [Hwp _ Hla Hoa _]. pose proof Hb as [_ _ Hlb Hob _].
  pose proof (uval_bounds a Ha) as Hua. pose proof (uval_bounds b Hb) as Hub. rewrite <- Hw in Hub.
  unfold limbwise. rewrite <- Hw, Z.eqb_refl.
  destruct (Z.ltb_spec 64 (width a)).
  - destruct (bitwise_lval f g (limbs a) (limbs b) Hfg Hfu Hf0 Hoa Hob) as (Hok & Hlen & Hv).
    { by rewrite Hla, Hlb, Hw. }
    rewrite from_words_repr by done. f_equal. apply repr_limbs_mod; [|done].
    pose proof (wf_bits_of a Ha). unfold bits_of in *. rewrite Hlen. lia.
  - destruct (wf_small a Ha) as [-> _]; [lia|]. destruct (wf_small b Hb) as [-> _]; [lia|].
    rewrite small_repr; [done|lia|]. apply Hfb; lia.
Qed.

Lemma bitwise_bound (f : Z -> Z -> Z) (g : bool -> bool -> bool) x y n :
  (forall x y k, Z.testbit (f x y) k = g (Z.testbit x k) (Z.testbit y k)) ->
  g false false = false -> (0 <= x -> 0 <= y -> 0 <= f x y) ->
  0 <= n -> 0 <= x < 2 ^ n -> 0 <= y < 2 ^ n -> 0 <= f x y < 2 ^ n.
Proof.
  intros Hf Hg Hnn Hn Hx Hy. apply testbit_bounded; [done|apply Hnn; lia|].
  intros k Hk. by rewrite Hf, !(bounded_testbit _ n).
Qed.

Lemma land_nonneg2 x y : 0 <= x -> 0 <= y -> 0 <= Z.land x y.
Proof. intros. apply Z.land_nonneg. lia. Qed.
Lemma lor_nonneg2 x y : 0 <= x -> 0 <= y -> 0 <= Z.lor x y.
Proof. intros. by apply Z.lor_nonneg. Qed.
Lemma lxor_nonneg2 x y : 0 <= x -> 0 <= y -> 0 <= Z.lxor x y.
Proof. intros. by apply Z.lxor_nonneg. Qed.

Section Bitwise.
Context (a b : APInt).
Hypothesis Ha : wf a.
Hypothesis Hb : wf b.
Hypothesis Hw : width a = width b.

Lemma and_repr : and a b = Some (repr (width a) (signed a && signed b) (Z.land (uval a) (uval b))).
Proof.
  apply (bitwise_repr and Z.land andb); auto using Z.land_spec, land_u64.
  intros. by apply (bitwise_bound Z.land andb); auto using Z.land_spec, land_nonneg2.
Qed.

Lemma or_repr : or a b = Some (repr (width a) (signed a && signed b) (Z.lor (uval a) (uval b))).
Proof.
  apply (bitwise_repr or Z.lor orb); auto using Z.lor_spec, lor_u64.
  intros. by apply (bitwise_bound Z.lor orb); auto using Z.lor_spec, lor_nonneg2.
Qed.

Lemma xor_repr : xor a b = Some (repr (width a) (signed a && signed b) (Z.lxor (uval a) (uval b))).
Proof.
  apply (bitwise_repr xor Z.lxor xorb); auto using Z.lxor_spec, lxor_u64.
  intros. by apply (bitwise_bound Z.lxor xorb); auto using Z.lxor_spec, lxor_nonneg2.
Qed.
End Bitwise.

Lemma lval_not ws : limbs_ok ws -> limbs_ok (map not64 ws) /\ lval (map not64 ws) = 2 ^ bits_of ws - 1 - lval ws.
Proof.
  induction 1 as [|w ws Hw Hok [IHok IH]]; [by split; [constructor|]|]. cbn [map lval].
  split; [constructor; [by apply not64_u64|done]|]. rewrite IH, pow_bits_cons. unfold not64, u64_max. lia.
Qed.

Lemma not_repr a : wf a -> not a = Some (repr (width a) (signed a) (Z.lnot (uval a))).
Proof.
  intros Ha. pose proof Ha as [Hw _ Hl Ho Hb]. unfold not. destruct (Z.ltb_spec 64 (width a)).
  - destruct (lval_not _ Ho) as [Hok Hv]. rewrite from_words_repr by done. f_equal. apply repr_ext.
    rewrite Hv. pose proof (wf_bits_of a Ha).
    replace (2 ^ bits_of (limbs a) - 1 - lval (limbs a)) with (Z.lnot (uval a) + 2 ^ bits_of (limbs a))
      by (unfold Z.lnot, uval; lia).
    replace (bits_of (limbs a)) with (width a + (bits_of (limbs a) - width a)) by lia.
    rewrite Z.pow_add_r by lia. apply mod_add_mul_r. pose proof (pow2_pos (width a)). lia.
  - destruct (wf_small a Ha) as [-> _]; [lia|]. rewrite masked_repr by lia. f_equal. apply repr_ext.
    unfold not64, u64_max. replace (2 ^ 64 - 1 - uval a) with (Z.lnot (uval a) + 2 ^ 64) by (unfold Z.lnot; lia).
    replace 64 with (width a + (64 - width a)) by lia. rewrite Z.pow_add_r by lia.
    apply mod_add_mul_r. pose proof (pow2_pos (width a)). lia.
Qed.
