(* ===== verification/ApIntArith.v ===== *)
(** * [APInt]: shifts, arithmetic, division, order and bit counts as equations *)
From S2P Require Import Prelude Words ApInt ApIntSpec LimbArith ApIntOps.

(** Both paths of an operation on one width: the limb path, then the word path
    with the operands' words replaced by the numbers they hold. *)
Ltac word_values :=
  repeat match goal with
  | Ha : wf ?a |- context [value ?a] => destruct (wf_small a Ha) as [-> _]; [lia|]
  end.

Lemma repr_wrap w s v : 0 < w <= 64 -> repr w s (wrap64 v) = repr w s v.
Proof. intros. apply repr_ext, wrap64_mod. lia. Qed.

(** ** Shifts *)
Lemma shl_repr a s : wf a -> 0 <= s ->
  shl a s = Some (repr (width a) (signed a && (s <? width a)) (uval a * 2 ^ s)).
Proof.
  intros Ha Hs. pose proof Ha as [Hw _ _ Ho _]. unfold shl.
  destruct (Z.leb_spec (width a) s), (Z.ltb_spec s (width a)); try lia; rewrite ?andb_false_r, ?andb_true_r.
  - rewrite zero_repr by done. f_equal. apply repr_ext.
    replace s with (width a + (s - width a)) by lia. rewrite Z.pow_add_r by lia.
    replace (uval a * (2 ^ width a * 2 ^ (s - width a))) with (0 + 2 ^ width a * (uval a * 2 ^ (s - width a))) by lia.
    symmetry. apply mod_add_mul_r. pose proof (pow2_pos (width a)). lia.
  - destruct (Z.ltb_spec 64 (width a)).
    + rewrite from_words_repr by (done || by apply shl_words_ok). f_equal.
      pose proof (wf_bits_of a Ha) as Hbits.
      assert (bits_of (shl_words (limbs a) s) = bits_of (limbs a)) as E
        by (unfold bits_of; by rewrite shl_words_length).
      apply repr_limbs_mod; [lia|]. rewrite E. by rewrite shl_words_spec.
    + word_values. rewrite masked_repr by lia. f_equal. unfold shl64.
      rewrite repr_wrap by lia. by rewrite Z.shiftl_mul_pow2.
Qed.

Lemma shiftr_range v s w : 0 <= s -> 0 <= w -> 0 <= v < 2 ^ w -> 0 <= Z.shiftr v s < 2 ^ w.
Proof.
  intros Hs Hw Hv. rewrite Z.shiftr_div_pow2 by done. pose proof (pow2_pos s Hs).
  split; [apply Z.div_pos; lia|]. apply Z.div_lt_upper_bound; nia.
Qed.

Lemma lshr_repr a s : wf a -> 0 <= s -> lshr a s = Some (repr (width a) false (Z.shiftr (uval a) s)).
Proof.
  intros Ha Hs. pose proof Ha as [Hw _ _ Ho _]. pose proof (uval_bounds a Ha) as Hu. unfold lshr.
  destruct (Z.leb_spec (width a) s).
  - rewrite zero_repr by done. do 2 f_equal. symmetry. rewrite Z.shiftr_div_pow2 by done.
    apply Z.div_small. split; [lia|]. eapply Z.lt_le_trans; [apply Hu|]. apply Z.pow_le_mono_r; lia.
  - destruct (Z.ltb_spec 64 (width a)).
    + rewrite from_words_repr by (done || by apply lshr_words_ok).
      by rewrite lshr_words_spec.
    + word_values. unfold shr64. rewrite small_repr; [done|lia|]. apply shiftr_range; lia.
Qed.

Lemma lnot_shiftr_lnot v s : 0 <= s -> Z.lnot (Z.shiftr (Z.lnot v) s) = Z.shiftr v s.
Proof. intros. rewrite Z.lnot_shiftr by done. by rewrite Z.lnot_involutive. Qed.

Lemma lnot_mod v w : 0 <= w -> Z.lnot v mod 2 ^ w = 2 ^ w - 1 - v mod 2 ^ w.
Proof.
  intros. pose proof (pow2_pos w). unfold Z.lnot. pose proof (Z.mod_pos_bound v (2 ^ w) ltac:(lia)).
  symmetry. apply Z.mod_unique with (- (v / 2 ^ w) - 1); [lia|].
  pose proof (Z.div_mod v (2 ^ w) ltac:(lia)). lia.
Qed.

(** Shifting a negative number in two's complement. *)
Lemma shiftr_negative_word v w s : 0 < w -> 0 < s < w -> 0 <= v < 2 ^ w ->
  Z.shiftr (v - 2 ^ w) s mod 2 ^ w = Z.shiftr v s + (2 ^ w - 2 ^ (w - s)).
Proof.
  intros Hw Hs Hv. rewrite !Z.shiftr_div_pow2 by lia.
  assert (2 ^ w = 2 ^ (w - s) * 2 ^ s) as E by (rewrite <- Z.pow_add_r by lia; f_equal; lia).
  pose proof (pow2_pos s ltac:(lia)). pose proof (pow2_pos (w - s) ltac:(lia)).
  replace (v - 2 ^ w) with (v + - 2 ^ (w - s) * 2 ^ s) by lia. rewrite Z.div_add by lia.
  assert (0 <= v / 2 ^ s < 2 ^ (w - s)).
  { split; [apply Z.div_pos; lia|]. apply Z.div_lt_upper_bound; lia. }
  assert (2 ^ (w - s) <= 2 ^ w) by (apply Z.pow_le_mono_r; lia).
  symmetry. apply Z.mod_unique with (-1); lia.
Qed.

Lemma ashr_fill v w s : 0 < w <= 64 -> 0 < s < w -> 0 <= v < 2 ^ w ->
  Z.lor (shr64 v s) (Z.land (shl64 (mask_for_width w) (w - s)) (mask_for_width w))
  = Z.shiftr (v - 2 ^ w) s mod 2 ^ w.
Proof.
  intros Hw Hs Hv. rewrite shiftr_negative_word by lia. rewrite land_mask by lia. unfold shl64, shr64.
  rewrite wrap64_mod by lia. rewrite mask_ones by lia. rewrite Z.ones_equiv, <- Z.sub_1_r.
  rewrite lor_high; [lia|lia|]. rewrite Z.shiftr_div_pow2 by lia.
  assert (2 ^ w = 2 ^ (w - s) * 2 ^ s) as E by (rewrite <- Z.pow_add_r by lia; f_equal; lia).
  pose proof (pow2_pos s ltac:(lia)). split; [apply Z.div_pos; lia|]. apply Z.div_lt_upper_bound; lia.
Qed.

Lemma shiftr_past v w s : 0 < w -> w <= s -> - 2 ^ (w - 1) <= v < 0 -> Z.shiftr v s = -1.
Proof.
  intros Hw Hs Hv. rewrite Z.shiftr_div_pow2 by lia. pose proof (pow2_half w Hw).
  assert (2 ^ w <= 2 ^ s) by (apply Z.pow_le_mono_r; lia).
  symmetry. apply Z.div_unique with (v + 2 ^ s); lia.
Qed.

Lemma ashr_repr a s : wf a -> 0 <= s ->
  ashr a s = Some (repr (width a) (if s =? 0 then signed a else is_negative a) (Z.shiftr (ival a) s)).
Proof.
  intros Ha Hs. pose proof Ha as [Hw _ _ Ho _]. pose proof (uval_bounds a Ha) as Hu. unfold ashr.
  destruct (Z.eqb_spec s 0) as [->|Hs0].
  { rewrite Z.shiftr_0_r. f_equal. rewrite repr_ival by done. by apply wf_repr. }
  destruct (is_negative a) eqn:Hn; cbn [negb].
  - destruct (ival_negative a Ha Hn) as (Hsg & E & Hneg). pose proof (sval_range a Ha) as Hr.
    rewrite E, Hsg. cbn [andb]. destruct (Z.ltb_spec 64 (width a)) as [|Hsmall].
    + rewrite not_repr by done. cbn [mbind option_bind].
      rewrite lshr_repr by (done || by apply repr_wf). cbn [mbind option_bind].
      rewrite not_repr by (by apply repr_wf). cbn [mbind option_bind width signed repr]. rewrite !uval_repr by done.
      f_equal. apply repr_ext. cbn [width].
      rewrite (lnot_mod (uval a)) by lia. rewrite (Z.mod_small (uval a)) by done.
      assert (2 ^ width a - 1 - uval a = Z.lnot (sval a)) as ->.
      { rewrite sval_neg by done. unfold Z.lnot. lia. }
      assert (0 <= Z.lnot (sval a) < 2 ^ width a) as Hl.
      { pose proof (pow2_half _ Hw). unfold Z.lnot. lia. }
      pose proof (shiftr_range (Z.lnot (sval a)) s (width a) Hs ltac:(lia) Hl) as Hsr.
      rewrite (Z.mod_small (Z.shiftr _ _)) by done. by rewrite lnot_shiftr_lnot.
    + destruct (Z.leb_spec (width a) s).
      * rewrite (shiftr_past _ (width a)) by lia. f_equal. rewrite <- (Z.land_m1_l (mask_for_width _)).
        by rewrite masked_repr by lia.
      * word_values. rewrite ashr_fill by lia. rewrite small_repr by (lia || by apply mod_repr_range).
        rewrite repr_mod by lia. by rewrite sval_neg.
  - rewrite (ival_nonnegative a Ha Hn).
    destruct (Z.ltb_spec 64 (width a)); [by apply lshr_repr|].
    rewrite andb_false_r. destruct (Z.leb_spec (width a) s); [|by apply lshr_repr].
    rewrite <- lshr_repr by done. unfold lshr. by rewrite (proj2 (Z.leb_le _ _)).
Qed.

Lemma max_value_repr w s : 0 < w -> max_value w s = Some (repr w s (if s then 2 ^ (w - 1) - 1 else 2 ^ w - 1)).
Proof.
  intros Hw. unfold max_value. pose proof (pow2_half w Hw) as Hh. pose proof (pow2_pos (w - 1) ltac:(lia)).
  destruct (Z.ltb_spec 64 w).
  - rewrite from_words_repr by (done || by apply limbs_ok_replicate). cbn [mbind option_bind].
    rewrite lval_replicate_max.
    assert (repr w s (2 ^ (64 * Z.of_nat (limb_count w)) - 1) = repr w s (2 ^ w - 1)) as ->.
    { apply repr_ext. pose proof (limb_count_bits w Hw).
      replace (64 * Z.of_nat (limb_count w)) with (w + (64 * Z.of_nat (limb_count w) - w)) by lia.
      rewrite Z.pow_add_r by lia. set (k := 2 ^ (_ - w)).
      replace (2 ^ w * k - 1) with (2 ^ w - 1 + 2 ^ w * (k - 1)) by lia. apply mod_add_mul_r. lia. }
    destruct s; [|done]. rewrite lshr_repr by (lia || by apply repr_wf). cbn [mbind option_bind].
    rewrite uval_repr by done. rewrite with_signed_repr. do 2 f_equal.
    rewrite Z.mod_small by lia. rewrite Z.shiftr_div_pow2 by lia. change (2 ^ 1) with 2.
    symmetry. apply Z.div_unique with 1; lia.
  - destruct s.
    + rewrite Z.land_comm, masked_repr by lia. f_equal. apply repr_ext. unfold shl64, not64, u64_max.
      rewrite Z.shiftl_1_l.
      assert (2 ^ (w - 1) < 2 ^ 64) by (apply Z.pow_lt_mono_r; lia).
      rewrite wrap64_small by (unfold is_u64; lia).
      replace 64 with (w + (64 - w)) by lia. rewrite Z.pow_add_r by lia.
      set (k := 2 ^ (64 - w)). replace (2 ^ w * k - 1 - 2 ^ (w - 1)) with (2 ^ (w - 1) - 1 + 2 ^ w * (k - 1)) by lia.
      apply mod_add_mul_r. lia.
    + rewrite <- (Z.land_m1_l (mask_for_width w)), masked_repr by lia. f_equal. apply repr_ext.
      symmetry.
      replace (2 ^ w - 1) with (-1 + 2 ^ w * 1) by lia. apply mod_add_mul_r. lia.
Qed.

(** ** Addition, subtraction, multiplication, negation *)
Section Arith.
Context (a b : APInt).
Hypothesis Ha : wf a.
Hypothesis Hb : wf b.
Hypothesis Hw : width a = width b.

Lemma same_limb_count : length (limbs a) = length (limbs b).
Proof. destruct Ha, Hb. congruence. Qed.

Lemma add_repr : add a b = Some (repr (width a) (signed a && signed b) (uval a + uval b)).
Proof.
  pose proof Ha as [Hp _ _ Hoa _]. pose proof Hb as [_ _ _ Hob _]. unfold add. rewrite <- Hw, Z.eqb_refl.
  destruct (Z.ltb_spec 64 (width a)).
  - destruct (add_words_spec _ _ Hoa Hob same_limb_count) as (Hok & Hl & Hv).
    rewrite from_words_repr by done. f_equal. pose proof (wf_bits_of a Ha).
    assert (bits_of (add_words (limbs a) (limbs b)) = bits_of (limbs a)) as E by (unfold bits_of; by rewrite Hl).
    apply repr_limbs_mod; [lia|]. by rewrite E.
  - word_values. rewrite masked_repr by lia. unfold wrapping_add. by rewrite repr_wrap by lia.
Qed.

Lemma sub_repr : sub a b = Some (repr (width a) (signed a && signed b) (uval a - uval b)).
Proof.
  pose proof Ha as [Hp _ _ Hoa _]. pose proof Hb as [_ _ _ Hob _]. unfold sub. rewrite <- Hw, Z.eqb_refl.
  destruct (Z.ltb_spec 64 (width a)).
  - destruct (sub_words_spec _ _ Hoa Hob same_limb_count) as (Hok & Hl & Hv).
    rewrite from_words_repr by done. f_equal. pose proof (wf_bits_of a Ha).
    assert (bits_of (sub_words (limbs a) (limbs b)) = bits_of (limbs a)) as E by (unfold bits_of; by rewrite Hl).
    apply repr_limbs_mod; [lia|]. by rewrite E.
  - word_values. rewrite masked_repr by lia. unfold wrapping_sub. by rewrite repr_wrap by lia.
Qed.

Lemma mul_repr : mul a b = Some (repr (width a) (signed a && signed b) (uval a * uval b)).
Proof.
  pose proof Ha as [Hp _ _ Hoa _]. pose proof Hb as [_ _ _ Hob _]. unfold mul. rewrite <- Hw, Z.eqb_refl.
  destruct (Z.ltb_spec 64 (width a)).
  - destruct (mul_words_spec _ _ Hoa Hob same_limb_count) as (r & -> & Hok & Hl & Hv). cbn [mbind option_bind].
    rewrite from_words_repr by done. f_equal. pose proof (wf_bits_of a Ha).
    assert (bits_of r = bits_of (limbs a)) as E by (unfold bits_of; by rewrite Hl).
    apply repr_limbs_mod; [lia|]. by rewrite E.
  - word_values. rewrite masked_repr by lia. by rewrite repr_wrap by lia.
Qed.
End Arith.

Lemma neg_repr a : wf a -> neg a = Some (repr (width a) (signed a) (- uval a)).
Proof.
  intros Ha. pose proof Ha as [Hw _ _ _ _]. unfold neg. destruct (Z.ltb_spec 64 (width a)).
  - rewrite zero_repr by done. cbn [mbind option_bind].
    rewrite sub_repr by (done || by apply repr_wf). cbn [mbind option_bind].
    rewrite with_signed_repr, uval_repr by done. cbn [width repr]. do 2 f_equal.
  - word_values. rewrite masked_repr by lia. unfold wrapping_add. rewrite repr_wrap by lia. f_equal.
    apply repr_ext. unfold not64, u64_max.
    replace (2 ^ 64 - 1 - uval a + 1) with (- uval a + 2 ^ 64) by lia.
    replace 64 with (width a + (64 - width a)) by lia. rewrite Z.pow_add_r by lia.
    apply mod_add_mul_r. pose proof (pow2_pos (width a)). lia.
Qed.

Lemma repr_opp_ival a s : wf a -> repr (width a) s (- uval a) = repr (width a) s (- ival a).
Proof.
  intros Ha. pose proof Ha as [Hw _ _ _ _]. apply repr_ext. unfold ival. destruct (signed a); [|done].
  unfold sval, sign_of. destruct (uval a <? _); [done|].
  replace (- (uval a - 2 ^ width a)) with (- uval a + 2 ^ width a * 1) by lia.
  symmetry. apply mod_add_mul_r. pose proof (pow2_pos (width a)). lia.
Qed.

Lemma abs_repr a : wf a -> abs a = Some (repr (width a) (signed a) (Z.abs (ival a))).
Proof.
  intros Ha. pose proof Ha as [Hw _ _ _ _]. unfold abs. rewrite is_negative_spec by done.
  destruct (Z.ltb_spec (ival a) 0).
  - rewrite neg_repr, Z.abs_neq by (done || lia). by rewrite repr_opp_ival.
  - rewrite Z.abs_eq by done. rewrite repr_ival by done. f_equal. by apply wf_repr.
Qed.

Lemma uval_ival_mod a w : wf a -> w <= width a -> 0 <= w -> ival a mod 2 ^ w = uval a mod 2 ^ w.
Proof.
  intros Ha Hw H0. pose proof Ha as [Hp _ _ _ _]. unfold ival. destruct (signed a); [|done].
  rewrite <- (mod_pow2_mono (sval a) w (width a)), <- (mod_pow2_mono (uval a) w (width a)) by lia.
  f_equal. by apply sign_of_mod.
Qed.

(** ** High products *)
Lemma shiftr_mod_window v w : 0 < w -> Z.shiftr (v mod 2 ^ (2 * w)) w mod 2 ^ w = Z.shiftr v w mod 2 ^ w.
Proof.
  intros Hw. apply Z.bits_inj'. intros k Hk. rewrite !Z.testbit_mod_pow2, !Z.shiftr_spec by lia.
  rewrite Z.testbit_mod_pow2 by lia.
  destruct (Z.ltb_spec k w), (Z.ltb_spec (k + w) (2 * w)); try done; lia.
Qed.

Lemma mulhu_repr a b : wf a -> wf b -> width a = width b ->
  mulhu a b = Some (repr (width a) false (Z.shiftr (uval a * uval b) (width a))).
Proof.
  intros Ha Hb Hw. pose proof Ha as [Hp _ _ _ _]. unfold mulhu. rewrite <- Hw, Z.eqb_refl.
  pose proof (uval_bounds a Ha) as Hua. pose proof (uval_bounds b Hb) as Hub. rewrite <- Hw in Hub.
  destruct (Z.ltb_spec 64 (width a)).
  - rewrite !zero_extend_repr by (done || lia). cbn [mbind option_bind].
    rewrite mul_repr by (done || apply repr_wf; lia). cbn [mbind option_bind width signed repr andb].
    rewrite extract_bits_repr by (try apply repr_wf; cbn [width repr]; lia).
    rewrite !uval_repr by lia. f_equal. replace (2 * width a - 1 - width a + 1) with (width a) by lia.
    apply repr_ext. rewrite shiftr_mod_window by lia.
    assert (2 ^ width a <= 2 ^ (2 * width a)) by (apply Z.pow_le_mono_r; lia).
    by rewrite !(Z.mod_small _ (2 ^ (2 * width a))) by lia.
  - word_values. rewrite masked_repr by lia. by rewrite repr_wrap by lia.
Qed.

Lemma sext_u128_spec a : wf a -> width a <= 64 -> as_i128 (sext_u128 a) = ival a.
Proof.
  intros Ha Hs. pose proof Ha as [Hw _ _ _ _]. pose proof (uval_bounds a Ha) as Hu.
  assert (2 ^ width a <= 2 ^ 64) by (apply Z.pow_le_mono_r; lia).
  unfold sext_u128. word_values. unfold as_i128. destruct (is_negative a) eqn:Hn.
  - destruct (ival_negative a Ha Hn) as (_ & -> & Hneg). rewrite lor_high by lia.
    rewrite sval_neg by done. destruct (Z.ltb_spec (uval a + 2 ^ 128 - 2 ^ width a) (2 ^ 127)); lia.
  - rewrite ival_nonnegative by done. destruct (Z.ltb_spec (uval a) (2 ^ 127)); lia.
Qed.

Lemma shiftr_mod_low v w n : 0 < w -> 2 * w <= n -> Z.shiftr (v mod 2 ^ n) w mod 2 ^ w = Z.shiftr v w mod 2 ^ w.
Proof.
  intros Hw Hn. apply Z.bits_inj'. intros k Hk. rewrite !Z.testbit_mod_pow2, !Z.shiftr_spec by lia.
  rewrite Z.testbit_mod_pow2 by lia.
  destruct (Z.ltb_spec k w), (Z.ltb_spec (k + w) n); try done; lia.
Qed.

Lemma mulh_repr a b : wf a -> wf b -> width a = width b ->
  mulh a b = Some (repr (width a) true (Z.shiftr (ival a * ival b) (width a))).
Proof.
  intros Ha Hb Hw. pose proof Ha as [Hp _ _ _ _]. unfold mulh. rewrite <- Hw, Z.eqb_refl.
  destruct (Z.ltb_spec 64 (width a)).
  - rewrite !sign_extend_repr by (done || lia). cbn [mbind option_bind].
    rewrite mul_repr by (done || apply repr_wf; lia). cbn [mbind option_bind width signed repr].
    rewrite extract_bits_repr by (try apply repr_wf; cbn [width repr]; lia). cbn [mbind option_bind].
    rewrite with_signed_repr, !uval_repr by lia. f_equal.
    replace (2 * width a - 1 - width a + 1) with (width a) by lia.
    apply repr_ext. rewrite shiftr_mod_window by lia.
    rewrite <- (shiftr_mod_window (_ mod _ * _)), <- (shiftr_mod_window (ival a * ival b)) by lia.
    rewrite <- Z.mul_mod; [done|]. pose proof (pow2_pos (2 * width a)). lia.
  - word_values. rewrite masked_repr by lia. f_equal. rewrite repr_wrap by lia. apply repr_ext.
    rewrite !sext_u128_spec by (done || lia). apply shiftr_mod_low; lia.
Qed.

(** ** Division *)
Lemma magnitude_spec a : wf a -> exists m, magnitude a = Some m /\ limbs_ok m /\
  length m = limb_count (width a) /\ lval m = Z.abs (sval a).
Proof.
  intros Ha. pose proof Ha as [Hw _ Hl Ho _]. unfold magnitude. rewrite top_bit_spec by done.
  pose proof (sval_range a Ha) as Hr. pose proof (pow2_half _ Hw) as Hh.
  destruct (Z.ltb_spec (sval a) 0).
  - rewrite neg_repr by done. cbn [mbind option_bind]. eexists; split; [done|].
    pose proof (repr_wf (width a) (signed a) (- uval a) Hw) as [_ _ Hl' Ho' _]. split; [done|]. split; [done|].
    fold (uval (repr (width a) (signed a) (- uval a))). rewrite uval_repr by done.
    pose proof (sval_neg a Ha ltac:(done)). symmetry. apply Z.mod_unique with (-1); lia.
  - exists (limbs a). split; [done|]. split; [done|]. split; [done|].
    fold (uval a). rewrite <- sval_nonneg by (done || lia). lia.
Qed.

Lemma quot_by_abs x y : y <> 0 ->
  Z.quot x y = (if xorb (x <? 0) (y <? 0) then - (Z.abs x / Z.abs y) else Z.abs x / Z.abs y).
Proof.
  intros Hy. rewrite Z.quot_div by done.
  destruct (Z.ltb_spec x 0), (Z.ltb_spec y 0); cbn [xorb];
    rewrite ?(Z.sgn_neg x), ?(Z.sgn_neg y), ?(Z.sgn_pos y) by lia; try lia.
  all: destruct (decide (x = 0)) as [->|]; [rewrite Z.div_0_l by lia; lia|rewrite (Z.sgn_pos x) by lia; lia].
Qed.

Lemma rem_by_abs x y : y <> 0 ->
  Z.rem x y = (if x <? 0 then - (Z.abs x mod Z.abs y) else Z.abs x mod Z.abs y).
Proof.
  intros Hy. rewrite Z.rem_mod by done. destruct (Z.ltb_spec x 0); [rewrite Z.sgn_neg by lia; lia|].
  destruct (decide (x = 0)) as [->|]; [rewrite Z.mod_0_l by lia; lia|rewrite Z.sgn_pos by lia; lia].
Qed.

Lemma signed_divrem_repr a b : wf a -> wf b -> width a = width b -> uval b <> 0 ->
  signed_divrem a b = Some (repr (width a) true (Z.quot (sval a) (sval b)),
                            repr (width a) true (Z.rem (sval a) (sval b))).
Proof.
  intros Ha Hb Hw Hnz. pose proof Ha as [Hp _ Hl Ho _]. unfold signed_divrem.
  destruct (magnitude_spec a Ha) as (x & -> & Hxo & Hxl & Hxv).
  destruct (magnitude_spec b Hb) as (y & -> & Hyo & Hyl & Hyv). cbn [mbind option_bind].
  assert (sval b <> 0) as Hbz.
  { pose proof (uval_bounds b Hb). intros E. destruct (Z.lt_trichotomy (sval b) 0) as [|[]]; try lia.
    rewrite sval_nonneg in E by (done || lia). lia. }
  pose proof (sval_range a Ha) as Hra. pose proof (pow2_half _ Hp).
  assert (Z.abs (sval a) < 2 ^ width a) as Hxw by lia.
  destruct (divrem_words_spec x y (width a)) as (q & r & -> & Hq & Hr & Hqv & Hrv).
  { done. } { done. } { congruence. } { lia. } { lia. }
  { pose proof (limb_count_bits _ Hp). unfold bits_of. lia. }
  cbn [mbind option_bind]. rewrite !from_words_repr by done. cbn [mbind option_bind].
  rewrite !top_bit_spec by done. rewrite Hqv, Hrv, Hxv, Hyv.
  rewrite quot_by_abs, rem_by_abs by done.
  destruct (xorb (sval a <? 0) (sval b <? 0)); destruct (sval a <? 0);
    rewrite ?neg_repr by (by apply repr_wf); cbn [mbind option_bind width signed repr];
    rewrite ?uval_repr by done; do 2 f_equal; apply repr_ext;
    rewrite <- ?(Z.sub_0_l (_ mod 2 ^ _)), ?Zminus_mod_idemp_r, ?Z.sub_0_l; done.
Qed.

Lemma divrem_repr a b s : wf a -> wf b -> width a = width b -> uval b <> 0 ->
  divrem a b s = Some
    (if s then (repr (width a) true (Z.quot (sval a) (sval b)), repr (width a) true (Z.rem (sval a) (sval b)))
     else (repr (width a) false (uval a / uval b), repr (width a) false (uval a mod uval b))).
Proof.
  intros Ha Hb Hw Hnz. pose proof Ha as [Hp _ Hl Ho _]. pose proof Hb as [_ _ Hlb Hob _].
  pose proof (uval_bounds a Ha). pose proof (uval_bounds b Hb).
  unfold divrem. rewrite <- Hw, Z.eqb_refl, is_zero_spec by done.
  rewrite (proj2 (Z.eqb_neq _ _) Hnz). cbn [negb].
  destruct (Z.ltb_spec 64 (width a)), s; cbn [andb]; [by apply signed_divrem_repr| | |].
  - destruct (divrem_words_spec (limbs a) (limbs b) (width a)) as (q & r & -> & Hq & Hr & Hqv & Hrv).
    { done. } { done. } { congruence. } { fold (uval b). lia. } { fold (uval a). lia. }
    { pose proof (wf_bits_of a Ha). lia. }
    cbn [mbind option_bind]. rewrite !from_words_repr by done. cbn [mbind option_bind].
    by rewrite Hqv, Hrv.
  - rewrite !signed_at_width_spec by (done || lia). by rewrite !masked_repr, !repr_wrap by lia.
  - word_values. by rewrite !masked_repr by lia.
Qed.

Lemma divrem_zero a b s : wf b -> uval b = 0 -> divrem a b s = None.
Proof.
  intros Hb Hz. unfold divrem. rewrite is_zero_spec, Hz by done. by destruct (_ =? _).
Qed.

(** ** Order *)
Lemma ucmp_spec a b : wf a -> wf b -> width a = width b -> ucmp a b = Some (uval a ?= uval b).
Proof.
  intros Ha Hb Hw. pose proof Ha as [Hp _ Hl Ho _]. pose proof Hb as [_ _ Hlb Hob _].
  unfold ucmp. rewrite <- Hw, Z.eqb_refl. destruct (Z.ltb_spec 64 (width a)).
  - rewrite cmp_words_spec; [done..|congruence].
  - by word_values.
Qed.

Lemma scmp_spec a b : wf a -> wf b -> width a = width b -> scmp a b = Some (sval a ?= sval b).
Proof.
  intros Ha Hb Hw. pose proof Ha as [Hp _ Hl Ho _]. pose proof Hb as [_ _ Hlb Hob _].
  pose proof (uval_bounds a Ha). pose proof (uval_bounds b Hb).
  unfold scmp. rewrite <- Hw, Z.eqb_refl. destruct (Z.ltb_spec 64 (width a)).
  - rewrite cmp_words_spec; [|done..|congruence]. f_equal. rewrite !top_bit_spec by done.
    fold (uval a) (uval b).
    destruct (Z.ltb_spec (sval a) 0), (Z.ltb_spec (sval b) 0); cbn [bool_cmp then_with].
    + rewrite !sval_neg by done. rewrite Hw.
      destruct (Z.compare_spec (uval a) (uval b)); symmetry;
        [apply Z.compare_eq_iff|apply Z.compare_lt_iff|apply Z.compare_gt_iff]; lia.
    + symmetry. apply Z.compare_lt_iff. lia.
    + symmetry. apply Z.compare_gt_iff. lia.
    + by rewrite !sval_nonneg by done.
  - by rewrite !signed_at_width_spec by (done || lia).
Qed.

Lemma ival_small a : wf a -> width a <= 64 -> numeric_key a = ival a.
Proof.
  intros Ha Hs. unfold numeric_key, ival. rewrite to_i64_spec by done.
  destruct (wf_small a Ha Hs) as [-> _]. by destruct (signed a).
Qed.

Lemma sign_of_small w v : 0 < w -> - 2 ^ (w - 1) <= v < 2 ^ (w - 1) -> sign_of w (v mod 2 ^ w) = v.
Proof.
  intros Hw Hv. pose proof (pow2_half w Hw). unfold sign_of.
  destruct (Z.ltb_spec v 0).
  - assert (v mod 2 ^ w = v + 2 ^ w) as -> by (symmetry; apply Z.mod_unique with (-1); lia).
    destruct (Z.ltb_spec (v + 2 ^ w) (2 ^ (w - 1))); lia.
  - rewrite Z.mod_small by lia. destruct (Z.ltb_spec v (2 ^ (w - 1))); lia.
Qed.

Lemma ival_range a : wf a -> - 2 ^ width a <= ival a < 2 ^ width a.
Proof.
  intros Ha. pose proof (uval_bounds a Ha). pose proof (sval_range a Ha). pose proof Ha as [Hw _ _ _ _].
  pose proof (pow2_half _ Hw). unfold ival. destruct (signed a); lia.
Qed.

Lemma widen_repr a w : wf a -> width a < w ->
  exists s, (if is_negative a then sign_extend a w else zero_extend a w) = Some (repr w s (ival a)).
Proof.
  intros Ha Hw. destruct (is_negative a) eqn:Hn.
  - eexists. apply sign_extend_repr; [done|lia].
  - exists false. rewrite zero_extend_repr by (done || lia). by rewrite ival_nonnegative.
Qed.

Lemma sval_repr w s v : 0 < w -> - 2 ^ (w - 1) <= v < 2 ^ (w - 1) -> sval (repr w s v) = v.
Proof. intros. unfold sval. rewrite uval_repr by done. by apply sign_of_small. Qed.

Lemma numeric_cmp_spec a b : wf a -> wf b -> numeric_cmp a b = Some (ival a ?= ival b).
Proof.
  intros Ha Hb. unfold numeric_cmp. pose proof Ha as [Hwa _ _ _ _]. pose proof Hb as [Hwb _ _ _ _].
  destruct (Z.leb_spec (width a) 64), (Z.leb_spec (width b) 64); cbn [andb];
    [by rewrite !ival_small by done|..].
  all: set (w := Z.max (width a) (width b) + 1).
  all: destruct (widen_repr a w Ha ltac:(lia)) as [sa ->]; cbn [mbind option_bind].
  all: destruct (widen_repr b w Hb ltac:(lia)) as [sb ->]; cbn [mbind option_bind].
  all: rewrite scmp_spec by (done || apply repr_wf; lia).
  all: pose proof (ival_range a Ha); pose proof (ival_range b Hb).
  all: assert (2 ^ width a <= 2 ^ (w - 1)) by (apply Z.pow_le_mono_r; lia).
  all: assert (2 ^ width b <= 2 ^ (w - 1)) by (apply Z.pow_le_mono_r; lia).
  all: by rewrite !sval_repr by lia.
Qed.

Lemma cmp_spec a b : wf a -> wf b ->
  cmp a b = Some (then_with (then_with (ival a ?= ival b) (width a ?= width b)) (bool_cmp (signed a) (signed b))).
Proof. intros. unfold cmp. by rewrite numeric_cmp_spec. Qed.

(** ** Bit counts *)
Lemma leading_zeros_spec v : is_u64 v -> 0 < v -> 64 - leading_zeros v = Z.log2 v + 1.
Proof. intros _ Hv. unfold leading_zeros. destruct (Z.eqb_spec v 0); lia. Qed.

Lemma rposition_split ws : limbs_ok ws -> lval ws <> 0 ->
  exists l x r, ws = l ++ x :: r /\ rposition_nonzero ws = Some (length l) /\ x <> 0 /\ lval r = 0.
Proof.
  induction 1 as [|w ws Hw Hok IH]; intros Hnz; [done|]. cbn [rposition_nonzero].
  destruct (decide (lval ws = 0)) as [E|E].
  - assert (rposition_nonzero ws = None) as ->.
    { clear -Hok E. induction Hok as [|w ws Hw Hok IH]; [done|]. cbn [lval rposition_nonzero] in *.
      pose proof (lval_bounds _ Hok). unfold is_u64 in Hw. rewrite IH by lia.
      by rewrite (proj2 (Z.eqb_eq w 0)) by lia. }
    cbn [lval] in Hnz. exists [], w, ws. rewrite (proj2 (Z.eqb_neq w 0)) by lia. repeat split; [lia|done].
  - destruct (IH E) as (l & x & r & -> & -> & Hx & Hr). exists (w :: l), x, r. done.
Qed.

Lemma position_split ws : limbs_ok ws -> lval ws <> 0 ->
  exists l x r, ws = l ++ x :: r /\ position_nonzero ws = Some (length l) /\ x <> 0 /\ lval l = 0.
Proof.
  induction 1 as [|w ws Hw Hok IH]; intros Hnz; [done|]. cbn [position_nonzero].
  destruct (Z.eqb_spec w 0) as [->|].
  - cbn [lval] in Hnz. destruct IH as (l & x & r & -> & -> & Hx & Hl); [lia|].
    exists (0 :: l), x, r. cbn [lval]. rewrite Hl. done.
  - by exists [], w, ws.
Qed.

Lemma log2_split m x k : 0 <= k -> 0 < x -> 0 <= m < 2 ^ k -> Z.log2 (m + 2 ^ k * x) = k + Z.log2 x.
Proof.
  intros Hk Hx Hm. pose proof (Z.log2_spec x Hx) as Hl. pose proof (Z.log2_nonneg x).
  apply Z.log2_unique; [lia|]. rewrite Z.pow_succ_r in * by lia. rewrite Z.pow_add_r by lia. nia.
Qed.

Lemma clz_spec a : wf a ->
  count_leading_zeros a = if uval a =? 0 then width a else width a - 1 - Z.log2 (uval a).
Proof.
  intros Ha. pose proof Ha as [Hw _ Hl Ho _]. pose proof (uval_bounds a Ha) as Hu.
  unfold count_leading_zeros. rewrite is_zero_spec by done.
  destruct (Z.eqb_spec (uval a) 0) as [|Hnz]; [done|]. destruct (Z.ltb_spec 64 (width a)).
  - destruct (rposition_split _ Ho Hnz) as (l & x & r & E & -> & Hx & Hr). cbn [default id].
    unfold uval. rewrite E. unfold limb_at. rewrite list_lookup_middle by done. cbn [default id].
    rewrite E in Ho. apply limbs_ok_app in Ho as [Hlo Hxo]. inversion Hxo as [|?? Hxu _]; subst.
    rewrite lval_app. cbn [lval]. rewrite Hr, Z.mul_0_r, Z.add_0_r.
    unfold is_u64 in Hxu.
    rewrite log2_split by (lia || apply bits_of_nonneg || by apply lval_bounds).
    pose proof (leading_zeros_spec x Hxu ltac:(lia)). unfold bits_of. lia.
  - word_values. rewrite land_mask, Z.mod_small by lia. unfold leading_zeros.
    rewrite (proj2 (Z.eqb_neq _ _) Hnz). lia.
Qed.

Lemma pos_trailing_zeros_spec p k : 0 <= k ->
  (forall i, 0 <= i < pos_trailing_zeros p -> Z.testbit (Z.pos p) i = false) /\
  Z.testbit (Z.pos p) (pos_trailing_zeros p) = true /\ 0 <= pos_trailing_zeros p.
Proof.
  intros _. induction p as [p IH|p IH|]; cbn [pos_trailing_zeros].
  - split; [lia|done].
  - destruct IH as (H1 & H2 & H3). split; [|split; [|lia]].
    + intros i Hi. destruct (decide (i = 0)) as [->|]; [done|].
      rewrite Pos2Z.inj_xO. replace i with (Z.succ (i - 1)) by lia. rewrite Z.double_bits_succ. apply H1. lia.
    + rewrite Pos2Z.inj_xO. replace (1 + pos_trailing_zeros p) with (Z.succ (pos_trailing_zeros p)) by lia.
      by rewrite Z.double_bits_succ.
  - split; [lia|done].
Qed.

(** The lowest set bit of a number. *)
Definition lowest_bit (v c : Z) : Prop :=
  0 <= c /\ Z.testbit v c = true /\ forall i, 0 <= i < c -> Z.testbit v i = false.

Lemma trailing_zeros_spec v : 0 < v -> lowest_bit v (trailing_zeros v).
Proof.
  destruct v as [|p|p]; [lia| |lia]. intros _. cbn.
  destruct (pos_trailing_zeros_spec p 0 ltac:(lia)) as (H1 & H2 & H3). done.
Qed.

Lemma lowest_bit_above m x k c : 0 <= k -> m = 0 -> lowest_bit x c -> lowest_bit (m + 2 ^ k * x) (k + c).
Proof.
  intros Hk -> (H0 & H1 & H2). rewrite Z.add_0_l, Z.mul_comm, <- Z.shiftl_mul_pow2 by done.
  split; [lia|]. split.
  - rewrite Z.shiftl_spec by lia. by replace (k + c - k) with c by lia.
  - intros i Hi. rewrite Z.shiftl_spec by lia. destruct (Z.ltb_spec i k).
    + apply Z.testbit_neg_r. lia.
    + apply H2. lia.
Qed.

Lemma lowest_bit_low x y c k : 0 <= c < k -> lowest_bit x c -> lowest_bit (x + 2 ^ k * y) c.
Proof.
  intros Hc (H0 & H1 & H2).
  assert (forall i, 0 <= i < k -> Z.testbit (x + 2 ^ k * y) i = Z.testbit x i) as E.
  { intros i Hi. rewrite <- (Z.mod_pow2_bits_low _ k) by lia.
    rewrite mod_add_mul_r by (pose proof (pow2_pos k); lia). apply Z.mod_pow2_bits_low. lia. }
  split; [done|]. split; [rewrite E by lia; done|]. intros i Hi. rewrite E by lia. by apply H2.
Qed.

Lemma lowest_bit_lt v c n : 0 <= n -> 0 <= v < 2 ^ n -> lowest_bit v c -> c < n.
Proof.
  intros Hn Hv (H0 & H1 & _). destruct (Z.ltb_spec c n); [done|].
  by rewrite (bounded_testbit v n) in H1.
Qed.

Lemma ctz_spec a : wf a ->
  if uval a =? 0 then count_trailing_zeros a = width a else lowest_bit (uval a) (count_trailing_zeros a).
Proof.
  intros Ha. pose proof Ha as [Hw _ Hl Ho _]. pose proof (uval_bounds a Ha) as Hu.
  unfold count_trailing_zeros. rewrite is_zero_spec by done.
  destruct (Z.eqb_spec (uval a) 0) as [|Hnz]; [done|]. destruct (Z.ltb_spec 64 (width a)).
  - destruct (position_split _ Ho Hnz) as (l & x & r & E & -> & Hx & Hl0). cbn [default id].
    unfold uval. rewrite E. unfold limb_at. rewrite list_lookup_middle by done. cbn [default id].
    rewrite E in Ho. apply limbs_ok_app in Ho as [Hlo Hxo]. inversion Hxo as [|?? Hxu _]; subst.
    rewrite lval_app. cbn [lval]. unfold is_u64 in Hxu.
    apply lowest_bit_above; [apply bits_of_nonneg|done|].
    pose proof (trailing_zeros_spec x ltac:(lia)) as Ht.
    apply lowest_bit_low; [|done]. split; [apply Ht|]. apply (lowest_bit_lt x); [lia|lia|done].
  - word_values. pose proof (trailing_zeros_spec (uval a) ltac:(lia)) as Ht.
    pose proof (lowest_bit_lt _ _ (width a) ltac:(lia) Hu Ht). by rewrite Z.min_l by lia.
Qed.

(** The number of set bits below [n]. *)
Definition bit_sum (v : Z) (n : nat) : Z :=
  foldr (fun i s => Z.b2z (Z.testbit v (Z.of_nat i)) + s) 0 (seq 0 n).

Lemma bit_sum_S v n : bit_sum v (S n) = bit_sum v n + Z.b2z (Z.testbit v (Z.of_nat n)).
Proof.
  unfold bit_sum. rewrite seq_S, foldr_app. cbn [foldr].
  assert (forall l z, foldr (fun i s => Z.b2z (Z.testbit v (Z.of_nat i)) + s) z l =
                      foldr (fun i s => Z.b2z (Z.testbit v (Z.of_nat i)) + s) 0 l + z) as H.
  { induction l as [|x l IH]; intros z; cbn; [lia|]. rewrite (IH z). lia. }
  rewrite H. cbn. lia.
Qed.

Lemma bit_sum_shift v n : bit_sum v (S n) = Z.b2z (Z.testbit v 0) + bit_sum (Z.div2 v) n.
Proof.
  induction n as [|n IH]; [unfold bit_sum; cbn [seq foldr]; change (Z.of_nat 0) with 0; lia|].
  rewrite bit_sum_S, IH, bit_sum_S. rewrite Z.div2_spec, Z.shiftr_spec by lia.
  replace (Z.of_nat n + 1) with (Z.of_nat (S n)) by lia. lia.
Qed.

Lemma bit_sum_0 n : bit_sum 0 n = 0.
Proof. induction n as [|n IH]; [done|]. rewrite bit_sum_S, IH, Z.testbit_0_l. done. Qed.

Lemma bit_sum_ext v v' n : (forall i, 0 <= i < Z.of_nat n -> Z.testbit v i = Z.testbit v' i) -> bit_sum v n = bit_sum v' n.
Proof.
  induction n as [|n IH]; intros H; [done|]. rewrite !bit_sum_S, IH, H; [done|lia|].
  intros. apply H. lia.
Qed.

Lemma count_ones_spec v n : 0 <= v < 2 ^ Z.of_nat n -> count_ones v = bit_sum v n.
Proof.
  revert v; induction n as [|n IH]; intros v Hv; [cbn in Hv; by replace v with 0 by lia|].
  rewrite bit_sum_shift, <- IH.
  - destruct v as [|[p|p|]|]; try done; lia.
  - rewrite Z.div2_div. replace (Z.of_nat (S n)) with (Z.of_nat n + 1) in Hv by lia.
    rewrite Z.pow_add_r in Hv by lia. change (2 ^ 1) with 2 in Hv. divlia.
Qed.

Lemma bit_sum_add v m k : bit_sum v (m + k) = bit_sum v m + bit_sum (Z.shiftr v (Z.of_nat m)) k.
Proof.
  induction k as [|k IH]; [rewrite Nat.add_0_r; unfold bit_sum at 3; cbn [seq foldr]; lia|].
  rewrite Nat.add_succ_r, !bit_sum_S, IH. rewrite Z.shiftr_spec by lia.
  replace (Z.of_nat k + Z.of_nat m) with (Z.of_nat (m + k)) by lia. lia.
Qed.

Lemma popcount_limbs ws : limbs_ok ws ->
  foldr Z.add 0 (map count_ones ws) = bit_sum (lval ws) (64 * length ws).
Proof.
  induction 1 as [|w ws Hw Hok IH]; [done|]. cbn [map foldr length lval]. rewrite IH.
  replace (64 * S (length ws))%nat with (64 + 64 * length ws)%nat by lia. rewrite bit_sum_add.
  rewrite (count_ones_spec w 64) by done. change (Z.of_nat 64) with 64. f_equal.
  - apply bit_sum_ext. intros i Hi. rewrite <- (Z.mod_pow2_bits_low (w + _) 64) by lia.
    by rewrite mod_add_mul_r, Z.mod_small by (done || lia).
  - rewrite Z.shiftr_div_pow2, Z.mul_comm, Z.div_add, Z.div_small by (done || lia). by rewrite Z.add_0_l.
Qed.

Lemma popcount_spec a : wf a -> popcount a = bit_sum (uval a) (Z.to_nat (width a)).
Proof.
  intros Ha. pose proof Ha as [Hw _ Hl Ho _]. pose proof (uval_bounds a Ha) as Hu. unfold popcount.
  destruct (Z.ltb_spec 64 (width a)).
  - rewrite popcount_limbs by done. fold (uval a). pose proof (limb_count_bits _ Hw).
    replace (64 * length (limbs a))%nat with (Z.to_nat (width a) + (64 * length (limbs a) - Z.to_nat (width a)))%nat by lia.
    rewrite bit_sum_add. rewrite Z.shiftr_div_pow2, Z2Nat.id, Z.div_small, bit_sum_0 by lia. lia.
  - word_values. rewrite land_mask, Z.mod_small by lia. apply count_ones_spec. by rewrite Z2Nat.id by lia.
Qed.
