(* ===== verification/ApIntTheorems.v ===== *)
(** * The theorems of [APInt] *)
From S2P Require Import Prelude Words ApInt ApIntSpec LimbArith ApIntOps ApIntArith.

(** Values the witnesses compute on: 70 and 8 bits wide. *)
Definition wide_a : APInt := mkAPInt 70 true 12345678901234567890 (Some [63]).
Definition wide_b : APInt := mkAPInt 70 true 3 (Some [0]).
Definition wide_0 : APInt := mkAPInt 70 true 0 (Some [0]).
Definition byte_a : APInt := mkAPInt 8 true 200 None.

Ltac wf_by_compute := apply wfb_wf; vm_compute; reflexivity.

(** C24: addition, subtraction, multiplication and negation never panic on two
    values of one width and are those of the integers modulo [2^w], at every
    width: the word path and the limb path agree. *)
Theorem apint_ring a b : wf a -> wf b -> width a = width b ->
  let w := width a in let s := signed a && signed b in
  add a b = Some (repr w s (uval a + uval b)) /\
  sub a b = Some (repr w s (uval a - uval b)) /\
  mul a b = Some (repr w s (uval a * uval b)) /\
  neg a = Some (repr w (signed a) (- uval a)) /\
  abs a = Some (repr w (signed a) (Z.abs (ival a))).
Proof.
  intros Ha Hb Hw w s. split; [by apply add_repr|]. split; [by apply sub_repr|].
  split; [by apply mul_repr|]. split; [by apply neg_repr|by apply abs_repr].
Qed.

Lemma apint_ring_witness :
  let w := width wide_a in let s := signed wide_a && signed wide_b in
  add wide_a wide_b = Some (repr w s (uval wide_a + uval wide_b)) /\
  sub wide_a wide_b = Some (repr w s (uval wide_a - uval wide_b)) /\
  mul wide_a wide_b = Some (repr w s (uval wide_a * uval wide_b)) /\
  neg wide_a = Some (repr w (signed wide_a) (- uval wide_a)) /\
  abs wide_a = Some (repr w (signed wide_a) (Z.abs (ival wide_a))).
Proof. apply (apint_ring wide_a wide_b); [wf_by_compute|wf_by_compute|reflexivity]. Defined.

(** C25: division truncates towards zero; the signed operations read both
    operands as two's complement, the unsigned ones as naturals, whatever
    their flags, and a zero divisor panics. The restoring division of limbs
    computes the same quotient and remainder as the division of words. *)
Theorem apint_division a b : wf a -> wf b -> width a = width b ->
  let w := width a in
  udiv a b = (if uval b =? 0 then None else Some (repr w false (uval a / uval b))) /\
  urem a b = (if uval b =? 0 then None else Some (repr w false (uval a mod uval b))) /\
  sdiv a b = (if uval b =? 0 then None else Some (repr w true (Z.quot (sval a) (sval b)))) /\
  srem a b = (if uval b =? 0 then None else Some (repr w true (Z.rem (sval a) (sval b)))).
Proof.
  intros Ha Hb Hw w. unfold udiv, urem, sdiv, srem. destruct (Z.eqb_spec (uval b) 0) as [E|E].
  - by rewrite !divrem_zero.
  - by rewrite !divrem_repr.
Qed.

Lemma apint_division_witness :
  let w := width wide_a in
  udiv wide_a wide_b = (if uval wide_b =? 0 then None else Some (repr w false (uval wide_a / uval wide_b))) /\
  urem wide_a wide_b = (if uval wide_b =? 0 then None else Some (repr w false (uval wide_a mod uval wide_b))) /\
  sdiv wide_a wide_b = (if uval wide_b =? 0 then None else Some (repr w true (Z.quot (sval wide_a) (sval wide_b)))) /\
  srem wide_a wide_b = (if uval wide_b =? 0 then None else Some (repr w true (Z.rem (sval wide_a) (sval wide_b)))).
Proof. apply (apint_division wide_a wide_b); [wf_by_compute|wf_by_compute|reflexivity]. Defined.

(** The shifts are defined for every amount: the bits past the width are
    dropped, and an arithmetic right shift repeats the sign of a value that
    is flagged signed. *)
Theorem apint_shifts a n : wf a -> 0 <= n ->
  shl a n = Some (repr (width a) (signed a && (n <? width a)) (uval a * 2 ^ n)) /\
  lshr a n = Some (repr (width a) false (uval a / 2 ^ n)) /\
  ashr a n = Some (repr (width a) (if n =? 0 then signed a else is_negative a) (ival a / 2 ^ n)).
Proof.
  intros Ha Hn. rewrite <- !Z.shiftr_div_pow2 by done.
  split; [by apply shl_repr|]. split; [by apply lshr_repr|by apply ashr_repr].
Qed.

Lemma apint_shifts_witness :
  shl wide_a 69 = Some (repr (width wide_a) (signed wide_a && (69 <? width wide_a)) (uval wide_a * 2 ^ 69)) /\
  lshr wide_a 69 = Some (repr (width wide_a) false (uval wide_a / 2 ^ 69)) /\
  ashr wide_a 69 = Some (repr (width wide_a) (if 69 =? 0 then signed wide_a else is_negative wide_a) (ival wide_a / 2 ^ 69)).
Proof. apply (apint_shifts wide_a 69); [wf_by_compute|lia]. Defined.

(** The changes of width: [zero_extend] keeps the pattern, [sign_extend]
    keeps the value the flag selects, [truncate] keeps the low bits,
    [extract_bits] reads a field; out of these ranges they panic. *)
Theorem apint_resize a n hi lo : wf a -> 0 < n -> 0 <= lo -> 0 <= hi ->
  zero_extend a n = (if width a <=? n then Some (repr n false (uval a)) else None) /\
  sign_extend a n = (if width a <=? n then Some (repr n (signed a) (ival a)) else None) /\
  truncate a n = (if n <=? width a then Some (repr n (signed a) (uval a)) else None) /\
  extract_bits a hi lo = (if (lo <=? hi) && (hi <? width a) then
    Some (repr (hi - lo + 1) false (uval a / 2 ^ lo)) else None).
Proof.
  intros Ha Hn Hlo Hhi. rewrite <- Z.shiftr_div_pow2 by done. repeat split.
  - destruct (Z.leb_spec (width a) n); [by apply zero_extend_repr|].
    unfold zero_extend. by rewrite (proj2 (Z.leb_gt _ _)) by lia.
  - destruct (Z.leb_spec (width a) n); [by apply sign_extend_repr|].
    unfold sign_extend. by rewrite (proj2 (Z.leb_gt _ _)) by lia.
  - destruct (Z.leb_spec n (width a)); [by apply truncate_repr|].
    unfold truncate. by rewrite (proj2 (Z.leb_gt _ _)) by lia.
  - destruct (Z.leb_spec lo hi) as [H1|H1], (Z.ltb_spec hi (width a)) as [H2|H2]; cbn [andb].
    + by apply extract_bits_repr.
    + unfold extract_bits. by rewrite (proj2 (Z.leb_le _ _) H1), (proj2 (Z.ltb_ge _ _) H2).
    + unfold extract_bits. by rewrite (proj2 (Z.leb_gt _ _) H1).
    + unfold extract_bits. by rewrite (proj2 (Z.leb_gt _ _) H1).
Qed.

Lemma apint_resize_witness :
  zero_extend wide_a 130 = (if width wide_a <=? 130 then Some (repr 130 false (uval wide_a)) else None) /\
  sign_extend wide_a 130 = (if width wide_a <=? 130 then Some (repr 130 (signed wide_a) (ival wide_a)) else None) /\
  truncate wide_a 130 = (if 130 <=? width wide_a then Some (repr 130 (signed wide_a) (uval wide_a)) else None) /\
  extract_bits wide_a 69 60 = (if (60 <=? 69) && (69 <? width wide_a) then
    Some (repr (69 - 60 + 1) false (uval wide_a / 2 ^ 60)) else None).
Proof. apply (apint_resize wide_a 130 69 60); [wf_by_compute|lia..]. Defined.

(** The bitwise operations act on the patterns, and the counts are those
    of the pattern: leading zeros from the highest set bit, trailing zeros up
    to the lowest, [count_ones] the sum of the bits. *)
Theorem apint_bits a b : wf a -> wf b -> width a = width b ->
  let w := width a in let s := signed a && signed b in
  and a b = Some (repr w s (Z.land (uval a) (uval b))) /\
  or a b = Some (repr w s (Z.lor (uval a) (uval b))) /\
  xor a b = Some (repr w s (Z.lxor (uval a) (uval b))) /\
  not a = Some (repr w (signed a) (Z.lnot (uval a))) /\
  count_leading_zeros a = (if uval a =? 0 then w else w - 1 - Z.log2 (uval a)) /\
  (if uval a =? 0 then count_trailing_zeros a = w else lowest_bit (uval a) (count_trailing_zeros a)) /\
  popcount a = bit_sum (uval a) (Z.to_nat w).
Proof.
  intros Ha Hb Hw w s. split; [by apply and_repr|]. split; [by apply or_repr|]. split; [by apply xor_repr|].
  split; [by apply not_repr|]. split; [by apply clz_spec|]. split; [by apply ctz_spec|by apply popcount_spec].
Qed.

Lemma apint_bits_witness :
  let w := width wide_a in let s := signed wide_a && signed wide_b in
  and wide_a wide_b = Some (repr w s (Z.land (uval wide_a) (uval wide_b))) /\
  or wide_a wide_b = Some (repr w s (Z.lor (uval wide_a) (uval wide_b))) /\
  xor wide_a wide_b = Some (repr w s (Z.lxor (uval wide_a) (uval wide_b))) /\
  not wide_a = Some (repr w (signed wide_a) (Z.lnot (uval wide_a))) /\
  count_leading_zeros wide_a = (if uval wide_a =? 0 then w else w - 1 - Z.log2 (uval wide_a)) /\
  (if uval wide_a =? 0 then count_trailing_zeros wide_a = w
   else lowest_bit (uval wide_a) (count_trailing_zeros wide_a)) /\
  popcount wide_a = bit_sum (uval wide_a) (Z.to_nat w).
Proof. apply (apint_bits wide_a wide_b); [wf_by_compute|wf_by_compute|reflexivity]. Defined.

(** [mulhu] and [mulh] return the high half of the double-width product,
    of the unsigned values and of the values the flags select. *)
Theorem apint_mul_high a b : wf a -> wf b -> width a = width b ->
  mulhu a b = Some (repr (width a) false (uval a * uval b / 2 ^ width a)) /\
  mulh a b = Some (repr (width a) true (ival a * ival b / 2 ^ width a)).
Proof.
  intros Ha Hb Hw. pose proof (wf_width a Ha). rewrite <- !Z.shiftr_div_pow2 by lia.
  split; [by apply mulhu_repr|by apply mulh_repr].
Qed.

Lemma apint_mul_high_witness :
  mulhu wide_a wide_b = Some (repr (width wide_a) false (uval wide_a * uval wide_b / 2 ^ width wide_a)) /\
  mulh wide_a wide_b = Some (repr (width wide_a) true (ival wide_a * ival wide_b / 2 ^ width wide_a)).
Proof. apply (apint_mul_high wide_a wide_b); [wf_by_compute|wf_by_compute|reflexivity]. Defined.

(** [Ord::cmp] is a total order of the values, consistent with equality:
    it compares what the values denote, then their widths and flags, and is
    [Equal] on equal values only; [ucmp] and [scmp] compare the unsigned and
    the two's-complement readings of values of one width. *)
Theorem apint_order a b : wf a -> wf b ->
  cmp a b = Some (then_with (then_with (ival a ?= ival b) (width a ?= width b)) (bool_cmp (signed a) (signed b))) /\
  (cmp a b = Some Eq <-> a = b) /\ cmp b a = CompOpp <$> cmp a b /\
  (width a = width b -> ucmp a b = Some (uval a ?= uval b) /\ scmp a b = Some (sval a ?= sval b)).
Proof.
  intros Ha Hb. rewrite !cmp_spec by done. split; [done|]. split; [split|split].
  - intros [= E]. destruct (Z.compare_spec (ival a) (ival b)) as [Ei| |]; [|done..].
    destruct (Z.compare_spec (width a) (width b)) as [Ew| |]; [|done..]. cbn in E.
    assert (signed a = signed b) as Es by (by destruct (signed a), (signed b)).
    rewrite (wf_repr a Ha), (wf_repr b Hb), <- (repr_ival _ _ a), <- (repr_ival _ _ b) by (done || apply wf_width; done).
    by rewrite Ei, Ew, Es.
  - intros ->. rewrite !Z.compare_refl. by destruct (signed b).
  - cbn. f_equal. rewrite (Z.compare_antisym (ival b)), (Z.compare_antisym (width b)).
    destruct (ival b ?= ival a); [|done..]. destruct (width b ?= width a); [|done..]. by destruct (signed a), (signed b).
  - intros Hw. split; [by apply ucmp_spec|by apply scmp_spec].
Qed.

Lemma apint_order_witness :
  cmp wide_a byte_a = Some (then_with (then_with (ival wide_a ?= ival byte_a) (width wide_a ?= width byte_a))
    (bool_cmp (signed wide_a) (signed byte_a))) /\
  (cmp wide_a byte_a = Some Eq <-> wide_a = byte_a) /\ cmp byte_a wide_a = CompOpp <$> cmp wide_a byte_a /\
  (width wide_a = width byte_a -> ucmp wide_a byte_a = Some (uval wide_a ?= uval byte_a) /\
    scmp wide_a byte_a = Some (sval wide_a ?= sval byte_a)).
Proof. apply (apint_order wide_a byte_a); wf_by_compute. Defined.

(** The representation invariant is closed under every operation that
    returns a value: the limbs have the length of the width, no bit is set
    above it, and the high limbs are present exactly past 64 bits. *)
Theorem apint_closed a b c n hi lo : wf a -> wf b -> width a = width b -> 0 < n -> 0 <= lo <= hi -> hi < width a ->
  c ∈ omap id [add a b; sub a b; mul a b; neg a; abs a; udiv a b; urem a b; sdiv a b; srem a b; and a b; or a b;
    xor a b; not a; shl a n; lshr a n; ashr a n; mulhu a b; mulh a b; zero_extend a (width a + n);
    sign_extend a (width a + n); truncate a (Z.min n (width a)); extract_bits a hi lo] -> wf c.
Proof.
  intros Ha Hb Hw Hn Hlo Hhi. pose proof (wf_width a Ha) as Hwa.
  assert (forall b', wf b' -> width a = width b' -> forall s, match divrem a b' s with
    Some (q, r) => wf q /\ wf r | None => True end) as Hdiv.
  { intros b' Hb' Hw' s. destruct (Z.eq_dec (uval b') 0) as [E|E]; [by rewrite divrem_zero|].
    rewrite divrem_repr by done. destruct s; split; apply repr_wf; lia. }
  pose proof (Hdiv b Hb Hw false) as Hu. pose proof (Hdiv b Hb Hw true) as Hs. clear Hdiv.
  unfold udiv, urem, sdiv, srem. intros (o & Ho & Hc)%list_elem_of_omap. cbn in Hc. subst o.
  rewrite add_repr, sub_repr, mul_repr, neg_repr, abs_repr, and_repr, or_repr, xor_repr, not_repr, shl_repr, lshr_repr,
    ashr_repr, mulhu_repr, mulh_repr, zero_extend_repr, sign_extend_repr, truncate_repr, extract_bits_repr in Ho by (done || lia).
  destruct (divrem a b false) as [[q r]|], (divrem a b true) as [[q' r']|]; cbn in Ho;
    repeat (apply elem_of_cons in Ho as [Ho|Ho]; [first [discriminate Ho|injection Ho as ->; first [apply Hu|apply Hs|apply repr_wf; lia]]|]);
    by apply not_elem_of_nil in Ho.
Qed.

Lemma apint_closed_witness : wf (mkAPInt 8 true 144 None).
Proof.
  apply (apint_closed byte_a byte_a (mkAPInt 8 true 144 None) 3 6 2);
    [wf_by_compute|wf_by_compute|reflexivity|lia|lia|reflexivity|].
  apply (list_elem_of_lookup_2 _ 0). vm_compute. reflexivity.
Defined.
