(* ===== verification/ApIntText.v ===== *)
(** * The text forms of [APInt] ([libs/adt/src/apint.rs])

    A text is a list of Unicode scalar values. [radix_text] is the standard
    library's formatting of an unsigned integer. *)
From S2P Require Import Prelude Words ApInt.
#[local] Open Scope Z_scope.

Definition Text := list Z.

(** [char::from_digit], lower case. *)
Definition digit_char (d : Z) : Z := if d <? 10 then 48 + d else 87 + d.

(** [char::to_digit]. *)
Definition to_digit (c radix : Z) : option Z :=
  let d :=
    if (48 <=? c) && (c <=? 57) then c - 48
    else if (97 <=? c) && (c <=? 122) then c - 87
    else if (65 <=? c) && (c <=? 90) then c - 55
    else radix in
  if d <? radix then Some d else None.

Fixpoint radix_loop (fuel : nat) (radix n : Z) : Text :=
  match fuel with
  | O => []
  | S fuel => (if n <? radix then [] else radix_loop fuel radix (n / radix)) ++ [digit_char (n mod radix)]
  end.
Definition radix_text (radix n : Z) : Text := radix_loop (S (Z.to_nat (Z.log2 n))) radix n.

(** [{:019}] and [{:016x}]: zeros on the left up to a width. *)
Definition padded (w : nat) (t : Text) : Text := replicate (w - length t) 48 ++ t.

(** [{}] of an [i64]. *)
Definition signed_text (n : Z) : Text := if n <? 0 then 45 :: radix_text 10 (- n) else radix_text 10 n.

(** ** [decimal] *)
Definition CHUNK : Z := 10000000000000000000.

(** The inner loop: one division of the words by [CHUNK], from the top. *)
Fixpoint div_chunk (words : list Z) : list Z * Z :=
  match words with
  | [] => ([], 0)
  | word :: words =>
    let '(words, remainder) := div_chunk words in
    let current := remainder * 2 ^ 64 + word in
    (wrap64 (current / CHUNK) :: words, current mod CHUNK)
  end.

(** The chunks, least significant first. *)
Fixpoint chunks_loop (fuel : nat) (words : list Z) : option (list Z) :=
  if forallb (fun word => word =? 0) words then Some []
  else match fuel with
  | O => None
  | S fuel =>
    let '(words, remainder) := div_chunk words in
    chunks ← chunks_loop fuel words;
    Some (wrap64 remainder :: chunks)
  end.

(** [chunks.pop().unwrap_or(0)] and the rest, from the top. *)
Definition chunks_text (chunks : list Z) : Text :=
  match rev chunks with
  | [] => radix_text 10 0
  | top :: rest => radix_text 10 top ++ concat (map (fun chunk => padded 19 (radix_text 10 chunk)) rest)
  end.

(** A division by [CHUNK] takes 63 bits off, so two per limb are enough. *)
Definition decimal (a : APInt) : option Text :=
  if width a <=? 64 then Some (radix_text 10 (value a))
  else
    chunks ← chunks_loop (2 * length (limbs a)) (limbs a);
    Some (chunks_text chunks).

(** ** Formatting *)
Definition display (a : APInt) : option Text :=
  if signed a && (width a <=? 64) then Some (signed_text (to_i64 a))
  else if is_negative a then
    n ← neg a;
    t ← decimal n;
    Some (45 :: t)
  else decimal a.

Definition binary (a : APInt) : Text :=
  map (fun bit_ => if bit a (Z.of_nat bit_) then 49 else 48) (rev (seq 0 (Z.to_nat (width a)))).

Definition lower_hex (a : APInt) : option Text :=
  let top := default 0%nat (rposition_nonzero (limbs a)) in
  limb ← limbs a !! top;
  Some (radix_text 16 limb ++ concat (map (fun limb => padded 16 (radix_text 16 limb)) (rev (take top (limbs a))))).

Definition to_uppercase (t : Text) : Text := map (fun c => if (97 <=? c) && (c <=? 122) then c - 32 else c) t.
Definition upper_hex (a : APInt) : option Text := t ← lower_hex a; Some (to_uppercase t).

(** ** Parsing *)
Inductive ParseError :=
  | EmptyString
  | NoDigits (s : Text)
  | InvalidDigit (ch radix : Z).

(** [char::is_whitespace]. *)
Definition is_whitespace (c : Z) : bool :=
  ((9 <=? c) && (c <=? 13)) || (c =? 32) || (c =? 133) || (c =? 160) || (c =? 5760) ||
  ((8192 <=? c) && (c <=? 8202)) || (c =? 8232) || (c =? 8233) || (c =? 8239) || (c =? 8287) || (c =? 12288).

Fixpoint trim_start (s : Text) : Text :=
  match s with
  | c :: s' => if is_whitespace c then trim_start s' else s
  | [] => []
  end.
Definition trim (s : Text) : Text := rev (trim_start (rev (trim_start s))).

Definition radix_prefix (s : Text) : Z * Text :=
  match s with
  | 48 :: 120 :: rest | 48 :: 88 :: rest => (16, rest)
  | 48 :: 111 :: rest | 48 :: 79 :: rest => (8, rest)
  | 48 :: 98 :: rest | 48 :: 66 :: rest => (2, rest)
  | _ => (10, s)
  end.

(** One digit: the words times the radix, plus the digit. *)
Fixpoint push_digit (radix carry : Z) (words : list Z) : list Z * Z :=
  match words with
  | [] => ([], carry)
  | word :: words =>
    let current := word * radix + carry in
    let '(words, carry) := push_digit radix (Z.shiftr current 64) words in
    (wrap64 current :: words, carry)
  end.

Definition parse_digit (radix : Z) (words : list Z) (ch : Z) : list Z + ParseError :=
  match to_digit ch radix with
  | None => inr (InvalidDigit ch radix)
  | Some digit =>
    let '(words, carry) := push_digit radix digit words in
    inl (if carry =? 0 then words else words ++ [wrap64 carry])
  end.

Fixpoint parse_digits (radix : Z) (words : list Z) (clean : Text) : list Z + ParseError :=
  match clean with
  | [] => inl words
  | ch :: clean =>
    match parse_digit radix words ch with
    | inl words => parse_digits radix words clean
    | inr e => inr e
    end
  end.

(** The width of the value's bits, at least one. *)
Definition parsed_width (words : list Z) : option Z :=
  let top := (length words - 1)%nat in
  limb ← words !! top;
  Some (Z.max 1 (64 * Z.of_nat top + 64 - leading_zeros limb)).

(** The outer [option] is a panic, the sum the [Result]. *)
Definition from_str (s : Text) : option (APInt + ParseError) :=
  let s := trim s in
  match s with
  | [] => Some (inr EmptyString)
  | _ =>
    let '(radix, digits) := radix_prefix s in
    let clean := List.filter (fun c => negb (c =? 95)) digits in
    match clean with
    | [] => Some (inr (NoDigits s))
    | _ =>
      match parse_digits radix [0] clean with
      | inr e => Some (inr e)
      | inl words =>
        width ← parsed_width words;
        a ← from_words width false words;
        Some (inl a)
      end
    end
  end.
