(* ===== verification/ApIntTextSpec.v ===== *)
(** * The text forms of [APInt]: what printing and parsing compute *)
From S2P Require Import Prelude Words ApInt ApIntSpec LimbArith ApIntOps ApIntArith ApIntText.
#[local] Open Scope Z_scope.

(** ** Positional text *)
Section radix.
Context (R : Z) (HR : 2 <= R <= 16).

Lemma radix_loop_enough f g n : 0 <= n < R ^ Z.of_nat (S f) -> n < R ^ Z.of_nat (S g) -> radix_loop (S f) R n = radix_loop (S g) R n.
Proof.
  revert g n; induction f as [|f IH]; intros g n Hf Hg; cbn [radix_loop].
  - change (Z.of_nat 1) with 1 in Hf. rewrite Z.pow_1_r in Hf. destruct (Z.ltb_spec n R); [done|lia].
  - destruct (Z.ltb_spec n R) as [|Hn]; [done|]. destruct g as [|g].
    { change (Z.of_nat 1) with 1 in Hg. rewrite Z.pow_1_r in Hg. lia. }
    f_equal. apply IH.
    + rewrite Nat2Z.inj_succ, Z.pow_succ_r in Hf by lia. split; [apply Z.div_pos; lia|apply Z.div_lt_upper_bound; lia].
    + rewrite Nat2Z.inj_succ, Z.pow_succ_r in Hg by lia. apply Z.div_lt_upper_bound; lia.
Qed.

Lemma radix_fuel n : 0 <= n -> n < R ^ Z.of_nat (S (Z.to_nat (Z.log2 n))).
Proof.
  intros Hn. rewrite Nat2Z.inj_succ, Z2Nat.id by apply Z.log2_nonneg. destruct (Z.eq_dec n 0) as [->|]; [apply Z.pow_pos_nonneg; cbn; lia|].
  apply Z.lt_le_trans with (2 ^ Z.succ (Z.log2 n)); [apply Z.log2_spec; lia|]. apply Z.pow_le_mono_l. lia.
Qed.

Lemma radix_text_digit n : 0 <= n < R -> radix_text R n = [digit_char n].
Proof. intros Hn. unfold radix_text. cbn [radix_loop]. destruct (Z.ltb_spec n R); [|lia]. by rewrite Z.mod_small. Qed.

Lemma radix_text_snoc q d : 0 < q -> 0 <= d < R -> radix_text R (q * R + d) = radix_text R q ++ [digit_char d].
Proof.
  intros Hq Hd. assert ((q * R + d) / R = q) as Ed by (rewrite Z.div_add_l, Z.div_small; lia).
  assert ((q * R + d) mod R = d) as Em by (rewrite Z.add_comm, Z.mod_add, Z.mod_small; lia).
  set (n := q * R + d) in *. unfold radix_text at 1. pose proof (radix_fuel n ltac:(nia)) as Hf.
  destruct (Z.to_nat (Z.log2 n)) as [|f] eqn:El.
  { change (Z.of_nat 1) with 1 in Hf. rewrite Z.pow_1_r in Hf. nia. }
  change (radix_loop (S (S f)) R n) with ((if n <? R then [] else radix_loop (S f) R (n / R)) ++ [digit_char (n mod R)]).
  destruct (Z.ltb_spec n R); [nia|]. rewrite Ed, Em. f_equal. apply radix_loop_enough; [|apply radix_fuel; lia].
  rewrite Nat2Z.inj_succ, Z.pow_succ_r in Hf by lia. split; [lia|]. nia.
Qed.

(** Exactly [k] digits. *)
Fixpoint fixed (k : nat) (x : Z) : Text :=
  match k with O => [] | S k => fixed k (x / R) ++ [digit_char (x mod R)] end.

Lemma fixed_0 k : fixed k 0 = replicate k 48.
Proof.
  induction k as [|k IH]; [done|]. cbn [fixed]. rewrite Z.div_0_l, Z.mod_0_l, IH by lia. cbn [digit_char].
  by rewrite <- replicate_cons_app.
Qed.

Lemma radix_text_app q k x : 0 < q -> 0 <= x < R ^ Z.of_nat k -> radix_text R (q * R ^ Z.of_nat k + x) = radix_text R q ++ fixed k x.
Proof.
  intros Hq. revert x. induction k as [|k IH]; intros x Hx.
  - change (Z.of_nat 0) with 0 in *. rewrite Z.pow_0_r in *. cbn [fixed]. rewrite app_nil_r. f_equal. lia.
  - rewrite Nat2Z.inj_succ, Z.pow_succ_r in * by lia. cbn [fixed]. assert (0 < R ^ Z.of_nat k) by (apply Z.pow_pos_nonneg; lia).
    pose proof (Z.mod_pos_bound x R ltac:(lia)). pose proof (Z.div_pos x R).
    assert (x / R < R ^ Z.of_nat k) by (apply Z.div_lt_upper_bound; lia).
    replace (q * (R * R ^ Z.of_nat k) + x) with ((q * R ^ Z.of_nat k + x / R) * R + x mod R) by (pose proof (Z.div_mod x R ltac:(lia)); lia).
    rewrite radix_text_snoc by nia. rewrite IH by lia. by rewrite app_assoc.
Qed.

Lemma padded_snoc k t d : padded (S k) (t ++ [d]) = padded k t ++ [d].
Proof. unfold padded. rewrite length_app, app_assoc. cbn [length]. do 3 f_equal. lia. Qed.

Lemma padded_fixed k x : 0 <= x < R ^ Z.of_nat (S k) -> padded (S k) (radix_text R x) = fixed (S k) x.
Proof.
  revert x. induction k as [|k IH]; intros x Hx.
  - change (Z.of_nat 1) with 1 in Hx. rewrite Z.pow_1_r in Hx. rewrite radix_text_digit by done. cbn [fixed]. by rewrite Z.mod_small.
  - destruct (Z_lt_le_dec x R) as [Hlt|Hge].
    + rewrite radix_text_digit by lia. change [digit_char x] with ([] ++ [digit_char x]). rewrite padded_snoc.
      change (fixed (S (S k)) x) with (fixed (S k) (x / R) ++ [digit_char (x mod R)]). rewrite Z.div_small, Z.mod_small, fixed_0 by lia.
      unfold padded. cbn [length]. by rewrite app_nil_r, Nat.sub_0_r.
    + rewrite Nat2Z.inj_succ, Z.pow_succ_r in Hx by lia. pose proof (Z.mod_pos_bound x R ltac:(lia)).
      assert (0 < x / R) by (apply Z.div_str_pos; lia). rewrite (Z.div_mod x R) at 1 by lia. rewrite (Z.mul_comm R).
      rewrite radix_text_snoc by lia. rewrite padded_snoc, IH; [done|].
      split; [lia|]. apply Z.div_lt_upper_bound; lia.
Qed.

End radix.

(** ** [decimal] *)
Lemma div_chunk_spec ws : limbs_ok ws -> let '(ws', r) := div_chunk ws in
  limbs_ok ws' /\ length ws' = length ws /\ 0 <= r < CHUNK /\ lval ws = lval ws' * CHUNK + r.
Proof.
  induction 1 as [|w ws Hw Hok IH]; cbn [div_chunk]; [by repeat split; try constructor|].
  destruct (div_chunk ws) as [ws' r]. destruct IH as (Hok' & L & Hr & E). unfold is_u64 in Hw. unfold CHUNK in *.
  set (c := r * 2 ^ 64 + w) in *. assert (0 <= c / 10000000000000000000 < 2 ^ 64) as Hd.
  { split; [apply Z.div_pos; lia|apply Z.div_lt_upper_bound; lia]. }
  pose proof (Z.mod_pos_bound c 10000000000000000000 ltac:(lia)). pose proof (Z.div_mod c 10000000000000000000 ltac:(lia)).
  rewrite wrap64_small by done. split; [by constructor|]. split; [cbn; lia|]. split; [done|]. cbn [lval]. lia.
Qed.

Lemma lval_nonneg ws : limbs_ok ws -> 0 <= lval ws.
Proof. intros H. by destruct (lval_bounds ws H). Qed.

Lemma chunks_text_cons c cs : chunks_text (c :: cs) = match cs with [] => radix_text 10 c | _ => chunks_text cs ++ padded 19 (radix_text 10 c) end.
Proof.
  unfold chunks_text. cbn [rev]. destruct cs as [|c' cs]; [cbn; by rewrite app_nil_r|].
  destruct (rev (c' :: cs)) as [|top rest] eqn:E; [by apply (f_equal (@length Z)) in E; rewrite length_rev in E|].
  cbn [app]. rewrite map_app, concat_app, app_assoc. cbn [map concat]. by rewrite app_nil_r.
Qed.

Lemma chunks_loop_spec fuel ws : limbs_ok ws -> lval ws < 2 ^ (63 * Z.of_nat fuel) ->
  exists chunks, chunks_loop fuel ws = Some chunks /\ (chunks = [] <-> lval ws = 0) /\ chunks_text chunks = radix_text 10 (lval ws).
Proof.
  revert ws; induction fuel as [|fuel IH]; intros ws Hok Hf; pose proof (lval_nonneg ws Hok) as Hpos.
  - change (63 * Z.of_nat 0) with 0 in Hf. assert (lval ws = 0) as E by lia. cbn [chunks_loop].
    rewrite (proj1 (lval_zero ws Hok) E), E. by exists [].
  - cbn [chunks_loop]. destruct (forallb (fun w => w =? 0) ws) eqn:Hz.
    { apply lval_zero in Hz as ->; [|done]. by exists []. }
    assert (lval ws <> 0) as Hnz by (intros E; apply lval_zero in E; [congruence|done]).
    pose proof (div_chunk_spec ws Hok) as D. destruct (div_chunk ws) as [ws' r]. destruct D as (Hok' & _ & Hr & E).
    pose proof (lval_nonneg ws' Hok').
    destruct (IH ws' Hok') as (chunks & -> & Hnil & Ht).
    { replace (63 * Z.of_nat (S fuel)) with (63 + 63 * Z.of_nat fuel) in Hf by lia. rewrite Z.pow_add_r in Hf by lia. unfold CHUNK in *. nia. }
    cbn [mbind option_bind]. assert (wrap64 r = r) as -> by (apply wrap64_small; unfold is_u64, CHUNK in *; lia).
    eexists. split; [done|]. split; [done|]. rewrite chunks_text_cons. destruct chunks as [|c cs].
    + rewrite (proj1 Hnil eq_refl) in E. f_equal. lia.
    + assert (0 < lval ws') by (destruct (Z.eq_dec (lval ws') 0) as [Ez|]; [by apply Hnil in Ez|lia]).
      rewrite Ht, (padded_fixed 10 ltac:(lia) 18) by (change (10 ^ Z.of_nat 19) with CHUNK; done). rewrite E.
      change CHUNK with (10 ^ Z.of_nat 19). symmetry. apply radix_text_app; [lia|lia|change (10 ^ Z.of_nat 19) with CHUNK; done].
Qed.

Lemma decimal_spec a : wf a -> decimal a = Some (radix_text 10 (uval a)).
Proof.
  intros Ha. pose proof Ha as [Hw _ Hl Hok _]. unfold decimal. destruct (Z.leb_spec (width a) 64).
  - by destruct (wf_small a Ha) as [-> _].
  - destruct (chunks_loop_spec (2 * length (limbs a)) (limbs a) Hok) as (chunks & -> & _ & Ht).
    + pose proof (lval_bounds (limbs a) Hok) as [_ Hb]. eapply Z.lt_le_trans; [exact Hb|]. unfold bits_of. apply Z.pow_le_mono_r; lia.
    + cbn [mbind option_bind]. by rewrite Ht.
Qed.

(** ** [Display], [LowerHex] *)
Lemma neg_of_negative a : wf a -> ival a < 0 -> - uval a mod 2 ^ width a = - ival a.
Proof.
  intros Ha Hn. pose proof Ha as [Hw _ _ _ _]. pose proof (sval_range a Ha) as Hr. pose proof (pow2_half _ Hw).
  pose proof (uval_bounds a Ha). unfold ival in *. destruct (signed a); [|lia]. pose proof (sval_neg a Ha Hn) as E.
  rewrite E. replace (- uval a) with (2 ^ width a - uval a + (-1) * 2 ^ width a) by lia.
  rewrite Z.mod_add, Z.mod_small; lia.
Qed.

Lemma display_spec a : wf a -> display a = Some (signed_text (ival a)).
Proof.
  intros Ha. pose proof Ha as [Hw _ _ _ _]. unfold display. destruct (signed a && (width a <=? 64)) eqn:Hs.
  - apply andb_true_iff in Hs as [Hs Hle%Z.leb_le]. rewrite to_i64_spec by done. unfold ival. by rewrite Hs.
  - rewrite is_negative_spec by done. unfold signed_text. destruct (Z.ltb_spec (ival a) 0) as [Hn|Hn].
    + rewrite neg_repr by done. cbn [mbind option_bind]. rewrite decimal_spec by by apply repr_wf. cbn [mbind option_bind].
      rewrite uval_repr by done. by rewrite neg_of_negative.
    + rewrite decimal_spec by done. do 2 f_equal. symmetry. apply ival_nonnegative; [done|]. rewrite is_negative_spec by done. by apply Z.ltb_ge.
Qed.

Lemma hex_limbs x l : 0 < x \/ l = [] /\ 0 <= x -> limbs_ok l -> radix_text 16 (x * 2 ^ bits_of l + lval l) =
  radix_text 16 x ++ concat (map (fun limb => padded 16 (radix_text 16 limb)) (rev l)).
Proof.
  intros Hx. induction 1 as [|w l Hw Hok IH].
  - cbn [rev map concat lval]. rewrite app_nil_r. change (2 ^ bits_of []) with 1. by rewrite Z.mul_1_r, Z.add_0_r.
  - destruct Hx as [Hx|[? _]]; [|done]. cbn [rev]. rewrite map_app, concat_app, app_assoc, <- IH by by left. cbn [map concat].
    rewrite app_nil_r, (padded_fixed 16 ltac:(lia) 15) by exact Hw. pose proof (lval_nonneg l Hok).
    pose proof (pow2_pos (bits_of l) ltac:(unfold bits_of; lia)).
    rewrite <- (radix_text_app 16) by (exact Hw || nia || lia). f_equal. cbn [lval].
    replace (bits_of (w :: l)) with (64 + bits_of l) by (unfold bits_of; cbn [length]; lia). rewrite pow2_64_split by (unfold bits_of; lia).
    change (16 ^ Z.of_nat 16) with (2 ^ 64). lia.
Qed.

Lemma rposition_zero ws : limbs_ok ws -> lval ws = 0 -> rposition_nonzero ws = None.
Proof.
  induction 1 as [|w ws Hw Hok IH]; [done|]. cbn [lval rposition_nonzero]. intros E. pose proof (lval_nonneg ws Hok). unfold is_u64 in Hw.
  rewrite IH by lia. by destruct (Z.eqb_spec w 0); [|lia].
Qed.

Lemma lower_hex_spec a : wf a -> lower_hex a = Some (radix_text 16 (uval a)).
Proof.
  intros Ha. pose proof Ha as [Hw _ Hl Hok _]. unfold lower_hex, uval. destruct (Z.eq_dec (lval (limbs a)) 0) as [E|Hnz].
  - rewrite rposition_zero by done. cbn [from_option id]. destruct (limbs a) as [|w ws] eqn:El; [done|].
    cbn [lookup list_lookup mbind option_bind take rev map concat]. rewrite app_nil_r. rewrite E. cbn [lval] in E.
    inversion Hok as [|? ? Hw' Hok']; subst. pose proof (lval_nonneg ws Hok'). unfold is_u64 in Hw'. by replace w with 0 by lia.
  - destruct (rposition_split _ Hok Hnz) as (l & x & r & E & -> & Hx & Hr). cbn [from_option id]. rewrite E in *.
    rewrite list_lookup_middle, take_app_length by done. cbn [mbind option_bind].
    apply limbs_ok_app in Hok as [Hl' Hxr]. inversion Hxr as [|? ? Hx' Hr']; subst. unfold is_u64 in Hx'.
    rewrite <- hex_limbs by ((left; lia) || done). do 2 f_equal. rewrite lval_app. cbn [lval]. lia.
Qed.

(** ** Parsing *)
Fixpoint digits_value (radix acc : Z) (t : Text) : option Z :=
  match t with
  | [] => Some acc
  | c :: t => d ← to_digit c radix; digits_value radix (acc * radix + d) t
  end.

(** The bits a value takes, at least one. *)
Definition bit_width (v : Z) : Z := if v =? 0 then 1 else Z.log2 v + 1.

(** Words without a leading zero. *)
Definition normal (ws : list Z) : Prop :=
  limbs_ok ws /\ ws <> [] /\ (length ws = 1%nat \/ 2 ^ (64 * (Z.of_nat (length ws) - 1)) <= lval ws).

Lemma to_digit_range c R d : 0 <= R -> to_digit c R = Some d -> 0 <= d < R.
Proof.
  intros HR. unfold to_digit. repeat match goal with |- context [if ?b then _ else _] => destruct b eqn:? end; intros [= <-];
    repeat match goal with H : _ && _ = true |- _ => apply andb_true_iff in H as [? ?] end; lia.
Qed.

Section parse.
Context (R : Z) (HR : 2 <= R <= 16).

Lemma push_digit_spec c ws : limbs_ok ws -> 0 <= c < R -> let '(ws', c') := push_digit R c ws in
  limbs_ok ws' /\ length ws' = length ws /\ 0 <= c' < R /\ lval ws' + 2 ^ bits_of ws * c' = lval ws * R + c.
Proof.
  intros Hok. revert c. induction Hok as [|w ws Hw Hok IH]; intros c Hc; cbn [push_digit].
  - split; [constructor|]. split; [done|]. split; [done|]. change (2 ^ bits_of []) with 1. cbn [lval]. lia.
  - unfold is_u64 in Hw. set (cur := w * R + c). rewrite Z.shiftr_div_pow2 by lia.
    assert (0 <= cur / 2 ^ 64 < R) as Hd by (split; [apply Z.div_pos; nia|apply Z.div_lt_upper_bound; nia]).
    specialize (IH (cur / 2 ^ 64) Hd). destruct (push_digit R (cur / 2 ^ 64) ws) as [ws' c']. destruct IH as (Hok' & L & Hc' & E).
    split; [constructor; [apply wrap64_range|done]|]. split; [cbn; lia|]. split; [done|]. cbn [lval]. rewrite pow_bits_cons. unfold wrap64.
    pose proof (Z.div_mod cur (2 ^ 64) ltac:(lia)) as Hdm. unfold cur in Hdm at 1. nia.
Qed.

Lemma parse_digit_spec ws ch : normal ws -> match to_digit ch R with
  | Some d => exists ws', parse_digit R ws ch = inl ws' /\ normal ws' /\ lval ws' = lval ws * R + d
  | None => parse_digit R ws ch = inr (InvalidDigit ch R)
  end.
Proof.
  intros (Hok & Hne & Hn). unfold parse_digit. destruct (to_digit ch R) as [d|] eqn:Ed; [|done].
  apply to_digit_range in Ed; [|lia]. pose proof (push_digit_spec d ws Hok Ed) as P. destruct (push_digit R d ws) as [ws' c].
  destruct P as (Hok' & L & Hc & E). pose proof (lval_nonneg ws Hok). eexists. split; [done|].
  destruct (Z.eqb_spec c 0) as [->|Hnz].
  - rewrite Z.mul_0_r, Z.add_0_r in E. split; [|done]. split; [done|]. split; [by intros ->; destruct ws|].
    rewrite L, E. destruct Hn as [|Hn]; [by left|right; nia].
  - rewrite wrap64_small by (unfold is_u64; lia).
    assert (lval (ws' ++ [c]) = lval ws * R + d) as Ev.
    { rewrite lval_app. cbn [lval]. replace (bits_of ws') with (bits_of ws) by (unfold bits_of; by rewrite L). lia. }
    split; [|done]. split; [apply limbs_ok_app; split; [done|]; constructor; [unfold is_u64; lia|constructor]|].
    split; [by destruct ws'|]. right. rewrite Ev, <- E, length_app. cbn [length]. pose proof (lval_nonneg ws' Hok').
    replace (64 * (Z.of_nat (length ws' + 1) - 1)) with (bits_of ws) by (unfold bits_of; lia). pose proof (pow2_pos (bits_of ws) ltac:(unfold bits_of; lia)). nia.
Qed.

Lemma parse_digits_spec t ws : normal ws -> match digits_value R (lval ws) t with
  | Some v => exists ws', parse_digits R ws t = inl ws' /\ normal ws' /\ lval ws' = v
  | None => exists ch, ch ∈ t /\ to_digit ch R = None /\ parse_digits R ws t = inr (InvalidDigit ch R)
  end.
Proof.
  revert ws; induction t as [|ch t IH]; intros ws Hn; cbn [digits_value parse_digits]; [by exists ws|].
  pose proof (parse_digit_spec ws ch Hn) as P. destruct (to_digit ch R) as [d|] eqn:Ed; cbn [mbind option_bind].
  - destruct P as (ws' & -> & Hn' & <-). specialize (IH ws' Hn'). destruct (digits_value R (lval ws') t); [done|].
    destruct IH as (c & Hc & ?). exists c. split; [by right|done].
  - rewrite P. exists ch. split; [by left|done].
Qed.

End parse.

Lemma parsed_width_spec ws : normal ws -> parsed_width ws = Some (bit_width (lval ws)).
Proof.
  intros (Hok & Hne & Hn). destruct (snoc_cases ws) as [->|(l & x & ->)]; [done|]. unfold parsed_width. rewrite length_app in *. cbn [length] in *.
  rewrite Nat.add_sub, list_lookup_middle by done. cbn [mbind option_bind]. f_equal.
  apply limbs_ok_app in Hok as [Hl Hx]. inversion Hx as [|? ? Hx' _]; subst. pose proof (lval_bounds l Hl) as Hb. unfold is_u64 in Hx'.
  rewrite lval_app in *. cbn [lval] in *. set (k := bits_of l) in *.
  assert (64 * Z.of_nat (length l) = k) as Ek by done. replace (64 * (Z.of_nat (length l + 1) - 1)) with k in Hn by lia. rewrite Ek.
  assert (0 <= k) by (unfold k, bits_of; lia). pose proof (pow2_pos k ltac:(lia)). unfold bit_width.
  destruct (Z.eq_dec x 0) as [->|Hnz].
  - destruct Hn as [Hn|Hn]; [|lia]. assert (l = []) as -> by (destruct l; [done|cbn in Hn; lia]). reflexivity.
  - destruct (Z.eqb_spec (lval l + 2 ^ k * (x + 2 ^ 64 * 0)) 0); [nia|].
    pose proof (leading_zeros_spec x ltac:(done) ltac:(lia)) as Hlz. pose proof (Z.log2_nonneg x). pose proof (Z.log2_spec x ltac:(lia)) as Hls.
    assert (Z.log2 (lval l + 2 ^ k * (x + 2 ^ 64 * 0)) = k + Z.log2 x) as ->; [|lia].
    apply Z.log2_unique; [lia|]. rewrite <- Z.add_succ_r, !Z.pow_add_r by lia. nia.
Qed.

Lemma from_str_spec s : from_str s =
  let s := trim s in
  match s with
  | [] => Some (inr EmptyString)
  | _ =>
    let '(radix, digits) := radix_prefix s in
    match List.filter (fun c => negb (c =? 95)) digits with
    | [] => Some (inr (NoDigits s))
    | clean =>
      match digits_value radix 0 clean with
      | Some v => Some (inl (repr (bit_width v) false v))
      | None => match parse_digits radix [0] clean with inr e => Some (inr e) | inl _ => None end
      end
    end
  end.
Proof.
  unfold from_str. cbn zeta. destruct (trim s) as [|c s']; [done|]. destruct (radix_prefix (c :: s')) as [radix digits] eqn:Ep.
  destruct (List.filter _ digits) as [|c' t]; [done|].
  assert (2 <= radix <= 16) as HR.
  { revert Ep. unfold radix_prefix. repeat (match goal with |- context [match ?x with _ => _ end] => is_var x; destruct x end); intros [= <- _]; lia. }
  assert (normal [0]) as Hn by (split; [by repeat constructor|split; [done|by left]]).
  pose proof (parse_digits_spec radix HR (c' :: t) [0] Hn) as P. change (lval [0]) with 0 in P.
  destruct (digits_value radix 0 (c' :: t)) as [v|].
  - destruct P as (ws & -> & Hws & <-). rewrite parsed_width_spec by done. cbn [mbind option_bind]. destruct Hws as (Hok & _).
    rewrite from_words_repr; [done| |done]. unfold bit_width. pose proof (Z.log2_nonneg (lval ws)). destruct (_ =? _); lia.
  - by destruct P as (ch & _ & _ & ->).
Qed.

(** ** Printing then parsing *)
Ltac leb_cases := repeat match goal with |- context [?a <=? ?b] => destruct (Z.leb_spec a b); try (exfalso; lia) end.

Section digits.
Context (R : Z) (HR : 2 <= R <= 16).

Lemma to_digit_char d : 0 <= d < R -> to_digit (digit_char d) R = Some d.
Proof.
  intros Hd. unfold to_digit, digit_char. destruct (Z.ltb_spec d 10); leb_cases; cbn [andb]; try lia;
    (match goal with |- context [?a <? R] => destruct (Z.ltb_spec a R) end; [f_equal; lia|lia]).
Qed.

Lemma digits_value_app acc t1 t2 : digits_value R acc (t1 ++ t2) = v ← digits_value R acc t1; digits_value R v t2.
Proof.
  revert acc; induction t1 as [|c t1 IH]; intros acc; [done|]. cbn [app digits_value]. destruct (to_digit c R); [|done]. apply IH.
Qed.

Lemma digits_value_text n : 0 <= n -> digits_value R 0 (radix_text R n) = Some n.
Proof.
  intros Hn. induction n as [n IH] using (well_founded_induction (Z.lt_wf 0)). destruct (Z_lt_le_dec n R) as [Hlt|Hge].
  - rewrite radix_text_digit by lia. cbn [digits_value]. by rewrite to_digit_char by lia.
  - pose proof (Z.mod_pos_bound n R ltac:(lia)). pose proof (Z.div_mod n R ltac:(lia)). assert (0 < n / R) by (apply Z.div_str_pos; lia).
    replace (radix_text R n) with (radix_text R (n / R * R + n mod R)) by (f_equal; lia).
    rewrite radix_text_snoc, digits_value_app, IH by (lia || nia). cbn [mbind option_bind digits_value].
    rewrite to_digit_char by lia. cbn [mbind option_bind]. f_equal. lia.
Qed.

Lemma digits_value_fixed k acc x : 0 <= x < R ^ Z.of_nat k -> digits_value R acc (fixed R k x) = Some (acc * R ^ Z.of_nat k + x).
Proof.
  revert x; induction k as [|k IH]; intros x Hx.
  - change (Z.of_nat 0) with 0 in *. rewrite Z.pow_0_r in *. cbn. f_equal. lia.
  - rewrite Nat2Z.inj_succ, Z.pow_succ_r in * by lia. cbn [fixed]. pose proof (Z.mod_pos_bound x R ltac:(lia)). pose proof (Z.div_mod x R ltac:(lia)).
    rewrite digits_value_app, IH by (split; [apply Z.div_pos; lia|apply Z.div_lt_upper_bound; lia]).
    cbn [mbind option_bind digits_value]. rewrite to_digit_char by lia. cbn [mbind option_bind]. f_equal. lia.
Qed.

(** The characters of a number: digits, never a separator or a space. *)
Definition plain (c : Z) : Prop := 48 <= c <= 57 \/ 65 <= c <= 70 \/ 97 <= c <= 102.

Lemma digit_char_plain d : 0 <= d < R -> plain (digit_char d).
Proof. unfold plain, digit_char. intros Hd. destruct (Z.ltb_spec d 10); lia. Qed.

Lemma radix_text_plain n : 0 <= n -> Forall plain (radix_text R n).
Proof.
  intros Hn. unfold radix_text. generalize (S (Z.to_nat (Z.log2 n))). intros f. revert n Hn. induction f as [|f IH]; intros n Hn; [constructor|].
  cbn [radix_loop]. apply Forall_app. split; [destruct (n <? R); [constructor|apply IH, Z.div_pos; lia]|].
  constructor; [|constructor]. apply digit_char_plain, Z.mod_pos_bound. lia.
Qed.

Lemma radix_text_head n : 0 < n -> exists c t, radix_text R n = c :: t /\ c <> 48.
Proof.
  intros Hn. induction n as [n IH] using (well_founded_induction (Z.lt_wf 0)).
  destruct (Z_lt_le_dec n R) as [Hlt|Hge].
  - rewrite radix_text_digit by lia. eexists _, _. split; [done|]. unfold digit_char. destruct (Z.ltb_spec n 10); lia.
  - pose proof (Z.mod_pos_bound n R ltac:(lia)). pose proof (Z.div_mod n R ltac:(lia)). assert (0 < n / R) by (apply Z.div_str_pos; lia).
    replace (radix_text R n) with (radix_text R (n / R * R + n mod R)) by (f_equal; lia). rewrite radix_text_snoc by lia.
    destruct (IH (n / R)) as (c & t & -> & Hc); [nia|lia|]. by exists c, (t ++ [digit_char (n mod R)]).
Qed.

End digits.

Lemma trim_plain t : Forall (fun c => is_whitespace c = false) t -> trim t = t.
Proof.
  assert (forall t, Forall (fun c => is_whitespace c = false) t -> trim_start t = t) as H.
  { intros [|c u] Hu; [done|]. inversion Hu as [|? ? Hc _]; subst. cbn [trim_start]. by rewrite Hc. }
  intros Ht. unfold trim. rewrite (H t Ht), H; [apply rev_involutive|by apply Forall_rev].
Qed.

Lemma plain_space c : plain c -> is_whitespace c = false.
Proof. unfold plain, is_whitespace. intros H. repeat rewrite orb_false_iff, ?andb_false_iff. lia. Qed.

Lemma filter_plain t : Forall plain t -> List.filter (fun c => negb (c =? 95)) t = t.
Proof.
  induction 1 as [|c t Hc _ IH]; [done|]. cbn [List.filter]. unfold plain in Hc. destruct (Z.eqb_spec c 95); [lia|]. cbn [negb]. by rewrite IH.
Qed.

Lemma radix_prefix_other c t : c <> 48 -> radix_prefix (c :: t) = (10, c :: t).
Proof. intros Hc. destruct c as [|p|p]; [done| |done]. do 6 (destruct p as [p|p|]; try done). Qed.

Lemma fixed_bits k x : 0 <= x -> fixed 2 k x = map (fun i => if Z.testbit x (Z.of_nat i) then 49 else 48) (rev (seq 0 k)).
Proof.
  revert x; induction k as [|k IH]; intros x Hx; [done|]. cbn [fixed seq rev]. rewrite map_app. f_equal.
  - rewrite IH by (apply Z.div_pos; lia). rewrite <- seq_shift, <- map_rev, map_map. apply map_ext. intros i.
    rewrite <- Z.div2_div, Z.div2_spec, Z.shiftr_spec by lia. by rewrite Nat2Z.inj_succ.
  - cbn [map]. rewrite Z.bit0_odd, Zmod_odd. by destruct (Z.odd x).
Qed.

Lemma binary_spec a : wf a -> binary a = fixed 2 (Z.to_nat (width a)) (uval a).
Proof.
  intros Ha. pose proof (uval_bounds a Ha). rewrite fixed_bits by lia. unfold binary. apply map_ext_in. intros i Hi%in_rev%in_seq.
  by rewrite bit_spec by (done || lia).
Qed.

Lemma uppercase_value acc t : digits_value 16 acc (to_uppercase t) = digits_value 16 acc t.
Proof.
  revert acc; induction t as [|c t IH]; intros acc; [done|]. cbn [to_uppercase map digits_value]. fold (to_uppercase t).
  assert (to_digit (if (97 <=? c) && (c <=? 122) then c - 32 else c) 16 = to_digit c 16) as ->.
  { destruct ((97 <=? c) && (c <=? 122)) eqn:E; [|done]. apply andb_true_iff in E as [E1%Z.leb_le E2%Z.leb_le].
    unfold to_digit. leb_cases; cbn [andb]; try lia. by replace (c - 32 - 55) with (c - 87) by lia. }
  destruct (to_digit c 16); [|done]. apply IH.
Qed.

Lemma uppercase_plain t : Forall plain t -> Forall plain (to_uppercase t).
Proof.
  intros H. apply Forall_map. eapply Forall_impl; [|exact H]. unfold plain. intros c Hc. cbv beta.
  destruct (Z.leb_spec 97 c), (Z.leb_spec c 122); cbn [andb]; lia.
Qed.

Lemma fixed_plain R k x : 2 <= R <= 16 -> Forall plain (fixed R k x).
Proof.
  intros HR. revert x; induction k as [|k IH]; intros x; [constructor|]. cbn [fixed]. apply Forall_app. split; [apply IH|].
  constructor; [|constructor]. apply (digit_char_plain R HR), Z.mod_pos_bound. lia.
Qed.

(** ** The theorems of the text forms of [APInt] *)
Definition hundred_bits : APInt := repr 100 true (- 2 ^ 80).
Lemma hundred_bits_wf : wf hundred_bits. Proof. apply wfb_wf. vm_compute. reflexivity. Qed.

(** [ 0x_fF ], with separators and spaces. *)
Definition hex_literal : Text := [32; 48; 120; 95; 102; 70; 9].

(** What [from_str] reads after the prefix of a number. *)
Lemma prefixed_value p R t v : In p [([48; 120], 16); ([48; 98], 2)] -> snd p = R -> Forall plain t -> t <> [] ->
  digits_value R 0 t = Some v -> from_str (fst p ++ t) = Some (inl (repr (bit_width v) false v)).
Proof.
  intros Hp <- Ht Hne Hv. rewrite from_str_spec. cbn zeta. rewrite trim_plain.
  2:{ destruct Hp as [<-|[<-|[]]]; cbn [fst]; repeat constructor; eapply Forall_impl; try exact Ht; apply plain_space. }
  destruct Hp as [<-|[<-|[]]]; cbn [fst snd app radix_prefix] in *; rewrite filter_plain by done; destruct t; try done; by rewrite Hv.
Qed.

Lemma decimal_value n : 0 <= n -> from_str (radix_text 10 n) = Some (inl (repr (bit_width n) false n)).
Proof.
  intros Hn. rewrite from_str_spec. cbn zeta. pose proof (radix_text_plain 10 ltac:(lia) n Hn) as Hp.
  pose proof (digits_value_text 10 ltac:(lia) n Hn) as Hv.
  rewrite trim_plain by (eapply Forall_impl; [|exact Hp]; apply plain_space). destruct (Z.eq_dec n 0) as [->|Hnz]; [done|].
  destruct (radix_text_head 10 ltac:(lia) n ltac:(lia)) as (c & t & E & Hc). rewrite E in *. rewrite radix_prefix_other by done.
  by rewrite filter_plain, Hv.
Qed.

Lemma radix_text_nonempty R n : 2 <= R <= 16 -> radix_text R n <> [].
Proof. intros HR E. unfold radix_text in E. cbn [radix_loop] in E. by apply app_nil in E as [_ E]. Qed.

(** The first character that is not a digit. *)
Lemma invalid_digit R t acc ws : digits_value R acc t = None -> exists before ch after v, t = before ++ ch :: after /\
  digits_value R acc before = Some v /\ to_digit ch R = None /\ parse_digits R ws t = inr (InvalidDigit ch R).
Proof.
  revert acc ws; induction t as [|c t IH]; intros acc ws; [done|]. cbn [digits_value parse_digits]. unfold parse_digit.
  destruct (to_digit c R) as [d|] eqn:Ed; cbn [mbind option_bind].
  - intros Hv. destruct (push_digit R d ws) as [ws' carry].
    destruct (IH (acc * R + d) (if carry =? 0 then ws' else ws' ++ [wrap64 carry]) Hv) as (before & ch & after & v & -> & Hb & Hch & Hp).
    exists (c :: before), ch, after, v. split; [done|]. split; [cbn [digits_value]; by rewrite Ed|]. done.
  - intros _. by exists [], c, t, acc.
Qed.

Lemma signed_refused n : n < 0 -> from_str (45 :: radix_text 10 (- n)) = Some (inr (InvalidDigit 45 10)).
Proof.
  intros Hn. rewrite from_str_spec. cbn zeta. pose proof (radix_text_plain 10 ltac:(lia) (- n) ltac:(lia)) as Hp.
  rewrite trim_plain by (constructor; [done|]; eapply Forall_impl; [|exact Hp]; apply plain_space).
  rewrite radix_prefix_other by done. cbn [List.filter Z.eqb negb Pos.eqb]. done.
Qed.

(** ** Properties *)

(** [from_str] never panics: it reads the digits after an optional radix
    prefix, with surrounding space and separators ignored, to the unsigned
    value they denote at its minimal width, and otherwise returns the error of
    the code, the first invalid digit included. *)
Theorem from_str_reads s :
  let '(radix, digits) := radix_prefix (trim s) in
  let clean := List.filter (fun c => negb (c =? 95)) digits in
  exists r, from_str s = Some r /\
    match r with
    | inl a => clean <> [] /\ exists v, digits_value radix 0 clean = Some v /\ a = repr (bit_width v) false v
    | inr EmptyString => trim s = []
    | inr (NoDigits t) => t = trim s /\ clean = []
    | inr (InvalidDigit ch base) => base = radix /\ exists before after v, clean = before ++ ch :: after /\
        digits_value radix 0 before = Some v /\ to_digit ch radix = None
    end.
Proof.
  rewrite from_str_spec. cbn zeta. destruct (trim s) as [|c s'] eqn:Et; [by eexists|].
  destruct (radix_prefix (c :: s')) as [radix digits]. destruct (List.filter _ digits) as [|c' t]; [by eexists|].
  destruct (digits_value radix 0 (c' :: t)) as [v|] eqn:Ev.
  - eexists. split; [done|]. split; [done|]. by exists v.
  - destruct (invalid_digit radix (c' :: t) 0 [0] Ev) as (before & ch & after & v & E & Hb & Hch & ->).
    eexists. split; [done|]. split; [done|]. by exists before, after, v.
Qed.

(** C34: printing and parsing: every form prints without panicking, [Display]
    in decimal with a sign for the value at its signedness, the radix forms the
    bit pattern; and parsing the text gives the number back at its minimal
    width, except that the sign of a negative number is refused. *)
Theorem apint_text_roundtrip a : wf a ->
  (display a = Some (signed_text (ival a)) /\
   from_str (signed_text (ival a)) =
     Some (if ival a <? 0 then inr (InvalidDigit 45 10) else inl (repr (bit_width (ival a)) false (ival a)))) /\
  (exists t, lower_hex a = Some t /\ from_str ([48; 120] ++ t) = Some (inl (repr (bit_width (uval a)) false (uval a)))) /\
  (exists t, upper_hex a = Some t /\ from_str ([48; 120] ++ t) = Some (inl (repr (bit_width (uval a)) false (uval a)))) /\
  from_str ([48; 98] ++ binary a) = Some (inl (repr (bit_width (uval a)) false (uval a))).
Proof.
  intros Ha. pose proof (uval_bounds a Ha) as Hu. pose proof Ha as [Hw _ _ _ _].
  pose proof (radix_text_plain 16 ltac:(lia) (uval a) ltac:(lia)) as Hp. pose proof (digits_value_text 16 ltac:(lia) (uval a) ltac:(lia)) as Hv.
  split; [split; [by apply display_spec|]|split; [|split]].
  - unfold signed_text. destruct (Z.ltb_spec (ival a) 0); [by apply signed_refused|by apply decimal_value].
  - eexists. split; [by apply lower_hex_spec|]. apply (prefixed_value ([48; 120], 16) 16); try done; [by left|by apply radix_text_nonempty].
  - eexists. unfold upper_hex. rewrite lower_hex_spec by done. split; [done|].
    apply (prefixed_value ([48; 120], 16) 16); try done; [by left|by apply uppercase_plain| |by rewrite uppercase_value].
    intros E%map_eq_nil. by apply (radix_text_nonempty 16 (uval a)).
  - rewrite binary_spec by done. apply (prefixed_value ([48; 98], 2) 2); try done; [by right; left|by apply fixed_plain| |].
    + destruct (Z.to_nat (width a)) eqn:E; [lia|]. cbn [fixed]. intros E'%app_nil. by destruct E'.
    + rewrite (digits_value_fixed 2) by (rewrite ?Z2Nat.id by lia; lia). done.
Qed.

Lemma apint_text_roundtrip_witness :
  (display hundred_bits = Some (signed_text (ival hundred_bits)) /\
   from_str (signed_text (ival hundred_bits)) =
     Some (if ival hundred_bits <? 0 then inr (InvalidDigit 45 10)
           else inl (repr (bit_width (ival hundred_bits)) false (ival hundred_bits)))) /\
  (exists t, lower_hex hundred_bits = Some t /\
     from_str ([48; 120] ++ t) = Some (inl (repr (bit_width (uval hundred_bits)) false (uval hundred_bits)))) /\
  (exists t, upper_hex hundred_bits = Some t /\
     from_str ([48; 120] ++ t) = Some (inl (repr (bit_width (uval hundred_bits)) false (uval hundred_bits)))) /\
  from_str ([48; 98] ++ binary hundred_bits) = Some (inl (repr (bit_width (uval hundred_bits)) false (uval hundred_bits))).
Proof. exact (apint_text_roundtrip hundred_bits hundred_bits_wf). Defined.

Example hex_literal_read : from_str hex_literal = Some (inl (mkAPInt 8 false 255 None)).
Proof. reflexivity. Qed.
