(* ===== verification/Lang.v ===== *)
(** * The semantic expression language: kinds and scalar operators
    ([libs/symbolic/src/lang/mod.rs], [libs/symbolic/src/lang/ops.rs])

    The node kinds of a semantic graph, the algebraic facts the code declares
    about them, the table of scalar operators and the evaluator [eval_int] the
    interpreter calls on integer operands. *)
From Stdlib Require Import String.
From S2P Require Import Prelude Words ApInt.
#[local] Open Scope string_scope.
#[local] Open Scope Z_scope.

(** ** [SymKind] ([repr(u16)]) *)
Module SymKind.
Inductive t : Set :=
  | Symbol | Constant | Add | Sub | Mul | Div | UDiv | SRem | URem | Neg | Eq | Ne | Lt
  | Le | Gt | Ge | ULt | ULe | UGt | UGe | ShiftLeft | ShiftRightArithmetic
  | ShiftRightLogic | Or | And | Xor | Xnor | Not | Concat | Bitcast | If | Theta | Loop
  | Port | Switch | Clamp | LoadMemory | StoreMemory | ZExt | SExt | Extract | Log2Ceil
  | Sqrt | Fma | FAdd | FSub | FMul | FDiv | SIToFP | UIToFP | FPToSI | FPToUI | Map
  | Zip | IterConcat | Split | Reduce | Arg | LoadReserved | StoreConditional | AtomicRmw
  | Fence | StateAssign | StateStore | StateStoreConditional | StateFence | StateTrap
  | StateBlock | StateIf | StateTry | StateHandler | StateRead | FPEffect | Iota | FMin
  | FMax | AsFloat | FCvt | FAddRound | FSubRound | FMulRound | FDivRound | FmaRound
  | SqrtRound | FCvtRound | SIToFPRound | UIToFPRound | FPToSIRound | FPToUIRound
  | FPFlags | Undef | Poison | Freeze.

(** The discriminant of a variant. *)
Definition discriminant (k : t) : nat :=
  match k with
  | Symbol => 0%nat | Constant => 1%nat | Add => 2%nat | Sub => 3%nat | Mul => 4%nat
  | Div => 5%nat | UDiv => 6%nat | SRem => 7%nat | URem => 8%nat | Neg => 9%nat
  | Eq => 10%nat | Ne => 11%nat | Lt => 12%nat | Le => 13%nat | Gt => 14%nat
  | Ge => 15%nat | ULt => 16%nat | ULe => 17%nat | UGt => 18%nat | UGe => 19%nat
  | ShiftLeft => 20%nat | ShiftRightArithmetic => 21%nat | ShiftRightLogic => 22%nat
  | Or => 23%nat | And => 24%nat | Xor => 25%nat | Xnor => 26%nat | Not => 27%nat
  | Concat => 28%nat | Bitcast => 29%nat | If => 30%nat | Theta => 31%nat
  | Loop => 32%nat | Port => 33%nat | Switch => 34%nat | Clamp => 35%nat
  | LoadMemory => 36%nat | StoreMemory => 37%nat | ZExt => 38%nat | SExt => 39%nat
  | Extract => 40%nat | Log2Ceil => 41%nat | Sqrt => 42%nat | Fma => 43%nat
  | FAdd => 44%nat | FSub => 45%nat | FMul => 46%nat | FDiv => 47%nat | SIToFP => 48%nat
  | UIToFP => 49%nat | FPToSI => 50%nat | FPToUI => 51%nat | Map => 52%nat
  | Zip => 53%nat | IterConcat => 54%nat | Split => 55%nat | Reduce => 56%nat
  | Arg => 57%nat | LoadReserved => 58%nat | StoreConditional => 59%nat
  | AtomicRmw => 60%nat | Fence => 61%nat | StateAssign => 62%nat | StateStore => 63%nat
  | StateStoreConditional => 64%nat | StateFence => 65%nat | StateTrap => 66%nat
  | StateBlock => 67%nat | StateIf => 68%nat | StateTry => 69%nat
  | StateHandler => 70%nat | StateRead => 71%nat | FPEffect => 72%nat | Iota => 73%nat
  | FMin => 74%nat | FMax => 75%nat | AsFloat => 76%nat | FCvt => 77%nat
  | FAddRound => 78%nat | FSubRound => 79%nat | FMulRound => 80%nat | FDivRound => 81%nat
  | FmaRound => 82%nat | SqrtRound => 83%nat | FCvtRound => 84%nat
  | SIToFPRound => 85%nat | UIToFPRound => 86%nat | FPToSIRound => 87%nat
  | FPToUIRound => 88%nat | FPFlags => 89%nat | Undef => 90%nat | Poison => 91%nat
  | Freeze => 92%nat
  end.

Definition all : list t :=
  [Symbol; Constant; Add; Sub; Mul; Div; UDiv; SRem; URem; Neg; Eq; Ne; Lt; Le; Gt; Ge;
  ULt; ULe; UGt; UGe; ShiftLeft; ShiftRightArithmetic; ShiftRightLogic; Or; And; Xor;
  Xnor; Not; Concat; Bitcast; If; Theta; Loop; Port; Switch; Clamp; LoadMemory;
  StoreMemory; ZExt; SExt; Extract; Log2Ceil; Sqrt; Fma; FAdd; FSub; FMul; FDiv; SIToFP;
  UIToFP; FPToSI; FPToUI; Map; Zip; IterConcat; Split; Reduce; Arg; LoadReserved;
  StoreConditional; AtomicRmw; Fence; StateAssign; StateStore; StateStoreConditional;
  StateFence; StateTrap; StateBlock; StateIf; StateTry; StateHandler; StateRead;
  FPEffect; Iota; FMin; FMax; AsFloat; FCvt; FAddRound; FSubRound; FMulRound; FDivRound;
  FmaRound; SqrtRound; FCvtRound; SIToFPRound; UIToFPRound; FPToSIRound; FPToUIRound;
  FPFlags; Undef; Poison; Freeze].

Lemma discriminant_inj a b : discriminant a = discriminant b -> a = b.
Proof.
  intros H. assert (forall k, all !! discriminant k = Some k) as E by (by intros []).
  pose proof (E a) as Ea. rewrite H, E in Ea. by injection Ea.
Qed.

#[export] Instance discriminant_Inj : Inj eq eq discriminant := discriminant_inj.
#[export] Instance eq_dec : EqDecision t.
Proof.
  intros a b. destruct (decide (discriminant a = discriminant b)) as [E|E];
    [left; by apply discriminant_inj|right; by intros ->].
Defined.

Definition eqb (a b : t) : bool := (discriminant a =? discriminant b)%nat.
End SymKind.

(** ** The scalar operator table *)
Inductive WidthRule := WFirst | WBool | WSum.
Inductive SmtTemplate :=
  | SmtBinary (f : string) | SmtCompare (f : string) | SmtShift (f : string)
  | SmtUnary (f : string) | SmtConcat.
Inductive EvalRule :=
  | RAdd | RSub | RMul | RSDiv | RUDiv | RSRem | RURem | RNeg | REq | RNe | RSLt | RSLe | RSGt | RSGe | RULt | RULe | RUGt | RUGe | RShl | RAShr | RLShr | ROr | RAnd | RXor | RXnor | RNot | RConcat.

Record ScalarOp := mkScalarOp {
  op_kind : SymKind.t;
  op_name : string;
  op_arity : nat;
  op_commutative : bool;
  op_width : WidthRule;
  op_smt : SmtTemplate;
  op_rust : string;
  op_eval : EvalRule;
}.

Definition SCALAR_OPS : list ScalarOp := [
  mkScalarOp SymKind.Add "add" 2 true WFirst (SmtBinary "bvadd") "Add" RAdd;
  mkScalarOp SymKind.Sub "sub" 2 false WFirst (SmtBinary "bvsub") "Sub" RSub;
  mkScalarOp SymKind.Mul "mul" 2 true WFirst (SmtBinary "bvmul") "Mul" RMul;
  mkScalarOp SymKind.Div "div" 2 false WFirst (SmtBinary "bvsdiv") "Div" RSDiv;
  mkScalarOp SymKind.UDiv "udiv" 2 false WFirst (SmtBinary "bvudiv") "UDiv" RUDiv;
  mkScalarOp SymKind.SRem "srem" 2 false WFirst (SmtBinary "bvsrem") "SRem" RSRem;
  mkScalarOp SymKind.URem "urem" 2 false WFirst (SmtBinary "bvurem") "URem" RURem;
  mkScalarOp SymKind.Neg "neg" 1 false WFirst (SmtUnary "bvneg") "Neg" RNeg;
  mkScalarOp SymKind.Eq "eq" 2 true WBool (SmtCompare "=") "Eq" REq;
  mkScalarOp SymKind.Ne "ne" 2 true WBool (SmtCompare "distinct") "Ne" RNe;
  mkScalarOp SymKind.Lt "lt" 2 false WBool (SmtCompare "bvslt") "Lt" RSLt;
  mkScalarOp SymKind.Le "le" 2 false WBool (SmtCompare "bvsle") "Le" RSLe;
  mkScalarOp SymKind.Gt "gt" 2 false WBool (SmtCompare "bvsgt") "Gt" RSGt;
  mkScalarOp SymKind.Ge "ge" 2 false WBool (SmtCompare "bvsge") "Ge" RSGe;
  mkScalarOp SymKind.ULt "ult" 2 false WBool (SmtCompare "bvult") "ULt" RULt;
  mkScalarOp SymKind.ULe "ule" 2 false WBool (SmtCompare "bvule") "ULe" RULe;
  mkScalarOp SymKind.UGt "ugt" 2 false WBool (SmtCompare "bvugt") "UGt" RUGt;
  mkScalarOp SymKind.UGe "uge" 2 false WBool (SmtCompare "bvuge") "UGe" RUGe;
  mkScalarOp SymKind.ShiftLeft "shl" 2 false WFirst (SmtShift "bvshl") "ShiftLeft" RShl;
  mkScalarOp SymKind.ShiftRightArithmetic "ashr" 2 false WFirst (SmtShift "bvashr") "ShiftRightArithmetic" RAShr;
  mkScalarOp SymKind.ShiftRightLogic "lshr" 2 false WFirst (SmtShift "bvlshr") "ShiftRightLogic" RLShr;
  mkScalarOp SymKind.Or "or" 2 true WFirst (SmtBinary "bvor") "Or" ROr;
  mkScalarOp SymKind.And "and" 2 true WFirst (SmtBinary "bvand") "And" RAnd;
  mkScalarOp SymKind.Xor "xor" 2 true WFirst (SmtBinary "bvxor") "Xor" RXor;
  mkScalarOp SymKind.Xnor "xnor" 2 true WFirst (SmtBinary "bvxnor") "Xnor" RXnor;
  mkScalarOp SymKind.Not "not" 1 false WFirst (SmtUnary "bvnot") "Not" RNot;
  mkScalarOp SymKind.Concat "concat" 2 false WSum SmtConcat "Concat" RConcat].

Definition scalar_op (kind : SymKind.t) : option ScalarOp :=
  List.find (fun op => SymKind.eqb (op_kind op) kind) SCALAR_OPS.

Definition scalar_op_named (name : string) : option ScalarOp :=
  List.find (fun op => String.eqb (op_name op) name) SCALAR_OPS.

(** ** Facts declared of a kind *)
Definition is_commutative (k : SymKind.t) : bool :=
  match scalar_op k with
  | Some op => op_commutative op
  | None =>
      match k with
      | SymKind.Add | SymKind.Mul | SymKind.And | SymKind.Or | SymKind.Xor
      | SymKind.FAdd | SymKind.FMul => true
      | _ => false
      end
  end.

Definition offset_coefficient (k : SymKind.t) (operand : nat) : option Z :=
  match k, operand with
  | SymKind.Add, 0%nat | SymKind.Add, 1%nat | SymKind.Sub, 0%nat => Some 1
  | SymKind.Sub, 1%nat | SymKind.Neg, 0%nat | SymKind.Not, 0%nat => Some (-1)
  | _, _ => None
  end.

Definition identity (k : SymKind.t) (operand : nat) : option Z :=
  match k, operand with
  | SymKind.Add, 0%nat | SymKind.Add, 1%nat | SymKind.Sub, 1%nat => Some 0
  | _, _ => None
  end.

Definition bias (k : SymKind.t) : Z :=
  match k with SymKind.Not => u64_max | _ => 0 end.

Definition arity (k : SymKind.t) : nat :=
  match scalar_op k with
  | Some op => op_arity op
  | None =>
      match k with
      | SymKind.Symbol | SymKind.Constant | SymKind.Arg => 0
      | SymKind.Not | SymKind.Neg | SymKind.Bitcast | SymKind.Log2Ceil | SymKind.Sqrt
      | SymKind.AsFloat | SymKind.Port | SymKind.Freeze | SymKind.FPFlags => 1
      | SymKind.IterConcat => 1
      | SymKind.If | SymKind.Clamp | SymKind.Extract | SymKind.LoadMemory
      | SymKind.LoadReserved | SymKind.Fence | SymKind.Fma | SymKind.SIToFP
      | SymKind.UIToFP | SymKind.FCvt | SymKind.FAddRound | SymKind.FSubRound
      | SymKind.FMulRound | SymKind.FDivRound | SymKind.FPToSIRound
      | SymKind.FPToUIRound => 3
      | SymKind.FmaRound | SymKind.FCvtRound | SymKind.SIToFPRound
      | SymKind.UIToFPRound => 4
      | SymKind.StoreMemory | SymKind.StoreConditional | SymKind.Loop => 4
      | SymKind.AtomicRmw => 5
      | _ => 2
      end%nat
  end.

Definition accepts_arity (k : SymKind.t) (n : nat) : bool :=
  match k with
  | SymKind.Split => (n =? 2)%nat || (n =? 3)%nat
  | SymKind.Zip | SymKind.Switch => (2 <=? n)%nat
  | SymKind.IterConcat => (1 <=? n)%nat
  | SymKind.StateAssign | SymKind.StateStore | SymKind.StateStoreConditional
  | SymKind.StateFence | SymKind.StateTrap | SymKind.StateBlock | SymKind.StateIf
  | SymKind.StateTry | SymKind.StateHandler | SymKind.StateRead => true
  | _ => (n =? arity k)%nat
  end.

(** ** Evaluation on integers *)
Definition widen (value : APInt) (w : Z) : option APInt :=
  if w <=? width value then Some value
  else if signed value then sign_extend value w
  else zero_extend value w.

Definition coerce (lhs rhs : APInt) : option (APInt * APInt) :=
  let w := Z.max (width lhs) (width rhs) in
  l ← widen lhs w;
  r ← widen rhs w;
  Some (l, r).

Definition shift_amount (value : APInt) (w : Z) : Z :=
  if 64 <? width value - count_leading_zeros value then w
  else Z.min (to_u64 value) w.

Definition boolean (b : bool) : option APInt := new 1 (Z.b2z b).

Definition eval_int (op : ScalarOp) (operands : list APInt) : option APInt :=
  assert! (length operands =? op_arity op)%nat;
  if (op_arity op =? 1)%nat then
    value ← operands !! 0%nat;
    match op_eval op with
    | RNeg => neg value
    | RNot => not value
    | _ => None
    end
  else
    a ← operands !! 0%nat;
    b ← operands !! 1%nat;
    '(lhs, rhs) ← coerce a b;
    match op_eval op with
    | RAdd => add lhs rhs
    | RSub => sub lhs rhs
    | RMul => mul lhs rhs
    | RSDiv => sdiv lhs rhs
    | RUDiv => udiv lhs rhs
    | RSRem => srem lhs rhs
    | RURem => urem lhs rhs
    | REq => boolean (bool_decide (with_signed lhs false = with_signed rhs false))
    | RNe => boolean (negb (bool_decide (with_signed lhs false = with_signed rhs false)))
    | RSLt => slt lhs rhs ≫= boolean
    | RSLe => sle lhs rhs ≫= boolean
    | RSGt => sgt lhs rhs ≫= boolean
    | RSGe => sge lhs rhs ≫= boolean
    | RULt => ult lhs rhs ≫= boolean
    | RULe => ule lhs rhs ≫= boolean
    | RUGt => ugt lhs rhs ≫= boolean
    | RUGe => uge lhs rhs ≫= boolean
    | RShl => shl lhs (shift_amount rhs (width lhs))
    | RAShr =>
        let shift := shift_amount rhs (width lhs) in
        ashr (with_signed lhs true) shift
    | RLShr => lshr lhs (shift_amount rhs (width lhs))
    | ROr => or lhs rhs
    | RAnd => and lhs rhs
    | RXor => xor lhs rhs
    | RXnor => xor lhs rhs ≫= not
    | RConcat =>
        let w := width a + width b in
        hi ← zero_extend a w;
        hi ← shl hi (width b);
        lo ← zero_extend b w;
        or hi lo
    | RNeg | RNot => None
    end.

(** ** Atomic read-modify-write operations *)
Inductive AtomicRmwOp :=
  | AmoAdd | AmoSwap | AmoXor | AmoAnd | AmoOr | AmoMin | AmoMax | AmoMinU | AmoMaxU.

Definition atomic_from_code (code : Z) : option AtomicRmwOp :=
  match code with
  | 0 => Some AmoAdd
  | 1 => Some AmoSwap
  | 2 => Some AmoXor
  | 3 => Some AmoAnd
  | 4 => Some AmoOr
  | 5 => Some AmoMin
  | 6 => Some AmoMax
  | 7 => Some AmoMinU
  | 8 => Some AmoMaxU
  | _ => None
  end.

Definition atomic_apply (op : AtomicRmwOp) (old val : APInt) : option APInt :=
  match op with
  | AmoAdd => add old val
  | AmoSwap => Some val
  | AmoXor => xor old val
  | AmoAnd => and old val
  | AmoOr => or old val
  | AmoMin => c ← slt (with_signed old true) (with_signed val true); Some (if (c : bool) then old else val)
  | AmoMax => c ← sgt (with_signed old true) (with_signed val true); Some (if (c : bool) then old else val)
  | AmoMinU => c ← ult (with_signed old false) (with_signed val false); Some (if (c : bool) then old else val)
  | AmoMaxU => c ← ugt (with_signed old false) (with_signed val false); Some (if (c : bool) then old else val)
  end.

Example eval_concat :
  (op ← scalar_op SymKind.Concat; a ← new 4 5; b ← new 4 3; eval_int op [a; b]) = new 8 83.
Proof. vm_compute. reflexivity. Qed.
Example eval_ashr_mixed :
  (op ← scalar_op SymKind.ShiftRightArithmetic; a ← new 8 240; b ← new 4 2; eval_int op [a; b])
  = new_signed 8 (-4).
Proof. vm_compute. reflexivity. Qed.
