(* ===== verification/LangSpec.v ===== *)
(** * The scalar operators against bit-vector semantics

    [bv_op] is the bit-vector function an operator stands for (the SMT-LIB
    function its template names), on the bit patterns of the operands at their
    common width. [eval_int] computes it, for operands of any two widths. *)
From Stdlib Require Import String.
From S2P Require Import Prelude Words ApInt ApIntSpec LimbArith ApIntOps ApIntArith Lang.
(** [None] is the panic of a zero divisor. *)
Definition bv_op (k : SymKind.t) (w x y : Z) : option Z :=
  let sx := sign_of w x in
  let sy := sign_of w y in
  match k with
  | SymKind.Add => Some (x + y)
  | SymKind.Sub => Some (x - y)
  | SymKind.Mul => Some (x * y)
  | SymKind.Div => assert! negb (y =? 0); Some (Z.quot sx sy)
  | SymKind.UDiv => assert! negb (y =? 0); Some (x / y)
  | SymKind.SRem => assert! negb (y =? 0); Some (Z.rem sx sy)
  | SymKind.URem => assert! negb (y =? 0); Some (x mod y)
  | SymKind.Eq => Some (Z.b2z (x =? y))
  | SymKind.Ne => Some (Z.b2z (negb (x =? y)))
  | SymKind.Lt => Some (Z.b2z (sx <? sy))
  | SymKind.Le => Some (Z.b2z (sx <=? sy))
  | SymKind.Gt => Some (Z.b2z (sy <? sx))
  | SymKind.Ge => Some (Z.b2z (sy <=? sx))
  | SymKind.ULt => Some (Z.b2z (x <? y))
  | SymKind.ULe => Some (Z.b2z (x <=? y))
  | SymKind.UGt => Some (Z.b2z (y <? x))
  | SymKind.UGe => Some (Z.b2z (y <=? x))
  | SymKind.ShiftLeft => Some (x * 2 ^ y)
  | SymKind.ShiftRightArithmetic => Some (Z.shiftr sx y)
  | SymKind.ShiftRightLogic => Some (Z.shiftr x y)
  | SymKind.Or => Some (Z.lor x y)
  | SymKind.And => Some (Z.land x y)
  | SymKind.Xor => Some (Z.lxor x y)
  | SymKind.Xnor => Some (Z.lnot (Z.lxor x y))
  | _ => None
  end.

(** The width of an operator's result and the flag it carries, from the
    operands' common width, flags and bit patterns. *)
Definition result_width (r : WidthRule) (w : Z) : Z := match r with WBool => 1 | _ => w end.

Definition result_signed (k : SymKind.t) (w : Z) (sa sb : bool) (x y : Z) : bool :=
  match k with
  | SymKind.Add | SymKind.Sub | SymKind.Mul | SymKind.Or | SymKind.And | SymKind.Xor
  | SymKind.Xnor => sa && sb
  | SymKind.Div | SymKind.SRem => true
  | SymKind.ShiftLeft => sa && (y <? w)
  | SymKind.ShiftRightArithmetic => (y =? 0) || (sign_of w x <? 0)
  | _ => false
  end.

(** ** Coercion to a common width *)
Lemma widen_spec a w : wf a -> width a <= w -> widen a w = Some (repr w (signed a) (ival a)).
Proof.
  intros Ha Hw. pose proof Ha as [Hp _ _ _ _]. unfold widen. destruct (Z.leb_spec w (width a)).
  - replace w with (width a) by lia. rewrite repr_ival by done. f_equal. by apply wf_repr.
  - destruct (signed a) eqn:Hs.
    + rewrite sign_extend_repr by done. by rewrite Hs.
    + rewrite zero_extend_repr by done. unfold ival. by rewrite Hs.
Qed.

Lemma coerce_spec a b : wf a -> wf b ->
  let w := Z.max (width a) (width b) in
  coerce a b = Some (repr w (signed a) (ival a), repr w (signed b) (ival b)).
Proof. intros Ha Hb w. unfold coerce. fold w. by rewrite !widen_spec by (done || lia). Qed.

Lemma shift_amount_spec a w : wf a -> 0 <= w <= 2 ^ 64 -> shift_amount a w = Z.min (uval a) w.
Proof.
  intros Ha Hw. pose proof Ha as [Hp _ Hl Ho _]. pose proof (uval_bounds a Ha) as Hu.
  unfold shift_amount. rewrite clz_spec by done.
  assert (uval a < 2 ^ 64 -> value a = uval a) as Hval.
  { intros Hlt. unfold uval, limbs in *. cbn [lval] in *. inversion Ho as [|?? Hv Hr]; subst.
    pose proof (lval_bounds _ Hr). unfold is_u64 in Hv. nia. }
  destruct (Z.eqb_spec (uval a) 0) as [E|E].
  - destruct (Z.ltb_spec 64 (width a - width a)); [lia|]. unfold to_u64. rewrite Hval by lia. done.
  - destruct (Z.ltb_spec 64 (width a - (width a - 1 - Z.log2 (uval a)))) as [Hg|Hg].
    + assert (2 ^ 64 <= uval a); [|lia].
      destruct (Z.log2_spec (uval a) ltac:(lia)) as [Hl2 _].
      eapply Z.le_trans; [|apply Hl2]. apply Z.pow_le_mono_r; lia.
    + unfold to_u64. rewrite Hval; [done|].
      destruct (Z.log2_spec (uval a) ltac:(lia)) as [_ Hl2]. eapply Z.lt_le_trans; [apply Hl2|].
      apply Z.pow_le_mono_r; lia.
Qed.

Lemma boolean_spec b : boolean b = Some (repr 1 false (Z.b2z b)).
Proof. unfold boolean. apply new_repr; [lia|]. by destruct b. Qed.

Lemma compare_lt x y : is_lt (x ?= y) = (x <? y).
Proof. rewrite Z.ltb_compare. by destruct (x ?= y). Qed.
Lemma compare_le x y : is_le (x ?= y) = (x <=? y).
Proof. rewrite Z.leb_compare. by destruct (x ?= y). Qed.
Lemma compare_gt x y : is_gt (x ?= y) = (y <? x).
Proof. rewrite Z.ltb_compare, (Z.compare_antisym x y). by destruct (x ?= y). Qed.
Lemma compare_ge x y : is_ge (x ?= y) = (y <=? x).
Proof. rewrite Z.leb_compare, (Z.compare_antisym x y). by destruct (x ?= y). Qed.

Lemma with_signed_eq a b : wf a -> wf b -> width a = width b ->
  bool_decide (with_signed a false = with_signed b false) = (uval a =? uval b).
Proof.
  intros Ha Hb Hw. apply eq_true_iff_eq. rewrite bool_decide_eq_true, Z.eqb_eq. split.
  - intros E. change (uval (with_signed a false) = uval (with_signed b false)). by rewrite E.
  - intros E. apply wf_ext; try done; by apply with_signed_wf.
Qed.

(** ** One lemma for the operators on coerced operands *)
Section Binary.
Context (w x y : Z) (sa sb : bool).
Hypothesis Hw : 0 < w <= 2 ^ 64.
Hypothesis Hx : 0 <= x < 2 ^ w.
Hypothesis Hy : 0 <= y < 2 ^ w.
Let a := repr w sa x.
Let b := repr w sb y.

Lemma ua : uval a = x.
Proof. unfold a. rewrite uval_repr by lia. by apply Z.mod_small. Qed.
Lemma ub : uval b = y.
Proof. unfold b. rewrite uval_repr by lia. by apply Z.mod_small. Qed.
Lemma sva : sval a = sign_of w x.
Proof. unfold sval. by rewrite ua. Qed.
Lemma svb : sval b = sign_of w y.
Proof. unfold sval. by rewrite ub. Qed.
Lemma wfa : wf a.
Proof. apply repr_wf. lia. Qed.
Lemma wfb' : wf b.
Proof. apply repr_wf. lia. Qed.

Lemma amount_spec : shift_amount b w = Z.min y w.
Proof. rewrite shift_amount_spec by (apply wfb' || lia). by rewrite ub. Qed.

Lemma shl_saturates s : repr w s (x * 2 ^ Z.min y w) = repr w s (x * 2 ^ y).
Proof.
  destruct (Z.min_spec y w) as [[_ ->]|[Hle ->]]; [done|]. apply repr_ext.
  replace y with (w + (y - w)) by lia. rewrite Z.pow_add_r by lia.
  replace (x * (2 ^ w * 2 ^ (y - w))) with (0 + 2 ^ w * (x * 2 ^ (y - w))) by lia.
  replace (x * 2 ^ w) with (0 + 2 ^ w * x) by lia.
  pose proof (pow2_pos w). rewrite !mod_add_mul_r by lia. done.
Qed.

Lemma lshr_saturates : Z.shiftr x (Z.min y w) = Z.shiftr x y.
Proof.
  destruct (Z.min_spec y w) as [[_ ->]|[Hle ->]]; [done|]. rewrite !Z.shiftr_div_pow2 by lia.
  assert (2 ^ w <= 2 ^ y) by (apply Z.pow_le_mono_r; lia). by rewrite !Z.div_small by lia.
Qed.

Lemma ashr_saturates : Z.shiftr (sign_of w x) (Z.min y w) = Z.shiftr (sign_of w x) y.
Proof.
  destruct (Z.min_spec y w) as [[_ ->]|[Hle ->]]; [done|].
  pose proof (sign_of_range w x ltac:(lia) Hx) as Hr. pose proof (pow2_half w ltac:(lia)).
  destruct (Z.ltb_spec (sign_of w x) 0).
  - by rewrite !(shiftr_past _ w) by lia.
  - assert (2 ^ w <= 2 ^ y) by (apply Z.pow_le_mono_r; lia).
    rewrite !Z.shiftr_div_pow2 by lia. by rewrite !Z.div_small by lia.
Qed.
End Binary.

(** The right-hand side of [eval_int] once the operands are coerced. *)
Lemma binary_rule k op w x y sa sb :
  scalar_op k = Some op -> op_arity op = 2%nat -> k <> SymKind.Concat ->
  0 < w <= 2 ^ 64 -> 0 <= x < 2 ^ w -> 0 <= y < 2 ^ w ->
  eval_int op [repr w sa x; repr w sb y] =
    (v ← bv_op k w x y; Some (repr (result_width (op_width op) w) (result_signed k w sa sb x y) v)).
Proof.
  intros Hop Har Hk Hw Hx Hy.
  pose proof (wfa w x sa Hw) as Ha. pose proof (wfb' w y sb Hw) as Hb.
  pose proof (ua w x sa Hw Hx) as Ua. pose proof (ub w y sb Hw Hy) as Ub.
  pose proof (sva w x sa Hw Hx) as Sa. pose proof (svb w y sb Hw Hy) as Sb.
  assert (width (repr w sa x) = width (repr w sb y)) as Hww by done.
  assert (coerce (repr w sa x) (repr w sb y) = Some (repr w sa x, repr w sb y)) as Hco.
  { unfold coerce, widen. cbn [width repr]. rewrite Z.max_id, Z.leb_refl. done. }
  unfold eval_int. rewrite Har. cbn [Nat.eqb length lookup list_lookup mbind option_bind]. rewrite Hco.
  cbn [mbind option_bind].
  destruct k; vm_compute in Hop; try discriminate; injection Hop as <-; try done; clear Hk Har;
    cbn [op_eval op_width bv_op mbind option_bind result_width result_signed].
  all: rewrite ?add_repr, ?sub_repr, ?mul_repr, ?and_repr, ?or_repr, ?xor_repr by done.
  all: cbn [width signed repr]; rewrite ?Ua, ?Ub; try done.
  all: unfold sdiv, udiv, srem, urem, slt, sle, sgt, sge, ult, ule, ugt, uge.
  all: rewrite ?with_signed_eq, ?ucmp_spec, ?scmp_spec, ?Ua, ?Ub, ?Sa, ?Sb by done.
  all: cbn [fmap option_fmap option_map mbind option_bind];
    rewrite ?compare_lt, ?compare_le, ?compare_gt, ?compare_ge, ?boolean_spec; try done.
  1-4: destruct (Z.eqb_spec y 0) as [E|E]; cbn [negb];
    [by rewrite divrem_zero by (done || congruence)|by rewrite divrem_repr, ?Ua, ?Ub, ?Sa, ?Sb by (done || congruence)].
  - rewrite (amount_spec w y sb Hw Hy), shl_repr by (done || lia). cbn [width signed repr]. rewrite Ua.
    rewrite shl_saturates by done. do 2 f_equal.
    destruct (Z.ltb_spec y w), (Z.ltb_spec (Z.min y w) w); try done; lia.
  - rewrite (amount_spec w y sb Hw Hy), with_signed_repr, ashr_repr by (lia || (apply repr_wf; lia)).
    rewrite is_negative_spec by (apply repr_wf; lia). unfold ival. cbn [width signed repr].
    fold (repr w true x). rewrite (sva w x true Hw Hx), ashr_saturates by done.
    do 2 f_equal. destruct (Z.eqb_spec y 0), (Z.eqb_spec (Z.min y w) 0); try done; lia.
  - rewrite (amount_spec w y sb Hw Hy), lshr_repr by (done || lia). cbn [width signed repr]. rewrite Ua.
    by rewrite lshr_saturates.
  - rewrite not_repr by (apply repr_wf; lia). cbn [width signed repr]. do 2 f_equal.
    rewrite uval_repr by lia. f_equal. apply Z.mod_small.
    apply (bitwise_bound Z.lxor xorb); auto using Z.lxor_spec, lxor_nonneg2; lia.
Qed.

Lemma eval_int_coerced op a b : wf a -> wf b -> op_arity op = 2%nat -> op_kind op <> SymKind.Concat ->
  (op_eval op <> RConcat) ->
  let w := Z.max (width a) (width b) in
  eval_int op [a; b] =
    eval_int op [repr w (signed a) (ival a mod 2 ^ w); repr w (signed b) (ival b mod 2 ^ w)].
Proof.
  intros Ha Hb Har _ Hc w. pose proof Ha as [Hpa _ _ _ _]. pose proof Hb as [Hpb _ _ _ _].
  unfold eval_int. rewrite Har. cbn [Nat.eqb length lookup list_lookup mbind option_bind].
  rewrite coerce_spec by done. fold w. unfold coerce, widen. cbn [width repr]. rewrite Z.max_id, Z.leb_refl.
  cbn [mbind option_bind]. rewrite !repr_mod by lia. by destruct (op_eval op).
Qed.

Lemma scalar_op_rule k op : scalar_op k = Some op -> k <> SymKind.Concat -> op_eval op <> RConcat /\ op_kind op = k.
Proof. intros H Hk. destruct k; vm_compute in H; try discriminate; injection H as <-; done. Qed.

Lemma eval_int_binary k op a b :
  scalar_op k = Some op -> op_arity op = 2%nat -> k <> SymKind.Concat -> wf a -> wf b ->
  let w := Z.max (width a) (width b) in
  w <= 2 ^ 64 ->
  let x := ival a mod 2 ^ w in
  let y := ival b mod 2 ^ w in
  eval_int op [a; b] =
    (v ← bv_op k w x y;
     Some (repr (result_width (op_width op) w) (result_signed k w (signed a) (signed b) x y) v)).
Proof.
  intros Hop Har Hk Ha Hb w Hw x y. pose proof Ha as [Hpa _ _ _ _]. pose proof Hb as [Hpb _ _ _ _].
  destruct (scalar_op_rule k op Hop Hk) as [Hc Hkk].
  rewrite eval_int_coerced by congruence. fold w x y.
  apply binary_rule; try done; [lia|apply mod_repr_range; lia..].
Qed.

Lemma eval_int_unary k op a : scalar_op k = Some op -> op_arity op = 1%nat -> wf a ->
  eval_int op [a] = Some (repr (width a) (signed a)
    (match k with SymKind.Neg => - uval a | _ => Z.lnot (uval a) end)).
Proof.
  intros Hop Har Ha. unfold eval_int. rewrite Har. cbn [Nat.eqb length lookup list_lookup mbind option_bind].
  destruct k; vm_compute in Hop; try discriminate; injection Hop as <-; try done; cbn [op_eval].
  - by apply neg_repr.
  - by apply not_repr.
Qed.

Lemma lor_shift x y n : 0 <= n -> 0 <= y < 2 ^ n -> Z.lor (x * 2 ^ n) y = x * 2 ^ n + y.
Proof.
  intros Hn Hy. assert (Z.land (x * 2 ^ n) y = 0) as E.
  { apply Z.bits_inj'. intros k Hk. rewrite Z.land_spec, Z.bits_0, <- Z.shiftl_mul_pow2, Z.shiftl_spec by done.
    destruct (Z.ltb_spec k n); [by rewrite Z.testbit_neg_r by lia|].
    by rewrite (bounded_testbit y n), andb_false_r. }
  rewrite <- Z.lxor_lor, <- Z.add_nocarry_lxor by done. done.
Qed.

Lemma eval_int_concat op a b : scalar_op SymKind.Concat = Some op -> wf a -> wf b ->
  eval_int op [a; b] = Some (repr (width a + width b) false (uval a * 2 ^ width b + uval b)).
Proof.
  intros Hop Ha Hb. pose proof Ha as [Hpa _ _ _ _]. pose proof Hb as [Hpb _ _ _ _].
  pose proof (uval_bounds a Ha) as Hua. pose proof (uval_bounds b Hb) as Hub.
  vm_compute in Hop. injection Hop as <-. unfold eval_int.
  cbn [op_arity op_eval Nat.eqb length lookup list_lookup mbind option_bind].
  rewrite coerce_spec by done. cbn [mbind option_bind].
  rewrite !zero_extend_repr by (done || lia). cbn [mbind option_bind].
  rewrite shl_repr by (lia || apply repr_wf; lia). cbn [mbind option_bind width signed repr].
  rewrite or_repr by first [done | apply repr_wf; lia]. cbn [width signed repr andb].
  rewrite !uval_repr by lia. f_equal. f_equal.
  assert (2 ^ (width a + width b) = 2 ^ width a * 2 ^ width b) as E by (apply Z.pow_add_r; lia).
  pose proof (pow2_pos (width a) ltac:(lia)). pose proof (pow2_pos (width b) ltac:(lia)).
  rewrite (Z.mod_small (uval a)) by nia. rewrite !Z.mod_small by nia. apply lor_shift; lia.
Qed.

(** ** The theorems of the scalar operators *)
Ltac wf_by_compute := apply wfb_wf; vm_compute; reflexivity.

Definition u8 (v : Z) : APInt := mkAPInt 8 false v None.
Definition i16 (v : Z) : APInt := mkAPInt 16 true v None.

(** C26: [eval_int] is the bit-vector function the operator names, on operands
    of any two widths: both are widened by their flags to the larger width
    first, and a zero divisor panics. The unary operators and concatenation,
    which do not coerce, are stated on the patterns. *)
Theorem eval_int_is_bitvector op a b : scalar_op (op_kind op) = Some op -> wf a -> wf b ->
  Z.max (width a) (width b) <= 2 ^ 64 ->
  if (op_arity op =? 1)%nat then
    eval_int op [a] = Some (repr (width a) (signed a)
      (match op_kind op with SymKind.Neg => - uval a | _ => Z.lnot (uval a) end))
  else if SymKind.eqb (op_kind op) SymKind.Concat then
    eval_int op [a; b] = Some (repr (width a + width b) false (uval a * 2 ^ width b + uval b))
  else
    let w := Z.max (width a) (width b) in
    let x := ival a mod 2 ^ w in let y := ival b mod 2 ^ w in
    eval_int op [a; b] =
      (v ← bv_op (op_kind op) w x y;
       Some (repr (result_width (op_width op) w) (result_signed (op_kind op) w (signed a) (signed b) x y) v)).
Proof.
  intros Hop Ha Hb Hw. destruct (Nat.eqb_spec (op_arity op) 1) as [E1|E1]; [by apply eval_int_unary|].
  destruct (SymKind.eqb (op_kind op) SymKind.Concat) eqn:Ec.
  - apply Nat.eqb_eq, SymKind.discriminant_inj in Ec. rewrite Ec in Hop. by apply eval_int_concat.
  - apply eval_int_binary; try done.
    + destruct (op_kind op); vm_compute in Hop; try discriminate; injection Hop as <-; done.
    + intros E. by rewrite E in Ec.
Qed.

Definition div_op : ScalarOp := mkScalarOp SymKind.Div "div" 2 false WFirst (SmtBinary "bvsdiv") "Div" RSDiv.

Lemma eval_int_is_bitvector_witness :
  let a := u8 250 in let b := i16 65533 in
  let w := Z.max (width a) (width b) in
  let x := ival a mod 2 ^ w in let y := ival b mod 2 ^ w in
  eval_int div_op [a; b] =
    (v ← bv_op SymKind.Div w x y;
     Some (repr (result_width WFirst w) (result_signed SymKind.Div w (signed a) (signed b) x y) v)).
Proof.
  exact (eval_int_is_bitvector div_op (u8 250) (i16 65533) eq_refl
    ltac:(wf_by_compute) ltac:(wf_by_compute) ltac:(vm_compute; discriminate)).
Defined.

(** The operators that the table declares commutative are. *)
Theorem commutative_sound op a b : scalar_op (op_kind op) = Some op -> is_commutative (op_kind op) = true ->
  wf a -> wf b -> Z.max (width a) (width b) <= 2 ^ 64 ->
  eval_int op [a; b] = eval_int op [b; a].
Proof.
  intros Hop Hc Ha Hb Hw.
  assert (op_arity op = 2%nat /\ op_kind op <> SymKind.Concat) as [Har Hk].
  { destruct (op_kind op); vm_compute in Hc; try discriminate; vm_compute in Hop; injection Hop as <-; done. }
  rewrite (eval_int_binary (op_kind op) op a b), (eval_int_binary (op_kind op) op b a); try done; try lia.
  rewrite (Z.max_comm (width b) (width a)). set (w := Z.max _ _).
  set (x := ival a mod 2 ^ w). set (y := ival b mod 2 ^ w).
  assert (bv_op (op_kind op) w x y = bv_op (op_kind op) w y x) as ->.
  { destruct (op_kind op); vm_compute in Hc; try discriminate; cbn [bv_op]; f_equal;
      try (f_equal; first [lia|apply Z.eqb_sym|f_equal; apply Z.eqb_sym]);
      first [lia|apply Z.lor_comm|apply Z.land_comm|apply Z.lxor_comm|by rewrite Z.lxor_comm]. }
  assert (result_signed (op_kind op) w (signed a) (signed b) x y = result_signed (op_kind op) w (signed b) (signed a) y x) as ->; [|done].
  destruct (op_kind op); vm_compute in Hc; try discriminate; cbn [result_signed]; try done; apply andb_comm.
Qed.

Definition xnor_op : ScalarOp := mkScalarOp SymKind.Xnor "xnor" 2 true WFirst (SmtBinary "bvxnor") "Xnor" RXnor.

Lemma commutative_sound_witness : eval_int xnor_op [u8 3; i16 9] = eval_int xnor_op [i16 9; u8 3].
Proof.
  exact (commutative_sound xnor_op (u8 3) (i16 9) eq_refl eq_refl
    ltac:(wf_by_compute) ltac:(wf_by_compute) ltac:(vm_compute; discriminate)).
Defined.

(** The value of an operator on operands of one width, as a pattern. *)
Definition op_value (op : ScalarOp) (w : Z) (xs : list Z) : option Z :=
  uval <$> eval_int op (map (repr w false) xs).

(** The operators with offset coefficients, as integer functions. *)
Definition linear (k : SymKind.t) (xs : list Z) : option Z :=
  match k, xs with
  | SymKind.Add, [x; y] => Some (x + y)
  | SymKind.Sub, [x; y] => Some (x - y)
  | SymKind.Neg, [x] => Some (- x)
  | SymKind.Not, [x] => Some (- x - 1)
  | _, _ => None
  end.

Lemma op_value_linear k op w xs : scalar_op k = Some op -> is_Some (offset_coefficient k 0) ->
  0 < w <= 2 ^ 64 -> length xs = op_arity op ->
  exists v, linear k xs = Some v /\ op_value op w xs = Some (v mod 2 ^ w).
Proof.
  intros Hop [m Hm] Hw Hlen.
  assert (wf2 : forall v, wf (repr w false v)) by (intros; apply repr_wf; lia).
  assert (Hpow : 0 < 2 ^ w) by (apply pow2_pos; lia).
  assert (Hu : forall v, uval (repr w false v) = v mod 2 ^ w) by (intros; apply uval_repr; lia).
  pose proof Hop as Hop'. unfold op_value.
  destruct k; try discriminate; vm_compute in Hop'; injection Hop' as <-; cbn [op_arity] in Hlen;
    destruct xs as [|x [|y [|]]]; try discriminate; cbn [map linear]; eexists; (split; [reflexivity|]).
  1,2: rewrite (eval_int_binary _ _ _ _ Hop) by (try done; cbn [width repr]; lia);
    cbn [width repr signed bv_op mbind option_bind fmap option_fmap option_map result_width op_width];
    rewrite Z.max_id, uval_repr by lia; unfold ival; cbn [signed repr]; rewrite !Hu, !Z.mod_mod by lia; f_equal.
  - symmetry. apply Z.add_mod. lia.
  - symmetry. apply Zminus_mod.
  - rewrite (eval_int_unary _ _ _ Hop) by done. cbn [fmap option_fmap option_map width repr].
    rewrite uval_repr, Hu by lia. f_equal. rewrite <- (Z.sub_0_l (x mod 2 ^ w)), <- (Z.sub_0_l x).
    by rewrite Zminus_mod_idemp_r.
  - rewrite (eval_int_unary _ _ _ Hop) by done. cbn [fmap option_fmap option_map width repr].
    rewrite uval_repr, Hu by lia. f_equal. unfold Z.lnot.
    replace (Z.pred (- (x mod 2 ^ w))) with (-1 - x mod 2 ^ w) by lia. replace (- x - 1) with (-1 - x) by lia.
    by rewrite Zminus_mod_idemp_r.
Qed.

(** The algebraic facts the code declares of an operator hold at every
    width: a constant added to an operand moves to the result multiplied by
    [offset_coefficient], [identity] leaves the other operand, and [bias] is
    the value over zero operands. *)
Theorem offset_facts_sound op w xs : scalar_op (op_kind op) = Some op -> is_Some (offset_coefficient (op_kind op) 0) ->
  0 < w <= 64 -> length xs = op_arity op ->
  (forall i m x d, offset_coefficient (op_kind op) i = Some m -> xs !! i = Some x ->
    exists v, op_value op w xs = Some (v mod 2 ^ w) /\
      op_value op w (<[i := x + d]> xs) = Some ((v + m * d) mod 2 ^ w)) /\
  (forall i c y, identity (op_kind op) i = Some c -> xs !! i = Some c -> xs !! (1 - i)%nat = Some y ->
    op_value op w xs = Some (y mod 2 ^ w)) /\
  ((forall x, x ∈ xs -> x = 0) -> op_value op w xs = Some (bias (op_kind op) mod 2 ^ w)).
Proof.
  intros Hop Hoff Hw Hlen.
  assert (forall ys, length ys = op_arity op -> exists v, linear (op_kind op) ys = Some v /\ op_value op w ys = Some (v mod 2 ^ w)) as F.
  { intros ys Hys. by apply op_value_linear; [..|lia|]. }
  split; [|split].
  - intros i m x d Hm Hx. destruct (F xs Hlen) as (v & Hl & E). exists v. split; [done|].
    destruct (F (<[i := x + d]> xs)) as (v' & Hl' & ->); [by rewrite length_insert|]. do 2 f_equal.
    destruct (op_kind op); try discriminate; destruct xs as [|x0 [|y [|]]]; try discriminate;
      (destruct i as [|[|i]]; try discriminate); cbn in *; try discriminate; simplify_eq; lia.
  - intros i c y Hc Hx Hy. destruct (F xs Hlen) as (v & Hl & ->). do 2 f_equal.
    destruct (op_kind op); try discriminate; destruct xs as [|x0 [|y0 [|]]]; try discriminate;
      (destruct i as [|[|i]]; try discriminate); cbn in *; try discriminate; simplify_eq; lia.
  - intros H0. destruct (F xs Hlen) as (v & Hl & ->). f_equal.
    destruct (op_kind op); destruct Hoff as [m Hm]; try discriminate; destruct xs as [|x0 [|y0 [|]]]; try discriminate;
      cbn in Hl; injection Hl as <-; rewrite (H0 x0) by set_solver; try (rewrite (H0 y0) by set_solver; done); [done|].
    cbn [bias]. unfold u64_max. replace (2 ^ 64) with (2 ^ (64 - w) * 2 ^ w) by (rewrite <- Z.pow_add_r by lia; f_equal; lia).
    symmetry. rewrite <- Zminus_mod_idemp_l. rewrite Z.mod_mul by (pose proof (pow2_pos w); lia). done.
Qed.

Definition sub_op : ScalarOp := mkScalarOp SymKind.Sub "sub" 2 false WFirst (SmtBinary "bvsub") "Sub" RSub.

Lemma offset_facts_sound_witness :
  (forall i m x d, offset_coefficient SymKind.Sub i = Some m -> [7; 0] !! i = Some x ->
    exists v, op_value sub_op 8 [7; 0] = Some (v mod 2 ^ 8) /\
      op_value sub_op 8 (<[i := x + d]> [7; 0]) = Some ((v + m * d) mod 2 ^ 8)) /\
  (forall i c y, identity SymKind.Sub i = Some c -> [7; 0] !! i = Some c -> [7; 0] !! (1 - i)%nat = Some y ->
    op_value sub_op 8 [7; 0] = Some (y mod 2 ^ 8)) /\
  ((forall x, x ∈ [7; 0] -> x = 0) -> op_value sub_op 8 [7; 0] = Some (bias SymKind.Sub mod 2 ^ 8)).
Proof. apply (offset_facts_sound sub_op 8 [7; 0]); [reflexivity|eexists; reflexivity|lia|reflexivity]. Defined.
