(* ===== verification/SatSolver.v ===== *)
(** * The CDCL SAT solver ([libs/symbolic/src/sat/mod.rs])

    The solver's state and every operation of it, as the code writes them:
    two-watched-literal propagation, first-UIP learning, the activity heap,
    Luby restarts. A function returns [option]: [None] is a panic (an index
    out of range, an [expect]) or the end of a loop's fuel; the theorems of
    [SatSolve] show that neither happens.

    A [Var] and a [Lit] are [u32]s in the code and [nat]s here: a solver with
    [2^31] variables is out of reach of its tables. The slot [usize::MAX] of a
    variable that is not queued is [None]. An [f64] is a [spec_float] of
    precision 53 and maximal exponent 1024, with the code's operations. *)
From Stdlib Require Import SpecFloat.
From S2P Require Import Prelude.
#[local] Open Scope nat_scope.

(** ** Variables and literals: [var << 1 | negated] *)
Notation Var := nat (only parsing).
Notation Lit := nat (only parsing).

Definition lit_new (v : Var) (negated : bool) : Lit := 2 * v + Nat.b2n negated.
Definition lit_positive (v : Var) : Lit := lit_new v false.
Definition lit_negative (v : Var) : Lit := lit_new v true.
Definition lit_var (l : Lit) : Var := Nat.div2 l.
Definition is_negated (l : Lit) : bool := Nat.odd l.
(** [l ^ 1]. *)
Definition negate (l : Lit) : Lit := if is_negated l then pred l else S l.

Inductive SatResult :=
  | Sat (model : list bool)
  | Unsat
  | Unknown.

(** ** The state *)
Record Solver := mkSolver {
  clauses : list (list Lit);
  watches : list (list nat);
  assign : list (option bool);
  level : list nat;
  reason : list (option nat);
  phase : list bool;
  activity : list spec_float;
  var_inc : spec_float;
  trail : list Lit;
  qhead : nat;
  trail_lim : list nat;
  unsat : bool;
  order : list nat;
  order_slot : list (option nat);
  seen : list bool;
}.

Definition set_clauses (x : list (list Lit)) (s : Solver) : Solver :=
  mkSolver x (watches s) (assign s) (level s) (reason s) (phase s) (activity s) (var_inc s) (trail s) (qhead s) (trail_lim s) (unsat s) (order s) (order_slot s) (seen s).
Definition set_watches (x : list (list nat)) (s : Solver) : Solver :=
  mkSolver (clauses s) x (assign s) (level s) (reason s) (phase s) (activity s) (var_inc s) (trail s) (qhead s) (trail_lim s) (unsat s) (order s) (order_slot s) (seen s).
Definition set_assign (x : list (option bool)) (s : Solver) : Solver :=
  mkSolver (clauses s) (watches s) x (level s) (reason s) (phase s) (activity s) (var_inc s) (trail s) (qhead s) (trail_lim s) (unsat s) (order s) (order_slot s) (seen s).
Definition set_level (x : list nat) (s : Solver) : Solver :=
  mkSolver (clauses s) (watches s) (assign s) x (reason s) (phase s) (activity s) (var_inc s) (trail s) (qhead s) (trail_lim s) (unsat s) (order s) (order_slot s) (seen s).
Definition set_reason (x : list (option nat)) (s : Solver) : Solver :=
  mkSolver (clauses s) (watches s) (assign s) (level s) x (phase s) (activity s) (var_inc s) (trail s) (qhead s) (trail_lim s) (unsat s) (order s) (order_slot s) (seen s).
Definition set_phase (x : list bool) (s : Solver) : Solver :=
  mkSolver (clauses s) (watches s) (assign s) (level s) (reason s) x (activity s) (var_inc s) (trail s) (qhead s) (trail_lim s) (unsat s) (order s) (order_slot s) (seen s).
Definition set_activity (x : list spec_float) (s : Solver) : Solver :=
  mkSolver (clauses s) (watches s) (assign s) (level s) (reason s) (phase s) x (var_inc s) (trail s) (qhead s) (trail_lim s) (unsat s) (order s) (order_slot s) (seen s).
Definition set_var_inc (x : spec_float) (s : Solver) : Solver :=
  mkSolver (clauses s) (watches s) (assign s) (level s) (reason s) (phase s) (activity s) x (trail s) (qhead s) (trail_lim s) (unsat s) (order s) (order_slot s) (seen s).
Definition set_trail (x : list Lit) (s : Solver) : Solver :=
  mkSolver (clauses s) (watches s) (assign s) (level s) (reason s) (phase s) (activity s) (var_inc s) x (qhead s) (trail_lim s) (unsat s) (order s) (order_slot s) (seen s).
Definition set_qhead (x : nat) (s : Solver) : Solver :=
  mkSolver (clauses s) (watches s) (assign s) (level s) (reason s) (phase s) (activity s) (var_inc s) (trail s) x (trail_lim s) (unsat s) (order s) (order_slot s) (seen s).
Definition set_trail_lim (x : list nat) (s : Solver) : Solver :=
  mkSolver (clauses s) (watches s) (assign s) (level s) (reason s) (phase s) (activity s) (var_inc s) (trail s) (qhead s) x (unsat s) (order s) (order_slot s) (seen s).
Definition set_unsat (x : bool) (s : Solver) : Solver :=
  mkSolver (clauses s) (watches s) (assign s) (level s) (reason s) (phase s) (activity s) (var_inc s) (trail s) (qhead s) (trail_lim s) x (order s) (order_slot s) (seen s).
Definition set_order (x : list nat) (s : Solver) : Solver :=
  mkSolver (clauses s) (watches s) (assign s) (level s) (reason s) (phase s) (activity s) (var_inc s) (trail s) (qhead s) (trail_lim s) (unsat s) x (order_slot s) (seen s).
Definition set_order_slot (x : list (option nat)) (s : Solver) : Solver :=
  mkSolver (clauses s) (watches s) (assign s) (level s) (reason s) (phase s) (activity s) (var_inc s) (trail s) (qhead s) (trail_lim s) (unsat s) (order s) x (seen s).
Definition set_seen (x : list bool) (s : Solver) : Solver :=
  mkSolver (clauses s) (watches s) (assign s) (level s) (reason s) (phase s) (activity s) (var_inc s) (trail s) (qhead s) (trail_lim s) (unsat s) (order s) (order_slot s) x.

(** [slice::swap]. *)
Definition swap {A} (l : list A) (i j : nat) : option (list A) :=
  x ← l !! i;
  y ← l !! j;
  Some (<[j := x]> (<[i := y]> l)).

(** [vec[i].push(x)]. *)
Definition vpush {A} (l : list (list A)) (i : nat) (x : A) : option (list (list A)) :=
  r ← l !! i;
  vset l i (r ++ [x]).

(** ** [f64] *)
Definition f64_add : spec_float -> spec_float -> spec_float := SFadd 53 1024.
Definition f64_mul : spec_float -> spec_float -> spec_float := SFmul 53 1024.
Definition f64_div : spec_float -> spec_float -> spec_float := SFdiv 53 1024.
Definition f64_gt (a b : spec_float) : bool := SFltb b a.
Definition f64_zero : spec_float := S754_zero false.
Definition f64_one : spec_float := S754_finite false 4503599627370496 (-52).
(** [1e100], [1e-100] and [0.95], correctly rounded. *)
Definition f64_1e100 : spec_float := S754_finite false 5147557589468029 (280).
Definition f64_1em100 : spec_float := S754_finite false 7880401239278896 (-385).
Definition f64_0_95 : spec_float := S754_finite false 8556839292003942 (-53).

(** ** Building *)
Definition new : Solver :=
  mkSolver [] [] [] [] [] [] [] f64_one [] 0 [] false [] [] [].

Definition num_vars (s : Solver) : nat := length (assign s).
Definition decision_level (s : Solver) : nat := length (trail_lim s).

Definition value_lit (s : Solver) (l : Lit) : option (option bool) :=
  a ← assign s !! lit_var l;
  Some ((fun b => xorb b (is_negated l)) <$> (a : option bool)).

Definition enqueue (l : Lit) (why : option nat) (s : Solver) : option (bool * Solver) :=
  v ← value_lit s l;
  match v with
  | Some true => Some (true, s)
  | Some false => Some (false, s)
  | None =>
      let v := lit_var l in
      assign' ← vset (assign s) v (Some (negb (is_negated l)));
      level' ← vset (level s) v (decision_level s);
      reason' ← vset (reason s) v why;
      Some (true,
        set_trail (trail s ++ [l]) (set_reason reason' (set_level level' (set_assign assign' s))))
  end.

(** ** The activity heap *)

(** [(f64, u32) > (f64, u32)]: the index decides between equal activities. *)
Definition ahead (s : Solver) (a b : nat) : option bool :=
  x ← activity s !! a;
  y ← activity s !! b;
  Some (match SFcompare x y with
        | Some Gt => true
        | Some Eq => b <? a
        | _ => false
        end).

Definition swap_slots (a b : nat) (s : Solver) : option Solver :=
  order' ← swap (order s) a b;
  x ← order' !! a;
  slots ← vset (order_slot s) x (Some a);
  y ← order' !! b;
  slots ← vset slots y (Some b);
  Some (set_order_slot slots (set_order order' s)).

Fixpoint sift_up_loop (fuel slot : nat) (s : Solver) : option Solver :=
  match fuel with
  | O => None
  | S fuel =>
      if slot =? 0 then Some s
      else
        let parent := (slot - 1) / 2 in
        x ← order s !! slot;
        y ← order s !! parent;
        a ← ahead s x y;
        if negb a then Some s
        else
          s ← swap_slots slot parent s;
          sift_up_loop fuel parent s
  end.
Definition sift_up (slot : nat) (s : Solver) : option Solver := sift_up_loop (S slot) slot s.

(** The child test of [sift_down], for one child. *)
Definition sift_child (s : Solver) (child first : nat) : option nat :=
  if child <? length (order s) then
    x ← order s !! child;
    y ← order s !! first;
    a ← ahead s x y;
    Some (if (a : bool) then child else first)
  else Some first.

Fixpoint sift_down_loop (fuel slot : nat) (s : Solver) : option Solver :=
  match fuel with
  | O => None
  | S fuel =>
      first ← sift_child s (2 * slot + 1) slot;
      first ← sift_child s (2 * slot + 2) first;
      if first =? slot then Some s
      else
        s ← swap_slots slot first s;
        sift_down_loop fuel first s
  end.
Definition sift_down (slot : nat) (s : Solver) : option Solver :=
  sift_down_loop (S (length (order s))) slot s.

Definition queue (v : nat) (s : Solver) : option Solver :=
  slot ← order_slot s !! v;
  match slot with
  | Some _ => Some s
  | None =>
      slots ← vset (order_slot s) v (Some (length (order s)));
      let s := set_order (order s ++ [v]) (set_order_slot slots s) in
      sift_up (length (order s) - 1) s
  end.

(** [Vec::pop] returns the last entry. *)
Definition last_of {A} (l : list A) : option A := head (rev l).

(** [order.swap_remove(0)] returns the top and moves the last entry there. *)
Definition swap_remove_0 (l : list nat) : option (nat * list nat) :=
  match l with
  | [] => None
  | top :: rest =>
      match last_of rest with
      | None => Some (top, [])
      | Some x => Some (top, x :: removelast rest)
      end
  end.

Definition unqueue_top (s : Solver) : option Solver :=
  '(top, order') ← swap_remove_0 (order s);
  slots ← vset (order_slot s) top None;
  let s := set_order_slot slots (set_order order' s) in
  match order s with
  | [] => Some s
  | moved :: _ =>
      slots ← vset (order_slot s) moved (Some 0);
      sift_down 0 (set_order_slot slots s)
  end.

(** [for slot in (0..n).rev() { sift_down(slot) }]. *)
Fixpoint sift_down_all (n : nat) (s : Solver) : option Solver :=
  match n with
  | O => Some s
  | S n => s ← sift_down n s; sift_down_all n s
  end.

Definition bump (v : Var) (s : Solver) : option Solver :=
  a ← activity s !! v;
  let a := f64_add a (var_inc s) in
  act ← vset (activity s) v a;
  let s := set_activity act s in
  s ← (if f64_gt a f64_1e100 then
         let s := set_activity (map (fun x => f64_mul x f64_1em100) (activity s)) s in
         let s := set_var_inc (f64_mul (var_inc s) f64_1em100) s in
         sift_down_all (length (order s) / 2) s
       else Some s);
  slot ← order_slot s !! v;
  match slot with
  | Some slot => sift_up slot s
  | None => Some s
  end.

Definition decay (s : Solver) : Solver := set_var_inc (f64_div (var_inc s) f64_0_95) s.

(** ** Variables and clauses *)
Definition new_var (s : Solver) : option (Var * Solver) :=
  let v := length (assign s) in
  let s := set_assign (assign s ++ [None]) s in
  let s := set_level (level s ++ [0]) s in
  let s := set_reason (reason s ++ [None]) s in
  let s := set_phase (phase s ++ [false]) s in
  let s := set_activity (activity s ++ [f64_zero]) s in
  let s := set_watches (watches s ++ [[]; []]) s in
  let s := set_order_slot (order_slot s ++ [None]) s in
  let s := set_seen (seen s ++ [false]) s in
  s ← queue v s;
  Some (v, s).

Definition add_watched_clause (lits : list Lit) (s : Solver) : option (nat * Solver) :=
  let cref := length (clauses s) in
  l0 ← lits !! 0;
  w ← vpush (watches s) l0 cref;
  l1 ← lits !! 1;
  w ← vpush w l1 cref;
  Some (cref, set_clauses (clauses s ++ [lits]) (set_watches w s)).

(** The scan of [add_clause]: [None] is a tautology. *)
Fixpoint dedup (lits cl : list Lit) : option (list Lit) :=
  match lits with
  | [] => Some cl
  | l :: lits =>
      if bool_decide (negate l ∈ cl) then None
      else if bool_decide (l ∈ cl) then dedup lits cl
      else dedup lits (cl ++ [l])
  end.

Definition add_clause (lits : list Lit) (s : Solver) : option Solver :=
  if unsat s then Some s
  else
    match dedup lits [] with
    | None => Some s
    | Some [] => Some (set_unsat true s)
    | Some [l] =>
        '(ok, s) ← enqueue l None s;
        Some (if (ok : bool) then s else set_unsat true s)
    | Some cl => '(_, s) ← add_watched_clause cl s; Some s
    end.

(** ** Propagation *)

(** The hunt over [k in 2..len] for a literal that is not false. *)
Fixpoint find_watch (s : Solver) (lits : list Lit) (k : nat) : option (option nat) :=
  match lits with
  | [] => Some None
  | lk :: lits =>
      v ← value_lit s lk;
      match v with
      | Some false => find_watch s lits (S k)
      | _ => Some (Some k)
      end
  end.

(** One clause [cref] of the list of [false_lit]: [inl] when it stays on the
    list with its conflict, if any. *)
Inductive visit := Keep | Moved | Conflict.

Definition visit_clause (false_lit : Lit) (cref : nat) (s : Solver) : option (visit * Solver) :=
  lits ← clauses s !! cref;
  l0 ← lits !! 0;
  lits ← (if l0 =? false_lit then swap lits 0 1 else Some lits);
  cs ← vset (clauses s) cref lits;
  let s := set_clauses cs s in
  w0 ← lits !! 0;
  v0 ← value_lit s w0;
  match v0 with
  | Some true => Some (Keep, s)
  | _ =>
      found ← find_watch s (drop 2 lits) 2;
      match found with
      | Some k =>
          lits ← swap lits 1 k;
          cs ← vset (clauses s) cref lits;
          let s := set_clauses cs s in
          nw ← lits !! 1;
          ws ← vpush (watches s) nw cref;
          Some (Moved, set_watches ws s)
      | None =>
          match v0 with
          | Some false => Some (Conflict, s)
          | _ => '(_, s) ← enqueue w0 (Some cref) s; Some (Keep, s)
          end
      end
  end.

(** The loop over the taken list [ws]; a conflict keeps what is left of it. *)
Fixpoint visit_watches (false_lit : Lit) (ws new_ws : list nat) (s : Solver)
    : option (option nat * list nat * Solver) :=
  match ws with
  | [] => Some (None, new_ws, s)
  | cref :: ws =>
      '(r, s) ← visit_clause false_lit cref s;
      match r with
      | Keep => visit_watches false_lit ws (new_ws ++ [cref]) s
      | Moved => visit_watches false_lit ws new_ws s
      | Conflict => Some (Some cref, new_ws ++ [cref] ++ ws, s)
      end
  end.

Definition propagate_lit (p : Lit) (s : Solver) : option (option nat * Solver) :=
  let false_lit := negate p in
  ws ← watches s !! false_lit;
  taken ← vset (watches s) false_lit [];
  '(conflict, new_ws, s) ← visit_watches false_lit ws [] (set_watches taken s);
  restored ← vset (watches s) false_lit new_ws;
  Some (conflict, set_watches restored s).

Fixpoint propagate_loop (fuel : nat) (s : Solver) : option (option nat * Solver) :=
  match fuel with
  | O => None
  | S fuel =>
      if qhead s <? length (trail s) then
        p ← trail s !! qhead s;
        '(conflict, s) ← propagate_lit p (set_qhead (S (qhead s)) s);
        match conflict with
        | Some c => Some (Some c, set_qhead (length (trail s)) s)
        | None => propagate_loop fuel s
        end
      else Some (None, s)
  end.
(** Each turn passes one entry of the trail, which holds each variable once. *)
Definition propagate (s : Solver) : option (option nat * Solver) :=
  propagate_loop (S (num_vars s)) s.

(** ** Conflict analysis *)

(** The literals of one clause: mark the new variables, count those of the
    current level, collect the others. *)
Record analysis := mkAnalysis {
  a_seen : list bool;
  a_marked : list nat;
  a_learnt : list Lit;
  a_path : nat;
}.

Fixpoint scan_clause (lits : list Lit) (a : analysis) (s : Solver) : option (analysis * Solver) :=
  match lits with
  | [] => Some (a, s)
  | q :: lits =>
      let v := lit_var q in
      seen_v ← a_seen a !! v;
      if negb seen_v then
        lv ← level s !! v;
        if 0 <? lv then
          s ← bump v s;
          seen' ← vset (a_seen a) v true;
          let marked := a_marked a ++ [v] in
          let a :=
            if decision_level s <=? lv then mkAnalysis seen' marked (a_learnt a) (S (a_path a))
            else mkAnalysis seen' marked (a_learnt a ++ [q]) (a_path a) in
          scan_clause lits a s
        else scan_clause lits a s
      else scan_clause lits a s
  end.

(** [loop { index -= 1; if seen[trail[index].var()] { break } }]. *)
Fixpoint next_seen (tr : list Lit) (seen : list bool) (index : nat) : option nat :=
  match index with
  | O => None
  | S i =>
      l ← tr !! i;
      b ← seen !! lit_var l;
      if (b : bool) then Some i else next_seen tr seen i
  end.

Fixpoint analyze_loop (fuel index confl : nat) (p : option Lit) (a : analysis) (s : Solver)
    : option (Lit * analysis * Solver) :=
  match fuel with
  | O => None
  | S fuel =>
      lits ← clauses s !! confl;
      '(a, s) ← scan_clause (match p with Some _ => drop 1 lits | None => lits end) a s;
      index ← next_seen (trail s) (a_seen a) index;
      pl ← trail s !! index;
      seen' ← vset (a_seen a) (lit_var pl) false;
      path ← (match a_path a with O => None | S n => Some n end);
      let a := mkAnalysis seen' (a_marked a) (a_learnt a) path in
      if path =? 0 then Some (pl, a, s)
      else
        r ← reason s !! lit_var pl;
        confl ← r;
        analyze_loop fuel index confl (Some pl) a s
  end.

(** The index of the first literal of highest level among [learnt[2..]],
    against the best so far. *)
Fixpoint max_level (s : Solver) (lits : list Lit) (k best best_level : nat) : option nat :=
  match lits with
  | [] => Some best
  | l :: lits =>
      lv ← level s !! lit_var l;
      if best_level <? lv then max_level s lits (S k) k lv
      else max_level s lits (S k) best best_level
  end.

Definition backjump_level (s : Solver) (learnt : list Lit) : option (list Lit * nat) :=
  if length learnt =? 1 then Some (learnt, 0)
  else
    l1 ← learnt !! 1;
    lv1 ← level s !! lit_var l1;
    max_i ← max_level s (drop 2 learnt) 2 1 lv1;
    learnt ← swap learnt 1 max_i;
    l1 ← learnt !! 1;
    bt ← level s !! lit_var l1;
    Some (learnt, bt).

Fixpoint unmark (marked : list nat) (seen : list bool) : option (list bool) :=
  match marked with
  | [] => Some seen
  | v :: marked => seen ← vset seen v false; unmark marked seen
  end.

Definition analyze (conflict : nat) (s : Solver) : option (list Lit * nat * Solver) :=
  let a := mkAnalysis (seen s) [] [] 0 in
  '(pl, a, s) ← analyze_loop (S (length (trail s))) (length (trail s)) conflict None a (set_seen [] s);
  let learnt := negate pl :: a_learnt a in
  seen' ← unmark (a_marked a) (a_seen a);
  let s := set_seen seen' s in
  '(learnt, bt) ← backjump_level s learnt;
  Some (learnt, bt, s).

(** ** Backtracking and branching *)
Fixpoint cancel_loop (fuel target : nat) (s : Solver) : option Solver :=
  if target <? length (trail s) then
    match fuel with
    | O => None
    | S fuel =>
        l ← last_of (trail s);
        let s := set_trail (removelast (trail s)) s in
        let v := lit_var l in
        a ← assign s !! v;
        a ← a;
        phase' ← vset (phase s) v a;
        assign' ← vset (assign s) v None;
        reason' ← vset (reason s) v None;
        s ← queue v (set_reason reason' (set_assign assign' (set_phase phase' s)));
        cancel_loop fuel target s
    end
  else Some s.

Definition cancel_until (lv : nat) (s : Solver) : option Solver :=
  if decision_level s <=? lv then Some s
  else
    target ← trail_lim s !! lv;
    s ← cancel_loop (length (trail s)) target s;
    let s := set_trail_lim (take lv (trail_lim s)) s in
    Some (set_qhead (length (trail s)) s).

Definition learn (learnt : list Lit) (s : Solver) : option Solver :=
  if length learnt =? 1 then
    l0 ← learnt !! 0;
    '(_, s) ← enqueue l0 None s;
    Some s
  else
    '(cref, s) ← add_watched_clause learnt s;
    l0 ← learnt !! 0;
    '(_, s) ← enqueue l0 (Some cref) s;
    Some s.

Fixpoint pick_loop (fuel : nat) (s : Solver) : option (option Lit * Solver) :=
  match order s with
  | [] => Some (None, s)
  | top :: _ =>
      match fuel with
      | O => None
      | S fuel =>
          s ← unqueue_top s;
          a ← assign s !! top;
          match a with
          | None =>
              ph ← phase s !! top;
              Some (Some (lit_new top (negb ph)), s)
          | Some _ => pick_loop fuel s
          end
      end
  end.
Definition pick_branch (s : Solver) : option (option Lit * Solver) :=
  pick_loop (length (order s)) s.

(** ** Restarts: the Luby sequence *)
Fixpoint luby_grow (fuel : nat) (x size : N) (seq : nat) : option (N * nat) :=
  match fuel with
  | O => None
  | S fuel =>
      if (size <? x + 1)%N then luby_grow fuel x (2 * size + 1)%N (S seq)
      else Some (size, seq)
  end.

Fixpoint luby_shrink (fuel : nat) (x size : N) (seq : nat) : option nat :=
  match fuel with
  | O => None
  | S fuel =>
      if (size - 1 =? x)%N then Some seq
      else
        let size := N.shiftr (size - 1) 1 in
        luby_shrink fuel (x mod size)%N size (pred seq)
  end.

(** Both loops take at most [log2 (x + 1) + 2] turns. *)
Definition luby (x : N) : option N :=
  let fuel := S (S (N.to_nat (N.log2 (x + 1)))) in
  '(size, seq) ← luby_grow fuel x 1 0;
  seq ← luby_shrink fuel x size seq;
  Some (N.shiftl 1 (N.of_nat seq)).

(** ** The search *)
Definition model (s : Solver) : list bool := map (default false) (assign s).

(** [Solver::value]: the value of a variable in the last assignment. *)
Definition value (s : Solver) (v : Var) : option bool := default false <$> (assign s !! v).

Fixpoint solve_loop (fuel : nat) (max_conflicts : option N) (conflicts restart_no limit : N)
    (s : Solver) : option (SatResult * Solver) :=
  match fuel with
  | O => None
  | S fuel =>
      '(confl, s) ← propagate s;
      match confl with
      | Some confl =>
          let conflicts := (conflicts + 1)%N in
          if decision_level s =? 0 then Some (Unsat, set_unsat true s)
          else
            '(learnt, bt_level, s) ← analyze confl s;
            s ← cancel_until bt_level s;
            s ← learn learnt s;
            let s := decay s in
            if match max_conflicts with Some m => (m <=? conflicts)%N | None => false end
            then Some (Unknown, s)
            else if (limit <=? conflicts)%N then
              let restart_no := (restart_no + 1)%N in
              u ← luby restart_no;
              let limit := (conflicts + u * 100)%N in
              s ← cancel_until 0 s;
              solve_loop fuel max_conflicts conflicts restart_no limit s
            else solve_loop fuel max_conflicts conflicts restart_no limit s
      | None =>
          '(next, s) ← pick_branch s;
          match next with
          | None => Some (Sat (model s), s)
          | Some lit =>
              let s := set_trail_lim (trail_lim s ++ [length (trail s)]) s in
              '(_, s) ← enqueue lit None s;
              solve_loop fuel max_conflicts conflicts restart_no limit s
          end
      end
  end.

Definition solve_with_budget (fuel : nat) (max_conflicts : option N) (s : Solver)
    : option (SatResult * Solver) :=
  if unsat s then Some (Unsat, s)
  else
    u ← luby 0;
    solve_loop fuel max_conflicts 0 0 (u * 100)%N s.

Definition solve (fuel : nat) (s : Solver) : option (SatResult * Solver) :=
  solve_with_budget fuel None s.

(** A run: [(a or b) and (not a or b) and (a or not b)] has one model. *)
Fixpoint new_vars (n : nat) (s : Solver) : option Solver :=
  match n with O => Some s | S n => '(_, s) ← new_var s; new_vars n s end.

Definition load (n : nat) (cs : list (list Lit)) : option Solver :=
  s ← new_vars n new;
  foldl (fun s c => s ← s; add_clause c s) (Some s) cs.

Example solve_two :
  (s ← load 2 [[0; 2]; [1; 2]; [0; 3]]; fst <$> solve 20 s) = Some (Sat [true; true]).
Proof. vm_compute. reflexivity. Qed.
Example solve_pigeons :
  (s ← load 6 [[0; 2]; [4; 6]; [8; 10]; [1; 5]; [1; 9]; [5; 9]; [3; 7]; [3; 11]; [7; 11]];
   fst <$> solve 60 s) = Some Unsat.
Proof. vm_compute. reflexivity. Qed.
Example luby_prefix :
  map luby [0; 1; 2; 3; 4; 5; 6; 7; 14]%N = map Some [1; 1; 2; 1; 1; 2; 4; 1; 8]%N.
Proof. vm_compute. reflexivity. Qed.
