(* ===== verification/SatLits.v ===== *)
(** * Literals, clauses and truth for the SAT solver *)
From Stdlib Require Import SpecFloat.
From S2P Require Import Prelude SatSolver.
#[local] Open Scope nat_scope.

(** An assignment of every variable, and truth under it. *)
Definition valuation := nat -> bool.
Definition lit_true (rho : valuation) (l : Lit) : bool := xorb (rho (lit_var l)) (is_negated l).
Definition clause_true (rho : valuation) (c : list Lit) : Prop := exists l, l ∈ c /\ lit_true rho l = true.

(** ** Literals *)
Lemma lit_decompose l : l = lit_new (lit_var l) (is_negated l).
Proof. unfold lit_new, lit_var, is_negated. pose proof (Nat.div2_odd l). lia. Qed.

Lemma lit_var_new v b : lit_var (lit_new v b) = v.
Proof.
  unfold lit_var, lit_new. destruct b; cbn [Nat.b2n].
  - rewrite Nat.add_1_r. apply Nat.div2_succ_double.
  - rewrite Nat.add_0_r. apply Nat.div2_double.
Qed.

Lemma is_negated_new v b : is_negated (lit_new v b) = b.
Proof.
  unfold is_negated, lit_new. rewrite Nat.odd_add, Nat.odd_mul. by destruct b.
Qed.

Lemma negate_new v b : negate (lit_new v b) = lit_new v (negb b).
Proof. unfold negate. rewrite is_negated_new. unfold lit_new. destruct b; cbn [negb Nat.b2n]; lia. Qed.

Lemma lit_cases l : exists v b, l = lit_new v b.
Proof. eexists _, _. apply lit_decompose. Qed.

Ltac lit_destruct l :=
  let v := fresh "v" in let b := fresh "b" in destruct (lit_cases l) as (v & b & ->).

Lemma lit_new_inj v v' b b' : lit_new v b = lit_new v' b' -> v = v' /\ b = b'.
Proof.
  intros H. split; [apply (f_equal lit_var) in H; by rewrite !lit_var_new in H|].
  apply (f_equal is_negated) in H. by rewrite !is_negated_new in H.
Qed.

Lemma lit_var_negate l : lit_var (negate l) = lit_var l.
Proof. lit_destruct l. by rewrite negate_new, !lit_var_new. Qed.

Lemma negate_involutive l : negate (negate l) = l.
Proof. lit_destruct l. by rewrite !negate_new, negb_involutive. Qed.

Lemma negate_ne l : negate l <> l.
Proof. lit_destruct l. rewrite negate_new. intros [_ H]%lit_new_inj. by destruct b. Qed.

Lemma negate_inj a b : negate a = negate b -> a = b.
Proof. intros H. by rewrite <- (negate_involutive a), H, negate_involutive. Qed.

Lemma same_var a b : lit_var a = lit_var b -> a = b \/ a = negate b.
Proof.
  lit_destruct a. lit_destruct b. rewrite !lit_var_new, negate_new. intros ->.
  destruct b0, b1; auto.
Qed.

Lemma lit_lt l n : lit_var l < n <-> l < 2 * n.
Proof. lit_destruct l. rewrite lit_var_new. unfold lit_new. destruct b; cbn; lia. Qed.

Lemma lit_true_negate rho l : lit_true rho (negate l) = negb (lit_true rho l).
Proof.
  lit_destruct l. unfold lit_true. rewrite negate_new, !lit_var_new, !is_negated_new.
  by destruct (rho v), b.
Qed.

Lemma clause_true_perm rho c c' : c ≡ₚ c' -> clause_true rho c -> clause_true rho c'.
Proof. intros Hp (l & Hl & Ht). exists l. by rewrite <- Hp. Qed.

#[export] Instance clause_true_proper rho : Proper ((≡ₚ) ==> iff) (clause_true rho).
Proof. intros c c' Hp. split; by apply clause_true_perm. Qed.

Lemma clause_true_cons rho l c : clause_true rho (l :: c) <-> lit_true rho l = true \/ clause_true rho c.
Proof.
  unfold clause_true. split.
  - intros (x & [-> | H]%elem_of_cons & Ht); eauto.
  - intros [H|(x & Hx & Ht)]; [exists l|exists x]; split; auto; by constructor.
Qed.

Lemma clause_true_nil rho : ~ clause_true rho [].
Proof. intros (l & H & _). by apply not_elem_of_nil in H. Qed.

Lemma clause_true_app rho a b : clause_true rho (a ++ b) <-> clause_true rho a \/ clause_true rho b.
Proof.
  unfold clause_true. split.
  - intros (x & [H|H]%elem_of_app & Ht); eauto.
  - intros [(x & H & Ht)|(x & H & Ht)]; exists x; split; auto; apply elem_of_app; auto.
Qed.

(** ** Vectors *)
Lemma swap_Some {A} (l : list A) i j x y : l !! i = Some x -> l !! j = Some y ->
  swap l i j = Some (<[j := x]> (<[i := y]> l)).
Proof. intros Hi Hj. unfold swap. by rewrite Hi, Hj. Qed.

Lemma vpush_Some {A} (l : list (list A)) i x r : l !! i = Some r -> vpush l i x = Some (<[i := r ++ [x]]> l).
Proof. intros H. unfold vpush. rewrite H. cbn. apply vset_Some. by eapply lookup_lt_Some. Qed.

(** Swapping two entries permutes. *)
Lemma swap_perm {A} (l : list A) i j x y : l !! i = Some x -> l !! j = Some y ->
  <[j := x]> (<[i := y]> l) ≡ₚ l.
Proof.
  revert i j; induction l as [|z l IH]; intros i j Hi Hj; [done|].
  destruct i as [|i], j as [|j]; cbn in *.
  - by injection Hi as ->.
  - injection Hi as ->. clear IH. revert j Hj. induction l as [|w l IH]; intros j Hj; [done|].
    destruct j as [|j]; cbn in *; [injection Hj as ->; constructor|].
    rewrite perm_swap, (IH j Hj). constructor.
  - injection Hj as ->. clear IH. revert i Hi. induction l as [|w l IH]; intros i Hi; [done|].
    destruct i as [|i]; cbn in *; [injection Hi as ->; constructor|].
    rewrite perm_swap, (IH i Hi). constructor.
  - by rewrite (IH i j Hi Hj).
Qed.

Lemma last_of_snoc {A} (l : list A) x : last_of (l ++ [x]) = Some x.
Proof. unfold last_of. by rewrite rev_app_distr. Qed.

(** ** Deduplication of an added clause *)
Lemma dedup_spec lits cl : NoDup (map lit_var cl) ->
  match dedup lits cl with
  | None => forall rho, clause_true rho (cl ++ lits)
  | Some c => NoDup (map lit_var c) /\ (forall l, l ∈ c <-> l ∈ cl ++ lits)
  end.
Proof.
  revert cl; induction lits as [|l lits IH]; intros cl Hnd; cbn [dedup].
  { rewrite app_nil_r. done. }
  destruct (bool_decide (negate l ∈ cl)) eqn:Ht; [apply bool_decide_eq_true in Ht|apply bool_decide_eq_false in Ht].
  { intros rho. destruct (lit_true rho l) eqn:El.
    - exists l. split; [|done]. apply elem_of_app. right. constructor.
    - exists (negate l). rewrite lit_true_negate, El. split; [|done]. apply elem_of_app. by left. }
  destruct (bool_decide (l ∈ cl)) eqn:Hin; [apply bool_decide_eq_true in Hin|apply bool_decide_eq_false in Hin].
  - specialize (IH cl Hnd). destruct (dedup lits cl).
    + destruct IH as [H1 H2]. split; [done|]. intros x. rewrite H2, !elem_of_app, elem_of_cons.
      split; [tauto|]. intros [?|[->|?]]; auto.
    + intros rho. specialize (IH rho). rewrite clause_true_app, clause_true_cons in *. tauto.
  - assert (NoDup (map lit_var (cl ++ [l]))) as Hnd'.
    { rewrite map_app. apply list.NoDup_app. split; [done|]. split; [|apply NoDup_singleton].
      intros v Hv E. apply list_elem_of_fmap in Hv as (x & -> & Hx).
      apply list_elem_of_singleton in E. destruct (same_var _ _ E) as [->| ->]; done. }
    specialize (IH (cl ++ [l]) Hnd'). rewrite <- app_assoc in IH. done.
Qed.

(** ** The activity heap of the SAT solver

    The heap only decides which variable the solver branches on. What its
    operations keep is the correspondence of [order] and [order_slot], the set
    of queued variables, and every other table ([core]); none of them panics
    or runs out of turns. *)
(** The tables that the heap does not touch. *)
Definition core (s : Solver) : Solver :=
  set_activity [] (set_var_inc f64_one (set_order [] (set_order_slot [] s))).
Definition same_core (s s' : Solver) : Prop := core s' = core s.

#[export] Instance same_core_equiv : Equivalence same_core.
Proof. split; unfold same_core; congruence. Qed.

(** A property of the tables outside the heap moves along [same_core]. *)
Lemma same_core_move (P : Solver -> Prop) s s' :
  (forall s, P s <-> P (core s)) -> same_core s s' -> P s -> P s'.
Proof. intros HP E. rewrite (HP s), (HP s'). by rewrite E. Qed.

Section fields.
Context (s s' : Solver) (E : same_core s s').
Lemma same_clauses : clauses s' = clauses s. Proof. exact (f_equal clauses E). Qed.
Lemma same_watches : watches s' = watches s. Proof. exact (f_equal watches E). Qed.
Lemma same_assign : assign s' = assign s. Proof. exact (f_equal assign E). Qed.
Lemma same_level : level s' = level s. Proof. exact (f_equal level E). Qed.
Lemma same_reason : reason s' = reason s. Proof. exact (f_equal reason E). Qed.
Lemma same_phase : phase s' = phase s. Proof. exact (f_equal phase E). Qed.
Lemma same_trail : trail s' = trail s. Proof. exact (f_equal trail E). Qed.
Lemma same_qhead : qhead s' = qhead s. Proof. exact (f_equal qhead E). Qed.
Lemma same_trail_lim : trail_lim s' = trail_lim s. Proof. exact (f_equal trail_lim E). Qed.
Lemma same_unsat : unsat s' = unsat s. Proof. exact (f_equal unsat E). Qed.
Lemma same_seen : seen s' = seen s. Proof. exact (f_equal seen E). Qed.
End fields.

(** [rewrite] every table of [s'] to that of [s]. *)
Ltac core_rewrite E :=
  rewrite ?(same_clauses _ _ E), ?(same_watches _ _ E), ?(same_assign _ _ E), ?(same_level _ _ E),
    ?(same_reason _ _ E), ?(same_phase _ _ E), ?(same_trail _ _ E), ?(same_qhead _ _ E),
    ?(same_trail_lim _ _ E), ?(same_unsat _ _ E), ?(same_seen _ _ E).

(** ** The invariant *)
Record heap_ok (s : Solver) : Prop := {
  heap_activity : length (activity s) = num_vars s;
  heap_slots : length (order_slot s) = num_vars s;
  heap_order : forall i v, order s !! i = Some v <-> order_slot s !! v = Some (Some i);
}.
Definition queued (s : Solver) (v : nat) : Prop := exists i, order_slot s !! v = Some (Some i).

(** What a heap operation promises. *)
Definition heap_step (s s' : Solver) : Prop :=
  same_core s s' /\ heap_ok s' /\ (forall v, queued s' v <-> queued s v) /\
  length (order s') = length (order s).

Lemma heap_step_refl s : heap_ok s -> heap_step s s.
Proof. intros H. by repeat split; try apply H. Qed.

Lemma heap_step_trans s1 s2 s3 : heap_step s1 s2 -> heap_step s2 s3 -> heap_step s1 s3.
Proof.
  intros (A1 & A2 & A3 & A4) (B1 & B2 & B3 & B4). split; [by etrans|]. split; [done|].
  split; [|congruence]. intros v. by rewrite B3, A3.
Qed.

Lemma heap_var s i v : heap_ok s -> order s !! i = Some v -> v < num_vars s.
Proof.
  intros H Hi. apply (heap_order s H) in Hi. rewrite <- (heap_slots s H). by eapply lookup_lt_Some.
Qed.

Lemma heap_unslotted s v : heap_ok s -> v < num_vars s -> ~ queued s v -> order_slot s !! v = Some None.
Proof.
  intros H Hv Hq. rewrite <- (heap_slots s H) in Hv. apply lookup_lt_is_Some in Hv as [[i|] E]; [|done].
  exfalso. apply Hq. by exists i.
Qed.

Lemma ahead_total s a b : heap_ok s -> a < num_vars s -> b < num_vars s -> is_Some (ahead s a b).
Proof.
  intros H Ha Hb. rewrite <- (heap_activity s H) in Ha, Hb.
  apply lookup_lt_is_Some in Ha as [x Ha], Hb as [y Hb].
  unfold ahead. rewrite Ha, Hb. cbn. eauto.
Qed.

(** ** Swapping two slots *)
Lemma swap_slots_spec s a b x y : heap_ok s -> order s !! a = Some x -> order s !! b = Some y -> a <> b ->
  exists s', swap_slots a b s = Some s' /\ heap_step s s' /\
    order s' = <[b := x]> (<[a := y]> (order s)).
Proof.
  intros H Ha Hb Hab.
  pose proof (lookup_lt_Some _ _ _ Ha) as La. pose proof (lookup_lt_Some _ _ _ Hb) as Lb.
  pose proof (heap_var s _ _ H Ha) as Lx. pose proof (heap_var s _ _ H Hb) as Ly.
  rewrite <- (heap_slots s H) in Lx, Ly.
  assert (x <> y) as Hxy.
  { intros ->. apply (heap_order s H) in Ha, Hb. congruence. }
  unfold swap_slots. rewrite (swap_Some _ _ _ x y Ha Hb). cbn [mbind option_bind].
  assert (<[b := x]> (<[a := y]> (order s)) !! a = Some y) as Ea.
  { by rewrite list_lookup_insert_ne, list_lookup_insert_eq. }
  assert (<[b := x]> (<[a := y]> (order s)) !! b = Some x) as Eb.
  { rewrite list_lookup_insert_eq; [done|]. by rewrite length_insert. }
  rewrite Ea. cbn [mbind option_bind].
  rewrite vset_Some by done. cbn [mbind option_bind]. rewrite Eb. cbn [mbind option_bind].
  rewrite vset_Some by (by rewrite length_insert). cbn [mbind option_bind].
  eexists. split; [reflexivity|]. split; [|done].
  assert (forall i v, <[b:=x]> (<[a:=y]> (order s)) !! i = Some v <->
    <[x:=Some b]> (<[y:=Some a]> (order_slot s)) !! v = Some (Some i)) as Hbij.
  { intros i v.
    assert (forall j, order s !! j = Some v -> order_slot s !! v = Some (Some j)) as F by (intros; by apply (heap_order s H)).
    assert (forall j, order_slot s !! v = Some (Some j) -> order s !! j = Some v) as G by (intros; by apply (heap_order s H)).
    apply (heap_order s H) in Ha as Hx. apply (heap_order s H) in Hb as Hy.
    rewrite !list_lookup_insert_Some, !length_insert. split.
    - intros [(<- & -> & _)|(Nb & [(<- & -> & _)|(Na & E)])].
      + left. auto.
      + right. split; [done|]. left. auto.
      + apply F in E as E'. right. split; [intros ->; congruence|]. right. split; [intros ->; congruence|done].
    - intros [(<- & [= <-] & _)|(Nx & [(<- & [= <-] & _)|(Ny & E)])].
      + left. auto.
      + right. split; [done|]. left. auto.
      + apply G in E as E'. right. split; [intros ->; congruence|]. right. split; [intros ->; congruence|done]. }
  split; [done|]. split; [|split].
  - split; cbn; rewrite ?length_insert; apply H || done.
  - intros v. unfold queued. cbn. setoid_rewrite <- Hbij. setoid_rewrite <- (heap_order s H).
    pose proof (swap_perm (order s) a b x y Ha Hb) as Hp.
    setoid_rewrite <- list_elem_of_lookup. by rewrite Hp.
  - cbn. by rewrite !length_insert.
Qed.

(** ** Sifting *)
Lemma sift_up_loop_spec fuel slot s : heap_ok s -> slot < length (order s) -> slot < fuel ->
  exists s', sift_up_loop fuel slot s = Some s' /\ heap_step s s'.
Proof.
  revert slot s; induction fuel as [|fuel IH]; intros slot s H Hs Hf; [lia|].
  cbn [sift_up_loop]. destruct (Nat.eqb_spec slot 0) as [->|Hne].
  { eexists. split; [done|]. by apply heap_step_refl. }
  assert ((slot - 1) / 2 < slot) as Hp by (apply Nat.Div0.div_lt_upper_bound; lia).
  assert ((slot - 1) / 2 < length (order s)) as Hp' by lia.
  apply lookup_lt_is_Some in Hs as [x Hx]. apply lookup_lt_is_Some in Hp' as [y Hy].
  rewrite Hx, Hy. cbn [mbind option_bind].
  destruct (ahead_total s x y H) as [a Ha]; [by eapply heap_var..|].
  rewrite Ha. cbn [mbind option_bind]. destruct a; cbn [negb].
  2:{ eexists. split; [done|]. by apply heap_step_refl. }
  destruct (swap_slots_spec s slot ((slot - 1) / 2) x y H Hx Hy ltac:(lia)) as (s1 & E1 & S1 & _).
  rewrite E1. cbn [mbind option_bind].
  destruct (IH ((slot - 1) / 2) s1) as (s2 & E2 & S2); [apply S1| |lia|].
  { destruct S1 as (_ & _ & _ & ->). by eapply lookup_lt_Some. }
  exists s2. split; [done|]. by eapply heap_step_trans.
Qed.

Lemma sift_up_spec slot s : heap_ok s -> slot < length (order s) ->
  exists s', sift_up slot s = Some s' /\ heap_step s s'.
Proof. intros. apply sift_up_loop_spec; [done..|lia]. Qed.

Lemma sift_child_spec s child first : heap_ok s -> first < length (order s) ->
  exists r, sift_child s child first = Some r /\ (r = first \/ (r = child /\ child < length (order s))).
Proof.
  intros H Hf. unfold sift_child. destruct (Nat.ltb_spec child (length (order s))) as [Hc|Hc]; [|eauto].
  apply lookup_lt_is_Some in Hf as [y Hy]. apply lookup_lt_is_Some in Hc as Hc'. destruct Hc' as [x Hx].
  rewrite Hx, Hy. cbn [mbind option_bind].
  destruct (ahead_total s x y H) as [a Ha]; [by eapply heap_var..|].
  rewrite Ha. cbn [mbind option_bind]. destruct a; eauto.
Qed.

Lemma sift_down_loop_spec fuel slot s : heap_ok s -> slot < length (order s) ->
  length (order s) - slot < fuel ->
  exists s', sift_down_loop fuel slot s = Some s' /\ heap_step s s'.
Proof.
  revert slot s; induction fuel as [|fuel IH]; intros slot s H Hs Hf; [lia|].
  cbn [sift_down_loop].
  destruct (sift_child_spec s (2 * slot + 1) slot H Hs) as (r1 & E1 & H1). rewrite E1. cbn [mbind option_bind].
  destruct (sift_child_spec s (2 * slot + 2) r1 H) as (r2 & E2 & H2); [lia|]. rewrite E2. cbn [mbind option_bind].
  destruct (Nat.eqb_spec r2 slot) as [->|Hne].
  { eexists. split; [done|]. by apply heap_step_refl. }
  assert (slot < r2 < length (order s)) as [Hr Hr'] by lia.
  apply lookup_lt_is_Some in Hs as [x Hx]. apply lookup_lt_is_Some in Hr' as [y Hy].
  destruct (swap_slots_spec s slot r2 x y H Hx Hy ltac:(lia)) as (s1 & E3 & S1 & _).
  rewrite E3. cbn [mbind option_bind]. apply lookup_lt_Some in Hy.
  assert (length (order s1) = length (order s)) as L1 by apply S1.
  destruct (IH r2 s1) as (s2 & E4 & S2); [apply S1|lia|lia|].
  exists s2. split; [done|]. by eapply heap_step_trans.
Qed.

Lemma sift_down_spec slot s : heap_ok s -> slot < length (order s) ->
  exists s', sift_down slot s = Some s' /\ heap_step s s'.
Proof. intros. apply sift_down_loop_spec; [done..|lia]. Qed.

Lemma sift_down_all_spec n s : heap_ok s -> n <= length (order s) ->
  exists s', sift_down_all n s = Some s' /\ heap_step s s'.
Proof.
  revert s; induction n as [|n IH]; intros s H Hn; cbn [sift_down_all].
  { eexists. split; [done|]. by apply heap_step_refl. }
  destruct (sift_down_spec n s H ltac:(lia)) as (s1 & E1 & S1). rewrite E1. cbn [mbind option_bind].
  destruct (IH s1) as (s2 & E2 & S2); [apply S1|destruct S1 as (_ & _ & _ & ->); lia|].
  exists s2. split; [done|]. by eapply heap_step_trans.
Qed.

(** ** Queueing, unqueueing and bumping *)
Lemma queue_spec v s : heap_ok s -> v < num_vars s ->
  exists s', queue v s = Some s' /\ same_core s s' /\ heap_ok s' /\
    (forall u, queued s' u <-> u = v \/ queued s u).
Proof.
  intros H Hv. unfold queue. rewrite <- (heap_slots s H) in Hv.
  apply lookup_lt_is_Some in Hv as Hv'. destruct Hv' as [o Ho]. rewrite Ho. cbn [mbind option_bind].
  destruct o as [i|].
  { exists s. split; [done|]. split; [done|]. split; [done|]. intros u.
    split; [tauto|]. intros [->|?]; [by exists i|done]. }
  rewrite vset_Some by done. cbn [mbind option_bind].
  set (s1 := set_order _ _).
  assert (heap_ok s1) as H1.
  { split; cbn; rewrite ?length_insert; try apply H. intros i u.
    rewrite lookup_app_Some, list_lookup_insert_Some, list_lookup_singleton_Some. split.
    - intros [E|(Hl & E & <-)].
      + right. split; [intros <-; apply (heap_order s H) in E; congruence|]. by apply (heap_order s H).
      + left. split; [done|]. split; [do 2 f_equal; lia|done].
    - intros [(<- & [= <-] & _)|(Hne & E)].
      + right. split; [lia|]. split; [lia|done].
      + left. by apply (heap_order s H). }
  destruct (sift_up_spec (length (order s1) - 1) s1 H1) as (s2 & E2 & S2).
  { cbn. rewrite length_app. cbn. lia. }
  exists s2. split; [done|]. destruct S2 as (C2 & H2 & Q2 & _). split; [done|]. split; [done|].
  intros u. rewrite Q2. unfold queued. cbn. setoid_rewrite list_lookup_insert_Some. split.
  - intros (i & [(<- & _)|(? & ?)]); eauto.
  - intros [->|(i & Hi)]; [exists (length (order s)); left; done|].
    destruct (decide (v = u)) as [->|]; [congruence|]. exists i. auto.
Qed.

Lemma swap_remove_0_spec (top : nat) rest :
  exists l, swap_remove_0 (top :: rest) = Some (top, l) /\ length l = length rest /\
    forall i v, l !! i = Some v <->
      (i = 0 /\ rest !! (length rest - 1) = Some v) \/ (0 < i < length rest /\ (top :: rest) !! i = Some v).
Proof.
  destruct (snoc_cases rest) as [->|(r & x & ->)].
  { exists []. split; [done|]. split; [done|]. intros i v. cbn. rewrite !lookup_nil. intuition (try discriminate; lia). }
  exists (x :: r). cbn [swap_remove_0]. rewrite last_of_snoc, removelast_last, length_app. cbn [length].
  split; [done|]. split; [lia|]. intros [|i] v.
  - change ((x :: r) !! 0) with (Some x). replace (length r + 1 - 1) with (length r) by lia. rewrite list_lookup_middle by done.
    intuition lia.
  - change ((x :: r) !! S i) with (r !! i). change ((top :: r ++ [x]) !! S i) with ((r ++ [x]) !! i).
    split.
    + intros E. right. pose proof (lookup_lt_Some _ _ _ E). split; [lia|]. by rewrite lookup_app_l.
    + intros [[? _]|[? E]]; [lia|]. rewrite lookup_app_l in E by lia. done.
Qed.

Lemma unqueue_top_spec s top rest : heap_ok s -> order s = top :: rest ->
  exists s', unqueue_top s = Some s' /\ same_core s s' /\ heap_ok s' /\ top < num_vars s /\
    (forall u, queued s' u <-> u <> top /\ queued s u) /\ length (order s') = length rest.
Proof.
  intros H Ho. assert (order s !! 0 = Some top) as Htop by (by rewrite Ho).
  pose proof (heap_var s 0 top H Htop) as Lt.
  unfold unqueue_top. rewrite Ho.
  destruct (swap_remove_0_spec top rest) as (l & -> & Hlen & Hl). cbn [mbind option_bind].
  rewrite vset_Some by (by rewrite (heap_slots s H)). cbn [mbind option_bind order set_order_slot set_order].
  assert (forall i v, order s !! i = Some v -> order_slot s !! v = Some (Some i)) as F by (intros; by apply (heap_order s H)).
  assert (forall i v, order_slot s !! v = Some (Some i) -> order s !! i = Some v) as G by (intros; by apply (heap_order s H)).
  apply F in Htop as Ft.
  destruct l as [|moved l'].
  { destruct rest; [|done]. eexists. split; [done|]. split; [done|].
    assert (forall u i, <[top:=None]> (order_slot s) !! u = Some (Some i) -> False) as Hno.
    { intros u i. rewrite list_lookup_insert_Some. intros [(_ & ? & _)|(Hne & E)]; [done|].
      apply G in E. rewrite Ho in E. destruct i; [by injection E|done]. }
    split; [|split; [done|split; [|done]]].
    - split; cbn; rewrite ?length_insert; try apply H.
      intros i v. rewrite lookup_nil. split; [done|]. intros E. by apply Hno in E.
    - intros u. unfold queued. cbn. split; [intros (i & E); by apply Hno in E|].
      intros (Hne & i & E). exists i. rewrite list_lookup_insert_ne by done. done. }
  assert (moved < num_vars s) as Lm.
  { assert ((moved :: l') !! 0 = Some moved) as E by done. apply Hl in E as [[_ E]|[E _]]; [|lia].
    apply (heap_var s (S (length rest - 1)) moved H). by rewrite Ho. }
  cbn [order_slot set_order_slot set_order].
  rewrite vset_Some by (rewrite length_insert, (heap_slots s H); done). cbn [mbind option_bind].
  set (s1 := set_order_slot _ _).
  assert (rest !! (length rest - 1) = Some moved) as Hm.
  { assert ((moved :: l') !! 0 = Some moved) as E by done. apply Hl in E as [[_ E]|[E _]]; [done|lia]. }
  assert (order_slot s !! moved = Some (Some (length rest))) as Fm.
  { apply F. rewrite Ho. cbn in Hlen. destruct rest; [done|]. cbn in Hm |- *. by rewrite Nat.sub_0_r in Hm. }
  assert (moved <> top) as Hmt by (intros ->; rewrite Ft in Fm; destruct rest; naive_solver).
  assert (heap_ok s1) as H1.
  { split; cbn [s1 activity order order_slot set_order set_order_slot num_vars assign]; rewrite ?length_insert; try apply H.
    intros i v. rewrite Hl, <- Ho, !list_lookup_insert_Some. split.
    - intros [(-> & E)|(Hi & E)].
      + replace v with moved by congruence. left. split; [done|]. split; [done|].
        rewrite length_insert, (heap_slots s H). done.
      + apply F in E. right. split; [intros ->; rewrite Fm in E; injection E; lia|].
        right. split; [intros ->; rewrite Ft in E; injection E; lia|done].
    - intros [(<- & [= <-] & _)|(N1 & [(_ & ? & _)|(N2 & E)])]; [by left| done |].
      apply G in E as E'. right. split; [|done].
      split; [destruct i; [|lia]; congruence|].
      apply lookup_lt_Some in E' as L. rewrite Ho in L. cbn in L.
      destruct (decide (i = length rest)) as [->|]; [|lia].
      apply G in Fm. congruence. }
  destruct (sift_down_spec 0 s1 H1) as (s2 & E2 & C2 & H2 & Q2 & L2).
  { cbn. lia. }
  exists s2. split; [done|]. split; [done|]. split; [done|]. split; [done|]. split.
  - intros u. rewrite Q2. unfold queued. cbn. setoid_rewrite list_lookup_insert_Some.
    setoid_rewrite list_lookup_insert_Some. split.
    + intros (i & [(<- & [= <-] & _)|(N1 & [(_ & ? & _)|(N2 & E)])]); [split; [done|by eexists]|done|].
      split; [done|eauto].
    + intros (Hne & i & E). destruct (decide (moved = u)) as [<-|]; [|exists i; by auto].
      exists 0. left. split; [done|]. split; [done|]. by rewrite length_insert, (heap_slots s H).
  - rewrite L2. done.
Qed.

Lemma bump_spec v s : heap_ok s -> v < num_vars s ->
  exists s', bump v s = Some s' /\ heap_step s s'.
Proof.
  intros H Hv. unfold bump. pose proof Hv as Hv'. rewrite <- (heap_activity s H) in Hv.
  apply lookup_lt_is_Some in Hv as Hv''. destruct Hv'' as [a Ea]. rewrite Ea. cbn [mbind option_bind].
  rewrite vset_Some by done. cbn [mbind option_bind].
  set (s1 := set_activity _ s).
  assert (heap_step s s1) as S1.
  { repeat split; cbn; rewrite ?length_insert; try apply H; done. }
  match goal with |- context [if f64_gt ?x ?y then ?t else ?e] => set (scaled := if f64_gt x y then t else e) end.
  assert (exists s2, scaled = Some s2 /\ heap_step s s2) as (s2 & E2 & S2).
  { subst scaled. destruct (f64_gt _ _); [|by exists s1].
    set (s1' := set_var_inc _ _).
    assert (heap_step s s1') as S1'.
    { repeat split; cbn; rewrite ?length_map, ?length_insert; try apply H; done. }
    destruct (sift_down_all_spec (length (order s1') / 2) s1') as (s2 & E2 & S2); [apply S1'| |].
    { apply Nat.Div0.div_le_upper_bound; lia. }
    exists s2. split; [done|]. by apply (heap_step_trans s s1' s2). }
  rewrite E2. cbn [mbind option_bind].
  destruct S2 as (C2 & H2 & Q2 & L2).
  assert (v < length (order_slot s2)) as Hv2.
  { rewrite (heap_slots s2 H2). unfold num_vars in *. by rewrite (same_assign _ _ C2). }
  apply lookup_lt_is_Some in Hv2 as [o Ho]. rewrite Ho. cbn [mbind option_bind].
  destruct o as [i|]; [|by exists s2].
  destruct (sift_up_spec i s2 H2) as (s3 & E3 & S3).
  { apply (heap_order s2 H2) in Ho. by eapply lookup_lt_Some. }
  exists s3. split; [done|]. by apply (heap_step_trans s s2 s3).
Qed.

(** ** The invariant of the SAT solver

    The trail, its levels and reasons, the two watched literals of every
    clause, the set of assignments the state still admits: what holds of a
    [Solver] between the operations of [SatSolver]. *)
(** ** Decision levels: the level of a trail position *)
Definition sorted (lims : list nat) : Prop :=
  forall i j x y, i <= j -> lims !! i = Some x -> lims !! j = Some y -> x <= y.

(** The number of decisions at or before position [i]. *)
Fixpoint plevel (lims : list nat) (i : nat) : nat :=
  match lims with
  | [] => 0
  | x :: lims => if x <=? i then S (plevel lims i) else 0
  end.

Lemma sorted_cons x lims : sorted (x :: lims) -> sorted lims.
Proof. intros H i j y z Hij Hi Hj. apply (H (S i) (S j) y z); [lia|done..]. Qed.

Lemma plevel_le lims i : plevel lims i <= length lims.
Proof. induction lims as [|x lims IH]; cbn; [lia|]. destruct (x <=? i); lia. Qed.

Lemma plevel_mono lims i j : i <= j -> plevel lims i <= plevel lims j.
Proof.
  intros Hij. induction lims as [|x lims IH]; cbn; [lia|].
  destruct (Nat.leb_spec x i), (Nat.leb_spec x j); lia.
Qed.

Lemma plevel_lt lims k x i : sorted lims -> lims !! k = Some x -> (i < x <-> plevel lims i <= k).
Proof.
  revert k x; induction lims as [|y lims IH]; intros k x Hs Hk; [done|]. cbn [plevel].
  destruct k as [|k]; cbn in Hk.
  - injection Hk as ->. destruct (Nat.leb_spec x i); lia.
  - specialize (IH k x (sorted_cons _ _ Hs) Hk). pose proof (Hs 0 (S k) y x ltac:(lia) eq_refl Hk).
    destruct (Nat.leb_spec y i); lia.
Qed.

(** A position at or after every limit is of the current level. *)
Lemma plevel_top lims i : (forall x, x ∈ lims -> x <= i) -> plevel lims i = length lims.
Proof.
  induction lims as [|x lims IH]; intros H; cbn; [done|].
  rewrite (proj2 (Nat.leb_le _ _)) by (apply H; constructor).
  f_equal. apply IH. intros y Hy. apply H. by constructor.
Qed.

Lemma plevel_full lims i x : sorted lims -> plevel lims i = length lims -> x ∈ lims -> x <= i.
Proof.
  intros Hs E Hx. apply list_elem_of_lookup in Hx as [k Hk].
  pose proof (plevel_lt lims k x i Hs Hk). apply lookup_lt_Some in Hk. lia.
Qed.

Lemma plevel_snoc lims x i : sorted (lims ++ [x]) -> i < x -> plevel (lims ++ [x]) i = plevel lims i.
Proof.
  induction lims as [|y lims IH]; intros Hs Hi; cbn.
  - destruct (Nat.leb_spec x i); lia.
  - rewrite IH; [done| |done]. by eapply sorted_cons.
Qed.

Lemma plevel_take lims k x i : sorted lims -> lims !! k = Some x -> i < x ->
  plevel (take k lims) i = plevel lims i.
Proof.
  revert k x; induction lims as [|y lims IH]; intros k x Hs Hk Hi; [done|].
  destruct k as [|k]; cbn in *.
  - injection Hk as ->. destruct (Nat.leb_spec x i); lia.
  - by rewrite (IH k x) by (first [by eapply sorted_cons | done]).
Qed.

(** ** The trail *)
Record trail_ok (s : Solver) : Prop := {
  tr_level_len : length (level s) = num_vars s;
  tr_reason_len : length (reason s) = num_vars s;
  tr_phase_len : length (phase s) = num_vars s;
  tr_nodup : NoDup (map lit_var (trail s));
  tr_assign : forall l, l ∈ trail s <-> assign s !! lit_var l = Some (Some (negb (is_negated l)));
  tr_level : forall i l, trail s !! i = Some l -> level s !! lit_var l = Some (plevel (trail_lim s) i);
  tr_sorted : sorted (trail_lim s);
  tr_lims : forall x, x ∈ trail_lim s -> x <= length (trail s);
}.

(** A literal that is neither a decision nor at level 0 was forced by a clause
    whose other literals were false before. *)
Record reason_ok (s : Solver) : Prop := {
  re_implied : forall i l, trail s !! i = Some l -> 0 < plevel (trail_lim s) i -> i ∉ trail_lim s ->
    exists c, reason s !! lit_var l = Some (Some c);
  re_clause : forall i l c, trail s !! i = Some l -> reason s !! lit_var l = Some (Some c) ->
    exists rest, clauses s !! c = Some (l :: rest) /\
      forall q, q ∈ rest -> exists j, j < i /\ trail s !! j = Some (negate q);
}.

Definition clause_ok (n : nat) (lits : list Lit) : Prop :=
  2 <= length lits /\ NoDup (map lit_var lits) /\ forall l, l ∈ lits -> lit_var l < n.
Definition clauses_ok (s : Solver) : Prop :=
  forall c lits, clauses s !! c = Some lits -> clause_ok (num_vars s) lits.

(** Every unassigned variable is queued. *)
Definition queue_ok (s : Solver) : Prop :=
  heap_ok s /\ forall v, assign s !! v = Some None -> queued s v.

Record base_ok (s : Solver) : Prop := {
  b_trail : trail_ok s;
  b_reason : reason_ok s;
  b_clauses : clauses_ok s;
  b_queue : queue_ok s;
}.

(** ** Watches: a clause is listed under its first two literals *)
Definition watch_ok (n : nat) (cs : list (list Lit)) (wt : list (list nat)) : Prop :=
  length wt = 2 * n /\
  forall l ws, wt !! l = Some ws -> NoDup ws /\
    forall c, c ∈ ws <-> exists lits, cs !! c = Some lits /\ l ∈ take 2 lits.

(** A watch falsified before position [q] has a true partner, of no higher level. *)
Definition partnered (s : Solver) (q : nat) (w w' : Lit) : Prop :=
  forall i, i < q -> trail s !! i = Some (negate w) ->
    exists j, trail s !! j = Some w' /\ plevel (trail_lim s) j <= plevel (trail_lim s) i.
Definition propagated (s : Solver) (q : nat) (lits : list Lit) : Prop :=
  match lits with
  | w0 :: w1 :: _ => partnered s q w0 w1 /\ partnered s q w1 w0
  | _ => True
  end.

(** ** The assignments a state admits: its clauses and its level 0 *)
Definition admits (s : Solver) (rho : valuation) : Prop :=
  (forall c lits, clauses s !! c = Some lits -> clause_true rho lits) /\
  (forall i l, trail s !! i = Some l -> plevel (trail_lim s) i = 0 -> lit_true rho l = true).

(** ** The invariant, with propagation complete before position [q] *)
Record inv (Phi : valuation -> Prop) (q : nat) (s : Solver) : Prop := {
  i_base : base_ok s;
  i_watch : watch_ok (num_vars s) (clauses s) (watches s);
  i_prop : forall c lits, clauses s !! c = Some lits -> propagated s q lits;
  i_lims : forall x, x ∈ trail_lim s -> x <= q;
  i_q : q <= length (trail s);
  i_sound : forall rho, Phi rho <-> admits s rho;
}.

Definition unseen (s : Solver) : Prop := seen s = replicate (num_vars s) false.

(** ** Literals on the trail *)
Section trail.
Context (s : Solver) (T : trail_ok s).

Lemma trail_var l : l ∈ trail s -> lit_var l < num_vars s.
Proof. intros H%(tr_assign s T). by eapply lookup_lt_Some. Qed.

Lemma trail_pos_inj i j l l' : trail s !! i = Some l -> trail s !! j = Some l' -> lit_var l = lit_var l' ->
  i = j.
Proof.
  intros Hi Hj E. apply (NoDup_lookup (map lit_var (trail s)) i j (lit_var l) (tr_nodup s T)).
  - by rewrite list_lookup_fmap, Hi.
  - by rewrite list_lookup_fmap, Hj, E.
Qed.

Lemma trail_consistent l : l ∈ trail s -> negate l ∈ trail s -> False.
Proof.
  intros H1%list_elem_of_lookup H2%list_elem_of_lookup. destruct H1 as [i Hi], H2 as [j Hj].
  assert (i = j) as -> by (eapply trail_pos_inj; [done..|by rewrite lit_var_negate]).
  rewrite Hi in Hj. injection Hj as E. by apply (negate_ne l).
Qed.

(** The value of a literal. *)
Lemma value_lit_spec l : lit_var l < num_vars s ->
  (value_lit s l = Some (Some true) /\ l ∈ trail s /\ negate l ∉ trail s) \/
  (value_lit s l = Some (Some false) /\ negate l ∈ trail s /\ l ∉ trail s) \/
  (value_lit s l = Some None /\ assign s !! lit_var l = Some None /\ l ∉ trail s /\ negate l ∉ trail s).
Proof.
  intros Hv. apply lookup_lt_is_Some in Hv as [a Ha].
  unfold value_lit. rewrite Ha. cbn [mbind option_bind fmap option_fmap option_map].
  pose proof (tr_assign s T l) as H1. pose proof (tr_assign s T (negate l)) as H2.
  rewrite lit_var_negate, Ha in H2. rewrite Ha in H1.
  lit_destruct l. rewrite negate_new, !is_negated_new, ?lit_var_new in *.
  destruct a as [[]|], b; cbn in *; intuition congruence.
Qed.

Lemma assigned_on_trail v b : assign s !! v = Some (Some b) -> lit_new v (negb b) ∈ trail s.
Proof.
  intros E. apply (tr_assign s T). rewrite lit_var_new, is_negated_new, negb_involutive. done.
Qed.

Lemma trail_length : length (trail s) <= num_vars s.
Proof.
  rewrite <- (length_map lit_var). rewrite <- (length_seq (num_vars s) 0).
  apply NoDup_incl_length; [apply NoDup_ListNoDup, T|].
  intros v Hv%list_elem_of_In. apply list_elem_of_fmap in Hv as (l & -> & Hl).
  apply in_seq. apply trail_var in Hl. lia.
Qed.
End trail.

(** [base_ok] does not depend on the watches, the queue head, the marks. *)
Definition base_of (s : Solver) : Solver :=
  set_watches [] (set_qhead 0 (set_unsat false (set_seen [] s))).

Lemma base_of_ok s : base_ok s <-> base_ok (base_of s).
Proof.
  split; intros [T R C [[H1 H2 H3] Q]]; (split; [by destruct T| by destruct R|exact C|split; [by split|exact Q]]).
Qed.

Lemma base_frame s s' : base_of s' = base_of s -> base_ok s -> base_ok s'.
Proof. intros E. by rewrite (base_of_ok s), (base_of_ok s'), E. Qed.
