(* ===== verification/SatProp.v ===== *)
(** * Unit propagation keeps the invariant of the SAT solver *)
From S2P Require Import Prelude SatSolver SatLits.
#[local] Open Scope nat_scope.

(** ** Assigning a literal *)
Definition assigned (l : Lit) (why : option nat) (s : Solver) : Solver :=
  set_trail (trail s ++ [l]) (set_reason (<[lit_var l := why]> (reason s))
    (set_level (<[lit_var l := decision_level s]> (level s))
      (set_assign (<[lit_var l := Some (negb (is_negated l))]> (assign s)) s))).

Lemma assigned_num_vars l why s : num_vars (assigned l why s) = num_vars s.
Proof. unfold num_vars. cbn. by rewrite length_insert. Qed.

Lemma assigned_lookup l why s i l' :
  trail (assigned l why s) !! i = Some l' <-> trail s !! i = Some l' \/ (i = length (trail s) /\ l' = l).
Proof.
  cbn. rewrite lookup_app_Some, list_lookup_singleton_Some. split.
  - intros [?|(? & ? & ->)]; [by left|]. right. split; [lia|done].
  - intros [?|[-> ->]]; [by left|]. right. split; [lia|]. split; [lia|done].
Qed.

Section assign.
Context (l : Lit) (why : option nat) (s : Solver) (T : trail_ok s).
Context (Hnone : assign s !! lit_var l = Some None).

Lemma unassigned_var : lit_var l < num_vars s.
Proof. by eapply lookup_lt_Some. Qed.

Lemma unassigned_off_trail l' : lit_var l' = lit_var l -> l' ∉ trail s.
Proof. intros E H%(tr_assign s T). rewrite E, Hnone in H. done. Qed.

Lemma enqueue_new : enqueue l why s = Some (true, assigned l why s).
Proof.
  unfold enqueue, value_lit. rewrite Hnone. cbn [mbind option_bind fmap option_fmap option_map].
  pose proof unassigned_var as Hv.
  rewrite (vset_Some (assign s)) by exact Hv. cbn [mbind option_bind].
  rewrite (vset_Some (level s)) by (by rewrite (tr_level_len s T)). cbn [mbind option_bind].
  by rewrite (vset_Some (reason s)) by (by rewrite (tr_reason_len s T)).
Qed.

Lemma assigned_trail_ok : trail_ok (assigned l why s).
Proof.
  pose proof unassigned_var as Hv. split.
  1-3: rewrite assigned_num_vars; cbn; rewrite ?length_insert; apply T.
  - cbn. rewrite map_app. apply list.NoDup_app. split; [apply T|]. split; [|apply NoDup_singleton].
    intros v Hv' E. apply list_elem_of_fmap in Hv' as (x & -> & Hx).
    apply list_elem_of_singleton in E. by apply (unassigned_off_trail x).
  - intros l'. cbn. rewrite elem_of_app, list_elem_of_singleton, list_lookup_insert_Some. split.
    + intros [H| ->]; [right|by left].
      split; [intros E; by apply (unassigned_off_trail l')|]. by apply (tr_assign s T).
    + intros [(E & [= Eb] & _)|[Hne E]]; [right|left; by apply (tr_assign s T)].
      symmetry in E. destruct (same_var _ _ E) as [->| ->]; [done|].
      lit_destruct l. rewrite negate_new, !is_negated_new in Eb. by destruct b.
  - intros i l' [H|[-> ->]]%assigned_lookup; cbn.
    + apply list_elem_of_lookup_2 in H as Hin. rewrite list_lookup_insert_ne; [by apply (tr_level s T)|].
      intros E. by apply (unassigned_off_trail l').
    + rewrite list_lookup_insert_eq by (by rewrite (tr_level_len s T)).
      f_equal. symmetry. apply plevel_top. apply T.
  - apply T.
  - cbn. intros x Hx%(tr_lims s T). rewrite length_app. lia.
Qed.

Lemma assigned_reason_ok : reason_ok s ->
  match why with
  | None => length (trail s) ∈ trail_lim s \/ trail_lim s = []
  | Some c => exists rest, clauses s !! c = Some (l :: rest) /\
      forall q, q ∈ rest -> negate q ∈ trail s
  end -> reason_ok (assigned l why s).
Proof.
  intros R Hwhy. pose proof unassigned_var as Hv. split.
  - intros i l' [H|[-> ->]]%assigned_lookup Hp Hi; cbn in *.
    + apply list_elem_of_lookup_2 in H as Hin. rewrite list_lookup_insert_ne.
      * by apply (re_implied s R i).
      * intros E. by apply (unassigned_off_trail l').
    + rewrite list_lookup_insert_eq by (by rewrite (tr_reason_len s T)).
      destruct why as [c|]; [by exists c|]. exfalso. destruct Hwhy as [?|E]; [done|]. rewrite E in Hp. cbn in Hp. lia.
  - intros i l' c Hl' Hr. apply assigned_lookup in Hl'. cbn in Hr.
    apply list_lookup_insert_Some in Hr as [(E & -> & _)|[Hne Hr]].
    + destruct Hl' as [H|[-> ->]].
      { exfalso. by apply (unassigned_off_trail l'); [|eapply list_elem_of_lookup_2]. }
      destruct Hwhy as (rest & Hc & Hrest). exists rest. split; [done|].
      intros q Hq%Hrest. apply list_elem_of_lookup in Hq as [j Hj]. exists j.
      split; [by eapply lookup_lt_Some|]. apply assigned_lookup. by left.
    + destruct Hl' as [H|[-> ->]]; [|done].
      destruct (re_clause s R i l' c H Hr) as (rest & Hc & Hrest). exists rest. split; [done|].
      intros q (j & Hj & Hq)%Hrest. exists j. split; [done|]. apply assigned_lookup. by left.
Qed.

Lemma assigned_queue_ok : queue_ok s -> queue_ok (assigned l why s).
Proof.
  intros [H Q]. split.
  - split; [rewrite assigned_num_vars; apply H..|]. apply H.
  - cbn. intros v E. apply list_lookup_insert_Some in E as [(_ & ? & _)|[_ E]]; [done|]. by apply Q.
Qed.

Lemma assigned_propagated q lits : q <= length (trail s) ->
  propagated s q lits -> propagated (assigned l why s) q lits.
Proof.
  intros Hq. destruct lits as [|w0 [|w1 lits]]; [done..|].
  assert (forall w w', partnered s q w w' -> partnered (assigned l why s) q w w') as Hw; [|intros []; split; auto].
  intros w w' Hp i Hi [H|[-> _]]%assigned_lookup; [|lia].
  destruct (Hp i Hi H) as (j & Hj & Hle). exists j. split; [|done]. apply assigned_lookup. by left.
Qed.

(** Above level 0 the admitted assignments stay; at level 0 the literal is
    one more condition. *)
Lemma assigned_admits rho : admits (assigned l why s) rho <->
  admits s rho /\ (trail_lim s = [] -> lit_true rho l = true).
Proof.
  unfold admits. cbn [clauses assigned set_trail set_reason set_level set_assign trail_lim].
  setoid_rewrite assigned_lookup. split.
  - intros [Hc Ht]. split; [split; [done|]; intros; eapply Ht; eauto|].
    intros E. apply (Ht (length (trail s))); [by right|]. by rewrite E.
  - intros [[Hc Ht] Hl]. split; [done|]. intros i l' [H|[-> ->]] E; [by eapply Ht|].
    apply Hl. rewrite plevel_top in E by apply T. by apply nil_length_inv.
Qed.
End assign.

Lemma assigned_base_ok l why s : base_ok s -> assign s !! lit_var l = Some None ->
  match why with
  | None => length (trail s) ∈ trail_lim s \/ trail_lim s = []
  | Some c => exists rest, clauses s !! c = Some (l :: rest) /\
      forall q, q ∈ rest -> negate q ∈ trail s
  end -> base_ok (assigned l why s).
Proof.
  intros [T R C Q] Hl Hwhy. split.
  - by apply assigned_trail_ok.
  - by apply assigned_reason_ok.
  - intros c lits Hc. rewrite assigned_num_vars. by apply (C c).
  - by apply assigned_queue_ok.
Qed.

(** ** Reordering the literals of a clause *)
Section permute.
Context (s : Solver) (c : nat) (lits lits' : list Lit).
Context (Hc : clauses s !! c = Some lits) (Hp : lits' ≡ₚ lits).
Let s' := set_clauses (<[c := lits']> (clauses s)) s.

Lemma permute_lookup c' l : clauses s' !! c' = Some l <->
  (c' = c /\ l = lits') \/ (c' <> c /\ clauses s !! c' = Some l).
Proof.
  cbn. rewrite list_lookup_insert_Some. split.
  - intros [(-> & -> & _)|[? ?]]; auto.
  - intros [[-> ->]|[? ?]]; [left|auto]. split; [done|]. split; [done|]. by eapply lookup_lt_Some.
Qed.

Lemma permute_admits rho : admits s' rho <-> admits s rho.
Proof.
  unfold admits. setoid_rewrite permute_lookup. split; intros [H1 H2]; (split; [|done]); intros c' l Hl.
  - destruct (decide (c' = c)) as [->|]; [|by eapply H1; eauto].
    replace l with lits by congruence. rewrite <- Hp. apply (H1 c). auto.
  - destruct Hl as [[-> ->]|[_ Hl]]; [rewrite Hp|]; by eapply H1.
Qed.

Lemma permute_base_ok : (forall l, head lits = Some l -> l ∈ trail s -> head lits' = Some l) ->
  base_ok s -> base_ok s'.
Proof.
  intros Hh [T [R1 R2] C Q]. split.
  - destruct T. by constructor.
  - split; [done|]. intros i l c' Hi Hr. destruct (R2 i l c' Hi Hr) as (rest & Hl & Hrest).
    setoid_rewrite permute_lookup. destruct (decide (c' = c)) as [->|]; [|by eauto].
    rewrite Hc in Hl. injection Hl as ->. specialize (Hh l eq_refl (list_elem_of_lookup_2 _ _ _ Hi)).
    destruct lits' as [|x rest']; [done|]. injection Hh as ->. exists rest'. split; [by left|].
    intros q Hq. apply Hrest. by rewrite <- (Permutation_cons_inv Hp).
  - intros c' l [[-> ->]|[_ Hl]]%permute_lookup; [|by eapply C].
    destruct (C c lits Hc) as (L1 & L2 & L3). split; [by rewrite Hp|]. split; [by rewrite Hp|].
    intros x Hx. apply L3. by rewrite <- Hp.
  - destruct Q as [[H1 H2 H3] H4]. split; [by constructor|exact H4].
Qed.
End permute.

Lemma take2_swap (a b : Lit) t l : l ∈ take 2 (a :: b :: t) <-> l ∈ take 2 (b :: a :: t).
Proof. cbn. set_solver. Qed.

(** The clause keeps its two watches. *)
Lemma watch_permute n cs wt c lits lits' : cs !! c = Some lits ->
  (forall l, l ∈ take 2 lits' <-> l ∈ take 2 lits) ->
  watch_ok n cs wt -> watch_ok n (<[c := lits']> cs) wt.
Proof.
  intros Hc Hw [Hlen H]. split; [done|]. intros l ws Hl. destruct (H l ws Hl) as [Hnd He]. split; [done|].
  intros c'. rewrite He. setoid_rewrite list_lookup_insert_Some. split.
  - intros (k & Hk & Hin). destruct (decide (c = c')) as [<-|]; [|eauto].
    exists lits'. split; [left; split; [done|]; split; [done|]; by eapply lookup_lt_Some|].
    apply Hw. by replace lits with k by congruence.
  - intros (k & [(<- & <- & _)|[Hne Hk]] & Hin); [|eauto]. exists lits. split; [done|]. by apply Hw.
Qed.

(** The clause moves from the list of [fl] to that of [nw]. *)
Lemma watch_move n cs wt c lits lits' fl nw nws ws r :
  cs !! c = Some lits -> wt !! nw = Some r -> fl < length wt ->
  (forall l, l ∈ take 2 lits' <-> (l ∈ take 2 lits /\ l <> fl) \/ l = nw) ->
  fl ∈ take 2 lits -> nw ∉ take 2 lits ->
  watch_ok n cs (<[fl := nws ++ c :: ws]> wt) ->
  watch_ok n (<[c := lits']> cs) (<[fl := nws ++ ws]> (<[nw := r ++ [c]]> wt)).
Proof.
  intros Hc Hr Hfl Hw Hin Hnin [Hlen H]. rewrite length_insert in Hlen. split; [by rewrite !length_insert|].
  assert (nw <> fl) as Hne by (intros ->; done).
  assert (forall l, (exists k, <[c := lits']> cs !! c = Some k /\ l ∈ take 2 k) <-> l ∈ take 2 lits') as Hself.
  { intros l. rewrite list_lookup_insert_eq by (by eapply lookup_lt_Some). naive_solver. }
  destruct (H fl (nws ++ c :: ws)) as [Hnd He].
  { by rewrite list_lookup_insert_eq. }
  intros l ks. rewrite !list_lookup_insert_Some, length_insert.
  intros [(<- & <- & _)|(Hl1 & [(<- & <- & _)|(Hl2 & Hl)])].
  - rewrite <- Permutation_middle in Hnd. apply list.NoDup_cons in Hnd as [Hcn Hnd]. split; [done|].
    intros c'. destruct (decide (c' = c)) as [->|Hcc].
    + rewrite Hself, Hw. naive_solver.
    + rewrite list_lookup_insert_ne by done. rewrite <- He. set_solver.
  - destruct (H nw r) as [Hnd' He']; [by rewrite list_lookup_insert_ne|]. split.
    + apply list.NoDup_app. split; [done|]. split; [|apply NoDup_singleton].
      intros x Hx Hxc. apply list_elem_of_singleton in Hxc as ->. apply He' in Hx as (k & Hk & Hk').
      apply Hnin. by replace lits with k by congruence.
    + intros c'. rewrite elem_of_app, list_elem_of_singleton.
      destruct (decide (c' = c)) as [->|Hcc]; [rewrite Hself, Hw; naive_solver|].
      rewrite list_lookup_insert_ne by done. rewrite <- He'. naive_solver.
  - destruct (H l ks) as [Hnd' He']; [by rewrite list_lookup_insert_ne|]. split; [done|]. intros c'.
    destruct (decide (c' = c)) as [->|Hcc]; [|by rewrite list_lookup_insert_ne].
    rewrite Hself, Hw, He', Hc. naive_solver.
Qed.

(** ** What propagation leaves alone *)
Definition clause_sets (s : Solver) : gset (gset nat) :=
  list_to_set ((fun lits => list_to_set lits : gset nat) <$> clauses s).

Record grows (s s' : Solver) : Prop := {
  g_vars : num_vars s' = num_vars s;
  g_lim : trail_lim s' = trail_lim s;
  g_qhead : qhead s' = qhead s;
  g_unsat : unsat s' = unsat s;
  g_seen : seen s' = seen s;
  g_trail : exists ext, trail s' = trail s ++ ext;
  g_sets : clause_sets s' = clause_sets s;
}.

Lemma grows_refl s : grows s s.
Proof. split; try done. exists []. by rewrite app_nil_r. Qed.

Lemma grows_trans s1 s2 s3 : grows s1 s2 -> grows s2 s3 -> grows s1 s3.
Proof.
  intros [A1 A2 A7 A3 A4 [e1 A5] A6] [B1 B2 B7 B3 B4 [e2 B5] B6]. split; try congruence.
  exists (e1 ++ e2). by rewrite B5, A5, app_assoc.
Qed.

Lemma permute_grows s c lits lits' : clauses s !! c = Some lits -> lits' ≡ₚ lits ->
  grows s (set_clauses (<[c := lits']> (clauses s)) s).
Proof.
  intros Hc Hp. split; try done; [exists []; by rewrite app_nil_r|].
  unfold clause_sets. cbn [clauses set_clauses]. rewrite list_fmap_insert. f_equal.
  apply list_insert_id. rewrite list_lookup_fmap, Hc. cbn. f_equal. symmetry. by apply list_to_set_perm_L.
Qed.

Lemma assigned_grows l why s : grows s (assigned l why s).
Proof. split; try done; [apply assigned_num_vars|]. by eexists. Qed.

Lemma grows_qhead k s s' : grows s s' -> grows (set_qhead k s) (set_qhead k s').
Proof. intros []. by split. Qed.

Lemma grows_watches ws s s' : grows s s' -> grows s (set_watches ws s').
Proof. intros []. by split. Qed.

(** ** The invariant inside the loop over a watch list *)

(** [fl], falsified at position [q], has had the clauses [nws] of its list
    kept and the clauses [ws] are still to be visited. *)
Record pinv (Phi : valuation -> Prop) (q : nat) (fl : Lit) (ws nws : list nat) (s : Solver) : Prop := {
  p_base : base_ok s;
  p_watch : watch_ok (num_vars s) (clauses s) (<[fl := nws ++ ws]> (watches s));
  p_taken : watches s !! fl = Some [];
  p_prop : forall c lits, clauses s !! c = Some lits ->
    propagated s q lits /\ (c ∉ ws -> propagated s (S q) lits);
  p_head : trail s !! q = Some (negate fl);
  p_lims : forall x, x ∈ trail_lim s -> x <= q;
  p_sound : forall rho, Phi rho <-> admits s rho;
}.

Lemma partnered_next s q w w' : partnered s q w w' -> trail s !! q <> Some (negate w) ->
  partnered s (S q) w w'.
Proof.
  intros H Hq i Hi E. destruct (decide (i = q)) as [->|]; [done|]. apply H; [lia|done].
Qed.

Lemma partnered_unfalsified s q w w' : negate w ∉ trail s -> partnered s q w w'.
Proof. intros H i _ E. exfalso. apply H. by eapply list_elem_of_lookup_2. Qed.

Lemma partnered_head s q w w' : trail_ok s -> (forall x, x ∈ trail_lim s -> x <= q) ->
  trail s !! q = Some (negate w) -> w' ∈ trail s -> partnered s (S q) w w'.
Proof.
  intros T Hl Hq Hw i Hi E. apply list_elem_of_lookup in Hw as [j Hj]. exists j. split; [done|].
  replace i with q by (eapply trail_pos_inj; done).
  rewrite (plevel_top _ q) by done. apply plevel_le.
Qed.

Section visit.
Context (Phi : valuation -> Prop) (q : nat) (fl : Lit).

(** The clause about to be visited. *)
Lemma p_clause c ws nws s : pinv Phi q fl (c :: ws) nws s ->
  exists a b t, clauses s !! c = Some (a :: b :: t) /\ (a = fl \/ b = fl) /\ a <> b /\
    clause_ok (num_vars s) (a :: b :: t).
Proof.
  intros P. destruct (p_watch _ _ _ _ _ _ P) as [Hlen Hw].
  destruct (Hw fl (nws ++ c :: ws)) as [_ Hin].
  { apply list_lookup_insert_eq. eapply lookup_lt_Some, P. }
  destruct (proj1 (Hin c)) as (lits & Hc & Hfl); [set_solver|].
  pose proof (b_clauses _ (p_base _ _ _ _ _ _ P) c lits Hc) as Hok.
  destruct lits as [|a [|b t]]; [destruct Hok as [Hok _]; cbn in Hok; lia..|].
  exists a, b, t. split; [done|]. split; [cbn in Hfl; set_solver|]. split; [|done].
  destruct Hok as (_ & Hnd & _). intros ->. cbn in Hnd.
  apply list.NoDup_cons in Hnd as [Hnd _]. apply Hnd. constructor.
Qed.

Lemma p_permute ws nws s c lits lits' : pinv Phi q fl ws nws s ->
  clauses s !! c = Some lits -> lits' ≡ₚ lits -> (forall l, l ∈ take 2 lits' <-> l ∈ take 2 lits) ->
  (forall l, head lits = Some l -> l ∈ trail s -> head lits' = Some l) ->
  (forall k, propagated s k lits -> propagated s k lits') ->
  pinv Phi q fl ws nws (set_clauses (<[c := lits']> (clauses s)) s).
Proof.
  intros [P1 P2 P3 P4 P5 P6 P7] Hc Hp Hw Hh Hpr. split; try done.
  - by eapply permute_base_ok.
  - by eapply watch_permute.
  - intros c' l Hl. apply (permute_lookup s c lits lits' Hc) in Hl as [[-> ->]|[_ Hl]]; [|by apply P4|done].
    destruct (P4 c lits Hc) as [H1 H2]. split; [by apply Hpr|]. intros. by apply Hpr, H2.
  - intros rho. rewrite P7. symmetry. by eapply permute_admits.
Qed.

Lemma p_keep c ws nws s w0 t : pinv Phi q fl (c :: ws) nws s ->
  clauses s !! c = Some (w0 :: fl :: t) -> w0 ∈ trail s -> pinv Phi q fl ws (nws ++ [c]) s.
Proof.
  intros [P1 P2 P3 P4 P5 P6 P7] Hc Hw0. split; try done; [by rewrite <- app_assoc|].
  intros c' l Hl. destruct (P4 c' l Hl) as [H1 H2]. split; [done|]. intros Hn.
  destruct (decide (c' = c)) as [->|]; [|apply H2; set_solver].
  rewrite Hc in Hl. injection Hl as <-. split.
  - apply partnered_unfalsified. intros E. by apply (trail_consistent s (b_trail s P1) w0).
  - apply partnered_head; [apply P1|done..].
Qed.

Lemma p_assign ws nws s c w0 rest : pinv Phi q fl ws nws s ->
  clauses s !! c = Some (w0 :: rest) -> assign s !! lit_var w0 = Some None ->
  (forall l, l ∈ rest -> negate l ∈ trail s) -> pinv Phi q fl ws nws (assigned w0 (Some c) s).
Proof.
  intros [[T R C Q] P2 P3 P4 P5 P6 P7] Hc Hw0 Hrest.
  assert (S q <= length (trail s)) as Hq by (by eapply lookup_lt_Some).
  split.
  - apply assigned_base_ok; [by split|done|by exists rest].
  - by rewrite assigned_num_vars.
  - done.
  - intros c' l Hl. destruct (P4 c' l Hl) as [H1 H2].
    split; [apply assigned_propagated; [lia|done]|].
    intros Hn. apply assigned_propagated; [done|by apply H2].
  - apply assigned_lookup. by left.
  - done.
  - intros rho. rewrite assigned_admits, P7 by done. split; [|by intros []]. intros Ha. split; [done|]. intros E.
    destruct Ha as [Ha1 Ha2]. specialize (Ha1 c _ Hc). apply clause_true_cons in Ha1 as [?|(l & Hl & Ht)]; [done|].
    apply Hrest in Hl. apply list_elem_of_lookup in Hl as [i Hi].
    specialize (Ha2 i (negate l) Hi). rewrite lit_true_negate, Ht in Ha2. rewrite E in Ha2. by specialize (Ha2 eq_refl).
Qed.
End visit.

(** ** Looking for another watch *)
Lemma find_watch_spec s lits k : trail_ok s -> (forall l, l ∈ lits -> lit_var l < num_vars s) ->
  (find_watch s lits k = Some None /\ forall l, l ∈ lits -> negate l ∈ trail s) \/
  (exists j l, find_watch s lits k = Some (Some (k + j)) /\ lits !! j = Some l /\ negate l ∉ trail s).
Proof.
  intros T. revert k; induction lits as [|l lits IH]; intros k Hv; cbn [find_watch].
  { left. split; [done|]. intros l H. by apply not_elem_of_nil in H. }
  assert (forall d, lit_var l < num_vars s -> negate l ∉ trail s -> d = Some (Some k) ->
    exists j l', d = Some (Some (k + j)) /\ (l :: lits) !! j = Some l' /\ negate l' ∉ trail s) as Hfound.
  { intros d _ Hl ->. exists 0, l. by rewrite Nat.add_0_r. }
  assert (lit_var l < num_vars s) as Hl by (apply Hv; constructor).
  destruct (value_lit_spec s T l Hl) as [(E & H1 & H2)|[(E & H1 & H2)|(E & _ & H1 & H2)]];
    rewrite E; cbn [mbind option_bind]; [right; by apply Hfound| |right; by apply Hfound].
  destruct (IH (S k)) as [(E' & H)|(j & l' & E' & Hj & Hn)].
  - intros l' Hl'. apply Hv. by constructor.
  - left. split; [done|]. intros l' [->|Hl']%elem_of_cons; auto.
  - right. exists (S j), l'. by rewrite <- plus_n_Sm.
Qed.

Section visit_clause.
Context (Phi : valuation -> Prop) (q : nat) (fl : Lit).

(** The clause gets [nw] as its second watch. *)
Lemma p_move c ws nws s w0 t j nw r : pinv Phi q fl (c :: ws) nws s ->
  clauses s !! c = Some (w0 :: fl :: t) -> t !! j = Some nw -> negate nw ∉ trail s ->
  watches s !! nw = Some r ->
  pinv Phi q fl ws nws (set_watches (<[nw := r ++ [c]]> (watches s))
    (set_clauses (<[c := w0 :: nw :: <[j := fl]> t]> (clauses s)) s)).
Proof.
  intros [P1 P2 P3 P4 P5 P6 P7] Hc Hj Hnw Hr.
  pose proof (b_trail s P1) as T.
  destruct (b_clauses s P1 c _ Hc) as (_ & Hnd & _). cbn in Hnd.
  apply list.NoDup_cons in Hnd as [N1 Hnd]. apply list.NoDup_cons in Hnd as [N2 Hnd].
  assert (nw ∈ t) as Hin by (by eapply list_elem_of_lookup_2).
  assert (nw <> fl) as D1 by (intros ->; apply N2; by apply list_elem_of_fmap_2).
  assert (nw <> w0) as D2 by (intros ->; apply N1; constructor; by apply list_elem_of_fmap_2).
  assert (w0 <> fl) as D3 by (intros ->; apply N1; constructor).
  assert (w0 :: nw :: <[j := fl]> t ≡ₚ w0 :: fl :: t) as Hp.
  { constructor. exact (swap_perm (fl :: t) 0 (S j) fl nw eq_refl Hj). }
  assert (fl < length (watches s)) as Lfl by (by eapply lookup_lt_Some).
  pose proof (permute_base_ok s c _ _ Hc Hp) as HB.
  assert (forall k, propagated s k (w0 :: fl :: t) -> negate w0 ∉ trail s \/ q < k \/
    partnered s k w0 nw) as Hw0.
  { intros k [H _]. destruct (decide (k <= q)); [|right; left; lia]. right. right.
    intros i Hi E. destruct (H i Hi E) as (j' & Hj' & _). exfalso.
    apply (trail_consistent s T fl); by eapply list_elem_of_lookup_2. }
  assert (partnered s (S q) w0 nw) as Hw0'.
  { apply partnered_next; [|rewrite P5; intros [= E%negate_inj]; done].
    destruct (Hw0 q) as [H|[H|H]]; [by apply (P4 c)|by apply partnered_unfalsified|lia|done]. }
  split; try done.
  - eapply base_frame; [|by apply HB]. done.
  - cbn. apply (watch_move _ _ _ c (w0 :: fl :: t)); try done.
    + intros l. cbn. set_solver.
    + cbn. set_solver.
    + cbn. set_solver.
  - cbn. by rewrite list_lookup_insert_ne.
  - intros c' l Hl. apply (permute_lookup s c (w0 :: fl :: t)) in Hl as [[-> ->]|[Hne Hl]]; [| |done|done].
    + assert (propagated s (S q) (w0 :: nw :: <[j := fl]> t)) as HS by (split; [done|by apply partnered_unfalsified]).
      split; [|intros; exact HS]. destruct HS as [H1 H2]. split; intros i Hi; [apply H1|apply H2]; lia.
    + destruct (P4 c' l Hl) as [H1 H2]. split; [exact H1|]. intros Hn. apply H2. set_solver.
  - intros rho. rewrite P7. symmetry. by apply (permute_admits s c (w0 :: fl :: t)).
Qed.

Lemma visit_clause_spec c ws nws s : pinv Phi q fl (c :: ws) nws s ->
  exists r s', visit_clause fl c s = Some (r, s') /\ grows s s' /\
    match r with
    | Keep => pinv Phi q fl ws (nws ++ [c]) s'
    | Moved => pinv Phi q fl ws nws s'
    | Conflict => pinv Phi q fl (c :: ws) nws s' /\ exists lits, clauses s' !! c = Some lits /\
        fl ∈ lits /\ forall l, l ∈ lits -> negate l ∈ trail s'
    end.
Proof.
  intros P. destruct (p_clause _ _ _ _ _ _ _ P) as (a & b & t & Hc & Hab & Hne & Hok).
  set (w0 := if a =? fl then b else a).
  assert (w0 <> fl) as D by (subst w0; destruct (Nat.eqb_spec a fl); naive_solver).
  assert ((if a =? fl then swap (a :: b :: t) 0 1 else Some (a :: b :: t)) = Some (w0 :: fl :: t)) as Eswap.
  { subst w0. destruct (Nat.eqb_spec a fl) as [->|]; [done|]. by destruct Hab as [|<-]. }
  assert (w0 :: fl :: t ≡ₚ a :: b :: t) as Hp.
  { subst w0. destruct (Nat.eqb_spec a fl) as [->|]; [constructor|]. by destruct Hab as [|<-]. }
  assert (negate fl ∈ trail s) as Hfl by (eapply list_elem_of_lookup_2, P).
  assert (pinv Phi q fl (c :: ws) nws (set_clauses (<[c := w0 :: fl :: t]> (clauses s)) s)) as P1.
  { apply (p_permute _ _ _ _ _ _ _ (a :: b :: t)); try done.
    - intros l. subst w0. destruct (Nat.eqb_spec a fl) as [->|]; [apply take2_swap|]. by destruct Hab as [|<-].
    - intros l [= <-] Ha. subst w0. destruct (Nat.eqb_spec a fl) as [->|]; [|done].
      exfalso. eapply trail_consistent; [apply P|done..].
    - intros k [H1 H2]. subst w0. destruct (Nat.eqb_spec a fl) as [->|]; [by split|]. destruct Hab as [|<-]; [done|by split]. }
  pose proof (permute_grows s c _ _ Hc Hp) as G1.
  unfold visit_clause. rewrite Hc. cbn [mbind option_bind lookup list_lookup]. rewrite Eswap.
  cbn [mbind option_bind]. rewrite vset_Some by (by eapply lookup_lt_Some). cbn [mbind option_bind].
  set (s1 := set_clauses _ s) in *.
  assert (clauses s1 !! c = Some (w0 :: fl :: t)) as Hc1.
  { cbn. apply list_lookup_insert_eq. by eapply lookup_lt_Some. }
  clearbody s1. clear P Hc Hok Hp Eswap Hfl. clearbody w0. clear Hab Hne a b.
  pose proof (b_trail _ (p_base _ _ _ _ _ _ P1)) as T.
  destruct (b_clauses _ (p_base _ _ _ _ _ _ P1) c _ Hc1) as (_ & _ & Hv).
  assert (negate fl ∈ trail s1) as Hfl by (eapply list_elem_of_lookup_2, P1).
  change ((w0 :: fl :: t) !! 0) with (Some w0). change (drop 2 (w0 :: fl :: t)) with t.
  cbn [mbind option_bind].
  assert (Hkeep : w0 ∈ trail s1 -> grows s s1 /\ pinv Phi q fl ws (nws ++ [c]) s1).
  { intros Hw. split; [done|]. by eapply p_keep. }
  destruct (find_watch_spec s1 t 2 T) as [(Ef & Hall)|(j & nw & Ef & Hj & Hnw)].
  { intros l Hl. apply Hv. by do 2 constructor. }
  - destruct (value_lit_spec s1 T w0) as [(E & H1 & H2)|[(E & H1 & H2)|(E & Hn & H1 & H2)]];
      [apply Hv; constructor|..]; rewrite E, ?Ef; cbn [mbind option_bind].
    + exists Keep, s1. split; [done|]. by apply Hkeep.
    + exists Conflict, s1. split; [done|]. split; [done|]. split; [done|].
      exists (w0 :: fl :: t). split; [done|]. split; [set_solver|].
      intros l [->|[->|Hl]%elem_of_cons]%elem_of_cons; auto.
    + rewrite enqueue_new by done. cbn [mbind option_bind].
      exists Keep, (assigned w0 (Some c) s1). split; [done|]. split; [eapply grows_trans; [done|apply assigned_grows]|].
      eapply p_keep; [|exact Hc1|apply elem_of_app; right; constructor].
      eapply p_assign; [done..|]. intros l [->|Hl]%elem_of_cons; auto.
  - assert (exists r, watches s1 !! nw = Some r) as [r Hr].
    { apply lookup_lt_is_Some. destruct (p_watch _ _ _ _ _ _ P1) as [Hlen _]. rewrite length_insert in Hlen.
      rewrite Hlen. apply lit_lt, Hv. do 2 constructor. by eapply list_elem_of_lookup_2. }
    pose proof (p_move c ws nws s1 w0 t j nw r P1 Hc1 Hj Hnw Hr) as P2.
    assert (swap (w0 :: fl :: t) 1 (2 + j) = Some (w0 :: nw :: <[j := fl]> t)) as Esw.
    { by rewrite (swap_Some _ 1 (2 + j) fl nw). }
    destruct (value_lit_spec s1 T w0) as [(E & H1 & H2)|E]; [apply Hv; constructor|rewrite E; exists Keep, s1; split; [done|]; by apply Hkeep|].
    assert (value_lit s1 w0 = Some (Some false) \/ value_lit s1 w0 = Some None) as E' by (destruct E as [[E _]|[E _]]; auto).
    exists Moved. eexists. split; [|split; [|exact P2]].
    + destruct E' as [-> | ->]; rewrite Ef; cbn [mbind option_bind]; rewrite Esw; cbn [mbind option_bind];
        (rewrite vset_Some by (by eapply lookup_lt_Some)); cbn [mbind option_bind];
        change ((w0 :: nw :: <[j := fl]> t) !! 1) with (Some nw); cbn [mbind option_bind];
        change (watches (set_clauses ?x s1)) with (watches s1); by rewrite (vpush_Some _ _ _ r).
    + eapply grows_trans; [exact G1|]. destruct (permute_grows s1 c (w0 :: fl :: t) (w0 :: nw :: <[j := fl]> t) Hc1) as [].
      { constructor. exact (swap_perm (fl :: t) 0 (S j) fl nw eq_refl Hj). }
      by split.
Qed.
End visit_clause.

(** ** The loops *)
Definition falsified (s : Solver) (c : nat) (l : Lit) : Prop :=
  exists lits, clauses s !! c = Some lits /\ l ∈ lits /\ forall l', l' ∈ lits -> negate l' ∈ trail s.

Lemma visit_watches_spec Phi q fl ws nws s : pinv Phi q fl ws nws s ->
  exists confl nws' s', visit_watches fl ws nws s = Some (confl, nws', s') /\ grows s s' /\
    match confl with
    | None => pinv Phi q fl [] nws' s'
    | Some c => (exists ws1 nws1, nws' = nws1 ++ ws1 /\ pinv Phi q fl ws1 nws1 s') /\ falsified s' c fl
    end.
Proof.
  revert nws s; induction ws as [|c ws IH]; intros nws s P; cbn [visit_watches].
  { exists None, nws, s. split; [done|]. split; [apply grows_refl|done]. }
  destruct (visit_clause_spec Phi q fl c ws nws s P) as ([] & s1 & E & G & P1); rewrite E; cbn [mbind option_bind].
  - destruct (IH _ _ P1) as (confl & nws' & s2 & E2 & G2 & P2). exists confl, nws', s2.
    split; [done|]. split; [by eapply grows_trans|done].
  - destruct (IH _ _ P1) as (confl & nws' & s2 & E2 & G2 & P2). exists confl, nws', s2.
    split; [done|]. split; [by eapply grows_trans|done].
  - destruct P1 as [P1 H]. eexists (Some c), _, s1. split; [done|]. split; [done|]. split; [|done].
    by exists (c :: ws), nws.
Qed.

(** Entering and leaving the loop over one watch list. *)
Lemma inv_pinv Phi q s p ws : inv Phi q s -> trail s !! q = Some p -> watches s !! negate p = Some ws ->
  pinv Phi q (negate p) ws [] (set_watches (<[negate p := []]> (watches s)) (set_qhead (S q) s)).
Proof.
  intros [B W P L Q S] Hp Hw. split; try done.
  - by apply (base_frame s).
  - cbn. rewrite list_insert_insert_eq, list_insert_id by done. done.
  - cbn. apply list_lookup_insert_eq. by eapply lookup_lt_Some.
  - intros c lits Hc. split; [by apply (P c)|]. intros Hn.
    assert (forall w, w ∈ take 2 lits -> w <> negate p) as Hne.
    { intros w Hin ->. apply Hn. apply (proj2 W (negate p) ws Hw). by exists lits. }
    specialize (P c lits Hc). destruct lits as [|a [|b t]]; [done..|]. destruct P as [P1 P2].
    assert (forall w w', w ∈ take 2 (a :: b :: t) -> partnered s q w w' -> partnered s (Datatypes.S q) w w') as Hnext.
    { intros w w' Hin H. apply partnered_next; [done|]. rewrite Hp. intros [= ->].
      apply (Hne w Hin). by rewrite negate_involutive. }
    split; apply Hnext; try done; cbn; set_solver.
  - cbn. by rewrite negate_involutive.
Qed.

Lemma pinv_inv Phi q fl ws nws s : pinv Phi q fl ws nws s ->
  inv Phi q (set_watches (<[fl := nws ++ ws]> (watches s)) s).
Proof.
  intros [B W T P H L S]. split; try done.
  - by apply (base_frame s).
  - intros c lits Hc. exact (proj1 (P c lits Hc)).
  - apply lookup_lt_Some in H. cbn. lia.
Qed.

Lemma pinv_inv_done Phi q fl nws s : pinv Phi q fl [] nws s ->
  inv Phi (S q) (set_watches (<[fl := nws]> (watches s)) s).
Proof.
  intros [B W T P H L S]. rewrite app_nil_r in W. split; try done.
  - by apply (base_frame s).
  - intros c lits Hc. apply (proj2 (P c lits Hc)). apply not_elem_of_nil.
  - intros x Hx%L. lia.
  - by apply lookup_lt_Some in H.
Qed.

Lemma propagate_lit_spec Phi q p s : inv Phi q s -> trail s !! q = Some p ->
  exists confl s', propagate_lit p (set_qhead (S q) s) = Some (confl, s') /\ grows (set_qhead (S q) s) s' /\
    match confl with
    | None => inv Phi (S q) s'
    | Some c => inv Phi q s' /\ falsified s' c (negate p)
    end.
Proof.
  intros I Hp. unfold propagate_lit. cbn [watches set_qhead].
  assert (negate p < length (watches s)) as Hlt.
  { destruct (i_watch _ _ _ I) as [-> _]. apply lit_lt. rewrite lit_var_negate.
    apply trail_var; [apply I|]. by eapply list_elem_of_lookup_2. }
  apply lookup_lt_is_Some in Hlt as Hws. destruct Hws as [ws Hws]. rewrite Hws. cbn [mbind option_bind].
  rewrite vset_Some by done. cbn [mbind option_bind].
  destruct (visit_watches_spec _ _ _ _ _ _ (inv_pinv _ _ _ _ _ I Hp Hws)) as (confl & nws & s1 & E & G & P).
  rewrite E. cbn [mbind option_bind].
  assert (negate p < length (watches s1)) as Hlt1.
  { destruct confl; [destruct P as [(?&?&?&P) _]|]; eapply lookup_lt_Some, P. }
  rewrite vset_Some by done. cbn [mbind option_bind].
  eexists confl, _. split; [done|]. split; [apply grows_watches; by destruct G|].
  destruct confl as [c|].
  - destruct P as [(ws1 & nws1 & -> & P) F]. split; [by apply pinv_inv|done].
  - by apply pinv_inv_done.
Qed.

Lemma inv_qhead Phi q k s : inv Phi q s -> inv Phi q (set_qhead k s).
Proof. intros [B W P L Q S]. split; try done. by apply (base_frame s). Qed.

(** What propagation returns: a state with every watch partnered, or a clause
    falsified by the trail up to position [q]. *)
Definition propagate_post (Phi : valuation -> Prop) (confl : option nat) (s : Solver) : Prop :=
  qhead s = length (trail s) /\
  match confl with
  | None => inv Phi (qhead s) s
  | Some c => exists q l, inv Phi q s /\ trail s !! q = Some (negate l) /\ falsified s c l
  end.

Lemma propagate_loop_spec Phi fuel s : inv Phi (qhead s) s -> num_vars s - qhead s < fuel ->
  exists confl s', propagate_loop fuel s = Some (confl, s') /\
    grows (set_qhead (qhead s') s) s' /\ propagate_post Phi confl s'.
Proof.
  revert s; induction fuel as [|fuel IH]; intros s I Hf; [lia|]. cbn [propagate_loop].
  destruct (Nat.ltb_spec (qhead s) (length (trail s))) as [Hlt|Hge].
  2:{ exists None, s. split; [done|]. split; [by destruct (grows_refl s); split|].
      split; [|done]. pose proof (i_q _ _ _ I). lia. }
  apply lookup_lt_is_Some in Hlt as Hp. destruct Hp as [p Hp]. rewrite Hp. cbn [mbind option_bind].
  destruct (propagate_lit_spec Phi (qhead s) p s I Hp) as (confl & s1 & E & G & P).
  rewrite E. cbn [mbind option_bind].
  assert (qhead s1 = S (qhead s)) as Hq by apply G.
  destruct confl as [c|].
  - destruct P as [P F]. eexists (Some c), _. split; [done|].
    split; [by apply (grows_qhead (length (trail s1))) in G|]. split; [done|].
    exists (qhead s), (negate p). split; [by apply inv_qhead|]. rewrite negate_involutive. split; [|done].
    destruct (g_trail _ _ G) as [ext Ht]. cbn [trail set_qhead] in Ht |- *. rewrite Ht. by apply lookup_app_l_Some.
  - destruct (IH s1) as (confl & s2 & E2 & G2 & P2).
    + by rewrite Hq.
    + rewrite Hq, (g_vars _ _ G). pose proof (trail_length s (b_trail _ (i_base _ _ _ I))).
      unfold num_vars in *. cbn [assign set_qhead]. lia.
    + exists confl, s2. split; [done|]. split; [|done].
      eapply grows_trans; [|exact G2]. by apply (grows_qhead (qhead s2)) in G.
Qed.

Lemma propagate_spec Phi s : inv Phi (qhead s) s ->
  exists confl s', propagate s = Some (confl, s') /\
    grows (set_qhead (qhead s') s) s' /\ propagate_post Phi confl s'.
Proof. intros I. apply propagate_loop_spec; [done|lia]. Qed.
