(* ===== verification/SatAnalyze.v ===== *)
(** * Conflict analysis learns an entailed, asserting clause *)
From S2P Require Import Prelude SatSolver SatLits SatProp.
#[local] Open Scope nat_scope.

Lemma heap_step_base s s' : heap_step s s' -> base_ok s -> base_ok s'.
Proof.
  intros (E & H & Q & _) [T R C [_ Qs]].
  assert (num_vars s' = num_vars s) as En by (unfold num_vars; by rewrite (same_assign _ _ E)).
  split.
  - destruct T. split; rewrite ?En; core_rewrite E; done.
  - destruct R. split; core_rewrite E; done.
  - unfold clauses_ok. rewrite En. core_rewrite E. done.
  - split; [done|]. intros v Hv. apply Q, Qs. by rewrite <- (same_assign _ _ E).
Qed.

Lemma next_seen_spec tr seen index j l : index <= length tr ->
  (forall i l, tr !! i = Some l -> lit_var l < length seen) ->
  tr !! j = Some l -> seen !! lit_var l = Some true -> j < index ->
  exists i l', next_seen tr seen index = Some i /\ i < index /\ tr !! i = Some l' /\
    seen !! lit_var l' = Some true /\
    forall k l'', i < k < index -> tr !! k = Some l'' -> seen !! lit_var l'' <> Some true.
Proof.
  intros Hlen Hr Hj Hl. induction index as [|index IH]; intros Hlt; [lia|]. cbn [next_seen].
  destruct (lookup_lt_is_Some_2 tr index) as [x Hx]; [lia|]. rewrite Hx. cbn [mbind option_bind].
  destruct (lookup_lt_is_Some_2 seen (lit_var x)) as [b Hb]; [by eapply Hr|]. rewrite Hb. cbn [mbind option_bind].
  destruct b.
  - exists index, x. split; [done|]. split; [lia|]. split; [done|]. split; [done|]. intros; lia.
  - destruct (decide (j = index)) as [->|]; [congruence|].
    destruct IH as (i & l' & E & H1 & H2 & H3 & H4); [lia|lia|].
    exists i, l'. split; [done|]. split; [lia|]. split; [done|]. split; [done|].
    intros k l'' Hk. destruct (decide (k = index)) as [->|]; [congruence|]. apply H4. lia.
Qed.

Lemma unmark_spec marked seen : (forall v, v ∈ marked -> v < length seen) ->
  exists seen', unmark marked seen = Some seen' /\ length seen' = length seen /\
    forall v, v < length seen -> seen' !! v = (if bool_decide (v ∈ marked) then Some false else seen !! v).
Proof.
  revert seen; induction marked as [|m marked IH]; intros seen Hr; cbn [unmark].
  { exists seen. split; [done|]. split; [done|]. intros v Hv. by rewrite bool_decide_eq_false_2 by apply not_elem_of_nil. }
  rewrite vset_Some by (apply Hr; constructor). cbn [mbind option_bind].
  destruct (IH (<[m := false]> seen)) as (seen' & E & L & H).
  { intros v Hv. rewrite length_insert. apply Hr. by constructor. }
  rewrite length_insert in *. exists seen'. split; [done|]. split; [done|].
  intros v Hv. rewrite H by done. destruct (decide (v = m)) as [->|Hne].
  - rewrite (bool_decide_eq_true_2 (m ∈ m :: marked)) by constructor.
    rewrite list_lookup_insert_eq by done. by destruct (bool_decide _).
  - rewrite list_lookup_insert_ne by done. rewrite (bool_decide_ext (v ∈ m :: marked) (v ∈ marked)); [done|]. rewrite elem_of_cons. tauto.
Qed.

(** ** Marking the literals of a clause *)
Section analyze.
Context (s0 : Solver) (B : base_ok s0).
Let T := b_trail s0 B.
Let d := length (trail_lim s0).
Let lev (i : nat) := plevel (trail_lim s0) i.

(** [P] holds the trail positions of the current level that are marked and
    still to be resolved; they lie below [bound]. *)
Record aok (P : list nat) (bound : nat) (a : analysis) : Prop := {
  a_len : length (a_seen a) = num_vars s0;
  a_nodup_P : NoDup P;
  a_cur : forall i, i ∈ P -> i < bound /\ lev i = d /\ i < length (trail s0);
  a_count : a_path a = length P;
  a_marks : forall v, a_seen a !! v = Some true <->
    (exists i l, i ∈ P /\ trail s0 !! i = Some l /\ lit_var l = v) \/ v ∈ map lit_var (a_learnt a);
  a_low : forall q, q ∈ a_learnt a -> exists j, trail s0 !! j = Some (negate q) /\ 0 < lev j < d;
  a_nodup : NoDup (map lit_var (a_learnt a));
  a_in_marked : forall v, a_seen a !! v = Some true -> v ∈ a_marked a;
  a_range : forall v, v ∈ a_marked a -> v < num_vars s0;
}.

(** A literal falsified on the trail is at level 0, pending, or learnt. *)
Definition covered (P : list nat) (learnt : list Lit) (q : Lit) : Prop :=
  exists j, trail s0 !! j = Some (negate q) /\ (lev j = 0 \/ j ∈ P \/ q ∈ learnt).

Lemma covered_mono P P' learnt learnt' q : P ⊆ P' -> learnt ⊆ learnt' ->
  covered P learnt q -> covered P' learnt' q.
Proof. intros HP Hl (j & Hj & H). exists j. split; [done|]. destruct H as [?|[?|?]]; auto. Qed.

(** A marked variable of the trail. *)
Lemma marked_covered P bound a q j : aok P bound a -> trail s0 !! j = Some (negate q) ->
  a_seen a !! lit_var q = Some true -> covered P (a_learnt a) q.
Proof.
  intros A Hj Hs. exists j. split; [done|]. apply (a_marks _ _ _ A) in Hs as [(i & l & Hi & Hl & Ev)|Hin].
  - right. left. replace j with i; [done|]. eapply trail_pos_inj; [done..|]. by rewrite lit_var_negate.
  - apply list_elem_of_fmap in Hin as (x & Ex & Hx). right. right.
    destruct (a_low _ _ _ A x Hx) as (k & Hk & _).
    assert (j = k) as -> by (eapply trail_pos_inj; [done..|]; by rewrite !lit_var_negate).
    rewrite Hj in Hk. injection Hk as E. apply negate_inj in E. by subst.
Qed.

(** Marking one more variable, of the current level or below. *)
Lemma mark_current P bound a q j : aok P bound a -> trail s0 !! j = Some (negate q) -> j < bound ->
  lev j = d -> a_seen a !! lit_var q <> Some true ->
  aok (j :: P) bound (mkAnalysis (<[lit_var q := true]> (a_seen a)) (a_marked a ++ [lit_var q])
    (a_learnt a) (S (a_path a))).
Proof.
  intros A Hj Hb Hd Hs. assert (lit_var q < num_vars s0) as Hv.
  { rewrite <- lit_var_negate. apply (trail_var s0 T). by eapply list_elem_of_lookup_2. }
  destruct A as [A1 A2 A3 A4 A5 A6 A7 A8 A9]. split; cbn.
  - by rewrite length_insert.
  - apply list.NoDup_cons. split; [|done]. intros Hin. apply Hs, A5. left.
    exists j, (negate q). by rewrite lit_var_negate.
  - intros i [->|Hi]%elem_of_cons; [|auto]. split; [done|]. split; [done|]. by eapply lookup_lt_Some.
  - by rewrite A4.
  - intros v. rewrite list_lookup_insert_Some, A5, A1. split.
    + intros [(<- & _)|(Hne & [(i & l & Hi & Hl & E)|Hin])]; [left| |by right].
      * exists j, (negate q). split; [constructor|]. by rewrite lit_var_negate.
      * left. exists i, l. split; [by constructor|done].
    + intros H. destruct (decide (lit_var q = v)) as [<-|Hne]; [by left|]. right. split; [done|].
      destruct H as [(i & l & [->|Hi]%elem_of_cons & Hl & E)|Hin]; [exfalso| |by right].
      * rewrite Hj in Hl. injection Hl as <-. by rewrite lit_var_negate in E.
      * left. by exists i, l.
  - done.
  - done.
  - intros v [(<- & _)|[_ H]]%list_lookup_insert_Some; [|apply A8 in H]; apply elem_of_app; [right; constructor|by left].
  - intros v [H| ->%list_elem_of_singleton]%elem_of_app; auto.
Qed.

Lemma mark_lower P bound a q j : aok P bound a -> trail s0 !! j = Some (negate q) ->
  0 < lev j < d -> a_seen a !! lit_var q <> Some true ->
  aok P bound (mkAnalysis (<[lit_var q := true]> (a_seen a)) (a_marked a ++ [lit_var q])
    (a_learnt a ++ [q]) (a_path a)).
Proof.
  intros A Hj Hd Hs. assert (lit_var q < num_vars s0) as Hv.
  { rewrite <- lit_var_negate. apply (trail_var s0 T). by eapply list_elem_of_lookup_2. }
  destruct A as [A1 A2 A3 A4 A5 A6 A7 A8 A9]. split; cbn; try done.
  - by rewrite length_insert.
  - intros v. rewrite list_lookup_insert_Some, A5, A1, map_app, elem_of_app.
    change (map lit_var [q]) with [lit_var q]. rewrite list_elem_of_singleton. split.
    + intros [(<- & _)|(Hne & [H|Hin])]; auto.
    + intros H. destruct (decide (lit_var q = v)) as [<-|Hne]; [by left|]. right. split; [done|].
      destruct H as [H|[H|H]]; auto. by symmetry in H.
  - intros x [H| ->%list_elem_of_singleton]%elem_of_app; eauto.
  - rewrite map_app. apply list.NoDup_app. split; [done|]. split; [|apply NoDup_singleton].
    intros v Hin ->%list_elem_of_singleton. apply Hs, A5. by right.
  - intros v [(<- & _)|[_ H]]%list_lookup_insert_Some; [|apply A8 in H]; apply elem_of_app; [right; constructor|by left].
  - intros v [H| ->%list_elem_of_singleton]%elem_of_app; auto.
Qed.

Lemma scan_clause_spec lits P bound a s : heap_step s0 s -> aok P bound a ->
  (forall q, q ∈ lits -> exists j, j < bound /\ trail s0 !! j = Some (negate q)) ->
  exists P' a' s', scan_clause lits a s = Some (a', s') /\ heap_step s0 s' /\ aok P' bound a' /\
    P ⊆ P' /\ a_learnt a ⊆ a_learnt a' /\ forall q, q ∈ lits -> covered P' (a_learnt a') q.
Proof.
  revert P a s; induction lits as [|q lits IH]; intros P a s S A Hq; cbn [scan_clause].
  { exists P, a, s. repeat (split; [done|]). intros q H. by apply not_elem_of_nil in H. }
  destruct (Hq q) as (j & Hjb & Hj); [constructor|].
  assert (lit_var q < num_vars s0) as Hv.
  { rewrite <- lit_var_negate. apply (trail_var s0 T). by eapply list_elem_of_lookup_2. }
  assert (forall x, x ∈ lits -> exists j, j < bound /\ trail s0 !! j = Some (negate x)) as Hq'.
  { intros x Hx. apply Hq. by constructor. }
  assert (forall P1 a1 s1, heap_step s0 s1 -> aok P1 bound a1 -> P ⊆ P1 -> a_learnt a ⊆ a_learnt a1 ->
    covered P1 (a_learnt a1) q -> exists P' a' s', scan_clause lits a1 s1 = Some (a', s') /\
      heap_step s0 s' /\ aok P' bound a' /\ P ⊆ P' /\ a_learnt a ⊆ a_learnt a' /\
      forall q', q' ∈ q :: lits -> covered P' (a_learnt a') q') as Hstep.
  { intros P1 a1 s1 S1 A1 H1 H2 H3. destruct (IH P1 a1 s1 S1 A1 Hq') as (P' & a' & s' & E & S' & A' & H4 & H5 & H6).
    exists P', a', s'. split; [done|]. split; [done|]. split; [done|]. split; [set_solver|]. split; [set_solver|].
    intros x [->|Hx]%elem_of_cons; [|auto]. by eapply covered_mono. }
  destruct (lookup_lt_is_Some_2 (a_seen a) (lit_var q)) as [b Hb]; [by rewrite (a_len _ _ _ A)|].
  rewrite Hb. cbn [mbind option_bind]. destruct b; cbn [negb].
  { apply (Hstep P); try done. by eapply marked_covered. }
  assert (level s !! lit_var q = Some (lev j)) as El.
  { rewrite (same_level _ _ (proj1 S)), <- lit_var_negate. by apply (tr_level s0 T). }
  rewrite El. cbn [mbind option_bind].
  destruct (Nat.ltb_spec 0 (lev j)) as [Hpos|Hz].
  2:{ apply (Hstep P); try done. exists j. split; [done|]. left. lia. }
  destruct (bump_spec (lit_var q) s) as (s1 & E1 & S1); [apply S|unfold num_vars; by rewrite (same_assign _ _ (proj1 S))|].
  rewrite E1. cbn [mbind option_bind]. pose proof (heap_step_trans _ _ _ S S1) as S01.
  rewrite vset_Some by (by rewrite (a_len _ _ _ A)). cbn [mbind option_bind].
  unfold decision_level. rewrite (same_trail_lim _ _ (proj1 S01)). fold d.
  pose proof (plevel_le (trail_lim s0) j) as Hle. fold d in Hle. fold (lev j) in Hle.
  destruct (Nat.leb_spec d (lev j)).
  - apply (Hstep (j :: P)); try done.
    + apply mark_current; [done..|lia|congruence].
    + set_solver.
    + exists j. split; [done|]. right. left. constructor.
  - apply (Hstep P); try done.
    + apply mark_lower with j; [done..|lia|congruence].
    + cbn. set_solver.
    + exists j. split; [done|]. right. right. cbn. set_solver.
Qed.

(** ** Resolving backwards along the trail *)

(** An admitted assignment that agrees with the pending literals makes a
    scanned or a learnt literal true. *)
Definition resolves (P : list nat) (rho : valuation) : Prop :=
  forall i l, i ∈ P -> trail s0 !! i = Some l -> lit_true rho l = true.

Lemma covered_learnt P learnt q rho : covered P learnt q -> admits s0 rho -> resolves P rho ->
  lit_true rho q = true -> clause_true rho learnt.
Proof.
  intros (j & Hj & H) [_ Hr] HP Hq. destruct H as [H|[H|H]]; [exfalso|exfalso|by exists q].
  - specialize (Hr j _ Hj H). by rewrite lit_true_negate, Hq in Hr.
  - specialize (HP j _ H Hj). by rewrite lit_true_negate, Hq in HP.
Qed.

(** Taking the last pending literal off. *)
Lemma unmark_last P bound a i l : aok P bound a -> i ∈ P -> trail s0 !! i = Some l ->
  (forall k, k ∈ P -> k <= i) ->
  exists P', P ≡ₚ i :: P' /\ aok P' i (mkAnalysis (<[lit_var l := false]> (a_seen a)) (a_marked a)
    (a_learnt a) (pred (a_path a))).
Proof.
  intros A Hi Hl Hmax. apply elem_of_Permutation in Hi as [P' HP]. exists P'. split; [done|].
  assert (lit_var l < num_vars s0) as Hv.
  { apply (trail_var s0 T). by eapply list_elem_of_lookup_2. }
  destruct A as [A1 A2 A3 A4 A5 A6 A7 A8 A9].
  rewrite HP in A2. apply list.NoDup_cons in A2 as [N1 N2]. split; cbn; try done.
  - by rewrite length_insert.
  - intros k Hk. destruct (A3 k) as (K1 & K2 & K3); [rewrite HP; by constructor|].
    split; [|done]. assert (k <= i) by (apply Hmax; rewrite HP; by constructor).
    destruct (decide (k = i)) as [->|]; [done|lia].
  - by rewrite A4, HP.
  - intros v. rewrite list_lookup_insert_Some, A5. split.
    + intros [(_ & ? & _)|(Hne & [(k & x & Hk & Hx & E)|Hin])]; [done| |by right].
      left. exists k, x. split; [|done]. rewrite HP in Hk. apply elem_of_cons in Hk as [->|Hk]; [|done].
      rewrite Hl in Hx. injection Hx as <-. done.
    + intros [(k & x & Hk & Hx & E)|Hin]; right.
      * split; [|left; exists k, x; rewrite HP; split; [by constructor|done]].
        intros E'. apply N1. replace i with k; [done|]. eapply trail_pos_inj; [done..|congruence].
      * split; [|by right]. intros <-. apply list_elem_of_fmap in Hin as (x & Ex & Hx).
        destruct (A6 x Hx) as (k & Hk & Hlev).
        assert (i = k) as -> by (eapply trail_pos_inj; [done..|by rewrite lit_var_negate]).
        destruct (A3 k) as (_ & E & _); [rewrite HP; constructor|lia].
  - intros v [(_ & ? & _)|[_ H]]%list_lookup_insert_Some; [done|auto].
Qed.

(** The last marked literal below [bound] is pending. *)
Lemma last_pending P bound a : aok P bound a -> P <> [] -> bound <= length (trail s0) ->
  exists i l, next_seen (trail s0) (a_seen a) bound = Some i /\ i ∈ P /\ trail s0 !! i = Some l /\
    forall k, k ∈ P -> k <= i.
Proof.
  intros A HP Hb. destruct P as [|j P]; [done|]. clear HP.
  assert (forall k, k ∈ j :: P -> exists l, trail s0 !! k = Some l /\ a_seen a !! lit_var l = Some true /\ k < bound /\ lev k = d) as HP.
  { intros k Hk. destruct (a_cur _ _ _ A k Hk) as (H1 & H2 & H3). apply lookup_lt_is_Some in H3 as [l Hl].
    exists l. split; [done|]. split; [|done]. apply (a_marks _ _ _ A). left. by exists k, l. }
  destruct (HP j) as (l & Hl & Hs & Hj & Hlev); [constructor|].
  destruct (next_seen_spec (trail s0) (a_seen a) bound j l Hb) as (i & x & E & H1 & H2 & H3 & H4); [|done..|].
  { intros i x Hx. rewrite (a_len _ _ _ A). apply (trail_var s0 T). by eapply list_elem_of_lookup_2. }
  assert (forall k, k ∈ j :: P -> k <= i) as Hmax.
  { intros k Hk. destruct (HP k Hk) as (y & Hy & Hsy & Hky & _). destruct (decide (k <= i)); [done|].
    exfalso. apply (H4 k y); [lia|done|done]. }
  exists i, x. split; [done|]. split; [|done].
  apply (a_marks _ _ _ A) in H3 as [(k & y & Hk & Hy & Ev)|Hin].
  - replace i with k; [done|]. by eapply trail_pos_inj.
  - exfalso. apply list_elem_of_fmap in Hin as (y & Ey & Hy).
    destruct (a_low _ _ _ A y Hy) as (k & Hk & Hkl).
    assert (i = k) as -> by (eapply trail_pos_inj; [done..|by rewrite lit_var_negate]).
    pose proof (plevel_mono (trail_lim s0) j k ltac:(apply Hmax; constructor)). unfold lev in *. lia.
Qed.

(** A pending literal that is not the first of its level has a reason. *)
Lemma pending_reason i k l : trail s0 !! i = Some l -> 0 < d -> lev k = d -> k < i ->
  exists c rest, reason s0 !! lit_var l = Some (Some c) /\ clauses s0 !! c = Some (l :: rest) /\
    forall q, q ∈ rest -> exists j, j < i /\ trail s0 !! j = Some (negate q).
Proof.
  intros Hl Hd Hk Hki.
  assert (i ∉ trail_lim s0) as Hlim.
  { intros Hin. pose proof (plevel_full (trail_lim s0) k i (tr_sorted s0 T) Hk Hin). lia. }
  assert (lev i = d) as Hi.
  { pose proof (plevel_mono (trail_lim s0) k i). pose proof (plevel_le (trail_lim s0) i). unfold lev, d in *. lia. }
  destruct (re_implied s0 (b_reason s0 B) i l Hl) as [c Hc]; [unfold lev in Hi; lia|done|].
  destruct (re_clause s0 (b_reason s0 B) i l c Hl Hc) as (rest & Hrest & H). by exists c, rest.
Qed.

Definition scanned (p : option Lit) (lits : list Lit) : list Lit :=
  match p with Some _ => drop 1 lits | None => lits end.

Lemma analyze_loop_spec fuel bound confl lits p P a s : 0 < d -> heap_step s0 s -> aok P bound a ->
  bound <= length (trail s0) -> bound < fuel -> clauses s0 !! confl = Some lits ->
  (forall q, q ∈ scanned p lits -> exists j, j < bound /\ trail s0 !! j = Some (negate q)) ->
  (P <> [] \/ exists q j, q ∈ scanned p lits /\ trail s0 !! j = Some (negate q) /\ lev j = d) ->
  (forall rho, admits s0 rho -> resolves P rho ->
    clause_true rho (scanned p lits) \/ clause_true rho (a_learnt a)) ->
  exists i pl a' s', analyze_loop fuel bound confl p a s = Some (pl, a', s') /\ heap_step s0 s' /\
    aok [] i a' /\ trail s0 !! i = Some pl /\ lev i = d /\
    forall rho, admits s0 rho -> lit_true rho pl = true -> clause_true rho (a_learnt a').
Proof.
  intros Hd. revert bound confl lits p P a s; induction fuel as [|fuel IH];
    intros bound confl lits p P a s S A Hb Hf Hc Hq Hne Hsem; [lia|]. cbn [analyze_loop].
  rewrite (same_clauses _ _ (proj1 S)), Hc. cbn [mbind option_bind].
  change (match p with Some _ => drop 1 lits | None => lits end) with (scanned p lits).
  destruct (scan_clause_spec _ _ _ _ _ S A Hq) as (P1 & a1 & s1 & E1 & S1 & A1 & HP & Hlearnt & Hcov).
  rewrite E1. cbn [mbind option_bind].
  assert (P1 <> []) as Hne1.
  { destruct Hne as [Hne|(q & j & Hin & Hj & Hlev)].
    - intros ->. apply Hne. destruct P as [|x P]; [done|]. exfalso. apply (not_elem_of_nil x), HP. constructor.
    - intros ->. destruct (Hcov q Hin) as (j' & Hj' & H).
      assert (j = j') as <- by (eapply trail_pos_inj; done).
      destruct H as [H|[H|H]]; [lia|by apply not_elem_of_nil in H|].
      destruct (a_low _ _ _ A1 q H) as (j' & Hj'' & Hl).
      assert (j = j') as <- by (eapply trail_pos_inj; done). lia. }
  destruct (last_pending _ _ _ A1 Hne1 Hb) as (i & pl & E2 & Hi & Hpl & Hmax).
  rewrite (same_trail _ _ (proj1 S1)), E2. cbn [mbind option_bind]. rewrite Hpl. cbn [mbind option_bind].
  assert (lit_var pl < length (a_seen a1)) as Hv.
  { rewrite (a_len _ _ _ A1). apply (trail_var s0 T). by eapply list_elem_of_lookup_2. }
  rewrite vset_Some by done. cbn [mbind option_bind].
  destruct (unmark_last _ _ _ _ _ A1 Hi Hpl Hmax) as (P2 & HP2 & A2).
  pose proof (a_count _ _ _ A1) as Hcount. rewrite HP2 in Hcount. cbn in Hcount.
  rewrite Hcount in A2 |- *. cbn [mbind option_bind pred] in A2 |- *.
  assert (forall rho, admits s0 rho -> resolves P1 rho -> clause_true rho (a_learnt a1)) as Hsem1.
  { intros rho Ha Hr. destruct (Hsem rho Ha) as [(q & Hqin & Ht)|(q & Hqin & Ht)].
    - intros x y Hx. apply Hr. by apply HP.
    - by apply (covered_learnt P1 _ q); [apply Hcov|..].
    - exists q. split; [by apply Hlearnt|done]. }
  assert (forall rho, admits s0 rho -> lit_true rho pl = true -> resolves P2 rho -> resolves P1 rho) as Hres.
  { intros rho _ Ht Hr k l Hk Hl. rewrite HP2 in Hk. apply elem_of_cons in Hk as [->|Hk]; [|by eapply Hr].
    congruence. }
  assert (lev i = d /\ i < bound) as [Hlevi Hib] by (destruct (a_cur _ _ _ A1 i Hi) as (?&?&_); auto).
  destruct (Nat.eqb_spec (length P2) 0) as [E0|Hne2].
  { apply nil_length_inv in E0 as ->. eexists i, pl, _, s1. split; [done|]. split; [done|]. split; [done|].
    split; [done|]. split; [done|]. cbn. intros rho Ha Ht. apply Hsem1; [done|]. apply Hres; [done..|].
    intros k l Hk. by apply not_elem_of_nil in Hk. }
  destruct P2 as [|k P2]; [done|].
  assert (k < i /\ lev k = d) as [Hki Hlevk] by (destruct (a_cur _ _ _ A2 k) as (?&?&_); [constructor|auto]).
  destruct (pending_reason i k pl Hpl Hd Hlevk Hki) as (c & rest & Hr & Hcl & Hrest).
  rewrite (same_reason _ _ (proj1 S1)), Hr. cbn [mbind option_bind].
  apply (IH i c (pl :: rest) (Some pl) (k :: P2)); try done; try lia.
  - by left.
  - intros rho Ha HrP. cbn [scanned drop a_learnt]. destruct (lit_true rho pl) eqn:Ht.
    + right. apply Hsem1; [done|]. by apply Hres.
    + left. destruct Ha as [Ha _]. specialize (Ha c _ Hcl). apply clause_true_cons in Ha as [?|?]; [congruence|].
      by rewrite drop_0.
Qed.
End analyze.

(** ** The level to jump back to *)
Lemma max_level_spec s lits k best bl lev : (forall l, l ∈ lits -> level s !! lit_var l = Some (lev l)) ->
  exists i, max_level s lits k best bl = Some i /\
    ((i = best /\ forall l, l ∈ lits -> lev l <= bl) \/
     (exists j l, i = k + j /\ lits !! j = Some l /\ bl <= lev l /\ forall l', l' ∈ lits -> lev l' <= lev l)).
Proof.
  revert k best bl; induction lits as [|l lits IH]; intros k best bl Hl; cbn [max_level].
  { exists best. split; [done|]. left. split; [done|]. intros l H. by apply not_elem_of_nil in H. }
  rewrite (Hl l) by constructor. cbn [mbind option_bind].
  assert (forall x, x ∈ lits -> level s !! lit_var x = Some (lev x)) as Hl' by (intros; apply Hl; by constructor).
  destruct (Nat.ltb_spec bl (lev l)).
  - destruct (IH (S k) k (lev l) Hl') as (i & E & [[-> H1]|(j & x & -> & Hj & H1 & H2)]);
      eexists; (split; [exact E|]); right.
    + exists 0, l. rewrite Nat.add_0_r. split; [done|]. split; [done|]. split; [lia|].
      intros y [->|Hy]%elem_of_cons; [lia|auto].
    + exists (S j), x. split; [lia|]. split; [done|]. split; [lia|].
      intros y [->|Hy]%elem_of_cons; [lia|auto].
  - destruct (IH (S k) best bl Hl') as (i & E & [[-> H1]|(j & x & -> & Hj & H1 & H2)]);
      eexists; (split; [exact E|]).
    + left. split; [done|]. intros y [->|Hy]%elem_of_cons; [lia|auto].
    + right. exists (S j), x. split; [lia|]. split; [done|]. split; [lia|].
      intros y [->|Hy]%elem_of_cons; [lia|auto].
Qed.

Lemma backjump_level_spec s u tail lev : (forall l, l ∈ tail -> level s !! lit_var l = Some (lev l)) ->
  exists tail' bt, backjump_level s (u :: tail) = Some (u :: tail', bt) /\ tail' ≡ₚ tail /\
    match tail' with
    | [] => bt = 0
    | l1 :: _ => bt = lev l1 /\ forall l, l ∈ tail -> lev l <= bt
    end.
Proof.
  intros Hl. unfold backjump_level. destruct tail as [|l1 tail].
  { exists [], 0. done. }
  cbn [length Nat.eqb]. change ((u :: l1 :: tail) !! 1) with (Some l1). cbn [mbind option_bind].
  rewrite (Hl l1) by constructor. cbn [mbind option_bind].
  change (drop 2 (u :: l1 :: tail)) with (drop 0 tail). rewrite drop_0.
  destruct (max_level_spec s tail 2 1 (lev l1) lev) as (i & E & H).
  { intros l Hin. apply Hl. by constructor. }
  rewrite E. cbn [mbind option_bind].
  destruct H as [[-> H]|(j & x & -> & Hj & H1 & H2)].
  - rewrite (swap_Some _ 1 1 l1 l1) by done. cbn [mbind option_bind].
    change (<[1 := l1]> (<[1 := l1]> (u :: l1 :: tail))) with (u :: l1 :: tail).
    change ((u :: l1 :: tail) !! 1) with (Some l1). cbn [mbind option_bind].
    rewrite (Hl l1) by constructor. cbn [mbind option_bind].
    exists (l1 :: tail), (lev l1). split; [done|]. split; [done|]. split; [done|].
    intros l [->|Hin]%elem_of_cons; [done|auto].
  - rewrite (swap_Some _ 1 (2 + j) l1 x) by done. cbn [mbind option_bind].
    change (<[2 + j := l1]> (<[1 := x]> (u :: l1 :: tail))) with (u :: x :: <[j := l1]> tail).
    change ((u :: x :: <[j := l1]> tail) !! 1) with (Some x). cbn [mbind option_bind].
    rewrite (Hl x) by (constructor; by eapply list_elem_of_lookup_2). cbn [mbind option_bind].
    exists (x :: <[j := l1]> tail), (lev x). split; [done|].
    split; [exact (swap_perm (l1 :: tail) 0 (S j) l1 x eq_refl Hj)|]. split; [done|].
    intros l [->|Hin]%elem_of_cons; [done|auto].
Qed.

(** ** The learnt clause *)

(** [u] is the negation of a literal of the current level; the other literals
    are false at levels up to [bt], which is the level of the first of them. *)
Record asserting (s : Solver) (u : Lit) (tail : list Lit) (bt : nat) : Prop := {
  as_uip : exists i, trail s !! i = Some (negate u) /\ plevel (trail_lim s) i = decision_level s;
  as_tail : forall q, q ∈ tail -> exists j, trail s !! j = Some (negate q) /\ 0 < plevel (trail_lim s) j <= bt;
  as_first : match tail with
    | [] => bt = 0
    | l1 :: _ => exists j, trail s !! j = Some (negate l1) /\ plevel (trail_lim s) j = bt
    end;
  as_bt : bt < decision_level s;
  as_nodup : NoDup (map lit_var (u :: tail));
  as_entailed : forall rho, admits s rho -> clause_true rho (u :: tail);
}.

(** The level of a literal on the trail, read from the table. *)
Definition level_of (s : Solver) (l : Lit) : nat := default 0 (level s !! lit_var l).

Lemma level_of_trail s q j : trail_ok s -> trail s !! j = Some (negate q) ->
  level s !! lit_var q = Some (level_of s q) /\ level_of s q = plevel (trail_lim s) j.
Proof.
  intros T Hj. apply (tr_level s T) in Hj. rewrite lit_var_negate in Hj. unfold level_of. by rewrite Hj.
Qed.

Lemma analyze_spec s c q l : base_ok s -> 0 < decision_level s -> unseen s ->
  (forall x, x ∈ trail_lim s -> x <= q) -> trail s !! q = Some (negate l) -> falsified s c l ->
  exists u tail bt s', analyze c s = Some (u :: tail, bt, s') /\ heap_step s s' /\ asserting s u tail bt.
Proof.
  intros B Hd Hseen Hlims Hq (lits & Hc & Hl & Hfalse). unfold analyze.
  set (s0 := set_seen [] s). assert (base_ok s0) as B0 by by apply (base_frame s).
  pose proof (b_trail s B) as T.
  assert (aok s0 [] (length (trail s)) (mkAnalysis (seen s) [] [] 0)) as A0.
  { rewrite Hseen. split; cbn; try done.
    - by rewrite length_replicate.
    - constructor.
    - intros i H. by apply not_elem_of_nil in H.
    - intros v. rewrite lookup_replicate. split; [intros [? _]; done|].
      intros [(i & x & H & _)|H]; by apply not_elem_of_nil in H.
    - intros x H. by apply not_elem_of_nil in H.
    - constructor.
    - intros v [? _]%lookup_replicate. done.
    - intros x H. by apply not_elem_of_nil in H. }
  assert (forall x, x ∈ lits -> exists j, j < length (trail s) /\ trail s !! j = Some (negate x)) as Hall.
  { intros x Hx. apply Hfalse in Hx. apply list_elem_of_lookup in Hx as [j Hj]. exists j.
    split; [by eapply lookup_lt_Some|done]. }
  destruct (analyze_loop_spec s0 B0 (S (length (trail s))) (length (trail s)) c lits None [] _ s0 Hd
    (heap_step_refl s0 (proj1 (b_queue s0 B0))) A0) as (i & pl & a & s1 & E & S1 & A & Hpl & Hlev & Hent);
    [done|lia|done|exact Hall| | |].
  { right. exists l, q. split; [done|]. split; [done|]. by apply plevel_top. }
  { intros rho [Ha _] _. left. by apply (Ha c). }
  rewrite E. cbn [mbind option_bind].
  destruct (unmark_spec (a_marked a) (a_seen a)) as (seen' & Es & Lseen & Hun).
  { rewrite (a_len _ _ _ _ A). apply (a_range _ _ _ _ A). }
  rewrite Es. cbn [mbind option_bind].
  assert (seen' = seen s) as ->.
  { rewrite Hseen. apply list_eq. intros v. destruct (decide (v < num_vars s)) as [Hv|Hv].
    - rewrite (proj2 (lookup_replicate _ _ _ _)) by done.
      assert (v < length (a_seen a)) as Hv' by by rewrite (a_len _ _ _ _ A).
      rewrite Hun by done. destruct (bool_decide_reflect (v ∈ a_marked a)); [done|].
      apply lookup_lt_is_Some in Hv' as [[] Eb]; [|done]. by apply (a_in_marked _ _ _ _ A) in Eb.
    - rewrite !lookup_ge_None_2; [done|rewrite length_replicate; lia|].
      rewrite Lseen, (a_len _ _ _ _ A). unfold num_vars in *. cbn. lia. }
  assert (forall x, x ∈ a_learnt a -> exists j, trail s !! j = Some (negate x) /\ 0 < plevel (trail_lim s) j < decision_level s) as Hlow.
  { exact (a_low _ _ _ _ A). }
  assert (level s1 = level s) as El by exact (same_level _ _ (proj1 S1)).
  destruct (backjump_level_spec (set_seen (seen s) s1) (negate pl) (a_learnt a) (level_of s)) as (tail & bt & Eb & Hp & Hbt).
  { cbn. rewrite El. intros x (j & Hj & _)%Hlow. by apply (level_of_trail s x j). }
  rewrite Eb. cbn [mbind option_bind]. eexists (negate pl), tail, bt, _. split; [done|]. split.
  { destruct S1 as (C1 & [H1 H2 H3] & Q1 & L1). split; [|split; [by split|split; [exact Q1|exact L1]]].
    unfold same_core, core in *. apply (f_equal (set_seen (seen s))) in C1. exact C1. }
  assert (NoDup (map lit_var (negate pl :: tail))) as Hnd.
  { cbn. apply list.NoDup_cons. split; [|rewrite Hp; exact (a_nodup _ _ _ _ A)].
    rewrite Hp, lit_var_negate. intros (x & Ex & Hx)%list_elem_of_fmap. destruct (Hlow x Hx) as (j & Hj & Hj').
    assert (i = j) as -> by (eapply (trail_pos_inj s T); [exact Hpl|exact Hj|by rewrite lit_var_negate]).
    cbn in Hlev. unfold decision_level in Hj'. lia. }
  assert (forall x, x ∈ a_learnt a -> exists j, trail s !! j = Some (negate x) /\ plevel (trail_lim s) j = level_of s x /\ 0 < plevel (trail_lim s) j < decision_level s) as Hlow'.
  { intros x (j & Hj & Hr)%Hlow. exists j. split; [done|]. split; [|done]. symmetry. by apply level_of_trail. }
  split; try done.
  - exists i. rewrite negate_involutive. done.
  - intros x Hx. rewrite Hp in Hx. destruct (Hlow' x Hx) as (j & Hj & Ej & Hr). exists j. split; [done|].
    split; [lia|]. destruct tail; [|rewrite Ej; by apply Hbt]. rewrite <- Hp in Hx. by apply not_elem_of_nil in Hx.
  - destruct tail as [|l1 tail]; [done|]. destruct Hbt as [-> _].
    destruct (Hlow' l1) as (j & Hj & Ej & _); [rewrite <- Hp; constructor|]. by exists j.
  - destruct tail as [|l1 tail]; [by subst|]. destruct Hbt as [-> _].
    destruct (Hlow' l1) as (j & Hj & <- & Hr); [rewrite <- Hp; constructor|]. lia.
  - intros rho Ha. apply clause_true_cons. rewrite lit_true_negate.
    destruct (lit_true rho pl) eqn:Ht; [right|by left]. rewrite Hp. by apply Hent.
Qed.
