(* ===== verification/SatSearch.v ===== *)
(** * Backtracking, learning and deciding keep the invariant *)
From S2P Require Import Prelude SatSolver SatLits SatProp SatAnalyze.
#[local] Open Scope nat_scope.

(** ** The Luby sequence: [L (k + 1) = L k ++ L k ++ [2 ^ k]] *)
Fixpoint luby_seq (k : nat) : list N :=
  match k with
  | O => []
  | S k => luby_seq k ++ luby_seq k ++ [(2 ^ N.of_nat k)%N]
  end.

Lemma luby_seq_length k : N.of_nat (length (luby_seq k)) = (2 ^ N.of_nat k - 1)%N.
Proof.
  induction k as [|k IH]; [done|]. cbn [luby_seq]. rewrite !length_app. cbn [length].
  rewrite Nat2N.inj_succ, N.pow_succ_r'.
  assert (2 ^ N.of_nat k <> 0)%N by (by apply N.pow_nonzero). lia.
Qed.

Lemma luby_shrink_spec fuel x k : k < fuel -> (x < 2 ^ N.of_nat (S k) - 1)%N ->
  exists seq, luby_shrink fuel x (2 ^ N.of_nat (S k) - 1) k = Some seq /\
    luby_seq (S k) !! N.to_nat x = Some (2 ^ N.of_nat seq)%N.
Proof.
  revert x k; induction fuel as [|fuel IH]; intros x k Hk Hx; [lia|]. cbn [luby_shrink].
  assert (2 ^ N.of_nat k <> 0)%N as Hp by (by apply N.pow_nonzero).
  pose proof (luby_seq_length k) as L.
  rewrite Nat2N.inj_succ, N.pow_succ_r' in Hx |- *.
  destruct (N.eqb_spec (2 * 2 ^ N.of_nat k - 1 - 1) x) as [<-|Hne].
  { exists k. split; [done|]. cbn [luby_seq]. rewrite app_assoc, lookup_app_r by (rewrite length_app; lia).
    rewrite length_app. replace (_ - _) with 0 by lia. done. }
  destruct k as [|k]; [cbn in *; lia|].
  replace (N.shiftr (2 * 2 ^ N.of_nat (S k) - 1 - 1) 1) with (2 ^ N.of_nat (S k) - 1)%N.
  2:{ rewrite N.shiftr_div_pow2. change (2 ^ 1)%N with 2%N. apply (N.div_unique _ _ _ 0); lia. }
  assert (1 < 2 ^ N.of_nat (S k))%N by (apply N.pow_gt_1; lia).
  cbn [pred]. destruct (IH (x mod (2 ^ N.of_nat (S k) - 1))%N k) as (seq & E & Hl);
    [lia|apply N.mod_lt; lia|].
  exists seq. split; [done|].
  change (luby_seq (S (S k))) with (luby_seq (S k) ++ luby_seq (S k) ++ [(2 ^ N.of_nat (S k))%N]).
  destruct (N.ltb_spec x (2 ^ N.of_nat (S k) - 1)).
  - rewrite N.mod_small in Hl by done. by apply lookup_app_l_Some.
  - assert (x mod (2 ^ N.of_nat (S k) - 1) = x - (2 ^ N.of_nat (S k) - 1))%N as Em.
    { symmetry. apply (N.mod_unique _ _ 1); lia. }
    rewrite Em in Hl. rewrite lookup_app_r by lia. apply lookup_app_l_Some.
    rewrite <- Hl. f_equal. lia.
Qed.

Lemma luby_grow_spec fuel x k : (x + 1 <= 2 ^ N.of_nat (k + fuel) - 1)%N -> 0 < fuel ->
  exists j, luby_grow fuel x (2 ^ N.of_nat (S k) - 1) k = Some ((2 ^ N.of_nat (S j) - 1)%N, j) /\
    (x < 2 ^ N.of_nat (S j) - 1)%N /\ j < k + fuel.
Proof.
  revert k; induction fuel as [|fuel IH]; intros k Hx Hf; [lia|]. cbn [luby_grow].
  destruct (N.ltb_spec (2 ^ N.of_nat (S k) - 1) (x + 1)) as [Hlt|Hge].
  2:{ exists k. split; [done|]. lia. }
  destruct fuel as [|fuel].
  { replace (k + 1) with (S k) in Hx by lia. lia. }
  assert (2 ^ N.of_nat (S k) <> 0)%N by (by apply N.pow_nonzero).
  replace (2 * (2 ^ N.of_nat (S k) - 1) + 1)%N with (2 ^ N.of_nat (S (S k)) - 1)%N.
  2:{ rewrite (Nat2N.inj_succ (S k)), N.pow_succ_r'. lia. }
  destruct (IH (S k)) as (j & E & H1 & H2); [|lia|].
  { replace (S k + S fuel) with (k + S (S fuel)) by lia. done. }
  exists j. split; [done|]. split; [done|lia].
Qed.

Lemma luby_spec x : exists k u, luby x = Some u /\ luby_seq k !! N.to_nat x = Some u.
Proof.
  unfold luby. set (fuel := S (S (N.to_nat (N.log2 (x + 1))))).
  assert (x + 1 < 2 ^ N.succ (N.log2 (x + 1)))%N as Hlog by (apply N.log2_spec; lia).
  assert (N.of_nat fuel = N.succ (N.succ (N.log2 (x + 1)))) as Ef by lia.
  destruct (luby_grow_spec fuel x 0) as (j & E & H1 & H2); [|lia|].
  { cbn [Nat.add]. rewrite Ef, N.pow_succ_r'. lia. }
  change (2 ^ N.of_nat 1 - 1)%N with 1%N in E. rewrite E. cbn [mbind option_bind].
  destruct (luby_shrink_spec fuel x j) as (seq & E2 & H3); [lia|done|].
  rewrite E2. cbn [mbind option_bind]. exists (S j), (2 ^ N.of_nat seq)%N.
  rewrite N.shiftl_mul_pow2, N.mul_1_l. done.
Qed.

Lemma luby_total x : is_Some (luby x).
Proof. destruct (luby_spec x) as (k & u & -> & _). eauto. Qed.

(** ** Backtracking *)

(** What holds while the trail is being unwound. *)
Record loose (s : Solver) : Prop := {
  lo_level : length (level s) = num_vars s;
  lo_reason : length (reason s) = num_vars s;
  lo_phase : length (phase s) = num_vars s;
  lo_nodup : NoDup (map lit_var (trail s));
  lo_assign : forall l, l ∈ trail s <-> assign s !! lit_var l = Some (Some (negb (is_negated l)));
  lo_queue : queue_ok s;
}.

Record kept (s s' : Solver) : Prop := {
  k_clauses : clauses s' = clauses s;
  k_watches : watches s' = watches s;
  k_level : level s' = level s;
  k_lim : trail_lim s' = trail_lim s;
  k_unsat : unsat s' = unsat s;
  k_seen : seen s' = seen s;
  k_vars : num_vars s' = num_vars s;
  k_reason : forall l, l ∈ trail s' -> reason s' !! lit_var l = reason s !! lit_var l;
}.

Lemma base_loose s : base_ok s -> loose s.
Proof. intros [[] _ _ Q]. by split. Qed.

(** Popping one literal. *)
Lemma cancel_step s tr l : loose s -> trail s = tr ++ [l] ->
  exists b s1 s2, assign s !! lit_var l = Some (Some b) /\
    vset (phase s) (lit_var l) b = Some (phase s1) /\
    vset (assign s) (lit_var l) None = Some (assign s1) /\
    vset (reason s) (lit_var l) None = Some (reason s1) /\
    s1 = set_reason (reason s1) (set_assign (assign s1) (set_phase (phase s1) (set_trail tr s))) /\
    queue (lit_var l) s1 = Some s2 /\ loose s2 /\ kept s s2 /\ trail s2 = tr.
Proof.
  intros [L1 L2 L3 N A [H Q]] Et.
  assert (l ∈ trail s) as Hin by (rewrite Et; apply elem_of_app; right; constructor).
  apply A in Hin as Ha. assert (lit_var l < num_vars s) as Hv by (by eapply lookup_lt_Some).
  rewrite Et, map_app in N. apply list.NoDup_app in N as (N1 & N2 & _).
  assert (forall x, x ∈ tr -> lit_var x <> lit_var l) as Hd.
  { intros x Hx E. apply (N2 (lit_var x)); [by apply list_elem_of_fmap_2|]. rewrite E. constructor. }
  set (s1 := set_reason (<[lit_var l := None]> (reason s)) (set_assign (<[lit_var l := None]> (assign s))
    (set_phase (<[lit_var l := negb (is_negated l)]> (phase s)) (set_trail tr s)))).
  assert (num_vars s1 = num_vars s) as En by (unfold num_vars; cbn; by rewrite length_insert).
  assert (heap_ok s1) as H1 by (split; rewrite ?En; apply H).
  destruct (queue_spec (lit_var l) s1 H1) as (s2 & E2 & C2 & H2 & Q2); [by rewrite En|].
  assert (num_vars s2 = num_vars s) as En2 by (unfold num_vars; by rewrite (same_assign _ _ C2)).
  exists (negb (is_negated l)), s1, s2. split; [done|].
  split; [by rewrite vset_Some by lia|]. split; [by rewrite vset_Some|].
  split; [by rewrite vset_Some by lia|]. split; [done|]. split; [done|].
  split; [|split; [|by rewrite (same_trail _ _ C2)]].
  - split; rewrite ?En2; core_rewrite C2; cbn; rewrite ?length_insert; try done.
    + intros x. rewrite list_lookup_insert_Some. split.
      * intros Hx. right. split; [intros E; by apply (Hd x)|]. apply A. rewrite Et. apply elem_of_app. by left.
      * intros [(_ & ? & _)|[Hne Hx]]; [done|]. apply A in Hx. rewrite Et in Hx.
        apply elem_of_app in Hx as [Hx| ->%list_elem_of_singleton]; done.
    + split; [done|]. intros v. rewrite (same_assign _ _ C2). cbn. intros Hv'. apply Q2.
      apply list_lookup_insert_Some in Hv' as [(<- & _)|[_ Hv']]; [by left|]. right.
      destruct (Q v Hv') as [i Hi]. by exists i.
  - split; core_rewrite C2; try done. intros x Hx. cbn. rewrite list_lookup_insert_ne; [done|].
    intros E. by apply (Hd x).
Qed.

Lemma kept_trans s1 s2 s3 : kept s1 s2 -> kept s2 s3 -> (forall l, l ∈ trail s3 -> l ∈ trail s2) -> kept s1 s3.
Proof.
  intros [] [] H. split; try congruence. intros l Hl. rewrite k_reason1 by done. apply k_reason0. by apply H.
Qed.

Lemma cancel_loop_spec fuel target s : loose s -> target <= length (trail s) ->
  length (trail s) - target <= fuel ->
  exists s', cancel_loop fuel target s = Some s' /\ loose s' /\ kept s s' /\ trail s' = take target (trail s).
Proof.
  revert s; induction fuel as [|fuel IH]; intros s L Ht Hf; cbn [cancel_loop];
    destruct (Nat.ltb_spec target (length (trail s))) as [Hlt|Hge]; try lia;
    try (exists s; split; [done|]; split; [done|]; split; [by split|]; by rewrite take_ge by lia).
  destruct (snoc_cases (trail s)) as [E|(tr & l & E)]; [rewrite E in Hlt; cbn in Hlt; lia|].
  destruct (cancel_step s tr l L E) as (b & s1 & s2 & Ea & Ep & Ea' & Er & Es1 & Eq & L2 & K2 & T2).
  rewrite E, last_of_snoc, removelast_last. cbn [mbind option_bind].
  change (assign (set_trail tr s)) with (assign s). rewrite Ea. cbn [mbind option_bind].
  change (phase (set_trail tr s)) with (phase s). rewrite Ep. cbn [mbind option_bind].
  rewrite Ea'. cbn [mbind option_bind].
  change (reason (set_trail tr s)) with (reason s). rewrite Er. cbn [mbind option_bind].
  rewrite <- Es1, Eq. cbn [mbind option_bind].
  assert (length (trail s) = S (length tr)) as Elen by (rewrite E, length_app; cbn; lia).
  destruct (IH s2 L2) as (s3 & E3 & L3 & K3 & T3); [rewrite T2; lia|rewrite T2; lia|].
  exists s3. split; [done|]. split; [done|]. rewrite T2 in T3. rewrite T3, take_app_le by lia. split; [|done].
  eapply kept_trans; [done..|]. intros x. rewrite T3, T2. by apply elem_of_take_1 || (intros (?&?&_)%elem_of_take; by eapply list_elem_of_lookup_2).
Qed.

(** The state after jumping back to level [bt], whose trail has length [t]. *)
Record back (s s' : Solver) (bt t : nat) : Prop := {
  bk_clauses : clauses s' = clauses s;
  bk_unsat : unsat s' = unsat s;
  bk_seen : seen s' = seen s;
  bk_vars : num_vars s' = num_vars s;
  bk_trail : trail s' = take t (trail s);
  bk_lim : trail_lim s' = take bt (trail_lim s);
  bk_qhead : qhead s' = length (trail s');
  bk_length : length (trail s') = t;
}.

Section back.
Context (s s' : Solver) (bt t : nat) (T : trail_ok s).
Context (Ht : trail_lim s !! bt = Some t) (L : loose s') (K : kept s (set_trail_lim (trail_lim s) s')).
Context (Etr : trail s' = take t (trail s)) (Elim : trail_lim s' = take bt (trail_lim s)).

Lemma back_length : length (trail s') = t.
Proof. rewrite Etr, length_take. pose proof (tr_lims s T t (list_elem_of_lookup_2 _ _ _ Ht)). lia. Qed.

Lemma back_lookup i l : trail s' !! i = Some l <-> i < t /\ trail s !! i = Some l.
Proof. rewrite Etr, lookup_take_Some. tauto. Qed.

Lemma back_plevel i : i < t -> plevel (trail_lim s') i = plevel (trail_lim s) i.
Proof. intros Hi. rewrite Elim. by apply (plevel_take _ _ t); [apply T|..]. Qed.

(** What is below the jump's level is kept. *)
Lemma back_below i : plevel (trail_lim s) i <= bt <-> i < t.
Proof. symmetry. apply plevel_lt; [apply T|done]. Qed.

Lemma back_trail_ok : trail_ok s'.
Proof.
  destruct K, L. cbn in *. split; try done.
  - intros i l [Hi Hl]%back_lookup. rewrite k_level0, back_plevel by done. by apply (tr_level s T).
  - rewrite Elim. intros i j x y Hij [Hx _]%lookup_take_Some [Hy _]%lookup_take_Some. by apply (tr_sorted s T i j).
  - rewrite Elim, back_length. intros x Hx. apply elem_of_take in Hx as (i & Hi & Hib).
    apply (tr_sorted s T i bt); [lia|done|done].
Qed.

Lemma back_reason_ok : reason_ok s -> reason_ok s'.
Proof.
  intros R. destruct K as [Kc _ _ _ _ _ _ Kr]. cbn in *. split.
  - intros i l Hl Hp Hi. rewrite Kr by (by eapply list_elem_of_lookup_2). apply back_lookup in Hl as [Hit Hl].
    rewrite back_plevel in Hp by done. apply (re_implied s R i); [done|done|].
    intros Hin. apply Hi. rewrite Elim. apply list_elem_of_lookup in Hin as [k Hk].
    destruct (decide (k < bt)); [apply elem_of_take; eauto|].
    pose proof (tr_sorted s T bt k t i ltac:(lia) Ht Hk). lia.
  - intros i l c Hl Hr. rewrite Kr in Hr by (by eapply list_elem_of_lookup_2).
    apply back_lookup in Hl as [Hit Hl].
    destruct (re_clause s R i l c Hl Hr) as (rest & Hc & Hrest). exists rest. rewrite Kc. split; [done|].
    intros q (j & Hj & Hq)%Hrest. exists j. split; [done|]. apply back_lookup. split; [lia|done].
Qed.

Lemma back_propagated q lits : t <= q -> propagated s q lits -> propagated s' t lits.
Proof.
  intros Hq. assert (forall w w', partnered s q w w' -> partnered s' t w w') as H.
  { intros w w' H i Hi [_ Hl]%back_lookup. destruct (H i ltac:(lia) Hl) as (j & Hj & Hle). exists j.
    apply back_below in Hi as Hlev. assert (j < t) as Hjt by (apply back_below; lia).
    rewrite !back_plevel by done. split; [by apply back_lookup|done]. }
  destruct lits as [|a [|b lits]]; [done..|]. intros []. split; auto.
Qed.

Lemma back_admits rho : admits s' rho <-> admits s rho.
Proof.
  destruct K. cbn in *. unfold admits. rewrite k_clauses0. setoid_rewrite back_lookup. split; intros [H1 H2]; (split; [done|]).
  - intros i l Hl Hz. assert (i < t) as Hi by (apply back_below; lia). apply (H2 i); [done|]. by rewrite back_plevel.
  - intros i l [Hi Hl] Hz. rewrite back_plevel in Hz by done. by apply (H2 i).
Qed.

Lemma back_inv Phi q : inv Phi q s -> inv Phi t s'.
Proof.
  intros [B W P Hl Hq S]. pose proof K as [Kc Kw _ _ _ _ Kn _]. cbn in *.
  unfold num_vars in Kn. cbn in Kn. fold (num_vars s') (num_vars s) in Kn.
  split.
  - split; [by apply back_trail_ok|by apply back_reason_ok, B| |by apply L].
    intros c lits. rewrite Kc, Kn. apply B.
  - by rewrite Kn, Kc, Kw.
  - intros c lits Hc. rewrite Kc in Hc. apply (back_propagated q); [|by apply (P c)].
    apply Hl. by eapply list_elem_of_lookup_2.
  - intros x Hx%(tr_lims s' back_trail_ok). by rewrite back_length in Hx.
  - by rewrite back_length.
  - intros rho. by rewrite S, back_admits.
Qed.
End back.

Lemma cancel_until_spec Phi q s bt : inv Phi q s -> bt < decision_level s ->
  exists t s', trail_lim s !! bt = Some t /\ cancel_until bt s = Some s' /\
    back s s' bt t /\ inv Phi (qhead s') s'.
Proof.
  intros I Hbt. pose proof (b_trail s (i_base _ _ _ I)) as T. unfold cancel_until.
  rewrite (proj2 (Nat.leb_gt _ _)) by done.
  destruct (lookup_lt_is_Some_2 (trail_lim s) bt Hbt) as [t Ht]. rewrite Ht. cbn [mbind option_bind].
  destruct (cancel_loop_spec (length (trail s)) t s) as (s1 & E & L & K & Etr).
  { by apply base_loose, I. }
  { apply (tr_lims s T). by eapply list_elem_of_lookup_2. }
  { lia. }
  rewrite E. cbn [mbind option_bind]. exists t. eexists. split; [done|]. split; [done|].
  pose proof K as []. rewrite k_lim0.
  set (s2 := set_qhead _ _).
  assert (loose s2) as L2 by (destruct L as [????? [[] ?]]; split; done).
  assert (kept s (set_trail_lim (trail_lim s) s2)) as K2 by by split.
  split.
  - split; try done. cbn. rewrite Etr, length_take. pose proof (tr_lims s T t (list_elem_of_lookup_2 _ _ _ Ht)). lia.
  - assert (qhead s2 = t) as ->.
    { cbn. rewrite Etr, length_take. pose proof (tr_lims s T t (list_elem_of_lookup_2 _ _ _ Ht)). lia. }
    by eapply (back_inv s s2 bt).
Qed.

(** ** Adding a clause with two watches *)
Definition added (lits : list Lit) (s : Solver) : Solver :=
  match lits with
  | a :: b :: _ =>
      let ws := <[a := default [] (watches s !! a) ++ [length (clauses s)]]> (watches s) in
      set_clauses (clauses s ++ [lits])
        (set_watches (<[b := default [] (watches s !! b) ++ [length (clauses s)]]> ws) s)
  | _ => s
  end.

Lemma watch_add n cs wt a b t : watch_ok n cs wt -> a < 2 * n -> b < 2 * n -> a <> b ->
  watch_ok n (cs ++ [a :: b :: t])
    (<[b := default [] (wt !! b) ++ [length cs]]> (<[a := default [] (wt !! a) ++ [length cs]]> wt)).
Proof.
  intros [Hlen H] Ha Hb Hab. split; [by rewrite !length_insert|].
  rewrite <- Hlen in Ha, Hb. apply lookup_lt_is_Some in Ha as [ra Ea], Hb as [rb Eb].
  rewrite Ea, Eb. cbn [default from_option id].
  assert (forall c l, (exists lits, (cs ++ [a :: b :: t]) !! c = Some lits /\ l ∈ take 2 lits) <->
    (exists lits, cs !! c = Some lits /\ l ∈ take 2 lits) \/ (c = length cs /\ (l = a \/ l = b))) as Hnew.
  { intros c l. setoid_rewrite lookup_app_Some. setoid_rewrite list_lookup_singleton_Some. split.
    - intros (lits & [Hc|(Hc & Hi & <-)] & Hin); [left; eauto|right]. split; [lia|]. cbn in Hin. set_solver.
    - intros [(lits & Hc & Hin)|[-> Hl]]; [by exists lits; auto|]. exists (a :: b :: t).
      split; [right; split; [lia|]; split; [lia|done]|]. cbn. set_solver. }
  assert (forall l r, wt !! l = Some r -> length cs ∉ r) as Hfresh.
  { intros l r Hl Hin. apply (H l r Hl) in Hin as (lits & Hc & _). apply lookup_lt_Some in Hc. lia. }
  assert (forall l r, wt !! l = Some r -> NoDup (r ++ [length cs])) as Hnd.
  { intros l r Hl. apply list.NoDup_app. split; [by apply (H l r)|]. split; [|apply NoDup_singleton].
    intros x Hx ->%list_elem_of_singleton. by apply (Hfresh l r). }
  intros l ws. rewrite !list_lookup_insert_Some.
  intros [(<- & <- & _)|(N1 & [(<- & <- & _)|(N2 & Hl)])].
  - split; [by eapply Hnd|]. intros c. rewrite Hnew, elem_of_app, list_elem_of_singleton, (proj2 (H b rb Eb)). naive_solver.
  - split; [by eapply Hnd|]. intros c. rewrite Hnew, elem_of_app, list_elem_of_singleton, (proj2 (H a ra Ea)). naive_solver.
  - destruct (H l ws Hl) as [H1 H2]. split; [done|]. intros c. rewrite Hnew, H2. naive_solver.
Qed.

Section add.
Context (lits : list Lit) (s : Solver) (B : base_ok s) (W : watch_ok (num_vars s) (clauses s) (watches s)).
Context (Hok : clause_ok (num_vars s) lits).

Lemma clause_shape : exists a b t, lits = a :: b :: t /\ a < 2 * num_vars s /\ b < 2 * num_vars s /\ a <> b.
Proof.
  destruct Hok as (Hlen & Hnd & Hv). destruct lits as [|a [|b t]]; cbn in Hlen; [lia..|].
  exists a, b, t. split; [done|]. split; [apply lit_lt, Hv; constructor|].
  split; [apply lit_lt, Hv; do 2 constructor|]. intros ->. cbn in Hnd.
  apply list.NoDup_cons in Hnd as [Hnd _]. apply Hnd. constructor.
Qed.

Lemma add_watched_clause_eq : add_watched_clause lits s = Some (length (clauses s), added lits s).
Proof.
  destruct clause_shape as (a & b & t & -> & Ha & Hb & Hab). destruct W as [Hlen _]. rewrite <- Hlen in Ha, Hb.
  apply lookup_lt_is_Some in Ha as [ra Ea], Hb as [rb Eb].
  unfold add_watched_clause, added. rewrite Ea, Eb.
  change ((a :: b :: t) !! 0) with (Some a). change ((a :: b :: t) !! 1) with (Some b). cbn [mbind option_bind].
  rewrite (vpush_Some _ _ _ ra) by done. cbn [mbind option_bind default from_option id].
  rewrite (vpush_Some _ _ _ rb) by (by rewrite list_lookup_insert_ne). done.
Qed.

Lemma added_lookup c l : clauses (added lits s) !! c = Some l <->
  clauses s !! c = Some l \/ (c = length (clauses s) /\ l = lits).
Proof.
  destruct clause_shape as (a & b & t & -> & _). cbn. rewrite lookup_app_Some, list_lookup_singleton_Some.
  split; [intros [?|(? & ? & <-)]|intros [?|[-> ->]]]; auto; right; (split; [lia|]); [done|]. split; [lia|done].
Qed.

Lemma added_base_ok : base_ok (added lits s).
Proof.
  pose proof added_lookup as Hlk. destruct B as [T [R1 R2] C [[] Q]].
  destruct clause_shape as (a & b & t & -> & _). split.
  - destruct T. by split.
  - split; [done|]. intros i l c Hl Hr. destruct (R2 i l c Hl Hr) as (rest & Hc & Hrest).
    exists rest. split; [|done]. apply Hlk. by left.
  - intros c l [Hc|[-> ->]]%Hlk; [by apply (C c)|done].
  - split; [by split|done].
Qed.

Lemma added_watch_ok : watch_ok (num_vars s) (clauses (added lits s)) (watches (added lits s)).
Proof. destruct clause_shape as (a & b & t & -> & Ha & Hb & Hab). by apply watch_add. Qed.

Lemma added_admits rho : admits (added lits s) rho <-> admits s rho /\ clause_true rho lits.
Proof.
  unfold admits. setoid_rewrite added_lookup.
  assert (trail (added lits s) = trail s /\ trail_lim (added lits s) = trail_lim s) as [-> ->].
  { by destruct clause_shape as (a & b & t & -> & _). }
  split.
  - intros [H1 H2]. split; [split; [|done]; intros; eapply H1; eauto|]. apply (H1 (length (clauses s))). by right.
  - intros [[H1 H2] H3]. split; [|done]. intros c l [Hc|[-> ->]]; [by eapply H1|done].
Qed.

Lemma added_clause_sets : clause_sets (added lits s) = clause_sets s ∪ {[list_to_set lits]}.
Proof.
  destruct clause_shape as (a & b & t & -> & _). unfold clause_sets. cbn [added clauses set_clauses].
  rewrite fmap_app, list_to_set_app_L. cbn [fmap list_fmap list_to_set]. by rewrite union_empty_r_L.
Qed.

Lemma added_frame : num_vars (added lits s) = num_vars s /\ trail (added lits s) = trail s /\
  trail_lim (added lits s) = trail_lim s /\ qhead (added lits s) = qhead s /\ unsat (added lits s) = unsat s /\
  seen (added lits s) = seen s /\ assign (added lits s) = assign s.
Proof. by destruct clause_shape as (a & b & t & -> & _). Qed.
End add.

Lemma inv_iff Phi Phi' q s : (forall rho, Phi rho <-> Phi' rho) -> inv Phi q s -> inv Phi' q s.
Proof. intros E [B W P L Q S]. split; try done. intros rho. by rewrite <- E, S. Qed.

(** Assigning an unassigned literal without a clause: a decision at the start
    of its level, or a unit at level 0. *)
Lemma inv_assigned Phi q s l : inv Phi q s -> assign s !! lit_var l = Some None ->
  length (trail s) ∈ trail_lim s \/ trail_lim s = [] ->
  inv (fun rho => Phi rho /\ (trail_lim s = [] -> lit_true rho l = true)) q (assigned l None s).
Proof.
  intros [B W P L Q S] Hl Hwhy. pose proof (b_trail s B) as T. split.
  - by apply assigned_base_ok.
  - by rewrite assigned_num_vars.
  - intros c lits Hc. apply assigned_propagated; [done|]. by apply (P c).
  - done.
  - cbn. rewrite length_app. lia.
  - intros rho. by rewrite assigned_admits, S by done.
Qed.

(** ** Learning *)
Record learnt_state (s s' : Solver) (u : Lit) (tail : list Lit) : Prop := {
  ls_vars : num_vars s' = num_vars s;
  ls_trail : trail s' = trail s ++ [u];
  ls_lim : trail_lim s' = trail_lim s;
  ls_qhead : qhead s' = qhead s;
  ls_unsat : unsat s' = unsat s;
  ls_seen : seen s' = seen s;
  ls_sets : clause_sets s' = match tail with [] => clause_sets s | _ => clause_sets s ∪ {[list_to_set (u :: tail)]} end;
}.

Lemma learn_spec Phi s u tail : inv Phi (qhead s) s -> qhead s = length (trail s) ->
  assign s !! lit_var u = Some None -> NoDup (map lit_var (u :: tail)) ->
  (forall q, q ∈ tail -> negate q ∈ trail s) ->
  match tail with
  | [] => trail_lim s = []
  | l1 :: _ => exists j, trail s !! j = Some (negate l1) /\ plevel (trail_lim s) j = decision_level s
  end ->
  (forall rho, admits s rho -> clause_true rho (u :: tail)) ->
  exists s', learn (u :: tail) s = Some s' /\ inv Phi (qhead s') s' /\ learnt_state s s' u tail.
Proof.
  intros I Hq Hu Hnd Hfalse Hfirst Hent. pose proof I as [B W P L Q S]. pose proof (b_trail s B) as T.
  unfold learn. change ((u :: tail) !! 0) with (Some u).
  destruct tail as [|l1 tail].
  { cbn [length Nat.eqb mbind option_bind]. rewrite enqueue_new by done. cbn [mbind option_bind].
    eexists. split; [done|]. split; [|split; try done; apply assigned_num_vars].
    eapply inv_iff; [|apply inv_assigned; [exact I|done|by right]]. intros rho. split; [by intros [? _]|].
    intros H. split; [done|]. intros _. apply S, Hent in H. by apply clause_true_cons in H as [?|?%clause_true_nil]. }
  cbn [length Nat.eqb].
  assert (clause_ok (num_vars s) (u :: l1 :: tail)) as Hok.
  { split; [cbn; lia|]. split; [done|]. intros l [->|Hl]%elem_of_cons; [by eapply lookup_lt_Some|].
    rewrite <- lit_var_negate. by apply (trail_var s T), Hfalse. }
  rewrite (add_watched_clause_eq _ _ W Hok). cbn [mbind option_bind].
  pose proof (added_base_ok _ _ B Hok) as B1. pose proof (added_frame _ _ Hok) as (F1 & F2 & F3 & F4 & F5 & F6 & F7).
  pose proof (added_watch_ok _ _ W Hok) as W1. pose proof (added_lookup _ _ Hok) as Hlk.
  pose proof (added_admits _ _ Hok) as Ha. pose proof (added_clause_sets _ _ Hok) as Hsets.
  set (s1 := added (u :: l1 :: tail) s) in *. clearbody s1.
  assert (assign s1 !! lit_var u = Some None) as Hu1 by (by rewrite F7).
  pose proof (b_trail s1 B1) as T1.
  rewrite enqueue_new by done. cbn [mbind option_bind].
  eexists. split; [done|]. split.
  2:{ split; try exact Hsets; try done; try (cbn; congruence). rewrite assigned_num_vars. done. }
  change (qhead (assigned u (Some (length (clauses s))) s1)) with (qhead s1). rewrite F4.
  split.
  - apply assigned_base_ok; [done|done|]. exists (l1 :: tail). split; [apply Hlk; by right|].
    intros q Hin. rewrite F2. by apply Hfalse.
  - rewrite assigned_num_vars, F1. done.
  - intros c lits [Hc|[-> ->]]%Hlk.
    + apply assigned_propagated; [by rewrite F2|]. specialize (P c lits Hc). destruct lits as [|x [|y z]]; [done..|].
      unfold propagated, partnered in *. by rewrite F2, F3.
    + assert (u ∈ trail (assigned u (Some (length (clauses s))) s1)) as Hin by (cbn; apply elem_of_app; right; constructor).
      pose proof (assigned_trail_ok u (Some (length (clauses s))) s1 T1 Hu1) as T2.
      split.
      * apply partnered_unfalsified. intros Hn. by apply (trail_consistent _ T2 u).
      * destruct Hfirst as (j & Hj & Hlev). intros i Hi Hl. exists (length (trail s1)).
        split; [apply assigned_lookup; by right|]. cbn [trail_lim assigned set_trail set_reason set_level set_assign].
        assert (i = j) as ->.
        { eapply (trail_pos_inj _ T2); [exact Hl|apply assigned_lookup; left; by rewrite F2|done]. }
        rewrite F3, Hlev. apply plevel_le.
  - cbn. rewrite F3. done.
  - cbn. rewrite F2, length_app. lia.
  - intros rho. rewrite assigned_admits, Ha, F3, S by done. split; [|by intros [[? _] _]].
    intros H. split; [split; [done|by apply Hent]|]. intros E. destruct Hfirst as (j & Hj & Hlev).
    destruct (Hent rho H) as (l & [->|Hl]%elem_of_cons & Ht); [done|]. exfalso.
    apply Hfalse, list_elem_of_lookup in Hl as [k Hk]. destruct H as [_ H].
    specialize (H k _ Hk). rewrite E in H. rewrite lit_true_negate, Ht in H. by specialize (H eq_refl).
Qed.
