(* ===== verification/SatSolve.v ===== *)
(** * The SAT solver answers, and its answers are right

    [solver_ok Phi s] is the solver's contract with its client: [s] stands for
    the formula [Phi]. Building operations extend [Phi]; solving returns, with
    a model of [Phi], or when [Phi] has none, or when a budget was given and
    is spent. *)
From S2P Require Import Prelude SatSolver SatLits SatProp SatAnalyze SatSearch.
#[local] Open Scope nat_scope.

(** ** Branching *)
Lemma pick_loop_spec fuel s : heap_ok s -> length (order s) <= fuel -> length (phase s) = num_vars s ->
  (forall v, assign s !! v = Some None -> queued s v) ->
  exists r s', pick_loop fuel s = Some (r, s') /\ same_core s s' /\ heap_ok s' /\
    match r with
    | None => forall v, assign s !! v <> Some None
    | Some l => assign s !! lit_var l = Some None /\
        forall v, assign s !! v = Some None -> v = lit_var l \/ queued s' v
    end.
Proof.
  revert s; induction fuel as [|fuel IH]; intros s H Hf Hp Q; cbn [pick_loop];
    destruct (order s) as [|top rest] eqn:Eo; try (cbn in Hf; lia);
    try (exists None, s; split; [done|]; split; [done|]; split; [done|];
      intros v Hv; destruct (Q v Hv) as [i Hi]; apply (heap_order s H) in Hi; by rewrite Eo in Hi).
  destruct (unqueue_top_spec s top rest H Eo) as (s1 & E1 & C1 & H1 & Ht & Q1 & L1).
  rewrite E1. cbn [mbind option_bind]. rewrite (same_assign _ _ C1).
  pose proof Ht as Ht'. apply lookup_lt_is_Some in Ht as [a Ha]. rewrite Ha. cbn [mbind option_bind].
  destruct a as [b|].
  - destruct (IH s1 H1) as (r & s2 & E2 & C2 & H2 & Hr); [cbn in Hf; lia|by unfold num_vars; rewrite (same_phase _ _ C1), (same_assign _ _ C1)| |].
    { rewrite (same_assign _ _ C1). intros v Hv. apply Q1. split; [intros ->; congruence|auto]. }
    exists r, s2. split; [done|]. split; [by etrans|]. split; [done|].
    rewrite (same_assign _ _ C1) in Hr. done.
  - rewrite <- Hp in Ht'. rewrite (same_phase _ _ C1). apply lookup_lt_is_Some in Ht' as [b Hb].
    rewrite Hb. cbn [mbind option_bind]. eexists (Some (lit_new top (negb b))), s1. split; [done|].
    split; [done|]. split; [done|]. rewrite lit_var_new. split; [done|]. intros v Hv.
    destruct (decide (v = top)); [by left|right]. apply Q1. auto.
Qed.

Lemma inv_same_core Phi q s s' : same_core s s' -> queue_ok s' -> inv Phi q s -> inv Phi q s'.
Proof.
  intros E Q [[T R C _] W P L Hq S].
  assert (num_vars s' = num_vars s) as En by (unfold num_vars; by rewrite (same_assign _ _ E)).
  split; rewrite ?En; core_rewrite E; try done.
  - split; [| | |done].
    + destruct T. split; rewrite ?En; core_rewrite E; done.
    + destruct R. split; core_rewrite E; done.
    + unfold clauses_ok. rewrite En. core_rewrite E. done.
  - intros c lits Hc. specialize (P c lits Hc). destruct lits as [|x [|y z]]; [done..|].
    unfold propagated, partnered in *. by core_rewrite E.
  - intros rho. rewrite S. unfold admits. by core_rewrite E.
Qed.

(** A decision opens a level. *)
Definition opened (s : Solver) : Solver := set_trail_lim (trail_lim s ++ [length (trail s)]) s.

Lemma inv_opened Phi s : inv Phi (length (trail s)) s -> inv Phi (length (trail s)) (opened s).
Proof.
  intros [[T R C [[] Q]] W P L Hq S].
  assert (sorted (trail_lim s ++ [length (trail s)])) as Hs.
  { intros i j x y Hij. rewrite !lookup_app_Some, !list_lookup_singleton_Some.
    intros [Hx|(Hi & Hi0 & <-)] [Hy|(Hj & Hj0 & <-)].
    - by apply (tr_sorted s T i j).
    - apply L. by eapply list_elem_of_lookup_2.
    - apply lookup_lt_Some in Hy. lia.
    - done. }
  assert (forall i l, trail s !! i = Some l -> plevel (trail_lim s ++ [length (trail s)]) i = plevel (trail_lim s) i) as Hlev.
  { intros i l Hl. apply plevel_snoc; [done|]. by eapply lookup_lt_Some. }
  split; try done.
  - split; [| | done|split; [by split|done]].
    + destruct T. split; try done.
      * intros i l Hl. cbn. rewrite (Hlev i l) by done. by apply tr_level.
      * cbn. intros x [Hx| ->%list_elem_of_singleton]%elem_of_app; [by apply L|done].
    + split; [|apply R]. cbn. intros i l Hl Hp Hi. rewrite (Hlev i l) in Hp by done.
      apply (re_implied s R i); [done|done|]. intros Hin. apply Hi. apply elem_of_app. by left.
  - intros c lits Hc. specialize (P c lits Hc). destruct lits as [|x [|y z]]; [done..|].
    assert (forall w w', partnered s (length (trail s)) w w' -> partnered (opened s) (length (trail s)) w w') as Hw.
    { intros w w' H i Hi Hl. destruct (H i Hi Hl) as (j & Hj & Hle). exists j. split; [done|]. cbn.
      by rewrite (Hlev i _ Hl), (Hlev j _ Hj). }
    destruct P. by split; apply Hw.
  - cbn. intros x [Hx| ->%list_elem_of_singleton]%elem_of_app; [by apply L|done].
  - intros rho. rewrite S. unfold admits. cbn. split; intros [H1 H2]; (split; [done|]); intros i l Hl Hz.
    + rewrite (Hlev i l Hl) in Hz. by eapply H2.
    + apply (H2 i l Hl). by rewrite (Hlev i l Hl).
Qed.

(** Picking a literal, opening its level and assigning it. *)
Lemma decide_spec Phi s : inv Phi (qhead s) s -> qhead s = length (trail s) ->
  exists r s', pick_branch s = Some (r, s') /\ same_core s s' /\
    match r with
    | None => inv Phi (qhead s') s' /\ forall v, assign s !! v <> Some None
    | Some l => exists s'', enqueue l None (opened s') = Some (true, s'') /\
        inv Phi (qhead s'') s'' /\ num_vars s'' = num_vars s /\ trail s'' = trail s ++ [l] /\
        trail_lim s'' = trail_lim s ++ [length (trail s)] /\ unsat s'' = unsat s /\ seen s'' = seen s /\
        clause_sets s'' = clause_sets s
    end.
Proof.
  intros I Hq. pose proof I as [[T R C [H Q]] _ _ _ _ _].
  destruct (pick_loop_spec (length (order s)) s H ltac:(lia) (tr_phase_len s T) Q) as (r & s' & E & C1 & H1 & Hr).
  exists r, s'. split; [done|]. split; [done|].
  assert (num_vars s' = num_vars s) as En by (unfold num_vars; by rewrite (same_assign _ _ C1)).
  destruct r as [l|].
  2:{ split; [|done]. rewrite (same_qhead _ _ C1). apply (inv_same_core Phi _ s); [done| |done].
      split; [done|]. intros v Hv. rewrite (same_assign _ _ C1) in Hv. by apply Hr in Hv. }
  destruct Hr as [Hl Hrest].
  assert (trail_ok (opened s')) as T'.
  { rewrite Hq in I. apply inv_opened, i_base, b_trail in I. destruct I.
    unfold opened, num_vars in *. split; cbn in *; core_rewrite C1; done. }
  rewrite enqueue_new; [|done|by cbn; rewrite (same_assign _ _ C1)].
  eexists. split; [done|]. split.
  - assert (inv Phi (length (trail s)) (assigned l None (opened s))) as I2.
    { rewrite Hq in I. eapply inv_iff; [|apply inv_assigned; [by apply inv_opened|done|]].
      - intros rho. cbn. split; [by intros [? _]|]. intros Hp. split; [done|]. intros E0.
        by apply app_eq_nil in E0 as [_ E0].
      - left. cbn. apply elem_of_app. right. constructor. }
    change (qhead (assigned l None (opened s'))) with (qhead s'). rewrite (same_qhead _ _ C1), Hq.
    apply (inv_same_core Phi _ (assigned l None (opened s))); [| |done].
    + unfold same_core. exact (f_equal (fun c => core (assigned l None (opened c))) C1).
    + split.
      * destruct H1. split; rewrite ?assigned_num_vars; done.
      * cbn. intros v Hv. apply list_lookup_insert_Some in Hv as [(_ & ? & _)|[Hne Hv]]; [done|].
        rewrite (same_assign _ _ C1) in Hv. by destruct (Hrest v Hv) as [->|?].
  - rewrite assigned_num_vars. unfold clause_sets. cbn. core_rewrite C1. done.
Qed.

(** ** Progress: how many clauses and units can still be learnt *)
Fixpoint all_sets (k : nat) : gset (gset nat) :=
  match k with
  | O => {[∅]}
  | S k => all_sets k ∪ set_map (fun X : gset nat => {[k]} ∪ X) (all_sets k)
  end.

Lemma all_sets_complete k (X : gset nat) : (forall x, x ∈ X -> x < k) -> X ∈ all_sets k.
Proof.
  revert X; induction k as [|k IH]; intros X HX; cbn [all_sets].
  - apply elem_of_singleton. apply set_eq. intros x. split; [|set_solver]. intros H%HX. lia.
  - apply elem_of_union. destruct (decide (k ∈ X)) as [Hk|Hk].
    + right. apply elem_of_map. exists (X ∖ {[k]}). split.
      * apply set_eq. intros x. destruct (decide (x = k)); set_solver.
      * apply IH. intros x [Hx Hne]%elem_of_difference. apply HX in Hx. assert (x <> k) by set_solver. lia.
    + left. apply IH. intros x Hx. assert (x <> k) by (intros ->; done). apply HX in Hx. lia.
Qed.

Lemma size_union_le (X Y : gset (gset nat)) : size (X ∪ Y) <= size X + size Y.
Proof. rewrite size_union_alt. apply Nat.add_le_mono_l, subseteq_size. set_solver. Qed.

Lemma size_list_to_set_le (l : list (gset nat)) : size (list_to_set l : gset (gset nat)) <= length l.
Proof.
  induction l as [|x l IH]; cbn; [by rewrite size_empty|]. etrans; [apply size_union_le|].
  rewrite size_singleton. lia.
Qed.

Lemma all_sets_size k : size (all_sets k) <= 2 ^ k.
Proof.
  induction k as [|k IH]; cbn [all_sets]; [by rewrite size_singleton|].
  etrans; [apply size_union_le|]. cbn [Nat.pow]. unfold set_map.
  assert (size (list_to_set ((fun X : gset nat => {[k]} ∪ X) <$> elements (all_sets k)) : gset (gset nat)) <= size (all_sets k)).
  { etrans; [apply size_list_to_set_le|]. by rewrite length_fmap. }
  lia.
Qed.

(** The clauses not yet present, and the variables not yet fixed at level 0. *)
Definition root_len (s : Solver) : nat :=
  match trail_lim s with [] => length (trail s) | x :: _ => x end.
Definition room (s : Solver) : nat :=
  size (all_sets (2 * num_vars s) ∖ clause_sets s) + (num_vars s - root_len s).

Lemma room_bound s : room s <= 2 ^ (2 * num_vars s) + num_vars s.
Proof.
  unfold room. pose proof (all_sets_size (2 * num_vars s)).
  assert (size (all_sets (2 * num_vars s) ∖ clause_sets s) <= size (all_sets (2 * num_vars s))) by (apply subseteq_size; set_solver).
  lia.
Qed.

(** The learnt clause is new: a clause with these literals would have been
    propagated at a lower level. *)
Lemma asserting_new Phi q s u tail bt : inv Phi q s -> asserting s u tail bt ->
  list_to_set (u :: tail) ∉ clause_sets s.
Proof.
  intros I A Hin. unfold clause_sets in Hin. apply elem_of_list_to_set, list_elem_of_fmap in Hin as (lits & E & Hin).
  apply list_elem_of_lookup in Hin as [c Hc].
  assert (forall l, l ∈ lits <-> l ∈ u :: tail) as Hl.
  { intros l. rewrite <- !(elem_of_list_to_set (C := gset nat)). by rewrite E. }
  pose proof (b_trail s (i_base _ _ _ I)) as T. pose proof (tr_sorted s T) as Hs.
  destruct A as [(i & Hi & Hlev) A2 _ A4 _ _].
  assert (forall l, l ∈ lits -> negate l ∈ trail s) as Hfalse.
  { intros l [->|Hl'%A2]%Hl%elem_of_cons; [by eapply list_elem_of_lookup_2|].
    destruct Hl' as (j & Hj & _). by eapply list_elem_of_lookup_2. }
  destruct (b_clauses s (i_base _ _ _ I) c lits Hc) as (Hlen & Hnd & _).
  pose proof (i_prop _ _ _ I c lits Hc) as P.
  destruct lits as [|a [|b t]]; cbn in Hlen; [lia..|]. destruct P as [P1 P2].
  assert (a <> b) as Hab.
  { intros ->. cbn in Hnd. apply list.NoDup_cons in Hnd as [Hnd _]. apply Hnd. constructor. }
  assert (forall w w', w ∈ tail -> w' ∈ a :: b :: t -> partnered s q w w' -> False) as Hno.
  { intros w w' Hw Hw' Hp. destruct (A2 w Hw) as (j & Hj & Hjl).
    assert (j < q) as Hjq.
    { destruct (lookup_lt_is_Some_2 (trail_lim s) bt A4) as [x Hx].
      pose proof (plevel_lt _ _ _ j Hs Hx) as [_ Hjx].
      pose proof (i_lims _ _ _ I x (list_elem_of_lookup_2 _ _ _ Hx)). lia. }
    destruct (Hp j Hjq Hj) as (k & Hk & _).
    apply (trail_consistent s T w'); [by eapply list_elem_of_lookup_2|by apply Hfalse]. }
  assert (a ∈ u :: tail) as Ha by (apply Hl; constructor).
  assert (b ∈ u :: tail) as Hb by (apply Hl; do 2 constructor).
  apply elem_of_cons in Ha as [->|Ha]; [|by apply (Hno a b); [done|do 2 constructor|]].
  apply elem_of_cons in Hb as [->|Hb]; [done|]. apply (Hno b u); [done|constructor|done].
Qed.

Lemma clause_in_all_sets n (lits : list Lit) : (forall l, l ∈ lits -> lit_var l < n) ->
  list_to_set lits ∈ all_sets (2 * n).
Proof. intros H. apply all_sets_complete. intros x Hx%elem_of_list_to_set%H. by apply lit_lt. Qed.

(** ** A conflict above level 0: analyse, jump back, learn *)
Lemma conflict_spec Phi s c : propagate_post Phi (Some c) s -> unseen s -> 0 < decision_level s ->
  exists u tail bt s1 s2 s3, analyze c s = Some (u :: tail, bt, s1) /\ cancel_until bt s1 = Some s2 /\
    learn (u :: tail) s2 = Some s3 /\ inv Phi (qhead s3) s3 /\ unseen s3 /\
    num_vars s3 = num_vars s /\ unsat s3 = unsat s /\ qhead s3 <= length (trail s3) /\ room s3 < room s.
Proof.
  intros [_ (q & l & I & Hq & F)] Hun Hd. pose proof (i_base _ _ _ I) as B. pose proof (b_trail s B) as T.
  destruct (analyze_spec s c q l B Hd Hun (i_lims _ _ _ I) Hq F) as (u & tail & bt & s1 & E1 & S1 & A).
  pose proof (asserting_new _ _ _ _ _ _ I A) as Hnew.
  destruct S1 as (C1 & H1 & Q1 & _).
  assert (inv Phi q s1) as I1.
  { apply (inv_same_core Phi q s); [done| |done]. split; [done|]. intros v Hv. rewrite (same_assign _ _ C1) in Hv.
    apply Q1. by apply (b_queue s B). }
  destruct (cancel_until_spec Phi q s1 bt I1) as (t & s2 & Ht & E2 & K & I2).
  { unfold decision_level. rewrite (same_trail_lim _ _ C1). apply A. }
  destruct K as [K1 K2 K3 K4 K5 K6 K7 K8].
  rewrite (same_clauses _ _ C1) in K1. rewrite (same_unsat _ _ C1) in K2. rewrite (same_seen _ _ C1) in K3.
  rewrite (same_trail _ _ C1) in K5. rewrite (same_trail_lim _ _ C1) in K6, Ht.
  unfold num_vars in K4. rewrite (same_assign _ _ C1) in K4. fold (num_vars s2) (num_vars s) in K4.
  pose proof (tr_sorted s T) as Hs. pose proof (b_trail s2 (i_base _ _ _ I2)) as T2.
  assert (forall i, plevel (trail_lim s) i <= bt <-> i < t) as Hlt by (intros; symmetry; by apply plevel_lt).
  destruct A as [(i & Hi & Hlev) A2 A3 A4 A5 A6].
  assert (lit_var u < num_vars s) as Hu.
  { rewrite <- lit_var_negate. apply (trail_var s T). by eapply list_elem_of_lookup_2. }
  assert (assign s2 !! lit_var u = Some None) as Hu2.
  { assert (forall x, lit_var x = lit_var u -> x ∉ trail s2) as Hoff.
    { intros x Ex Hx. apply list_elem_of_lookup in Hx as [j Hj]. rewrite K5 in Hj.
      apply lookup_take_Some in Hj as [Hj Hjt].
      assert (i = j) as -> by (eapply (trail_pos_inj s T); [done..|by rewrite lit_var_negate]).
      apply Hlt in Hjt. lia. }
    rewrite <- K4 in Hu.
    destruct (value_lit_spec s2 T2 u Hu) as [(_ & H & _)|[(_ & H & _)|(_ & H & _)]]; [exfalso..|done].
    - by apply (Hoff u).
    - apply (Hoff (negate u)); [apply lit_var_negate|done]. }
  assert (forall x j, trail s !! j = Some x -> plevel (trail_lim s) j <= bt ->
    trail s2 !! j = Some x /\ plevel (trail_lim s2) j = plevel (trail_lim s) j) as Hback.
  { intros x j Hj Hl. apply Hlt in Hl. rewrite K5, K6. split; [by apply lookup_take_Some|by apply (plevel_take _ _ t)]. }
  assert (decision_level s2 = bt) as Hdl.
  { unfold decision_level in *. rewrite K6, length_take. apply lookup_lt_Some in Ht. lia. }
  destruct (learn_spec Phi s2 u tail I2) as (s3 & E3 & I3 & L); try done.
  - intros x Hx. destruct (A2 x Hx) as (j & Hj & Hjl).
    destruct (Hback _ j Hj) as [Hj2 _]; [lia|]. by eapply list_elem_of_lookup_2.
  - destruct tail as [|l1 tail].
    + subst bt. rewrite K6. done.
    + destruct A3 as (j & Hj & Hjl). exists j. destruct (Hback _ j Hj) as [Hj2 E]; [lia|]. split; [done|]. lia.
  - intros rho Hr. apply A6. apply (i_sound _ _ _ I). by apply (i_sound _ _ _ I2).
  - destruct L as [L1 L2 L3 L4 L5 L6 L7].
    exists u, tail, bt, s1, s2, s3. split; [done|]. split; [done|]. split; [done|]. split; [done|].
    split; [unfold unseen; rewrite L6, K3, L1, K4; exact Hun|]. split; [congruence|]. split; [congruence|].
    split; [exact (i_q _ _ _ I3)|].
    assert (clause_sets s2 = clause_sets s) as Ecs by (unfold clause_sets; by rewrite K1).
    assert (num_vars s3 = num_vars s) as En3 by congruence.
    unfold room. rewrite En3, L7, Ecs.
    assert (length (trail s3) <= num_vars s) as Hlen.
    { transitivity (num_vars s3); [apply trail_length, I3|by rewrite L1, K4]. }
    assert (root_len s <= root_len s3 /\ (tail = [] -> root_len s < root_len s3 <= num_vars s)) as [Hr1 Hr2].
    { rewrite L2, length_app in Hlen. cbn in Hlen.
      unfold root_len. rewrite L3, K6, L2, length_app, K8. cbn.
      destruct (trail_lim s) as [|x lims] eqn:El; [by rewrite lookup_nil in Ht|].
      destruct bt as [|bt]; cbn.
      - injection Ht as ->. lia.
      - split; [lia|]. intros ->. lia. }
    destruct tail as [|l1 tail]; [specialize (Hr2 eq_refl); lia|]. clear Hr2.
    assert (size (all_sets (2 * num_vars s) ∖ (clause_sets s ∪ {[list_to_set (u :: l1 :: tail)]}))
      < size (all_sets (2 * num_vars s) ∖ clause_sets s)) as Hsize; [|lia].
    apply subset_size. split; [set_solver|]. intros Hsub.
    assert (list_to_set (u :: l1 :: tail) ∈ all_sets (2 * num_vars s)) as Hall.
    { apply clause_in_all_sets. intros x [->|Hx]%elem_of_cons; [done|]. destruct (A2 x Hx) as (j & Hj & _).
      rewrite <- lit_var_negate. apply (trail_var s T). by eapply list_elem_of_lookup_2. }
    assert (list_to_set (u :: l1 :: tail) ∈ all_sets (2 * num_vars s) ∖ clause_sets s) as Hd1 by (by apply elem_of_difference).
    apply Hsub, elem_of_difference in Hd1 as [_ Hd1]. apply Hd1, elem_of_union_r. by apply elem_of_singleton.
Qed.

(** ** The main loop *)
Definition val_of (m : list bool) : valuation := fun v => nth v m false.

Lemma model_lit s l : trail_ok s -> l ∈ trail s -> lit_true (val_of (model s)) l = true.
Proof.
  intros T Hl%(tr_assign s T). unfold lit_true, val_of, model.
  rewrite nth_lookup, list_lookup_fmap, Hl. cbn. by destruct (is_negated l).
Qed.

Lemma complete_model Phi s : inv Phi (length (trail s)) s -> (forall v, assign s !! v <> Some None) ->
  Phi (val_of (model s)).
Proof.
  intros I Hall. pose proof (i_base _ _ _ I) as B. pose proof (b_trail s B) as T.
  apply (i_sound _ _ _ I). split.
  - intros c lits Hc. destruct (b_clauses s B c lits Hc) as (Hlen & _ & Hv).
    pose proof (i_prop _ _ _ I c lits Hc) as P.
    destruct lits as [|a [|b t]]; cbn in Hlen; [lia..|]. destruct P as [P _].
    assert (lit_var a < num_vars s) as Ha by (apply Hv; constructor).
    destruct (value_lit_spec s T a Ha) as [(_ & H & _)|[(_ & H & _)|(_ & H & _)]].
    + exists a. split; [constructor|by apply model_lit].
    + apply list_elem_of_lookup in H as [i Hi].
      destruct (P i) as (j & Hj & _); [by eapply lookup_lt_Some|done|].
      exists b. split; [do 2 constructor|]. apply model_lit; [done|]. by eapply list_elem_of_lookup_2.
    + by apply Hall in H.
  - intros i l Hl _. apply model_lit; [done|]. by eapply list_elem_of_lookup_2.
Qed.

Lemma root_conflict Phi s c : propagate_post Phi (Some c) s -> decision_level s = 0 -> forall rho, ~ Phi rho.
Proof.
  intros [_ (q & l & I & _ & (lits & Hc & _ & Hfalse))] Hd rho [H1 H2]%(i_sound _ _ _ I).
  destruct (H1 c lits Hc) as (x & Hx & Ht). apply Hfalse, list_elem_of_lookup in Hx as [i Hi].
  specialize (H2 i _ Hi). rewrite lit_true_negate, Ht in H2.
  assert (plevel (trail_lim s) i = 0) as E by (pose proof (plevel_le (trail_lim s) i); unfold decision_level in Hd; lia).
  by specialize (H2 E).
Qed.

Lemma grows_room k s s' : grows (set_qhead k s) s' -> room s' <= room s /\ length (trail s) <= length (trail s').
Proof.
  intros [G1 G2 _ _ _ [ext G5] G6]. unfold room, root_len in *.
  change (num_vars (set_qhead k s)) with (num_vars s) in G1.
  change (clause_sets (set_qhead k s)) with (clause_sets s) in G6. rewrite G1, G6, G2. cbn in *.
  rewrite G5, length_app. split; [|lia]. destruct (trail_lim s); lia.
Qed.

(** What a verdict means for the formula. *)
Definition verdict (Phi : valuation -> Prop) (n : nat) (budget : option N) (r : SatResult) : Prop :=
  match r with
  | Sat m => length m = n /\ Phi (val_of m)
  | Unsat => forall rho, ~ Phi rho
  | Unknown => is_Some budget
  end.

(** What the solver stands for. An unsatisfiable solver keeps its tables. *)
Definition solver_ok (Phi : valuation -> Prop) (s : Solver) : Prop :=
  exists Psi q, inv Psi q s /\ unseen s /\
    if unsat s then forall rho, ~ Phi rho else q = qhead s /\ forall rho, Psi rho <-> Phi rho.

Lemma inv_solver_ok Phi s : inv Phi (qhead s) s -> unseen s -> unsat s = false -> solver_ok Phi s.
Proof. intros I Hu E. exists Phi, (qhead s). rewrite E. done. Qed.

(** Fuel that is enough for a state. *)
Definition work (s : Solver) : nat := room s * (num_vars s + 2) + (num_vars s - length (trail s)).

Lemma restart_spec Phi s : inv Phi (qhead s) s -> exists s', cancel_until 0 s = Some s' /\
  inv Phi (qhead s') s' /\ seen s' = seen s /\ unsat s' = unsat s /\ num_vars s' = num_vars s /\ room s' = room s.
Proof.
  intros I. destruct (decide (decision_level s = 0)) as [Hd|Hd].
  { exists s. unfold cancel_until. rewrite Hd. done. }
  destruct (cancel_until_spec Phi _ s 0 I ltac:(lia)) as (t & s' & Ht & E & K & I').
  exists s'. split; [done|]. split; [done|]. destruct K. do 3 (split; [done|]).
  unfold room, clause_sets, root_len. rewrite bk_vars, bk_clauses, bk_lim, bk_length. cbn.
  destruct (trail_lim s) as [|x lims]; [done|]. by injection Ht as ->.
Qed.

Lemma solve_loop_spec Phi fuel mc conf rn lim s :
  inv Phi (qhead s) s -> unseen s -> unsat s = false -> work s < fuel ->
  exists r s', solve_loop fuel mc conf rn lim s = Some (r, s') /\ num_vars s' = num_vars s /\
    solver_ok Phi s' /\ verdict Phi (num_vars s) mc r.
Proof.
  revert conf rn lim s; induction fuel as [|fuel IH]; intros conf rn lim s I Hun Hsat Hf; [lia|].
  cbn [solve_loop].
  destruct (propagate_spec Phi s I) as (confl & s1 & E1 & G1 & P1). rewrite E1. cbn [mbind option_bind].
  pose proof (grows_room _ _ _ G1) as [Hroom Hlen].
  assert (num_vars s1 = num_vars s) as En1 by exact (g_vars _ _ G1).
  assert (unseen s1) as Hun1 by (unfold unseen; rewrite (g_seen _ _ G1), En1; exact Hun).
  assert (unsat s1 = false) as Hsat1 by (rewrite (g_unsat _ _ G1); exact Hsat).
  clear G1 E1 I Hun Hsat.
  destruct confl as [c|].
  - destruct (Nat.eqb_spec (decision_level s1) 0) as [Hd|Hd].
    { exists Unsat, (set_unsat true s1). split; [done|]. split; [done|].
      pose proof (root_conflict _ _ _ P1 Hd) as Hno. split; [|done].
      destruct P1 as [_ (q & l & I & _)]. exists Phi, q. split; [|done].
      destruct I as [B W P L Q S]. split; try done. by apply (base_frame s1). }
    destruct (conflict_spec Phi s1 c P1 Hun1 ltac:(lia)) as (u & tail & bt & s2 & s3 & s4 & Ea & Eb & Ec & I4 & Hun4 & En4 & Hsat4 & Hq4 & Hroom4).
    rewrite Ea. cbn [mbind option_bind]. rewrite Eb. cbn [mbind option_bind]. rewrite Ec. cbn [mbind option_bind].
    set (s5 := decay s4).
    assert (inv Phi (qhead s5) s5) as I5.
    { apply (inv_same_core Phi _ s4); [done| |done]. destruct (b_queue _ (i_base _ _ _ I4)) as [[] Q]. by split. }
    assert (num_vars s5 = num_vars s) as En5 by (change (num_vars s5) with (num_vars s4); congruence).
    assert (room s5 * (num_vars s5 + 2) + (num_vars s5 + 2) <= room s * (num_vars s + 2)) as Hwork.
    { rewrite En5. change (room s5) with (room s4). nia. }
    assert (solver_ok Phi s5) as Hok5 by (apply inv_solver_ok; [done..|]; by rewrite <- Hsat1).
    assert (unsat s5 = false) as Hsat5 by by rewrite <- Hsat1.
    assert (unseen s5) as Hun5 by exact Hun4. clearbody s5. unfold work in Hf.
    destruct (match mc with Some m => (m <=? conf + 1)%N | None => false end) eqn:Em.
    { exists Unknown, s5. split; [done|]. split; [done|]. split; [done|]. destruct mc; [by eexists|done]. }
    destruct (lim <=? conf + 1)%N.
    + destruct (luby_total (rn + 1)) as [lb Hlb]. rewrite Hlb. cbn [mbind option_bind].
      destruct (restart_spec Phi s5 I5) as (s6 & E6 & I6 & Hun6 & Hsat6 & En6 & Hr6).
      rewrite E6. cbn [mbind option_bind]. rewrite <- En5, <- En6.
      apply IH; [done|unfold unseen; rewrite Hun6, En6; exact Hun5|congruence|]. unfold work. rewrite Hr6, En6. lia.
    + rewrite <- En5. apply IH; [done..|]. unfold work. lia.
  - destruct P1 as [Hq1 I1].
    destruct (decide_spec Phi s1 I1 Hq1) as (r & s2 & E2 & C2 & Hr). rewrite E2. cbn [mbind option_bind].
    assert (num_vars s2 = num_vars s1) as En2 by (unfold num_vars; by rewrite (same_assign _ _ C2)).
    destruct r as [l|].
    + destruct Hr as (s3 & E3 & I3 & En3 & T3 & L3 & Hsat3 & Hun3 & Hs3).
      change (set_trail_lim (trail_lim s2 ++ [length (trail s2)]) s2) with (opened s2).
      rewrite E3. cbn [mbind option_bind]. rewrite <- En1, <- En3.
      pose proof (trail_length s3 (b_trail _ (i_base _ _ _ I3))) as Hl3. rewrite T3, length_app in Hl3. cbn in Hl3.
      assert (room s3 = room s1) as Hr3.
      { unfold room. rewrite En3, Hs3. do 2 f_equal. unfold root_len. rewrite L3, T3.
        destruct (trail_lim s1); done. }
      apply IH; [done|unfold unseen; rewrite Hun3, En3; exact Hun1|congruence|].
      unfold work in *. rewrite Hr3, En3, En1, T3, length_app. rewrite En3, En1 in Hl3. cbn.
      assert (room s1 * (num_vars s + 2) <= room s * (num_vars s + 2)) by (apply Nat.mul_le_mono_r; done). lia.
    + destruct Hr as [I2 Hall]. exists (Sat (model s2)), s2. split; [done|]. split; [congruence|]. split.
      * apply inv_solver_ok; [done| |by rewrite (same_unsat _ _ C2)].
        unfold unseen. rewrite (same_seen _ _ C2), En2. exact Hun1.
      * split; [transitivity (num_vars s2); [apply length_map|congruence]|].
        apply complete_model; [|by rewrite (same_assign _ _ C2)].
        rewrite (same_qhead _ _ C2), Hq1, <- (same_trail _ _ C2) in I2. done.
Qed.

Theorem solve_with_budget_spec Phi fuel mc s : solver_ok Phi s -> work s < fuel ->
  exists r s', solve_with_budget fuel mc s = Some (r, s') /\ num_vars s' = num_vars s /\
    solver_ok Phi s' /\ verdict Phi (num_vars s) mc r.
Proof.
  intros (Psi & q & I & Hun & H) Hf. unfold solve_with_budget. destruct (unsat s) eqn:Es.
  { exists Unsat, s. split; [done|]. split; [done|]. split; [|done]. exists Psi, q. rewrite Es. done. }
  destruct H as [-> HPhi]. destruct (luby_total 0) as [u Hu]. rewrite Hu. cbn [mbind option_bind].
  apply solve_loop_spec; [by eapply inv_iff|done..].
Qed.

(** ** Building a formula *)
Lemma solver_ok_new : solver_ok (fun _ => True) new.
Proof.
  exists (fun _ => True), 0. split; [|split; [done|by split]].
  split; try done.
  - split.
    + split; try done; cbn; [by apply list.NoDup_nil| |intros x H; by apply not_elem_of_nil in H].
      intros l. rewrite lookup_nil. split; [intros H; by apply not_elem_of_nil in H|done].
    + split; done.
    + intros c lits Hc. done.
    + split; [|done]. split; try done.
  - intros x H. by apply not_elem_of_nil in H.
Qed.

(** The state that [new_var] queues the variable in. *)
Definition grown (s : Solver) : Solver :=
  mkSolver (clauses s) (watches s ++ [[]; []]) (assign s ++ [None]) (level s ++ [0]) (reason s ++ [None])
    (phase s ++ [false]) (activity s ++ [f64_zero]) (var_inc s) (trail s) (qhead s) (trail_lim s) (unsat s)
    (order s) (order_slot s ++ [None]) (seen s ++ [false]).

Lemma grown_vars s : num_vars (grown s) = S (num_vars s).
Proof. unfold num_vars, grown. cbn [assign]. rewrite length_app. cbn. lia. Qed.

Lemma lookup_snoc_old {A} (l : list A) x i y : i < length l -> (l ++ [x]) !! i = Some y <-> l !! i = Some y.
Proof. intros H. by rewrite lookup_app_l. Qed.

Lemma grown_heap_ok s : heap_ok s -> heap_ok (grown s).
Proof.
  intros [H1 H2 H3]. split; rewrite ?grown_vars; unfold grown; cbn [activity order_slot order]; rewrite ?length_app; cbn; try lia.
  intros i v. rewrite H3, lookup_app_Some, list_lookup_singleton_Some. split; [by left|].
  intros [?|(_ & _ & ?)]; done.
Qed.

Lemma grown_trail_ok s : trail_ok s -> trail_ok (grown s).
Proof.
  intros T. pose proof (trail_var s T) as Hv. pose proof (assigned_on_trail s T) as Ht. destruct T as [T1 T2 T3 T4 T5 T6 T7 T8].
  split; rewrite ?grown_vars; unfold grown; cbn [level reason phase trail assign trail_lim]; rewrite ?length_app; cbn; try done; try lia.
  - intros l. rewrite T5, lookup_app_Some, list_lookup_singleton_Some. split; [by left|].
    intros [?|(_ & _ & ?)]; done.
  - intros i l Hl. apply T6 in Hl as E. rewrite lookup_app_l; [done|]. by eapply lookup_lt_Some.
Qed.

Lemma inv_grown Phi q s s' : inv Phi q s -> same_core (grown s) s' -> heap_ok s' ->
  (forall u, queued s' u <-> u = num_vars s \/ queued (grown s) u) -> inv Phi q s'.
Proof.
  intros [[T R C [H Q]] W P L Hq S] E H' Q'.
  assert (inv Phi q (set_order (order s') (set_order_slot (order_slot s') (set_activity (activity s') (grown s))))) as I.
  { assert (num_vars s' = Datatypes.S (num_vars s)) as En.
    { rewrite <- grown_vars. unfold num_vars. by rewrite (same_assign _ _ E). }
    split; try done.
    - split.
      + destruct (grown_trail_ok s T). by split.
      + destruct R as [R1 R2]. pose proof (trail_var s T) as Hv. split.
        * intros i l Hl Hp Hi. destruct (R1 i l Hl Hp Hi) as [c Hc]. exists c. cbn. rewrite lookup_app_l; [done|]. by eapply lookup_lt_Some.
        * intros i l c Hl Hr. apply (R2 i l c Hl). cbn in Hr. rewrite lookup_app_l in Hr; [done|].
          rewrite (tr_reason_len s T). apply Hv. by eapply list_elem_of_lookup_2.
      + intros c lits Hc. destruct (C c lits Hc) as (C1 & C2 & C3). split; [done|]. split; [done|].
        intros l Hl%C3. change (num_vars _) with (num_vars (grown s)). rewrite grown_vars. lia.
      + split.
        * destruct H'. split; [..|done]; change (num_vars (set_order _ _)) with (num_vars (grown s)); by rewrite grown_vars, <- En.
        * cbn. intros v Hv. apply Q'. apply lookup_app_Some in Hv as [Hv|(Hle & Hv)].
          -- right. destruct (Q v Hv) as [i Hi]. exists i. cbn. by apply lookup_app_l_Some.
          -- left. apply list_lookup_singleton_Some in Hv as [Hv _]. unfold num_vars. lia.
    - change (num_vars _) with (num_vars (grown s)). rewrite grown_vars. destruct W as [Hlen W]. cbn. split.
      + rewrite length_app, Hlen. cbn. lia.
      + intros l ws [Hl|(Hge & Hl)]%lookup_app_Some; [by apply W|].
        assert (ws = []) as -> by (apply list_elem_of_lookup_2 in Hl; set_solver).
        split; [constructor|]. intros c. split; [intros Hc; by apply not_elem_of_nil in Hc|].
        intros (lits & Hc & Hin). exfalso. destruct (C c lits Hc) as (_ & _ & C3).
        assert (l ∈ lits) as Hl2 by (destruct (proj1 (elem_of_take _ _ _) Hin) as (i & Hi & _); by eapply list_elem_of_lookup_2).
        apply C3, lit_lt in Hl2. rewrite <- Hlen in Hl2. lia. }
  eapply (inv_same_core Phi q _ s'); [|split; [done|]|exact I].
  - exact E.
  - rewrite (same_assign _ _ E). exact (proj2 (b_queue _ (i_base _ _ _ I))).
Qed.

Theorem new_var_spec Phi s : solver_ok Phi s ->
  exists s', new_var s = Some (num_vars s, s') /\ solver_ok Phi s' /\ num_vars s' = S (num_vars s) /\
    qhead s' = qhead s /\ trail_lim s' = trail_lim s /\ unsat s' = unsat s.
Proof.
  intros (Psi & q & I & Hun & Hs).
  assert (heap_ok (grown s)) as H1 by (apply grown_heap_ok, (b_queue s), I).
  destruct (queue_spec (num_vars s) (grown s) H1) as (s' & E & C & H' & Q'); [rewrite grown_vars; lia|].
  exists s'. unfold new_var. cbn zeta.
  change (set_seen _ _) with (grown s). change (length (assign s)) with (num_vars s). rewrite E. cbn [mbind option_bind].
  split; [done|].
  assert (num_vars s' = S (num_vars s)) as En by (rewrite <- grown_vars; unfold num_vars; by rewrite (same_assign _ _ C)).
  split; [|split; [done|by core_rewrite C]].
  exists Psi, q. split; [by eapply inv_grown|]. split.
  - unfold unseen. rewrite En, (same_seen _ _ C). cbn. rewrite Hun. by rewrite <- replicate_S_end.
  - by rewrite (same_unsat _ _ C), (same_qhead _ _ C).
Qed.

(** Clauses are added before any propagation. *)
Definition building (s : Solver) : Prop := qhead s = 0 /\ trail_lim s = [].

Lemma dedup_clause_true lits cl rho : dedup lits [] = Some cl -> clause_true rho cl <-> clause_true rho lits.
Proof.
  intros E. pose proof (dedup_spec lits [] ltac:(by apply list.NoDup_nil)) as H. rewrite E in H.
  destruct H as [_ H]. unfold clause_true. by setoid_rewrite H.
Qed.

Lemma solver_ok_iff Phi Phi' s : (forall rho, Phi rho <-> Phi' rho) -> solver_ok Phi s -> solver_ok Phi' s.
Proof.
  intros E (Psi & q & I & Hun & H). exists Psi, q. split; [done|]. split; [done|].
  destruct (unsat s); [intros rho; rewrite <- E; apply H|]. destruct H as [-> H]. split; [done|].
  intros rho. by rewrite <- E.
Qed.

(** A unit of the formula. *)
Lemma add_unit_spec Phi s l : inv Phi (qhead s) s -> unseen s -> unsat s = false -> trail_lim s = [] ->
  lit_var l < num_vars s ->
  exists ok s', enqueue l None s = Some (ok, s') /\ num_vars s' = num_vars s /\ qhead s' = qhead s /\
    trail_lim s' = trail_lim s /\
    solver_ok (fun rho => Phi rho /\ lit_true rho l = true) (if ok : bool then s' else set_unsat true s').
Proof.
  intros I Hun Hsat Hlim Hl. pose proof (b_trail s (i_base _ _ _ I)) as T.
  assert (forall x, x ∈ trail s -> forall rho, Phi rho -> lit_true rho x = true) as Hroot.
  { intros x Hx rho Hr. apply (i_sound _ _ _ I) in Hr as [_ Hr]. apply list_elem_of_lookup in Hx as [i Hi].
    apply (Hr i); [done|]. by rewrite Hlim. }
  destruct (value_lit_spec s T l Hl) as [(E & H1 & _)|[(E & H1 & _)|(E & Hn & _)]].
  - exists true, s. unfold enqueue. rewrite E. do 4 (split; [done|]).
    eapply solver_ok_iff; [|by apply inv_solver_ok]. intros rho. split; [|by intros [? _]]. intros Hr. split; [done|].
    by apply Hroot.
  - exists false, s. unfold enqueue. rewrite E. do 4 (split; [done|]). exists Phi, (qhead s).
    split; [|split; [done|]].
    + destruct I as [B W P L Q S]. split; try done. by apply (base_frame s).
    + cbn. intros rho [Hr Ht]. apply (Hroot _ H1) in Hr. by rewrite lit_true_negate, Ht in Hr.
  - exists true, (assigned l None s). rewrite enqueue_new by done. split; [done|].
    split; [apply assigned_num_vars|]. do 2 (split; [done|]). apply inv_solver_ok; [| |done].
    + eapply inv_iff; [|apply inv_assigned; [done|done|by right]]. intros rho. rewrite Hlim. naive_solver.
    + unfold unseen. rewrite assigned_num_vars. exact Hun.
Qed.

Theorem add_clause_spec Phi s lits : solver_ok Phi s -> building s ->
  (forall l, l ∈ lits -> lit_var l < num_vars s) ->
  exists s', add_clause lits s = Some s' /\ num_vars s' = num_vars s /\ building s' /\
    solver_ok (fun rho => Phi rho /\ clause_true rho lits) s'.
Proof.
  intros Hok [Hq Hlim] Hv. pose proof Hok as (Psi & q & I & Hun & H). unfold add_clause.
  destruct (unsat s) eqn:Es.
  { exists s. do 3 (split; [done|]). exists Psi, q. split; [done|]. split; [done|]. rewrite Es.
    intros rho [Hr _]. by apply (H rho). }
  destruct H as [-> HPsi]. assert (inv Phi (qhead s) s) as I' by by eapply inv_iff. clear Psi I HPsi.
  pose proof (dedup_spec lits [] ltac:(by apply list.NoDup_nil)) as Hd. cbn [app] in Hd.
  destruct (dedup lits []) as [cl|] eqn:Ed.
  2:{ exists s. do 3 (split; [done|]). eapply solver_ok_iff; [|exact Hok]. naive_solver. }
  destruct Hd as [Hnd Hin]. pose proof (dedup_clause_true lits cl) as Ht.
  assert (forall l, l ∈ cl -> lit_var l < num_vars s) as Hv' by (intros l Hl%Hin; auto).
  destruct cl as [|a [|b cl]].
  - exists (set_unsat true s). do 3 (split; [done|]). exists Phi, (qhead s). split; [|split; [done|]].
    + destruct I' as [B W P L Q S]. split; try done. by apply (base_frame s).
    + cbn. intros rho [_ Hr]. by apply (Ht rho Ed), clause_true_nil in Hr.
  - destruct (add_unit_spec Phi s a I' Hun Es Hlim) as (ok & s' & E & En & Eq & El & Hs'); [apply Hv'; constructor|].
    rewrite E. cbn [mbind option_bind]. eexists. split; [done|]. split; [by destruct ok|].
    split; [split; destruct ok; cbn; congruence|]. eapply solver_ok_iff; [|exact Hs'].
    intros rho. cbn. rewrite <- (Ht rho Ed), clause_true_cons. pose proof (clause_true_nil rho). naive_solver.
  - assert (clause_ok (num_vars s) (a :: b :: cl)) as Hcok by (split; [cbn; lia|done]).
    destruct I' as [B W P L Q S].
    rewrite (add_watched_clause_eq _ _ W Hcok). cbn [mbind option_bind].
    pose proof (added_frame _ s Hcok) as (F1 & F2 & F3 & F4 & F5 & F6 & F7).
    eexists. split; [done|]. split; [done|]. split; [split; congruence|].
    apply inv_solver_ok; [|unfold unseen; rewrite F1, F6; exact Hun|congruence].
    split.
    + by apply added_base_ok.
    + rewrite F1. by apply added_watch_ok.
    + intros c l Hl. rewrite F4, Hq. destruct l as [|x [|y l]]; [done..|].
      split; intros i Hi; lia.
    + rewrite F3, Hlim. intros x Hx. by apply not_elem_of_nil in Hx.
    + rewrite F4, F2. done.
    + intros rho. rewrite added_admits, S, (Ht rho Ed) by done. done.
Qed.

(** A formula loaded clause by clause. *)
Lemma new_vars_spec n Phi s : solver_ok Phi s -> building s ->
  exists s', new_vars n s = Some s' /\ solver_ok Phi s' /\ building s' /\ num_vars s' = n + num_vars s.
Proof.
  revert s; induction n as [|n IH]; intros s Hok Hb; cbn [new_vars]; [by exists s|].
  destruct (new_var_spec Phi s Hok) as (s1 & E & Hok1 & En & Eq & El & _). rewrite E. cbn [mbind option_bind].
  destruct (IH s1 Hok1) as (s2 & E2 & Hok2 & Hb2 & En2).
  { destruct Hb. split; congruence. }
  exists s2. split; [done|]. split; [done|]. split; [done|]. lia.
Qed.

Definition cnf_true (rho : valuation) (cs : list (list Lit)) : Prop := forall c, c ∈ cs -> clause_true rho c.

Lemma cnf_true_cons rho c cs : cnf_true rho (c :: cs) <-> clause_true rho c /\ cnf_true rho cs.
Proof. unfold cnf_true. setoid_rewrite elem_of_cons. naive_solver. Qed.

Lemma add_clauses_spec cs Phi s : solver_ok Phi s -> building s ->
  (forall c l, c ∈ cs -> l ∈ c -> lit_var l < num_vars s) ->
  exists s', foldl (fun s c => s ← s; add_clause c s) (Some s) cs = Some s' /\ building s' /\
    num_vars s' = num_vars s /\ solver_ok (fun rho => Phi rho /\ cnf_true rho cs) s'.
Proof.
  revert Phi s; induction cs as [|c cs IH]; intros Phi s Hok Hb Hv; cbn [foldl].
  { exists s. do 3 (split; [done|]). eapply solver_ok_iff; [|exact Hok]. intros rho. split; [|by intros [? _]].
    intros Hr. split; [done|]. intros c Hc. by apply not_elem_of_nil in Hc. }
  destruct (add_clause_spec Phi s c Hok Hb) as (s1 & E & En & Hb1 & Hok1).
  { intros l Hl. by apply (Hv c); [constructor|]. }
  cbn [mbind option_bind]. rewrite E.
  destruct (IH _ s1 Hok1 Hb1) as (s2 & E2 & Hb2 & En2 & Hok2).
  { intros c' l Hc' Hl. rewrite En. apply (Hv c'); [by constructor|done]. }
  exists s2. split; [done|]. split; [done|]. split; [congruence|]. eapply solver_ok_iff; [|exact Hok2].
  intros rho. cbn. rewrite cnf_true_cons. tauto.
Qed.

Lemma load_spec n cs : (forall c l, c ∈ cs -> l ∈ c -> lit_var l < n) ->
  exists s, load n cs = Some s /\ num_vars s = n /\ solver_ok (fun rho => cnf_true rho cs) s.
Proof.
  intros Hv. unfold load.
  destruct (new_vars_spec n _ new solver_ok_new) as (s1 & E1 & Hok1 & Hb1 & En1); [done|].
  rewrite E1. cbn [mbind option_bind]. change (num_vars new) with 0 in En1. rewrite Nat.add_0_r in En1.
  destruct (add_clauses_spec cs _ s1 Hok1 Hb1) as (s2 & E2 & _ & En2 & Hok2); [by rewrite En1|].
  exists s2. split; [done|]. split; [congruence|]. eapply solver_ok_iff; [|exact Hok2]. naive_solver.
Qed.
