(* ===== verification/SatTheorems.v ===== *)
(** * The theorems of the SAT solver *)
From S2P Require Import Prelude SatSolver SatLits SatProp SatAnalyze SatSearch SatSolve.
#[local] Open Scope nat_scope.

(** Clauses over the first [n] variables. *)
Definition scoped (n : nat) (cs : list (list Lit)) : Prop :=
  forall c l, c ∈ cs -> l ∈ c -> lit_var l < n.
Definition scopedb (n : nat) (cs : list (list Lit)) : bool :=
  forallb (forallb (fun l => lit_var l <? n)) cs.

Lemma scopedb_scoped n cs : scopedb n cs = true -> scoped n cs.
Proof.
  intros H c l Hc%list_elem_of_In Hl%list_elem_of_In. unfold scopedb in H. rewrite forallb_forall in H.
  specialize (H c Hc). rewrite forallb_forall in H. by apply Nat.ltb_lt, H.
Qed.

(** Turns of the main loop that suffice for [n] variables. *)
Definition enough_fuel (n : nat) : nat := S ((2 ^ (2 * n) + n) * (n + 2) + n).

Lemma enough_fuel_work s : work s < enough_fuel (num_vars s).
Proof. pose proof (room_bound s). unfold work, enough_fuel. nia. Qed.

(** ** Properties *)

(** C1: [solve], with no conflict budget, decides: on every formula it
    returns, without panicking, a total model of all the clauses, or [Unsat]
    when they have no model. *)
Theorem solve_decides n cs fuel : scoped n cs -> enough_fuel n <= fuel ->
  exists r s', (s ← load n cs; solve fuel s) = Some (r, s') /\
    match r with
    | Sat m => length m = n /\ cnf_true (val_of m) cs
    | Unsat => forall rho, ~ cnf_true rho cs
    | Unknown => False
    end.
Proof.
  intros Hs Hf. destruct (load_spec n cs Hs) as (s & E & En & Hok).
  pose proof (enough_fuel_work s) as Hw. rewrite En in Hw.
  destruct (solve_with_budget_spec _ fuel None s Hok) as (r & s' & E2 & _ & _ & Hv); [lia|].
  exists r, s'. rewrite E. split; [exact E2|]. rewrite En in Hv.
  destruct r; [exact Hv|exact Hv|by destruct Hv].
Qed.

Lemma solve_decides_witness : exists r s',
  (s ← load 2 [[0; 2]; [1; 2]; [1; 3]]; solve (enough_fuel 2) s) = Some (r, s') /\
    match r with
    | Sat m => length m = 2 /\ cnf_true (val_of m) [[0; 2]; [1; 2]; [1; 3]]
    | Unsat => forall rho, ~ cnf_true rho [[0; 2]; [1; 2]; [1; 3]]
    | Unknown => False
    end.
Proof. apply solve_decides; [apply scopedb_scoped; reflexivity|reflexivity]. Defined.

(** With a conflict budget [solve_with_budget] may answer [Unknown], but
    its [Sat] and [Unsat] are right, whatever was solved before: the solver
    still stands for the same formula when it returns. *)
Theorem budgeted_solve_sound Phi s budget : solver_ok Phi s ->
  exists r s', solve_with_budget (enough_fuel (num_vars s)) (Some budget) s = Some (r, s') /\
    solver_ok Phi s' /\
    match r with
    | Sat m => length m = num_vars s /\ Phi (val_of m)
    | Unsat => forall rho, ~ Phi rho
    | Unknown => True
    end.
Proof.
  intros Hok. destruct (solve_with_budget_spec Phi _ (Some budget) s Hok (enough_fuel_work s)) as (r & s' & E & _ & Hok' & Hv).
  exists r, s'. split; [done|]. split; [done|]. by destruct r.
Qed.

Lemma budgeted_solve_sound_witness : exists r s',
  solve_with_budget (enough_fuel (num_vars new)) (Some 3%N) new = Some (r, s') /\
    solver_ok (fun _ => True) s' /\
    match r with
    | Sat m => length m = num_vars new /\ True
    | Unsat => forall rho : valuation, ~ True
    | Unknown => True
    end.
Proof. exact (budgeted_solve_sound (fun _ => True) new 3%N solver_ok_new). Defined.

(** [add_clause] conjoins the clause to the formula, whether it is
    dropped as a tautology, assigned as a unit, watched, or makes the formula
    unsatisfiable. *)
Theorem add_clause_conjoins Phi s lits : solver_ok Phi s -> building s ->
  (forall l, l ∈ lits -> lit_var l < num_vars s) ->
  exists s', add_clause lits s = Some s' /\ num_vars s' = num_vars s /\ building s' /\
    solver_ok (fun rho => Phi rho /\ clause_true rho lits) s'.
Proof. apply add_clause_spec. Qed.

Lemma add_clause_conjoins_witness : exists s', add_clause [] new = Some s' /\
  num_vars s' = num_vars new /\ building s' /\
  solver_ok (fun rho => True /\ clause_true rho []) s'.
Proof.
  apply (add_clause_conjoins (fun _ => True) new []); [exact solver_ok_new|by split|].
  intros l H. by apply not_elem_of_nil in H.
Defined.

(** Unit propagation is exhaustive: it returns a falsified clause, or a
    state in which every clause has a true literal or two literals that are
    not false, so that no clause forces or refutes anything. *)
Theorem propagate_exhaustive Phi s : inv Phi (qhead s) s ->
  exists confl s', propagate s = Some (confl, s') /\
    match confl with
    | Some c => exists lits, clauses s' !! c = Some lits /\
        forall l, l ∈ lits -> value_lit s' l = Some (Some false)
    | None => forall c lits, clauses s' !! c = Some lits ->
        (exists l, l ∈ lits /\ value_lit s' l = Some (Some true)) \/
        (exists a b, a <> b /\ a ∈ lits /\ b ∈ lits /\
          value_lit s' a <> Some (Some false) /\ value_lit s' b <> Some (Some false))
    end.
Proof.
  intros I. destruct (propagate_spec Phi s I) as (confl & s' & E & _ & [Hq P]). exists confl, s'. split; [done|].
  destruct confl as [c|].
  - destruct P as (q & l & I' & _ & lits & Hc & _ & Hf). exists lits. split; [done|]. intros x Hx.
    pose proof (b_trail _ (i_base _ _ _ I')) as T. apply Hf in Hx.
    assert (lit_var x < num_vars s') as Hv by (rewrite <- lit_var_negate; by apply trail_var).
    destruct (value_lit_spec s' T x Hv) as [(_ & _ & H)|[(H & _)|(_ & _ & _ & H)]]; done.
  - intros c lits Hc. pose proof (i_prop _ _ _ P c lits Hc) as W. pose proof (b_trail _ (i_base _ _ _ P)) as T.
    destruct (b_clauses _ (i_base _ _ _ P) c lits Hc) as (Hlen & Hnd & Hv).
    destruct lits as [|a [|b t]]; cbn in Hlen; [lia..|]. destruct W as [W1 W2]. rewrite Hq in W1, W2.
    assert (forall w w', w ∈ a :: b :: t -> w' ∈ a :: b :: t -> partnered s' (length (trail s')) w w' ->
      value_lit s' w = Some (Some false) -> exists l, l ∈ a :: b :: t /\ value_lit s' l = Some (Some true)) as Hp.
    { intros w w' Hw Hw' Hp Hf.
      destruct (value_lit_spec s' T w (Hv w Hw)) as [(H & _)|[(_ & H & _)|(H & _)]]; [congruence| |congruence].
      apply list_elem_of_lookup in H as [i Hi]. destruct (Hp i) as (j & Hj & _); [by eapply lookup_lt_Some|done|].
      exists w'. split; [done|]. apply list_elem_of_lookup_2 in Hj.
      destruct (value_lit_spec s' T w' (Hv w' Hw')) as [(H & _)|[(_ & _ & H)|(_ & _ & H & _)]]; done. }
    assert (a ∈ a :: b :: t) as Ha by constructor. assert (b ∈ a :: b :: t) as Hb by (do 2 constructor).
    destruct (decide (value_lit s' a = Some (Some false))) as [Ea|Ea]; [left; by apply (Hp a b)|].
    destruct (decide (value_lit s' b = Some (Some false))) as [Eb|Eb]; [left; by apply (Hp b a)|].
    right. exists a, b. split; [|done]. intros ->. cbn in Hnd. apply list.NoDup_cons in Hnd as [Hnd _]. apply Hnd. constructor.
Qed.

(** The start of a search: the clauses of a loaded formula. *)
Lemma loaded_inv : inv (fun _ => True) 0 new.
Proof.
  destruct solver_ok_new as (Psi & q & I & _ & H). cbn in H. destruct H as [-> H].
  eapply inv_iff; [exact H|exact I].
Qed.

Lemma propagate_exhaustive_witness : exists confl s', propagate new = Some (confl, s') /\
    match confl with
    | Some c => exists lits, clauses s' !! c = Some lits /\
        forall l, l ∈ lits -> value_lit s' l = Some (Some false)
    | None => forall c lits, clauses s' !! c = Some lits ->
        (exists l, l ∈ lits /\ value_lit s' l = Some (Some true)) \/
        (exists a b, a <> b /\ a ∈ lits /\ b ∈ lits /\
          value_lit s' a <> Some (Some false) /\ value_lit s' b <> Some (Some false))
    end.
Proof. exact (propagate_exhaustive (fun _ => True) new loaded_inv). Defined.

(** C23: conflict analysis learns a clause that the formula entails, whose
    literals are all false, one of them at the current level, and jumps to
    the level where it becomes a unit; after [cancel_until] and [learn] that
    literal is assigned, the formula is the same, and there is strictly less
    left to learn. *)
Theorem analyze_learns Phi s c : propagate_post Phi (Some c) s -> unseen s -> 0 < decision_level s ->
  exists u tail bt s1 s2 s3, analyze c s = Some (u :: tail, bt, s1) /\ cancel_until bt s1 = Some s2 /\
    learn (u :: tail) s2 = Some s3 /\ asserting s u tail bt /\
    (forall rho, Phi rho -> clause_true rho (u :: tail)) /\
    inv Phi (qhead s3) s3 /\ room s3 < room s.
Proof.
  intros P Hun Hd. destruct (conflict_spec Phi s c P Hun Hd) as (u & tail & bt & s1 & s2 & s3 & E1 & E2 & E3 & I3 & _ & _ & _ & _ & Hr).
  destruct P as [_ (q & l & I & Hq & F)].
  destruct (analyze_spec s c q l (i_base _ _ _ I) Hd Hun (i_lims _ _ _ I) Hq F) as (u' & tail' & bt' & s1' & E1' & _ & A).
  rewrite E1 in E1'. injection E1' as <- <- <- <-.
  exists u, tail, bt, s1, s2, s3. do 4 (split; [done|]). split; [|done].
  intros rho Hrho. apply (as_entailed _ _ _ _ A). by apply (i_sound _ _ _ I).
Qed.

(** Deciding and propagating once in [(a or b) and (not a or b)]: a conflict. *)
Definition first_conflict : option (option nat * Solver) :=
  s ← load 2 [[0; 2]; [1; 2]];
  '(_, s) ← propagate s;
  '(l, s) ← pick_branch s;
  l ← l;
  '(_, s) ← enqueue l None (set_trail_lim (trail_lim s ++ [length (trail s)]) s);
  propagate s.

Lemma first_conflict_post : exists c s, first_conflict = Some (Some c, s) /\
  propagate_post (fun rho => cnf_true rho [[0; 2]; [1; 2]]) (Some c) s /\ unseen s /\ 0 < decision_level s.
Proof.
  set (Phi := fun rho => cnf_true rho [[0; 2]; [1; 2]]).
  destruct (load_spec 2 [[0; 2]; [1; 2]]) as (s & E & _ & (Psi & q & I & Hun & H)).
  { apply scopedb_scoped. reflexivity. }
  unfold first_conflict. rewrite E. cbn [mbind option_bind].
  assert (unsat s = false) as Hsat by (vm_compute in E; by injection E as <-).
  rewrite Hsat in H. destruct H as [-> H]. assert (inv Phi (qhead s) s) as I0 by by eapply inv_iff.
  destruct (propagate_spec Phi s I0) as (r1 & s1 & E1 & G1 & Hq1 & P1).
  assert (r1 = None) as -> by (vm_compute in E; injection E as <-; vm_compute in E1; congruence).
  rewrite E1. cbn [mbind option_bind].
  destruct (decide_spec Phi s1 P1 Hq1) as (l & s2 & E2 & C2 & Hl).
  assert (l = Some 3) as ->.
  { vm_compute in E. injection E as <-. vm_compute in E1. injection E1 as <-. vm_compute in E2. congruence. }
  destruct Hl as (s3 & E3 & I3 & En3 & _ & L3 & _ & Hun3 & _).
  rewrite E2. cbn [mbind option_bind]. change (set_trail_lim _ s2) with (opened s2). rewrite E3. cbn [mbind option_bind].
  destruct (propagate_spec Phi s3 I3) as (r4 & s4 & E4 & G4 & P4).
  assert (exists c, r4 = Some c) as [c ->].
  { vm_compute in E. injection E as <-. vm_compute in E1. injection E1 as <-. vm_compute in E2. injection E2 as <-.
    vm_compute in E3. injection E3 as <-. vm_compute in E4. injection E4 as <- _. by eexists. }
  exists c, s4. split; [done|]. split; [done|]. split.
  - unfold unseen. rewrite (g_seen _ _ G4), (g_vars _ _ G4). cbn [seen set_qhead].
    change (num_vars (set_qhead (qhead s4) s3)) with (num_vars s3).
    rewrite Hun3, En3, (g_seen _ _ G1), (g_vars _ _ G1). exact Hun.
  - unfold decision_level. rewrite (g_lim _ _ G4). cbn. rewrite L3, length_app. cbn. lia.
Qed.

Lemma analyze_learns_witness : exists c s, first_conflict = Some (Some c, s) /\
  exists u tail bt s1 s2 s3, analyze c s = Some (u :: tail, bt, s1) /\ cancel_until bt s1 = Some s2 /\
    learn (u :: tail) s2 = Some s3 /\ asserting s u tail bt /\
    (forall rho, cnf_true rho [[0; 2]; [1; 2]] -> clause_true rho (u :: tail)) /\
    inv (fun rho => cnf_true rho [[0; 2]; [1; 2]]) (qhead s3) s3 /\ room s3 < room s.
Proof.
  destruct first_conflict_post as (c & s & E & P & Hun & Hd). exists c, s. split; [exact E|].
  exact (analyze_learns (fun rho => cnf_true rho [[0; 2]; [1; 2]]) s c P Hun Hd).
Defined.

(** [luby] computes the Luby sequence, [1 1 2 1 1 2 4 ...]: the one whose
    prefix of length [2^(k+1) - 1] is twice the prefix of length [2^k - 1]
    and then [2^k]. *)
Theorem luby_sequence x : exists k u, luby x = Some u /\ luby_seq k !! N.to_nat x = Some u.
Proof. apply luby_spec. Qed.
