(* ===== verification/Dag.v ===== *)
(** * The append-only DAG ([libs/adt/src/dag.rs])

    Nodes are kept in topological order with the children of a node in one
    run of [edges]; leaf payloads and annotations live in dense side vectors
    reached through slots. A [NodeId] is a [u32] in the code and a [nat] here;
    the slot [NO_SLOT] is [None]. [None] is a panic (an index out of range, an
    assertion) or the end of a loop's fuel. *)
From S2P Require Import Prelude.
#[local] Open Scope nat_scope.

Record Dag (N L A : Type) := mkDag {
  nodes : list N;
  edge_bounds : list nat;
  edges : list nat;
  leaf_slots : list (option nat);
  leaves : list L;
  annotation_slots : list (option nat);
  annotations : list A;
}.
Arguments mkDag {N L A}.
Arguments nodes {N L A}.
Arguments edge_bounds {N L A}.
Arguments edges {N L A}.
Arguments leaf_slots {N L A}.
Arguments leaves {N L A}.
Arguments annotation_slots {N L A}.
Arguments annotations {N L A}.

Definition new {N L A} : Dag N L A := mkDag [] [0] [] [] [] [] [].
Definition len {N L A} (d : Dag N L A) : nat := length (nodes d).
Definition is_empty {N L A} (d : Dag N L A) : bool := length (nodes d) =? 0.

(** The last node, if any. *)
Definition root {N L A} (d : Dag N L A) : option nat :=
  match length (nodes d) with O => None | S n => Some n end.

Definition get_node {N L A} (d : Dag N L A) (id : nat) : option N := nodes d !! id.

(** [slot(slots, id).map(|slot| &values[slot])]: the outer [option] is the
    panic, the inner one the result. *)
Definition slot (slots : list (option nat)) (id : nat) : option (option nat) := slots !! id.
Definition read_slot {T} (slots : list (option nat)) (values : list T) (id : nat) : option (option T) :=
  s ← slot slots id;
  match s with
  | Some i => v ← values !! i; Some (Some v)
  | None => Some None
  end.
Definition get_leaf_data {N L A} (d : Dag N L A) (id : nat) : option (option L) :=
  read_slot (leaf_slots d) (leaves d) id.
Definition get_annotation {N L A} (d : Dag N L A) (id : nat) : option (option A) :=
  read_slot (annotation_slots d) (annotations d) id.

Definition edge_range {N L A} (d : Dag N L A) (id : nat) : option (nat * nat) :=
  a ← edge_bounds d !! id;
  b ← edge_bounds d !! (id + 1);
  Some (a, b).

(** [&edges[a..b]]. *)
Definition children {N L A} (d : Dag N L A) (id : nat) : option (list nat) :=
  '(a, b) ← edge_range d id;
  if (a <=? b) && (b <=? length (edges d)) then Some (take (b - a) (drop a (edges d))) else None.

(** ** Traversals *)

(** [stack.pop()] takes the head of the list here, so the children are put in
    front in their order. *)
Fixpoint preorder_loop {N L A} (fuel : nat) (d : Dag N L A) (visited : list bool) (stack : list nat)
    : option (list nat) :=
  match fuel with
  | O => None
  | S fuel =>
      match stack with
      | [] => Some []
      | node :: stack =>
          seen ← visited !! node;
          visited ← vset visited node true;
          if (seen : bool) then preorder_loop fuel d visited stack
          else
            cs ← children d node;
            rest ← preorder_loop fuel d visited (cs ++ stack);
            Some (node :: rest)
      end
  end.
Definition preorder {N L A} (d : Dag N L A) (start : nat) : option (list nat) :=
  preorder_loop (length (edges d) + 2) d (replicate (start + 1) false) [start].

(** The children of one reached node: mark those at or after [floor]. *)
Fixpoint mark_children (floor : nat) (cs : list nat) (reached : list bool) (pending : nat)
    : option (list bool * nat) :=
  match cs with
  | [] => Some (reached, pending)
  | child :: cs =>
      if child <? floor then mark_children floor cs reached pending
      else
        let mark := child - floor in
        was ← reached !! mark;
        reached ← vset reached mark true;
        mark_children floor cs reached (if (was : bool) then pending else S pending)
  end.

(** [for index in (floor..=start).rev()], [n] indices left. *)
Fixpoint reach_loop {N L A} (n floor : nat) (d : Dag N L A) (reached : list bool) (pending low : nat)
    : option (nat * list bool) :=
  match n with
  | O => Some (low, reached)
  | S n =>
      let index := floor + n in
      if pending =? 0 then Some (low, reached)
      else
        r ← reached !! (index - floor);
        if negb r then reach_loop n floor d reached pending low
        else
          cs ← children d index;
          '(reached, pending) ← mark_children floor cs reached (pending - 1);
          reach_loop n floor d reached pending index
  end.

Definition reachable {N L A} (d : Dag N L A) (start floor : nat) : option (nat * list bool) :=
  if start + 1 <? floor then None
  else
    let reached := replicate (start + 1 - floor) false in
    reached ← vset reached (start - floor) true;
    '(low, reached) ← reach_loop (start + 1 - floor) floor d reached 1 start;
    Some (low, drop (low - floor) reached).

(** [(low..=start).filter(|index| reached[index - low])]. *)
Fixpoint reached_from (low : nat) (reached : list bool) : list nat :=
  match reached with
  | [] => []
  | b :: reached => if (b : bool) then low :: reached_from (S low) reached else reached_from (S low) reached
  end.
Definition postorder {N L A} (d : Dag N L A) (start : nat) : option (list nat) :=
  '(low, reached) ← reachable d start 0;
  Some (reached_from low reached).

Definition reaches {N L A} (d : Dag N L A) (from to : nat) : option bool :=
  if from <? to then Some false
  else
    '(low, reached) ← reachable d from to;
    if low =? to then reached !! 0 else Some false.

(** ** Comparison of two subgraphs *)
Section compare.
Context {N L A B : Type} `{EqDecision N} `{EqDecision L}.

Fixpoint subgraph_eq_loop (fuel : nat) (d : Dag N L A) (e : Dag N L B) (pending : list (nat * nat)) : option bool :=
  match fuel with
  | O => None
  | S fuel =>
      match pending with
      | [] => Some true
      | (lhs, rhs) :: pending =>
          lc ← children d lhs;
          rc ← children e rhs;
          ln ← get_node d lhs;
          rn ← get_node e rhs;
          if bool_decide (ln <> rn) then Some false
          else
            ll ← get_leaf_data d lhs;
            rl ← get_leaf_data e rhs;
            if bool_decide (ll <> rl) || negb (length lc =? length rc) then Some false
            else subgraph_eq_loop fuel d e (rev (zip lc rc) ++ pending)
      end
  end.
Definition subgraph_eq (fuel : nat) (d : Dag N L A) (r : nat) (e : Dag N L B) (r' : nat) : option bool :=
  subgraph_eq_loop fuel d e [(r, r')].
End compare.

(** ** Building *)
Definition add_node {N L A} (n : N) (d : Dag N L A) : nat * Dag N L A :=
  (length (nodes d),
   mkDag (nodes d ++ [n]) (edge_bounds d ++ [length (edges d)]) (edges d) (leaf_slots d ++ [None]) (leaves d)
     (annotation_slots d ++ [None]) (annotations d)).

Definition add_edge {N L A} (from to : nat) (d : Dag N L A) : option (Dag N L A) :=
  if negb (from + 1 =? length (nodes d)) then None
  else if negb (to <? from) then None
  else
    last ← edge_bounds d !! pred (length (edge_bounds d));
    bounds ← vset (edge_bounds d) (pred (length (edge_bounds d))) (last + 1);
    Some (mkDag (nodes d) bounds (edges d ++ [to]) (leaf_slots d) (leaves d) (annotation_slots d) (annotations d)).

Definition set_slot {T} (slots : list (option nat)) (values : list T) (id : nat) (value : T)
    : option (list (option nat) * list T) :=
  s ← slot slots id;
  match s with
  | Some i => values ← vset values i value; Some (slots, values)
  | None => slots ← vset slots id (Some (length values)); Some (slots, values ++ [value])
  end.

Definition set_leaf_data {N L A} (n : nat) (x : L) (d : Dag N L A) : option (Dag N L A) :=
  '(slots, values) ← set_slot (leaf_slots d) (leaves d) n x;
  Some (mkDag (nodes d) (edge_bounds d) (edges d) slots values (annotation_slots d) (annotations d)).

Definition set_annotation {N L A} (n : nat) (x : A) (d : Dag N L A) : option (Dag N L A) :=
  '(slots, values) ← set_slot (annotation_slots d) (annotations d) n x;
  Some (mkDag (nodes d) (edge_bounds d) (edges d) (leaf_slots d) (leaves d) slots values).

(** [annotation_mut]: the reference is the index of the annotation. *)
Definition annotation_mut {N L A} (dflt : A) (n : nat) (d : Dag N L A) : option (nat * Dag N L A) :=
  s ← slot (annotation_slots d) n;
  match s with
  | Some i => if i <? length (annotations d) then Some (i, d) else None
  | None =>
      slots ← vset (annotation_slots d) n (Some (length (annotations d)));
      Some (length (annotations d),
        mkDag (nodes d) (edge_bounds d) (edges d) (leaf_slots d) (leaves d) slots (annotations d ++ [dflt]))
  end.

(** The diamond of the unit tests. *)
Definition diamond : option (Dag nat unit unit) :=
  let '(_, d) := add_node 0 new in
  let '(shared, d) := add_node 1 d in
  let '(lhs, d) := add_node 2 d in
  d ← add_edge lhs shared d;
  let '(rhs, d) := add_node 3 d in
  d ← add_edge rhs shared d;
  let '(r, d) := add_node 4 d in
  d ← add_edge r lhs d;
  add_edge r rhs d.

Example diamond_preorder : (d ← diamond; preorder d 4) = Some [4; 2; 1; 3].
Proof. reflexivity. Qed.
Example diamond_postorder : (d ← diamond; postorder d 4) = Some [1; 2; 3; 4] /\ (d ← diamond; postorder d 3) = Some [1; 3].
Proof. split; reflexivity. Qed.
Example diamond_reaches : (d ← diamond; reaches d 4 1) = Some true /\ (d ← diamond; reaches d 4 0) = Some false /\
  (d ← diamond; reaches d 2 3) = Some false.
Proof. repeat split; reflexivity. Qed.
