(* ===== verification/DagSpec.v ===== *)
(** * The DAG's invariant, its abstract view and its traversals

    [view d v] relates a DAG to the list of its nodes, each with its label,
    children, leaf payload and annotation; the building operations extend
    that list. [reach] is reachability along the edges. *)
From stdpp Require Import relations.
From S2P Require Import Prelude Dag.
#[local] Open Scope nat_scope.

(** ** Marks *)
Definition count_true (l : list bool) : nat := length (filter (fun b => b = true) l).

Lemma count_true_app a b : count_true (a ++ b) = count_true a + count_true b.
Proof. unfold count_true. by rewrite list.filter_app, length_app. Qed.

Lemma count_true_insert l i : l !! i = Some false -> count_true (<[i := true]> l) = S (count_true l).
Proof.
  intros H. rewrite <- (take_drop_middle l i false H) at 2.
  rewrite (insert_take_drop l i true) by (by eapply lookup_lt_Some).
  rewrite !count_true_app. unfold count_true. cbn [filter list_filter]. rewrite decide_True, decide_False by done. cbn. lia.
Qed.

Lemma count_true_take_insert l i m : l !! i = Some false -> i < m -> m <= length l ->
  count_true (take m (<[i := true]> l)) = S (count_true (take m l)).
Proof.
  intros H Hi Hm. rewrite take_insert_lt by done. apply count_true_insert. by rewrite lookup_take_lt.
Qed.

Lemma count_true_zero l i : count_true l = 0 -> l !! i <> Some true.
Proof.
  intros H E. assert (true ∈ filter (fun b => b = true) l) as Hin.
  { apply list_elem_of_filter. split; [done|]. by eapply list_elem_of_lookup_2. }
  unfold count_true in H. apply nil_length_inv in H. rewrite H in Hin. by apply not_elem_of_nil in Hin.
Qed.

Lemma count_true_take_S l m : m < length l ->
  count_true (take (S m) l) = count_true (take m l) + (if decide (l !! m = Some true) then 1 else 0).
Proof.
  intros H. apply lookup_lt_is_Some in H as [b Hb]. rewrite (take_S_r _ _ _ Hb), count_true_app, Hb.
  f_equal. unfold count_true. destruct b; [by rewrite decide_True|]. rewrite decide_False by done. done.
Qed.

(** ** Edges and reachability *)
Section reach.
Context {N L A : Type} (d : Dag N L A).

Definition edge (a b : nat) : Prop := exists cs, children d a = Some cs /\ b ∈ cs.
Definition reach : nat -> nat -> Prop := rtc edge.

(** Every node has its children, all of them before it. *)
Definition ordered : Prop := forall i, i < len d -> exists cs, children d i = Some cs /\ forall c, c ∈ cs -> c < i.

Context (O : ordered).

Lemma edge_lt a b : a < len d -> edge a b -> b < a.
Proof. intros Ha (cs & Hc & Hb). destruct (O a Ha) as (cs' & Hc' & H). rewrite Hc in Hc'. injection Hc' as <-. auto. Qed.

Lemma reach_le a b : a < len d -> reach a b -> b <= a.
Proof. intros Ha H. induction H as [|x y z Hxy Hyz IH]; [done|]. apply edge_lt in Hxy; [|done]. specialize (IH ltac:(lia)). lia. Qed.

(** [j] is the start or a child of a reachable node at or after [k]. *)
Definition marked (start k j : nat) : Prop := j = start \/ exists p, k <= p /\ reach start p /\ edge p j.

Lemma marked_reach start k j : marked start k j -> reach start j.
Proof. intros [->|(p & _ & Hp & He)]; [apply rtc_refl|]. by eapply rtc_r. Qed.

Lemma reach_marked start k j : start < len d -> reach start j -> k <= S j -> marked start k j.
Proof.
  intros Hs H Hk. apply rtc_inv_r in H as [->|(p & Hp & He)]; [by left|]. right. exists p.
  split; [|done]. assert (p < len d) by (apply reach_le in Hp; lia). apply edge_lt in He; lia.
Qed.

(** Nothing below [k] is marked: nothing below [k] is reachable. *)
Lemma unmarked_below start floor k j : start < len d -> (forall i, floor <= i < k -> ~ marked start k i) ->
  reach start j -> floor <= j -> k <= j.
Proof.
  intros Hs Hno H. revert j H. refine (rtc_ind_r (fun j => floor <= j -> k <= j) start _ _).
  - intros Hj. destruct (decide (k <= start)); [done|]. exfalso. apply (Hno start); [lia|by left].
  - intros x y Hxy Hy IH Hj. assert (x < len d) by (apply reach_le in Hxy; lia).
    pose proof (edge_lt _ _ ltac:(done) Hy). specialize (IH ltac:(lia)). destruct (decide (k <= y)); [done|]. exfalso.
    apply (Hno y); [lia|]. right. eauto.
Qed.

Lemma mark_children_spec floor cs reached pending m : (forall c, c ∈ cs -> c < floor + m) -> m <= length reached ->
  pending = count_true (take m reached) ->
  exists reached' pending', mark_children floor cs reached pending = Some (reached', pending') /\
    length reached' = length reached /\ pending' = count_true (take m reached') /\
    forall i, i < length reached -> reached' !! i = Some true <-> reached !! i = Some true \/ floor + i ∈ cs.
Proof.
  revert reached pending; induction cs as [|c cs IH]; intros reached pending Hc Hm Hp; cbn [mark_children].
  { exists reached, pending. do 3 (split; [done|]). intros i _. rewrite elem_of_nil. tauto. }
  assert (c < floor + m) as Hcm by (apply Hc; constructor).
  destruct (Nat.ltb_spec c floor) as [Hlt|Hge].
  { destruct (IH reached pending) as (r & p & E & H1 & H2 & H3); [intros; apply Hc; by constructor|done..|].
    exists r, p. do 3 (split; [done|]). intros i Hi. rewrite H3 by done. rewrite elem_of_cons. split; [tauto|].
    intros [?|[?|?]]; [tauto|lia|tauto]. }
  destruct (lookup_lt_is_Some_2 reached (c - floor)) as [b Hb]; [lia|]. rewrite Hb. cbn [mbind option_bind].
  rewrite vset_Some by lia. cbn [mbind option_bind].
  destruct (IH (<[c - floor := true]> reached) (if b then pending else S pending)) as (r & p & E & H1 & H2 & H3).
  - intros; apply Hc; by constructor.
  - by rewrite length_insert.
  - destruct b.
    + rewrite list_insert_id by done. done.
    + rewrite count_true_take_insert by (done || lia). by rewrite Hp.
  - rewrite length_insert in *. exists r, p. do 3 (split; [done|]). intros i Hi. rewrite H3 by done.
    rewrite list_lookup_insert_Some, elem_of_cons. split.
    + intros [[(<- & _)|[_ ?]]|?]; [right; left; lia|auto..].
    + intros [?|[?|?]]; [|left; left; split; [lia|]; split; [done|lia]|auto].
      left. destruct (decide (c - floor = i)) as [<-|]; [left; split; [done|]; split; [done|lia]|auto].
Qed.

Lemma reach_loop_spec n floor start reached pending low : start < len d -> floor + n <= S start ->
  length reached = start + 1 - floor -> pending = count_true (take n reached) ->
  (forall i, i < length reached -> reached !! i = Some true <-> marked start (floor + n) (floor + i)) ->
  floor <= low <= start -> reach start low -> (floor + n <= low \/ low = start) ->
  (forall j, reach start j -> floor + n <= j -> low <= j) ->
  exists low' reached', reach_loop n floor d reached pending low = Some (low', reached') /\
    length reached' = length reached /\ floor <= low' <= start /\ reach start low' /\
    (forall i, i < length reached -> reached' !! i = Some true <-> reach start (floor + i)) /\
    (forall j, reach start j -> floor <= j -> low' <= j).
Proof.
  intros Hs. revert reached pending low; induction n as [|n IH]; intros reached pending low Hn Hlen Hp Hm Hlow Hrl Hlk Hmin; cbn [reach_loop].
  { exists low, reached. do 4 (split; [done|]). split; [|intros; apply Hmin; [done|lia]].
    intros i Hi. rewrite Hm by done. split; [apply marked_reach|]. intros H. apply reach_marked; [done..|lia]. }
  destruct (Nat.eqb_spec pending 0) as [Hz|Hz].
  { assert (forall i, floor <= i < floor + S n -> ~ marked start (floor + S n) i) as Hno.
    { intros i Hi Hmi. apply (count_true_zero (take (S n) reached) (i - floor)); [congruence|].
      rewrite lookup_take_lt by lia. apply Hm; [lia|]. by replace (floor + (i - floor)) with i by lia. }
    exists low, reached. do 4 (split; [done|]). split.
    - intros i Hi. rewrite Hm by done. split; [apply marked_reach|]. intros H.
      apply reach_marked; [done..|]. pose proof (unmarked_below start floor _ _ Hs Hno H). lia.
    - intros j Hj Hfj. apply Hmin; [done|]. by apply (unmarked_below start floor). }
  replace (floor + n - floor) with n by lia.
  destruct (lookup_lt_is_Some_2 reached n) as [b Hb]; [lia|]. rewrite Hb. cbn [mbind option_bind].
  assert (floor + n < len d) as Hidx by lia.
  destruct b; cbn [negb].
  - assert (reach start (floor + n)) as Hreach by (eapply marked_reach, Hm; [lia|done]).
    destruct (O (floor + n) Hidx) as (cs & Hcs & Hlt). rewrite Hcs. cbn [mbind option_bind].
    assert (pending - 1 = count_true (take n reached)) as Hp'.
    { rewrite Hp, count_true_take_S by lia. rewrite decide_True by done. lia. }
    destruct (mark_children_spec floor cs reached (pending - 1) n Hlt ltac:(lia) Hp') as (r & p & E & H1 & H2 & H3).
    rewrite E. cbn [mbind option_bind].
    destruct (IH r p (floor + n)) as (low' & r' & E' & A1 & A2 & A3 & A4 & A5); try done; try lia.
    + intros i Hi. rewrite H1 in Hi. rewrite H3, Hm by done. split.
      * intros [[->|(q & Hq & Hrq & He)]|Hin]; [by left|right; exists q; split; [lia|done]|].
        right. exists (floor + n). split; [lia|]. split; [done|]. by exists cs.
      * intros [->|(q & Hq & Hrq & He)]; [left; by left|].
        destruct (decide (q = floor + n)) as [->|]; [|left; right; exists q; split; [lia|done]].
        right. destruct He as (cs' & Hcs' & Hin). congruence.
    + exists low', r'. split; [done|]. rewrite H1 in *. done.
  - assert (~ reach start (floor + n)) as Hnr.
    { intros H. assert (reached !! n = Some true) as E; [|congruence]. apply Hm; [lia|]. apply reach_marked; [done..|lia]. }
    apply IH; try done; try lia.
    + rewrite Hp, count_true_take_S by lia. rewrite decide_False by (intros E; congruence). lia.
    + intros i Hi. rewrite Hm by done. split; (intros [->|(q & Hq & Hrq & He)]; [by left|right; exists q]); (split; [|done]); [lia|].
      destruct (decide (q = floor + n)) as [->|]; [done|lia].
    + intros j Hj Hle. destruct (decide (j = floor + n)) as [->|]; [done|]. apply Hmin; [done|lia].
Qed.

Lemma reachable_spec start floor : start < len d -> floor <= start ->
  exists low reached, reachable d start floor = Some (low, reached) /\ floor <= low <= start /\ reach start low /\
    length reached = start + 1 - low /\
    (forall i, i < length reached -> reached !! i = Some true <-> reach start (low + i)) /\
    (forall j, reach start j -> floor <= j -> low <= j).
Proof.
  intros Hs Hf. unfold reachable. destruct (Nat.ltb_spec (start + 1) floor); [lia|].
  rewrite vset_Some by (rewrite length_replicate; lia). cbn [mbind option_bind].
  set (r0 := <[start - floor := true]> (replicate (start + 1 - floor) false)).
  assert (length r0 = start + 1 - floor) as Hlen by (unfold r0; by rewrite length_insert, length_replicate).
  destruct (reach_loop_spec (start + 1 - floor) floor start r0 1 start) as (low & r & E & H1 & H2 & H3 & H4 & H5); try done; try lia.
  - rewrite take_ge by lia. unfold r0. rewrite count_true_insert by (apply lookup_replicate; split; [done|lia]).
    f_equal. clear. induction (start + 1 - floor) as [|n IH]; [done|]. unfold count_true in *. cbn. done.
  - intros i Hi. unfold r0. rewrite list_lookup_insert_Some, lookup_replicate, length_replicate. split.
    + intros [(<- & _)|(_ & ? & _)]; [left; lia|done].
    + intros [Ei|(p & Hp & Hr & _)]; [left; split; [lia|]; split; [done|lia]|]. apply reach_le in Hr; lia.
  - rewrite E. cbn [mbind option_bind]. exists low, (drop (low - floor) r). split; [done|]. do 2 (split; [done|]).
    rewrite length_drop, H1, Hlen. split; [lia|]. split; [|done].
    intros i Hi. rewrite lookup_drop, H4 by lia. by replace (floor + (low - floor + i)) with (low + i) by lia.
Qed.

Lemma reached_from_spec low reached j : j ∈ reached_from low reached <-> low <= j /\ reached !! (j - low) = Some true.
Proof.
  revert low; induction reached as [|b reached IH]; intros low; cbn [reached_from].
  { rewrite lookup_nil, elem_of_nil. naive_solver. }
  assert (low <= j /\ (b :: reached) !! (j - low) = Some true <->
    (j = low /\ b = true) \/ (S low <= j /\ reached !! (j - S low) = Some true)) as ->.
  { split.
    - intros [Hle H]. destruct (decide (j = low)) as [->|].
      + rewrite Nat.sub_diag in H. injection H as ->. auto.
      + right. split; [lia|]. by replace (j - low) with (S (j - S low)) in H by lia.
    - intros [[-> ->]|[Hle H]]; [by rewrite Nat.sub_diag|]. split; [lia|].
      by replace (j - low) with (S (j - S low)) by lia. }
  destruct b; [rewrite elem_of_cons|]; rewrite IH; naive_solver.
Qed.

Lemma reached_from_ascending low reached i j x y : reached_from low reached !! i = Some x ->
  reached_from low reached !! j = Some y -> i < j -> x < y.
Proof.
  revert low i j; induction reached as [|b reached IH]; intros low i j Hx Hy Hij; cbn [reached_from] in *; [done|].
  destruct b; [|by apply (IH (S low) i j)].
  destruct j as [|j]; [lia|]. destruct i as [|i]; [|apply (IH (S low) i j Hx Hy); lia].
  cbn in Hx, Hy. injection Hx as <-. apply list_elem_of_lookup_2, reached_from_spec in Hy as [Hy _]. lia.
Qed.
End reach.

(** ** The abstract view: labels, children, payloads and annotations by node *)
Fixpoint bounds_of (acc : nat) (ks : list (list nat)) : list nat :=
  match ks with
  | [] => [acc]
  | k :: ks => acc :: bounds_of (acc + length k) ks
  end.

(** [values], reached through [slots], holds [xs]. *)
Record slots_hold {T} (slots : list (option nat)) (values : list T) (xs : list (option T)) : Prop := {
  sh_length : length slots = length xs;
  sh_some : forall i s, slots !! i = Some (Some s) -> exists x, values !! s = Some x /\ xs !! i = Some (Some x);
  sh_none : forall i, slots !! i = Some None -> xs !! i = Some None;
  sh_inj : forall i j s, slots !! i = Some (Some s) -> slots !! j = Some (Some s) -> i = j;
}.

Record view {N L A} (d : Dag N L A) (ks : list (list nat)) (ls : list (option L)) (xs : list (option A)) : Prop := {
  v_kids : length ks = len d;
  v_edges : edges d = concat ks;
  v_bounds : edge_bounds d = bounds_of 0 ks;
  v_leaves : slots_hold (leaf_slots d) (leaves d) ls;
  v_annotations : slots_hold (annotation_slots d) (annotations d) xs;
  v_leaf_len : length ls = len d;
  v_annotation_len : length xs = len d;
  v_order : forall i k c, ks !! i = Some k -> c ∈ k -> c < i;
}.

Lemma bounds_of_length acc ks : length (bounds_of acc ks) = S (length ks).
Proof. revert acc; induction ks as [|k ks IH]; intros acc; cbn; [done|]. by rewrite IH. Qed.

Lemma bounds_of_lookup acc ks i : i <= length ks -> bounds_of acc ks !! i = Some (acc + length (concat (take i ks))).
Proof.
  revert acc i; induction ks as [|k ks IH]; intros acc i Hi; cbn in *.
  - destruct i; [|lia]. cbn. f_equal. lia.
  - destruct i as [|i]; cbn; [f_equal; lia|]. rewrite IH by lia. rewrite length_app. f_equal. lia.
Qed.

Lemma bounds_of_snoc acc ks k : bounds_of acc (ks ++ [k]) = bounds_of acc ks ++ [acc + length (concat ks) + length k].
Proof.
  revert acc; induction ks as [|k' ks IH]; intros acc; cbn.
  - do 3 f_equal. lia.
  - rewrite IH, length_app. do 4 f_equal. lia.
Qed.

Section view.
Context {N L A : Type} (d : Dag N L A) (ks : list (list nat)) (ls : list (option L)) (xs : list (option A)).
Context (V : view d ks ls xs).

Lemma view_children i : children d i = ks !! i.
Proof.
  unfold children, edge_range. rewrite (v_bounds _ _ _ _ V), (v_edges _ _ _ _ V).
  destruct (ks !! i) as [k|] eqn:E.
  - pose proof (lookup_lt_Some _ _ _ E) as Hi. rewrite !bounds_of_lookup by lia. cbn [mbind option_bind Nat.add].
    rewrite Nat.add_1_r, (take_S_r _ _ _ E), concat_app. cbn [concat]. rewrite app_nil_r, length_app.
    assert (concat ks = concat (take i ks) ++ k ++ concat (drop (S i) ks)) as ->.
    { rewrite <- (take_drop_middle ks i k E) at 1. by rewrite concat_app. }
    rewrite !length_app.
    rewrite (proj2 (Nat.leb_le _ _)), (proj2 (Nat.leb_le _ _)) by lia. cbn [andb].
    replace (_ + _ - _) with (length k) by lia. by rewrite drop_app_length, take_app_length.
  - apply lookup_ge_None in E. rewrite (lookup_ge_None_2 _ (i + 1)) by (rewrite bounds_of_length; lia).
    by destruct (bounds_of 0 ks !! i).
Qed.

Lemma slots_hold_read {T} slots values (ys : list (option T)) i : slots_hold slots values ys ->
  read_slot slots values i = ys !! i.
Proof.
  intros H. unfold read_slot, slot. destruct (slots !! i) as [[s|]|] eqn:E; cbn [mbind option_bind].
  - destruct (sh_some _ _ _ H i s E) as (x & -> & ->). done.
  - by rewrite (sh_none _ _ _ H i E).
  - apply lookup_ge_None in E. rewrite (sh_length _ _ _ H) in E. symmetry. by apply lookup_ge_None.
Qed.

Lemma view_leaf i : get_leaf_data d i = ls !! i.
Proof. apply slots_hold_read, V. Qed.

Lemma view_annotation i : get_annotation d i = xs !! i.
Proof. apply slots_hold_read, V. Qed.

Lemma view_ordered : ordered d.
Proof.
  intros i Hi. rewrite <- (v_kids _ _ _ _ V) in Hi. apply lookup_lt_is_Some in Hi as [k Hk].
  exists k. rewrite view_children. split; [done|]. intros c. by apply (v_order _ _ _ _ V i).
Qed.
End view.

Lemma slots_hold_grow {T} slots values (ys : list (option T)) : slots_hold slots values ys ->
  slots_hold (slots ++ [None]) values (ys ++ [None]).
Proof.
  intros [H1 H2 H3 H4]. split.
  - rewrite !length_app. cbn. lia.
  - intros i s [H|(_ & H)]%lookup_app_Some.
    + destruct (H2 i s H) as (x & ? & ?). exists x. split; [done|]. by apply lookup_app_l_Some.
    + by apply list_lookup_singleton_Some in H as [_ ?].
  - intros i [H|(Hl & H)]%lookup_app_Some; [apply lookup_app_l_Some; auto|].
    rewrite lookup_app_r by lia. rewrite <- H1. by apply list_lookup_singleton_Some in H as [-> _].
  - intros i j s [Hi|(_ & Hi)]%lookup_app_Some [Hj|(_ & Hj)]%lookup_app_Some; [by eapply H4|..];
      (apply list_lookup_singleton_Some in Hi as [_ ?] || apply list_lookup_singleton_Some in Hj as [_ ?]); done.
Qed.

Lemma slots_hold_set {T} slots values (ys : list (option T)) i x : slots_hold slots values ys -> i < length ys ->
  exists slots' values', set_slot slots values i x = Some (slots', values') /\
    slots_hold slots' values' (<[i := Some x]> ys).
Proof.
  intros [H1 H2 H3 H4] Hi. unfold set_slot, slot. rewrite <- H1 in Hi. apply lookup_lt_is_Some in Hi as Hs.
  destruct Hs as [[s|] Es]; rewrite Es; cbn [mbind option_bind].
  - destruct (H2 i s Es) as (y & Hy & _). pose proof (lookup_lt_Some _ _ _ Hy) as Hlt.
    rewrite vset_Some by done. cbn [mbind option_bind]. eexists _, _. split; [done|]. split.
    + by rewrite length_insert.
    + intros j t Ht. destruct (H2 j t Ht) as (z & Hz & Hj). destruct (decide (i = j)) as [<-|Hne].
      * rewrite Es in Ht. injection Ht as <-. exists x. rewrite !list_lookup_insert_eq by (done || by rewrite <- H1). done.
      * exists z. rewrite !list_lookup_insert_ne; [done|done|]. intros ->. by apply Hne, (H4 _ _ t).
    + intros j Hj. rewrite list_lookup_insert_ne; [auto|]. intros ->. congruence.
    + done.
  - rewrite vset_Some by done. cbn [mbind option_bind]. eexists _, _. split; [done|]. split.
    + by rewrite !length_insert.
    + intros j t [(<- & [= <-] & _)|(Hne & Hj)]%list_lookup_insert_Some.
      * exists x. rewrite lookup_app_r, Nat.sub_diag by done. rewrite list_lookup_insert_eq by (by rewrite <- H1). done.
      * destruct (H2 j t Hj) as (z & Hz & Hz'). exists z. rewrite list_lookup_insert_ne by done.
        split; [by apply lookup_app_l_Some|done].
    + intros j [(_ & ? & _)|(Hne & Hj)]%list_lookup_insert_Some; [done|]. rewrite list_lookup_insert_ne by done. auto.
    + assert (forall j, slots !! j = Some (Some (length values)) -> False) as Hfresh.
      { intros j Hj. destruct (H2 j _ Hj) as (z & Hz & _). apply lookup_lt_Some in Hz. lia. }
      intros j k t [(<- & [= <-] & _)|(Nj & Hj)]%list_lookup_insert_Some [(<- & E & _)|(Nk & Hk)]%list_lookup_insert_Some; try done.
      * by apply Hfresh in Hk.
      * injection E as <-. by apply Hfresh in Hj.
      * by eapply H4.
Qed.

(** ** The building operations extend the view *)
Section build.
Context {N L A : Type} (d : Dag N L A) (ks : list (list nat)) (ls : list (option L)) (xs : list (option A)).
Context (V : view d ks ls xs).

Lemma add_node_view n : fst (add_node n d) = len d /\
  nodes (snd (add_node n d)) = nodes d ++ [n] /\
  view (snd (add_node n d)) (ks ++ [[]]) (ls ++ [None]) (xs ++ [None]).
Proof.
  destruct V as [V1 V2 V3 V4 V5 V6 V7 V8]. split; [done|]. split; [done|]. split; unfold len in *; cbn; rewrite ?length_app; cbn.
  - by rewrite V1.
  - by rewrite concat_app, app_nil_r.
  - rewrite bounds_of_snoc, V3, V2. cbn. do 3 f_equal. lia.
  - by apply slots_hold_grow.
  - by apply slots_hold_grow.
  - by rewrite V6.
  - by rewrite V7.
  - intros i k c [Hk|(_ & Hk)]%lookup_app_Some Hc; [by apply (V8 i k)|].
    apply list_lookup_singleton_Some in Hk as [_ <-]. by apply not_elem_of_nil in Hc.
Qed.

Lemma add_edge_view from to : from + 1 = len d -> to < from ->
  exists d', add_edge from to d = Some d' /\ nodes d' = nodes d /\
    view d' (alter (fun k => k ++ [to]) from ks) ls xs.
Proof.
  intros Hf Ht. destruct V as [V1 V2 V3 V4 V5 V6 V7 V8]. unfold len in *. unfold add_edge.
  rewrite (proj2 (Nat.eqb_eq _ _) Hf), (proj2 (Nat.ltb_lt _ _) Ht). cbn [negb].
  destruct (snoc_cases ks) as [->|(ks' & k & ->)]; [cbn in V1; lia|].
  rewrite length_app in V1. cbn in V1. assert (from = length ks') as -> by lia.
  rewrite V3, bounds_of_length, length_app. cbn [length]. rewrite Nat.add_1_r. cbn [pred].
  rewrite bounds_of_snoc. assert (length (bounds_of 0 ks') = S (length ks')) as Lb by apply bounds_of_length.
  rewrite lookup_app_r by lia. rewrite Lb, Nat.sub_diag. cbn [lookup list_lookup mbind option_bind].
  rewrite vset_Some by (rewrite length_app, Lb; cbn; lia). cbn [mbind option_bind].
  eexists. split; [done|]. split; [done|].
  rewrite insert_app_r_alt by lia. rewrite Lb, Nat.sub_diag.
  assert (alter (fun k => k ++ [to]) (length ks') (ks' ++ [k]) = ks' ++ [k ++ [to]]) as Ealter.
  { rewrite alter_app_r_alt by lia. by rewrite Nat.sub_diag. }
  rewrite Ealter. split; cbn; try done.
  - unfold len. cbn. rewrite length_app. cbn. lia.
  - rewrite V2, !concat_app. cbn. by rewrite !app_nil_r, app_assoc.
  - rewrite bounds_of_snoc, length_app. cbn. do 2 f_equal. lia.
  - intros i k' c [Hk|(Hi & Hk)]%lookup_app_Some Hc; [apply (V8 i k'); [by apply lookup_app_l_Some|done]|].
    apply list_lookup_singleton_Some in Hk as [Hi0 <-]. apply elem_of_app in Hc as [Hc| ->%list_elem_of_singleton]; [|lia].
    apply (V8 i k); [|done]. rewrite lookup_app_r by lia. by rewrite Hi0.
Qed.

Lemma set_leaf_data_view n x : n < len d ->
  exists d', set_leaf_data n x d = Some d' /\ nodes d' = nodes d /\ view d' ks (<[n := Some x]> ls) xs.
Proof.
  intros Hn. destruct V as [V1 V2 V3 V4 V5 V6 V7 V8]. unfold set_leaf_data.
  destruct (slots_hold_set _ _ _ n x V4) as (s & v & E & H); [by rewrite V6|]. rewrite E. cbn [mbind option_bind].
  eexists. split; [done|]. split; [done|]. split; try done. by rewrite length_insert.
Qed.

Lemma set_annotation_view n x : n < len d ->
  exists d', set_annotation n x d = Some d' /\ nodes d' = nodes d /\ view d' ks ls (<[n := Some x]> xs).
Proof.
  intros Hn. destruct V as [V1 V2 V3 V4 V5 V6 V7 V8]. unfold set_annotation.
  destruct (slots_hold_set _ _ _ n x V5) as (s & v & E & H); [by rewrite V7|]. rewrite E. cbn [mbind option_bind].
  eexists. split; [done|]. split; [done|]. split; try done. by rewrite length_insert.
Qed.
End build.

Lemma new_view {N L A} : view (new (N := N) (L := L) (A := A)) [] [] [].
Proof. split; try done; by split. Qed.

(** ** Preorder *)
Section preorder.
Context {N L A : Type} (d : Dag N L A).
Let edge := edge d.

(** A path whose every node is unvisited. *)
Inductive avoids (vis : list bool) : nat -> nat -> Prop :=
  | avoids_refl a : vis !! a <> Some true -> avoids vis a a
  | avoids_step a b c : vis !! a <> Some true -> edge a b -> avoids vis b c -> avoids vis a c.

Lemma avoids_start vis a b : avoids vis a b -> vis !! a <> Some true.
Proof. by destruct 1. Qed.

Lemma avoids_weaken vis n a b : avoids (<[n := true]> vis) a b -> avoids vis a b.
Proof.
  assert (forall x, <[n := true]> vis !! x <> Some true -> vis !! x <> Some true) as H.
  { intros x Hx E. apply Hx. apply list_lookup_insert_Some. destruct (decide (n = x)) as [<-|]; [|auto].
    left. split; [done|]. split; [done|]. by eapply lookup_lt_Some. }
  induction 1 as [|x y z Hx He _ IH]; [constructor; auto|]. eapply avoids_step; eauto.
Qed.

(** A path either avoids [n], too, or goes on from a child of [n]. *)
Lemma avoids_split vis n a b : avoids vis a b ->
  avoids (<[n := true]> vis) a b \/ b = n \/ exists c, edge n c /\ avoids (<[n := true]> vis) c b.
Proof.
  assert (forall x, x <> n -> vis !! x <> Some true -> <[n := true]> vis !! x <> Some true) as H.
  { intros x Hx E. by rewrite list_lookup_insert_ne. }
  induction 1 as [a Ha|a b c Ha He _ IH].
  - destruct (decide (a = n)) as [->|]; [auto|]. left. constructor. auto.
  - destruct IH as [IH|IH]; [|auto]. destruct (decide (a = n)) as [->|]; [eauto|]. left. eapply avoids_step; eauto.
Qed.

(** Children still to be pushed. *)
Definition degree (i : nat) : nat := length (default [] (children d i)).
Fixpoint weight (i : nat) (vis : list bool) : nat :=
  match vis with
  | [] => 0
  | b :: vis => (if (b : bool) then 0 else degree i) + weight (S i) vis
  end.

Lemma weight_visit i vis n : vis !! n = Some false -> weight i vis = degree (i + n) + weight i (<[n := true]> vis).
Proof.
  revert i n; induction vis as [|b vis IH]; intros i n H; [done|]. destruct n as [|n].
  - injection H as ->. cbn. rewrite Nat.add_0_r. lia.
  - change (<[S n := true]> (b :: vis)) with (b :: <[n := true]> vis). cbn [weight].
    rewrite (IH (S i) n H). replace (S i + n) with (i + S n) by lia. lia.
Qed.

Lemma preorder_loop_spec fuel vis stack : ordered d -> length vis <= len d ->
  (forall x, x ∈ stack -> x < length vis) -> length stack + weight 0 vis < fuel ->
  exists out, preorder_loop fuel d vis stack = Some out /\ NoDup out /\
    forall x, x ∈ out <-> exists s, s ∈ stack /\ avoids vis s x.
Proof.
  intros O. revert vis stack; induction fuel as [|fuel IH]; intros vis stack Hlen Hst Hf; [lia|].
  cbn [preorder_loop]. destruct stack as [|n stack].
  { exists []. split; [done|]. split; [by apply list.NoDup_nil|]. intros x. rewrite elem_of_nil.
    split; [done|]. intros (s & Hs & _). by apply not_elem_of_nil in Hs. }
  assert (n < length vis) as Hn by (apply Hst; constructor).
  assert (forall x, x ∈ stack -> x < length vis) as Hst' by (intros; apply Hst; by constructor).
  apply lookup_lt_is_Some in Hn as Hb. destruct Hb as [b Hb]. rewrite Hb. cbn [mbind option_bind].
  rewrite vset_Some by done. cbn [mbind option_bind]. destruct b.
  - rewrite list_insert_id by done. cbn in Hf.
    destruct (IH vis stack Hlen Hst') as (out & E & Hnd & Hout); [lia|].
    exists out. split; [done|]. split; [done|]. intros x. rewrite Hout. setoid_rewrite elem_of_cons. split.
    + intros (s & Hs & Ha). exists s. auto.
    + intros (s & [->|Hs] & Ha); [by apply avoids_start in Ha|]. by exists s.
  - destruct (O n ltac:(lia)) as (cs & Hcs & Hlt). rewrite Hcs. cbn [mbind option_bind].
    pose proof (weight_visit 0 vis n Hb) as Hw. cbn [Nat.add] in Hw.
    assert (degree n = length cs) as Hdeg by (unfold degree; by rewrite Hcs).
    assert (edge n = fun c => exists cs', children d n = Some cs' /\ c ∈ cs') as Hedge by done.
    destruct (IH (<[n := true]> vis) (cs ++ stack)) as (out & E & Hnd & Hout).
    + by rewrite length_insert.
    + rewrite length_insert. intros x [Hx|Hx]%elem_of_app; [apply Hlt in Hx; lia|auto].
    + rewrite length_app. cbn in Hf. lia.
    + rewrite E. cbn [mbind option_bind]. exists (n :: out). split; [done|].
      assert (n ∉ out) as Hnot.
      { intros (s & Hs & Ha)%Hout. assert (forall a b, avoids (<[n := true]> vis) a b -> b <> n) as Hne.
        { induction 1 as [a Ha'|]; [intros ->; by rewrite list_lookup_insert_eq in Ha'|done]. }
        by apply Hne in Ha. }
      split; [by apply list.NoDup_cons|]. intros x. rewrite elem_of_cons, Hout. split.
      * intros [->|(s & [Hs|Hs]%elem_of_app & Ha)].
        -- exists n. split; [constructor|]. constructor. congruence.
        -- exists n. split; [constructor|]. apply avoids_weaken in Ha.
           eapply avoids_step; [congruence| |done]. exists cs. done.
        -- exists s. split; [by constructor|]. by apply avoids_weaken in Ha.
      * intros (s & Hs & Ha). destruct (avoids_split vis n s x Ha) as [Ha'|[->|(c & He & Hc)]]; [|by left|].
        -- right. apply elem_of_cons in Hs as [->|Hs].
           ++ apply avoids_start in Ha'. by rewrite list_lookup_insert_eq in Ha'.
           ++ exists s. split; [apply elem_of_app; by right|done].
        -- right. exists c. split; [|done]. apply elem_of_app. left. destruct He as (cs' & Hcs' & Hin). congruence.
Qed.

(** The recursive depth-first traversal: [depth_first seen todo out] visits
    the nodes of [todo] in order, each unless it was seen before, and between a
    node and the next one its children in the order of their edges. *)
Inductive depth_first : gset nat -> list nat -> list nat -> Prop :=
  | df_done seen : depth_first seen [] []
  | df_seen seen n todo out : n ∈ seen -> depth_first seen todo out -> depth_first seen (n :: todo) out
  | df_visit seen n cs todo below out : n ∉ seen -> children d n = Some cs -> depth_first ({[n]} ∪ seen) cs below ->
      depth_first (list_to_set below ∪ ({[n]} ∪ seen)) todo out -> depth_first seen (n :: todo) (n :: below ++ out).

Lemma depth_first_det seen todo out : depth_first seen todo out -> forall out', depth_first seen todo out' -> out' = out.
Proof.
  induction 1 as [seen|seen n todo out Hn _ IH|seen n cs todo below out Hn Hcs _ IHb _ IHo]; intros out' H'.
  - by inversion H'.
  - inversion H' as [|? ? ? ? _ Ho|? ? ? ? ? ? Hn']; subst; [by apply IH|done].
  - inversion H' as [|? ? ? ? Hn'|? ? cs' ? below' ? _ Hcs' Hb Ho]; subst; [done|]. rewrite Hcs in Hcs'. injection Hcs' as <-.
    apply IHb in Hb as ->. by apply IHo in Ho as ->.
Qed.

(** What is visited of two lists is what is visited of the first, then of the
    second. *)
Lemma depth_first_app a : forall seen b out, depth_first seen (a ++ b) out ->
  exists o1 o2, out = o1 ++ o2 /\ depth_first seen a o1 /\ depth_first (list_to_set o1 ∪ seen) b o2.
Proof.
  intros seen b out. remember (a ++ b) as todo eqn:E. intros H. revert a E.
  induction H as [seen|seen n todo out Hn Ho IH|seen n cs todo below out Hn Hcs Hb _ Ho IH]; intros a E.
  - symmetry in E. apply app_eq_nil in E as [-> ->]. exists [], []. split; [done|]. split; constructor.
  - destruct a as [|n' a]; cbn in E.
    + exists [], out. split; [done|]. split; [constructor|]. rewrite <- E. cbn [list_to_set]. rewrite (left_id_L ∅ union). by constructor.
    + injection E as <- E. destruct (IH a E) as (o1 & o2 & -> & H1 & H2). exists o1, o2. split; [done|]. split; [by constructor|done].
  - destruct a as [|n' a]; cbn in E.
    + exists [], (n :: below ++ out). split; [done|]. split; [constructor|]. rewrite <- E. cbn [list_to_set]. rewrite (left_id_L ∅ union). by econstructor.
    + injection E as <- E. destruct (IH a E) as (o1 & o2 & -> & H1 & H2). exists (n :: below ++ o1), o2.
      split; [by rewrite app_assoc|]. split; [by econstructor|].
      replace (list_to_set (n :: below ++ o1) ∪ seen) with (list_to_set o1 ∪ (list_to_set below ∪ ({[n]} ∪ seen)) : gset nat) by set_solver. done.
Qed.

(** The loop over an explicit stack is the recursive traversal. *)
Lemma preorder_loop_depth_first fuel : forall vis stack seen out, preorder_loop fuel d vis stack = Some out ->
  (forall x, vis !! x = Some true <-> x ∈ seen /\ x < length vis) -> depth_first seen stack out.
Proof.
  induction fuel as [|fuel IH]; intros vis stack seen out E Hv; [done|]. cbn [preorder_loop] in E.
  destruct stack as [|n stack]; [injection E as <-; constructor|].
  destruct (vis !! n) as [b|] eqn:Eb; [|done]. cbn [mbind option_bind] in E. pose proof (lookup_lt_Some _ _ _ Eb) as Hn.
  rewrite vset_Some in E by done. cbn [mbind option_bind] in E. destruct b.
  - rewrite list_insert_id in E by done. apply df_seen; [by apply (Hv n)|by apply (IH vis)].
  - assert (n ∉ seen) as Hns by (intros H; assert (vis !! n = Some true) as E' by (by apply Hv); congruence).
    destruct (children d n) as [cs|] eqn:Ec; [|done]. cbn [mbind option_bind] in E.
    destruct (preorder_loop fuel d (<[n := true]> vis) (cs ++ stack)) as [rest|] eqn:Er; [|done]. injection E as <-.
    apply (IH _ _ ({[n]} ∪ seen)) in Er.
    + apply depth_first_app in Er as (below & out & -> & Hb & Ho). by econstructor.
    + intros x. rewrite length_insert. destruct (decide (x = n)) as [->|Hne].
      * rewrite list_lookup_insert_eq by done. set_solver.
      * rewrite list_lookup_insert_ne by done. rewrite Hv. set_solver.
Qed.
End preorder.

Lemma weight_bound {N L A} (d : Dag N L A) ks ls xs i n : view d ks ls xs -> i + n <= length ks ->
  weight d i (replicate n false) + length (concat (take i ks)) <= length (concat ks).
Proof.
  intros V. revert i; induction n as [|n IH]; intros i Hi; cbn [replicate weight].
  - rewrite <- (take_drop i ks) at 2. rewrite concat_app, length_app. lia.
  - specialize (IH (S i) ltac:(lia)). destruct (lookup_lt_is_Some_2 ks i) as [k Hk]; [lia|].
    unfold degree. rewrite (view_children _ _ _ _ V), Hk. cbn [default from_option id].
    rewrite (take_S_r _ _ _ Hk), concat_app, length_app in IH. cbn [concat] in IH. rewrite app_nil_r in IH. lia.
Qed.

Lemma avoids_none {N L A} (d : Dag N L A) n a b : avoids d (replicate n false) a b <-> reach d a b.
Proof.
  assert (forall x, replicate n false !! x <> Some true) as H by (intros x [? _]%lookup_replicate; done).
  split.
  - induction 1; [apply rtc_refl|]. by eapply rtc_l.
  - induction 1; [by constructor|]. by eapply avoids_step.
Qed.

(** ** The theorems of the DAG *)
(** C27: the traversals visit the reachable nodes and nothing else:
    [postorder] each once in ascending order, so that children precede their
    parents; [preorder] each once and exactly in the order of the recursive
    depth-first traversal, which visits a node before its children and these
    in edge order; [reaches] decides reachability. None panics. *)
Theorem dag_traversals {N L A} (d : Dag N L A) ks ls xs start to : view d ks ls xs -> start < len d ->
  (exists post, postorder d start = Some post /\ (forall x, x ∈ post <-> reach d start x) /\
    forall i j x y, i < j -> post !! i = Some x -> post !! j = Some y -> x < y) /\
  (exists pre, preorder d start = Some pre /\ (forall x, x ∈ pre <-> reach d start x) /\ NoDup pre /\
    forall out, depth_first d ∅ [start] out <-> out = pre) /\
  (exists b, reaches d start to = Some b /\ (b = true <-> reach d start to)).
Proof.
  intros V Hs. pose proof (view_ordered d ks ls xs V) as O. split; [|split].
  - destruct (reachable_spec d O start 0 Hs ltac:(lia)) as (low & r & E & Hlow & Hr & Hlen & Hin & Hmin).
    unfold postorder. rewrite E. cbn [mbind option_bind]. eexists. split; [done|]. split.
    + intros x. rewrite reached_from_spec. split.
      * intros [Hle Hx]. apply Hin in Hx; [|by eapply lookup_lt_Some]. by replace (low + (x - low)) with x in Hx by lia.
      * intros Hx. pose proof (Hmin x Hx ltac:(lia)). split; [done|].
        pose proof (reach_le d O start x Hs Hx). apply Hin; [lia|]. by replace (low + (x - low)) with x by lia.
    + intros i j x y Hij Hx Hy. by apply (reached_from_ascending low r i j).
  - unfold preorder.
    destruct (preorder_loop_spec d (length (edges d) + 2) (replicate (start + 1) false) [start] O) as (out & E & Hnd & Hout).
    + rewrite length_replicate. lia.
    + intros x ->%list_elem_of_singleton. rewrite length_replicate. lia.
    + pose proof (weight_bound d ks ls xs 0 (start + 1) V) as Hw. rewrite (v_kids _ _ _ _ V) in Hw.
      specialize (Hw ltac:(lia)). rewrite (v_edges _ _ _ _ V). cbn in *. lia.
    + assert (depth_first d ∅ [start] out) as Hdf.
      { apply (preorder_loop_depth_first d _ _ _ _ _ E). intros x. split; [|set_solver]. by intros [? _]%lookup_replicate. }
      exists out. split; [done|]. split; [|split; [done|]].
      * intros x. rewrite Hout. setoid_rewrite list_elem_of_singleton. setoid_rewrite avoids_none. naive_solver.
      * intros out'. split; [by apply depth_first_det|by intros ->].
  - unfold reaches. destruct (Nat.ltb_spec start to) as [Hlt|Hge].
    { exists false. split; [done|]. split; [done|]. intros H%(reach_le d O start to Hs). lia. }
    destruct (reachable_spec d O start to Hs Hge) as (low & r & E & Hlow & Hr & Hlen & Hin & Hmin).
    rewrite E. cbn [mbind option_bind]. destruct (Nat.eqb_spec low to) as [->|Hne].
    + destruct (lookup_lt_is_Some_2 r 0) as [b Hb]; [lia|]. exists b. split; [done|].
      pose proof (Hin 0 ltac:(lia)) as H0. rewrite Hb, Nat.add_0_r in H0. rewrite <- H0. split; [by intros ->|congruence].
    + exists false. split; [done|]. split; [done|]. intros H. pose proof (Hmin to H ltac:(lia)). lia.
Qed.

(** The diamond of the unit tests, built by the operations. *)
Definition diamond_kids : list (list nat) := [[]; []; [1]; [1]; [2; 3]].
Lemma diamond_view : exists d, diamond = Some d /\ len d = 5 /\ view d diamond_kids (replicate 5 None) (replicate 5 None).
Proof.
  unfold diamond.
  pose proof (proj2 (proj2 (add_node_view _ _ _ _ (new_view (N := nat) (L := unit) (A := unit)) 0))) as V1.
  pose proof (proj2 (proj2 (add_node_view _ _ _ _ V1 1))) as V2. pose proof (proj2 (proj2 (add_node_view _ _ _ _ V2 2))) as V3.
  destruct (add_edge_view _ _ _ _ V3 2 1) as (d4 & E4 & N4 & V4); [reflexivity|lia|].
  pose proof (proj2 (proj2 (add_node_view _ _ _ _ V4 3))) as V5.
  destruct (add_edge_view _ _ _ _ V5 3 1) as (d6 & E6 & N6 & V6); [reflexivity || (cbn; rewrite N4; reflexivity)|lia|].
  pose proof (proj2 (proj2 (add_node_view _ _ _ _ V6 4))) as V7.
  vm_compute in E4. injection E4 as <-. vm_compute in E6. injection E6 as <-.
  destruct (add_edge_view _ _ _ _ V7 4 2) as (d8 & E8 & N8 & V8); [reflexivity|lia|].
  vm_compute in E8. injection E8 as <-.
  destruct (add_edge_view _ _ _ _ V8 4 3) as (d9 & E9 & N9 & V9); [reflexivity|lia|].
  vm_compute in E9. injection E9 as <-.
  eexists. split; [vm_compute; reflexivity|]. split; [reflexivity|]. exact V9.
Qed.

Lemma dag_traversals_witness : exists d, diamond = Some d /\
  (exists post, postorder d 4 = Some post /\ (forall x, x ∈ post <-> reach d 4 x) /\
    forall i j x y, i < j -> post !! i = Some x -> post !! j = Some y -> x < y) /\
  (exists pre, preorder d 4 = Some pre /\ (forall x, x ∈ pre <-> reach d 4 x) /\ NoDup pre /\
    forall out, depth_first d ∅ [4] out <-> out = pre) /\
  (exists b, reaches d 4 0 = Some b /\ (b = true <-> reach d 4 0)).
Proof.
  destruct diamond_view as (d & E & Hlen & V). exists d. split; [exact E|].
  apply (dag_traversals d _ _ _ 4 0 V). rewrite Hlen. lia.
Defined.

(** The building operations refine the abstract list of nodes: [add_node]
    appends a node without children or data, [add_edge] appends a child to the
    newest node and panics for any other or for a child that does not precede
    it, [set_leaf_data] and [set_annotation] replace one entry, and the
    accessors read the list. *)
Theorem dag_building_refines {N L A} (d : Dag N L A) ks ls xs n l x from to i :
  view d ks ls xs -> i < len d ->
  (let d' := snd (add_node n d) in fst (add_node n d) = len d /\ get_node d' (len d) = Some n /\
    view d' (ks ++ [[]]) (ls ++ [None]) (xs ++ [None])) /\
  match add_edge from to d with
  | Some d' => from + 1 = len d /\ to < from /\ view d' (alter (fun k => k ++ [to]) from ks) ls xs
  | None => ~ (from + 1 = len d /\ to < from)
  end /\
  (exists d', set_leaf_data i l d = Some d' /\ view d' ks (<[i := Some l]> ls) xs) /\
  (exists d', set_annotation i x d = Some d' /\ view d' ks ls (<[i := Some x]> xs)) /\
  children d i = ks !! i /\ get_leaf_data d i = ls !! i /\ get_annotation d i = xs !! i.
Proof.
  intros V Hi. split; [|split; [|split; [|split]]].
  - destruct (add_node_view d ks ls xs V n) as (H1 & H2 & H3). split; [done|]. split; [|done].
    unfold get_node. rewrite H2. by apply list_lookup_middle.
  - destruct (decide (from + 1 = len d /\ to < from)) as [[H1 H2]|H].
    + destruct (add_edge_view d ks ls xs V from to H1 H2) as (d' & -> & _ & H3). done.
    + unfold add_edge. fold (len d). destruct (Nat.eqb_spec (from + 1) (len d)); [|done].
      destruct (Nat.ltb_spec to from); [exfalso; auto|done].
  - destruct (set_leaf_data_view d ks ls xs V i l Hi) as (d' & E & _ & H). by exists d'.
  - destruct (set_annotation_view d ks ls xs V i x Hi) as (d' & E & _ & H). by exists d'.
  - split; [by apply (view_children d ks ls xs)|]. split; [by apply (view_leaf d ks ls xs)|by apply (view_annotation d ks ls xs)].
Qed.

Lemma dag_building_refines_witness : exists d, diamond = Some d /\
  (let d' := snd (add_node 7 d) in fst (add_node 7 d) = len d /\ get_node d' (len d) = Some 7 /\
    view d' (diamond_kids ++ [[]]) (replicate 5 None ++ [None]) (replicate 5 None ++ [None])) /\
  match add_edge 4 1 d with
  | Some d' => 4 + 1 = len d /\ 1 < 4 /\ view d' (alter (fun k => k ++ [1]) 4 diamond_kids) (replicate 5 None) (replicate 5 None)
  | None => ~ (4 + 1 = len d /\ 1 < 4)
  end /\
  (exists d', set_leaf_data 2 tt d = Some d' /\ view d' diamond_kids (<[2 := Some tt]> (replicate 5 None)) (replicate 5 None)) /\
  (exists d', set_annotation 2 tt d = Some d' /\ view d' diamond_kids (replicate 5 None) (<[2 := Some tt]> (replicate 5 None))) /\
  children d 2 = diamond_kids !! 2 /\ get_leaf_data d 2 = replicate 5 None !! 2 /\ get_annotation d 2 = replicate 5 None !! 2.
Proof.
  destruct diamond_view as (d & E & Hlen & V). exists d. split; [exact E|].
  apply (dag_building_refines d _ _ _ 7 tt tt 4 1 2 V). rewrite Hlen. lia.
Defined.
