(* ===== verification/Bits.v ===== *)
(** * Little-endian bit vectors as numbers

    [bval] reads a vector of bits as the number the bit-blaster's vectors
    stand for; the lemmas relate the operations on vectors (complement,
    concatenation, slices, bitwise maps) to those of [Z]. *)
From S2P Require Import Prelude Words ApInt ApIntSpec Lang LangSpec.
Fixpoint bval (l : list bool) : Z :=
  match l with
  | [] => 0
  | b :: l => Z.b2z b + 2 * bval l
  end.

Definition size {A} (l : list A) : Z := Z.of_nat (length l).

Lemma size_nonneg {A} (l : list A) : 0 <= size l.
Proof. unfold size. lia. Qed.
#[export] Hint Resolve size_nonneg : core.

Lemma size_cons {A} (x : A) l : size (x :: l) = size l + 1.
Proof. unfold size. cbn [length]. lia. Qed.

Lemma pow2_size_cons {A} (x : A) l : 2 ^ size (x :: l) = 2 * 2 ^ size l.
Proof. rewrite size_cons, Z.pow_add_r by auto with lia. lia. Qed.

Lemma bval_bound l : 0 <= bval l < 2 ^ size l.
Proof.
  induction l as [|b l IH]; [done|]. rewrite pow2_size_cons. cbn [bval]. destruct b; cbn [Z.b2z]; lia.
Qed.

Lemma bval_app a b : bval (a ++ b) = bval a + 2 ^ size a * bval b.
Proof.
  induction a as [|x a IH]; cbn [app bval]; [change (size []) with 0; lia|].
  rewrite IH, pow2_size_cons. lia.
Qed.

Lemma bval_negb l : bval (map negb l) = 2 ^ size l - 1 - bval l.
Proof.
  induction l as [|b l IH]; [done|]. rewrite pow2_size_cons. cbn [map bval]. rewrite IH. destruct b; cbn [negb Z.b2z]; lia.
Qed.

Lemma bval_replicate n b : bval (replicate n b) = if b then 2 ^ Z.of_nat n - 1 else 0.
Proof.
  induction n as [|n IH]; [by destruct b|]. cbn [replicate bval]. rewrite IH.
  replace (Z.of_nat (S n)) with (Z.of_nat n + 1) by lia. rewrite Z.pow_add_r by lia. destruct b; cbn [Z.b2z]; lia.
Qed.

Lemma testbit_b2z_add b n i : 0 <= i -> Z.testbit (Z.b2z b + 2 * n) i = if i =? 0 then b else Z.testbit n (i - 1).
Proof.
  intros Hi. destruct (Z.eqb_spec i 0) as [->|].
  - by rewrite Z.add_comm, Z.testbit_0_r.
  - rewrite Z.add_comm. replace i with (Z.succ (i - 1)) at 1 by lia. apply Z.testbit_succ_r. lia.
Qed.

Lemma bval_testbit l i : Z.testbit (bval l) (Z.of_nat i) = nth i l false.
Proof.
  revert i; induction l as [|b l IH]; intros i; cbn [bval]; [by rewrite Z.testbit_0_l; destruct i|].
  rewrite testbit_b2z_add by lia. destruct i as [|i]; [done|]. cbn [nth]. rewrite <- IH.
  destruct (Z.eqb_spec (Z.of_nat (S i)) 0); [lia|]. f_equal. lia.
Qed.

Lemma bval_inj a b : length a = length b -> bval a = bval b -> a = b.
Proof.
  revert b; induction a as [|x a IH]; intros [|y b] Hl E; try done. cbn in *.
  assert (x = y) as -> by (destruct x, y; cbn [Z.b2z] in E; try done; lia).
  f_equal. apply IH; lia.
Qed.

Lemma bval_zip_land a b : length a = length b -> bval (zip_with andb a b) = Z.land (bval a) (bval b).
Proof.
  revert b; induction a as [|x a IH]; intros [|y b] Hl; try done. cbn [zip_with bval]. rewrite IH by (cbn in Hl; lia).
  apply Z.bits_inj'. intros i Hi. rewrite Z.land_spec, !testbit_b2z_add by lia.
  destruct (i =? 0); [done|]. by rewrite Z.land_spec.
Qed.

Lemma bval_zip_lor a b : length a = length b -> bval (zip_with orb a b) = Z.lor (bval a) (bval b).
Proof.
  revert b; induction a as [|x a IH]; intros [|y b] Hl; try done. cbn [zip_with bval]. rewrite IH by (cbn in Hl; lia).
  apply Z.bits_inj'. intros i Hi. rewrite Z.lor_spec, !testbit_b2z_add by lia.
  destruct (i =? 0); [done|]. by rewrite Z.lor_spec.
Qed.

Lemma bval_zip_lxor a b : length a = length b -> bval (zip_with xorb a b) = Z.lxor (bval a) (bval b).
Proof.
  revert b; induction a as [|x a IH]; intros [|y b] Hl; try done. cbn [zip_with bval]. rewrite IH by (cbn in Hl; lia).
  apply Z.bits_inj'. intros i Hi. rewrite Z.lxor_spec, !testbit_b2z_add by lia.
  destruct (i =? 0); [done|]. by rewrite Z.lxor_spec.
Qed.

Lemma bval_drop n l : bval (drop n l) = bval l / 2 ^ Z.of_nat n.
Proof.
  revert l; induction n as [|n IH]; intros l; [by rewrite Z.div_1_r|].
  destruct l as [|b l]; [by rewrite Z.div_0_l by lia|]. cbn [drop]. rewrite IH.
  replace (Z.of_nat (S n)) with (1 + Z.of_nat n) by lia. rewrite Z.pow_add_r, <- Z.div_div by lia. f_equal.
  cbn [bval]. change (2 ^ 1) with 2. destruct b; cbn [Z.b2z]; divlia.
Qed.

Lemma bval_take n l : bval (take n l) = bval l mod 2 ^ Z.of_nat n.
Proof.
  rewrite <- (take_drop n l) at 2. rewrite bval_app.
  destruct (Nat.le_gt_cases n (length l)) as [H|H].
  - assert (size (take n l) = Z.of_nat n) as E by (unfold size; rewrite length_take; lia).
    pose proof (bval_bound (take n l)) as B. rewrite E in *. rewrite Z.mul_comm, Z.mod_add by lia.
    by rewrite Z.mod_small.
  - rewrite (drop_ge l) by lia. rewrite (take_ge l) by lia. cbn [bval]. rewrite Z.mul_0_r, Z.add_0_r.
    symmetry. apply Z.mod_small. pose proof (bval_bound l). assert (size l <= Z.of_nat n) by (unfold size; lia).
    assert (2 ^ size l <= 2 ^ Z.of_nat n) by (apply Z.pow_le_mono_r; lia). lia.
Qed.

Lemma bval_eqb a b : length a = length b -> (bval a =? bval b) = forallb (fun '(x, y) => Bool.eqb x y) (zip a b).
Proof.
  revert b; induction a as [|x a IH]; intros [|y b] Hl; try done. cbn [zip_with forallb bval]. rewrite <- IH by (cbn in Hl; lia).
  destruct x, y; cbn [Z.b2z Bool.eqb andb]; lia.
Qed.

(** The top bit is the sign. *)
Lemma bval_snoc l b : bval (l ++ [b]) = bval l + 2 ^ size l * Z.b2z b.
Proof. rewrite bval_app. cbn [bval]. destruct b; cbn [Z.b2z]; lia. Qed.

Lemma sign_of_snoc l b : sign_of (size l + 1) (bval (l ++ [b])) = bval l - 2 ^ size l * Z.b2z b.
Proof.
  rewrite bval_snoc. pose proof (bval_bound l). unfold sign_of. rewrite Z.add_simpl_r.
  pose proof (size_nonneg l).
  rewrite Z.pow_add_r by lia. change (2 ^ 1) with 2.
  destruct b; cbn [Z.b2z]; destruct (Z.ltb_spec (bval l + 2 ^ size l * 1) (2 ^ size l)); destruct (Z.ltb_spec (bval l + 2 ^ size l * 0) (2 ^ size l)); lia.
Qed.

Lemma bval_of_bits (f : nat -> bool) x n : (forall i, (i < n)%nat -> f i = Z.testbit x (Z.of_nat i)) ->
  bval (map f (seq 0 n)) = (x mod 2 ^ Z.of_nat n)%Z.
Proof.
  intros Hf. apply Z.bits_inj'. intros i Hi. rewrite Z.testbit_mod_pow2 by lia.
  rewrite <- (Z2Nat.id i) by done. rewrite bval_testbit, nth_lookup, list_lookup_fmap.
  destruct (Z.ltb_spec (Z.of_nat (Z.to_nat i)) (Z.of_nat n)).
  - rewrite lookup_seq_lt by lia. cbn. rewrite Hf by lia. done.
  - rewrite lookup_seq_ge by lia. done.
Qed.

(** ** The total bit-vector operators of SMT-LIB

    The bit-blaster gives a zero divisor SMT-LIB's meaning where [eval_int]
    panics: the quotient is all ones (one for a negative dividend of the signed
    division) and the remainder is the dividend. Elsewhere the operators are
    those of [bv_op]. *)
#[local] Open Scope Z_scope.

Definition op_width (k : SymKind.t) (w : Z) : Z :=
  match k with
  | SymKind.Eq | SymKind.Ne | SymKind.Lt | SymKind.Le | SymKind.Gt | SymKind.Ge
  | SymKind.ULt | SymKind.ULe | SymKind.UGt | SymKind.UGe => 1
  | _ => w
  end.

Definition smt_op (k : SymKind.t) (w x y : Z) : Z :=
  match bv_op k w x y, k with
  | Some v, _ => v mod 2 ^ op_width k w
  | None, SymKind.Div => if sign_of w x <? 0 then 1 mod 2 ^ w else 2 ^ w - 1
  | None, SymKind.UDiv => 2 ^ w - 1
  | None, _ => x
  end.

Lemma smt_op_bv_op k w x y v : bv_op k w x y = Some v -> smt_op k w x y = v mod 2 ^ op_width k w.
Proof. intros E. unfold smt_op. rewrite E. done. Qed.

(** ** Unsigned division

    The quotient of [n] bits and the remainder, total. *)
Definition quo (n x y : Z) : Z := if y =? 0 then 2 ^ n - 1 else x / y.
Definition rmd (x y : Z) : Z := if y =? 0 then x else x mod y.

Lemma div_step n x y c : 0 <= n -> 0 <= x -> 0 <= y -> 0 <= c <= 1 ->
  let r := 2 * rmd x y + c in
  rmd (2 * x + c) y = (if y <=? r then r - y else r) /\
  quo (n + 1) (2 * x + c) y = Z.b2z (y <=? r) + 2 * quo n x y.
Proof.
  intros Hn Hx Hy Hc r. unfold rmd, quo in *. subst r. destruct (Z.eqb_spec y 0) as [->|Hne].
  - destruct (Z.leb_spec 0 (2 * x + c)); [|lia]. rewrite Z.pow_add_r by lia. cbn [Z.b2z]. lia.
  - pose proof (Z.div_mod x y Hne) as E. pose proof (Z.mod_pos_bound x y ltac:(lia)) as B.
    set (q := x / y) in *. set (m := x mod y) in *.
    destruct (Z.leb_spec y (2 * m + c)); cbn [Z.b2z]; split; symmetry.
    + apply (Z.mod_unique_pos _ _ (2 * q + 1)); lia.
    + apply (Z.div_unique_pos _ _ _ (2 * m + c - y)); lia.
    + apply (Z.mod_unique_pos _ _ (2 * q)); lia.
    + apply (Z.div_unique_pos _ _ _ (2 * m + c)); lia.
Qed.

Lemma rmd_bound w x y : 0 <= x < 2 ^ w -> 0 <= y < 2 ^ w -> 0 <= rmd x y < 2 ^ w.
Proof.
  intros Hx Hy. unfold rmd. destruct (Z.eqb_spec y 0); [done|]. pose proof (Z.mod_pos_bound x y). lia.
Qed.

Lemma smt_udiv w x y : 0 <= x < 2 ^ w -> 0 <= y < 2 ^ w -> smt_op SymKind.UDiv w x y = quo w x y.
Proof.
  intros Hx Hy. unfold smt_op, quo, bv_op. destruct (Z.eqb_spec y 0); cbn [negb]; [done|].
  apply Z.mod_small. cbn [op_width]. pose proof (Z.div_pos x y). pose proof (Z.div_le_upper_bound x y x). nia.
Qed.

Lemma smt_urem w x y : 0 <= x < 2 ^ w -> 0 <= y < 2 ^ w -> smt_op SymKind.URem w x y = rmd x y.
Proof.
  intros Hx Hy. unfold smt_op, rmd, bv_op. destruct (Z.eqb_spec y 0); cbn [negb]; [done|].
  apply Z.mod_small. cbn [op_width]. pose proof (Z.mod_pos_bound x y). lia.
Qed.

(** ** Signs and magnitudes *)
Definition neg_bit (w x : Z) : bool := 2 ^ (w - 1) <=? x.
Definition mag (w x : Z) : Z := if neg_bit w x then (- x) mod 2 ^ w else x.

Section signs.
Context (w : Z) (Hw : 0 < w).

Lemma pow2_halves : 2 ^ w = 2 * 2 ^ (w - 1).
Proof. rewrite <- Z.pow_succ_r by lia. f_equal. lia. Qed.

Lemma sign_of_neg_bit x : sign_of w x = if neg_bit w x then x - 2 ^ w else x.
Proof.
  unfold sign_of, neg_bit. destruct (Z.ltb_spec x (2 ^ (w - 1))), (Z.leb_spec (2 ^ (w - 1)) x); lia.
Qed.

Lemma mag_abs x : 0 <= x < 2 ^ w -> mag w x = Z.abs (sign_of w x).
Proof.
  intros Hx. rewrite sign_of_neg_bit. unfold mag. pose proof pow2_halves as E.
  destruct (neg_bit w x) eqn:N; [|lia]. unfold neg_bit in N. apply Z.leb_le in N.
  assert (0 < 2 ^ (w - 1)) by (apply Z.pow_pos_nonneg; lia).
  rewrite <- (Z.mod_add _ 1) by lia. rewrite Z.mod_small by lia. lia.
Qed.

Lemma neg_bit_sign x : 0 <= x < 2 ^ w -> neg_bit w x = (sign_of w x <? 0).
Proof.
  intros Hx. rewrite sign_of_neg_bit. destruct (neg_bit w x) eqn:N; [symmetry; apply Z.ltb_lt|symmetry; apply Z.ltb_ge]; lia.
Qed.

Lemma sign_of_zero x : 0 <= x < 2 ^ w -> sign_of w x = 0 <-> x = 0.
Proof.
  intros Hx. rewrite sign_of_neg_bit. pose proof pow2_halves. assert (0 < 2 ^ (w - 1)) by (apply Z.pow_pos_nonneg; lia).
  destruct (neg_bit w x) eqn:N; unfold neg_bit in N; lia.
Qed.

Lemma mag_bound x : 0 <= x < 2 ^ w -> 0 <= mag w x < 2 ^ w.
Proof. intros Hx. unfold mag. destruct (neg_bit w x); [|done]. apply Z.mod_pos_bound. lia. Qed.

Lemma mag_zero x : 0 <= x < 2 ^ w -> mag w x = 0 <-> x = 0.
Proof. intros Hx. rewrite mag_abs by done. pose proof (sign_of_zero x Hx). lia. Qed.

Lemma opp_mod a : (- (a mod 2 ^ w)) mod 2 ^ w = (- a) mod 2 ^ w.
Proof. rewrite <- Z.sub_0_l, Zminus_mod_idemp_r. done. Qed.

(** Division by magnitudes. *)
Lemma quot_abs x y : y <> 0 -> Z.quot x y = (if xorb (x <? 0) (y <? 0) then - (Z.abs x / Z.abs y) else Z.abs x / Z.abs y).
Proof.
  intros Hy. rewrite Z.quot_div by done.
  destruct (Z.ltb_spec x 0), (Z.ltb_spec y 0); cbn [xorb];
    destruct (Z.eq_dec x 0) as [->|]; rewrite ?Z.abs_0, ?Z.div_0_l by lia; cbn [Z.sgn]; try lia;
    rewrite ?(Z.sgn_neg x), ?(Z.sgn_pos x), ?(Z.sgn_neg y), ?(Z.sgn_pos y) by lia; lia.
Qed.

Lemma rem_abs x y : y <> 0 -> Z.rem x y = (if x <? 0 then - (Z.abs x mod Z.abs y) else Z.abs x mod Z.abs y).
Proof.
  intros Hy. rewrite Z.rem_mod by done. destruct (Z.ltb_spec x 0).
  - rewrite Z.sgn_neg by lia. lia.
  - destruct (Z.eq_dec x 0) as [->|]; [rewrite Z.abs_0, Z.mod_0_l by lia; done|]. rewrite Z.sgn_pos by lia. lia.
Qed.

Lemma smt_sdiv x y : 0 <= x < 2 ^ w -> 0 <= y < 2 ^ w ->
  let q := quo w (mag w x) (mag w y) in
  smt_op SymKind.Div w x y = if xorb (neg_bit w x) (neg_bit w y) then (- q) mod 2 ^ w else q.
Proof.
  intros Hx Hy q. unfold smt_op, bv_op. pose proof (mag_zero y Hy) as Hz. pose proof pow2_halves as Hp.
  assert (0 < 2 ^ (w - 1)) by (apply Z.pow_pos_nonneg; lia).
  destruct (Z.eqb_spec y 0) as [->|Hne]; cbn [negb].
  - assert (q = 2 ^ w - 1) as -> by (subst q; unfold quo; by rewrite (proj2 Hz eq_refl)).
    rewrite <- neg_bit_sign by done. unfold neg_bit at 3. destruct (Z.leb_spec (2 ^ (w - 1)) 0); [lia|].
    rewrite xorb_false_r. destruct (neg_bit w x); [|done].
    replace (- (2 ^ w - 1)) with (1 + (-1) * 2 ^ w) by lia. by rewrite Z.mod_add by lia.
  - assert (q = Z.abs (sign_of w x) / Z.abs (sign_of w y)) as Eq.
    { subst q. unfold quo. destruct (Z.eqb_spec (mag w y) 0); [tauto|]. by rewrite !mag_abs. }
    pose proof (sign_of_zero y Hy). rewrite quot_abs, <- Eq, <- !neg_bit_sign by (done || tauto). cbn [op_width].
    destruct (xorb _ _); [done|]. apply Z.mod_small.
    pose proof (mag_bound x Hx) as B. rewrite mag_abs in B by done. rewrite Eq.
    assert (0 < Z.abs (sign_of w y)) by lia.
    pose proof (Z.div_pos (Z.abs (sign_of w x)) (Z.abs (sign_of w y))).
    pose proof (Z.div_le_upper_bound (Z.abs (sign_of w x)) (Z.abs (sign_of w y)) (Z.abs (sign_of w x))). nia.
Qed.

Lemma smt_srem x y : 0 <= x < 2 ^ w -> 0 <= y < 2 ^ w ->
  let r := rmd (mag w x) (mag w y) in
  smt_op SymKind.SRem w x y = if neg_bit w x then (- r) mod 2 ^ w else r.
Proof.
  intros Hx Hy r. unfold smt_op, bv_op. pose proof (mag_zero y Hy) as Hz. pose proof pow2_halves as Hp.
  destruct (Z.eqb_spec y 0) as [->|Hne]; cbn [negb].
  - assert (r = mag w x) as -> by (subst r; unfold rmd; by rewrite (proj2 Hz eq_refl)).
    unfold mag. destruct (neg_bit w x); [|done]. rewrite opp_mod, Z.opp_involutive. symmetry. by apply Z.mod_small.
  - assert (r = Z.abs (sign_of w x) mod Z.abs (sign_of w y)) as Eq.
    { subst r. unfold rmd. destruct (Z.eqb_spec (mag w y) 0); [tauto|]. by rewrite !mag_abs. }
    pose proof (sign_of_zero y Hy). rewrite rem_abs, <- Eq, <- neg_bit_sign by (done || tauto). cbn [op_width].
    destruct (neg_bit w x); [done|]. apply Z.mod_small.
    pose proof (mag_bound y Hy) as B. rewrite mag_abs in B by done. rewrite Eq.
    pose proof (Z.mod_pos_bound (Z.abs (sign_of w x)) (Z.abs (sign_of w y))). lia.
Qed.
End signs.
