(* ===== verification/Gates.v ===== *)
(** * Tseitin gates ([libs/symbolic/src/bitblast/mod.rs], gate primitives)

    A gate is emitted into a clause sink: the SAT solver in the program, any
    implementation of [CnfSink] here. A circuit is a computation in [Gate S]:
    it threads the sink and panics ([None]) where the code indexes out of
    range. Vectors of literals are little-endian. *)
From S2P Require Import Prelude Lang SatSolver.
#[local] Open Scope nat_scope.

(** ** What a circuit needs of a solver *)
Class CnfSink (S : Type) := {
  sink_new_var : S -> option (Var * S);
  sink_add_clause : list Lit -> S -> option S;
}.

#[export] Instance solver_sink : CnfSink Solver := {
  sink_new_var := SatSolver.new_var;
  sink_add_clause := SatSolver.add_clause;
}.

(** ** The circuit monad *)
Definition Gate (S A : Type) : Type := S -> option (A * S).

#[export] Instance gate_ret S : MRet (Gate S) := fun A a s => Some (a, s).
#[export] Instance gate_bind S : MBind (Gate S) := fun A B k m s =>
  match m s with Some (a, s) => k a s | None => None end.

(** An operation that may panic and leaves the sink alone. *)
Definition pure {S A} (o : option A) : Gate S A := fun s =>
  match o with Some a => Some (a, s) | None => None end.

(** A loop that carries a value. *)
Fixpoint foldM {S A B} (f : B -> A -> Gate S B) (l : list A) (acc : B) : Gate S B :=
  match l with
  | [] => mret acc
  | x :: l => acc ← f acc x; foldM f l acc
  end.

(** [iter().enumerate()]. *)
Definition enumerate {A} (l : list A) : list (nat * A) := zip (seq 0 (length l)) l.

Section gates.
Context {S : Type} `{CnfSink S}.

Definition fresh : Gate S Lit := fun s =>
  match sink_new_var s with Some (v, s) => Some (lit_positive v, s) | None => None end.

(** The circuits ignore the verdict of [add_clause]. *)
Definition emit (c : list Lit) : Gate S unit := fun s =>
  match sink_add_clause c s with Some s => Some (tt, s) | None => None end.

Definition gate_and (a b : Lit) : Gate S Lit :=
  y ← fresh;
  _ ← emit [negate a; negate b; y];
  _ ← emit [a; negate y];
  _ ← emit [b; negate y];
  mret y.

Definition gate_or (a b : Lit) : Gate S Lit :=
  y ← fresh;
  _ ← emit [a; b; negate y];
  _ ← emit [negate a; y];
  _ ← emit [negate b; y];
  mret y.

Definition gate_xor (a b : Lit) : Gate S Lit :=
  y ← fresh;
  _ ← emit [negate a; negate b; negate y];
  _ ← emit [a; b; negate y];
  _ ← emit [a; negate b; y];
  _ ← emit [negate a; b; y];
  mret y.

Definition gate_mux (s a b : Lit) : Gate S Lit :=
  y ← fresh;
  _ ← emit [negate s; negate a; y];
  _ ← emit [negate s; a; negate y];
  _ ← emit [s; negate b; y];
  _ ← emit [s; b; negate y];
  mret y.

(** [zip] stops at the shorter vector. *)
Definition mux_bits (s : Lit) (a b : list Lit) : Gate S (list Lit) :=
  mapM (fun '(x, y) => gate_mux s x y) (zip a b).

(** The loop of [Blaster::bitwise]. *)
Definition bitwise (gate : Lit -> Lit -> Gate S Lit) (a b : list Lit) : Gate S (list Lit) :=
  mapM (fun '(x, y) => gate x y) (zip a b).

(** [one] is the literal fixed to true. *)
Definition eq_bits (one : Lit) (a b : list Lit) : Gate S Lit :=
  foldM (fun acc '(x, y) => xor ← gate_xor x y; gate_and acc (negate xor)) (zip a b) one.

End gates.

(** ** Arithmetic, comparison and shift circuits ([libs/symbolic/src/bitblast/arith.rs])

    Each definition is the circuit of the method of the same name on the bits
    of its operands; [one] is the blaster's literal fixed to true. *)
Inductive Shift := ShLeft | ShLogical | ShArithmetic.

Section circuits.
Context {S : Type} `{CnfSink S} (one : Lit).

Definition zero : Lit := negate one.
Definition zeros (w : nat) : list Lit := replicate w zero.

Definition adder (a b : list Lit) (carry_in : Lit) : Gate S (list Lit * Lit) :=
  foldM (fun '(sum, carry) '(ai, bi) =>
    axb ← gate_xor ai bi;
    s ← gate_xor axb carry;
    ab ← gate_and ai bi;
    cx ← gate_and carry axb;
    carry ← gate_or ab cx;
    mret (sum ++ [s], carry)) (zip a b) ([], carry_in).

Definition invert (bits : list Lit) : list Lit := map negate bits.

Definition sub_carry (a b : list Lit) : Gate S (list Lit * Lit) := adder a (invert b) one.

Definition subtract (a b : list Lit) : Gate S (list Lit) := '(d, _) ← sub_carry a b; mret d.

Definition neg_bits (a : list Lit) : Gate S (list Lit) :=
  '(s, _) ← adder (invert a) (zeros (length a)) one; mret s.

(** [partial = (a & bi) << i], truncated to [w] bits. [w - i] underflows past
    the width. *)
Definition partial_product (a : list Lit) (i : nat) (bi : Lit) : Gate S (list Lit) :=
  let w := length a in
  if w <? i then pure None
  else
    foldM (fun partial j =>
      aj ← pure (a !! j);
      y ← gate_and aj bi;
      pure (vset partial (j + i) y)) (seq 0 (w - i)) (zeros w).

Definition multiply (a b : list Lit) : Gate S (list Lit) :=
  foldM (fun acc '(i, bi) =>
    partial ← partial_product a i bi;
    '(acc, _) ← adder acc partial zero;
    mret acc) (enumerate b) (zeros (length a)).

Definition uge (a b : list Lit) : Gate S Lit := '(_, carry) ← sub_carry a b; mret carry.

(** [compare]'s closure: the sign bit flipped. The empty vector panics. *)
Definition flip (v : list Lit) : option (list Lit) :=
  match length v with
  | O => None
  | Datatypes.S top => x ← v !! top; vset v top (negate x)
  end.

Definition compare (kind : SymKind.t) (a b : list Lit) : Gate S (list Lit) :=
  bit ← match kind with
  | SymKind.ULt => y ← uge a b; mret (negate y)
  | SymKind.UGe => uge a b
  | SymKind.UGt => y ← uge b a; mret (negate y)
  | SymKind.ULe => uge b a
  | SymKind.Lt => fa ← pure (flip a); fb ← pure (flip b); y ← uge fa fb; mret (negate y)
  | SymKind.Ge => fa ← pure (flip a); fb ← pure (flip b); uge fa fb
  | SymKind.Gt => fb ← pure (flip b); fa ← pure (flip a); y ← uge fb fa; mret (negate y)
  | SymKind.Le => fb ← pure (flip b); fa ← pure (flip a); uge fb fa
  | _ => pure None
  end;
  mret [bit].

(** One turn of the restoring division: the remainder, which has one guard
    bit, moves up by one and takes [a_i] in. [rem[k]] panics when the last
    subtraction, cut to the shorter operand, lost bits. *)
Definition udivrem_step (a b_ext : list Lit) (st : list Lit * list Lit) (i : nat)
    : Gate S (list Lit * list Lit) :=
  let '(quot, rem) := st in
  let w := length a in
  if length rem <? w + 1 then pure None
  else
    ai ← pure (a !! i);
    let rem := ai :: take w rem in
    '(diff, ge) ← sub_carry rem b_ext;
    rem ← mux_bits ge diff rem;
    quot ← pure (vset quot i ge);
    mret (quot, rem).

Definition udivrem (a b : list Lit) : Gate S (list Lit * list Lit) :=
  let w := length a in
  '(quot, rem) ← foldM (udivrem_step a (b ++ [zero])) (rev (seq 0 w)) (zeros w, zeros (w + 1));
  mret (quot, take w rem).

(** [last().expect(..)]. *)
Definition last_bit (a : list Lit) : option Lit := list.last a.

Definition divrem (signed want_quotient : bool) (a b : list Lit) : Gate S (list Lit) :=
  if negb signed then
    '(q, r) ← udivrem a b;
    mret (if want_quotient then q else r)
  else
    sign_a ← pure (last_bit a);
    sign_b ← pure (last_bit b);
    neg_a ← neg_bits a;
    neg_b ← neg_bits b;
    mag_a ← mux_bits sign_a neg_a a;
    mag_b ← mux_bits sign_b neg_b b;
    '(q, r) ← udivrem mag_a mag_b;
    if want_quotient then
      result_sign ← gate_xor sign_a sign_b;
      neg_q ← neg_bits q;
      mux_bits result_sign neg_q q
    else
      neg_r ← neg_bits r;
      mux_bits sign_a neg_r r.

(** The [while] of [shift]: the number of bits that in-range amounts have. *)
Fixpoint stages_loop (fuel stages w : nat) : nat :=
  match fuel with
  | O => stages
  | Datatypes.S fuel => if 2 ^ stages <? w then stages_loop fuel (Datatypes.S stages) w else stages
  end.
Definition stage_count (w : nat) : nat := stages_loop w 0 w.

Definition shift_const {A} (bits : list A) (by_ : nat) (kind : Shift) (fill : A) : list A :=
  let w := length bits in
  map (fun p => match kind with
    | ShLeft => if by_ <=? p then default fill (bits !! (p - by_)) else fill
    | ShLogical | ShArithmetic => if p + by_ <? w then default fill (bits !! (p + by_)) else fill
    end) (seq 0 w).

(** [amount[stages..]] panics when the amount has fewer bits. *)
Definition shift (kind : Shift) (a amount : list Lit) : Gate S (list Lit) :=
  let w := length a in
  fill ← match kind with ShArithmetic => pure (last_bit a) | _ => mret zero end;
  let stages := stage_count w in
  cur ← foldM (fun cur '(k, amount_bit) =>
    mux_bits amount_bit (shift_const cur (2 ^ k) kind fill) cur) (take stages (enumerate amount)) a;
  if length amount <? stages then pure None
  else
    overflow ← foldM gate_or (drop stages amount) zero;
    mux_bits overflow (replicate w fill) cur.

End circuits.
