(* ===== verification/FloatCircuits.v ===== *)
(** * Floating-point comparison and conversion circuits ([libs/symbolic/src/bitblast/fp.rs])

    The circuits of the methods of the same names, on the bits of their
    operands; the bookkeeping on node ids is in [Bitblast]. A shift by 64 or
    more and an arithmetic underflow panic. *)
From S2P Require Import Prelude Lang SatSolver Gates.
#[local] Open Scope nat_scope.

Definition float_format (width : nat) : option (nat * nat) :=
  match width with
  | 32 => Some (8, 23)
  | 64 => Some (11, 52)
  | _ => None
  end.

(** A float-to-int conversion's operand. *)
Record FloatToInt := mkFloatToInt {
  fi_bits : list Lit;
  fi_width : nat;
  fi_exp_width : nat;
  fi_mant_width : nat;
}.

Definition fi_fraction (o : FloatToInt) : list Lit := take (fi_mant_width o) (fi_bits o).
Definition fi_exponent (o : FloatToInt) : list Lit := take (fi_exp_width o) (drop (fi_mant_width o) (fi_bits o)).
Definition fi_sign (o : FloatToInt) : option Lit := fi_bits o !! (fi_mant_width o + fi_exp_width o).
Definition fi_bias (o : FloatToInt) : nat := 2 ^ (fi_exp_width o - 1) - 1.

(** [fp.rs]'s free function. *)
Definition shift_left (bits : list Lit) (by_ : nat) (fill : Lit) : list Lit :=
  map (fun p => if by_ <=? p then default fill (bits !! (p - by_)) else fill) (seq 0 (length bits)).

Section circuits.
Context {S : Type} `{CnfSink S} (one : Lit).

Definition or_reduce (bits : list Lit) : Gate S Lit := foldM gate_or bits (zero one).

Definition nor (bits : list Lit) : Gate S Lit := y ← or_reduce bits; mret (negate y).

(** [value >> i] panics from [i = 64] on. *)
Definition const_bits (value : Z) (w : nat) : option (list Lit) :=
  if 64 <? w then None
  else Some (map (fun i => if Z.testbit value (Z.of_nat i) then one else zero one) (seq 0 w)).

Definition float_is_nan (fraction exponent : list Lit) : Gate S Lit :=
  exponent_all_ones ← foldM gate_and exponent one;
  fraction_nonzero ← or_reduce fraction;
  gate_and exponent_all_ones fraction_nonzero.

Definition float_is_zero (fraction exponent : list Lit) : Gate S Lit :=
  fraction_zero ← nor fraction;
  exponent_zero ← nor exponent;
  gate_and fraction_zero exponent_zero.

(** [encode_float_compare], past its checks of the format. *)
Definition float_compare (kind : SymKind.t) (exp_width mant_width : nat) (lhs rhs : list Lit) : Gate S (list Lit) :=
  let lhs_fraction := take mant_width lhs in
  let lhs_exponent := take exp_width (drop mant_width lhs) in
  lhs_sign ← pure (lhs !! (mant_width + exp_width));
  let rhs_fraction := take mant_width rhs in
  let rhs_exponent := take exp_width (drop mant_width rhs) in
  rhs_sign ← pure (rhs !! (mant_width + exp_width));
  lhs_nan ← float_is_nan lhs_fraction lhs_exponent;
  rhs_nan ← float_is_nan rhs_fraction rhs_exponent;
  unordered ← gate_or lhs_nan rhs_nan;
  let ordered := negate unordered in
  lhs_zero ← float_is_zero lhs_fraction lhs_exponent;
  rhs_zero ← float_is_zero rhs_fraction rhs_exponent;
  both_zero ← gate_and lhs_zero rhs_zero;
  bit_equal ← eq_bits one lhs rhs;
  equal_value ← gate_or bit_equal both_zero;
  ordered_equal ← gate_and ordered equal_value;
  signs_differ ← gate_xor lhs_sign rhs_sign;
  negative_before_positive ← gate_and lhs_sign signs_differ;
  let lhs_magnitude := take (length lhs - 1) lhs in
  let rhs_magnitude := take (length rhs - 1) rhs in
  positive_ge ← uge one lhs_magnitude rhs_magnitude;
  negative_ge ← uge one rhs_magnitude lhs_magnitude;
  same_sign_less ← gate_mux lhs_sign (negate negative_ge) (negate positive_ge);
  numeric_less ← gate_mux signs_differ negative_before_positive same_sign_less;
  nonzero_less ← gate_and (negate both_zero) numeric_less;
  ordered_less ← gate_and ordered nonzero_less;
  neither_less_nor_equal ← gate_and (negate ordered_less) (negate ordered_equal);
  ordered_greater ← gate_and ordered neither_less_nor_equal;
  result ← match kind with
    | SymKind.Eq => mret ordered_equal
    | SymKind.Ne => mret (negate ordered_equal)
    | SymKind.Lt => mret ordered_less
    | SymKind.Le => gate_and ordered (negate ordered_greater)
    | SymKind.Gt => mret ordered_greater
    | SymKind.Ge => gate_and ordered (negate ordered_less)
    | _ => pure None
    end;
  mret [result].

(** One stage of [shift_by_bits]. *)
Definition stage_shift (left : bool) (by_ : nat) (current : list Lit) : list Lit :=
  let width := length current in
  map (fun index =>
    if left then (if by_ <=? index then default (zero one) (current !! (index - by_)) else zero one)
    else (if index + by_ <? width then default (zero one) (current !! (index + by_)) else zero one)) (seq 0 width).

Definition shift_by_bits (bits amount : list Lit) (left : bool) : Gate S (list Lit) :=
  let width := length bits in
  let stages := stage_count width in
  current ← foldM (fun current '(stage, enabled) =>
    mux_bits enabled (stage_shift left (2 ^ stage) current) current) (take stages (enumerate amount)) bits;
  overflow ← or_reduce (drop (Nat.min stages (length amount)) amount);
  mux_bits overflow (zeros one width) current.

(** The bits a right shift drops: whether any is set, the first below the
    point, and whether any is set below that. *)
Definition shifted_out_bits (bits amount : list Lit) : Gate S (Lit * Lit * Lit) :=
  foldM (fun '(inexact, half_bit, below) '(i, bit) =>
    index ← pure (const_bits (Z.of_nat i + 1) (length amount));
    in_remainder ← uge one amount index;
    is_half ← eq_bits one amount index;
    contributed ← gate_and in_remainder bit;
    inexact ← gate_or inexact contributed;
    half_contrib ← gate_and is_half bit;
    half_bit ← gate_or half_bit half_contrib;
    lower ← gate_and contributed (negate is_half);
    below ← gate_or below lower;
    mret (inexact, half_bit, below)) (enumerate bits) (zero one, zero one, zero one).

Definition float_to_int_increment (significand right_amount : list Lit) (shift_left sign truncated_lsb : Lit)
    (mode : option (list Lit)) : Gate S Lit :=
  mode ← pure (match mode with Some m => Some m | None => const_bits 1 3 end);
  '(inexact, half_bit, below) ← shifted_out_bits significand right_amount;
  greater ← gate_and half_bit below;
  tie ← gate_and half_bit (negate below);
  tie_up ← gate_and tie truncated_lsb;
  rne ← gate_or greater tie_up;
  rdn ← gate_and inexact sign;
  rup ← gate_and inexact (negate sign);
  c0 ← pure (const_bits 0 (length mode));
  rne_mode ← eq_bits one mode c0;
  c2 ← pure (const_bits 2 (length mode));
  rdn_mode ← eq_bits one mode c2;
  c3 ← pure (const_bits 3 (length mode));
  rup_mode ← eq_bits one mode c3;
  c4 ← pure (const_bits 4 (length mode));
  rmm_mode ← eq_bits one mode c4;
  choose_rne ← gate_and rne_mode rne;
  choose_rdn ← gate_and rdn_mode rdn;
  choose_rup ← gate_and rup_mode rup;
  choose_rmm ← gate_and rmm_mode half_bit;
  increment ← gate_or choose_rne choose_rdn;
  increment ← gate_or increment choose_rup;
  increment ← gate_or increment choose_rmm;
  gate_and increment (negate shift_left).

(** Whether the rounded magnitude fits the destination. *)
Definition conversion_fits (signed : bool) (width : nat) (sign carry : Lit) (rounded : list Lit) : Gate S Lit :=
  if signed then
    msb ← pure (assert! 0 <? width; rounded !! (width - 1));
    lower ← or_reduce (take (width - 1) rounded);
    positive_overflow ← gate_and (negate sign) msb;
    mag_past_min ← gate_and msb lower;
    negative_overflow ← gate_and sign mag_past_min;
    signed_overflow ← gate_or positive_overflow negative_overflow;
    overflow ← gate_or carry signed_overflow;
    mret (negate overflow)
  else
    nonzero ← or_reduce rounded;
    negative ← gate_and sign nonzero;
    gate_and (negate carry) (negate negative).

(** [encode_float_to_int]: the integer's bits, and the literal the method
    stores in [conversion_defined]. *)
Definition float_to_int (operand : FloatToInt) (signed : bool) (mode : option (list Lit)) : Gate S (list Lit * Lit) :=
  exponent_is_zero ← nor (fi_exponent operand);
  let implicit := negate exponent_is_zero in
  let significand := fi_fraction operand ++ [implicit] in
  let work_width := Nat.max (fi_width operand) (length significand) in
  let significand := vec_resize work_width (zero one) significand in
  c1 ← pure (const_bits 1 (fi_exp_width operand));
  effective ← mux_bits exponent_is_zero c1 (fi_exponent operand);
  let effective_exponent := effective ++ [zero one] in
  base ← pure (const_bits (Z.of_nat (fi_bias operand + fi_mant_width operand)) (fi_exp_width operand + 1));
  shift_left ← uge one effective_exponent base;
  left_amount ← subtract one effective_exponent base;
  right_amount ← subtract one base effective_exponent;
  left ← shift_by_bits significand left_amount true;
  right ← shift_by_bits significand right_amount false;
  magnitude ← mux_bits shift_left left right;
  let magnitude := take (fi_width operand) magnitude in
  sign ← pure (fi_sign operand);
  increment ← float_to_int_increment significand right_amount shift_left sign (default (zero one) (head magnitude)) mode;
  '(rounded, carry) ← adder magnitude (zeros one (length magnitude)) increment;
  fits ← conversion_fits signed (fi_width operand) sign carry rounded;
  if negb signed then mret (rounded, fits)
  else
    negative ← neg_bits one rounded;
    result ← mux_bits sign negative rounded;
    mret (result, fits).

Definition less_than_exponent (operand : FloatToInt) (limit : nat) : Gate S Lit :=
  bound ← pure (const_bits (Z.of_nat limit) (fi_exp_width operand));
  y ← uge one (fi_exponent operand) bound;
  mret (negate y).

(** [negative_ok] and [positive_ok] of [float_to_int_defined]. *)
Definition conversion_bounds (operand : FloatToInt) (signed : bool) : Gate S (Lit * Lit) :=
  if signed then
    let threshold := fi_bias operand + fi_width operand - 1 in
    below ← less_than_exponent operand threshold;
    threshold_bits ← pure (const_bits (Z.of_nat threshold) (fi_exp_width operand));
    at_threshold ← eq_bits one (fi_exponent operand) threshold_bits;
    boundary_fraction_ok ←
      (if fi_width operand =? 0 then pure None
       else if fi_width operand - 1 <=? fi_mant_width operand then
         limit ← pure (const_bits (2 ^ Z.of_nat (fi_mant_width operand - (fi_width operand - 1))) (fi_mant_width operand));
         y ← uge one (fi_fraction operand) limit;
         mret (negate y)
       else nor (fi_fraction operand));
    boundary_ok ← gate_and at_threshold boundary_fraction_ok;
    negative_ok ← gate_or below boundary_ok;
    mret (negative_ok, below)
  else
    negative_ok ← less_than_exponent operand (fi_bias operand);
    positive_ok ← less_than_exponent operand (fi_bias operand + fi_width operand);
    mret (negative_ok, positive_ok).

(** [float_to_int_defined], with what the conversion stored and the mode of a
    rounding conversion. *)
Definition float_to_int_defined (operand : FloatToInt) (signed : bool) (fits : option Lit)
    (mode : option (list Lit)) : Gate S Lit :=
  all_ones ← pure (const_bits (2 ^ Z.of_nat (fi_exp_width operand) - 1) (fi_exp_width operand));
  infinite ← eq_bits one (fi_exponent operand) all_ones;
  let finite := negate infinite in
  '(negative_ok, positive_ok) ← conversion_bounds operand signed;
  sign ← pure (fi_sign operand);
  negative ← gate_and sign negative_ok;
  positive ← gate_and (negate sign) positive_ok;
  in_range ← gate_or negative positive;
  defined ← gate_and finite in_range;
  defined ← match fits with Some fits => gate_and defined fits | None => mret defined end;
  match mode with
  | Some mode =>
    c4 ← pure (const_bits 4 (length mode));
    allowed ← uge one c4 mode;
    gate_and defined allowed
  | None => mret defined
  end.

(** The register of [int_to_float]: the next power of two. *)
Fixpoint register_loop (fuel l target : nat) : nat :=
  match fuel with
  | O => l
  | Datatypes.S fuel => if l <? target then register_loop fuel (2 * l) target else l
  end.

(** The normalisation of [int_to_float], from the largest stage down. *)
Definition normalize (l stages : nat) (cur : list Lit) : Gate S (list Lit * list Lit) :=
  foldM (fun '(cur, shift) k =>
    let by_ := 2 ^ k in
    high_zero ← nor (take by_ (drop (l - by_) cur));
    cur ← mux_bits high_zero (shift_left cur by_ (zero one)) cur;
    shift ← pure (vset shift k high_zero);
    mret (cur, shift)) (rev (seq 0 stages)) (cur, zeros one stages).

Definition int_to_float (value : list Lit) (signed : bool) (e m : nat) : Gate S (list Lit) :=
  '(sign, magnitude) ← (if signed then
      sign ← pure (last_bit value);
      neg ← neg_bits one value;
      magnitude ← mux_bits sign neg value;
      mret (sign, magnitude)
    else mret (zero one, value));
  let target := Nat.max (length value) (m + 2) in
  let l := register_loop target 1 target in
  let cur := vec_resize l (zero one) magnitude in
  is_zero ← nor cur;
  let stages := stage_count l in
  '(cur, shift) ← normalize l stages cur;
  let frac_lo := l - 1 - m in
  guard ← pure (cur !! (frac_lo - 1));
  sticky ← or_reduce (take (frac_lo - 1) cur);
  frac_lsb ← pure (cur !! frac_lo);
  sticky_or_lsb ← gate_or sticky frac_lsb;
  round_up ← gate_and guard sticky_or_lsb;
  let significand := drop frac_lo (take l cur) ++ [zero one] in
  '(rounded, _) ← adder significand (zeros one (length significand)) round_up;
  overflow ← pure (rounded !! (m + 1));
  let fraction := take m rounded in
  base ← pure (assert! (0 <? e) && (e <=? 64); const_bits (Z.of_nat l - 1 + (2 ^ Z.of_nat (e - 1) - 1)) e);
  let shift_ext := vec_resize e (zero one) shift in
  unrounded ← subtract one base shift_ext;
  '(biased, _) ← adder unrounded (zeros one e) overflow;
  let out := fraction ++ biased ++ [sign] in
  mux_bits is_zero (zeros one (length out)) out.

End circuits.
