(* ===== verification/Bitblast.v ===== *)
(** * The bit-blaster ([libs/symbolic/src/bitblast/mod.rs])

    A formula graph is encoded node by node, operands first, to clauses of a
    SAT solver. The blaster's state is threaded explicitly; an encoder returns
    [Ok], an [Err] of the code, or [Panic]. The borrowed inputs of [Blaster]
    (graph, widths, floats) are parameters of the section. *)
From S2P Require Import Prelude ApInt Lang SatSolver Dag Gates FloatCircuits.
#[local] Open Scope nat_scope.

(** ** Data *)
Inductive SymPayload (V F : Type) :=
  | SymbolId (id : nat)
  | PValue (v : V)
  | PInt (v : APInt)
  | PFloat (f : F).
Arguments SymbolId {V F} id.
Arguments PValue {V F} v.
Arguments PInt {V F} v.
Arguments PFloat {V F} f.

Inductive BitblastError :=
  | Unsupported (k : SymKind.t)
  | UnknownWidth (node : nat)
  | BadConstant (node : nat).

Inductive Res (A : Type) :=
  | Ok (a : A)
  | Err (e : BitblastError)
  | Panic.
Arguments Ok {A} a.
Arguments Err {A} e.
Arguments Panic {A}.

Record Blaster (S : Type) := mkBlaster {
  solver : S;
  b_one : Lit;
  b_bits : list (list Lit);
  b_defined : list Lit;
  sym_bits : gmap nat (list Lit);
  state_reads : gmap (Z * Z) (list Lit);
  conversion_defined : gmap nat Lit;
}.
Arguments mkBlaster {S}.
Arguments solver {S} _.
Arguments b_one {S} _.
Arguments b_bits {S} _.
Arguments b_defined {S} _.
Arguments sym_bits {S} _.
Arguments state_reads {S} _.
Arguments conversion_defined {S} _.

Section blaster.
Context {S : Type} `{CnfSink S} {V F : Type}.
Context (graph : Dag SymKind.t (SymPayload V F) unit) (widths : list (option nat)) (floats : list bool).

Definition set_solver (s : S) (b : Blaster S) := mkBlaster s (b_one b) (b_bits b) (b_defined b) (sym_bits b) (state_reads b) (conversion_defined b).
Definition push_bits (x : list Lit) (b : Blaster S) := mkBlaster (solver b) (b_one b) (b_bits b ++ [x]) (b_defined b) (sym_bits b) (state_reads b) (conversion_defined b).
Definition push_defined (x : Lit) (b : Blaster S) := mkBlaster (solver b) (b_one b) (b_bits b) (b_defined b ++ [x]) (sym_bits b) (state_reads b) (conversion_defined b).
Definition set_sym_bits (m : gmap nat (list Lit)) (b : Blaster S) := mkBlaster (solver b) (b_one b) (b_bits b) (b_defined b) m (state_reads b) (conversion_defined b).
Definition set_state_reads (m : gmap (Z * Z) (list Lit)) (b : Blaster S) := mkBlaster (solver b) (b_one b) (b_bits b) (b_defined b) (sym_bits b) m (conversion_defined b).
Definition set_conversion_defined (m : gmap nat Lit) (b : Blaster S) := mkBlaster (solver b) (b_one b) (b_bits b) (b_defined b) (sym_bits b) (state_reads b) m.

(** ** The encoders' monad *)
Definition Enc (A : Type) : Type := Blaster S -> Res (A * Blaster S).

#[export] Instance enc_ret : MRet Enc := fun A a b => Ok (a, b).
#[export] Instance enc_bind : MBind Enc := fun A B k m b =>
  match m b with Ok (a, b) => k a b | Err e => Err e | Panic => Panic end.

Definition err {A} (e : BitblastError) : Enc A := fun _ => Err e.

(** An index, an [expect]. *)
Definition expect {A} (o : option A) : Enc A := fun b => match o with Some a => Ok (a, b) | None => Panic end.

(** A circuit on the blaster's solver. *)
Definition circuit {A} (m : Lit -> Gate S A) : Enc A := fun b =>
  match m (b_one b) (solver b) with Some (a, s) => Ok (a, set_solver s b) | None => Panic end.

Definition gets {A} (f : Blaster S -> A) : Enc A := fun b => Ok (f b, b).
Definition modify (f : Blaster S -> Blaster S) : Enc unit := fun b => Ok (tt, f b).

(** ** Access to the graph *)
Definition node_width (id : nat) : Enc nat :=
  match widths !! id with
  | Some (Some w) => mret w
  | _ => err (UnknownWidth id)
  end.

Definition leaf (id : nat) : Enc (option (SymPayload V F)) := expect (get_leaf_data graph id).

Definition const_u64 (id : nat) : Enc Z :=
  data ← leaf id;
  match data with
  | Some (PInt v) => mret (to_u64 v)
  | _ => err (BadConstant id)
  end.

Definition node_children (id : nat) : Enc (list nat) := expect (children graph id).

Definition bits_of (id : nat) : Enc (list Lit) := o ← gets (fun b => b_bits b !! id); expect o.
Definition defined_of (id : nat) : Enc Lit := o ← gets (fun b => b_defined b !! id); expect o.

Definition child_bits (id k : nat) : Enc (list Lit) :=
  cs ← node_children id;
  child ← expect (cs !! k);
  bits_of child.

Definition binop_bits (id : nat) : Enc (list Lit * list Lit) :=
  a ← child_bits id 0;
  b ← child_bits id 1;
  mret (a, b).

Definition binop (id : nat) (m : Lit -> list Lit -> list Lit -> Gate S (list Lit)) : Enc (list Lit) :=
  '(a, b) ← binop_bits id;
  circuit (fun one => m one a b).

(** ** Leaves *)
Definition fresh_bits (w : nat) : Enc (list Lit) := circuit (fun _ => mapM (fun _ => fresh) (seq 0 w)).

Definition encode_symbol (id : nat) : Enc (list Lit) :=
  w ← node_width id;
  bits ← fresh_bits w;
  data ← leaf id;
  _ ← match data with
      | Some (SymbolId sid) => modify (fun b => set_sym_bits (<[sid := bits]> (sym_bits b)) b)
      | _ => mret tt
      end;
  mret bits.

Definition encode_state_read (id : nat) : Enc (list Lit) :=
  cs ← node_children id;
  c1 ← expect (cs !! 1);
  resource ← const_u64 c1;
  c2 ← expect (cs !! 2);
  field ← const_u64 c2;
  w ← node_width id;
  known ← gets (fun b => state_reads b !! (resource, field));
  match known with
  | Some bits =>
    if length bits =? w then mret bits
    else
      bits ← fresh_bits w;
      _ ← modify (fun b => set_state_reads (<[(resource, field) := bits]> (state_reads b)) b);
      mret bits
  | None =>
    bits ← fresh_bits w;
    _ ← modify (fun b => set_state_reads (<[(resource, field) := bits]> (state_reads b)) b);
    mret bits
  end.

(** Bit [i] of a constant, zero past its limbs. *)
Definition constant_bit (limbs : list Z) (i : nat) : bool :=
  match limbs !! (i / 64) with
  | Some limb => Z.testbit limb (Z.of_nat (i mod 64))
  | None => false
  end.

Definition encode_constant (id : nat) : Enc (list Lit) :=
  w ← node_width id;
  data ← leaf id;
  match data with
  | Some (PInt v) =>
    one ← gets b_one;
    mret (map (fun i => if constant_bit (limbs v) i then one else zero one) (seq 0 w))
  | _ => err (BadConstant id)
  end.

(** ** Structure *)

(** [value[lo..=hi]] panics out of range and when the range is reversed. *)
Definition slice_inclusive (value : list Lit) (lo hi : Z) : option (list Lit) :=
  if ((lo <=? hi + 1)%Z && (hi <? Z.of_nat (length value))%Z)
  then Some (take (Z.to_nat (hi + 1 - lo)) (drop (Z.to_nat lo) value))
  else None.

Definition encode_extract (id : nat) : Enc (list Lit) :=
  value ← child_bits id 0;
  cs ← node_children id;
  c1 ← expect (cs !! 1);
  hi ← const_u64 c1;
  c2 ← expect (cs !! 2);
  lo ← const_u64 c2;
  expect (slice_inclusive value lo hi).

Definition encode_extend (id : nat) (signed : bool) : Enc (list Lit) :=
  value ← child_bits id 0;
  target ← node_width id;
  one ← gets b_one;
  fill ← (if signed then expect (last_bit value) else mret (zero one));
  mret (vec_resize target fill value).

Definition first_bit (bits : list Lit) : Enc Lit := expect (head bits).

Definition encode_ite (id : nat) : Enc (list Lit) :=
  c ← child_bits id 0;
  cond ← first_bit c;
  then_ ← child_bits id 1;
  els ← child_bits id 2;
  circuit (fun _ => mux_bits cond then_ els).

(** The condition of an arm: the index equals its number. *)
Definition switch_selected (one : Lit) (arm : nat) (index : list Lit) : Gate S Lit :=
  foldM (fun selected '(bit, lit) =>
    let wanted := (bit <? 64) && Z.testbit (Z.of_nat arm) (Z.of_nat bit) in
    gate_and selected (if wanted then lit else negate lit)) (enumerate index) one.

Fixpoint encode_arms (id : nat) (index : list Lit) (arms : list nat) (out : list Lit) : Enc (list Lit) :=
  match arms with
  | [] => mret out
  | arm :: arms =>
    selected ← circuit (fun one => switch_selected one arm index);
    value ← child_bits id (arm + 1);
    out ← circuit (fun _ => mux_bits selected value out);
    encode_arms id index arms out
  end.

(** A switch without arms underflows. *)
Definition encode_switch (id : nat) : Enc (list Lit) :=
  index ← child_bits id 0;
  cs ← node_children id;
  let arms := length cs - 1 in
  out ← child_bits id arms;
  if arms =? 0 then expect None
  else encode_arms id index (rev (seq 0 (arms - 1))) out.

Definition encode_freeze (id : nat) : Enc (list Lit) :=
  cs ← node_children id;
  child ← expect (head cs);
  value ← bits_of child;
  arbitrary ← fresh_bits (length value);
  d ← defined_of child;
  circuit (fun _ => mux_bits d value arbitrary).

(** ** Floating point *)
Definition is_float_comparison (id : nat) : Enc bool :=
  cs ← node_children id;
  mret match head cs with
       | Some child => bool_decide (floats !! child = Some true)
       | None => false
       end.

Definition encode_float_compare (id : nat) (kind : SymKind.t) : Enc (list Lit) :=
  lhs ← child_bits id 0;
  rhs ← child_bits id 1;
  match float_format (length lhs) with
  | None => err (UnknownWidth id)
  | Some (exp_width, mant_width) =>
    if negb (length rhs =? length lhs) then err (UnknownWidth id)
    else circuit (fun one => float_compare one kind exp_width mant_width lhs rhs)
  end.

Definition encode_int_to_float (id : nat) (signed : bool) : Enc (list Lit) :=
  value ← child_bits id 0;
  cs ← node_children id;
  c1 ← expect (cs !! 1);
  exp ← const_u64 c1;
  c2 ← expect (cs !! 2);
  mant ← const_u64 c2;
  circuit (fun one => int_to_float one value signed (Z.to_nat exp) (Z.to_nat mant)).

Definition float_to_int_operand (id : nat) : Enc FloatToInt :=
  bits ← child_bits id 0;
  cs ← node_children id;
  c1 ← expect (cs !! 1);
  width ← const_u64 c1;
  c0 ← expect (cs !! 0);
  match float_format (length bits) with
  | None => err (UnknownWidth c0)
  | Some (exp_width, mant_width) => mret (mkFloatToInt bits (Z.to_nat width) exp_width mant_width)
  end.

Definition encode_float_to_int (id : nat) (signed : bool) (mode : option (list Lit)) : Enc (list Lit) :=
  operand ← float_to_int_operand id;
  '(bits, fits) ← circuit (fun one => float_to_int one operand signed mode);
  _ ← modify (fun b => set_conversion_defined (<[id := fits]> (conversion_defined b)) b);
  mret bits.

Definition encode_float_to_int_defined (id : nat) (signed : bool) : Enc Lit :=
  operand ← float_to_int_operand id;
  fits ← gets (fun b => conversion_defined b !! id);
  kind ← expect (get_node graph id);
  mode ← match kind with
         | SymKind.FPToSIRound | SymKind.FPToUIRound => m ← child_bits id 2; mret (Some m)
         | _ => mret None
         end;
  circuit (fun one => float_to_int_defined one operand signed fits mode).

(** ** The dispatch *)
Definition encode_poison (id : nat) : Enc (list Lit) := child_bits id 1.

Definition encode (id : nat) : Enc (list Lit) :=
  kind ← expect (get_node graph id);
  match kind with
  | SymKind.Symbol => encode_symbol id
  | SymKind.StateBlock => one ← gets b_one; mret [one]
  | SymKind.StateRead => encode_state_read id
  | SymKind.Constant => encode_constant id
  | SymKind.Not => a ← child_bits id 0; mret (map negate a)
  | SymKind.And => binop id (fun _ => bitwise gate_and)
  | SymKind.Or => binop id (fun _ => bitwise gate_or)
  | SymKind.Xor => binop id (fun _ => bitwise gate_xor)
  | SymKind.Add => binop id (fun one a b => '(s, _) ← adder a b (zero one); mret s)
  | SymKind.Sub => binop id subtract
  | SymKind.Neg => a ← child_bits id 0; circuit (fun one => neg_bits one a)
  | SymKind.Mul => binop id multiply
  | SymKind.UDiv => binop id (fun one => divrem one false true)
  | SymKind.URem => binop id (fun one => divrem one false false)
  | SymKind.Div => binop id (fun one => divrem one true true)
  | SymKind.SRem => binop id (fun one => divrem one true false)
  | SymKind.ShiftLeft => binop id (fun one => shift one ShLeft)
  | SymKind.ShiftRightLogic => binop id (fun one => shift one ShLogical)
  | SymKind.ShiftRightArithmetic => binop id (fun one => shift one ShArithmetic)
  | SymKind.Eq =>
    float ← is_float_comparison id;
    if float : bool then encode_float_compare id kind
    else binop id (fun one a b => y ← eq_bits one a b; mret [y])
  | SymKind.Ne =>
    float ← is_float_comparison id;
    if float : bool then encode_float_compare id kind
    else binop id (fun one a b => y ← eq_bits one a b; mret [negate y])
  | SymKind.Lt | SymKind.Le | SymKind.Gt | SymKind.Ge =>
    float ← is_float_comparison id;
    if float : bool then encode_float_compare id kind
    else binop id (fun one => compare one kind)
  | SymKind.ULt | SymKind.ULe | SymKind.UGt | SymKind.UGe => binop id (fun one => compare one kind)
  | SymKind.Concat => low ← child_bits id 1; high ← child_bits id 0; mret (low ++ high)
  | SymKind.AsFloat | SymKind.Bitcast => child_bits id 0
  | SymKind.Extract => encode_extract id
  | SymKind.ZExt => encode_extend id false
  | SymKind.SExt => encode_extend id true
  | SymKind.If => encode_ite id
  | SymKind.Poison => encode_poison id
  | SymKind.Freeze => encode_freeze id
  | SymKind.Switch => encode_switch id
  | SymKind.SIToFPRound | SymKind.UIToFPRound =>
    cs ← node_children id;
    c3 ← expect (cs !! 3);
    mode ← const_u64 c3;
    if (mode =? 0)%Z then encode_int_to_float id (SymKind.eqb kind SymKind.SIToFPRound)
    else err (Unsupported kind)
  | SymKind.FPToSIRound | SymKind.FPToUIRound =>
    mode ← child_bits id 2;
    encode_float_to_int id (SymKind.eqb kind SymKind.FPToSIRound) (Some mode)
  | SymKind.SIToFP => encode_int_to_float id true
  | SymKind.UIToFP => encode_int_to_float id false
  | SymKind.FPToSI => encode_float_to_int id true None
  | SymKind.FPToUI => encode_float_to_int id false None
  | other => err (Unsupported other)
  end.

(** The conjunction of the operands' definedness. *)
Fixpoint all_defined (cs : list nat) (defined : Lit) : Enc Lit :=
  match cs with
  | [] => mret defined
  | child :: cs =>
    d ← defined_of child;
    defined ← circuit (fun _ => gate_and defined d);
    all_defined cs defined
  end.

(** What a node adds to the definedness of its operands. *)
Definition defined_guard (id : nat) (kind : SymKind.t) (cs : list nat) (defined : Lit) : Enc Lit :=
  match kind with
  | SymKind.Poison =>
    c0 ← expect (head cs);
    c ← bits_of c0;
    condition ← first_bit c;
    circuit (fun _ => gate_and defined (negate condition))
  | SymKind.FPToSI | SymKind.FPToSIRound =>
    in_range ← encode_float_to_int_defined id true;
    circuit (fun _ => gate_and defined in_range)
  | SymKind.FPToUI | SymKind.FPToUIRound =>
    in_range ← encode_float_to_int_defined id false;
    circuit (fun _ => gate_and defined in_range)
  | _ => mret defined
  end.

Definition encode_defined (id : nat) : Enc Lit :=
  cs ← node_children id;
  kind ← expect (get_node graph id);
  one ← gets b_one;
  match kind with
  | SymKind.FPFlags | SymKind.Freeze => mret one
  | SymKind.If =>
    match cs with
    | [condition; then_; els] =>
      c ← bits_of condition;
      taken ← first_bit c;
      dt ← defined_of then_;
      de ← defined_of els;
      arm ← circuit (fun _ => gate_mux taken dt de);
      dc ← defined_of condition;
      circuit (fun _ => gate_and dc arm)
    | _ => err (Unsupported SymKind.If)
    end
  | _ =>
    defined ← all_defined cs one;
    defined_guard id kind cs defined
  end.

Definition blast_node (id : nat) : Enc unit :=
  bits ← encode id;
  _ ← modify (push_bits bits);
  defined ← encode_defined id;
  modify (push_defined defined).

Fixpoint blast_nodes (ids : list nat) : Enc unit :=
  match ids with
  | [] => mret tt
  | id :: ids => _ ← blast_node id; blast_nodes ids
  end.

(** [Blaster::new]: the first variable is fixed to true. *)
Definition blaster_new (s : S) : Res (Blaster S) :=
  match sink_new_var s with
  | Some (v, s) =>
    let one := lit_positive v in
    match sink_add_clause [one] s with
    | Some s => Ok (mkBlaster s one [] [] ∅ ∅ ∅)
    | None => Panic
    end
  | None => Panic
  end.

Record Blasted := mkBlasted {
  bl_solver : S;
  root_bit : Lit;
  bl_sym_bits : gmap nat (list Lit);
  node_bits : list (list Lit);
  node_defined : list Lit;
}.

(** The root is the last node; the empty graph panics. *)
Definition blast_finish : Enc Blasted :=
  root ← expect (root graph);
  bits ← bits_of root;
  root_bit ← first_bit bits;
  gets (fun b => mkBlasted (solver b) root_bit (sym_bits b) (b_bits b) (b_defined b)).

Definition blast_into (empty : S) : Res Blasted :=
  match blaster_new empty with
  | Ok b =>
    match (_ ← blast_nodes (seq 0 (len graph)); blast_finish) b with
    | Ok (bl, _) => Ok bl
    | Err e => Err e
    | Panic => Panic
    end
  | Err e => Err e
  | Panic => Panic
  end.

End blaster.
Arguments Blasted S : clear implicits.
Arguments mkBlasted {S}.

(** ** On the SAT solver *)
Inductive SolveOutcome :=
  | SolveSat (model : gmap nat (list bool))
  | SolveUnsat
  | SolveUnknown.

(** [blast] and [blast_with_types]. The type of a node is a float when
    [is_float] says so of its annotation (the constructor test on [Terms]). *)
Definition blast {V F} (graph : Dag SymKind.t (SymPayload V F) unit) (widths : list (option nat)) : Res (Blasted Solver) :=
  blast_into graph widths [] SatSolver.new.

Definition blast_with_types {V F T} (is_float : T -> bool) (graph : Dag SymKind.t (SymPayload V F) unit)
    (widths : list (option nat)) (types : list T) : Res (Blasted Solver) :=
  blast_into graph widths (map is_float types) SatSolver.new.

Definition lit_value (s : Solver) (l : Lit) : option bool :=
  v ← SatSolver.value s (lit_var l); Some (xorb v (is_negated l)).

Fixpoint lit_values (s : Solver) (ls : list Lit) : option (list bool) :=
  match ls with
  | [] => Some []
  | l :: ls => b ← lit_value s l; bs ← lit_values s ls; Some (b :: bs)
  end.

(** Decodes every symbol. An index out of range panics. *)
Definition decode_model (s : Solver) (m : gmap nat (list Lit)) : option (gmap nat (list bool)) :=
  map_fold (fun sid bits acc => acc ← acc; v ← lit_values s bits; Some (<[sid := v]> acc)) (Some ∅) m.

Definition finish_solve (fuel : nat) (bl : Blasted Solver) : option SolveOutcome :=
  '(r, s) ← SatSolver.solve fuel (bl_solver bl);
  match r with
  | Sat _ => m ← decode_model s (bl_sym_bits bl); Some (SolveSat m)
  | Unsat => Some SolveUnsat
  | Unknown => Some SolveUnknown
  end.

Definition with_clause (c : list Lit) (bl : Blasted Solver) : option (Blasted Solver) :=
  s ← SatSolver.add_clause c (bl_solver bl);
  Some (mkBlasted s (root_bit bl) (bl_sym_bits bl) (node_bits bl) (node_defined bl)).

(** [Blasted::solve]: assert the root. *)
Definition solve_root (fuel : nat) (bl : Blasted Solver) : option SolveOutcome :=
  bl ← with_clause [root_bit bl] bl;
  finish_solve fuel bl.

Definition solve_defined_equivalence (fuel : nat) (lhs rhs : nat) (bl : Blasted Solver) : option SolveOutcome :=
  dl ← node_defined bl !! lhs;
  bl ← with_clause [dl] bl;
  dr ← node_defined bl !! rhs;
  bl ← with_clause [negate dr; root_bit bl] bl;
  finish_solve fuel bl.
