(* ===== verification/FloatSem.v ===== *)
(** * IEEE 754 on bit patterns

    The reference semantics of the floating-point circuits. A word of
    [m + e + 1] bits (fraction, exponent, sign) is decoded to a [spec_float]
    of the Standard Library, whose comparison and rounding are the
    specification of comparisons and of conversions from integers;
    conversions to integers round the exact value by mode. *)
From S2P Require Import Prelude ApIntSpec Lang LangSpec.
From Stdlib Require Import SpecFloat.
(** ** Fields *)
Section fields.
Context (e m : Z).

Definition f_fraction (x : Z) : Z := x mod 2 ^ m.
Definition f_exponent (x : Z) : Z := (x / 2 ^ m) mod 2 ^ e.
Definition f_sign (x : Z) : bool := Z.testbit x (m + e).
Definition f_bias : Z := 2 ^ (e - 1) - 1.

(** The integer significand and the exponent of its lowest bit, as the fields
    of a finite number give them. *)
Definition f_significand (x : Z) : Z := f_fraction x + (if f_exponent x =? 0 then 0 else 2 ^ m).
Definition f_effective (x : Z) : Z := Z.max 1 (f_exponent x).

Definition f_finite (x : Z) : bool := negb (f_exponent x =? 2 ^ e - 1).
Definition f_nan (x : Z) : bool := (f_exponent x =? 2 ^ e - 1) && negb (f_fraction x =? 0).

Definition decode (x : Z) : spec_float :=
  if f_exponent x =? 2 ^ e - 1 then
    if f_fraction x =? 0 then S754_infinity (f_sign x) else S754_nan
  else match f_significand x with
       | Zpos p => S754_finite (f_sign x) p (f_effective x - f_bias - m)
       | _ => S754_zero (f_sign x)
       end.

(** ** Comparisons: all but [Ne] fail on NaN *)
Definition float_op (k : SymKind.t) (x y : Z) : bool :=
  match k, SFcompare (decode x) (decode y) with
  | SymKind.Eq, Some Eq => true
  | SymKind.Ne, Some Eq => false
  | SymKind.Ne, _ => true
  | SymKind.Lt, Some Lt => true
  | SymKind.Le, Some (Lt | Eq) => true
  | SymKind.Gt, Some Gt => true
  | SymKind.Ge, Some (Gt | Eq) => true
  | _, _ => false
  end.

End fields.

(** ** Rounding [n / d] to an integer, by RISC-V rounding mode: to nearest
    even, towards zero, down, up, to nearest away from zero. *)
Definition round_up (mode : Z) (neg : bool) (n d : Z) : bool :=
  let q := n / d in
  let r := n mod d in
  if mode =? 0 then (d <? 2 * r) || ((2 * r =? d) && Z.odd q)
  else if mode =? 2 then neg && (0 <? r)
  else if mode =? 3 then negb neg && (0 <? r)
  else if mode =? 4 then d <=? 2 * r
  else false.

Definition round_by (mode : Z) (neg : bool) (n d : Z) : Z := n / d + Z.b2z (round_up mode neg n d).

(** What the decoded number rounds to, in magnitude. *)
Definition int_magnitude (mode : Z) (x : spec_float) : Z :=
  match x with
  | S754_finite s p ex => round_by mode s (Zpos p * 2 ^ Z.max 0 ex) (2 ^ Z.max 0 (- ex))
  | _ => 0
  end.

(** ** The order on bit patterns *)
Section order.
Context (e m : Z) (He : 1 <= e) (Hm : 0 <= m).

Definition f_magnitude (x : Z) : Z := x mod 2 ^ (m + e).

Lemma f_fraction_bound x : 0 <= f_fraction m x < 2 ^ m.
Proof using Hm. apply Z.mod_pos_bound. lia. Qed.
Lemma f_exponent_bound x : 0 <= f_exponent e m x < 2 ^ e.
Proof using He. apply Z.mod_pos_bound. lia. Qed.

Lemma f_magnitude_fields x : f_magnitude x = f_exponent e m x * 2 ^ m + f_fraction m x.
Proof using He Hm.
  unfold f_magnitude, f_exponent, f_fraction. rewrite Z.pow_add_r by lia. rewrite Z.rem_mul_r by lia. lia.
Qed.

(** Comparing the exponents and then the significands is comparing the fields
    as one number. *)
Lemma fields_compare E1 F1 E2 F2 : 0 <= E1 -> 0 <= E2 -> 0 <= F1 < 2 ^ m -> 0 <= F2 < 2 ^ m ->
  match Z.max 1 E1 ?= Z.max 1 E2 with
  | Eq => F1 + (if E1 =? 0 then 0 else 2 ^ m) ?= F2 + (if E2 =? 0 then 0 else 2 ^ m)
  | c => c
  end = (E1 * 2 ^ m + F1 ?= E2 * 2 ^ m + F2).
Proof using Hm.
  intros H1 H2 B1 B2. symmetry.
  destruct (Z.compare_spec (Z.max 1 E1) (Z.max 1 E2)) as [E|L|L].
  - destruct (Z.eqb_spec E1 0) as [->|], (Z.eqb_spec E2 0) as [->|].
    + f_equal; lia.
    + replace E2 with 1 by lia. f_equal; lia.
    + replace E1 with 1 by lia. f_equal; lia.
    + replace E2 with E1 by lia.
      destruct (Z.compare_spec (F1 + 2 ^ m) (F2 + 2 ^ m)); [apply Z.compare_eq_iff|apply Z.compare_lt_iff|apply Z.compare_gt_iff]; lia.
  - apply Z.compare_lt_iff. nia.
  - apply Z.compare_gt_iff. nia.
Qed.

(** IEEE comparison as the circuits see it. *)
Definition bits_compare (x y : Z) : comparison :=
  if (f_magnitude x =? 0) && (f_magnitude y =? 0) then Eq
  else match f_sign e m x, f_sign e m y with
       | true, false => Lt
       | false, true => Gt
       | false, false => f_magnitude x ?= f_magnitude y
       | true, true => f_magnitude y ?= f_magnitude x
       end.

(** What [decode] says of a number that is not a NaN. *)
Variant decoded (x : Z) : spec_float -> Prop :=
  | decoded_zero : f_magnitude x = 0 -> decoded x (S754_zero (f_sign e m x))
  | decoded_infinity : f_magnitude x = (2 ^ e - 1) * 2 ^ m -> decoded x (S754_infinity (f_sign e m x))
  | decoded_finite p : 0 < f_magnitude x < (2 ^ e - 1) * 2 ^ m -> Zpos p = f_significand e m x ->
      decoded x (S754_finite (f_sign e m x) p (f_effective e m x - f_bias e - m)).

Lemma decode_decoded x : f_nan e m x = false -> decoded x (decode e m x).
Proof using He Hm.
  unfold f_nan, decode. intros Hn. pose proof (f_magnitude_fields x) as M. pose proof (f_fraction_bound x) as BF.
  pose proof (f_exponent_bound x) as BE.
  destruct (Z.eqb_spec (f_exponent e m x) (2 ^ e - 1)) as [E|E].
  - destruct (Z.eqb_spec (f_fraction m x) 0) as [F|F]; [|done]. constructor. rewrite M, E, F. lia.
  - clear Hn. pose proof (Z.pow_pos_nonneg 2 m). assert (0 <= f_significand e m x).
    { unfold f_significand. destruct (f_exponent e m x =? 0); lia. }
    destruct (f_significand e m x) as [|p|p] eqn:S; [| |lia].
    + constructor. unfold f_significand in S. destruct (Z.eqb_spec (f_exponent e m x) 0); [|lia]. rewrite M. lia.
    + constructor; [|done]. unfold f_significand in S. destruct (Z.eqb_spec (f_exponent e m x) 0) as [Z|Z]; [|nia].
      rewrite M, Z. assert (0 < f_exponent e m x \/ f_exponent e m x = 0) by lia.
      assert (1 < 2 ^ e) by (apply Z.pow_gt_1; lia). nia.
Qed.

Lemma decode_nan x : f_nan e m x = true -> decode e m x = S754_nan.
Proof.
  unfold f_nan, decode. destruct (_ =? _); [|done]. by destruct (_ =? 0).
Qed.

Theorem compare_bits x y : f_nan e m x = false -> f_nan e m y = false ->
  SFcompare (decode e m x) (decode e m y) = Some (bits_compare x y).
Proof using He Hm.
  intros Hx Hy. unfold bits_compare.
  assert (1 < 2 ^ e) by (apply Z.pow_gt_1; lia). assert (0 < 2 ^ m) by (apply Z.pow_pos_nonneg; lia).
  destruct (decode_decoded x Hx) as [Mx|Mx|p Mx Sp], (decode_decoded y Hy) as [My|My|q My Sq]; cbn [SFcompare];
    repeat match goal with
    | |- context [?a =? 0] => destruct (Z.eqb_spec a 0); [try nia|try nia]
    end; cbn [andb]; f_equal;
    try (destruct (f_sign e m x), (f_sign e m y); try done; symmetry;
      first [apply Z.compare_eq_iff|apply Z.compare_lt_iff|apply Z.compare_gt_iff]; nia).
  pose proof (fields_compare (f_exponent e m x) (f_fraction m x) (f_exponent e m y) (f_fraction m y)) as C.
  rewrite (Z.compare_antisym (f_magnitude x) (f_magnitude y)).
  rewrite <- !f_magnitude_fields in C. pose proof (f_fraction_bound x). pose proof (f_fraction_bound y).
  pose proof (f_exponent_bound x). pose proof (f_exponent_bound y).
  rewrite <- C by lia. unfold f_significand in Sp, Sq. rewrite <- Sp, <- Sq. fold (f_effective e m x) (f_effective e m y).
  assert ((f_effective e m x - f_bias e - m ?= f_effective e m y - f_bias e - m) = (f_effective e m x ?= f_effective e m y)) as ->.
  { destruct (Z.compare_spec (f_effective e m x) (f_effective e m y));
      [apply Z.compare_eq_iff|apply Z.compare_lt_iff|apply Z.compare_gt_iff]; lia. }
  change (Pos.compare_cont Eq p q) with (Zpos p ?= Zpos q).
  destruct (f_sign e m x), (f_sign e m y); try done; by destruct (f_effective e m x ?= f_effective e m y).
Qed.

End order.

(** ** Conversion to an integer of [w] bits

    [to_int] rounds the number that the fields give; on a finite number it is
    [int_magnitude] of what is decoded. *)
Section conversion.
Context (e m : Z).

Definition f_shift (x : Z) : Z := f_effective e m x - (f_bias e + m).
Definition f_numerator (x : Z) : Z := f_significand e m x * 2 ^ Z.max 0 (f_shift x).
Definition f_denominator (x : Z) : Z := 2 ^ Z.max 0 (- f_shift x).
Definition to_int (mode x : Z) : Z := round_by mode (f_sign e m x) (f_numerator x) (f_denominator x).

Definition float_to_int_value (signed : bool) (w mode x : Z) : Z :=
  (if signed && f_sign e m x then - to_int mode x else to_int mode x) mod 2 ^ w.

(** The rounded magnitude is in the range of the destination. *)
Definition fits_range (signed : bool) (w : Z) (neg : bool) (r : Z) : bool :=
  if signed then if neg then r <=? 2 ^ (w - 1) else r <? 2 ^ (w - 1)
  else if neg then r =? 0 else r <? 2 ^ w.

Definition convertible (signed : bool) (w mode x : Z) : bool :=
  f_finite e m x && fits_range signed w (f_sign e m x) (to_int mode x) && (mode <=? 4).

Context (He : 2 <= e) (Hm : 0 <= m).

Lemma f_bias_pos : 1 <= f_bias e.
Proof using He. unfold f_bias. assert (2 ^ 1 <= 2 ^ (e - 1)) by (apply Z.pow_le_mono_r; lia). lia. Qed.

Lemma f_denominator_pos x : 0 < f_denominator x.
Proof. apply Z.pow_pos_nonneg; lia. Qed.

Lemma f_significand_bound x : 0 <= f_significand e m x < 2 ^ (m + 1) /\
  (f_exponent e m x = 0 -> f_significand e m x < 2 ^ m) /\ (f_exponent e m x <> 0 -> 2 ^ m <= f_significand e m x).
Proof using Hm.
  pose proof (f_fraction_bound m Hm x). unfold f_significand. rewrite Z.pow_add_r by lia. change (2 ^ 1) with 2.
  destruct (Z.eqb_spec (f_exponent e m x) 0); lia.
Qed.

Lemma f_numerator_nonneg x : 0 <= f_numerator x.
Proof using Hm. pose proof (f_significand_bound x). unfold f_numerator. apply Z.mul_nonneg_nonneg; [lia|]. apply Z.pow_nonneg. lia. Qed.

Lemma round_zero mode neg d : 0 < d -> round_by mode neg 0 d = 0.
Proof.
  intros Hd. unfold round_by, round_up. rewrite Z.div_0_l, Z.mod_0_l by lia. cbn [Z.odd]. rewrite !andb_false_r.
  assert ((d <? 2 * 0) = false) as -> by lia. assert ((d <=? 2 * 0) = false) as -> by lia.
  by destruct (mode =? 0), (mode =? 2), (mode =? 3), (mode =? 4).
Qed.

Theorem to_int_decode mode x : f_finite e m x = true -> to_int mode x = int_magnitude mode (decode e m x).
Proof using He Hm.
  unfold f_finite, decode. intros Hf%negb_true_iff. rewrite Hf. pose proof (f_significand_bound x) as [B _].
  unfold to_int, f_numerator, f_denominator. destruct (f_significand e m x) as [|p|p] eqn:E; [|cbn [int_magnitude]|lia].
  - apply round_zero, Z.pow_pos_nonneg; lia.
  - unfold f_shift. by rewrite Z.sub_add_distr.
Qed.

(** An exponent below [bias + k] is a magnitude below [2 ^ k]. *)
Lemma exponent_below x k : 0 <= k -> f_exponent e m x < f_bias e + k <-> f_numerator x / f_denominator x < 2 ^ k.
Proof using He Hm.
  intros Hk. pose proof f_bias_pos as Hb. pose proof (f_denominator_pos x) as Hd.
  pose proof (f_significand_bound x) as (B & B0 & B1). pose proof (f_exponent_bound e m ltac:(lia) x) as BE.
  transitivity (f_numerator x < f_denominator x * 2 ^ k).
  2:{ split; [by apply Z.div_lt_upper_bound|]. intros Hq. pose proof (Z.div_mod (f_numerator x) (f_denominator x)).
      pose proof (Z.mod_pos_bound (f_numerator x) (f_denominator x)). nia. }
  unfold f_numerator, f_denominator, f_shift, f_effective. destruct (Z.eq_dec (f_exponent e m x) 0) as [E|E].
  - split; [intros _|lia]. specialize (B0 E). rewrite E, (Z.max_l 0), (Z.max_r 0), Z.mul_1_r by lia.
    assert (2 ^ m <= 2 ^ (- (Z.max 1 0 - (f_bias e + m)))) by (apply Z.pow_le_mono_r; lia).
    assert (0 < 2 ^ k) by (apply Z.pow_pos_nonneg; lia). nia.
  - specialize (B1 E). rewrite (Z.max_r 1) by lia. set (sh := f_exponent e m x - (f_bias e + m)).
    assert (f_exponent e m x = sh + (f_bias e + m)) as -> by (subst sh; lia).
    destruct (Z.le_gt_cases 0 sh) as [Hs|Hs].
    + rewrite (Z.max_r 0 sh), (Z.max_l 0 (- sh)), Z.mul_1_l by lia. split; intros C.
      * assert (2 ^ (m + 1 + sh) <= 2 ^ k) as P by (apply Z.pow_le_mono_r; lia). rewrite (Z.pow_add_r 2 (m + 1) sh) in P by lia.
        assert (0 < 2 ^ sh) by (apply Z.pow_pos_nonneg; lia). nia.
      * apply Z.nle_gt. intros C'. assert (2 ^ k <= 2 ^ (m + sh)) as P by (apply Z.pow_le_mono_r; lia). rewrite (Z.pow_add_r 2 m sh) in P by lia.
        assert (0 < 2 ^ sh) by (apply Z.pow_pos_nonneg; lia). nia.
    + rewrite (Z.max_l 0 sh), (Z.max_r 0 (- sh)), Z.mul_1_r by lia. rewrite <- Z.pow_add_r by lia. split; intros C.
      * assert (2 ^ (m + 1) <= 2 ^ (- sh + k)) by (apply Z.pow_le_mono_r; lia). lia.
      * apply Z.nle_gt. intros C'. assert (2 ^ (- sh + k) <= 2 ^ m) by (apply Z.pow_le_mono_r; lia). lia.
Qed.

(** ** What the circuit tests of the exponent and of the rounded bits *)
Definition boundary_fraction (w x : Z) : bool :=
  if w - 1 <=? m then f_fraction m x <? 2 ^ (m - (w - 1)) else f_fraction m x =? 0.

Definition exponent_ok (signed : bool) (w x : Z) : bool :=
  let ex := f_exponent e m x in
  let top := f_bias e + w - 1 in
  if signed then
    (ex <? top) || (f_sign e m x && ((ex =? top) && boundary_fraction w x))
  else if f_sign e m x then ex <? f_bias e else ex <? f_bias e + w.

Definition rounded_ok (signed : bool) (w : Z) (neg carry : bool) (r : Z) : bool :=
  if signed then
    let msb := 2 ^ (w - 1) <=? r in
    negb (carry || (negb neg && msb || neg && (msb && negb (r mod 2 ^ (w - 1) =? 0))))
  else negb carry && negb (neg && negb (r =? 0)).

Lemma boundary_exact w x : 1 <= w -> f_exponent e m x = f_bias e + w - 1 ->
  boundary_fraction w x = (f_numerator x / f_denominator x =? 2 ^ (w - 1)).
Proof using He Hm.
  intros Hw E. pose proof f_bias_pos as Hb. pose proof (f_fraction_bound m Hm x) as BF.
  unfold boundary_fraction, f_numerator, f_denominator, f_shift, f_effective, f_significand. rewrite E, (Z.max_r 1) by lia.
  destruct (Z.eqb_spec (f_bias e + w - 1) 0); [lia|].
  replace (f_bias e + w - 1 - (f_bias e + m)) with (w - 1 - m) by lia. destruct (Z.leb_spec (w - 1) m) as [Hle|Hgt].
  - rewrite Z.max_l, Z.max_r, Z.mul_1_r by lia. replace (- (w - 1 - m)) with (m - (w - 1)) by lia.
    set (k := m - (w - 1)). assert (2 ^ m = 2 ^ (w - 1) * 2 ^ k) as -> by (rewrite <- Z.pow_add_r by lia; f_equal; lia).
    assert (0 < 2 ^ k) by (apply Z.pow_pos_nonneg; lia). rewrite Z.div_add by lia.
    pose proof (Z.div_mod (f_fraction m x) (2 ^ k)). pose proof (Z.mod_pos_bound (f_fraction m x) (2 ^ k)).
    destruct (Z.ltb_spec (f_fraction m x) (2 ^ k)); symmetry; [apply Z.eqb_eq|apply Z.eqb_neq]; nia.
  - rewrite Z.max_r, Z.max_l, Z.div_1_r by lia. replace (2 ^ (w - 1)) with (2 ^ m * 2 ^ (w - 1 - m)) by (rewrite <- Z.pow_add_r by lia; f_equal; lia).
    assert (0 < 2 ^ (w - 1 - m)) by (apply Z.pow_pos_nonneg; lia).
    destruct (Z.eqb_spec (f_fraction m x) 0); symmetry; [apply Z.eqb_eq|apply Z.eqb_neq]; nia.
Qed.

Lemma exponent_ltb x k : 0 <= k -> (f_exponent e m x <? f_bias e + k) = (f_numerator x / f_denominator x <? 2 ^ k).
Proof using He Hm.
  intros Hk. pose proof (exponent_below x k Hk) as [H1 H2].
  destruct (Z.ltb_spec (f_numerator x / f_denominator x) (2 ^ k)); [apply Z.ltb_lt; auto|].
  apply Z.ltb_ge, Z.nlt_ge. intros C%H1. lia.
Qed.

Lemma exponent_ok_exact signed w x : 1 <= w ->
  let q := f_numerator x / f_denominator x in
  exponent_ok signed w x =
  (if signed then if f_sign e m x then q <=? 2 ^ (w - 1) else q <? 2 ^ (w - 1)
   else if f_sign e m x then q <? 1 else q <? 2 ^ w).
Proof using He Hm.
  intros Hw q. unfold exponent_ok. pose proof (exponent_ltb x 0 ltac:(lia)) as L0. pose proof (exponent_ltb x w ltac:(lia)) as L1.
  pose proof (exponent_ltb x (w - 1) ltac:(lia)) as L2. fold q in L0, L1, L2. rewrite Z.add_0_r in L0. change (2 ^ 0) with 1 in L0.
  rewrite Z.add_sub_assoc in L2. destruct signed; [|by rewrite L0, L1].
  rewrite L2. destruct (f_sign e m x); [|by rewrite orb_false_r]. cbn [andb].
  assert (2 ^ w = 2 * 2 ^ (w - 1)) as P by (rewrite <- Z.pow_succ_r by lia; f_equal; lia).
  assert (0 < 2 ^ (w - 1)) by (apply Z.pow_pos_nonneg; lia).
  destruct (Z.eqb_spec (f_exponent e m x) (f_bias e + w - 1)) as [E|E]; cbn [andb].
  - rewrite (boundary_exact w x Hw E). fold q. lia.
  - rewrite orb_false_r. lia.
Qed.

(** The two tests together are the range test, the smallest integer of one
    bit excepted. *)
Lemma rounded_signed h q u r carry neg : 2 <= h -> 0 <= q < 2 * h -> 0 <= u <= 1 -> r + 2 * h * Z.b2z carry = q + u -> 0 <= r < 2 * h ->
  negb (carry || (negb neg && (h <=? r) || neg && ((h <=? r) && negb (r mod h =? 0)))) = if neg then q + u <=? h else q + u <? h.
Proof.
  intros Hh Hq Hu E Hr. pose proof (Z.div_mod r h) as D. pose proof (Z.mod_pos_bound r h).
  assert (0 <= r / h < 2) by (split; [apply Z.div_pos; lia|apply Z.div_lt_upper_bound; lia]).
  destruct carry, neg; cbn [Z.b2z negb andb orb] in *; destruct (Z.leb_spec h r); cbn [negb andb orb]; try lia.
  assert (r / h = 1) as D1 by nia. destruct (Z.eqb_spec (r mod h) 0); cbn; nia.
Qed.

Theorem conversion_in_range signed w mode x carry r : 1 <= w -> (signed = true -> 2 <= w) ->
  let q := f_numerator x / f_denominator x in
  r + 2 ^ w * Z.b2z carry = q mod 2 ^ w + Z.b2z (round_up mode (f_sign e m x) (f_numerator x) (f_denominator x)) ->
  0 <= r < 2 ^ w ->
  exponent_ok signed w x && rounded_ok signed w (f_sign e m x) carry r = fits_range signed w (f_sign e m x) (to_int mode x).
Proof using He Hm.
  intros Hw Hs q Er Br. rewrite exponent_ok_exact by done. unfold to_int, round_by, rounded_ok, fits_range. fold q. set (u := Z.b2z (round_up _ _ _ _)) in *.
  assert (0 <= u <= 1) as Bu by (subst u; destruct (round_up _ _ _ _); cbn; lia). clearbody u.
  assert (0 <= q) as Hq by (apply Z.div_pos; [by apply f_numerator_nonneg|apply f_denominator_pos]). clearbody q.
  assert (2 ^ w = 2 * 2 ^ (w - 1)) as P by (rewrite <- Z.pow_succ_r by lia; f_equal; lia).
  assert (0 < 2 ^ (w - 1)) as P0 by (apply Z.pow_pos_nonneg; lia). rewrite P in *. destruct signed.
  - specialize (Hs eq_refl). assert (2 ^ 1 <= 2 ^ (w - 1)) as P1 by (apply Z.pow_le_mono_r; lia). change (2 ^ 1) with 2 in P1.
    destruct (Z.lt_ge_cases q (2 * 2 ^ (w - 1))).
    + rewrite Z.mod_small in Er by lia. rewrite (rounded_signed (2 ^ (w - 1)) q u) by lia. destruct (f_sign e m x); lia.
    + destruct (f_sign e m x); [replace (q <=? _) with false by lia|replace (q <? _) with false by lia]; cbn [andb]; lia.
  - destruct (f_sign e m x).
    + destruct (Z.ltb_spec q 1); cbn [andb]; [|lia]. assert (q = 0) as -> by lia. rewrite Z.mod_0_l in Er by lia.
      destruct carry; cbn [Z.b2z negb andb] in *; lia.
    + destruct (Z.ltb_spec q (2 * 2 ^ (w - 1))); cbn [andb]; [|lia]. rewrite Z.mod_small in Er by lia.
      destruct carry; cbn [Z.b2z negb andb] in *; lia.
Qed.

End conversion.

(** ** Sanity: known values *)
Example decode_one : decode 8 23 0x3f800000 = S754_finite false 8388608 (-23). Proof. reflexivity. Qed.
Example decode_subnormal : decode 8 23 0x80000001 = S754_finite true 1 (-149). Proof. reflexivity. Qed.
Example round_half : map (fun mode => round_by mode true 5 2) [0; 1; 2; 3; 4] = [2; 2; 3; 2; 3]. Proof. reflexivity. Qed.

(** ** Rounding

    Rounding by mode from the bits that a right shift drops; the fields that
    the integer-to-float circuit computes, and that they decode to the
    Standard Library's [binary_normalize] of the integer. *)
(** ** Rounding from the dropped bits *)
Definition dropped_any (n a : Z) : bool := negb (n mod 2 ^ a =? 0).
Definition dropped_half (n a : Z) : bool := (0 <? a) && Z.testbit n (a - 1).
Definition dropped_below (n a : Z) : bool := (0 <? a) && negb (n mod 2 ^ (a - 1) =? 0).

Definition round_bits (mode : Z) (neg odd : bool) (n a : Z) : bool :=
  (mode =? 0) && (dropped_half n a && dropped_below n a || dropped_half n a && negb (dropped_below n a) && odd)
  || (mode =? 2) && (dropped_any n a && neg)
  || (mode =? 3) && (dropped_any n a && negb neg)
  || (mode =? 4) && dropped_half n a.

Lemma dropped_split n a : 0 < a -> n mod 2 ^ a = n mod 2 ^ (a - 1) + 2 ^ (a - 1) * Z.b2z (Z.testbit n (a - 1)).
Proof.
  intros Ha. replace a with (a - 1 + 1) at 1 by lia. rewrite Z.pow_add_r, Z.rem_mul_r by lia. change (2 ^ 1) with 2.
  by rewrite Z.testbit_odd, Z.shiftr_div_pow2, Zmod_odd by lia.
Qed.

Lemma round_bits_spec mode neg n a : 0 <= a ->
  round_bits mode neg (Z.odd (n / 2 ^ a)) n a = round_up mode neg n (2 ^ a).
Proof.
  intros Ha. unfold round_bits, round_up, dropped_any, dropped_half, dropped_below.
  destruct (Z.eq_dec a 0) as [->|Hne].
  - change (2 ^ 0) with 1. rewrite Z.mod_1_r. cbn. rewrite !andb_false_r. cbn.
    by destruct (mode =? 0), (mode =? 2), (mode =? 3), (mode =? 4).
  - replace (0 <? a) with true by lia. cbn [andb]. rewrite (dropped_split n a) by lia. set (h := 2 ^ (a - 1)).
    assert (2 ^ a = 2 * h) as -> by (subst h; rewrite <- Z.pow_succ_r by lia; f_equal; lia).
    assert (0 < h) by (apply Z.pow_pos_nonneg; lia). pose proof (Z.mod_pos_bound n h ltac:(done)). set (low := n mod h) in *. clearbody low.
    set (odd := Z.odd _). clearbody odd h.
    destruct (Z.eqb_spec mode 0) as [?|], (Z.eqb_spec mode 2) as [?|], (Z.eqb_spec mode 3) as [?|], (Z.eqb_spec mode 4) as [?|];
      try lia; try done; cbn [andb orb];
      destruct (Z.testbit n (a - 1)), (Z.eqb_spec low 0), odd, neg; cbn [Z.b2z andb orb negb]; lia.
Qed.

Lemma small_testbit x k : 0 <= k -> 0 <= x < 2 ^ k -> Z.testbit x k = false.
Proof. intros Hk Hx. by rewrite Z.testbit_odd, Z.shiftr_div_pow2, Z.div_small by done. Qed.

(** Bit by bit: [b] is the bit of weight [2 ^ i]. *)
Section append.
Context (p i a : Z) (b : bool) (Hi : 0 <= i) (Ha : 0 <= a) (Hp : 0 <= p < 2 ^ i).
Let q := p + 2 ^ i * Z.b2z b.

Lemma append_small k : i + 1 <= k -> 0 <= q < 2 ^ k.
Proof using Hi Hp.
  intros Hk. assert (2 ^ (i + 1) <= 2 ^ k) as P by (apply Z.pow_le_mono_r; lia). rewrite Z.pow_add_r in P by lia.
  change (2 ^ 1) with 2 in P. subst q. destruct b; cbn [Z.b2z]; lia.
Qed.

Lemma append_mod k : 0 <= k -> q mod 2 ^ k = (p mod 2 ^ k + if i <? k then 2 ^ i * Z.b2z b else 0).
Proof using Hi Hp.
  intros Hk. destruct (Z.ltb_spec i k).
  - rewrite Z.mod_small by (apply append_small; lia). rewrite Z.mod_small; [done|].
    assert (2 ^ i <= 2 ^ k) by (apply Z.pow_le_mono_r; lia). lia.
  - subst q. replace i with (i - k + k) by lia. rewrite Z.pow_add_r by lia.
    rewrite <- Z.mul_assoc, (Z.mul_comm (2 ^ k)), Z.mul_assoc, Z.mod_add by lia. lia.
Qed.

Lemma append_any : dropped_any q a = dropped_any p a || ((i + 1 <=? a) && b).
Proof using Hi Ha Hp.
  unfold dropped_any. rewrite append_mod by done. pose proof (Z.mod_pos_bound p (2 ^ a)). assert (0 < 2 ^ i) by (apply Z.pow_pos_nonneg; lia).
  destruct (Z.ltb_spec i a), (Z.leb_spec (i + 1) a), b; cbn [Z.b2z andb]; try lia; rewrite ?orb_false_r, ?orb_true_r; try f_equal; lia.
Qed.

Lemma append_below : dropped_below q a = dropped_below p a || ((i + 1 <=? a) && b && negb (a =? i + 1)).
Proof using Hi Ha Hp.
  unfold dropped_below. destruct (Z.ltb_spec 0 a); cbn [andb]; [|by replace (i + 1 <=? a) with false by lia].
  rewrite append_mod by lia. pose proof (Z.mod_pos_bound p (2 ^ (a - 1))). assert (0 < 2 ^ i) by (apply Z.pow_pos_nonneg; lia).
  destruct (Z.ltb_spec i (a - 1)), (Z.leb_spec (i + 1) a), (Z.eqb_spec a (i + 1)), b; cbn [Z.b2z andb negb]; try lia;
    rewrite ?orb_false_r, ?orb_true_r; try f_equal; lia.
Qed.

Lemma append_half : dropped_half q a = dropped_half p a || ((a =? i + 1) && b).
Proof using Hi Ha Hp.
  unfold dropped_half. destruct (Z.ltb_spec 0 a); cbn [andb]; [|by replace (a =? i + 1) with false by lia].
  destruct (Z.eqb_spec a (i + 1)) as [->|Hne]; cbn [andb].
  - replace (i + 1 - 1) with i by lia. rewrite (Z.testbit_odd p), (Z.testbit_odd q), !Z.shiftr_div_pow2 by lia.
    rewrite (Z.div_small p) by done. subst q. rewrite (Z.mul_comm (2 ^ i)), Z.div_add, Z.div_small by lia. by destruct b.
  - rewrite orb_false_r. destruct (Z.lt_ge_cases (a - 1) i).
    + rewrite <- (Z.mod_pow2_bits_low q i), <- (Z.mod_pow2_bits_low p i) by lia. by rewrite append_mod, Z.ltb_irrefl, Z.add_0_r by done.
    + rewrite (small_testbit q), (small_testbit p); [done|lia| |lia|apply append_small; lia].
      assert (2 ^ i <= 2 ^ (a - 1)) by (apply Z.pow_le_mono_r; lia). lia.
Qed.

End append.

(** ** The right shift of [SpecFloat] *)
Definition shr_state (n M : Z) : shr_record :=
  {| shr_m := M / 2 ^ n; shr_r := dropped_half M n; shr_s := dropped_below M n |}.

Lemma shr_1_step n M : 0 <= n -> 0 <= M -> shr_1 (shr_state n M) = shr_state (n + 1) M.
Proof.
  intros Hn HM. assert (0 <= M / 2 ^ n) as Hq by (apply Z.div_pos; [done|apply Z.pow_pos_nonneg; lia]).
  assert (dropped_half M n || dropped_below M n = negb (M mod 2 ^ n =? 0)) as Es.
  { unfold dropped_half, dropped_below. destruct (Z.eq_dec n 0) as [->|]; [by rewrite Z.mod_1_r|].
    replace (0 <? n) with true by lia. cbn [andb]. rewrite (dropped_split M n) by lia.
    pose proof (Z.mod_pos_bound M (2 ^ (n - 1))). assert (0 < 2 ^ (n - 1)) by (apply Z.pow_pos_nonneg; lia).
    destruct (Z.testbit M (n - 1)); cbn [Z.b2z orb]; lia. }
  assert (M / 2 ^ (n + 1) = M / 2 ^ n / 2) as E1 by (by rewrite Z.pow_add_r, Z.div_div by lia).
  assert (dropped_half M (n + 1) = Z.odd (M / 2 ^ n)) as E2.
  { unfold dropped_half. replace (0 <? n + 1) with true by lia. replace (n + 1 - 1) with n by lia.
    by rewrite Z.testbit_odd, Z.shiftr_div_pow2 by lia. }
  assert (dropped_below M (n + 1) = negb (M mod 2 ^ n =? 0)) as E3.
  { unfold dropped_below. replace (0 <? n + 1) with true by lia. by replace (n + 1 - 1) with n by lia. }
  unfold shr_state at 2. rewrite E1, E2, E3, <- Es. unfold shr_state, shr_1.
  destruct (M / 2 ^ n) as [|p|p]; [done| |lia].
  destruct p; cbn [Z.odd]; try done; f_equal;
    [apply Z.div_unique with 1|apply Z.div_unique with 0]; lia.
Qed.

Lemma iter_shr p n M : 0 <= n -> 0 <= M -> iter_pos shr_1 p (shr_state n M) = shr_state (n + Zpos p) M.
Proof.
  revert n; induction p as [p IH|p IH|]; intros n Hn HM; cbn [iter_pos].
  - rewrite shr_1_step, IH, IH by lia. f_equal. lia.
  - rewrite IH, IH by lia. f_equal. lia.
  - by apply shr_1_step.
Qed.

Lemma shr_exact M ex n : 0 <= n -> 0 <= M -> shr (shr_record_of_loc M loc_Exact) ex n = (shr_state n M, ex + n).
Proof.
  intros Hn HM. assert (shr_record_of_loc M loc_Exact = shr_state 0 M) as ->.
  { unfold shr_state. cbn. by rewrite Z.div_1_r. }
  destruct n as [|p|p]; cbn [shr]; [by rewrite Z.add_0_r|by rewrite iter_shr by done|lia].
Qed.

(** Rounding the shifted record is rounding the quotient to nearest even. *)
Lemma round_shr n M : 0 <= n -> round_nearest_even (shr_m (shr_state n M)) (loc_of_shr_record (shr_state n M)) = round_by 0 false M (2 ^ n).
Proof.
  intros Hn. unfold round_by. rewrite <- (round_bits_spec 0 false M n Hn). unfold round_bits, shr_state. cbn [Z.eqb Pos.eqb shr_m].
  unfold loc_of_shr_record. destruct (dropped_half M n), (dropped_below M n); cbn [round_nearest_even andb orb negb]; try (cbn; lia).
  rewrite <- Z.negb_odd. destruct (Z.odd (M / 2 ^ n)); cbn; lia.
Qed.

(** ** Digits *)
Lemma digits_log2 p : Zpos (digits2_pos p) = Z.log2 (Zpos p) + 1.
Proof.
  assert (digits2_pos p = Pos.size p) as -> by (induction p as [p IH|p IH|]; cbn; congruence).
  destruct p; cbn; lia.
Qed.

Lemma log2_mul_pow2 a n : 0 < a -> 0 <= n -> Z.log2 (a * 2 ^ n) = Z.log2 a + n.
Proof. intros Ha Hn. rewrite Z.log2_mul_pow2 by lia. lia. Qed.

Lemma iter_xO p d : Zpos (Pos.iter xO p d) = Zpos p * 2 ^ Zpos d.
Proof.
  induction d as [|d IH] using Pos.peano_ind; [cbn; lia|].
  rewrite Pos.iter_succ, Pos2Z.inj_succ, Z.pow_succ_r, Pos2Z.inj_xO, IH by lia. lia.
Qed.

(** ** The fields of a rounded integer *)
Section fields.
Context (e m : Z) (He : 2 <= e) (Hm : 0 <= m).

(** The magnitude [a] at the precision of the format, rounded. *)
Definition rounded_significand (a : Z) : Z :=
  round_by 0 false (a * 2 ^ Z.max 0 (m - Z.log2 a)) (2 ^ Z.max 0 (Z.log2 a - m)).
Definition rounds_over (a : Z) : bool := 2 ^ (m + 1) <=? rounded_significand a.

Definition int_to_float_bits (neg : bool) (a : Z) : Z :=
  if a =? 0 then 0
  else rounded_significand a mod 2 ^ m
    + 2 ^ m * ((Z.log2 a + f_bias e + Z.b2z (rounds_over a)) mod 2 ^ e)
    + 2 ^ (m + e) * Z.b2z neg.

Lemma rounded_significand_bound a : 0 < a -> 2 ^ m <= rounded_significand a <= 2 ^ (m + 1).
Proof using He Hm.
  intros Ha. unfold rounded_significand, round_by. set (k := Z.log2 a). pose proof (Z.log2_spec a Ha) as B. fold k in B.
  assert (0 <= k) as Hk by apply Z.log2_nonneg. set (n := a * _). set (d := 2 ^ Z.max 0 (k - m)).
  assert (0 < d) as Hd by (apply Z.pow_pos_nonneg; lia).
  assert (2 ^ m * d <= n < 2 ^ (m + 1) * d) as Bn.
  { subst n d. destruct (Z.le_gt_cases m k).
    - rewrite (Z.max_l 0 (m - k)), (Z.max_r 0 (k - m)), Z.mul_1_r, <- !Z.pow_add_r by lia.
      replace (m + (k - m)) with k by lia. replace (m + 1 + (k - m)) with (Z.succ k) by lia. done.
    - rewrite (Z.max_r 0 (m - k)), (Z.max_l 0 (k - m)), !Z.mul_1_r by lia.
      replace (2 ^ m) with (2 ^ k * 2 ^ (m - k)) by (rewrite <- Z.pow_add_r by lia; f_equal; lia).
      replace (2 ^ (m + 1)) with (2 ^ Z.succ k * 2 ^ (m - k)) by (rewrite <- Z.pow_add_r by lia; f_equal; lia).
      assert (0 < 2 ^ (m - k)) by (apply Z.pow_pos_nonneg; lia). nia. }
  pose proof (Z.div_mod n d). pose proof (Z.mod_pos_bound n d Hd).
  assert (2 ^ m <= n / d < 2 ^ (m + 1)) by (split; [apply Z.div_le_lower_bound|apply Z.div_lt_upper_bound]; lia).
  destruct (round_up _ _ _ _); cbn [Z.b2z]; lia.
Qed.

Let prec := m + 1.
Let emax := 2 ^ (e - 1).

Lemma fexp_normal d : f_bias e + (d - 1) >= 1 -> fexp prec emax d = d - prec.
Proof. unfold fexp, emin, f_bias, emax, prec. lia. Qed.

(** A significand that rounded up to the next power of two is halved. *)
Lemma renormalize neg R ex : 2 ^ m <= R <= 2 ^ (m + 1) -> let over := 2 ^ (m + 1) <=? R in
  f_bias e + (m + ex) >= 1 -> ex + Z.b2z over <= emax - prec ->
  exists q, Zpos q = (if over then 2 ^ m else R) /\
    (let '(mrs, e'') := shr_fexp prec emax R ex loc_Exact in
     match shr_m mrs with
     | Z0 => S754_zero neg
     | Zpos p => if e'' <=? emax - prec then S754_finite neg p e'' else S754_infinity neg
     | Zneg _ => S754_nan
     end) = S754_finite neg q (ex + Z.b2z over).
Proof using He Hm.
  intros HR over Hlo Hhi. assert (2 ^ (m + 1) = 2 * 2 ^ m) as P by (rewrite Z.pow_add_r by lia; change (2 ^ 1) with 2; lia).
  assert (0 < 2 ^ m) as Hp by (apply Z.pow_pos_nonneg; lia). destruct R as [|r|r]; [lia| |lia].
  assert (Z.log2 (Zpos r) = m + Z.b2z over) as EL.
  { unfold over. destruct (Z.leb_spec (2 ^ (m + 1)) (Zpos r)); cbn [Z.b2z].
    - replace (Zpos r) with (2 ^ (m + 1)) by lia. apply Z.log2_pow2. lia.
    - rewrite Z.add_0_r. apply Z.log2_unique; [done|]. rewrite Z.pow_succ_r by done. lia. }
  unfold shr_fexp. cbn [Zdigits2]. rewrite digits_log2, EL, fexp_normal by (destruct over; cbn [Z.b2z]; lia).
  replace (m + Z.b2z over + 1 + ex - prec - ex) with (Z.b2z over) by (unfold prec; lia).
  rewrite shr_exact by (destruct over; cbn; lia). cbn [shr_state shr_m]. rewrite (proj2 (Z.leb_le _ _) Hhi).
  unfold over in *. destruct (Z.leb_spec (2 ^ (m + 1)) (Zpos r)); cbn [Z.b2z].
  - replace (Zpos r) with (2 ^ m * 2) by lia. rewrite Z.div_mul by done. destruct (2 ^ m) as [|q|q]; try lia. by exists q.
  - rewrite Z.div_1_r. by exists r.
Qed.

Lemma binary_round_int neg p : let a := Zpos p in Z.log2 a + 1 <= f_bias e ->
  exists q, Zpos q = (if rounds_over a then 2 ^ m else rounded_significand a) /\
    binary_round prec emax neg p 0 = S754_finite neg q (Z.log2 a - m + Z.b2z (rounds_over a)).
Proof using He Hm.
  intros a Hk. set (k := Z.log2 a) in *. assert (0 <= k) as Hk0 by apply Z.log2_nonneg. pose proof (f_bias_pos e He) as Hb.
  pose proof (rounded_significand_bound a ltac:(done)) as Br. unfold binary_round. rewrite digits_log2. fold a k.
  rewrite fexp_normal by lia. replace (k + 1 + 0 - prec) with (k - m) by (unfold prec; lia).
  assert (exists N, Zpos N = a * 2 ^ Z.max 0 (m - k) /\ shl_align p 0 (k - m) = (N, Z.min 0 (k - m))) as (N & EN & ->).
  { unfold shl_align. rewrite Z.sub_0_r. destruct (k - m) as [|d|d] eqn:E; cbn [Z.min Z.compare].
    - exists p. rewrite Z.max_l by lia. split; [subst a; lia|done].
    - exists p. rewrite Z.max_l by lia. split; [subst a; lia|done].
    - exists (Pos.iter xO p d). rewrite iter_xO. split; [|done]. do 2 f_equal. lia. }
  unfold binary_round_aux, shr_fexp at 1. cbn [Zdigits2]. rewrite digits_log2, EN, log2_mul_pow2 by lia. fold k.
  rewrite fexp_normal by lia.
  replace (k + Z.max 0 (m - k) + 1 + Z.min 0 (k - m) - prec - Z.min 0 (k - m)) with (Z.max 0 (k - m)) by (unfold prec; lia).
  rewrite shr_exact by lia. rewrite round_shr by lia.
  change (round_by 0 false (a * 2 ^ Z.max 0 (m - k)) (2 ^ Z.max 0 (k - m))) with (rounded_significand a).
  replace (Z.min 0 (k - m) + Z.max 0 (k - m)) with (k - m) by lia.
  apply renormalize; [done|lia|]. fold (rounds_over a). unfold emax, prec, f_bias in *. destruct (rounds_over a); cbn [Z.b2z]; lia.
Qed.

Lemma fields_of F E (b : bool) : 0 <= F < 2 ^ m -> 0 <= E < 2 ^ e -> let x := F + 2 ^ m * E + 2 ^ (m + e) * Z.b2z b in
  f_fraction m x = F /\ f_exponent e m x = E /\ f_sign e m x = b.
Proof using He Hm.
  intros HF HE x. assert (x = F + (E + Z.b2z b * 2 ^ e) * 2 ^ m) as Ex by (unfold x; rewrite Z.pow_add_r by lia; lia).
  unfold f_fraction, f_exponent, f_sign. split; [|split].
  - rewrite Ex, Z.mod_add by lia. by apply Z.mod_small.
  - rewrite Ex, Z.div_add, (Z.div_small F), Z.add_0_l, Z.mod_add by lia. by apply Z.mod_small.
  - rewrite Z.testbit_odd, Z.shiftr_div_pow2 by lia. unfold x. rewrite (Z.mul_comm (2 ^ (m + e))), Z.div_add by lia.
    rewrite Z.div_small; [by destruct b|]. rewrite Z.pow_add_r by lia. nia.
Qed.

(** Short of the largest exponent, the fields decode to the rounded integer. *)
Theorem decode_int_to_float x : Z.abs x < 2 ^ f_bias e ->
  decode e m (int_to_float_bits (x <? 0) (Z.abs x)) = binary_normalize (m + 1) (2 ^ (e - 1)) x 0 false.
Proof using He Hm.
  intros Hx. pose proof (f_bias_pos e He) as Hb.
  assert (2 ^ e = 2 * 2 ^ (e - 1)) as P by (rewrite <- Z.pow_succ_r by lia; f_equal; lia).
  assert (1 < 2 ^ (e - 1)) as P1 by (apply Z.pow_gt_1; lia). assert (0 < 2 ^ m) as Pm by (apply Z.pow_pos_nonneg; lia).
  assert (forall (b : bool) p, Zpos p < 2 ^ f_bias e -> decode e m (int_to_float_bits b (Zpos p)) = binary_round prec emax b p 0) as Hpos.
  { intros b p Hp. assert (Z.log2 (Zpos p) + 1 <= f_bias e) as Hk by (assert (Z.log2 (Zpos p) < f_bias e) by (by apply Z.log2_lt_pow2); lia).
    destruct (binary_round_int b p Hk) as (q & Eq & ->). pose proof (rounded_significand_bound (Zpos p) ltac:(done)) as Br.
    pose proof (Z.log2_nonneg (Zpos p)) as Hk0. set (k := Z.log2 (Zpos p)) in *. set (over := rounds_over (Zpos p)) in *.
    unfold int_to_float_bits. cbn [Z.eqb]. fold k over. set (E := k + f_bias e + Z.b2z over).
    assert (1 <= E <= 2 ^ e - 2) as BE by (unfold E, f_bias in *; destruct over; cbn [Z.b2z]; lia). rewrite (Z.mod_small E) by lia.
    destruct (fields_of (rounded_significand (Zpos p) mod 2 ^ m) E b) as (F1 & F2 & F3); [by apply Z.mod_pos_bound|lia|].
    unfold decode, f_significand, f_effective. rewrite F1, F2, F3.
    destruct (Z.eqb_spec E (2 ^ e - 1)); [lia|]. destruct (Z.eqb_spec E 0); [lia|].
    assert (rounded_significand (Zpos p) mod 2 ^ m + 2 ^ m = Zpos q) as ->.
    { rewrite Eq. assert (2 ^ (m + 1) = 2 * 2 ^ m) as P2 by (rewrite Z.pow_add_r by lia; change (2 ^ 1) with 2; lia).
      unfold over, rounds_over in *. destruct (Z.leb_spec (2 ^ (m + 1)) (rounded_significand (Zpos p))).
      - replace (rounded_significand (Zpos p)) with (2 * 2 ^ m) by lia. rewrite Z.mod_mul by lia. lia.
      - rewrite <- (Z.mod_unique_pos (rounded_significand (Zpos p)) (2 ^ m) 1 (rounded_significand (Zpos p) - 2 ^ m)); lia. }
    f_equal. unfold E. lia. }
  destruct x as [|p|p]; [|by apply Hpos..].
  change (int_to_float_bits (0 <? 0) (Z.abs 0)) with 0. cbn [binary_normalize].
  unfold decode, f_significand, f_fraction, f_exponent, f_sign. rewrite Zdiv_0_l, !Zmod_0_l, Z.testbit_0_l.
  destruct (Z.eqb_spec 0 (2 ^ e - 1)); [lia|done].
Qed.

End fields.

(** An integer operand, by its signedness. *)
Definition int_value (signed : bool) (v : nat) (x : Z) : Z := if signed then sign_of (Z.of_nat v) x else x.

Example convert_seven : int_to_float_bits 8 23 true 7 = 0xc0e00000. Proof. reflexivity. Qed.
Example convert_tie : int_to_float_bits 8 23 false 16777217 = 0x4b800000. Proof. reflexivity. Qed.
(** Past the largest exponent the fields are no longer those of the integer:
    [100000] in binary16 is a NaN, where IEEE 754 gives infinity. *)
Example convert_past : f_nan 5 10 (int_to_float_bits 5 10 false 100000) = true. Proof. reflexivity. Qed.
