(* ===== verification/BlastSem.v ===== *)
(** * The meaning of a formula graph

    The abstract specification of the bit-blaster. [node_shape] types a node:
    it gives the width of its value, or [None] for a graph outside the
    bit-vector fragment or with operands of the wrong widths. An
    interpretation gives every node a number and a definedness bit;
    [node_ok] says that a node's value is what its kind computes from its
    operands. Symbols, first reads of a state field and freezes of poison are
    free. *)
From S2P Require Import Prelude ApInt ApIntSpec Lang LangSpec SatSolver Dag Bits Gates Bitblast.
#[local] Open Scope nat_scope.

(** The kinds of the fragment, by what they compute. *)
Inductive NodeClass :=
  | CSymbol
  | CTrue
  | CRead
  | CConst
  | CNot
  | CNeg
  | CWord (k : SymKind.t)
  | CShift (k : SymKind.t)
  | CTest (k : SymKind.t) (overloaded : bool)
  | CConcat
  | CCopy
  | CExtract
  | CExtend (signed : bool)
  | CIf
  | CPoison
  | CFreeze
  | CSwitch
  | COther.

Definition class_of (k : SymKind.t) : NodeClass :=
  match k with
  | SymKind.Symbol => CSymbol
  | SymKind.StateBlock => CTrue
  | SymKind.StateRead => CRead
  | SymKind.Constant => CConst
  | SymKind.Not => CNot
  | SymKind.Neg => CNeg
  | SymKind.And | SymKind.Or | SymKind.Xor | SymKind.Add | SymKind.Sub | SymKind.Mul
  | SymKind.UDiv | SymKind.URem | SymKind.Div | SymKind.SRem => CWord k
  | SymKind.ShiftLeft | SymKind.ShiftRightLogic | SymKind.ShiftRightArithmetic => CShift k
  | SymKind.Eq | SymKind.Ne | SymKind.Lt | SymKind.Le | SymKind.Gt | SymKind.Ge => CTest k true
  | SymKind.ULt | SymKind.ULe | SymKind.UGt | SymKind.UGe => CTest k false
  | SymKind.Concat => CConcat
  | SymKind.AsFloat | SymKind.Bitcast => CCopy
  | SymKind.Extract => CExtract
  | SymKind.ZExt => CExtend false
  | SymKind.SExt => CExtend true
  | SymKind.If => CIf
  | SymKind.Poison => CPoison
  | SymKind.Freeze => CFreeze
  | SymKind.Switch => CSwitch
  | _ => COther
  end.

(** Operands by position; an interpretation is total. *)
Definition arg (cs : list nat) (k : nat) : nat := default 0 (cs !! k).

Section graph.
Context {V F : Type} (graph : Dag SymKind.t (SymPayload V F) unit) (widths : list (option nat)) (floats : list bool).

Definition const_of (id : nat) : option Z :=
  data ← get_leaf_data graph id;
  match data with Some (PInt v) => Some (to_u64 v) | _ => None end.

Definition constant_of (id : nat) : option APInt :=
  data ← get_leaf_data graph id;
  match data with Some (PInt v) => assert! wfb v; Some v | _ => None end.

Definition declared (id : nat) : option nat :=
  match widths !! id with Some (Some w) => Some w | _ => None end.

(** The resource and field that a [StateRead] reads. *)
Definition read_key (cs : list nat) : option (Z * Z) :=
  c1 ← cs !! 1; resource ← const_of c1;
  c2 ← cs !! 2; field ← const_of c2;
  Some (resource, field).

Definition same_width (ws : list nat) (a b : nat) : option nat :=
  wa ← ws !! a; wb ← ws !! b;
  if wa =? wb then Some wa else None.

Definition is_float (id : nat) : bool := bool_decide (floats !! id = Some true).

(** ** Types *)
Definition class_shape (ws : list nat) (id : nat) (c : NodeClass) (cs : list nat) : option nat :=
  match c with
  | CSymbol => _ ← get_leaf_data graph id; declared id
  | CTrue => Some 1
  | CRead => _ ← read_key cs; declared id
  | CConst => _ ← constant_of id; declared id
  | CNot | CNeg | CCopy | CFreeze => a ← cs !! 0; ws !! a
  | CWord _ => a ← cs !! 0; b ← cs !! 1; w ← same_width ws a b; assert! 0 <? w; Some w
  | CShift _ =>
    a ← cs !! 0; b ← cs !! 1; w ← ws !! a; wb ← ws !! b;
    assert! (0 <? w) && (stage_count w <=? wb); Some w
  | CTest _ overloaded =>
    a ← cs !! 0; b ← cs !! 1; w ← same_width ws a b;
    assert! (0 <? w) && negb (overloaded && is_float a); Some 1
  | CConcat => a ← cs !! 0; b ← cs !! 1; wa ← ws !! a; wb ← ws !! b; Some (wb + wa)
  | CExtract =>
    a ← cs !! 0; c1 ← cs !! 1; hi ← const_of c1; c2 ← cs !! 2; lo ← const_of c2; w ← ws !! a;
    assert! ((0 <=? lo) && (lo <=? hi + 1) && (hi <? Z.of_nat w))%Z; Some (Z.to_nat (hi + 1 - lo))
  | CExtend signed => a ← cs !! 0; w ← ws !! a; assert! negb signed || (0 <? w); declared id
  | CIf =>
    match cs with
    | [c; t; e] => wc ← ws !! c; assert! 0 <? wc; same_width ws t e
    | _ => None
    end
  | CPoison => c ← cs !! 0; wc ← ws !! c; assert! 0 <? wc; a ← cs !! 1; ws !! a
  | CSwitch =>
    match cs with
    | index :: arm :: arms =>
      _ ← ws !! index; w ← ws !! arm;
      assert! forallb (fun a => bool_decide (ws !! a = Some w)) arms && (Z.of_nat (length cs) <? 2 ^ 64)%Z; Some w
    | _ => None
    end
  | COther => None
  end.

Definition node_shape (ws : list nat) (id : nat) : option nat :=
  k ← get_node graph id;
  cs ← children graph id;
  assert! forallb (fun c => c <? id) cs;
  class_shape ws id (class_of k) cs.

(** The widths of the nodes so far, and for each state field the read whose
    bits the next read of the same width shares. *)
Record Shapes := mkShapes { sh_ws : list nat; sh_reads : gmap (Z * Z) nat }.

Definition owner (sh : Shapes) (cs : list nat) (w : nat) : option nat :=
  key ← read_key cs;
  j ← sh_reads sh !! key;
  if decide (sh_ws sh !! j = Some w) then Some j else None.

Definition next_reads (sh : Shapes) (id : nat) (c : NodeClass) (cs : list nat) (w : nat) : gmap (Z * Z) nat :=
  match c, read_key cs with
  | CRead, Some key => match owner sh cs w with Some _ => sh_reads sh | None => <[key := id]> (sh_reads sh) end
  | _, _ => sh_reads sh
  end.

Fixpoint shapes (n : nat) : option Shapes :=
  match n with
  | O => Some (mkShapes [] ∅)
  | Datatypes.S id =>
    sh ← shapes id;
    k ← get_node graph id;
    cs ← children graph id;
    w ← node_shape (sh_ws sh) id;
    Some (mkShapes (sh_ws sh ++ [w]) (next_reads sh id (class_of k) cs w))
  end.

Definition well_typed : Prop := is_Some (shapes (len graph)).

(** ** Values *)
Definition widthZ (ws : list nat) (id : nat) : Z := Z.of_nat (default 0 (ws !! id)).

(** The value a node's kind gives it, [None] for a free one. *)
Definition class_value (sh : Shapes) (w : nat) (vals : nat -> Z) (defs : nat -> bool) (id : nat) (c : NodeClass)
    (cs : list nat) : option Z :=
  let ws := sh_ws sh in
  let x := vals (arg cs 0) in
  let y := vals (arg cs 1) in
  match c with
  | CSymbol => None
  | CTrue => Some 1%Z
  | CRead => vals <$> owner sh cs w
  | CConst => v ← constant_of id; Some (uval v mod 2 ^ Z.of_nat w)%Z
  | CNot => Some (2 ^ Z.of_nat w - 1 - x)%Z
  | CNeg => Some (- x mod 2 ^ Z.of_nat w)%Z
  | CWord k | CShift k | CTest k _ => Some (smt_op k (widthZ ws (arg cs 0)) x y)
  | CConcat => Some (y + 2 ^ widthZ ws (arg cs 1) * x)%Z
  | CCopy => Some x
  | CExtract =>
    hi ← const_of (arg cs 1); lo ← const_of (arg cs 2);
    Some ((x / 2 ^ lo) mod 2 ^ (hi + 1 - lo))%Z
  | CExtend false => Some (x mod 2 ^ Z.of_nat w)%Z
  | CExtend true => Some (sign_of (widthZ ws (arg cs 0)) x mod 2 ^ Z.of_nat w)%Z
  | CIf => Some (if Z.odd x then y else vals (arg cs 2))
  | CPoison => Some y
  | CFreeze => if defs (arg cs 0) then Some x else None
  | CSwitch => Some (vals (arg cs (1 + Nat.min (Z.to_nat x) (length cs - 2))))
  | COther => None
  end.

Definition class_defined (vals : nat -> Z) (defs : nat -> bool) (c : NodeClass) (cs : list nat) : bool :=
  match c with
  | CFreeze => true
  | CIf => defs (arg cs 0) && (if Z.odd (vals (arg cs 0)) then defs (arg cs 1) else defs (arg cs 2))
  | CPoison => forallb defs cs && negb (Z.odd (vals (arg cs 0)))
  | _ => forallb defs cs
  end.

(** A node's value and definedness are those of its kind. *)
Definition node_ok (vals : nat -> Z) (defs : nat -> bool) (id : nat) : Prop :=
  exists sh sh' k cs w, shapes id = Some sh /\ shapes (Datatypes.S id) = Some sh' /\ get_node graph id = Some k /\
    children graph id = Some cs /\ sh_ws sh' !! id = Some w /\
    (0 <= vals id < 2 ^ Z.of_nat w)%Z /\
    (forall v, class_value sh w vals defs id (class_of k) cs = Some v -> vals id = v) /\
    defs id = class_defined vals defs (class_of k) cs.

Definition interpretation (vals : nat -> Z) (defs : nat -> bool) : Prop :=
  forall id, id < len graph -> node_ok vals defs id.

(** The formula's truth: the low bit of the root. *)
Definition root_true (vals : nat -> Z) : Prop := exists r, root graph = Some r /\ Z.odd (vals r) = true.

End graph.
