(* ===== verification/GateSpec.v ===== *)
(** * What circuits compute: contexts, triples and the laws of a clause sink

    A context is what a sink stands for: a number of variables and a
    constraint on them. [computes m Γ K] is a Hoare triple: run on a sink that
    stands for [Γ], the circuit [m] does not panic and leaves a sink that
    stands for an extension of [Γ], of which its result satisfies [K]. An
    extension constrains the old variables no further. *)
From S2P Require Import Prelude SatSolver SatLits SatProp SatAnalyze SatSearch SatSolve Gates.
#[local] Open Scope nat_scope.

(** ** Contexts *)
Record Ctx := mkCtx { cvars : nat; cholds : valuation -> Prop }.

Definition agree (n : nat) (rho rho' : valuation) : Prop := forall v, v < n -> rho v = rho' v.

(** The constraint is about the context's variables. *)
Definition local (G : Ctx) : Prop :=
  forall rho rho', agree (cvars G) rho rho' -> cholds G rho -> cholds G rho'.

Record extends (G G' : Ctx) : Prop := {
  ext_vars : cvars G <= cvars G';
  ext_holds : forall rho, cholds G' rho -> cholds G rho;
  ext_model : forall rho, cholds G rho -> exists rho', agree (cvars G) rho rho' /\ cholds G' rho';
}.

Definition wire (G : Ctx) (l : Lit) : Prop := lit_var l < cvars G.
Definition wires (G : Ctx) (ls : list Lit) : Prop := Forall (wire G) ls.
Definition always (G : Ctx) (P : valuation -> Prop) : Prop := forall rho, cholds G rho -> P rho.

Definition grow (G : Ctx) : Ctx := mkCtx (S (cvars G)) (cholds G).
Definition conj (G : Ctx) (c : list Lit) : Ctx := mkCtx (cvars G) (fun rho => cholds G rho /\ clause_true rho c).

(** ** The laws of a clause sink *)
Class CnfLaws (S : Type) `{CnfSink S} := {
  stands : Ctx -> S -> Prop;
  stands_new_var G s : stands G s ->
    exists s', sink_new_var s = Some (cvars G, s') /\ stands (grow G) s';
  stands_add_clause G s c : stands G s -> wires G c ->
    exists s', sink_add_clause c s = Some s' /\ stands (conj G c) s';
  stands_iff G G' s : cvars G = cvars G' -> (forall rho, cholds G rho <-> cholds G' rho) -> stands G s -> stands G' s;
}.

(** The solver, before it searches, is a lawful sink. *)
Definition solver_stands (G : Ctx) (s : Solver) : Prop :=
  solver_ok (cholds G) s /\ building s /\ num_vars s = cvars G.

#[export] Program Instance solver_laws : CnfLaws Solver := {| stands := solver_stands |}.
Next Obligation.
  intros G s (Hok & [Hq Hl] & En). destruct (new_var_spec _ s Hok) as (s' & E & Hok' & En' & Eq & El & _).
  exists s'. rewrite <- En. split; [exact E|]. repeat split; cbn; congruence || done.
Qed.
Next Obligation.
  intros G s c (Hok & Hb & En) Hw. destruct (add_clause_spec _ s c Hok Hb) as (s' & E & En' & Hb' & Hok').
  { intros l Hl. rewrite En. unfold wires in Hw. rewrite Forall_forall in Hw. by apply Hw, list_elem_of_In. }
  exists s'. split; [exact E|]. split; [exact Hok'|]. split; [done|]. cbn. congruence.
Qed.
Next Obligation.
  intros G G' s E Hiff (Hok & Hb & En). split; [by eapply solver_ok_iff|]. split; [done|]. congruence.
Qed.

(** ** Extension is a preorder along which facts move *)
Lemma agree_refl n rho : agree n rho rho.
Proof. by intros v. Qed.

Lemma agree_trans n m a b c : n <= m -> agree n a b -> agree m b c -> agree n a c.
Proof. intros Hle H1 H2 v Hv. rewrite H1 by done. apply H2. lia. Qed.

#[export] Instance extends_refl : Reflexive extends.
Proof. intros G. split; [done|done|]. intros rho H. exists rho. split; [apply agree_refl|done]. Qed.

#[export] Instance extends_trans : Transitive extends.
Proof.
  intros G1 G2 G3 [V1 H1 M1] [V2 H2 M2]. split; [lia|auto|]. intros rho H.
  destruct (M1 rho H) as (r2 & A2 & H'). destruct (M2 r2 H') as (r3 & A3 & H'').
  exists r3. split; [|done]. by eapply agree_trans.
Qed.

Lemma wire_mono G G' l : extends G G' -> wire G l -> wire G' l.
Proof. intros [V _ _] H. unfold wire in *. lia. Qed.

Lemma wires_mono G G' ls : extends G G' -> wires G ls -> wires G' ls.
Proof. intros E. apply Forall_impl. intros l. by apply wire_mono. Qed.

Lemma always_mono G G' P : extends G G' -> always G P -> always G' P.
Proof. intros E H rho Hr. by apply H, (ext_holds _ _ E). Qed.

Lemma wire_negate G l : wire G l -> wire G (negate l).
Proof. unfold wire. by rewrite lit_var_negate. Qed.

Lemma wires_negate G ls : wires G ls -> wires G (map negate ls).
Proof. intros H. apply Forall_map. eapply Forall_impl; [|exact H]. apply wire_negate. Qed.

Lemma lit_true_agree n rho rho' l : agree n rho rho' -> lit_var l < n -> lit_true rho l = lit_true rho' l.
Proof. intros A Hl. unfold lit_true. by rewrite (A _ Hl). Qed.

Create HintDb wires.
#[export] Hint Resolve wire_negate wires_negate : wires.
#[export] Hint Extern 2 (wire _ _) => eapply wire_mono; eassumption : wires.
#[export] Hint Extern 2 (wires _ _) => eapply wires_mono; eassumption : wires.
#[export] Hint Extern 1 (wires _ (_ :: _)) => apply list.Forall_cons : wires.
#[export] Hint Extern 1 (wires _ []) => apply list.Forall_nil : wires.
#[export] Hint Extern 1 (_ /\ _) => split : wires.

(** ** Triples *)
Section triples.
Context {S : Type} `{CnfLaws S}.

Definition computes {A} (m : Gate S A) (G : Ctx) (K : A -> Ctx -> Prop) : Prop :=
  forall s, stands G s -> local G ->
    exists a s' G', m s = Some (a, s') /\ stands G' s' /\ local G' /\ extends G G' /\ K a G'.

Lemma bind_run {A B} (m : Gate S A) (k : A -> Gate S B) s a s' : m s = Some (a, s') -> (m ≫= k) s = k a s'.
Proof. intros E. unfold mbind, gate_bind. by rewrite E. Qed.

Lemma computes_ret {A} (a : A) G (K : A -> Ctx -> Prop) : K a G -> computes (mret a) G K.
Proof. intros HK s Hs Hl. exists a, s, G. split; [done|]. split; [done|]. split; [done|]. split; [reflexivity|done]. Qed.

Lemma computes_bind {A B} (m : Gate S A) (k : A -> Gate S B) G K1 K :
  computes m G K1 ->
  (forall a G1, extends G G1 -> K1 a G1 -> computes (k a) G1 K) ->
  computes (m ≫= k) G K.
Proof.
  intros Hm Hk s Hs Hl. destruct (Hm s Hs Hl) as (a & s1 & G1 & E1 & S1 & L1 & X1 & HK1).
  destruct (Hk a G1 X1 HK1 s1 S1 L1) as (b & s2 & G2 & E2 & S2 & L2 & X2 & HK).
  exists b, s2, G2. unfold mbind, gate_bind. rewrite E1. split; [done|]. split; [done|]. split; [done|].
  split; [by etransitivity|done].
Qed.

Lemma computes_weaken {A} (m : Gate S A) G (K K' : A -> Ctx -> Prop) :
  computes m G K -> (forall a G', extends G G' -> K a G' -> K' a G') -> computes m G K'.
Proof.
  intros Hm HK s Hs Hl. destruct (Hm s Hs Hl) as (a & s1 & G1 & E1 & S1 & L1 & X1 & HK1).
  exists a, s1, G1. auto 6.
Qed.

Lemma computes_pure {A} (o : option A) a G (K : A -> Ctx -> Prop) : o = Some a -> K a G -> computes (pure o) G K.
Proof. intros -> HK. by apply (computes_ret a). Qed.

(** A loop keeps an invariant of the accumulator and the items left. *)
Lemma computes_foldM {A B} (f : B -> A -> Gate S B) (I : list A -> B -> Ctx -> Prop) l acc G (K : B -> Ctx -> Prop) :
  I l acc G ->
  (forall x l acc G1, extends G G1 -> I (x :: l) acc G1 -> computes (f acc x) G1 (I l)) ->
  (forall acc G1, extends G G1 -> I [] acc G1 -> K acc G1) ->
  computes (foldM f l acc) G K.
Proof.
  intros HI Hstep HK. revert acc G HI Hstep HK. induction l as [|x l IH]; intros acc G HI Hstep HK; cbn [foldM].
  - apply computes_ret, HK; [reflexivity|done].
  - eapply computes_bind; [by apply Hstep; [reflexivity|]|]. intros acc' G1 X1 HI1. apply IH; [done|..].
    + intros y l' acc2 G2 X2. apply Hstep. by etransitivity.
    + intros acc2 G2 X2. apply HK. by etransitivity.
Qed.

(** ** Fresh variables *)
Lemma local_grow G : local G -> local (grow G).
Proof. intros L rho rho' A. apply L. intros v Hv. apply A. cbn. lia. Qed.

Lemma extends_grow G : extends G (grow G).
Proof. split; [cbn; lia|done|]. intros rho Hr. exists rho. split; [apply agree_refl|done]. Qed.

(** The literal takes either value, whatever the old variables hold. *)
Definition free (G : Ctx) (y : Lit) (G' : Ctx) : Prop :=
  wire G' y /\ forall rho b, cholds G rho -> exists rho', agree (cvars G) rho rho' /\ cholds G' rho' /\ lit_true rho' y = b.

Definition set_var (v : nat) (b : bool) (rho : valuation) : valuation := fun x => if x =? v then b else rho x.

Lemma set_var_agree n b rho : agree n rho (set_var n b rho).
Proof. intros v Hv. unfold set_var. destruct (Nat.eqb_spec v n); [lia|done]. Qed.

Lemma set_var_lit n b rho : lit_true (set_var n b rho) (lit_positive n) = b.
Proof.
  unfold lit_true, lit_positive. rewrite lit_var_new, is_negated_new. unfold set_var.
  rewrite Nat.eqb_refl. by destruct b.
Qed.

Lemma fresh_spec G : local G -> computes fresh G (free G).
Proof.
  intros HL s Hs Hl. destruct (stands_new_var G s Hs) as (s' & E & Hs').
  exists (lit_positive (cvars G)), s', (grow G). unfold fresh. rewrite E. split; [done|]. split; [done|].
  split; [by apply local_grow|]. split; [apply extends_grow|]. split.
  - unfold wire, lit_positive. rewrite lit_var_new. cbn. lia.
  - intros rho b Hr. exists (set_var (cvars G) b rho). split; [apply set_var_agree|]. split; [|apply set_var_lit].
    apply (HL rho); [apply set_var_agree|done].
Qed.

(** ** A gate: a fresh literal defined by clauses *)
Fixpoint emit_all (cs : list (list Lit)) (y : Lit) : Gate S Lit :=
  match cs with
  | [] => mret y
  | c :: cs => _ ← emit c; emit_all cs y
  end.

Definition conj_all (G : Ctx) (cs : list (list Lit)) : Ctx :=
  mkCtx (cvars G) (fun rho => cholds G rho /\ cnf_true rho cs).

Lemma emit_all_run cs y G s : stands G s -> Forall (wires G) cs ->
  exists s', emit_all cs y s = Some (y, s') /\ stands (conj_all G cs) s'.
Proof.
  revert G s; induction cs as [|c cs IH]; intros G s Hs Hcs; cbn [emit_all].
  - exists s. split; [done|]. eapply stands_iff; [..|exact Hs]; [done|]. intros rho. cbn. split; [|by intros [? _]].
    intros Hr. split; [done|]. intros c Hc. by apply not_elem_of_nil in Hc.
  - apply list.Forall_cons in Hcs as [Hc Hcs]. destruct (stands_add_clause G s c Hs Hc) as (s1 & E1 & S1).
    destruct (IH (conj G c) s1 S1) as (s2 & E2 & S2); [done|].
    exists s2. unfold mbind, gate_bind, emit. rewrite E1. split; [done|].
    eapply stands_iff; [..|exact S2]; [done|]. intros rho. cbn. rewrite cnf_true_cons. tauto.
Qed.

(** What [y] reads as, in every assignment of the context. *)
Definition reads (G : Ctx) (y : Lit) (f : valuation -> bool) : Prop :=
  wire G y /\ always G (fun rho => lit_true rho y = f rho).

Lemma define_spec (cs : Lit -> list (list Lit)) (f : valuation -> bool) (ins : list Lit) G :
  wires G ins ->
  (forall y c l, c ∈ cs y -> l ∈ c -> lit_var l = lit_var y \/ exists i, i ∈ ins /\ lit_var l = lit_var i) ->
  (forall rho rho', agree (cvars G) rho rho' -> f rho = f rho') ->
  (forall y rho, cnf_true rho (cs y) <-> lit_true rho y = f rho) ->
  computes (y ← fresh; emit_all (cs y) y) G (fun y G' => reads G' y f).
Proof.
  intros Hins Hscope Hf Hcs s Hs Hl. destruct (stands_new_var G s Hs) as (s1 & E1 & S1).
  set (y := lit_positive (cvars G)).
  destruct (emit_all_run (cs y) y (grow G) s1 S1) as (s2 & E2 & S2).
  { apply Forall_forall. intros c Hc. apply Forall_forall. intros l Hl'. apply list_elem_of_In in Hc, Hl'.
    destruct (Hscope y c l Hc Hl') as [E|(i & Hi & E)]; unfold wire; rewrite E.
    - unfold y, lit_positive. rewrite lit_var_new. cbn. lia.
    - unfold wires in Hins. rewrite Forall_forall in Hins. apply list_elem_of_In, Hins in Hi. unfold wire in Hi. cbn. lia. }
  exists y, s2, (conj_all (grow G) (cs y)). unfold mbind, gate_bind, fresh. rewrite E1. fold y.
  split; [exact E2|]. split; [exact S2|].
  assert (forall rho, cholds (conj_all (grow G) (cs y)) rho <-> cholds G rho /\ lit_true rho y = f rho) as Hmeans.
  { intros rho. cbn. by rewrite Hcs. }
  assert (Hy : lit_var y = cvars G) by apply lit_var_new.
  split; [|split].
  - intros rho rho' A [H1 H2]%Hmeans. apply Hmeans.
    assert (agree (cvars G) rho rho') as A' by (intros v Hv; apply A; cbn; lia). split; [by apply (Hl rho)|].
    rewrite <- (Hf _ _ A'), <- H2. symmetry. apply (lit_true_agree _ _ _ _ A). rewrite Hy. cbn [cvars conj_all grow]. lia.
  - split; [cbn; lia|by intros rho [H1 _]%Hmeans|]. intros rho Hr.
    exists (set_var (cvars G) (f rho) rho). split; [apply set_var_agree|]. apply Hmeans. split.
    + apply (Hl rho); [apply set_var_agree|done].
    + unfold y. rewrite set_var_lit. apply Hf, set_var_agree.
  - split; [unfold wire; rewrite Hy; cbn [cvars conj_all grow]; lia|]. by intros rho [_ H1]%Hmeans.
Qed.

(** ** The gates *)
Lemma cnf_true_nil rho : cnf_true rho [] <-> True.
Proof. split; [done|]. intros _ c Hc. by apply not_elem_of_nil in Hc. Qed.

Lemma clause_true_nil_iff rho : clause_true rho [] <-> False.
Proof. split; [apply clause_true_nil|done]. Qed.

Lemma wires_agree G ins rho rho' l : wires G ins -> agree (cvars G) rho rho' -> l ∈ ins -> lit_true rho l = lit_true rho' l.
Proof.
  intros Hw A Hl. apply (lit_true_agree _ _ _ _ A). unfold wires in Hw. rewrite Forall_forall in Hw.
  by apply Hw, list_elem_of_In.
Qed.

Ltac gate_scope :=
  let y := fresh "y" in let c := fresh "c" in let l := fresh "l" in let Hc := fresh in let Hl := fresh in
  intros y c l Hc Hl; rewrite ?elem_of_cons, elem_of_nil in Hc;
  repeat match type of Hc with _ \/ _ => destruct Hc as [Hc|Hc] end; subst; try done;
  rewrite ?elem_of_cons, elem_of_nil in Hl;
  repeat match type of Hl with _ \/ _ => destruct Hl as [Hl|Hl] end; subst; try done;
  rewrite ?lit_var_negate; first [by left|right; eexists; split; [|reflexivity]; rewrite ?elem_of_cons; tauto].

Ltac gate_truth :=
  let y := fresh "y" in let rho := fresh "rho" in
  intros y rho; rewrite !cnf_true_cons, cnf_true_nil, !clause_true_cons, !clause_true_nil_iff, !lit_true_negate;
  repeat match goal with |- context [lit_true rho ?x] => destruct (lit_true rho x) end;
  cbn; intuition discriminate.

Ltac gate_local Hw :=
  let A := fresh in intros ? ? A; cbv beta;
  repeat match goal with |- context [lit_true ?r ?x] => rewrite (wires_agree _ _ _ _ x Hw A) by (rewrite ?elem_of_cons; tauto) end;
  reflexivity.

Lemma gate_and_spec G a b : wire G a -> wire G b ->
  computes (gate_and a b) G (fun y G' => reads G' y (fun rho => lit_true rho a && lit_true rho b)).
Proof.
  intros Ha Hb. assert (wires G [a; b]) as Hw by auto with wires.
  apply (define_spec (fun y => [[negate a; negate b; y]; [a; negate y]; [b; negate y]]) _ [a; b] G Hw);
    [gate_scope|gate_local Hw|gate_truth].
Qed.

Lemma gate_or_spec G a b : wire G a -> wire G b ->
  computes (gate_or a b) G (fun y G' => reads G' y (fun rho => lit_true rho a || lit_true rho b)).
Proof.
  intros Ha Hb. assert (wires G [a; b]) as Hw by auto with wires.
  apply (define_spec (fun y => [[a; b; negate y]; [negate a; y]; [negate b; y]]) _ [a; b] G Hw);
    [gate_scope|gate_local Hw|gate_truth].
Qed.

Lemma gate_xor_spec G a b : wire G a -> wire G b ->
  computes (gate_xor a b) G (fun y G' => reads G' y (fun rho => xorb (lit_true rho a) (lit_true rho b))).
Proof.
  intros Ha Hb. assert (wires G [a; b]) as Hw by auto with wires.
  apply (define_spec (fun y => [[negate a; negate b; negate y]; [a; b; negate y]; [a; negate b; y]; [negate a; b; y]]) _ [a; b] G Hw);
    [gate_scope|gate_local Hw|gate_truth].
Qed.

Lemma gate_mux_spec G s a b : wire G s -> wire G a -> wire G b ->
  computes (gate_mux s a b) G
    (fun y G' => reads G' y (fun rho => if lit_true rho s then lit_true rho a else lit_true rho b)).
Proof.
  intros Hs Ha Hb. assert (wires G [s; a; b]) as Hw by auto with wires.
  apply (define_spec (fun y => [[negate s; negate a; y]; [negate s; a; negate y]; [s; negate b; y]; [s; b; negate y]]) _ [s; a; b] G Hw);
    [gate_scope|gate_local Hw|gate_truth].
Qed.

(** ** Vectors *)
Definition bits (rho : valuation) (ls : list Lit) : list bool := map (lit_true rho) ls.

(** A vector of [w] literals that reads as [f]. *)
Record reads_vec (G : Ctx) (w : nat) (ls : list Lit) (f : valuation -> list bool) : Prop := {
  rv_length : length ls = w;
  rv_wires : wires G ls;
  rv_bits : always G (fun rho => bits rho ls = f rho);
}.

Lemma reads_mono G G' y f : extends G G' -> reads G y f -> reads G' y f.
Proof. intros E [H1 H2]. split; [by eapply wire_mono|by eapply always_mono]. Qed.

Lemma reads_vec_mono G G' w ls f : extends G G' -> reads_vec G w ls f -> reads_vec G' w ls f.
Proof. intros E [H1 H2 H3]. split; [done|by eapply wires_mono|by eapply always_mono]. Qed.

(** Any binary gate, bit by bit. *)
Lemma gates_spec (gate : Lit -> Lit -> Gate S Lit) (g : valuation -> bool -> bool -> bool) G0 w a b G :
  (forall G x y, extends G0 G -> wire G x -> wire G y ->
    computes (gate x y) G (fun z G' => reads G' z (fun rho => g rho (lit_true rho x) (lit_true rho y)))) ->
  extends G0 G -> wires G a -> wires G b -> length a = w -> length b = w ->
  computes (mapM (fun '(x, y) => gate x y) (zip a b)) G
    (fun ys G' => reads_vec G' w ys (fun rho => zip_with (g rho) (bits rho a) (bits rho b))).
Proof.
  intros Hg. revert w b G; induction a as [|x a IH]; intros w [|y b] G X Ha Hb Hwa Hwb; cbn in Hwa, Hwb; subst w; try done.
  - apply computes_ret. split; [done|apply list.Forall_nil; done|by intros rho _].
  - apply list.Forall_cons in Ha as [Hx Ha]. apply list.Forall_cons in Hb as [Hy Hb]. cbn [zip_with mapM].
    eapply computes_bind; [by apply Hg|]. intros z G1 X1 [Hz1 Hz2].
    eapply computes_bind; [apply (IH (length a)); [by etransitivity|auto with wires|auto with wires|done|lia]|].
    intros ys G2 X2 [L W B]. apply computes_ret. split.
    + cbn. by rewrite L.
    + apply list.Forall_cons. split; [by eapply wire_mono|done].
    + intros rho Hr. specialize (B rho Hr). unfold bits in *. cbn [map zip_with]. rewrite B. f_equal. by apply Hz2, (ext_holds _ _ X2).
Qed.

Lemma mux_bits_spec G w s a b : wire G s -> wires G a -> wires G b -> length a = w -> length b = w ->
  computes (mux_bits s a b) G
    (fun ys G' => reads_vec G' w ys (fun rho => if lit_true rho s then bits rho a else bits rho b)).
Proof.
  intros Hs Ha Hb La Lb.
  eapply computes_weaken; [eapply (gates_spec _ (fun rho x y => if lit_true rho s then x else y) G w a b G)|].
  - intros G1 x y X Hx Hy. apply gate_mux_spec; [by eapply wire_mono|done..].
  - reflexivity.
  - done.
  - done.
  - done.
  - done.
  - intros ys G' X [L W B]. split; [done|done|]. intros rho Hr. rewrite (B rho Hr).
    assert (length (bits rho a) = length (bits rho b)) as E by (unfold bits; rewrite !length_map; congruence).
    generalize dependent (bits rho b). generalize (bits rho a). clear. intros l.
    induction l as [|x l IH]; intros [|y m] E; cbn in *; try done; destruct (lit_true rho s); try done;
      rewrite IH by lia; done.
Qed.

End triples.
