(* ===== verification/CircuitSpec.v ===== *)
(** * What the circuits compute: addition, negation, multiplication, comparison

    Each circuit is related to the operation of [Z] on the numbers its
    operand vectors read as, in every assignment of the clauses emitted. *)
From S2P Require Import Prelude Words ApInt ApIntSpec Lang SatSolver SatLits Bits Gates GateSpec.
#[local] Open Scope Z_scope.

Definition num (rho : valuation) (ls : list Lit) : Z := bval (bits rho ls).
Definition lit (rho : valuation) (l : Lit) : Z := Z.b2z (lit_true rho l).

(** A vector of [w] literals that reads as the number [f]. *)
Record number (G : Ctx) (w : nat) (ls : list Lit) (f : valuation -> Z) : Prop := {
  nm_length : length ls = w;
  nm_wires : wires G ls;
  nm_num : always G (fun rho => num rho ls = f rho);
}.

Lemma number_mono G G' w ls f : extends G G' -> number G w ls f -> number G' w ls f.
Proof. intros E [H1 H2 H3]. split; [done|by eapply wires_mono|by eapply always_mono]. Qed.

(** The constant true. *)
Record truth (G : Ctx) (one : Lit) : Prop := {
  truth_wire : wire G one;
  truth_lit : always G (fun rho => lit_true rho one = true);
}.

Lemma truth_mono G G' one : extends G G' -> truth G one -> truth G' one.
Proof. intros E [H1 H2]. split; [by eapply wire_mono|by eapply always_mono]. Qed.

(** Moves what is known of a context to its extension. *)
Ltac advance X :=
  match type of X with
  | extends ?G ?G' =>
    repeat match goal with
    | H : wire G _ |- _ => apply (wire_mono _ _ _ X) in H
    | H : wires G _ |- _ => apply (wires_mono _ _ _ X) in H
    | H : always G _ |- _ => apply (always_mono _ _ _ X) in H
    | H : reads G _ _ |- _ => apply (reads_mono _ _ _ _ X) in H
    | H : reads_vec G _ _ _ |- _ => apply (reads_vec_mono _ _ _ _ _ X) in H
    | H : number G _ _ _ |- _ => apply (number_mono _ _ _ _ _ X) in H
    | H : truth G _ |- _ => apply (truth_mono _ _ _ X) in H
    | H : extends ?A G |- _ => pose proof (extends_trans _ _ _ H X); clear H
    end
  end.

#[export] Hint Extern 1 (wire ?G ?l) =>
  match goal with H : reads G l _ |- _ => exact (proj1 H) end : wires.
#[export] Hint Resolve truth_wire nm_wires rv_wires : wires.

(** One step of a circuit. *)
Tactic Notation "gate" uconstr(lem) "as" simple_intropattern(y) simple_intropattern(P) :=
  eapply computes_bind; [eapply lem; try eassumption; eauto 4 with wires|];
  let G := fresh "G" in let X := fresh "X" in let K := fresh "K" in
  intros y G X K; cbv beta in K; advance X; clear X; revert K; intros P.

(** A fact of the context, at an assignment. *)
Ltac at_rho rho Hr :=
  repeat match goal with
  | H : always _ _ |- _ => specialize (H rho Hr); cbv beta in H
  | H : reads _ _ _ |- _ => destruct H as [? H]
  | H : reads_vec _ _ _ _ |- _ => destruct H as [? ? H]
  | H : number _ _ _ _ |- _ => destruct H as [? ? H]
  | H : truth _ _ |- _ => destruct H as [? H]
  end.

Lemma size_bits rho ls : size (bits rho ls) = size ls.
Proof. unfold size, bits. by rewrite length_map. Qed.

Lemma size_length {A} (l : list A) w : length l = w -> size l = Z.of_nat w.
Proof. by intros <-. Qed.

Lemma num_bound rho ls : 0 <= num rho ls < 2 ^ size ls.
Proof. rewrite <- (size_bits rho). apply bval_bound. Qed.

Lemma num_nil rho : num rho [] = 0.
Proof. done. Qed.
Lemma num_cons rho l ls : num rho (l :: ls) = lit rho l + 2 * num rho ls.
Proof. done. Qed.
Lemma num_app rho a b : num rho (a ++ b) = num rho a + 2 ^ size a * num rho b.
Proof. unfold num, bits. rewrite map_app, bval_app. fold (bits rho a). by rewrite size_bits. Qed.
Lemma num_invert rho ls : num rho (invert ls) = 2 ^ size ls - 1 - num rho ls.
Proof.
  unfold num, invert. rewrite <- (size_bits rho ls), <- bval_negb. f_equal. unfold bits. rewrite !map_map.
  apply map_ext. intros l. apply lit_true_negate.
Qed.
Lemma lit_negate rho l : lit rho (negate l) = 1 - lit rho l.
Proof. unfold lit. rewrite lit_true_negate. by destruct (lit_true rho l). Qed.
Lemma lit_bound rho l : 0 <= lit rho l <= 1.
Proof. unfold lit. destruct (lit_true rho l); cbn; lia. Qed.

Section circuits.
Context {S : Type} `{CnfLaws S} (one : Lit).

Lemma zero_wire G : truth G one -> wire G (zero one).
Proof. intros []. by apply wire_negate. Qed.
Lemma wires_replicate G l n : wire G l -> wires G (replicate n l).
Proof. intros Hl. induction n; [by apply list.Forall_nil|by apply list.Forall_cons]. Qed.
Lemma zeros_wires G n : truth G one -> wires G (zeros one n).
Proof. intros T. by apply wires_replicate, zero_wire. Qed.
Lemma length_zeros n : length (zeros one n) = n.
Proof. apply length_replicate. Qed.
Lemma zero_lit G : truth G one -> always G (fun rho => lit_true rho (zero one) = false).
Proof. intros [_ T] rho Hr. unfold zero. rewrite lit_true_negate, (T rho Hr). done. Qed.
Lemma bits_replicate rho l n : bits rho (replicate n l) = replicate n (lit_true rho l).
Proof. induction n; [done|]. cbn [replicate]. by rewrite <- IHn. Qed.
Lemma zeros_num G n : truth G one -> always G (fun rho => num rho (zeros one n) = 0).
Proof.
  intros T rho Hr. unfold num, zeros. rewrite bits_replicate, (zero_lit G T rho Hr), bval_replicate. done.
Qed.
Lemma invert_wires G ls : wires G ls -> wires G (invert ls).
Proof. apply wires_negate. Qed.
Lemma length_invert ls : length (invert ls) = length ls.
Proof. apply length_map. Qed.
Hint Resolve zero_wire zeros_wires invert_wires : wires.

(** ** The ripple-carry adder *)
Definition sum_post (w : nat) (a b : list Lit) (cin : Lit) (r : list Lit * Lit) (G : Ctx) : Prop :=
  length (fst r) = w /\ wires G (fst r) /\ wire G (snd r) /\
  always G (fun rho => num rho (fst r) + 2 ^ Z.of_nat w * lit rho (snd r) = num rho a + num rho b + lit rho cin).

Lemma full_adder (x y c : bool) :
  Z.b2z (xorb (xorb x y) c) + 2 * Z.b2z ((x && y) || (c && xorb x y)) = Z.b2z x + Z.b2z y + Z.b2z c.
Proof. by destruct x, y, c. Qed.

Lemma adder_go a b w sum carry G : wires G a -> wires G b -> wire G carry -> wires G sum ->
  length a = w -> length b = w ->
  computes (foldM (fun '(sum, carry) '(ai, bi) =>
    axb ← gate_xor ai bi;
    s ← gate_xor axb carry;
    ab ← gate_and ai bi;
    cx ← gate_and carry axb;
    carry ← gate_or ab cx;
    mret (sum ++ [s], carry)) (zip a b) (sum, carry)) G
    (fun r G' => exists t, fst r = sum ++ t /\ sum_post w a b carry (t, snd r) G').
Proof.
  revert b w sum carry G; induction a as [|x a IH]; intros [|y b] w sum carry G Ha Hb Hc Hs Hwa Hwb;
    cbn in Hwa, Hwb; subst w; try done; cbn [zip_with foldM].
  - apply computes_ret. exists []. rewrite app_nil_r. split; [done|]. split; [done|].
    split; [by apply list.Forall_nil|]. split; [done|]. intros rho _. cbn [fst snd]. rewrite num_nil. lia.
  - apply list.Forall_cons in Ha as [Hx Ha]. apply list.Forall_cons in Hb as [Hy Hb].
    fold (wires G a) in Ha. fold (wires G b) in Hb.
    eapply computes_bind with (K1 := fun r G' => exists s, fst r = sum ++ [s] /\ wire G' s /\ wire G' (snd r) /\
      always G' (fun rho => lit rho s + 2 * lit rho (snd r) = lit rho x + lit rho y + lit rho carry)).
    + gate gate_xor_spec as axb R1. gate gate_xor_spec as s R2. gate gate_and_spec as ab R3.
      gate gate_and_spec as cx R4. gate gate_or_spec as c R5. apply computes_ret. eexists. split; [done|]. cbn [snd]. split; [eauto with wires|]. split; [eauto with wires|].
      intros rho Hr. at_rho rho Hr. unfold lit. by rewrite R5, R4, R3, R2, R1, full_adder.
    + intros [s1 c1] G1 X (s & Es & Ws & Wc & Hv). cbn [fst snd] in *. advance X. clear X. subst s1.
      assert (wires G1 (sum ++ [s])) by (apply Forall_app; split; [done|auto with wires]).
      eapply computes_weaken; [apply (IH b (length a)); (done || lia)|].
      intros [s2 c2] G2 X (t & Et & Ht1 & Ht2 & Ht3 & Ht4). cbn [fst snd] in *. advance X.
      exists (s :: t). split; [by rewrite Et, <- app_assoc|]. split; [cbn; by rewrite Ht1|].
      split; [by apply list.Forall_cons|]. split; [done|]. intros rho Hr. at_rho rho Hr. cbn [fst snd] in *.
      rewrite !num_cons. rewrite Nat2Z.inj_succ, Z.pow_succ_r by lia. lia.
Qed.

Lemma adder_spec G w a b cin : wires G a -> wires G b -> wire G cin -> length a = w -> length b = w ->
  computes (adder a b cin) G (sum_post w a b cin).
Proof.
  intros Ha Hb Hc La Lb. unfold adder. eapply computes_weaken; [by apply (adder_go a b w); auto with wires|].
  intros [s c] G' X (t & E & Hp). cbn [fst snd] in *. by subst s.
Qed.

(** The result of an adder, as a number and as a carry. *)
Lemma sum_number w a b cin s c G : sum_post w a b cin (s, c) G ->
  number G w s (fun rho => (num rho a + num rho b + lit rho cin) mod 2 ^ Z.of_nat w).
Proof.
  intros (L & W & _ & Hv). cbn [fst snd] in *. split; [done|done|]. intros rho Hr. specialize (Hv rho Hr).
  cbv beta in Hv. rewrite <- Hv. pose proof (num_bound rho s) as B. rewrite (size_length _ _ L) in B.
  rewrite Z.mul_comm, Z.mod_add by lia. symmetry. by apply Z.mod_small.
Qed.

Lemma add_spec G w a b : truth G one -> wires G a -> wires G b -> length a = w -> length b = w ->
  computes (adder a b (zero one)) G
    (fun r G' => number G' w (fst r) (fun rho => (num rho a + num rho b) mod 2 ^ Z.of_nat w)).
Proof.
  intros T Ha Hb La Lb. eapply computes_weaken; [apply (adder_spec G w); auto with wires|].
  intros [s c] G' X Hp. advance X. destruct (sum_number _ _ _ _ _ _ _ Hp) as [L W V]. split; [done|done|].
  intros rho Hr. cbn [fst]. rewrite (V rho Hr). unfold lit. rewrite (zero_lit G' T rho Hr). cbn [Z.b2z]. by rewrite Z.add_0_r.
Qed.

(** ** Subtraction *)
Definition diff_post (w : nat) (a b : list Lit) (r : list Lit * Lit) (G : Ctx) : Prop :=
  number G w (fst r) (fun rho => (num rho a - num rho b) mod 2 ^ Z.of_nat w) /\
  reads G (snd r) (fun rho => num rho b <=? num rho a).

Lemma sub_carry_spec G w a b : truth G one -> wires G a -> wires G b -> length a = w -> length b = w ->
  computes (sub_carry one a b) G (diff_post w a b).
Proof.
  intros T Ha Hb La Lb. unfold sub_carry.
  eapply computes_weaken; [apply (adder_spec G w); eauto with wires; by rewrite length_invert|].
  intros [s c] G' X Hp. advance X.
  assert (always G' (fun rho => num rho a + num rho (invert b) + lit rho one = num rho a - num rho b + 2 ^ Z.of_nat w)) as E.
  { intros rho Hr. rewrite num_invert, (size_length _ _ Lb). unfold lit. rewrite (truth_lit _ _ T rho Hr). cbn [Z.b2z]. lia. }
  pose proof (sum_number _ _ _ _ _ _ _ Hp) as [L W V]. destruct Hp as (_ & _ & Wc & Hv). cbn [fst snd] in *. split.
  - split; [done|done|]. intros rho Hr. cbn [fst]. rewrite (V rho Hr), (E rho Hr). rewrite <- (Z.mul_1_l (2 ^ _)) at 1. apply Z.mod_add. lia.
  - split; [done|]. intros rho Hr. at_rho rho Hr. cbn [fst snd] in *.
    pose proof (num_bound rho s) as Bs. pose proof (num_bound rho a) as Ba. pose proof (num_bound rho b) as Bb.
    rewrite (size_length _ _ L) in Bs. rewrite (size_length _ _ La) in Ba. rewrite (size_length _ _ Lb) in Bb.
    rewrite E in Hv. unfold lit in Hv. destruct (lit_true rho c); cbn [Z.b2z] in Hv; destruct (Z.leb_spec (num rho b) (num rho a)); lia || done.
Qed.

Lemma subtract_spec G w a b : truth G one -> wires G a -> wires G b -> length a = w -> length b = w ->
  computes (subtract one a b) G (fun d G' => number G' w d (fun rho => (num rho a - num rho b) mod 2 ^ Z.of_nat w)).
Proof. intros T Ha Hb La Lb. unfold subtract. gate sub_carry_spec as [d c] [D _]. by apply computes_ret. Qed.

Lemma uge_spec G w a b : truth G one -> wires G a -> wires G b -> length a = w -> length b = w ->
  computes (uge one a b) G (fun y G' => reads G' y (fun rho => num rho b <=? num rho a)).
Proof. intros T Ha Hb La Lb. unfold uge. gate sub_carry_spec as [d c] [_ C]. by apply computes_ret. Qed.

Lemma neg_bits_spec G w a : truth G one -> wires G a -> length a = w ->
  computes (neg_bits one a) G (fun s G' => number G' w s (fun rho => (- num rho a) mod 2 ^ Z.of_nat w)).
Proof.
  intros T Ha La. unfold neg_bits.
  eapply computes_bind; [apply (adder_spec G w); eauto with wires; [by rewrite length_invert|by rewrite length_zeros]|].
  intros [s c] G' X Hp. advance X. apply computes_ret. destruct (sum_number _ _ _ _ _ _ _ Hp) as [L W V].
  split; [done|done|]. intros rho Hr. rewrite (V rho Hr), num_invert, (zeros_num G' _ T rho Hr), (size_length _ _ La).
  unfold lit. rewrite (truth_lit _ _ T rho Hr). cbn [Z.b2z].
  replace (2 ^ Z.of_nat w - 1 - num rho a + 0 + 1) with (- num rho a + 1 * 2 ^ Z.of_nat w) by lia. apply Z.mod_add. lia.
Qed.

(** ** Selection and bitwise gates, as numbers *)
Lemma mux_num_spec G w s a b : wire G s -> wires G a -> wires G b -> length a = w -> length b = w ->
  computes (mux_bits s a b) G (fun y G' => number G' w y (fun rho => if lit_true rho s then num rho a else num rho b)).
Proof.
  intros. eapply computes_weaken; [by apply (mux_bits_spec G w)|]. intros y G' X [L W B]. split; [done|done|].
  intros rho Hr. unfold num. rewrite (B rho Hr). by destruct (lit_true rho s).
Qed.

Lemma length_bits rho ls : length (bits rho ls) = length ls.
Proof. apply length_map. Qed.

Lemma bitwise_spec (gate : Lit -> Lit -> Gate S Lit) (g : bool -> bool -> bool) (f : Z -> Z -> Z) G w a b :
  (forall G x y, wire G x -> wire G y ->
    computes (gate x y) G (fun z G' => reads G' z (fun rho => g (lit_true rho x) (lit_true rho y)))) ->
  (forall x y, length x = length y -> bval (zip_with g x y) = f (bval x) (bval y)) ->
  wires G a -> wires G b -> length a = w -> length b = w ->
  computes (bitwise gate a b) G (fun y G' => number G' w y (fun rho => f (num rho a) (num rho b))).
Proof.
  intros Hg Hf Ha Hb La Lb. unfold bitwise.
  eapply computes_weaken; [apply (gates_spec gate (fun _ => g) G w a b G); auto; reflexivity|].
  intros y G' X [L W B]. split; [done|done|]. intros rho Hr. unfold num. rewrite (B rho Hr). apply Hf.
  rewrite !length_bits. congruence.
Qed.

Lemma eq_go f a b acc G : wires G a -> wires G b -> length a = length b -> reads G acc f ->
  computes (foldM (fun acc '(x, y) => xor ← gate_xor x y; gate_and acc (negate xor)) (zip a b) acc) G
    (fun y G' => reads G' y (fun rho => f rho && (num rho a =? num rho b))).
Proof.
  revert b acc f G; induction a as [|x a IH]; intros [|y b] acc f G Ha Hb L R; try done; cbn [zip_with foldM].
  - apply computes_ret. destruct R as [R1 R2]. split; [done|]. intros rho Hr. rewrite (R2 rho Hr). cbn. by rewrite andb_true_r.
  - apply list.Forall_cons in Ha as [Hx Ha]. apply list.Forall_cons in Hb as [Hy Hb].
    fold (wires G a) in Ha. fold (wires G b) in Hb.
    eapply computes_bind with (K1 := fun z G' => reads G' z (fun rho => f rho && Bool.eqb (lit_true rho x) (lit_true rho y))).
    + gate gate_xor_spec as z R1. eapply computes_weaken; [apply gate_and_spec; eauto with wires|].
      intros u G1 X [W R2]. advance X. split; [done|]. intros rho Hr. at_rho rho Hr.
      rewrite R2, lit_true_negate, R1, R. by destruct (f rho), (lit_true rho x), (lit_true rho y).
    + intros z G1 X R1. advance X. eapply computes_weaken; [apply IH; [done|done|cbn in L; lia|exact R1]|].
      intros u G2 X2 [W R2]. split; [done|]. intros rho Hr. rewrite (R2 rho Hr), !num_cons, <- andb_assoc. f_equal.
      unfold lit. destruct (lit_true rho x), (lit_true rho y); cbn [Bool.eqb andb Z.b2z]; lia.
Qed.

Lemma eq_bits_spec G a b : truth G one -> wires G a -> wires G b -> length a = length b ->
  computes (eq_bits one a b) G (fun y G' => reads G' y (fun rho => num rho a =? num rho b)).
Proof.
  intros [T1 T2] Ha Hb L. eapply computes_weaken; [by apply (eq_go (fun _ => true))|]. done.
Qed.

End circuits.

(** ** What the circuits compute: multiplication, division, signed comparison, shifts *)
Section circuits.
Context {S : Type} `{CnfLaws S} (one : Lit).
#[local] Hint Resolve zero_wire zeros_wires invert_wires : wires.

(** ** The shift-and-add multiplier *)
Lemma vset_middle {A} (d : list A) x y t : vset (d ++ x :: t) (length d) y = Some (d ++ y :: t).
Proof.
  rewrite vset_Some by (rewrite length_app; cbn; lia). f_equal. rewrite insert_app_r_alt by lia.
  by rewrite Nat.sub_diag.
Qed.

Lemma wires_lookup G ls i l : wires G ls -> ls !! i = Some l -> wire G l.
Proof. unfold wires. rewrite Forall_forall. intros Hw Hl. apply Hw, list_elem_of_In. by eapply list_elem_of_lookup_2. Qed.

Lemma wires_app G a b : wires G (a ++ b) <-> wires G a /\ wires G b.
Proof. apply Forall_app. Qed.

Lemma partial_go a i bi n j d G : truth G one -> wires G a -> wire G bi -> wires G d ->
  length d = (j + i)%nat -> (j + n <= length a)%nat ->
  computes (foldM (fun partial j =>
      aj ← pure (a !! j);
      y ← gate_and aj bi;
      pure (vset partial (j + i)%nat y)) (seq j n) (d ++ zeros one n)) G
    (fun r G' => number G' (j + i + n) r
      (fun rho => num rho d + 2 ^ Z.of_nat (j + i) * (lit rho bi * num rho (take n (drop j a))))).
Proof.
  revert j d G; induction n as [|n IH]; intros j d G T Ha Hb Hd Ld Hj; cbn [seq foldM].
  { apply computes_ret. rewrite app_nil_r. split; [lia|done|]. intros rho _. rewrite take_0, num_nil. lia. }
  destruct (lookup_lt_is_Some_2 a j) as [aj Ej]; [lia|].
  pose proof (wires_lookup G a j aj Ha Ej) as Haj.
  eapply computes_bind with (K1 := fun r G' => exists y, r = d ++ [y] ++ zeros one n /\
    reads G' y (fun rho => lit_true rho aj && lit_true rho bi)).
  - eapply computes_bind; [by eapply (computes_pure _ aj _ (fun x _ => x = aj))|]. intros x G1 X ->. advance X.
    gate gate_and_spec as y R. eapply computes_pure; [|by exists y]. rewrite <- Ld. apply vset_middle.
  - intros r G1 X (y & -> & R). advance X. rewrite app_assoc.
    eapply computes_weaken; [apply (IH (Datatypes.S j) (d ++ [y])); try done; try lia|].
    + apply wires_app. split; [done|]. destruct R. auto with wires.
    + rewrite length_app. cbn. lia.
    + intros r G2 X2 [L W V]. advance X2. split; [lia|done|]. intros rho Hr. rewrite (V rho Hr).
      rewrite (drop_S a aj j Ej). cbn [take]. rewrite num_cons, num_app, num_cons, num_nil, (size_length _ _ Ld).
      destruct R as [_ R]. specialize (R rho Hr). cbv beta in R. unfold lit. rewrite R.
      replace (Z.of_nat (Datatypes.S j + i)) with (Z.of_nat (j + i) + 1) by lia. rewrite Z.pow_add_r by lia.
      destruct (lit_true rho aj), (lit_true rho bi); cbn [andb Z.b2z]; lia.
Qed.

Lemma partial_product_spec a i bi G : truth G one -> wires G a -> wire G bi -> (i <= length a)%nat ->
  computes (partial_product one a i bi) G (fun r G' => number G' (length a) r
    (fun rho => (2 ^ Z.of_nat i * (lit rho bi * num rho a)) mod 2 ^ size a)).
Proof.
  intros T Ha Hb Hi. unfold partial_product. destruct (Nat.ltb_spec (length a) i) as [|_]; [lia|].
  assert (zeros one (length a) = zeros one i ++ zeros one (length a - i)) as ->.
  { unfold zeros. rewrite <- replicate_add. f_equal. lia. }
  eapply computes_weaken; [apply (partial_go a i bi (length a - i) 0); auto with wires|].
  - by rewrite length_zeros.
  - lia.
  - intros r G' X [L W V]. advance X. split; [lia|done|]. intros rho Hr. rewrite (V rho Hr).
    rewrite (zeros_num one G' i T rho Hr). change (drop 0 a) with a. cbn [Nat.add].
    assert (num rho (take (length a - i) a) = num rho a mod 2 ^ Z.of_nat (length a - i)) as ->.
    { unfold num, bits. by rewrite <- firstn_map, bval_take. }
    unfold size. replace (Z.of_nat (length a)) with (Z.of_nat i + Z.of_nat (length a - i)) by lia.
    rewrite Z.pow_add_r by lia. rewrite Z.mul_mod_distr_l by lia. unfold lit.
    destruct (lit_true rho bi); cbn [Z.b2z]; rewrite ?Z.mul_1_l, ?Z.mul_0_l, ?Z.mod_0_l by lia; lia.
Qed.

Lemma mul_go a b i acc f G : truth G one -> wires G a -> wires G b ->
  number G (length a) acc f -> (i + length b <= length a + 1)%nat ->
  computes (foldM (fun acc '(i, bi) =>
    partial ← partial_product one a i bi;
    '(acc, _) ← adder acc partial (zero one);
    mret acc) (zip (seq i (length b)) b) acc) G
    (fun r G' => number G' (length a) r
      (fun rho => (f rho + 2 ^ Z.of_nat i * (num rho a * num rho b)) mod 2 ^ size a)).
Proof.
  revert i acc f G; induction b as [|bi b IH]; intros i acc f G T Ha Hb N Hi; cbn [length seq zip_with foldM].
  - apply computes_ret. destruct N as [L W V]. split; [done|done|]. intros rho Hr.
    rewrite num_nil, !Z.mul_0_r, Z.add_0_r. rewrite <- (V rho Hr). symmetry. apply Z.mod_small.
    rewrite <- (size_length _ _ L) at 1. apply num_bound.
  - apply list.Forall_cons in Hb as [Hbi Hb]. fold (wires G b) in Hb. cbn [length] in Hi.
    eapply computes_bind with (K1 := fun r G' => number G' (length a) r
      (fun rho => (f rho + 2 ^ Z.of_nat i * (lit rho bi * num rho a)) mod 2 ^ size a)).
    + eapply computes_bind; [apply partial_product_spec; (done || lia)|]. intros p G1 X P. cbv beta in P. advance X.
      pose proof (nm_length _ _ _ _ N). pose proof (nm_length _ _ _ _ P).
      eapply computes_bind; [eapply (add_spec one G1 (length a)); eauto with wires|].
      intros [s c] G2 X2 R. cbv beta in R. advance X2. apply computes_ret. destruct R as [L W V]. split; [done|done|].
      intros rho Hr. cbn [fst] in V. rewrite (V rho Hr), (nm_num _ _ _ _ N rho Hr), (nm_num _ _ _ _ P rho Hr).
      apply Z.add_mod_idemp_r. unfold size. lia.
    + intros s G1 X R. advance X. eapply computes_weaken; [apply (IH (Datatypes.S i)); (done || lia)|].
      intros r G2 X2 [L W V]. split; [done|done|]. intros rho Hr. rewrite (V rho Hr).
      rewrite Z.add_mod_idemp_l by (unfold size; lia). f_equal. rewrite num_cons.
      replace (Z.of_nat (Datatypes.S i)) with (Z.of_nat i + 1) by lia. rewrite Z.pow_add_r by lia. lia.
Qed.

Lemma multiply_spec G w a b : truth G one -> wires G a -> wires G b -> length a = w -> length b = w ->
  computes (multiply one a b) G (fun r G' => number G' w r (fun rho => (num rho a * num rho b) mod 2 ^ Z.of_nat w)).
Proof.
  intros T Ha Hb La Lb. unfold multiply, enumerate.
  eapply computes_weaken; [apply (mul_go a b 0 _ (fun _ => 0)); try done|].
  - split; [by rewrite length_zeros|auto with wires|by apply zeros_num].
  - lia.
  - intros r G' X [L W V]. split; [lia|done|]. intros rho Hr. rewrite (V rho Hr), (size_length _ _ La).
    change (2 ^ Z.of_nat 0) with 1. f_equal. lia.
Qed.

(** ** Restoring division

    The circuit computes [quo] and [rmd] of [SmtOps]. *)
Lemma num_drop_S rho a i x : a !! i = Some x -> num rho (drop i a) = lit rho x + 2 * num rho (drop (Datatypes.S i) a).
Proof. intros E. by rewrite (drop_S a x i E), num_cons. Qed.

(** After the bits from [i] up: the state divides the dividend cut at [i]. *)
Definition div_state (a b : list Lit) (i : nat) (st : list Lit * list Lit) (G : Ctx) : Prop :=
  let w := length a in
  exists q, fst st = zeros one i ++ q /\
    number G (w - i) q (fun rho => quo (Z.of_nat (w - i)) (num rho (drop i a)) (num rho b)) /\
    number G (w + 1) (snd st) (fun rho => rmd (num rho (drop i a)) (num rho b)).

Lemma num_take rho n ls : num rho (take n ls) = num rho ls mod 2 ^ Z.of_nat n.
Proof. unfold num, bits. by rewrite <- firstn_map, bval_take. Qed.

Lemma udivrem_step_spec a b i st G : truth G one -> wires G a -> wires G b -> length b = length a ->
  (i < length a)%nat -> div_state a b (Datatypes.S i) st G ->
  computes (udivrem_step one a (b ++ [zero one]) st i) G (div_state a b i).
Proof.
  intros T Ha Hb Lb Hi (q & Eq & Nq & Nr). destruct st as [quot rem]. cbn [fst snd] in *. subst quot.
  unfold udivrem_step. pose proof (nm_length _ _ _ _ Nr) as Lr.
  destruct (Nat.ltb_spec (length rem) (length a + 1)) as [|_]; [lia|].
  destruct (lookup_lt_is_Some_2 a i Hi) as [ai Ei].
  eapply computes_bind; [by eapply (computes_pure _ ai _ (fun x _ => x = ai))|]. intros x G1 X ->. advance X. clear X.
  pose proof (wires_lookup G1 a i ai Ha Ei) as Hai. cbv zeta.
  set (rem1 := ai :: take (length a) rem).
  assert (number G1 (length a + 1) rem1 (fun rho => 2 * rmd (num rho (drop (Datatypes.S i) a)) (num rho b) + lit rho ai)) as N1.
  { destruct Nr as [_ Wr Vr]. split.
    - unfold rem1. cbn [length]. rewrite length_take. lia.
    - apply list.Forall_cons. split; [done|]. by apply Forall_take.
    - intros rho Hr. unfold rem1. rewrite num_cons, num_take, (Vr rho Hr), Z.mod_small; [lia|].
      apply rmd_bound.
      + pose proof (num_bound rho (drop (Datatypes.S i) a)) as Bd. split; [lia|].
        eapply Z.lt_le_trans; [apply Bd|]. apply Z.pow_le_mono_r; [lia|]. unfold size. rewrite length_drop. lia.
      + pose proof (num_bound rho b) as Bb. by rewrite (size_length _ _ Lb) in Bb. }
  assert (wires G1 (b ++ [zero one])) as Hbx by (apply wires_app; auto with wires).
  assert (always G1 (fun rho => num rho (b ++ [zero one]) = num rho b)) as Vbx.
  { intros rho Hr. rewrite num_app, num_cons, num_nil. unfold lit. rewrite (zero_lit one G1 T rho Hr). cbn [Z.b2z]. lia. }
  assert (length (b ++ [zero one]) = (length a + 1)%nat) as Lbx by (rewrite length_app, Lb; done).
  pose proof (nm_wires _ _ _ _ N1) as W1. pose proof (nm_length _ _ _ _ N1) as L1. clearbody rem1.
  eapply computes_bind; [apply (sub_carry_spec one G1 (length a + 1)); done|].
  intros [diff ge] G2 X [D Ge]. cbn [fst snd] in *. advance X. clear X.
  pose proof (nm_wires _ _ _ _ D) as Wd. pose proof (nm_length _ _ _ _ D) as Ld.
  eapply computes_bind; [apply (mux_num_spec G2 (length a + 1)); (done || apply Ge)|].
  intros rem2 G3 X N2. cbv beta in N2. advance X. clear X.
  assert (vset (zeros one (Datatypes.S i) ++ q) i ge = Some (zeros one i ++ ge :: q)) as Ev.
  { unfold zeros. rewrite replicate_S_end, <- app_assoc. cbn [app].
    pose proof (vset_middle (replicate i (zero one)) (zero one) ge q) as E. by rewrite length_replicate in E. }
  eapply computes_bind; [by eapply (computes_pure _ _ _ (fun x _ => x = zeros one i ++ ge :: q))|].
  intros quot G4 X ->. advance X. clear X. apply computes_ret. exists (ge :: q). split; [done|].
  assert (Hstep : forall rho, cholds G4 rho ->
    let r := 2 * rmd (num rho (drop (Datatypes.S i) a)) (num rho b) + lit rho ai in
    lit_true rho ge = (num rho b <=? r) /\ num rho rem2 = (if num rho b <=? r then r - num rho b else r)).
  { intros rho Hr r. destruct Ge as [_ Ge]. specialize (Ge rho Hr). cbv beta in Ge.
    rewrite (Vbx rho Hr), (nm_num _ _ _ _ N1 rho Hr) in Ge. fold r in Ge. split; [done|].
    rewrite (nm_num _ _ _ _ N2 rho Hr), Ge, (nm_num _ _ _ _ D rho Hr), (Vbx rho Hr), (nm_num _ _ _ _ N1 rho Hr). fold r.
    pose proof (num_bound rho rem1) as B1. rewrite (nm_num _ _ _ _ N1 rho Hr), (size_length _ _ L1) in B1. fold r in B1.
    destruct (Z.leb_spec (num rho b) r); [|done]. apply Z.mod_small. pose proof (num_bound rho b). lia. }
  split.
  - split; [cbn [length]; rewrite (nm_length _ _ _ _ Nq); lia|apply list.Forall_cons; split; [apply Ge|apply Nq]|].
    intros rho Hr. destruct (Hstep rho Hr) as [S1 _]. rewrite num_cons, (nm_num _ _ _ _ Nq rho Hr), (num_drop_S rho a i ai Ei).
    replace (Z.of_nat (length a - i)) with (Z.of_nat (length a - Datatypes.S i) + 1) by lia.
    unfold lit at 1. rewrite S1. rewrite (Z.add_comm (lit rho ai)).
    symmetry. apply div_step; [lia|apply num_bound|apply num_bound|apply lit_bound].
  - destruct N2 as [L2 W2 V2]. split; [done|done|]. intros rho Hr. destruct (Hstep rho Hr) as [_ S2].
    cbn [snd]. rewrite S2, (num_drop_S rho a i ai Ei). rewrite (Z.add_comm (lit rho ai) (2 * _)).
    symmetry. apply (div_step 0); [lia|apply num_bound|apply num_bound|apply lit_bound].
Qed.

Definition div_post (w : nat) (a b : list Lit) (r : list Lit * list Lit) (G : Ctx) : Prop :=
  number G w (fst r) (fun rho => quo (Z.of_nat w) (num rho a) (num rho b)) /\
  number G w (snd r) (fun rho => rmd (num rho a) (num rho b)).

Lemma udivrem_go a b i st G : truth G one -> wires G a -> wires G b -> length b = length a ->
  (i <= length a)%nat -> div_state a b i st G ->
  computes (foldM (udivrem_step one a (b ++ [zero one])) (rev (seq 0 i)) st) G (div_state a b 0).
Proof.
  revert st G; induction i as [|i IH]; intros st G T Ha Hb Lb Hi Hst; [by apply computes_ret|].
  rewrite seq_S, rev_app_distr. cbn [rev app foldM Nat.add].
  eapply computes_bind; [by apply udivrem_step_spec|]. intros st' G1 X Hst'. advance X. apply IH; (done || lia).
Qed.

Lemma udivrem_spec G w a b : truth G one -> wires G a -> wires G b -> length a = w -> length b = w ->
  computes (udivrem one a b) G (div_post w a b).
Proof.
  intros T Ha Hb La Lb. unfold udivrem. rewrite La.
  eapply computes_bind; [rewrite <- La; apply (udivrem_go a b (length a)); try done; try lia|].
  - exists []. rewrite app_nil_r. split; [by rewrite La|]. split.
    + split; [cbn; lia|by apply list.Forall_nil|]. intros rho Hr. rewrite num_nil, drop_ge, num_nil, Nat.sub_diag by lia.
      unfold quo. by destruct (num rho b =? 0).
    + split; [apply length_zeros|by apply zeros_wires|]. intros rho Hr. cbn [snd].
      rewrite (zeros_num one G _ T rho Hr), drop_ge, num_nil by lia. unfold rmd. by destruct (num rho b =? 0).
  - intros [quot rem] G1 X (q & E & Nq & Nr). cbn [fst snd drop app zeros replicate] in *. subst quot. advance X.
    change (zeros one 0 ++ q) with q. rewrite La, Nat.sub_0_r in Nq. apply computes_ret. split; [exact Nq|].
    destruct Nr as [L W V]. split; [cbn [snd]; rewrite length_take; lia|by apply Forall_take|].
    intros rho Hr. cbn [snd]. rewrite num_take, (V rho Hr). apply Z.mod_small, rmd_bound.
    + rewrite <- (size_length _ _ La). apply num_bound.
    + rewrite <- (size_length _ _ Lb). apply num_bound.
Qed.

End circuits.
