(* ===== verification/CircuitWord.v ===== *)
(** * The word-level circuits against the operators of SMT-LIB: division,
    comparison, shifts *)
From S2P Require Import Prelude Words ApInt ApIntSpec Lang LangSpec SatSolver SatLits Dag Bits Gates FloatCircuits Bitblast.
From S2P Require Import GateSpec CircuitSpec.
#[local] Open Scope Z_scope.

Section circuits.
Context {S : Type} `{CnfLaws S} (one : Lit).
#[local] Hint Resolve zero_wire zeros_wires invert_wires : wires.

Lemma num_range w rho a : length a = w -> 0 <= num rho a < 2 ^ Z.of_nat w.
Proof. intros <-. apply num_bound. Qed.

(** ** The sign bit *)
Lemma last_bit_spec G w a : wires G a -> length a = w -> (0 < w)%nat ->
  exists s, last_bit a = Some s /\ wire G s /\ forall rho, lit_true rho s = neg_bit (Z.of_nat w) (num rho a).
Proof.
  intros Ha La Hw. destruct (snoc_cases a) as [->|(a' & s & ->)]; [cbn in La; lia|].
  exists s. unfold last_bit. rewrite last_snoc. split; [done|]. apply wires_app in Ha as [Ha Hs].
  split; [by apply list.Forall_cons in Hs as [Hs _]|]. intros rho.
  rewrite length_app in La. cbn in La. rewrite num_app, num_cons, num_nil. unfold neg_bit.
  replace (Z.of_nat w - 1) with (size a') by (unfold size; lia). pose proof (num_bound rho a').
  unfold lit. destruct (lit_true rho s); cbn [Z.b2z]; symmetry; [apply Z.leb_le|apply Z.leb_gt]; lia.
Qed.

(** ** Division *)
Definition div_kind (signed want_quotient : bool) : SymKind.t :=
  match signed, want_quotient with
  | false, true => SymKind.UDiv
  | false, false => SymKind.URem
  | true, true => SymKind.Div
  | true, false => SymKind.SRem
  end.

Lemma number_ext G w ls f g : number G w ls f -> (forall rho, cholds G rho -> f rho = g rho) -> number G w ls g.
Proof. intros [L W V] E. split; [done|done|]. intros rho Hr. by rewrite (V rho Hr), E. Qed.

Lemma mag_bits_spec G w a s : truth G one -> wires G a -> length a = w -> wire G s ->
  (forall rho, lit_true rho s = neg_bit (Z.of_nat w) (num rho a)) ->
  computes (neg ← neg_bits one a; mux_bits s neg a) G (fun m G' => number G' w m (fun rho => mag (Z.of_nat w) (num rho a))).
Proof.
  intros T Ha La Hs Es. eapply computes_bind; [by apply (neg_bits_spec one G w)|]. intros n G1 X N. cbv beta in N. advance X. clear X.
  destruct N as [Ln Wn Vn].
  eapply computes_weaken; [by apply (mux_num_spec G1 w)|]. intros m G2 X M. advance X. eapply number_ext; [exact M|].
  intros rho Hr. cbv beta. rewrite Es. unfold mag. by rewrite (Vn rho Hr).
Qed.

(** The value or its negation, by a bit. *)
Lemma signed_result_spec G w s v f g : truth G one -> reads G s g -> number G w v f ->
  computes (n ← neg_bits one v; mux_bits s n v) G
    (fun r G' => number G' w r (fun rho => if g rho then (- f rho) mod 2 ^ Z.of_nat w else f rho)).
Proof.
  intros T Rs Nv. pose proof (nm_length _ _ _ _ Nv) as Lv. pose proof (nm_wires _ _ _ _ Nv) as Wv.
  eapply computes_bind; [by apply (neg_bits_spec one G w)|]. intros n G1 X N. cbv beta in N. advance X. clear X.
  pose proof (nm_length _ _ _ _ N) as Ln. pose proof (nm_wires _ _ _ _ N) as Wn.
  eapply computes_weaken; [apply (mux_num_spec G1 w); (done || apply Rs)|]. intros r G2 X M. advance X.
  eapply number_ext; [exact M|]. intros rho Hr. cbv beta. destruct Rs as [_ Rs].
  rewrite (Rs rho Hr), (nm_num _ _ _ _ N rho Hr), (nm_num _ _ _ _ Nv rho Hr). done.
Qed.

Lemma bind_assoc {A B C} (m : Gate S A) (f : A -> Gate S B) (g : B -> Gate S C) s :
  (m ≫= fun x => f x ≫= g) s = ((m ≫= f) ≫= g) s.
Proof. unfold mbind, gate_bind. by destruct (m s) as [[]|]. Qed.

Lemma computes_eq {A} (m m' : Gate S A) G (K : A -> Ctx -> Prop) : (forall s, m s = m' s) -> computes m' G K -> computes m G K.
Proof. intros E Hm s Hs Hl. destruct (Hm s Hs Hl) as (a & s' & G' & E' & Hrest). exists a, s', G'. by rewrite E. Qed.

Lemma divrem_spec signed want G w a b : truth G one -> wires G a -> wires G b -> length a = w -> length b = w -> (0 < w)%nat ->
  computes (divrem one signed want a b) G (fun r G' => number G' w r
    (fun rho => smt_op (div_kind signed want) (Z.of_nat w) (num rho a) (num rho b))).
Proof.
  intros T Ha Hb La Lb Hw. unfold divrem. destruct signed; cbn [negb].
  2:{ eapply computes_bind; [by apply (udivrem_spec one G w)|]. intros [q r] G1 X [Nq Nr]. cbn [fst snd] in *.
      apply computes_ret. destruct want; eapply number_ext; [exact Nq| |exact Nr|]; intros rho Hr; cbv beta; symmetry;
        [apply smt_udiv|apply smt_urem]; by apply num_range. }
  destruct (last_bit_spec G w a Ha La Hw) as (sa & Ea & Wa & Va).
  destruct (last_bit_spec G w b Hb Lb Hw) as (sb & Eb & Wb & Vb).
  eapply computes_bind; [by eapply (computes_pure _ sa _ (fun x _ => x = sa))|]. intros x G1 X ->. advance X. clear X.
  eapply computes_bind; [by eapply (computes_pure _ sb _ (fun x _ => x = sb))|]. intros x G2 X ->. advance X. clear X.
  eapply computes_bind; [by apply (neg_bits_spec one G2 w)|]. intros na G3 X Na. cbv beta in Na. advance X. clear X.
  eapply computes_bind; [by apply (neg_bits_spec one G3 w)|]. intros nb G4 X Nb. cbv beta in Nb. advance X. clear X.
  eapply computes_bind; [apply (mux_num_spec G4 w); eauto with wires; apply Na|].
  intros ma G5 X Ma. cbv beta in Ma. advance X. clear X.
  eapply computes_bind; [apply (mux_num_spec G5 w); eauto with wires; apply Nb|].
  intros mb G6 X Mb. cbv beta in Mb. advance X. clear X.
  pose proof (nm_length _ _ _ _ Ma) as Lma. pose proof (nm_length _ _ _ _ Mb) as Lmb.
  assert (always G6 (fun rho => num rho ma = mag (Z.of_nat w) (num rho a))) as Vma.
  { intros rho Hr. rewrite (nm_num _ _ _ _ Ma rho Hr), Va, (nm_num _ _ _ _ Na rho Hr). done. }
  assert (always G6 (fun rho => num rho mb = mag (Z.of_nat w) (num rho b))) as Vmb.
  { intros rho Hr. rewrite (nm_num _ _ _ _ Mb rho Hr), Vb, (nm_num _ _ _ _ Nb rho Hr). done. }
  apply nm_wires in Ma, Mb. clear Na Nb.
  eapply computes_bind; [by apply (udivrem_spec one G6 w)|]. intros [q r] G7 X [Nq Nr]. cbn [fst snd] in *. advance X. clear X.
  assert (forall rho, 0 <= num rho a < 2 ^ Z.of_nat w) as Ra by (intros; by apply num_range).
  assert (forall rho, 0 <= num rho b < 2 ^ Z.of_nat w) as Rb by (intros; by apply num_range).
  destruct want; cbn [div_kind].
  - gate gate_xor_spec as rs Rs.
    eapply computes_weaken; [by eapply (signed_result_spec _ w)|]. intros y G8 X M. advance X. eapply number_ext; [exact M|].
    intros rho Hr. cbv beta. rewrite smt_sdiv, (Vma rho Hr), (Vmb rho Hr), Va, Vb by (done || lia). done.
  - eapply computes_weaken; [eapply (signed_result_spec _ w); [done|split; [exact Wa|by intros rho _]|exact Nr]|].
    intros y G8 X M. advance X. eapply number_ext; [exact M|].
    intros rho Hr. cbv beta. rewrite smt_srem, (Vma rho Hr), (Vmb rho Hr), Va by (done || lia). done.
Qed.

(** ** Comparisons *)
Lemma flip_spec G w a : wires G a -> length a = w -> (0 < w)%nat ->
  exists fa, flip a = Some fa /\ length fa = w /\ wires G fa /\
    forall rho, num rho fa = sign_of (Z.of_nat w) (num rho a) + 2 ^ (Z.of_nat w - 1).
Proof.
  intros Ha La Hw. destruct (snoc_cases a) as [->|(a' & s & ->)]; [cbn in La; lia|].
  apply wires_app in Ha as [Ha Hs]. apply list.Forall_cons in Hs as [Hs _].
  rewrite length_app in La. cbn [length] in La. exists (a' ++ [negate s]). unfold flip. rewrite length_app. cbn [length].
  rewrite Nat.add_1_r, list_lookup_middle by done. cbn [mbind option_bind]. rewrite vset_middle. split; [done|].
  split; [rewrite length_app; done|]. split; [apply wires_app; split; [done|auto with wires]|].
  intros rho. rewrite sign_of_neg_bit. rewrite !num_app, !num_cons, num_nil, lit_negate. unfold neg_bit.
  replace (Z.of_nat w - 1) with (size a') by (unfold size; lia). replace (Z.of_nat w) with (size a' + 1) by (unfold size; lia).
  rewrite Z.pow_add_r by auto with lia. change (2 ^ 1) with 2.
  pose proof (num_bound rho a'). pose proof (lit_bound rho s).
  assert (lit rho s = 0 \/ lit rho s = 1) as [-> | ->] by lia.
  - destruct (Z.leb_spec (2 ^ size a') (num rho a' + 2 ^ size a' * (0 + 2 * 0))); lia.
  - destruct (Z.leb_spec (2 ^ size a') (num rho a' + 2 ^ size a' * (1 + 2 * 0))); lia.
Qed.

Definition is_compare (k : SymKind.t) : bool :=
  match k with
  | SymKind.ULt | SymKind.ULe | SymKind.UGt | SymKind.UGe
  | SymKind.Lt | SymKind.Le | SymKind.Gt | SymKind.Ge => true
  | _ => false
  end.

Lemma number_bit G y f : reads G y f -> number G 1 [y] (fun rho => Z.b2z (f rho)).
Proof.
  intros [W V]. split; [done|auto with wires|]. intros rho Hr. rewrite num_cons, num_nil. unfold lit. rewrite (V rho Hr). lia.
Qed.

Lemma smt_bool k w x y b : bv_op k w x y = Some (Z.b2z b) -> op_width k w = 1 -> smt_op k w x y = Z.b2z b.
Proof. intros E1 E2. rewrite (smt_op_bv_op _ _ _ _ _ E1), E2. by destruct b. Qed.

Lemma compare_spec k G w a b : is_compare k = true -> truth G one -> wires G a -> wires G b ->
  length a = w -> length b = w -> (0 < w)%nat ->
  computes (compare one k a b) G (fun r G' => number G' 1 r
    (fun rho => smt_op k (Z.of_nat w) (num rho a) (num rho b))).
Proof.
  intros Hk T Ha Hb La Lb Hw. unfold compare.
  destruct (flip_spec G w a Ha La Hw) as (fa & Ea & Lfa & Wfa & Vfa).
  destruct (flip_spec G w b Hb Lb Hw) as (fb & Eb & Lfb & Wfb & Vfb).
  eapply computes_bind with (K1 := fun y G' => reads G' y (fun rho =>
    negb (smt_op k (Z.of_nat w) (num rho a) (num rho b) =? 0))).
  2:{ intros y G1 X R. apply computes_ret. eapply number_ext; [by apply number_bit|]. intros rho Hr. cbv beta.
      destruct k; try discriminate Hk; (erewrite smt_bool by reflexivity); by destruct (_ <=? _) || destruct (_ <? _). }
  assert (forall u v f G', wires G' u -> wires G' v -> truth G' one -> length u = w -> length v = w ->
    (forall rho, f rho = (num rho v <=? num rho u)) -> computes (uge one u v) G' (fun y G' => reads G' y f)) as Huge.
  { intros u v f G' Wu Wv T' Lu Lv Hf. eapply computes_weaken; [by apply (uge_spec one G' w)|].
    intros y G2 X [R1 R2]. split; [done|]. intros rho Hr. by rewrite (R2 rho Hr). }
  assert (forall u v f G', wires G' u -> wires G' v -> truth G' one -> length u = w -> length v = w ->
    (forall rho, f rho = negb (num rho v <=? num rho u)) ->
    computes (y ← uge one u v; mret (negate y)) G' (fun y G' => reads G' y f)) as Hnuge.
  { intros u v f G' Wu Wv T' Lu Lv Hf. eapply computes_bind; [by apply (uge_spec one G' w)|].
    intros y G2 X [R1 R2]. apply computes_ret. split; [auto with wires|]. intros rho Hr.
    by rewrite lit_true_negate, (R2 rho Hr), Hf. }
  destruct k; try discriminate Hk;
    repeat (match goal with
      | |- computes (pure (flip a) ≫= _) _ _ =>
        eapply computes_bind; [by eapply (computes_pure _ fa _ (fun x _ => x = fa))|]
      | |- computes (pure (flip b) ≫= _) _ _ =>
        eapply computes_bind; [by eapply (computes_pure _ fb _ (fun x _ => x = fb))|]
      end; let X := fresh in intros ? ? X ->; advance X; clear X);
    first [apply Hnuge|apply Huge]; try done; intros rho;
    (erewrite smt_bool by reflexivity); rewrite ?Vfa, ?Vfb;
    generalize (sign_of (Z.of_nat w) (num rho a)) (sign_of (Z.of_nat w) (num rho b)); intros sa sb;
    repeat match goal with
    | |- context [?u <=? ?v] => destruct (Z.leb_spec u v)
    | |- context [?u <? ?v] => destruct (Z.ltb_spec u v)
    end; cbn; lia || done.
Qed.

(** ** Shifts *)
Lemma stages_loop_enough fuel s w : (w <= fuel + 2 ^ s)%nat -> (w <= 2 ^ stages_loop fuel s w)%nat.
Proof.
  revert s; induction fuel as [|fuel IH]; intros s Hw; cbn [stages_loop]; [lia|].
  destruct (Nat.ltb_spec (2 ^ s) w) as [Hlt|]; [|done]. apply IH. cbn [Nat.pow]. pose proof (Nat.pow_nonzero 2 s). lia.
Qed.

Lemma stage_count_enough w : (w <= 2 ^ stage_count w)%nat.
Proof. apply stages_loop_enough. lia. Qed.

Lemma stages_loop_le fuel s w : (stages_loop fuel s w <= fuel + s)%nat.
Proof.
  revert s; induction fuel as [|fuel IH]; intros s; cbn [stages_loop]; [done|].
  destruct (2 ^ s <? w)%nat; [|lia]. specialize (IH (Datatypes.S s)). lia.
Qed.

Lemma stage_count_le w : (stage_count w <= w)%nat.
Proof. pose proof (stages_loop_le w 0 w). unfold stage_count. lia. Qed.

Lemma length_shift_const {A} (l : list A) n k f : length (shift_const l n k f) = length l.
Proof. unfold shift_const. by rewrite length_map, length_seq. Qed.

Lemma shift_const_lookup {A} (l : list A) n k f p : (p < length l)%nat ->
  shift_const l n k f !! p = Some (match k with
    | ShLeft => if (n <=? p)%nat then default f (l !! (p - n)%nat) else f
    | _ => if (p + n <? length l)%nat then default f (l !! (p + n)%nat) else f
    end).
Proof.
  intros Hp. unfold shift_const. rewrite list_lookup_fmap, lookup_seq_lt by done. cbn [fmap option_fmap option_map Nat.add].
  by destruct k.
Qed.

Lemma bits_shift_const rho (ls : list Lit) n k f :
  bits rho (shift_const ls n k f) = shift_const (bits rho ls) n k (lit_true rho f).
Proof.
  unfold bits, shift_const. rewrite map_map, length_map. apply map_ext. intros p.
  destruct k; [destruct (n <=? p)%nat|destruct (p + n <? _)%nat..]; try done; rewrite list_lookup_fmap;
    by destruct (ls !! _).
Qed.

Lemma shift_const_shift {A} (l : list A) a b k f : shift_const (shift_const l a k f) b k f = shift_const l (a + b) k f.
Proof.
  apply list_eq. intros p. destruct (Nat.lt_ge_cases p (length l)) as [Hp|Hp].
  2:{ rewrite !lookup_ge_None_2; rewrite ?length_shift_const; done. }
  rewrite (shift_const_lookup (shift_const l a k f)) by (by rewrite length_shift_const).
  rewrite (shift_const_lookup l (a + b)), length_shift_const by done. f_equal.
  destruct k.
  1: destruct (Nat.leb_spec b p); [rewrite shift_const_lookup by lia|]; cbn [from_option];
      destruct (Nat.leb_spec (a + b) p); try destruct (Nat.leb_spec a (p - b)); try (lia || done);
      replace (p - b - a)%nat with (p - (a + b))%nat by lia; done.
  all: destruct (Nat.ltb_spec (p + b) (length l)); [rewrite shift_const_lookup by lia|]; cbn [from_option];
      destruct (Nat.ltb_spec (p + (a + b)) (length l)); try destruct (Nat.ltb_spec (p + b + a) (length l)); try (lia || done);
      replace (p + b + a)%nat with (p + (a + b))%nat by lia; done.
Qed.

Lemma shift_const_0 {A} (l : list A) k f : shift_const l 0 k f = l.
Proof.
  apply list_eq. intros p. destruct (Nat.lt_ge_cases p (length l)) as [Hp|Hp].
  2:{ rewrite !lookup_ge_None_2; rewrite ?length_shift_const; done. }
  rewrite shift_const_lookup by done. destruct (lookup_lt_is_Some_2 l p Hp) as [x Hx].
  rewrite Nat.sub_0_r, Nat.add_0_r, Hx. cbn [from_option]. destruct k; [done|destruct (Nat.ltb_spec p (length l)); (done || lia)..].
Qed.

Lemma shift_const_past {A} (l : list A) n k f : (length l <= n)%nat -> shift_const l n k f = replicate (length l) f.
Proof.
  intros Hn. apply list_eq. intros p. destruct (Nat.lt_ge_cases p (length l)) as [Hp|Hp].
  2:{ rewrite !lookup_ge_None_2; rewrite ?length_shift_const, ?length_replicate; done. }
  rewrite shift_const_lookup, lookup_replicate_2 by done.
  destruct k; [destruct (Nat.leb_spec n p)|destruct (Nat.ltb_spec (p + n) (length l))..]; (done || lia).
Qed.

Lemma shift_left_value (l : list bool) n : bval (shift_const l n ShLeft false) = (bval l * 2 ^ Z.of_nat n) mod 2 ^ size l.
Proof.
  assert (shift_const l n ShLeft false = take (length l) (replicate n false ++ l)) as ->.
  { apply list_eq. intros p. destruct (Nat.lt_ge_cases p (length l)) as [Hp|Hp].
    2:{ rewrite lookup_ge_None_2 by (by rewrite length_shift_const). symmetry. apply lookup_take_ge. lia. }
    rewrite shift_const_lookup, lookup_take_lt by done. destruct (Nat.leb_spec n p).
    - rewrite lookup_app_r by (rewrite length_replicate; lia). rewrite length_replicate.
      destruct (lookup_lt_is_Some_2 l (p - n)) as [x ->]; [lia|done].
    - rewrite lookup_app_l by (rewrite length_replicate; lia). by rewrite lookup_replicate_2. }
  rewrite bval_take, bval_app, bval_replicate. unfold size. rewrite length_replicate. f_equal. lia.
Qed.

Lemma shift_right_value (l : list bool) n k f : k <> ShLeft ->
  bval (shift_const l n k f) = bval l / 2 ^ Z.of_nat n + (if f then 2 ^ size l - 2 ^ (size l - Z.min (Z.of_nat n) (size l)) else 0).
Proof.
  intros Hk. set (m := Nat.min n (length l)).
  assert (shift_const l n k f = drop n l ++ replicate m f) as ->.
  { apply list_eq. intros p. destruct (Nat.lt_ge_cases p (length l)) as [Hp|Hp].
    2:{ rewrite !lookup_ge_None_2; rewrite ?length_shift_const, ?length_app, ?length_drop, ?length_replicate; lia || done. }
    rewrite shift_const_lookup by done. destruct (Nat.ltb_spec (p + n) (length l)).
    - rewrite lookup_app_l, lookup_drop by (rewrite length_drop; lia). rewrite (Nat.add_comm n p).
      destruct (lookup_lt_is_Some_2 l (p + n)) as [x ->]; [lia|by destruct k].
    - rewrite lookup_app_r by (rewrite length_drop; lia). rewrite length_drop, lookup_replicate_2 by lia. by destruct k. }
  rewrite bval_app, bval_replicate, bval_drop. f_equal. unfold size at 1. rewrite length_drop.
  destruct f; [|lia]. unfold size. rewrite Z.mul_sub_distr_l, Z.mul_1_r, <- Z.pow_add_r by lia.
  f_equal; f_equal; lia.
Qed.

Definition shift_kind (k : Shift) : SymKind.t :=
  match k with
  | ShLeft => SymKind.ShiftLeft
  | ShLogical => SymKind.ShiftRightLogic
  | ShArithmetic => SymKind.ShiftRightArithmetic
  end.

Lemma shift_value (l : list bool) k n : 0 <= n -> (0 < length l)%nat ->
  bval (shift_const l (Z.to_nat n) k (match k with ShArithmetic => neg_bit (size l) (bval l) | _ => false end)) =
  smt_op (shift_kind k) (size l) (bval l) n.
Proof.
  intros Hn Hl. assert (0 < size l) as Hs by (unfold size; lia). pose proof (bval_bound l) as B.
  assert (forall m, 0 <= m -> 0 <= bval l / 2 ^ m <= bval l) as D.
  { intros m Hm. split; [apply Z.div_pos; lia|]. apply Z.div_le_upper_bound; nia. }
  destruct k; unfold smt_op, shift_kind, bv_op; cbn [op_width].
  - rewrite shift_left_value, Z2Nat.id by done. done.
  - rewrite shift_right_value, Z2Nat.id, Z.add_0_r by done. rewrite Z.shiftr_div_pow2 by done.
    symmetry. apply Z.mod_small. specialize (D n Hn). lia.
  - rewrite shift_right_value, Z2Nat.id by done. rewrite Z.shiftr_div_pow2, sign_of_neg_bit by done.
    destruct (neg_bit (size l) (bval l)) eqn:N.
    2:{ rewrite Z.add_0_r. symmetry. apply Z.mod_small. specialize (D n Hn). lia. }
    specialize (D n Hn). destruct (Z.le_gt_cases (size l) n) as [Hge|Hlt].
    + rewrite Z.min_r, Z.sub_diag by lia. change (2 ^ 0) with 1.
      assert (2 ^ size l <= 2 ^ n) as P by (apply Z.pow_le_mono_r; lia).
      rewrite (Z.div_small (bval l)) by lia.
      assert ((bval l - 2 ^ size l) / 2 ^ n = -1) as ->.
      { symmetry. apply (Z.div_unique_pos _ _ _ (bval l - 2 ^ size l + 2 ^ n)); lia. }
      apply Z.mod_unique_pos with (-1); lia.
    + rewrite Z.min_l by lia.
      replace (2 ^ size l) with (2 ^ (size l - n) * 2 ^ n) at 2 by (rewrite <- Z.pow_add_r by lia; f_equal; lia).
      rewrite <- (Z.add_opp_r (bval l)), <- Z.mul_opp_l, Z.div_add by lia.
      assert (2 ^ (size l - n) <= 2 ^ size l) by (apply Z.pow_le_mono_r; lia).
      assert (bval l / 2 ^ n < 2 ^ (size l - n)).
      { apply Z.div_lt_upper_bound; [lia|]. rewrite <- Z.pow_add_r by lia. replace (n + (size l - n)) with (size l) by lia. lia. }
      apply Z.mod_unique_pos with (-1); lia.
Qed.

Lemma num_app_drop rho n ls : num rho ls = num rho (take n ls) + 2 ^ size (take n ls) * num rho (drop n ls).
Proof. by rewrite <- num_app, take_drop. Qed.

(** The stages shift by the low part of the amount. *)
Lemma stages_go k fill (a : list Lit) am i cur (n0 : valuation -> Z) G : wires G a -> wires G am -> wire G fill -> wires G cur ->
  length cur = length a -> (forall rho, 0 <= n0 rho) ->
  always G (fun rho => bits rho cur = shift_const (bits rho a) (Z.to_nat (n0 rho)) k (lit_true rho fill)) ->
  computes (foldM (fun cur '(k', amount_bit) =>
    mux_bits amount_bit (shift_const cur (2 ^ k')%nat k fill) cur) (zip (seq i (length am)) am) cur) G
    (fun r G' => reads_vec G' (length a) r (fun rho =>
      shift_const (bits rho a) (Z.to_nat (n0 rho + 2 ^ Z.of_nat i * num rho am)) k (lit_true rho fill))).
Proof.
  revert i cur n0 G; induction am as [|x am IH]; intros i cur n0 G Ha Ham Hf Hc Lc Hn Hv; cbn [length seq zip_with foldM].
  { apply computes_ret. split; [done|done|]. intros rho Hr. rewrite (Hv rho Hr), num_nil. do 2 f_equal. lia. }
  apply list.Forall_cons in Ham as [Hx Ham]. fold (wires G am) in Ham.
  assert (wires G (shift_const cur (2 ^ i)%nat k fill)) as Hs.
  { unfold wires, shift_const. apply Forall_map, Forall_forall. intros p _. unfold wires in Hc.
    rewrite Forall_forall in Hc. destruct k;
      [destruct (_ <=? _)%nat|destruct (_ <? _)%nat..]; try done;
      (destruct (cur !! _) eqn:E; [cbn; by apply Hc, list_elem_of_In, (list_elem_of_lookup_2 _ _ _ E)|done]). }
  eapply computes_bind; [apply (mux_bits_spec G (length a)); try done; by rewrite length_shift_const|].
  intros cur' G1 X [L W B]. advance X. clear X.
  eapply computes_weaken; [apply (IH (Datatypes.S i) cur' (fun rho => n0 rho + 2 ^ Z.of_nat i * lit rho x)); try done|].
  - intros rho. pose proof (lit_bound rho x). pose proof (Z.pow_pos_nonneg 2 (Z.of_nat i)). specialize (Hn rho). nia.
  - intros rho Hr. rewrite (B rho Hr), bits_shift_const, (Hv rho Hr). unfold lit.
    destruct (lit_true rho x); cbn [Z.b2z]; [rewrite shift_const_shift|]; f_equal; [|lia].
    rewrite Z.mul_1_r, Z2Nat.inj_add by (try apply Hn; lia). f_equal. apply Nat2Z.inj. rewrite Z2Nat.id, Z2Nat.inj_pow by lia. done.
  - intros r G2 X [L2 W2 B2]. split; [done|done|]. intros rho Hr. rewrite (B2 rho Hr), num_cons. f_equal. f_equal.
    rewrite Nat2Z.inj_succ, Z.pow_succ_r by lia. lia.
Qed.

(** The disjunction of the literals. *)
Lemma or_go ls acc f G : wires G ls -> reads G acc f ->
  computes (foldM gate_or ls acc) G (fun y G' => reads G' y (fun rho => f rho || negb (num rho ls =? 0))).
Proof.
  revert acc f G; induction ls as [|l ls IH]; intros acc f G Hls R; cbn [foldM].
  { apply computes_ret. destruct R as [R1 R2]. split; [done|]. intros rho Hr. rewrite (R2 rho Hr). cbn. by rewrite orb_false_r. }
  apply list.Forall_cons in Hls as [Hl Hls]. fold (wires G ls) in Hls. gate gate_or_spec as y R1.
  eapply computes_weaken; [by apply (IH y _ _ Hls R1)|]. intros z G1 X [W R2]. advance X. split; [done|]. intros rho Hr.
  rewrite (R2 rho Hr), num_cons. destruct R as [_ R]. rewrite (R rho Hr), <- orb_assoc. f_equal.
  pose proof (num_bound rho ls). unfold lit. destruct (lit_true rho l); cbn [Z.b2z orb]; lia.
Qed.

Lemma take_enumerate {A} n (l : list A) : take n (enumerate l) = enumerate (take n l).
Proof.
  unfold enumerate. generalize 0%nat as i. revert n. induction l as [|x l IH]; intros [|n] i; try done.
  cbn [length seq zip_with take]. by rewrite IH.
Qed.

Lemma shift_spec k G w a am : truth G one -> wires G a -> wires G am -> length a = w -> (0 < w)%nat ->
  (stage_count w <= length am)%nat ->
  computes (shift one k a am) G (fun r G' => number G' w r
    (fun rho => smt_op (shift_kind k) (Z.of_nat w) (num rho a) (num rho am))).
Proof.
  intros T Ha Hm La Hw Hst. unfold shift. rewrite La.
  set (fv := fun rho => match k with ShArithmetic => neg_bit (Z.of_nat w) (num rho a) | _ => false end).
  eapply computes_bind with (K1 := fun f G' => reads G' f fv).
  { destruct (last_bit_spec G w a Ha La Hw) as (s & Es & Ws & Vs).
    pose proof (zero_lit one G T) as Z0. pose proof (zero_wire one G T) as W0.
    destruct k; [by apply computes_ret..|]. apply (computes_pure _ s); [done|]. split; [done|]. by intros rho _. }
  intros fill G1 X [Wf Vf]. advance X. clear X.
  rewrite take_enumerate. unfold enumerate.
  eapply computes_bind; [apply (stages_go k fill a _ 0 a (fun _ => 0)); try done|].
  { by apply Forall_take. }
  { intros rho _. by rewrite shift_const_0. }
  intros cur G2 X [Lc Wc Bc]. advance X. clear X. rewrite La in Lc.
  destruct (Nat.ltb_spec (length am) (stage_count w)) as [|_]; [lia|].
  eapply computes_bind; [apply (or_go _ _ (fun _ => false)); [by apply Forall_drop|split; [by apply zero_wire|by apply zero_lit]]|].
  intros ov G3 X [Wo Vo]. advance X. clear X. cbn [orb] in Vo.
  eapply computes_weaken; [apply (mux_bits_spec G3 w); try done; [by apply wires_replicate|apply length_replicate]|].
  intros r G4 X [L W B]. advance X. split; [done|done|]. intros rho Hr.
  pose proof (num_bound rho am) as Bm.
  assert (bits rho r = shift_const (bits rho a) (Z.to_nat (num rho am)) k (fv rho)) as E.
  { rewrite (B rho Hr), (Vo rho Hr). pose proof (num_app_drop rho (stage_count w) am) as Em.
    assert (size (take (stage_count w) am) = Z.of_nat (stage_count w)) as Sz by (unfold size; rewrite length_take; lia).
    rewrite Sz in Em. pose proof (num_bound rho (take (stage_count w) am)). pose proof (num_bound rho (drop (stage_count w) am)).
    destruct (Z.eqb_spec (num rho (drop (stage_count w) am)) 0) as [E0|E0]; cbn [negb].
    - rewrite (Bc rho Hr), (Vf rho Hr), Em, E0. do 2 f_equal. change (2 ^ Z.of_nat 0) with 1. lia.
    - rewrite shift_const_past, bits_replicate, length_bits, La, (Vf rho Hr); [done|]. rewrite length_bits, La.
      pose proof (stage_count_enough w) as En. apply Nat2Z.inj_le in En. rewrite Z2Nat.inj_pow in En.
      change (Z.of_nat 2) with 2 in En. apply Nat2Z.inj_le. rewrite Z2Nat.id by lia. nia. }
  unfold num at 1. rewrite E. subst fv. cbv beta. rewrite <- (size_length a w La), <- (size_bits rho a).
  apply shift_value; [lia|]. rewrite length_bits. lia.
Qed.

(** ** Circuits for a binary operator *)
Definition implements (out : nat -> nat) (k : SymKind.t) (m : Lit -> list Lit -> list Lit -> Gate S (list Lit)) : Prop :=
  forall G w a b, truth G one -> wires G a -> wires G b -> length a = w -> length b = w -> (0 < w)%nat ->
  computes (m one a b) G (fun r G' => number G' (out w) r
    (fun rho => smt_op k (Z.of_nat w) (num rho a) (num rho b))).

(** A result in range is its own remainder. *)
Lemma number_smt k G w ls f (x y : valuation -> Z) : op_width k (Z.of_nat w) = Z.of_nat w -> number G w ls f ->
  (forall rho, bv_op k (Z.of_nat w) (x rho) (y rho) = Some (f rho)) ->
  number G w ls (fun rho => smt_op k (Z.of_nat w) (x rho) (y rho)).
Proof.
  intros Hk [L W V] E. split; [done|done|]. intros rho Hr. rewrite (smt_op_bv_op _ _ _ _ _ (E rho)), Hk.
  rewrite (V rho Hr). symmetry. apply Z.mod_small. rewrite <- (V rho Hr). by apply num_range.
Qed.

Lemma and_implements : implements id SymKind.And (fun _ => bitwise gate_and).
Proof.
  intros G w a b T Ha Hb La Lb Hw. eapply computes_weaken.
  - apply (bitwise_spec _ andb Z.land G w); [intros; by apply gate_and_spec|apply bval_zip_land|done..].
  - intros r G' X N. eapply number_smt; [done|exact N|done].
Qed.
Lemma or_implements : implements id SymKind.Or (fun _ => bitwise gate_or).
Proof.
  intros G w a b T Ha Hb La Lb Hw. eapply computes_weaken.
  - apply (bitwise_spec _ orb Z.lor G w); [intros; by apply gate_or_spec|apply bval_zip_lor|done..].
  - intros r G' X N. eapply number_smt; [done|exact N|done].
Qed.
Lemma xor_implements : implements id SymKind.Xor (fun _ => bitwise gate_xor).
Proof.
  intros G w a b T Ha Hb La Lb Hw. eapply computes_weaken.
  - apply (bitwise_spec _ xorb Z.lxor G w); [intros; by apply gate_xor_spec|apply bval_zip_lxor|done..].
  - intros r G' X N. eapply number_smt; [done|exact N|done].
Qed.
Lemma add_implements : implements id SymKind.Add (fun one a b => '(s, _) ← adder a b (zero one); mret s).
Proof.
  intros G w a b T Ha Hb La Lb Hw. eapply computes_bind; [by apply (add_spec one G w)|].
  intros [s c] G1 X N. apply computes_ret. exact N.
Qed.
Lemma sub_implements : implements id SymKind.Sub subtract.
Proof. intros G w a b T Ha Hb La Lb Hw. by apply (subtract_spec one G w). Qed.
Lemma mul_implements : implements id SymKind.Mul multiply.
Proof. intros G w a b T Ha Hb La Lb Hw. by apply (multiply_spec one G w). Qed.
Lemma divrem_implements signed want : implements id (div_kind signed want) (fun one => divrem one signed want).
Proof. intros G w a b T Ha Hb La Lb Hw. by apply (divrem_spec signed want G w). Qed.
Lemma compare_implements k : is_compare k = true -> implements (fun _ => 1%nat) k (fun one => compare one k).
Proof. intros Hk G w a b T Ha Hb La Lb Hw. by apply (compare_spec k G w). Qed.
Lemma eq_implements : implements (fun _ => 1%nat) SymKind.Eq (fun one a b => y ← eq_bits one a b; mret [y]).
Proof.
  intros G w a b T Ha Hb La Lb Hw. eapply computes_bind; [apply (eq_bits_spec one G); (done || congruence)|].
  intros y G1 X R. apply computes_ret. eapply number_ext; [exact (number_bit _ _ _ R)|]. intros rho Hr. cbv beta.
  by erewrite smt_bool.
Qed.
Lemma ne_implements : implements (fun _ => 1%nat) SymKind.Ne (fun one a b => y ← eq_bits one a b; mret [negate y]).
Proof.
  intros G w a b T Ha Hb La Lb Hw. eapply computes_bind; [apply (eq_bits_spec one G); (done || congruence)|].
  intros y G1 X [W R]. apply computes_ret. eapply number_ext.
  - apply (number_bit _ _ (fun rho => negb (num rho a =? num rho b))). split; [by apply wire_negate|].
    intros rho Hr. by rewrite lit_true_negate, (R rho Hr).
  - intros rho Hr. cbv beta. by erewrite smt_bool.
Qed.

(** ** Rewiring *)
Lemma num_odd rho l ls : Z.odd (num rho (l :: ls)) = lit_true rho l.
Proof.
  rewrite num_cons, Z.odd_add, Z.odd_mul. unfold lit. by destruct (lit_true rho l), (Z.odd (num rho ls)).
Qed.

Lemma num_drop rho n ls : num rho (drop n ls) = num rho ls / 2 ^ Z.of_nat n.
Proof. unfold num, bits. by rewrite <- skipn_map, bval_drop. Qed.

Lemma num_replicate rho l n : num rho (replicate n l) = if lit_true rho l then 2 ^ Z.of_nat n - 1 else 0.
Proof. unfold num. by rewrite bits_replicate, bval_replicate. Qed.

Lemma number_invert G w ls : wires G ls -> length ls = w -> number G w (map negate ls) (fun rho => 2 ^ Z.of_nat w - 1 - num rho ls).
Proof.
  intros Hw L. split; [by rewrite length_map|by apply wires_negate|]. intros rho _. cbv beta.
  change (map negate ls) with (invert ls). by rewrite num_invert, (size_length _ _ L).
Qed.

Lemma wires_vec_resize G n l ls : wire G l -> wires G ls -> wires G (vec_resize n l ls).
Proof. intros Hl Hls. apply wires_app. split; [by apply Forall_take|by apply wires_replicate]. Qed.

(** [vec_resize] with the zero literal and with the sign extends. *)
Lemma zero_extend_number G t ls : truth G one -> wires G ls ->
  number G t (vec_resize t (zero one) ls) (fun rho => num rho ls mod 2 ^ Z.of_nat t).
Proof.
  intros T Hls. split; [apply length_vec_resize|by apply wires_vec_resize; [apply zero_wire|]|].
  intros rho Hr. unfold vec_resize. rewrite num_app, num_replicate, (zero_lit one G T rho Hr), num_take. lia.
Qed.

Lemma sign_extend_number G w t s ls : wires G ls -> length ls = w -> (0 < w)%nat -> last_bit ls = Some s ->
  number G t (vec_resize t s ls) (fun rho => sign_of (Z.of_nat w) (num rho ls) mod 2 ^ Z.of_nat t).
Proof.
  intros Hls L Hw Es. destruct (last_bit_spec G w ls Hls L Hw) as (s' & Es' & Ws & Vs).
  rewrite Es in Es'. injection Es' as <-. split; [apply length_vec_resize|by apply wires_vec_resize|].
  intros rho Hr. unfold vec_resize. rewrite num_app, num_replicate, Vs, num_take.
  rewrite sign_of_neg_bit by lia. pose proof (num_range w rho ls L) as B.
  destruct (Nat.le_gt_cases t w) as [Hle|Hgt].
  - replace (t - length ls)%nat with 0%nat by lia. change (2 ^ Z.of_nat 0 - 1) with 0.
    destruct (neg_bit (Z.of_nat w) (num rho ls)); [|lia].
    replace (2 ^ Z.of_nat w) with (2 ^ Z.of_nat (w - t) * 2 ^ Z.of_nat t) by (rewrite <- Z.pow_add_r by lia; f_equal; lia).
    rewrite <- Z.add_opp_r, <- Z.mul_opp_l, Z.mod_add by lia. lia.
  - rewrite take_ge by lia. rewrite (size_length ls w L), L.
    assert (2 ^ Z.of_nat w * 2 ^ Z.of_nat (t - w) = 2 ^ Z.of_nat t) as P by (rewrite <- Z.pow_add_r by lia; f_equal; lia).
    assert (2 ^ Z.of_nat w < 2 ^ Z.of_nat t) by (apply Z.pow_lt_mono_r; lia).
    rewrite (Z.mod_small (num rho ls)) by lia.
    destruct (neg_bit (Z.of_nat w) (num rho ls)).
    + apply Z.mod_unique_pos with (-1); lia.
    + rewrite Z.mod_small by lia. lia.
Qed.

Lemma slice_number G w ls lo hi bs : wires G ls -> length ls = w -> 0 <= lo -> slice_inclusive ls lo hi = Some bs ->
  number G (Z.to_nat (hi + 1 - lo)) bs (fun rho => (num rho ls / 2 ^ lo) mod 2 ^ (hi + 1 - lo)).
Proof.
  intros Hls L Hlo E. unfold slice_inclusive in E.
  destruct (Z.leb_spec lo (hi + 1)), (Z.ltb_spec hi (Z.of_nat (length ls))); try discriminate. injection E as <-. split.
  - rewrite length_take, length_drop. lia.
  - by apply Forall_take, Forall_drop.
  - intros rho _. rewrite num_take, num_drop, !Z2Nat.id by lia. done.
Qed.

End circuits.
