(* ===== verification/FloatSpec.v ===== *)
(** * What the floating-point comparison circuit computes

    The gates of [FloatCircuits] that read the fields of a word, and the
    comparison against [FloatSem.float_op]. *)
From S2P Require Import Prelude Words ApInt ApIntSpec Lang LangSpec SatSolver SatLits Dag Bits Gates FloatCircuits Bitblast.
From S2P Require Import FloatSem GateSpec CircuitSpec CircuitWord.
From Stdlib Require Import SpecFloat.
#[local] Open Scope Z_scope.

(** A literal of a vector is a bit of its number. *)
Lemma lookup_bit ls i l rho : ls !! i = Some l -> lit_true rho l = Z.testbit (num rho ls) (Z.of_nat i).
Proof.
  intros E. unfold num. rewrite bval_testbit, nth_lookup. unfold bits.
  change (map (lit_true rho) ls !! i) with ((lit_true rho <$> ls) !! i). by rewrite list_lookup_fmap, E.
Qed.

(** ** Fields of a word of literals *)
Section fields.
Context (e m : nat) (ls : list Lit) (L : length ls = (m + e + 1)%nat).

Lemma fraction_num rho : num rho (take m ls) = f_fraction (Z.of_nat m) (num rho ls).
Proof. apply num_take. Qed.

Lemma exponent_num rho : num rho (take e (drop m ls)) = f_exponent (Z.of_nat e) (Z.of_nat m) (num rho ls).
Proof. rewrite num_take, num_drop. done. Qed.

Lemma magnitude_num rho : num rho (take (m + e) ls) = f_magnitude (Z.of_nat e) (Z.of_nat m) (num rho ls).
Proof. rewrite num_take, Nat2Z.inj_add. done. Qed.

Lemma fraction_size : size (take m ls) = Z.of_nat m.
Proof using L. unfold size. rewrite length_take. lia. Qed.

Lemma exponent_length : length (take e (drop m ls)) = e.
Proof using L. rewrite length_take, length_drop. lia. Qed.

Lemma sign_lookup : exists s, ls !! (m + e)%nat = Some s /\ (forall G, wires G ls -> wire G s) /\
  forall rho, lit_true rho s = f_sign (Z.of_nat e) (Z.of_nat m) (num rho ls).
Proof using L.
  destruct (lookup_lt_is_Some_2 ls (m + e)) as [s E]; [lia|]. exists s. split; [done|]. split.
  - intros G Hw. by eapply wires_lookup.
  - intros rho. unfold f_sign. rewrite <- Nat2Z.inj_add. by apply lookup_bit.
Qed.

(** The sign and the magnitude make the word. *)
Lemma word_split rho : num rho ls = f_magnitude (Z.of_nat e) (Z.of_nat m) (num rho ls) +
  2 ^ Z.of_nat (m + e) * Z.b2z (f_sign (Z.of_nat e) (Z.of_nat m) (num rho ls)).
Proof using L.
  pose proof (num_range _ rho ls L) as B. rewrite Nat2Z.inj_add, Z.pow_add_r in B by lia. change (2 ^ Z.of_nat 1) with 2 in B.
  set (w := Z.of_nat (m + e)) in *. unfold f_sign, f_magnitude.
  replace (Z.of_nat m + Z.of_nat e) with w by (unfold w; lia). rewrite Z.testbit_odd, Z.shiftr_div_pow2 by lia.
  pose proof (Z.div_mod (num rho ls) (2 ^ w)) as D. assert (0 < 2 ^ w) by (apply Z.pow_pos_nonneg; lia).
  assert (0 <= num rho ls / 2 ^ w < 2) as Hq by (split; [apply Z.div_pos; lia|apply Z.div_lt_upper_bound; lia]).
  assert (num rho ls / 2 ^ w = 0 \/ num rho ls / 2 ^ w = 1) as [E|E] by lia; rewrite E in *; cbn [Z.odd Z.b2z]; lia.
Qed.

End fields.

(** ** The verdicts, as the circuit combines them *)
Section verdicts.
Context (e m : Z) (He : 1 <= e) (Hm : 0 <= m) (x y : Z).

Definition verdict (c : comparison) : bool :=
  bool_decide (SFcompare (decode e m x) (decode e m y) = Some c).

Let ordered := negb (f_nan e m x || f_nan e m y).
Let both_zero := (f_magnitude e m x =? 0) && (f_magnitude e m y =? 0).

Lemma unordered_verdict c : ordered = false -> verdict c = false.
Proof.
  intros Ho%negb_false_iff%orb_true_iff. apply bool_decide_eq_false. destruct Ho as [Ho|Ho].
  - by rewrite (decode_nan e m x Ho).
  - rewrite (decode_nan e m y Ho). by destruct (decode e m x).
Qed.

Lemma ordered_verdict c : ordered = true -> verdict c = bool_decide (bits_compare e m x y = c).
Proof using He Hm.
  intros [H1 H2]%negb_true_iff%orb_false_iff. unfold verdict. rewrite compare_bits by done.
  apply bool_decide_ext. split; congruence.
Qed.

Lemma magnitude_bound z : 0 <= f_magnitude e m z < 2 ^ (m + e).
Proof using He Hm. apply Z.mod_pos_bound. apply Z.pow_pos_nonneg; lia. Qed.

Lemma equal_verdict : x = f_magnitude e m x + 2 ^ (m + e) * Z.b2z (f_sign e m x) ->
  y = f_magnitude e m y + 2 ^ (m + e) * Z.b2z (f_sign e m y) ->
  ordered && ((x =? y) || both_zero) = verdict Eq.
Proof using He Hm.
  intros Hx Hy.
  destruct ordered eqn:Ho; [|by rewrite unordered_verdict]. rewrite ordered_verdict by done. unfold bits_compare. fold both_zero.
  destruct both_zero eqn:Hz; [by rewrite orb_true_r, bool_decide_eq_true_2|]. rewrite orb_false_r. cbn [andb].
  pose proof (magnitude_bound x). pose proof (magnitude_bound y). symmetry.
  destruct (Z.eqb_spec x y) as [E|E].
  - apply bool_decide_eq_true. rewrite E. destruct (f_sign e m y); apply Z.compare_refl.
  - apply bool_decide_eq_false. intros C. apply E. rewrite Hx, Hy.
    destruct (f_sign e m x), (f_sign e m y); try discriminate C; apply Z.compare_eq in C; lia.
Qed.

Lemma less_verdict : ordered && (negb both_zero &&
    (if xorb (f_sign e m x) (f_sign e m y) then f_sign e m x && xorb (f_sign e m x) (f_sign e m y)
     else if f_sign e m x then negb (f_magnitude e m x <=? f_magnitude e m y)
     else negb (f_magnitude e m y <=? f_magnitude e m x))) = verdict Lt.
Proof using He Hm.
  destruct ordered eqn:Ho; [|by rewrite unordered_verdict]. rewrite ordered_verdict by done. unfold bits_compare. fold both_zero.
  destruct both_zero eqn:Hz; [by rewrite bool_decide_eq_false_2|]. cbn [andb negb].
  destruct (f_sign e m x), (f_sign e m y); cbn [xorb andb]; symmetry.
  - rewrite <- Z.ltb_antisym. unfold Z.ltb. by destruct (_ ?= _).
  - by apply bool_decide_eq_true.
  - by apply bool_decide_eq_false.
  - rewrite <- Z.ltb_antisym. unfold Z.ltb. by destruct (_ ?= _).
Qed.

Lemma greater_verdict : ordered && (negb (verdict Lt) && negb (verdict Eq)) = verdict Gt.
Proof using He Hm.
  destruct ordered eqn:Ho; [|by rewrite !unordered_verdict]. rewrite !ordered_verdict by done. cbn [andb].
  by destruct (bits_compare e m x y).
Qed.

Lemma verdict_float_op k :
  float_op e m k x y =
  match k with
  | SymKind.Eq => verdict Eq
  | SymKind.Ne => negb (verdict Eq)
  | SymKind.Lt => verdict Lt
  | SymKind.Le => ordered && negb (verdict Gt)
  | SymKind.Gt => verdict Gt
  | SymKind.Ge => ordered && negb (verdict Lt)
  | _ => false
  end.
Proof using He Hm.
  unfold float_op. destruct ordered eqn:Ho.
  - rewrite !ordered_verdict by done. apply negb_true_iff, orb_false_iff in Ho as [H1 H2].
    rewrite compare_bits by done. cbn [andb]. by destruct k, (bits_compare e m x y).
  - rewrite !unordered_verdict by done. pose proof (unordered_verdict Eq Ho) as V. apply negb_false_iff, orb_true_iff in Ho.
    assert (SFcompare (decode e m x) (decode e m y) = None) as ->; [|by destruct k].
    destruct Ho as [Ho|Ho]; rewrite (decode_nan _ _ _ Ho); [done|by destruct (decode e m x)].
Qed.

End verdicts.

Section circuits.
Context {S : Type} `{CnfLaws S} (one : Lit).
#[local] Hint Resolve zero_wire zeros_wires : wires.

Lemma zero_reads G : truth G one -> reads G (zero one) (fun _ => false).
Proof. intros T. split; [by apply zero_wire|by apply zero_lit]. Qed.

Lemma or_reduce_spec G ls : truth G one -> wires G ls ->
  computes (or_reduce one ls) G (fun y G' => reads G' y (fun rho => negb (num rho ls =? 0))).
Proof. intros T Hls. by apply (or_go ls _ (fun _ => false)); [|apply zero_reads]. Qed.

Lemma negate_reads G y f : reads G y f -> reads G (negate y) (fun rho => negb (f rho)).
Proof. intros [W R]. split; [by apply wire_negate|]. intros rho Hr. by rewrite lit_true_negate, (R rho Hr). Qed.

Lemma reads_ext G y f g : reads G y f -> (forall rho, cholds G rho -> f rho = g rho) -> reads G y g.
Proof. intros [W R] E. split; [done|]. intros rho Hr. by rewrite (R rho Hr), E. Qed.

Lemma nor_spec G ls : truth G one -> wires G ls ->
  computes (nor one ls) G (fun y G' => reads G' y (fun rho => num rho ls =? 0)).
Proof.
  intros T Hls. unfold nor. gate or_reduce_spec as y R. apply computes_ret.
  eapply reads_ext; [by apply negate_reads|]. intros rho _. apply negb_involutive.
Qed.

(** The conjunction of the literals. *)
Lemma and_go ls acc f G : wires G ls -> reads G acc f ->
  computes (foldM gate_and ls acc) G (fun y G' => reads G' y (fun rho => f rho && (num rho ls =? 2 ^ size ls - 1))).
Proof.
  revert acc f G; induction ls as [|l ls IH]; intros acc f G Hls R; cbn [foldM].
  { apply computes_ret. eapply reads_ext; [exact R|]. intros rho _. cbn. by rewrite andb_true_r. }
  apply list.Forall_cons in Hls as [Hl Hls]. fold (wires G ls) in Hls. gate gate_and_spec as y R1.
  eapply computes_weaken; [by apply (IH y _ _ Hls R1)|]. intros z G1 X R2. advance X.
  eapply reads_ext; [exact R2|]. intros rho Hr. rewrite num_cons, pow2_size_cons. destruct R as [_ R]. rewrite (R rho Hr), <- andb_assoc.
  f_equal. pose proof (num_bound rho ls). unfold lit. destruct (lit_true rho l); cbn [Z.b2z andb]; lia.
Qed.

Lemma all_ones_spec G ls : truth G one -> wires G ls ->
  computes (foldM gate_and ls one) G (fun y G' => reads G' y (fun rho => num rho ls =? 2 ^ size ls - 1)).
Proof. intros [T1 T2] Hls. by apply (and_go ls one (fun _ => true)). Qed.

(** ** Classification *)
Section classify.
Context (e m : nat) (ls : list Lit) (L : length ls = (m + e + 1)%nat).

Lemma float_is_nan_spec G : truth G one -> wires G ls ->
  computes (float_is_nan one (take m ls) (take e (drop m ls))) G
    (fun y G' => reads G' y (fun rho => f_nan (Z.of_nat e) (Z.of_nat m) (num rho ls))).
Proof using L H.
  intros T Hls. unfold float_is_nan.
  assert (wires G (take m ls)) by (by apply Forall_take). assert (wires G (take e (drop m ls))) by (by apply Forall_take, Forall_drop).
  gate all_ones_spec as y R1. gate or_reduce_spec as z R2.
  eapply computes_weaken; [apply gate_and_spec; eauto with wires|]. intros u G2 X R. advance X.
  eapply reads_ext; [exact R|]. intros rho Hr. cbv beta. destruct R1 as [_ R1], R2 as [_ R2]. rewrite (R1 rho Hr), (R2 rho Hr).
  unfold f_nan. rewrite <- fraction_num, <- exponent_num. unfold size. by rewrite exponent_length.
Qed.

Lemma float_is_zero_spec G : truth G one -> wires G ls ->
  computes (float_is_zero one (take m ls) (take e (drop m ls))) G
    (fun y G' => reads G' y (fun rho => f_magnitude (Z.of_nat e) (Z.of_nat m) (num rho ls) =? 0)).
Proof using L H.
  intros T Hls. unfold float_is_zero.
  assert (wires G (take m ls)) by (by apply Forall_take). assert (wires G (take e (drop m ls))) by (by apply Forall_take, Forall_drop).
  gate nor_spec as y R1. gate nor_spec as z R2.
  eapply computes_weaken; [apply gate_and_spec; eauto with wires|]. intros u G2 X R. advance X.
  eapply reads_ext; [exact R|]. intros rho Hr. cbv beta. destruct R1 as [_ R1], R2 as [_ R2]. rewrite (R1 rho Hr), (R2 rho Hr).
  rewrite <- (magnitude_num e m ls rho).
  rewrite <- take_take_drop.
  rewrite num_app. pose proof (num_bound rho (take m ls)). pose proof (num_bound rho (take e (drop m ls))). nia.
Qed.

End classify.

(** ** Comparison *)
Definition is_float_test (k : SymKind.t) : bool :=
  match k with
  | SymKind.Eq | SymKind.Ne | SymKind.Lt | SymKind.Le | SymKind.Gt | SymKind.Ge => true
  | _ => false
  end.

(** The verdict that a comparison asks for. *)
Lemma float_result_spec k e m a b un oe ol og G : is_float_test k = true -> (1 <= e)%nat ->
  let V c rho := verdict (Z.of_nat e) (Z.of_nat m) (num rho a) (num rho b) c in
  reads G un (fun rho => f_nan (Z.of_nat e) (Z.of_nat m) (num rho a) || f_nan (Z.of_nat e) (Z.of_nat m) (num rho b)) ->
  reads G oe (V Eq) -> reads G ol (V Lt) -> reads G og (V Gt) ->
  computes (match k with
    | SymKind.Eq => mret oe
    | SymKind.Ne => mret (negate oe)
    | SymKind.Lt => mret ol
    | SymKind.Le => gate_and (negate un) (negate og)
    | SymKind.Gt => mret og
    | SymKind.Ge => gate_and (negate un) (negate ol)
    | _ => pure None
    end) G (fun y G' => reads G' y (fun rho => float_op (Z.of_nat e) (Z.of_nat m) k (num rho a) (num rho b))).
Proof.
  intros Hk He V RU RE RL RG. assert (1 <= Z.of_nat e) as Ze by lia. assert (0 <= Z.of_nat m) as Zm by lia.
  set (f := fun rho => float_op (Z.of_nat e) (Z.of_nat m) k (num rho a) (num rho b)).
  assert (forall y g, reads G y g -> (forall rho, g rho = f rho) -> computes (mret y) G (fun y G' => reads G' y f)) as Hret.
  { intros y g R E. apply computes_ret. by eapply reads_ext. }
  assert (forall c g, reads G c g -> (forall rho, f rho = negb (f_nan (Z.of_nat e) (Z.of_nat m) (num rho a) ||
      f_nan (Z.of_nat e) (Z.of_nat m) (num rho b)) && negb (g rho)) ->
    computes (gate_and (negate un) (negate c)) G (fun y G' => reads G' y f)) as Hand.
  { intros c g R E. eapply computes_weaken; [apply gate_and_spec; eauto with wires|]. intros y G' X R'. advance X.
    eapply reads_ext; [exact R'|]. intros rho Hr. cbv beta. destruct RU as [_ RU], R as [_ R].
    by rewrite !lit_true_negate, E, (RU rho Hr), (R rho Hr). }
  subst f; cbv beta in *. destruct k; try discriminate Hk.
  - eapply Hret; [exact RE|]. intros rho. by rewrite verdict_float_op.
  - eapply Hret; [by apply negate_reads|]. intros rho. by rewrite verdict_float_op.
  - eapply Hret; [exact RL|]. intros rho. by rewrite verdict_float_op.
  - eapply Hand; [exact RG|]. intros rho. by rewrite verdict_float_op.
  - eapply Hret; [exact RG|]. intros rho. by rewrite verdict_float_op.
  - eapply Hand; [exact RL|]. intros rho. by rewrite verdict_float_op.
Qed.

Lemma float_compare_spec k e m a b G : is_float_test k = true -> (1 <= e)%nat -> truth G one -> wires G a -> wires G b ->
  length a = (m + e + 1)%nat -> length b = (m + e + 1)%nat ->
  computes (float_compare one k e m a b) G (fun r G' => number G' 1 r
    (fun rho => Z.b2z (float_op (Z.of_nat e) (Z.of_nat m) k (num rho a) (num rho b)))).
Proof.
  intros Hk He T Ha Hb La Lb. unfold float_compare.
  destruct (sign_lookup e m a La) as (sa & Ea & Wa & Va). destruct (sign_lookup e m b Lb) as (sb & Eb & Wb & Vb).
  specialize (Wa G Ha). specialize (Wb G Hb). assert (length a = length b) as Lab by congruence.
  replace (length a - 1)%nat with (m + e)%nat by lia. replace (length b - 1)%nat with (m + e)%nat by lia.
  assert (length (take (m + e) a) = (m + e)%nat) as Lta by (rewrite length_take; lia).
  assert (length (take (m + e) b) = (m + e)%nat) as Ltb by (rewrite length_take; lia).
  assert (wires G (take (m + e) a)) as Wta by (by apply Forall_take).
  assert (wires G (take (m + e) b)) as Wtb by (by apply Forall_take).
  eapply computes_bind; [by eapply (computes_pure _ sa _ (fun x _ => x = sa))|]. intros x G0 X ->. advance X. clear X.
  eapply computes_bind; [by eapply (computes_pure _ sb _ (fun x _ => x = sb))|]. intros x G1 X ->. advance X. clear X.
  gate float_is_nan_spec as na Na. gate float_is_nan_spec as nb Nb. gate gate_or_spec as un Un.
  gate float_is_zero_spec as za Za. gate float_is_zero_spec as zb Zb. gate gate_and_spec as bz Bz.
  gate eq_bits_spec as be Be. gate gate_or_spec as ev Ev. gate gate_and_spec as oe Oe.
  gate gate_xor_spec as sd Sd. gate gate_and_spec as np Np.
  gate uge_spec as pg Pg. gate uge_spec as ng Ng. gate gate_mux_spec as sl Sl. gate gate_mux_spec as nl Nl.
  gate gate_and_spec as nz Nz. gate gate_and_spec as ol Ol. gate gate_and_spec as nn Nn. gate gate_and_spec as og Og.
  assert (1 <= Z.of_nat e) as Ze by lia. assert (0 <= Z.of_nat m) as Zm by lia.
  pose (V c rho := verdict (Z.of_nat e) (Z.of_nat m) (num rho a) (num rho b) c).
  match type of T with truth ?G _ => set (G' := G) in * end.
  assert (reads G' oe (V Eq) /\ reads G' ol (V Lt)) as [RE RL].
  { split; (eapply reads_ext; [by split; [eauto with wires|intros rho _; reflexivity]|]); intros rho Hr; at_rho rho Hr;
      rewrite ?Ol, ?Oe, ?Nz, ?Nl, ?Np, ?Sl, ?Sd, ?Ev, ?Be, ?lit_true_negate, ?Pg, ?Ng, ?Bz, ?Za, ?Zb, ?Un, ?Na, ?Nb, ?Va, ?Vb, ?(magnitude_num e m).
    - apply equal_verdict; [done|done|rewrite <- Nat2Z.inj_add; by apply word_split..].
    - by apply less_verdict. }
  assert (reads G' og (V Gt)) as RG.
  { split; [eauto with wires|]. intros rho Hr. at_rho rho Hr.
    rewrite Og, Nn, !lit_true_negate, RE, RL, Un, Na, Nb. by apply greater_verdict. }
  eapply computes_bind; [apply (float_result_spec k e m a b un oe ol og G' Hk He); [|exact RE|exact RL|exact RG]|].
  { eapply reads_ext; [exact Un|]. intros rho Hr. cbv beta. destruct Na as [_ Na], Nb as [_ Nb]. by rewrite (Na rho Hr), (Nb rho Hr). }
  intros y G'' X R. apply computes_ret. by apply number_bit.
Qed.

End circuits.

(** ** What the shifter and the rounding circuits compute

    The parts of the float-to-integer conversion: the shifter, the bits that
    it drops and the increment that a rounding mode asks of them. *)
Section circuits.
Context {S : Type} `{CnfLaws S} (one : Lit).
#[local] Hint Resolve zero_wire zeros_wires : wires.

(** A circuit that only reads. *)
Lemma computes_const {A B} (o : option A) a (k : A -> Gate S B) G (K : B -> Ctx -> Prop) :
  o = Some a -> computes (k a) G K -> computes (x ← pure o; k x) G K.
Proof. intros -> Hk. by apply (computes_eq _ (k a)). Qed.

Lemma const_bits_spec G v w : truth G one -> 0 <= v -> (w <= 64)%nat ->
  exists ls, const_bits one v w = Some ls /\ number G w ls (fun _ => v mod 2 ^ Z.of_nat w).
Proof.
  intros T Hv Hw. unfold const_bits. destruct (Nat.ltb_spec 64 w); [lia|]. eexists. split; [done|]. split.
  - by rewrite length_map, length_seq.
  - apply Forall_map, Forall_forall. intros i _. destruct (Z.testbit v (Z.of_nat i)); [apply T|by apply zero_wire].
  - intros rho Hr. unfold num, bits. rewrite map_map. apply bval_of_bits. intros i _.
    destruct (Z.testbit v (Z.of_nat i)); [by apply (truth_lit _ _ T)|by apply (zero_lit one G T)].
Qed.

(** Comparing with a constant. *)
Lemma eq_const_spec G a v w : truth G one -> wires G a -> length a = w -> 0 <= v -> (w <= 64)%nat ->
  computes (c ← pure (const_bits one v w); eq_bits one a c) G
    (fun y G' => reads G' y (fun rho => num rho a =? v mod 2 ^ Z.of_nat w)).
Proof.
  intros T Ha La Hv Hw. destruct (const_bits_spec G v w T Hv Hw) as (c & E & [Lc Wc Vc]).
  eapply computes_const; [exact E|]. eapply computes_weaken; [apply eq_bits_spec; (done || congruence)|].
  intros y G' X R. advance X. eapply reads_ext; [exact R|]. intros rho Hr. cbv beta. by rewrite (Vc rho Hr).
Qed.

(** ** The shifter *)
Definition dir (left : bool) : Shift := if left then ShLeft else ShLogical.

Lemma stage_shift_eq left by_ cur : stage_shift one left by_ cur = shift_const cur by_ (dir left) (zero one).
Proof. by destruct left. Qed.

Definition shift_num (left : bool) (w : nat) (x n : Z) : Z := if left then (x * 2 ^ n) mod 2 ^ Z.of_nat w else x / 2 ^ n.

Lemma shift_by_bits_spec left G w a am : truth G one -> wires G a -> wires G am -> length a = w ->
  computes (shift_by_bits one a am left) G
    (fun r G' => number G' w r (fun rho => shift_num left w (num rho a) (num rho am))).
Proof.
  intros T Ha Hm La. unfold shift_by_bits. rewrite La, take_enumerate. set (st := stage_count w).
  eapply computes_bind with (K1 := fun cur G' => reads_vec G' w cur (fun rho =>
      shift_const (bits rho a) (Z.to_nat (num rho (take st am))) (dir left) false)).
  { eapply computes_weaken.
    - eapply (computes_eq _ (foldM (fun cur '(k', amount_bit) =>
        mux_bits amount_bit (shift_const cur (2 ^ k')%nat (dir left) (zero one)) cur) (enumerate (take st am)) a)).
      { intros s. by destruct left. }
      unfold enumerate. apply (stages_go (dir left) (zero one) a (take st am) 0 a (fun _ => 0)); try done;
        [by apply Forall_take|by apply zero_wire|intros rho _; by rewrite shift_const_0].
    - intros cur G' X [L W B]. advance X. split; [congruence|done|]. intros rho Hr. rewrite (B rho Hr), (zero_lit one G' T rho Hr).
      do 2 f_equal. change (2 ^ Z.of_nat 0) with 1. lia. }
  intros cur G1 X [Lc Wc Bc]. advance X. clear X.
  assert (wires G1 (drop (Nat.min st (length am)) am)) by (by apply Forall_drop).
  gate or_reduce_spec as ov Ov.
  eapply computes_weaken; [apply (mux_bits_spec G0 w); eauto with wires; apply length_zeros|].
  intros r G3 X [L W B]. advance X. split; [done|done|]. intros rho Hr. unfold num at 1.
  assert (bits rho r = shift_const (bits rho a) (Z.to_nat (num rho am)) (dir left) false) as ->.
  { rewrite (B rho Hr), (proj2 Ov rho Hr). clear B. pose proof (num_app_drop rho (Nat.min st (length am)) am) as Em.
    assert (take (Nat.min st (length am)) am = take st am) as Et.
    { destruct (Nat.le_ge_cases st (length am)); [by rewrite Nat.min_l|rewrite Nat.min_r by done; by rewrite !take_ge by lia]. }
    rewrite Et in Em. pose proof (num_bound rho (take st am)). pose proof (num_bound rho (drop (Nat.min st (length am)) am)).
    destruct (Z.eqb_spec (num rho (drop (Nat.min st (length am)) am)) 0) as [E0|E0]; cbn [negb].
    - rewrite (Bc rho Hr), Em, E0. do 2 f_equal. lia.
    - assert (size (take st am) = Z.of_nat st) as Sz.
      { unfold size. rewrite length_take. destruct (Nat.le_gt_cases st (length am)) as [|Hgt]; [lia|].
        exfalso. apply E0. rewrite Nat.min_r, drop_all by lia. done. }
      rewrite shift_const_past, length_bits, La.
      + unfold zeros. by rewrite bits_replicate, (zero_lit one G3 T rho Hr).
      + rewrite length_bits, La. pose proof (stage_count_enough w) as En. fold st in En. apply Nat2Z.inj_le in En.
        rewrite Z2Nat.inj_pow in En. change (Z.of_nat 2) with 2 in En. apply Nat2Z.inj_le. rewrite Z2Nat.id by lia.
        rewrite Sz in *. nia. }
  pose proof (num_bound rho am) as Bm. unfold shift_num, num in *. destruct left; cbn [dir].
  - rewrite shift_left_value, Z2Nat.id by lia. rewrite size_bits. by rewrite (size_length a w La).
  - rewrite shift_right_value, Z2Nat.id by (done || lia). lia.
Qed.

(** ** Circuits on vectors whose numbers are known *)
Lemma uge_number G w a b f g : truth G one -> number G w a f -> number G w b g ->
  computes (uge one a b) G (fun y G' => reads G' y (fun rho => g rho <=? f rho)).
Proof.
  intros T [La Wa Va] [Lb Wb Vb]. eapply computes_weaken; [by apply (uge_spec one G w)|]. intros y G' X R. advance X.
  eapply reads_ext; [exact R|]. intros rho Hr. cbv beta. by rewrite (Va rho Hr), (Vb rho Hr).
Qed.

Lemma eq_number G n a b f g : truth G one -> number G n a f -> number G n b g ->
  computes (eq_bits one a b) G (fun y G' => reads G' y (fun rho => f rho =? g rho)).
Proof.
  intros T [La Wa Va] [Lb Wb Vb]. eapply computes_weaken; [apply eq_bits_spec; (done || congruence)|].
  intros y G' X R. advance X. eapply reads_ext; [exact R|]. intros rho Hr. cbv beta. by rewrite (Va rho Hr), (Vb rho Hr).
Qed.

Lemma subtract_number G w a b f g : truth G one -> number G w a f -> number G w b g ->
  computes (subtract one a b) G (fun d G' => number G' w d (fun rho => (f rho - g rho) mod 2 ^ Z.of_nat w)).
Proof.
  intros T [La Wa Va] [Lb Wb Vb]. eapply computes_weaken; [by apply (subtract_spec one G w)|]. intros y G' X R. advance X.
  eapply number_ext; [exact R|]. intros rho Hr. cbv beta. by rewrite (Va rho Hr), (Vb rho Hr).
Qed.

Lemma shift_number left G w n a am f g : truth G one -> number G w a f -> number G n am g ->
  computes (shift_by_bits one a am left) G (fun r G' => number G' w r (fun rho => shift_num left w (f rho) (g rho))).
Proof.
  intros T [La Wa Va] [Lb Wb Vb]. eapply computes_weaken; [by apply (shift_by_bits_spec left G w)|]. intros y G' X R. advance X.
  eapply number_ext; [exact R|]. intros rho Hr. cbv beta. by rewrite (Va rho Hr), (Vb rho Hr).
Qed.

Lemma mux_number G w s a b h f g : truth G one -> reads G s h -> number G w a f -> number G w b g ->
  computes (mux_bits s a b) G (fun r G' => number G' w r (fun rho => if h rho then f rho else g rho)).
Proof.
  intros T [Ws Vs] [La Wa Va] [Lb Wb Vb]. eapply computes_weaken; [by apply (mux_num_spec G w)|]. intros y G' X R. advance X.
  eapply number_ext; [exact R|]. intros rho Hr. cbv beta. by rewrite (Vs rho Hr), (Va rho Hr), (Vb rho Hr).
Qed.

(** ** The bits a right shift drops *)
Definition dropped_post (n amount : valuation -> Z) (r : Lit * Lit * Lit) (G : Ctx) : Prop :=
  reads G (fst (fst r)) (fun rho => dropped_any (n rho) (amount rho)) /\
  reads G (snd (fst r)) (fun rho => dropped_half (n rho) (amount rho)) /\
  reads G (snd r) (fun rho => dropped_below (n rho) (amount rho)).

Lemma shifted_out_go am ls i acc p G : truth G one -> wires G am -> wires G ls -> (length am <= 64)%nat ->
  Z.of_nat (i + length ls) < 2 ^ size am -> (forall rho, 0 <= p rho < 2 ^ Z.of_nat i) ->
  dropped_post p (fun rho => num rho am) acc G ->
  computes (foldM (fun '(inexact, half_bit, below) '(i, bit) =>
    index ← pure (const_bits one (Z.of_nat i + 1) (length am));
    in_remainder ← uge one am index;
    is_half ← eq_bits one am index;
    contributed ← gate_and in_remainder bit;
    inexact ← gate_or inexact contributed;
    half_contrib ← gate_and is_half bit;
    half_bit ← gate_or half_bit half_contrib;
    lower ← gate_and contributed (negate is_half);
    below ← gate_or below lower;
    mret (inexact, half_bit, below)) (zip (seq i (length ls)) ls) acc) G
    (dropped_post (fun rho => p rho + 2 ^ Z.of_nat i * num rho ls) (fun rho => num rho am)).
Proof.
  revert i acc p G; induction ls as [|b ls IH]; intros i acc p G T Ham Hls Hsz Hlt Hp Hacc; cbn [length seq zip_with foldM].
  { apply computes_ret. destruct Hacc as (R1 & R2 & R3).
    split; [|split]; (eapply reads_ext; [eassumption|]); intros rho _; cbv beta; rewrite num_nil, Z.mul_0_r, Z.add_0_r; done. }
  apply list.Forall_cons in Hls as [Hb Hls]. fold (wires G ls) in Hls. cbn [length] in Hlt.
  apply (computes_bind _ _ _ (dropped_post (fun rho => p rho + 2 ^ Z.of_nat i * lit rho b) (fun rho => num rho am))).
  - destruct acc as [[inexact half] below]. destruct Hacc as (R1 & R2 & R3). cbn [fst snd] in *.
    destruct (const_bits_spec G (Z.of_nat i + 1) (length am) T) as (c & Ec & [Lc Wc Vc]); [lia|done|].
    eapply computes_const; [exact Ec|].
    assert (length c = length am) by done. assert (length am = length c) by done.
    gate uge_spec as ge Ge. gate eq_bits_spec as eqi Is. gate gate_and_spec as co Co. gate gate_or_spec as ix Ix.
    gate gate_and_spec as hc Hc. gate gate_or_spec as hb Hhb. gate gate_and_spec as lo Lo. gate gate_or_spec as be Be.
    apply computes_ret. split; [|split]; cbn [fst snd];
      (eapply reads_ext; [by split; [eauto with wires|intros rho _; reflexivity]|]); intros rho Hr; at_rho rho Hr;
      rewrite Z.mod_small in Vc by (unfold size in Hlt; lia); unfold lit.
    + rewrite append_any by (lia || done || apply num_bound). by rewrite Ix, R1, Co, Ge, Vc.
    + rewrite append_half by (lia || done || apply num_bound). by rewrite Hhb, R2, Hc, Is, Vc.
    + rewrite append_below by (lia || done || apply num_bound). by rewrite Be, R3, Lo, lit_true_negate, Co, Ge, Is, Vc.
  - intros acc' G1 X Hacc'. advance X.
    eapply computes_weaken; [apply (IH (Datatypes.S i) acc' (fun rho => p rho + 2 ^ Z.of_nat i * lit rho b)); try done; [lia|]|].
    + intros rho. specialize (Hp rho). pose proof (lit_bound rho b). rewrite Nat2Z.inj_succ, Z.pow_succ_r by lia. nia.
    + intros r G2 X2 (R1 & R2 & R3).
      split; [|split]; (eapply reads_ext; [eassumption|]); intros rho _; cbv beta; f_equal;
        rewrite num_cons, Nat2Z.inj_succ, Z.pow_succ_r by lia; lia.
Qed.

Lemma shifted_out_spec G ls am : truth G one -> wires G am -> wires G ls -> (length am <= 64)%nat ->
  Z.of_nat (length ls) < 2 ^ size am ->
  computes (shifted_out_bits one ls am) G (dropped_post (fun rho => num rho ls) (fun rho => num rho am)).
Proof.
  intros T Ham Hls Hsz Hlt. unfold shifted_out_bits, enumerate.
  eapply computes_weaken; [apply (shifted_out_go am ls 0 _ (fun _ => 0)); try done|].
  - pose proof (zero_reads one G T) as Z0. split; [|split]; cbn [fst snd]; (eapply reads_ext; [exact Z0|]); intros rho _.
    + unfold dropped_any. by rewrite Zmod_0_l.
    + unfold dropped_half. by rewrite Z.testbit_0_l, andb_false_r.
    + unfold dropped_below. by rewrite Zmod_0_l, andb_false_r.
  - intros r G' X (R1 & R2 & R3). split; [|split]; (eapply reads_ext; [eassumption|]); intros rho _; cbv beta; f_equal;
      change (2 ^ Z.of_nat 0) with 1; lia.
Qed.

(** ** Rounding *)

(** The mode's bits, and towards zero where there are none. *)
Definition mode_num (rho : valuation) (mode : option (list Lit)) : Z :=
  match mode with Some ls => num rho ls | None => 1 end.

Definition mode_lits (mode : option (list Lit)) : list Lit := default [] mode.
Definition mode_length (mode : option (list Lit)) : Prop := forall ls, mode = Some ls -> (3 <= length ls <= 64)%nat.

Lemma const_small G v w : truth G one -> 0 <= v < 2 ^ Z.of_nat w -> (w <= 64)%nat ->
  exists ls, const_bits one v w = Some ls /\ number G w ls (fun _ => v).
Proof.
  intros T Hv Hw. destruct (const_bits_spec G v w T) as (ls & E & N); [lia|done|]. exists ls. split; [done|].
  eapply number_ext; [exact N|]. intros rho _. by apply Z.mod_small.
Qed.

Lemma mode_const G v w : truth G one -> 0 <= v <= 4 -> (3 <= w <= 64)%nat ->
  exists ls, const_bits one v w = Some ls /\ number G w ls (fun _ => v).
Proof.
  intros T Hv Hw. apply const_small; [done| |lia]. assert (2 ^ 3 <= 2 ^ Z.of_nat w) by (apply Z.pow_le_mono_r; lia).
  change (2 ^ 3) with 8 in *. lia.
Qed.

(** The literals of the mode of a conversion. *)
Lemma mode_bits_spec G mode : truth G one -> wires G (mode_lits mode) -> mode_length mode ->
  exists ls, (match mode with Some m => Some m | None => const_bits one 1 3 end) = Some ls /\ wires G ls /\
    (3 <= length ls <= 64)%nat /\ always G (fun rho => num rho ls = mode_num rho mode).
Proof.
  intros T Hm Hl. destruct mode as [ls|]; cbn in *.
  - exists ls. specialize (Hl ls eq_refl). by repeat (split; [done|]).
  - destruct (mode_const G 1 3 T) as (ls & E & [L W V]); [lia..|]. exists ls.
    do 2 (split; [done|]). split; [lia|done].
Qed.

Lemma increment_spec G sig am sl sign lsb mode : truth G one -> wires G sig -> wires G am -> (length am <= 64)%nat ->
  Z.of_nat (length sig) < 2 ^ size am -> wire G sl -> wire G sign -> wire G lsb ->
  wires G (mode_lits mode) -> mode_length mode ->
  computes (float_to_int_increment one sig am sl sign lsb mode) G (fun y G' => reads G' y (fun rho =>
    round_bits (mode_num rho mode) (lit_true rho sign) (lit_true rho lsb) (num rho sig) (num rho am) && negb (lit_true rho sl))).
Proof.
  intros T Hs Ha La Lt Wsl Wsign Wlsb Hm Hl. unfold float_to_int_increment.
  destruct (mode_bits_spec G mode T Hm Hl) as (ms & Em & Wm & Lm & Vm). eapply computes_const; [exact Em|].
  eapply computes_bind; [by apply shifted_out_spec|]. intros [[ix hb] be] G1 X (Ix & Hb & Be). cbn [fst snd] in *. advance X. clear X.
  gate gate_and_spec as gr Gr. gate gate_and_spec as ti Ti. gate gate_and_spec as tu Tu. gate gate_or_spec as rn Rn.
  gate gate_and_spec as rd Rd. gate gate_and_spec as ru Ru.
  match type of T with truth ?G _ =>
    destruct (mode_const G 0 (length ms) T ltac:(lia) Lm) as (c0 & E0 & [L0 W0 V0]);
    destruct (mode_const G 2 (length ms) T ltac:(lia) Lm) as (c2 & E2 & [L2 W2 V2]);
    destruct (mode_const G 3 (length ms) T ltac:(lia) Lm) as (c3 & E3 & [L3 W3 V3]);
    destruct (mode_const G 4 (length ms) T ltac:(lia) Lm) as (c4 & E4 & [L4 W4 V4]) end.
  apply eq_sym in L0, L2, L3, L4.
  eapply computes_const; [exact E0|]. gate eq_bits_spec as m0 M0.
  eapply computes_const; [exact E2|]. gate eq_bits_spec as m2 M2.
  eapply computes_const; [exact E3|]. gate eq_bits_spec as m3 M3.
  eapply computes_const; [exact E4|]. gate eq_bits_spec as m4 M4.
  gate gate_and_spec as k0 K0. gate gate_and_spec as k2 K2. gate gate_and_spec as k3 K3. gate gate_and_spec as k4 K4.
  gate gate_or_spec as i1 I1. gate gate_or_spec as i2 I2. gate gate_or_spec as i3 I3.
  eapply computes_weaken; [apply gate_and_spec; eauto with wires|]. intros y G' X R. advance X.
  eapply reads_ext; [exact R|]. clear R. intros rho Hr. at_rho rho Hr.
  rewrite lit_true_negate, I3, I2, I1, K0, K2, K3, K4, M0, M2, M3, M4, V0, V2, V3, V4, Vm, Rn, Rd, Ru, Tu, Ti, Gr, !lit_true_negate, Ix, Hb, Be.
  done.
Qed.

Lemma increment_number G W n sig am sl sign lsb mode f g h i j : truth G one -> number G W sig f -> number G n am g ->
  (n <= 64)%nat -> Z.of_nat W < 2 ^ Z.of_nat n -> reads G sl h -> reads G sign i -> reads G lsb j ->
  wires G (mode_lits mode) -> mode_length mode ->
  computes (float_to_int_increment one sig am sl sign lsb mode) G (fun y G' => reads G' y (fun rho =>
    round_bits (mode_num rho mode) (i rho) (j rho) (f rho) (g rho) && negb (h rho))).
Proof.
  intros T [Ls Ws Vs] [La Wa Va] Hn HW [Wsl Vsl] [Wsi Vsi] [Wlsb Vlsb] Hm Hl.
  eapply computes_weaken; [apply increment_spec; try done; [lia|by rewrite Ls, (size_length _ _ La)]|].
  intros y G' X R. advance X. eapply reads_ext; [exact R|]. intros rho Hr. cbv beta.
  by rewrite (Vs rho Hr), (Va rho Hr), (Vsl rho Hr), (Vsi rho Hr), (Vlsb rho Hr).
Qed.

End circuits.
