(* ===== verification/FloatInt.v ===== *)
(** * What the float-to-integer circuits compute

    The conversion and its definedness, against [FloatSem]. *)
From S2P Require Import Prelude Words ApInt ApIntSpec Lang LangSpec SatSolver SatLits Dag Bits Gates FloatCircuits Bitblast.
From S2P Require Import FloatSem GateSpec CircuitSpec CircuitWord FloatSpec.
#[local] Open Scope Z_scope.

(** ** The quotient, from the shifter *)
Section quotient.
Context (e m : Z) (He : 2 <= e) (Hm : 0 <= m) (Hfit : f_bias e + m < 2 ^ (e + 1)).

Definition f_quotient (x : Z) : Z := f_numerator e m x / f_denominator e m x.

Lemma f_effective_bound x : 1 <= f_effective e m x < 2 ^ e.
Proof using He.
  unfold f_effective. pose proof (f_exponent_bound e m ltac:(lia) x). assert (2 ^ 2 <= 2 ^ e) by (apply Z.pow_le_mono_r; lia). lia.
Qed.

Definition f_base : Z := f_bias e + m.
Definition amount_left (x : Z) : Z := (f_effective e m x - f_base) mod 2 ^ (e + 1).
Definition amount_right (x : Z) : Z := (f_base - f_effective e m x) mod 2 ^ (e + 1).

Lemma shifter_quotient x w W : 0 <= w <= Z.of_nat W ->
  (if f_base <=? f_effective e m x then shift_num true W (f_significand e m x) (amount_left x)
   else shift_num false W (f_significand e m x) (amount_right x)) mod 2 ^ w = f_quotient x mod 2 ^ w.
Proof using He Hm Hfit.
  intros Hw. pose proof (f_effective_bound x) as BE. pose proof (f_bias_pos e He). unfold shift_num, f_quotient, f_numerator, f_denominator, f_shift, amount_left, amount_right.
  assert (2 ^ (e + 1) = 2 * 2 ^ e) as P by (rewrite Z.pow_add_r by lia; change (2 ^ 1) with 2; lia).
  assert (0 <= f_base < 2 ^ (e + 1)) as Bb by (unfold f_base; lia). fold f_base. destruct (Z.leb_spec f_base (f_effective e m x)).
  - rewrite (Z.mod_small (f_effective e m x - _)) by lia. rewrite (Z.max_r 0 (f_effective e m x - _)), (Z.max_l 0 (- _)), Z.div_1_r by lia.
    by rewrite mod_pow2_mono by lia.
  - rewrite (Z.mod_small (f_base - _)) by lia. rewrite (Z.max_l 0 (f_effective e m x - _)), (Z.max_r 0 (- _)), Z.mul_1_r by lia.
    do 3 f_equal. lia.
Qed.

Lemma increment_exact mode x :
  round_bits mode (f_sign e m x) (Z.odd (f_quotient x)) (f_significand e m x) (amount_right x) && negb (f_base <=? f_effective e m x) =
  round_up mode (f_sign e m x) (f_numerator e m x) (f_denominator e m x).
Proof using He Hm Hfit.
  pose proof (f_effective_bound x) as BE. pose proof (f_bias_pos e He). unfold f_quotient, f_numerator, f_denominator, f_shift, amount_right.
  assert (0 <= f_base < 2 ^ (e + 1)) as Bb by (unfold f_base; lia). fold f_base. destruct (Z.leb_spec f_base (f_effective e m x)).
  - rewrite andb_false_r, (Z.max_l 0 (- _)) by lia. unfold round_up. change (2 ^ 0) with 1. rewrite Z.mod_1_r. cbn. rewrite !andb_false_r.
    by destruct (mode =? 0), (mode =? 2), (mode =? 3), (mode =? 4).
  - rewrite andb_true_r, (Z.mod_small (f_base - _)) by lia. rewrite (Z.max_l 0 (f_effective e m x - _)), (Z.max_r 0 (- _)), Z.mul_1_r by lia.
    replace (- (f_effective e m x - f_base)) with (f_base - f_effective e m x) by lia. apply round_bits_spec. lia.
Qed.

End quotient.

(** The formats and widths that the constants of the circuits have room for. *)
Record convertible_format (e m w : nat) : Prop := {
  cf_exponent : (2 <= e < 64)%nat;
  cf_fraction : (m <= 64)%nat;
  cf_base : f_bias (Z.of_nat e) + Z.of_nat m < 2 ^ (Z.of_nat e + 1);
  cf_significand : Z.of_nat m + 1 < 2 ^ (Z.of_nat e + 1);
  cf_width : (1 <= w)%nat /\ Z.of_nat w <= 2 ^ (Z.of_nat e - 1);
}.

Section circuits.
Context {S : Type} `{CnfLaws S} (one : Lit).
#[local] Hint Resolve zero_wire zeros_wires : wires.

Lemma head_odd ls : (0 < length ls)%nat -> exists l, default (zero one) (head ls) = l /\ (forall G, wires G ls -> wire G l) /\
  forall rho, lit_true rho l = Z.odd (num rho ls).
Proof.
  destruct ls as [|l ls]; cbn; [lia|]. intros _. exists l. split; [done|]. split; [by intros G [? _]%list.Forall_cons|].
  intros rho. symmetry. exact (num_odd rho l ls).
Qed.

(** Whether a number of [w] bits has its top bit set. *)
Lemma top_bit w ls : length ls = w -> (0 < w)%nat -> exists l, ls !! (w - 1)%nat = Some l /\ (forall G, wires G ls -> wire G l) /\
  forall rho, lit_true rho l = (2 ^ (Z.of_nat w - 1) <=? num rho ls).
Proof.
  intros L Hw. destruct (lookup_lt_is_Some_2 ls (w - 1)) as [l E]; [lia|]. exists l. split; [done|]. split; [intros G Hl; by eapply wires_lookup|].
  intros rho. pose proof (num_range w rho ls L) as B.
  rewrite (lookup_bit _ _ _ rho E).
  rewrite Nat2Z.inj_sub by lia. change (Z.of_nat 1) with 1. rewrite Z.testbit_odd, Z.shiftr_div_pow2 by lia.
  set (h := 2 ^ (Z.of_nat w - 1)). assert (2 ^ Z.of_nat w = 2 * h) as P by (subst h; rewrite <- Z.pow_succ_r by lia; f_equal; lia).
  assert (0 < h) as Hh by (apply Z.pow_pos_nonneg; lia). pose proof (Z.div_mod (num rho ls) h). pose proof (Z.mod_pos_bound (num rho ls) h Hh).
  assert (0 <= num rho ls / h < 2) as Hq by (split; [apply Z.div_pos; lia|apply Z.div_lt_upper_bound; lia]).
  assert (num rho ls / h = 0 \/ num rho ls / h = 1) as [E0|E0] by lia; rewrite E0 in *; cbn [Z.odd]; destruct (Z.leb_spec h (num rho ls)); lia.
Qed.

Lemma conversion_fits_spec signed w sign carry rounded G : truth G one -> (1 <= w)%nat -> length rounded = w ->
  wires G rounded -> wire G sign -> wire G carry ->
  computes (conversion_fits one signed w sign carry rounded) G (fun y G' => reads G' y (fun rho =>
    rounded_ok signed (Z.of_nat w) (lit_true rho sign) (lit_true rho carry) (num rho rounded))).
Proof.
  intros T Hw L Wr Ws Wc. unfold conversion_fits. destruct signed; cbn [rounded_ok].
  - destruct (top_bit w rounded L) as (msb & Em & Wm & Vm); [lia|]. specialize (Wm G Wr).
    eapply computes_const with (a := msb); [destruct (Nat.ltb_spec 0 w); [done|lia]|].
    assert (wires G (take (w - 1) rounded)) by (by apply Forall_take).
    gate or_reduce_spec as lo Lo. gate gate_and_spec as po Po. gate gate_and_spec as pm Pm. gate gate_and_spec as no No.
    gate gate_or_spec as so So. gate gate_or_spec as ov Ov. apply computes_ret. eapply reads_ext; [by apply negate_reads|].
    intros rho Hr. at_rho rho Hr. rewrite So, Po, No, Pm, Lo, lit_true_negate, !Vm, num_take. by replace (Z.of_nat (w - 1)) with (Z.of_nat w - 1) by lia.
  - gate or_reduce_spec as nz Nz. gate gate_and_spec as ng Ng.
    eapply computes_weaken; [apply gate_and_spec; eauto with wires|]. intros y G' X R. advance X.
    eapply reads_ext; [exact R|]. clear R. intros rho Hr. at_rho rho Hr. by rewrite !lit_true_negate, Ng, Nz.
Qed.

(** ** The conversion *)
Section conversion.
Context (e m w : nat) (xs : list Lit) (L : length xs = (m + e + 1)%nat) (Hf : convertible_format e m w).
Notation eZ := (Z.of_nat e).
Notation mZ := (Z.of_nat m).
Notation wZ := (Z.of_nat w).
Notation operand := (mkFloatToInt xs w e m).

Lemma bias_nat : Z.of_nat (fi_bias operand) = f_bias eZ.
Proof using L Hf.
  destruct Hf as [[He _] _ _ _ _]. unfold fi_bias, f_bias. cbn [fi_exp_width]. pose proof (Nat.pow_nonzero 2 (e - 1)).
  rewrite Nat2Z.inj_sub, Nat2Z.inj_pow by lia. rewrite Nat2Z.inj_sub by lia. done.
Qed.

Lemma exponent_number G : wires G xs -> number G e (take e (drop m xs)) (fun rho => f_exponent eZ mZ (num rho xs)).
Proof using L. intros Hx. split; [by apply exponent_length|by apply Forall_take, Forall_drop|intros rho _; apply exponent_num]. Qed.

Lemma fraction_number G : wires G xs -> number G m (take m xs) (fun rho => f_fraction mZ (num rho xs)).
Proof using L. intros Hx. split; [rewrite length_take; lia|by apply Forall_take|intros rho _; apply fraction_num]. Qed.

(** What the conversion's literals read as. *)
Definition increment_of (mode : option (list Lit)) (rho : valuation) : Z :=
  let x := num rho xs in Z.b2z (round_up (mode_num rho mode) (f_sign eZ mZ x) (f_numerator eZ mZ x) (f_denominator eZ mZ x)).
Definition sum_of (mode : option (list Lit)) (rho : valuation) : Z := f_quotient eZ mZ (num rho xs) mod 2 ^ wZ + increment_of mode rho.

Definition conversion_post (signed : bool) (mode : option (list Lit)) (r : list Lit * Lit) (G : Ctx) : Prop :=
  number G w (fst r) (fun rho => float_to_int_value eZ mZ signed wZ (mode_num rho mode) (num rho xs)) /\
  reads G (snd r) (fun rho => rounded_ok signed wZ (f_sign eZ mZ (num rho xs)) (2 ^ wZ <=? sum_of mode rho) (sum_of mode rho mod 2 ^ wZ)).

(** The significand, and its exponent, from the fields. *)
Lemma significand_number G z : truth G one -> wires G xs -> reads G z (fun rho => f_exponent eZ mZ (num rho xs) =? 0) ->
  number G (Nat.max w (m + 1)) (vec_resize (Nat.max w (m + 1)) (zero one) (take m xs ++ [negate z]))
    (fun rho => f_significand eZ mZ (num rho xs)).
Proof using L Hf.
  intros T Hx [Wz Vz]. assert (wires G (take m xs ++ [negate z])) as Ws.
  { apply wires_app. split; [by apply Forall_take|auto with wires]. }
  eapply number_ext; [by apply zero_extend_number|]. intros rho Hr. cbv beta.
  rewrite num_app, (fraction_size e m xs L), fraction_num, num_cons, num_nil. unfold lit. rewrite lit_true_negate, (Vz rho Hr).
  pose proof (f_significand_bound eZ mZ ltac:(lia) (num rho xs)) as [B _]. unfold f_significand in *.
  rewrite Z.mod_small; [destruct (_ =? 0); cbn; lia|].
  assert (2 ^ (mZ + 1) <= 2 ^ Z.of_nat (Nat.max w (m + 1))) by (apply Z.pow_le_mono_r; lia).
  destruct (_ =? 0); cbn [negb Z.b2z] in *; lia.
Qed.

Lemma effective_number G f : truth G one ->
  number G e f (fun rho => if f_exponent eZ mZ (num rho xs) =? 0 then 1 else f_exponent eZ mZ (num rho xs)) ->
  number G (e + 1) (f ++ [zero one]) (fun rho => f_effective eZ mZ (num rho xs)).
Proof.
  intros T [Lf Wf Vf]. split; [rewrite length_app, Lf; done|apply wires_app; split; [done|auto with wires]|].
  intros rho Hr. rewrite num_app, num_cons, num_nil. unfold lit. rewrite (zero_lit one G T rho Hr), (Vf rho Hr).
  unfold f_effective. pose proof (Z.mod_pos_bound (num rho xs / 2 ^ mZ) (2 ^ eZ)) as B.
  fold (f_exponent eZ mZ (num rho xs)) in B. assert (0 < 2 ^ eZ) by (apply Z.pow_pos_nonneg; lia).
  destruct (Z.eqb_spec (f_exponent eZ mZ (num rho xs)) 0); cbn; lia.
Qed.

(** The truncated magnitude, from the shifter's two results. *)
Lemma magnitude_number G mag : truth G one ->
  number G (Nat.max w (m + 1)) mag (fun rho => let x := num rho xs in
    if f_base eZ mZ <=? f_effective eZ mZ x then shift_num true (Nat.max w (m + 1)) (f_significand eZ mZ x) (amount_left eZ mZ x)
    else shift_num false (Nat.max w (m + 1)) (f_significand eZ mZ x) (amount_right eZ mZ x)) ->
  number G w (take w mag) (fun rho => f_quotient eZ mZ (num rho xs) mod 2 ^ wZ).
Proof using L Hf.
  intros T [Lm Wm Vm]. destruct Hf as [[He _] _ Hb _ _]. split; [rewrite length_take; lia|by apply Forall_take|].
  intros rho Hr. rewrite num_take, (Vm rho Hr). apply shifter_quotient; lia.
Qed.

(** The rounded bits and what is stored with them, from the adder's sum. *)
Lemma rounded_sum G mode inc mag r : truth G one ->
  number G w mag (fun rho => f_quotient eZ mZ (num rho xs) mod 2 ^ wZ) ->
  reads G inc (fun rho => round_up (mode_num rho mode) (f_sign eZ mZ (num rho xs)) (f_numerator eZ mZ (num rho xs)) (f_denominator eZ mZ (num rho xs))) ->
  sum_post w mag (zeros one w) inc r G ->
  number G w (fst r) (fun rho => sum_of mode rho mod 2 ^ wZ) /\ reads G (snd r) (fun rho => 2 ^ wZ <=? sum_of mode rho).
Proof.
  intros T [_ _ Vm] [_ Vi] (Lr & Wr & Wc & Vr). assert (always G (fun rho => num rho (fst r) + 2 ^ wZ * lit rho (snd r) = sum_of mode rho)) as E.
  { intros rho Hr. rewrite (Vr rho Hr), (Vm rho Hr), (zeros_num one G w T rho Hr). unfold lit at 1. rewrite (Vi rho Hr). unfold sum_of, increment_of. lia. }
  assert (forall rho, 0 <= num rho (fst r) < 2 ^ wZ) as B by (intros rho; by apply num_range).
  split; split; try done; intros rho Hr; cbv beta; rewrite <- (E rho Hr); specialize (B rho).
  - by rewrite Z.mul_comm, Z.mod_add, Z.mod_small by lia.
  - unfold lit. destruct (lit_true rho (snd r)); cbn [Z.b2z]; lia.
Qed.

Lemma value_of_sum mode rho : sum_of mode rho mod 2 ^ wZ = to_int eZ mZ (mode_num rho mode) (num rho xs) mod 2 ^ wZ.
Proof. unfold sum_of, to_int, round_by, f_quotient. apply Zplus_mod_idemp_l. Qed.

Lemma float_to_int_spec signed mode G : truth G one -> wires G xs -> wires G (mode_lits mode) -> mode_length mode ->
  computes (float_to_int one operand signed mode) G (conversion_post signed mode).
Proof using L Hf.
  intros T Hx Hm Hl. pose proof Hf as [[He He'] Hm64 Hb Hsig [Hw Hw']]. unfold float_to_int, fi_exponent, fi_fraction, fi_sign.
  cbn [fi_bits fi_width fi_exp_width fi_mant_width].
  destruct (sign_lookup e m xs L) as (sg & Esg & Wsg & Vsg). assert (reads G sg (fun rho => f_sign eZ mZ (num rho xs))) as Rsg by (split; [by apply Wsg|by intros rho _]).
  assert (2 ^ 2 <= 2 ^ eZ) as P2 by (apply Z.pow_le_mono_r; lia). pose proof (f_bias_pos eZ ltac:(lia)) as Hbp.
  pose proof (exponent_number G Hx) as Nexp.
  assert (Z.of_nat (fi_bias operand + m) = f_base eZ mZ) as Ebase by (by rewrite Nat2Z.inj_add, bias_nat).
  gate nor_spec as z Vz.
  apply (reads_ext _ _ _ (fun rho => f_exponent eZ mZ (num rho xs) =? 0)) in Vz; [|intros rho _; by rewrite exponent_num].
  match type of T with truth ?G _ => destruct (const_small one G 1 e T ltac:(lia) ltac:(lia)) as (c1 & E1 & N1);
    destruct (const_small one G (f_base eZ mZ) (e + 1) T) as (ba & Eb & Nb);
      [rewrite Nat2Z.inj_add; unfold f_base; change (Z.of_nat 1) with 1; lia|lia|] end.
  eapply computes_const; [exact E1|]. gate mux_number as ef Ef. pose proof (effective_number _ ef T Ef) as Neff.
  eapply computes_const; [by rewrite Ebase|]. pose proof (significand_number _ z T Hx Vz) as Nsig.
  rewrite length_app, length_take, L. cbn [length]. replace (Nat.min m (m + e + 1)) with m by lia.
  gate uge_number as sl Sl. gate subtract_number as la La. gate subtract_number as ra Ra.
  gate shift_number as lf Lf. gate shift_number as rt Rt. gate mux_number as mg Mg.
  apply (number_ext _ _ _ _ (fun rho => let x := num rho xs in
    if f_base eZ mZ <=? f_effective eZ mZ x then shift_num true (Nat.max w (m + 1)) (f_significand eZ mZ x) (amount_left eZ mZ x)
    else shift_num false (Nat.max w (m + 1)) (f_significand eZ mZ x) (amount_right eZ mZ x))) in Mg.
  2:{ intros rho _. cbv beta. unfold amount_left, amount_right. by rewrite Nat2Z.inj_add. }
  pose proof (magnitude_number _ mg T Mg) as Nmg. eapply computes_const; [exact Esg|].
  destruct (head_odd (take w mg)) as (lsb & -> & Wlsb & Vlsb); [rewrite (nm_length _ _ _ _ Nmg); lia|].
  assert (reads G7 lsb (fun rho => Z.odd (f_quotient eZ mZ (num rho xs)))) as Rlsb.
  { split; [apply Wlsb, Nmg|]. intros rho Hr. rewrite Vlsb, (nm_num _ _ _ _ Nmg rho Hr). rewrite <- !Z.bit0_odd. apply Z.mod_pow2_bits_low. lia. }
  assert (Z.of_nat (Nat.max w (m + 1)) < 2 ^ Z.of_nat (e + 1)) as Hroom.
  { assert (2 ^ (eZ - 1) < 2 ^ (eZ + 1)) by (apply Z.pow_lt_mono_r; lia). rewrite Nat2Z.inj_add. change (Z.of_nat 1) with 1. lia. }
  assert (e + 1 <= 64)%nat as He64 by lia. gate increment_number as inc Inc.
  apply (reads_ext _ _ _ (fun rho => round_up (mode_num rho mode) (f_sign eZ mZ (num rho xs)) (f_numerator eZ mZ (num rho xs)) (f_denominator eZ mZ (num rho xs)))) in Inc.
  2:{ intros rho _. cbv beta. rewrite <- increment_exact by lia. unfold amount_right. by rewrite Nat2Z.inj_add. }
  rewrite (nm_length _ _ _ _ Nmg).
  eapply computes_bind; [apply (adder_spec _ w); eauto with wires; [apply Nmg|apply length_zeros]|].
  intros r G9 X Hsum. advance X. clear X. destruct (rounded_sum _ mode inc (take w mg) r T Nmg Inc Hsum) as [Nr Rr]. destruct r as [rounded carry].
  cbn [fst snd] in *. pose proof (nm_length _ _ _ _ Nr) as Lr. pose proof (nm_wires _ _ _ _ Nr) as Wr.
  gate conversion_fits_spec as fits Fits.
  apply (reads_ext _ _ _ (fun rho => rounded_ok signed wZ (f_sign eZ mZ (num rho xs)) (2 ^ wZ <=? sum_of mode rho) (sum_of mode rho mod 2 ^ wZ))) in Fits.
  2:{ intros rho Hr. cbv beta. by rewrite (proj2 Rsg rho Hr), (proj2 Rr rho Hr), (nm_num _ _ _ _ Nr rho Hr). }
  destruct signed; cbn [negb].
  - eapply computes_bind; [by apply (neg_bits_spec one _ w)|]. intros ng G11 X Ng. cbv beta in Ng. advance X. clear X.
    eapply computes_bind; [eapply (mux_number one _ w); eassumption|]. intros rs G12 X Rs. cbv beta in Rs. advance X.
    apply computes_ret. split; [|exact Fits]. eapply number_ext; [exact Rs|]. intros rho Hr. cbv beta. unfold float_to_int_value. cbn [andb].
    rewrite (nm_num _ _ _ _ Nr rho Hr), value_of_sum. destruct (f_sign _ _ _); [|done]. by rewrite opp_mod by lia.
  - apply computes_ret. split; [|exact Fits]. eapply number_ext; [exact Nr|]. intros rho Hr. cbv beta. by rewrite value_of_sum.
Qed.

(** ** Definedness *)
Lemma less_than_exponent_spec limit G : truth G one -> wires G xs -> Z.of_nat limit < 2 ^ eZ ->
  computes (less_than_exponent one operand limit) G
    (fun y G' => reads G' y (fun rho => f_exponent eZ mZ (num rho xs) <? Z.of_nat limit)).
Proof using L Hf.
  intros T Hx Hlim. pose proof Hf as [[He He'] _ _ _ _]. unfold less_than_exponent, fi_exponent. cbn [fi_bits fi_exp_width fi_mant_width].
  destruct (const_small one G (Z.of_nat limit) e T) as (c & Ec & Nc); [lia|lia|]. eapply computes_const; [exact Ec|].
  pose proof (exponent_number G Hx) as Nexp.
  gate uge_number as y R. apply computes_ret. eapply reads_ext; [by apply negate_reads|]. intros rho _. cbv beta. by rewrite Z.ltb_antisym.
Qed.

Lemma boundary_fraction_spec G : truth G one -> wires G xs -> (2 <= w)%nat ->
  computes (if (w =? 0)%nat then pure None
    else if (w - 1 <=? m)%nat then
      limit ← pure (const_bits one (2 ^ Z.of_nat (m - (w - 1))) m);
      y ← uge one (take m xs) limit;
      mret (negate y)
    else nor one (take m xs)) G (fun y G' => reads G' y (fun rho => boundary_fraction mZ wZ (num rho xs))).
Proof using L Hf.
  intros T Hx Hw. pose proof (fraction_number G Hx) as Nfr. destruct (Nat.eqb_spec w 0); [lia|]. unfold boundary_fraction.
  pose proof Hf as [_ Hm64 _ _ _]. destruct (Nat.leb_spec (w - 1) m).
  - replace (Z.of_nat (m - (w - 1))) with (mZ - (wZ - 1)) by lia. replace (wZ - 1 <=? mZ) with true by lia.
    destruct (const_small one G (2 ^ (mZ - (wZ - 1))) m T) as (c & Ec & Nc); [split; [apply Z.pow_nonneg; lia|apply Z.pow_lt_mono_r; lia]|lia|].
    eapply computes_const; [exact Ec|]. gate uge_number as y R. apply computes_ret. eapply reads_ext; [by apply negate_reads|].
    intros rho _. cbv beta. by rewrite Z.ltb_antisym.
  - replace (wZ - 1 <=? mZ) with false by lia. pose proof (nm_wires _ _ _ _ Nfr). eapply computes_weaken; [by apply nor_spec|]. intros y G' X R. advance X.
    eapply reads_ext; [exact R|]. intros rho Hr. cbv beta. by rewrite (nm_num _ _ _ _ Nfr rho Hr).
Qed.

Definition bounds_post (signed : bool) (r : Lit * Lit) (G : Ctx) : Prop :=
  let ex rho := f_exponent eZ mZ (num rho xs) in
  let top := f_bias eZ + wZ - 1 in
  reads G (fst r) (fun rho => if signed then (ex rho <? top) || ((ex rho =? top) && boundary_fraction mZ wZ (num rho xs)) else ex rho <? f_bias eZ) /\
  reads G (snd r) (fun rho => if signed then ex rho <? top else ex rho <? f_bias eZ + wZ).

Lemma conversion_bounds_spec signed G : truth G one -> wires G xs -> (signed = true -> 2 <= w)%nat ->
  computes (conversion_bounds one operand signed) G (bounds_post signed).
Proof using L Hf.
  intros T Hx Hw. pose proof Hf as [[He He'] _ _ _ [Hw1 Hw2]]. pose proof bias_nat as Eb. pose proof (f_bias_pos eZ ltac:(lia)) as Hbp.
  assert (f_bias eZ + wZ < 2 ^ eZ) as Hlim.
  { unfold f_bias. assert (2 ^ eZ = 2 * 2 ^ (eZ - 1)) by (rewrite <- Z.pow_succ_r by lia; f_equal; lia). lia. }
  unfold conversion_bounds, bounds_post. cbn [fi_width fi_mant_width]. destruct signed.
  - specialize (Hw eq_refl). set (thr := (fi_bias operand + w - 1)%nat).
    assert (Z.of_nat thr = f_bias eZ + wZ - 1) as Et by (subst thr; lia). assert (Z.of_nat thr < 2 ^ eZ) by lia.
    gate less_than_exponent_spec as bl Bl. unfold fi_exponent at 1. cbn [fi_bits fi_exp_width fi_mant_width].
    pose proof (exponent_number _ Hx) as Nexp.
    match type of T with truth ?G _ => destruct (const_small one G (Z.of_nat thr) e T ltac:(lia) ltac:(lia)) as (c & Ec & Nc) end.
    eapply computes_const; [exact Ec|]. gate eq_number as at_ At. unfold fi_fraction. cbn [fi_bits fi_mant_width].
    eapply computes_bind; [by apply boundary_fraction_spec|]. intros bf G' X Bf. cbv beta in Bf. advance X. clear X.
    gate gate_and_spec as bo Bo. gate gate_or_spec as no No. apply computes_ret. cbn [fst snd].
    split; [eapply reads_ext; [exact No|]|eapply reads_ext; [exact Bl|]]; intros rho Hr; at_rho rho Hr; [by rewrite Bl, Bo, At, Bf, Et|by rewrite Et].
  - assert (Z.of_nat (fi_bias operand) < 2 ^ eZ) by lia. assert (Z.of_nat (fi_bias operand + w) < 2 ^ eZ) by lia.
    gate less_than_exponent_spec as no No. gate less_than_exponent_spec as po Po. apply computes_ret. cbn [fst snd].
    split; [eapply reads_ext; [exact No|]|eapply reads_ext; [exact Po|]]; intros rho _; cbv beta; [by rewrite Eb|by rewrite Nat2Z.inj_add, Eb].
Qed.

(** The two tests on a conversion's sum. *)
Lemma range_of_sum signed mode rho : (signed = true -> 2 <= w)%nat ->
  let x := num rho xs in
  exponent_ok eZ mZ signed wZ x && rounded_ok signed wZ (f_sign eZ mZ x) (2 ^ wZ <=? sum_of mode rho) (sum_of mode rho mod 2 ^ wZ) =
  fits_range signed wZ (f_sign eZ mZ x) (to_int eZ mZ (mode_num rho mode) x).
Proof using L Hf.
  intros Hs x. destruct Hf as [[He _] _ _ _ [Hw _]]. assert (0 < 2 ^ wZ) as Hp by (apply Z.pow_pos_nonneg; lia).
  apply conversion_in_range; [lia|lia|lia|intros E; specialize (Hs E); lia| |by apply Z.mod_pos_bound].
  transitivity (sum_of mode rho); [|reflexivity].
  pose proof (Z.mod_pos_bound (f_quotient eZ mZ x) (2 ^ wZ) Hp) as B. assert (0 <= increment_of mode rho <= 1) as Bi.
  { unfold increment_of. destruct (round_up _ _ _ _); cbn; lia. }
  assert (0 <= sum_of mode rho <= 2 ^ wZ) as Bs by (unfold sum_of; fold x; lia). clearbody x.
  destruct (Z.leb_spec (2 ^ wZ) (sum_of mode rho)); cbn [Z.b2z]; [|rewrite Z.mod_small by lia; lia].
  assert (sum_of mode rho = 2 ^ wZ) as -> by lia. rewrite Z.mod_same by lia. lia.
Qed.

Lemma float_to_int_defined_spec signed mode fits G : truth G one -> wires G xs -> (signed = true -> 2 <= w)%nat ->
  wires G (mode_lits mode) -> mode_length mode ->
  reads G fits (fun rho => rounded_ok signed wZ (f_sign eZ mZ (num rho xs)) (2 ^ wZ <=? sum_of mode rho) (sum_of mode rho mod 2 ^ wZ)) ->
  computes (float_to_int_defined one operand signed (Some fits) mode) G
    (fun y G' => reads G' y (fun rho => convertible eZ mZ signed wZ (mode_num rho mode) (num rho xs))).
Proof using L Hf.
  intros T Hx Hs Hm Hl Rf. pose proof Hf as [[He He'] _ _ _ _]. unfold float_to_int_defined, fi_exponent, fi_sign.
  cbn [fi_bits fi_exp_width fi_mant_width]. destruct (sign_lookup e m xs L) as (sg & Esg & Wsg & Vsg). specialize (Wsg G Hx).
  assert (2 ^ 2 <= 2 ^ eZ) as P2 by (apply Z.pow_le_mono_r; lia).
  pose proof (exponent_number G Hx) as Nexp. destruct (const_small one G (2 ^ eZ - 1) e T ltac:(lia) ltac:(lia)) as (c & Ec & Nc).
  eapply computes_const; [exact Ec|]. gate eq_number as inf Inf.
  eapply computes_bind; [by apply conversion_bounds_spec|]. intros [no po] G1 X [No Po]. cbn [fst snd] in *. advance X. clear X.
  eapply computes_const; [exact Esg|]. gate gate_and_spec as ng Ng. gate gate_and_spec as ps Ps. gate gate_or_spec as ir Ir.
  gate gate_and_spec as df Df.
  eapply computes_bind with (K1 := fun y G' => reads G' y (fun rho => f_finite eZ mZ (num rho xs) &&
    fits_range signed wZ (f_sign eZ mZ (num rho xs)) (to_int eZ mZ (mode_num rho mode) (num rho xs)))).
  { eapply computes_weaken; [apply gate_and_spec; eauto with wires|]. intros y G' X R. advance X. eapply reads_ext; [exact R|].
    clear R. intros rho Hr. at_rho rho Hr.
    rewrite Df, Ir, Ng, Ps, !lit_true_negate, Inf, No, Po, Vsg, Rf, <- (range_of_sum signed mode rho Hs), andb_assoc. f_equal.
    unfold f_finite, exponent_ok. f_equal. destruct signed, (f_sign eZ mZ (num rho xs)); cbn [andb orb negb]; rewrite ?orb_false_r; done. }
  intros d G' X Rd. advance X. clear X. destruct mode as [ms|]; cbn [mode_lits default mode_num] in *.
  - specialize (Hl ms eq_refl). destruct (mode_const one G' 4 (length ms) T ltac:(lia) Hl) as (c4 & E4 & N4).
    eapply computes_const; [exact E4|]. assert (number G' (length ms) ms (fun rho => num rho ms)) as Nm by (by split).
    gate uge_number as al Al. eapply computes_weaken; [apply gate_and_spec; eauto with wires|]. intros y G'' X R. advance X.
    eapply reads_ext; [exact R|]. clear R. intros rho Hr. at_rho rho Hr. unfold convertible. by rewrite Rd, Al.
  - apply computes_ret. eapply reads_ext; [exact Rd|]. intros rho _. unfold convertible. cbv beta. by rewrite andb_true_r.
Qed.

End conversion.
End circuits.

(** ** What the integer-to-float circuit computes

    Normalisation and rounding, against [FloatSem.int_to_float_bits]. *)
(** ** The register *)
Lemma register_enough fuel l t : (1 <= l)%nat -> (t <= l + fuel)%nat -> (t <= register_loop fuel l t)%nat.
Proof.
  revert l; induction fuel as [|fuel IH]; intros l Hl Ht; cbn [register_loop]; [lia|].
  destruct (Nat.ltb_spec l t); [|done]. apply IH; lia.
Qed.

Lemma register_pow2 fuel j t : exists k, register_loop fuel (2 ^ j)%nat t = (2 ^ k)%nat.
Proof.
  revert j; induction fuel as [|fuel IH]; intros j; cbn [register_loop]; [by exists j|].
  destruct (_ <? t)%nat; [apply (IH (Datatypes.S j))|by exists j].
Qed.

Lemma stages_loop_pow2 fuel s j : (s <= j <= s + fuel)%nat -> stages_loop fuel s (2 ^ j) = j.
Proof.
  revert s; induction fuel as [|fuel IH]; intros s Hs; cbn [stages_loop]; [lia|].
  destruct (Nat.ltb_spec (2 ^ s) (2 ^ j)) as [Hlt|Hge].
  - apply Nat.pow_lt_mono_r_iff in Hlt; [|lia]. apply IH. lia.
  - destruct (Nat.eq_dec s j); [done|]. assert (2 ^ s < 2 ^ j)%nat by (apply Nat.pow_lt_mono_r; lia). lia.
Qed.

Lemma stage_count_pow2 j : stage_count (2 ^ j) = j.
Proof. apply stages_loop_pow2. pose proof (Nat.pow_gt_lin_r 2 j). lia. Qed.

(** Rounding does not depend on the scale. *)
Lemma round_scale neg n d c : 0 < d -> 0 < c -> round_by 0 neg (n * c) (d * c) = round_by 0 neg n d.
Proof.
  intros Hd Hc. unfold round_by, round_up. cbn [Z.eqb]. rewrite Z.div_mul_cancel_r, Z.mul_mod_distr_r by lia.
  assert ((d * c <? 2 * (n mod d * c)) = (d <? 2 * (n mod d))) as -> by (destruct (Z.ltb_spec d (2 * (n mod d))); [apply Z.ltb_lt|apply Z.ltb_ge]; nia).
  assert ((2 * (n mod d * c) =? d * c) = (2 * (n mod d) =? d)) as -> by (destruct (Z.eqb_spec (2 * (n mod d)) d); [apply Z.eqb_eq|apply Z.eqb_neq]; nia).
  done.
Qed.

Lemma rounded_normal m a l s : 0 <= m -> 0 < a -> 2 ^ (l - 1) <= a * 2 ^ s < 2 ^ l -> m < l -> 0 <= s ->
  s = l - 1 - Z.log2 a /\ round_by 0 false (a * 2 ^ s) (2 ^ (l - 1 - m)) = rounded_significand m a.
Proof.
  intros Hm Ha B Hl Hs. assert (Z.log2 a + s = l - 1) as E.
  { rewrite <- log2_mul_pow2 by lia. apply Z.log2_unique; [lia|]. by replace (Z.succ (l - 1)) with l by lia. }
  split; [lia|]. unfold rounded_significand. pose proof (Z.log2_nonneg a). set (k := Z.log2 a) in *.
  assert (0 < 2 ^ Z.max 0 (k - m)) by (apply Z.pow_pos_nonneg; lia).
  destruct (Z.le_gt_cases m k).
  - rewrite <- (round_scale false (a * 2 ^ Z.max 0 (m - k)) (2 ^ Z.max 0 (k - m)) (2 ^ s)) by (try done; apply Z.pow_pos_nonneg; lia).
    rewrite Z.max_l, Z.max_r, Z.mul_1_r, <- Z.pow_add_r by lia. do 2 f_equal. lia.
  - rewrite <- (round_scale false (a * 2 ^ Z.max 0 (m - k)) (2 ^ Z.max 0 (k - m)) (2 ^ (l - 1 - m))) by (try done; apply Z.pow_pos_nonneg; lia).
    rewrite (Z.max_r 0 (m - k)), (Z.max_l 0 (k - m)), Z.mul_1_l, <- Z.mul_assoc, <- Z.pow_add_r by lia. do 3 f_equal. lia.
Qed.

(** The top bits are zero below a power of two. *)
Lemma top_zero l b cur rho : length cur = l -> (b <= l)%nat ->
  (num rho (take b (drop (l - b) cur)) =? 0) = (num rho cur <? 2 ^ (Z.of_nat l - Z.of_nat b)).
Proof.
  intros L Hb. pose proof (num_range l rho cur L) as B. rewrite num_take, num_drop, Nat2Z.inj_sub by done.
  set (d := 2 ^ (Z.of_nat l - Z.of_nat b)). assert (0 < d) as Hd by (apply Z.pow_pos_nonneg; lia).
  assert (2 ^ Z.of_nat l = d * 2 ^ Z.of_nat b) as P by (subst d; rewrite <- Z.pow_add_r by lia; f_equal; lia).
  rewrite Z.mod_small by (split; [apply Z.div_pos; lia|apply Z.div_lt_upper_bound; lia]).
  pose proof (Z.div_mod (num rho cur) d). pose proof (Z.mod_pos_bound (num rho cur) d Hd).
  assert (0 <= num rho cur / d) by (apply Z.div_pos; lia).
  destruct (Z.ltb_spec (num rho cur) d); [apply Z.eqb_eq|apply Z.eqb_neq]; nia.
Qed.

Lemma default_wire G d ls i : wire G d -> wires G ls -> wire G (default d (ls !! i)).
Proof. intros Hd Hl. destruct (ls !! i) eqn:E; [by eapply wires_lookup|done]. Qed.

Section circuits.
Context {S : Type} `{CnfLaws S} (one : Lit).
#[local] Hint Resolve zero_wire zeros_wires : wires.

(** ** Normalisation *)
Definition normal_at (l k : nat) (x : Z) (cur : Z) (shift : Z) : Prop :=
  (x = 0 -> cur = 0) /\ (0 < x -> cur = x * 2 ^ shift /\ 2 ^ (Z.of_nat l - 2 ^ Z.of_nat k) <= cur).

Record normalized (G : Ctx) (l j k : nat) (f : valuation -> Z) (st : list Lit * list Lit) : Prop := {
  nz_length : length (fst st) = l;
  nz_wires : wires G (fst st);
  nz_shift : exists hs, snd st = zeros one k ++ hs /\ (k + length hs = j)%nat;
  nz_shift_wires : wires G (snd st);
  nz_normal : always G (fun rho => normal_at l k (f rho) (num rho (fst st)) (num rho (snd st)));
}.

Lemma shift_left_spec cur n rho G : truth G one -> cholds G rho ->
  num rho (shift_left cur n (zero one)) = (num rho cur * 2 ^ Z.of_nat n) mod 2 ^ size cur.
Proof.
  intros T Hr. unfold num. change (shift_left cur n (zero one)) with (shift_const cur n ShLeft (zero one)).
  by rewrite bits_shift_const, (zero_lit one G T rho Hr), shift_left_value, size_bits.
Qed.

Lemma normal_step l k x cur shift : 2 ^ Z.of_nat (Datatypes.S k) <= Z.of_nat l -> 0 <= x -> 0 <= shift -> 0 <= cur < 2 ^ Z.of_nat l ->
  normal_at l (Datatypes.S k) x cur shift ->
  normal_at l k x (if cur <? 2 ^ (Z.of_nat l - 2 ^ Z.of_nat k) then (cur * 2 ^ (2 ^ Z.of_nat k)) mod 2 ^ Z.of_nat l else cur)
    (Z.b2z (cur <? 2 ^ (Z.of_nat l - 2 ^ Z.of_nat k)) * 2 ^ Z.of_nat k + shift).
Proof.
  intros Hl Hx Hs Hc [N0 N1]. rewrite Nat2Z.inj_succ, Z.pow_succ_r in * by lia. set (b := 2 ^ Z.of_nat k) in *.
  assert (0 < b) as Hb by (apply Z.pow_pos_nonneg; lia).
  assert (2 ^ Z.of_nat l = 2 ^ (Z.of_nat l - b) * 2 ^ b) as P by (rewrite <- Z.pow_add_r by lia; f_equal; lia).
  assert (0 < 2 ^ b) by (apply Z.pow_pos_nonneg; lia).
  destruct (Z.ltb_spec cur (2 ^ (Z.of_nat l - b))) as [Hlt|Hge]; cbn [Z.b2z].
  - rewrite Z.mod_small by nia. split.
    + intros E. rewrite (N0 E). lia.
    + intros Hp. destruct (N1 Hp) as [E1 E2]. split.
      * rewrite E1, Z.mul_1_l, (Z.add_comm b), Z.pow_add_r by lia. lia.
      * fold b. replace (2 ^ (Z.of_nat l - b)) with (2 ^ (Z.of_nat l - 2 * b) * 2 ^ b); [nia|]. rewrite <- Z.pow_add_r by lia. f_equal. lia.
  - rewrite Z.add_0_l. split; [done|]. intros Hp. destruct (N1 Hp) as [E1 E2]. by split.
Qed.

Lemma normalize_stage l j k f cur shift G : truth G one -> normalized G l j (Datatypes.S k) f (cur, shift) ->
  (2 ^ Datatypes.S k <= l)%nat -> (forall rho, 0 <= f rho) ->
  computes (high_zero ← nor one (take (2 ^ k) (drop (l - 2 ^ k) cur));
    cur ← mux_bits high_zero (shift_left cur (2 ^ k) (zero one)) cur;
    shift ← pure (vset shift k high_zero);
    mret (cur, shift)) G (fun st G' => normalized G' l j k f st).
Proof.
  intros T [Lc Wc Hsh Ws N] Hl Hf. cbn [fst snd] in *. destruct Hsh as (hs & -> & Lh).
  assert (wires G (take (2 ^ k) (drop (l - 2 ^ k) cur))) as Wt by (by apply Forall_take, Forall_drop).
  assert (wires G (shift_left cur (2 ^ k) (zero one))) as Wsl.
  { unfold wires, shift_left. apply Forall_map, Forall_forall. intros p _. destruct (2 ^ k <=? p)%nat; [|by apply zero_wire].
    apply default_wire; [by apply zero_wire|done]. }
  assert (length (shift_left cur (2 ^ k) (zero one)) = l) as Lsl by (unfold shift_left; by rewrite length_map, length_seq).
  gate nor_spec as h Hh. gate mux_num_spec as c' Hc.
  assert (zeros one (Datatypes.S k) ++ hs = zeros one k ++ zero one :: hs) as Ez.
  { unfold zeros. rewrite replicate_S_end, <- app_assoc. done. }
  rewrite Ez in *. pose proof (vset_middle (zeros one k) (zero one) h hs) as Ev. rewrite length_zeros in Ev.
  eapply computes_const; [exact Ev|]. apply computes_ret. apply wires_app in Ws as [Wz Wh]. apply list.Forall_cons in Wh as [_ Wh].
  split; cbn [fst snd]; [apply Hc|apply Hc| | |].
  - exists (h :: hs). cbn [length]. split; [done|lia].
  - apply wires_app. split; [done|]. apply list.Forall_cons. split; [apply Hh|done].
  - intros rho Hr. pose proof (num_range l rho cur Lc) as B. pose proof (num_bound rho (zeros one k ++ zero one :: hs)) as Bs.
    pose proof (N rho Hr) as N'. cbv beta in N'.
    assert ((num rho (take (2 ^ k) (drop (l - 2 ^ k) cur)) =? 0) = (num rho cur <? 2 ^ (Z.of_nat l - 2 ^ Z.of_nat k))) as Et.
    { rewrite top_zero by (cbn [Nat.pow] in Hl; (done || lia)). by rewrite Nat2Z.inj_pow. }
    assert (num rho (zeros one k ++ h :: hs) = Z.b2z (num rho cur <? 2 ^ (Z.of_nat l - 2 ^ Z.of_nat k)) * 2 ^ Z.of_nat k + num rho (zeros one k ++ zero one :: hs)) as ->.
    { rewrite !num_app, !num_cons. unfold lit, size. rewrite length_zeros, (proj2 Hh rho Hr), Et, (zero_lit one _ T rho Hr). cbn [Z.b2z]. lia. }
    rewrite (nm_num _ _ _ _ Hc rho Hr), (proj2 Hh rho Hr), (shift_left_spec cur _ rho _ T Hr), (size_length _ _ Lc), Et, Nat2Z.inj_pow.
    apply normal_step; [|done|lia|done|done]. apply Nat2Z.inj_le in Hl. by rewrite Nat2Z.inj_pow in Hl.
Qed.

Lemma normalize_go l j k f cur shift G : truth G one -> normalized G l j k f (cur, shift) -> (2 ^ k <= l)%nat -> (forall rho, 0 <= f rho) ->
  computes (foldM (fun '(cur, shift) k =>
    let by_ := (2 ^ k)%nat in
    high_zero ← nor one (take by_ (drop (l - by_) cur));
    cur ← mux_bits high_zero (shift_left cur by_ (zero one)) cur;
    shift ← pure (vset shift k high_zero);
    mret (cur, shift)) (rev (seq 0 k)) (cur, shift)) G (fun st G' => normalized G' l j 0 f st).
Proof.
  revert cur shift G; induction k as [|k IH]; intros cur shift G T N Hl Hf; [by apply computes_ret|].
  rewrite seq_S, rev_app_distr. cbn [rev app Nat.add foldM]. eapply computes_bind; [by apply (normalize_stage l j k f)|].
  intros [cur' shift'] G1 X N'. advance X. apply IH; [done|done| |done]. cbn [Nat.pow] in Hl. lia.
Qed.

(** The leading one ends at the top; the shift is what is left of the register. *)
Lemma normalise_spec j f cur G : truth G one -> number G (2 ^ j) cur f -> (forall rho, 0 <= f rho) ->
  computes (normalize one (2 ^ j) j cur) G (fun st G' => normalized G' (2 ^ j) j 0 f st).
Proof.
  intros T [Lc Wc Vc] Hf. unfold normalize. apply (normalize_go (2 ^ j) j j); [done| |done|done].
  split; cbn [fst snd]; [done|done|exists []; by rewrite app_nil_r|by apply zeros_wires|].
  intros rho Hr. rewrite (zeros_num one G j T rho Hr), (Vc rho Hr). split; [done|]. intros Hp.
  rewrite Z.mul_1_r, Nat2Z.inj_pow, Z.sub_diag. split; [done|]. change (2 ^ 0) with 1. lia.
Qed.

(** ** Sign and magnitude *)
Lemma sign_magnitude_spec signed value v G : truth G one -> wires G value -> length value = v -> (signed = true -> 0 < v)%nat ->
  computes (if signed then
      sign ← pure (last_bit value);
      neg ← neg_bits one value;
      magnitude ← mux_bits sign neg value;
      mret (sign, magnitude)
    else mret (zero one, value)) G
    (fun r G' => reads G' (fst r) (fun rho => int_value signed v (num rho value) <? 0) /\
      number G' v (snd r) (fun rho => Z.abs (int_value signed v (num rho value)))).
Proof.
  intros T Hv Lv Hpos. assert (forall rho, 0 <= num rho value < 2 ^ Z.of_nat v) as B by (intros rho; by apply num_range).
  unfold int_value. destruct signed.
  - specialize (Hpos eq_refl). destruct (last_bit_spec G v value Hv Lv Hpos) as (s & Es & Ws & Vs). eapply computes_const; [exact Es|].
    gate neg_bits_spec as ng Ng. pose proof (nm_length _ _ _ _ Ng) as Ln. pose proof (nm_wires _ _ _ _ Ng) as Wn.
    gate mux_num_spec as mg Mg. apply computes_ret. cbn [fst snd]. split.
    + split; [done|]. intros rho _. rewrite Vs. apply neg_bit_sign. apply B.
    + eapply number_ext; [exact Mg|]. intros rho Hr. cbv beta. rewrite <- mag_abs by (lia || apply B). unfold mag.
      by rewrite Vs, (nm_num _ _ _ _ Ng rho Hr).
  - apply computes_ret. cbn [fst snd]. split.
    + eapply reads_ext; [by apply zero_reads|]. intros rho _. cbv beta. specialize (B rho). lia.
    + split; [done|done|]. intros rho _. specialize (B rho). lia.
Qed.

(** ** Rounding the normalised register *)
Definition kept (m l : nat) (c : Z) : Z := round_by 0 false c (2 ^ (Z.of_nat l - 1 - Z.of_nat m)).

Lemma round_register {B} G m l cur (k : list Lit * Lit -> Gate S B) (K : B -> Ctx -> Prop) :
  truth G one -> wires G cur -> length cur = l -> (m + 2 <= l)%nat ->
  (forall r G', extends G G' -> number G' (m + 2) (fst r) (fun rho => kept m l (num rho cur) mod 2 ^ Z.of_nat (m + 2)) ->
    computes (k r) G' K) ->
  computes (let frac_lo := (l - 1 - m)%nat in
    guard ← pure (cur !! (frac_lo - 1)%nat);
    sticky ← or_reduce one (take (frac_lo - 1) cur);
    frac_lsb ← pure (cur !! frac_lo);
    sticky_or_lsb ← gate_or sticky frac_lsb;
    round_up ← gate_and guard sticky_or_lsb;
    let significand := drop frac_lo (take l cur) ++ [zero one] in
    r ← adder significand (zeros one (length significand)) round_up;
    k r) G K.
Proof.
  intros T Wc Lc Hl Hk. assert (extends G G) as X0 by reflexivity. cbv zeta. set (lo := (l - 1 - m)%nat).
  destruct (lookup_lt_is_Some_2 cur (lo - 1)) as [g Eg]; [lia|]. destruct (lookup_lt_is_Some_2 cur lo) as [b Eb]; [lia|].
  assert (wire G g) as Wg by (by eapply wires_lookup). assert (wire G b) as Wb by (by eapply wires_lookup).
  assert (wires G (take (lo - 1) cur)) as Wt by (by apply Forall_take).
  eapply computes_const; [exact Eg|]. gate or_reduce_spec as st St. eapply computes_const; [exact Eb|].
  gate gate_or_spec as so So. gate gate_and_spec as up Up.
  rewrite (take_ge cur l) by lia. set (sig := drop lo cur ++ [zero one]).
  assert (length sig = (m + 2)%nat) as Lsig by (unfold sig; rewrite length_app, length_drop; cbn; lia).
  assert (wires G2 sig) as Wsig by (apply wires_app; split; [by apply Forall_drop|auto with wires]).
  eapply computes_bind; [apply (adder_spec G2 (m + 2)); eauto with wires; rewrite length_zeros; done|].
  intros [r c] G' X Hsum. advance X. pose proof (sum_number _ _ _ _ _ _ _ Hsum) as Nr. apply Hk; [eassumption|]. cbn [fst].
  eapply number_ext; [exact Nr|]. intros rho Hr. cbv beta. f_equal. rewrite Lsig, (zeros_num one _ _ T rho Hr). unfold kept, round_by, lit.
  replace (Z.of_nat l - 1 - Z.of_nat m) with (Z.of_nat lo) by lia.
  rewrite <- (round_bits_spec 0 false _ (Z.of_nat lo)) by lia. unfold sig. rewrite num_app, num_drop, num_cons, num_nil. unfold lit.
  rewrite (zero_lit one _ T rho Hr). cbn [Z.b2z]. rewrite (proj2 Up rho Hr), (proj2 So rho Hr), (proj2 St rho Hr).
  rewrite (lookup_bit _ _ _ rho Eg), (lookup_bit _ _ _ rho Eb), num_take, Nat2Z.inj_sub by lia. change (Z.of_nat 1) with 1.
  unfold round_bits, dropped_half, dropped_below. replace (0 <? Z.of_nat lo) with true by lia.
  rewrite (Z.testbit_odd _ (Z.of_nat lo)), Z.shiftr_div_pow2 by lia. cbn [andb orb Z.eqb Z.compare Pos.compare].
  destruct (Z.testbit (num rho cur) (Z.of_nat lo - 1)), (negb (num rho cur mod 2 ^ (Z.of_nat lo - 1) =? 0)), (Z.odd (num rho cur / 2 ^ Z.of_nat lo));
    cbn; lia.
Qed.

(** ** Packing the fields *)
Lemma packed_fields e m l x c sh neg : 0 <= m -> m < Z.of_nat l -> 0 < x -> 0 <= sh -> c < 2 ^ Z.of_nat l -> normal_at l 0 x c sh ->
  let r := round_by 0 false c (2 ^ (Z.of_nat l - 1 - m)) mod 2 ^ (m + 2) in
  r mod 2 ^ m + 2 ^ m * ((((Z.of_nat l - 1 + f_bias e) mod 2 ^ e - sh) mod 2 ^ e + Z.b2z (2 ^ (m + 1) <=? r)) mod 2 ^ e)
    + 2 ^ (m + e) * Z.b2z neg = int_to_float_bits e m neg x.
Proof.
  intros Hm Hl Hx Hs Hc [_ N] r. destruct (N Hx) as [-> Hlo]. change (2 ^ Z.of_nat 0) with 1 in Hlo.
  destruct (rounded_normal m x (Z.of_nat l) sh) as [Es Er]; [done|done|done|done|done|].
  pose proof (rounded_significand_bound 2 m ltac:(lia) Hm x Hx) as B.
  assert (2 ^ (m + 2) = 2 * 2 ^ (m + 1)) as P by (replace (m + 2) with (Z.succ (m + 1)) by lia; apply Z.pow_succ_r; lia).
  assert (0 < 2 ^ m) by (apply Z.pow_pos_nonneg; lia).
  assert (r = rounded_significand m x) as -> by (unfold r; rewrite Er; apply Z.mod_small; lia).
  unfold int_to_float_bits, rounds_over. destruct (Z.eqb_spec x 0); [lia|]. do 3 f_equal.
  rewrite Zminus_mod_idemp_l, Zplus_mod_idemp_l. f_equal. lia.
Qed.

Lemma pack_spec G e m l rounded shift zr sign (x c : valuation -> Z) (neg : valuation -> bool) :
  truth G one -> (0 < e <= 64)%nat -> (m < l)%nat ->
  number G (m + 2) rounded (fun rho => kept m l (c rho) mod 2 ^ Z.of_nat (m + 2)) -> wires G shift ->
  reads G sign neg -> reads G zr (fun rho => x rho =? 0) -> (forall rho, 0 <= x rho) ->
  always G (fun rho => c rho < 2 ^ Z.of_nat l /\ normal_at l 0 (x rho) (c rho) (num rho shift)) ->
  computes (overflow ← pure (rounded !! (m + 1)%nat);
    base ← pure (assert! (0 <? e)%nat && (e <=? 64)%nat; const_bits one (Z.of_nat l - 1 + (2 ^ Z.of_nat (e - 1) - 1)) e);
    unrounded ← subtract one base (vec_resize e (zero one) shift);
    '(biased, _) ← adder unrounded (zeros one e) overflow;
    let out := take m rounded ++ biased ++ [sign] in
    mux_bits zr (zeros one (length out)) out) G
    (fun r G' => number G' (m + e + 1) r (fun rho => int_to_float_bits (Z.of_nat e) (Z.of_nat m) (neg rho) (x rho))).
Proof.
  intros T [He He'] Hl Nr Ws Rs Rz Hx Hn. destruct (top_bit (m + 2) rounded (nm_length _ _ _ _ Nr)) as (ov & Eo & Wo & Vo); [lia|].
  replace (m + 2 - 1)%nat with (m + 1)%nat in Eo by lia. replace (Z.of_nat (m + 2) - 1) with (Z.of_nat m + 1) in Vo by lia.
  specialize (Wo G (nm_wires _ _ _ _ Nr)). eapply computes_const; [exact Eo|].
  pose proof (Z.pow_pos_nonneg 2 (Z.of_nat (e - 1)) ltac:(lia) ltac:(lia)) as Hp.
  destruct (const_bits_spec one G (Z.of_nat l - 1 + (2 ^ Z.of_nat (e - 1) - 1)) e T) as (ba & Eb & Nb); [lia|done|].
  eapply computes_const; [rewrite (proj2 (Nat.ltb_lt _ _) He), (proj2 (Nat.leb_le _ _) He'); exact Eb|].
  pose proof (zero_extend_number one G e shift T Ws) as Nsh.
  gate subtract_number as un Un. pose proof (nm_length _ _ _ _ Un) as Lun. pose proof (nm_wires _ _ _ _ Un) as Wun.
  eapply computes_bind; [apply (adder_spec _ e); eauto with wires; apply length_zeros|]. intros [bi co] G1 X Hsum. advance X. clear X.
  pose proof (sum_number _ _ _ _ _ _ _ Hsum) as [Lb Wb Vb]. cbn [fst] in *. clear Hsum.
  set (out := take m rounded ++ bi ++ [sign]). pose proof (nm_length _ _ _ _ Nr) as Lr. pose proof (nm_wires _ _ _ _ Nr) as Wr.
  assert (length out = (m + e + 1)%nat) as Lo by (unfold out; rewrite !length_app, length_take, Lr, Lb; cbn; lia).
  assert (wires G1 out) as Wout.
  { apply wires_app. split; [by apply Forall_take|]. apply wires_app. split; [done|]. apply list.Forall_cons. split; [apply Rs|done]. }
  rewrite Lo. eapply computes_weaken; [apply (mux_num_spec G1 (m + e + 1)); eauto with wires; apply length_zeros|].
  intros r G' X N. advance X. eapply number_ext; [exact N|]. intros rho Hr. cbv beta. rewrite (proj2 Rz rho Hr), (zeros_num one _ _ T rho Hr).
  destruct (Z.eqb_spec (x rho) 0) as [E0|E0]; [by rewrite E0|]. pose proof (Hn rho Hr) as [Hc Hnorm]. specialize (Hx rho).
  pose proof (num_bound rho shift) as Bs.
  rewrite <- (packed_fields _ (Z.of_nat m) l (x rho) (c rho) (num rho shift)) by (done || lia). cbv zeta.
  unfold out. rewrite !num_app, num_cons, num_nil, num_take, (Vb rho Hr), (nm_num _ _ _ _ Un rho Hr), (nm_num _ _ _ _ Nr rho Hr), (zeros_num one _ _ T rho Hr).
  unfold size, lit. rewrite length_take, Lr, Lb, Vo, (proj2 Rs rho Hr), (nm_num _ _ _ _ Nr rho Hr). unfold kept.
  rewrite Nat.min_l, !Nat2Z.inj_add, (Nat2Z.inj_sub e 1), Zminus_mod_idemp_r, Z.add_0_r by lia.
  change (Z.of_nat 1) with 1. change (Z.of_nat 2) with 2. fold (f_bias (Z.of_nat e)). rewrite (Z.pow_add_r 2 (Z.of_nat m) (Z.of_nat e)) by lia. ring.
Qed.

(** ** The conversion *)
Lemma int_to_float_spec signed value v e m G : truth G one -> wires G value -> length value = v -> (signed = true -> 0 < v)%nat ->
  (0 < e <= 64)%nat ->
  computes (int_to_float one value signed e m) G (fun r G' => number G' (m + e + 1) r (fun rho =>
    let z := int_value signed v (num rho value) in int_to_float_bits (Z.of_nat e) (Z.of_nat m) (z <? 0) (Z.abs z))).
Proof.
  intros T Hv Lv Hpos He. unfold int_to_float.
  eapply computes_bind; [by apply (sign_magnitude_spec signed value v)|]. intros [sign mg] G1 X [Rs Nm]. cbn [fst snd] in *. advance X. clear X.
  set (f := fun rho => Z.abs (int_value signed v (num rho value))) in *.
  assert (exists j, register_loop (Nat.max (length value) (m + 2)) 1 (Nat.max (length value) (m + 2)) = (2 ^ j)%nat) as [j El]
    by apply (register_pow2 _ 0).
  pose proof (register_enough (Nat.max (length value) (m + 2)) 1 (Nat.max (length value) (m + 2)) ltac:(lia) ltac:(lia)) as Hl.
  cbv zeta. rewrite El, stage_count_pow2 in *.
  assert (number G1 (2 ^ j) (vec_resize (2 ^ j) (zero one) mg) f) as Ncur.
  { eapply number_ext; [apply zero_extend_number; [done|apply Nm]|]. intros rho Hr. cbv beta. rewrite (nm_num _ _ _ _ Nm rho Hr).
    apply Z.mod_small. rewrite <- (nm_num _ _ _ _ Nm rho Hr). pose proof (num_range v rho mg (nm_length _ _ _ _ Nm)).
    assert (2 ^ Z.of_nat v <= 2 ^ Z.of_nat (2 ^ j)) by (apply Z.pow_le_mono_r; lia). lia. }
  pose proof (nm_wires _ _ _ _ Ncur) as Wcur. gate nor_spec as zr Zr.
  eapply computes_bind; [apply (normalise_spec j f); [done|done|intros rho; apply Z.abs_nonneg]|].
  intros [cur shift] G2 X [Lc Wc _ Wsh Nn]. cbn [fst snd] in *. advance X. clear X.
  apply (round_register G2 m (2 ^ j) cur); [done|done|done|lia|]. intros [rounded co] G3 X Nr. cbn [fst] in Nr. advance X. clear X.
  eapply computes_weaken; [apply (pack_spec G3 e m (2 ^ j) rounded shift zr sign f (fun rho => num rho cur)
    (fun rho => int_value signed v (num rho value) <? 0)); try done; [lia| |intros rho; apply Z.abs_nonneg|]|done].
  - eapply reads_ext; [exact Zr|]. intros rho Hr. cbv beta. by rewrite (nm_num _ _ _ _ Ncur rho Hr).
  - intros rho Hr. split; [by apply num_range|by apply Nn].
Qed.

End circuits.
