(* ===== verification/FloatTheorems.v ===== *)
(** * The theorems of the floating-point circuits

    The comparisons and the conversions of [FloatCircuits] against the
    Standard Library's IEEE 754 numbers, on any lawful sink of clauses: [decode]
    maps the bits of a format to a [spec_float], [SFcompare] compares and
    [binary_normalize] rounds an integer to it. *)
From S2P Require Import Prelude Words ApInt ApIntSpec Lang LangSpec SatSolver SatLits Dag Bits Gates FloatCircuits Bitblast.
From S2P Require Import FloatSem GateSpec CircuitSpec CircuitWord FloatSpec FloatInt.
From Stdlib Require Import SpecFloat.
#[local] Open Scope Z_scope.

(** ** Definitions of the statements *)

(** The integer that IEEE 754 converts a number to, when the destination of
    [w] bits can hold it. *)
Definition converted (signed : bool) (w mode : Z) (x : spec_float) : option Z :=
  match x with
  | S754_zero _ => Some 0
  | S754_finite s _ _ =>
    let r := int_magnitude mode x in
    if fits_range signed w s r then Some (if s then - r else r) else None
  | _ => None
  end.

(** [encode_float_to_int] and then [float_to_int_defined]. *)
Definition conversion {S} `{CnfSink S} (one : Lit) (operand : FloatToInt) (signed : bool) (mode : option (list Lit)) :
    Gate S (list Lit * Lit) :=
  '(bits, fits) ← float_to_int one operand signed mode;
  defined ← float_to_int_defined one operand signed (Some fits) mode;
  mret (bits, defined).

(** ** Lemmas *)
Lemma fits_zero signed w s : 1 <= w -> fits_range signed w s 0 = true.
Proof.
  intros Hw. assert (0 < 2 ^ (w - 1) /\ 0 < 2 ^ w) as [P1 P] by (split; apply Z.pow_pos_nonneg; lia).
  unfold fits_range. destruct signed, s; lia.
Qed.

Lemma converted_spec e m signed w mode x : 2 <= e -> 0 <= m -> 1 <= w ->
  convertible e m signed w mode x = (mode <=? 4) && bool_decide (is_Some (converted signed w mode (decode e m x))) /\
  forall v, converted signed w mode (decode e m x) = Some v -> float_to_int_value e m signed w mode x = v mod 2 ^ w.
Proof.
  intros He Hm Hw. pose proof (to_int_decode e m He Hm mode x) as T. unfold convertible, float_to_int_value.
  destruct (f_finite e m x) eqn:Ef.
  - rewrite T by done. assert (converted signed w mode (decode e m x) =
      if fits_range signed w (f_sign e m x) (int_magnitude mode (decode e m x)) then
        Some (if f_sign e m x then - int_magnitude mode (decode e m x) else int_magnitude mode (decode e m x)) else None) as ->.
    { unfold f_finite, decode in *. apply negb_true_iff in Ef. rewrite Ef. destruct (f_significand e m x); [|done|];
        cbn [converted int_magnitude]; rewrite fits_zero by done; by destruct (f_sign e m x). }
    set (r := int_magnitude _ _). cbn [andb]. rewrite (andb_comm (fits_range _ _ _ _)). unfold fits_range.
    destruct signed, (f_sign e m x); cbn [andb]; case_match; (split; [f_equal; symmetry; first [apply bool_decide_true; by eauto|apply bool_decide_false; by intros [? ?]]|]);
      intros v [= <-]; [done..|by assert (r = 0) as -> by lia|done].
  - unfold f_finite, decode in *. apply negb_false_iff in Ef. rewrite Ef.
    split; [|by destruct (f_fraction m x =? 0)]. destruct (f_fraction m x =? 0); cbn [converted];
      by rewrite bool_decide_false, andb_false_r by (by intros [? ?]).
Qed.

(** ** Inputs of the witnesses: two words of binary32 and a rounding mode over
    the variables of a context that holds variable 0 true *)
Definition one_lit : Lit := lit_positive 0.
Definition word_at (first w : nat) : list Lit := map lit_positive (seq first w).
Definition sample_ctx : Ctx := mkCtx 100 (fun rho => lit_true rho one_lit = true).

Lemma sample_truth : truth sample_ctx one_lit.
Proof. split; [cbv; lia|]. by intros rho Hr. Qed.

Lemma sample_word first w : (first + w <= 100)%nat -> wires sample_ctx (word_at first w).
Proof.
  intros Hw. apply list.Forall_forall. intros l (i & -> & Hi)%list_elem_of_fmap. apply elem_of_seq in Hi.
  unfold wire, lit_positive. rewrite lit_var_new. cbn. lia.
Qed.

Lemma binary32_format w : (1 <= w <= 128)%nat -> convertible_format 8 23 w.
Proof. intros Hw. split; [lia..| | |]; [by vm_compute|by vm_compute|]. split; [lia|]. change (2 ^ (Z.of_nat 8 - 1)) with 128. lia. Qed.

(** ** Properties *)

(** On any lawful sink the comparison circuit of two words of a format
    computes the IEEE 754 comparison of the numbers they encode: zeros are
    equal, a NaN is unordered, and infinities and subnormals have their order. *)
Theorem float_comparison_ieee {S} `{CnfLaws S} one k e m a b G : is_float_test k = true -> (1 <= e)%nat ->
  truth G one -> wires G a -> wires G b -> length a = (m + e + 1)%nat -> length b = (m + e + 1)%nat ->
  computes (float_compare one k e m a b) G (fun r G' => number G' 1 r (fun rho =>
    Z.b2z (float_op (Z.of_nat e) (Z.of_nat m) k (num rho a) (num rho b)))).
Proof. apply float_compare_spec. Qed.

Lemma float_comparison_ieee_witness :
  computes (S:=Solver) (float_compare one_lit SymKind.Lt 8 23 (word_at 1 32) (word_at 33 32)) sample_ctx
    (fun r G' => number G' 1 r (fun rho =>
      Z.b2z (float_op (Z.of_nat 8) (Z.of_nat 23) SymKind.Lt (num rho (word_at 1 32)) (num rho (word_at 33 32))))).
Proof.
  apply (float_comparison_ieee one_lit SymKind.Lt 8 23); try done; [lia|apply sample_truth|apply sample_word; lia..].
Defined.

(** C39: on any lawful sink the integer-to-float circuit computes, for an
    integer below [2 ^ bias] in magnitude, the number that IEEE 754 rounds it
    to, to nearest with ties to even. *)
Theorem int_to_float_rounds {S} `{CnfLaws S} one signed value e m G : truth G one -> wires G value -> (0 < length value)%nat ->
  (2 <= e <= 64)%nat ->
  computes (int_to_float one value signed e m) G (fun r G' => wires G' r /\ length r = (m + e + 1)%nat /\
    always G' (fun rho => let z := int_value signed (length value) (num rho value) in
      Z.abs z < 2 ^ f_bias (Z.of_nat e) ->
      decode (Z.of_nat e) (Z.of_nat m) (num rho r) = binary_normalize (Z.of_nat m + 1) (2 ^ (Z.of_nat e - 1)) z 0 false)).
Proof.
  intros T Hv Hl He. eapply computes_weaken; [apply (int_to_float_spec one signed value (length value)); [done..|lia]|].
  intros r G' X [L W V]. split; [done|]. split; [done|]. intros rho Hr z Hz. rewrite (V rho Hr). cbv zeta. fold z.
  by apply decode_int_to_float; [lia..|].
Qed.

Lemma int_to_float_rounds_witness :
  computes (S:=Solver) (int_to_float one_lit (word_at 1 64) true 8 23) sample_ctx (fun r G' => wires G' r /\ length r = (23 + 8 + 1)%nat /\
    always G' (fun rho => let z := int_value true (length (word_at 1 64)) (num rho (word_at 1 64)) in
      Z.abs z < 2 ^ f_bias (Z.of_nat 8) ->
      decode (Z.of_nat 8) (Z.of_nat 23) (num rho r) = binary_normalize (Z.of_nat 23 + 1) (2 ^ (Z.of_nat 8 - 1)) z 0 false)).
Proof.
  apply (int_to_float_rounds one_lit true (word_at 1 64) 8 23); [apply sample_truth|apply sample_word; lia|cbn; lia|lia].
Defined.

(** C40: on any lawful sink, for a signed destination of at least two bits or an
    unsigned one and a format whose exponent range covers the destination
    ([convertible_format]), the float-to-int circuit and its definedness
    circuit agree with IEEE 754 in every rounding mode: the conversion is
    defined exactly when the mode is one of the five and the number rounds to
    an integer the destination can hold, and then its bits are that integer's. *)
Theorem float_to_int_ieee {S} `{CnfLaws S} one signed e m w xs mode G : length xs = (m + e + 1)%nat -> convertible_format e m w ->
  (signed = true -> 2 <= w)%nat -> truth G one -> wires G xs -> wires G (mode_lits mode) -> mode_length mode ->
  computes (conversion one (mkFloatToInt xs w e m) signed mode) G (fun '(bits, defined) G' =>
    wires G' bits /\ length bits = w /\ wire G' defined /\ always G' (fun rho =>
      let target := converted signed (Z.of_nat w) (mode_num rho mode) (decode (Z.of_nat e) (Z.of_nat m) (num rho xs)) in
      (lit_true rho defined = true <-> mode_num rho mode <= 4 /\ is_Some target) /\
      forall v, target = Some v -> num rho bits = v mod 2 ^ Z.of_nat w)).
Proof.
  intros L Hf Hs T Hx Hm Hl. unfold conversion. pose proof Hf as [[He _] _ _ _ [Hw _]].
  eapply computes_bind; [by apply (float_to_int_spec one e m w xs)|]. intros [bits fits] G1 X [[Lb Wb Nb] Rf]. cbn [fst snd] in *. advance X.
  eapply computes_bind; [by apply (float_to_int_defined_spec one e m w xs)|]. intros d G2 X2 [Wd Vd]. cbn beta in Vd.
  apply computes_ret. split; [by eapply wires_mono|]. split; [done|]. split; [done|]. intros rho Hr. cbv zeta.
  destruct (converted_spec (Z.of_nat e) (Z.of_nat m) signed (Z.of_nat w) (mode_num rho mode) (num rho xs)) as [Ec Ev]; [lia..|].
  rewrite (Vd rho Hr), Ec, andb_true_iff, Z.leb_le, bool_decide_eq_true. split; [done|].
  intros v Hv. rewrite (Nb rho) by (by apply X2). by apply Ev.
Qed.

Lemma float_to_int_ieee_witness :
  computes (S:=Solver) (conversion one_lit (mkFloatToInt (word_at 1 32) 32 8 23) true (Some (word_at 33 3))) sample_ctx
    (fun '(bits, defined) G' =>
      wires G' bits /\ length bits = 32%nat /\ wire G' defined /\ always G' (fun rho =>
        let target := converted true (Z.of_nat 32) (mode_num rho (Some (word_at 33 3)))
          (decode (Z.of_nat 8) (Z.of_nat 23) (num rho (word_at 1 32))) in
        (lit_true rho defined = true <-> mode_num rho (Some (word_at 33 3)) <= 4 /\ is_Some target) /\
        forall v, target = Some v -> num rho bits = v mod 2 ^ Z.of_nat 32)).
Proof.
  apply (float_to_int_ieee one_lit true 8 23 32); [done|apply binary32_format; lia|lia|apply sample_truth|apply sample_word; lia..|].
  intros ls [= <-]. cbn. lia.
Defined.
