(* ===== verification/BlastSpec.v ===== *)
(** * What the encoders of the bit-blaster produce

    Triples for the encoders' monad and, kind by kind, the bits an encoder
    returns against [class_value]. *)
From S2P Require Import Prelude Words ApInt ApIntSpec LimbArith Lang LangSpec SatSolver SatLits Dag Bits Gates FloatCircuits.
From S2P Require Import Bitblast BlastSem GateSpec CircuitSpec CircuitWord.
#[local] Open Scope nat_scope.

(** The numbers and definedness bits that literals read as. *)
Definition rvals (bs : list (list Lit)) (rho : valuation) (k : nat) : Z := num rho (default [] (bs !! k)).
Definition rdefs (ds : list Lit) (rho : valuation) (k : nat) : bool :=
  match ds !! k with Some d => lit_true rho d | None => false end.

Lemma num_agree G rho rho' ls : wires G ls -> agree (cvars G) rho rho' -> num rho ls = num rho' ls.
Proof.
  intros Hw A. unfold num. f_equal. unfold bits. apply map_ext_in. intros l Hl.
  apply (lit_true_agree _ _ _ _ A). unfold wires in Hw. rewrite Forall_forall in Hw. by apply Hw.
Qed.

Lemma class_value_ext {V F} (graph : Dag SymKind.t (SymPayload V F) unit) sh w vals vals' defs defs' id c cs :
  (forall k, vals k = vals' k) -> (forall k, defs k = defs' k) ->
  class_value graph sh w vals defs id c cs = class_value graph sh w vals' defs' id c cs.
Proof.
  intros Hv Hd. destruct c; cbn [class_value]; rewrite ?Hv, ?Hd; try done.
  destruct (owner graph sh cs w); cbn; by rewrite ?Hv.
Qed.

Lemma class_defined_ext vals vals' defs defs' c cs : (forall k, vals k = vals' k) -> (forall k, defs k = defs' k) ->
  class_defined vals defs c cs = class_defined vals' defs' c cs.
Proof.
  intros Hv Hd. assert (forallb defs cs = forallb defs' cs) as E by (induction cs; cbn; congruence).
  destruct c; cbn [class_defined]; rewrite ?Hv, ?Hd, ?E; done.
Qed.

Lemma same_width_inv ws a c v : same_width ws a c = Some v -> ws !! a = Some v /\ ws !! c = Some v.
Proof.
  unfold same_width. destruct (ws !! a) as [x|]; [|done]. destruct (ws !! c) as [y|]; [|done]. cbn.
  destruct (Nat.eqb_spec x y) as [->|]; [|done]. by intros [= ->].
Qed.

Section encoders.
Context {S : Type} `{CnfLaws S} {V F : Type}.
Context (graph : Dag SymKind.t (SymPayload V F) unit) (widths : list (option nat)) (floats : list bool).

(** ** Triples *)
Definition encodes {A} (m : Enc A) (b : Blaster S) (G : Ctx) (K : A -> Blaster S -> Ctx -> Prop) : Prop :=
  stands G (solver b) -> local G ->
  exists a b' G', m b = Ok (a, b') /\ stands G' (solver b') /\ local G' /\ extends G G' /\ K a b' G'.

Lemma encodes_ret {A} (a : A) b G (K : A -> Blaster S -> Ctx -> Prop) : K a b G -> encodes (mret a) b G K.
Proof. intros HK Hs Hl. exists a, b, G. by repeat (split; [done || reflexivity|]). Qed.

Lemma encodes_bind {A B} (m : Enc A) (k : A -> Enc B) b G K1 K :
  encodes m b G K1 ->
  (forall a b1 G1, extends G G1 -> K1 a b1 G1 -> encodes (k a) b1 G1 K) ->
  encodes (m ≫= k) b G K.
Proof.
  intros Hm Hk Hs Hl. destruct (Hm Hs Hl) as (a & b1 & G1 & E1 & S1 & L1 & X1 & HK1).
  destruct (Hk a b1 G1 X1 HK1 S1 L1) as (c & b2 & G2 & E2 & S2 & L2 & X2 & HK).
  exists c, b2, G2. unfold mbind, enc_bind. rewrite E1. split; [done|]. split; [done|]. split; [done|].
  split; [by etransitivity|done].
Qed.

Lemma encodes_weaken {A} (m : Enc A) b G (K K' : A -> Blaster S -> Ctx -> Prop) :
  encodes m b G K -> (forall a b' G', extends G G' -> K a b' G' -> K' a b' G') -> encodes m b G K'.
Proof.
  intros Hm HK Hs Hl. destruct (Hm Hs Hl) as (a & b1 & G1 & E1 & S1 & L1 & X1 & HK1). exists a, b1, G1. auto 6.
Qed.

(** A step that only reads the state. *)
Lemma encodes_read {A B} (m : Enc A) (k : A -> Enc B) b G a K :
  m b = Ok (a, b) -> encodes (k a) b G K -> encodes (m ≫= k) b G K.
Proof.
  intros E Hk Hs Hl. destruct (Hk Hs Hl) as (c & b2 & G2 & E2 & Hrest). exists c, b2, G2.
  unfold mbind, enc_bind. by rewrite E.
Qed.

Lemma encodes_done {A} (m : Enc A) b G a (K : A -> Blaster S -> Ctx -> Prop) : m b = Ok (a, b) -> K a b G -> encodes m b G K.
Proof. intros E HK Hs Hl. exists a, b, G. rewrite E. by repeat (split; [done || reflexivity|]). Qed.

Lemma encodes_circuit {A} (m : Lit -> Gate S A) b G (K : A -> Blaster S -> Ctx -> Prop) :
  computes (m (b_one b)) G (fun a G' => forall s, K a (set_solver s b) G') -> encodes (circuit m) b G K.
Proof.
  intros Hm Hs Hl. destruct (Hm (solver b) Hs Hl) as (a & s & G' & E & S' & L' & X & HK).
  exists a, (set_solver s b), G'. unfold circuit. rewrite E. auto 6.
Qed.

Lemma circuit_step {A} (m : Lit -> Gate S A) b G (K : A -> Ctx -> Prop) : computes (m (b_one b)) G K ->
  encodes (circuit m) b G (fun a b' G' => (exists s, b' = set_solver s b) /\ K a G').
Proof. intros Hm. apply encodes_circuit. eapply computes_weaken; [exact Hm|]. eauto. Qed.

Lemma encodes_modify f b G (K : unit -> Blaster S -> Ctx -> Prop) : solver (f b) = solver b -> K tt (f b) G -> encodes (modify f) b G K.
Proof.
  intros E HK Hs Hl. exists tt, (f b), G. unfold modify. split; [done|]. rewrite E. by repeat (split; [done || reflexivity|]).
Qed.

(** ** What holds of the nodes encoded so far *)
Record nodes_ok (n : nat) (ws : list nat) (b : Blaster S) (G : Ctx) : Prop := {
  no_one : truth G (b_one b);
  no_bits : forall c ls, b_bits b !! c = Some ls -> wires G ls /\ ws !! c = Some (length ls);
  no_len : n <= length (b_bits b);
  no_defined : wires G (b_defined b);
  no_dlen : n <= length (b_defined b);
}.

Lemma nodes_ok_mono n ws b s G G' : extends G G' -> nodes_ok n ws b G -> nodes_ok n ws (set_solver s b) G'.
Proof.
  intros X [T B L D M]. split; [by eapply truth_mono| |done|by eapply wires_mono|done].
  intros c ls Hc. destruct (B c ls Hc). split; [by eapply wires_mono|done].
Qed.

Lemma nodes_ok_ext n ws b G G' : extends G G' -> nodes_ok n ws b G -> nodes_ok n ws b G'.
Proof. intros X N. apply (nodes_ok_mono _ _ _ (solver b) _ _ X) in N. by destruct b. Qed.

Lemma rvals_agree n ws b G rho rho' c : nodes_ok n ws b G -> agree (cvars G) rho rho' ->
  rvals (b_bits b) rho c = rvals (b_bits b) rho' c.
Proof.
  intros N A. unfold rvals. destruct (b_bits b !! c) as [ls|] eqn:E; [|done].
  eapply num_agree; [apply (no_bits _ _ _ _ N c ls E)|done].
Qed.

Lemma rdefs_agree n ws b G rho rho' c : nodes_ok n ws b G -> agree (cvars G) rho rho' ->
  rdefs (b_defined b) rho c = rdefs (b_defined b) rho' c.
Proof.
  intros N A. unfold rdefs. destruct (b_defined b !! c) as [d|] eqn:E; [|done].
  apply (lit_true_agree _ _ _ _ A). by eapply wires_lookup; [apply N|].
Qed.

Lemma bits_of_run n ws b G c : nodes_ok n ws b G -> c < n ->
  exists ls, bits_of c b = Ok (ls, b) /\ wires G ls /\ ws !! c = Some (length ls) /\
    b_bits b !! c = Some ls /\ forall rho, rvals (b_bits b) rho c = num rho ls.
Proof.
  intros N Hc. destruct (lookup_lt_is_Some_2 (b_bits b) c) as [ls E]; [pose proof (no_len _ _ _ _ N); lia|].
  exists ls. destruct (no_bits _ _ _ _ N c ls E). unfold bits_of, gets, mbind, enc_bind, expect, rvals. rewrite E. done.
Qed.

Lemma defined_of_run n ws b G c : nodes_ok n ws b G -> c < n ->
  exists d, defined_of c b = Ok (d, b) /\ wire G d /\ forall rho, rdefs (b_defined b) rho c = lit_true rho d.
Proof.
  intros N Hc. destruct (lookup_lt_is_Some_2 (b_defined b) c) as [d E]; [pose proof (no_dlen _ _ _ _ N); lia|].
  exists d. unfold defined_of, gets, mbind, enc_bind, expect, rdefs. rewrite E. split; [done|].
  split; [by eapply wires_lookup; [apply N|]|done].
Qed.

Lemma defined_of_set c d s (b : Blaster S) : defined_of c b = Ok (d, b) -> defined_of c (set_solver s b) = Ok (d, set_solver s b).
Proof.
  unfold defined_of, gets, mbind, enc_bind, expect. cbn. destruct (b_defined b !! c); [|done]. by intros [= ->].
Qed.

Lemma bits_of_set c ls s (b : Blaster S) : bits_of c b = Ok (ls, b) -> bits_of c (set_solver s b) = Ok (ls, set_solver s b).
Proof.
  unfold bits_of, gets, mbind, enc_bind, expect. cbn. destruct (b_bits b !! c); [|done]. by intros [= ->].
Qed.

Lemma child_bits_set id i ls s (b : Blaster S) : child_bits graph id i b = Ok (ls, b) ->
  child_bits graph id i (set_solver s b) = Ok (ls, set_solver s b).
Proof.
  unfold child_bits, node_children, bits_of, gets, mbind, enc_bind, expect. cbn. destruct (children graph id) as [cs|]; [|done].
  destruct (cs !! i) as [c|]; [|done]. change (b_bits (set_solver s b)) with (b_bits b).
  destruct (b_bits b !! c); [|done]. by intros [= ->].
Qed.

Lemma const_u64_run (b : Blaster S) c v : const_of graph c = Some v -> const_u64 graph c b = Ok (v, b).
Proof.
  unfold const_of, const_u64, leaf, expect, mbind, enc_bind. destruct (get_leaf_data graph c) as [[[| |v'|]|]|]; cbn;
    try discriminate. by intros [= <-].
Qed.

Lemma node_width_run (b : Blaster S) c w : declared widths c = Some w -> node_width widths c b = Ok (w, b).
Proof. unfold declared, node_width. destruct (widths !! c) as [[w'|]|]; try discriminate. by intros [= <-]. Qed.

Lemma node_children_run id cs (b : Blaster S) : children graph id = Some cs -> node_children graph id b = Ok (cs, b).
Proof. intros E. unfold node_children, expect. by rewrite E. Qed.

Lemma arg_eq cs k c : cs !! k = Some c -> arg cs k = c.
Proof. intros E. unfold arg. by rewrite E. Qed.

(** ** The post-condition of [encode] *)
Definition next_sym (id : nat) (k : SymKind.t) (bits : list Lit) (m : gmap nat (list Lit)) : gmap nat (list Lit) :=
  match k, get_leaf_data graph id with
  | SymKind.Symbol, Some (Some (SymbolId sid)) => <[sid := bits]> m
  | _, _ => m
  end.

Definition next_state (sh : Shapes) (k : SymKind.t) (cs : list nat) (w : nat) (bits : list Lit)
    (m : gmap (Z * Z) (list Lit)) : gmap (Z * Z) (list Lit) :=
  match class_of k, read_key graph cs with
  | CRead, Some key => match owner graph sh cs w with Some _ => m | None => <[key := bits]> m end
  | _, _ => m
  end.

Record frame (sym : gmap nat (list Lit)) (reads : gmap (Z * Z) (list Lit)) (b b' : Blaster S) : Prop := {
  fr_one : b_one b' = b_one b;
  fr_bits : b_bits b' = b_bits b;
  fr_defined : b_defined b' = b_defined b;
  fr_sym : sym_bits b' = sym;
  fr_reads : state_reads b' = reads;
}.

Lemma frame_solver s b : frame (sym_bits b) (state_reads b) b (set_solver s b).
Proof. by split. Qed.

(** [val] is the value the node must have, if any: the bits read as it, and
    they can read as any value it allows. *)
Record bits_spec (G : Ctx) (w : nat) (val : valuation -> option Z) (bits : list Lit) (G' : Ctx) : Prop := {
  bs_length : length bits = w;
  bs_wires : wires G' bits;
  bs_sound : forall rho v, cholds G' rho -> val rho = Some v -> num rho bits = v;
  bs_complete : forall rho v, cholds G rho -> (0 <= v < 2 ^ Z.of_nat w)%Z -> (forall v', val rho = Some v' -> v = v') ->
    exists rho', agree (cvars G) rho rho' /\ cholds G' rho' /\ num rho' bits = v;
}.

Lemma number_bits_spec G G' w val f bits : extends G G' -> number G' w bits f ->
  (forall rho, cholds G rho -> val rho = Some (f rho)) ->
  (forall rho rho', agree (cvars G) rho rho' -> val rho = val rho') ->
  bits_spec G w val bits G'.
Proof.
  intros X [L W N] Hf Hagree. split; [done|done| |].
  - intros rho v Hr Hv. rewrite (Hf rho) in Hv by by apply (ext_holds _ _ X). injection Hv as <-. by apply N.
  - intros rho v Hr _ Hv. destruct (ext_model _ _ X rho Hr) as (rho' & A & Hr'). exists rho'. split; [done|]. split; [done|].
    rewrite (N rho' Hr'). pose proof (Hf rho' (ext_holds _ _ X _ Hr')) as E1. rewrite <- (Hagree _ _ A) in E1.
    symmetry. by apply Hv.
Qed.

(** Fresh bits take every value. *)
Lemma fresh_bits_spec w G : local G ->
  computes (S := S) (mapM (fun _ => fresh) (seq 0 w)) G (fun bits G' => bits_spec G w (fun _ => None) bits G').
Proof.
  generalize 0 as i. revert G; induction w as [|w IH]; intros G i HL; cbn [seq mapM].
  - apply computes_ret. split; [done|by apply list.Forall_nil|done|]. intros rho v Hr Hv _. exists rho.
    split; [apply agree_refl|]. split; [done|]. rewrite num_nil. change (2 ^ Z.of_nat 0)%Z with 1%Z in Hv. lia.
  - intros s Hs Hl. destruct (fresh_spec G HL s Hs Hl) as (y & s1 & G1 & E1 & S1 & L1 & X1 & [Wy Fy]).
    destruct (IH G1 (Datatypes.S i) L1 s1 S1 L1) as (ys & s2 & G2 & E2 & S2 & L2 & X2 & [Ly Wys _ Cy]).
    exists (y :: ys), s2, G2. rewrite (bind_run _ _ _ _ _ E1), (bind_run _ _ _ _ _ E2). split; [done|]. split; [done|]. split; [done|].
    split; [by etransitivity|]. split; [cbn; lia|apply list.Forall_cons; split; [by eapply wire_mono|done]|done|].
    intros rho v Hr Hv _. destruct (Fy rho (Z.odd v) Hr) as (rho1 & A1 & H1 & E).
    rewrite Nat2Z.inj_succ, Z.pow_succ_r in Hv by lia.
    destruct (Cy rho1 (Z.div2 v) H1) as (rho2 & A2 & H2 & Ev); [pose proof (Zdiv2_odd_eqn v); destruct (Z.odd v); lia|done|].
    exists rho2. split; [eapply agree_trans; [apply (ext_vars _ _ X1)|done|done]|]. split; [done|].
    rewrite num_cons, Ev. unfold lit. rewrite <- (lit_true_agree _ _ _ _ A2 Wy), E.
    pose proof (Zdiv2_odd_eqn v). destruct (Z.odd v); cbn [Z.b2z]; lia.
Qed.

Lemma wires_number G ls v : wires G ls -> length ls = v -> number G v ls (fun rho => num rho ls).
Proof. by split. Qed.

Lemma first_bit_run (b : Blaster S) G (ls : list Lit) : 0 < length ls ->
  exists l, first_bit ls b = Ok (l, b) /\ (wires G ls -> wire G l) /\ forall rho, Z.odd (num rho ls) = lit_true rho l.
Proof.
  destruct ls as [|l ls]; cbn; [lia|]. intros _. exists l. split; [done|]. split; [by intros [? _]%list.Forall_cons|].
  intros rho. apply num_odd.
Qed.

Lemma constant_bit_spec v i : wf v -> constant_bit (limbs v) i = Z.testbit (uval v) (Z.of_nat i).
Proof.
  intros Hv. unfold constant_bit.
  pose proof (limb_testbit (limbs v) (i / 64) (Z.of_nat (i mod 64)) (wf_limbs v Hv)) as E.
  replace (64 * Z.of_nat (i / 64) + Z.of_nat (i mod 64))%Z with (Z.of_nat i) in E.
  2:{ pose proof (Nat.div_mod i 64). lia. }
  unfold uval. rewrite <- E by (pose proof (Nat.mod_upper_bound i 64); lia). unfold limb_at.
  destruct (limbs v !! (i / 64)); [done|]. by rewrite Z.testbit_0_l.
Qed.

Lemma bits_spec_ext G1 v val val' bits G2 : (forall rho, val rho = val' rho) -> bits_spec G1 v val bits G2 -> bits_spec G1 v val' bits G2.
Proof. intros E [L W C D]. split; [done|done| |]; intros rho; rewrite <- E; auto. Qed.

(** ** One node *)
Section node.
Context (sh : Shapes) (id : nat) (k : SymKind.t) (cs : list nat) (w : nat) (b : Blaster S) (G : Ctx).
Context (Hn : nodes_ok id (sh_ws sh) b G) (Hws : length (sh_ws sh) = id).
Context (Hk : get_node graph id = Some k) (Hcs : children graph id = Some cs) (Hlt : forall c, c ∈ cs -> c < id).

Definition node_value (rho : valuation) : option Z :=
  class_value graph sh w (rvals (b_bits b) rho) (rdefs (b_defined b) rho) id (class_of k) cs.

Lemma node_value_agree rho rho' : agree (cvars G) rho rho' -> node_value rho = node_value rho'.
Proof. intros A. apply class_value_ext; intros c; [by eapply rvals_agree|by eapply rdefs_agree]. Qed.

Definition encode_post (bits : list Lit) (b' : Blaster S) (G' : Ctx) : Prop :=
  frame (next_sym id k bits (sym_bits b)) (next_state sh k cs w bits (state_reads b)) b b' /\
  bits_spec G w node_value bits G'.

(** A kind that leaves the tables alone and whose value is determined. *)
Definition plain : Prop := k <> SymKind.Symbol /\ class_of k <> CRead.

Lemma plain_frame bits s : plain -> frame (next_sym id k bits (sym_bits b)) (next_state sh k cs w bits (state_reads b)) b (set_solver s b).
Proof.
  intros [H1 H2]. replace (next_sym id k bits (sym_bits b)) with (sym_bits b) by (unfold next_sym; by destruct k).
  replace (next_state sh k cs w bits (state_reads b)) with (state_reads b).
  2:{ unfold next_state. destruct (class_of k); done. }
  apply frame_solver.
Qed.

Lemma determined_circuit (m : Lit -> Gate S (list Lit)) f : plain ->
  computes (m (b_one b)) G (fun r G' => number G' w r f) ->
  (forall rho, cholds G rho -> node_value rho = Some (f rho)) ->
  encodes (circuit m) b G encode_post.
Proof.
  intros Hp Hm Hf. apply encodes_circuit. eapply computes_weaken; [exact Hm|]. intros r G' X N s.
  split; [by apply plain_frame|]. eapply number_bits_spec; [done|exact N|done|apply node_value_agree].
Qed.

Lemma determined_done (m : Enc (list Lit)) bits f : plain -> m b = Ok (bits, b) -> number G w bits f ->
  (forall rho, cholds G rho -> node_value rho = Some (f rho)) -> encodes m b G encode_post.
Proof.
  intros Hp Hm N Hf. eapply encodes_done; [exact Hm|]. split.
  - replace b with (set_solver (solver b) b) at 4 by by destruct b. by apply plain_frame.
  - eapply number_bits_spec; [reflexivity|exact N|done|apply node_value_agree].
Qed.

Lemma child_lt i c : cs !! i = Some c -> c < id.
Proof. intros E. apply Hlt. by eapply list_elem_of_lookup_2. Qed.

Lemma child_bits_run i c wc : cs !! i = Some c -> sh_ws sh !! c = Some wc ->
  exists ls, child_bits graph id i b = Ok (ls, b) /\ wires G ls /\ length ls = wc /\
    forall rho, rvals (b_bits b) rho (arg cs i) = num rho ls.
Proof.
  intros Ei Ew. destruct (bits_of_run _ _ _ _ c Hn (child_lt i c Ei)) as (ls & E & Wl & El & Eb & Er).
  exists ls. rewrite (arg_eq _ _ _ Ei). split; [|split; [done|split; [congruence|done]]].
  unfold child_bits, node_children, expect, mbind, enc_bind. rewrite Hcs, Ei. exact E.
Qed.

Lemma child_ws i c : cs !! i = Some c -> exists wc, sh_ws sh !! c = Some wc.
Proof. intros Ei. apply lookup_lt_is_Some_2. rewrite Hws. by eapply child_lt. Qed.

(** ** Operators of two operands *)
Lemma binop_spec m f a c wa wc : plain -> cs !! 0 = Some a -> cs !! 1 = Some c ->
  sh_ws sh !! a = Some wa -> sh_ws sh !! c = Some wc ->
  (forall ls rs, wires G ls -> wires G rs -> length ls = wa -> length rs = wc ->
    computes (m (b_one b) ls rs) G (fun r G' => number G' w r (fun rho => f (num rho ls) (num rho rs)))) ->
  (forall rho, node_value rho = Some (f (rvals (b_bits b) rho (arg cs 0)) (rvals (b_bits b) rho (arg cs 1)))) ->
  encodes (binop graph id m) b G encode_post.
Proof.
  intros Hp Ea Ec Wa Wc Hm Hf.
  destruct (child_bits_run 0 a wa Ea Wa) as (ls & Els & Wls & Lls & Vls).
  destruct (child_bits_run 1 c wc Ec Wc) as (rs & Ers & Wrs & Lrs & Vrs).
  unfold binop. eapply encodes_read with (a := (ls, rs)).
  { unfold binop_bits. unfold mbind, enc_bind at 1. rewrite Els. unfold enc_bind. by rewrite Ers. }
  eapply determined_circuit; [done|by apply Hm|]. intros rho Hr. cbv beta. by rewrite Hf, Vls, Vrs.
Qed.

Lemma word_spec out m kk a c v : plain -> class_of k = CWord kk \/ (exists o, class_of k = CTest kk o) ->
  cs !! 0 = Some a -> cs !! 1 = Some c -> sh_ws sh !! a = Some v -> sh_ws sh !! c = Some v -> 0 < v -> w = out v ->
  implements (b_one b) out kk m -> encodes (binop graph id m) b G encode_post.
Proof.
  intros Hp Hc Ea Ec Wa Wc Hv Ew Hm.
  eapply (binop_spec _ (smt_op kk (Z.of_nat v))); try done.
  - intros ls rs Wl Wr Ll Lr. rewrite Ew. apply Hm; [apply Hn|done..].
  - intros rho. unfold node_value, class_value.
    assert (widthZ (sh_ws sh) (arg cs 0) = Z.of_nat v) as <-.
    { unfold widthZ. rewrite (arg_eq _ _ _ Ea). by rewrite Wa. }
    destruct Hc as [-> |[o ->]]; done.
Qed.

Lemma widthZ_arg i c v : cs !! i = Some c -> sh_ws sh !! c = Some v -> widthZ (sh_ws sh) (arg cs i) = Z.of_nat v.
Proof. intros Ei Ev. unfold widthZ. by rewrite (arg_eq _ _ _ Ei), Ev. Qed.

Lemma shift_node_spec sk a c v vc : plain -> class_of k = CShift (shift_kind sk) ->
  cs !! 0 = Some a -> cs !! 1 = Some c -> sh_ws sh !! a = Some v -> sh_ws sh !! c = Some vc ->
  0 < v -> stage_count v <= vc -> w = v ->
  encodes (binop graph id (fun one => shift one sk)) b G encode_post.
Proof.
  intros Hp Hc Ea Ec Wa Wc Hv Hst Ew.
  eapply (binop_spec _ (smt_op (shift_kind sk) (Z.of_nat v))); try done.
  - intros ls rs Wl Wr Ll Lr. rewrite Ew. apply (shift_spec (b_one b)); (apply Hn || done || by rewrite Lr).
  - intros rho. unfold node_value, class_value. by rewrite Hc, (widthZ_arg 0 a v Ea Wa).
Qed.

(** ** Operators of one operand *)
Lemma not_spec a : plain -> class_of k = CNot -> cs !! 0 = Some a -> sh_ws sh !! a = Some w ->
  encodes (ls ← child_bits graph id 0; mret (map negate ls)) b G encode_post.
Proof.
  intros Hp Hc Ea Wa. destruct (child_bits_run 0 a w Ea Wa) as (ls & E & Wl & Ll & Vl).
  eapply encodes_read; [exact E|]. eapply determined_done; [done..|by apply number_invert|].
  intros rho _. unfold node_value, class_value. by rewrite Hc, Vl.
Qed.

Lemma neg_spec a : plain -> class_of k = CNeg -> cs !! 0 = Some a -> sh_ws sh !! a = Some w ->
  encodes (ls ← child_bits graph id 0; circuit (fun one => neg_bits one ls)) b G encode_post.
Proof.
  intros Hp Hc Ea Wa. destruct (child_bits_run 0 a w Ea Wa) as (ls & E & Wl & Ll & Vl).
  eapply encodes_read; [exact E|]. eapply determined_circuit; [done|apply (neg_bits_spec _ _ w); (apply Hn || done)|].
  intros rho _. unfold node_value, class_value. by rewrite Hc, Vl.
Qed.

Lemma copy_spec a : plain -> class_of k = CCopy -> cs !! 0 = Some a -> sh_ws sh !! a = Some w ->
  encodes (child_bits graph id 0) b G encode_post.
Proof.
  intros Hp Hc Ea Wa. destruct (child_bits_run 0 a w Ea Wa) as (ls & E & Wl & Ll & Vl).
  eapply determined_done; [done|exact E|by apply wires_number|].
  intros rho _. unfold node_value, class_value. by rewrite Hc, Vl.
Qed.

Lemma poison_spec a : plain -> class_of k = CPoison -> cs !! 1 = Some a -> sh_ws sh !! a = Some w ->
  encodes (encode_poison graph id) b G encode_post.
Proof.
  intros Hp Hc Ea Wa. destruct (child_bits_run 1 a w Ea Wa) as (ls & E & Wl & Ll & Vl).
  eapply determined_done; [done|exact E|by apply wires_number|].
  intros rho _. unfold node_value, class_value. by rewrite Hc, Vl.
Qed.

Lemma concat_spec a c wa wc : plain -> class_of k = CConcat -> cs !! 0 = Some a -> cs !! 1 = Some c ->
  sh_ws sh !! a = Some wa -> sh_ws sh !! c = Some wc -> w = wc + wa ->
  encodes (low ← child_bits graph id 1; high ← child_bits graph id 0; mret (low ++ high)) b G encode_post.
Proof.
  intros Hp Hc Ea Ec Wa Wc Ew.
  destruct (child_bits_run 0 a wa Ea Wa) as (hs & Eh & Wh & Lh & Vh).
  destruct (child_bits_run 1 c wc Ec Wc) as (ls & El & Wl & Ll & Vl).
  eapply encodes_read; [exact El|]. eapply encodes_read; [exact Eh|].
  eapply determined_done with (f := fun rho => (num rho ls + 2 ^ Z.of_nat wc * num rho hs)%Z); [done|reflexivity| |].
  - split; [rewrite length_app; lia|by apply wires_app|]. intros rho _. by rewrite num_app, (size_length _ _ Ll).
  - intros rho _. unfold node_value, class_value. by rewrite Hc, Vl, Vh, (widthZ_arg 1 c wc Ec Wc).
Qed.

Lemma extract_spec a c1 c2 hi lo wa : plain -> class_of k = CExtract -> cs !! 0 = Some a -> cs !! 1 = Some c1 -> cs !! 2 = Some c2 ->
  const_of graph c1 = Some hi -> const_of graph c2 = Some lo -> sh_ws sh !! a = Some wa ->
  (0 <= lo <= hi + 1)%Z -> (hi < Z.of_nat wa)%Z -> w = Z.to_nat (hi + 1 - lo) ->
  encodes (encode_extract graph id) b G encode_post.
Proof.
  intros Hp Hc Ea E1 E2 Ehi Elo Wa Hlo Hhi Ew. destruct (child_bits_run 0 a wa Ea Wa) as (ls & E & Wl & Ll & Vl).
  destruct (slice_inclusive ls lo hi) as [bs|] eqn:Es.
  2:{ unfold slice_inclusive in Es. rewrite (proj2 (Z.leb_le _ _)), (proj2 (Z.ltb_lt _ _)) in Es by lia. done. }
  unfold encode_extract. eapply encodes_read; [exact E|]. eapply encodes_read; [by apply node_children_run|].
  rewrite E1. eapply encodes_read; [done|]. eapply encodes_read; [by apply const_u64_run|].
  rewrite E2. eapply encodes_read; [done|]. eapply encodes_read; [by apply const_u64_run|].
  rewrite Es. eapply determined_done; [done|reflexivity|rewrite Ew; eapply (slice_number G wa); [done|done| |exact Es]; lia|].
  intros rho _. unfold node_value, class_value. by rewrite Hc, Vl, (arg_eq _ _ _ E1), (arg_eq _ _ _ E2), Ehi, Elo.
Qed.

Lemma extend_spec signed a wa : plain -> class_of k = CExtend signed -> cs !! 0 = Some a -> sh_ws sh !! a = Some wa ->
  (signed = true -> 0 < wa) -> declared widths id = Some w ->
  encodes (encode_extend graph widths id signed) b G encode_post.
Proof.
  intros Hp Hc Ea Wa Hpos Hd. destruct (child_bits_run 0 a wa Ea Wa) as (ls & E & Wl & Ll & Vl).
  unfold encode_extend. eapply encodes_read; [exact E|]. eapply encodes_read; [by apply node_width_run|].
  eapply encodes_read; [reflexivity|]. destruct signed.
  - destruct (last_bit_spec G wa ls Wl Ll (Hpos eq_refl)) as (s & Es & _). rewrite Es. eapply encodes_read; [reflexivity|].
    eapply determined_done; [done|reflexivity|by apply (sign_extend_number G wa); auto|].
    intros rho _. unfold node_value, class_value. by rewrite Hc, Vl, (widthZ_arg 0 a wa Ea Wa).
  - eapply encodes_read; [reflexivity|]. eapply determined_done; [done|reflexivity|apply zero_extend_number; [apply Hn|done]|].
    intros rho _. unfold node_value, class_value. by rewrite Hc, Vl.
Qed.

Lemma ite_spec c t e wc : plain -> class_of k = CIf -> cs = [c; t; e] -> sh_ws sh !! c = Some wc -> 0 < wc ->
  sh_ws sh !! t = Some w -> sh_ws sh !! e = Some w -> encodes (encode_ite graph id) b G encode_post.
Proof.
  intros Hp Hc Ecs Wc Hwc Wt We.
  destruct (child_bits_run 0 c wc) as (lc & E0 & W0 & L0 & V0); [by rewrite Ecs|done|].
  destruct (child_bits_run 1 t w) as (lt & E1 & W1 & L1 & V1); [by rewrite Ecs|done|].
  destruct (child_bits_run 2 e w) as (le & E2 & W2 & L2 & V2); [by rewrite Ecs|done|].
  destruct (first_bit_run b G lc) as (l & El & Wl & Vl); [lia|].
  unfold encode_ite. eapply encodes_read; [exact E0|]. eapply encodes_read; [exact El|].
  eapply encodes_read; [exact E1|]. eapply encodes_read; [exact E2|].
  eapply determined_circuit; [done|apply (mux_num_spec G w); auto|].
  intros rho _. unfold node_value, class_value. by rewrite Hc, V0, V1, V2, Vl.
Qed.

(** ** Leaves *)
Lemma constant_spec v : plain -> class_of k = CConst -> declared widths id = Some w -> constant_of graph id = Some v ->
  encodes (encode_constant graph widths id) b G encode_post.
Proof.
  intros Hp Hc Hd Hv. unfold constant_of in Hv. destruct (get_leaf_data graph id) as [[[| |v'|]|]|] eqn:El; try discriminate.
  cbn in Hv. destruct (wfb v') eqn:Wv; [|discriminate]. injection Hv as ->. pose proof (wfb_wf _ Wv) as Wv'.
  unfold encode_constant. eapply encodes_read; [by apply node_width_run|].
  eapply encodes_read; [unfold leaf, expect; by rewrite El|]. cbn beta iota. eapply encodes_read; [reflexivity|].
  pose proof (no_one _ _ _ _ Hn) as T.
  eapply determined_done with (f := fun _ => (uval v mod 2 ^ Z.of_nat w)%Z); [done|reflexivity| |].
  - split; [by rewrite length_map, length_seq| |].
    + apply Forall_map, Forall_forall. intros i _. destruct (constant_bit _ _); [apply T|by apply zero_wire].
    + intros rho Hr. unfold num, bits. rewrite map_map.
      apply bval_of_bits. intros i _. rewrite <- constant_bit_spec by done.
      destruct (constant_bit (limbs v) i); [by apply (truth_lit _ _ T)|by apply (zero_lit _ G T)].
  - intros rho _. unfold node_value, class_value. rewrite Hc. unfold constant_of. rewrite El. cbn.
    by rewrite Wv.
Qed.

Lemma state_block_spec : plain -> class_of k = CTrue -> w = 1 ->
  encodes (one ← gets b_one; mret [one]) b G encode_post.
Proof.
  intros Hp Hc Ew. pose proof (no_one _ _ _ _ Hn) as [T1 T2]. eapply encodes_read; [reflexivity|].
  eapply determined_done with (f := fun _ => 1%Z); [done|reflexivity| |].
  - rewrite Ew. eapply number_ext; [apply (number_bit G _ (fun _ => true)); by split|done].
  - intros rho _. unfold node_value, class_value. by rewrite Hc.
Qed.

(** Fresh bits, stored by [f]. *)
Lemma fresh_node f : local G ->
  (forall bits s, solver (f bits (set_solver s b)) = s) ->
  (forall bits s, frame (next_sym id k bits (sym_bits b)) (next_state sh k cs w bits (state_reads b)) b (f bits (set_solver s b))) ->
  (forall rho, node_value rho = None) ->
  encodes (bits ← fresh_bits w; _ ← modify (f bits); mret bits) b G encode_post.
Proof.
  intros HL Hs Hf Hv. eapply encodes_bind; [apply circuit_step; by apply fresh_bits_spec|].
  intros bits b1 G1 X [[s ->] Hb].
  eapply encodes_bind; [apply (encodes_modify _ _ _ (fun _ b' G' => b' = f bits (set_solver s b) /\ G' = G1)); [by rewrite Hs|done]|].
  intros [] b2 G2 X2 [-> ->]. apply encodes_ret. split; [apply Hf|]. eapply bits_spec_ext; [|exact Hb]. done.
Qed.

Lemma symbol_spec data : local G -> k = SymKind.Symbol -> declared widths id = Some w -> get_leaf_data graph id = Some data ->
  encodes (encode_symbol graph widths id) b G encode_post.
Proof.
  intros HL Ek Hd El. unfold encode_symbol. eapply encodes_read; [by apply node_width_run|].
  assert (forall bits s, next_state sh k cs w bits s = s) as Hst by (intros; by rewrite Ek).
  assert (forall rho, node_value rho = None) as Hv by (intros; unfold node_value, class_value; by rewrite Ek).
  assert (forall m, next_sym id k m = match data with Some (SymbolId sid) => <[sid := m]> | _ => fun x => x end) as Hsy.
  { intros m. unfold next_sym. rewrite Ek, El. by destruct data as [[]|]. }
  set (f := fun bits (b : Blaster S) => match data with Some (SymbolId sid) => set_sym_bits (<[sid := bits]> (sym_bits b)) b | _ => b end).
  pose proof (fresh_node f HL) as Hfr.
  intros Hs Hl. destruct Hfr as (bits & b' & G' & E & Hrest); try done.
  { intros bits s. unfold f. by destruct data as [[]|]. }
  { intros bits s. rewrite Hst, Hsy. unfold f. destruct data as [[]|]; by split. }
  exists bits, b', G'. split; [|done]. rewrite <- E. unfold mbind, enc_bind.
  destruct (fresh_bits w b) as [[bs b1]| |]; [|done..]. unfold leaf, expect. rewrite El. unfold modify, f.
  destruct data as [[]|]; done.
Qed.

(** ** State reads *)
Definition reads_ok : Prop :=
  (forall key, state_reads b !! key = (j ← sh_reads sh !! key; b_bits b !! j)) /\
  (forall key j, sh_reads sh !! key = Some j -> j < id).

Lemma read_node_fresh key : local G -> class_of k = CRead -> k <> SymKind.Symbol -> read_key graph cs = Some key ->
  owner graph sh cs w = None ->
  encodes (bits ← fresh_bits w; _ ← modify (fun b => set_state_reads (<[key := bits]> (state_reads b)) b); mret bits) b G encode_post.
Proof.
  intros HL Hc Hns Hkey Ho. apply (fresh_node (fun bits b => set_state_reads (<[key := bits]> (state_reads b)) b)); try done.
  - intros bits s. unfold next_state, next_sym. rewrite Hc, Hkey, Ho. by destruct k; split.
  - intros rho. unfold node_value, class_value. by rewrite Hc, Ho.
Qed.

Lemma state_read_spec key : local G -> class_of k = CRead -> k <> SymKind.Symbol -> reads_ok -> read_key graph cs = Some key ->
  declared widths id = Some w -> encodes (encode_state_read graph widths id) b G encode_post.
Proof.
  intros HL Hc Hns [R1 R2] Hkey Hd. pose proof Hkey as Hkey'. unfold read_key in Hkey'.
  destruct (cs !! 1) as [c1|] eqn:E1; [|done]. cbn in Hkey'. destruct (const_of graph c1) as [r|] eqn:F1; [|done].
  cbn in Hkey'. destruct (cs !! 2) as [c2|] eqn:E2; [|done]. cbn in Hkey'. destruct (const_of graph c2) as [fl|] eqn:F2; [|done].
  injection Hkey' as <-. unfold encode_state_read. eapply encodes_read; [by apply node_children_run|].
  rewrite E1. eapply encodes_read; [reflexivity|]. eapply encodes_read; [by apply const_u64_run|].
  rewrite E2. eapply encodes_read; [reflexivity|]. eapply encodes_read; [by apply const_u64_run|].
  eapply encodes_read; [by apply node_width_run|]. eapply encodes_read; [reflexivity|].
  assert (owner graph sh cs w = (j ← sh_reads sh !! (r, fl); if decide (sh_ws sh !! j = Some w) then Some j else None)) as Eo
    by (unfold owner; by rewrite Hkey).
  rewrite R1. destruct (sh_reads sh !! (r, fl)) as [j|] eqn:Ej; cbn [mbind option_bind] in *; [|by apply read_node_fresh].
  destruct (bits_of_run _ _ _ _ j Hn (R2 _ _ Ej)) as (ls & _ & Wl & Lj & Eb & Vl). rewrite Eb.
  destruct (Nat.eqb_spec (length ls) w) as [El|El].
  - rewrite decide_True in Eo by congruence. eapply encodes_done; [reflexivity|]. split.
    + unfold next_state, next_sym. rewrite Hc, Hkey, Eo. by destruct k; split.
    + eapply number_bits_spec; [reflexivity|by apply (wires_number _ ls w)| |apply node_value_agree].
      intros rho _. unfold node_value, class_value. rewrite Hc, Eo. cbn. by rewrite Vl.
  - rewrite decide_False in Eo by congruence. by apply read_node_fresh.
Qed.

(** ** Freezing *)
Lemma freeze_spec a : local G -> plain -> class_of k = CFreeze -> cs !! 0 = Some a -> sh_ws sh !! a = Some w ->
  encodes (encode_freeze graph id) b G encode_post.
Proof.
  intros HL Hp Hc Ea Wa. pose proof (child_lt 0 a Ea) as Hlta.
  destruct (bits_of_run _ _ _ _ a Hn Hlta) as (ls & E & Wl & Ll & _ & Vl).
  destruct (defined_of_run _ _ _ _ a Hn Hlta) as (d & Ed & Wd & Vd).
  assert (length ls = w) as Lw by congruence.
  unfold encode_freeze. eapply encodes_read; [by apply node_children_run|].
  eapply encodes_read; [unfold expect; rewrite head_lookup, Ea; reflexivity|]. eapply encodes_read; [exact E|]. rewrite Lw.
  eapply encodes_bind; [apply circuit_step; by apply fresh_bits_spec|].
  intros arb b1 G1 X1 [[s ->] [La Warb _ Carb]].
  eapply encodes_read; [by apply defined_of_set|].
  eapply encodes_weaken; [apply circuit_step, (mux_num_spec G1 w); (done || by eapply wire_mono || by eapply wires_mono)|].
  intros r b2 G2 X2 [[s2 ->] [Lr Wr Vr]]. split; [by apply plain_frame|].
  assert (forall rho, node_value rho = if lit_true rho d then Some (num rho ls) else None) as Hv.
  { intros rho. unfold node_value, class_value. by rewrite Hc, (arg_eq _ _ _ Ea), Vd, Vl. }
  split; [done|done| |].
  - intros rho v Hr. rewrite Hv, (Vr rho Hr). destruct (lit_true rho d); [by intros [= <-]|done].
  - intros rho v Hr Hb Hvv.
    destruct (Carb rho v Hr Hb ltac:(done)) as (rho1 & A1 & H1 & N1).
    destruct (ext_model _ _ X2 rho1 H1) as (rho2 & A2 & H2).
    assert (agree (cvars G) rho rho2) as A by (eapply agree_trans; [apply (ext_vars _ _ X1)|done|done]).
    exists rho2. split; [done|]. split; [done|]. rewrite (Vr rho2 H2).
    rewrite <- (lit_true_agree _ _ _ d A Wd), <- (num_agree G _ _ ls Wl A), <- (num_agree G1 _ _ arb Warb A2), N1.
    rewrite Hv in Hvv. destruct (lit_true rho d); [|done]. symmetry. by apply Hvv.
Qed.

End node.

(** ** Switches *)
Lemma selected_go arm ls i acc f G : (Z.of_nat arm < 2 ^ 64)%Z -> wires G ls -> reads G acc f ->
  computes (S := S) (foldM (fun selected '(bit, lit) =>
    let wanted := (bit <? 64) && Z.testbit (Z.of_nat arm) (Z.of_nat bit) in
    gate_and selected (if wanted then lit else negate lit)) (zip (seq i (length ls)) ls) acc) G
    (fun y G' => reads G' y (fun rho => f rho && (num rho ls =? (Z.of_nat arm / 2 ^ Z.of_nat i) mod 2 ^ size ls)%Z)).
Proof.
  intros Harm. revert i acc f G; induction ls as [|l ls IH]; intros i acc f G Hls R; cbn [length seq zip_with foldM].
  - apply computes_ret. destruct R as [R1 R2]. split; [done|]. intros rho Hr. rewrite (R2 rho Hr), num_nil, Z.mod_1_r.
    cbn. by rewrite andb_true_r.
  - apply list.Forall_cons in Hls as [Hl Hls]. fold (wires G ls) in Hls. cbv zeta.
    set (bit := Z.testbit (Z.of_nat arm) (Z.of_nat i)).
    assert ((i <? 64) && bit = bit) as ->.
    { destruct (Nat.ltb_spec i 64); [done|]. cbn. symmetry. subst bit. destruct (Nat.eq_dec arm 0) as [->|]; [apply Z.testbit_0_l|]. apply Z.bits_above_log2; [lia|].
      apply Z.log2_lt_pow2; [lia|]. assert (2 ^ 64 <= 2 ^ Z.of_nat i)%Z by (apply Z.pow_le_mono_r; lia). lia. }
    eapply computes_bind; [apply gate_and_spec; [apply R|destruct bit; auto with wires]|].
    intros y G1 X R1. cbv beta in R1. advance X. clear X.
    eapply computes_weaken; [exact (IH (Datatypes.S i) y _ G1 Hls R1)|].
    intros z G2 X [W R2]. advance X. split; [done|]. intros rho Hr. rewrite (R2 rho Hr).
    destruct R as [_ R]. rewrite (R rho Hr), <- andb_assoc. f_equal.
    assert (lit_true rho (if bit then l else negate l) = Bool.eqb (lit_true rho l) bit) as ->.
    { destruct bit; rewrite ?lit_true_negate; by destruct (lit_true rho l). }
    rewrite num_cons, size_cons, Nat2Z.inj_succ, Z.pow_succ_r, (Z.mul_comm 2), <- Z.div_div by lia.
    set (A := (Z.of_nat arm / 2 ^ Z.of_nat i)%Z). assert (bit = Z.odd A) as ->.
    { subst bit A. by rewrite Z.testbit_odd, Z.shiftr_div_pow2 by lia. }
    rewrite (Z.add_comm (size ls)), Z.pow_add_r by (unfold size; lia). change (2 ^ 1)%Z with 2%Z.
    rewrite Z.rem_mul_r by (unfold size; lia). rewrite Zmod_odd. unfold lit.
    generalize ((A / 2) mod 2 ^ size ls)%Z. intros m.
    destruct (lit_true rho l), (Z.odd A); cbn [Bool.eqb andb Z.b2z]; lia.
Qed.

Lemma switch_selected_spec one arm ls G : truth G one -> (Z.of_nat arm < 2 ^ 64)%Z -> wires G ls ->
  computes (S := S) (switch_selected one arm ls) G
    (fun y G' => reads G' y (fun rho => num rho ls =? Z.of_nat arm mod 2 ^ size ls)%Z).
Proof.
  intros [T1 T2] Harm Hls. unfold switch_selected, enumerate.
  eapply computes_weaken; [by apply (selected_go arm ls 0 one (fun _ => true))|].
  intros y G' X [W R]. split; [done|]. intros rho Hr. rewrite (R rho Hr). cbn [andb]. by rewrite Z.div_1_r.
Qed.

End encoders.
