(* ===== verification/BlastNode.v ===== *)
(** * One node of the graph: switches, the dispatch of [encode] and definedness *)
From S2P Require Import Prelude Words ApInt ApIntSpec LimbArith Lang LangSpec SatSolver SatLits Dag Bits Gates FloatCircuits.
From S2P Require Import Bitblast BlastSem GateSpec CircuitSpec CircuitWord BlastSpec.
#[local] Open Scope nat_scope.

Ltac bind_inv H :=
  repeat match type of H with
  | (?o ≫= _) = Some _ => let E := fresh "E" in destruct o eqn:E; [|discriminate H]; cbn [mbind option_bind] in H
  | (if ?c then _ else None) = Some _ => let E := fresh "E" in destruct c eqn:E; [|discriminate H]
  end.

Lemma if_shape {V F} (graph : Dag SymKind.t (SymPayload V F) unit) widths floats ws id cs w :
  class_shape graph widths floats ws id CIf cs = Some w ->
  exists c t e wc, cs = [c; t; e] /\ ws !! c = Some wc /\ 0 < wc /\ ws !! t = Some w /\ ws !! e = Some w.
Proof.
  cbn [class_shape]. destruct cs as [|c [|t [|e [|]]]]; try discriminate. intros Hs. bind_inv Hs.
  apply same_width_inv in Hs as [Hs1 Hs2]. apply Nat.ltb_lt in E0. by exists c, t, e, n.
Qed.

Lemma switch_shape {V F} (graph : Dag SymKind.t (SymPayload V F) unit) widths floats ws id cs w :
  class_shape graph widths floats ws id CSwitch cs = Some w ->
  exists i arm arms, cs = i :: arm :: arms /\ is_Some (ws !! i) /\ ws !! arm = Some w /\
    Forall (fun a => ws !! a = Some w) arms /\ (Z.of_nat (length cs) < 2 ^ 64)%Z.
Proof.
  cbn [class_shape]. destruct cs as [|i [|arm arms]]; try discriminate. intros Hs. bind_inv Hs. injection Hs as ->.
  apply andb_true_iff in E1 as [E1 E2]. apply Z.ltb_lt in E2. exists i, arm, arms.
  split; [done|]. split; [by rewrite E|]. split; [done|]. split; [|done].
  apply Forall_forall. intros x Hx. rewrite forallb_forall in E1. specialize (E1 x Hx). by apply bool_decide_eq_true in E1.
Qed.

Section node.
Context {S : Type} `{CnfLaws S} {V F : Type}.
Context (graph : Dag SymKind.t (SymPayload V F) unit) (widths : list (option nat)) (floats : list bool).
Context (sh : Shapes) (id : nat) (k : SymKind.t) (cs : list nat) (w : nat) (b : Blaster S) (G : Ctx).
Context (Hn : nodes_ok id (sh_ws sh) b G) (Hws : length (sh_ws sh) = id).
Context (Hk : get_node graph id = Some k) (Hcs : children graph id = Some cs) (Hlt : forall c, c ∈ cs -> c < id).

Notation encodes := (@encodes S _ _ _).
Notation encode_post := (encode_post graph sh id k cs w b G).

(** ** Switches *)
Definition switch_value (idx : list Lit) (rho : valuation) : Z :=
  rvals (b_bits b) rho (arg cs (1 + Nat.min (Z.to_nat (num rho idx)) (length cs - 2))).

Lemma arms_go m idx out s G1 : extends G G1 -> wires G1 idx -> wires G1 out -> length out = w ->
  m <= length cs - 2 -> (Z.of_nat (length cs) < 2 ^ 64)%Z ->
  (forall i a, cs !! (i + 1) = Some a -> sh_ws sh !! a = Some w) ->
  always G1 (fun rho => (Z.of_nat m <= num rho idx)%Z -> num rho out = switch_value idx rho) ->
  encodes (encode_arms graph id idx (rev (seq 0 m)) out) (set_solver s b) G1
    (fun r b' G' => (exists s', b' = set_solver s' b) /\ number G' w r (switch_value idx)).
Proof.
  revert out s G1; induction m as [|m IH]; intros out s G1 X Hi Ho Lo Hm Hc Hw Hinv.
  { apply encodes_ret. split; [eauto|]. split; [done|done|]. intros rho Hr. apply (Hinv rho Hr).
    pose proof (num_bound rho idx). lia. }
  rewrite seq_S, rev_app_distr. cbn [rev app Nat.add encode_arms].
  pose proof (no_one _ _ _ _ Hn) as T. apply (truth_mono _ _ _ X) in T.
  eapply encodes_bind; [apply circuit_step; apply (switch_selected_spec (b_one b) m idx G1); (done || lia)|].
  intros y b2 G2 X2 [[s2 ->] R]. advance X2. clear X2.
  destruct (lookup_lt_is_Some_2 cs (m + 1)) as [a Ea]; [lia|].
  destruct (child_bits_run graph sh id cs b G Hn Hcs Hlt (m + 1) a w Ea (Hw m a Ea)) as (ls & Els & Wls & Lls & Vls).
  change (set_solver s2 (set_solver s b)) with (set_solver s2 b).
  eapply encodes_read; [apply child_bits_set, Els|].
  assert (wires G2 ls) as Wls2 by (by eapply wires_mono).
  eapply encodes_bind; [apply circuit_step, (mux_num_spec G2 w); (done || apply R)|].
  intros out' b3 G3 X3 [[s3 ->] N]. advance X3. clear X3. change (set_solver s3 (set_solver s2 b)) with (set_solver s3 b).
  destruct N as [L' W' V'].
  apply IH; try done; [lia|]. intros rho Hr Hge. rewrite (V' rho Hr). destruct R as [_ R]. rewrite (R rho Hr).
  pose proof (num_bound rho idx) as B. destruct (Z.eqb_spec (num rho idx) (Z.of_nat m mod 2 ^ size idx)) as [E|E].
  - pose proof (Z.mod_le (Z.of_nat m) (2 ^ size idx)) as Hle.
    assert (num rho idx = Z.of_nat m) as Em by lia.
    unfold switch_value. rewrite Em, Nat2Z.id, Nat.min_l by lia. rewrite (Nat.add_comm 1 m). by rewrite Vls.
  - apply (Hinv rho Hr). destruct (Z.eq_dec (num rho idx) (Z.of_nat m)) as [Em|]; [|lia]. rewrite Em in E, B.
    rewrite Z.mod_small in E by lia. done.
Qed.

Lemma switch_spec index arm arms : plain k -> class_of k = CSwitch -> cs = index :: arm :: arms ->
  sh_ws sh !! arm = Some w -> Forall (fun a => sh_ws sh !! a = Some w) arms -> (Z.of_nat (length cs) < 2 ^ 64)%Z ->
  encodes (encode_switch graph id) b G encode_post.
Proof.
  intros Hp Hc Ecs Warm Warms Hlen.
  assert (forall i a, cs !! (i + 1) = Some a -> sh_ws sh !! a = Some w) as Hw.
  { intros i a. rewrite Ecs, Nat.add_1_r. cbn. destruct i as [|i]; cbn; [by intros [= <-]|].
    intros Ea. rewrite Forall_forall in Warms. by apply Warms, list_elem_of_In, (list_elem_of_lookup_2 _ i). }
  destruct (child_ws sh id cs Hws Hlt 0 index) as [wi Wi]; [by rewrite Ecs|].
  destruct (child_bits_run graph sh id cs b G Hn Hcs Hlt 0 index wi) as (idx & Ei & Wx & Lx & Vx); [by rewrite Ecs|done|].
  destruct (lookup_lt_is_Some_2 cs (length cs - 1)) as [d Ed]; [rewrite Ecs; cbn; lia|].
  assert (length cs = Datatypes.S (length cs - 2) + 1) as Elen by (rewrite Ecs; cbn; lia).
  destruct (child_bits_run graph sh id cs b G Hn Hcs Hlt (length cs - 1) d w Ed) as (out & Eo & Wo & Lo & Vo).
  { apply (Hw (length cs - 2)). rewrite <- Ed. f_equal. lia. }
  unfold encode_switch. eapply encodes_read; [exact Ei|]. eapply encodes_read; [by apply node_children_run|].
  eapply encodes_read; [exact Eo|]. destruct (Nat.eqb_spec (length cs - 1) 0); [lia|].
  replace (length cs - 1 - 1) with (length cs - 2) by lia.
  replace b with (set_solver (solver b) b) at 1 by by destruct b.
  eapply encodes_weaken; [apply (arms_go (length cs - 2) idx out (solver b) G); try done|].
  - intros rho Hr Hge. unfold switch_value. rewrite Nat.min_r by lia.
    replace (1 + (length cs - 2)) with (length cs - 1) by lia. by rewrite Vo.
  - intros r b' G' X [[s ->] N]. split; [by apply plain_frame|].
    eapply number_bits_spec; [done|exact N| |].
    + intros rho Hr. unfold node_value, class_value, switch_value. rewrite Hc.
      by rewrite <- (Vx rho).
    + by eapply node_value_agree.
Qed.

(** ** The dispatch *)
Context (Hshape : class_shape graph widths floats (sh_ws sh) id (class_of k) cs = Some w).

Lemma float_comparison_run a : cs !! 0 = Some a -> is_float floats a = false ->
  is_float_comparison graph floats id b = Ok (false, b).
Proof.
  intros Ea Hf. unfold is_float_comparison, node_children, expect, mbind, enc_bind. rewrite Hcs, head_lookup, Ea.
  unfold is_float in Hf. by rewrite Hf.
Qed.

Lemma word_node kk m : k = kk -> class_of kk = CWord kk -> implements (b_one b) (fun v => v) kk m ->
  encodes (binop graph id m) b G encode_post.
Proof.
  intros Ek Hc Hm. pose proof Hshape as Hs. rewrite Ek, Hc in Hs. cbn [class_shape] in Hs. bind_inv Hs.
  injection Hs as ->. apply same_width_inv in E1 as [E1 E1']. apply Nat.ltb_lt in E2.
  eapply (word_spec graph sh id k cs w b G Hn Hk Hcs Hlt (fun v => v) m kk); try done.
  - split; [by rewrite Ek; destruct kk|by rewrite Ek, Hc].
  - left. by rewrite Ek.
Qed.

Lemma test_node kk o m : k = kk -> class_of kk = CTest kk o -> implements (b_one b) (fun _ => 1) kk m ->
  encodes (binop graph id m) b G encode_post.
Proof.
  intros Ek Hc Hm. pose proof Hshape as Hs. rewrite Ek, Hc in Hs. cbn [class_shape] in Hs. bind_inv Hs.
  injection Hs as <-. apply same_width_inv in E1 as [E1 E1']. apply andb_true_iff in E2 as [E2 _]. apply Nat.ltb_lt in E2.
  eapply (word_spec graph sh id k cs 1 b G Hn Hk Hcs Hlt (fun _ => 1) m kk); try done.
  - split; [by rewrite Ek; destruct kk|by rewrite Ek, Hc].
  - right. exists o. by rewrite Ek.
Qed.

(** A comparison that floating-point operands overload. *)
Lemma overloaded_node kk m f : k = kk -> class_of kk = CTest kk true -> implements (b_one b) (fun _ => 1) kk m ->
  encodes (float ← is_float_comparison graph floats id; if float : bool then f else binop graph id m) b G encode_post.
Proof.
  intros Ek Hc Hm. pose proof Hshape as Hs. rewrite Ek, Hc in Hs. cbn [class_shape] in Hs. bind_inv Hs.
  apply andb_true_iff in E2 as [_ E2]. cbn [andb] in E2. apply negb_true_iff in E2.
  eapply encodes_read; [by eapply float_comparison_run|]. by apply (test_node kk true).
Qed.

Lemma shift_node sk kk : k = kk -> kk = shift_kind sk ->
  encodes (binop graph id (fun one => shift one sk)) b G encode_post.
Proof.
  intros Ek Esk. assert (class_of k = CShift (shift_kind sk)) as Hc by (rewrite Ek, Esk; by destruct sk).
  pose proof Hshape as Hs. rewrite Hc in Hs. cbn [class_shape] in Hs. bind_inv Hs. injection Hs as ->.
  apply andb_true_iff in E3 as [E3 E4]. apply Nat.ltb_lt in E3. apply Nat.leb_le in E4.
  eapply (shift_node_spec graph sh id k cs w b G Hn Hk Hcs Hlt sk); try done.
  split; [rewrite Ek, Esk; by destruct sk|by rewrite Hc].
Qed.

Lemma encodes_local {A} (m : Enc A) (K : A -> Blaster S -> Ctx -> Prop) : (local G -> encodes m b G K) -> encodes m b G K.
Proof. intros Hm Hs Hl. by apply Hm. Qed.

Tactic Notation "node" uconstr(lem) constr(Ek) :=
  eapply lem; try eassumption; try (by rewrite Ek); try (by split; rewrite Ek).

Lemma encode_spec : reads_ok sh id b -> encodes (encode graph widths floats id) b G encode_post.
Proof.
  intros HR. apply encodes_local. intros HL.
  assert (exists kk, k = kk /\ class_shape graph widths floats (sh_ws sh) id (class_of kk) cs = Some w) as (kk & Ek & Hs)
    by (by exists k).
  unfold encode. eapply encodes_read with (a := kk); [unfold expect; by rewrite Hk, Ek|].
  destruct kk; cbn [class_of class_shape] in Hs; try discriminate Hs.
  (* symbols, constants, arithmetic *)
  - bind_inv Hs. eapply symbol_spec; eassumption.
  - bind_inv Hs. node constant_spec Ek.
  - by apply (word_node _ _ Ek eq_refl), add_implements.
  - by apply (word_node _ _ Ek eq_refl), sub_implements.
  - by apply (word_node _ _ Ek eq_refl), mul_implements.
  - by apply (word_node _ _ Ek eq_refl), (divrem_implements _ true true).
  - by apply (word_node _ _ Ek eq_refl), (divrem_implements _ false true).
  - by apply (word_node _ _ Ek eq_refl), (divrem_implements _ true false).
  - by apply (word_node _ _ Ek eq_refl), (divrem_implements _ false false).
  - bind_inv Hs. node neg_spec Ek.
  (* comparisons *)
  - by apply (overloaded_node _ _ _ Ek eq_refl), eq_implements.
  - by apply (overloaded_node _ _ _ Ek eq_refl), ne_implements.
  - by apply (overloaded_node _ _ _ Ek eq_refl), compare_implements.
  - by apply (overloaded_node _ _ _ Ek eq_refl), compare_implements.
  - by apply (overloaded_node _ _ _ Ek eq_refl), compare_implements.
  - by apply (overloaded_node _ _ _ Ek eq_refl), compare_implements.
  - by apply (test_node _ _ _ Ek eq_refl), compare_implements.
  - by apply (test_node _ _ _ Ek eq_refl), compare_implements.
  - by apply (test_node _ _ _ Ek eq_refl), compare_implements.
  - by apply (test_node _ _ _ Ek eq_refl), compare_implements.
  (* shifts and bitwise operators *)
  - by apply (shift_node ShLeft _ Ek).
  - by apply (shift_node ShArithmetic _ Ek).
  - by apply (shift_node ShLogical _ Ek).
  - by apply (word_node _ _ Ek eq_refl), or_implements.
  - by apply (word_node _ _ Ek eq_refl), and_implements.
  - by apply (word_node _ _ Ek eq_refl), xor_implements.
  - bind_inv Hs. node not_spec Ek.
  (* structure *)
  - bind_inv Hs. injection Hs as Hs. node concat_spec Ek. done.
  - bind_inv Hs. node copy_spec Ek.
  - destruct (if_shape graph widths floats _ id _ _ Hs) as (c & t & e & wc & Ecs & H1 & H2 & H3 & H4). node ite_spec Ek.
  - destruct (switch_shape graph widths floats _ id _ _ Hs) as (i & arm & arms & Ecs & _ & H1 & H2 & H3). node switch_spec Ek.
  - bind_inv Hs. node extend_spec Ek. done.
  - bind_inv Hs. node extend_spec Ek. intros _. by apply Nat.ltb_lt.
  - bind_inv Hs. injection Hs as Hs. rewrite !andb_true_iff in E5. destruct E5 as [[E5 E6] E7].
    apply Z.leb_le in E5, E6. apply Z.ltb_lt in E7. node extract_spec Ek; done.
  (* state, copies, undefined values *)
  - injection Hs as Hs. node state_block_spec Ek. done.
  - bind_inv Hs. node state_read_spec Ek.
  - bind_inv Hs. node copy_spec Ek.
  - bind_inv Hs. node poison_spec Ek.
  - bind_inv Hs. node freeze_spec Ek.
Qed.

End node.

(** ** Definedness *)
Section defined.
Context {S : Type} `{CnfLaws S} {V F : Type}.
Context (graph : Dag SymKind.t (SymPayload V F) unit) (widths : list (option nat)) (floats : list bool).
Context (ws : list nat) (id : nat) (k : SymKind.t) (cs : list nat) (w : nat).
Context (Hws : length ws = id).
Context (Hk : get_node graph id = Some k) (Hcs : children graph id = Some cs) (Hlt : forall c, c ∈ cs -> c < id).

Notation encodes := (@encodes S _ _ _).

(** The solver moves on; the tables stay. *)
Definition solver_only (b b' : Blaster S) : Prop := exists s, b' = set_solver s b.

Definition defined_post (b : Blaster S) (f : valuation -> bool) (d : Lit) (b' : Blaster S) (G' : Ctx) : Prop :=
  solver_only b b' /\ reads G' d f.

Lemma all_defined_spec n ws' l acc f b s G : nodes_ok n ws' b G -> (forall c, c ∈ l -> c < n) -> reads G acc f ->
  encodes (all_defined l acc) (set_solver s b) G
    (defined_post b (fun rho => f rho && forallb (rdefs (b_defined b) rho) l)).
Proof.
  revert acc f s G; induction l as [|c l IH]; intros acc f s G N Hl R; cbn [all_defined].
  { apply encodes_ret. split; [by exists s|]. destruct R as [R1 R2]. split; [done|]. intros rho Hr. rewrite (R2 rho Hr). cbn.
    by rewrite andb_true_r. }
  destruct (defined_of_run _ _ _ _ c N) as (d & Ed & Wd & Vd); [apply Hl; by constructor|].
  eapply encodes_read; [by apply defined_of_set|].
  eapply encodes_bind; [apply circuit_step, gate_and_spec; [apply R|done]|].
  intros y b1 G1 X [[s1 ->] R1]. change (set_solver s1 (set_solver s b)) with (set_solver s1 b).
  apply (nodes_ok_ext _ _ _ _ _ X) in N.
  eapply encodes_weaken; [apply (IH y (fun rho => lit_true rho acc && lit_true rho d) s1 G1 N); [intros x Hx; apply Hl; by constructor|exact R1]|].
  intros z b2 G2 X2 [S2 [W R2]]. split; [done|]. split; [done|]. intros rho Hr. rewrite (R2 rho Hr). cbn [forallb].
  destruct R as [_ R]. rewrite (R rho) by (apply (ext_holds _ _ X), (ext_holds _ _ X2), Hr). by rewrite Vd, andb_assoc.
Qed.

Lemma defined_post_ext b f g d b' G' : (forall rho, f rho = g rho) -> defined_post b f d b' G' -> defined_post b g d b' G'.
Proof. intros E [H1 [H2 H3]]. split; [done|]. split; [done|]. intros rho Hr. by rewrite (H3 rho Hr), E. Qed.

Context (Hshape : class_shape graph widths floats ws id (class_of k) cs = Some w).

Lemma if_defined_spec ws' b G c t e wc : nodes_ok id ws' b G -> cs = [c; t; e] -> ws' !! c = Some wc -> 0 < wc ->
  encodes (lc ← bits_of c; taken ← first_bit lc; dt ← defined_of t; de ← defined_of e;
      arm ← circuit (fun _ => gate_mux taken dt de);
      dc ← defined_of c;
      circuit (fun _ => gate_and dc arm)) b G
    (defined_post b (fun rho => class_defined (rvals (b_bits b) rho) (rdefs (b_defined b) rho) CIf cs)).
Proof.
  intros N Ecs Wc Hwc.
  assert (c < id /\ t < id /\ e < id) as (Hc & Ht & He) by (rewrite Ecs in Hlt; repeat split; apply Hlt; set_solver).
  destruct (bits_of_run _ _ _ _ c N Hc) as (lc & Ec & Wlc & Lc & _ & Vc).
  destruct (defined_of_run _ _ _ _ c N Hc) as (dc & Edc & Wdc & Vdc).
  destruct (defined_of_run _ _ _ _ t N Ht) as (dt & Edt & Wdt & Vdt).
  destruct (defined_of_run _ _ _ _ e N He) as (de & Ede & Wde & Vde).
  destruct (first_bit_run b G lc) as (l & El & Wl & Vl); [rewrite Lc in Wc; injection Wc as ->; done|].
  eapply encodes_read; [exact Ec|]. eapply encodes_read; [exact El|]. eapply encodes_read; [exact Edt|].
  eapply encodes_read; [exact Ede|].
  eapply encodes_bind; [apply circuit_step, gate_mux_spec; auto|]. intros y b1 G1 X [[s ->] R].
  eapply encodes_read; [by apply defined_of_set|].
  eapply encodes_weaken; [apply circuit_step, gate_and_spec; [by eapply wire_mono|apply R]|].
  intros z b2 G2 X2 [[s2 ->] [W R2]]. split; [by exists s2|]. split; [done|]. intros rho Hr. rewrite (R2 rho Hr).
  destruct R as [_ R]. rewrite (R rho (ext_holds _ _ X2 rho Hr)). unfold class_defined. rewrite Ecs. cbn [arg lookup list_lookup default from_option].
  change (arg [c; t; e] 0) with c. change (arg [c; t; e] 1) with t. change (arg [c; t; e] 2) with e.
  by rewrite Vdc, Vdt, Vde, Vc, Vl.
Qed.

Lemma poison_guard_spec ws' b s G a wa d f : nodes_ok id ws' b G -> cs !! 0 = Some a -> ws' !! a = Some wa -> 0 < wa ->
  reads G d f ->
  encodes (c0 ← expect (head cs); c ← bits_of c0; condition ← first_bit c;
      circuit (fun _ => gate_and d (negate condition))) (set_solver s b) G
    (defined_post b (fun rho => f rho && negb (Z.odd (rvals (b_bits b) rho (arg cs 0))))).
Proof.
  intros N Ea Wa Hwa R. pose proof (child_lt id cs Hlt 0 a Ea) as Ha.
  destruct (bits_of_run _ _ _ _ a N Ha) as (la & E & Wla & La & _ & Va).
  destruct (first_bit_run (set_solver s b) G la) as (l & El & Wl & Vl); [rewrite La in Wa; injection Wa as ->; done|].
  eapply encodes_read; [unfold expect; rewrite head_lookup, Ea; reflexivity|].
  eapply encodes_read; [by apply bits_of_set|]. eapply encodes_read; [exact El|].
  eapply encodes_weaken; [apply circuit_step, gate_and_spec; [apply R|auto with wires]|].
  intros z b2 G2 X2 [[s2 ->] [W R2]]. split; [by exists s2|]. split; [done|]. intros rho Hr. rewrite (R2 rho Hr).
  destruct R as [_ R]. rewrite (R rho (ext_holds _ _ X2 rho Hr)), lit_true_negate. rewrite (arg_eq _ _ _ Ea). by rewrite Va, Vl.
Qed.

Lemma encode_defined_spec b G : nodes_ok id (ws ++ [w]) b G -> encodes (encode_defined graph id) b G
  (defined_post b (fun rho => class_defined (rvals (b_bits b) rho) (rdefs (b_defined b) rho) (class_of k) cs)).
Proof.
  intros N. pose proof (no_one _ _ _ _ N) as [T1 T2]. assert (reads G (b_one b) (fun _ => true)) as R1 by by split.
  unfold encode_defined. eapply encodes_read; [by apply node_children_run|].
  assert (exists kk, k = kk /\ class_shape graph widths floats ws id (class_of kk) cs = Some w) as (kk & Ek & Hs) by (by exists k).
  eapply encodes_read with (a := kk); [unfold expect; by rewrite Hk, Ek|]. eapply encodes_read; [reflexivity|].
  rewrite Ek.
  pose proof (fun f => all_defined_spec id _ cs (b_one b) f b (solver b) G N Hlt) as Hall.
  specialize (Hall _ R1). cbn [andb] in Hall. replace (set_solver (solver b) b) with b in Hall by by destruct b.
  destruct kk; cbn [class_of class_shape] in Hs; try discriminate Hs;
    try (eapply encodes_bind; [exact Hall|]; intros d b1 G1 X [[s ->] Rd]; apply encodes_ret; split; [by exists s|exact Rd]).
  - destruct (if_shape graph widths floats _ id _ _ Hs) as (c & t & e & wc & Ecs & H1 & H2 & _).
    pose proof (if_defined_spec (ws ++ [w]) b G c t e wc N Ecs) as Hif. rewrite Ecs in *. apply Hif; [|done].
    apply lookup_app_l_Some, H1.
  - bind_inv Hs. apply Nat.ltb_lt in E1.
    eapply encodes_bind; [exact Hall|]. intros d b1 G1 X [[s ->] Rd]. unfold defined_guard.
    apply (nodes_ok_ext _ _ _ _ _ X) in N.
    eapply poison_guard_spec; [exact N|done|by apply lookup_app_l_Some|done|exact Rd].
  - apply encodes_ret. split; [exists (solver b); by destruct b|exact R1].
Qed.

End defined.
