(* ===== verification/BlastGraph.v ===== *)
(** * The whole graph: the models of the clauses are the interpretations

    The invariant of the node loop of [blast_into]: after [n] nodes every
    model of the clauses reads as an interpretation of the first [n] nodes,
    and every interpretation is read from some model. *)
From S2P Require Import Prelude Words ApInt ApIntSpec LimbArith Lang LangSpec SatSolver SatLits Dag Bits Gates FloatCircuits Bitblast BlastSem.
From S2P Require Import GateSpec CircuitSpec CircuitWord BlastSpec BlastNode SatProp SatAnalyze SatSearch SatSolve.
#[local] Open Scope nat_scope.

(** ** Values depend on the operands only *)
Definition class_arity (c : NodeClass) : nat :=
  match c with
  | CNot | CNeg | CCopy | CExtract | CExtend _ | CFreeze => 1
  | CWord _ | CShift _ | CTest _ _ | CConcat | CPoison | CSwitch => 2
  | CIf => 3
  | CSymbol | CTrue | CRead | CConst | COther => 0
  end.

Lemma arg_in cs k : k < length cs -> arg cs k ∈ cs.
Proof.
  intros Hk. destruct (lookup_lt_is_Some_2 cs k Hk) as [c Ec]. rewrite (arg_eq _ _ _ Ec). by eapply list_elem_of_lookup_2.
Qed.

Section values.
Context {V F : Type} (graph : Dag SymKind.t (SymPayload V F) unit) (widths : list (option nat)) (floats : list bool).

Lemma class_shape_arity ws id c cs w : class_shape graph widths floats ws id c cs = Some w -> class_arity c <= length cs.
Proof.
  intros Hs. destruct c; cbn [class_arity]; try lia;
    try (cbn [class_shape] in Hs; bind_inv Hs;
      repeat match goal with E : cs !! _ = Some _ |- _ => apply lookup_lt_Some in E end; lia).
  - destruct (if_shape graph widths floats _ id _ _ Hs) as (? & ? & ? & ? & -> & _). done.
  - destruct (switch_shape graph widths floats _ id _ _ Hs) as (? & ? & ? & -> & _). cbn. lia.
Qed.

Lemma class_value_local sh w vals vals' defs defs' id c cs : class_arity c <= length cs ->
  (forall i, i ∈ cs -> vals i = vals' i /\ defs i = defs' i) ->
  (forall i, owner graph sh cs w = Some i -> vals i = vals' i) ->
  class_value graph sh w vals defs id c cs = class_value graph sh w vals' defs' id c cs.
Proof.
  intros Har Hcs Ho.
  assert (forall k, k < length cs -> vals (arg cs k) = vals' (arg cs k)) as Hv by (intros; by apply Hcs, arg_in).
  assert (forall k, k < length cs -> defs (arg cs k) = defs' (arg cs k)) as Hd by (intros; by apply Hcs, arg_in).
  destruct c; cbn [class_value class_arity] in *; rewrite ?(Hv 0), ?(Hv 1), ?(Hv 2), ?(Hd 0) by lia; try done.
  - destruct (owner graph sh cs w); cbn; [by rewrite Ho|done].
  - f_equal. apply Hv. lia.
Qed.

Lemma class_defined_local vals vals' defs defs' c cs : class_arity c <= length cs ->
  (forall i, i ∈ cs -> vals i = vals' i /\ defs i = defs' i) ->
  class_defined vals defs c cs = class_defined vals' defs' c cs.
Proof.
  intros Har Hcs.
  assert (forall k, k < length cs -> vals (arg cs k) = vals' (arg cs k)) as Hv by (intros; by apply Hcs, arg_in).
  assert (forall k, k < length cs -> defs (arg cs k) = defs' (arg cs k)) as Hd by (intros; by apply Hcs, arg_in).
  assert (forallb defs cs = forallb defs' cs) as E.
  { clear Har Hv Hd. induction cs as [|x cs IH]; [done|]. cbn. rewrite (proj2 (Hcs x ltac:(constructor))). f_equal.
    apply IH. intros i Hi. apply Hcs. by constructor. }
  destruct c; cbn [class_defined class_arity] in *; rewrite ?E, ?(Hv 0), ?(Hv 1), ?(Hv 2), ?(Hd 0), ?(Hd 1), ?(Hd 2) by lia; done.
Qed.

(** ** Shapes *)
Notation shapes := (shapes graph widths floats).

Lemma node_shape_inv ws id w : node_shape graph widths floats ws id = Some w ->
  exists k cs, get_node graph id = Some k /\ children graph id = Some cs /\ (forall c, c ∈ cs -> c < id) /\
    class_shape graph widths floats ws id (class_of k) cs = Some w.
Proof.
  unfold node_shape. intros Hs. bind_inv Hs. exists t, l. split; [done|]. split; [done|]. split; [|done].
  intros c Hc%list_elem_of_In. rewrite forallb_forall in E1. by apply Nat.ltb_lt, E1.
Qed.

Lemma shapes_S n sh' : shapes (Datatypes.S n) = Some sh' -> exists sh k cs w, shapes n = Some sh /\
  get_node graph n = Some k /\ children graph n = Some cs /\ (forall c, c ∈ cs -> c < n) /\
  class_shape graph widths floats (sh_ws sh) n (class_of k) cs = Some w /\
  sh' = mkShapes (sh_ws sh ++ [w]) (next_reads graph sh n (class_of k) cs w).
Proof.
  cbn [BlastSem.shapes]. intros Hs. bind_inv Hs. injection Hs as <-.
  destruct (node_shape_inv _ _ _ E2) as (k & cs & Hk & Hcs & Hlt & Hw).
  rewrite E0 in Hk. injection Hk as <-. rewrite E1 in Hcs. injection Hcs as <-. by exists s, t, l, n0.
Qed.

Lemma owner_Some sh cs w i : owner graph sh cs w = Some i ->
  exists key, read_key graph cs = Some key /\ sh_reads sh !! key = Some i /\ sh_ws sh !! i = Some w.
Proof.
  unfold owner. intros Hs. bind_inv Hs. destruct (decide (sh_ws sh !! n = Some w)); [|done]. injection Hs as <-. by exists p.
Qed.

Lemma shapes_ok n sh : shapes n = Some sh -> length (sh_ws sh) = n /\ (forall key j, sh_reads sh !! key = Some j -> j < n).
Proof.
  revert sh; induction n as [|n IH]; intros sh Hs.
  - injection Hs as <-. split; [done|]. intros key j. cbn [sh_reads]. by rewrite lookup_empty.
  - destruct (shapes_S n sh Hs) as (sh0 & k & cs & w & Hs0 & _ & _ & _ & _ & ->). destruct (IH sh0 Hs0) as [H1 H2].
    cbn [sh_ws sh_reads]. split; [rewrite length_app; cbn; lia|]. intros key j.
    assert (sh_reads sh0 !! key = Some j -> j < Datatypes.S n) as Hold by (intros Hj; specialize (H2 key j Hj); lia).
    unfold next_reads. destruct (class_of k); try apply Hold. destruct (read_key graph cs) as [key'|]; [|apply Hold].
    destruct (owner graph sh0 cs w); [apply Hold|]. destruct (decide (key' = key)) as [->|Hne].
    + rewrite lookup_insert_eq. intros [= <-]. lia.
    + rewrite lookup_insert_ne by done. apply Hold.
Qed.

(** ** Interpretations of a prefix *)
Notation node_ok := (node_ok graph widths floats).

Lemma node_ok_local vals vals' defs defs' j : (forall i, i <= j -> vals i = vals' i /\ defs i = defs' i) ->
  node_ok vals defs j -> node_ok vals' defs' j.
Proof.
  intros E (sh & sh' & k & cs & w & H1 & H2 & H3 & H4 & H5 & H6 & H7 & H8).
  destruct (shapes_S j sh' H2) as (sh0 & k0 & cs0 & w0 & G1 & G2 & G3 & G4 & G5 & G6).
  rewrite G1 in H1. injection H1 as ->. rewrite G2 in H3. injection H3 as ->. rewrite G3 in H4. injection H4 as ->.
  destruct (shapes_ok j sh G1) as [L1 L2].
  assert (w0 = w) as ->.
  { rewrite G6 in H5. cbn in H5. rewrite lookup_app_r, L1, Nat.sub_diag in H5 by lia. by injection H5. }
  pose proof (class_shape_arity _ _ _ _ _ G5) as Har.
  assert (forall i, i ∈ cs -> vals i = vals' i /\ defs i = defs' i) as Ecs by (intros i Hi; apply E; specialize (G4 i Hi); lia).
  exists sh, sh', k, cs, w. do 5 (split; [done|]). destruct (E j) as [<- <-]; [lia|].
  split; [done|]. split.
  - intros v Hv. apply H7. rewrite <- Hv. apply class_value_local; [done|done|].
    intros i (key & _ & Hi & _)%owner_Some. apply E. specialize (L2 key i Hi). lia.
  - rewrite H8. by apply class_defined_local.
Qed.

End values.

(** ** The invariant of the loop *)
Section graph.
Context {S : Type} `{CnfLaws S} {V F : Type}.
Context (graph : Dag SymKind.t (SymPayload V F) unit) (widths : list (option nat)) (floats : list bool).

Notation encodes := (@encodes S _ _ _).
Notation node_ok := (node_ok graph widths floats).

Definition symbol_node (j sid : nat) : Prop :=
  get_node graph j = Some SymKind.Symbol /\ get_leaf_data graph j = Some (Some (SymbolId sid)).

(** What a model of the clauses reads the first [n] nodes as. *)
Definition matches (b : Blaster S) (n : nat) (rho : valuation) (vals : nat -> Z) (defs : nat -> bool) : Prop :=
  forall j, j < n -> rvals (b_bits b) rho j = vals j /\ rdefs (b_defined b) rho j = defs j.

Record blasted_ok (n : nat) (sh : Shapes) (b : Blaster S) (G : Ctx) : Prop := {
  bo_shapes : shapes graph widths floats n = Some sh;
  bo_nodes : nodes_ok n (sh_ws sh) b G;
  bo_bits : length (b_bits b) = n;
  bo_defined : length (b_defined b) = n;
  bo_reads : reads_ok sh n b;
  bo_sym : forall sid ls, sym_bits b !! sid = Some ls -> exists j, j < n /\ symbol_node j sid /\ b_bits b !! j = Some ls;
  bo_sym_all : forall j sid, j < n -> symbol_node j sid -> is_Some (sym_bits b !! sid);
  bo_sound : forall rho, cholds G rho -> forall j, j < n -> node_ok (rvals (b_bits b) rho) (rdefs (b_defined b) rho) j;
  bo_complete : forall vals defs, (forall j, j < n -> node_ok vals defs j) ->
    exists rho, cholds G rho /\ matches b n rho vals defs;
}.

Lemma rvals_snoc bs x rho j : j < length bs -> rvals (bs ++ [x]) rho j = rvals bs rho j.
Proof. intros Hj. unfold rvals. by rewrite lookup_app_l. Qed.
Lemma rvals_last n bs x rho : length bs = n -> rvals (bs ++ [x]) rho n = num rho x.
Proof. intros <-. unfold rvals. by rewrite list_lookup_middle. Qed.
Lemma rdefs_snoc ds x rho j : j < length ds -> rdefs (ds ++ [x]) rho j = rdefs ds rho j.
Proof. intros Hj. unfold rdefs. by rewrite lookup_app_l. Qed.
Lemma rdefs_last n ds x rho : length ds = n -> rdefs (ds ++ [x]) rho n = lit_true rho x.
Proof. intros <-. unfold rdefs. by rewrite list_lookup_middle. Qed.

(** One node with its bits and its definedness: the data of one turn. *)
Section turn.
Context (n : nat) (sh : Shapes) (b : Blaster S) (G : Ctx) (B : blasted_ok n sh b G).
Context (k : SymKind.t) (cs : list nat) (w : nat) (Hk : get_node graph n = Some k) (Hcs : children graph n = Some cs).
Context (Hlt : forall c, c ∈ cs -> c < n).
Context (Hw : class_shape graph widths floats (sh_ws sh) n (class_of k) cs = Some w).
Context (bits : list Lit) (d : Lit) (G1 G2 : Ctx) (X1 : extends G G1) (X2 : extends G1 G2).
Context (Hb : bits_spec G w (node_value graph sh n k cs w b) bits G1).
Context (Hd : reads G2 d (fun rho => class_defined (rvals (b_bits b ++ [bits]) rho) (rdefs (b_defined b) rho) (class_of k) cs)).

Let sh' := mkShapes (sh_ws sh ++ [w]) (next_reads graph sh n (class_of k) cs w).

Lemma turn_shapes : shapes graph widths floats (Datatypes.S n) = Some sh'.
Proof.
  cbn [shapes]. rewrite (bo_shapes _ _ _ _ B). cbn [mbind option_bind]. rewrite Hk. cbn [mbind option_bind].
  rewrite Hcs. cbn [mbind option_bind]. unfold node_shape. rewrite Hk. cbn [mbind option_bind]. rewrite Hcs. cbn [mbind option_bind].
  assert (forallb (fun c => c <? n) cs = true) as ->.
  { apply forallb_forall. intros c Hc%list_elem_of_In. by apply Nat.ltb_lt, Hlt. }
  rewrite Hw. done.
Qed.

Lemma turn_ws : sh_ws sh' !! n = Some w.
Proof.
  destruct (shapes_ok _ _ _ _ _ (bo_shapes _ _ _ _ B)) as [L _]. cbn [sh_ws sh']. rewrite <- L. by apply list_lookup_middle.
Qed.

(** The values of the operands, before and after the node is pushed. *)
Lemma turn_class_value rho vals defs :
  (forall j, j < n -> rvals (b_bits b) rho j = vals j /\ rdefs (b_defined b) rho j = defs j) ->
  node_value graph sh n k cs w b rho = class_value graph sh w vals defs n (class_of k) cs.
Proof.
  intros E. destruct (shapes_ok _ _ _ _ _ (bo_shapes _ _ _ _ B)) as [_ R]. unfold node_value.
  apply class_value_local; [by eapply class_shape_arity|intros i Hi; by apply E, Hlt|].
  intros i (key & _ & Hi & _)%owner_Some. by apply E, (R key).
Qed.

Lemma turn_class_defined rho vals defs :
  (forall j, j < n -> rvals (b_bits b) rho j = vals j /\ rdefs (b_defined b) rho j = defs j) ->
  class_defined (rvals (b_bits b ++ [bits]) rho) (rdefs (b_defined b) rho) (class_of k) cs =
  class_defined vals defs (class_of k) cs.
Proof.
  intros E. apply class_defined_local; [by eapply class_shape_arity|]. intros i Hi%Hlt.
  rewrite rvals_snoc by (rewrite (bo_bits _ _ _ _ B); done). by apply E.
Qed.

Lemma turn_sound rho : cholds G2 rho -> forall j, j < Datatypes.S n ->
  node_ok (rvals (b_bits b ++ [bits]) rho) (rdefs (b_defined b ++ [d]) rho) j.
Proof.
  intros Hr j Hj. pose proof (bo_bits _ _ _ _ B) as Lb. pose proof (bo_defined _ _ _ _ B) as Ld.
  pose proof (ext_holds _ _ X2 rho Hr) as Hr1. pose proof (ext_holds _ _ X1 rho Hr1) as Hr0.
  assert (forall i, i < n -> rvals (b_bits b) rho i = rvals (b_bits b ++ [bits]) rho i /\
    rdefs (b_defined b) rho i = rdefs (b_defined b ++ [d]) rho i) as E.
  { intros i Hi. by rewrite rvals_snoc, rdefs_snoc by lia. }
  destruct (Nat.eq_dec j n) as [->|].
  2:{ apply (node_ok_local _ _ _ (rvals (b_bits b) rho) _ (rdefs (b_defined b) rho)); [|apply (bo_sound _ _ _ _ B rho Hr0); lia].
      intros i Hi. apply E. lia. }
  exists sh, sh', k, cs, w. split; [apply (bo_shapes _ _ _ _ B)|]. split; [apply turn_shapes|]. do 2 (split; [done|]).
  split; [apply turn_ws|]. rewrite (rvals_last n _ _ _ Lb), (rdefs_last n _ _ _ Ld).
  split; [apply num_range, Hb|]. split.
  - intros v Hv. apply (bs_sound _ _ _ _ _ Hb rho v Hr1). rewrite <- Hv. by apply turn_class_value.
  - rewrite (proj2 Hd rho Hr). by apply turn_class_defined.
Qed.

Lemma turn_complete vals defs : (forall j, j < Datatypes.S n -> node_ok vals defs j) ->
  exists rho, cholds G2 rho /\ forall j, j < Datatypes.S n ->
    rvals (b_bits b ++ [bits]) rho j = vals j /\ rdefs (b_defined b ++ [d]) rho j = defs j.
Proof.
  intros Hok. destruct (bo_complete _ _ _ _ B vals defs) as (rho & Hr & M); [intros j Hj; apply Hok; lia|].
  pose proof (bo_nodes _ _ _ _ B) as N. pose proof (bo_bits _ _ _ _ B) as Lb. pose proof (bo_defined _ _ _ _ B) as Ld.
  destruct (Hok n) as (sh0 & sh1 & k0 & cs0 & w0 & H1 & H2 & H3 & H4 & H5 & H6 & H7 & H8); [lia|].
  rewrite (bo_shapes _ _ _ _ B) in H1. injection H1 as <-. rewrite turn_shapes in H2. injection H2 as <-.
  rewrite Hk in H3. injection H3 as <-. rewrite Hcs in H4. injection H4 as <-.
  rewrite turn_ws in H5. injection H5 as <-.
  destruct (bs_complete _ _ _ _ _ Hb rho (vals n) Hr H6) as (rho1 & A1 & Hr1 & E1).
  { intros v Hv. apply H7. rewrite <- Hv. symmetry. by apply turn_class_value. }
  destruct (ext_model _ _ X2 rho1 Hr1) as (rho2 & A2 & Hr2). exists rho2. split; [done|].
  assert (agree (cvars G) rho rho2) as A by (eapply agree_trans; [apply (ext_vars _ _ X1)|done|done]).
  assert (forall j, j < n -> rvals (b_bits b) rho2 j = vals j /\ rdefs (b_defined b) rho2 j = defs j) as M2.
  { intros j Hj. rewrite <- (rvals_agree _ _ _ _ _ _ j N A), <- (rdefs_agree _ _ _ _ _ _ j N A). by apply M. }
  intros j Hj. destruct (Nat.eq_dec j n) as [->|].
  - rewrite (rvals_last n _ _ _ Lb), (rdefs_last n _ _ _ Ld). split.
    + rewrite <- E1. symmetry. apply (num_agree G1); [apply Hb|done].
    + rewrite (proj2 Hd rho2 Hr2), H8. by apply turn_class_defined.
  - rewrite rvals_snoc, rdefs_snoc by lia. apply M2. lia.
Qed.

End turn.

Lemma nodes_ok_push n ws (b b1 : Blaster S) G G1 w bits : nodes_ok n ws b G -> length ws = n -> length (b_bits b) = n ->
  b_one b1 = b_one b -> b_bits b1 = b_bits b -> b_defined b1 = b_defined b -> extends G G1 ->
  wires G1 bits -> length bits = w -> nodes_ok n (ws ++ [w]) (push_bits bits b1) G1.
Proof.
  intros N Lw Lb E1 E2 E3 X Wb Hlen. apply (nodes_ok_ext _ _ _ _ _ X) in N. destruct N as [T B L D M].
  split; cbn [push_bits b_one b_bits b_defined]; rewrite ?E1, ?E2, ?E3; try done.
  - intros c ls. destruct (Nat.lt_trichotomy c n) as [Hc|[->|Hc]].
    + rewrite lookup_app_l by lia. intros Hls. destruct (B c ls Hls). split; [done|]. by apply lookup_app_l_Some.
    + rewrite <- Lb at 1. rewrite list_lookup_middle by done. intros [= <-]. split; [done|].
      rewrite <- Lw. rewrite list_lookup_middle by done. by rewrite Hlen.
    + rewrite lookup_ge_None_2; [done|]. rewrite length_app. cbn. lia.
  - rewrite length_app. lia.
Qed.

Lemma nodes_ok_done n ws (b : Blaster S) G G2 d s : nodes_ok n ws b G -> extends G G2 -> n < length (b_bits b) -> n = length (b_defined b) ->
  wire G2 d -> nodes_ok (Datatypes.S n) ws (push_defined d (set_solver s b)) G2.
Proof.
  intros N X L1 L2 Wd. apply (nodes_ok_mono _ _ _ s _ _ X) in N. destruct N as [T B L D M].
  split; cbn [push_defined set_solver b_one b_bits b_defined] in *; try done.
  - apply wires_app. split; [done|]. by apply list.Forall_cons.
  - rewrite length_app. cbn. lia.
Qed.

Lemma reads_ok_next n sh k cs w (b b' : Blaster S) bits : reads_ok sh n b -> length (b_bits b) = n -> b_bits b' = b_bits b ++ [bits] ->
  state_reads b' = next_state graph sh k cs w bits (state_reads b) ->
  reads_ok (mkShapes (sh_ws sh ++ [w]) (next_reads graph sh n (class_of k) cs w)) (Datatypes.S n) b'.
Proof.
  intros [R1 R2] Lb Eb Er. split; cbn [sh_reads].
  - intros key. rewrite Er, Eb. unfold next_state, next_reads.
    assert (state_reads b !! key = j ← sh_reads sh !! key; (b_bits b ++ [bits]) !! j) as Hold.
    { rewrite R1. destruct (sh_reads sh !! key) as [j|] eqn:Ej; cbn; [|done]. rewrite lookup_app_l; [done|]. rewrite Lb. by eapply R2. }
    destruct (class_of k); try exact Hold. destruct (read_key graph cs) as [key'|]; [|exact Hold].
    destruct (owner graph sh cs w); [exact Hold|]. destruct (decide (key' = key)) as [->|Hne].
    + rewrite !lookup_insert_eq. cbn. rewrite <- Lb. by rewrite list_lookup_middle.
    + by rewrite !lookup_insert_ne.
  - intros key j. assert (sh_reads sh !! key = Some j -> j < Datatypes.S n) as Hold by (intros Hj; specialize (R2 key j Hj); lia).
    unfold next_reads. destruct (class_of k); try exact Hold. destruct (read_key graph cs) as [key'|]; [|exact Hold].
    destruct (owner graph sh cs w); [exact Hold|]. destruct (decide (key' = key)) as [->|Hne].
    + rewrite lookup_insert_eq. intros [= <-]. lia.
    + rewrite lookup_insert_ne by done. exact Hold.
Qed.

Lemma sym_next n k (b b' : Blaster S) bits : get_node graph n = Some k -> length (b_bits b) = n -> b_bits b' = b_bits b ++ [bits] ->
  sym_bits b' = next_sym graph n k bits (sym_bits b) ->
  (forall sid ls, sym_bits b !! sid = Some ls -> exists j, j < n /\ symbol_node j sid /\ b_bits b !! j = Some ls) ->
  (forall j sid, j < n -> symbol_node j sid -> is_Some (sym_bits b !! sid)) ->
  (forall sid ls, sym_bits b' !! sid = Some ls -> exists j, j < Datatypes.S n /\ symbol_node j sid /\ b_bits b' !! j = Some ls) /\
  (forall j sid, j < Datatypes.S n -> symbol_node j sid -> is_Some (sym_bits b' !! sid)).
Proof.
  intros Hk Lb Eb Es H1 H2.
  assert (forall sid ls, sym_bits b !! sid = Some ls -> exists j, j < Datatypes.S n /\ symbol_node j sid /\ b_bits b' !! j = Some ls) as Hold.
  { intros sid ls Hl. destruct (H1 sid ls Hl) as (j & Hj & Hs & Hb). exists j. split; [lia|]. split; [done|].
    rewrite Eb. by apply lookup_app_l_Some. }
  assert ((exists sid, symbol_node n sid /\ sym_bits b' = <[sid := bits]> (sym_bits b)) \/
    ((forall sid, ~ symbol_node n sid) /\ sym_bits b' = sym_bits b)) as [(sid0 & Hs0 & E)|[Hns E]].
  { rewrite Es. unfold next_sym, symbol_node. rewrite Hk.
    destruct (SymKind.eq_dec k SymKind.Symbol) as [->|Hne].
    2:{ right. split; [|by destruct k]. intros sid [[= ->] _]. done. }
    destruct (get_leaf_data graph n) as [[[]|]|]; try (right; split; [intros sid [_ ?]; congruence|done]).
    left. by exists id. }
  - split.
    + intros sid ls. rewrite E. destruct (decide (sid0 = sid)) as [->|Hne].
      * rewrite lookup_insert_eq. intros [= <-]. exists n. split; [lia|]. split; [done|]. rewrite Eb, <- Lb.
        by apply list_lookup_middle.
      * rewrite lookup_insert_ne by done. apply Hold.
    + intros j sid Hj Hs. rewrite E. destruct (decide (sid0 = sid)) as [->|Hne].
      * rewrite lookup_insert_eq. by eexists.
      * rewrite lookup_insert_ne by done. apply (H2 j); [|done]. destruct (Nat.eq_dec j n) as [->|]; [|lia].
        exfalso. destruct Hs as [_ Hs], Hs0 as [_ Hs0]. rewrite Hs in Hs0. by injection Hs0.
  - split; [intros sid ls; rewrite E; apply Hold|]. intros j sid Hj Hs. rewrite E. apply (H2 j); [|done].
    destruct (Nat.eq_dec j n) as [->|]; [by apply Hns in Hs|lia].
Qed.

Lemma blast_node_spec n sh sh' b G : blasted_ok n sh b G -> shapes graph widths floats (Datatypes.S n) = Some sh' ->
  encodes (blast_node graph widths floats n) b G (fun _ b' G' => blasted_ok (Datatypes.S n) sh' b' G').
Proof.
  intros B Hsh. destruct (shapes_S _ _ _ _ _ Hsh) as (sh0 & k & cs & w & H1 & Hk & Hcs & Hlt & Hw & ->).
  pose proof (bo_shapes _ _ _ _ B) as H1'. rewrite H1 in H1'. injection H1' as ->.
  destruct (shapes_ok _ _ _ _ _ H1) as [Lw _]. pose proof (bo_bits _ _ _ _ B) as Lb. pose proof (bo_defined _ _ _ _ B) as Ld.
  unfold blast_node. eapply encodes_bind.
  { apply (encode_spec graph widths floats sh n k cs w b G); try done; apply B. }
  intros bits b1 G1 X1 [[F1 F2 F3 F4 F5] Hb].
  eapply encodes_bind; [apply (encodes_modify _ _ _ (fun _ b' G' => b' = push_bits bits b1 /\ G' = G1)); done|].
  intros [] b2 G2 X [-> ->]. clear X.
  pose proof (nodes_ok_push n (sh_ws sh) b b1 G G1 w bits (bo_nodes _ _ _ _ B) Lw Lb F1 F2 F3 X1 (bs_wires _ _ _ _ _ Hb) (bs_length _ _ _ _ _ Hb)) as N1.
  eapply encodes_bind.
  { eapply (encode_defined_spec graph widths floats (sh_ws sh) n k cs w); try done. }
  intros d b3 G3 X3 [[s ->] Hd]. apply encodes_modify; [done|].
  set (b' := push_defined d (set_solver s (push_bits bits b1))).
  assert (b_bits b' = b_bits b ++ [bits]) as Eb by (cbn; by rewrite F2).
  assert (b_defined b' = b_defined b ++ [d]) as Ed by (cbn; by rewrite F3).
  cbn [push_bits b_bits b_defined] in Hd. rewrite F2, F3 in Hd.
  destruct (sym_next n k b b' bits Hk Lb Eb F4 (bo_sym _ _ _ _ B) (bo_sym_all _ _ _ _ B)) as [S1 S2].
  split; try done.
  - apply nodes_ok_done with (G := G1); try done; cbn [push_bits b_bits b_defined]; [|by rewrite F3, Ld|apply Hd].
    rewrite F2, length_app. cbn. lia.
  - rewrite Eb, length_app. cbn. lia.
  - rewrite Ed, length_app. cbn. lia.
  - by eapply reads_ok_next; [apply B| | |exact F5].
  - intros rho Hr. rewrite Eb, Ed. by apply (turn_sound n sh b G B k cs w Hk Hcs Hlt Hw bits d G1 G3 X1 X3 Hb Hd).
  - intros vals defs Hok. destruct (turn_complete n sh b G B k cs w Hk Hcs Hlt Hw bits d G1 G3 X1 X3 Hb Hd vals defs Hok) as (rho & Hr & M).
    exists rho. split; [done|]. intros j Hj. rewrite Eb, Ed. by apply M.
Qed.

Lemma shapes_prefix n m : n <= m -> is_Some (shapes graph widths floats m) -> is_Some (shapes graph widths floats n).
Proof.
  intros Hle. induction Hle as [|m Hle IH]; [done|]. intros [sh' Hs]. apply IH.
  destruct (shapes_S _ _ _ _ _ Hs) as (sh & _ & _ & _ & E & _). by exists sh.
Qed.

Lemma blast_nodes_spec m n sh sh' b G : blasted_ok n sh b G -> shapes graph widths floats (n + m) = Some sh' ->
  encodes (blast_nodes graph widths floats (seq n m)) b G (fun _ b' G' => blasted_ok (n + m) sh' b' G').
Proof.
  revert n sh b G; induction m as [|m IH]; intros n sh b G B Hs; cbn [seq blast_nodes].
  - apply encodes_ret. rewrite Nat.add_0_r in *. pose proof (bo_shapes _ _ _ _ B) as E. rewrite Hs in E. by injection E as ->.
  - destruct (shapes_prefix (Datatypes.S n) (n + Datatypes.S m)) as [sh1 E1]; [lia|by exists sh'|].
    eapply encodes_bind; [by eapply blast_node_spec|]. intros [] b1 G1 X B1.
    replace (n + Datatypes.S m) with (Datatypes.S n + m) in * by lia. by eapply IH.
Qed.

End graph.

(** ** Evaluating a formula graph

    An executable evaluator of the reference semantics: given values for the
    free nodes it computes an interpretation, so that the typed graphs have
    one for every choice. *)
(** ** Operators stay in range *)
Lemma smt_op_range k w x y : (0 < w)%Z -> (0 <= x < 2 ^ w)%Z -> is_Some (bv_op k w x y) \/ class_of k = CWord k ->
  (0 <= smt_op k w x y < 2 ^ op_width k w)%Z.
Proof.
  intros Hw Hx Hk. assert (0 < 2 ^ op_width k w)%Z as Hp by (apply Z.pow_pos_nonneg; destruct k; cbn; lia).
  destruct (bv_op k w x y) as [v|] eqn:E.
  - rewrite (smt_op_bv_op _ _ _ _ _ E). by apply Z.mod_pos_bound.
  - destruct Hk as [[? ?]|Hk]; [done|]. unfold smt_op. rewrite E.
    destruct k; try discriminate Hk; cbn [bv_op op_width] in *; try discriminate E; try lia.
    destruct (sign_of w x <? 0)%Z; [apply Z.mod_pos_bound|]; lia.
Qed.

Lemma smt_op_range' k w o x y : op_width k w = o -> (0 < w)%Z -> (0 <= x < 2 ^ w)%Z ->
  is_Some (bv_op k w x y) \/ class_of k = CWord k -> (0 <= smt_op k w x y < 2 ^ o)%Z.
Proof. intros <-. apply smt_op_range. Qed.

Section eval.
Context {V F : Type} (graph : Dag SymKind.t (SymPayload V F) unit) (widths : list (option nat)) (floats : list bool).

Notation shapes := (shapes graph widths floats).

Definition in_range (ws : list nat) (vals : nat -> Z) (c : nat) : Prop :=
  forall w, ws !! c = Some w -> (0 <= vals c < 2 ^ Z.of_nat w)%Z.

Lemma class_value_range sh w vals defs id c cs v : class_shape graph widths floats (sh_ws sh) id c cs = Some w ->
  c = class_of match c with CWord k | CShift k | CTest k _ => k | _ => SymKind.Symbol end \/
    match c with CWord _ | CShift _ | CTest _ _ => False | _ => True end ->
  (forall i, i ∈ cs -> in_range (sh_ws sh) vals i) -> (forall i, owner graph sh cs w = Some i -> in_range (sh_ws sh) vals i) ->
  class_value graph sh w vals defs id c cs = Some v -> (0 <= v < 2 ^ Z.of_nat w)%Z.
Proof.
  intros Hs Hk Hr Ho Hv.
  assert (forall i a wa, cs !! i = Some a -> sh_ws sh !! a = Some wa -> (0 <= vals (arg cs i) < 2 ^ Z.of_nat wa)%Z) as Ha.
  { intros i a wa Ei Ea. rewrite (arg_eq _ _ _ Ei). apply Hr; [by eapply list_elem_of_lookup_2|done]. }
  assert (forall i a wa, cs !! i = Some a -> sh_ws sh !! a = Some wa -> widthZ (sh_ws sh) (arg cs i) = Z.of_nat wa) as Hwz.
  { intros i a wa Ei Ea. unfold widthZ. by rewrite (arg_eq _ _ _ Ei), Ea. }
  destruct c; cbn [class_value] in Hv; try discriminate Hv;
    try (injection Hv as <-; cbn [class_shape] in Hs; bind_inv Hs; try injection Hs as Hs;
      first [apply Z.mod_pos_bound; lia | by eapply Ha | idtac]).
  - subst w. done.
  - destruct (owner graph sh cs w) as [i|] eqn:E; [|done]. injection Hv as <-.
    destruct (owner_Some _ _ _ _ _ E) as (_ & _ & _ & Hw). by apply (Ho i eq_refl).
  - destruct (constant_of graph id); [|done]. injection Hv as <-. apply Z.mod_pos_bound. lia.
  - pose proof (Ha 0 _ _ E Hs). lia.
  - apply same_width_inv in E1 as [E1 E1']. apply Nat.ltb_lt in E2. rewrite (Hwz 0 _ _ E E1). subst w.
    destruct Hk as [Hk|[]]. eapply (smt_op_range' k (Z.of_nat n1)); [by destruct k|lia|by eapply Ha|by right].
  - apply andb_true_iff in E3 as [E3 _]. apply Nat.ltb_lt in E3. rewrite (Hwz 0 _ _ E E1). subst w.
    destruct Hk as [Hk|[]]. eapply (smt_op_range' k (Z.of_nat n1)); [by destruct k|lia|by eapply Ha|]. left. destruct k; try discriminate Hk; by eexists.
  - apply same_width_inv in E1 as [E1 E1']. apply andb_true_iff in E2 as [E2 _]. apply Nat.ltb_lt in E2.
    rewrite (Hwz 0 _ _ E E1). subst w. destruct Hk as [Hk|[]].
    eapply (smt_op_range' k (Z.of_nat n1)); [by destruct k|lia|by eapply Ha|]. left. destruct k; try discriminate Hk; by eexists.
  - rewrite (Hwz 1 _ _ E0 E2). subst w. pose proof (Ha 0 _ _ E E1) as H1. pose proof (Ha 1 _ _ E0 E2) as H2.
    rewrite Nat2Z.inj_add, Z.pow_add_r by lia. nia.
  - cbn [class_shape] in Hs. bind_inv Hs. injection Hs as <-. rewrite !andb_true_iff in E5. destruct E5 as [[E5 E6] E7].
    apply Z.leb_le in E5, E6. rewrite (arg_eq _ _ _ E0), (arg_eq _ _ _ E2), E1, E3 in Hv. injection Hv as <-.
    rewrite Z2Nat.id by lia. apply Z.mod_pos_bound. apply Z.pow_pos_nonneg; lia.
  - cbn [class_shape] in Hs. bind_inv Hs. destruct signed; injection Hv as <-; apply Z.mod_pos_bound; lia.
  - destruct (if_shape graph widths floats _ id _ _ Hs) as (c & t & e & wc & -> & _ & _ & H1 & H2).
    destruct (Z.odd _); by eapply Ha.
  - cbn [class_shape] in Hs. bind_inv Hs. destruct (defs (arg cs 0)); [|done]. injection Hv as <-. by eapply Ha.
  - destruct (switch_shape graph widths floats _ id _ _ Hs) as (i & arm & arms & -> & _ & H1 & H2 & _).
    apply (Hr (arg _ _)); [apply arg_in; cbn; lia|]. set (m := Nat.min _ _).
    assert (m <= length arms) as Hm by (subst m; cbn; lia). clearbody m. destruct m as [|m]; [done|].
    destruct (lookup_lt_is_Some_2 arms m) as [a Ea]; [lia|]. rewrite (arg_eq (i :: arm :: arms) (S (S m)) a Ea).
    rewrite Forall_forall in H2. apply H2, list_elem_of_In. by eapply list_elem_of_lookup_2.
Qed.

(** ** The evaluator *)

(** The table of values as a total function. *)
Definition at_index {A} (d : A) (l : list A) (i : nat) : A := default d (l !! i).

(** [env] chooses for the free nodes. *)
Fixpoint evaluate (env : nat -> Z) (n : nat) : option (Shapes * list Z * list bool) :=
  match n with
  | O => Some (mkShapes [] ∅, [], [])
  | Datatypes.S id =>
    '(sh, vs, ds) ← evaluate env id;
    k ← get_node graph id;
    cs ← children graph id;
    w ← node_shape graph widths floats (sh_ws sh) id;
    let vals := at_index 0%Z vs in
    let defs := at_index false ds in
    let v := match class_value graph sh w vals defs id (class_of k) cs with
             | Some v => v
             | None => (env id mod 2 ^ Z.of_nat w)%Z
             end in
    Some (mkShapes (sh_ws sh ++ [w]) (next_reads graph sh id (class_of k) cs w),
      vs ++ [v], ds ++ [class_defined vals defs (class_of k) cs])
  end.

(** The free choice of a node, made by [env]. *)
Definition free_by (env vals : nat -> Z) (defs : nat -> bool) (id : nat) : Prop :=
  forall sh sh' k cs w, shapes id = Some sh -> shapes (Datatypes.S id) = Some sh' -> get_node graph id = Some k ->
    children graph id = Some cs -> sh_ws sh' !! id = Some w ->
    class_value graph sh w vals defs id (class_of k) cs = None -> vals id = (env id mod 2 ^ Z.of_nat w)%Z.

Record evaluated (env : nat -> Z) (n : nat) (sh : Shapes) (vs : list Z) (ds : list bool) : Prop := {
  ev_shapes : shapes n = Some sh;
  ev_vals : length vs = n;
  ev_defs : length ds = n;
  ev_range : forall i, i < n -> in_range (sh_ws sh) (at_index 0%Z vs) i;
  ev_ok : forall i, i < n -> node_ok graph widths floats (at_index 0%Z vs) (at_index false ds) i;
  ev_free : forall i, i < n -> free_by env (at_index 0%Z vs) (at_index false ds) i;
}.

Lemma at_index_snoc {A} (d : A) l x i : i < length l -> at_index d (l ++ [x]) i = at_index d l i.
Proof. intros Hi. unfold at_index. by rewrite lookup_app_l. Qed.
Lemma at_index_last {A} (d : A) l x n : length l = n -> at_index d (l ++ [x]) n = x.
Proof. intros <-. unfold at_index. by rewrite list_lookup_middle. Qed.

Lemma class_of_own k : class_of k = class_of match class_of k with CWord k | CShift k | CTest k _ => k | _ => SymKind.Symbol end \/
    match class_of k with CWord _ | CShift _ | CTest _ _ => False | _ => True end.
Proof. destruct k; cbn; auto. Qed.

Lemma free_by_local env vals vals' defs defs' j : (forall i, i <= j -> vals i = vals' i /\ defs i = defs' i) ->
  free_by env vals defs j -> free_by env vals' defs' j.
Proof.
  intros E Hf sh sh' k cs w H1 H2 H3 H4 H5 H6. destruct (E j) as [<- _]; [lia|].
  apply (Hf sh sh' k cs w H1 H2 H3 H4 H5). rewrite <- H6.
  destruct (shapes_S _ _ _ j sh' H2) as (sh0 & k0 & cs0 & w0 & G1 & G2 & G3 & G4 & G5 & G6).
  rewrite G1 in H1. injection H1 as ->. rewrite G2 in H3. injection H3 as ->. rewrite G3 in H4. injection H4 as ->.
  destruct (shapes_ok _ _ _ j sh G1) as [_ L2].
  apply class_value_local; [by eapply class_shape_arity|intros i Hi; apply E; specialize (G4 i Hi); lia|].
  intros i (key & _ & Hi & _)%owner_Some. apply E. specialize (L2 key i Hi). lia.
Qed.

Lemma evaluate_step env n sh sh' vs ds : evaluated env n sh vs ds -> shapes (Datatypes.S n) = Some sh' ->
  exists v d, evaluate env n = Some (sh, vs, ds) ->
    evaluate env (Datatypes.S n) = Some (sh', vs ++ [v], ds ++ [d]) /\ evaluated env (Datatypes.S n) sh' (vs ++ [v]) (ds ++ [d]).
Proof.
  intros [E1 E2 E3 E4 E5 E6] Hs. destruct (shapes_S _ _ _ n sh' Hs) as (sh0 & k & cs & w & H1 & Hk & Hcs & Hlt & Hw & Hsh).
  rewrite E1 in H1. injection H1 as <-. destruct (shapes_ok _ _ _ n sh E1) as [L1 L2].
  set (vals := at_index 0%Z vs). set (defs := at_index false ds).
  set (v := match class_value graph sh w vals defs n (class_of k) cs with Some v => v | None => (env n mod 2 ^ Z.of_nat w)%Z end).
  set (d := class_defined vals defs (class_of k) cs). exists v, d. intros Ev.
  assert (node_shape graph widths floats (sh_ws sh) n = Some w) as Hns.
  { unfold node_shape. rewrite Hk. cbn [mbind option_bind]. rewrite Hcs. cbn [mbind option_bind].
    assert (forallb (fun c => c <? n) cs = true) as ->; [|done].
    apply forallb_forall. intros c Hc%list_elem_of_In. by apply Nat.ltb_lt, Hlt. }
  split. { cbn [evaluate]. rewrite Ev. cbn [mbind option_bind]. rewrite Hk. cbn [mbind option_bind]. rewrite Hcs.
    cbn [mbind option_bind]. rewrite Hns. cbn [mbind option_bind]. by rewrite Hsh. }
  assert (forall i, i ∈ cs -> in_range (sh_ws sh) vals i) as Hr1 by (intros i Hi; by apply E4, Hlt).
  assert (forall i, owner graph sh cs w = Some i -> in_range (sh_ws sh) vals i) as Hr2.
  { intros i (key & _ & Hi & _)%owner_Some. apply E4. by eapply L2. }
  assert (0 <= v < 2 ^ Z.of_nat w)%Z as Hrange.
  { subst v. destruct (class_value graph sh w vals defs n (class_of k) cs) as [v|] eqn:Ecv; [|apply Z.mod_pos_bound; lia].
    eapply (class_value_range sh w vals defs n (class_of k) cs v Hw); try done. apply class_of_own. }
  assert (sh_ws sh' !! n = Some w) as Hwn by (rewrite Hsh; cbn; rewrite <- L1; by apply list_lookup_middle).
  assert (forall i, i < n -> vals i = at_index 0%Z (vs ++ [v]) i /\ defs i = at_index false (ds ++ [d]) i) as Hold.
  { intros i Hi. unfold vals, defs. by rewrite !at_index_snoc by lia. }
  assert (class_value graph sh w (at_index 0%Z (vs ++ [v])) (at_index false (ds ++ [d])) n (class_of k) cs =
    class_value graph sh w vals defs n (class_of k) cs) as Ecv.
  { symmetry. apply class_value_local; [by eapply class_shape_arity|intros i Hi; by apply Hold, Hlt|].
    intros i (key & _ & Hi & _)%owner_Some. apply Hold. by eapply L2. }
  split; try done; try (rewrite length_app; cbn; lia).
  - intros i Hi. destruct (Nat.eq_dec i n) as [->|].
    + intros w' Hw'. rewrite Hwn in Hw'. injection Hw' as <-. by rewrite at_index_last.
    + intros w' Hw'. rewrite at_index_snoc by lia. apply E4; [lia|]. rewrite Hsh in Hw'. cbn in Hw'.
      by rewrite lookup_app_l in Hw' by lia.
  - intros i Hi. destruct (Nat.eq_dec i n) as [->|].
    2:{ eapply node_ok_local; [|apply E5; lia]. intros j Hj. apply Hold. lia. }
    exists sh, sh', k, cs, w. do 5 (split; [done|]). rewrite !at_index_last by done. split; [done|]. split.
    + intros v'. rewrite Ecv. subst v. by intros ->.
    + apply class_defined_local; [by eapply class_shape_arity|]. intros i Hi'. by apply Hold, Hlt.
  - intros i Hi. destruct (Nat.eq_dec i n) as [->|].
    2:{ eapply free_by_local; [|apply E6; lia]. intros j Hj. apply Hold. lia. }
    intros sh1 sh2 k' cs' w' H1 H2 H3 H4 H5. rewrite E1 in H1. injection H1 as <-. rewrite Hs in H2. injection H2 as <-.
    rewrite Hk in H3. injection H3 as <-. rewrite Hcs in H4. injection H4 as <-. rewrite Hwn in H5. injection H5 as <-.
    rewrite Ecv, at_index_last by done. subst v. by intros ->.
Qed.

Lemma evaluate_ok env n sh : shapes n = Some sh ->
  exists vs ds, evaluate env n = Some (sh, vs, ds) /\ evaluated env n sh vs ds.
Proof.
  revert sh; induction n as [|n IH]; intros sh Hs.
  - injection Hs as <-. exists [], []. split; [done|]. split; try done; intros i Hi; lia.
  - destruct (shapes_S _ _ _ n sh Hs) as (sh0 & _ & _ & _ & H1 & _). destruct (IH sh0 H1) as (vs & ds & E & Ev).
    destruct (evaluate_step env n sh0 sh vs ds Ev Hs) as (v & d & Hstep). destruct (Hstep E) as [E' Ev']. eauto.
Qed.

End eval.

(** ** Blasting a graph and solving it: the pipeline of [blast] and [Blasted::solve] *)
(** A typed graph with a root that has a bit. *)
Definition formula {V F} (graph : Dag SymKind.t (SymPayload V F) unit) (widths : list (option nat)) (floats : list bool) : Prop :=
  exists sh ws w, shapes graph widths floats (len graph) = Some sh /\ sh_ws sh = ws ++ [w] /\ 0 < w.

Section blast.
Context {S : Type} `{CnfLaws S} {V F : Type}.
Context (graph : Dag SymKind.t (SymPayload V F) unit) (widths : list (option nat)) (floats : list bool).

Definition empty_ctx : Ctx := mkCtx 0 (fun _ => True).

Lemma blaster_new_spec (s : S) : stands empty_ctx s ->
  exists b G, blaster_new s = Ok b /\ stands G (solver b) /\ local G /\ blasted_ok graph widths floats 0 (mkShapes [] ∅) b G.
Proof.
  intros Hs. destruct (stands_new_var _ s Hs) as (s1 & E1 & S1). cbn [cvars empty_ctx] in E1.
  set (one := lit_positive 0). set (G := conj (grow empty_ctx) [one]).
  assert (wire (grow empty_ctx) one) as Hw by (unfold wire, one, lit_positive; rewrite lit_var_new; cbn; lia).
  destruct (stands_add_clause _ s1 [one] S1) as (s2 & E2 & S2); [by apply list.Forall_cons|].
  assert (forall rho, cholds G rho <-> lit_true rho one = true) as HG.
  { intros rho. cbn [G conj cholds grow empty_ctx]. rewrite clause_true_cons, clause_true_nil_iff. tauto. }
  exists (mkBlaster s2 one [] [] ∅ ∅ ∅), G. unfold blaster_new. rewrite E1. fold one. rewrite E2. split; [done|]. split; [done|]. split.
  - intros rho rho' A Hr%HG. apply HG. rewrite <- Hr. symmetry. by apply (lit_true_agree _ _ _ _ A).
  - split; try done.
    + split; try done; [|by apply list.Forall_nil]. split; [done|]. intros rho Hr. by apply HG.
    + intros j sid Hj. exfalso. lia.
    + intros rho _ j Hj. exfalso. lia.
    + intros vals defs _. exists (fun _ => true). split; [|intros j Hj; lia]. apply HG.
      unfold lit_true, one, lit_positive. by rewrite is_negated_new.
Qed.

(** What [blast_into] returns. *)
Record blast_result (bl : Blasted S) (sh : Shapes) (b : Blaster S) (G : Ctx) : Prop := {
  br_ok : blasted_ok graph widths floats (len graph) sh b G;
  br_solver : bl_solver bl = solver b;
  br_sym : bl_sym_bits bl = sym_bits b;
  br_bits : node_bits bl = b_bits b;
  br_defined : node_defined bl = b_defined b;
  br_local : local G;
  br_root : exists r, root graph = Some r /\ r < len graph /\ reads G (root_bit bl) (fun rho => Z.odd (rvals (b_bits b) rho r));
}.

Lemma blast_into_spec (s : S) : formula graph widths floats -> stands empty_ctx s ->
  exists bl sh b G, blast_into graph widths floats s = Ok bl /\ stands G (bl_solver bl) /\ blast_result bl sh b G.
Proof.
  intros (sh & ws & w & Hsh & Ews & Hw) Hs. destruct (shapes_ok _ _ _ _ _ Hsh) as [Lw _].
  destruct (blaster_new_spec s Hs) as (b0 & G0 & E0 & S0 & L0 & B0). unfold blast_into. rewrite E0.
  destruct (blast_nodes_spec graph widths floats (len graph) 0 (mkShapes [] ∅) sh b0 G0 B0 Hsh S0 L0)
    as ([] & b & G & E & S1 & L1 & X & B).
  rewrite Ews, length_app in Lw. cbn [length] in Lw.
  assert (root graph = Some (length ws)) as Hroot.
  { unfold root. unfold len in Lw. rewrite <- Lw, Nat.add_1_r. done. }
  destruct (lookup_lt_is_Some_2 (b_bits b) (length ws)) as [ls Els]; [rewrite (bo_bits _ _ _ _ _ _ _ B); lia|].
  pose proof (bo_nodes _ _ _ _ _ _ _ B) as N. destruct (no_bits _ _ _ _ N _ _ Els) as [Wls Lls].
  rewrite Ews, list_lookup_middle in Lls by done. injection Lls as Lls.
  destruct (first_bit_run b G ls) as (l & El & Wl & Vl); [lia|].
  exists (mkBlasted (solver b) l (sym_bits b) (b_bits b) (b_defined b)), sh, b, G.
  split; [|split; [done|]].
  - unfold mbind, enc_bind at 1. cbn [Nat.add] in E. rewrite E. unfold blast_finish, expect, mbind, enc_bind. rewrite Hroot.
    unfold bits_of, gets, mbind, enc_bind, expect. rewrite Els. unfold enc_bind. rewrite El. done.
  - split; try done. exists (length ws). split; [done|]. split; [lia|]. split; [auto|]. intros rho Hr.
    unfold rvals. rewrite Els. symmetry. apply Vl.
Qed.

End blast.

(** ** Decoding a model *)
Lemma solve_loop_model fuel mc conf rn lim s m s' : solve_loop fuel mc conf rn lim s = Some (Sat m, s') -> m = model s'.
Proof.
  revert conf rn lim s; induction fuel as [|fuel IH]; intros conf rn lim s Hs; [done|]. cbn [solve_loop] in Hs.
  repeat match type of Hs with
  | (?o ≫= _) = Some _ => destruct o as [?|] eqn:?; [|discriminate Hs]; cbn [mbind option_bind] in Hs
  | (let '(_, _) := ?p in _) = _ => destruct p
  | match ?o with Some _ => _ | None => _ end = Some _ => destruct o
  | (if ?c then _ else _) = Some _ => destruct c
  end; try discriminate Hs; try (by eapply IH). by injection Hs as <- <-.
Qed.

Lemma solve_model fuel s m s' : SatSolver.solve fuel s = Some (Sat m, s') -> m = model s'.
Proof.
  unfold SatSolver.solve, solve_with_budget. destruct (unsat s); [done|]. destruct (luby 0); [|done]. cbn. apply solve_loop_model.
Qed.

Lemma lit_values_spec s ls : (forall l, l ∈ ls -> lit_var l < length (model s)) ->
  lit_values s ls = Some (bits (val_of (model s)) ls).
Proof.
  induction ls as [|l ls IH]; intros Hl; [done|]. cbn [lit_values].
  assert (lit_value s l = Some (lit_true (val_of (model s)) l)) as ->.
  { unfold lit_value, SatSolver.value, lit_true, val_of, model.
    assert (lit_var l < length (assign s)) as Hv by (specialize (Hl l ltac:(constructor)); unfold model in Hl; by rewrite length_map in Hl).
    destruct (lookup_lt_is_Some_2 _ _ Hv) as [x Hx]. rewrite nth_lookup, list_lookup_fmap, Hx. done. }
  cbn [mbind option_bind]. rewrite IH; [done|]. intros x Hx. apply Hl. by constructor.
Qed.

Lemma decode_model_spec s (m : gmap nat (list Lit)) : (forall sid ls l, m !! sid = Some ls -> l ∈ ls -> lit_var l < length (model s)) ->
  decode_model s m = Some (bits (val_of (model s)) <$> m).
Proof.
  intros Hm. unfold decode_model. revert Hm.
  apply (map_fold_weak_ind (fun r m => (forall sid ls l, m !! sid = Some ls -> l ∈ ls -> lit_var l < length (model s)) ->
    r = Some (bits (val_of (model s)) <$> m))).
  - intros _. by rewrite fmap_empty.
  - intros sid ls m' r Hnone IH Hm. rewrite IH.
    2:{ intros sid' ls' l Hl. apply (Hm sid'). rewrite lookup_insert_ne; [done|]. intros ->. congruence. }
    cbn [mbind option_bind]. rewrite lit_values_spec.
    + cbn [mbind option_bind]. by rewrite fmap_insert.
    + intros l Hl. apply (Hm sid ls); [by rewrite lookup_insert_eq|done].
Qed.

(** ** Solving *)
Section solve.
Context {V F : Type} (graph : Dag SymKind.t (SymPayload V F) unit) (widths : list (option nat)) (floats : list bool).

(** The values of the symbols in a decoded model, of the symbols' widths. *)
Definition decodes (m : gmap nat (list bool)) (vals : nat -> Z) : Prop :=
  (forall sid bs, m !! sid = Some bs -> exists j, j < len graph /\ symbol_node graph j sid /\ bval bs = vals j /\
    exists sh, shapes graph widths floats (len graph) = Some sh /\ sh_ws sh !! j = Some (length bs)) /\
  (forall j sid, j < len graph -> symbol_node graph j sid -> is_Some (m !! sid)).

(** The verdict of a query [Q] on the interpretations of the graph. *)
Definition decided (Q : (nat -> Z) -> (nat -> bool) -> Prop) (out : SolveOutcome) : Prop :=
  match out with
  | SolveSat m => exists vals defs, interpretation graph widths floats vals defs /\ Q vals defs /\ decodes m vals
  | SolveUnsat => forall vals defs, interpretation graph widths floats vals defs -> ~ Q vals defs
  | SolveUnknown => False
  end.

Definition local_query (Q : (nat -> Z) -> (nat -> bool) -> Prop) : Prop :=
  forall vals defs vals' defs', (forall j, j < len graph -> vals j = vals' j /\ defs j = defs' j) -> Q vals defs -> Q vals' defs'.

Lemma finish_solve_spec bl sh (b : Blaster Solver) G C Q fuel : blasted_ok graph widths floats (len graph) sh b G -> bl_sym_bits bl = sym_bits b ->
  stands (mkCtx (cvars G) (fun rho => cholds G rho /\ C rho)) (bl_solver bl) ->
  (forall rho, cholds G rho -> C rho <-> Q (rvals (b_bits b) rho) (rdefs (b_defined b) rho)) -> local_query Q ->
  work (bl_solver bl) < fuel ->
  exists out, finish_solve fuel bl = Some out /\ decided Q out.
Proof.
  intros B Esym (Hok & Hbuild & En) HC HQ Hf. cbn [cholds cvars] in *. pose proof (bo_nodes _ _ _ _ _ _ _ B) as N.
  destruct (solve_with_budget_spec _ fuel None (bl_solver bl) Hok Hf) as (r & s' & E & En' & _ & Hv).
  change (solve_with_budget fuel None (bl_solver bl)) with (SatSolver.solve fuel (bl_solver bl)) in E.
  unfold finish_solve. rewrite E. cbn [mbind option_bind]. destruct r as [m| |]; cbn [verdict] in Hv.
  - destruct Hv as [Lm [HG Hc]]. pose proof (solve_model _ _ _ _ E) as Em. rewrite Esym.
    rewrite decode_model_spec.
    2:{ intros sid ls l Hs Hl. destruct (bo_sym _ _ _ _ _ _ _ B sid ls Hs) as (j & _ & _ & Hj).
        destruct (no_bits _ _ _ _ N j ls Hj) as [Wls _]. rewrite <- Em, Lm, En. unfold wires in Wls. rewrite Forall_forall in Wls.
        by apply Wls, list_elem_of_In. }
    cbn [mbind option_bind]. eexists. split; [done|].
    exists (rvals (b_bits b) (val_of m)), (rdefs (b_defined b) (val_of m)). split; [|split; [by apply HC|split]].
    + intros j Hj. by apply (bo_sound _ _ _ _ _ _ _ B).
    + intros sid bs. rewrite lookup_fmap, <- Em. destruct (sym_bits b !! sid) as [ls|] eqn:Es; [|done]. intros [= <-].
      destruct (bo_sym _ _ _ _ _ _ _ B sid ls Es) as (j & Hj & Hs & Hb). exists j. split; [done|]. split; [done|].
      split; [unfold rvals; by rewrite Hb|]. exists sh. split; [apply B|]. destruct (no_bits _ _ _ _ N j ls Hb) as [_ ->].
      by rewrite length_bits.
    + intros j sid Hj Hs. rewrite lookup_fmap. apply fmap_is_Some. by eapply (bo_sym_all _ _ _ _ _ _ _ B).
  - eexists. split; [done|]. intros vals defs HI Hq.
    destruct (bo_complete _ _ _ _ _ _ _ B vals defs HI) as (rho & Hr & M). apply (Hv rho). split; [done|]. apply HC; [done|].
    eapply HQ; [|exact Hq]. intros j Hj. destruct (M j Hj) as [-> ->]. done.
  - by destruct Hv.
Qed.

Lemma with_clause_spec bl (G : Ctx) c : stands G (bl_solver bl) -> wires G c ->
  exists s, with_clause c bl = Some (mkBlasted s (root_bit bl) (bl_sym_bits bl) (node_bits bl) (node_defined bl)) /\
    stands (conj G c) s /\ num_vars s = num_vars (bl_solver bl).
Proof.
  intros Hs Hw. destruct (stands_add_clause G _ c Hs Hw) as (s & E & Hs'). exists s. unfold with_clause.
  change (sink_add_clause c (bl_solver bl)) with (SatSolver.add_clause c (bl_solver bl)) in E. rewrite E.
  split; [done|]. split; [done|]. destruct Hs as (_ & _ & ->). by destruct Hs' as (_ & _ & ->).
Qed.

End solve.
