(* ===== verification/BlastTheorems.v ===== *)
(** * The theorems of the bit-blaster

    Bit-blasting a typed formula graph gives clauses whose models are the
    interpretations of the graph, on any lawful sink of clauses; on the SAT
    solver, [Blasted::solve] decides the formula and
    [Blasted::solve_defined_equivalence] decides whether one node implements
    another. *)
From S2P Require Import Prelude Words ApInt ApIntSpec LimbArith ApIntOps ApIntArith Lang LangSpec SatSolver SatLits.
From S2P Require Import SatProp SatAnalyze SatSearch SatSolve SatTheorems Dag Bits Gates Bitblast BlastSem GateSpec CircuitSpec.
From S2P Require Import CircuitWord BlastSpec BlastNode BlastGraph.
#[local] Open Scope nat_scope.

(** ** Definitions of the statements *)

(** The numbers and the definedness bits a valuation gives the nodes. *)
Definition node_values {S} (bl : Blasted S) (rho : valuation) : nat -> Z := rvals (node_bits bl) rho.
Definition node_defs {S} (bl : Blasted S) (rho : valuation) : nat -> bool := rdefs (node_defined bl) rho.

Definition formulab {V F} (graph : Dag SymKind.t (SymPayload V F) unit) (widths : list (option nat)) (floats : list bool) : bool :=
  match shapes graph widths floats (len graph) with
  | Some sh => match list.last (sh_ws sh) with Some w => 0 <? w | None => false end
  | None => false
  end.

Lemma formulab_formula {V F} (graph : Dag SymKind.t (SymPayload V F) unit) widths floats :
  formulab graph widths floats = true -> formula graph widths floats.
Proof.
  unfold formulab. destruct (shapes _ _ _ _) as [sh|] eqn:E; [|done]. destruct (list.last (sh_ws sh)) as [w|] eqn:El; [|done].
  intros Hw%Nat.ltb_lt. apply last_Some in El as [ws El]. by exists sh, ws, w.
Qed.

(** The second node implements the first: it is defined where the first is,
    with the same value. *)
Definition implemented (lhs rhs : nat) (vals : nat -> Z) (defs : nat -> bool) : Prop :=
  defs lhs = true -> defs rhs = true /\ vals lhs = vals rhs.

Definition counterexample (lhs rhs : nat) (vals : nat -> Z) (defs : nat -> bool) : Prop :=
  defs lhs = true /\ (defs rhs = true -> vals lhs <> vals rhs).

(** ** Lemmas *)
Lemma new_stands : stands empty_ctx SatSolver.new.
Proof. split; [exact solver_ok_new|]. by repeat split. Qed.

Section blasting.
Context {V F : Type} (graph : Dag SymKind.t (SymPayload V F) unit) (widths : list (option nat)) (floats : list bool).

Lemma root_true_iff {S} `{CnfLaws S} (bl : Blasted S) sh b G rho : blast_result graph widths floats bl sh b G -> cholds G rho ->
  lit_true rho (root_bit bl) = true <-> root_true graph (node_values bl rho).
Proof.
  intros R Hr. destruct (br_root _ _ _ _ _ _ _ R) as (r & Er & _ & _ & E). rewrite (E rho Hr). unfold node_values.
  rewrite (br_bits _ _ _ _ _ _ _ R). split; [by exists r|]. intros (r' & Er' & Hodd). congruence.
Qed.

Lemma root_true_local : local_query graph (fun vals _ => root_true graph vals).
Proof.
  intros vals defs vals' defs' E (r & Er & Hr). exists r. split; [done|]. destruct (E r) as [<- _]; [|done].
  unfold root in Er. unfold len. destruct (length (nodes graph)); [done|]. injection Er as <-. lia.
Qed.

Lemma solve_root_decides bl sh b G fuel : blast_result graph widths floats bl sh b G -> stands G (bl_solver bl) ->
  enough_fuel (num_vars (bl_solver bl)) <= fuel ->
  exists out, solve_root fuel bl = Some out /\ decided graph widths floats (fun vals _ => root_true graph vals) out.
Proof.
  intros R Hs Hf. destruct (br_root _ _ _ _ _ _ _ R) as (r & Er & Hr & Wr & _).
  destruct (with_clause_spec bl G [root_bit bl] Hs) as (s & E & S1 & En); [by apply list.Forall_cons|].
  unfold solve_root. rewrite E. cbn [mbind option_bind].
  apply (finish_solve_spec graph widths floats _ sh b G (fun rho => clause_true rho [root_bit bl])).
  - apply R.
  - apply R.
  - exact S1.
  - intros rho Hrho. rewrite clause_true_cons, clause_true_nil_iff, (root_true_iff bl sh b G rho R Hrho).
    unfold node_values. rewrite (br_bits _ _ _ _ _ _ _ R). tauto.
  - exact root_true_local.
  - cbn [bl_solver]. pose proof (enough_fuel_work s) as Hw. rewrite En in Hw. lia.
Qed.

Lemma ne_value n lhs rhs vals defs : interpretation graph widths floats vals defs -> n < len graph ->
  get_node graph n = Some SymKind.Ne -> children graph n = Some [lhs; rhs] ->
  Z.odd (vals n) = negb (vals lhs =? vals rhs)%Z.
Proof.
  intros HI Hn Hk Hcs. destruct (HI n Hn) as (sh & sh' & k & cs & w & _ & _ & Hk' & Hcs' & _ & _ & Hv & _).
  rewrite Hk in Hk'. injection Hk' as <-. rewrite Hcs in Hcs'. injection Hcs' as <-. rewrite (Hv _ eq_refl).
  rewrite (smt_bool _ _ _ _ (negb (vals lhs =? vals rhs)%Z)); [|reflexivity|reflexivity]. by destruct (_ =? _)%Z.
Qed.

Lemma counterexample_local lhs rhs : lhs < len graph -> rhs < len graph -> local_query graph (counterexample lhs rhs).
Proof.
  intros Hl Hr vals defs vals' defs' E. unfold counterexample. destruct (E lhs Hl) as [-> ->]. by destruct (E rhs Hr) as [-> ->].
Qed.

Lemma ne_operands n lhs rhs : formula graph widths floats -> n < len graph -> children graph n = Some [lhs; rhs] ->
  lhs < len graph /\ rhs < len graph.
Proof.
  intros (sh & ws & w & Hsh & _) Hn Hcs. destruct (shapes_prefix graph widths floats (Datatypes.S n) (len graph)) as [sh1 E1]; [lia|by exists sh|].
  destruct (shapes_S _ _ _ n sh1 E1) as (sh0 & k & cs & w' & _ & _ & Hcs' & Hlt & _). rewrite Hcs in Hcs'. injection Hcs' as <-.
  split; (eapply Nat.lt_trans; [apply Hlt; set_solver|done]).
Qed.

Lemma solve_equivalence_decides bl sh b G lhs rhs n fuel : formula graph widths floats -> blast_result graph widths floats bl sh b G ->
  stands G (bl_solver bl) -> enough_fuel (num_vars (bl_solver bl)) <= fuel ->
  root graph = Some n -> get_node graph n = Some SymKind.Ne -> children graph n = Some [lhs; rhs] ->
  exists out, solve_defined_equivalence fuel lhs rhs bl = Some out /\
    decided graph widths floats (counterexample lhs rhs) out.
Proof.
  intros HF R Hs Hf Er Hk Hcs. destruct (br_root _ _ _ _ _ _ _ R) as (r & Er' & Hn & Wr & Vr). rewrite Er in Er'. injection Er' as <-.
  pose proof (br_ok _ _ _ _ _ _ _ R) as B. pose proof (bo_nodes _ _ _ _ _ _ _ B) as N. pose proof (br_defined _ _ _ _ _ _ _ R) as Ed.
  destruct (ne_operands n lhs rhs HF Hn Hcs) as [Hl Hr]. pose proof (bo_defined _ _ _ _ _ _ _ B) as Ld.
  destruct (lookup_lt_is_Some_2 (b_defined b) lhs) as [dl El]; [lia|].
  destruct (lookup_lt_is_Some_2 (b_defined b) rhs) as [dr Edr]; [lia|].
  pose proof (no_defined _ _ _ _ N) as Wd. unfold wires in Wd. rewrite Forall_forall in Wd.
  assert (wire G dl /\ wire G dr) as [Wl Wdr] by (split; eapply Wd, list_elem_of_In, list_elem_of_lookup_2; eassumption).
  destruct (with_clause_spec bl G [dl] Hs) as (s1 & E1 & S1 & En1); [by apply list.Forall_cons|].
  set (bl1 := mkBlasted s1 (root_bit bl) (bl_sym_bits bl) (node_bits bl) (node_defined bl)) in *.
  destruct (with_clause_spec bl1 (conj G [dl]) [negate dr; root_bit bl] S1) as (s2 & E2 & S2 & En2); [auto with wires|].
  unfold solve_defined_equivalence. rewrite Ed, El. cbn [mbind option_bind]. rewrite E1. cbn [mbind option_bind].
  replace (node_defined bl1) with (b_defined b) by done. rewrite Edr. cbn [mbind option_bind].
  replace (root_bit bl1) with (root_bit bl) by done. rewrite E2. cbn [mbind option_bind].
  apply (finish_solve_spec graph widths floats _ sh b G
    (fun rho => clause_true rho [dl] /\ clause_true rho [negate dr; root_bit bl])).
  - exact B.
  - apply R.
  - eapply stands_iff; [| |exact S2]; [done|]. intros rho. cbn. tauto.
  - intros rho Hrho. rewrite !clause_true_cons, !clause_true_nil_iff, lit_true_negate, (Vr rho Hrho).
    unfold counterexample, rdefs. rewrite El, Edr, (ne_value n lhs rhs (rvals (b_bits b) rho) (rdefs (b_defined b) rho));
      [|intros j; by apply (bo_sound _ _ _ _ _ _ _ B)|done..].
    destruct (lit_true rho dl), (lit_true rho dr), (Z.eqb_spec (rvals (b_bits b) rho lhs) (rvals (b_bits b) rho rhs)); cbn; intuition congruence.
  - by apply counterexample_local.
  - cbn [bl_solver]. pose proof (enough_fuel_work s2) as Hw. rewrite En2 in Hw. cbn [bl_solver bl1] in Hw. rewrite En1 in Hw. lia.
Qed.

End blasting.

(** ** Errors *)

(** The kinds without an encoding. *)
Definition unsupported (k : SymKind.t) : bool :=
  match class_of k with
  | COther =>
    match k with
    | SymKind.SIToFPRound | SymKind.UIToFPRound | SymKind.FPToSIRound | SymKind.FPToUIRound
    | SymKind.SIToFP | SymKind.UIToFP | SymKind.FPToSI | SymKind.FPToUI => false
    | _ => true
    end
  | _ => false
  end.

(** The error of a node after a typed prefix of the graph. *)
Definition node_error {V F} (graph : Dag SymKind.t (SymPayload V F) unit) (widths : list (option nat)) (id : nat) : option BitblastError :=
  k ← get_node graph id;
  data ← get_leaf_data graph id;
  if unsupported k then Some (Unsupported k)
  else match class_of k, declared widths id with
  | CSymbol, None | CConst, None => Some (UnknownWidth id)
  | CConst, Some _ => match data with Some (PInt _) => None | _ => Some (BadConstant id) end
  | _, _ => None
  end.

Section errors.
Context {S : Type} `{CnfLaws S} {V F : Type}.
Context (graph : Dag SymKind.t (SymPayload V F) unit) (widths : list (option nat)) (floats : list bool).

Lemma encode_error id e (b : Blaster S) : node_error graph widths id = Some e -> encode graph widths floats id b = Err e.
Proof.
  unfold node_error. destruct (get_node graph id) as [k|] eqn:Ek; [|done]. cbn [mbind option_bind].
  destruct (get_leaf_data graph id) as [data|] eqn:Ed; [|done]. cbn [mbind option_bind].
  assert (encode_symbol graph widths id b = Err (UnknownWidth id) \/ is_Some (declared widths id)) as Hsym.
  { unfold encode_symbol, node_width, declared. destruct (widths !! id) as [[w|]|]; [right; by eexists|by left..]. }
  assert (declared widths id = None -> encode_constant graph widths id b = Err (UnknownWidth id)) as Hc1.
  { unfold encode_constant, node_width, declared. by destruct (widths !! id) as [[w|]|]. }
  assert (forall w, declared widths id = Some w -> match data with Some (PInt _) => False | _ => True end ->
    encode_constant graph widths id b = Err (BadConstant id)) as Hc2.
  { unfold encode_constant, node_width, declared, leaf, expect. destruct (widths !! id) as [[w'|]|]; [|done..]. intros w [= ->] Hd.
    unfold mbind, enc_bind, mret, enc_ret. rewrite Ed. by destruct data as [[]|]. }
  intros He. unfold encode, expect. rewrite Ek. unfold mbind at 1, enc_bind at 1. cbn [mret enc_ret].
  destruct k; cbn [unsupported class_of] in He;
    first [ discriminate He
          | by injection He as <-
          | destruct (declared widths id) as [w|] eqn:Ew; [|injection He as <-] ]; try discriminate He.
  all: first [ by destruct Hsym as [|[? ?]] | by apply Hc1 | idtac ].
  destruct data as [[]|]; try discriminate He; injection He as <-; by apply (Hc2 w).
Qed.

Lemma blast_nodes_app l1 l2 (b : Blaster S) :
  blast_nodes graph widths floats (l1 ++ l2) b =
  match blast_nodes graph widths floats l1 b with
  | Ok (_, b) => blast_nodes graph widths floats l2 b
  | Err e => Err e
  | Panic => Panic
  end.
Proof.
  revert b; induction l1 as [|id l1 IH]; intros b; [done|]. cbn [blast_nodes app]. unfold mbind, enc_bind.
  destruct (blast_node graph widths floats id b) as [[[] b1]| |]; [apply IH|done..].
Qed.

Lemma blast_into_error n e (s : S) : is_Some (shapes graph widths floats n) -> n < len graph ->
  node_error graph widths n = Some e -> stands empty_ctx s -> blast_into graph widths floats s = Err e.
Proof.
  intros [sh Hsh] Hn He Hs. destruct (blaster_new_spec graph widths floats s Hs) as (b0 & G0 & E0 & S0 & L0 & B0).
  destruct (blast_nodes_spec graph widths floats n 0 (mkShapes [] ∅) sh b0 G0 B0 Hsh S0 L0) as ([] & b & G & E & _).
  unfold blast_into. rewrite E0. unfold mbind, enc_bind at 1. replace (len graph) with (n + Datatypes.S (len graph - n - 1)) by lia.
  rewrite seq_app, blast_nodes_app, E. cbn [seq blast_nodes Nat.add]. unfold blast_node, mbind, enc_bind. by rewrite (encode_error n e).
Qed.

End errors.

(** ** A formula for the witnesses

    [x - y <> x + -y] on two-bit words. *)
Definition payload := SymPayload nat nat.

Fixpoint add_edges (from : nat) (cs : list nat) (d : Dag SymKind.t payload unit) : option (Dag SymKind.t payload unit) :=
  match cs with
  | [] => Some d
  | c :: cs => d ← add_edge from c d; add_edges from cs d
  end.

Fixpoint assemble (nodes : list (SymKind.t * list nat * option payload)) (d : Dag SymKind.t payload unit) :
    option (Dag SymKind.t payload unit) :=
  match nodes with
  | [] => Some d
  | (k, cs, leaf) :: nodes =>
    let '(id, d) := add_node k d in
    d ← add_edges id cs d;
    d ← match leaf with Some l => set_leaf_data id l d | None => Some d end;
    assemble nodes d
  end.

Definition sub_as_add : Dag SymKind.t payload unit :=
  default Dag.new (assemble
    [(SymKind.Symbol, [], Some (SymbolId 0)); (SymKind.Symbol, [], Some (SymbolId 1)); (SymKind.Sub, [0; 1], None);
     (SymKind.Neg, [1], None); (SymKind.Add, [0; 3], None); (SymKind.Ne, [2; 4], None)] Dag.new).
Definition two_bits : list (option nat) := [Some 2; Some 2; Some 2; Some 2; Some 2; Some 1].

Example sub_as_add_len : len sub_as_add = 6. Proof. reflexivity. Qed.

(** ** Properties *)

(** C28: on any lawful sink of clauses, blasting a typed graph with a root
    succeeds, and its clauses have exactly the interpretations of the graph
    as models: a model gives every node the value and the definedness of its
    kind, every interpretation extends to a model, and the root's literal is
    the low bit of the root. *)
Theorem blast_models {S} `{CnfLaws S} {V F} (graph : Dag SymKind.t (SymPayload V F) unit) widths floats (s : S) :
  formula graph widths floats -> stands empty_ctx s ->
  exists bl G, blast_into graph widths floats s = Ok bl /\ stands G (bl_solver bl) /\
    (forall rho, cholds G rho -> interpretation graph widths floats (node_values bl rho) (node_defs bl rho)) /\
    (forall vals defs, interpretation graph widths floats vals defs ->
      exists rho, cholds G rho /\ forall j, j < len graph -> node_values bl rho j = vals j /\ node_defs bl rho j = defs j) /\
    (forall rho, cholds G rho -> lit_true rho (root_bit bl) = true <-> root_true graph (node_values bl rho)).
Proof.
  intros HF Hs. destruct (blast_into_spec graph widths floats s HF Hs) as (bl & sh & b & G & E & Hs' & R).
  pose proof (br_ok _ _ _ _ _ _ _ R) as B. exists bl, G. split; [done|]. split; [done|]. unfold node_values, node_defs.
  rewrite (br_bits _ _ _ _ _ _ _ R), (br_defined _ _ _ _ _ _ _ R). split; [|split].
  - intros rho Hr j Hj. by apply (bo_sound _ _ _ _ _ _ _ B).
  - intros vals defs HI. by apply (bo_complete _ _ _ _ _ _ _ B).
  - intros rho Hr. rewrite (root_true_iff graph widths floats bl sh b G rho R Hr). unfold node_values.
    by rewrite (br_bits _ _ _ _ _ _ _ R).
Qed.

Lemma blast_models_witness :
  exists bl G, blast_into sub_as_add two_bits [] SatSolver.new = Ok bl /\ stands G (bl_solver bl) /\
    (forall rho, cholds G rho -> interpretation sub_as_add two_bits [] (node_values bl rho) (node_defs bl rho)) /\
    (forall vals defs, interpretation sub_as_add two_bits [] vals defs ->
      exists rho, cholds G rho /\ forall j, j < len sub_as_add -> node_values bl rho j = vals j /\ node_defs bl rho j = defs j) /\
    (forall rho, cholds G rho -> lit_true rho (root_bit bl) = true <-> root_true sub_as_add (node_values bl rho)).
Proof.
  apply (blast_models sub_as_add two_bits [] SatSolver.new); [apply formulab_formula; vm_compute; reflexivity|exact new_stands].
Defined.

(** C29: [blast] then [Blasted::solve] decides a typed formula: nothing
    panics or runs out of fuel, [Sat] comes with a model that decodes to an
    interpretation whose root is true, and [Unsat] means that there is none. *)
Theorem blast_solve_decides {V F} (graph : Dag SymKind.t (SymPayload V F) unit) widths : formula graph widths [] ->
  exists bl out, blast graph widths = Ok bl /\ solve_root (enough_fuel (num_vars (bl_solver bl))) bl = Some out /\
    match out with
    | SolveSat m => exists vals defs, interpretation graph widths [] vals defs /\ root_true graph vals /\ decodes graph widths [] m vals
    | SolveUnsat => forall vals defs, interpretation graph widths [] vals defs -> ~ root_true graph vals
    | SolveUnknown => False
    end.
Proof.
  intros HF. destruct (blast_into_spec graph widths [] SatSolver.new HF new_stands) as (bl & sh & b & G & E & Hs & R).
  destruct (solve_root_decides graph widths [] bl sh b G _ R Hs (Nat.le_refl _)) as (out & Eo & Ho). by exists bl, out.
Qed.

Lemma blast_solve_decides_witness :
  exists bl out, blast sub_as_add two_bits = Ok bl /\ solve_root (enough_fuel (num_vars (bl_solver bl))) bl = Some out /\
    match out with
    | SolveSat m => exists vals defs, interpretation sub_as_add two_bits [] vals defs /\ root_true sub_as_add vals /\ decodes sub_as_add two_bits [] m vals
    | SolveUnsat => forall vals defs, interpretation sub_as_add two_bits [] vals defs -> ~ root_true sub_as_add vals
    | SolveUnknown => False
    end.
Proof. apply blast_solve_decides, formulab_formula. vm_compute. reflexivity. Defined.

(** C30: [Blasted::solve_defined_equivalence], on a graph whose root is the
    disequality of the two nodes, decides whether the second is defined and
    equal to the first wherever the first is defined; otherwise it decodes an
    interpretation where it is not. *)
Theorem defined_equivalence_decides {V F} (graph : Dag SymKind.t (SymPayload V F) unit) widths n lhs rhs :
  formula graph widths [] -> root graph = Some n -> get_node graph n = Some SymKind.Ne -> children graph n = Some [lhs; rhs] ->
  exists bl out, blast graph widths = Ok bl /\
    solve_defined_equivalence (enough_fuel (num_vars (bl_solver bl))) lhs rhs bl = Some out /\
    match out with
    | SolveSat m => exists vals defs, interpretation graph widths [] vals defs /\ ~ implemented lhs rhs vals defs /\ decodes graph widths [] m vals
    | SolveUnsat => forall vals defs, interpretation graph widths [] vals defs -> implemented lhs rhs vals defs
    | SolveUnknown => False
    end.
Proof.
  intros HF Er Hk Hcs. destruct (blast_into_spec graph widths [] SatSolver.new HF new_stands) as (bl & sh & b & G & E & Hs & R).
  destruct (solve_equivalence_decides graph widths [] bl sh b G lhs rhs n _ HF R Hs (Nat.le_refl _) Er Hk Hcs) as (out & Eo & Ho).
  exists bl, out. split; [done|]. split; [done|]. destruct out as [m| |]; [| |done].
  - destruct Ho as (vals & defs & HI & [Hl Hr] & Hd). exists vals, defs. split; [done|]. split; [|done].
    intros Himp. destruct (Himp Hl) as [H1 H2]. by apply Hr.
  - intros vals defs HI Hl. specialize (Ho vals defs HI). unfold counterexample in Ho.
    destruct (defs rhs), (Z.eq_dec (vals lhs) (vals rhs)); [done|exfalso; apply Ho; tauto|exfalso; apply Ho; by split..].
Qed.

Lemma defined_equivalence_decides_witness :
  exists bl out, blast sub_as_add two_bits = Ok bl /\
    solve_defined_equivalence (enough_fuel (num_vars (bl_solver bl))) 2 4 bl = Some out /\
    match out with
    | SolveSat m => exists vals defs, interpretation sub_as_add two_bits [] vals defs /\ ~ implemented 2 4 vals defs /\
        decodes sub_as_add two_bits [] m vals
    | SolveUnsat => forall vals defs, interpretation sub_as_add two_bits [] vals defs -> implemented 2 4 vals defs
    | SolveUnknown => False
    end.
Proof.
  apply (defined_equivalence_decides sub_as_add two_bits 5 2 4); [|reflexivity..]. apply formulab_formula. vm_compute. reflexivity.
Defined.

(** C31: on any lawful sink, each circuit computes on the numbers its bits
    stand for the total SMT-LIB operation it is named after, a zero divisor
    and shifts past the width included. *)
Theorem circuits_implement {S} `{CnfLaws S} one :
  implements one id SymKind.And (fun _ => bitwise gate_and) /\
  implements one id SymKind.Or (fun _ => bitwise gate_or) /\
  implements one id SymKind.Xor (fun _ => bitwise gate_xor) /\
  implements one id SymKind.Add (fun one a b => '(s, _) ← adder a b (zero one); mret s) /\
  implements one id SymKind.Sub subtract /\
  implements one id SymKind.Mul multiply /\
  (forall signed want, implements one id (div_kind signed want) (fun one => divrem one signed want)) /\
  (forall k, is_compare k = true -> implements one (fun _ => 1) k (fun one => compare one k)) /\
  implements one (fun _ => 1) SymKind.Eq (fun one a b => y ← eq_bits one a b; mret [y]) /\
  implements one (fun _ => 1) SymKind.Ne (fun one a b => y ← eq_bits one a b; mret [negate y]) /\
  (forall k, implements one id (shift_kind k) (fun one => shift one k)).
Proof.
  do 6 (split; [auto using and_implements, or_implements, xor_implements, add_implements, sub_implements, mul_implements|]).
  split; [intros; apply divrem_implements|]. split; [intros; by apply compare_implements|].
  split; [apply eq_implements|]. split; [apply ne_implements|].
  intros k G w a b T Ha Hb La Lb Hw. apply shift_spec; try done. rewrite Lb. apply stage_count_le.
Qed.

(** The circuits and the evaluator agree: where [eval_int] does not
    panic on two operands of one width, its result is the number that the
    circuit of the operator computes. *)
Theorem evaluator_agrees k op a b r : scalar_op k = Some op -> op_arity op = 2 -> k <> SymKind.Concat ->
  wf a -> wf b -> width a = width b -> (width a <= 2 ^ 64)%Z -> eval_int op [a; b] = Some r ->
  uval r = smt_op k (width a) (uval a) (uval b).
Proof.
  intros Hop Har Hc Ha Hb Hw Hle. pose proof (uval_bounds a Ha) as Ua. pose proof (uval_bounds b Hb) as Ub.
  pose proof Ha as [Hpa _ _ _ _]. pose proof (eval_int_binary k op a b Hop Har Hc Ha Hb) as E. cbn zeta in E.
  rewrite <- Hw, Z.max_id in E. rewrite (uval_ival_mod a), (uval_ival_mod b), !Z.mod_small in E by (done || lia || congruence).
  rewrite E by done. destruct (bv_op k (width a) (uval a) (uval b)) as [v|] eqn:Ev; [|done]. cbn [mbind option_bind]. intros [= <-].
  assert (result_width (Lang.op_width op) (width a) = op_width k (width a)) as Ew.
  { destruct k; vm_compute in Hop; try discriminate; injection Hop as <-; done. }
  rewrite (smt_op_bv_op _ _ _ _ _ Ev), Ew. apply uval_repr. destruct k; cbn; lia.
Qed.

Lemma evaluator_agrees_witness :
  uval (mkAPInt 8 true 2 None) = smt_op SymKind.Div (width (u8 250)) (uval (u8 250)) (uval (u8 253)).
Proof.
  apply (evaluator_agrees SymKind.Div div_op (u8 250) (u8 253)); try reflexivity; try discriminate;
    try (apply wfb_wf; vm_compute; reflexivity). all: vm_compute; reflexivity.
Defined.

(** Every typed graph has an interpretation for every choice of its free
    nodes (symbols, first reads of a field, frozen poison), and [evaluate]
    computes it. *)
Theorem interpretations_exist {V F} (graph : Dag SymKind.t (SymPayload V F) unit) widths floats env :
  well_typed graph widths floats ->
  exists sh vs ds, evaluate graph widths floats env (len graph) = Some (sh, vs, ds) /\
    interpretation graph widths floats (at_index 0%Z vs) (at_index false ds) /\
    forall id, id < len graph -> free_by graph widths floats env (at_index 0%Z vs) (at_index false ds) id.
Proof.
  intros [sh Hsh]. destruct (evaluate_ok graph widths floats env _ sh Hsh) as (vs & ds & E & Ev).
  exists sh, vs, ds. split; [done|]. split; [intros id; apply Ev|apply Ev].
Qed.

Lemma interpretations_exist_witness :
  exists sh vs ds, evaluate sub_as_add two_bits [] (fun id => Z.of_nat id + 2)%Z (len sub_as_add) = Some (sh, vs, ds) /\
    interpretation sub_as_add two_bits [] (at_index 0%Z vs) (at_index false ds) /\
    forall id, id < len sub_as_add -> free_by sub_as_add two_bits [] (fun id => Z.of_nat id + 2)%Z (at_index 0%Z vs) (at_index false ds) id.
Proof. apply interpretations_exist. eexists. vm_compute. reflexivity. Defined.

(** C32: The literals of a blasted graph: each node has as many as its type
    says, and they and the definedness literals are over variables the solver
    has declared. *)
Theorem blast_types {S} `{CnfLaws S} {V F} (graph : Dag SymKind.t (SymPayload V F) unit) widths floats (s : S) :
  formula graph widths floats -> stands empty_ctx s ->
  exists bl G sh, blast_into graph widths floats s = Ok bl /\ stands G (bl_solver bl) /\
    shapes graph widths floats (len graph) = Some sh /\
    map length (node_bits bl) = sh_ws sh /\ length (node_defined bl) = len graph /\
    Forall (wires G) (node_bits bl) /\ wires G (node_defined bl) /\ wire G (root_bit bl).
Proof.
  intros HF Hs. destruct (blast_into_spec graph widths floats s HF Hs) as (bl & sh & b & G & E & Hs' & R).
  pose proof (br_ok _ _ _ _ _ _ _ R) as B. pose proof (bo_nodes _ _ _ _ _ _ _ B) as N. exists bl, G, sh.
  do 2 (split; [done|]). split; [apply B|]. rewrite (br_bits _ _ _ _ _ _ _ R), (br_defined _ _ _ _ _ _ _ R).
  destruct (br_root _ _ _ _ _ _ _ R) as (r & _ & _ & Wr & _). destruct (shapes_ok _ _ _ _ _ (bo_shapes _ _ _ _ _ _ _ B)) as [Ls _].
  pose proof (bo_bits _ _ _ _ _ _ _ B) as Lb.
  split; [|split; [apply B|split; [|split; [apply N|done]]]].
  - apply list_eq. intros i. rewrite list_lookup_fmap. destruct (b_bits b !! i) as [ls|] eqn:Ei.
    + destruct (no_bits _ _ _ _ N i ls Ei) as [_ ->]. done.
    + apply lookup_ge_None in Ei. symmetry. apply lookup_ge_None. lia.
  - apply list.Forall_lookup. intros i ls Ei. by destruct (no_bits _ _ _ _ N i ls Ei).
Qed.

Lemma blast_types_witness :
  exists bl G sh, blast_into sub_as_add two_bits [] SatSolver.new = Ok bl /\ stands G (bl_solver bl) /\
    shapes sub_as_add two_bits [] (len sub_as_add) = Some sh /\
    map length (node_bits bl) = sh_ws sh /\ length (node_defined bl) = len sub_as_add /\
    Forall (wires G) (node_bits bl) /\ wires G (node_defined bl) /\ wire G (root_bit bl).
Proof.
  apply (blast_types sub_as_add two_bits [] SatSolver.new); [apply formulab_formula; vm_compute; reflexivity|exact new_stands].
Defined.

(** A graph outside the fragment is refused with the code's error at its
    first bad node: a kind without an encoding, a symbol or a constant without
    a width, a constant whose payload is not an integer. *)
Theorem blast_errors {S} `{CnfLaws S} {V F} (graph : Dag SymKind.t (SymPayload V F) unit) widths floats (s : S) n e :
  is_Some (shapes graph widths floats n) -> n < len graph -> node_error graph widths n = Some e -> stands empty_ctx s ->
  blast_into graph widths floats s = Err e.
Proof. apply blast_into_error. Qed.

Lemma blast_errors_witness :
  blast_into sub_as_add [Some 2; None] [] SatSolver.new = Err (UnknownWidth 1).
Proof.
  apply (blast_errors sub_as_add [Some 2; None] [] SatSolver.new 1); [eexists; vm_compute; reflexivity|vm_compute; lia|reflexivity|exact new_stands].
Defined.
