(* ===== verification/SmtAst.v ===== *)
(** * The SMT-LIB syntax tree ([libs/symbolic/src/smtlib/ast.rs])

    Identifiers, sorts, terms, commands and scripts as the parser builds them,
    and the free symbols of a term. A [Symbol] and a [Keyword] are their
    strings, a [u128] is an element of [Z]. *)
From S2P Require Import Prelude ApIntText.
From Stdlib Require Import Ascii String.
From stdpp Require Export strings.
#[local] Open Scope string_scope.
#[local] Open Scope Z_scope.

(** ** Characters *)
Definition char_code (c : ascii) : Z := Z.of_nat (nat_of_ascii c).
Definition text_of (s : string) : Text := map char_code (list_ascii_of_string s).
Definition string_of (t : Text) : string := string_of_list_ascii (map (fun c => ascii_of_nat (Z.to_nat c)) t).

(** [s.len()], and the characters that satisfy a test. *)
Definition str_len (s : string) : nat := String.length s.
Definition all_chars (f : ascii -> bool) (s : string) : bool := forallb f (list_ascii_of_string s).

Definition is_ascii_digit (c : ascii) : bool := (48 <=? char_code c) && (char_code c <=? 57).
Definition is_ascii_alphabetic (c : ascii) : bool :=
  (65 <=? char_code c) && (char_code c <=? 90) || (97 <=? char_code c) && (char_code c <=? 122).

Definition SYMBOL_CHARS : string := "+-/*=%?!.$_~&^<>@".
Definition symbol_char (c : ascii) : bool := existsb (Ascii.eqb c) (list_ascii_of_string SYMBOL_CHARS).

Definition is_simple_symbol (name : string) : bool :=
  match name with
  | EmptyString => false
  | String first rest =>
    (is_ascii_alphabetic first || symbol_char first) &&
    all_chars (fun c => is_ascii_alphabetic c || is_ascii_digit c || symbol_char c) rest
  end.

(** ** Constants, identifiers, sorts *)
Inductive SpecConstant :=
  | CNumeral (n : Z)
  | CDecimal (s : string)
  | CHexadecimal (s : string)
  | CBinary (s : string)
  | CString (s : string).

Inductive Index :=
  | INumeral (n : Z)
  | ISymbol (s : string).

Record Identifier := mkIdentifier { id_symbol : string; id_indices : list Index }.

Definition simple (name : string) : Identifier := mkIdentifier name [].
Definition is_simple (id : Identifier) : bool := match id_indices id with [] => true | _ => false end.

Inductive SmtSort := mkSort (id : Identifier) (params : list SmtSort).
Definition sort_id (s : SmtSort) : Identifier := let 'mkSort id _ := s in id.
Definition sort_params (s : SmtSort) : list SmtSort := let 'mkSort _ ps := s in ps.

Definition simple_sort (id : Identifier) : SmtSort := mkSort id [].
Definition sort_bool : SmtSort := simple_sort (simple "Bool").
Definition sort_bitvec (width : Z) : SmtSort := simple_sort (mkIdentifier "BitVec" [INumeral width]).

Inductive QualIdentifier :=
  | QPlain (id : Identifier)
  | QAnnotated (id : Identifier) (sort : SmtSort).

Definition identifier (q : QualIdentifier) : Identifier :=
  match q with QPlain id | QAnnotated id _ => id end.

Inductive SExpr :=
  | SConstant (c : SpecConstant)
  | SSymbol (s : string)
  | SKeyword (k : string)
  | SList (items : list SExpr).

Inductive AttributeValue :=
  | AConstant (c : SpecConstant)
  | ASymbol (s : string)
  | AList (items : list SExpr).

Record Attribute := mkAttribute { at_keyword : string; at_value : option AttributeValue }.

(** ** Terms *)
Record SortedVar := mkSortedVar { sv_var : string; sv_sort : SmtSort }.

(** A [VarBinding] is the pair of its symbol and its term. *)
Inductive Term :=
  | TConstant (c : SpecConstant)
  | TIdent (q : QualIdentifier)
  | TApp (head : QualIdentifier) (args : list Term)
  | TLet (binds : list (string * Term)) (body : Term)
  | TExists (vars : list SortedVar) (body : Term)
  | TAnnotated (t : Term) (attrs : list Attribute).

Definition term_ident (name : string) : Term := TIdent (QPlain (simple name)).
Definition term_bool (value : bool) : Term := term_ident (if value then "true" else "false").
Definition term_bv (value width : Z) : Term :=
  TIdent (QPlain (mkIdentifier ("bv" ++ string_of (radix_text 10 value)) [INumeral width])).
Definition term_app (op : string) (args : list Term) : Term := TApp (QPlain (simple op)) args.
Definition indexed_app (op : string) (indices : list Z) (args : list Term) : Term :=
  TApp (QPlain (mkIdentifier op (map INumeral indices))) args.

(** The simple symbols a term names outside its own binders. *)
Fixpoint collect_free (t : Term) (bound : list string) (free : gset string) : gset string :=
  match t with
  | TConstant _ => free
  | TIdent q =>
    let id := identifier q in
    if is_simple id && negb (bool_decide (id_symbol id ∈ bound)) then {[id_symbol id]} ∪ free else free
  | TApp _ args => fold_left (fun free arg => collect_free arg bound free) args free
  | TLet binds body =>
    let free := fold_left (fun free bind => collect_free (snd bind) bound free) binds free in
    collect_free body (bound ++ map fst binds)%list free
  | TExists vars body => collect_free body (bound ++ map sv_var vars)%list free
  | TAnnotated t _ => collect_free t bound free
  end.

Definition free_symbols (t : Term) : gset string := collect_free t [] ∅.

(** Induction on terms through the lists of arguments and bindings. *)
Section induction.
Context (P : Term -> Prop).
Context (Hconst : forall c, P (TConstant c)) (Hident : forall q, P (TIdent q)).
Context (Happ : forall q args, Forall P args -> P (TApp q args)).
Context (Hlet : forall binds body, Forall (fun b => P (snd b)) binds -> P body -> P (TLet binds body)).
Context (Hexists : forall vars body, P body -> P (TExists vars body)).
Context (Hann : forall t attrs, P t -> P (TAnnotated t attrs)).

Fixpoint Term_induction (t : Term) : P t :=
  match t with
  | TConstant c => Hconst c
  | TIdent q => Hident q
  | TApp q args => Happ q args ((fix go l : Forall P l := match l with
      | [] => @List.Forall_nil _ _ | t :: l => @List.Forall_cons _ _ _ _ (Term_induction t) (go l) end) args)
  | TLet binds body => Hlet binds body ((fix go l : Forall (fun b => P (snd b)) l := match l with
      | [] => @List.Forall_nil _ _ | b :: l => @List.Forall_cons _ _ _ _ (Term_induction (snd b)) (go l) end) binds) (Term_induction body)
  | TExists vars body => Hexists vars body (Term_induction body)
  | TAnnotated t attrs => Hann t attrs (Term_induction t)
  end.
End induction.

(** ** Commands *)
Record FunctionDef := mkFunctionDef {
  fd_name : string;
  fd_params : list SortedVar;
  fd_return_sort : SmtSort;
  fd_body : Term;
}.

Record PropLiteral := mkPropLiteral { pl_symbol : string; pl_negated : bool }.

Inductive Command :=
  | SetLogic (name : string)
  | SetOption (a : Attribute)
  | SetInfo (a : Attribute)
  | DeclareConst (name : string) (sort : SmtSort)
  | DeclareFun (name : string) (args : list SmtSort) (ret : SmtSort)
  | DefineFun (def : FunctionDef)
  | Assert (t : Term)
  | CheckSat
  | CheckSatAssuming (props : list PropLiteral)
  | GetModel
  | GetValue (terms : list Term)
  | Push (n : Z)
  | Pop (n : Z)
  | Reset
  | ResetAssertions
  | Echo (text : string)
  | Exit.

Definition Script := list Command.

Example free_let : free_symbols (TLet [("x", term_ident "y")] (term_app "and" [term_ident "x"; term_ident "z"])) = {["y"; "z"]}.
Proof. vm_compute. reflexivity. Qed.

(** ** Printing SMT-LIB ([libs/symbolic/src/smtlib/print.rs])

    The [Display] implementations as functions to strings. *)
#[local] Infix "++" := String.append : string_scope.

Definition show_num (n : Z) : string := string_of (radix_text 10 n).
Definition quote : string := String (ascii_of_nat 34) EmptyString.
Definition newline : string := String (ascii_of_nat 10) EmptyString.

(** [join] and [list], on the printed items. *)
Definition join (items : list string) : string := String.concat " " items.
Definition in_parens (items : list string) : string := "(" ++ join items ++ ")".

(** [s.replace(quote, quote quote)]. *)
Fixpoint double_quotes (s : string) : string :=
  match s with
  | EmptyString => EmptyString
  | String c s =>
    if Ascii.eqb c (ascii_of_nat 34) then String c (String c (double_quotes s)) else String c (double_quotes s)
  end.

Definition show_constant (c : SpecConstant) : string :=
  match c with
  | CNumeral n => show_num n
  | CDecimal s => s
  | CHexadecimal s => "#x" ++ s
  | CBinary s => "#b" ++ s
  | CString s => quote ++ double_quotes s ++ quote
  end.

Definition show_symbol (s : string) : string := if is_simple_symbol s then s else "|" ++ s ++ "|".
Definition show_keyword (k : string) : string := ":" ++ k.

Definition show_index (i : Index) : string :=
  match i with INumeral n => show_num n | ISymbol s => show_symbol s end.

Definition show_identifier (id : Identifier) : string :=
  if is_simple id then show_symbol (id_symbol id)
  else "(_ " ++ show_symbol (id_symbol id) ++ " " ++ join (map show_index (id_indices id)) ++ ")".

Fixpoint show_sort (s : SmtSort) : string :=
  match s with
  | mkSort id [] => show_identifier id
  | mkSort id params => "(" ++ show_identifier id ++ " " ++ join (map show_sort params) ++ ")"
  end.

Definition show_qual (q : QualIdentifier) : string :=
  match q with
  | QPlain id => show_identifier id
  | QAnnotated id sort => "(as " ++ show_identifier id ++ " " ++ show_sort sort ++ ")"
  end.

Fixpoint show_sexpr (e : SExpr) : string :=
  match e with
  | SConstant c => show_constant c
  | SSymbol s => show_symbol s
  | SKeyword k => show_keyword k
  | SList items => in_parens (map show_sexpr items)
  end.

Definition show_attribute_value (v : AttributeValue) : string :=
  match v with
  | AConstant c => show_constant c
  | ASymbol s => show_symbol s
  | AList items => in_parens (map show_sexpr items)
  end.

Definition show_attribute (a : Attribute) : string :=
  match at_value a with
  | None => show_keyword (at_keyword a)
  | Some v => show_keyword (at_keyword a) ++ " " ++ show_attribute_value v
  end.

Definition show_sorted_var (v : SortedVar) : string := "(" ++ show_symbol (sv_var v) ++ " " ++ show_sort (sv_sort v) ++ ")".

Fixpoint show_term (t : Term) : string :=
  match t with
  | TConstant c => show_constant c
  | TIdent q => show_qual q
  | TApp head args => "(" ++ show_qual head ++ " " ++ join (map show_term args) ++ ")"
  | TLet binds body =>
    "(let (" ++ join (map (fun b => "(" ++ show_symbol (fst b) ++ " " ++ show_term (snd b) ++ ")") binds) ++ ") " ++ show_term body ++ ")"
  | TExists vars body => "(exists (" ++ join (map show_sorted_var vars) ++ ") " ++ show_term body ++ ")"
  | TAnnotated t attrs => "(! " ++ show_term t ++ " " ++ join (map show_attribute attrs) ++ ")"
  end.

Definition show_def (d : FunctionDef) : string :=
  show_symbol (fd_name d) ++ " (" ++ join (map show_sorted_var (fd_params d)) ++ ") " ++ show_sort (fd_return_sort d) ++ " " ++ show_term (fd_body d).

Definition show_prop (p : PropLiteral) : string :=
  if pl_negated p then "(not " ++ show_symbol (pl_symbol p) ++ ")" else show_symbol (pl_symbol p).

Definition show_command (c : Command) : string :=
  match c with
  | SetLogic s => "(set-logic " ++ show_symbol s ++ ")"
  | SetOption a => "(set-option " ++ show_attribute a ++ ")"
  | SetInfo a => "(set-info " ++ show_attribute a ++ ")"
  | DeclareConst name sort => "(declare-const " ++ show_symbol name ++ " " ++ show_sort sort ++ ")"
  | DeclareFun name args ret =>
    "(declare-fun " ++ show_symbol name ++ " (" ++ join (map show_sort args) ++ ") " ++ show_sort ret ++ ")"
  | DefineFun def => "(define-fun " ++ show_def def ++ ")"
  | Assert t => "(assert " ++ show_term t ++ ")"
  | CheckSat => "(check-sat)"
  | CheckSatAssuming lits => "(check-sat-assuming (" ++ join (map show_prop lits) ++ "))"
  | GetModel => "(get-model)"
  | GetValue terms => "(get-value (" ++ join (map show_term terms) ++ "))"
  | Push n => "(push " ++ show_num n ++ ")"
  | Pop n => "(pop " ++ show_num n ++ ")"
  | Reset => "(reset)"
  | ResetAssertions => "(reset-assertions)"
  | Echo s => "(echo " ++ quote ++ double_quotes s ++ quote ++ ")"
  | Exit => "(exit)"
  end.

Definition show_script (s : Script) : string := String.concat EmptyString (map (fun c => show_command c ++ newline) s).

Example show_let : show_term (TLet [("a b", term_bv 13%Z 8%Z)] (indexed_app "extract" [7; 0]%Z [term_ident "a b"]))
  = "(let ((|a b| (_ bv13 8))) ((_ extract 7 0) |a b|))".
Proof. vm_compute. reflexivity. Qed.
