(* ===== verification/SmtLower.v ===== *)
(** * Lowering SMT-LIB to a formula graph ([libs/symbolic/src/smtlib/convert/lower.rs])

    [lower_script] builds the graph of the conjunction of a script's
    assertions bottom up: declared constants become symbols, [define-fun] is
    an inlined macro, and the width of every node is tracked. The state of the
    [Lowerer] is threaded through a monad whose results are a value, a
    [ConvertError], or a panic (an index out of range, an overflow of a
    width, the end of fuel). Fuel bounds the depth of the recursion through
    terms and macro bodies; a recursive definition has none in the code. *)
From S2P Require Import Prelude ApInt ApIntText Lang Dag Gates Bitblast SmtAst.
From Stdlib Require Import Ascii.
#[local] Open Scope string_scope.
#[local] Open Scope Z_scope.

(** A lowered graph holds no values and no floats. *)
Notation Payload := (SymPayload unit unit).
Notation Graph := (Dag SymKind.t Payload unit).

(** [smtlib/convert.rs] *)
Record SymbolInfo := mkSymbolInfo { si_name : string; si_width : option nat; si_is_bool : bool }.

Inductive ConvertError :=
  | UnknownSymbol (s : string)
  | Unsupported (s : string)
  | BadArity (op expected : string) (got : nat)
  | BadLiteral (s : string)
  | UnknownWidth_ (s : string).

Record Lowered := mkLowered {
  lo_graph : Graph;
  lo_root : nat;
  lo_symbols : list SymbolInfo;
  lo_widths : list (option nat);
}.

Record Lowerer := mkLowerer {
  lw_graph : Graph;
  lw_width : list (option nat);
  lw_decls : gmap string SmtSort;
  lw_defs : gmap string FunctionDef;
  lw_symbols : gmap string nat;
  lw_symbol_info : list SymbolInfo;
  lw_scope : list (gmap string nat);
}.

Definition lowerer_new : Lowerer := mkLowerer new [] ∅ ∅ ∅ [] [].

Definition set_nodes (g : Graph) (ws : list (option nat)) (lw : Lowerer) : Lowerer :=
  mkLowerer g ws (lw_decls lw) (lw_defs lw) (lw_symbols lw) (lw_symbol_info lw) (lw_scope lw).
Definition set_decls (d : gmap string SmtSort) (lw : Lowerer) : Lowerer :=
  mkLowerer (lw_graph lw) (lw_width lw) d (lw_defs lw) (lw_symbols lw) (lw_symbol_info lw) (lw_scope lw).
Definition set_defs (d : gmap string FunctionDef) (lw : Lowerer) : Lowerer :=
  mkLowerer (lw_graph lw) (lw_width lw) (lw_decls lw) d (lw_symbols lw) (lw_symbol_info lw) (lw_scope lw).
Definition set_symbols (m : gmap string nat) (info : list SymbolInfo) (lw : Lowerer) : Lowerer :=
  mkLowerer (lw_graph lw) (lw_width lw) (lw_decls lw) (lw_defs lw) m info (lw_scope lw).
Definition set_scope (sc : list (gmap string nat)) (lw : Lowerer) : Lowerer :=
  mkLowerer (lw_graph lw) (lw_width lw) (lw_decls lw) (lw_defs lw) (lw_symbols lw) (lw_symbol_info lw) sc.

(** ** The monad *)
Inductive LRes (A : Type) :=
  | LOk (a : A)
  | LErr (e : ConvertError)
  | LPanic.
Arguments LOk {A}. Arguments LErr {A}. Arguments LPanic {A}.

Definition Lower (A : Type) : Type := Lowerer -> LRes (A * Lowerer).

#[export] Instance lower_ret : MRet Lower := fun A a lw => LOk (a, lw).
#[export] Instance lower_bind : MBind Lower := fun A B k m lw =>
  match m lw with LOk (a, lw) => k a lw | LErr e => LErr e | LPanic => LPanic end.

Definition fail {A} (e : ConvertError) : Lower A := fun _ => LErr e.
Definition unwrap {A} (o : option A) : Lower A := fun lw => match o with Some a => LOk (a, lw) | None => LPanic end.
Definition look {A} (f : Lowerer -> A) : Lower A := fun lw => LOk (f lw, lw).
Definition update (f : Lowerer -> Lowerer) : Lower unit := fun lw => LOk (tt, f lw).

(** ** Nodes *)
Definition w (id : nat) : Lower (option nat) := o ← look (fun lw => lw_width lw !! id); unwrap o.

Definition mk (kind : SymKind.t) (cs : list nat) (width : option nat) : Lower nat :=
  g ← look lw_graph;
  let '(id, g) := add_node kind g in
  g ← unwrap (fold_left (fun g c => g ← g; add_edge id c g) cs (Some g));
  ws ← look lw_width;
  _ ← update (set_nodes g (ws ++ [width]));
  mret id.

Definition leaf_const (width : nat) (value : Z) : Lower nat :=
  g ← look lw_graph;
  let '(id, g) := add_node SymKind.Constant g in
  v ← unwrap (ApInt.new (Z.of_nat width) value);
  g ← unwrap (set_leaf_data id (PInt v) g);
  ws ← look lw_width;
  _ ← update (set_nodes g (ws ++ [Some width]));
  mret id.

(** A sum of two [u32] widths. *)
Definition add_width (x y : nat) : option nat := assert! Z.of_nat (x + y) <? 2 ^ 32; Some (x + y)%nat.

Definition bin (kind : SymKind.t) (a b : nat) : Lower nat :=
  width ← match kind with
    | SymKind.Concat =>
      wa ← w a; wb ← w b;
      match wa, wb with
      | Some x, Some y => s ← unwrap (add_width x y); mret (Some s)
      | _, _ => mret None
      end
    | _ => w a
    end;
  mk kind [a; b] width.

Definition un (kind : SymKind.t) (a : nat) : Lower nat := width ← w a; mk kind [a] width.
Definition cmp (kind : SymKind.t) (a b : nat) : Lower nat := mk kind [a; b] (Some 1%nat).

(** [lookup]: the frames from the innermost out. *)
Definition lookup_scope (name : string) (scope : list (gmap string nat)) : option nat :=
  fold_right (fun frame outer => match frame !! name with Some id => Some id | None => outer end) None scope.

(** ** Sorts and literals *)
Definition MAX_WIDTH : Z := 64.

Definition checked_width (width : Z) (what : string) : ConvertError + nat :=
  if (width =? 0) || (MAX_WIDTH <? width)
  then inl (BadLiteral (what +:+ " width " +:+ show_num width +:+ " must be between 1 and 64"))
  else inr (Z.to_nat width).

Definition sort_width (sort : SmtSort) : ConvertError + (nat * bool) :=
  match sort_params sort with
  | _ :: _ => inl (Unsupported ("parametric sort `" +:+ show_sort sort +:+ "`"))
  | [] =>
    let name := id_symbol (sort_id sort) in
    if (name =? "Bool")%string && is_simple (sort_id sort) then inr (1%nat, true)
    else if (name =? "BitVec")%string then
      match id_indices (sort_id sort) with
      | [INumeral n] => match checked_width n "BitVec sort" with inr w => inr (w, false) | inl e => inl e end
      | _ => inl (Unsupported "BitVec without a width")
      end
    else inl (Unsupported ("sort `" +:+ name +:+ "`"))
  end.

(** [u64::from_str_radix]: an optional plus sign and at least one digit. *)
Fixpoint radix_digits (radix acc : Z) (t : Text) : option Z :=
  match t with
  | [] => Some acc
  | c :: t => d ← to_digit c radix; assert! acc * radix + d <? 2 ^ 64; radix_digits radix (acc * radix + d) t
  end.

Definition u64_from_str_radix (radix : Z) (t : Text) : option Z :=
  match t with
  | 43 :: (_ :: _) as t' => radix_digits radix 0 (tail t')
  | [] => None
  | _ => radix_digits radix 0 t
  end.

Definition parse_radix (s : string) (radix : Z) (what : string) : ConvertError + Z :=
  match u64_from_str_radix radix (text_of s) with
  | Some v => inr v
  | None => inl (BadLiteral (what +:+ " `" +:+ s +:+ "` exceeds 64 bits"))
  end.

(** [name.strip_prefix("bv")]. *)
Definition strip_bv (name : string) : option string :=
  match name with
  | String b (String v digits) => if Ascii.eqb b "b"%char && Ascii.eqb v "v"%char then Some digits else None
  | _ => None
  end.

Definition bv_literal (name : string) (indices : list Index) : option (Z * Z) :=
  digits ← strip_bv name;
  if (str_len digits =? 0)%nat || negb (all_chars is_ascii_digit digits) then None
  else match indices with
       | [INumeral width] => v ← u64_from_str_radix 10 (text_of digits); Some (v, width)
       | _ => None
       end.

Definition of_result {A} (r : ConvertError + A) : Lower A := match r with inl e => fail e | inr a => mret a end.

Definition require_arity (op : string) (got expected : nat) : Lower unit :=
  if (got =? expected)%nat then mret tt else fail (BadArity op (show_num (Z.of_nat expected)) got).
Definition require_min_arity (op : string) (got min : nat) : Lower unit :=
  if (min <=? got)%nat then mret tt else fail (BadArity op ("at least " +:+ show_num (Z.of_nat min)) got).

(** ** Symbols *)
Definition symbol_node (name : string) : Lower nat :=
  known ← look (fun lw => lw_symbols lw !! name);
  match known with
  | Some id => mret id
  | None =>
    decl ← look (fun lw => lw_decls lw !! name);
    match decl with
    | None => fail (UnknownSymbol name)
    | Some sort =>
      '(width, is_bool) ← of_result (sort_width sort);
      info ← look lw_symbol_info;
      g ← look lw_graph;
      let '(id, g) := add_node SymKind.Symbol g in
      g ← unwrap (set_leaf_data id (SymbolId (length info)) g);
      ws ← look lw_width;
      _ ← update (set_nodes g (ws ++ [Some width]));
      syms ← look lw_symbols;
      _ ← update (set_symbols (<[name := id]> syms) (info ++ [mkSymbolInfo name (Some width) is_bool]));
      mret id
    end
  end.

(** ** Operators *)
Definition fold_bin (kind : SymKind.t) (first : nat) (rest : list nat) : Lower nat :=
  fold_left (fun acc x => acc ← acc; bin kind acc x) rest (mret first).

Definition combine_and (ids : list nat) : Lower nat :=
  match ids with
  | [] => leaf_const 1 1
  | first :: rest => fold_bin SymKind.And first rest
  end.

Definition fold (kind : SymKind.t) (a : list nat) (name : string) : Lower nat :=
  match a with
  | [] => fail (BadArity name "at least 1" 0)
  | first :: rest => fold_bin kind first rest
  end.

(** [a[i]], which panics out of range. *)
Definition at_ (a : list nat) (i : nat) : Lower nat := unwrap (a !! i).

Definition binary (kind : SymKind.t) (a : list nat) (name : string) : Lower nat :=
  _ ← require_arity name (length a) 2; x ← at_ a 0; y ← at_ a 1; bin kind x y.
Definition binary_not (kind : SymKind.t) (a : list nat) (name : string) : Lower nat :=
  _ ← require_arity name (length a) 2; x ← at_ a 0; y ← at_ a 1;
  inner ← bin kind x y; un SymKind.Not inner.
Definition unary (kind : SymKind.t) (a : list nat) (name : string) : Lower nat :=
  _ ← require_arity name (length a) 1; x ← at_ a 0; un kind x.
Definition compare (kind : SymKind.t) (a : list nat) (name : string) : Lower nat :=
  _ ← require_arity name (length a) 2; x ← at_ a 0; y ← at_ a 1; cmp kind x y.

Definition implies (a : list nat) : Lower nat :=
  match list.last a with
  | None => fail (BadArity "=>" "at least 1" 0)
  | Some last =>
    fold_left (fun acc p => acc ← acc; not_p ← un SymKind.Not p; bin SymKind.Or not_p acc)
      (rev (take (length a - 1) a)) (mret last)
  end.

(** [a.windows(2)] and the pairs of [distinct]. *)
Fixpoint windows (a : list nat) : list (nat * nat) :=
  match a with
  | x :: (y :: _) as rest => (x, y) :: windows rest
  | _ => []
  end.
Fixpoint pairs (a : list nat) : list (nat * nat) :=
  match a with
  | [] => []
  | x :: rest => map (fun y => (x, y)) rest ++ pairs rest
  end.

Definition cmp_all (kind : SymKind.t) (ps : list (nat * nat)) : Lower (list nat) :=
  mapM (fun '(x, y) => cmp kind x y) ps.

Definition chain_eq (a : list nat) : Lower nat :=
  _ ← require_min_arity "=" (length a) 2;
  eqs ← cmp_all SymKind.Eq (windows a);
  combine_and eqs.

Definition distinct (a : list nat) : Lower nat :=
  _ ← require_min_arity "distinct" (length a) 2;
  nes ← cmp_all SymKind.Ne (pairs a);
  combine_and nes.

Definition ite (a : list nat) : Lower nat :=
  _ ← require_arity "ite" (length a) 3;
  c ← at_ a 0; t ← at_ a 1; e ← at_ a 2;
  width ← w t;
  mk SymKind.If [c; t; e] width.

(** The arms of the match of [lower_op]. *)
Inductive Arm :=
  | Fold (kind : SymKind.t)
  | Unary (kind : SymKind.t)
  | Binary (kind : SymKind.t)
  | BinaryNot (kind : SymKind.t)
  | Compare (kind : SymKind.t)
  | Implies
  | ChainEq
  | Distinct
  | Ite
  | SMod.

Definition lower_arms : list (string * Arm) := [
  ("and", Fold SymKind.And);
  ("or", Fold SymKind.Or);
  ("xor", Fold SymKind.Xor);
  ("not", Unary SymKind.Not);
  ("=>", Implies);
  ("=", ChainEq);
  ("distinct", Distinct);
  ("ite", Ite);
  ("bvand", Fold SymKind.And);
  ("bvor", Fold SymKind.Or);
  ("bvxor", Fold SymKind.Xor);
  ("bvnot", Unary SymKind.Not);
  ("bvnand", BinaryNot SymKind.And);
  ("bvnor", BinaryNot SymKind.Or);
  ("bvxnor", BinaryNot SymKind.Xor);
  ("bvadd", Fold SymKind.Add);
  ("bvmul", Fold SymKind.Mul);
  ("bvsub", Binary SymKind.Sub);
  ("bvneg", Unary SymKind.Neg);
  ("bvudiv", Binary SymKind.UDiv);
  ("bvurem", Binary SymKind.URem);
  ("bvsdiv", Binary SymKind.Div);
  ("bvsrem", Binary SymKind.SRem);
  ("bvsmod", SMod);
  ("bvshl", Binary SymKind.ShiftLeft);
  ("bvlshr", Binary SymKind.ShiftRightLogic);
  ("bvashr", Binary SymKind.ShiftRightArithmetic);
  ("bvult", Compare SymKind.ULt);
  ("bvule", Compare SymKind.ULe);
  ("bvugt", Compare SymKind.UGt);
  ("bvuge", Compare SymKind.UGe);
  ("bvslt", Compare SymKind.Lt);
  ("bvsle", Compare SymKind.Le);
  ("bvsgt", Compare SymKind.Gt);
  ("bvsge", Compare SymKind.Ge);
  ("bvcomp", Compare SymKind.Eq);
  ("concat", Fold SymKind.Concat)].

(** The first entry of an association list. *)
Fixpoint assoc {B} (k : string) (l : list (string * B)) : option B :=
  match l with
  | [] => None
  | (k', b) :: l => if (k =? k')%string then Some b else assoc k l
  end.

Definition lower_arm (arm : Arm) (name : string) (a : list nat) : Lower nat :=
  match arm with
  | Fold kind => fold kind a name
  | Unary kind => unary kind a name
  | Binary kind => binary kind a name
  | BinaryNot kind => binary_not kind a name
  | Compare kind => compare kind a name
  | Implies => implies a
  | ChainEq => chain_eq a
  | Distinct => distinct a
  | Ite => ite a
  | SMod => fail (Unsupported "bvsmod (no signed-modulo node)")
  end.

Definition lower_op (name : string) (a : list nat) : Lower nat :=
  match assoc name lower_arms with
  | Some arm => lower_arm arm name a
  | None => fail (Unsupported ("operator `" +:+ name +:+ "`"))
  end.

(** ** Indexed operators *)
Definition lower_extract (hi lo : Z) (a : list nat) : Lower nat :=
  _ ← require_arity "extract" (length a) 1;
  x ← at_ a 0;
  if hi <? lo then fail (Unsupported ("extract high " +:+ show_num hi +:+ " below low " +:+ show_num lo))
  else
    width ← w x;
    if match width with Some n => Z.of_nat n <=? hi | None => false end
    then fail (Unsupported ("extract high " +:+ show_num hi +:+ " out of range for width " +:+
      show_num (Z.of_nat (default 0%nat width))))
    else
      high ← leaf_const 32 (hi mod 2 ^ 64);
      low ← leaf_const 32 (lo mod 2 ^ 64);
      mk SymKind.Extract [x; high; low] (Some (Z.to_nat ((hi - lo + 1) mod 2 ^ 32))).

Definition lower_extend (zero : bool) (k : Z) (a : list nat) : Lower nat :=
  let op := if zero then "zero_extend" else "sign_extend" in
  _ ← require_arity op (length a) 1;
  x ← at_ a 0;
  width ← w x;
  match width with
  | None => fail (UnknownWidth_ op)
  | Some operand =>
    if (k <? 2 ^ 32) && (Z.of_nat operand + k <? 2 ^ 32) && (Z.of_nat operand + k <=? MAX_WIDTH) then
      let target := Z.to_nat (Z.of_nat operand + k) in
      c ← leaf_const 32 (Z.of_nat target);
      mk (if zero then SymKind.ZExt else SymKind.SExt) [x; c] (Some target)
    else fail (Unsupported (op +:+ " produces a width above 64"))
  end.

(** [for _ in 1..k]. *)
Fixpoint repeat_concat (n : nat) (acc x : nat) : Lower nat :=
  match n with
  | O => mret acc
  | S n => acc ← bin SymKind.Concat acc x; repeat_concat n acc x
  end.

Definition lower_repeat (k : Z) (a : list nat) : Lower nat :=
  _ ← require_arity "repeat" (length a) 1;
  x ← at_ a 0;
  if k =? 0 then fail (Unsupported "repeat count 0") else repeat_concat (Z.to_nat (k - 1)) x x.

Definition lower_rotate (left : bool) (k : Z) (a : list nat) : Lower nat :=
  let op := if left then "rotate_left" else "rotate_right" in
  _ ← require_arity op (length a) 1;
  x ← at_ a 0;
  width ← w x;
  match width with
  | None => fail (UnknownWidth_ op)
  | Some O => fail (Unsupported (op +:+ " of zero-width value"))
  | Some width =>
    let shift := k mod Z.of_nat width in
    if shift =? 0 then mret x
    else
      by_ ← leaf_const width shift;
      complement ← leaf_const width (Z.of_nat width - shift);
      lo ← bin (if left then SymKind.ShiftLeft else SymKind.ShiftRightLogic) x by_;
      hi ← bin (if left then SymKind.ShiftRightLogic else SymKind.ShiftLeft) x complement;
      bin SymKind.Or lo hi
  end.

Definition lower_indexed (name : string) (indices : list Index) (a : list nat) : Lower nat :=
  let unsupported := fail (Unsupported ("`" +:+ name +:+ "` with these indices")) in
  match indices with
  | [] => lower_op name a
  | [INumeral hi; INumeral lo] => if (name =? "extract")%string then lower_extract hi lo a else unsupported
  | [INumeral k] =>
    if (name =? "zero_extend")%string then lower_extend true k a
    else if (name =? "sign_extend")%string then lower_extend false k a
    else if (name =? "repeat")%string then lower_repeat k a
    else if (name =? "rotate_left")%string then lower_rotate true k a
    else if (name =? "rotate_right")%string then lower_rotate false k a
    else unsupported
  | _ => unsupported
  end.

(** ** Terms *)
Definition lower_constant (c : SpecConstant) : Lower nat :=
  match c with
  | CHexadecimal s =>
    width ← of_result (checked_width (Z.of_nat (str_len s * 4)) "hexadecimal literal");
    v ← of_result (parse_radix s 16 "hexadecimal");
    leaf_const width v
  | CBinary s =>
    width ← of_result (checked_width (Z.of_nat (str_len s)) "binary literal");
    v ← of_result (parse_radix s 2 "binary");
    leaf_const width v
  | CNumeral _ => fail (Unsupported "integer literal (use bit-vector literals)")
  | CDecimal _ => fail (Unsupported "decimal literal")
  | CString _ => fail (Unsupported "string literal")
  end.

(** The frame of a macro call: the last parameter of a name wins, as in
    collecting into a [HashMap]. *)
Definition frame_of (pairs : list (string * nat)) : gmap string nat :=
  fold_left (fun m '(k, v) => <[k := v]> m) pairs ∅.

Definition in_scope {A} (frame : gmap string nat) (m : Lower A) : Lower A :=
  sc ← look lw_scope;
  _ ← update (set_scope (frame :: sc));
  r ← m;
  _ ← update (fun lw => set_scope (tail (lw_scope lw)) lw);
  mret r.

Definition lower_ident (lower_term : Term -> Lower nat) (q : QualIdentifier) : Lower nat :=
  let id := identifier q in
  let name := id_symbol id in
  if is_simple id then
    local ← look (fun lw => lookup_scope name (lw_scope lw));
    match local with
    | Some node => mret node
    | None =>
      if (name =? "true")%string then leaf_const 1 1
      else if (name =? "false")%string then leaf_const 1 0
      else
        def ← look (fun lw => lw_defs lw !! name);
        match def with
        | Some def =>
          if (length (fd_params def) =? 0)%nat then lower_term (fd_body def)
          else fail (BadArity name (show_num (Z.of_nat (length (fd_params def)))) 0)
        | None => symbol_node name
        end
    end
  else
    match bv_literal name (id_indices id) with
    | Some (value, width) => width ← of_result (checked_width width "bit-vector literal"); leaf_const width value
    | None => fail (Unsupported ("indexed identifier `" +:+ name +:+ "`"))
    end.

Definition lower_app (lower_term : Term -> Lower nat) (q : QualIdentifier) (args : list Term) : Lower nat :=
  let id := identifier q in
  let name := id_symbol id in
  def ← look (fun lw => if is_simple id then lw_defs lw !! name else None);
  match def with
  | Some def =>
    _ ← require_arity name (length args) (length (fd_params def));
    nodes ← mapM lower_term args;
    in_scope (frame_of (zip (map sv_var (fd_params def)) nodes)) (lower_term (fd_body def))
  | None =>
    a ← mapM lower_term args;
    lower_indexed name (id_indices id) a
  end.

Fixpoint lower_term (fuel : nat) (t : Term) : Lower nat :=
  match fuel with
  | O => unwrap None
  | S fuel =>
    match t with
    | TConstant c => lower_constant c
    | TIdent q => lower_ident (lower_term fuel) q
    | TApp q args => lower_app (lower_term fuel) q args
    | TLet binds body =>
      ids ← mapM (fun b => lower_term fuel (snd b)) binds;
      in_scope (frame_of (zip (map fst binds) ids)) (lower_term fuel body)
    | TExists _ _ => fail (Unsupported "quantifier")
    | TAnnotated inner _ => lower_term fuel inner
    end
  end.

(** ** Scripts *)
Fixpoint lower_commands (fuel : nat) (cmds : Script) (assertions : list nat) : Lower (list nat) :=
  match cmds with
  | [] => mret assertions
  | cmd :: cmds =>
    match cmd with
    | DeclareConst name sort | DeclareFun name [] sort =>
      _ ← update (fun lw => set_decls (<[name := sort]> (lw_decls lw)) lw);
      lower_commands fuel cmds assertions
    | DeclareFun name _ _ => fail (Unsupported ("uninterpreted function `" +:+ name +:+ "` with arguments"))
    | DefineFun def =>
      _ ← update (fun lw => set_defs (<[fd_name def := def]> (lw_defs lw)) lw);
      lower_commands fuel cmds assertions
    | Assert t => id ← lower_term fuel t; lower_commands fuel cmds (assertions ++ [id])%list
    | _ => lower_commands fuel cmds assertions
    end
  end.

Definition lower_script (fuel : nat) (script : Script) : LRes Lowered :=
  match (assertions ← lower_commands fuel script []; combine_and assertions) lowerer_new with
  | LOk (root, lw) => LOk (mkLowered (lw_graph lw) root (lw_symbol_info lw) (lw_width lw))
  | LErr e => LErr e
  | LPanic => LPanic
  end.
