(* ===== verification/SmtMeaning.v ===== *)
(** * The meaning of SMT-LIB scripts

    The specification of the lowering and of the solver: the sorts, the
    functions of the theories of Core and fixed-size bit-vectors as SMT-LIB
    defines them, and the sort and value of a term under its declarations,
    macros and local bindings, with static scoping. A Boolean is the number 0
    or 1. [None] is an ill-sorted or unsupported term: extensions end at 64
    bits, as declared sorts and literals do in the code. *)
From S2P Require Import Prelude ApIntSpec ApIntText ApIntTextSpec SmtAst.
From Stdlib Require Import Ascii.
#[local] Open Scope string_scope.
#[local] Open Scope Z_scope.

Inductive Sort_ := SBool | SBits (n : nat).
#[export] Instance sort_eq_dec : EqDecision Sort_.
Proof. solve_decision. Defined.

Definition sort_bits (s : Sort_) : nat := match s with SBool => 1 | SBits n => n end.

(** A width that a declaration, a literal or an extension can have. *)
Definition width_ok (n : Z) : bool := (1 <=? n) && (n <=? 64).

Definition sort_of (s : SmtSort) : option Sort_ :=
  match s with
  | mkSort (mkIdentifier name []) [] => if (name =? "Bool")%string then Some SBool else None
  | mkSort (mkIdentifier name [INumeral n]) [] =>
    if (name =? "BitVec")%string && width_ok n then Some (SBits (Z.to_nat n)) else None
  | _ => None
  end.

(** ** The theories *)
Definition bvnot (w x : Z) : Z := 2 ^ w - 1 - x.
Definition bvneg (w x : Z) : Z := (- x) mod 2 ^ w.
Definition bvudiv (w x y : Z) : Z := if y =? 0 then 2 ^ w - 1 else x / y.
Definition bvurem (w x y : Z) : Z := if y =? 0 then x else x mod y.
Definition msb (w x : Z) : bool := 2 ^ (w - 1) <=? x.

Definition bvsdiv (w x y : Z) : Z :=
  match msb w x, msb w y with
  | false, false => bvudiv w x y
  | true, false => bvneg w (bvudiv w (bvneg w x) y)
  | false, true => bvneg w (bvudiv w x (bvneg w y))
  | true, true => bvudiv w (bvneg w x) (bvneg w y)
  end.
Definition bvsrem (w x y : Z) : Z :=
  match msb w x, msb w y with
  | false, false => bvurem w x y
  | true, false => bvneg w (bvurem w (bvneg w x) y)
  | false, true => bvurem w x (bvneg w y)
  | true, true => bvneg w (bvurem w (bvneg w x) (bvneg w y))
  end.

Inductive OpSpec :=
  | BoolFold (f : bool -> bool -> bool)
  | BoolNot
  | BoolImplies
  | CoreEq
  | CoreDistinct
  | CoreIte
  | BitsFold (f : Z -> Z -> Z -> Z)
  | BitsUnary (f : Z -> Z -> Z)
  | BitsBinary (f : Z -> Z -> Z -> Z)
  | BitsTest (f : Z -> Z -> Z -> bool)
  | BitsComp
  | BitsConcat.

Definition theory : list (string * OpSpec) := [
  ("and", BoolFold andb);
  ("or", BoolFold orb);
  ("xor", BoolFold xorb);
  ("not", BoolNot);
  ("=>", BoolImplies);
  ("=", CoreEq);
  ("distinct", CoreDistinct);
  ("ite", CoreIte);
  ("bvand", BitsFold (fun _ => Z.land));
  ("bvor", BitsFold (fun _ => Z.lor));
  ("bvxor", BitsFold (fun _ => Z.lxor));
  ("bvnot", BitsUnary bvnot);
  ("bvnand", BitsBinary (fun w x y => bvnot w (Z.land x y)));
  ("bvnor", BitsBinary (fun w x y => bvnot w (Z.lor x y)));
  ("bvxnor", BitsBinary (fun w x y => bvnot w (Z.lxor x y)));
  ("bvadd", BitsFold (fun w x y => (x + y) mod 2 ^ w));
  ("bvmul", BitsFold (fun w x y => (x * y) mod 2 ^ w));
  ("bvsub", BitsBinary (fun w x y => (x - y) mod 2 ^ w));
  ("bvneg", BitsUnary bvneg);
  ("bvudiv", BitsBinary bvudiv);
  ("bvurem", BitsBinary bvurem);
  ("bvsdiv", BitsBinary bvsdiv);
  ("bvsrem", BitsBinary bvsrem);
  ("bvshl", BitsBinary (fun w x y => (x * 2 ^ y) mod 2 ^ w));
  ("bvlshr", BitsBinary (fun _ x y => x / 2 ^ y));
  ("bvashr", BitsBinary (fun w x y => (sign_of w x / 2 ^ y) mod 2 ^ w));
  ("bvult", BitsTest (fun _ => Z.ltb));
  ("bvule", BitsTest (fun _ => Z.leb));
  ("bvugt", BitsTest (fun _ x y => y <? x));
  ("bvuge", BitsTest (fun _ x y => y <=? x));
  ("bvslt", BitsTest (fun w x y => sign_of w x <? sign_of w y));
  ("bvsle", BitsTest (fun w x y => sign_of w x <=? sign_of w y));
  ("bvsgt", BitsTest (fun w x y => sign_of w y <? sign_of w x));
  ("bvsge", BitsTest (fun w x y => sign_of w y <=? sign_of w x));
  ("bvcomp", BitsComp);
  ("concat", BitsConcat)].

Fixpoint find_op (name : string) (l : list (string * OpSpec)) : option OpSpec :=
  match l with
  | [] => None
  | (name', op) :: l => if (name =? name')%string then Some op else find_op name l
  end.

(** Operators on lists of arguments. *)
Definition left_assoc (f : Z -> Z -> Z) (vs : list Z) : Z :=
  match vs with [] => 0 | v :: vs => fold_left f vs v end.

Fixpoint implies_all (vs : list Z) : Z :=
  match vs with
  | [] => 0
  | [v] => v
  | v :: vs => Z.b2z (negb (Z.odd v) || Z.odd (implies_all vs))
  end.

Fixpoint all_equal (vs : list Z) : bool :=
  match vs with
  | x :: (y :: _) as rest => (x =? y) && all_equal rest
  | _ => true
  end.

(** The value of a concatenation: the first argument is the highest part. *)
Fixpoint concat_value (acc : Z) (ws : list nat) (vs : list Z) : Z :=
  match ws, vs with
  | w :: ws, v :: vs => concat_value (v + 2 ^ Z.of_nat w * acc) ws vs
  | _, _ => acc
  end.

Definition total_width (ws : list nat) : nat := fold_right Nat.add 0%nat ws.

Definition vector_width (s : Sort_) : option nat := match s with SBits n => Some n | SBool => None end.

(** The sorts of one width. *)
Definition same_bits (ss : list Sort_) : option nat :=
  match ss with
  | SBits n :: ss => if forallb (fun s => bool_decide (s = SBits n)) ss && (0 <? n)%nat then Some n else None
  | _ => None
  end.

Definition nth_arg (vs : list Z) (i : nat) : Z := nth i vs 0.

(** The sort of an application and its value, by the sorts of the arguments. *)
Definition op_meaning (op : OpSpec) (ss : list Sort_) : option (Sort_ * (list Z -> Z)) :=
  match op with
  | BoolFold f =>
    if negb (length ss =? 0)%nat && forallb (fun s => bool_decide (s = SBool)) ss
    then Some (SBool, left_assoc (fun x y => Z.b2z (f (Z.odd x) (Z.odd y)))) else None
  | BoolNot => match ss with [SBool] => Some (SBool, fun vs => Z.b2z (negb (Z.odd (nth_arg vs 0)))) | _ => None end
  | BoolImplies =>
    if negb (length ss =? 0)%nat && forallb (fun s => bool_decide (s = SBool)) ss
    then Some (SBool, implies_all) else None
  | CoreEq | CoreDistinct =>
    match ss with
    | s :: (_ :: _) as rest =>
      if forallb (fun s' => bool_decide (s' = s)) (tail ss) && (0 <? sort_bits s)%nat
      then Some (SBool, fun vs => Z.b2z (match op with CoreEq => all_equal vs | _ => bool_decide (NoDup vs) end)) else None
    | _ => None
    end
  | CoreIte =>
    match ss with
    | [SBool; s; s'] => if bool_decide (s = s') then Some (s, fun vs => if Z.odd (nth_arg vs 0) then nth_arg vs 1 else nth_arg vs 2) else None
    | _ => None
    end
  | BitsFold f => n ← same_bits ss; Some (SBits n, left_assoc (f (Z.of_nat n)))
  | BitsUnary f => n ← same_bits ss; assert! (length ss =? 1)%nat; Some (SBits n, fun vs => f (Z.of_nat n) (nth_arg vs 0))
  | BitsBinary f =>
    n ← same_bits ss; assert! (length ss =? 2)%nat; Some (SBits n, fun vs => f (Z.of_nat n) (nth_arg vs 0) (nth_arg vs 1))
  | BitsTest f =>
    n ← same_bits ss; assert! (length ss =? 2)%nat;
    Some (SBool, fun vs => Z.b2z (f (Z.of_nat n) (nth_arg vs 0) (nth_arg vs 1)))
  | BitsComp =>
    n ← same_bits ss; assert! (length ss =? 2)%nat;
    Some (SBits 1, fun vs => Z.b2z (nth_arg vs 0 =? nth_arg vs 1))
  | BitsConcat =>
    ws ← mapM vector_width ss;
    match ws with
    | [] => None
    | w :: ws' =>
      assert! Z.of_nat (total_width ws) <? 2 ^ 32;
      Some (SBits (total_width ws), fun vs => match vs with [] => 0 | v :: vs => concat_value v ws' vs end)
    end
  end.

Definition rotate_left (n s x : Z) : Z := (x * 2 ^ s) mod 2 ^ n + x / 2 ^ (n - s).

Definition indexed_meaning (name : string) (indices : list Index) (ss : list Sort_) : option (Sort_ * (list Z -> Z)) :=
  match indices, ss with
  | [], _ => op ← find_op name theory; op_meaning op ss
  | [INumeral hi; INumeral lo], [SBits n] =>
    assert! (name =? "extract")%string && (0 <=? lo) && (lo <=? hi) && (hi <? Z.of_nat n) && (Z.of_nat n <? 2 ^ 32);
    Some (SBits (Z.to_nat (hi - lo + 1)), fun vs => (nth_arg vs 0 / 2 ^ lo) mod 2 ^ (hi - lo + 1))
  | [INumeral k], [SBits n] =>
    if (name =? "zero_extend")%string then
      assert! (0 <=? k) && (0 <? n)%nat && (Z.of_nat n + k <=? 64); Some (SBits (n + Z.to_nat k), fun vs => nth_arg vs 0)
    else if (name =? "sign_extend")%string then
      assert! (0 <=? k) && (0 <? n)%nat && (Z.of_nat n + k <=? 64);
      Some (SBits (n + Z.to_nat k), fun vs => sign_of (Z.of_nat n) (nth_arg vs 0) mod 2 ^ (Z.of_nat n + k))
    else if (name =? "repeat")%string then
      assert! (1 <=? k) && (Z.of_nat n * k <? 2 ^ 32);
      Some (SBits (n * Z.to_nat k), fun vs =>
        concat_value (nth_arg vs 0) (replicate (Z.to_nat (k - 1)) n) (replicate (Z.to_nat (k - 1)) (nth_arg vs 0)))
    else if (name =? "rotate_left")%string then
      assert! (0 <=? k) && (0 <? n)%nat && (Z.of_nat n <? 2 ^ 32);
      Some (SBits n, fun vs => rotate_left (Z.of_nat n) (k mod Z.of_nat n) (nth_arg vs 0))
    else if (name =? "rotate_right")%string then
      assert! (0 <=? k) && (0 <? n)%nat && (Z.of_nat n <? 2 ^ 32);
      Some (SBits n, fun vs => rotate_left (Z.of_nat n) (Z.of_nat n - k mod Z.of_nat n) (nth_arg vs 0))
    else None
  | _, _ => None
  end.

(** ** Literals *)
Definition literal_meaning (radix bits : Z) (s : string) : option (Sort_ * Z) :=
  let n := bits * Z.of_nat (str_len s) in
  assert! width_ok n;
  v ← digits_value radix 0 (text_of s);
  Some (SBits (Z.to_nat n), v).

Definition constant_meaning (c : SpecConstant) : option (Sort_ * Z) :=
  match c with
  | CHexadecimal s => literal_meaning 16 4 s
  | CBinary s => literal_meaning 2 1 s
  | _ => None
  end.

(** [(_ bvX n)]: [X] modulo [2 ^ n]. *)
Definition bv_meaning (name : string) (n : Z) : option (Sort_ * Z) :=
  match name with
  | String b (String v digits) =>
    assert! Ascii.eqb b "b"%char && Ascii.eqb v "v"%char && negb (str_len digits =? 0)%nat && width_ok n;
    x ← digits_value 10 0 (text_of digits);
    assert! x <? 2 ^ 64;
    Some (SBits (Z.to_nat n), x mod 2 ^ n)
  | _ => None
  end.

(** ** Terms *)

(** An assignment gives declared symbols their values, a local environment
    the variables bound around a term. *)
Notation Assignment := (string -> Z).
Notation Locals := (gmap string Z).

Record Macro := mkMacro {
  mc_params : list Sort_;
  mc_sort : Sort_;
  mc_value : Assignment -> list Z -> Z;
}.

Record Globals := mkGlobals {
  g_decls : gmap string Sort_;
  g_macros : gmap string Macro;
}.

Notation Denotation := (Sort_ * (Assignment -> Locals -> Z))%type.

Definition constant_denotation (c : Sort_ * Z) : Denotation := (fst c, fun _ _ => snd c).

Definition ident_meaning (G : Globals) (ctx : gmap string Sort_) (id : Identifier) : option Denotation :=
  let name := id_symbol id in
  match id_indices id with
  | [] =>
    match ctx !! name with
    | Some s => Some (s, fun _ locals => locals !!! name)
    | None =>
      if (name =? "true")%string then Some (SBool, fun _ _ => 1)
      else if (name =? "false")%string then Some (SBool, fun _ _ => 0)
      else match g_macros G !! name with
           | Some mc => match mc_params mc with [] => Some (mc_sort mc, fun rho _ => mc_value mc rho []) | _ => None end
           | None => s ← g_decls G !! name; Some (s, fun rho _ => rho name)
           end
    end
  | [INumeral n] => constant_denotation <$> bv_meaning name n
  | _ => None
  end.

Definition app_meaning (G : Globals) (id : Identifier) (ds : list Denotation) : option Denotation :=
  let sorts := map fst ds in
  let values rho locals := map (fun d : Denotation => snd d rho locals) ds in
  match if is_simple id then g_macros G !! id_symbol id else None with
  | Some mc =>
    assert! bool_decide (sorts = mc_params mc);
    Some (mc_sort mc, fun rho locals => mc_value mc rho (values rho locals))
  | None =>
    '(s, f) ← indexed_meaning (id_symbol id) (id_indices id) sorts;
    Some (s, fun rho locals => f (values rho locals))
  end.

Definition bind_sorts (names : list string) (ds : list Denotation) (ctx : gmap string Sort_) : gmap string Sort_ :=
  list_to_map (zip names (map fst ds)) ∪ ctx.
Definition bind_values (names : list string) (vs : list Z) (locals : Locals) : Locals :=
  list_to_map (zip names vs) ∪ locals.

Fixpoint meaning (G : Globals) (ctx : gmap string Sort_) (t : Term) : option Denotation :=
  match t with
  | TConstant c => constant_denotation <$> constant_meaning c
  | TIdent q => ident_meaning G ctx (identifier q)
  | TApp q args => ds ← mapM (meaning G ctx) args; app_meaning G (identifier q) ds
  | TLet binds body =>
    ds ← mapM (fun b => meaning G ctx (snd b)) binds;
    let names := map fst binds in
    assert! bool_decide (NoDup names);
    '(s, f) ← meaning G (bind_sorts names ds ctx) body;
    Some (s, fun rho locals => f rho (bind_values names (map (fun d : Denotation => snd d rho locals) ds) locals))
  | TExists _ _ => None
  | TAnnotated t _ => meaning G ctx t
  end.

(** ** Scripts *)

(** A name that the theories and the script so far do not use. *)
Definition fresh_name (G : Globals) (name : string) : bool :=
  bool_decide (g_decls G !! name = None) && bool_decide (g_macros G !! name = None) && bool_decide (find_op name theory = None).

Definition declare (G : Globals) (name : string) (sort : SmtSort) : option Globals :=
  assert! fresh_name G name;
  s ← sort_of sort;
  Some (mkGlobals (<[name := s]> (g_decls G)) (g_macros G)).

Definition macro_meaning (G : Globals) (def : FunctionDef) : option Macro :=
  ps ← mapM (fun p => sort_of (sv_sort p)) (fd_params def);
  ret ← sort_of (fd_return_sort def);
  let names := map sv_var (fd_params def) in
  assert! bool_decide (NoDup names);
  '(s, f) ← meaning G (list_to_map (zip names ps)) (fd_body def);
  assert! bool_decide (s = ret);
  Some (mkMacro ps s (fun rho vs => f rho (list_to_map (zip names vs)))).

Definition define (G : Globals) (def : FunctionDef) : option Globals :=
  assert! fresh_name G (fd_name def);
  mc ← macro_meaning G def;
  Some (mkGlobals (g_decls G) (<[fd_name def := mc]> (g_macros G))).

Fixpoint script_meaning (G : Globals) (cmds : Script) : option (Globals * list (Assignment -> Z)) :=
  match cmds with
  | [] => Some (G, [])
  | cmd :: cmds =>
    match cmd with
    | DeclareConst name sort | DeclareFun name [] sort => G ← declare G name sort; script_meaning G cmds
    | DeclareFun _ _ _ => None
    | DefineFun def => G ← define G def; script_meaning G cmds
    | Assert t =>
      '(s, f) ← meaning G ∅ t;
      assert! bool_decide (s = SBool);
      '(G, fs) ← script_meaning G cmds;
      Some (G, (fun rho => f rho ∅) :: fs)
    | _ => script_meaning G cmds
    end
  end.

Definition no_globals : Globals := mkGlobals ∅ ∅.

(** An assignment of values of the declared sorts, and the models of a
    script. *)
Definition assignment_ok (G : Globals) (rho : Assignment) : Prop :=
  forall x s, g_decls G !! x = Some s -> 0 <= rho x < 2 ^ Z.of_nat (sort_bits s).

Definition satisfies (G : Globals) (fs : list (Assignment -> Z)) (rho : Assignment) : Prop :=
  assignment_ok G rho /\ Forall (fun f => f rho = 1) fs.

(** ** Hygiene

    The code looks a name up in every enclosing frame, those around a macro
    call included. A script without captures binds no name that a macro body
    uses free. *)
Fixpoint binders (t : Term) : list string :=
  match t with
  | TConstant _ | TIdent _ => []
  | TApp _ args => concat (map binders args)
  | TLet binds body => (map fst binds ++ concat (map (fun b => binders (snd b)) binds) ++ binders body)%list
  | TExists vars body => (map sv_var vars ++ binders body)%list
  | TAnnotated t _ => binders t
  end.

Definition command_binders (c : Command) : list string :=
  match c with
  | Assert t => binders t
  | DefineFun def => (map sv_var (fd_params def) ++ binders (fd_body def))%list
  | _ => []
  end.

Definition macro_globals (c : Command) : list string :=
  match c with
  | DefineFun def => elements (free_symbols (fd_body def) ∖ list_to_set (map sv_var (fd_params def)))
  | _ => []
  end.

Definition no_capture (cmds : Script) : bool :=
  let bound := concat (map command_binders cmds) in
  forallb (fun x => negb (bool_decide (x ∈ bound))) (concat (map macro_globals cmds)).

(** Fuel for the recursion of the lowering: the depths of the terms and of
    the macro bodies. *)
Fixpoint depth (t : Term) : nat :=
  match t with
  | TConstant _ | TIdent _ => 1
  | TApp _ args => S (fold_right (fun t n => Nat.max (depth t) n) 0%nat args)
  | TLet binds body => S (Nat.max (fold_right (fun b n => Nat.max (depth (snd b)) n) 0%nat binds) (depth body))
  | TExists _ body => S (depth body)
  | TAnnotated t _ => S (depth t)
  end.

Definition command_depth (c : Command) : nat :=
  match c with Assert t => depth t | DefineFun def => depth (fd_body def) | _ => 0%nat end.
Definition script_fuel (cmds : Script) : nat := S (fold_right (fun c n => command_depth c + n)%nat 0%nat cmds).
