(* ===== verification/SmtNodes.v ===== *)
(** * Graphs under construction

    The graph that the lowering builds, as a list of nodes: the node each
    operation appends, the equations an interpretation satisfies at the nodes
    so far, and the triples in which the operations of [SmtLower] are
    specified. *)
From S2P Require Import Prelude Words ApInt ApIntSpec ApIntOps Lang LangSpec Dag DagSpec Bits Gates Bitblast BlastSem CircuitWord.
From S2P Require Import SmtAst SmtLower.
#[local] Open Scope nat_scope.

Record NodeRec := mkNode {
  nk : SymKind.t;
  ncs : list nat;
  nleaf : option Payload;
  nw : nat;
}.

Notation Nodes := (list NodeRec).

Implicit Types N : Nodes.

(** ** Node lookups *)
Definition typed N (id width : nat) : Prop := exists nd, N !! id = Some nd /\ nw nd = width.

(** A leaf that holds the constant [v]. *)
Definition literal N (id : nat) (v : Z) : Prop :=
  exists nd a, N !! id = Some nd /\ nleaf nd = Some (PInt a) /\ to_u64 a = v.

(** The nodes the lowering makes. *)
Inductive form N : NodeRec -> Prop :=
  | form_const a width : wf a -> ApInt.width a = Z.of_nat width -> 0 < width -> form N (mkNode SymKind.Constant [] (Some (PInt a)) width)
  | form_symbol sid width : 0 < width -> form N (mkNode SymKind.Symbol [] (Some (SymbolId sid)) width)
  | form_unary k a width : k = SymKind.Not \/ k = SymKind.Neg -> typed N a width -> 0 < width -> form N (mkNode k [a] None width)
  | form_word k a b width : class_of k = CWord k \/ class_of k = CShift k -> typed N a width -> typed N b width -> 0 < width ->
    form N (mkNode k [a; b] None width)
  | form_test k o a b width : class_of k = CTest k o -> typed N a width -> typed N b width -> 0 < width ->
    form N (mkNode k [a; b] None 1)
  | form_concat a b wa wb : typed N a wa -> typed N b wb -> 0 < wa + wb -> form N (mkNode SymKind.Concat [a; b] None (wa + wb))
  | form_extract a chi clo hi lo width : typed N a width -> literal N chi hi -> literal N clo lo ->
    (0 <= lo <= hi)%Z -> (hi < Z.of_nat width)%Z -> form N (mkNode SymKind.Extract [a; chi; clo] None (Z.to_nat (hi - lo + 1)))
  | form_extend k a c wa width : k = SymKind.ZExt \/ k = SymKind.SExt -> typed N a wa -> c < length N -> 0 < wa -> 0 < width ->
    form N (mkNode k [a; c] None width)
  | form_if c t e wc width : typed N c wc -> 0 < wc -> typed N t width -> typed N e width -> 0 < width ->
    form N (mkNode SymKind.If [c; t; e] None width).

Inductive well_formed : Nodes -> Prop :=
  | well_formed_nil : well_formed []
  | well_formed_snoc N nd : well_formed N -> form N nd -> well_formed (N ++ [nd]).

(** ** Values *)
Definition width_at N (id : nat) : Z := match N !! id with Some nd => Z.of_nat (nw nd) | None => 0%Z end.
Definition literal_at N (id : nat) : Z :=
  match N !! id with
  | Some nd => match nleaf nd with Some (PInt a) => to_u64 a | _ => 0%Z end
  | None => 0%Z
  end.

(** What a node computes from the values of its children, [None] for a
    symbol. *)
Definition node_value N (vals : nat -> Z) (nd : NodeRec) : option Z :=
  let x := vals (BlastSem.arg (ncs nd) 0) in
  let y := vals (BlastSem.arg (ncs nd) 1) in
  let width := Z.of_nat (nw nd) in
  match nk nd with
  | SymKind.Symbol => None
  | SymKind.Constant => match nleaf nd with Some (PInt a) => Some (uval a mod 2 ^ width)%Z | _ => None end
  | SymKind.Not => Some (2 ^ width - 1 - x)%Z
  | SymKind.Neg => Some (- x mod 2 ^ width)%Z
  | SymKind.Concat => Some (y + 2 ^ width_at N (BlastSem.arg (ncs nd) 1) * x)%Z
  | SymKind.Extract =>
    let hi := literal_at N (BlastSem.arg (ncs nd) 1) in
    let lo := literal_at N (BlastSem.arg (ncs nd) 2) in
    Some ((x / 2 ^ lo) mod 2 ^ (hi + 1 - lo))%Z
  | SymKind.ZExt => Some (x mod 2 ^ width)%Z
  | SymKind.SExt => Some (sign_of (width_at N (BlastSem.arg (ncs nd) 0)) x mod 2 ^ width)%Z
  | SymKind.If => Some (if Z.odd x then y else vals (BlastSem.arg (ncs nd) 2))
  | k => Some (smt_op k (width_at N (BlastSem.arg (ncs nd) 0)) x y)
  end.

(** The values of an interpretation at the nodes so far. *)
Definition holds N (vals : nat -> Z) : Prop :=
  forall i nd, N !! i = Some nd ->
    (0 <= vals i < 2 ^ Z.of_nat (nw nd))%Z /\ (forall v, node_value N vals nd = Some v -> vals i = v).

(** ** Growing *)
Lemma typed_mono N N' id width : N `prefix_of` N' -> typed N id width -> typed N' id width.
Proof. intros HP (nd & E & H). exists nd. split; [by eapply prefix_lookup_Some|done]. Qed.

Lemma typed_lt N id width : typed N id width -> id < length N.
Proof. intros (nd & E & _). by eapply lookup_lt_Some. Qed.

Lemma typed_inj N id w1 w2 : typed N id w1 -> typed N id w2 -> w1 = w2.
Proof. intros (nd & E & <-) (nd' & E' & <-). rewrite E in E'. by injection E' as <-. Qed.

Lemma typed_width N id width : typed N id width -> width_at N id = Z.of_nat width.
Proof. intros (nd & E & <-). unfold width_at. by rewrite E. Qed.

Lemma literal_mono N N' id v : N `prefix_of` N' -> literal N id v -> literal N' id v.
Proof. intros HP (nd & a & E & H). exists nd, a. split; [by eapply prefix_lookup_Some|done]. Qed.

Lemma literal_eq N id v : literal N id v -> literal_at N id = v.
Proof. intros (nd & a & E & E' & <-). unfold literal_at. by rewrite E, E'. Qed.

Lemma literal_lt N id v : literal N id v -> id < length N.
Proof. intros (nd & a & E & _). by eapply lookup_lt_Some. Qed.

(** The children of a node precede it. *)
Lemma form_children N nd c : form N nd -> c ∈ ncs nd -> c < length N.
Proof.
  intros Hf Hc. destruct Hf; cbn [ncs] in Hc; repeat (apply elem_of_cons in Hc as [->|Hc]); try (by apply not_elem_of_nil in Hc);
    eauto using typed_lt, literal_lt.
Qed.

Lemma form_not_symbol N nd : form N nd -> nleaf nd = None -> nk nd <> SymKind.Symbol.
Proof.
  intros Hf Hl. destruct Hf; cbn [nk nleaf] in *; try done; intros ->;
    repeat match goal with H : _ \/ _ |- _ => destruct H end; discriminate.
Qed.

Lemma well_formed_at N i nd : well_formed N -> N !! i = Some nd -> form (take i N) nd.
Proof.
  intros HW. revert i nd. induction HW as [|N nd' HW IH Hf]; intros i nd E; [done|].
  apply lookup_app_Some in E as [E|[Hi E]].
  - rewrite take_app_le by (apply lookup_lt_Some in E; lia). by apply IH.
  - apply list_lookup_singleton_Some in E as [Ei <-]. assert (i = length N) as -> by lia. by rewrite take_app_length.
Qed.

Lemma well_formed_pos N id width : well_formed N -> typed N id width -> 0 < width.
Proof.
  intros HW (nd & E & <-). destruct (well_formed_at N id nd HW E); cbn [nw]; lia.
Qed.

Lemma well_formed_prefix N N' : N `prefix_of` N' -> well_formed N' -> well_formed N.
Proof.
  intros [k ->]. induction k as [|x k IH] using rev_ind; [by rewrite app_nil_r|]. rewrite app_assoc. intros HW.
  inversion HW as [E|N0 nd HW0 Hf E]; [by destruct (N ++ k)|]. apply app_inj_tail in E as [-> _]. by apply IH.
Qed.

(** A node's equation reads only nodes before it. *)
Lemma node_value_mono N N' vals nd : N `prefix_of` N' -> form N nd -> node_value N' vals nd = node_value N vals nd.
Proof.
  intros HP Hf. assert (forall c, c < length N -> N' !! c = N !! c) as E.
  { intros c Hc. destruct (lookup_lt_is_Some_2 N c Hc) as [nd' E]. rewrite E. by eapply prefix_lookup_Some. }
  assert (forall c, c ∈ ncs nd -> width_at N' c = width_at N c) as Ew.
  { intros c Hc. unfold width_at. by rewrite E by (by eapply form_children). }
  assert (forall c, c ∈ ncs nd -> literal_at N' c = literal_at N c) as El.
  { intros c Hc. unfold literal_at. by rewrite E by (by eapply form_children). }
  unfold node_value. destruct Hf; cbn [nk ncs nleaf nw] in *; unfold BlastSem.arg; cbn [lookup list_lookup default from_option id];
    try (match goal with H : _ \/ _ |- _ => destruct H as [H|H] end);
    try (match goal with H : class_of ?k = _ |- _ => destruct k; try discriminate H end); subst;
    rewrite ?Ew, ?El by (repeat constructor || set_solver); done.
Qed.

Lemma holds_mono N N' vals : well_formed N -> N `prefix_of` N' -> holds N' vals -> holds N vals.
Proof.
  intros HW HP Hh i nd E. destruct (Hh i nd) as [Hr Hv]; [by eapply prefix_lookup_Some|]. split; [done|].
  intros v Ev. apply Hv. rewrite <- Ev. pose proof (well_formed_at N i nd HW E) as Hf.
  rewrite (node_value_mono (take i N) N') by (done || (etrans; [apply prefix_take|done])).
  symmetry. apply node_value_mono; [apply prefix_take|done].
Qed.

(** The node just appended. *)
Lemma holds_last N nd vals v : form N nd -> holds (N ++ [nd]) vals -> node_value N vals nd = Some v -> vals (length N) = v.
Proof.
  intros Hf Hh Ev. destruct (Hh (length N) nd) as [_ Hv]; [by apply list_lookup_middle|]. apply Hv.
  rewrite (node_value_mono N); [done|by apply prefix_app_r|done].
Qed.

(** ** The code's state *)
Record rep (lw : Lowerer) N : Prop := {
  rep_kinds : nodes (lw_graph lw) = map nk N;
  rep_view : view (lw_graph lw) (map ncs N) (map nleaf N) (replicate (length N) None);
  rep_widths : lw_width lw = map (fun nd => Some (nw nd)) N;
  rep_formed : well_formed N;
}.

(** What an operation on nodes leaves alone. *)
Definition same_tables (lw lw' : Lowerer) : Prop :=
  lw_decls lw' = lw_decls lw /\ lw_defs lw' = lw_defs lw /\ lw_symbols lw' = lw_symbols lw /\
  lw_symbol_info lw' = lw_symbol_info lw /\ lw_scope lw' = lw_scope lw.

#[export] Instance same_tables_refl : Reflexive same_tables.
Proof. by intros lw. Qed.
#[export] Instance same_tables_trans : Transitive same_tables.
Proof. intros a b c (H1 & H2 & H3 & H4 & H5) (G1 & G2 & G3 & G4 & G5). repeat split; congruence. Qed.

(** Nodes appended, none of them a symbol. *)
Record grows N N' : Prop := {
  gr_prefix : N `prefix_of` N';
  gr_symbols : forall id nd, N' !! id = Some nd -> nk nd = SymKind.Symbol -> N !! id = Some nd;
}.

#[export] Instance grows_refl : Reflexive grows.
Proof. by intros N. Qed.
#[export] Instance grows_trans : Transitive grows.
Proof. intros a b c [H1 H2] [G1 G2]. split; [by etrans|]. intros id nd E K. apply H2; [by apply G2|done]. Qed.

Lemma grows_snoc N nd : nk nd <> SymKind.Symbol -> grows N (N ++ [nd]).
Proof.
  intros Hk. split; [by apply prefix_app_r|]. intros id nd' [E|[_ E]]%lookup_app_Some Hs; [done|].
  apply list_lookup_singleton_Some in E as [_ <-]. done.
Qed.

(** An operation that appends nodes and returns a value. *)
Definition builds {A} (m : Lower A) N (K : A -> Nodes -> Prop) : Prop :=
  forall lw, rep lw N ->
    exists a lw' N', m lw = LOk (a, lw') /\ rep lw' N' /\ same_tables lw lw' /\ grows N N' /\ K a N'.

Lemma builds_ret {A} (a : A) N (K : A -> Nodes -> Prop) : K a N -> builds (mret a) N K.
Proof. intros HK lw Hr. exists a, lw, N. split; [done|]. split; [done|]. split; [done|]. by split. Qed.

Lemma builds_bind {A B} (m : Lower A) (k : A -> Lower B) N K1 K : builds m N K1 ->
  (forall a N1, N `prefix_of` N1 -> K1 a N1 -> builds (k a) N1 K) -> builds (m ≫= k) N K.
Proof.
  intros Hm Hk lw Hr. destruct (Hm lw Hr) as (a & lw1 & N1 & E & Hr1 & T1 & P1 & K1a).
  destruct (Hk a N1 (gr_prefix _ _ P1) K1a lw1 Hr1) as (b & lw2 & N2 & E2 & Hr2 & T2 & P2 & Kb).
  exists b, lw2, N2. split; [unfold mbind, lower_bind; by rewrite E|]. split; [done|]. split; [by etrans|]. split; [by etrans|done].
Qed.

Lemma builds_weaken {A} (m : Lower A) N (K K' : A -> Nodes -> Prop) : builds m N K ->
  (forall a N', N `prefix_of` N' -> K a N' -> K' a N') -> builds m N K'.
Proof.
  intros Hm HK lw Hr. destruct (Hm lw Hr) as (a & lw1 & N1 & E & Hr1 & T1 & P1 & Ka).
  exists a, lw1, N1. do 4 (split; [done|]). apply HK; [apply P1|done].
Qed.

Lemma builds_formed {A} (m : Lower A) N K : (well_formed N -> builds m N K) -> builds m N K.
Proof. intros H lw Hr. apply H; [apply Hr|done]. Qed.

Lemma builds_unwrap {A} (o : option A) a N (K : A -> Nodes -> Prop) : o = Some a -> K a N -> builds (unwrap o) N K.
Proof. intros -> HK lw Hr. exists a, lw, N. do 4 (split; [done|]). done. Qed.

(** A node of a known width whose value is a function of the interpretation. *)
Definition node N (id width : nat) (f : (nat -> Z) -> Z) : Prop :=
  typed N id width /\ forall vals, holds N vals -> vals id = f vals.

Lemma node_mono N N' id width f : well_formed N -> N `prefix_of` N' -> node N id width f -> node N' id width f.
Proof. intros HW HP [HT HV]. split; [by eapply typed_mono|]. intros vals Hh. apply HV. by eapply holds_mono. Qed.

(** ** What the node operations of the lowering build

    Each operation of [SmtLower] that makes nodes, as a triple on the nodes
    so far: it succeeds, and the node it returns has a width and a value. *)
Lemma lower_run {A B} (m : Lower A) (k : A -> Lower B) lw a lw' : m lw = LOk (a, lw') -> (m ≫= k) lw = k a lw'.
Proof. intros E. unfold mbind, lower_bind. by rewrite E. Qed.

(** ** Appending a node *)
Lemma edges_view cs n (g : Graph) ks k0 ls xs : (forall c, c ∈ cs -> c < n) -> n + 1 = len g -> length ks = n ->
  view g (ks ++ [k0]) ls xs ->
  exists g', fold_left (fun g c => g ← g; add_edge n c g) cs (Some g) = Some g' /\ nodes g' = nodes g /\ view g' (ks ++ [k0 ++ cs]) ls xs.
Proof.
  revert g k0; induction cs as [|c cs IH]; intros g k0 Hc Hn Lk HV.
  - exists g. rewrite app_nil_r. done.
  - destruct (add_edge_view g _ ls xs HV n c Hn) as (g1 & E & En & V1); [apply Hc; constructor|].
    rewrite alter_app_r_alt in V1 by lia. replace (n - length ks) with 0 in V1 by lia.
    destruct (IH g1 (k0 ++ [c])) as (g' & E' & En' & V'); [intros; apply Hc; by constructor| |done|done|].
    { unfold len in *. by rewrite En. }
    exists g'. cbn [fold_left mbind option_bind]. rewrite E. split; [done|].
    split; [congruence|]. by rewrite <- app_assoc in V'.
Qed.

Lemma rep_len lw N : rep lw N -> len (lw_graph lw) = length N.
Proof. intros R. unfold len. rewrite (rep_kinds _ _ R). apply length_map. Qed.

(** The state after a node is appended. *)
Lemma rep_snoc lw N nd g : rep lw N -> form N nd -> nodes g = nodes (lw_graph lw) ++ [nk nd] ->
  view g (map ncs N ++ [ncs nd]) (map nleaf N ++ [nleaf nd]) (replicate (length N) None ++ [None]) ->
  rep (set_nodes g (lw_width lw ++ [Some (nw nd)]) lw) (N ++ [nd]).
Proof.
  intros R Hf En HV. split; cbn [lw_graph lw_width set_nodes].
  - by rewrite map_app, En, (rep_kinds _ _ R).
  - rewrite !map_app, length_app, replicate_add. exact HV.
  - by rewrite map_app, (rep_widths _ _ R).
  - constructor; [apply R|done].
Qed.

Lemma mk_spec N nd : form N nd -> nleaf nd = None ->
  builds (mk (nk nd) (ncs nd) (Some (nw nd))) N (fun id N' => id = length N /\ N' = N ++ [nd]).
Proof.
  intros Hf Hl lw R. pose proof (rep_len lw N R) as Lg.
  destruct (add_node_view (lw_graph lw) _ _ _ (rep_view _ _ R) (nk nd)) as (Eid & En & V1).
  unfold mk. destruct (add_node (nk nd) (lw_graph lw)) as [id g1] eqn:Ea. cbn [fst snd] in *.
  assert (len g1 = length N + 1) as Lg1 by (unfold len in *; rewrite En, length_app; cbn; lia).
  assert (forall c, c ∈ ncs nd -> c < id) as Hc by (rewrite Eid, Lg; intros c; by apply form_children).
  destruct (edges_view (ncs nd) id g1 (map ncs N) [] _ _ Hc ltac:(lia) ltac:(rewrite length_map; lia) V1) as (g & E & En' & V2).
  exists id, (set_nodes g (lw_width lw ++ [Some (nw nd)]) lw), (N ++ [nd]). split.
  { unfold mk. rewrite (lower_run _ _ lw (lw_graph lw) lw) by done. rewrite Ea. by rewrite (lower_run _ _ lw g lw) by (unfold unwrap; by rewrite E). }
  split. { apply rep_snoc; [done|done|by rewrite En', En|]. by rewrite Hl. }
  split; [done|]. split; [by apply grows_snoc, (form_not_symbol N)|]. split; [by rewrite Eid|done].
Qed.

Lemma leaf_rep lw N nd x : rep lw N -> form N nd -> ncs nd = [] -> nleaf nd = Some x ->
  exists g, set_leaf_data (fst (add_node (nk nd) (lw_graph lw))) x (snd (add_node (nk nd) (lw_graph lw))) = Some g /\
    rep (set_nodes g (lw_width lw ++ [Some (nw nd)]) lw) (N ++ [nd]).
Proof.
  intros R Hf Hc Hl. pose proof (rep_len lw N R) as Lg.
  destruct (add_node_view (lw_graph lw) _ _ _ (rep_view _ _ R) (nk nd)) as (Eid & En & V1).
  destruct (add_node (nk nd) (lw_graph lw)) as [id g1] eqn:Ea. cbn [fst snd] in *.
  destruct (set_leaf_data_view g1 _ _ _ V1 id x) as (g & E & En' & V2); [unfold len in *; rewrite En, length_app; cbn; lia|].
  exists g. split; [done|]. apply rep_snoc; [done|done|by rewrite En', En|]. rewrite Hc, Hl.
  replace (<[id:=Some x]> (map nleaf N ++ [None])) with (map nleaf N ++ [Some x]) in V2; [done|].
  rewrite insert_app_r_alt by (rewrite length_map; lia). replace (id - length (map nleaf N)) with 0 by (rewrite length_map; lia). done.
Qed.

(** ** Leaves *)
Lemma leaf_const_spec N width v : 0 < width -> is_u64 v ->
  builds (leaf_const width v) N (fun id N' => node N' id width (fun _ => v mod 2 ^ Z.of_nat width)%Z /\
    literal N' id (v mod 2 ^ Z.of_nat width mod 2 ^ 64)%Z).
Proof.
  intros Hw Hv lw R. set (a := repr (Z.of_nat width) false v). assert (wf a) as Ha by (apply repr_wf; lia).
  set (nd := mkNode SymKind.Constant [] (Some (PInt a)) width).
  assert (form N nd) as Hf by (by apply form_const).
  destruct (leaf_rep lw N nd (PInt a) R Hf eq_refl eq_refl) as (g & E & R').
  exists (length N), (set_nodes g (lw_width lw ++ [Some width]) lw), (N ++ [nd]). split.
  { unfold leaf_const. rewrite (lower_run _ _ lw (lw_graph lw) lw) by done. rewrite (surjective_pairing (add_node _ _)).
    rewrite (lower_run _ _ lw a lw) by (unfold unwrap; by rewrite (new_repr _ v) by (done || lia)).
    change (nk nd) with SymKind.Constant in E. rewrite (lower_run _ _ lw g lw) by (unfold unwrap; by rewrite E). by rewrite <- (rep_len lw N R). }
  split; [done|]. split; [done|]. split; [by apply grows_snoc|]. split; [split|].
  - exists nd. split; [by apply list_lookup_middle|done].
  - intros vals Hh. apply (holds_last N nd vals _ Hf Hh). unfold node_value. cbn [nk nleaf nw nd]. f_equal. unfold a. rewrite uval_repr by lia. apply Z.mod_mod. lia.
  - exists nd, a. split; [by apply list_lookup_middle|]. split; [done|]. unfold a. pose proof (limb_count_pos (Z.of_nat width) ltac:(lia)).
    unfold to_u64, repr. cbn [value]. by destruct (limb_count (Z.of_nat width)); [lia|].
Qed.

(** ** Operators *)
Lemma w_spec N id width : typed N id width -> builds (w id) N (fun o N' => N' = N /\ o = Some width).
Proof.
  intros (nd & E & <-) lw R. exists (Some (nw nd)), lw, N. split.
  { unfold w. rewrite (lower_run _ _ lw (Some (Some (nw nd))) lw); [done|]. unfold look. f_equal. f_equal.
    rewrite (rep_widths _ _ R). change (map ?f N !! id) with ((f <$> N) !! id). rewrite list_lookup_fmap, E. done. }
  do 3 (split; [done|]). done.
Qed.

Lemma range_at N id width vals : typed N id width -> holds N vals -> (0 <= vals id < 2 ^ Z.of_nat width)%Z.
Proof. intros (nd & E & <-) Hh. by apply (Hh id nd). Qed.

Lemma mk_node N nd f : form N nd -> nleaf nd = None -> (forall vals, holds N vals -> node_value N vals nd = Some (f vals)) ->
  builds (mk (nk nd) (ncs nd) (Some (nw nd))) N (fun id N' => node N' id (nw nd) f).
Proof.
  intros Hf Hl Hv. apply builds_formed. intros HW. eapply builds_weaken; [by apply mk_spec|]. intros id N' HP [-> ->]. split.
  - exists nd. split; [by apply list_lookup_middle|done].
  - intros vals Hh. apply (holds_last N nd vals _ Hf Hh), Hv. by eapply holds_mono.
Qed.

(** Reading a known width before a node is made. *)
Lemma with_width {A} N id width (k : option nat -> Lower A) K : typed N id width -> builds (k (Some width)) N K -> builds (w id ≫= k) N K.
Proof. intros HT Hk. eapply builds_bind; [by apply w_spec|]. intros o N1 HP [-> ->]. done. Qed.

Lemma bin_word N k a b width : class_of k = CWord k \/ class_of k = CShift k -> typed N a width -> typed N b width -> 0 < width ->
  builds (bin k a b) N (fun id N' => node N' id width (fun vals => smt_op k (Z.of_nat width) (vals a) (vals b))).
Proof.
  intros Hk Ha Hb Hw. assert (bin k a b = (width ← w a; mk k [a; b] width)) as ->.
  { unfold bin. destruct k; try done; by destruct Hk. }
  eapply with_width; [done|].
  eapply (mk_node N (mkNode k [a; b] None width)); [by apply form_word|done|]. intros vals _. unfold node_value. cbn [nk ncs nw BlastSem.arg].
  unfold BlastSem.arg. cbn [lookup list_lookup default from_option id]. rewrite (typed_width N a width Ha). destruct k; try done; by destruct Hk.
Qed.

Lemma cmp_node_spec N k o a b width : class_of k = CTest k o -> typed N a width -> typed N b width -> 0 < width ->
  builds (cmp k a b) N (fun id N' => node N' id 1 (fun vals => smt_op k (Z.of_nat width) (vals a) (vals b))).
Proof.
  intros Hk Ha Hb Hw. eapply (mk_node N (mkNode k [a; b] None 1)); [by eapply form_test|done|]. intros vals _. unfold node_value.
  cbn [nk ncs nw]. unfold BlastSem.arg. cbn [lookup list_lookup default from_option id]. rewrite (typed_width N a width Ha). by destruct k.
Qed.

Lemma bin_concat N a b wa wb : typed N a wa -> typed N b wb -> 0 < wa + wb -> (Z.of_nat (wa + wb) < 2 ^ 32)%Z ->
  builds (bin SymKind.Concat a b) N (fun id N' => node N' id (wa + wb) (fun vals => vals b + 2 ^ Z.of_nat wb * vals a)%Z).
Proof.
  intros Ha Hb Hw Hb32. unfold bin. eapply builds_bind with (K1 := fun o N' => N' = N /\ o = Some (wa + wb)).
  - eapply with_width; [done|]. eapply with_width; [done|]. eapply builds_bind with (K1 := fun s N' => N' = N /\ s = wa + wb).
    + apply builds_unwrap with (a := wa + wb); [|done]. unfold add_width. by rewrite (proj2 (Z.ltb_lt _ _) Hb32).
    + intros s N1 _ [-> ->]. by apply builds_ret.
  - intros o N1 _ [-> ->]. eapply (mk_node N (mkNode SymKind.Concat [a; b] None (wa + wb))); [by apply form_concat|done|].
    intros vals _. unfold node_value. cbn [nk ncs nw]. unfold BlastSem.arg. cbn [lookup list_lookup default from_option id].
    by rewrite (typed_width N b wb Hb).
Qed.

Lemma un_spec N k a width f : k = SymKind.Not /\ f = (fun x => 2 ^ Z.of_nat width - 1 - x)%Z \/ k = SymKind.Neg /\ f = (fun x => - x mod 2 ^ Z.of_nat width)%Z ->
  typed N a width -> 0 < width -> builds (un k a) N (fun id N' => node N' id width (fun vals => f (vals a))).
Proof.
  intros Hk Ha Hw. eapply with_width; [done|]. eapply (mk_node N (mkNode k [a] None width)); [apply form_unary; [tauto|done..]|done|].
  intros vals _. by destruct Hk as [[-> ->]|[-> ->]].
Qed.

Lemma ite_node_spec N c t e wc width : typed N c wc -> 0 < wc -> typed N t width -> typed N e width -> 0 < width ->
  builds (ite [c; t; e]) N (fun id N' => node N' id width (fun vals => if Z.odd (vals c) then vals t else vals e)).
Proof.
  intros. unfold ite. cbn. unfold mbind, lower_bind. cbn.
  intros lw R. eapply (with_width N t width (fun width => mk SymKind.If [c; t; e] width)); [done| |done].
  eapply (mk_node N (mkNode SymKind.If [c; t; e] None width)); [by eapply form_if|done|done].
Qed.
