(* ===== verification/SmtOperators.v ===== *)
(** * The operators of the lowering implement the theories

    The nodes that [lower_indexed] builds for an application compute the
    function of [SmtMeaning] on the values of the arguments. *)
From S2P Require Import Prelude Words ApInt ApIntSpec ApIntOps Lang LangSpec Dag DagSpec Bits Gates Bitblast BlastSem CircuitWord.
From S2P Require Import SmtAst SmtLower SmtMeaning SmtNodes.
#[local] Open Scope nat_scope.

Implicit Types N : Nodes.

(** ** Arguments *)
Definition args_typed N (a : list nat) (ws : list nat) : Prop := Forall2 (typed N) a ws.

Lemma args_mono N N' a ws : N `prefix_of` N' -> args_typed N a ws -> args_typed N' a ws.
Proof. intros HP Ha. eapply Forall2_impl; [exact Ha|]. intros x y. by apply typed_mono. Qed.

Lemma args_range N a ws vals : args_typed N a ws -> holds N vals ->
  Forall2 (fun v width => 0 <= v < 2 ^ Z.of_nat width)%Z (map vals a) ws.
Proof.
  intros Ha Hh. induction Ha as [|x y a ws Hx Ha IH]; constructor; [by eapply range_at|done].
Qed.

Lemma range_later N N' id width vals : typed N id width -> N `prefix_of` N' -> holds N' vals -> (0 <= vals id < 2 ^ Z.of_nat width)%Z.
Proof. intros HT HP Hh. eapply range_at; [by eapply typed_mono|done]. Qed.

Lemma node_typed N id width f : node N id width f -> typed N id width.
Proof. by intros [H _]. Qed.

Lemma node_ext N id width f g : (forall vals, holds N vals -> f vals = g vals) -> node N id width f -> node N id width g.
Proof. intros E [HT HV]. split; [done|]. intros vals Hh. by rewrite <- E, HV. Qed.

Lemma node_range N id width f vals : node N id width f -> holds N vals -> (0 <= f vals < 2 ^ Z.of_nat width)%Z.
Proof. intros [HT HV] Hh. rewrite <- (HV vals Hh). by eapply range_at. Qed.

Lemma builds_ext N (m : Lower nat) width f g : (forall N' vals, N `prefix_of` N' -> holds N' vals -> f vals = g vals) ->
  builds m N (fun id N' => node N' id width f) -> builds m N (fun id N' => node N' id width g).
Proof. intros E H. eapply builds_weaken; [exact H|]. intros id N' HP HN. eapply node_ext; [|exact HN]. intros vals. by apply E. Qed.

(** ** Chains of binary nodes *)
Definition word_kind (k : SymKind.t) : Prop := class_of k = CWord k \/ class_of k = CShift k.

Lemma fold_word N m k width g rest f : word_kind k -> 0 < width ->
  (forall x y, 0 <= x < 2 ^ Z.of_nat width -> 0 <= y < 2 ^ Z.of_nat width -> smt_op k (Z.of_nat width) x y = g x y)%Z ->
  Forall (fun x => typed N x width) rest -> builds m N (fun id N' => node N' id width f) ->
  builds (fold_left (fun acc x => acc ← acc; bin k acc x) rest m) N
    (fun id N' => node N' id width (fun vals => fold_left g (map vals rest) (f vals))).
Proof.
  intros Hk Hw Hg Hr. revert m f. induction Hr as [|x rest Hx Hr IH]; intros m f Hm; [done|].
  cbn [fold_left map]. eapply builds_ext; [|apply (IH _ (fun vals => g (f vals) (vals x)))]; [done|].
  eapply builds_bind; [exact Hm|]. intros acc N1 HP HN. cbv beta in HN. apply builds_formed. intros HW.
  pose proof (typed_mono _ _ _ _ HP Hx) as Hx1. eapply builds_weaken; [apply (bin_word N1 k acc x width); [done|by eapply node_typed|done..]|].
  intros id N2 HP2. apply node_ext. intros vals Hh. destruct HN as [HT HV].
  assert (holds N1 vals) as Hh1 by (by eapply holds_mono). rewrite (HV vals Hh1), Hg; [done| |by eapply range_at].
  rewrite <- (HV vals Hh1). by eapply range_at.
Qed.

Lemma argument N id width : typed N id width -> builds (mret id) N (fun id' N' => node N' id' width (fun vals => vals id)).
Proof. intros HT. by apply builds_ret. Qed.

Lemma fold_bin_word N k width g first rest : word_kind k -> 0 < width ->
  (forall x y, 0 <= x < 2 ^ Z.of_nat width -> 0 <= y < 2 ^ Z.of_nat width -> smt_op k (Z.of_nat width) x y = g x y)%Z ->
  args_typed N (first :: rest) (replicate (length (first :: rest)) width) ->
  builds (fold_bin k first rest) N (fun id N' => node N' id width (fun vals => left_assoc g (map vals (first :: rest)))).
Proof.
  intros Hk Hw Hg Ha. cbn [length replicate] in Ha. apply Forall2_cons in Ha as [H1 Ha]. apply (fold_word N _ k width g rest (fun vals => vals first)); try done.
  - clear -Ha. revert Ha. generalize (length rest). intros n Ha. remember (replicate n width) as ws eqn:E. revert n E.
    induction Ha as [|x y rest ws Hx Ha IH]; intros n E; constructor; destruct n; cbn in E; try done; injection E as -> E; eauto.
  - by apply argument.
Qed.

(** A conjunction of tests. *)
Definition tests N (ids : list nat) (bs : list ((nat -> Z) -> bool)) : Prop :=
  Forall2 (fun id b => node N id 1 (fun vals => Z.b2z (b vals))) ids bs.

Lemma tests_mono N N' ids bs : well_formed N -> N `prefix_of` N' -> tests N ids bs -> tests N' ids bs.
Proof. intros HW HP Ht. eapply Forall2_impl; [exact Ht|]. intros id b. by apply node_mono. Qed.

Lemma and_bits x y : smt_op SymKind.And 1 (Z.b2z x) (Z.b2z y) = Z.b2z (x && y).
Proof. by destruct x, y. Qed.

Lemma combine_and_spec N ids bs : tests N ids bs ->
  builds (combine_and ids) N (fun id N' => node N' id 1 (fun vals => Z.b2z (forallb (fun b => b vals) bs))).
Proof.
  intros Ht. apply builds_formed. intros HW0. destruct Ht as [|first b rest bs Hb Hr]; cbn [combine_and].
  { eapply builds_weaken; [apply leaf_const_spec; [lia|done]|]. intros id N' _ [H _]. done. }
  unfold fold_bin. cbn [forallb]. enough (forall m f, builds m N (fun id N' => node N' id 1 (fun vals => Z.b2z (f vals))) ->
    builds (fold_left (fun acc x => acc ← acc; bin SymKind.And acc x) rest m) N
      (fun id N' => node N' id 1 (fun vals => Z.b2z (f vals && forallb (fun b => b vals) bs)))) as H by (by apply H, builds_ret).
  clear first b Hb. induction Hr as [|x b rest bs Hb Hr IH]; intros m f Hm.
  - cbn. eapply builds_ext; [|exact Hm]. intros N' vals _ _. by rewrite andb_true_r.
  - cbn [fold_left forallb]. eapply builds_ext; [|apply (IH _ (fun vals => f vals && b vals))].
    { intros. by rewrite andb_assoc. }
    eapply builds_bind; [exact Hm|]. intros acc N1 HP HN. cbv beta in HN. apply builds_formed. intros HW.
    pose proof (typed_mono _ _ _ _ HP (node_typed _ _ _ _ Hb)) as Hx1.
    eapply builds_weaken; [apply (bin_word N1 SymKind.And acc x 1); [by left|by eapply node_typed|done|lia]|].
    intros id N2 HP2. apply node_ext. intros vals Hh. assert (holds N1 vals) as Hh1 by (by eapply holds_mono).
    destruct HN as [_ HV], Hb as [_ Hb]. rewrite (HV vals Hh1), (Hb vals); [apply and_bits|].
    by eapply holds_mono.
Qed.

(** Concatenations. *)
Definition concat_of (acc : Z) (ws : list nat) (vs : list Z) : Z := concat_value acc ws vs.

Lemma fold_concat N rest ws : args_typed N rest ws -> forall m w0 f, builds m N (fun id N' => node N' id w0 f) ->
  0 < w0 -> (Z.of_nat (w0 + total_width ws) < 2 ^ 32)%Z ->
  builds (fold_left (fun acc x => acc ← acc; bin SymKind.Concat acc x) rest m) N
    (fun id N' => node N' id (w0 + total_width ws) (fun vals => concat_value (f vals) ws (map vals rest))).
Proof.
  intros Ha. induction Ha as [|x y rest ws Hx Ha IH]; intros m w0 f Hm Hpos Hlt; cbn [fold_left map concat_value total_width fold_right] in *.
  { rewrite Nat.add_0_r. exact Hm. }
  rewrite Nat.add_assoc. apply (IH _ (w0 + y) (fun vals => vals x + 2 ^ Z.of_nat y * f vals)%Z); [|lia|unfold total_width; lia].
  eapply builds_bind; [exact Hm|]. intros acc N1 HP HN. cbv beta in HN. apply builds_formed. intros HW.
  pose proof (typed_mono _ _ _ _ HP Hx) as Hx1.
  eapply builds_weaken; [apply (bin_concat N1 acc x w0 y); [by eapply node_typed|done|lia|lia]|].
  intros id N2 HP2. apply node_ext. intros vals Hh. destruct HN as [_ HV]. by rewrite HV by (by eapply holds_mono).
Qed.

(** Implications, from the last argument back. *)
Lemma or_bits x y : (0 <= x < 2 -> 0 <= y < 2 -> smt_op SymKind.Or 1 (2 ^ Z.of_nat 1 - 1 - x) y = Z.b2z (negb (Z.odd x) || Z.odd y))%Z.
Proof. intros Hx Hy. assert (x = 0 \/ x = 1)%Z as [-> | ->] by lia; assert (y = 0 \/ y = 1)%Z as [-> | ->] by lia; done. Qed.

Lemma implies_all_snoc v vs : implies_all (v :: vs) = match vs with [] => v | _ => Z.b2z (negb (Z.odd v) || Z.odd (implies_all vs)) end.
Proof. by destruct vs. Qed.

Lemma implies_step N m p f : typed N p 1 -> builds m N (fun id N' => node N' id 1 f) ->
  builds (acc ← m; not_p ← un SymKind.Not p; bin SymKind.Or not_p acc) N
    (fun id N' => node N' id 1 (fun vals => Z.b2z (negb (Z.odd (vals p)) || Z.odd (f vals)))).
Proof.
  intros Hp Hm. eapply builds_bind; [exact Hm|]. intros acc N1 HP HN. cbv beta in HN. apply builds_formed. intros HW.
  pose proof (typed_mono _ _ _ _ HP Hp) as Hp1.
  eapply builds_bind; [apply (un_spec N1 SymKind.Not p 1); [by left|done|lia]|]. intros q N2 HP2 HQ. cbv beta in HQ.
  apply builds_formed. intros HW2. assert (node N2 acc 1 f) as HA by (by apply (node_mono N1)).
  eapply builds_weaken; [apply (bin_word N2 SymKind.Or q acc 1); [by left|exact (node_typed _ _ _ _ HQ)|exact (node_typed _ _ _ _ HA)|lia]|].
  intros id N3 HP3. apply node_ext. intros vals Hh. assert (holds N2 vals) as Hh2 by (by eapply holds_mono).
  assert (holds N1 vals) as Hh1 by (by eapply holds_mono).
  pose proof (node_range _ _ _ _ vals HA Hh2). pose proof (range_at N1 p 1 vals Hp1 Hh1).
  destruct HQ as [_ HQ], HA as [_ HA]. rewrite (HQ vals Hh2), (HA vals Hh2). apply or_bits; done.
Qed.

Lemma fold_implies N init : Forall (fun p => typed N p 1) init -> forall m f, builds m N (fun id N' => node N' id 1 f) ->
  builds (fold_left (fun acc p => acc ← acc; not_p ← un SymKind.Not p; bin SymKind.Or not_p acc) (rev init) m) N
    (fun id N' => node N' id 1 (fun vals => fold_right (fun v acc => Z.b2z (negb (Z.odd v) || Z.odd acc)) (f vals) (map vals init))).
Proof.
  intros Hi. induction Hi as [|p init Hp Hi IH]; intros m f Hm; [done|]. cbn [rev map fold_right]. rewrite fold_left_app. cbn [fold_left].
  by apply (implies_step N _ p _ Hp), IH.
Qed.

Lemma implies_all_fold vs v : implies_all (vs ++ [v]) = fold_right (fun v acc => Z.b2z (negb (Z.odd v) || Z.odd acc)) v vs.
Proof.
  induction vs as [|x vs IH]; [done|]. cbn [app fold_right]. rewrite <- IH, implies_all_snoc. by destruct vs.
Qed.

Lemma implies_spec N a : a <> [] -> args_typed N a (replicate (length a) 1) ->
  builds (implies a) N (fun id N' => node N' id 1 (fun vals => implies_all (map vals a))).
Proof.
  intros Hne Ha. destruct (snoc_cases a) as [->|(init & last & ->)]; [done|]. unfold implies. rewrite list.last_snoc.
  rewrite length_app, Nat.add_sub, take_app_length. rewrite length_app, replicate_add in Ha.
  apply Forall2_app_inv in Ha as [Hi Hl]; [|by rewrite length_replicate]. apply Forall2_cons in Hl as [Hl _].
  eapply builds_ext; [|apply (fold_implies N init) with (f := fun vals => vals last)].
  - intros N' vals _ _. rewrite map_app. cbn [map]. by rewrite implies_all_fold.
  - clear -Hi. apply Forall_forall. intros p Hp. apply list_elem_of_lookup in Hp as [i Hp].
    destruct (Forall2_lookup_l _ _ _ _ _ Hi Hp) as (y & Hy & HT). by apply lookup_replicate in Hy as [-> _].
  - by apply argument.
Qed.

(** Equality and distinctness. *)
Lemma cmp_all_spec k o g N width ps : class_of k = CTest k o -> 0 < width ->
  (forall x y, 0 <= x < 2 ^ Z.of_nat width -> 0 <= y < 2 ^ Z.of_nat width -> smt_op k (Z.of_nat width) x y = Z.b2z (g x y))%Z ->
  (forall x y, (x, y) ∈ ps -> typed N x width /\ typed N y width) ->
  builds (cmp_all k ps) N (fun ids N' => tests N' ids (map (fun '(x, y) vals => g (vals x) (vals y)) ps)).
Proof.
  intros Hk Hw Hg. revert N. induction ps as [|[x y] ps IH]; intros N Hp; [by apply builds_ret; constructor|].
  destruct (Hp x y) as [Hx Hy]; [constructor|]. unfold cmp_all. cbn [mapM].
  eapply builds_bind; [by apply (cmp_node_spec N k o x y width)|]. intros id N1 HP HN. cbv beta in HN.
  assert (forall x y, (x, y) ∈ ps -> typed N1 x width /\ typed N1 y width) as Hp1.
  { intros x' y' H. destruct (Hp x' y'); [by constructor|]. split; by eapply typed_mono. }
  eapply builds_bind; [by apply (IH N1)|]. intros ids N2 HP2 HT. cbv beta in HT. apply builds_formed. intros HW2. apply builds_ret.
  cbn [map]. constructor; [|done]. apply (node_ext _ _ _ (fun vals => smt_op k (Z.of_nat width) (vals x) (vals y))).
  - intros vals Hh. apply Hg; (eapply range_at; [|exact Hh]); (eapply typed_mono; [|done]); by etrans.
  - assert (well_formed N1) as HW1; [|by apply (node_mono N1)]. eapply well_formed_prefix; done.
Qed.

Lemma windows_in a x y : (x, y) ∈ windows a -> x ∈ a /\ y ∈ a.
Proof.
  induction a as [|z a IH]; [by intros ?%not_elem_of_nil|]. destruct a as [|z' a]; [by intros ?%not_elem_of_nil|].
  cbn [windows]. intros [[= -> ->]|H]%elem_of_cons; [split; repeat constructor|]. destruct (IH H). split; by constructor.
Qed.

Lemma pairs_in a x y : (x, y) ∈ pairs a -> x ∈ a /\ y ∈ a.
Proof.
  induction a as [|z a IH]; [by intros ?%not_elem_of_nil|]. cbn [pairs]. intros [H|H]%elem_of_app.
  - apply list_elem_of_fmap in H as (y' & [= -> ->] & H). split; by constructor.
  - destruct (IH H). split; by constructor.
Qed.

Lemma windows_equal a vals : forallb (fun b => b vals) (map (fun '(x, y) (vals : nat -> Z) => vals x =? vals y)%Z (windows a)) = all_equal (map vals a).
Proof.
  induction a as [|x a IH]; [done|]. destruct a as [|y a]; [done|]. exact (f_equal (andb _) IH).
Qed.

Lemma pairs_distinct a vals :
  forallb (fun b => b vals) (map (fun '(x, y) (vals : nat -> Z) => negb (vals x =? vals y)%Z) (pairs a)) = bool_decide (NoDup (map vals a)).
Proof.
  induction a as [|x a IH]; [done|]. cbn [pairs map]. rewrite map_app, forallb_app, IH.
  assert (forallb (fun b => b vals) (map (fun '(x, y) (vals : nat -> Z) => negb (vals x =? vals y)%Z) (map (fun y => (x, y)) a)) =
    bool_decide (vals x ∉ map vals a)) as ->.
  { clear IH. induction a as [|y a IH]; [done|]. cbn [map forallb]. rewrite IH. destruct (Z.eqb_spec (vals x) (vals y)) as [E|E]; cbn [negb andb].
    - symmetry. apply bool_decide_false. intros H. apply H. rewrite E. by constructor.
    - apply bool_decide_ext. rewrite not_elem_of_cons. tauto. }
  rewrite <- bool_decide_and. apply bool_decide_ext. by rewrite NoDup_cons.
Qed.

Lemma args_width N a width x : args_typed N a (replicate (length a) width) -> x ∈ a -> typed N x width.
Proof.
  intros Ha Hx. apply list_elem_of_lookup in Hx as [i Hx]. destruct (Forall2_lookup_l _ _ _ _ _ Ha Hx) as (y & Hy & HT).
  by apply lookup_replicate in Hy as [-> _].
Qed.

Lemma require_arity_spec {A} op got expected N (k : unit -> Lower A) K : got = expected -> builds (k tt) N K ->
  builds (require_arity op got expected ≫= k) N K.
Proof. intros -> Hk. unfold require_arity. rewrite Nat.eqb_refl. exact Hk. Qed.

Lemma chain_eq_spec N a width : 2 <= length a -> 0 < width -> args_typed N a (replicate (length a) width) ->
  builds (chain_eq a) N (fun id N' => node N' id 1 (fun vals => Z.b2z (all_equal (map vals a)))).
Proof.
  intros Hl Hw Ha. unfold chain_eq, require_min_arity. rewrite (proj2 (Nat.leb_le _ _) Hl).
  eapply builds_bind; [by apply (builds_ret tt N (fun _ N' => N' = N))|]. intros [] N0 _ ->.
  eapply builds_bind; [apply (cmp_all_spec SymKind.Eq true Z.eqb N width); [done|done|..]|].
  - intros x y _ _. unfold smt_op. cbn. by destruct (x =? y)%Z.
  - intros x y [Hx Hy]%windows_in. split; by eapply args_width.
  - intros ids N1 HP HT. cbv beta in HT. eapply builds_ext; [|exact (combine_and_spec _ _ _ HT)]. intros N2 vals _ _. cbv beta. by rewrite windows_equal.
Qed.

Lemma distinct_spec N a width : 2 <= length a -> 0 < width -> args_typed N a (replicate (length a) width) ->
  builds (distinct a) N (fun id N' => node N' id 1 (fun vals => Z.b2z (bool_decide (NoDup (map vals a))))).
Proof.
  intros Hl Hw Ha. unfold distinct, require_min_arity. rewrite (proj2 (Nat.leb_le _ _) Hl).
  eapply builds_bind; [by apply (builds_ret tt N (fun _ N' => N' = N))|]. intros [] N0 _ ->.
  eapply builds_bind; [apply (cmp_all_spec SymKind.Ne true (fun x y => negb (Z.eqb x y)) N width); [done|done|..]|].
  - intros x y _ _. unfold smt_op. cbn. by destruct (x =? y)%Z.
  - intros x y [Hx Hy]%pairs_in. split; by eapply args_width.
  - intros ids N1 HP HT. cbv beta in HT. eapply builds_ext; [|exact (combine_and_spec _ _ _ HT)]. intros N2 vals _ _. cbv beta. by rewrite pairs_distinct.
Qed.

(** ** The table of operators against the theories *)
Notation below w x := (0 <= x < 2 ^ Z.of_nat w)%Z.

Inductive agrees : OpSpec -> Arm -> Prop :=
  | agrees_bool f k : class_of k = CWord k -> (forall x y, smt_op k 1 (Z.b2z x) (Z.b2z y) = Z.b2z (f x y)) ->
    agrees (BoolFold f) (Fold k)
  | agrees_not : agrees BoolNot (Unary SymKind.Not)
  | agrees_implies : agrees BoolImplies Implies
  | agrees_eq : agrees CoreEq ChainEq
  | agrees_distinct : agrees CoreDistinct Distinct
  | agrees_ite : agrees CoreIte Ite
  | agrees_fold f k : class_of k = CWord k ->
    (forall n x y, 0 < n -> below n x -> below n y -> smt_op k (Z.of_nat n) x y = f (Z.of_nat n) x y) -> agrees (BitsFold f) (Fold k)
  | agrees_bvnot : agrees (BitsUnary bvnot) (Unary SymKind.Not)
  | agrees_bvneg : agrees (BitsUnary bvneg) (Unary SymKind.Neg)
  | agrees_binary f k : word_kind k ->
    (forall n x y, 0 < n -> below n x -> below n y -> smt_op k (Z.of_nat n) x y = f (Z.of_nat n) x y) -> agrees (BitsBinary f) (Binary k)
  | agrees_binary_not f k : word_kind k ->
    (forall n x y, 0 < n -> below n x -> below n y -> bvnot (Z.of_nat n) (smt_op k (Z.of_nat n) x y) = f (Z.of_nat n) x y) ->
    agrees (BitsBinary f) (BinaryNot k)
  | agrees_test f k o : class_of k = CTest k o ->
    (forall n x y, 0 < n -> below n x -> below n y -> smt_op k (Z.of_nat n) x y = Z.b2z (f (Z.of_nat n) x y)) ->
    agrees (BitsTest f) (Compare k)
  | agrees_comp : agrees BitsComp (Compare SymKind.Eq)
  | agrees_concat : agrees BitsConcat (Fold SymKind.Concat).

(** The operators that SMT-LIB defines through others. *)
Lemma smt_bvsdiv n x y : 0 < n -> below n x -> below n y -> smt_op SymKind.Div (Z.of_nat n) x y = bvsdiv (Z.of_nat n) x y.
Proof.
  intros Hn Hx Hy. rewrite smt_sdiv by (done || lia). unfold bvsdiv, mag, neg_bit, msb, quo, bvudiv, bvneg.
  by destruct (2 ^ (Z.of_nat n - 1) <=? x)%Z, (2 ^ (Z.of_nat n - 1) <=? y)%Z.
Qed.

Lemma smt_bvsrem n x y : 0 < n -> below n x -> below n y -> smt_op SymKind.SRem (Z.of_nat n) x y = bvsrem (Z.of_nat n) x y.
Proof.
  intros Hn Hx Hy. rewrite smt_srem by (done || lia). unfold bvsrem, mag, neg_bit, msb, rmd, bvurem, bvneg.
  by destruct (2 ^ (Z.of_nat n - 1) <=? x)%Z, (2 ^ (Z.of_nat n - 1) <=? y)%Z.
Qed.

Lemma bitwise_small (f : Z -> Z -> Z) (b : bool -> bool -> bool) n x y : (forall x y i, 0 <= i -> Z.testbit (f x y) i = b (Z.testbit x i) (Z.testbit y i))%Z ->
  b false false = false -> below n x -> below n y -> (f x y mod 2 ^ Z.of_nat n = f x y)%Z.
Proof.
  intros Hf Hb Hx Hy. apply Z.bits_inj'. intros i Hi. destruct (Z.lt_ge_cases i (Z.of_nat n)) as [H|H].
  - by rewrite Z.mod_pow2_bits_low.
  - rewrite Z.mod_pow2_bits_high by lia. rewrite Hf by done.
    rewrite <- (Z.mod_small x (2 ^ Z.of_nat n)), <- (Z.mod_small y (2 ^ Z.of_nat n)), !Z.mod_pow2_bits_high by lia. done.
Qed.

Lemma smt_and n x y : 0 < n -> below n x -> below n y -> smt_op SymKind.And (Z.of_nat n) x y = Z.land x y.
Proof. intros _ Hx Hy. apply (bitwise_small Z.land andb n x y); [|done..]. intros. apply Z.land_spec. Qed.
Lemma smt_or n x y : 0 < n -> below n x -> below n y -> smt_op SymKind.Or (Z.of_nat n) x y = Z.lor x y.
Proof. intros _ Hx Hy. apply (bitwise_small Z.lor orb n x y); [|done..]. intros. apply Z.lor_spec. Qed.
Lemma smt_xor n x y : 0 < n -> below n x -> below n y -> smt_op SymKind.Xor (Z.of_nat n) x y = Z.lxor x y.
Proof. intros _ Hx Hy. apply (bitwise_small Z.lxor xorb n x y); [|done..]. intros. apply Z.lxor_spec. Qed.

Lemma smt_lshr n x y : 0 < n -> below n x -> below n y -> smt_op SymKind.ShiftRightLogic (Z.of_nat n) x y = (x / 2 ^ y)%Z.
Proof.
  intros _ Hx Hy. unfold smt_op. cbn [bv_op op_width]. rewrite Z.shiftr_div_pow2 by lia.
  assert (0 < 2 ^ y)%Z by (apply Z.pow_pos_nonneg; lia). apply Z.mod_small. split; [apply Z.div_pos; lia|].
  apply Z.div_lt_upper_bound; [done|]. set (p := (2 ^ y)%Z) in *. nia.
Qed.

Lemma smt_ashr n x y : 0 < n -> below n x -> below n y ->
  smt_op SymKind.ShiftRightArithmetic (Z.of_nat n) x y = (sign_of (Z.of_nat n) x / 2 ^ y mod 2 ^ Z.of_nat n)%Z.
Proof. intros _ Hx Hy. unfold smt_op. cbn [bv_op op_width]. by rewrite Z.shiftr_div_pow2 by lia. Qed.

Lemma smt_test k n x y (b : bool) : op_width k (Z.of_nat n) = 1%Z -> bv_op k (Z.of_nat n) x y = Some (Z.b2z b) ->
  smt_op k (Z.of_nat n) x y = Z.b2z b.
Proof. intros. by apply smt_bool. Qed.

(** Every function of the theories is an arm of the table. *)
Lemma theory_arms : Forall (fun '(name, op) => exists arm, assoc name lower_arms = Some arm /\ agrees op arm) theory.
Proof.
  repeat (apply List.Forall_cons; [eexists; split; [reflexivity|]|]); [..|apply List.Forall_nil].
  all: try (constructor; fail).
  all: try (apply agrees_bool; [done|by intros [] []]).
  all: try (eapply agrees_test; [reflexivity|intros; by apply smt_test]).
  all: try (apply agrees_fold; [done|first [apply smt_and|apply smt_or|apply smt_xor|done]]).
  all: try (apply agrees_binary_not; [by left|intros n x y Hn Hx Hy; first [by rewrite smt_and|by rewrite smt_or|by rewrite smt_xor]]).
  all: apply agrees_binary; [first [by left|by right]|].
  all: first [apply smt_bvsdiv|apply smt_bvsrem|apply smt_lshr|apply smt_ashr|done|idtac].
  - intros n x y _ Hx Hy. by apply smt_udiv.
  - intros n x y _ Hx Hy. by apply smt_urem.
Qed.

Lemma find_op_arm name op : find_op name theory = Some op -> exists arm, assoc name lower_arms = Some arm /\ agrees op arm.
Proof.
  assert (forall l, Forall (fun '(name, op) => exists arm, assoc name lower_arms = Some arm /\ agrees op arm) l -> find_op name l = Some op ->
    exists arm, assoc name lower_arms = Some arm /\ agrees op arm) as H; [|by apply H, theory_arms].
  intros l Hl. induction Hl as [|[name' op'] l Hx Hl IH]; [done|]. cbn [find_op]. destruct (String.eqb_spec name name') as [->|]; [|done].
  by intros [= ->].
Qed.

(** ** Applications of a function of a theory *)
Lemma same_bits_spec ss n : same_bits ss = Some n -> map sort_bits ss = replicate (length ss) n /\ 0 < n /\ ss <> [].
Proof.
  unfold same_bits. destruct ss as [|[|m] ss]; [done|done|]. destruct (forallb _ ss && (0 <? m)) eqn:E; [|done]. intros [= ->].
  apply andb_true_iff in E as [E Hn%Nat.ltb_lt]. split; [|done]. cbn. f_equal. clear Hn. induction ss as [|s ss IH]; [done|].
  cbn in E |- *. apply andb_true_iff in E as [Hs%bool_decide_eq_true E]. rewrite Hs. cbn. f_equal. by apply IH.
Qed.

Lemma all_sort_spec ss s : forallb (fun s' => bool_decide (s' = s)) ss = true -> map sort_bits ss = replicate (length ss) (sort_bits s).
Proof.
  induction ss as [|s' ss IH]; [done|]. cbn. intros [Hs%bool_decide_eq_true E]%andb_true_iff. rewrite Hs. f_equal. by apply IH.
Qed.

Lemma args_length N a ws : args_typed N a ws -> length a = length ws.
Proof. apply Forall2_length. Qed.

Lemma at_spec {A} a i x (k : nat -> Lower A) N K : a !! i = Some x -> builds (k x) N K -> builds (at_ a i ≫= k) N K.
Proof. intros E Hk. unfold at_. rewrite E. exact Hk. Qed.

(** Two arguments of one width. *)
Lemma two_args {A} N a n op (k : nat -> nat -> Lower A) K : args_typed N a (replicate 2 n) ->
  (forall x y, a = [x; y] -> typed N x n -> typed N y n -> builds (k x y) N K) ->
  builds (_ ← require_arity op (length a) 2; x ← at_ a 0; y ← at_ a 1; k x y) N K.
Proof.
  intros Ha Hk. pose proof (args_length _ _ _ Ha) as L. destruct a as [|x [|y [|z a]]]; try discriminate L.
  cbn in Ha. apply Forall2_cons in Ha as [Hx Ha]. apply Forall2_cons in Ha as [Hy _].
  apply require_arity_spec; [done|]. eapply at_spec; [done|]. eapply at_spec; [done|]. by apply Hk.
Qed.

Lemma one_arg {A} N a n op (k : nat -> Lower A) K : args_typed N a [n] ->
  (forall x, a = [x] -> typed N x n -> builds (k x) N K) ->
  builds (_ ← require_arity op (length a) 1; x ← at_ a 0; k x) N K.
Proof.
  intros Ha Hk. pose proof (args_length _ _ _ Ha) as L. destruct a as [|x [|y a]]; try discriminate L.
  apply Forall2_cons in Ha as [Hx _]. apply require_arity_spec; [done|]. eapply at_spec; [done|]. by apply Hk.
Qed.

Lemma fold_bits_spec N a k n g : class_of k = CWord k -> 0 < n -> a <> [] ->
  (forall x y, below n x -> below n y -> smt_op k (Z.of_nat n) x y = g x y) -> args_typed N a (replicate (length a) n) ->
  forall name, builds (fold k a name) N (fun id N' => node N' id n (fun vals => left_assoc g (map vals a))).
Proof.
  intros Hk Hn Hne Hg Ha name. destruct a as [|first rest]; [done|]. unfold fold. by apply fold_bin_word; [left|..].
Qed.

Lemma mapM_bits ss ws : mapM vector_width ss = Some ws -> map sort_bits ss = ws.
Proof.
  revert ws; induction ss as [|[|n] ss IH]; intros ws; cbn; [by intros [= <-]|done|].
  destruct (mapM vector_width ss) as [ws'|]; [|done]. cbn. intros [= <-]. by rewrite (IH ws').
Qed.

(** What an arm owes an operator. *)
Definition arm_ok (op : OpSpec) (arm : Arm) : Prop :=
  forall N name a ss s f, op_meaning op ss = Some (s, f) -> args_typed N a (map sort_bits ss) -> length a = length ss -> well_formed N ->
    builds (lower_arm arm name a) N (fun id N' => node N' id (sort_bits s) (fun vals => f (map vals a))).

Lemma bits_cases (P : Z -> Prop) x : P 0%Z -> P 1%Z -> below 1 x -> P x.
Proof. intros H0 H1 Hx. cbn in Hx. assert (x = 0 \/ x = 1)%Z as [-> | ->] by lia; done. Qed.

Lemma bools_spec {B} ss (r : B) s : (if negb (length ss =? 0) && forallb (fun s => bool_decide (s = SBool)) ss then Some r else None) = Some s ->
  r = s /\ ss <> [] /\ map sort_bits ss = replicate (length ss) 1.
Proof.
  destruct (negb (length ss =? 0) && forallb _ ss) eqn:E; [|done]. intros [= <-].
  apply andb_true_iff in E as [Hne%negb_true_iff%Nat.eqb_neq E%all_sort_spec]. split; [done|]. split; [by intros ->|done].
Qed.

Lemma bool_fold_ok f k : class_of k = CWord k -> (forall x y, smt_op k 1 (Z.b2z x) (Z.b2z y) = Z.b2z (f x y)) -> arm_ok (BoolFold f) (Fold k).
Proof.
  intros Hk Hf N name a ss s f' Hm Ha L _. apply bools_spec in Hm as ([= <- <-] & Hne & E). rewrite E, <- L in Ha.
  apply fold_bits_spec; [done|cbn; lia|intros ->; by destruct ss| |done].
  intros x y Hx Hy. revert y Hy. apply bits_cases with (x := x); [| |done]; intros y Hy; apply bits_cases with (x := y); try done;
    [apply (Hf false false)|apply (Hf false true)|apply (Hf true false)|apply (Hf true true)].
Qed.

Lemma bool_not_ok : arm_ok BoolNot (Unary SymKind.Not).
Proof.
  intros N name a ss s f Hm Ha L _. cbn [op_meaning] in Hm. destruct ss as [|[|] [|? ?]]; try discriminate Hm. injection Hm as <- <-.
  apply (one_arg N a 1); [done|]. intros x -> Hx.
  eapply builds_ext; [|apply un_spec with (width := 1); [by left|done|lia]]. intros N' vals HP Hh. cbv beta.
  pose proof (range_at N' x 1 vals (typed_mono _ _ _ _ HP Hx) Hh) as R. unfold nth_arg. cbn [map nth].
  by apply bits_cases with (x := vals x).
Qed.

Lemma implies_ok : arm_ok BoolImplies Implies.
Proof.
  intros N name a ss s f Hm Ha L _. apply bools_spec in Hm as ([= <- <-] & Hne & E). rewrite E, <- L in Ha.
  apply implies_spec; [intros ->; by destruct ss|done].
Qed.

Lemma same_sorts_spec {B} ss (r : Sort_ -> B) x : match ss with
  | s :: (_ :: _) as rest => if forallb (fun s' => bool_decide (s' = s)) (tail ss) && (0 <? sort_bits s) then Some (r s) else None
  | _ => None end = Some x -> exists s, x = r s /\ 0 < sort_bits s /\ 2 <= length ss /\ map sort_bits ss = replicate (length ss) (sort_bits s).
Proof.
  destruct ss as [|s [|s1 ss]]; [done|done|]. destruct (forallb _ _ && _) eqn:E; [|done]. intros [= <-]. exists s.
  apply andb_true_iff in E as [E%all_sort_spec Hw%Nat.ltb_lt]. cbn [tail] in E. split; [done|]. split; [done|]. split; [cbn; lia|].
  change (map sort_bits (s :: s1 :: ss)) with (sort_bits s :: map sort_bits (s1 :: ss)). by rewrite E.
Qed.

Lemma eq_ok : arm_ok CoreEq ChainEq.
Proof.
  intros N name a ss s f Hm Ha L _. apply (same_sorts_spec ss (fun _ => (SBool, fun vs => Z.b2z (all_equal vs)))) in Hm as (s0 & [= -> ->] & Hw & Hl & E).
  rewrite E, <- L in Ha. apply (chain_eq_spec N a (sort_bits s0)); [lia|done..].
Qed.

Lemma distinct_ok : arm_ok CoreDistinct Distinct.
Proof.
  intros N name a ss s f Hm Ha L _.
  apply (same_sorts_spec ss (fun _ => (SBool, fun vs => Z.b2z (bool_decide (NoDup vs))))) in Hm as (s0 & [= -> ->] & Hw & Hl & E).
  rewrite E, <- L in Ha. apply (distinct_spec N a (sort_bits s0)); [lia|done..].
Qed.

Lemma ite_ok : arm_ok CoreIte Ite.
Proof.
  intros N name a ss s f Hm Ha L HW. cbn [op_meaning] in Hm.
  destruct ss as [|[|] [|s1 [|s2 [|? ?]]]]; try discriminate Hm. case_bool_decide as Es; [|done]. injection Hm as <- <-. subst s2.
  destruct a as [|c [|t [|e [|? ?]]]]; try discriminate L. cbn [map] in Ha.
  apply Forall2_cons in Ha as [Hc Ha]. apply Forall2_cons in Ha as [Ht Ha]. apply Forall2_cons in Ha as [He _].
  apply (ite_node_spec N c t e 1 (sort_bits s1)); [done|lia|done|done|]. by eapply well_formed_pos.
Qed.

(** Operators on vectors of one width. *)
Lemma bits_fold_ok f k : class_of k = CWord k ->
  (forall n x y, 0 < n -> below n x -> below n y -> smt_op k (Z.of_nat n) x y = f (Z.of_nat n) x y) -> arm_ok (BitsFold f) (Fold k).
Proof.
  intros Hk Hf N name a ss s f' Hm Ha L _. cbn [op_meaning] in Hm. destruct (same_bits ss) as [n|] eqn:E; [|done]. injection Hm as <- <-.
  apply same_bits_spec in E as (E & Hn & Hne). rewrite E, <- L in Ha. apply fold_bits_spec; [done|done|intros ->; by destruct ss| |done].
  intros x y. by apply Hf.
Qed.

Lemma same_bits_count {B} ss c (r : nat -> B) x : (n ← same_bits ss; assert! length ss =? c; Some (r n)) = Some x ->
  exists n, x = r n /\ 0 < n /\ map sort_bits ss = replicate c n.
Proof.
  destruct (same_bits ss) as [n|] eqn:E; [|done]. apply same_bits_spec in E as (E & Hn & Hne). cbn [mbind option_bind].
  destruct (Nat.eqb_spec (length ss) c) as [<-|]; [|done]. intros [= <-]. by exists n.
Qed.

Lemma bits_unary_ok f k : (k = SymKind.Not /\ f = bvnot \/ k = SymKind.Neg /\ f = bvneg) -> arm_ok (BitsUnary f) (Unary k).
Proof.
  intros Hk N name a ss s f' Hm Ha L _.
  apply (same_bits_count ss 1 (fun n => (SBits n, fun vs => f (Z.of_nat n) (nth_arg vs 0)))) in Hm as (n & [= -> ->] & Hn & E). rewrite E in Ha.
  apply (one_arg N a n); [done|]. intros x -> Hx. apply un_spec with (f := f (Z.of_nat n)); [|done..].
  destruct Hk as [[-> ->]|[-> ->]]; [by left|by right].
Qed.

Lemma bits_binary_ok f k : word_kind k ->
  (forall n x y, 0 < n -> below n x -> below n y -> smt_op k (Z.of_nat n) x y = f (Z.of_nat n) x y) -> arm_ok (BitsBinary f) (Binary k).
Proof.
  intros Hk Hf N name a ss s f' Hm Ha L _.
  apply (same_bits_count ss 2 (fun n => (SBits n, fun vs => f (Z.of_nat n) (nth_arg vs 0) (nth_arg vs 1)))) in Hm as (n & [= -> ->] & Hn & E).
  rewrite E in Ha. apply (two_args N a n); [done|]. intros x y -> Hx Hy. eapply builds_ext; [|by apply (bin_word N k x y n)].
  intros N' vals HP Hh. apply (Hf n (vals x) (vals y)); [done|by eapply range_later..].
Qed.

Lemma bits_binary_not_ok f k : word_kind k ->
  (forall n x y, 0 < n -> below n x -> below n y -> bvnot (Z.of_nat n) (smt_op k (Z.of_nat n) x y) = f (Z.of_nat n) x y) ->
  arm_ok (BitsBinary f) (BinaryNot k).
Proof.
  intros Hk Hf N name a ss s f' Hm Ha L _.
  apply (same_bits_count ss 2 (fun n => (SBits n, fun vs => f (Z.of_nat n) (nth_arg vs 0) (nth_arg vs 1)))) in Hm as (n & [= -> ->] & Hn & E).
  rewrite E in Ha. apply (two_args N a n); [done|]. intros x y -> Hx Hy.
  eapply builds_bind; [by apply (bin_word N k x y n)|]. intros inner N1 HP HI. cbv beta in HI. apply builds_formed. intros HW1.
  eapply builds_weaken; [apply (un_spec N1 SymKind.Not inner n); [by left|by eapply node_typed|done]|].
  intros id N2 HP2. apply node_ext. intros vals Hh. assert (holds N1 vals) as Hh1 by (by eapply holds_mono). destruct HI as [_ HI].
  rewrite (HI vals Hh1). apply (Hf n (vals x) (vals y)); [done|by eapply range_later..].
Qed.

Lemma bits_test_ok (op : OpSpec) (f : Z -> Z -> Z -> bool) k o s : (op = BitsTest f /\ s = SBool \/ op = BitsComp /\ f = (fun _ => Z.eqb) /\ s = SBits 1) ->
  class_of k = CTest k o ->
  (forall n x y, 0 < n -> below n x -> below n y -> smt_op k (Z.of_nat n) x y = Z.b2z (f (Z.of_nat n) x y)) -> arm_ok op (Compare k).
Proof.
  intros Hop Hk Hf N name a ss s' f' Hm Ha L _.
  assert (exists n, (s', f') = (s, fun vs => Z.b2z (f (Z.of_nat n) (nth_arg vs 0) (nth_arg vs 1))) /\ 0 < n /\ map sort_bits ss = replicate 2 n) as (n & [= -> ->] & Hn & E).
  { destruct Hop as [[-> ->]|(-> & -> & ->)]; [by eapply same_bits_count|by eapply same_bits_count]. }
  rewrite E in Ha. assert (sort_bits s = 1) as -> by (by destruct Hop as [[_ ->]|(_ & _ & ->)]).
  apply (two_args N a n); [done|]. intros x y -> Hx Hy. eapply builds_ext; [|by apply (cmp_node_spec N k o x y n)].
  intros N' vals HP Hh. apply (Hf n (vals x) (vals y)); [done|by eapply range_later..].
Qed.

Lemma concat_ok : arm_ok BitsConcat (Fold SymKind.Concat).
Proof.
  intros N name a ss s f Hm Ha L HW. cbn [op_meaning] in Hm. destruct (mapM vector_width ss) as [ws|] eqn:E; [|done].
  apply mapM_bits in E. cbn [mbind option_bind] in Hm. rewrite E in Ha. destruct ws as [|w0 ws]; [done|].
  destruct (Z.ltb_spec (Z.of_nat (total_width (w0 :: ws))) (2 ^ 32)) as [Hlt|]; [|done]. injection Hm as <- <-.
  destruct a as [|x a]; [by inversion Ha|]. apply Forall2_cons in Ha as [Hx Ha]. cbn [lower_arm fold sort_bits total_width fold_right].
  apply (fold_concat N a ws Ha _ w0 (fun vals => vals x)); [by apply argument|by eapply well_formed_pos|exact Hlt].
Qed.

Lemma agrees_ok op arm : agrees op arm -> arm_ok op arm.
Proof.
  intros H. destruct H; eauto using bool_fold_ok, bool_not_ok, implies_ok, eq_ok, distinct_ok, ite_ok, bits_fold_ok, bits_binary_ok, bits_binary_not_ok, concat_ok.
  - apply bits_unary_ok. by left.
  - apply bits_unary_ok. by right.
  - eapply bits_test_ok; [by left|done..].
  - eapply (bits_test_ok _ (fun _ => Z.eqb) _ true); [by right|done|]. intros n x y _ _ _. by apply smt_test.
Qed.

Lemma lower_op_spec N name op a ss s f : find_op name theory = Some op -> op_meaning op ss = Some (s, f) -> args_typed N a (map sort_bits ss) ->
  builds (lower_op name a) N (fun id N' => node N' id (sort_bits s) (fun vals => f (map vals a))).
Proof.
  intros Hop Hm Ha. destruct (find_op_arm name op Hop) as (arm & E & Hag). unfold lower_op. rewrite E. apply builds_formed. intros HW.
  apply (agrees_ok op arm Hag N name a ss); [done|done| |done]. pose proof (args_length _ _ _ Ha) as L. by rewrite length_map in L.
Qed.

(** ** Indexed operators *)
Lemma one_vector N a n : args_typed N a (map sort_bits [SBits n]) -> exists x, a = [x] /\ typed N x n.
Proof.
  intros Ha. pose proof (args_length _ _ _ Ha) as L. destruct a as [|x [|y a]]; try discriminate L.
  apply Forall2_cons in Ha as [Hx _]. by exists x.
Qed.

Lemma const_node_spec N width v : 0 < width -> (0 <= v < 2 ^ Z.of_nat width)%Z -> (v < 2 ^ 64)%Z ->
  builds (leaf_const width v) N (fun id N' => node N' id width (fun _ => v) /\ literal N' id v).
Proof.
  intros Hw Hv H64. eapply builds_weaken; [apply leaf_const_spec; [done|unfold is_u64; lia]|].
  intros id N' _. rewrite !(Z.mod_small v) by lia. done.
Qed.

Lemma extract_node_spec N x n hi lo : typed N x n -> (0 <= lo <= hi)%Z -> (hi < Z.of_nat n)%Z -> (Z.of_nat n < 2 ^ 32)%Z ->
  builds (lower_extract hi lo [x]) N (fun id N' => node N' id (Z.to_nat (hi - lo + 1)) (fun vals => vals x / 2 ^ lo mod 2 ^ (hi - lo + 1))%Z).
Proof.
  intros Hx Hl Hh H32. unfold lower_extract. apply require_arity_spec; [done|]. eapply at_spec; [done|].
  destruct (Z.ltb_spec hi lo); [lia|]. eapply with_width; [done|]. cbv iota. destruct (Z.leb_spec (Z.of_nat n) hi); [lia|].
  rewrite !(Z.mod_small hi), !(Z.mod_small lo) by lia.
  eapply builds_bind; [apply const_node_spec; [lia|change (Z.of_nat 32) with 32%Z; lia|lia]|]. intros c1 N1 HP1 [_ H1].
  eapply builds_bind; [apply const_node_spec; [lia|change (Z.of_nat 32) with 32%Z; lia|lia]|]. intros c2 N2 HP2 [_ H2].
  rewrite Z.mod_small by lia.
  assert (form N2 (mkNode SymKind.Extract [x; c1; c2] None (Z.to_nat (hi - lo + 1)))) as Hf.
  { eapply form_extract with (width := n); [|by eapply literal_mono|done|done|done]. eapply typed_mono; [|done]. by etrans. }
  apply (mk_node N2 _ _ Hf); [done|]. intros vals _. unfold node_value. cbn [nk ncs nw]. unfold BlastSem.arg.
  cbn [lookup list_lookup default from_option id]. rewrite (literal_eq N2 c1 hi), (literal_eq N2 c2 lo) by (done || by eapply literal_mono).
  do 3 f_equal. lia.
Qed.

Lemma extend_node_spec N x n k zero : typed N x n -> (0 <= k)%Z -> 0 < n -> (Z.of_nat n + k <= 64)%Z ->
  builds (lower_extend zero k [x]) N (fun id N' => node N' id (n + Z.to_nat k) (fun vals =>
    if zero then vals x else sign_of (Z.of_nat n) (vals x) mod 2 ^ (Z.of_nat n + k))%Z).
Proof.
  intros Hx Hk Hn H64. unfold lower_extend. apply require_arity_spec; [done|]. eapply at_spec; [done|]. eapply with_width; [done|].
  cbv iota. assert ((k <? 2 ^ 32)%Z && (Z.of_nat n + k <? 2 ^ 32)%Z && (Z.of_nat n + k <=? MAX_WIDTH)%Z = true) as -> by (unfold MAX_WIDTH; lia).
  assert (Z.to_nat (Z.of_nat n + k) = n + Z.to_nat k) as -> by lia.
  eapply builds_bind; [apply const_node_spec; [lia|change (Z.of_nat 32) with 32%Z; lia|lia]|]. intros c N1 HP [[Hc _] _].
  assert (form N1 (mkNode (if zero then SymKind.ZExt else SymKind.SExt) [x; c] None (n + Z.to_nat k))) as Hf.
  { eapply form_extend; [destruct zero; tauto|by eapply typed_mono|by eapply typed_lt|done|lia]. }
  apply (mk_node N1 _ _ Hf); [done|]. intros vals Hh. unfold node_value. cbn [nk ncs nw]. unfold BlastSem.arg.
  cbn [lookup list_lookup default from_option id]. pose proof (range_later _ _ _ _ _ Hx HP Hh) as R.
  assert (Z.of_nat (n + Z.to_nat k) = Z.of_nat n + k)%Z as -> by lia. destruct zero.
  - f_equal. apply Z.mod_small. pose proof (Z.pow_le_mono_r 2 (Z.of_nat n) (Z.of_nat n + k)). lia.
  - by rewrite (typed_width N1 x n) by (by eapply typed_mono).
Qed.

Lemma repeat_spec x n k : forall N acc w0 f, typed N x n -> node N acc w0 f -> 0 < w0 -> (Z.of_nat (w0 + k * n) < 2 ^ 32)%Z ->
  builds (repeat_concat k acc x) N (fun id N' => node N' id (w0 + k * n) (fun vals => concat_value (f vals) (replicate k n) (replicate k (vals x)))).
Proof.
  induction k as [|k IH]; intros N acc w0 f Hx HA Hw Hlt; cbn [repeat_concat replicate concat_value].
  { apply builds_ret. by rewrite Nat.add_0_r. }
  eapply builds_bind; [apply (bin_concat N acc x w0 n); [by eapply node_typed|done|lia|lia]|]. intros id N1 HP HN. cbv beta in HN.
  apply builds_formed. intros HW1. replace (w0 + S k * n) with (w0 + n + k * n) by lia.
  apply (IH N1 id (w0 + n) (fun vals => vals x + 2 ^ Z.of_nat n * f vals)%Z); [by eapply typed_mono| |lia|lia].
  eapply node_ext; [|exact HN]. intros vals Hh. destruct HA as [_ HA]. cbv beta. rewrite HA; [done|].
  eapply holds_mono; [|exact HP|exact Hh]. by eapply well_formed_prefix.
Qed.

(** Joining two parts that share no bit. *)
Lemma lor_parts n s x : (0 <= s <= n)%Z -> (0 <= x < 2 ^ n)%Z -> Z.lor (x * 2 ^ s mod 2 ^ n) (x / 2 ^ (n - s)) = (x * 2 ^ s mod 2 ^ n + x / 2 ^ (n - s))%Z.
Proof.
  intros Hs Hx. symmetry. rewrite <- Z.lxor_lor, <- Z.add_nocarry_lxor; [done|..].
  all: apply Z.bits_inj'; intros i Hi; rewrite Z.land_spec, Z.bits_0; destruct (Z.lt_ge_cases i s) as [H|H].
  all: try (rewrite <- Z.shiftl_mul_pow2 by lia; destruct (Z.lt_ge_cases i n);
    [rewrite Z.mod_pow2_bits_low, Z.shiftl_spec_low by lia|rewrite Z.mod_pow2_bits_high by lia]; done).
  all: rewrite <- Z.shiftr_div_pow2, Z.shiftr_spec by lia; rewrite <- (Z.mod_small x (2 ^ n)) at 2 by lia;
    rewrite (Z.mod_pow2_bits_high x) by lia; apply andb_false_r.
Qed.

Lemma rotate_spec N x n k left : typed N x n -> (0 <= k)%Z -> 0 < n -> (Z.of_nat n < 2 ^ 32)%Z ->
  builds (lower_rotate left k [x]) N (fun id N' => node N' id n (fun vals =>
    rotate_left (Z.of_nat n) (if left then k mod Z.of_nat n else Z.of_nat n - k mod Z.of_nat n) (vals x))%Z).
Proof.
  intros Hx Hk Hn H32. unfold lower_rotate. apply require_arity_spec; [done|]. eapply at_spec; [done|]. eapply with_width; [done|].
  cbv iota. destruct n as [|n']; [lia|]. set (n := S n') in *. pose proof (Z.mod_pos_bound k (Z.of_nat n) ltac:(lia)) as Hs.
  set (s := (k mod Z.of_nat n)%Z) in *. assert (Z.of_nat n < 2 ^ Z.of_nat n)%Z as Hpow by (apply Z.pow_gt_lin_r; lia).
  destruct (Z.eqb_spec s 0) as [Es|Es].
  { apply builds_ret. split; [done|]. intros vals Hh. pose proof (range_at N x n vals Hx Hh) as R. unfold rotate_left. rewrite Es. destruct left.
    - rewrite Z.mul_1_r, Z.sub_0_r, Z.mod_small, Z.div_small by lia. lia.
    - rewrite Z.sub_0_r, Z.sub_diag, Z.mod_mul, Z.div_1_r by lia. done. }
  eapply builds_bind; [apply (const_node_spec N n s); [done|lia|lia]|]. intros c1 N1 HP1 [H1 _].
  eapply builds_bind; [apply (const_node_spec N1 n (Z.of_nat n - s)%Z); [done|lia|lia]|]. intros c2 N2 HP2 [H2 _].
  apply builds_formed. intros HW2. assert (node N2 c1 n (fun _ => s)) as H1' by (by apply (node_mono N1); [eapply well_formed_prefix|..]).
  assert (typed N2 x n) as Hx2 by (eapply typed_mono; [|exact Hx]; by etrans).
  eapply builds_bind; [apply (bin_word N2 (if left then SymKind.ShiftLeft else SymKind.ShiftRightLogic) x c1 n);
    [right; by destruct left|done|by eapply node_typed|done]|]. intros lo N3 HP3 H3. cbv beta in H3.
  apply builds_formed. intros HW3.
  eapply builds_bind; [apply (bin_word N3 (if left then SymKind.ShiftRightLogic else SymKind.ShiftLeft) x c2 n);
    [right; by destruct left|by eapply typed_mono|eapply typed_mono; [exact HP3|by eapply node_typed]|done]|]. intros hi N4 HP4 H4. cbv beta in H4.
  apply builds_formed. intros HW4. pose proof (node_mono _ _ _ _ _ HW3 HP4 H3) as H3'.
  eapply builds_weaken; [apply (bin_word N4 SymKind.Or lo hi n); [by left|by eapply node_typed|by eapply node_typed|done]|].
  intros id N5 HP5. apply node_ext. intros vals Hh.
  assert (holds N4 vals) as G4 by (by eapply holds_mono). assert (holds N3 vals) as G3 by (by eapply holds_mono).
  assert (holds N2 vals) as G2 by (by eapply holds_mono). pose proof (range_at N2 x n vals Hx2 G2) as R.
  rewrite smt_or by (done || by eapply range_at; [eapply node_typed|]).
  rewrite (proj2 H3' vals G4), (proj2 H4 vals G4), (proj2 H1' vals G2), (proj2 H2 vals G2).
  unfold rotate_left. destruct left; cbv beta iota.
  - rewrite smt_lshr by (done || lia). change (smt_op SymKind.ShiftLeft (Z.of_nat n) (vals x) s) with (vals x * 2 ^ s mod 2 ^ Z.of_nat n)%Z.
    apply lor_parts; lia.
  - rewrite smt_lshr by (done || lia). change (smt_op SymKind.ShiftLeft (Z.of_nat n) (vals x) (Z.of_nat n - s)) with (vals x * 2 ^ (Z.of_nat n - s) mod 2 ^ Z.of_nat n)%Z.
    rewrite Z.lor_comm. replace (vals x / 2 ^ s)%Z with (vals x / 2 ^ (Z.of_nat n - (Z.of_nat n - s)))%Z by (do 2 f_equal; lia). apply lor_parts; lia.
Qed.

Lemma lower_indexed_spec N name indices a ss s f : indexed_meaning name indices ss = Some (s, f) -> args_typed N a (map sort_bits ss) ->
  builds (lower_indexed name indices a) N (fun id N' => node N' id (sort_bits s) (fun vals => f (map vals a))).
Proof.
  intros Hm Ha. apply builds_formed. intros HW. destruct indices as [|[i|] [|[j|] [|? ?]]]; try (destruct ss as [|[|n] [|? ?]]; discriminate Hm).
  - cbn [indexed_meaning lower_indexed] in *. destruct (find_op name theory) as [op|] eqn:E; [|by destruct ss]. by eapply lower_op_spec.
  - destruct ss as [|[|n] [|? ?]]; try discriminate Hm. destruct (one_vector N a n Ha) as (x & -> & Hx). clear Ha.
    cbn [indexed_meaning lower_indexed] in *. pose proof (well_formed_pos N x n HW Hx) as Hn.
    destruct (name =? "zero_extend")%string.
    { case_match eqn:E; [|done]. injection Hm as <- <-. apply (extend_node_spec N x n i true); lia || done. }
    destruct (name =? "sign_extend")%string.
    { case_match eqn:E; [|done]. injection Hm as <- <-. apply (extend_node_spec N x n i false); lia || done. }
    destruct (name =? "repeat")%string.
    { case_match eqn:E; [|done]. injection Hm as <- <-. unfold lower_repeat. apply require_arity_spec; [done|]. eapply at_spec; [done|].
      destruct (Z.eqb_spec i 0); [lia|]. cbn [sort_bits]. replace (n * Z.to_nat i) with (n + Z.to_nat (i - 1) * n) by nia.
      apply (repeat_spec x n (Z.to_nat (i - 1)) N x n (fun vals => vals x)); [done|by split|done|nia]. }
    destruct (name =? "rotate_left")%string.
    { case_match eqn:E; [|done]. injection Hm as <- <-. apply (rotate_spec N x n i true); lia || done. }
    destruct (name =? "rotate_right")%string; [|done].
    case_match eqn:E; [|done]. injection Hm as <- <-. apply (rotate_spec N x n i false); lia || done.
  - destruct ss as [|[|n] [|? ?]]; try discriminate Hm. destruct (one_vector N a n Ha) as (x & -> & Hx).
    cbn [indexed_meaning lower_indexed] in *. destruct (name =? "extract")%string; [|done]. cbn [andb] in Hm.
    case_match eqn:E; [|done]. injection Hm as <- <-. apply (extract_node_spec N x n i j); lia || done.
Qed.
