(* ===== verification/SmtTerms.v ===== *)
(** * Lowering terms

    The lowering of a term under its declarations, macros and local bindings:
    it succeeds with enough fuel, and the node it returns has the term's sort
    and, in every interpretation, the term's value. *)
From S2P Require Import Prelude Words ApInt ApIntSpec ApIntText ApIntTextSpec Lang LangSpec Dag DagSpec Bits Gates Bitblast.
From S2P Require Import BlastSem CircuitWord SmtAst SmtLower SmtMeaning SmtNodes SmtOperators.
From Stdlib Require Import Ascii.
#[local] Open Scope nat_scope.

Implicit Types N : Nodes.

(** ** Free symbols *)
Fixpoint free_in (x : string) (t : Term) : Prop :=
  match t with
  | TConstant _ => False
  | TIdent q => is_simple (identifier q) = true /\ x = id_symbol (identifier q)
  | TApp _ args => fold_right (fun t P => free_in x t \/ P) False args
  | TLet binds body => fold_right (fun b P => free_in x (snd b) \/ P) False binds \/ free_in x body /\ x ∉ map fst binds
  | TExists vars body => free_in x body /\ x ∉ map sv_var vars
  | TAnnotated t _ => free_in x t
  end.

Lemma collect_free_spec x t : forall bound free, x ∈ collect_free t bound free <-> x ∈ free \/ free_in x t /\ x ∉ bound.
Proof.
  induction t as [c|q|q args IH|binds body IHb IH|vars body IH|t attrs IH] using Term_induction; intros bound free; cbn [collect_free free_in].
  - tauto.
  - destruct (is_simple (identifier q)); cbn [andb]; [|naive_solver]. case_bool_decide as Hb; cbn [negb]; [|set_solver].
    split; [by left|]. intros [H|[[_ ->] H]]; done.
  - revert free. induction IH as [|t args Ht IH IHl]; intros free; cbn [fold_left fold_right]; [tauto|]. rewrite IHl, Ht. tauto.
  - rewrite IH, not_elem_of_app. assert (forall free, x ∈ fold_left (fun free bind => collect_free (snd bind) bound free) binds free <->
      x ∈ free \/ fold_right (fun b P => free_in x (snd b) \/ P) False binds /\ x ∉ bound) as ->; [|tauto].
    clear IH free. induction IHb as [|b binds Hb IHb IHl]; intros free; cbn [fold_left fold_right]; [tauto|]. rewrite IHl, Hb. tauto.
  - rewrite IH, not_elem_of_app. tauto.
  - apply IH.
Qed.

Lemma free_symbols_spec x t : x ∈ free_symbols t <-> free_in x t.
Proof. unfold free_symbols. rewrite collect_free_spec. set_solver. Qed.

(** ** Frames *)
Lemma frame_of_app l m : fold_left (fun m '(k, v) => <[k := v]> m) l m = list_to_map (reverse l) ∪ m :> gmap string nat.
Proof.
  revert m; induction l as [|[k v] l IH]; intros m; [by rewrite left_id_L by apply _|]. cbn [fold_left]. rewrite IH.
  rewrite reverse_cons, list_to_map_app. cbn [list_to_map]. rewrite <- assoc_L by apply _. f_equal.
  change (list_to_map [(k, v)] : gmap string nat) with (<[k := v]> (∅ : gmap string nat)). by rewrite <- insert_union_l, left_id_L by apply _.
Qed.

Lemma frame_of_map l : frame_of l = list_to_map (reverse l).
Proof. unfold frame_of. rewrite frame_of_app. apply (right_id_L ∅ (∪)). Qed.

Lemma fst_zip_le {A B} (l : list A) (k : list B) : length l = length k -> (zip l k).*1 = l.
Proof. intros L. apply fst_zip. lia. Qed.

Lemma frame_lookup names ids x id : NoDup names -> length names = length ids ->
  frame_of (zip names ids) !! x = Some id <-> exists i, names !! i = Some x /\ ids !! i = Some id.
Proof.
  intros Hnd L. rewrite frame_of_map. rewrite <- elem_of_list_to_map.
  2:{ rewrite fmap_reverse, fst_zip_le by done. by rewrite reverse_Permutation. }
  rewrite reverse_Permutation, list_elem_of_lookup. split; intros [i E]; exists i; by apply lookup_zip_Some in E || apply lookup_zip_Some.
Qed.

Lemma map_zip_lookup {A} names (vs : list A) x v : NoDup names -> length names = length vs ->
  (list_to_map (zip names vs) : gmap string A) !! x = Some v <-> exists i, names !! i = Some x /\ vs !! i = Some v.
Proof.
  intros Hnd L. rewrite <- elem_of_list_to_map by (by rewrite fst_zip_le).
  rewrite list_elem_of_lookup. split; intros [i E]; exists i; by apply lookup_zip_Some in E || apply lookup_zip_Some.
Qed.

Lemma frame_none names ids x : length names = length ids -> frame_of (zip names ids) !! x = None <-> x ∉ names.
Proof.
  intros L. rewrite frame_of_map. rewrite <- not_elem_of_list_to_map.
  by rewrite fmap_reverse, fst_zip_le, reverse_Permutation.
Qed.

Lemma map_zip_none {A} names (vs : list A) x : length names = length vs ->
  (list_to_map (zip names vs) : gmap string A) !! x = None <-> x ∉ names.
Proof. intros L. rewrite <- not_elem_of_list_to_map. by rewrite fst_zip_le. Qed.

(** ** Stages of the globals

    [D] and [F] are the code's tables; a stage is the globals after a prefix
    of the script, with the depth of its macros. [B] holds every bound name. *)
Section terms.
Context (D : gmap string SmtSort) (F : gmap string FunctionDef) (B : list string).

Definition params (def : FunctionDef) : list string := map sv_var (fd_params def).

Record hygienic (def : FunctionDef) : Prop := {
  hy_params : forall x, x ∈ params def -> x ∈ B;
  hy_binders : forall x, x ∈ binders (fd_body def) -> x ∈ B;
  hy_free : forall x, free_in x (fd_body def) -> x ∉ params def -> x ∉ B;
}.

Inductive stage : Globals -> nat -> Prop :=
  | stage_none : stage no_globals 0
  | stage_declare G n name sort G' : stage G n -> declare G name sort = Some G' -> D !! name = Some sort -> F !! name = None -> stage G' n
  | stage_define G n def G' : stage G n -> define G def = Some G' -> F !! fd_name def = Some def -> hygienic def ->
    stage G' (depth (fd_body def) + n).

Lemma stage_decl G n x s : stage G n -> g_decls G !! x = Some s -> exists sort, D !! x = Some sort /\ F !! x = None /\ sort_of sort = Some s.
Proof.
  induction 1 as [|G n name sort G' HS IH Hd HD HF|G n def G' HS IH Hd HF Hy]; [by cbn; rewrite lookup_empty|..].
  - unfold declare in Hd. destruct (fresh_name G name); [|done]. destruct (sort_of sort) as [s'|] eqn:Es; [|done]. injection Hd as <-.
    cbn. intros [[<- <-]|[_ H]]%lookup_insert_Some; eauto.
  - unfold define in Hd. destruct (fresh_name _ _); [|done]. destruct (macro_meaning G def); [|done]. injection Hd as <-. exact IH.
Qed.

Lemma stage_macro G n x mc : stage G n -> g_macros G !! x = Some mc ->
  exists def G' n', F !! x = Some def /\ stage G' n' /\ macro_meaning G' def = Some mc /\ hygienic def /\ depth (fd_body def) + n' <= n.
Proof.
  induction 1 as [|G n name sort G' HS IH Hd HD HF|G n def G' HS IH Hd HF Hy]; [by cbn; rewrite lookup_empty|..].
  - unfold declare in Hd. destruct (fresh_name G name); [|done]. destruct (sort_of sort); [|done]. injection Hd as <-. exact IH.
  - unfold define in Hd. destruct (fresh_name _ _); [|done]. destruct (macro_meaning G def) as [mc'|] eqn:Em; [|done]. injection Hd as <-.
    cbn. intros [[<- <-]|[_ H]]%lookup_insert_Some.
    + exists def, G, n. done.
    + destruct (IH H) as (def' & G1 & n1 & H1 & H2 & H3 & H4 & H5). exists def', G1, n1. do 4 (split; [done|]). lia.
Qed.

(** ** The state *)
Record symbols_ok (lw : Lowerer) N : Prop := {
  sy_node : forall x id, lw_symbols lw !! x = Some id -> exists sid sort s, D !! x = Some sort /\ sort_of sort = Some s /\
    N !! id = Some (mkNode SymKind.Symbol [] (Some (SymbolId sid)) (sort_bits s)) /\
    lw_symbol_info lw !! sid = Some (mkSymbolInfo x (Some (sort_bits s)) (bool_decide (s = SBool)));
  sy_all : forall id nd, N !! id = Some nd -> nk nd = SymKind.Symbol -> exists x, lw_symbols lw !! x = Some id;
  sy_info : forall sid info, lw_symbol_info lw !! sid = Some info -> exists id nd, lw_symbols lw !! si_name info = Some id /\
    N !! id = Some nd /\ nleaf nd = Some (SymbolId sid);
}.

Record inv (lw : Lowerer) N : Prop := {
  inv_rep : rep lw N;
  inv_symbols : symbols_ok lw N;
  inv_decls : lw_decls lw = D;
  inv_defs : lw_defs lw = F;
}.

(** What a lowering keeps. *)
Record extends (lw : Lowerer) N (lw' : Lowerer) N' : Prop := {
  ex_prefix : N `prefix_of` N';
  ex_symbols : lw_symbols lw ⊆ lw_symbols lw';
  ex_scope : lw_scope lw' = lw_scope lw;
}.

Lemma extends_refl lw N : extends lw N lw N.
Proof. by split. Qed.

Lemma extends_trans lw N lw1 N1 lw2 N2 : extends lw N lw1 N1 -> extends lw1 N1 lw2 N2 -> extends lw N lw2 N2.
Proof. intros [H1 H2 H3] [G1 G2 G3]. split; [by etrans|by etrans|congruence]. Qed.

Definition lowers {A} (m : Lower A) (lw : Lowerer) N (K : A -> Lowerer -> Nodes -> Prop) : Prop :=
  exists a lw' N', m lw = LOk (a, lw') /\ inv lw' N' /\ extends lw N lw' N' /\ K a lw' N'.

Lemma lowers_ret {A} (a : A) lw N (K : A -> Lowerer -> Nodes -> Prop) : inv lw N -> K a lw N -> lowers (mret a) lw N K.
Proof. intros HI HK. exists a, lw, N. split; [done|]. split; [done|]. split; [apply extends_refl|done]. Qed.

Lemma lowers_bind {A C} (m : Lower A) (k : A -> Lower C) lw N K1 K : lowers m lw N K1 ->
  (forall a lw1 N1, inv lw1 N1 -> extends lw N lw1 N1 -> K1 a lw1 N1 -> lowers (k a) lw1 N1 K) -> lowers (m ≫= k) lw N K.
Proof.
  intros (a & lw1 & N1 & E & HI & HX & HK) Hk. destruct (Hk a lw1 N1 HI HX HK) as (b & lw2 & N2 & E2 & HI2 & HX2 & HK2).
  exists b, lw2, N2. split; [unfold mbind, lower_bind; by rewrite E|]. split; [done|]. split; [by eapply extends_trans|done].
Qed.

Lemma lowers_weaken {A} (m : Lower A) lw N (K K' : A -> Lowerer -> Nodes -> Prop) : lowers m lw N K ->
  (forall a lw' N', inv lw' N' -> extends lw N lw' N' -> K a lw' N' -> K' a lw' N') -> lowers m lw N K'.
Proof. intros (a & lw1 & N1 & E & HI & HX & HK) H. exists a, lw1, N1. eauto 10. Qed.

Lemma lowers_look {A C} (f : Lowerer -> A) (k : A -> Lower C) lw N K : lowers (k (f lw)) lw N K -> lowers (look f ≫= k) lw N K.
Proof. done. Qed.

(** An operation on nodes. *)
Lemma lowers_builds {A} (m : Lower A) lw N K : inv lw N -> builds m N K -> lowers m lw N (fun a _ N' => K a N').
Proof.
  intros [HR [HS1 HS2 HS3] HD HF] Hm. destruct (Hm lw HR) as (a & lw' & N' & E & HR' & (T1 & T2 & T3 & T4 & T5) & [HP HG] & HK).
  exists a, lw', N'. split; [done|]. split; [|split; [split; [done|by rewrite T3|done]|done]].
  split; [done|split|congruence|congruence].
  - intros x id. rewrite T3. intros Hx. destruct (HS1 x id Hx) as (sid & sort & s & H1 & H2 & H3 & H4). exists sid, sort, s.
    rewrite T4. do 2 (split; [done|]). split; [by eapply prefix_lookup_Some|done].
  - intros id nd Hn Hk. rewrite T3. by eapply HS2; [apply HG|].
  - intros sid info. rewrite T3, T4. intros Hi. destruct (HS3 sid info Hi) as (id & nd & H1 & H2 & H3). exists id, nd. split; [done|].
    split; [by eapply prefix_lookup_Some|done].
Qed.

(** ** Values of nodes as values of terms *)
Definition sym_agree (lw : Lowerer) (vals : nat -> Z) (rho : Assignment) : Prop :=
  forall x id, lw_symbols lw !! x = Some id -> vals id = rho x.

Definition local_agree (ctx : gmap string Sort_) (scope : list (gmap string nat)) (vals : nat -> Z) (locals : Locals) : Prop :=
  forall x s id, ctx !! x = Some s -> lookup_scope x scope = Some id -> vals id = locals !!! x.

(** The node [id] is the term's. *)
Definition denotes (lw : Lowerer) N (ctx : gmap string Sort_) (id : nat) (d : Denotation) : Prop :=
  typed N id (sort_bits (fst d)) /\
  forall vals rho locals, holds N vals -> sym_agree lw vals rho -> local_agree ctx (lw_scope lw) vals locals -> vals id = snd d rho locals.

Lemma denotes_mono lw N lw' N' ctx id d : well_formed N -> extends lw N lw' N' -> denotes lw N ctx id d -> denotes lw' N' ctx id d.
Proof.
  intros HW [HP HS HC] [HT HV]. split; [by eapply typed_mono|]. intros vals rho locals Hh Hr Hl. apply HV.
  - by eapply holds_mono.
  - intros x i Hx. apply Hr. by eapply lookup_weaken.
  - by rewrite <- HC.
Qed.

Lemma inv_formed lw N : inv lw N -> well_formed N.
Proof. intros [R _ _ _]. apply R. Qed.

(** A node whose value does not depend on the assignment. *)
Lemma denotes_node lw N ctx id s f d : fst d = s -> node N id (sort_bits s) f -> (forall vals rho locals, holds N vals -> sym_agree lw vals rho ->
  local_agree ctx (lw_scope lw) vals locals -> f vals = snd d rho locals) -> denotes lw N ctx id d.
Proof. intros <- [HT HV] E. split; [done|]. intros vals rho locals Hh Hr Hl. rewrite HV by done. by apply E. Qed.

End terms.

(** ** Lowering literals and symbols

    Literals that fit their width, sorts of declarations, and the node of a
    declared symbol, made at its first use. *)
#[local] Open Scope Z_scope.


(** ** Digits *)
Lemma digits_value_bounds radix t : 2 <= radix -> forall acc v, 0 <= acc -> digits_value radix acc t = Some v ->
  acc <= v < (acc + 1) * radix ^ Z.of_nat (length t).
Proof.
  intros Hr. induction t as [|c t IH]; intros acc v Ha Hv.
  - injection Hv as <-. cbn. lia.
  - cbn [digits_value] in Hv. destruct (to_digit c radix) as [d|] eqn:Ed; [|done]. pose proof (to_digit_range c radix d ltac:(lia) Ed) as Hd.
    destruct (IH (acc * radix + d) v ltac:(nia) Hv) as [L U]. cbn [length]. rewrite Nat2Z.inj_succ, Z.pow_succ_r by lia.
    pose proof (Z.pow_pos_nonneg radix (Z.of_nat (length t)) ltac:(lia) ltac:(lia)). nia.
Qed.

Lemma radix_digits_value radix t : 2 <= radix -> forall acc v, 0 <= acc -> v < 2 ^ 64 -> digits_value radix acc t = Some v -> radix_digits radix acc t = Some v.
Proof.
  intros Hr. induction t as [|c t IH]; intros acc v Ha H64 Hv; [done|]. cbn [digits_value radix_digits] in *.
  destruct (to_digit c radix) as [d|] eqn:Ed; [|done]. cbn [mbind option_bind] in *. pose proof (to_digit_range c radix d ltac:(lia) Ed) as Hd.
  destruct (digits_value_bounds radix t Hr (acc * radix + d) v ltac:(nia) Hv) as [L U].
  rewrite (proj2 (Z.ltb_lt _ _)) by lia. apply IH; [nia|done|done].
Qed.

Lemma from_str_radix_value radix t v : 2 <= radix <= 36 -> t <> [] -> v < 2 ^ 64 -> digits_value radix 0 t = Some v -> u64_from_str_radix radix t = Some v.
Proof.
  intros Hr Ht H64 Hv. destruct t as [|c t]; [done|]. destruct (Z.eq_dec c 43) as [->|Hc].
  - cbn in Hv. unfold to_digit in Hv. cbn in Hv. by rewrite Z.ltb_irrefl in Hv.
  - transitivity (radix_digits radix 0 (c :: t)); [|by apply radix_digits_value; [lia|..]].
    unfold u64_from_str_radix. destruct c as [|p|p]; try done. do 6 (destruct p as [p|p|]; try done).
Qed.

Lemma text_length s : length (text_of s) = str_len s.
Proof. unfold text_of, str_len. rewrite length_map. induction s as [|c s IH]; cbn; [done|by rewrite <- IH]. Qed.

Lemma digits_ascii s : forall acc v, digits_value 10 acc (text_of s) = Some v -> all_chars is_ascii_digit s = true.
Proof.
  unfold text_of, all_chars. induction (String.list_ascii_of_string s) as [|c t IH]; intros acc v Hv; [done|]. cbn [map digits_value forallb] in *.
  destruct (to_digit (char_code c) 10) as [d|] eqn:Ed; [|done]. rewrite (IH _ _ Hv), andb_true_r.
  unfold to_digit in Ed. unfold is_ascii_digit. repeat case_match; try done; lia.
Qed.

Lemma checked_width_ok n what : width_ok n = true -> checked_width n what = inr (Z.to_nat n).
Proof.
  unfold width_ok, checked_width. intros [H1 H2]%andb_true_iff. apply Z.leb_le in H1, H2.
  by rewrite (proj2 (Z.eqb_neq _ _)), (proj2 (Z.ltb_ge _ _)) by (unfold MAX_WIDTH; lia).
Qed.

Lemma sort_width_ok sort s : sort_of sort = Some s -> sort_width sort = inr (sort_bits s, bool_decide (s = SBool)) /\ (0 < sort_bits s)%nat.
Proof.
  destruct sort as [[name [|[n|?] [|? ?]]] [|? ?]]; cbn; try done.
  - destruct (name =? "Bool")%string eqn:E; [|done]. intros [= <-]. apply String.eqb_eq in E as ->. split; [done|cbn; lia].
  - destruct (name =? "BitVec")%string eqn:E; [|done]. cbn [andb]. destruct (width_ok n) eqn:Ew; [|done]. intros [= <-].
    apply String.eqb_eq in E as ->. unfold sort_width. cbn. rewrite checked_width_ok by done. split; [done|]. unfold width_ok in Ew. cbn. lia.
Qed.

(** ** Literal nodes *)
Definition constant_node N (id : nat) (c : Sort_ * Z) : Prop := node N id (sort_bits (fst c)) (fun _ => snd c).

Lemma leaf_value N width v x : 0 <= v < 2 ^ 64 -> x = v mod 2 ^ Z.of_nat width -> (0 < width)%nat ->
  builds (leaf_const width v) N (fun id N' => node N' id width (fun _ => x)).
Proof. intros Hv -> Hw. eapply builds_weaken; [by apply leaf_const_spec|]. by intros id N' _ [H _]. Qed.

Lemma pow_16 n : 0 <= n -> 16 ^ n = 2 ^ (4 * n).
Proof. intros. change 16 with (2 ^ 4). by rewrite <- Z.pow_mul_r by lia. Qed.

Lemma literal_spec N radix bits s (width : nat) w v : radix = 2 ^ bits -> 1 <= bits <= 5 -> literal_meaning radix bits s = Some (SBits w, v) ->
  width = w -> exists v', u64_from_str_radix radix (text_of s) = Some v' /\
  builds (leaf_const width v') N (fun id N' => constant_node N' id (SBits w, v)).
Proof.
  intros Hr Hb Hm ->. unfold literal_meaning in Hm. destruct (width_ok (bits * Z.of_nat (str_len s))) eqn:Ew; [|done].
  destruct (digits_value radix 0 (text_of s)) as [x|] eqn:Ed; [|done]. injection Hm as <- <-. unfold width_ok in Ew.
  assert (2 <= radix <= 36) as Hr2.
  { rewrite Hr. assert (bits = 1 \/ bits = 2 \/ bits = 3 \/ bits = 4 \/ bits = 5) as Hc by lia. by destruct Hc as [->|[->|[->|[->| ->]]]]. }
  destruct (digits_value_bounds radix _ ltac:(lia) 0 x ltac:(lia) Ed) as [L U]. rewrite text_length, Hr, <- Z.pow_mul_r in U by lia.
  pose proof (Z.pow_le_mono_r 2 (bits * Z.of_nat (str_len s)) 64 ltac:(lia) ltac:(lia)). exists x. split.
  - apply from_str_radix_value; [done| |lia|done]. intros E%(f_equal length). rewrite text_length in E. cbn in E. lia.
  - apply leaf_value; [lia| |cbn [fst sort_bits]; lia]. cbn [fst snd sort_bits]. rewrite Z2Nat.id, Z.mod_small by lia. done.
Qed.

Lemma lower_constant_spec N c d : constant_meaning c = Some d -> builds (lower_constant c) N (fun id N' => constant_node N' id d).
Proof.
  destruct c as [?|?|s|s|?]; cbn; try done; intros Hm.
  all: assert (exists w v, d = (SBits w, v) /\ width_ok (Z.of_nat w) = true) as (w & v & -> & Hw)
    by (unfold literal_meaning in Hm; case_match eqn:Ew; [|done]; destruct (digits_value _ _ _); [|done]; injection Hm as <-;
        eexists _, _; split; [done|]; rewrite Z2Nat.id; [done|unfold width_ok in Ew; lia]).
  - assert (Z.of_nat (str_len s * 4) = Z.of_nat w) as E.
    { unfold literal_meaning in Hm. case_match eqn:Ew; [|done]. destruct (digits_value _ _ _); [|done]. injection Hm as <- _. unfold width_ok in Ew. lia. }
    rewrite E, checked_width_ok by done. rewrite Nat2Z.id. unfold parse_radix.
    destruct (literal_spec N 16 4 s w w v eq_refl ltac:(lia) Hm eq_refl) as (v' & -> & Hb). exact Hb.
  - assert (Z.of_nat (str_len s) = Z.of_nat w) as E.
    { unfold literal_meaning in Hm. case_match eqn:Ew; [|done]. destruct (digits_value _ _ _); [|done]. injection Hm as <- _. unfold width_ok in Ew. lia. }
    rewrite E, checked_width_ok by done. rewrite Nat2Z.id. unfold parse_radix.
    destruct (literal_spec N 2 1 s w w v eq_refl ltac:(lia) Hm eq_refl) as (v' & -> & Hb). exact Hb.
Qed.

Lemma bv_literal_spec N name n d : bv_meaning name n = Some d -> exists v,
  bv_literal name [INumeral n] = Some (v, n) /\ checked_width n "bit-vector literal" = inr (Z.to_nat n) /\
  builds (leaf_const (Z.to_nat n) v) N (fun id N' => constant_node N' id d).
Proof.
  unfold bv_meaning, bv_literal, strip_bv. destruct name as [|b [|v digits]]; try done. intros Hm.
  destruct (Ascii.eqb b "b"%char && Ascii.eqb v "v"%char) eqn:Ebv; [|done].
  destruct (str_len digits =? 0)%nat eqn:El; [done|]. destruct (width_ok n) eqn:Ew; [|done]. cbn [andb negb] in Hm.
  destruct (digits_value 10 0 (text_of digits)) as [x|] eqn:Ed; [|done]. cbn [mbind option_bind] in Hm.
  destruct (x <? 2 ^ 64) eqn:E64; [|done]. injection Hm as <-. exists x. cbn [mbind option_bind]. rewrite El. cbn [orb].
  rewrite (digits_ascii digits 0 x Ed). cbn [negb].
  destruct (digits_value_bounds 10 _ ltac:(lia) 0 x ltac:(lia) Ed) as [L U].
  assert (text_of digits <> []) as Hne by (intros E%(f_equal length); rewrite text_length in E; by rewrite E in El).
  rewrite (from_str_radix_value 10 _ x) by (done || lia).
  split; [done|]. split; [by apply checked_width_ok|]. unfold width_ok in Ew.
  apply leaf_value; [lia|cbn [fst snd sort_bits]; by rewrite Z2Nat.id by lia|cbn [fst sort_bits]; lia].
Qed.

(** ** Symbols *)
Section symbols.
Context (D : gmap string SmtSort) (F : gmap string FunctionDef).

Definition symbol_rec (sid width : nat) : NodeRec := mkNode SymKind.Symbol [] (Some (SymbolId sid)) width.

(** The state after a symbol is made. *)
Definition with_symbol (lw : Lowerer) (name : string) (id : nat) (s : Sort_) (g : Graph) : Lowerer :=
  set_symbols (<[name := id]> (lw_symbols lw)) (lw_symbol_info lw ++ [mkSymbolInfo name (Some (sort_bits s)) (bool_decide (s = SBool))])
    (set_nodes g (lw_width lw ++ [Some (sort_bits s)]) lw).

Lemma symbols_snoc lw N name sort s g : symbols_ok D lw N -> D !! name = Some sort -> sort_of sort = Some s -> lw_symbols lw !! name = None ->
  symbols_ok D (with_symbol lw name (length N) s g) (N ++ [symbol_rec (length (lw_symbol_info lw)) (sort_bits s)]).
Proof.
  intros [H1 H2 H3] HD Hs Hn. split; cbn [with_symbol set_symbols set_nodes lw_symbols lw_symbol_info].
  - intros x id [[<- <-]|[Hx Hi]]%lookup_insert_Some.
    + exists (length (lw_symbol_info lw)), sort, s. do 2 (split; [done|]). split; by apply list_lookup_middle.
    + destruct (H1 x id Hi) as (sid & sort' & s' & G1 & G2 & G3 & G4). exists sid, sort', s'. do 2 (split; [done|]).
      split; by apply lookup_app_l_Some.
  - intros id nd [E|[Hl E]]%lookup_app_Some Hk.
    + destruct (H2 id nd E Hk) as [x Hx]. exists x. rewrite lookup_insert_ne; [done|]. intros <-. by rewrite Hn in Hx.
    + apply list_lookup_singleton_Some in E as [E _]. exists name. rewrite lookup_insert_eq. f_equal. lia.
  - intros sid info [E|[Hl E]]%lookup_app_Some.
    + destruct (H3 sid info E) as (id & nd & G1 & G2 & G3). exists id, nd. rewrite lookup_insert_ne by (intros ->; by rewrite Hn in G1).
      split; [done|]. split; [by apply lookup_app_l_Some|done].
    + apply list_lookup_singleton_Some in E as [E <-]. exists (length N), (symbol_rec (length (lw_symbol_info lw)) (sort_bits s)).
      cbn [si_name]. rewrite lookup_insert_eq. split; [done|]. split; [by apply list_lookup_middle|]. cbn. do 2 f_equal. lia.
Qed.

Lemma symbol_node_spec lw N ctx name sort s : inv D F lw N -> D !! name = Some sort -> sort_of sort = Some s ->
  lowers D F (symbol_node name) lw N (fun id lw' N' => denotes lw' N' ctx id (s, fun rho _ => rho name)).
Proof.
  intros HI HD Hs. pose proof (sort_width_ok sort s Hs) as [Hw Hpos]. unfold symbol_node. apply (lowers_look D F).
  destruct (lw_symbols lw !! name) as [id|] eqn:En.
  - apply lowers_ret; [done|]. destruct (inv_symbols _ _ _ _ HI) as [H1 _ _].
    destruct (H1 name id En) as (sid & sort' & s' & G1 & G2 & G3 & G4). rewrite HD in G1. injection G1 as <-. rewrite Hs in G2. injection G2 as <-.
    split; [by exists (symbol_rec sid (sort_bits s))|]. intros vals rho locals Hh Hr Hl. by apply Hr.
  - destruct HI as [R HS EDs EFs]. pose proof R as HR0. apply (lowers_look D F). rewrite EDs, HD.
    set (nd := symbol_rec (length (lw_symbol_info lw)) (sort_bits s)).
    assert (form N nd) as Hf by (by apply form_symbol).
    destruct (leaf_rep lw N nd (SymbolId (length (lw_symbol_info lw))) R Hf eq_refl eq_refl) as (g & E & R').
    exists (length N), (with_symbol lw name (length N) s g), (N ++ [nd]). split.
    { rewrite Hw. cbn [of_result]. rewrite (lower_run _ _ lw (sort_bits s, bool_decide (s = SBool)) lw) by done.
      rewrite (lower_run _ _ lw (lw_symbol_info lw) lw) by done. rewrite (lower_run _ _ lw (lw_graph lw) lw) by done.
      rewrite (surjective_pairing (add_node _ _)). change (nk nd) with SymKind.Symbol in E.
      rewrite (lower_run _ _ lw g lw) by (unfold unwrap; by rewrite E). rewrite <- (rep_len lw N HR0). done. }
    split; [|split].
    + split; [|by apply (symbols_snoc lw N name sort)|done|done]. destruct R' as [A1 A2 A3 A4]. by split.
    + split; [by apply prefix_app_r| |done]. by apply insert_subseteq.
    + split; [exists nd; split; [by apply list_lookup_middle|done]|]. intros vals rho locals Hh Hr Hl. apply Hr. cbn. apply lookup_insert_eq.
Qed.
End symbols.
