(* ===== verification/SmtTermSpec.v ===== *)
(** * The term theorem

    A well-sorted term lowers, and its node denotes the term: the frames of
    the code are the local environments of the meaning, and a macro's body
    under its arguments is the macro's value. *)
From S2P Require Import Prelude Words ApInt ApIntSpec Lang LangSpec Dag DagSpec Bits Gates Bitblast BlastSem CircuitWord SmtAst.
From S2P Require Import SmtLower SmtMeaning SmtNodes SmtOperators SmtTerms.
#[local] Open Scope nat_scope.

Implicit Types N : Nodes.

(** ** Binding a frame *)
Lemma frame_agree ctx names ids ss sc vals locals : NoDup names -> length names = length ids -> length names = length ss ->
  local_agree ctx sc vals locals ->
  local_agree (list_to_map (zip names ss) ∪ ctx) (frame_of (zip names ids) :: sc) vals (list_to_map (zip names (map vals ids)) ∪ locals).
Proof.
  intros Hnd L1 L2 Hl x s id Hx Hid. assert (length names = length (map vals ids)) as L3 by (by rewrite length_map).
  change (lookup_scope x (frame_of (zip names ids) :: sc)) with
    (match frame_of (zip names ids) !! x with Some id => Some id | None => lookup_scope x sc end) in Hid.
  rewrite lookup_total_alt. destruct (frame_of (zip names ids) !! x) as [id'|] eqn:Ef.
  - injection Hid as ->. apply frame_lookup in Ef as (i & En & Ei); [|done|done].
    rewrite (lookup_union_Some_l _ _ x (vals id)); [done|]. apply map_zip_lookup; [done|done|]. exists i. split; [done|].
    change (map vals ids) with (vals <$> ids). by rewrite list_lookup_fmap, Ei.
  - apply frame_none in Ef; [|done]. rewrite lookup_union_r in Hx by (by apply map_zip_none). rewrite lookup_union_r by (by apply map_zip_none).
    rewrite (Hl x s id) by done. by rewrite lookup_total_alt.
Qed.

(** Macro parameters: nothing else is in scope. *)
Lemma empty_agree sc vals locals : local_agree ∅ sc vals locals.
Proof. intros x s id Hx. by rewrite lookup_empty in Hx. Qed.

Lemma params_agree names ids ss sc vals : NoDup names -> length names = length ids -> length names = length ss ->
  local_agree (list_to_map (zip names ss)) (frame_of (zip names ids) :: sc) vals (list_to_map (zip names (map vals ids))).
Proof.
  intros. rewrite <- (right_id_L ∅ (∪) (list_to_map (zip names ss))), <- (right_id_L ∅ (∪) (list_to_map (zip names (map vals ids)))).
  apply frame_agree; [done..|apply empty_agree].
Qed.

(** ** Subterms *)
Lemma fold_or {X} (P : X -> Prop) l : fold_right (fun x Q => P x \/ Q) False l <-> exists x, x ∈ l /\ P x.
Proof.
  induction l as [|x l IH]; cbn; [split; [done|intros (x & Hx & _); by apply not_elem_of_nil in Hx]|]. rewrite IH. set_solver.
Qed.

Lemma fold_max {X} (f : X -> nat) l x : x ∈ l -> f x <= fold_right (fun x n => Nat.max (f x) n) 0 l.
Proof. induction 1 as [x l|x y l _ IH]; cbn; lia. Qed.

Lemma concat_map_elem {X} (f : X -> list string) l x b : x ∈ l -> b ∈ f x -> b ∈ concat (map f l).
Proof. intros Hx Hb. apply list_elem_of_In, in_concat. exists (f x). split; [apply in_map|]; by apply list_elem_of_In. Qed.

Lemma macro_parts G def mc : macro_meaning G def = Some mc -> exists f,
  mapM (fun p => sort_of (sv_sort p)) (fd_params def) = Some (mc_params mc) /\ NoDup (params def) /\
  meaning G (list_to_map (zip (params def) (mc_params mc))) (fd_body def) = Some (mc_sort mc, f) /\
  mc_value mc = fun rho vs => f rho (list_to_map (zip (params def) vs)).
Proof.
  unfold macro_meaning. destruct (mapM _ _) as [ps|] eqn:Ep; [|done]. destruct (sort_of (fd_return_sort def)) as [ret|]; [|done].
  cbn [mbind option_bind]. case_bool_decide as Hnd; [|done]. fold (params def) in *.
  destruct (meaning G _ (fd_body def)) as [[s f]|] eqn:Em; [|done]. cbn [mbind option_bind]. case_bool_decide; [|done]. intros [= <-].
  exists f. done.
Qed.

Section spec.
Context (D : gmap string SmtSort) (F : gmap string FunctionDef) (B : list string).
Context (HFT : forall x, find_op x theory <> None -> F !! x = None).

Notation inv := (inv D F).
Notation lowers := (lowers D F).

(** ** Scopes *)
Record scoped (lw : Lowerer) N (ctx : gmap string Sort_) : Prop := {
  sc_typed : forall x s, ctx !! x = Some s -> exists id, lookup_scope x (lw_scope lw) = Some id /\ typed N id (sort_bits s);
  sc_bound : forall x id, lookup_scope x (lw_scope lw) = Some id -> x ∈ B;
}.

Definition clear (lw : Lowerer) (ctx : gmap string Sort_) (t : Term) : Prop :=
  forall x, free_in x t -> ctx !! x = None -> lookup_scope x (lw_scope lw) = None.

Lemma scoped_mono lw N lw' N' ctx : extends lw N lw' N' -> scoped lw N ctx -> scoped lw' N' ctx.
Proof.
  intros [HP _ HC] [H1 H2]. split; rewrite HC; [|done]. intros x s Hx. destruct (H1 x s Hx) as (id & E & T). exists id.
  split; [done|by eapply typed_mono].
Qed.

Lemma clear_mono lw N lw' N' ctx t : extends lw N lw' N' -> clear lw ctx t -> clear lw' ctx t.
Proof. intros [_ _ HC] H. unfold clear. by rewrite HC. Qed.

Lemma scoped_empty lw N ctx : scoped lw N ctx -> scoped lw N ∅.
Proof. intros [_ H]. split; [intros x s Hx; by rewrite lookup_empty in Hx|done]. Qed.

Lemma frame_scoped lw N ctx names ids ss : NoDup names -> Forall2 (fun id s => typed N id (sort_bits s)) ids ss -> length names = length ids ->
  (forall x, x ∈ names -> x ∈ B) -> scoped lw N ctx ->
  scoped (set_scope (frame_of (zip names ids) :: lw_scope lw) lw) N (list_to_map (zip names ss) ∪ ctx).
Proof.
  intros Hnd HF2 L1 HB [H1 H2]. pose proof (Forall2_length _ _ _ HF2) as L2. split; cbn [set_scope lw_scope].
  - intros x s. change (lookup_scope x (frame_of (zip names ids) :: lw_scope lw)) with
      (match frame_of (zip names ids) !! x with Some id => Some id | None => lookup_scope x (lw_scope lw) end).
    intros [Hx|[Hn Hx]]%lookup_union_Some_raw.
    + apply map_zip_lookup in Hx as (i & En & Es); [|done|lia]. destruct (Forall2_lookup_r _ _ _ _ _ HF2 Es) as (id & Ei & HT).
      exists id. rewrite (proj2 (frame_lookup names ids x id Hnd L1)) by eauto. done.
    + apply map_zip_none in Hn; [|lia]. rewrite (proj2 (frame_none names ids x L1) Hn). by apply H1.
  - intros x id. change (lookup_scope x (frame_of (zip names ids) :: lw_scope lw)) with
      (match frame_of (zip names ids) !! x with Some id => Some id | None => lookup_scope x (lw_scope lw) end).
    destruct (frame_of (zip names ids) !! x) as [id'|] eqn:Ef; [|apply H2]. intros _. apply HB.
    apply frame_lookup in Ef as (i & En & _); [|done|done]. by eapply list_elem_of_lookup_2.
Qed.

Lemma frame_clear lw ctx names ids ss body : length names = length ids -> length names = length (ss : list Sort_) ->
  (forall x, free_in x body -> x ∉ names -> ctx !! x = None -> lookup_scope x (lw_scope lw) = None) ->
  clear (set_scope (frame_of (zip names ids) :: lw_scope lw) lw) (list_to_map (zip names ss) ∪ ctx) body.
Proof.
  intros L1 L2 H x Hx [Hn Hc]%lookup_union_None. apply map_zip_none in Hn; [|done]. cbn [set_scope lw_scope].
  change (lookup_scope x (frame_of (zip names ids) :: lw_scope lw)) with
    (match frame_of (zip names ids) !! x with Some id => Some id | None => lookup_scope x (lw_scope lw) end).
  rewrite (proj2 (frame_none names ids x L1) Hn). by apply H.
Qed.

Lemma inv_scope sc lw N : inv lw N -> inv (set_scope sc lw) N.
Proof. intros [[R1 R2 R3 R4] [S1 S2 S3] HD HF]. by split. Qed.

Lemma in_scope_spec {A} frame (m : Lower A) lw N K : inv lw N -> lowers m (set_scope (frame :: lw_scope lw) lw) N K ->
  lowers (in_scope frame m) lw N (fun a lw' N' => K a (set_scope (frame :: lw_scope lw) lw') N').
Proof.
  intros HI (a & lw1 & N1 & E & HI1 & [P1 P2 P3] & HK). exists a, (set_scope (tail (lw_scope lw1)) lw1), N1. cbn [set_scope lw_scope] in P3.
  split; [|split; [by apply inv_scope|split]].
  - unfold in_scope. rewrite (lower_run _ _ lw (lw_scope lw) lw) by done.
    rewrite (lower_run _ _ lw tt (set_scope (frame :: lw_scope lw) lw)) by done. by rewrite (lower_run _ _ _ a lw1) by done.
  - split; [done|done|]. cbn [set_scope lw_scope]. by rewrite P3.
  - replace (set_scope (frame :: lw_scope lw) (set_scope (tail (lw_scope lw1)) lw1)) with lw1; [done|].
    rewrite <- P3. by destruct lw1.
Qed.

(** ** Lists of terms *)
Notation all_denote lw N ctx := (Forall2 (fun id d => denotes lw N ctx id d)).

Lemma all_denote_mono lw N lw' N' ctx ids ds : well_formed N -> extends lw N lw' N' -> all_denote lw N ctx ids ds -> all_denote lw' N' ctx ids ds.
Proof. intros HW HX H. eapply Forall2_impl; [exact H|]. intros id d. by apply denotes_mono. Qed.

Lemma lower_all {X} (f : X -> Lower nat) ctx xs ds lw N :
  Forall2 (fun x d => forall lw1 N1, inv lw1 N1 -> extends lw N lw1 N1 -> lowers (f x) lw1 N1 (fun id lw' N' => denotes lw' N' ctx id d)) xs ds ->
  forall lw1 N1, inv lw1 N1 -> extends lw N lw1 N1 -> lowers (mapM f xs) lw1 N1 (fun ids lw' N' => all_denote lw' N' ctx ids ds).
Proof.
  induction 1 as [|x d xs ds Hx _ IH]; intros lw1 N1 HI HX; [apply lowers_ret; [done|constructor]|]. cbn [mapM].
  eapply lowers_bind; [by apply Hx|]. intros id lw2 N2 HI2 HX2 Hd. cbv beta in Hd.
  eapply lowers_bind; [apply IH; [done|by eapply extends_trans]|]. intros ids lw3 N3 HI3 HX3 Hds. cbv beta in Hds.
  apply lowers_ret; [done|]. constructor; [|done]. eapply denotes_mono; [|exact HX3|exact Hd]. by eapply inv_formed.
Qed.

Lemma all_typed lw N ctx ids ds : all_denote lw N ctx ids ds -> Forall2 (fun id s => typed N id (sort_bits s)) ids (map fst ds).
Proof. intros H. apply Forall2_fmap_r. eapply Forall2_impl; [exact H|]. by intros id d [HT _]. Qed.

Lemma all_values lw N ctx ids ds vals rho locals : all_denote lw N ctx ids ds -> holds N vals -> sym_agree lw vals rho ->
  local_agree ctx (lw_scope lw) vals locals -> map vals ids = map (fun d : Denotation => snd d rho locals) ds.
Proof. intros H Hh Hr Hl. induction H as [|id d ids ds [_ Hd] _ IH]; [done|]. cbn [map]. f_equal; [by apply Hd|done]. Qed.

Lemma sorts_typed N ids ss : Forall2 (fun id s => typed N id (sort_bits s)) ids ss -> args_typed N ids (map sort_bits ss).
Proof. intros H. by apply Forall2_fmap_r. Qed.

(** ** Terms *)
Definition term_lowers (fuel : nat) : Prop := forall G n ctx t d lw N, stage D F B G n -> meaning G ctx t = Some d ->
  inv lw N -> scoped lw N ctx -> clear lw ctx t -> binders t ⊆ B -> depth t + n <= fuel ->
  lowers (lower_term fuel t) lw N (fun id lw' N' => denotes lw' N' ctx id d).

Lemma constant_lowers m lw N ctx c : inv lw N -> builds m N (fun id N' => constant_node N' id c) ->
  lowers m lw N (fun id lw' N' => denotes lw' N' ctx id (constant_denotation c)).
Proof.
  intros HI Hb. eapply lowers_weaken; [by eapply lowers_builds|]. intros id lw' N' _ _ Hn. cbv beta in Hn.
  by eapply (denotes_node _ _ _ _ (fst c)).
Qed.

(** A macro's body in a scope that holds its arguments. *)
Lemma macro_body_lowers fuel G n def mc f lw N : term_lowers fuel -> stage D F B G n -> hygienic B def -> depth (fd_body def) + n <= fuel ->
  length (params def) = length (mc_params mc) ->
  meaning G (list_to_map (zip (params def) (mc_params mc))) (fd_body def) = Some (mc_sort mc, f) ->
  inv lw N -> scoped lw N (list_to_map (zip (params def) (mc_params mc))) ->
  lowers (lower_term fuel (fd_body def)) lw N (fun id lw' N' => denotes lw' N' (list_to_map (zip (params def) (mc_params mc))) id (mc_sort mc, f)).
Proof.
  intros IH HS [Hy1 Hy2 Hy3] Hd L Hm HI HSc. eapply IH; [done|done|done|done| |exact Hy2|done].
  intros x Hx Hn. apply map_zip_none in Hn; [|done]. destruct (lookup_scope x (lw_scope lw)) as [id|] eqn:E; [|done].
  destruct (Hy3 x Hx Hn). by eapply (sc_bound _ _ _ HSc).
Qed.

Lemma params_length G def mc : macro_meaning G def = Some mc -> length (params def) = length (mc_params mc).
Proof. intros Hm. destruct (macro_parts G def mc Hm) as (f & Hp & _). apply length_mapM in Hp. unfold params. by rewrite length_map. Qed.

Lemma macro_app_lowers fuel G n def mc lw N ctx ids ds : term_lowers fuel -> stage D F B G n -> macro_meaning G def = Some mc -> hygienic B def ->
  depth (fd_body def) + n <= fuel -> inv lw N -> scoped lw N ctx -> all_denote lw N ctx ids ds -> map fst ds = mc_params mc ->
  lowers (in_scope (frame_of (zip (params def) ids)) (lower_term fuel (fd_body def))) lw N
    (fun id lw' N' => denotes lw' N' ctx id (mc_sort mc, fun rho locals => mc_value mc rho (map (fun d : Denotation => snd d rho locals) ds))).
Proof.
  intros IH HS Hm Hy Hd HI HSc Hids Es. destruct (macro_parts G def mc Hm) as (f & Hp & Hnd & Hb & Ev). pose proof (params_length G def mc Hm) as L.
  pose proof (all_typed _ _ _ _ _ Hids) as HT. rewrite Es in HT. pose proof (Forall2_length _ _ _ HT) as L'.
  assert (length (params def) = length ids) as Li by lia.
  eapply lowers_weaken; [apply in_scope_spec; [done|]; apply (macro_body_lowers fuel G n def mc f); [done|done|done|done|done|done|by apply inv_scope|]|].
  { rewrite <- (right_id_L ∅ (∪) (list_to_map _)). apply frame_scoped; [done|done|done|apply Hy|by eapply scoped_empty]. }
  intros id lw' N' HI' HX [HT' HV]. split; [done|]. intros vals rho locals Hh Hr Hl. cbn [snd]. rewrite Ev.
  rewrite <- (all_values lw N ctx ids ds vals rho locals Hids).
  - apply (HV vals rho); [done|done|]. cbn [set_scope lw_scope]. by apply params_agree.
  - eapply holds_mono; [by eapply inv_formed|apply HX|done].
  - intros x i Hx. apply Hr. eapply lookup_weaken; [done|apply HX].
  - rewrite <- (ex_scope _ _ _ _ HX). done.
Qed.

Lemma ident_lowers fuel G n ctx q d lw N : term_lowers fuel -> stage D F B G n -> ident_meaning G ctx (identifier q) = Some d ->
  inv lw N -> scoped lw N ctx -> clear lw ctx (TIdent q) -> n <= fuel ->
  lowers (lower_ident (lower_term fuel) q) lw N (fun id lw' N' => denotes lw' N' ctx id d).
Proof.
  intros IH HS Hm HI HSc Hcl Hn. unfold lower_ident, ident_meaning in *. set (i := identifier q) in *. unfold clear in Hcl. cbn [free_in] in Hcl. fold i in Hcl.
  destruct (id_indices i) as [|[w|?] [|? ?]] eqn:Ei; try done.
  - assert (is_simple i = true) as Hi by (unfold is_simple; by rewrite Ei). rewrite Hi in *. apply lowers_look.
    destruct (ctx !! id_symbol i) as [s|] eqn:Ec.
    { destruct (sc_typed _ _ _ HSc _ _ Ec) as (id & El & HT). rewrite El. injection Hm as <-. apply lowers_ret; [done|]. split; [done|].
      intros vals rho locals Hh Hr Hl. by eapply Hl. }
    rewrite (Hcl (id_symbol i)) by done.
    destruct (id_symbol i =? "true")%string.
    { injection Hm as <-. apply (constant_lowers _ lw N ctx (SBool, 1%Z)); [done|]. apply leaf_value; [lia|done|cbn; lia]. }
    destruct (id_symbol i =? "false")%string.
    { injection Hm as <-. apply (constant_lowers _ lw N ctx (SBool, 0%Z)); [done|]. apply leaf_value; [lia|done|cbn; lia]. }
    apply lowers_look. rewrite (inv_defs _ _ _ _ HI). destruct (g_macros G !! id_symbol i) as [mc|] eqn:Eg.
    + destruct (stage_macro _ _ _ _ _ _ _ HS Eg) as (def & G' & n' & -> & HS' & Hmc & Hy & Hd).
      destruct (mc_params mc) as [|] eqn:Ep; [|done]. injection Hm as <-.
      destruct (macro_parts _ _ _ Hmc) as (f & _ & _ & Hb & Ev). pose proof (params_length _ _ _ Hmc) as L.
      assert (length (fd_params def) =? 0 = true) as ->.
      { rewrite Ep in L. unfold params in L. rewrite length_map in L. by rewrite L. }
      assert (params def = []) as Epar by (rewrite Ep in L; by destruct (params def)).
      eapply lowers_weaken; [apply (macro_body_lowers fuel G' n' def mc f); [done|done|done|lia|done|done|done|]|].
      { rewrite Epar. by eapply scoped_empty. }
      intros id lw' N' HI' HX [HT' HV]. split; [done|]. intros vals rho locals Hh Hr Hl. cbn [snd]. rewrite Ev, Epar.
      apply (HV vals rho); [done|done|]. rewrite Epar. apply empty_agree.
    + destruct (g_decls G !! id_symbol i) as [s|] eqn:Eg'; [|done]. injection Hm as <-.
      destruct (stage_decl _ _ _ _ _ _ _ HS Eg') as (sort & HD & -> & Hs). by eapply symbol_node_spec.
  - destruct (bv_meaning (id_symbol i) w) as [c|] eqn:Eb; [|done]. injection Hm as <-.
    assert (is_simple i = false) as -> by (unfold is_simple; by rewrite Ei).
    destruct (bv_literal_spec N _ _ _ Eb) as (v & -> & -> & Hb). by apply constant_lowers.
Qed.

(** The arguments of an application and the bindings of a [let]. *)
Lemma terms_lower {X} (g : X -> Term) fuel G n ctx xs ds lw N : term_lowers fuel -> stage D F B G n ->
  mapM (fun x => meaning G ctx (g x)) xs = Some ds -> inv lw N -> scoped lw N ctx ->
  (forall x, x ∈ xs -> clear lw ctx (g x) /\ binders (g x) ⊆ B /\ depth (g x) + n <= fuel) ->
  lowers (mapM (fun x => lower_term fuel (g x)) xs) lw N (fun ids lw' N' => all_denote lw' N' ctx ids ds).
Proof.
  intros IH HS Hm HI HSc Hx. eapply lower_all; [|done|apply extends_refl]. apply mapM_Some in Hm.
  induction Hm as [|x d xs ds Hd _ IHl]; constructor.
  - intros lw1 N1 HI1 HX1. destruct (Hx x) as (H1 & H2 & H3); [constructor|].
    eapply IH; [done|done|done|by eapply scoped_mono|by eapply clear_mono|done|done].
  - apply IHl. intros y Hy. apply Hx. by constructor.
Qed.

Lemma app_lowers fuel G n ctx q args d lw N : term_lowers fuel -> stage D F B G n -> meaning G ctx (TApp q args) = Some d ->
  inv lw N -> scoped lw N ctx -> clear lw ctx (TApp q args) -> binders (TApp q args) ⊆ B -> depth (TApp q args) + n <= S fuel ->
  lowers (lower_app (lower_term fuel) q args) lw N (fun id lw' N' => denotes lw' N' ctx id d).
Proof.
  intros IH HS Hm HI HSc Hcl HB Hd. cbn [meaning] in Hm. destruct (mapM (meaning G ctx) args) as [ds|] eqn:Eds; [|done]. cbn [mbind option_bind] in Hm.
  cbn [depth] in Hd. assert (lowers (mapM (lower_term fuel) args) lw N (fun ids lw' N' => all_denote lw' N' ctx ids ds)) as Hargs.
  { apply (terms_lower (fun t => t) fuel G n); [done..|]. intros t Ht. split; [|split].
    - intros x Hx. apply Hcl. cbn [free_in]. apply fold_or. eauto.
    - intros b Hb. apply HB. cbn [binders]. by eapply concat_map_elem.
    - pose proof (fold_max depth args t Ht). lia. }
  unfold lower_app. apply lowers_look. rewrite (inv_defs _ _ _ _ HI). unfold app_meaning in Hm. set (i := identifier q) in *.
  destruct (if is_simple i then g_macros G !! id_symbol i else None) as [mc|] eqn:Emc.
  - destruct (is_simple i); [|done]. destruct (stage_macro _ _ _ _ _ _ _ HS Emc) as (def & G' & n' & -> & HS' & Hmc & Hy & Hdd).
    case_bool_decide as Es; [|done]. injection Hm as <-. eapply lowers_bind with (K1 := fun _ lw1 N1 => lw1 = lw /\ N1 = N).
    { assert (length args = length (fd_params def)) as Ha.
      { apply (f_equal length) in Es. rewrite length_map in Es. pose proof (params_length _ _ _ Hmc) as L. unfold params in L. rewrite length_map in L.
        apply length_mapM in Eds. lia. }
      unfold require_arity. rewrite Ha, Nat.eqb_refl. by apply lowers_ret. }
    intros _ lw0 N0 _ _ [-> ->]. eapply lowers_bind; [exact Hargs|]. intros ids lw1 N1 HI1 HX1 Hids. cbv beta in Hids.
    eapply macro_app_lowers; [done|done|done|done|lia|done|by eapply scoped_mono|done|done].
  - assert ((if is_simple i then F !! id_symbol i else None) = None) as ->.
    { destruct (is_simple i) eqn:Ei; [|done]. apply HFT. intros Ef. unfold is_simple in Ei. destruct (id_indices i) eqn:Eix; [|done].
      cbn [indexed_meaning] in Hm. rewrite Ef in Hm. by destruct (map fst ds). }
    destruct (indexed_meaning (id_symbol i) (id_indices i) (map fst ds)) as [[s f]|] eqn:Ei; [|done]. injection Hm as <-.
    eapply lowers_bind; [exact Hargs|]. intros ids lw1 N1 HI1 HX1 Hids. cbv beta in Hids.
    eapply lowers_weaken; [eapply lowers_builds; [done|]; eapply lower_indexed_spec; [exact Ei|]; by eapply sorts_typed, all_typed|].
    intros id lw2 N2 HI2 HX2 Hn. cbv beta in Hn. eapply (denotes_node _ _ _ _ s); [done|exact Hn|]. intros vals rho locals Hh Hr Hl. cbn [snd]. f_equal.
    eapply (all_values lw2 N2); [|done..]. eapply all_denote_mono; [|done|done]. by eapply inv_formed.
Qed.

Lemma let_lowers fuel G n ctx binds body d lw N : term_lowers fuel -> stage D F B G n -> meaning G ctx (TLet binds body) = Some d ->
  inv lw N -> scoped lw N ctx -> clear lw ctx (TLet binds body) -> binders (TLet binds body) ⊆ B -> depth (TLet binds body) + n <= S fuel ->
  lowers (lower_term (S fuel) (TLet binds body)) lw N (fun id lw' N' => denotes lw' N' ctx id d).
Proof.
  intros IH HS Hm HI HSc Hcl HB Hd. cbn [meaning] in Hm. destruct (mapM _ binds) as [ds|] eqn:Eds; [|done]. cbn [mbind option_bind] in Hm.
  case_bool_decide as Hnd; [|done]. destruct (meaning G _ body) as [[s f]|] eqn:Eb; [|done]. injection Hm as <-. cbn [depth] in Hd.
  cbn [binders] in HB. cbn [lower_term]. eapply lowers_bind.
  { apply (terms_lower snd fuel G n); [done..|]. intros b Hb. split; [|split].
    - intros x Hx. apply Hcl. cbn [free_in]. left. apply (fold_or (fun b => free_in x (snd b))). eauto.
    - intros x Hx. apply HB, elem_of_app. right. apply elem_of_app. left. by eapply (concat_map_elem (fun b => binders (snd b))).
    - pose proof (fold_max (fun b => depth (snd b)) binds b Hb). cbv beta in *. lia. }
  intros ids lw1 N1 HI1 HX1 Hids. cbv beta in Hids. pose proof (all_typed _ _ _ _ _ Hids) as HT. pose proof (Forall2_length _ _ _ Hids) as L.
  assert (length (map fst binds) = length ids) as Ln by (rewrite length_map; apply length_mapM in Eds; lia).
  assert (length (map fst binds) = length (map fst ds)) as Ls by (rewrite (length_map fst ds); lia).
  eapply lowers_weaken; [apply in_scope_spec; [done|]; eapply IH; [done|exact Eb|by apply inv_scope| | | |]|].
  - apply frame_scoped; [done|done|done| |by eapply scoped_mono]. intros x Hx. apply HB, elem_of_app. by left.
  - apply frame_clear; [done|done|]. intros x Hx Hn Hc. rewrite (ex_scope _ _ _ _ HX1). apply Hcl; [|done]. cbn [free_in]. by right.
  - intros x Hx. apply HB, elem_of_app. right. apply elem_of_app. by right.
  - lia.
  - intros id lw' N' HI' HX [HT' HV]. split; [done|]. intros vals rho locals Hh Hr Hl. cbn [snd].
    assert (map vals ids = map (fun d : Denotation => snd d rho locals) ds) as <-.
    { eapply (all_values lw' N'); [|done..]. eapply all_denote_mono; [|exact HX|exact Hids]. by eapply inv_formed. }
    apply (HV vals rho); [done|done|]. cbn [set_scope lw_scope]. apply frame_agree; [done..|].
    rewrite <- (ex_scope _ _ _ _ HX). done.
Qed.

Theorem lower_term_spec fuel : term_lowers fuel.
Proof.
  induction fuel as [|fuel IH]; intros G n ctx t d lw N HS Hm HI HSc Hcl HB Hd; [destruct t; cbn in Hd; lia|].
  destruct t as [c|q|q args|binds body|vars body|t attrs].
  - cbn [meaning lower_term] in *. destruct (constant_meaning c) as [x|] eqn:E; [|done]. injection Hm as <-.
    apply constant_lowers; [done|]. by apply lower_constant_spec.
  - cbn [meaning lower_term depth] in *. eapply ident_lowers; [done|done|done|done|done|done|lia].
  - by eapply app_lowers.
  - by eapply let_lowers.
  - done.
  - cbn [lower_term]. eapply IH; [done|exact Hm|done|done|exact Hcl|exact HB|cbn [depth] in Hd; lia].
Qed.
End spec.

(** ** Lowering scripts

    The tables of the lowering follow the globals of the meaning command by
    command, and a well-sorted script without captures lowers to the
    conjunction of its assertions. *)
(** ** Stages under larger tables *)
Lemma declare_inv G name sort G' : declare G name sort = Some G' -> exists s, fresh_name G name = true /\ sort_of sort = Some s /\
  G' = mkGlobals (<[name := s]> (g_decls G)) (g_macros G).
Proof.
  unfold declare. destruct (fresh_name G name); [|done]. destruct (sort_of sort) as [s|]; [|done]. intros [= <-]. by exists s.
Qed.

Lemma define_inv G def G' : define G def = Some G' -> exists mc, fresh_name G (fd_name def) = true /\ macro_meaning G def = Some mc /\
  G' = mkGlobals (g_decls G) (<[fd_name def := mc]> (g_macros G)).
Proof.
  unfold define. destruct (fresh_name _ _); [|done]. destruct (macro_meaning G def) as [mc|]; [|done]. intros [= <-]. by exists mc.
Qed.

Lemma fresh_inv G name : fresh_name G name = true -> g_decls G !! name = None /\ g_macros G !! name = None /\ find_op name theory = None.
Proof. unfold fresh_name. intros [[H1 H2]%andb_true_iff H3]%andb_true_iff. apply bool_decide_eq_true in H1, H2, H3. done. Qed.

Lemma stage_mono D F B G n D' F' : stage D F B G n ->
  (forall x, g_decls G !! x <> None \/ g_macros G !! x <> None -> D' !! x = D !! x /\ F' !! x = F !! x) -> stage D' F' B G n.
Proof.
  induction 1 as [|G n name sort G' HS IH Hd HD HF|G n def G' HS IH Hd HF Hy]; intros Hx; [constructor|..].
  - destruct (declare_inv _ _ _ _ Hd) as (s & Hfr & Es & ->). cbn [g_decls g_macros] in Hx. destruct (fresh_inv _ _ Hfr) as (F1 & F2 & _).
    destruct (Hx name) as [E1 E2]; [left; by rewrite lookup_insert_eq|].
    eapply stage_declare; [apply IH|exact Hd|congruence|congruence].
    intros x H. apply Hx. destruct (decide (x = name)) as [->|]; [naive_solver|]. by rewrite lookup_insert_ne.
  - destruct (define_inv _ _ _ Hd) as (mc & Hfr & Es & ->). cbn [g_decls g_macros] in Hx. destruct (fresh_inv _ _ Hfr) as (F1 & F2 & _).
    destruct (Hx (fd_name def)) as [E1 E2]; [right; by rewrite lookup_insert_eq|].
    eapply stage_define; [apply IH|exact Hd|congruence|done].
    intros x H. apply Hx. destruct (decide (x = fd_name def)) as [->|]; [naive_solver|]. by rewrite lookup_insert_ne.
Qed.

Section script.
Context (B : list string).

(** ** The state between commands *)
Record script_state (G : Globals) (n : nat) (lw : Lowerer) N : Prop := {
  ss_stage : stage (lw_decls lw) (lw_defs lw) B G n;
  ss_inv : inv (lw_decls lw) (lw_defs lw) lw N;
  ss_scope : lw_scope lw = [];
  ss_decls : forall x, lw_decls lw !! x = None <-> g_decls G !! x = None;
  ss_defs : forall x, lw_defs lw !! x = None <-> g_macros G !! x = None;
  ss_theory : forall x, lw_defs lw !! x <> None -> find_op x theory = None;
}.

(** A node that holds the truth of an assertion. *)
Definition asserts (lw : Lowerer) N (id : nat) (f : Assignment -> Z) : Prop :=
  typed N id 1 /\ forall vals rho, holds N vals -> sym_agree lw vals rho -> vals id = f rho.

Lemma asserts_mono lw N lw' N' id f : well_formed N -> N `prefix_of` N' -> lw_symbols lw ⊆ lw_symbols lw' -> asserts lw N id f -> asserts lw' N' id f.
Proof.
  intros HW HP Hs [HT HV]. split; [by eapply typed_mono|]. intros vals rho Hh Hr. apply HV; [by eapply holds_mono|].
  intros x i Hx. apply Hr. by eapply lookup_weaken.
Qed.

Lemma initial_state : script_state no_globals 0 lowerer_new [].
Proof.
  split; try done; [constructor|]. split; [|split|done|done]; try done.
  split; [done| |done|constructor]. exact new_view.
Qed.

Lemma declare_state G n lw N name sort G' : script_state G n lw N -> declare G name sort = Some G' ->
  script_state G' n (set_decls (<[name := sort]> (lw_decls lw)) lw) N.
Proof.
  intros [H1 H2 H3 H4 H5 H6] Hd. destruct (declare_inv _ _ _ _ Hd) as (s & Hfr & Es & EG). destruct (fresh_inv _ _ Hfr) as (F1 & F2 & F3).
  assert (lw_decls lw !! name = None) as HD by (by apply H4). assert (lw_defs lw !! name = None) as HF by (by apply H5).
  split; cbn [set_decls lw_decls lw_defs lw_scope]; try done.
  - eapply stage_declare; [|exact Hd|by rewrite lookup_insert_eq|done]. eapply stage_mono; [exact H1|].
    intros x Hx. split; [|done]. rewrite lookup_insert_ne; [done|]. intros <-. naive_solver.
  - destruct H2 as [[R1 R2 R3 R4] [S1 S2 S3] _ _]. split; try done. split; try done.
    intros x id Hx. destruct (S1 x id Hx) as (sid & sort' & s' & G1 & G2). exists sid, sort', s'.
    split; [|done]. rewrite lookup_insert_ne; [done|]. intros <-. by rewrite HD in G1.
  - intros x. rewrite EG. cbn [g_decls]. destruct (decide (x = name)) as [->|]; [by rewrite !lookup_insert_eq|].
    by rewrite !lookup_insert_ne by done.
  - by rewrite EG.
Qed.

Lemma define_state G n lw N def G' : script_state G n lw N -> define G def = Some G' -> hygienic B def ->
  script_state G' (depth (fd_body def) + n) (set_defs (<[fd_name def := def]> (lw_defs lw)) lw) N.
Proof.
  intros [H1 H2 H3 H4 H5 H6] Hd Hy. destruct (define_inv _ _ _ Hd) as (mc & Hfr & Es & EG). destruct (fresh_inv _ _ Hfr) as (F1 & F2 & F3).
  assert (lw_defs lw !! fd_name def = None) as HF by (by apply H5).
  split; cbn [set_defs lw_decls lw_defs lw_scope]; try done.
  - eapply stage_define; [|exact Hd|by rewrite lookup_insert_eq|done]. eapply stage_mono; [exact H1|].
    intros x Hx. split; [done|]. rewrite lookup_insert_ne; [done|]. intros <-. naive_solver.
  - destruct H2 as [[R1 R2 R3 R4] [S1 S2 S3] _ _]. by split.
  - by rewrite EG.
  - intros x. rewrite EG. cbn [g_macros]. destruct (decide (x = fd_name def)) as [->|]; [by rewrite !lookup_insert_eq|].
    by rewrite !lookup_insert_ne by done.
  - intros x Hx. destruct (decide (x = fd_name def)) as [->|]; [done|]. apply H6. by rewrite lookup_insert_ne in Hx.
Qed.

Lemma theory_undefined G n lw N : script_state G n lw N -> forall x, find_op x theory <> None -> lw_defs lw !! x = None.
Proof.
  intros S x Hx. destruct (lw_defs lw !! x) eqn:E; [|done]. destruct Hx. apply (ss_theory _ _ _ _ S). by rewrite E.
Qed.

Lemma assert_state G n lw N t f fuel : script_state G n lw N -> meaning G ∅ t = Some (SBool, f) -> (forall x, x ∈ binders t -> x ∈ B) ->
  depth t + n <= fuel ->
  exists id lw' N', lower_term fuel t lw = LOk (id, lw') /\ script_state G n lw' N' /\ N `prefix_of` N' /\ lw_symbols lw ⊆ lw_symbols lw' /\
    asserts lw' N' id (fun rho => f rho ∅).
Proof.
  intros S Hm HB Hf. destruct (lower_term_spec (lw_decls lw) (lw_defs lw) B (theory_undefined _ _ _ _ S) fuel G n ∅ t (SBool, f) lw N)
    as (id & lw' & N' & E & HI & [P1 P2 P3] & [HT HV]); try done.
  - apply S.
  - apply S.
  - split; [by intros x s Hx; rewrite lookup_empty in Hx|]. intros x id. by rewrite (ss_scope _ _ _ _ S).
  - intros x _ _. by rewrite (ss_scope _ _ _ _ S).
  - destruct S as [H1 H2 H3 H4 H5 H6]. destruct HI as [I1 I2 I3 I4]. exists id, lw', N'. split; [done|]. split; [|split; [done|split; [done|]]].
    + split; rewrite ?I3, ?I4; try done. by rewrite P3.
    + split; [done|]. intros vals rho Hh Hr. apply HV; [done|done|]. apply empty_agree.
Qed.

(** ** Commands *)
Definition command_hygienic (c : Command) : Prop :=
  (forall x, x ∈ command_binders c -> x ∈ B) /\ (forall x, x ∈ macro_globals c -> x ∉ B).

Lemma define_hygienic def : command_hygienic (DefineFun def) -> hygienic B def.
Proof.
  intros [H1 H2]. cbn in *. split.
  - intros x Hx. apply H1, elem_of_app. by left.
  - intros x Hx. apply H1, elem_of_app. by right.
  - intros x Hx Hp. apply H2. rewrite elem_of_elements, elem_of_difference, elem_of_list_to_set, free_symbols_spec. done.
Qed.

Definition commands_depth (cmds : Script) : nat := fold_right (fun c n => command_depth c + n) 0 cmds.

Lemma lower_commands_spec fuel cmds : forall G n lw N ids0 fs0 G' fs, script_state G n lw N -> script_meaning G cmds = Some (G', fs) ->
  Forall command_hygienic cmds -> commands_depth cmds + n <= fuel -> Forall2 (asserts lw N) ids0 fs0 ->
  exists ids lw' N' n', lower_commands fuel cmds ids0 lw = LOk (ids, lw') /\ n' <= commands_depth cmds + n /\
    script_state G' n' lw' N' /\ Forall2 (asserts lw' N') ids (fs0 ++ fs).
Proof.
  induction cmds as [|c cmds IH]; intros G n lw N ids0 fs0 G' fs S Hm Hh Hf Ha.
  { injection Hm as <- <-. exists ids0, lw, N, n. rewrite app_nil_r. split; [done|]. split; [cbn; lia|done]. }
  apply Forall_cons_1 in Hh as [Hc Hh]. cbn [script_meaning lower_commands commands_depth fold_right] in *. fold (commands_depth cmds) in *.
  assert (forall name sort, (G ← declare G name sort; script_meaning G cmds) = Some (G', fs) ->
    exists ids lw' N' n', lower_commands fuel cmds ids0 (set_decls (<[name := sort]> (lw_decls lw)) lw) = LOk (ids, lw') /\
      n' <= commands_depth cmds + n /\ script_state G' n' lw' N' /\ Forall2 (asserts lw' N') ids (fs0 ++ fs)) as Hdecl.
  { intros name sort Hd. destruct (declare G name sort) as [G1|] eqn:Ed; [|done]. cbn [mbind option_bind] in Hd.
    eapply IH; [by eapply declare_state|exact Hd|done|lia|]. eapply Forall2_impl; [exact Ha|]. by intros id f [? ?]. }
  destruct c; try (eapply IH; [exact S|exact Hm|done|lia|done]).
  - by apply Hdecl.
  - destruct args; [|done]. by apply Hdecl.
  - destruct (define G def) as [G1|] eqn:Ed; [|done]. cbn [mbind option_bind command_depth] in *.
    destruct (IH G1 _ _ _ ids0 fs0 _ _ (define_state _ _ _ _ _ _ S Ed (define_hygienic _ Hc)) Hm Hh ltac:(lia)) as (ids & lw' & N' & n' & E' & Ln & S' & A').
    { eapply Forall2_impl; [exact Ha|]. by intros id f [? ?]. }
    exists ids, lw', N', n'. split; [done|]. split; [lia|done].
  - destruct (meaning G ∅ t) as [[s f]|] eqn:Et; [|done]. cbn [mbind option_bind] in Hm. case_bool_decide as Es; [|done]. subst s.
    destruct (script_meaning G cmds) as [[G1 fs1]|] eqn:Ec; [|done]. injection Hm as <- <-. cbn [command_depth] in Hf.
    destruct (assert_state G n lw N t f fuel S Et ltac:(apply Hc) ltac:(lia)) as (id & lw1 & N1 & E & S1 & P1 & P2 & A1).
    destruct (IH G n lw1 N1 (ids0 ++ [id]) (fs0 ++ [fun rho => f rho ∅]) G1 fs1 S1 Ec Hh ltac:(lia)) as (ids & lw' & N' & n' & E' & Ln & S' & A').
    { apply Forall2_app; [|constructor; [done|constructor]]. eapply Forall2_impl; [exact Ha|]. intros i g. apply asserts_mono; [|done|done].
      apply (inv_formed _ _ _ _ (ss_inv _ _ _ _ S)). }
    exists ids, lw', N', n'. rewrite <- app_assoc in A'. split; [|split; [cbn [command_depth]; lia|done]]. by rewrite (lower_run _ _ lw id lw1).
Qed.
End script.

(** ** The conjunction *)
Lemma no_capture_hygienic cmds : no_capture cmds = true -> Forall (command_hygienic (concat (map command_binders cmds))) cmds.
Proof.
  intros Hn. apply Forall_forall. intros c Hc. split; intros x Hx.
  - by eapply concat_map_elem.
  - unfold no_capture in Hn. rewrite forallb_forall in Hn. specialize (Hn x). rewrite negb_true_iff, bool_decide_eq_false in Hn.
    apply Hn, list_elem_of_In. by eapply (concat_map_elem macro_globals).
Qed.

(** What [lower_script] returns: the nodes, and the root as the conjunction
    of the assertions. *)
Record lowered_script (G : Globals) (fs : list (Assignment -> Z)) (lw : Lowerer) N (root : nat) : Prop := {
  lo_state : exists B n, script_state B G n lw N;
  lo_root_typed : typed N root 1;
  lo_root_value : forall vals rho, holds N vals -> sym_agree lw vals rho -> vals root = 1%Z <-> Forall (fun f => f rho = 1%Z) fs;
}.

Lemma conjunction_value N (vals : nat -> Z) ids : holds N vals -> Forall (fun id => typed N id 1) ids ->
  Z.b2z (forallb (fun b => b vals) (map (fun id (vals : nat -> Z) => Z.odd (vals id)) ids)) = 1%Z <-> Forall (fun id => vals id = 1%Z) ids.
Proof.
  intros Hh. induction 1 as [|id ids Ht _ IH]; [by cbn|]. rewrite Forall_cons, <- IH. cbn [map forallb].
  pose proof (range_at N id 1 vals Ht Hh) as R. change (2 ^ Z.of_nat 1)%Z with 2%Z in R.
  assert (vals id = 0 \/ vals id = 1)%Z as [-> | ->] by lia; cbn [Z.odd andb Z.b2z]; [|tauto]. split; [done|]. by intros [? _].
Qed.

Lemma lower_script_spec fuel cmds G fs : script_meaning no_globals cmds = Some (G, fs) -> no_capture cmds = true -> script_fuel cmds <= fuel ->
  exists root lw N, lower_script fuel cmds = LOk (mkLowered (lw_graph lw) root (lw_symbol_info lw) (lw_width lw)) /\
    lowered_script G fs lw N root.
Proof.
  intros Hm Hn Hf. set (B := concat (map command_binders cmds)).
  destruct (lower_commands_spec B fuel cmds no_globals 0 lowerer_new [] [] [] G fs (initial_state B) Hm)
    as (ids & lw & N & n & E & _ & S & A); [by apply no_capture_hygienic|unfold script_fuel, commands_depth in *; lia|constructor|].
  cbn [app] in A. assert (tests N ids (map (fun id vals => Z.odd (vals id)) ids)) as HT.
  { apply Forall2_fmap_r, Forall2_same_length_lookup_2; [done|]. intros i id id' Hi Hi'. rewrite Hi in Hi'. injection Hi' as <-.
    destruct (Forall2_lookup_l _ _ _ _ _ A Hi) as (f & _ & HTy & _). split; [done|]. intros vals Hh.
    pose proof (range_at N id 1 vals HTy Hh) as R. change (2 ^ Z.of_nat 1)%Z with 2%Z in R.
    assert (vals id = 0 \/ vals id = 1)%Z as [-> | ->] by lia; done. }
  destruct (lowers_builds _ _ _ lw N _ (ss_inv _ _ _ _ _ S) (combine_and_spec N ids _ HT)) as (root & lw' & N' & E' & HI' & [P1 P2 P3] & [HTy HV]).
  exists root, lw', N'. split.
  { unfold lower_script. rewrite (lower_run _ _ lowerer_new ids lw) by done. by rewrite E'. }
  split; [|done|].
  - exists B, n. destruct S as [H1 H2 H3 H4 H5 H6]. destruct HI' as [I1 I2 I3 I4]. split; rewrite ?I3, ?I4; try done. by rewrite P3.
  - intros vals rho Hh Hr. rewrite (HV vals Hh). 
    assert (holds N vals) as Hh' by (eapply holds_mono; [apply (inv_formed _ _ _ _ (ss_inv _ _ _ _ _ S))|exact P1|done]).
    rewrite (conjunction_value N) by (done || (apply Forall_forall; intros i Hi; apply list_elem_of_lookup in Hi as [k Hi];
      destruct (Forall2_lookup_l _ _ _ _ _ A Hi) as (f & _ & HTi & _); done)).
    assert (sym_agree lw vals rho) as Hr' by (intros x i Hx; apply Hr; by eapply lookup_weaken).
    clear -A Hh' Hr'. induction A as [|id f ids fs [_ Hv] _ IH]; [done|]. rewrite !Forall_cons, IH, (Hv vals rho) by done. done.
Qed.
