(* ===== verification/SmtFormula.v ===== *)
(** * Lowered graphs as formulas of the bit-blaster

    A well-formed graph of the lowering is a typed formula graph, its
    interpretations are the values that satisfy its equations, and every
    choice of values for the symbols extends to one. *)
From S2P Require Import Prelude Words ApInt ApIntSpec Lang LangSpec SatSolver SatSearch SatTheorems Dag DagSpec Bits Gates.
From S2P Require Import Bitblast BlastSem CircuitWord BlastSpec BlastGraph BlastTheorems SmtAst SmtLower SmtMeaning SmtNodes.
From S2P Require Import SmtOperators SmtTerms SmtTermSpec.
#[local] Open Scope nat_scope.

Implicit Types N : Nodes.

Lemma wf_wfb a : wf a -> wfb a = true.
Proof.
  intros [H1 H2 H3 H4 H5]. unfold wfb. rewrite !andb_true_iff. repeat split; [lia| |by apply Nat.eqb_eq| |lia].
  - apply eqb_true_iff. destruct (high a) as [h|]; destruct (Z.ltb_spec 64 (width a)); try done.
    + assert (is_Some (Some h)) as Hs by (by eexists). apply H2 in Hs. lia.
    + apply H2 in H as [? ?]. done.
  - apply forallb_forall. intros x Hx. unfold limbs_ok in H4. rewrite Forall_forall in H4. specialize (H4 x (proj2 (list_elem_of_In _ _) Hx)). unfold is_u64 in H4. lia.
Qed.

Section formula.
Context (lw : Lowerer) (N : Nodes) (R : rep lw N).

Notation graph := (lw_graph lw).
Notation widths := (lw_width lw).

Lemma node_at i nd : N !! i = Some nd -> get_node graph i = Some (nk nd) /\ children graph i = Some (ncs nd) /\
  get_leaf_data graph i = Some (nleaf nd) /\ declared widths i = Some (nw nd).
Proof.
  intros E. assert (forall B (f : NodeRec -> B), map f N !! i = Some (f nd)) as Em.
  { intros B f. change (map f N) with (f <$> N). by rewrite list_lookup_fmap, E. }
  split; [|split; [|split]].
  - unfold get_node. by rewrite (rep_kinds _ _ R), Em.
  - by rewrite (view_children _ _ _ _ (rep_view _ _ R)), Em.
  - by rewrite (view_leaf _ _ _ _ (rep_view _ _ R)), Em.
  - unfold declared. by rewrite (rep_widths _ _ R), Em.
Qed.

Lemma literal_const i v : literal N i v -> const_of graph i = Some v.
Proof. intros (nd & a & E & El & <-). unfold const_of. destruct (node_at i nd E) as (_ & _ & -> & _). by rewrite El. Qed.

Lemma literal_take i j v : literal (take i N) j v -> literal N j v.
Proof. apply literal_mono, prefix_take. Qed.

Lemma typed_shape M id width : typed M id width -> map nw M !! id = Some width.
Proof. intros (nd & E & <-). change (map nw M) with (nw <$> M). by rewrite list_lookup_fmap, E. Qed.

(** ** Types *)
Lemma form_shape i nd : N !! i = Some nd -> form (take i N) nd ->
  class_shape graph widths [] (map nw (take i N)) i (class_of (nk nd)) (ncs nd) = Some (nw nd).
Proof.
  intros E Hf. destruct (node_at i nd E) as (_ & _ & Hl & Hd).
  destruct Hf as [a width Ha Hw Hp|sid width Hp|k a width Hk Ha Hp|k a b width Hk Ha Hb Hp|k o a b width Hk Ha Hb Hp|a b wa wb Ha Hb Hp
    |a chi clo hi lo width Ha Hhi Hlo Hr Hw|k a c wa width Hk Ha Hc Hwa Hp|c t e wc width Hc Hwc Ht He Hp]; cbn [nk ncs nleaf nw] in *.
  - cbn [class_of class_shape]. unfold constant_of. rewrite Hl. cbn [mbind option_bind]. by rewrite wf_wfb.
  - cbn [class_of class_shape]. by rewrite Hl.
  - destruct Hk as [-> | ->]; cbn; by apply typed_shape in Ha as ->.
  - apply typed_shape in Ha, Hb. assert (0 <? width = true) as Hp' by (by apply Nat.ltb_lt).
    destruct Hk as [Hk|Hk]; rewrite Hk; cbn [class_shape lookup list_lookup mbind option_bind].
    + unfold same_width. rewrite Ha, Hb. cbn [mbind option_bind]. rewrite Nat.eqb_refl. cbn [mbind option_bind]. by rewrite Hp'.
    + rewrite Ha, Hb. cbn [mbind option_bind]. by rewrite Hp', (proj2 (Nat.leb_le _ _) (stage_count_le width)).
  - apply typed_shape in Ha, Hb. assert (0 <? width = true) as Hp' by (by apply Nat.ltb_lt). rewrite Hk.
    cbn [class_shape lookup list_lookup mbind option_bind]. unfold same_width. rewrite Ha, Hb. cbn [mbind option_bind]. rewrite Nat.eqb_refl. cbn [mbind option_bind]. rewrite Hp'.
    unfold is_float. cbn. by destruct o.
  - apply typed_shape in Ha, Hb. cbn [class_of class_shape lookup list_lookup mbind option_bind]. rewrite Ha, Hb. cbn. f_equal. lia.
  - apply typed_shape in Ha. cbn [class_of class_shape lookup list_lookup mbind option_bind].
    rewrite (literal_const chi hi), (literal_const clo lo) by (by eapply literal_take). cbn [mbind option_bind]. rewrite Ha. cbn [mbind option_bind].
    assert ((0 <=? lo) && (lo <=? hi + 1) && (hi <? Z.of_nat width) = true)%Z as -> by lia. do 2 f_equal. lia.
  - apply typed_shape in Ha. assert (exists s, class_of k = CExtend s) as [s ->] by (destruct Hk as [-> | ->]; by eexists).
    cbn [class_shape lookup list_lookup mbind option_bind]. rewrite Ha. cbn [mbind option_bind]. by rewrite (proj2 (Nat.ltb_lt _ _) Hwa), orb_true_r.
  - apply typed_shape in Hc, Ht, He. cbn [class_of class_shape]. rewrite Hc. cbn [mbind option_bind]. rewrite (proj2 (Nat.ltb_lt _ _) Hwc).
    unfold same_width. rewrite Ht, He. cbn [mbind option_bind]. by rewrite Nat.eqb_refl.
Qed.

Lemma form_no_read M nd : form M nd -> class_of (nk nd) <> CRead.
Proof.
  intros Hf. destruct Hf; cbn [nk]; try done; repeat match goal with H : _ \/ _ |- _ => destruct H end; subst; try done; congruence.
Qed.

Lemma node_shapes i : i <= length N -> shapes graph widths [] i = Some (mkShapes (map nw (take i N)) ∅).
Proof.
  induction i as [|i IH]; intros Hi; [done|]. cbn [shapes]. rewrite IH by lia. cbn [mbind option_bind sh_ws].
  destruct (lookup_lt_is_Some_2 N i) as [nd E]; [lia|]. pose proof (well_formed_at N i nd (rep_formed _ _ R) E) as Hf.
  destruct (node_at i nd E) as (Hk & Hc & Hl & Hd). rewrite Hk, Hc. cbn [mbind option_bind]. unfold node_shape. rewrite Hk. cbn [mbind option_bind].
  rewrite Hc. cbn [mbind option_bind]. assert (forallb (fun c => c <? i) (ncs nd) = true) as ->.
  { apply forallb_forall. intros c Hcc. apply list_elem_of_In in Hcc. apply Nat.ltb_lt. pose proof (form_children _ _ _ Hf Hcc) as L.
    rewrite length_take in L. lia. }
  rewrite (form_shape i nd E Hf). cbn [mbind option_bind]. f_equal. f_equal.
  - by rewrite (take_S_r _ _ nd E), map_app.
  - unfold next_reads. pose proof (form_no_read _ _ Hf). by destruct (class_of (nk nd)), (read_key graph (ncs nd)).
Qed.

Lemma graph_length : len graph = length N.
Proof. by apply rep_len. Qed.

Lemma graph_formula : N <> [] -> formula graph widths [].
Proof.
  intros Hn. destruct (@list.last _ N) as [nd|] eqn:El; [|by apply last_None in El]. pose proof El as [N' EN]%last_Some.
  exists (mkShapes (map nw N) ∅), (map nw N'), (nw nd). rewrite graph_length, node_shapes, firstn_all by done. split; [done|].
  cbn [sh_ws]. rewrite EN at 1. rewrite map_app. split; [done|]. eapply well_formed_pos; [apply (rep_formed _ _ R)|].
  exists nd. split; [|done]. rewrite EN at 1. by apply list_lookup_middle.
Qed.

(** ** Values *)
Lemma form_value i nd vals defs : N !! i = Some nd -> form (take i N) nd ->
  class_value graph (mkShapes (map nw (take i N)) ∅) (nw nd) vals defs i (class_of (nk nd)) (ncs nd) = node_value (take i N) vals nd.
Proof.
  intros E Hf. destruct (node_at i nd E) as (_ & _ & Hl & Hd).
  assert (forall id width, typed (take i N) id width -> widthZ (map nw (take i N)) id = width_at (take i N) id) as Hz.
  { intros id width Ht. rewrite (typed_width _ _ _ Ht). unfold widthZ. by rewrite (typed_shape _ _ _ Ht). }
  destruct Hf as [a width Ha Hw Hp|sid width Hp|k a width Hk Ha Hp|k a b width Hk Ha Hb Hp|k o a b width Hk Ha Hb Hp|a b wa wb Ha Hb Hp
    |a chi clo hi lo width Ha Hhi Hlo Hr Hw|k a c wa width Hk Ha Hc Hwa Hp|c t e wc width Hc Hwc Ht He Hp]; cbn [nk ncs nleaf nw] in *;
    unfold node_value; cbn [nk ncs nleaf nw].
  - cbn [class_of class_value]. unfold constant_of. rewrite Hl. cbn [mbind option_bind]. by rewrite wf_wfb.
  - done.
  - destruct Hk as [-> | ->]; done.
  - unfold BlastSem.arg. cbn [lookup list_lookup default from_option id].
    destruct Hk as [Hk|Hk]; rewrite Hk; cbn [class_value]; unfold BlastSem.arg; cbn [lookup list_lookup default from_option id sh_ws];
      rewrite (Hz _ _ Ha); by destruct k.
  - unfold BlastSem.arg. cbn [lookup list_lookup default from_option id]. rewrite Hk; cbn [class_value]; unfold BlastSem.arg;
      cbn [lookup list_lookup default from_option id sh_ws]. rewrite (Hz _ _ Ha). by destruct k.
  - cbn [class_of class_value]. unfold BlastSem.arg. cbn [lookup list_lookup default from_option id sh_ws]. by rewrite (Hz _ _ Hb).
  - cbn [class_of class_value]. unfold BlastSem.arg. cbn [lookup list_lookup default from_option id sh_ws].
    rewrite (literal_const chi hi), (literal_const clo lo) by (by eapply literal_take). cbn [mbind option_bind].
    by rewrite (literal_eq _ _ _ Hhi), (literal_eq _ _ _ Hlo).
  - destruct Hk as [-> | ->]; [done|]. cbn [class_of class_value]. unfold BlastSem.arg. cbn [lookup list_lookup default from_option id sh_ws].
    by rewrite (Hz _ _ Ha).
  - done.
Qed.

Lemma interpretation_holds vals defs : interpretation graph widths [] vals defs -> holds N vals.
Proof.
  intros HI i nd E. pose proof (lookup_lt_Some _ _ _ E) as Hi. destruct (HI i) as (sh & sh' & k & cs & w & E1 & E2 & E3 & E4 & E5 & Hr & Hv & _);
    [by rewrite graph_length|].
  rewrite node_shapes in E1 by lia. injection E1 as <-. rewrite node_shapes in E2 by lia. injection E2 as <-.
  destruct (node_at i nd E) as (Hk & Hc & _ & _). rewrite Hk in E3. injection E3 as <-. rewrite Hc in E4. injection E4 as <-.
  cbn [sh_ws] in E5. assert (nw nd = w) as <-.
  { assert (map nw (take (S i) N) !! i = Some (nw nd)) as E6; [|congruence]. apply typed_shape. exists nd. split; [|done].
    rewrite lookup_take_lt by lia. done. }
  split; [done|]. intros v Hnv. apply Hv. pose proof (well_formed_at N i nd (rep_formed _ _ R) E) as Hf.
  rewrite (form_value i nd vals defs E Hf). rewrite <- Hnv. symmetry. apply node_value_mono; [apply prefix_take|done].
Qed.

(** Values chosen for the symbols extend to an interpretation. *)
Lemma interpretation_of (env : nat -> Z) : exists vals defs, interpretation graph widths [] vals defs /\
  forall i nd, N !! i = Some nd -> nk nd = SymKind.Symbol -> vals i = (env i mod 2 ^ Z.of_nat (nw nd))%Z.
Proof.
  destruct (evaluate_ok graph widths [] env (len graph) (mkShapes (map nw N) ∅)) as (vs & ds & _ & Ev).
  { by rewrite graph_length, node_shapes, firstn_all by done. }
  exists (at_index 0%Z vs), (at_index false ds). split; [intros id Hid; by apply Ev|].
  intros i nd E Hk. pose proof (lookup_lt_Some _ _ _ E) as Hi. destruct (node_at i nd E) as (Hk' & Hc & _ & _). rewrite Hk in Hk'.
  eapply (ev_free _ _ _ _ _ _ _ _ Ev i); [by rewrite graph_length|apply node_shapes; lia|apply node_shapes; lia|exact Hk'|exact Hc| |done].
  cbn [sh_ws]. apply typed_shape. exists nd. split; [|done]. rewrite lookup_take_lt by lia. done.
Qed.

Lemma graph_root : root graph = match length N with O => None | S n => Some n end.
Proof. unfold root. fold (len graph). by rewrite graph_length. Qed.
End formula.

(** ** Solving a lowered script

    The graph of a lowered script decides the script when its root is the last
    node, which is the node the bit-blaster asserts. *)
(** ** The last node *)
Lemma lower_inv {A C} (m : Lower A) (k : A -> Lower C) lw r : (m ≫= k) lw = LOk r -> exists a lw1, m lw = LOk (a, lw1) /\ k a lw1 = LOk r.
Proof. unfold mbind, lower_bind. destruct (m lw) as [[a lw1]| |]; [|done..]. eauto. Qed.

Lemma unwrap_inv {A} (o : option A) lw a lw' : unwrap o lw = LOk (a, lw') -> o = Some a /\ lw' = lw.
Proof. unfold unwrap. destruct o; [|done]. by intros [= <- <-]. Qed.

Lemma edges_nodes cs n (g g' : Graph) : fold_left (fun g c => g ← g; add_edge n c g) cs (Some g) = Some g' -> nodes g' = nodes g.
Proof.
  revert g; induction cs as [|c cs IH]; intros g; cbn [fold_left mbind option_bind]; [by intros [= <-]|].
  destruct (add_edge n c g) as [g1|] eqn:E; [|].
  - intros H. rewrite (IH g1 H). unfold add_edge in E. repeat case_match; try done. destruct (edge_bounds g !! _); [|done]. cbn in E.
    destruct (vset _ _ _); [|done]. by injection E as <-.
  - clear. intros H. exfalso. induction cs as [|c' cs IH]; cbn in H; [done|by apply IH].
Qed.

Lemma mk_last k cs width lw id lw' : mk k cs width lw = LOk (id, lw') -> len (lw_graph lw') = S id.
Proof.
  unfold mk. intros (g & lw1 & [= <- <-] & H)%lower_inv. destruct (add_node k (lw_graph lw)) as [i g1] eqn:Ea. injection Ea as <- <-.
  apply lower_inv in H as (g2 & lw2 & [E ->]%unwrap_inv & H). apply lower_inv in H as (ws & lw3 & [= <- <-] & H).
  injection H as <- <-. cbn [set_nodes lw_graph]. unfold len. rewrite (edges_nodes _ _ _ _ E). cbn. rewrite length_app. cbn. lia.
Qed.

Lemma leaf_last width v lw id lw' : leaf_const width v lw = LOk (id, lw') -> len (lw_graph lw') = S id.
Proof.
  unfold leaf_const. intros (g & lw1 & [= <- <-] & H)%lower_inv. destruct (add_node SymKind.Constant (lw_graph lw)) as [i g1] eqn:Ea. injection Ea as <- <-.
  apply lower_inv in H as (a & lw2 & [E ->]%unwrap_inv & H). apply lower_inv in H as (g2 & lw2 & [E2 ->]%unwrap_inv & H).
  apply lower_inv in H as (ws & lw3 & [= <- <-] & H). injection H as <- <-. cbn [set_nodes lw_graph]. unfold len.
  unfold set_leaf_data in E2. destruct (set_slot _ _ _ _) as [[sl vs]|]; [|done]. injection E2 as <-. cbn. rewrite length_app. cbn. lia.
Qed.

Lemma bin_last k a b lw id lw' : k <> SymKind.Concat -> bin k a b lw = LOk (id, lw') -> len (lw_graph lw') = S id.
Proof. intros Hk (width & lw1 & _ & H)%lower_inv. by eapply mk_last. Qed.

Lemma combine_and_last ids lw id lw' : length ids <> 1 -> combine_and ids lw = LOk (id, lw') -> len (lw_graph lw') = S id.
Proof.
  destruct ids as [|first rest]; cbn [combine_and]; [intros _; by apply leaf_last|]. intros Hl. unfold fold_bin.
  destruct rest as [|x rest _] using rev_ind; [done|]. rewrite fold_left_app. cbn [fold_left].
  intros (acc & lw1 & _ & H)%lower_inv. by eapply bin_last in H.
Qed.

Lemma asserts_count fuel cmds : forall ids0 lw ids lw' G G' fs, lower_commands fuel cmds ids0 lw = LOk (ids, lw') ->
  script_meaning G cmds = Some (G', fs) -> length ids = length ids0 + length fs.
Proof.
  induction cmds as [|c cmds IH]; intros ids0 lw ids lw' G G' fs H Hm.
  { injection H as <- <-. injection Hm as _ <-. cbn. lia. }
  cbn [lower_commands script_meaning] in *.
  assert (forall f, (_ ← update f; lower_commands fuel cmds ids0) lw = LOk (ids, lw') -> exists lw1, lower_commands fuel cmds ids0 lw1 = LOk (ids, lw')) as Hu.
  { intros f (u & lw1 & _ & Hc)%lower_inv. eauto. }
  destruct c; try (by eapply IH).
  - apply Hu in H as [lw1 H]. destruct (declare G name sort); [|done]. by eapply IH.
  - destruct args; [|done]. apply Hu in H as [lw1 H]. destruct (declare G name ret); [|done]. by eapply IH.
  - apply Hu in H as [lw1 H]. destruct (define G def); [|done]. by eapply IH.
  - apply lower_inv in H as (id & lw1 & _ & H). destruct (meaning G ∅ t) as [[s f]|]; [|done]. cbn [mbind option_bind] in Hm.
    case_bool_decide; [|done]. destruct (script_meaning G cmds) as [[G1 fs1]|] eqn:E; [|done]. injection Hm as <- <-.
    rewrite (IH _ _ _ _ _ _ _ H E), length_app. cbn. lia.
Qed.

Lemma lower_script_last fuel cmds lo G fs : lower_script fuel cmds = LOk lo -> script_meaning no_globals cmds = Some (G, fs) -> length fs <> 1 ->
  root (lo_graph lo) = Some (lo_root lo).
Proof.
  unfold lower_script. intros H Hm Hl. destruct (lower_commands fuel cmds [] lowerer_new) as [[ids lw]| |] eqn:E.
  - rewrite (lower_run _ _ lowerer_new ids lw E) in H. destruct (combine_and ids lw) as [[id lw']| |] eqn:Ec; [|done..]. injection H as <-.
    cbn [lo_graph lo_root]. pose proof (asserts_count _ _ _ _ _ _ _ _ _ E Hm) as L. cbn in L.
    apply combine_and_last in Ec; [|lia]. unfold root. unfold len in Ec. by rewrite Ec.
  - unfold mbind, lower_bind in H. by rewrite E in H.
  - unfold mbind, lower_bind in H. by rewrite E in H.
Qed.

(** ** Assignments and interpretations *)

(** The assignment an interpretation gives, zero for a symbol that no
    assertion uses. *)
Definition assignment_of (lw : Lowerer) (vals : nat -> Z) : Assignment := fun x => match lw_symbols lw !! x with Some id => vals id | None => 0%Z end.

Section decide.
Context (G : Globals) (fs : list (Assignment -> Z)) (lw : Lowerer) (N : Nodes) (root : nat).
Context (L : lowered_script G fs lw N root).

Lemma lowered_rep : rep lw N.
Proof. destruct (lo_state _ _ _ _ _ L) as (B & n & S). apply (ss_inv _ _ _ _ _ S). Qed.

Lemma lowered_symbol x id : lw_symbols lw !! x = Some id -> exists sid s, g_decls G !! x = Some s /\
  N !! id = Some (mkNode SymKind.Symbol [] (Some (SymbolId sid)) (sort_bits s)) /\
  lw_symbol_info lw !! sid = Some (mkSymbolInfo x (Some (sort_bits s)) (bool_decide (s = SBool))).
Proof.
  intros Hx. destruct (lo_state _ _ _ _ _ L) as (B & n & S). destruct (inv_symbols _ _ _ _ (ss_inv _ _ _ _ _ S)) as [S1 _ _].
  destruct (S1 x id Hx) as (sid & sort & s & HD & Hs & HN & Hi). exists sid, s. split; [|done].
  destruct (g_decls G !! x) as [s'|] eqn:E.
  - destruct (stage_decl _ _ _ _ _ _ _ (ss_stage _ _ _ _ _ S) E) as (sort' & HD' & _ & Hs'). congruence.
  - apply (ss_decls _ _ _ _ _ S) in E. congruence.
Qed.

Lemma lowered_info sid info : lw_symbol_info lw !! sid = Some info -> exists id s, lw_symbols lw !! si_name info = Some id /\
  N !! id = Some (mkNode SymKind.Symbol [] (Some (SymbolId sid)) (sort_bits s)) /\ g_decls G !! si_name info = Some s /\
  si_width info = Some (sort_bits s).
Proof.
  intros Hi. destruct (lo_state _ _ _ _ _ L) as (B & n & S). destruct (inv_symbols _ _ _ _ (ss_inv _ _ _ _ _ S)) as [_ _ S3].
  destruct (S3 sid info Hi) as (id & nd & Hx & HN & Hl). destruct (lowered_symbol _ _ Hx) as (sid' & s & Hd & HN' & Hi').
  rewrite HN in HN'. injection HN' as ->. cbn in Hl. injection Hl as ->. rewrite Hi in Hi'. injection Hi' as ->. by exists id, s.
Qed.

Lemma declared_positive x s : g_decls G !! x = Some s -> 0 < sort_bits s <= 64.
Proof.
  intros E. destruct (lo_state _ _ _ _ _ L) as (B & n & S). destruct (stage_decl _ _ _ _ _ _ _ (ss_stage _ _ _ _ _ S) E) as (sort & _ & _ & Hs).
  clear -Hs. destruct sort as [[name [|[w|?] [|? ?]]] [|? ?]]; cbn in Hs; try done.
  - destruct (_ =? _)%string; [|done]. injection Hs as <-. cbn. lia.
  - destruct (name =? "BitVec")%string; [|done]. cbn in Hs. destruct (width_ok w) eqn:Ew; [|done]. injection Hs as <-. unfold width_ok in Ew. cbn. lia.
Qed.

Lemma assignment_agrees vals : sym_agree lw vals (assignment_of lw vals).
Proof. intros x id Hx. unfold assignment_of. by rewrite Hx. Qed.

Lemma assignment_of_ok vals : holds N vals -> assignment_ok G (assignment_of lw vals).
Proof.
  intros Hh x s Hs. unfold assignment_of. destruct (lw_symbols lw !! x) as [id|] eqn:Ex.
  - destruct (lowered_symbol x id Ex) as (sid & s' & Hs' & HN & _). rewrite Hs in Hs'. injection Hs' as <-. destruct (Hh id _ HN) as [Hr _]. exact Hr.
  - split; [done|]. apply Z.pow_pos_nonneg; lia.
Qed.

Lemma root_value vals : holds N vals -> (Z.odd (vals root) = true <-> vals root = 1%Z).
Proof.
  intros Hh. pose proof (range_at N root 1 vals (lo_root_typed _ _ _ _ _ L) Hh) as R. change (2 ^ Z.of_nat 1)%Z with 2%Z in R.
  assert (vals root = 0 \/ vals root = 1)%Z as [-> | ->] by lia; done.
Qed.

Lemma interpretation_satisfies vals defs : interpretation (lw_graph lw) (lw_width lw) [] vals defs -> Z.odd (vals root) = true ->
  satisfies G fs (assignment_of lw vals).
Proof.
  intros HI Ho. pose proof (interpretation_holds lw N lowered_rep vals defs HI) as Hh. split; [by apply assignment_of_ok|].
  apply (lo_root_value _ _ _ _ _ L vals); [done|apply assignment_agrees|]. by apply root_value.
Qed.

(** Every assignment is that of some interpretation. *)
Lemma assignment_interpretation rho : assignment_ok G rho ->
  exists vals defs, interpretation (lw_graph lw) (lw_width lw) [] vals defs /\ sym_agree lw vals rho.
Proof.
  intros Hok. set (env := fun i => match N !! i with
    | Some nd => match nleaf nd with
      | Some (SymbolId sid) => match lw_symbol_info lw !! sid with Some info => rho (si_name info) | None => 0%Z end
      | _ => 0%Z end
    | None => 0%Z end).
  destruct (interpretation_of lw N lowered_rep env) as (vals & defs & HI & Hs). exists vals, defs. split; [done|].
  intros x id Hx. destruct (lowered_symbol x id Hx) as (sid & s & Hd & HN & Hi).
  rewrite (Hs id _ HN eq_refl). unfold env. rewrite HN. cbn [nleaf nw]. rewrite Hi. cbn [si_name]. apply Z.mod_small. by apply Hok.
Qed.

Lemma satisfying_interpretation rho : satisfies G fs rho ->
  exists vals defs, interpretation (lw_graph lw) (lw_width lw) [] vals defs /\ sym_agree lw vals rho /\ Z.odd (vals root) = true.
Proof.
  intros [Hok Hf]. destruct (assignment_interpretation rho Hok) as (vals & defs & HI & Ha). exists vals, defs. split; [done|]. split; [done|].
  pose proof (interpretation_holds lw N lowered_rep vals defs HI) as Hh. apply root_value; [done|]. by apply (lo_root_value _ _ _ _ _ L vals rho).
Qed.

Lemma lowered_formula : formula (lw_graph lw) (lw_width lw) [].
Proof.
  apply (graph_formula lw N lowered_rep). intros ->. destruct (lo_root_typed _ _ _ _ _ L) as (nd & E & _). done.
Qed.
End decide.
