(* ===== verification/SmtSolver.v ===== *)
(** * The SMT solver ([libs/symbolic/src/solver/mod.rs], [solver/driver.rs])

    [Solver] holds the declarations, definitions and assertions of the current
    scope with the lengths captured at each [push]; [check_sat_assuming] lowers
    them, bit-blasts the graph and runs the SAT solver. The outer [option] of an
    operation is a panic (or the end of fuel: [depth] bounds the recursion of
    the lowering, [steps] the SAT search). A [HashMap] is a [gmap], whose fold
    stands for the iteration order. *)
From S2P Require Import Prelude ApInt ApIntText Lang SatSolver Dag Gates Bitblast SmtAst SmtLower.
From Stdlib Require Import Ascii.
#[local] Open Scope string_scope.
#[local] Open Scope Z_scope.
#[local] Open Scope list_scope.

Inductive CheckResult := CheckedSat | CheckedUnsat | CheckedUnknown.

Definition as_str (r : CheckResult) : string :=
  match r with CheckedSat => "sat" | CheckedUnsat => "unsat" | CheckedUnknown => "unknown" end.

Notation SmtModel := (gmap string APInt).

Record Solver := mkSolver {
  sv_logic : option string;
  sv_decls : list (string * SmtSort);
  sv_defines : list FunctionDef;
  sv_asserts : list Term;
  (* The top of the stack is the head. *)
  sv_checkpoints : list (nat * nat * nat);
  sv_model : option SmtModel;
}.

Definition solver_new : Solver := mkSolver None [] [] [] [] None.

Definition set_model (m : option SmtModel) (s : Solver) : Solver :=
  mkSolver (sv_logic s) (sv_decls s) (sv_defines s) (sv_asserts s) (sv_checkpoints s) m.

(** ** Commands that change the state *)
Definition set_logic (name : string) (s : Solver) : Solver :=
  mkSolver (Some name) (sv_decls s) (sv_defines s) (sv_asserts s) (sv_checkpoints s) (sv_model s).
Definition declare_const (name : string) (sort : SmtSort) (s : Solver) : Solver :=
  mkSolver (sv_logic s) (sv_decls s ++ [(name, sort)]) (sv_defines s) (sv_asserts s) (sv_checkpoints s) None.
Definition define_fun (def : FunctionDef) (s : Solver) : Solver :=
  mkSolver (sv_logic s) (sv_decls s) (sv_defines s ++ [def]) (sv_asserts s) (sv_checkpoints s) None.
Definition assert_term (term : Term) (s : Solver) : Solver :=
  mkSolver (sv_logic s) (sv_decls s) (sv_defines s) (sv_asserts s ++ [term]) (sv_checkpoints s) None.

Definition checkpoint (s : Solver) : nat * nat * nat := (length (sv_decls s), length (sv_defines s), length (sv_asserts s)).
Definition push_one (s : Solver) : Solver :=
  mkSolver (sv_logic s) (sv_decls s) (sv_defines s) (sv_asserts s) (checkpoint s :: sv_checkpoints s) (sv_model s).
Definition push (n : nat) (s : Solver) : Solver := Nat.iter n push_one s.

Definition pop_one (s : Solver) : Solver :=
  match sv_checkpoints s with
  | (d, f, a) :: rest => mkSolver (sv_logic s) (take d (sv_decls s)) (take f (sv_defines s)) (take a (sv_asserts s)) rest (sv_model s)
  | [] => s
  end.
Definition pop (n : nat) (s : Solver) : Solver := set_model None (Nat.iter n pop_one s).

Definition reset (s : Solver) : Solver := solver_new.
Definition reset_assertions (s : Solver) : Solver := mkSolver (sv_logic s) [] [] [] [] None.

(** ** Scripts *)
Definition push_env (s : Solver) : list Command :=
  map (fun '(name, sort) => DeclareConst name sort) (sv_decls s) ++ map DefineFun (sv_defines s).

Definition build_script (extra : list Term) (s : Solver) : Script :=
  match sv_logic s with Some l => [SetLogic l] | None => [] end ++ push_env s ++ map Assert (sv_asserts s ++ extra).

(** ** Sorts *)
Definition sort_bits (sort : SmtSort) : option (Z * bool) :=
  match sort_params sort with
  | _ :: _ => None
  | [] =>
    let name := id_symbol (sort_id sort) in
    if (name =? "Bool")%string && is_simple (sort_id sort) then Some (1, true)
    else if (name =? "BitVec")%string then
      match id_indices (sort_id sort) with [INumeral n] => Some (n mod 2 ^ 32, false) | _ => None end
    else None
  end.
Definition sort_is_bool (sort : SmtSort) : bool := match sort_bits sort with Some (_, b) => b | None => false end.
Definition sort_width (sort : SmtSort) : Z := match sort_bits sort with Some (w, _) => w | None => 1 end.

(** ** Models *)

(** [acc | (b << i)] on [u64]; a shift of 64 or more panics. *)
Fixpoint pack (i : Z) (acc : Z) (bits : list bool) : option Z :=
  match bits with
  | [] => Some acc
  | b :: bits => assert! i <? 64; pack (i + 1) (Z.lor acc (Z.shiftl (Z.b2z b) i)) bits
  end.
Definition bits_to_apint (width : Z) (bits : list bool) : option APInt := v ← pack 0 0 bits; ApInt.new width v.

Definition default_decl (acc : option SmtModel) (decl : string * SmtSort) : option SmtModel :=
  model ← acc;
  match model !! fst decl with
  | Some _ => Some model
  | None => v ← ApInt.new (sort_width (snd decl)) 0; Some (<[fst decl := v]> model)
  end.

Definition decode_symbol (symbols : list SymbolInfo) (sid : nat) (value_bits : list bool) (acc : option SmtModel) : option SmtModel :=
  model ← acc;
  info ← symbols !! sid;
  v ← bits_to_apint (Z.of_nat (default (length value_bits) (si_width info))) value_bits;
  Some (<[si_name info := v]> model).

Definition build_model (symbols : list SymbolInfo) (bits : gmap nat (list bool)) (s : Solver) : option SmtModel :=
  fold_left default_decl (sv_decls s) (map_fold (decode_symbol symbols) (Some ∅) bits).

(** ** Checking *)
Definition check_sat_assuming (depth steps : nat) (extra : list Term) (s : Solver) : option (CheckResult * Solver) :=
  let s := set_model None s in
  match lower_script depth (build_script extra s) with
  | LErr _ => Some (CheckedUnknown, s)
  | LPanic => None
  | LOk lo =>
    match blast (lo_graph lo) (lo_widths lo) with
    | Err _ => Some (CheckedUnknown, s)
    | Panic => None
    | Ok blasted =>
      out ← solve_root steps blasted;
      match out with
      | SolveSat bits => m ← build_model (lo_symbols lo) bits s; Some (CheckedSat, set_model (Some m) s)
      | SolveUnsat => Some (CheckedUnsat, s)
      | SolveUnknown => Some (CheckedUnknown, s)
      end
    end
  end.

Definition check_sat (depth steps : nat) (s : Solver) : option (CheckResult * Solver) := check_sat_assuming depth steps [] s.

(** ** The sort of a term *)
Definition defined_is_bool (s : Solver) (name : string) : option bool :=
  sort_is_bool ∘ fd_return_sort <$> List.find (fun d => fd_name d =? name)%string (sv_defines s).

Definition ident_is_bool (s : Solver) (id : Identifier) : bool :=
  let name := id_symbol id in
  if (name =? "true")%string || (name =? "false")%string then true
  else match List.find (fun '(n, _) => n =? name)%string (sv_decls s) with
       | Some (_, sort) => sort_is_bool sort
       | None => default false (defined_is_bool s name)
       end.

Definition bool_heads : list string := ["and"; "or"; "not"; "=>"; "="; "distinct"; "xor"].
Definition bool_prefixes : list string := ["bvult"; "bvule"; "bvugt"; "bvuge"; "bvslt"; "bvsle"; "bvsgt"; "bvsge"].
Definition head_is_bool (name : string) : bool :=
  existsb (String.eqb name) bool_heads || existsb (fun p => String.prefix p name) bool_prefixes.

(** [term_is_bool] with [app_is_bool] in its place. *)
Fixpoint term_is_bool (s : Solver) (t : Term) : bool :=
  match t with
  | TConstant _ => false
  | TIdent q => ident_is_bool s (identifier q)
  | TApp q args =>
    let name := id_symbol (identifier q) in
    if head_is_bool name then true
    else if (name =? "ite")%string then match args with _ :: a :: _ => term_is_bool s a | _ => false end
    else default false (defined_is_bool s name)
  | TLet _ body => term_is_bool s body
  | TExists _ _ => true
  | TAnnotated inner _ => term_is_bool s inner
  end.

(** ** Values *)

(** Fixes the bits of the symbols to their values in the model: the inner
    [option] is [model.get(..)?]. *)
Definition fix_bit (value : Z) (acc : option (Z * Blasted SatSolver.Solver)) (lit : Lit) : option (Z * Blasted SatSolver.Solver) :=
  '(i, bl) ← acc;
  assert! i <? 64;
  bl ← with_clause [if Z.testbit value i then lit else negate lit] bl;
  Some (i + 1, bl).
Definition fix_bits (value : Z) (lits : list Lit) (bl : Blasted SatSolver.Solver) : option (Blasted SatSolver.Solver) :=
  snd <$> fold_left (fix_bit value) lits (Some (0, bl)).

Definition fix_symbol (symbols : list SymbolInfo) (model : SmtModel) (sid : nat) (lits : list Lit)
    (acc : option (option (Blasted SatSolver.Solver))) : option (option (Blasted SatSolver.Solver)) :=
  acc ← acc;
  match acc with
  | None => Some None
  | Some bl =>
    info ← symbols !! sid;
    match model !! si_name info with
    | None => Some None
    | Some v => bl ← fix_bits (to_u64 v) lits bl; Some (Some bl)
    end
  end.

Definition probe_script (t : Term) (s : Solver) : Script := push_env s ++ [Assert (term_app "=" [t; t])].

Definition eval_term (depth steps : nat) (t : Term) (s : Solver) : option (option (APInt * bool)) :=
  match sv_model s with
  | None => Some None
  | Some model =>
    match lower_script depth (probe_script t s) with
    | LPanic => None
    | LErr _ => Some None
    | LOk lo =>
      match blast (lo_graph lo) (lo_widths lo) with
      | Panic => None
      | Err _ => Some None
      | Ok blasted =>
        fixed ← map_fold (fix_symbol (lo_symbols lo) model) (Some (Some blasted)) (bl_sym_bits blasted);
        match fixed with
        | None => Some None
        | Some blasted =>
          '(r, solved) ← SatSolver.solve steps (bl_solver blasted);
          match r with
          | Sat _ =>
            match root (lo_graph lo) with
            | None => Some None
            | Some root =>
              cs ← children (lo_graph lo) root;
              match cs with
              | [] => Some None
              | node :: _ =>
                width ← lo_widths lo !! node;
                match width with
                | None => Some None
                | Some width =>
                  lits ← node_bits blasted !! node;
                  bits ← lit_values solved lits;
                  value ← pack 0 0 bits;
                  v ← ApInt.new (Z.of_nat width) value;
                  Some (Some (v, term_is_bool s t))
                end
              end
            end
          | _ => Some None
          end
        end
      end
    end
  end.

Definition format_value (value : APInt) (is_bool : bool) : string :=
  if is_bool then if Z.odd (to_u64 value) then "true" else "false"
  else
    let width := ApInt.width value in
    let raw := to_u64 value in
    if width mod 4 =? 0 then "#x" +:+ string_of (padded (Z.to_nat (width / 4)) (radix_text 16 raw))
    else "#b" +:+ string_of (padded (Z.to_nat width) (radix_text 2 raw)).

Definition get_model (s : Solver) : option (option string) :=
  match sv_model s with
  | None => Some None
  | Some model =>
    lines ← mapM (fun '(name, sort) =>
      value ← match model !! name with Some v => Some v | None => ApInt.new (sort_width sort) 0 end;
      Some (newline +:+ "  (define-fun " +:+ name +:+ " () " +:+ show_sort sort +:+ " " +:+ format_value value (sort_is_bool sort) +:+ ")"))
      (sv_decls s);
    Some (Some ("(" +:+ String.concat EmptyString lines +:+ newline +:+ ")"))
  end.

Fixpoint get_values (depth steps : nat) (terms : list Term) (s : Solver) : option (option (list string)) :=
  match terms with
  | [] => Some (Some [])
  | t :: terms =>
    v ← eval_term depth steps t s;
    match v with
    | None => Some None
    | Some (value, is_bool) =>
      parts ← get_values depth steps terms s;
      match parts with
      | None => Some None
      | Some parts => Some (Some (("(" +:+ show_term t +:+ " " +:+ format_value value is_bool +:+ ")") :: parts))
      end
    end
  end.

Definition get_value (depth steps : nat) (terms : list Term) (s : Solver) : option (option string) :=
  parts ← get_values depth steps terms s;
  match parts with None => Some None | Some parts => Some (Some (in_parens parts)) end.

(** ** The driver *)
Definition prop_to_term (prop : PropLiteral) : Term :=
  let atom := term_ident (pl_symbol prop) in
  if pl_negated prop then term_app "not" [atom] else atom.

Definition error_line : string := "(error " +:+ quote +:+ "model is not available" +:+ quote +:+ ")".
Definition usize_of (n : Z) : nat := Z.to_nat (n mod 2 ^ 64).

(** One command: the state, the lines written, and whether the run goes on. *)
Definition run_command (depth steps : nat) (cmd : Command) (s : Solver) : option (Solver * list string * bool) :=
  match cmd with
  | SetLogic name => Some (set_logic name s, [], true)
  | DeclareConst name sort | DeclareFun name [] sort => Some (declare_const name sort s, [], true)
  | DefineFun def => Some (define_fun def s, [], true)
  | Assert term => Some (assert_term term s, [], true)
  | CheckSat => '(r, s) ← check_sat depth steps s; Some (s, [as_str r], true)
  | CheckSatAssuming props =>
    '(r, s) ← check_sat_assuming depth steps (map prop_to_term props) s; Some (s, [as_str r], true)
  | GetModel => m ← get_model s; Some (s, [default error_line m], true)
  | GetValue terms => v ← get_value depth steps terms s; Some (s, [default error_line v], true)
  | Push n => Some (push (usize_of n) s, [], true)
  | Pop n => Some (pop (usize_of n) s, [], true)
  | Reset => Some (reset s, [], true)
  | ResetAssertions => Some (reset_assertions s, [], true)
  | Echo text => Some (s, [quote +:+ text +:+ quote], true)
  | Exit => Some (s, [], false)
  | _ => Some (s, [], true)
  end.

Fixpoint run_commands (depth steps : nat) (cmds : Script) (s : Solver) : option (list string) :=
  match cmds with
  | [] => Some []
  | cmd :: cmds =>
    '(s, out, more) ← run_command depth steps cmd s;
    if (more : bool) then rest ← run_commands depth steps cmds s; Some (out ++ rest)%list else Some out
  end.

Definition run_script (depth steps : nat) (script : Script) : option (list string) := run_commands depth steps script solver_new.

(** ** The solver at work *)
Definition bv8 : SmtSort := sort_bitvec 8.

Example runs_script : run_script 20 500 [DeclareConst "x" bv8; DeclareConst "p" sort_bool;
    Assert (term_app "=" [term_app "bvadd" [term_ident "x"; term_bv 1 8]; term_bv 0 8]); Push 1; Assert (term_ident "p");
    CheckSat; GetModel; GetValue [term_app "bvnot" [term_ident "x"]; term_app "and" [term_ident "p"; term_ident "p"]];
    Pop 1; Assert (term_app "=" [term_ident "x"; term_bv 2 8]); CheckSat; GetModel]
  = Some ["sat"; "(" +:+ newline +:+ "  (define-fun x () (_ BitVec 8) #xff)" +:+ newline +:+ "  (define-fun p () Bool true)" +:+ newline +:+ ")";
      "(((bvnot x) #x00) ((and p p) true))"; "unsat"; error_line].
Proof. vm_compute. reflexivity. Qed.
