(* ===== verification/SmtSolverSpec.v ===== *)
(** * The solver decides its scripts

    What [check_sat_assuming] returns: the model it builds from the decoded
    bits gives every declared symbol its value in a satisfying assignment. *)
From S2P Require Import Prelude Words ApInt ApIntSpec ApIntOps ApIntText ApIntTextSpec Lang LangSpec SatSolver SatLits SatSearch SatSolve.
From S2P Require Import SatTheorems Dag DagSpec Bits Gates Bitblast BlastSem GateSpec CircuitSpec CircuitWord BlastSpec BlastGraph.
From S2P Require Import BlastTheorems SmtSolver SmtAst SmtLower SmtMeaning SmtNodes SmtOperators SmtTerms SmtTermSpec SmtFormula.
#[local] Open Scope nat_scope.

Implicit Types N : Nodes.

(** ** Packing bits *)
Lemma lor_high_bit acc x i : (0 <= i)%Z -> (0 <= acc < 2 ^ i)%Z -> Z.lor acc (Z.shiftl x i) = (acc + 2 ^ i * x)%Z.
Proof.
  intros Hi Ha. assert (Z.land acc (Z.shiftl x i) = 0%Z) as E.
  { apply Z.bits_inj'. intros k Hk. rewrite Z.land_spec, Z.bits_0. destruct (Z.ltb_spec k i).
    - rewrite Z.shiftl_spec_low by lia. apply andb_false_r.
    - by rewrite (bounded_testbit acc i) by lia. }
  rewrite <- Z.lxor_lor, <- Z.add_nocarry_lxor, Z.shiftl_mul_pow2 by done. lia.
Qed.

Lemma pack_word_spec bits : forall i acc, (0 <= i)%Z -> (i + Z.of_nat (length bits) <= 64)%Z -> (0 <= acc < 2 ^ i)%Z ->
  pack i acc bits = Some (acc + 2 ^ i * bval bits)%Z.
Proof.
  induction bits as [|b bits IH]; intros i acc Hi Hl Ha; cbn [pack bval].
  - f_equal. lia.
  - cbn [length] in Hl. rewrite (proj2 (Z.ltb_lt _ _)) by lia. rewrite lor_high_bit by done.
    assert (2 ^ (i + 1) = 2 * 2 ^ i)%Z as Ep by (rewrite Z.pow_add_r by lia; lia).
    rewrite IH; [f_equal; rewrite Ep; lia|lia|lia|rewrite Ep; destruct b; cbn; lia].
Qed.

Lemma bits_to_apint_spec width bits : length bits = width -> 0 < width <= 64 ->
  bits_to_apint (Z.of_nat width) bits = Some (repr (Z.of_nat width) false (bval bits)).
Proof.
  intros Hl Hw. unfold bits_to_apint. rewrite pack_word_spec by lia. cbn [mbind option_bind]. rewrite Z.add_0_l, Z.mul_1_l.
  pose proof (bval_bound bits) as Hb. unfold Bits.size in Hb. rewrite Hl in Hb. apply new_repr; [lia|]. unfold is_u64.
  pose proof (Z.pow_le_mono_r 2 (Z.of_nat width) 64). lia.
Qed.

(** A value of a sort. *)
Definition holds_value (a : APInt) (s : Sort_) (v : Z) : Prop := wf a /\ ApInt.width a = Z.of_nat (sort_bits s) /\ uval a = v.

Lemma repr_value s v : 0 < sort_bits s -> (0 <= v < 2 ^ Z.of_nat (sort_bits s))%Z ->
  holds_value (repr (Z.of_nat (sort_bits s)) false v) s v.
Proof.
  intros Hp Hv. split; [apply repr_wf; lia|]. split; [done|]. rewrite uval_repr by lia. by apply Z.mod_small.
Qed.

(** ** The script of a solver *)
Lemma script_meaning_app cmds1 : forall G cmds2 G' fs, script_meaning G (cmds1 ++ cmds2) = Some (G', fs) ->
  exists G1 fs1 fs2, script_meaning G cmds1 = Some (G1, fs1) /\ script_meaning G1 cmds2 = Some (G', fs2) /\ fs = fs1 ++ fs2.
Proof.
  induction cmds1 as [|c cmds1 IH]; intros G cmds2 G' fs Hm; [by exists G, [], fs|]. cbn [app script_meaning] in *.
  destruct c; try (by apply IH).
  - destruct (declare G name sort) as [G1|]; [by apply IH|done].
  - destruct args; [|done]. destruct (declare G name ret) as [G1|]; [by apply IH|done].
  - destruct (define G def) as [G1|]; [by apply IH|done].
  - destruct (meaning G ∅ t) as [[s f]|]; [|done]. cbn [mbind option_bind] in *. case_bool_decide; [|done].
    destruct (script_meaning G (cmds1 ++ cmds2)) as [[G2 fs']|] eqn:E; [|done]. injection Hm as <- <-.
    destruct (IH _ _ _ _ E) as (G1 & fs1 & fs2 & -> & E2 & ->). cbn [mbind option_bind]. by eexists G1, _, fs2.
Qed.

Lemma declares_meaning decls : forall G G' fs, script_meaning G (map (fun '(name, sort) => DeclareConst name sort) decls) = Some (G', fs) ->
  fs = [] /\ Forall (fun d => is_Some (sort_of (snd d))) decls /\ forall x s, g_decls G' !! x = Some s <-> g_decls G !! x = Some s \/ exists sort, (x, sort) ∈ decls /\ sort_of sort = Some s.
Proof.
  induction decls as [|[name sort] decls IH]; intros G G' fs Hm.
  { injection Hm as <- <-. split; [done|]. split; [constructor|]. intros x s. split; [by left|]. intros [H|(sort & H & _)]; [done|].
    by apply not_elem_of_nil in H. }
  cbn [map script_meaning] in Hm. destruct (declare G name sort) as [G1|] eqn:Ed; [|done]. cbn [mbind option_bind] in Hm.
  destruct (declare_inv _ _ _ _ Ed) as (s1 & Hf & Es & ->). destruct (fresh_inv _ _ Hf) as (F1 & _).
  destruct (IH _ _ _ Hm) as (-> & Hmc & Hd). cbn [g_decls g_macros] in *. split; [done|]. split; [constructor; [by exists s1|done]|]. intros x s. rewrite Hd. split.
  - intros [[[<- <-]|[Hne H]]%lookup_insert_Some|(sort' & H & Hs)].
    + right. exists sort. split; [constructor|done].
    + by left.
    + right. exists sort'. split; [by constructor|done].
  - intros [H|(sort' & H & Hs)].
    + left. rewrite lookup_insert_ne; [done|]. intros <-. congruence.
    + apply elem_of_cons in H as [[= -> ->]|H]; [|right; by exists sort']. left. rewrite Es in Hs. injection Hs as <-. by rewrite lookup_insert_eq.
Qed.

Lemma defines_decls defs : forall G G' fs, script_meaning G (map DefineFun defs) = Some (G', fs) -> g_decls G' = g_decls G /\ fs = [].
Proof.
  induction defs as [|def defs IH]; intros G G' fs Hm; [by injection Hm as <- <-|]. cbn [map script_meaning] in Hm.
  destruct (define G def) as [G1|] eqn:Ed; [|done]. cbn [mbind option_bind] in Hm. destruct (define_inv _ _ _ Ed) as (mc & _ & _ & ->). by apply IH in Hm.
Qed.

Lemma asserts_decls ts : forall G G' fs, script_meaning G (map Assert ts) = Some (G', fs) -> G' = G /\ length fs = length ts.
Proof.
  induction ts as [|t ts IH]; intros G G' fs Hm; [by injection Hm as <- <-|]. cbn [map script_meaning] in Hm.
  destruct (meaning G ∅ t) as [[s f]|]; [|done]. cbn [mbind option_bind] in Hm. case_bool_decide; [|done].
  destruct (script_meaning G (map Assert ts)) as [[G1 fs1]|] eqn:E; [|done]. injection Hm as <- <-. destruct (IH _ _ _ E) as [-> L]. cbn. by rewrite L.
Qed.

Lemma env_meaning s cmds G fs : script_meaning no_globals (push_env s ++ cmds) = Some (G, fs) ->
  exists G1, script_meaning G1 cmds = Some (G, fs) /\ Forall (fun d => is_Some (sort_of (snd d))) (sv_decls s) /\
    forall x st, g_decls G1 !! x = Some st <-> exists sort, (x, sort) ∈ sv_decls s /\ sort_of sort = Some st.
Proof.
  unfold push_env. rewrite <- app_assoc. intros Hm. apply script_meaning_app in Hm as (G1 & fs1 & fs2 & H1 & Hm & ->).
  apply script_meaning_app in Hm as (G2 & fs3 & fs4 & H2 & Hm & ->). destruct (declares_meaning _ _ _ _ H1) as (-> & Hs & Hd).
  destruct (defines_decls _ _ _ _ H2) as [Eg ->]. cbn [app]. exists G2. split; [done|]. split; [done|]. intros x st. rewrite Eg, Hd. split.
  - intros [H|H]; [|done]. cbn in H. by rewrite lookup_empty in H.
  - by right.
Qed.

(** What a well-sorted solver declares and asserts. *)
Lemma solver_script s extra G fs : script_meaning no_globals (build_script extra s) = Some (G, fs) ->
  length fs = length (sv_asserts s ++ extra) /\ Forall (fun d => is_Some (sort_of (snd d))) (sv_decls s) /\
  forall x st, g_decls G !! x = Some st <-> exists sort, (x, sort) ∈ sv_decls s /\ sort_of sort = Some st.
Proof.
  unfold build_script. intros Hm. assert (script_meaning no_globals (push_env s ++ map Assert (sv_asserts s ++ extra)) = Some (G, fs)) as Hm'.
  { by destruct (sv_logic s). }
  destruct (env_meaning _ _ _ _ Hm') as (G1 & H1 & Hs & Hd). destruct (asserts_decls _ _ _ _ H1) as [<- L]. done.
Qed.

(** ** The model *)
Lemma decl_width sort st : sort_of sort = Some st -> SmtSolver.sort_width sort = Z.of_nat (sort_bits st) /\ 0 < sort_bits st <= 64.
Proof.
  destruct sort as [[name [|[n|?] [|? ?]]] [|? ?]]; cbn; try done.
  - destruct (name =? "Bool")%string eqn:E; [|done]. intros [= <-]. apply String.eqb_eq in E as ->. cbn. lia.
  - destruct (name =? "BitVec")%string eqn:E; [|done]. cbn [andb]. destruct (width_ok n) eqn:Ew; [|done]. intros [= <-].
    apply String.eqb_eq in E as ->. unfold width_ok in Ew. unfold SmtSolver.sort_width. cbn. rewrite Z.mod_small; lia.
Qed.

Lemma default_decls decls : forall model, Forall (fun d => is_Some (sort_of (snd d))) decls ->
  exists model', fold_left default_decl decls (Some model) = Some model' /\
    (forall x a, model !! x = Some a -> model' !! x = Some a) /\
    (forall x sort, (x, sort) ∈ decls -> is_Some (model' !! x)) /\
    (forall x a, model' !! x = Some a -> model !! x = Some a \/
      model !! x = None /\ exists sort st, (x, sort) ∈ decls /\ sort_of sort = Some st /\ holds_value a st 0).
Proof.
  induction decls as [|[name sort] decls IH]; intros model Hs.
  { exists model. split; [done|]. split; [done|]. split; [|by left]. intros x sort H. by apply not_elem_of_nil in H. }
  apply Forall_cons_1 in Hs as [[st Hst] Hs]. cbn [snd] in Hst. cbn [fold_left]. unfold default_decl at 2. cbn [mbind option_bind fst snd].
  destruct (model !! name) as [a0|] eqn:E.
  - destruct (IH model Hs) as (model' & E' & H1 & H2 & H3). exists model'. split; [done|]. split; [done|]. split.
    + intros x sort' [[= -> ->]|H]%elem_of_cons; [by eexists; apply H1|by eapply H2].
    + intros x a [H|(Hn & sort' & st' & H & H')]%H3; [by left|]. right. split; [done|]. exists sort', st'. split; [by constructor|done].
  - destruct (decl_width sort st Hst) as [Hw Hb]. rewrite Hw, new_repr by (done || lia). cbn [mbind option_bind].
    destruct (IH (<[name := repr (Z.of_nat (sort_bits st)) false 0]> model) Hs) as (model' & E' & H1 & H2 & H3). exists model'.
    split; [done|]. split; [|split].
    + intros x a Hx. apply H1. rewrite lookup_insert_ne; [done|]. intros <-. congruence.
    + intros x sort' [[= -> ->]|H]%elem_of_cons; [|by eapply H2]. eexists. apply H1. apply lookup_insert_eq.
    + intros x a Hx. destruct (H3 x a Hx) as [[[<- <-]|[Hne H]]%lookup_insert_Some|(Hn & sort' & st' & H & H')].
      * right. split; [done|]. exists sort, st. split; [constructor|]. split; [done|]. apply repr_value; [lia|].
        split; [done|]. apply Z.pow_pos_nonneg; lia.
      * by left.
      * apply lookup_insert_None in Hn as [Hn _]. right. split; [done|]. exists sort', st'. split; [by constructor|done].
Qed.

(** What the bits of a symbol decode to. *)
Definition bits_ok (G : Globals) (symbols : list SymbolInfo) (rho : Assignment) (sid : nat) (bs : list bool) : Prop :=
  exists info s, symbols !! sid = Some info /\ g_decls G !! si_name info = Some s /\ si_width info = Some (sort_bits s) /\
    0 < sort_bits s <= 64 /\ length bs = sort_bits s /\ bval bs = rho (si_name info).

Lemma decode_symbols G symbols rho (m : gmap nat (list bool)) : (forall sid bs, m !! sid = Some bs -> bits_ok G symbols rho sid bs) ->
  exists model, map_fold (decode_symbol symbols) (Some ∅) m = Some model /\
    (forall sid info, is_Some (m !! sid) -> symbols !! sid = Some info -> is_Some (model !! si_name info)) /\
    (forall x a, model !! x = Some a -> exists s, g_decls G !! x = Some s /\ holds_value a s (rho x)).
Proof.
  apply (map_fold_weak_ind (fun r m => (forall sid bs, m !! sid = Some bs -> bits_ok G symbols rho sid bs) -> exists model, r = Some model /\
    (forall sid info, is_Some (m !! sid) -> symbols !! sid = Some info -> is_Some (model !! si_name info)) /\
    (forall x a, model !! x = Some a -> exists s, g_decls G !! x = Some s /\ holds_value a s (rho x)))).
  - intros _. exists ∅. split; [done|]. split; [intros sid info [? H]|intros x a H]; by rewrite lookup_empty in H.
  - clear m. intros sid bs m r Hnone IH Hm. destruct IH as (model & -> & H1 & H2).
    { intros sid' bs' H. apply Hm. rewrite lookup_insert_ne; [done|]. intros ->. congruence. }
    destruct (Hm sid bs) as (info & s & Ei & Ed & Ew & Hp & Hl & Hv); [apply lookup_insert_eq|].
    unfold decode_symbol. cbn [mbind option_bind]. rewrite Ei. cbn [mbind option_bind]. rewrite Ew. cbn [default from_option id].
    rewrite (bits_to_apint_spec (sort_bits s)) by done. cbn [mbind option_bind]. eexists. split; [done|]. split.
    + intros sid' info' Hsid Hi. destruct (decide (si_name info = si_name info')) as [->|Hne]; [rewrite lookup_insert_eq; by eexists|].
      rewrite lookup_insert_ne by done. apply (H1 sid'); [|done]. rewrite lookup_insert_ne in Hsid; [done|]. intros <-. congruence.
    + intros x a [[<- <-]|[_ H]]%lookup_insert_Some; [|by apply H2]. exists s. split; [done|]. rewrite <- Hv.
      apply repr_value; [lia|]. pose proof (bval_bound bs) as Hb. unfold Bits.size in Hb. by rewrite Hl in Hb.
Qed.

(** A model gives every declared symbol its value. *)
Definition model_of (G : Globals) (model : SmtModel) (rho : Assignment) : Prop :=
  forall x s, g_decls G !! x = Some s -> exists a, model !! x = Some a /\ holds_value a s (rho x).

Section model.
Context (G : Globals) (fs : list (Assignment -> Z)) (lw : Lowerer) (N : Nodes) (root : nat).
Context (L : lowered_script G fs lw N root).
Notation graph := (lw_graph lw).

Lemma symbol_at j sid : BlastGraph.symbol_node graph j sid -> exists x s, lw_symbols lw !! x = Some j /\ g_decls G !! x = Some s /\
  N !! j = Some (mkNode SymKind.Symbol [] (Some (SymbolId sid)) (sort_bits s)) /\
  lw_symbol_info lw !! sid = Some (mkSymbolInfo x (Some (sort_bits s)) (bool_decide (s = SBool))).
Proof.
  intros [Hk Hl]. pose proof (lowered_rep _ _ _ _ _ L) as R. unfold get_node in Hk. rewrite (rep_kinds _ _ R) in Hk.
  change (map nk N) with (nk <$> N) in Hk. rewrite list_lookup_fmap in Hk. destruct (N !! j) as [nd|] eqn:E; [|done]. injection Hk as Hk.
  destruct (lo_state _ _ _ _ _ L) as (B & n & S). destruct (inv_symbols _ _ _ _ (ss_inv _ _ _ _ _ S)) as [_ S2 _].
  destruct (S2 j nd E Hk) as [x Hx]. destruct (lowered_symbol _ _ _ _ _ L x j Hx) as (sid' & s & Hd & HN & Hi).
  destruct (node_at lw N R j nd E) as (_ & _ & Hl' & _). rewrite Hl in Hl'. injection Hl' as Hl'. rewrite E in HN. injection HN as ->. cbn in Hl'.
  injection Hl' as <-. exists x, s. done.
Qed.

Lemma decoded_bits m vals : decodes graph (lw_width lw) [] m vals -> forall sid bs, m !! sid = Some bs ->
  bits_ok G (lw_symbol_info lw) (assignment_of lw vals) sid bs.
Proof.
  intros [Hd _] sid bs Hb. destruct (Hd sid bs Hb) as (j & Hj & Hs & Hv & sh & Hsh & Hw). destruct (symbol_at j sid Hs) as (x & s & Hx & Hg & HN & Hi).
  exists (mkSymbolInfo x (Some (sort_bits s)) (bool_decide (s = SBool))), s. cbn [si_name si_width]. do 3 (split; [done|]).
  split; [by eapply declared_positive|]. pose proof (lowered_rep _ _ _ _ _ L) as R. rewrite (graph_length lw N R), (node_shapes lw N R), firstn_all in Hsh by done.
  injection Hsh as <-. cbn [sh_ws] in Hw. rewrite (typed_shape N j (sort_bits s)) in Hw by (by eexists). injection Hw as Hw.
  split; [done|]. unfold assignment_of. by rewrite Hx.
Qed.

Lemma build_model_spec m vals s : decodes graph (lw_width lw) [] m vals -> Forall (fun d => is_Some (sort_of (snd d))) (sv_decls s) ->
  (forall x st, g_decls G !! x = Some st <-> exists sort, (x, sort) ∈ sv_decls s /\ sort_of sort = Some st) ->
  exists model, build_model (lw_symbol_info lw) m s = Some model /\ model_of G model (assignment_of lw vals).
Proof.
  intros Hd Hs Hg. destruct (decode_symbols G (lw_symbol_info lw) (assignment_of lw vals) m (decoded_bits m vals Hd)) as (model & E & H1 & H2).
  unfold build_model. rewrite E. destruct (default_decls (sv_decls s) model Hs) as (model' & E' & D1 & D2 & D3). exists model'. split; [done|].
  intros x st Hx. pose proof Hx as (sort & Hin & Hst)%Hg. destruct (D2 x sort Hin) as [a Ha]. exists a. split; [done|].
  destruct (D3 x a Ha) as [Hm|(Hn & sort' & st' & Hin' & Hst' & Hv)].
  - destruct (H2 x a Hm) as (st' & Hx' & Hv). congruence.
  - assert (g_decls G !! x = Some st') as Hx' by (apply Hg; by exists sort'). rewrite Hx in Hx'. injection Hx' as <-.
    unfold assignment_of. destruct (lw_symbols lw !! x) as [id|] eqn:Es; [|done]. exfalso.
    destruct (lowered_symbol _ _ _ _ _ L x id Es) as (sid & s1 & _ & HN & Hi). destruct Hd as [_ Hd].
    pose proof (lowered_rep _ _ _ _ _ L) as R. destruct (node_at lw N R id _ HN) as (Hk & _ & Hl & _).
    destruct (H1 sid (mkSymbolInfo x (Some (sort_bits s1)) (bool_decide (s1 = SBool)))) as [a' Ha']; [|done|cbn in Ha'; congruence].
    apply (Hd id); [|done]. rewrite (graph_length lw N R). by eapply lookup_lt_Some.
Qed.
End model.

(** ** Checking *)

(** The root of the lowering is the last node. *)
Definition rooted (depth : nat) (script : Script) : bool :=
  match lower_script depth script with LOk lo => bool_decide (root (lo_graph lo) = Some (lo_root lo)) | _ => true end.

Definition verdict_correct (G : Globals) (fs : list (Assignment -> Z)) (s : Solver) (r : CheckResult) (s' : Solver) : Prop :=
  match r with
  | CheckedSat => exists model rho, s' = set_model (Some model) s /\ model_of G model rho /\ satisfies G fs rho
  | CheckedUnsat => s' = set_model None s /\ forall rho, ~ satisfies G fs rho
  | CheckedUnknown => False
  end.

Lemma check_spec s extra G fs depth : script_meaning no_globals (build_script extra s) = Some (G, fs) -> no_capture (build_script extra s) = true ->
  script_fuel (build_script extra s) <= depth -> length (sv_asserts s ++ extra) <> 1 \/ rooted depth (build_script extra s) = true ->
  exists n, forall steps, n <= steps -> exists r s', check_sat_assuming depth steps extra s = Some (r, s') /\ verdict_correct G fs s r s'.
Proof.
  intros Hm Hn Hf Hr. set (script := build_script extra s) in *. destruct (solver_script s extra G fs Hm) as (Lf & Hs & Hd).
  destruct (lower_script_spec depth script G fs Hm Hn Hf) as (rt & lw & N & E & L).
  assert (root (lw_graph lw) = Some rt) as Hroot.
  { destruct Hr as [Hl|Hr]; [by apply (lower_script_last depth script _ G fs E Hm); rewrite Lf|]. unfold rooted in Hr. rewrite E in Hr.
    by apply bool_decide_eq_true in Hr. }
  pose proof (lowered_formula _ _ _ _ _ L) as HF.
  destruct (blast_into_spec (lw_graph lw) (lw_width lw) [] SatSolver.new HF new_stands) as (bl & sh & b & Gc & Eb & Hst & Rb).
  exists (enough_fuel (num_vars (bl_solver bl))). intros steps Hsteps.
  destruct (solve_root_decides _ _ _ bl sh b Gc steps Rb Hst Hsteps) as (out & Eo & Ho).
  unfold check_sat_assuming. change (build_script extra (set_model None s)) with script. rewrite E. cbn [lo_graph lo_widths lo_symbols].
  unfold blast. rewrite Eb. rewrite Eo. cbn [mbind option_bind]. destruct out as [m| |]; [| |done].
  - destruct Ho as (vals & defs & HI & (r & Er & Hodd) & Hdec). rewrite Hroot in Er. injection Er as <-.
    destruct (build_model_spec _ _ _ _ _ L m vals (set_model None s) Hdec Hs Hd) as (model & -> & Hmod). cbn [mbind option_bind].
    eexists _, _. split; [done|]. exists model, (assignment_of lw vals). split; [done|]. split; [done|]. by eapply interpretation_satisfies.
  - eexists _, _. split; [done|]. split; [done|]. intros rho Hrho.
    destruct (satisfying_interpretation _ _ _ _ _ L rho Hrho) as (vals & defs & HI & _ & Ho'). apply (Ho vals defs HI). by exists rt.
Qed.

(** ** Scopes of the solver

    [push] and [pop] bracket the declarations, definitions and assertions: the
    commands between a [push] and its [pop] leave no trace but the logic. *)
(** The state after a list of commands that does not exit. *)
Fixpoint final_state (depth steps : nat) (cmds : Script) (s : Solver) : option Solver :=
  match cmds with
  | [] => Some s
  | cmd :: cmds => '(s, _, _) ← run_command depth steps cmd s; final_state depth steps cmds s
  end.

(** Every [pop] of the list undoes a [push] of the list. *)
Fixpoint balanced (level : nat) (cmds : Script) : bool :=
  match cmds with
  | [] => level =? 0
  | Push n :: cmds => balanced (level + usize_of n) cmds
  | Pop n :: cmds => (usize_of n <=? level) && balanced (level - usize_of n) cmds
  | Reset :: _ | ResetAssertions :: _ | Exit :: _ => false
  | _ :: cmds => balanced level cmds
  end.

(** Commands that do not consult the solver. *)
Definition quiet (c : Command) : bool :=
  match c with CheckSat | CheckSatAssuming _ | GetModel | GetValue _ => false | _ => true end.

Definition restored (s s1 : Solver) : Solver :=
  mkSolver (sv_logic s1) (sv_decls s) (sv_defines s) (sv_asserts s) (sv_checkpoints s) None.

(** ** The invariant *)
Definition at_least (p q : nat * nat * nat) : Prop :=
  let '(d, f, a) := p in let '(d', f', a') := q in d <= d' /\ f <= f' /\ a <= a'.

Record above (s : Solver) (level : nat) (s1 : Solver) : Prop := {
  ab_checkpoints : exists new, sv_checkpoints s1 = new ++ checkpoint s :: sv_checkpoints s /\ length new = level /\ Forall (at_least (checkpoint s)) new;
  ab_decls : sv_decls s `prefix_of` sv_decls s1;
  ab_defines : sv_defines s `prefix_of` sv_defines s1;
  ab_asserts : sv_asserts s `prefix_of` sv_asserts s1;
}.

Lemma prefix_take_enough {A} (l m : list A) n : l `prefix_of` m -> length l <= n -> l `prefix_of` take n m.
Proof. intros [k ->] Hn. rewrite take_app_ge by done. by apply prefix_app_r. Qed.

Lemma prefix_take_exact {A} (l m : list A) : l `prefix_of` m -> take (length l) m = l.
Proof. intros [k ->]. apply take_app_length. Qed.

Lemma above_start s : above s 0 (push 1 s).
Proof. split; try done. by exists []. Qed.

Lemma above_push s level s1 n : above s level s1 -> above s (level + n) (push n s1).
Proof.
  intros H. induction n as [|n IH]; [by rewrite Nat.add_0_r|]. cbn [push Nat.iter nat_rect]. fold (Nat.iter n push_one s1). fold (push n s1).
  destruct IH as [(new & E & L & Hn) Hd Hf Ha]. split; [|done..]. exists (checkpoint (push n s1) :: new).
  cbn [push_one sv_checkpoints]. rewrite E. split; [done|]. split; [cbn; lia|]. constructor; [|done].
  repeat split; by apply prefix_length.
Qed.

Lemma above_pop_one s level s1 : above s (S level) s1 -> above s level (pop_one s1).
Proof.
  intros [(new & E & L & Hnew) Hd Hf Ha]. unfold pop_one. rewrite E.
  destruct new as [|[[d f] a] new]; [cbn in L; lia|]. cbn [app]. apply Forall_cons_1 in Hnew as [(B1 & B2 & B3) Hnew].
  split; cbn [sv_checkpoints sv_decls sv_defines sv_asserts]; [|by apply prefix_take_enough..].
  exists new. split; [done|]. split; [cbn in L; lia|done].
Qed.

Lemma above_pop s level s1 n : n <= level -> above s level s1 -> above s (level - n) (Nat.iter n pop_one s1).
Proof.
  intros Hn H. induction n as [|n IH]; [by rewrite Nat.sub_0_r|]. rewrite Nat.iter_succ. apply above_pop_one.
  replace (S (level - S n)) with (level - n) by lia. apply IH. lia.
Qed.

Lemma above_ext s level s1 s2 : sv_checkpoints s2 = sv_checkpoints s1 -> sv_decls s1 `prefix_of` sv_decls s2 -> sv_defines s1 `prefix_of` sv_defines s2 ->
  sv_asserts s1 `prefix_of` sv_asserts s2 -> above s level s1 -> above s level s2.
Proof. intros E H1 H2 H3 [A1 A2 A3 A4]. split; [by rewrite E|by etrans..]. Qed.

Lemma pop_above s s1 : above s 0 s1 -> pop 1 s1 = restored s s1.
Proof.
  intros [(new & E & L & _) Hd Hf Ha]. destruct new; [|done]. unfold pop. cbn [Nat.iter nat_rect]. unfold pop_one. rewrite E. cbn [app checkpoint].
  unfold set_model, restored. cbn. by rewrite !prefix_take_exact.
Qed.

(** Checking only changes the model. *)
Lemma check_state depth steps extra s r s' : check_sat_assuming depth steps extra s = Some (r, s') -> exists m, s' = set_model m s.
Proof.
  unfold check_sat_assuming. destruct (lower_script _ _) as [lo| |]; [|intros [= _ <-]; by eexists|done].
  destruct (blast _ _) as [bl| |]; [|intros [= _ <-]; by eexists|done]. destruct (solve_root steps bl) as [[m| |]|]; cbn [mbind option_bind]; [| | |done].
  - destruct (build_model _ _ _) as [model|]; [|done]. intros [= _ <-]. by eexists.
  - intros [= _ <-]. by eexists.
  - intros [= _ <-]. by eexists.
Qed.

Lemma above_command depth steps s level s1 cmd cmds s2 out more : above s level s1 -> balanced level (cmd :: cmds) = true ->
  run_command depth steps cmd s1 = Some (s2, out, more) -> exists level', above s level' s2 /\ balanced level' cmds = true.
Proof.
  intros HA HB HR.
  assert (forall extra, ('(r, s) ← check_sat_assuming depth steps extra s1; Some (s, [as_str r], true)) = Some (s2, out, more) -> above s level s2) as Hcheck.
  { intros extra H. destruct (check_sat_assuming depth steps extra s1) as [[r s3]|] eqn:E; [|done]. cbn [mbind option_bind] in H. injection H as <- _ _.
    apply check_state in E as [m ->]. by eapply above_ext; [..|exact HA]. }
  assert (forall (o : option (option string)), (m ← o; Some (s1, [default error_line m], true)) = Some (s2, out, more) -> above s level s2) as Hget.
  { intros [m|] H; [|done]. injection H as <- _ _. done. }
  destruct cmd; cbn [run_command balanced] in *; try discriminate HB;
    try (injection HR as <- _ _; exists level; split; [|done]; by eapply above_ext; [..|exact HA]; try apply prefix_app_r).
  - destruct args; injection HR as <- _ _; exists level; (split; [|done]); [|done]. by eapply above_ext; [..|exact HA]; try apply prefix_app_r.
  - exists level. split; [by apply (Hcheck [])|done].
  - exists level. split; [by eapply Hcheck|done].
  - exists level. split; [by eapply Hget|done].
  - exists level. split; [by eapply Hget|done].
  - injection HR as <- _ _. exists (level + usize_of n). split; [by apply above_push|done].
  - injection HR as <- _ _. apply andb_true_iff in HB as [Hn HB]. exists (level - usize_of n). split; [|done].
    eapply above_ext; [..|apply (above_pop s level s1 (usize_of n)); [by apply Nat.leb_le|exact HA]]; done.
Qed.

Lemma above_run depth steps s cmds : forall level s1 s2, above s level s1 -> balanced level cmds = true -> final_state depth steps cmds s1 = Some s2 -> above s 0 s2.
Proof.
  induction cmds as [|cmd cmds IH]; intros level s1 s2 HA HB HR.
  { cbn in HB. apply Nat.eqb_eq in HB as ->. by injection HR as <-. }
  cbn [final_state] in HR. destruct (run_command depth steps cmd s1) as [[[s3 out] more]|] eqn:E; [|done]. cbn [mbind option_bind] in HR.
  destruct (above_command depth steps s level s1 cmd cmds s3 out more HA HB E) as (level' & HA' & HB'). by eapply IH.
Qed.

Lemma final_state_app depth steps cmds1 cmds2 s : final_state depth steps (cmds1 ++ cmds2) s = final_state depth steps cmds1 s ≫= final_state depth steps cmds2.
Proof.
  revert s; induction cmds1 as [|cmd cmds1 IH]; intros s; [done|]. cbn [app final_state].
  destruct (run_command depth steps cmd s) as [[[s1 out] more]|]; [|done]. cbn [mbind option_bind]. apply IH.
Qed.

Lemma quiet_runs depth steps cmds : forall s, forallb quiet cmds = true -> is_Some (final_state depth steps cmds s).
Proof.
  induction cmds as [|cmd cmds IH]; intros s Hq; [by exists s|]. apply andb_true_iff in Hq as [Hc Hq]. cbn [final_state].
  assert (exists s1 out more, run_command depth steps cmd s = Some (s1, out, more)) as (s1 & out & more & ->); [|by apply IH].
  destruct cmd; try discriminate Hc; try (by eexists _, _, _). destruct args; by eexists _, _, _.
Qed.

(** ** Reading values from a model

    [eval_term] fixes the symbols of a term to their values in the model,
    solves, and reads the bits of the term's node: the value it returns is the
    term's value in the assignment of the model. *)
(** ** Fixing bits *)

(** The parts of a blasted graph other than its solver. *)
Definition same_parts {S T} (bl : Blasted S) (bl' : Blasted T) : Prop :=
  root_bit bl' = root_bit bl /\ bl_sym_bits bl' = bl_sym_bits bl /\ node_bits bl' = node_bits bl /\ node_defined bl' = node_defined bl.

Lemma same_parts_trans {S T U} (a : Blasted S) (b : Blasted T) (c : Blasted U) : same_parts a b -> same_parts b c -> same_parts a c.
Proof. intros (A1 & A2 & A3 & A4) (B1 & B2 & B3 & B4). repeat split; congruence. Qed.

Definition fixed (rho : valuation) (lits : list Lit) (value : Z) : Prop := num rho lits = (value mod 2 ^ Z.of_nat (length lits))%Z.

Lemma fixed_cons rho l lits v : fixed rho (l :: lits) v <-> lit_true rho l = Z.odd v /\ fixed rho lits (v / 2).
Proof.
  unfold fixed, num. cbn [bits map bval length]. fold (bits rho lits). set (n := length lits).
  assert (v mod 2 ^ Z.of_nat (S n) = Z.b2z (Z.odd v) + 2 * ((v / 2) mod 2 ^ Z.of_nat n))%Z as ->.
  { rewrite Nat2Z.inj_succ, Z.pow_succ_r by lia. rewrite Z.rem_mul_r by lia. rewrite Zmod_odd. by destruct (Z.odd v). }
  assert (forall (x y : bool) (a b : Z), Z.b2z x + 2 * a = Z.b2z y + 2 * b <-> x = y /\ a = b)%Z as Hb.
  { intros x y a b. split; [|by intros [-> ->]]. destruct x, y; cbn; intros; split; (done || lia). }
  apply Hb.
Qed.

Lemma unit_clause rho l (b : bool) : clause_true rho [if b then l else negate l] <-> lit_true rho l = b.
Proof.
  rewrite clause_true_cons, clause_true_nil_iff. destruct b; [tauto|]. rewrite lit_true_negate. destruct (lit_true rho l); cbn; intuition congruence.
Qed.

Lemma fix_bits_from value lits : forall i bl G, stands G (bl_solver bl) -> wires G lits -> (0 <= i)%Z -> (i + Z.of_nat (length lits) <= 64)%Z ->
  exists bl', snd <$> fold_left (fix_bit value) lits (Some (i, bl)) = Some bl' /\ same_parts bl bl' /\
    stands (mkCtx (cvars G) (fun rho => cholds G rho /\ fixed rho lits (value / 2 ^ i))) (bl_solver bl').
Proof.
  induction lits as [|l lits IH]; intros i bl G Hs Hw Hi Hl.
  - exists bl. split; [done|]. split; [done|]. eapply stands_iff; [| |exact Hs]; [done|]. intros rho. cbn. unfold fixed. cbn. rewrite Z.mod_1_r. tauto.
  - cbn [length] in Hl. apply list.Forall_cons in Hw as [Hl0 Hw]. cbn [fold_left]. unfold fix_bit at 2. cbn [mbind option_bind].
    rewrite (proj2 (Z.ltb_lt _ _)) by lia.
    destruct (with_clause_spec bl G [if Z.testbit value i then l else negate l] Hs) as (s1 & -> & S1 & _).
    { apply list.Forall_cons. split; [|by apply list.Forall_nil]. destruct (Z.testbit value i); [done|by apply wire_negate]. }
    cbn [mbind option_bind].
    destruct (IH (i + 1)%Z (mkBlasted s1 (root_bit bl) (bl_sym_bits bl) (node_bits bl) (node_defined bl)) _ S1 Hw ltac:(lia) ltac:(lia)) as (bl' & E & P & S2).
    exists bl'. split; [done|]. split; [by eapply same_parts_trans; [|exact P]|]. eapply stands_iff; [| |exact S2]; [done|].
    intros rho. cbn [cholds conj]. rewrite unit_clause, fixed_cons.
    assert (Z.odd (value / 2 ^ i) = Z.testbit value i) as -> by (by rewrite Z.testbit_odd, Z.shiftr_div_pow2).
    assert (value / 2 ^ i / 2 = value / 2 ^ (i + 1))%Z as -> by (by rewrite Z.pow_add_r, <- Z.div_div by lia). tauto.
Qed.

Lemma fix_bits_spec value lits bl G : stands G (bl_solver bl) -> wires G lits -> length lits <= 64 ->
  exists bl', fix_bits value lits bl = Some bl' /\ same_parts bl bl' /\
    stands (mkCtx (cvars G) (fun rho => cholds G rho /\ fixed rho lits value)) (bl_solver bl').
Proof.
  intros Hs Hw Hl. destruct (fix_bits_from value lits 0 bl G Hs Hw ltac:(lia) ltac:(lia)) as (bl' & E & P & S1). exists bl'.
  split; [done|]. split; [done|]. eapply stands_iff; [| |exact S1]; [done|]. intros rho. cbn. by rewrite Z.div_1_r.
Qed.

(** The value in the model of the symbol [sid]. *)
Definition symbol_value (symbols : list SymbolInfo) (model : SmtModel) (sid : nat) : option Z :=
  info ← symbols !! sid; a ← model !! si_name info; Some (to_u64 a).

Lemma fix_symbols_spec symbols model (m : gmap nat (list Lit)) bl G : stands G (bl_solver bl) ->
  (forall sid ls, m !! sid = Some ls -> wires G ls /\ length ls <= 64 /\ is_Some (symbol_value symbols model sid)) ->
  exists bl', map_fold (fix_symbol symbols model) (Some (Some bl)) m = Some (Some bl') /\ same_parts bl bl' /\
    stands (mkCtx (cvars G) (fun rho => cholds G rho /\
      forall sid ls v, m !! sid = Some ls -> symbol_value symbols model sid = Some v -> fixed rho ls v)) (bl_solver bl').
Proof.
  intros Hs. apply (map_fold_weak_ind (fun r m => (forall sid ls, m !! sid = Some ls -> wires G ls /\ length ls <= 64 /\ is_Some (symbol_value symbols model sid)) ->
    exists bl', r = Some (Some bl') /\ same_parts bl bl' /\ stands (mkCtx (cvars G) (fun rho => cholds G rho /\
      forall sid ls v, m !! sid = Some ls -> symbol_value symbols model sid = Some v -> fixed rho ls v)) (bl_solver bl'))).
  - intros _. exists bl. split; [done|]. split; [done|]. eapply stands_iff; [| |exact Hs]; [done|]. intros rho. cbn. split; [|by intros [? _]].
    intros H. split; [done|]. intros sid ls v H'. by rewrite lookup_empty in H'.
  - clear m. intros sid ls m r Hnone IH Hm. destruct IH as (bl1 & -> & P1 & S1).
    { intros sid' ls' H. apply Hm. rewrite lookup_insert_ne; [done|]. intros ->. congruence. }
    destruct (Hm sid ls) as (Hw & Hl & [v Hv]); [apply lookup_insert_eq|]. unfold fix_symbol. cbn [mbind option_bind].
    pose proof Hv as Hv'. unfold symbol_value in Hv'. destruct (symbols !! sid) as [info|]; [|done]. cbn [mbind option_bind] in *.
    destruct (model !! si_name info) as [a|]; [|done]. injection Hv' as Hv'.
    destruct (fix_bits_spec (to_u64 a) ls bl1 _ S1 Hw Hl) as (bl2 & -> & P2 & S2). cbn [mbind option_bind]. exists bl2. split; [done|].
    split; [by eapply same_parts_trans|]. eapply stands_iff; [| |exact S2]; [done|]. intros rho. cbn [cholds]. rewrite Hv'. split.
    + intros [[H1 H2] H3]. split; [done|]. intros sid' ls' v' [[<- <-]|[_ H]]%lookup_insert_Some Hv2; [congruence|by eapply H2].
    + intros [H1 H2]. split; [split; [done|]|].
      * intros sid' ls' v' H Hv2. apply (H2 sid'); [|done]. rewrite lookup_insert_ne; [done|]. intros ->. congruence.
      * apply (H2 sid); [apply lookup_insert_eq|done].
Qed.

(** ** The probe *)
Lemma lower_commands_app fuel c1 c2 : forall ids lw, lower_commands fuel (c1 ++ c2) ids lw = (lower_commands fuel c1 ids ≫= lower_commands fuel c2) lw.
Proof.
  induction c1 as [|c c1 IH]; intros ids lw; [done|]. cbn [app lower_commands].
  assert (forall (m : Lower unit) lw, (_ ← m; lower_commands fuel (c1 ++ c2) ids) lw = ((_ ← m; lower_commands fuel c1 ids) ≫= lower_commands fuel c2) lw) as Hu.
  { intros m lw'. unfold mbind, lower_bind. destruct (m lw') as [[u lw1]| |]; [apply IH|done..]. }
  destruct c; try apply IH; try apply Hu.
  - destruct args; [apply Hu|done].
  - unfold mbind, lower_bind. destruct (lower_term fuel t lw) as [[i lw1]| |]; [apply IH|done..].
Qed.

Definition probe_node (i1 i2 : nat) : NodeRec := mkNode SymKind.Eq [i1; i2] None 1.

Lemma chain_eq_pair N i1 i2 width : typed N i1 width -> typed N i2 width -> 0 < width ->
  builds (chain_eq [i1; i2]) N (fun id N' => id = length N /\ N' = N ++ [probe_node i1 i2]).
Proof.
  intros H1 H2 Hw lw R. assert (form N (probe_node i1 i2)) as Hf by (by apply (form_test N SymKind.Eq true i1 i2 width)).
  destruct (mk_spec N (probe_node i1 i2) Hf eq_refl lw R) as (id & lw' & N' & E & HR & HT & HG & HK). exists id, lw', N'.
  split; [|done]. change (mk SymKind.Eq [i1; i2] (Some 1) lw = LOk (id, lw')) in E. unfold chain_eq, require_min_arity, cmp_all, cmp. cbn.
  unfold mbind, lower_bind. cbn. by rewrite E.
Qed.

(** A term's node, twice, under a disposable equation. *)
Record probed (G : Globals) (st : Sort_) (f : Assignment -> Z) (lw : Lowerer) N (i1 i2 : nat) : Prop := {
  pr_state : exists B n, script_state B G n lw (N ++ [probe_node i1 i2]);
  pr_typed : typed (N ++ [probe_node i1 i2]) i1 (sort_bits st);
  pr_left : forall vals rho, holds (N ++ [probe_node i1 i2]) vals -> sym_agree lw vals rho -> vals i1 = f rho;
  pr_right : forall vals rho, holds (N ++ [probe_node i1 i2]) vals -> sym_agree lw vals rho -> vals i2 = f rho;
  pr_form : form N (probe_node i1 i2);
}.

Lemma probe_lowers t s G st f depth : script_meaning no_globals (push_env s) = Some (G, []) -> meaning G ∅ t = Some (st, f) -> 0 < sort_bits st ->
  no_capture (probe_script t s) = true -> script_fuel (probe_script t s) <= depth ->
  exists lw N i1 i2, lower_script depth (probe_script t s) = LOk (mkLowered (lw_graph lw) (length N) (lw_symbol_info lw) (lw_width lw)) /\
    probed G st (fun rho => f rho ∅) lw N i1 i2.
Proof.
  intros Hm Ht Hst Hn Hf. set (cmds := probe_script t s) in *. set (B := concat (map command_binders cmds)).
  pose proof (no_capture_hygienic cmds Hn) as Hh. unfold cmds, probe_script in Hh. apply Forall_app in Hh as [Hh Ha]. apply Forall_cons_1 in Ha as [[Hb _] _].
  fold (probe_script t s) in Hh, Hb. fold cmds in Hh, Hb. fold B in Hh, Hb.
  assert (script_fuel cmds = S (commands_depth (push_env s) + (SmtMeaning.depth (term_app "=" [t; t]) + 0))) as Ef.
  { unfold script_fuel, cmds, probe_script. f_equal. change (commands_depth (push_env s ++ [Assert (term_app "=" [t; t])]) =
      commands_depth (push_env s) + (SmtMeaning.depth (term_app "=" [t; t]) + 0)).
    unfold commands_depth. rewrite foldr_app. cbn [fold_right command_depth]. generalize (SmtMeaning.depth (term_app "=" [t; t]) + 0). intros k.
    generalize (push_env s). intros l. induction l as [|c l IH]; cbn; lia. }
  destruct (lower_commands_spec B depth (push_env s) no_globals 0 lowerer_new [] [] [] G [] (initial_state B) Hm Hh)
    as (ids & lw0 & N0 & n & E0 & Ln & S0 & A0); [lia|constructor|]. destruct ids; [|by inversion A0]. clear A0.
  destruct depth as [|depth]; [lia|]. change (SmtMeaning.depth (term_app "=" [t; t])) with (S (Nat.max (SmtMeaning.depth t) (Nat.max (SmtMeaning.depth t) 0))) in Ef.
  assert (lowers (lw_decls lw0) (lw_defs lw0) (mapM (fun x => lower_term depth x) [t; t]) lw0 N0
    (fun ids lw' N' => Forall2 (fun id d => denotes lw' N' ∅ id d) ids [(st, f); (st, f)])) as (ids & lw1 & N1 & E1 & HI1 & X1 & Hd).
  { eapply (terms_lower (lw_decls lw0) (lw_defs lw0) B (fun t => t) depth G n).
    - apply lower_term_spec. by eapply theory_undefined.
    - apply S0.
    - cbn [mapM]. by rewrite Ht.
    - apply S0.
    - split; [by intros x st' Hx; rewrite lookup_empty in Hx|]. intros x i. by rewrite (ss_scope _ _ _ _ _ S0).
    - intros x Hx. assert (x = t) as -> by (by repeat (apply elem_of_cons in Hx as [->|Hx]; [done|]); apply not_elem_of_nil in Hx).
      split; [intros y _ _; by rewrite (ss_scope _ _ _ _ _ S0)|]. split; [|lia]. intros y Hy. apply Hb. cbn. apply elem_of_app. by left. }
  apply Forall2_cons_inv_r in Hd as (i1 & ids1 & D1 & Hd & ->). apply Forall2_cons_inv_r in Hd as (i2 & ids2 & D2 & Hd & ->).
  apply Forall2_nil_inv_r in Hd as ->. pose proof (chain_eq_pair N1 i1 i2 (sort_bits st) (proj1 D1) (proj1 D2) Hst) as Hb2.
  destruct (lowers_builds _ _ _ lw1 N1 _ HI1 Hb2) as (id & lw2 & N2 & E2 & HI2 & X2 & -> & ->).
  exists lw2, N1, i1, i2. split.
  - unfold lower_script, cmds, probe_script.
    assert (lower_commands (S depth) (push_env s ++ [Assert (term_app "=" [t; t])]) [] lowerer_new = LOk ([length N1], lw2)) as Ec.
    { rewrite lower_commands_app, (lower_run _ _ lowerer_new [] lw0) by done. cbn [lower_commands].
      rewrite (lower_run _ _ lw0 (length N1) lw2); [done|]. cbn [lower_term]. unfold lower_app. cbn.
      rewrite (lower_run _ _ lw0 (lw_defs lw0 !! "=") lw0) by done. rewrite (theory_undefined B _ _ _ _ S0) by done.
      rewrite (lower_run _ _ lw0 [i1; i2] lw1) by exact E1. exact E2. }
    rewrite (lower_run _ _ lowerer_new [length N1] lw2 Ec). done.
  - pose proof (rep_formed _ _ (inv_rep _ _ _ _ HI2)) as HW2. pose proof (inv_formed _ _ _ _ HI1) as HW1.
    split.
    + exists B, n. destruct S0 as [H1 H2 H3 H4 H5 H6]. destruct HI2 as [I1 I2 I3 I4]. split; rewrite ?I3, ?I4; try done.
      by rewrite (ex_scope _ _ _ _ X2), (ex_scope _ _ _ _ X1).
    + eapply typed_mono; [apply (ex_prefix _ _ _ _ X2)|apply D1].
    + intros vals rho Hv Hr. destruct (denotes_mono _ _ _ _ _ _ _ HW1 X2 D1) as [_ HV]. apply (HV vals rho); [done|done|apply empty_agree].
    + intros vals rho Hv Hr. destruct (denotes_mono _ _ _ _ _ _ _ HW1 X2 D2) as [_ HV]. apply (HV vals rho); [done|done|apply empty_agree].
    + apply (form_test N1 SymKind.Eq true i1 i2 (sort_bits st)); [done|apply D1|apply D2|done].
Qed.

Lemma to_u64_uval a : wf a -> (ApInt.width a <= 64)%Z -> to_u64 a = uval a.
Proof.
  intros [_ Hh _ _ _] Hw. unfold to_u64, uval, limbs. destruct (high a) as [h|]; [|cbn; lia].
  assert (is_Some (Some h)) as Hs by (by eexists). apply Hh in Hs. lia.
Qed.

Section value.
Context (G : Globals) (st : Sort_) (f : Assignment -> Z) (lw : Lowerer) (N : Nodes) (i1 i2 : nat).
Context (P : probed G st f lw N i1 i2).
Notation N' := (N ++ [probe_node i1 i2]).
Notation graph := (lw_graph lw).

Lemma probe_true vals rho : holds N' vals -> sym_agree lw vals rho -> vals (length N) = 1%Z.
Proof.
  intros Hh Hr. apply (holds_last N (probe_node i1 i2) vals); [apply P|done|]. unfold node_value. cbn [probe_node nk ncs nw].
  unfold BlastSem.arg. cbn [lookup list_lookup default from_option id]. rewrite (pr_left _ _ _ _ _ _ _ P vals rho), (pr_right _ _ _ _ _ _ _ P vals rho) by done.
  unfold smt_op. cbn. by rewrite Z.eqb_refl.
Qed.

Lemma probe_script_lowered : lowered_script G [] lw N' (length N).
Proof.
  split; [apply P|exists (probe_node i1 i2); split; [by apply list_lookup_middle|done]|].
  intros vals rho Hh Hr. rewrite (probe_true vals rho) by done. split; done.
Qed.
Notation L := probe_script_lowered.

Context (model : SmtModel) (rho : Assignment) (Hmodel : model_of G model rho).

Lemma model_ok : assignment_ok G rho.
Proof.
  intros x s Hx. destruct (Hmodel x s Hx) as (a & _ & Ha & Hw & <-). rewrite <- Hw. by apply uval_bounds.
Qed.

Lemma model_symbol x s sid b : g_decls G !! x = Some s -> lw_symbol_info lw !! sid = Some (mkSymbolInfo x (Some (sort_bits s)) b) ->
  symbol_value (lw_symbol_info lw) model sid = Some (rho x).
Proof.
  intros Hx Hi. destruct (Hmodel x s Hx) as (a & Ea & Ha & Hw & Hv). unfold symbol_value. rewrite Hi. cbn [mbind option_bind si_name].
  rewrite Ea. cbn [mbind option_bind]. rewrite to_u64_uval by (done || (rewrite Hw; pose proof (declared_positive _ _ _ _ _ L x s Hx); lia)). by rewrite Hv.
Qed.

(** The symbols of the blasted graph, under the valuations that fix them. *)
Section blasted.
Context (bl : Blasted SatSolver.Solver) (sh : Shapes) (b : Blaster SatSolver.Solver) (Gc : Ctx).
Context (Rb : blast_result graph (lw_width lw) [] bl sh b Gc).
Notation symbols := (lw_symbol_info lw).

Definition symbols_fixed (rho0 : valuation) : Prop :=
  forall sid ls v, sym_bits b !! sid = Some ls -> symbol_value symbols model sid = Some v -> fixed rho0 ls v.

Lemma blasted_width j ls width : b_bits b !! j = Some ls -> typed N' j width -> wires Gc ls /\ length ls = width.
Proof.
  intros Hb Ht. pose proof (lowered_rep _ _ _ _ _ L) as R. pose proof (br_ok _ _ _ _ _ _ _ Rb) as Bk.
  destruct (no_bits _ _ _ _ (bo_nodes _ _ _ _ _ _ _ Bk) j ls Hb) as [Hw Hl]. split; [done|]. pose proof (bo_shapes _ _ _ _ _ _ _ Bk) as Hs.
  rewrite (graph_length lw N' R), (node_shapes lw N' R), firstn_all in Hs by done. injection Hs as Hs. rewrite <- Hs in Hl. cbn [sh_ws] in Hl.
  rewrite (typed_shape N' j width Ht) in Hl. by injection Hl.
Qed.

Lemma blasted_symbols sid ls : sym_bits b !! sid = Some ls -> exists j x s, b_bits b !! j = Some ls /\ wires Gc ls /\ length ls = sort_bits s /\
  lw_symbols lw !! x = Some j /\ g_decls G !! x = Some s /\ symbol_value symbols model sid = Some (rho x).
Proof.
  intros Hls. destruct (bo_sym _ _ _ _ _ _ _ (br_ok _ _ _ _ _ _ _ Rb) sid ls Hls) as (j & Hj & Hs & Hb).
  destruct (symbol_at _ _ _ _ _ L j sid Hs) as (x & s & Hx & Hd & HN & Hi). exists j, x, s. split; [done|].
  destruct (blasted_width j ls (sort_bits s) Hb) as [Hw Hl]; [by eexists|]. do 4 (split; [done|]). by eapply model_symbol.
Qed.

(** An interpretation of the model's values is a valuation that fixes the
    symbols, and conversely. *)
Lemma interpretation_fixes vals defs rho0 : sym_agree lw vals rho -> matches b (len graph) rho0 vals defs -> symbols_fixed rho0.
Proof.
  intros Hr M0 sid ls v Hls Hv'. destruct (blasted_symbols sid ls Hls) as (j & x & s & Hb & _ & Hl & Hx & Hd & Hv2). rewrite Hv2 in Hv'. injection Hv' as <-.
  assert (j < len graph) as Hj by (rewrite <- (bo_bits _ _ _ _ _ _ _ (br_ok _ _ _ _ _ _ _ Rb)); by eapply lookup_lt_Some).
  destruct (M0 j Hj) as [Hval _]. unfold rvals in Hval. rewrite Hb in Hval. cbn [default from_option id] in Hval. unfold fixed. rewrite Hval, (Hr x j Hx), Hl.
  symmetry. apply Z.mod_small. by apply model_ok.
Qed.

Lemma fixed_agrees rho0 : symbols_fixed rho0 -> sym_agree lw (rvals (b_bits b) rho0) rho.
Proof.
  intros Hfix x j Hx. pose proof (lowered_rep _ _ _ _ _ L) as R. pose proof (br_ok _ _ _ _ _ _ _ Rb) as Bk.
  destruct (lowered_symbol _ _ _ _ _ L x j Hx) as (sid & s & Hd & HN & Hi). destruct (node_at lw N' R j _ HN) as (Hk & _ & Hl & _).
  assert (j < len graph) as Hj by (rewrite (graph_length lw N' R); by eapply lookup_lt_Some).
  destruct (bo_sym_all _ _ _ _ _ _ _ Bk j sid Hj) as [ls Hls]; [done|]. pose proof (model_symbol x s sid _ Hd Hi) as Hv.
  destruct (bo_sym _ _ _ _ _ _ _ Bk sid ls Hls) as (j2 & _ & Hs2 & Hb2). destruct (symbol_at _ _ _ _ _ L j2 sid Hs2) as (x2 & s2 & Hx2 & _ & _ & Hi2).
  rewrite Hi in Hi2. injection Hi2 as <- _ _. rewrite Hx in Hx2. injection Hx2 as <-.
  pose proof (Hfix sid ls (rho x) Hls Hv) as Hf. unfold fixed in Hf. unfold rvals. rewrite Hb2. cbn [default from_option id]. rewrite Hf.
  destruct (blasted_width j ls (sort_bits s) Hb2) as [_ ->]; [by eexists|]. apply Z.mod_small. by apply model_ok.
Qed.

Lemma solved_values : stands Gc (bl_solver bl) ->
  exists bl', map_fold (fix_symbol symbols model) (Some (Some bl)) (bl_sym_bits bl) = Some (Some bl') /\ same_parts bl bl' /\
    forall steps, enough_fuel (cvars Gc) <= steps -> exists m s' lits, SatSolver.solve steps (bl_solver bl') = Some (Sat m, s') /\
      node_bits bl' !! i1 = Some lits /\ length lits = sort_bits st /\ lit_values s' lits = Some (bits (val_of m) lits) /\
      bval (bits (val_of m) lits) = f rho.
Proof.
  intros Hst. pose proof (lowered_rep _ _ _ _ _ L) as R. pose proof (br_ok _ _ _ _ _ _ _ Rb) as Bk. rewrite (br_sym _ _ _ _ _ _ _ Rb).
  destruct (fix_symbols_spec symbols model (sym_bits b) bl Gc Hst) as (bl' & E & SP & S1).
  { intros sid ls Hls. destruct (blasted_symbols sid ls Hls) as (j & x & s & _ & Hw & Hl & _ & Hd & Hv). split; [done|]. split; [|by eexists].
    rewrite Hl. by apply (declared_positive _ _ _ _ _ L x s). }
  exists bl'. split; [done|]. split; [done|]. intros steps Hsteps. destruct S1 as (Hok & _ & En). cbn [cvars cholds] in *.
  pose proof (enough_fuel_work (bl_solver bl')) as Hwk. rewrite En in Hwk.
  destruct (solve_with_budget_spec _ steps None (bl_solver bl') Hok) as (r & s' & Es & _ & _ & Hv); [lia|].
  change (solve_with_budget steps None (bl_solver bl')) with (SatSolver.solve steps (bl_solver bl')) in Es.
  destruct (satisfying_interpretation _ _ _ _ _ L rho) as (vals & defs & HI & Hr & _); [split; [exact model_ok|constructor]|].
  destruct (bo_complete _ _ _ _ _ _ _ Bk vals defs HI) as (rho0 & H0 & M0).
  destruct r as [m| |]; cbn [verdict] in Hv; [|destruct (Hv rho0); split; [done|by eapply interpretation_fixes]|by destruct Hv].
  destruct Hv as [Lm [HG Hfix]]. pose proof (interpretation_holds lw N' R _ _ (bo_sound _ _ _ _ _ _ _ Bk (val_of m) HG)) as Hh.
  pose proof (pr_typed _ _ _ _ _ _ _ P) as Ht. pose proof (typed_lt _ _ _ Ht) as Hi1. rewrite <- (graph_length lw N' R), <- (bo_bits _ _ _ _ _ _ _ Bk) in Hi1.
  destruct (lookup_lt_is_Some_2 _ _ Hi1) as [lits Hlits]. exists m, s', lits. split; [done|]. destruct SP as (_ & _ & -> & _).
  rewrite (br_bits _ _ _ _ _ _ _ Rb). split; [done|]. destruct (blasted_width i1 lits _ Hlits Ht) as [Wl Ll]. split; [done|]. split.
  - pose proof (solve_model _ _ _ _ Es) as Em. rewrite Em. apply lit_values_spec. intros l Hl. rewrite <- Em, Lm, En. unfold wires in Wl.
    rewrite Forall_forall in Wl. by apply Wl.
  - rewrite <- (pr_left _ _ _ _ _ _ _ P _ rho Hh (fixed_agrees _ Hfix)). unfold rvals. by rewrite Hlits.
Qed.
End blasted.
End value.

(** ** The value of a term *)
Lemma eval_term_spec s t G st f rho model depth : sv_model s = Some model -> script_meaning no_globals (push_env s) = Some (G, []) ->
  meaning G ∅ t = Some (st, f) -> 0 < sort_bits st <= 64 -> no_capture (probe_script t s) = true -> script_fuel (probe_script t s) <= depth ->
  model_of G model rho -> exists n, forall steps, n <= steps ->
    exists a, eval_term depth steps t s = Some (Some (a, term_is_bool s t)) /\ holds_value a st (f rho ∅).
Proof.
  intros Em Hm Ht Hst Hn Hf Hmod. destruct (probe_lowers t s G st f depth Hm Ht ltac:(lia) Hn Hf) as (lw & N & i1 & i2 & E & P).
  pose proof (probe_script_lowered _ _ _ _ _ _ _ P) as L. pose proof (lowered_rep _ _ _ _ _ L) as R. pose proof (lowered_formula _ _ _ _ _ L) as HF.
  destruct (blast_into_spec (lw_graph lw) (lw_width lw) [] SatSolver.new HF new_stands) as (bl & sh & b & Gc & Eb & Hs & Rb).
  destruct (solved_values _ _ _ _ _ _ _ P model rho Hmod bl sh b Gc Rb Hs) as (bl' & Efix & SP & Hsolve).
  exists (enough_fuel (cvars Gc)). intros steps Hsteps. destruct (Hsolve steps Hsteps) as (m & s' & lits & Es & El & Ll & Ev & Eval).
  exists (repr (Z.of_nat (sort_bits st)) false (f rho ∅)). pose proof (bval_bound (bits (val_of m) lits)) as Hb.
  unfold Bits.size in Hb. rewrite length_bits, Ll, Eval in Hb. split; [|by apply repr_value; [lia|]].
  destruct (node_at lw _ R (length N) (probe_node i1 i2)) as (_ & Hc & _ & _); [by apply list_lookup_middle|].
  unfold eval_term. rewrite Em, E. cbn [lo_graph lo_widths lo_symbols]. unfold blast. rewrite Eb, Efix. cbn [mbind option_bind].
  rewrite Es. cbn [mbind option_bind]. rewrite (graph_root lw _ R), length_app. cbn [length]. rewrite Nat.add_1_r, Hc. cbn [mbind option_bind probe_node ncs].
  destruct (pr_typed _ _ _ _ _ _ _ P) as (nd & En & Ew). rewrite (rep_widths _ _ R).
  change (map (fun nd => Some (nw nd)) (N ++ [probe_node i1 i2])) with ((fun nd => Some (nw nd)) <$> (N ++ [probe_node i1 i2])).
  rewrite list_lookup_fmap, En. cbn [fmap option_fmap option_map mbind option_bind]. rewrite Ew, El. cbn [mbind option_bind]. rewrite Ev. cbn [mbind option_bind].
  rewrite pack_word_spec by (rewrite ?length_bits, ?Ll; lia). cbn [mbind option_bind]. rewrite Eval, Z.add_0_l, Z.mul_1_l.
  rewrite new_repr; [done|lia|]. unfold is_u64. pose proof (Z.pow_le_mono_r 2 (Z.of_nat (sort_bits st)) 64). lia.
Qed.
