(* ===== verification/SmtTheorems.v ===== *)
(** * The theorems of the SMT-LIB front end and the solver

    Lowering refines the meaning of scripts, checking decides it, values are
    those of the model, and scopes nest. The last theorems show where the code
    departs from SMT-LIB. *)
From S2P Require Import Prelude Words ApInt ApIntSpec ApIntOps ApIntText ApIntTextSpec Lang LangSpec SatSolver Dag DagSpec Bits Gates.
From S2P Require Import Bitblast BlastSem CircuitWord BlastSpec BlastGraph BlastTheorems SmtSolver SmtAst SmtLower.
From S2P Require Import SmtMeaning SmtNodes SmtTerms SmtTermSpec SmtFormula SmtSolverSpec.
From Stdlib Require Import Ascii.
#[local] Open Scope string_scope.
#[local] Open Scope Z_scope.
#[local] Open Scope list_scope.

(** ** Printed values *)
Definition byte_char (c : Z) : Prop := 0 <= c < 256.

Lemma text_of_string_of t : Forall byte_char t -> text_of (string_of t) = t.
Proof.
  unfold text_of, string_of. rewrite String.list_ascii_of_string_of_list_ascii. induction 1 as [|c t Hc _ IH]; [done|]. cbn [map].
  f_equal; [|done]. unfold char_code. unfold byte_char in Hc. rewrite nat_ascii_embedding by lia. lia.
Qed.

Section fixed_text.
Context (R : Z) (HR : 2 <= R <= 16).

Lemma fixed_bytes k x : 0 <= x -> Forall byte_char (ApIntTextSpec.fixed R k x).
Proof.
  revert x; induction k as [|k IH]; intros x Hx; [constructor|]. cbn [ApIntTextSpec.fixed]. apply Forall_app. split; [apply IH, Z.div_pos; lia|].
  constructor; [|constructor]. pose proof (Z.mod_pos_bound x R ltac:(lia)). unfold byte_char, digit_char. destruct (_ <? _); lia.
Qed.

Lemma fixed_length k x : length (ApIntTextSpec.fixed R k x) = k.
Proof. revert x; induction k as [|k IH]; intros x; [done|]. cbn [ApIntTextSpec.fixed]. rewrite length_app, IH. cbn. lia. Qed.

(** A number printed at its width is the literal of that width. *)
Lemma printed_literal bits k v : R = 2 ^ bits -> width_ok (bits * Z.of_nat (S k)) = true -> 0 <= v < R ^ Z.of_nat (S k) ->
  literal_meaning R bits (string_of (padded (S k) (radix_text R v))) = Some (SBits (Z.to_nat (bits * Z.of_nat (S k))), v).
Proof.
  intros Hb Hw Hv. rewrite padded_fixed by done. unfold literal_meaning. rewrite <- text_length, text_of_string_of, fixed_length, Hw by (apply fixed_bytes; lia).
  rewrite digits_value_fixed by done. done.
Qed.
End fixed_text.

(** How a value of [width] bits is shown: as a Boolean or as the literal that
    means it. *)
Definition shows (is_bool : bool) (width : nat) (v : Z) (out : string) : Prop :=
  if is_bool then out = if Z.odd v then "true" else "false"
  else exists digits, out = "#x" +:+ digits /\ constant_meaning (CHexadecimal digits) = Some (SBits width, v) \/
    out = "#b" +:+ digits /\ constant_meaning (CBinary digits) = Some (SBits width, v).

Lemma format_value_shows a st v is_bool : holds_value a st v -> (0 < sort_bits st <= 64)%nat -> shows is_bool (sort_bits st) v (format_value a is_bool).
Proof.
  intros (Ha & Hw & <-) Hst. pose proof (uval_bounds a Ha) as Hb. rewrite Hw in Hb. unfold format_value, shows.
  rewrite to_u64_uval by (done || lia). destruct is_bool; [done|]. rewrite Hw. set (w := sort_bits st) in *.
  destruct (Z.eqb_spec (Z.of_nat w mod 4) 0) as [Hm|Hm].
  - eexists. left. split; [done|]. assert (exists k, Z.to_nat (Z.of_nat w / 4) = S k) as [k Ek] by (exists (pred (Z.to_nat (Z.of_nat w / 4))); divlia).
    assert (4 * Z.of_nat (S k) = Z.of_nat w) as Ew by divlia. cbn [constant_meaning]. rewrite Ek, (printed_literal 16 ltac:(lia) 4); [|done|unfold width_ok; rewrite Ew; apply andb_true_iff; split; apply Z.leb_le; lia|].
    + rewrite Ew. by rewrite Nat2Z.id.
    + rewrite pow_16 by lia. by rewrite Ew.
  - eexists. right. split; [done|]. assert (exists k, Z.to_nat (Z.of_nat w) = S k) as [k Ek] by (exists (pred w); lia).
    cbn [constant_meaning]. rewrite Ek, (printed_literal 2 ltac:(lia) 1); [|done|unfold width_ok; apply andb_true_iff; split; apply Z.leb_le; lia|].
    + do 3 f_equal. lia.
    + replace (Z.of_nat (S k)) with (Z.of_nat w) by lia. done.
Qed.

(** ** The sorts of terms by their names

    [term_is_bool] reads the sort of a term off the names in it. It is the
    sort of the term when the name that decides is not bound by a [let]
    around it, is not an index operator's that is also a macro's, and is not
    that of a macro whose name begins like a comparison. *)
Definition comparison_name (name : string) : bool := existsb (fun p => String.prefix p name) bool_prefixes.

Fixpoint sorted_by_name (G : Globals) (bound : list string) (t : Term) : bool :=
  match t with
  | TConstant _ | TExists _ _ => true
  | TIdent q =>
    let name := id_symbol (identifier q) in
    if is_simple (identifier q) then negb (bool_decide (name ∈ bound))
    else bool_decide (g_decls G !! name = None) && bool_decide (g_macros G !! name = None)
  | TApp q args =>
    let name := id_symbol (identifier q) in
    if (name =? "ite")%string then match args with _ :: a :: _ => sorted_by_name G bound a | _ => true end
    else bool_decide (g_macros G !! name = None) || is_simple (identifier q) && negb (comparison_name name)
  | TLet binds body => sorted_by_name G (map fst binds ++ bound) body
  | TAnnotated t _ => sorted_by_name G bound t
  end.

Lemma sort_is_bool_of sort st : sort_of sort = Some st -> sort_is_bool sort = bool_decide (st = SBool).
Proof.
  destruct sort as [[name [|[n|?] [|? ?]]] [|? ?]]; cbn; try done.
  - destruct (name =? "Bool")%string eqn:E; [|done]. intros [= <-]. apply String.eqb_eq in E as ->. done.
  - destruct (name =? "BitVec")%string eqn:E; [|done]. cbn [andb]. destruct (width_ok n); [|done]. intros [= <-].
    apply String.eqb_eq in E as ->. done.
Qed.

(** The first declaration and the first definition of a name. *)
Notation decl_of s x := (List.find (fun '(n, _) => (n =? x)%string) (sv_decls s)) (only parsing).
Notation def_of s x := (List.find (fun d => (fd_name d =? x)%string) (sv_defines s)) (only parsing).

Record env_of (s : Solver) (G : Globals) : Prop := mkEnvOf {
  env_decl : forall x, match decl_of s x with
    | Some (_, sort) => exists st, sort_of sort = Some st /\ g_decls G !! x = Some st
    | None => g_decls G !! x = None end;
  env_def : forall x, match def_of s x with
    | Some d => exists mc, sort_of (fd_return_sort d) = Some (mc_sort mc) /\ g_macros G !! x = Some mc
    | None => g_macros G !! x = None end;
  env_apart : forall x, g_macros G !! x <> None -> g_decls G !! x = None /\ find_op x theory = None }.

Lemma declares_find decls : forall G G' fs, script_meaning G (map (fun '(name, sort) => DeclareConst name sort) decls) = Some (G', fs) ->
  g_macros G' = g_macros G /\
  (forall x st, g_decls G !! x = Some st -> g_decls G' !! x = Some st) /\
  (forall x, g_decls G !! x = None -> match List.find (fun '(n, _) => (n =? x)%string) decls with
    | Some (_, sort) => exists st, sort_of sort = Some st /\ g_decls G' !! x = Some st
    | None => g_decls G' !! x = None end).
Proof.
  induction decls as [|[name sort] decls IH]; intros G G' fs Hm; [by injection Hm as <- <-|]. cbn [map script_meaning] in Hm.
  destruct (declare G name sort) as [G1|] eqn:Ed; [|done]. cbn [mbind option_bind] in Hm. destruct (declare_inv _ _ _ _ Ed) as (s1 & Hf & Es & ->).
  destruct (fresh_inv _ _ Hf) as (F1 & _). destruct (IH _ _ _ Hm) as (Em & Hk & Hx). cbn [g_decls g_macros] in *. split; [done|]. split.
  - intros x st H. apply Hk. rewrite lookup_insert_ne; [done|]. intros ->. congruence.
  - intros x H. cbn [List.find]. destruct (String.eqb_spec name x) as [->|Hne].
    + exists s1. split; [done|]. apply Hk, lookup_insert_eq.
    + apply Hx. by rewrite lookup_insert_ne.
Qed.

Lemma defines_find defs : forall G G' fs, script_meaning G (map DefineFun defs) = Some (G', fs) ->
  (forall x mc, g_macros G !! x = Some mc -> g_macros G' !! x = Some mc) /\
  (forall x, g_macros G !! x = None -> match List.find (fun d => (fd_name d =? x)%string) defs with
    | Some d => exists mc, sort_of (fd_return_sort d) = Some (mc_sort mc) /\ g_macros G' !! x = Some mc
    | None => g_macros G' !! x = None end) /\
  (forall x, g_macros G' !! x <> None -> g_macros G !! x <> None \/ g_decls G !! x = None /\ find_op x theory = None).
Proof.
  induction defs as [|def defs IH]; intros G G' fs Hm; [injection Hm as <- <-; split; [done|]; split; [done|by left]|]. cbn [map script_meaning] in Hm.
  destruct (define G def) as [G1|] eqn:Ed; [|done]. cbn [mbind option_bind] in Hm. destruct (define_inv _ _ _ Ed) as (mc & Hf & Emc & ->).
  destruct (fresh_inv _ _ Hf) as (F1 & F2 & F3). destruct (IH _ _ _ Hm) as (Hk & Hx & Ha). cbn [g_decls g_macros] in *. split; [|split].
  - intros x m H. apply Hk. rewrite lookup_insert_ne; [done|]. intros <-. congruence.
  - intros x H. cbn [List.find]. destruct (String.eqb_spec (fd_name def) x) as [<-|Hne].
    + exists mc. split; [|apply Hk, lookup_insert_eq]. unfold macro_meaning in Emc. destruct (mapM _ _) as [ps|]; [|done]. cbn [mbind option_bind] in Emc.
      destruct (sort_of (fd_return_sort def)) as [ret|]; [|done]. cbn [mbind option_bind] in Emc. case_bool_decide; [|done].
      destruct (meaning _ _ _) as [[s1 f]|]; [|done]. cbn [mbind option_bind] in Emc. case_bool_decide as Hs; [|done]. injection Emc as <-. by rewrite Hs.
    + apply Hx. by rewrite lookup_insert_ne.
  - intros x H. destruct (Ha x H) as [H'|H']; [|by right]. destruct (decide (x = fd_name def)) as [->|Hne]; [by right|].
    left. by rewrite lookup_insert_ne in H'.
Qed.

Lemma env_of_script s G fs : script_meaning no_globals (push_env s) = Some (G, fs) -> env_of s G.
Proof.
  unfold push_env. intros (G1 & fs1 & fs2 & H1 & H2 & _)%script_meaning_app. destruct (declares_find _ _ _ _ H1) as (Em & _ & Hd).
  destruct (defines_find _ _ _ _ H2) as (_ & Hf & Ha). destruct (defines_decls _ _ _ _ H2) as [Eg _]. cbn [g_macros g_decls no_globals] in *. split.
  - intros x. rewrite Eg. apply Hd. apply lookup_empty.
  - intros x. apply Hf. rewrite Em. apply lookup_empty.
  - intros x H. rewrite Eg. destruct (Ha x H) as [H'|H']; [|done]. rewrite Em in H'. by rewrite lookup_empty in H'.
Qed.

(** The operators that give a Boolean, a bit-vector, or the sort of an
    argument. *)
Inductive OpSort := GivesBool | GivesBits | GivesArgument.
Definition op_sort (op : OpSpec) : OpSort :=
  match op with
  | BoolFold _ | BoolNot | BoolImplies | CoreEq | CoreDistinct | BitsTest _ => GivesBool
  | BitsFold _ | BitsUnary _ | BitsBinary _ | BitsComp | BitsConcat => GivesBits
  | CoreIte => GivesArgument
  end.

Lemma op_meaning_sort op ss st f : op_meaning op ss = Some (st, f) ->
  match op_sort op with
  | GivesBool => st = SBool
  | GivesBits => st <> SBool
  | GivesArgument => exists c s, ss = [c; st; s]
  end.
Proof.
  intros Hm. destruct op; cbn [op_meaning op_sort] in *; repeat (case_match; try done); simplify_option_eq;
  repeat (case_match; simplify_option_eq); try done; eauto.
Qed.

(** The names by which the code recognises them. *)
Lemma theory_sort name op : find_op name theory = Some op ->
  match op_sort op with
  | GivesBool => head_is_bool name = true /\ name <> "ite"
  | GivesBits => head_is_bool name = false /\ name <> "ite"
  | GivesArgument => name = "ite"
  end.
Proof.
  assert (forall l, find_op name l = Some op -> (name, op) ∈ l) as Hin.
  { induction l as [|[n o] l IH]; cbn [find_op]; [done|]. destruct (String.eqb_spec name n) as [->|]; [intros [= ->]; by left|right; auto]. }
  intros Hop. apply Hin in Hop. clear Hin. revert Hop.
  assert (Forall (fun e : string * OpSpec => match op_sort (snd e) with
    | GivesBool => head_is_bool (fst e) = true /\ fst e <> "ite"
    | GivesBits => head_is_bool (fst e) = false /\ fst e <> "ite"
    | GivesArgument => fst e = "ite" end) theory) as Hall by (unfold theory; repeat constructor; done).
  rewrite Forall_forall in Hall. intros H. exact (Hall _ H).
Qed.

Lemma indexed_sort name indices ss st f : indices <> [] -> indexed_meaning name indices ss = Some (st, f) -> st <> SBool /\ head_is_bool name = false /\ name <> "ite".
Proof.
  intros Hi Hm. unfold indexed_meaning in Hm. destruct indices as [|i1 indices]; [done|].
  destruct i1 as [k|]; [|done]. destruct indices as [|[lo|] [|? ?]]; try done; destruct ss as [|[|n] [|? ?]]; try done.
  - repeat match type of Hm with context [(name =? ?x)%string] => destruct (String.eqb_spec name x) as [->|]; [by destruct (_ && _); [injection Hm as <- _|]|] end. done.
  - destruct (String.eqb_spec name "extract") as [->|]; [|done]. by destruct (_ && _); [injection Hm as <- _|].
Qed.
Lemma bound_sorts (binds : list string) ds ctx bound : (forall x, ctx !! x <> None -> x ∈ bound) ->
  forall x, bind_sorts binds ds ctx !! x <> None -> x ∈ binds ++ bound.
Proof.
  intros Hb x H. unfold bind_sorts in H. apply elem_of_app. destruct (decide (x ∈ binds)) as [|Hx]; [by left|right]. apply Hb.
  intros E. apply H. apply lookup_union_None. split; [|done]. apply not_elem_of_list_to_map_1. intros Hin. apply Hx.
  apply list_elem_of_fmap in Hin as ([y s] & -> & Hin). by apply elem_of_zip_l in Hin.
Qed.

Section sorted.
Context (s : Solver) (G : Globals) (HE : env_of s G).

Lemma defined_none x : g_macros G !! x = None -> default false (defined_is_bool s x) = false.
Proof.
  intros Hx. pose proof (env_def _ _ HE x) as Hd. unfold defined_is_bool. destruct (List.find _ _); [|done]. destruct Hd as (mc & _ & Hd). congruence.
Qed.

Lemma defined_sort x mc : g_macros G !! x = Some mc -> default false (defined_is_bool s x) = bool_decide (mc_sort mc = SBool).
Proof.
  intros Hx. pose proof (env_def _ _ HE x) as Hd. unfold defined_is_bool. destruct (List.find _ _); [|congruence].
  destruct Hd as (mc' & Hs & Hd). assert (mc' = mc) as -> by congruence. cbn. by apply sort_is_bool_of.
Qed.

Lemma bv_literal_sort name n c : bv_meaning name n = Some c -> fst c <> SBool /\ name <> "true" /\ name <> "false".
Proof.
  unfold bv_meaning. destruct name as [|b [|v digits]]; try done. destruct (Ascii.eqb_spec b "b"); [subst|done]. intros Hm.
  split; [|by split; intros [= ]]. destruct (_ && _ && _ && _); [|done]. destruct (digits_value _ _ _); [|done]. cbn [mbind option_bind] in Hm.
  destruct (_ <? _); [|done]. by injection Hm as <-.
Qed.

Lemma ident_sort ctx q st f : ident_meaning G ctx (identifier q) = Some (st, f) ->
  (if is_simple (identifier q) then ctx !! id_symbol (identifier q) = None
   else g_decls G !! id_symbol (identifier q) = None /\ g_macros G !! id_symbol (identifier q) = None) ->
  ident_is_bool s (identifier q) = bool_decide (st = SBool).
Proof.
  unfold ident_meaning, ident_is_bool, is_simple. destruct (identifier q) as [name indices]. cbn [id_symbol id_indices]. intros Hm Hn.
  pose proof (env_decl _ _ HE name) as Hdec. destruct indices as [|[n|?] [|? ?]]; try done.
  - rewrite Hn in Hm. destruct (name =? "true")%string; [by injection Hm as <- _|]. destruct (name =? "false")%string; [by injection Hm as <- _|]. cbn [orb].
    destruct (g_macros G !! name) as [mc|] eqn:Em.
    + destruct (env_apart _ _ HE name) as [Ed _]; [congruence|]. destruct (List.find _ _) as [[n0 sort]|]; [destruct Hdec as (? & _ & ?); congruence|].
      destruct (mc_params mc); [|done]. injection Hm as <- _. by apply defined_sort.
    + destruct (g_decls G !! name) as [s1|] eqn:Ed; [|done]. injection Hm as <- _. destruct (List.find _ _) as [[n0 sort]|]; [|done].
      destruct Hdec as (s2 & Hs & [= ->]). by apply sort_is_bool_of.
  - destruct Hn as [Hd Hmc]. rewrite Hd in Hdec. destruct (bv_meaning name n) as [c|] eqn:E; [|done]. injection Hm as <- _.
    destruct (bv_literal_sort _ _ _ E) as (Hst & Ht & Hf).
    rewrite (proj2 (String.eqb_neq _ _) Ht), (proj2 (String.eqb_neq _ _) Hf), bool_decide_false by done. cbn [orb].
    destruct (List.find _ _) as [[? ?]|]; [by destruct Hdec as (? & _ & ?)|]. by apply defined_none.
Qed.

(** The head of a macro's application is not that of an operator. *)
Lemma macro_head name mc : g_macros G !! name = Some mc -> comparison_name name = false -> head_is_bool name = false /\ name <> "ite".
Proof.
  intros Hmc Hn. destruct (env_apart _ _ HE name) as [_ Hth]; [congruence|]. split; [|by intros ->].
  unfold head_is_bool. fold (comparison_name name). rewrite Hn, orb_false_r. unfold bool_heads. cbn [existsb].
  repeat match goal with |- context [(name =? ?x)%string] => destruct (String.eqb_spec name x) as [Ex|]; [exfalso; by rewrite Ex in Hth|] end. done.
Qed.

(** The sort of an application other than [ite]. *)
Lemma app_sort id ds st f : app_meaning G id ds = Some (st, f) -> 
  (if (id_symbol id =? "ite")%string then True
   else g_macros G !! id_symbol id = None \/ is_simple id = true /\ comparison_name (id_symbol id) = false) ->
  if (id_symbol id =? "ite")%string then exists c s, map fst ds = [c; st; s]
  else (if head_is_bool (id_symbol id) then true else default false (defined_is_bool s (id_symbol id))) = bool_decide (st = SBool).
Proof.
  unfold app_meaning. set (name := id_symbol id). intros Hm Hn.
  destruct (if is_simple id then g_macros G !! name else None) as [mc|] eqn:Emc.
  - destruct (is_simple id); [|done]. destruct (bool_decide (map fst ds = mc_params mc)); [|done]. injection Hm as <- _.
    destruct (env_apart _ _ HE name) as [_ Hth]; [congruence|]. destruct (String.eqb_spec name "ite") as [->|Hne]; [done|].
    destruct Hn as [?|[_ Hn]]; [congruence|]. destruct (macro_head name mc Emc Hn) as [-> _]. by apply defined_sort.
  - destruct (indexed_meaning _ _ _) as [[s1 f1]|] eqn:Ei; [|done]. injection Hm as <- _. unfold is_simple in *.
    destruct (id_indices id) as [|ix ixs] eqn:Eix.
    + destruct (find_op name theory) as [op|] eqn:Eop; [|unfold indexed_meaning in Ei; by rewrite Eop in Ei].
      assert (op_meaning op (map fst ds) = Some (s1, f1)) as Hop by (by unfold indexed_meaning in Ei; rewrite Eop in Ei).
      apply op_meaning_sort in Hop. pose proof (theory_sort name op Eop) as Hh. destruct (op_sort op).
      * destruct Hh as [-> Hne]. subst s1. by rewrite (proj2 (String.eqb_neq _ _) Hne).
      * destruct Hh as [-> Hne]. rewrite (proj2 (String.eqb_neq _ _) Hne), bool_decide_false by done. by apply defined_none.
      * by rewrite Hh.
    + destruct (indexed_sort name (ix :: ixs) (map fst ds) s1 f1) as (Hst & Hh & Hne); [done|done|].
      rewrite (proj2 (String.eqb_neq _ _) Hne) in *. rewrite Hh, bool_decide_false by done. apply defined_none. by destruct Hn as [?|[? _]].
Qed.

Lemma term_is_bool_sort t : forall ctx bound st f, (forall x, ctx !! x <> None -> x ∈ bound) ->
  meaning G ctx t = Some (st, f) -> sorted_by_name G bound t = true -> term_is_bool s t = bool_decide (st = SBool).
Proof.
  induction t as [c|q|q args IH|binds body _ IH|vars body _|t attrs IH] using Term_induction; intros ctx bound st f Hb Hm Hn;
    cbn [meaning sorted_by_name term_is_bool] in *.
  - destruct (constant_meaning c) as [[s1 v]|] eqn:E; [|done]. injection Hm as <- <-. assert (s1 <> SBool) as Hne; [|by rewrite bool_decide_false].
    unfold constant_meaning, literal_meaning in E. destruct c; try done; destruct (width_ok _); try done; destruct (digits_value _ _ _); try done; by injection E as <- <-.
  - eapply ident_sort; [exact Hm|]. destruct (is_simple (identifier q)).
    + apply negb_true_iff, bool_decide_eq_false in Hn. destruct (ctx !! _) eqn:Ec; [exfalso; apply Hn, Hb; congruence|done].
    + apply andb_true_iff in Hn as [Hd Hmc]. apply bool_decide_eq_true in Hd, Hmc. done.
  - destruct (mapM (meaning G ctx) args) as [ds|] eqn:Eds; [|done]. cbn [mbind option_bind] in Hm. apply mapM_Some in Eds.
    pose proof (app_sort _ _ _ _ Hm) as Ha. destruct (String.eqb_spec (id_symbol (identifier q)) "ite") as [->|Hne].
    + destruct (Ha I) as (c & s' & Ess). change (head_is_bool "ite") with false. cbn iota.
      destruct ds as [|d0 [|[sa fa] [|d2 [|? ?]]]]; try done. injection Ess as _ -> _.
      inversion Eds as [|? t0 ? ? _ H1]; subst. inversion H1 as [|? ta ? ? Hta H2]; subst. inversion IH as [|? ? _ IH']; subst. inversion IH' as [|? ? IHa _]; subst.
      by eapply IHa.
    + apply Ha. apply orb_true_iff in Hn as [Hn|[Hs Hn]%andb_true_iff]; [left; by apply bool_decide_eq_true in Hn|right]. by apply negb_true_iff in Hn.
  - destruct (mapM _ binds) as [ds|]; [|done]. cbn [mbind option_bind] in Hm. case_bool_decide; [|done].
    destruct (meaning G (bind_sorts _ _ _) body) as [[s1 f1]|] eqn:Eb; [|done]. injection Hm as <- _.
    eapply IH; [|exact Eb|exact Hn]. by apply bound_sorts.
  - done.
  - by eapply IH.
Qed.
End sorted.

(** The entry of [get-value] for a term and its denotation: the term and a
    value, in the form of the term's sort when its names tell the sort, and
    otherwise in the form that the code chooses. *)
Definition reports (s : Solver) (G : Globals) (rho : Assignment) (td : Term * Denotation) (out : string) : Prop :=
  let '(t, (sort, f)) := td in
  exists shown, out = "(" +:+ show_term t +:+ " " +:+ shown +:+ ")" /\
    shows (term_is_bool s t) (sort_bits sort) (f rho ∅) shown /\
    (sorted_by_name G [] t = true -> shows (bool_decide (sort = SBool)) (sort_bits sort) (f rho ∅) shown).

(** A term that [get-value] accepts. *)
Definition readable (depth : nat) (s : Solver) (t : Term) : bool :=
  no_capture (probe_script t s) && (script_fuel (probe_script t s) <=? depth)%nat.

Lemma get_values_spec s G rho model depth ts ds : sv_model s = Some model -> script_meaning no_globals (push_env s) = Some (G, []) ->
  model_of G model rho -> Forall2 (fun t d => meaning G ∅ t = Some d /\ readable depth s t = true /\ (0 < sort_bits (fst d) <= 64)%nat) ts ds ->
  exists n, forall steps, (n <= steps)%nat -> exists outs, get_values depth steps ts s = Some (Some outs) /\ Forall2 (reports s G rho) (zip ts ds) outs.
Proof.
  intros Em Hm Hmod. induction 1 as [|t [st f] ts ds (Ht & Hr & Hst) _ IH]; [exists 0%nat; intros; exists []; by split|].
  destruct IH as [n1 IH]. unfold readable in Hr. apply andb_true_iff in Hr as [Hn Hf]. apply Nat.leb_le in Hf.
  destruct (eval_term_spec s t G st f rho model depth Em Hm Ht Hst Hn Hf Hmod) as [n2 He]. exists (Nat.max n1 n2). intros steps Hsteps.
  destruct (He steps ltac:(lia)) as (a & Ea & Ha). destruct (IH steps ltac:(lia)) as (outs & Eo & Ho).
  eexists. split; [cbn [get_values]; rewrite Ea; cbn [mbind option_bind]; rewrite Eo; done|]. cbn [zip_with]. constructor; [|done].
  pose proof (format_value_shows a st _ (term_is_bool s t) Ha Hst) as Hsh. exists (format_value a (term_is_bool s t)). split; [done|]. split; [done|].
  intros Hs. by rewrite <- (term_is_bool_sort s G (env_of_script s G [] Hm) t ∅ [] st f) by done.
Qed.

(** ** Properties *)

(** The symbols of a lowered script are declared names with the widths of
    their sorts, each name once. *)
Definition symbols_declared (G : Globals) (lo : Lowered) : Prop :=
  (forall sid info, lo_symbols lo !! sid = Some info -> exists s, g_decls G !! si_name info = Some s /\
    info = mkSymbolInfo (si_name info) (Some (sort_bits s)) (bool_decide (s = SBool))) /\
  NoDup (si_name <$> lo_symbols lo).

(** Every symbol node of a lowered script has the value of its name. *)
Definition assigns (lo : Lowered) (vals : nat -> Z) (rho : Assignment) : Prop :=
  forall id sid, BlastGraph.symbol_node (lo_graph lo) id sid -> exists info, lo_symbols lo !! sid = Some info /\ vals id = rho (si_name info).

Section lowered.
Context (G : Globals) (fs : list (Assignment -> Z)) (lw : Lowerer) (N : Nodes) (root : nat).
Context (L : lowered_script G fs lw N root).
Notation lo := (mkLowered (lw_graph lw) root (lw_symbol_info lw) (lw_width lw)).

Lemma lowered_symbols_declared : symbols_declared G lo.
Proof.
  split.
  - intros sid info Hi. destruct (lowered_info _ _ _ _ _ L sid info Hi) as (id & s & Hx & HN & Hs & _). exists s. split; [done|].
    destruct (lowered_symbol _ _ _ _ _ L _ _ Hx) as (sid' & s' & Hs' & HN' & Hi'). rewrite HN in HN'. injection HN' as <- _.
    cbn [lo_symbols] in Hi. assert (s' = s) as -> by congruence. rewrite Hi in Hi'. by injection Hi' as Hi'.
  - apply NoDup_alt. intros a b x Ha Hb. rewrite list_lookup_fmap in Ha, Hb. cbn [lo_symbols] in Ha, Hb.
    destruct (lw_symbol_info lw !! a) as [ia|] eqn:Ea; [|done]. destruct (lw_symbol_info lw !! b) as [ib|] eqn:Eb; [|done].
    cbn in Ha, Hb. injection Ha as Ha. injection Hb as Hb.
    destruct (lowered_info _ _ _ _ _ L a ia Ea) as (na & sa & Xa & Na & _). destruct (lowered_info _ _ _ _ _ L b ib Eb) as (nb & sb & Xb & Nb & _).
    rewrite Ha in Xa. rewrite Hb in Xb. assert (na = nb) as <- by congruence. rewrite Na in Nb. by injection Nb as ->.
Qed.

Lemma assigns_agree vals rho : assigns lo vals rho <-> sym_agree lw vals rho.
Proof.
  split.
  - intros Ha x id Hx. destruct (lowered_symbol _ _ _ _ _ L x id Hx) as (sid & s & _ & HN & Hi).
    destruct (Ha id sid) as (info & Hinfo & ->); [|cbn [lo_symbols] in Hinfo; by replace info with (mkSymbolInfo x (Some (sort_bits s)) (bool_decide (s = SBool))) by congruence].
    destruct (node_at lw N (lowered_rep _ _ _ _ _ L) id _ HN) as (Hk & _ & Hl & _). by split.
  - intros Ha id sid Hs. destruct (symbol_at _ _ _ _ _ L id sid Hs) as (x & s & Hx & _ & _ & Hi). eexists. split; [exact Hi|]. by apply Ha.
Qed.
End lowered.

(** C2: A well-sorted script without captures lowers, with enough fuel, to a
    typed formula graph. Its symbols are declared names, each once, with the
    widths of their sorts. The graph has one interpretation for each
    assignment and one assignment for each interpretation, in which every
    symbol node has the value of its name; and in an interpretation of an
    assignment the root is one exactly when all the assertions hold. *)
Theorem lowering_refines_meaning fuel cmds G fs : script_meaning no_globals cmds = Some (G, fs) -> no_capture cmds = true ->
  (script_fuel cmds <= fuel)%nat ->
  exists lo, lower_script fuel cmds = LOk lo /\ formula (lo_graph lo) (lo_widths lo) [] /\ symbols_declared G lo /\
    (forall vals defs, interpretation (lo_graph lo) (lo_widths lo) [] vals defs -> exists rho, assignment_ok G rho /\ assigns lo vals rho) /\
    (forall rho, assignment_ok G rho -> exists vals defs, interpretation (lo_graph lo) (lo_widths lo) [] vals defs /\ assigns lo vals rho) /\
    (forall vals defs rho, interpretation (lo_graph lo) (lo_widths lo) [] vals defs -> assignment_ok G rho -> assigns lo vals rho ->
      vals (lo_root lo) = 1 <-> Forall (fun f => f rho = 1) fs).
Proof.
  intros Hm Hn Hf. destruct (lower_script_spec fuel cmds G fs Hm Hn Hf) as (root & lw & N & E & L). eexists. split; [exact E|].
  split; [by eapply lowered_formula|]. split; [by eapply lowered_symbols_declared|]. setoid_rewrite (assigns_agree _ _ _ _ _ L). cbn [lo_graph lo_widths lo_root].
  split; [|split].
  - intros vals defs HI. exists (assignment_of lw vals). split; [|apply assignment_agrees].
    eapply assignment_of_ok; [exact L|]. by apply (interpretation_holds lw N (lowered_rep _ _ _ _ _ L) vals defs).
  - intros rho Hrho. by apply (assignment_interpretation _ _ _ _ _ L).
  - intros vals defs rho HI Hrho Ha. apply (lo_root_value _ _ _ _ _ L); [|done].
    by apply (interpretation_holds lw N (lowered_rep _ _ _ _ _ L) vals defs).
Qed.

Definition sample_commands : Script :=
  [DeclareConst "x" (sort_bitvec 8); DefineFun (mkFunctionDef "next" [mkSortedVar "v" (sort_bitvec 8)] (sort_bitvec 8)
     (term_app "bvadd" [term_ident "v"; term_bv 1 8]));
   Assert (term_app "=" [term_app "next" [term_ident "x"]; TConstant (CHexadecimal "00")]);
   Assert (TLet [("y", indexed_app "extract" [7; 7] [term_ident "x"])] (term_app "=" [term_ident "y"; TConstant (CBinary "1")]))].

Lemma lowering_refines_meaning_witness : match script_meaning no_globals sample_commands with
  | Some (G, fs) => exists lo, lower_script 30 sample_commands = LOk lo /\ formula (lo_graph lo) (lo_widths lo) [] /\ symbols_declared G lo /\
    (forall vals defs, interpretation (lo_graph lo) (lo_widths lo) [] vals defs -> exists rho, assignment_ok G rho /\ assigns lo vals rho) /\
    (forall rho, assignment_ok G rho -> exists vals defs, interpretation (lo_graph lo) (lo_widths lo) [] vals defs /\ assigns lo vals rho) /\
    (forall vals defs rho, interpretation (lo_graph lo) (lo_widths lo) [] vals defs -> assignment_ok G rho -> assigns lo vals rho ->
      vals (lo_root lo) = 1 <-> Forall (fun f => f rho = 1) fs)
  | None => False end.
Proof.
  destruct (script_meaning no_globals sample_commands) as [[G fs]|] eqn:E; [|vm_compute in E; discriminate E].
  apply (lowering_refines_meaning 30 sample_commands G fs E); vm_compute; [reflexivity|lia].
Defined.

(** C3: On a well-sorted state without captures, [check_sat_assuming] decides
    its assertions with the assumptions when the root of their graph is the
    last node, as it is unless there is exactly one: [Sat] stores a model that
    gives every declared symbol a value of its sort, satisfying them all,
    [Unsat] means that no assignment does, and it never panics, runs out of
    steps or answers [Unknown]. *)
Theorem check_sat_decides s extra G fs depth : script_meaning no_globals (build_script extra s) = Some (G, fs) ->
  no_capture (build_script extra s) = true -> (script_fuel (build_script extra s) <= depth)%nat ->
  (length (sv_asserts s ++ extra) <> 1)%nat \/ rooted depth (build_script extra s) = true ->
  exists n, forall steps, (n <= steps)%nat -> exists r s', check_sat_assuming depth steps extra s = Some (r, s') /\
    match r with
    | CheckedSat => exists model rho, s' = set_model (Some model) s /\ model_of G model rho /\ satisfies G fs rho
    | CheckedUnsat => s' = set_model None s /\ forall rho, ~ satisfies G fs rho
    | CheckedUnknown => False
    end.
Proof. intros Hm Hn Hf Hr. exact (check_spec s extra G fs depth Hm Hn Hf Hr). Qed.

Definition sample_solver : Solver := assert_term (term_app "bvult" [term_ident "x"; term_bv 9 8]) (assert_term (term_ident "p")
  (declare_const "p" sort_bool (declare_const "x" (sort_bitvec 8) solver_new))).

Lemma check_sat_decides_witness : match script_meaning no_globals (build_script [] sample_solver) with
  | Some (G, fs) => exists n, forall steps, (n <= steps)%nat -> exists r s', check_sat_assuming 20 steps [] sample_solver = Some (r, s') /\
    match r with
    | CheckedSat => exists model rho, s' = set_model (Some model) sample_solver /\ model_of G model rho /\ satisfies G fs rho
    | CheckedUnsat => s' = set_model None sample_solver /\ forall rho, ~ satisfies G fs rho
    | CheckedUnknown => False
    end
  | None => False end.
Proof.
  destruct (script_meaning no_globals (build_script [] sample_solver)) as [[G fs]|] eqn:E; [|vm_compute in E; discriminate E].
  apply (check_sat_decides sample_solver [] G fs 20 E); [vm_compute; reflexivity|vm_compute; lia|left; vm_compute; lia].
Defined.

(** C4: With a model, [get_value] reports for each well-sorted term without
    captures, of at most 64 bits, its value under the assignment of the model:
    [true] or [false] for a Boolean and the hexadecimal or binary literal that
    means it for a bit-vector, where the names in the term tell its sort
    ([sorted_by_name]: the name that decides is not bound by a [let], and no
    macro has a name that begins like a comparison); elsewhere in the form for
    the sort that the code guesses. *)
Theorem get_value_reports s G rho model depth ts ds : sv_model s = Some model -> script_meaning no_globals (push_env s) = Some (G, []) ->
  model_of G model rho -> Forall2 (fun t d => meaning G ∅ t = Some d /\ readable depth s t = true /\ (0 < sort_bits (fst d) <= 64)%nat) ts ds ->
  exists n, forall steps, (n <= steps)%nat -> exists outs, get_value depth steps ts s = Some (Some (in_parens outs)) /\
    Forall2 (reports s G rho) (zip ts ds) outs.
Proof.
  intros Em Hm Hmod Ht. destruct (get_values_spec s G rho model depth ts ds Em Hm Hmod Ht) as [n Hn]. exists n. intros steps Hs.
  destruct (Hn steps Hs) as (outs & E & H). exists outs. split; [|done]. unfold get_value. by rewrite E.
Qed.

Definition solved_sample : Solver :=
  set_model (Some (<["x" := mkAPInt 8 false 7 None]> (<["p" := mkAPInt 1 false 1 None]> ∅))) sample_solver.
Definition sample_rho : Assignment := fun x => if (x =? "x")%string then 7 else 1.
Definition sample_term : Term := term_app "bvmul" [term_ident "x"; term_ident "x"].

Lemma sample_model G : script_meaning no_globals (push_env solved_sample) = Some (G, []) ->
  model_of G (<["x" := mkAPInt 8 false 7 None]> (<["p" := mkAPInt 1 false 1 None]> ∅)) sample_rho.
Proof.
  intros E. rewrite <- (app_nil_r (push_env solved_sample)) in E. destruct (env_meaning _ _ _ _ E) as (G1 & [= ->] & _ & Hd).
  intros x st (sort & Hin & Hst)%Hd. apply elem_of_cons in Hin as [[= -> ->]|Hin]; [|apply elem_of_cons in Hin as [[= -> ->]|Hin]; [|by apply not_elem_of_nil in Hin]];
    injection Hst as <-; (eexists; split; [reflexivity|split; [apply wfb_wf; vm_compute; reflexivity|split; vm_compute; reflexivity]]).
Qed.

Lemma get_value_reports_witness : match script_meaning no_globals (push_env solved_sample) with
  | Some (G, []) => match meaning G ∅ sample_term with
    | Some d => exists n, forall steps, (n <= steps)%nat -> exists outs, get_value 20 steps [sample_term] solved_sample = Some (Some (in_parens outs)) /\
        Forall2 (reports solved_sample G sample_rho) (zip [sample_term] [d]) outs
    | None => False end
  | _ => False end.
Proof.
  destruct (script_meaning no_globals (push_env solved_sample)) as [[G [|f fs]]|] eqn:E; [|vm_compute in E; discriminate E..].
  destruct (meaning G ∅ sample_term) as [[st f]|] eqn:Em.
  - apply (get_value_reports solved_sample G sample_rho _ 20 [sample_term] [(st, f)] eq_refl E (sample_model G E)).
    constructor; [|constructor]. split; [exact Em|]. split; [vm_compute; reflexivity|].
    assert (st = SBits 8) as ->; [|cbn; lia]. revert Em. assert (G = default no_globals (fst <$> script_meaning no_globals (push_env solved_sample))) as -> by (by rewrite E).
    vm_compute. by intros [= <- _].
  - revert Em. assert (G = default no_globals (fst <$> script_meaning no_globals (push_env solved_sample))) as -> by (by rewrite E).
    vm_compute. discriminate.
Defined.

(** C5: A [push], commands in which every [pop] undoes a [push] of theirs, and
    a [pop] leave the declarations, definitions, assertions and checkpoints as
    they were and no model; the bracket panics exactly when the commands
    inside do, which commands that do not consult the solver never do. *)
Theorem push_pop_restores depth steps cmds s : balanced 0 cmds = true ->
  final_state depth steps (Push 1 :: cmds ++ [Pop 1]) s = restored s <$> final_state depth steps cmds (push 1 s) /\
  (forallb quiet cmds = true -> is_Some (final_state depth steps (Push 1 :: cmds ++ [Pop 1]) s)).
Proof.
  intros Hb. assert (final_state depth steps (Push 1 :: cmds ++ [Pop 1]) s = restored s <$> final_state depth steps cmds (push 1 s)) as E.
  { change (final_state depth steps (cmds ++ [Pop 1]) (push 1 s) = restored s <$> final_state depth steps cmds (push 1 s)).
    rewrite final_state_app. destruct (final_state depth steps cmds (push 1 s)) as [s1|] eqn:Es; [|done]. cbn [mbind option_bind fmap option_fmap option_map].
    change (Some (pop 1 s1) = Some (restored s s1)). f_equal. apply pop_above. by eapply above_run; [apply above_start| |]. }
  split; [done|]. intros Hq. rewrite E. apply fmap_is_Some. by apply quiet_runs.
Qed.

Definition sample_bracket : Script := [DeclareConst "q" sort_bool; Push 2; Assert (term_ident "q"); Pop 1; Pop 1; Assert (term_bool false)].

Lemma push_pop_restores_witness : balanced 0 sample_bracket = true /\
  final_state 20 10 (Push 1 :: sample_bracket ++ [Pop 1]) sample_solver = restored sample_solver <$> final_state 20 10 sample_bracket (push 1 sample_solver) /\
  (forallb quiet sample_bracket = true -> is_Some (final_state 20 10 (Push 1 :: sample_bracket ++ [Pop 1]) sample_solver)).
Proof. split; [reflexivity|]. apply push_pop_restores. reflexivity. Defined.

(** ** Departures from SMT-LIB *)

(** No assignment satisfies the script. *)
Definition unsatisfiable (cmds : Script) : Prop :=
  match script_meaning no_globals cmds with Some (G, fs) => forall rho, ~ satisfies G fs rho | None => False end.

Lemma unsatisfiable_values cmds : is_Some (script_meaning no_globals cmds) ->
  (forall rho, ~ Forall (fun f => f rho = 1) (default [] (snd <$> script_meaning no_globals cmds))) -> unsatisfiable cmds.
Proof. intros [[G fs] E] H. unfold unsatisfiable. rewrite E in *. intros rho [_ Hf]. by apply (H rho). Qed.

(** The body of [f] is lowered under the binding of the caller's [let]. *)
Definition capturing_script : Script :=
  [DeclareConst "x" sort_bool; DefineFun (mkFunctionDef "f" [] sort_bool (term_ident "x")); Assert (term_ident "x");
   Assert (TLet [("x", term_bool false)] (term_app "not" [term_ident "f"]))].

(** A [define-fun] body is lowered under the bindings around its use: an
    unsatisfiable script is answered [sat]. *)
Theorem macro_capture_unsound : unsatisfiable capturing_script /\ run_script 20 500 (capturing_script ++ [CheckSat]) = Some ["sat"].
Proof.
  split; [|vm_compute; reflexivity]. apply unsatisfiable_values; [vm_compute; by eexists|]. intros rho. vm_compute.
  intros [Hx [Hn _]%Forall_cons]%Forall_cons. rewrite Hx in Hn. discriminate.
Qed.

(** [Lowered::root] is ignored: with one assertion the last node is asserted
    in its place. *)
Definition let_script : Script := [Assert (TLet [("p", term_bool false); ("q", term_bool true)] (term_ident "p"))].

Theorem root_ignored_unsound : unsatisfiable let_script /\ no_capture let_script = true /\ rooted 20 let_script = false /\
  run_script 20 500 (let_script ++ [CheckSat]) = Some ["sat"].
Proof.
  split; [|split; [|split]; vm_compute; reflexivity]. apply unsatisfiable_values; [vm_compute; by eexists|]. intros rho. vm_compute.
  by intros [? _]%Forall_cons.
Qed.

(** A declaration of zero width panics the check that finds a model. *)
Theorem zero_width_panics : run_script 20 500 [DeclareConst "x" (sort_bitvec 0); CheckSat] = None.
Proof. vm_compute. reflexivity. Qed.

(** [get_model] prints a quoted symbol without its quotes. *)
Theorem get_model_unquoted : show_symbol "a b" = "|a b|" /\ run_script 20 500 [DeclareConst "a b" sort_bool; CheckSat; GetModel] =
  Some ["sat"; "(" +:+ newline +:+ "  (define-fun a b () Bool false)" +:+ newline +:+ ")"].
Proof. split; vm_compute; reflexivity. Qed.

(** A Boolean bound by [let] is reported as a bit-vector. *)
Theorem let_value_mistyped : run_script 20 500 [DeclareConst "x" sort_bool; CheckSat; GetValue [TLet [("y", term_ident "x")] (term_ident "y")]] =
  Some ["sat"; "(((let ((y x)) y) #b0))"].
Proof. vm_compute. reflexivity. Qed.

(** A macro whose name begins like a comparison is taken for a Boolean, and so
    is a bit-vector that a [let] binds to the name of one: the value is lost. *)
Theorem value_lost :
  run_script 20 500 [DefineFun (mkFunctionDef "bvult_max" [mkSortedVar "v" (sort_bitvec 8)] (sort_bitvec 8) (term_ident "v")); CheckSat;
    GetValue [term_app "bvult_max" [term_bv 6 8]]] = Some ["sat"; "(((bvult_max (_ bv6 8)) false))"] /\
  run_script 20 500 [DeclareConst "p" sort_bool; CheckSat; GetValue [TLet [("p", term_bv 6 8)] (term_ident "p")]] =
    Some ["sat"; "(((let ((p (_ bv6 8))) p) false))"].
Proof. split; vm_compute; reflexivity. Qed.
