(* ===== verification/UnionFind.v ===== *)
(** * Union-find with offsets ([libs/relational/src/unionfind.rs])

    Every id is placed at an offset from its parent, modulo the width of its
    carrier. A [u32] id is a [nat], an offset a [u64]. [None] is an index out
    of range, or the end of a loop's fuel. *)
From S2P Require Import Prelude Words.
#[local] Open Scope nat_scope.

(** [relational/src/lib.rs] *)
Record Ref := mkRef { id : nat; offset : Z }.

#[export] Instance Ref_eq_dec : EqDecision Ref.
Proof. solve_decision. Defined.

Definition mask_of_width (width : Z) : Z :=
  if (width =? 0)%Z then 0%Z else shr64 u64_max (64 - Z.min width 64).

Inductive Merge :=
  | Same
  | Merged (survivor absorbed : nat)
  | Contradiction.

Record UnionFind := mkUnionFind {
  parent : list nat;
  delta : list Z;
  mask : list Z;
  pinned : list bool;
  conflict : list bool;
  shifted : bool;
  flat_below : Z;
}.

Definition u32_max : Z := (2 ^ 32 - 1)%Z.

(** [Default::default], and what [clear] leaves. *)
Definition new : UnionFind := mkUnionFind [] [] [] [] [] false u32_max.
Definition clear (uf : UnionFind) : UnionFind := new.

Definition push (m : Z) (pin : bool) (uf : UnionFind) : nat * UnionFind :=
  let id := length (parent uf) in
  (id, mkUnionFind (parent uf ++ [id]) (delta uf ++ [0%Z]) (mask uf ++ [m]) (pinned uf ++ [pin]) (conflict uf ++ [false])
    (shifted uf) (flat_below uf)).

Definition len (uf : UnionFind) : nat := length (parent uf).
Definition is_empty (uf : UnionFind) : bool := length (parent uf) =? 0.

Definition extend_to (n : nat) (uf : UnionFind) : UnionFind :=
  let from := length (parent uf) in
  mkUnionFind (parent uf ++ seq from (n - from)) (vec_resize n 0%Z (delta uf)) (vec_resize n 0%Z (mask uf))
    (vec_resize n false (pinned uf)) (vec_resize n false (conflict uf)) (shifted uf) (flat_below uf).

Fixpoint root_loop (fuel : nat) (parent : list nat) (cur : nat) : option nat :=
  match fuel with
  | O => None
  | S fuel => p ← parent !! cur; if p =? cur then Some cur else root_loop fuel parent p
  end.

(** A path has no more ids than there are. *)
Definition root (uf : UnionFind) (id : nat) : option nat := root_loop (S (len uf)) (parent uf) id.

Fixpoint find_loop (fuel : nat) (uf : UnionFind) (cur : nat) (off : Z) : option (nat * Z) :=
  match fuel with
  | O => None
  | S fuel =>
    p ← parent uf !! cur;
    if p =? cur then Some (cur, off)
    else
      d ← delta uf !! cur;
      find_loop fuel uf p (wrapping_add off d)
  end.

Definition find (uf : UnionFind) (r : Ref) : option Ref :=
  if negb (shifted uf) && (offset r =? 0)%Z then
    cur ← root uf (id r);
    Some (mkRef cur 0)
  else
    '(cur, off) ← find_loop (S (len uf)) uf (id r) (offset r);
    m ← mask uf !! cur;
    Some (mkRef cur (Z.land off m)).

Definition mask_at (uf : UnionFind) (id : nat) : option Z := r ← root uf id; mask uf !! r.
Definition is_zero (uf : UnionFind) (id : nat) : option bool := r ← root uf id; pinned uf !! r.
Definition is_pinned (uf : UnionFind) (id : nat) : option bool := pinned uf !! id.
Definition is_conflicted (uf : UnionFind) (id : nat) : option bool := r ← root uf id; conflict uf !! r.

Definition set_conflict (i : nat) (uf : UnionFind) : option UnionFind :=
  c ← vset (conflict uf) i true;
  Some (mkUnionFind (parent uf) (delta uf) (mask uf) (pinned uf) c (shifted uf) (flat_below uf)).

(** The assignments that merge [absorbed] into [survivor]. *)
Definition absorb (survivor absorbed : Ref) (uf : UnionFind) : option UnionFind :=
  ms ← mask uf !! id survivor;
  ma ← mask uf !! id absorbed;
  let m := Z.lor ms ma in
  let d := Z.land (wrapping_sub (offset survivor) (offset absorbed)) m in
  parent ← vset (parent uf) (id absorbed) (id survivor);
  delta ← vset (delta uf) (id absorbed) d;
  mask ← vset (mask uf) (id survivor) m;
  ca ← conflict uf !! id absorbed;
  cs ← conflict uf !! id survivor;
  conflict ← vset (conflict uf) (id survivor) (cs || ca);
  Some (mkUnionFind parent delta mask (pinned uf) conflict (shifted uf || negb (d =? 0)%Z)
    (Z.min (flat_below uf) (Z.of_nat (id absorbed)))).

Definition union (a b : Ref) (uf : UnionFind) : option (Merge * UnionFind) :=
  a ← find uf a;
  b ← find uf b;
  if id a =? id b then
    if (offset a =? offset b)%Z then Some (Same, uf)
    else uf ← set_conflict (id a) uf; Some (Contradiction, uf)
  else
    pa ← pinned uf !! id a;
    pb ← pinned uf !! id b;
    if pa && pb then
      uf ← set_conflict (id a) uf;
      uf ← set_conflict (id b) uf;
      Some (Contradiction, uf)
    else
      let '(survivor, absorbed) := if pa || (negb pb && (id a <? id b)) then (a, b) else (b, a) in
      uf ← absorb survivor absorbed uf;
      Some (Merged (id survivor) (id absorbed), uf).

(** [simd::select_moved]: the rows whose cell [map] sends elsewhere, or which
    lie outside it. *)
Definition select_moved (column map : list nat) : list nat :=
  List.filter (fun i =>
    match column !! i with
    | Some cell => negb (bool_decide (map !! cell = Some cell))
    | None => false
    end) (seq 0 (length column)).

Definition flatten_step (i : nat) (uf : UnionFind) : option UnionFind :=
  p ← parent uf !! i;
  r ← parent uf !! p;
  delta ← (if shifted uf then
    di ← delta uf !! i;
    dp ← delta uf !! p;
    m ← mask uf !! r;
    vset (delta uf) i (Z.land (wrapping_add di dp) m)
  else Some (delta uf));
  parent ← vset (parent uf) i r;
  Some (mkUnionFind parent delta (mask uf) (pinned uf) (conflict uf) (shifted uf) (flat_below uf)).

Fixpoint flatten_loop (from : nat) (steps : list nat) (uf : UnionFind) : option UnionFind :=
  match steps with
  | [] => Some uf
  | i :: steps => uf ← flatten_step (from + i) uf; flatten_loop from steps uf
  end.

Definition flatten (uf : UnionFind) : option UnionFind :=
  let from := Z.to_nat (Z.min (flat_below uf) (Z.of_nat (length (parent uf)))) in
  let uf := mkUnionFind (parent uf) (delta uf) (mask uf) (pinned uf) (conflict uf) (shifted uf) u32_max in
  flatten_loop from (select_moved (drop from (parent uf)) (parent uf)) uf.

Definition parents (uf : UnionFind) : list nat := parent uf.
Definition deltas (uf : UnionFind) : option (list Z) := if shifted uf then Some (delta uf) else None.
Definition masks (uf : UnionFind) : list Z := mask uf.
