(* ===== verification/UnionFindSpec.v ===== *)
(** * The union-find against a congruence of references

    The abstract state is a list of equations between references. [eqv] is
    the least equivalence that contains them, is closed under adding a
    constant to both sides, and reads offsets modulo the carrier. [represents]
    relates a union-find to its equations; [find] decides [eqv], [union] adds
    an equation, and [flatten] changes nothing but the paths. *)
From S2P Require Import Prelude Words UnionFind.
#[local] Open Scope nat_scope.

Definition shift (a : Ref) (c : Z) : Ref := mkRef (id a) (offset a + c)%Z.

Definition is_mask (m : Z) : Prop := exists k, (0 <= k <= 64)%Z /\ m = Z.ones k.

Section eqv.
Context (ms : list Z) (E : list (Ref * Ref)).

Inductive eqv : Ref -> Ref -> Prop :=
  | eqv_base a b : (a, b) ∈ E -> eqv a b
  | eqv_refl a : eqv a a
  | eqv_sym a b : eqv a b -> eqv b a
  | eqv_trans a b c : eqv a b -> eqv b c -> eqv a c
  | eqv_shift a b c : eqv a b -> eqv (shift a c) (shift b c)
  | eqv_mask i x y m : ms !! i = Some m -> Z.land x m = Z.land y m -> eqv (mkRef i x) (mkRef i y).

End eqv.

#[export] Instance eqv_equivalence ms E : Equivalence (eqv ms E).
Proof. split; red; eauto using eqv. Qed.

Lemma eqv_mono ms E ms' E' a b : (forall i m, ms !! i = Some m -> ms' !! i = Some m) -> (forall p, p ∈ E -> p ∈ E') ->
  eqv ms E a b -> eqv ms' E' a b.
Proof. intros Hm HE. induction 1; eauto using eqv. Qed.

(** ** Offsets under a mask *)
Lemma land_add_l m x y : is_mask m -> Z.land (Z.land x m + y) m = Z.land (x + y) m.
Proof. intros (k & Hk & ->). rewrite !Z.land_ones by lia. by rewrite Zplus_mod_idemp_l. Qed.
Lemma land_add_r m x y : is_mask m -> Z.land (x + Z.land y m) m = Z.land (x + y) m.
Proof. intros (k & Hk & ->). rewrite !Z.land_ones by lia. by rewrite Zplus_mod_idemp_r. Qed.

Lemma land_idem m x : Z.land (Z.land x m) m = Z.land x m.
Proof. by rewrite <- Z.land_assoc, Z.land_diag. Qed.

Lemma land_wrap m x : is_mask m -> Z.land (wrap64 x) m = Z.land x m.
Proof.
  intros (k & Hk & ->). rewrite !Z.land_ones by lia. unfold wrap64. symmetry.
  apply Znumtheory.Zmod_div_mod; [lia..|]. exists (2 ^ (64 - k))%Z. rewrite <- Z.pow_add_r by lia. f_equal. lia.
Qed.

Lemma land_add_eq m x y c : is_mask m -> Z.land x m = Z.land y m -> Z.land (x + c) m = Z.land (y + c) m.
Proof. intros Hm E. rewrite <- (land_add_l m x), <- (land_add_l m y) by done. by rewrite E. Qed.

(** ** Paths *)
Inductive climbs (uf : UnionFind) : nat -> nat -> Z -> Prop :=
  | climbs_root i : parent uf !! i = Some i -> climbs uf i i 0
  | climbs_up i p e r d : parent uf !! i = Some p -> p <> i -> delta uf !! i = Some e -> climbs uf p r d ->
      climbs uf i r (e + d).

(** The representation invariant: a parent is below its child or is a pinned
    root, carriers agree along paths, offsets are reduced, and ids below
    [flat_below] point straight at a root. *)
Record wf (uf : UnionFind) : Prop := {
  wf_delta : length (delta uf) = len uf;
  wf_mask : length (mask uf) = len uf;
  wf_pinned : length (pinned uf) = len uf;
  wf_conflict : length (conflict uf) = len uf;
  wf_masks : forall i m, mask uf !! i = Some m -> is_mask m;
  wf_parent : forall i p, parent uf !! i = Some p -> p <= i /\ p < len uf \/ pinned uf !! p = Some true;
  wf_zero : forall i, pinned uf !! i = Some true -> parent uf !! i = Some i;
  wf_carrier : forall i p, parent uf !! i = Some p -> mask uf !! p = mask uf !! i;
  wf_offsets : forall i e m, delta uf !! i = Some e -> mask uf !! i = Some m -> Z.land e m = e;
  wf_shifted : shifted uf = false -> forall i e, delta uf !! i = Some e -> e = 0%Z;
  wf_root : forall i, parent uf !! i = Some i -> delta uf !! i = Some 0%Z;
  wf_flat : forall i p, (Z.of_nat i < flat_below uf)%Z -> parent uf !! i = Some p -> parent uf !! p = Some p;
  wf_flat_pos : (0 <= flat_below uf)%Z;
}.

Section lookup.
Context (uf : UnionFind) (W : wf uf).

Lemma parent_lt i p : parent uf !! i = Some p -> p < len uf.
Proof.
  intros Hp. destruct (wf_parent _ W i p Hp) as [[_ H]|H]; [done|].
  apply (wf_zero _ W), lookup_lt_Some in H. done.
Qed.

(** Every id climbs to a root, in no more steps than ids below it. *)
Lemma climbs_total i : i < len uf -> exists r d,
  climbs uf i r d /\ forall n, root_loop (S (S i) + n) (parent uf) i = Some r.
Proof.
  induction i as [i IH] using lt_wf_ind. intros Hi. destruct (lookup_lt_is_Some_2 _ _ Hi) as [p Hp].
  destruct (Nat.eq_dec p i) as [->|Hne].
  { exists i, 0%Z. split; [by constructor|]. intros n. cbn [root_loop Nat.add]. rewrite Hp. cbn. by rewrite Nat.eqb_refl. }
  destruct (lookup_lt_is_Some_2 (delta uf) i) as [e He]; [by rewrite (wf_delta _ W)|].
  assert (exists r d, climbs uf p r d /\ forall n, root_loop (S i + n) (parent uf) p = Some r) as (r & d & C & L).
  { destruct (wf_parent _ W i p Hp) as [[Hle Hlt]|Hz].
    - destruct (IH p) as (r & d & C & L); [lia|done|]. exists r, d. split; [done|]. intros n.
      replace (S i + n) with (S (S p) + (i - p - 1 + n)) by lia. apply L.
    - apply (wf_zero _ W) in Hz. exists p, 0%Z. split; [by constructor|]. intros n. cbn [root_loop Nat.add].
      rewrite Hz. cbn. by rewrite Nat.eqb_refl. }
  exists r, (e + d)%Z. split; [by eapply climbs_up|]. intros n. change (S (S i) + n) with (S (S i + n)). cbn [root_loop].
  rewrite Hp. cbn [mbind option_bind]. destruct (Nat.eqb_spec p i); [done|]. apply L.
Qed.

Lemma climbs_fun i r d r' d' : climbs uf i r d -> climbs uf i r' d' -> r = r' /\ d = d'.
Proof.
  intros H. revert r' d'. induction H as [i Hi|i p e r d Hp Hne He H IH]; intros r' d' H'; inversion H'; subst; try congruence; [done|].
  match goal with Hp' : parent uf !! i = Some ?q |- _ => assert (q = p) as -> by congruence end.
  match goal with He' : delta uf !! i = Some ?q |- _ => assert (q = e) as -> by congruence end.
  edestruct IH as [-> ->]; done.
Qed.

Lemma climbs_top i r d : climbs uf i r d -> parent uf !! r = Some r.
Proof. by induction 1. Qed.

Lemma climbs_mask i r d : climbs uf i r d -> mask uf !! r = mask uf !! i.
Proof. induction 1 as [|i p e r d Hp _ _ _ IH]; [done|]. by rewrite IH, (wf_carrier _ W i p). Qed.

Lemma climbs_unshifted i r d : shifted uf = false -> climbs uf i r d -> d = 0%Z.
Proof. intros Hs. induction 1 as [|i p e r d _ _ He _ IH]; [done|]. rewrite IH, (wf_shifted _ W Hs i e He). done. Qed.

(** A root is the smallest id of its set, or a pinned one. *)
Lemma climbs_least i r d : climbs uf i r d -> r <= i \/ pinned uf !! r = Some true.
Proof.
  induction 1 as [|i p e r d Hp Hne _ C IH]; [by left|]. destruct IH as [IH|]; [|by right].
  destruct (wf_parent _ W i p Hp) as [[Hle _]|Hz]; [left; lia|]. right.
  apply (wf_zero _ W) in Hz as Hz'. inversion C; subst; [done|congruence].
Qed.

Lemma root_spec i r d : climbs uf i r d -> root uf i = Some r.
Proof.
  intros C. assert (i < len uf) as Hi by (inversion C; subst; eapply lookup_lt_Some; eassumption).
  destruct (climbs_total i Hi) as (r' & d' & C' & L). destruct (climbs_fun i r d r' d' C C') as [-> _].
  unfold root. specialize (L (len uf - i - 1)). by replace (S (S i) + (len uf - i - 1)) with (S (len uf)) in L by lia.
Qed.

Lemma find_loop_root fuel i r off : root_loop fuel (parent uf) i = Some r -> forall d, climbs uf i r d ->
  exists off', find_loop fuel uf i off = Some (r, off') /\ forall m, is_mask m -> Z.land off' m = Z.land (off + d) m.
Proof.
  revert i off. induction fuel as [|fuel IH]; intros i off HL d C; [done|]. cbn [root_loop find_loop] in *.
  destruct (parent uf !! i) as [p|] eqn:Hp; [|done]. cbn [mbind option_bind] in *.
  destruct (Nat.eqb_spec p i) as [->|Hne].
  - injection HL as <-. exists off. split; [done|]. intros m _. inversion C; subst; [by rewrite Z.add_0_r|congruence].
  - inversion C; subst; [congruence|]. match goal with H : parent uf !! i = Some ?q |- _ => assert (q = p) as -> by congruence end.
    match goal with H : delta uf !! i = Some ?e, H' : climbs uf p r ?d |- _ =>
      rewrite H; cbn [mbind option_bind]; destruct (IH p (wrapping_add off e) HL d H') as (off' & E & Ho) end.
    exists off'. split; [done|]. intros m Hm. rewrite (Ho m Hm). unfold wrapping_add.
    rewrite <- (land_add_l m (wrap64 _)) by done. rewrite land_wrap, land_add_l by done. f_equal. lia.
Qed.

Lemma find_spec a r d m : climbs uf (id a) r d -> mask uf !! r = Some m ->
  find uf a = Some (mkRef r (Z.land (offset a + d) m)).
Proof.
  intros C Hm. unfold find. destruct (negb (shifted uf) && (offset a =? 0)%Z) eqn:Hs.
  - apply andb_true_iff in Hs as [Hs%negb_true_iff Ho%Z.eqb_eq]. rewrite (root_spec _ _ _ C). cbn [mbind option_bind].
    by rewrite (climbs_unshifted _ _ _ Hs C), Ho.
  - pose proof (root_spec _ _ _ C) as HL. destruct (find_loop_root _ _ _ (offset a) HL d C) as (off' & -> & Ho).
    cbn [mbind option_bind]. rewrite Hm. cbn [mbind option_bind]. by rewrite (Ho m (wf_masks _ W _ _ Hm)).
Qed.

Lemma find_out a : len uf <= id a -> find uf a = None.
Proof.
  intros Ha. unfold find, root. cbn [root_loop find_loop]. rewrite lookup_ge_None_2 by done. by destruct (_ && _).
Qed.

(** Where an id sits: its root, its offset from it and its carrier. *)
Lemma place i : i < len uf -> exists r d m, climbs uf i r d /\ mask uf !! r = Some m /\ mask uf !! i = Some m /\ is_mask m /\ r < len uf.
Proof.
  intros Hi. destruct (climbs_total i Hi) as (r & d & C & _). destruct (lookup_lt_is_Some_2 (mask uf) i) as [m Hm]; [by rewrite (wf_mask _ W)|].
  exists r, d, m. rewrite (climbs_mask _ _ _ C). pose proof (wf_masks _ W i m Hm). split; [done|]. do 3 (split; [done|]).
  eapply lookup_lt_Some, climbs_top, C.
Qed.

Lemma find_total a : id a < len uf -> exists r, find uf a = Some r.
Proof. intros Ha. destruct (place _ Ha) as (r & d & m & C & Hr & _). eexists. by eapply find_spec. Qed.

End lookup.

(** ** The equations a union-find stands for *)
Record represents (uf : UnionFind) (E : list (Ref * Ref)) : Prop := {
  rep_wf : wf uf;
  rep_sound : forall i p e, parent uf !! i = Some p -> p <> i -> delta uf !! i = Some e -> eqv (mask uf) E (mkRef i 0) (mkRef p e);
  rep_sat : forall a b, (a, b) ∈ E -> find uf a = find uf b;
  rep_scope : forall a b, (a, b) ∈ E -> id a < len uf /\ id b < len uf;
}.

Lemma eqv_offset ms E i x r d : eqv ms E (mkRef i 0) (mkRef r d) -> eqv ms E (mkRef i x) (mkRef r (x + d)).
Proof. intros H. pose proof (eqv_shift ms E _ _ x H) as H'. unfold shift in H'. cbn in H'. by rewrite Z.add_comm. Qed.

Lemma climbs_eqv uf E i r d : represents uf E -> climbs uf i r d -> eqv (mask uf) E (mkRef i 0) (mkRef r d).
Proof.
  intros R. induction 1 as [i Hi|i p e r d Hp Hne He C IH]; [reflexivity|].
  etransitivity; [by eapply rep_sound|]. by apply eqv_offset.
Qed.

Lemma find_eqv uf E a r : represents uf E -> find uf a = Some r -> eqv (mask uf) E a r.
Proof.
  intros R Hf. pose proof (rep_wf _ _ R) as W. destruct (le_lt_dec (len uf) (id a)) as [Hge|Hlt]; [by rewrite find_out in Hf|].
  destruct (place uf W _ Hlt) as (r' & d & m & C & Hr & _ & Hm & _). rewrite (find_spec uf W a r' d m C Hr) in Hf. injection Hf as <-.
  destruct a as [i x]. cbn [id offset] in *. transitivity (mkRef r' (x + d)); [by apply eqv_offset, climbs_eqv|]. apply (eqv_mask _ _ _ _ _ m Hr). by rewrite land_idem.
Qed.

(** Equal references stay equal when a constant is added, and references that
    agree modulo the carrier are equal. *)
Lemma find_shift uf a b c : wf uf -> find uf a = find uf b -> find uf (shift a c) = find uf (shift b c).
Proof.
  intros W Hf. destruct (le_lt_dec (len uf) (id a)) as [Ha|Ha], (le_lt_dec (len uf) (id b)) as [Hb|Hb].
  - by rewrite !find_out.
  - destruct (find_total uf W b Hb) as [r Hr]. rewrite find_out in Hf by done. congruence.
  - destruct (find_total uf W a Ha) as [r Hr]. rewrite (find_out uf b) in Hf by done. congruence.
  - destruct (place uf W _ Ha) as (ra & da & ma & Ca & Hra & _ & Hma & _).
    destruct (place uf W _ Hb) as (rb & db & mb & Cb & Hrb & _ & Hmb & _).
    rewrite (find_spec uf W a _ _ _ Ca Hra), (find_spec uf W b _ _ _ Cb Hrb) in Hf. injection Hf as -> E.
    assert (mb = ma) as -> by congruence.
    rewrite (find_spec uf W (shift a c) _ _ _ Ca Hra), (find_spec uf W (shift b c) _ _ _ Cb Hrb). cbn [shift offset].
    do 2 f_equal. replace (offset a + c + da)%Z with (offset a + da + c)%Z by lia.
    replace (offset b + c + db)%Z with (offset b + db + c)%Z by lia. by apply land_add_eq.
Qed.

Lemma find_masked uf i x y m : wf uf -> mask uf !! i = Some m -> Z.land x m = Z.land y m ->
  find uf (mkRef i x) = find uf (mkRef i y).
Proof.
  intros W Hm E. assert (i < len uf) as Hi by (rewrite <- (wf_mask _ W); by eapply lookup_lt_Some).
  destruct (place uf W i Hi) as (r & d & m' & C & Hr & Hm' & Hk & _). assert (m' = m) as -> by congruence.
  rewrite (find_spec uf W (mkRef i x) r d m), (find_spec uf W (mkRef i y) r d m) by done. cbn [offset].
  do 2 f_equal. by apply land_add_eq.
Qed.

(** [find] decides the equations: two references have one canonical form
    exactly when the equations make them equal. *)
Lemma find_decides uf E a b : represents uf E -> id a < len uf -> id b < len uf ->
  find uf a = find uf b <-> eqv (mask uf) E a b.
Proof.
  intros R Ha Hb. pose proof (rep_wf _ _ R) as W. split.
  - intros Hf. destruct (find_total uf W b Hb) as [r Hr]. rewrite Hr in Hf.
    etransitivity; [|symmetry]; by eapply find_eqv.
  - clear Ha Hb. induction 1 as [a b H|a|a b _ IH|a b c _ IH1 _ IH2|a b c _ IH|i x y m Hm Hxy].
    + by eapply rep_sat.
    + done.
    + done.
    + congruence.
    + by apply find_shift.
    + by eapply find_masked.
Qed.

(** ** [new] and [push] *)
Lemma new_represents : represents new [].
Proof.
  split; [|done|set_solver|set_solver]. by split.
Qed.

Section push.
Context (uf : UnionFind) (E : list (Ref * Ref)) (m : Z) (pin : bool).

Lemma snoc_lookup {A} (l : list A) x i y : (l ++ [x]) !! i = Some y -> l !! i = Some y \/ i = length l /\ y = x.
Proof.
  intros [H|[H1 H2]]%lookup_app_Some; [by left|]. right. apply list_lookup_singleton_Some in H2 as [H2 ->]. split; [lia|done].
Qed.

Lemma push_climbs i r d : climbs uf i r d -> climbs (snd (push m pin uf)) i r d.
Proof.
  induction 1 as [i Hi|i p e r d Hp Hne He C IH]; [constructor|eapply climbs_up; [|exact Hne| |exact IH]]; by apply lookup_app_l_Some.
Qed.

Lemma push_wf : wf uf -> is_mask m -> wf (snd (push m pin uf)).
Proof.
  intros W Hm. pose proof (wf_delta _ W). pose proof (wf_mask _ W). pose proof (wf_pinned _ W). unfold len in *.
  assert (forall j p, parent uf !! j = Some p -> p < length (parent uf)) as Hlt by (intros j p; apply (parent_lt uf W)).
  split; unfold len; cbn [push snd parent delta mask pinned conflict shifted flat_below]; rewrite ?length_app; cbn [length];
    try (rewrite ?(wf_conflict _ W); unfold len; lia).
  - intros i m' [Hi|[_ ->]]%snoc_lookup; [by eapply (wf_masks _ W)|done].
  - intros i p [Hi|[-> ->]]%snoc_lookup; [|left; lia].
    destruct (wf_parent _ W i p Hi) as [[? ?]|Hz]; [left; unfold len in *; lia|right; by apply lookup_app_l_Some].
  - intros i [Hi|[-> <-]]%snoc_lookup; [apply lookup_app_l_Some; by apply (wf_zero _ W)|].
    replace (length (pinned uf)) with (length (parent uf)) by done. by apply list_lookup_middle.
  - intros i p [Hi|[-> ->]]%snoc_lookup; [|done]. rewrite !lookup_app_l; [by apply (wf_carrier _ W)| |].
    + apply lookup_lt_Some in Hi. lia.
    + apply Hlt in Hi. lia.
  - intros i e m' [He|[-> ->]]%snoc_lookup [Hi|[Hj ->]]%snoc_lookup; [by eapply (wf_offsets _ W)| |done..].
    apply lookup_lt_Some in He. lia.
  - intros Hs i e [He|[_ ->]]%snoc_lookup; [by eapply (wf_shifted _ W)|done].
  - intros i [Hi|[-> _]]%snoc_lookup; [apply lookup_app_l_Some; by apply (wf_root _ W)|].
    replace (length (parent uf)) with (length (delta uf)) by done. by apply list_lookup_middle.
  - intros i p Hi [Hp|[-> ->]]%snoc_lookup; [apply lookup_app_l_Some; by eapply (wf_flat _ W)|by apply list_lookup_middle].
  - apply (wf_flat_pos _ W).
Qed.

Lemma push_represents : represents uf E -> is_mask m -> represents (snd (push m pin uf)) E.
Proof.
  intros R Hm. pose proof (rep_scope _ _ R) as HE. pose proof (rep_wf _ _ R) as W. pose proof (push_wf W Hm) as W'. split; [done| | |].
  - intros i p e Hp Hne He. cbn [push snd parent delta mask] in *.
    destruct (snoc_lookup _ _ _ _ Hp) as [Hp'|[Hi ->]]; [|congruence].
    destruct (snoc_lookup _ _ _ _ He) as [He'|[Hi _]].
    2:{ apply lookup_lt_Some in Hp'. rewrite (wf_delta _ W) in Hi. unfold len in *. lia. }
    eapply eqv_mono; [| |by eapply (rep_sound _ _ R)]; [intros j m'; apply lookup_app_l_Some|done].
  - assert (forall a, id a < len uf -> find (snd (push m pin uf)) a = find uf a) as Hf.
    { intros a Ha. destruct (place uf W _ Ha) as (r & d & m' & C & Hr & _).
      rewrite (find_spec uf W a r d m' C Hr), (find_spec _ W' a r d m' (push_climbs _ _ _ C)); [done|].
      cbn [push snd mask]. by apply lookup_app_l_Some. }
    intros a b Hab. destruct (HE a b Hab). rewrite !Hf by done. by apply (rep_sat _ _ R).
  - intros a b Hab. unfold len. cbn [push snd parent]. rewrite length_app. destruct (HE a b Hab). unfold len in *. lia.
Qed.

End push.

(** ** [union] *)
Section absorb.
Context (uf : UnionFind) (W : wf uf) (s a : Ref) (m : Z).
Context (Hs : parent uf !! id s = Some (id s)) (Ha : parent uf !! id a = Some (id a)) (Hne : id s <> id a).
Context (Ms : mask uf !! id s = Some m) (Ma : mask uf !! id a = Some m).
Context (Horder : id s <= id a \/ pinned uf !! id s = Some true) (Hpin : pinned uf !! id a = Some false).

Definition absorb_delta : Z := Z.land (offset s - offset a) m.

Definition absorbed_uf (c : list bool) : UnionFind :=
  mkUnionFind (<[id a := id s]> (parent uf)) (<[id a := absorb_delta]> (delta uf)) (mask uf) (pinned uf) c
    (shifted uf || negb (absorb_delta =? 0)%Z) (Z.min (flat_below uf) (Z.of_nat (id a))).

Lemma absorb_run : exists c, length c = len uf /\ absorb s a uf = Some (absorbed_uf c).
Proof.
  pose proof (wf_masks _ W _ _ Ms) as Hm. pose proof (wf_conflict _ W) as Lc.
  assert (id s < len uf /\ id a < len uf) as [Ls La] by (split; eapply lookup_lt_Some; eassumption).
  destruct (lookup_lt_is_Some_2 (conflict uf) (id a)) as [ca Eca]; [lia|].
  destruct (lookup_lt_is_Some_2 (conflict uf) (id s)) as [cs Ecs]; [lia|].
  exists (<[id s := cs || ca]> (conflict uf)). split; [by rewrite length_insert|].
  unfold absorb. rewrite Ms, Ma. cbn [mbind option_bind]. rewrite Z.lor_diag.
  rewrite (vset_Some (parent uf)), (vset_Some (delta uf)), (vset_Some (mask uf))
    by (rewrite ?(wf_delta _ W), ?(wf_mask _ W); done).
  cbn [mbind option_bind]. rewrite Eca, Ecs. cbn [mbind option_bind]. rewrite vset_Some by lia. cbn [mbind option_bind]. unfold absorbed_uf, absorb_delta.
  rewrite (list_insert_id _ _ _ Ms). unfold wrapping_sub. rewrite land_wrap by done. done.
Qed.

Definition redirect (r : nat) (d : Z) : nat * Z := if decide (r = id a) then (id s, (d + absorb_delta)%Z) else (r, d).

Lemma absorbed_climbs c i r d : climbs uf i r d -> climbs (absorbed_uf c) i (fst (redirect r d)) (snd (redirect r d)).
Proof.
  assert (id a < length (parent uf)) as La by by eapply lookup_lt_Some.
  assert (climbs (absorbed_uf c) (id s) (id s) 0) as Cs by (constructor; cbn; by rewrite list_lookup_insert_ne by done).
  assert (id a < length (delta uf)) as Ld by (by rewrite (wf_delta _ W)).
  unfold redirect. induction 1 as [i Hi|i p e r d Hp Hne' He C IH].
  - destruct (decide (i = id a)) as [->|Hia]; cbn [fst snd].
    + replace (0 + absorb_delta)%Z with (absorb_delta + 0)%Z by lia.
      eapply climbs_up; [cbn; by apply list_lookup_insert_eq|done|cbn; by apply list_lookup_insert_eq|done].
    + constructor. cbn. by rewrite list_lookup_insert_ne by congruence.
  - assert (id a <> i) as Hia by congruence.
    assert (climbs (absorbed_uf c) i (fst (if decide (r = id a) then (id s, (d + absorb_delta)%Z) else (r, d)))
      (e + snd (if decide (r = id a) then (id s, (d + absorb_delta)%Z) else (r, d)))) as C'.
    { eapply climbs_up; [cbn; rewrite list_lookup_insert_ne by done; exact Hp|done| |exact IH].
      cbn. rewrite list_lookup_insert_ne by done. exact He. }
    destruct (decide (r = id a)); cbn [fst snd] in *; [|done]. by replace (e + d + absorb_delta)%Z with (e + (d + absorb_delta))%Z by lia.
Qed.

Lemma insert_cases {A} (l : list A) i x j y : <[i := x]> l !! j = Some y -> j = i /\ y = x /\ i < length l \/ j <> i /\ l !! j = Some y.
Proof. rewrite list_lookup_insert_Some. intros [(-> & -> & ?)|[? ?]]; [left|right]; auto. Qed.

Lemma absorbed_wf c : length c = len uf -> wf (absorbed_uf c).
Proof.
  intros Lc. pose proof (wf_masks _ W _ _ Ms) as Hm. assert (id s < len uf) as Ls by by eapply lookup_lt_Some.
  assert (Z.land absorb_delta m = absorb_delta) as Hred by apply land_idem.
  split; unfold len; cbn [absorbed_uf parent delta mask pinned conflict shifted flat_below]; rewrite ?length_insert; try apply W; try done.
  - intros i p [(-> & -> & _)|[_ Hp]]%insert_cases; [destruct Horder; [left|right]; done|by apply (wf_parent _ W i)].
  - intros i Hz. rewrite list_lookup_insert_ne; [by apply (wf_zero _ W)|]. intros <-. congruence.
  - intros i p [(-> & -> & _)|[_ Hp]]%insert_cases; [congruence|by apply (wf_carrier _ W)].
  - intros i e m' [(-> & -> & _)|[_ He]]%insert_cases Hi; [congruence|by eapply (wf_offsets _ W)].
  - intros [Hs0 Hd]%orb_false_iff i e [(-> & -> & _)|[_ He]]%insert_cases; [|by eapply (wf_shifted _ W)].
    by apply negb_false_iff, Z.eqb_eq in Hd.
  - intros i [(-> & ? & _)|[Hia Hp]]%insert_cases; [congruence|]. rewrite list_lookup_insert_ne by done. by apply (wf_root _ W).
  - intros i p Hi [(-> & -> & _)|[Hia Hp]]%insert_cases; [lia|].
    assert (parent uf !! p = Some p) as Hpp by (eapply (wf_flat _ W); [|exact Hp]; lia).
    rewrite list_lookup_insert_ne; [done|]. intros <-. destruct (wf_parent _ W i (id a) Hp) as [[Hle _]|Hz]; [lia|congruence].
  - pose proof (wf_flat_pos _ W). lia.
Qed.

(** The canonical forms, before and after. *)
Lemma absorbed_find c x r o : length c = len uf -> find uf x = Some (mkRef r o) ->
  find (absorbed_uf c) x = Some (if decide (r = id a) then mkRef (id s) (Z.land (o + absorb_delta) m) else mkRef r o).
Proof.
  intros Lc Hf. destruct (le_lt_dec (len uf) (id x)) as [|Hx]; [by rewrite find_out in Hf|].
  destruct (place uf W _ Hx) as (r' & d & m' & C & Hr & _ & Hm' & _). rewrite (find_spec uf W x r' d m' C Hr) in Hf. injection Hf as -> <-.
  pose proof (absorbed_climbs c _ _ _ C) as C'. unfold redirect in C'. destruct (decide (r = id a)) as [->|]; cbn [fst snd] in C'.
  - assert (m' = m) as -> by congruence. rewrite (find_spec _ (absorbed_wf c Lc) x _ _ m C' Ms). do 2 f_equal.
    rewrite land_add_l by done. f_equal. lia.
  - by rewrite (find_spec _ (absorbed_wf c Lc) x _ _ m' C' Hr).
Qed.

End absorb.

Lemma find_root uf x r : wf uf -> find uf x = Some r -> exists m, parent uf !! id r = Some (id r) /\ mask uf !! id r = Some m /\
  mask uf !! id x = Some m /\ Z.land (offset r) m = offset r.
Proof.
  intros W Hf. destruct (le_lt_dec (len uf) (id x)) as [|Hx]; [by rewrite find_out in Hf|].
  destruct (place uf W _ Hx) as (r' & d & m & C & Hr & Hm & _). rewrite (find_spec uf W x r' d m C Hr) in Hf. injection Hf as <-.
  exists m. split; [by eapply climbs_top|]. do 2 (split; [done|]). apply land_idem.
Qed.

Lemma absorbed_represents uf E x y s a c E' : represents uf E -> find uf x = Some s -> find uf y = Some a -> id s <> id a ->
  mask uf !! id x = mask uf !! id y -> id s <= id a \/ pinned uf !! id s = Some true -> pinned uf !! id a = Some false ->
  length c = len uf -> E' = (x, y) :: E \/ E' = (y, x) :: E ->
  exists m, is_Some (mask uf !! id s) /\ mask uf !! id s = Some m /\ mask uf !! id a = Some m /\
    represents (absorbed_uf uf s a m c) E'.
Proof.
  intros R Hx Hy Hne Hxy Horder Hpin Lc HE. pose proof (rep_wf _ _ R) as W.
  destruct (find_root uf x s W Hx) as (m & Hs & Ms & Mx & Os). destruct (find_root uf y a W Hy) as (m' & Ha & Ma & My & Oa).
  assert (m' = m) as -> by congruence. pose proof (wf_masks _ W _ _ Ms) as Hm. exists m. split; [by exists m|]. do 2 (split; [done|]).
  pose proof (absorbed_find uf W s a m Hs Ha Hne Ms Ma Horder Hpin c) as Hf.
  assert (forall u v, eqv (mask uf) E u v -> eqv (mask uf) E' u v) as Hmono.
  { intros u v. apply eqv_mono; [done|]. intros p Hp. destruct HE as [-> | ->]; by right. }
  assert (eqv (mask uf) E' x y) as Hbase by (destruct HE as [-> | ->]; [|symmetry]; constructor; by left).
  split.
  - by apply absorbed_wf.
  - intros i p e Hp Hip He. cbn [absorbed_uf parent delta mask] in *.
    apply insert_cases in Hp as [(-> & -> & _)|[Hia Hp]].
    2:{ rewrite list_lookup_insert_ne in He by done. by eapply Hmono, rep_sound. }
    rewrite list_lookup_insert_eq in He by (rewrite (wf_delta _ W); by eapply lookup_lt_Some). injection He as <-.
    assert (eqv (mask uf) E' a s) as Has.
    { transitivity y; [symmetry; by eapply Hmono, find_eqv|]. transitivity x; [|by eapply Hmono, find_eqv].
      by symmetry. }
    apply (eqv_shift _ _ _ _ (- offset a)) in Has. unfold shift in Has. rewrite Z.add_opp_diag_r in Has.
    etransitivity; [exact Has|]. apply (eqv_mask _ _ _ _ _ m Ms). unfold absorb_delta. rewrite land_idem. f_equal. 
  - assert (find (absorbed_uf uf s a m c) x = find (absorbed_uf uf s a m c) y) as Hxy'.
    { destruct s as [s os], a as [a oa]. cbn [id offset] in *. rewrite (Hf x s os Lc Hx), (Hf y a oa Lc Hy).
      rewrite decide_False, decide_True by done. do 2 f_equal. unfold absorb_delta. cbn [offset].
      rewrite land_add_r by done. replace (oa + (os - oa))%Z with os by lia. done. }
    intros u v Huv. assert ((u, v) ∈ E \/ (u, v) = (x, y) \/ (u, v) = (y, x)) as [Hin|[[= -> ->]|[= -> ->]]]
      by (destruct HE as [-> | ->]; set_solver); [|done..].
    destruct (find_total uf W u) as [[ru ou] Eu]; [by destruct (rep_scope _ _ R u v Hin)|].
    pose proof (rep_sat _ _ R u v Hin) as Ev. rewrite Eu in Ev. by rewrite (Hf u ru ou Lc Eu), (Hf v ru ou Lc (eq_sym Ev)).
  - intros u v Huv. unfold len. cbn [absorbed_uf parent]. rewrite length_insert. fold (len uf).
    assert (id x < len uf /\ id y < len uf) as [Lx Ly] by (rewrite <- (wf_mask _ W); split; eapply lookup_lt_Some; eassumption).
    assert ((u, v) ∈ E \/ (u, v) = (x, y) \/ (u, v) = (y, x)) as [Hin|[[= -> ->]|[= -> ->]]]
      by (destruct HE as [-> | ->]; set_solver); [|done..]. by apply (rep_scope _ _ R).
Qed.

(** The conflict flags carry no equation. *)
Definition with_conflict (uf : UnionFind) (c : list bool) : UnionFind :=
  mkUnionFind (parent uf) (delta uf) (mask uf) (pinned uf) c (shifted uf) (flat_below uf).

Lemma with_conflict_find uf c x : find (with_conflict uf c) x = find uf x.
Proof.
  assert (forall fuel cur off, find_loop fuel (with_conflict uf c) cur off = find_loop fuel uf cur off) as Hl.
  { induction fuel as [|fuel IH]; intros cur off; [done|]. cbn [find_loop]. cbn [with_conflict parent delta].
    destruct (parent uf !! cur) as [p|]; [|done]. cbn [mbind option_bind]. destruct (p =? cur); [done|].
    destruct (delta uf !! cur); [|done]. cbn [mbind option_bind]. apply IH. }
  unfold find. rewrite Hl. done.
Qed.

Lemma with_conflict_represents uf E c : represents uf E -> length c = len uf -> represents (with_conflict uf c) E.
Proof.
  intros [[] Hso Hsa Hsc] Lc. split; [by split|done| |done]. intros a b Hab. rewrite !with_conflict_find. by apply Hsa.
Qed.

Lemma set_conflict_run uf i : length (conflict uf) = len uf -> i < len uf ->
  set_conflict i uf = Some (with_conflict uf (<[i := true]> (conflict uf))).
Proof. intros Lc Hi. unfold set_conflict. by rewrite vset_Some by lia. Qed.

(** The survivor: the pinned root, or else the smaller one. *)
Definition survives (uf : UnionFind) (s x : nat) : Prop :=
  pinned uf !! s = Some true \/ s < x /\ pinned uf !! s = Some false.

(** An equation between two references is impossible when their set would
    sit at a non-zero offset from itself, or two zeros would meet. *)
Inductive impossible (uf : UnionFind) (a b : Ref) : Prop :=
  | impossible_offset r o o' : find uf a = Some (mkRef r o) -> find uf b = Some (mkRef r o') -> o <> o' -> impossible uf a b
  | impossible_zeros r s : find uf a = Some r -> find uf b = Some s -> id r <> id s ->
      pinned uf !! id r = Some true -> pinned uf !! id s = Some true -> impossible uf a b.

Lemma merge_spec uf E x y s t (p q : bool) E' : represents uf E -> find uf x = Some s -> find uf y = Some t -> id s <> id t ->
  mask uf !! id x = mask uf !! id y -> pinned uf !! id s = Some p -> pinned uf !! id t = Some q ->
  p = true \/ p = false /\ id s < id t -> q = false -> E' = (x, y) :: E \/ E' = (y, x) :: E ->
  exists uf', absorb s t uf = Some uf' /\ mask uf' = mask uf /\ pinned uf' = pinned uf /\ len uf' = len uf /\ represents uf' E' /\
    survives uf (id s) (id t) /\ pinned uf !! id t = Some false.
Proof.
  intros R Ex Ey Hst Hxy Ps Pt Hp -> HE. pose proof (rep_wf _ _ R) as W.
  assert (id s <= id t \/ pinned uf !! id s = Some true) as Hord by (destruct Hp as [->|[_ ?]]; [by right|left; lia]).
  destruct (find_root uf x s W Ex) as (ms & Rs & Ms & Mx & _). destruct (find_root uf y t W Ey) as (mt & Rt & Mt & My & _).
  assert (mt = ms) as -> by congruence.
  destruct (absorb_run uf W s t ms Rs Rt Hst Ms Mt Hord) as (c & Lc' & Er).
  destruct (absorbed_represents uf E x y s t c E' R Ex Ey Hst Hxy Hord Pt Lc' HE) as (m2 & _ & Ms2 & _ & R').
  assert (m2 = ms) as -> by congruence. eexists. split; [exact Er|]. split; [done|]. split; [done|].
  split; [unfold len; cbn; by rewrite length_insert|]. split; [done|]. split; [|done].
  destruct Hp as [->|[-> Hlt]]; [by left|by right].
Qed.

Lemma union_spec uf E a b : represents uf E -> id a < len uf -> id b < len uf -> mask uf !! id a = mask uf !! id b ->
  exists out uf', union a b uf = Some (out, uf') /\ mask uf' = mask uf /\ pinned uf' = pinned uf /\ len uf' = len uf /\
    match out with
    | Same => uf' = uf /\ find uf a = find uf b
    | Merged s x => represents uf' ((a, b) :: E) /\ s <> x /\ survives uf s x /\ pinned uf !! x = Some false /\
        (exists ra rb, find uf a = Some ra /\ find uf b = Some rb /\ ((s, x) = (id ra, id rb) \/ (s, x) = (id rb, id ra)))
    | Contradiction => represents uf' E /\ (forall x, find uf' x = find uf x) /\ impossible uf a b /\
        (forall r, find uf a = Some r \/ find uf b = Some r -> conflict uf' !! id r = Some true)
    end.
Proof.
  intros R Ha Hb Hm. pose proof (rep_wf _ _ R) as W. pose proof (wf_conflict _ W) as Lc.
  destruct (find_total uf W a Ha) as [ra Ea], (find_total uf W b Hb) as [rb Eb].
  destruct (find_root uf a ra W Ea) as (m & Ra & Ma & _ & Oa). destruct (find_root uf b rb W Eb) as (m' & Rb & Mb & _ & Ob).
  assert (id ra < len uf /\ id rb < len uf) as [La Lb] by (split; eapply lookup_lt_Some; eassumption).
  unfold union. rewrite Ea, Eb. cbn [mbind option_bind]. destruct (Nat.eqb_spec (id ra) (id rb)) as [Eid|Hne].
  - destruct (Z.eqb_spec (offset ra) (offset rb)) as [Eo|Ho].
    + exists Same, uf. do 5 (split; [done|]). destruct ra, rb. cbn in *. congruence.
    + rewrite set_conflict_run by done. eexists _, _. split; [reflexivity|]. do 3 (split; [done|]).
      split; [apply with_conflict_represents; [done|by rewrite length_insert]|]. split; [intros x; apply with_conflict_find|]. split.
      * destruct ra as [i o], rb as [j o']. cbn [id offset] in *. subst j. by apply (impossible_offset _ _ _ i o o').
      * intros r [Hr|Hr]; rewrite Hr in *; simplify_eq; cbn; rewrite ?Eid; apply list_lookup_insert_eq; lia.
  - destruct (lookup_lt_is_Some_2 (pinned uf) (id ra)) as [pa Pa]; [by rewrite (wf_pinned _ W)|].
    destruct (lookup_lt_is_Some_2 (pinned uf) (id rb)) as [pb Pb]; [by rewrite (wf_pinned _ W)|].
    rewrite Pa, Pb. cbn [mbind option_bind]. destruct (pa && pb) eqn:Hz.
    + apply andb_true_iff in Hz as [-> ->]. rewrite set_conflict_run by done. cbn [mbind option_bind].
      rewrite set_conflict_run by (cbn; rewrite ?length_insert; done). cbn [mbind option_bind].
      eexists _, _. split; [reflexivity|]. do 3 (split; [done|]).
      change (conflict (with_conflict uf ?c)) with c.
      change (with_conflict (with_conflict uf ?c) ?d) with (with_conflict uf d).
      split; [apply with_conflict_represents; [done|by rewrite !length_insert]|]. split; [intros x; apply with_conflict_find|].
      split; [by eapply impossible_zeros|]. intros r [Hr|Hr]; simplify_eq; cbn.
      * rewrite list_lookup_insert_ne by done. apply list_lookup_insert_eq. lia.
      * apply list_lookup_insert_eq. rewrite length_insert. lia.
    + destruct (pa || (negb pb && (id ra <? id rb))) eqn:Hc.
      * destruct (merge_spec uf E a b ra rb pa pb ((a, b) :: E)) as (uf' & -> & H1 & H2 & H3 & H4 & H5 & H6); try done; [|by destruct pa, pb|by left|].
        { destruct pa; [by left|]. right. cbn in Hc. apply andb_true_iff in Hc as [_ Hc%Nat.ltb_lt]. done. }
        cbn [mbind option_bind]. eexists _, _. split; [reflexivity|]. do 3 (split; [done|]). do 4 (split; [done|]). exists ra, rb. by auto.
      * destruct (merge_spec uf E b a rb ra pb pa ((a, b) :: E)) as (uf' & -> & H1 & H2 & H3 & H4 & H5 & H6); try done;
          [|by destruct pa, pb|by right|].
        { destruct pa, pb; try done; [by left|]. right. split; [done|]. cbn in Hc. apply Nat.ltb_ge in Hc. lia. }
        cbn [mbind option_bind]. eexists _, _. split; [reflexivity|]. do 3 (split; [done|]). do 4 (split; [done|]). exists ra, rb. by auto.
Qed.

(** ** [flatten] *)
Section flatten.
Context (uf : UnionFind) (W : wf uf).

(** The ids below [k] point at their roots; the others are untouched. *)
Record flattened (k : nat) (uf' : UnionFind) : Prop := {
  fl_len : len uf' = len uf;
  fl_dlen : length (delta uf') = len uf;
  fl_mask : mask uf' = mask uf;
  fl_pinned : pinned uf' = pinned uf;
  fl_conflict : conflict uf' = conflict uf;
  fl_shifted : shifted uf' = shifted uf;
  fl_flat : flat_below uf' = u32_max;
  fl_done : forall i r d m, i < k -> climbs uf i r d -> mask uf !! r = Some m ->
    parent uf' !! i = Some r /\ delta uf' !! i = Some (Z.land d m);
  fl_rest : forall i, k <= i -> parent uf' !! i = parent uf !! i /\ delta uf' !! i = delta uf !! i;
}.

(** An id whose parent is a root needs no step. *)
Lemma direct i p : parent uf !! i = Some p -> parent uf !! p = Some p -> forall r d m, climbs uf i r d -> mask uf !! r = Some m ->
  r = p /\ delta uf !! i = Some (Z.land d m).
Proof.
  intros Hp Hpp r d m C Hm. destruct (Nat.eq_dec p i) as [->|Hne].
  - inversion C; subst; [|congruence]. split; [done|]. rewrite (wf_root _ W _ Hp). done.
  - inversion C as [|i' p' e r' d' Hp' _ He C']; subst; [congruence|]. assert (p' = p) as -> by congruence.
    inversion C'; subst; [|congruence]. split; [done|]. rewrite Z.add_0_r, He. f_equal. symmetry.
    eapply (wf_offsets _ W); [exact He|]. by rewrite <- (wf_carrier _ W i r).
Qed.

Lemma flattened_skip k uf' p : flattened k uf' -> parent uf !! k = Some p -> parent uf !! p = Some p -> flattened (S k) uf'.
Proof.
  intros [] Hp Hpp. split; try done; [|intros i Hi; apply fl_rest0; lia].
  intros i r d m Hi C Hm. destruct (Nat.eq_dec i k) as [->|]; [|apply fl_done0; by (done || lia)].
  destruct (direct k p Hp Hpp r d m C Hm) as [-> Hd]. destruct (fl_rest0 k (Nat.le_refl _)) as [-> ->]. done.
Qed.

Lemma flattened_step k uf' p : flattened k uf' -> parent uf !! k = Some p -> parent uf !! p <> Some p ->
  exists uf'', flatten_step k uf' = Some uf'' /\ flattened (S k) uf''.
Proof.
  intros [] Hp Hpp. assert (k < len uf) as Hk by by eapply lookup_lt_Some.
  assert (p < k) as Hpk. { destruct (wf_parent _ W k p Hp) as [[Hle _]|Hz]; [|by apply (wf_zero _ W) in Hz].
    destruct (Nat.eq_dec p k) as [->|]; [done|lia]. }
  destruct (place uf W p) as (r & d & m & C & Hr & _ & Hm & _); [by eapply parent_lt|].
  destruct (fl_done0 p r d m Hpk C Hr) as [Hpp' Hdp]. destruct (fl_rest0 k (Nat.le_refl _)) as [Hk' Hdk].
  destruct (lookup_lt_is_Some_2 (delta uf) k) as [e He]; [by rewrite (wf_delta _ W)|].
  assert (climbs uf k r (e + d)) as Ck by (eapply climbs_up; [exact Hp|lia|exact He|exact C]).
  assert (exists ds, (if shifted uf' then di ← delta uf' !! k; dp ← delta uf' !! p; m ← mask uf' !! r;
      vset (delta uf') k (Z.land (wrapping_add di dp) m) else Some (delta uf')) = Some ds /\
    length ds = len uf /\ ds !! k = Some (Z.land (e + d) m) /\ forall i, i <> k -> ds !! i = delta uf' !! i) as (ds & Eds & Lds & Hds & Hother).
  { rewrite fl_shifted0, fl_mask0. destruct (shifted uf) eqn:Hs.
    - rewrite Hdk, He, Hdp. cbn [mbind option_bind]. rewrite Hr. cbn [mbind option_bind]. rewrite vset_Some by lia.
      eexists. split; [done|]. rewrite length_insert. split; [done|]. split.
      + rewrite list_lookup_insert_eq by lia. f_equal. unfold wrapping_add. by rewrite land_wrap, land_add_r.
      + intros i Hi. by rewrite list_lookup_insert_ne.
    - exists (delta uf'). split; [done|]. split; [done|]. split; [|done]. rewrite Hdk, He.
      by rewrite (wf_shifted _ W Hs k e He), (climbs_unshifted uf W p r d Hs C). }
  eexists. split. { unfold flatten_step. rewrite Hk', Hp. cbn [mbind option_bind]. rewrite Hpp'. cbn [mbind option_bind]. rewrite Eds.
    cbn [mbind option_bind]. rewrite vset_Some by (unfold len in *; lia). reflexivity. }
  split; cbn [parent delta mask pinned conflict shifted flat_below]; try done; [unfold len; cbn; by rewrite length_insert| |].
  - intros i r' d' m' Hi Ci Hm'. destruct (Nat.eq_dec i k) as [->|Hik].
    + destruct (climbs_fun uf k _ _ _ _ Ck Ci) as [<- <-]. rewrite list_lookup_insert_eq by (unfold len in *; lia).
      split; [done|]. congruence.
    + rewrite list_lookup_insert_ne, Hother by done. apply fl_done0; by (done || lia).
  - intros i Hi. rewrite list_lookup_insert_ne, Hother by lia. apply fl_rest0. lia.
Qed.


Definition moved (column map : list nat) (i : nat) : bool :=
  match column !! i with
  | Some cell => negb (bool_decide (map !! cell = Some cell))
  | None => false
  end.

Lemma flatten_go from n j uf' : flattened (from + j) uf' -> from + j + n = len uf ->
  exists uf'', flatten_loop from (List.filter (moved (drop from (parent uf)) (parent uf)) (seq j n)) uf' = Some uf'' /\
    flattened (len uf) uf''.
Proof.
  revert j uf'; induction n as [|n IH]; intros j uf' HF Hn; cbn [seq List.filter].
  - rewrite Nat.add_0_r in Hn. rewrite <- Hn. by exists uf'.
  - destruct (lookup_lt_is_Some_2 (parent uf) (from + j)) as [p Hp]; [unfold len in *; lia|].
    unfold moved at 1. rewrite lookup_drop, Hp. destruct (bool_decide_reflect (parent uf !! p = Some p)) as [Hpp|Hpp]; cbn [negb].
    + apply (IH (S j)); [|lia]. rewrite Nat.add_succ_r. by eapply flattened_skip.
    + destruct (flattened_step _ _ _ HF Hp Hpp) as (uf1 & E1 & HF1). cbn [flatten_loop]. rewrite E1. cbn [mbind option_bind].
      apply (IH (S j)); [|lia]. by rewrite Nat.add_succ_r.
Qed.

Lemma flatten_run : exists uf', flatten uf = Some uf' /\ flattened (len uf) uf'.
Proof.
  unfold flatten. set (from := Z.to_nat _). pose proof (wf_flat_pos _ W) as Hp.
  assert (from <= len uf /\ (Z.of_nat from <= flat_below uf)%Z) as [Hf1 Hf2] by (unfold from, len; lia).
  unfold select_moved. rewrite length_drop. cbn [parent]. apply (flatten_go from _ 0); [|unfold len in *; lia]. rewrite Nat.add_0_r.
  split; try done; [apply (wf_delta _ W)|]. intros i r d m Hi C Hm.
  assert (exists p, parent uf !! i = Some p) as [p Hpi] by (apply lookup_lt_is_Some_2; unfold len in *; lia).
  assert (parent uf !! p = Some p) as Hpp by (eapply (wf_flat _ W); [|exact Hpi]; lia).
  destruct (direct i p Hpi Hpp r d m C Hm) as [-> Hd]. done.
Qed.

(** A flattened union-find has the same canonical forms. *)
Section done.
Context (uf' : UnionFind) (HF : flattened (len uf) uf').

Lemma flattened_at i : i < len uf -> exists r d m, climbs uf i r d /\ mask uf !! r = Some m /\ mask uf !! i = Some m /\ is_mask m /\
  parent uf' !! i = Some r /\ parent uf' !! r = Some r /\ delta uf' !! i = Some (Z.land d m).
Proof.
  intros Hi. destruct (place uf W i Hi) as (r & d & m & C & Hr & Hm & Hk & Hlr). exists r, d, m. do 4 (split; [done|]).
  destruct (fl_done _ _ HF i r d m Hi C Hr) as [Hp Hd]. pose proof (climbs_top uf i r d C) as Ht.
  destruct (fl_done _ _ HF r r 0%Z m Hlr (climbs_root uf r Ht) Hr) as [Hp' _]. done.
Qed.

Lemma flattened_wf : wf uf'.
Proof.
  pose proof HF as []. assert (forall i p, parent uf' !! i = Some p -> i < len uf) as Hlt by (intros i p Hi; rewrite <- fl_len0; by eapply lookup_lt_Some).
  assert (forall i e, delta uf' !! i = Some e -> i < len uf) as Hlt' by (intros i e Hi; rewrite <- fl_dlen0; by eapply lookup_lt_Some).
  split; rewrite ?fl_len0, ?fl_mask0, ?fl_pinned0, ?fl_conflict0, ?fl_shifted0, ?fl_flat0; try done; try apply W.
  - intros i p Hp. destruct (flattened_at i (Hlt i p Hp)) as (r & d & m & C & _ & _ & _ & Hr & Hrr & _).
    assert (r = p) as -> by congruence. destruct (climbs_least uf W i p d C); [left|by right].
    split; [done|]. apply (Hlt p p Hrr).
  - intros i Hz. assert (i < len uf) as Hi by (rewrite <- (wf_pinned _ W); by eapply lookup_lt_Some).
    apply (wf_zero _ W) in Hz. destruct (lookup_lt_is_Some_2 (mask uf) i) as [m Hm]; [by rewrite (wf_mask _ W)|].
    by destruct (fl_done0 i i 0%Z m Hi (climbs_root uf i Hz) Hm).
  - intros i p Hp. destruct (flattened_at i (Hlt i p Hp)) as (r & d & m & _ & Hr & Hm & _ & Hr' & _). congruence.
  - intros i e m' He Hm'. destruct (flattened_at i (Hlt' i e He)) as (r & d & m & _ & _ & Hm & _ & _ & _ & Hd).
    assert (e = Z.land d m) as -> by congruence. assert (m' = m) as -> by congruence. apply land_idem.
  - intros Hs i e He. destruct (flattened_at i (Hlt' i e He)) as (r & d & m & C & _ & _ & _ & _ & _ & Hd).
    rewrite (climbs_unshifted uf W i r d Hs C) in Hd. by injection (eq_trans (eq_sym He) Hd) as ->.
  - intros i Hp. destruct (flattened_at i (Hlt i i Hp)) as (r & d & m & C & _ & _ & _ & Hr & Hrr & Hd).
    assert (r = i) as -> by congruence. pose proof (climbs_top uf i i d C) as Ht.
    destruct (climbs_fun uf i i d i 0%Z C (climbs_root uf i Ht)) as [_ ->]. done.
  - intros i p _ Hp. destruct (flattened_at i (Hlt i p Hp)) as (r & d & m & _ & _ & _ & _ & Hr & Hrr & _). congruence.
Qed.

Lemma flattened_find x : find uf' x = find uf x.
Proof.
  destruct (le_lt_dec (len uf) (id x)) as [Hx|Hx]; [rewrite !find_out; [done|lia|by rewrite (fl_len _ _ HF)]|].
  destruct (flattened_at _ Hx) as (r & d & m & C & Hr & _ & Hm & Hp & Hrr & Hd). rewrite (find_spec uf W x r d m C Hr).
  assert (exists d', climbs uf' (id x) r d' /\ Z.land d' m = Z.land d m) as (d' & C' & Ed).
  { destruct (Nat.eq_dec r (id x)) as [E|Hne].
    - rewrite <- E in *. exists 0%Z. split; [by constructor|]. pose proof (climbs_top _ _ _ _ C) as Ht.
      destruct (climbs_fun uf r r d r 0%Z C (climbs_root uf r Ht)) as [_ ->]. done.
    - exists (Z.land d m + 0)%Z. split; [eapply climbs_up; [exact Hp|done|exact Hd|by constructor]|]. by rewrite Z.add_0_r, land_idem. }
  rewrite (find_spec uf' flattened_wf x r d' m C') by (by rewrite (fl_mask _ _ HF)). do 2 f_equal.
  by rewrite <- (land_add_r m _ d'), Ed, land_add_r.
Qed.

Lemma flattened_represents E : represents uf E -> represents uf' E.
Proof.
  intros R. split; [exact flattened_wf| | |intros a b Hab; rewrite (fl_len _ _ HF); by apply (rep_scope _ _ R)].
  - intros i p e Hp Hne He. assert (i < len uf) as Hi by (rewrite <- (fl_len _ _ HF); by eapply lookup_lt_Some).
    destruct (flattened_at i Hi) as (r & d & m & C & Hr & _ & Hm & Hp' & _ & Hd). assert (r = p) as -> by congruence.
    assert (e = Z.land d m) as -> by congruence. rewrite (fl_mask _ _ HF). transitivity (mkRef p d); [by apply climbs_eqv|].
    apply (eqv_mask _ _ _ _ _ m Hr). by rewrite land_idem.
  - intros a b Hab. rewrite !flattened_find. by apply (rep_sat _ _ R).
Qed.

End done.
End flatten.

(** ** The theorems of the union-find *)
(** A sequence of unions, with their verdicts. *)
Fixpoint union_all (eqs : list (Ref * Ref)) (uf : UnionFind) : option (list Merge * UnionFind) :=
  match eqs with
  | [] => Some ([], uf)
  | (a, b) :: eqs =>
    '(out, uf) ← union a b uf;
    '(outs, uf) ← union_all eqs uf;
    Some (out :: outs, uf)
  end.

(** The equations that were not refused, the newest first. *)
Fixpoint accepted (eqs : list (Ref * Ref)) (outs : list Merge) (E : list (Ref * Ref)) : list (Ref * Ref) :=
  match eqs, outs with
  | e :: eqs, out :: outs => accepted eqs outs (match out with Contradiction => E | _ => e :: E end)
  | _, _ => E
  end.

(** Equations between ids of one carrier. *)
Definition in_scope (uf : UnionFind) (e : Ref * Ref) : Prop :=
  id (fst e) < len uf /\ id (snd e) < len uf /\ mask uf !! id (fst e) = mask uf !! id (snd e).

Lemma represents_same uf E a b : represents uf E -> find uf a = find uf b -> id a < len uf -> id b < len uf ->
  represents uf ((a, b) :: E).
Proof.
  intros R Hf Ha Hb. split; [apply R| | |].
  - intros i p e Hp Hne He. eapply eqv_mono; [| |by eapply (rep_sound _ _ R)]; [done|]. intros q Hq. by right.
  - intros x y [[= -> ->]|Hxy]%elem_of_cons; [done|by apply (rep_sat _ _ R)].
  - intros x y [[= -> ->]|Hxy]%elem_of_cons; [done|by apply (rep_scope _ _ R)].
Qed.

Lemma union_all_spec eqs uf E : represents uf E -> Forall (in_scope uf) eqs ->
  exists outs uf', union_all eqs uf = Some (outs, uf') /\ mask uf' = mask uf /\ len uf' = len uf /\
    represents uf' (accepted eqs outs E).
Proof.
  revert uf E; induction eqs as [|[a b] eqs IH]; intros uf E R HE; [by exists [], uf|].
  apply list.Forall_cons in HE as [(Ha & Hb & Hm) HE]. cbn [fst snd] in *.
  destruct (union_spec uf E a b R Ha Hb Hm) as (out & uf1 & E1 & M1 & _ & L1 & Hout).
  assert (represents uf1 (match out with Contradiction => E | _ => (a, b) :: E end)) as R1.
  { destruct out; [destruct Hout as [-> Hf]; by apply represents_same|by destruct Hout|by destruct Hout]. }
  destruct (IH uf1 _ R1) as (outs & uf2 & E2 & M2 & L2 & R2).
  { eapply Forall_impl; [|exact HE]. intros [x y] (H1 & H2 & H3). unfold in_scope. by rewrite M1, L1. }
  exists (out :: outs), uf2. cbn [union_all]. rewrite E1. cbn [mbind option_bind]. rewrite E2. cbn [mbind option_bind].
  split; [done|]. split; [congruence|]. split; [congruence|done].
Qed.

(** ** A union-find for the witnesses: two bytes and the zero of their carrier *)
Definition byte : Z := 255.
Lemma byte_mask : is_mask byte. Proof. exists 8%Z. split; [lia|reflexivity]. Qed.

Definition bytes : UnionFind := snd (push byte true (snd (push byte false (snd (push byte false new))))).

Lemma bytes_represents : represents bytes [].
Proof. do 3 (apply push_represents; [|exact byte_mask]). exact new_represents. Qed.

(** [1 = zero + 5] and [0 = 1 + 2]. *)
Definition constants : list (Ref * Ref) := [(mkRef 1 0, mkRef 2 5); (mkRef 0 0, mkRef 1 2)].

Lemma constants_scope : Forall (in_scope bytes) constants.
Proof. constructor; [|constructor; [|constructor]]; (split; [vm_compute; lia|split; [vm_compute; lia|reflexivity]]). Qed.

(** ** Properties *)

(** C33: a sequence of unions, on ids of one carrier each, never panics, and
    [find] then decides the congruence that the accepted equations generate:
    two references have one canonical form exactly when the equations, closed
    under adding constants and read modulo the carriers, make them equal. *)
Theorem unionfind_closure uf E eqs : represents uf E -> Forall (in_scope uf) eqs ->
  exists outs uf', union_all eqs uf = Some (outs, uf') /\ represents uf' (accepted eqs outs E) /\
    forall a b, id a < len uf -> id b < len uf ->
      find uf' a = find uf' b <-> eqv (mask uf) (accepted eqs outs E) a b.
Proof.
  intros R HE. destruct (union_all_spec eqs uf E R HE) as (outs & uf' & Er & M & L & R').
  exists outs, uf'. split; [done|]. split; [done|]. intros a b Ha Hb. rewrite <- M. apply find_decides; by rewrite ?L.
Qed.

Lemma unionfind_closure_witness :
  exists outs uf', union_all constants bytes = Some (outs, uf') /\ represents uf' (accepted constants outs []) /\
    forall a b, id a < len bytes -> id b < len bytes ->
      find uf' a = find uf' b <-> eqv (mask bytes) (accepted constants outs []) a b.
Proof. exact (unionfind_closure bytes [] constants bytes_represents constants_scope). Defined.

Example constants_found :
  ('(_, uf) ← union_all constants bytes; find uf (mkRef 0 0)) = Some (mkRef 2 7).
Proof. reflexivity. Qed.

(** Each verdict of [union] is right: [Same] when the equation already
    holds, [Merged] when it is new, with the zero or else the smaller root
    surviving, and [Contradiction] when no value of the ids satisfies it with
    the equations before; a contradiction marks the sets and moves nothing. *)
Theorem union_verdicts uf E a b : represents uf E -> in_scope uf (a, b) ->
  exists out uf', union a b uf = Some (out, uf') /\
    match out with
    | Same => uf' = uf /\ eqv (mask uf) E a b
    | Merged s x => represents uf' ((a, b) :: E) /\ ~ eqv (mask uf) E a b /\ survives uf s x /\ pinned uf !! x = Some false
    | Contradiction => represents uf' E /\ ~ eqv (mask uf) E a b /\ (forall x, find uf' x = find uf x) /\ impossible uf a b /\
        (forall r, find uf a = Some r \/ find uf b = Some r -> conflict uf' !! id r = Some true)
    end.
Proof.
  intros R (Ha & Hb & Hm). cbn [fst snd] in *. destruct (union_spec uf E a b R Ha Hb Hm) as (out & uf' & E1 & _ & _ & _ & Hout).
  exists out, uf'. split; [done|]. pose proof (find_decides uf E a b R Ha Hb) as D. destruct out as [|s x|].
  - destruct Hout as [-> Hf]. split; [done|]. by apply D.
  - destruct Hout as (R' & Hne & Hs & Hp & ra & rb & Ea & Eb & Hsx). split; [done|]. split; [|done].
    rewrite <- D, Ea, Eb. intros [= ->]. destruct Hsx as [[= -> ->]|[= -> ->]]; done.
  - destruct Hout as (R' & Hf & Himp & Hc). split; [done|]. split; [|done]. rewrite <- D.
    destruct Himp as [r o o' Ea Eb Ho|r s Ea Eb Hrs _ _]; rewrite Ea, Eb; congruence.
Qed.

Lemma union_verdicts_witness :
  exists out uf', union (mkRef 0 0) (mkRef 0 3) bytes = Some (out, uf') /\
    match out with
    | Same => uf' = bytes /\ eqv (mask bytes) [] (mkRef 0 0) (mkRef 0 3)
    | Merged s x => represents uf' [(mkRef 0 0, mkRef 0 3)] /\ ~ eqv (mask bytes) [] (mkRef 0 0) (mkRef 0 3) /\
        survives bytes s x /\ pinned bytes !! x = Some false
    | Contradiction => represents uf' [] /\ ~ eqv (mask bytes) [] (mkRef 0 0) (mkRef 0 3) /\
        (forall x, find uf' x = find bytes x) /\ impossible bytes (mkRef 0 0) (mkRef 0 3) /\
        (forall r, find bytes (mkRef 0 0) = Some r \/ find bytes (mkRef 0 3) = Some r -> conflict uf' !! id r = Some true)
    end.
Proof. apply (union_verdicts bytes []); [exact bytes_represents|]. split; [vm_compute; lia|split; [vm_compute; lia|reflexivity]]. Defined.

(** [flatten] terminates without panicking and keeps every canonical
    form and the equations, and then the parent and delta arrays are the map
    from each id to its canonical form. *)
Theorem flatten_maps uf E : represents uf E ->
  exists uf', flatten uf = Some uf' /\ represents uf' E /\ (forall x, find uf' x = find uf x) /\
    forall i, i < len uf -> exists r d, find uf (mkRef i 0) = Some (mkRef r d) /\ parents uf' !! i = Some r /\
      match deltas uf' with Some ds => ds !! i = Some d | None => d = 0%Z end.
Proof.
  intros R. pose proof (rep_wf _ _ R) as W. destruct (flatten_run uf W) as (uf' & Er & HF). exists uf'. split; [done|].
  split; [by eapply flattened_represents|]. split; [by apply flattened_find|]. intros i Hi.
  destruct (flattened_at uf W uf' HF i Hi) as (r & d & m & C & Hr & _ & _ & Hp & _ & Hd).
  exists r, (Z.land d m). rewrite (find_spec uf W (mkRef i 0) r d m C Hr). do 2 (split; [done|]).
  unfold deltas. rewrite (fl_shifted _ _ _ HF). destruct (shifted uf) eqn:Hs; [done|].
  by rewrite (climbs_unshifted uf W i r d Hs C).
Qed.

Lemma flatten_maps_witness :
  exists uf', flatten bytes = Some uf' /\ represents uf' [] /\ (forall x, find uf' x = find bytes x) /\
    forall i, i < len bytes -> exists r d, find bytes (mkRef i 0) = Some (mkRef r d) /\ parents uf' !! i = Some r /\
      match deltas uf' with Some ds => ds !! i = Some d | None => d = 0%Z end.
Proof. exact (flatten_maps bytes [] bytes_represents). Defined.

(** A representative is a function of its set, not of the order of the
    unions: it is the zero the set contains, or else its smallest id; and a
    set contains at most one zero. *)
Theorem representative_canonical uf E i r : represents uf E -> root uf i = Some r ->
  (forall j, root uf j = Some r -> pinned uf !! j = Some true -> j = r) /\
  (pinned uf !! r = Some true \/ forall j, root uf j = Some r -> r <= j /\ pinned uf !! j <> Some true).
Proof.
  intros R Hi. pose proof (rep_wf _ _ R) as W.
  assert (forall j, root uf j = Some r -> exists d, climbs uf j r d) as Hc.
  { intros j Hj. destruct (le_lt_dec (len uf) j) as [Hge|Hlt].
    - unfold root in Hj. cbn [root_loop] in Hj. by rewrite lookup_ge_None_2 in Hj.
    - destruct (climbs_total uf W j Hlt) as (r' & d & C & _). rewrite (root_spec uf W j r' d C) in Hj. injection Hj as ->. by exists d. }
  assert (forall j, root uf j = Some r -> pinned uf !! j = Some true -> j = r) as Hone.
  { intros j Hj Hz. destruct (Hc j Hj) as [d C]. apply (wf_zero _ W) in Hz. inversion C; subst; [done|congruence]. }
  split; [done|]. destruct (decide (pinned uf !! r = Some true)) as [|Hr]; [by left|right].
  intros j Hj. split; [destruct (Hc j Hj) as [d C]; by destruct (climbs_least uf W j r d C)|].
  intros Hz. rewrite (Hone j Hj Hz) in Hz. done.
Qed.

Lemma representative_canonical_witness :
  (forall j, root bytes j = Some 1 -> pinned bytes !! j = Some true -> j = 1) /\
  (pinned bytes !! 1 = Some true \/ forall j, root bytes j = Some 1 -> 1 <= j /\ pinned bytes !! j <> Some true).
Proof. exact (representative_canonical bytes [] 1 1 bytes_represents eq_refl). Defined.
