(* ===== verification/Pbqp.v ===== *)
(** * The PBQP solver of the register allocator ([core/src/backend/pbqp.rs])

    Node costs and edge matrices, the optimal reductions R0, R1 and R2, the
    merge RM, the heuristic decision RN and back-propagation. Costs are [u64];
    a shared [Rc<Matrix>] is a value, since [Rc::make_mut] copies it before a
    write. [None] is a panic or the end of a loop's fuel. A [Vec] used as a
    stack ([pending], [reduced]) is kept with its top first. *)
From stdpp Require Import sorting.
From S2P Require Import Prelude Words.
#[local] Open Scope nat_scope.

Definition INF_COST : Z := (u64_max / 4)%Z.

Definition saturating_add (a b : Z) : Z := Z.min (a + b) u64_max.
Definition add (lhs rhs : Z) : Z := Z.min (saturating_add lhs rhs) INF_COST.

(** The first minimum of a sequence, if any. *)
Definition minimum (l : list Z) : option Z :=
  match l with [] => None | x :: l => Some (fold_left Z.min l x) end.

Definition min_sum (lhs rhs : list Z) : Z :=
  match minimum (zip_with saturating_add lhs rhs) with Some c => Z.min c INF_COST | None => INF_COST end.

(** [chunks_exact] with a chunk size that is not zero. *)
Definition chunks_exact {A} (n : nat) (l : list A) : list (list A) :=
  map (fun i => take n (drop (i * n) l)) (seq 0 (length l / n)).

(** [Iterator::min_by_key] on indexed costs: the first least one. *)
Fixpoint argmin_from (best : nat) (cost : Z) (i : nat) (l : list Z) : nat * Z :=
  match l with
  | [] => (best, cost)
  | x :: l => if (x <? cost)%Z then argmin_from i x (S i) l else argmin_from best cost (S i) l
  end.
Definition argmin (l : list Z) : nat * Z :=
  match l with [] => (0, INF_COST) | x :: l => argmin_from 0 x 1 l end.

(** ** Matrices *)
Record Matrix := mkMatrix { rows : nat; cols : nat; cells : list Z }.

Definition zero (rows cols : nat) : Matrix := mkMatrix rows cols (replicate (rows * cols) 0%Z).
Definition get (m : Matrix) (row col : nat) : option Z := cells m !! (row * cols m + col).
Definition set (m : Matrix) (row col : nat) (cost : Z) : option Matrix :=
  c ← vset (cells m) (row * cols m + col) cost; Some (mkMatrix (rows m) (cols m) c).

(** [row] slices one row. *)
Definition row (m : Matrix) (r : nat) : option (list Z) :=
  if (r * cols m + cols m) <=? length (cells m) then Some (take (cols m) (drop (r * cols m) (cells m))) else None.

Definition transposed (m : Matrix) : option Matrix :=
  fold_left (fun t '(r, c) => t ← t; x ← get m r c; set t c r x)
    (list_prod (seq 0 (rows m)) (seq 0 (cols m))) (Some (zero (cols m) (rows m))).

(** Adding costs in place, as far as the added ones go. *)
Fixpoint charge_costs (a b : list Z) : list Z :=
  match a, b with
  | x :: a, y :: b => add x y :: charge_costs a b
  | _, _ => a
  end.
Definition charge_cells (m d : Matrix) : Matrix := mkMatrix (rows m) (cols m) (charge_costs (cells m) (cells d)).

(** ** Problems *)
Record Problem := mkProblem { node_costs : list (list Z); edge_costs : gmap (nat * nat) Matrix }.

Definition empty_problem : Problem := mkProblem [] ∅.

Definition add_node (costs : list Z) (p : Problem) : option (nat * Problem) :=
  match costs with
  | [] => None
  | _ => Some (length (node_costs p), mkProblem (node_costs p ++ [costs]) (edge_costs p))
  end.

(** The debug assertions on the shape of the matrix included. *)
Definition add_edge (lhs rhs : nat) (matrix : Matrix) (p : Problem) : option Problem :=
  if lhs =? rhs then None
  else
    '(a, b, matrix) ← (if lhs <? rhs then Some (lhs, rhs, matrix) else t ← transposed matrix; Some (rhs, lhs, t));
    ca ← node_costs p !! a;
    cb ← node_costs p !! b;
    if negb ((rows matrix =? length ca) && (cols matrix =? length cb)) then None
    else
      let matrix := match edge_costs p !! (a, b) with Some existing => charge_cells existing matrix | None => matrix end in
      Some (mkProblem (node_costs p) (<[(a, b) := matrix]> (edge_costs p))).

Definition node_count (p : Problem) : nat := length (node_costs p).
Definition edge_count (p : Problem) : nat := size (edge_costs p).

(** ** The solver *)
Record Edge := mkEdge { e_lhs : nat; e_rhs : nat; e_matrix : Matrix; e_live : bool }.

Inductive Reduced :=
  | R0 (node : nat)
  | R1 (node edge : nat)
  | R2 (node first second : nat).

Record Solver := mkSolver {
  costs : list (list Z);
  edges : list Edge;
  adjacency : list (list nat);
  between : gmap (nat * nat) nat;
  alive : list bool;
  pending : list nat;
  reduced : list Reduced;
  choices : list nat;
}.

Definition set_costs x s := mkSolver x (edges s) (adjacency s) (between s) (alive s) (pending s) (reduced s) (choices s).
Definition set_edges x s := mkSolver (costs s) x (adjacency s) (between s) (alive s) (pending s) (reduced s) (choices s).
Definition set_adjacency x s := mkSolver (costs s) (edges s) x (between s) (alive s) (pending s) (reduced s) (choices s).
Definition set_between x s := mkSolver (costs s) (edges s) (adjacency s) x (alive s) (pending s) (reduced s) (choices s).
Definition set_alive x s := mkSolver (costs s) (edges s) (adjacency s) (between s) x (pending s) (reduced s) (choices s).
Definition set_pending x s := mkSolver (costs s) (edges s) (adjacency s) (between s) (alive s) x (reduced s) (choices s).
Definition set_reduced x s := mkSolver (costs s) (edges s) (adjacency s) (between s) (alive s) (pending s) x (choices s).
Definition set_choices x s := mkSolver (costs s) (edges s) (adjacency s) (between s) (alive s) (pending s) (reduced s) x.

Definition push_pending (node : nat) (s : Solver) : Solver := set_pending (node :: pending s) s.
Definition kill (node : nat) (s : Solver) : option Solver := a ← vset (alive s) node false; Some (set_alive a s).

Definition pair_key (lhs rhs : nat) : nat * nat := (Nat.min lhs rhs, Nat.max lhs rhs).

Definition cost (s : Solver) (edge node own other : nat) : option Z :=
  e ← edges s !! edge;
  if e_lhs e =? node then get (e_matrix e) own other else get (e_matrix e) other own.

Definition other (s : Solver) (edge node : nat) : option nat :=
  e ← edges s !! edge; Some (if e_lhs e =? node then e_rhs e else e_lhs e).

Definition is_finite (c : Z) : bool := (c <? INF_COST)%Z.

Definition finite (s : Solver) (node : nat) : option nat :=
  c ← costs s !! node; Some (length (List.filter is_finite c)).

(** [Vec::swap_remove]. *)
Definition swap_remove {A} (l : list A) (i : nat) : option (list A) :=
  if i <? length l then
    last ← l !! (length l - 1);
    Some (take (length l - 1) (<[i := last]> l))
  else None.

Fixpoint position (x : nat) (l : list nat) : option nat :=
  match l with
  | [] => None
  | y :: l => if y =? x then Some 0 else i ← position x l; Some (S i)
  end.

(** One end of [unlink]. *)
Definition unlink_end (edge node : nat) (s : Solver) : option Solver :=
  l ← adjacency s !! node;
  position ← position edge l;
  l ← swap_remove l position;
  a ← vset (adjacency s) node l;
  let s := set_adjacency a s in
  Some (if length l <=? 2 then push_pending node s else s).

Definition unlink (edge : nat) (s : Solver) : option Solver :=
  e ← edges s !! edge;
  es ← vset (edges s) edge (mkEdge (e_lhs e) (e_rhs e) (e_matrix e) false);
  s ← unlink_end edge (e_lhs e) (set_edges es s);
  s ← unlink_end edge (e_rhs e) s;
  Some (set_between (delete (pair_key (e_lhs e) (e_rhs e)) (between s)) s).

(** ** [normalize] *)
Definition reduced_cost (cost min : Z) : Z :=
  if (INF_COST <=? cost)%Z then INF_COST else Z.max 0 (cost - min).

(** The least cost of a line of the matrix among the other end's finite
    alternatives, zero when there is none. *)
Definition line_min (line others : list Z) : Z :=
  default 0%Z (minimum (map fst (List.filter (fun '(_, o) => is_finite o) (zip line others)))).

(** A line of a matrix: its cells, from index [start] in steps of [step]. *)
Definition line (m : Matrix) (start step n : nat) : option (list Z) :=
  mapM (fun i => cells m !! (start + i * step)) (seq 0 n).
Definition write_line (m : Matrix) (start step : nat) (l : list Z) : option Matrix :=
  c ← fold_left (fun c '(i, x) => c ← c; vset c (start + i * step) x) (imap pair l) (Some (cells m));
  Some (mkMatrix (rows m) (cols m) c).

(** The body of the row loop and, with the two ends exchanged, of the column
    loop: the least finite cost of the line moves to the node's own cost, and
    the line of an infinite alternative is cleared. *)
Definition normalize_line (start step n i : nat) (others : list Z) (st : list Z * Matrix) : option (list Z * Matrix) :=
  let '(own, m) := st in
  c ← own !! i;
  l ← line m start step n;
  '(own, m) ← (if is_finite c then
      let min := line_min l others in
      if (min =? 0)%Z then Some (own, m)
      else
        m ← write_line m start step (map (fun x => reduced_cost x min) l);
        own ← vset own i (add c min);
        Some (own, m)
    else Some (own, m));
  c ← own !! i;
  l ← line m start step n;
  if negb (is_finite c) && negb (forallb (fun x => x =? 0)%Z l) then
    m ← write_line m start step (replicate n 0%Z);
    Some (own, m)
  else Some (own, m).

Definition normalize_rows (others : list Z) (own : list Z) (m : Matrix) : option (list Z * Matrix) :=
  fold_left (fun st r => st ← st; normalize_line (r * cols m) 1 (cols m) r others st)
    (seq 0 (length own)) (Some (own, m)).

Definition normalize_cols (others : list Z) (own : list Z) (m : Matrix) : option (list Z * Matrix) :=
  fold_left (fun st c => st ← st; normalize_line c (cols m) (length others) c others st)
    (seq 0 (length own)) (Some (own, m)).

Definition normalize (edge : nat) (s : Solver) : option Solver :=
  e ← edges s !! edge;
  cl ← costs s !! e_lhs e;
  cr ← costs s !! e_rhs e;
  '(cl, m) ← normalize_rows cr cl (e_matrix e);
  '(cr, m) ← normalize_cols cl cr m;
  cs ← vset (costs s) (e_lhs e) cl;
  cs ← vset cs (e_rhs e) cr;
  es ← vset (edges s) edge (mkEdge (e_lhs e) (e_rhs e) m (e_live e));
  let s := set_edges es (set_costs cs s) in
  if forallb (fun x => x =? 0)%Z (cells m) then unlink edge s else Some s.

(** ** Building the graph *)
Definition push_adjacency (node id : nat) (s : Solver) : option Solver :=
  l ← adjacency s !! node;
  a ← vset (adjacency s) node (l ++ [id]);
  Some (set_adjacency a s).

Definition link (lhs rhs : nat) (matrix : Matrix) (s : Solver) : option Solver :=
  let id := length (edges s) in
  let s := set_edges (edges s ++ [mkEdge lhs rhs matrix true]) s in
  s ← push_adjacency lhs id s;
  s ← push_adjacency rhs id s;
  normalize id (set_between (<[pair_key lhs rhs := id]> (between s)) s).

Definition charge (lhs rhs : nat) (delta : Matrix) (s : Solver) : option Solver :=
  match between s !! pair_key lhs rhs with
  | Some edge =>
    e ← edges s !! edge;
    delta ← (if e_lhs e =? lhs then Some delta else transposed delta);
    es ← vset (edges s) edge (mkEdge (e_lhs e) (e_rhs e) (charge_cells (e_matrix e) delta) (e_live e));
    normalize edge (set_edges es s)
  | None => link lhs rhs delta s
  end.

Fixpoint normalize_live (es : list nat) (s : Solver) : option Solver :=
  match es with
  | [] => Some s
  | edge :: es =>
    e ← edges s !! edge;
    s ← (if e_live e then normalize edge s else Some s);
    normalize_live es s
  end.

Definition charge_node (node : nat) (added : list Z) (s : Solver) : option Solver :=
  c ← costs s !! node;
  cs ← vset (costs s) node (charge_costs c added);
  let s := set_costs cs s in
  f ← finite s node;
  s ← (if f <=? 1 then es ← adjacency s !! node; normalize_live es s else Some s);
  Some (push_pending node s).

(** [Solver::new]: the links in the order of their keys, which [sorted] lists. *)
Fixpoint link_all (es : list ((nat * nat) * Matrix)) (s : Solver) : option Solver :=
  match es with
  | [] => Some s
  | ((lhs, rhs), m) :: es => s ← link lhs rhs m s; link_all es s
  end.

Definition unlinked (p : Problem) : Solver :=
  let count := length (node_costs p) in
  mkSolver (node_costs p) [] (replicate count []) ∅ (replicate count true) (seq 0 count) [] (replicate count 0).

(** ** The optimal reductions *)
Definition laid_out (s : Solver) (edge outer : nat) : option (list Z) :=
  e ← edges s !! edge;
  if e_lhs e =? outer then Some (cells (e_matrix e)) else t ← transposed (e_matrix e); Some (cells t).

(** [chunks_exact] panics on the size zero. *)
Definition chunks (n : nat) (l : list Z) : option (list (list Z)) := if n =? 0 then None else Some (chunks_exact n l).

Definition degree (s : Solver) (node : nat) : option nat := l ← adjacency s !! node; Some (length l).

Definition reduce_zero (node : nat) (s : Solver) : option Solver :=
  s ← kill node s; Some (set_reduced (R0 node :: reduced s) s).

Definition reduce_one (node : nat) (s : Solver) : option Solver :=
  l ← adjacency s !! node;
  edge ← l !! 0;
  neighbor ← other s edge node;
  own ← costs s !! node;
  out ← laid_out s edge neighbor;
  cs ← chunks (length own) out;
  let delta := map (min_sum own) cs in
  s ← kill node s;
  s ← unlink edge s;
  charge_node neighbor delta (set_reduced (R1 node edge :: reduced s) s).

Definition reduce_two (node : nat) (s : Solver) : option Solver :=
  l ← adjacency s !! node;
  first ← l !! 0;
  second ← l !! 1;
  left ← other s first node;
  right ← other s second node;
  own ← costs s !! node;
  out_left ← laid_out s first left;
  chunks_left ← chunks (length own) out_left;
  let through_left := map (fun costs => zip_with add costs own) chunks_left in
  out_right ← laid_out s second right;
  through_right ← chunks (length own) out_right;
  cl ← costs s !! left;
  cr ← costs s !! right;
  delta ← fold_left (fun m '((l, tl), (r, tr)) => m ← m; set m l r (min_sum tl tr))
    (list_prod (imap pair through_left) (imap pair through_right)) (Some (zero (length cl) (length cr)));
  s ← kill node s;
  s ← unlink first s;
  s ← unlink second s;
  charge left right delta (set_reduced (R2 node first second :: reduced s) s).

Definition reduce_step (node : nat) (s : Solver) : option Solver :=
  live ← alive s !! node;
  if negb live then Some s
  else
    d ← degree s node;
    match d with
    | 0 => reduce_zero node s
    | 1 => reduce_one node s
    | 2 => reduce_two node s
    | _ => Some s
    end.

Fixpoint reduce_optimally (fuel : nat) (s : Solver) : option Solver :=
  match pending s with
  | [] => Some s
  | node :: rest =>
    match fuel with
    | O => None
    | S fuel => s ← reduce_step node (set_pending rest s); reduce_optimally fuel s
    end
  end.

(** ** Back-propagation *)
Definition response_cost (s : Solver) (node : nat) (fixed : list (nat * nat)) (own : nat) : option Z :=
  c ← costs s !! node;
  c ← c !! own;
  fold_left (fun total '(edge, other) => total ← total; x ← cost s edge node own other; Some (add total x)) fixed (Some c).

Definition best_response (s : Solver) (node : nat) (fixed : list (nat * nat)) : option (nat * Z) :=
  c ← costs s !! node;
  responses ← mapM (response_cost s node fixed) (seq 0 (length c));
  Some (argmin responses).

Definition reduced_node (r : Reduced) : nat := match r with R0 n | R1 n _ | R2 n _ _ => n end.
Definition reduced_edges (r : Reduced) : list nat := match r with R0 _ => [] | R1 _ e => [e] | R2 _ e f => [e; f] end.

Fixpoint back_propagate_loop (rs : list Reduced) (s : Solver) : option Solver :=
  match rs with
  | [] => Some s
  | r :: rs =>
    let node := reduced_node r in
    fixed ← mapM (fun edge => o ← other s edge node; c ← choices s !! o; Some (edge, c)) (reduced_edges r);
    '(choice, _) ← best_response s node fixed;
    ch ← vset (choices s) node choice;
    back_propagate_loop rs (set_choices ch s)
  end.

Definition back_propagate (s : Solver) : option Solver := back_propagate_loop (reduced s) (set_reduced [] s).

(** ** The merge and the decision *)

(** [None] inside: more than one alternative of the neighbor stays finite. *)
Fixpoint implied_loop (s : Solver) (edge node neighbor : nat) (owns : list nat) : option (option (list nat)) :=
  match owns with
  | [] => Some (Some [])
  | own :: owns =>
    c ← costs s !! node;
    c ← c !! own;
    if negb (is_finite c) then
      rest ← implied_loop s edge node neighbor owns;
      Some (rest ← rest; Some (0 :: rest))
    else
      theirs ← costs s !! neighbor;
      sums ← mapM (fun other =>
        x ← cost s edge node own other; t ← theirs !! other; Some (other, add x t)) (seq 0 (length theirs));
      match List.filter (fun '(_, x) => is_finite x) sums with
      | _ :: _ :: _ => Some None
      | l =>
        rest ← implied_loop s edge node neighbor owns;
        Some (rest ← rest; Some (match l with (first, _) :: _ => first | [] => 0 end :: rest))
      end
  end.

Definition implied (s : Solver) (node edge : nat) : option (option (list nat)) :=
  neighbor ← other s edge node;
  c ← costs s !! node;
  implied_loop s edge node neighbor (seq 0 (length c)).

(** The neighbor's edge [far] moves to [node]. *)
Definition merge_edge (node neighbor edge far : nat) (implied : list nat) (s : Solver) : option Solver :=
  if far =? edge then Some s
  else
    target ← other s far neighbor;
    cn ← costs s !! node;
    ct ← costs s !! target;
    delta ← fold_left (fun m '(own, chosen) =>
      m ← m;
      c ← cn !! own;
      if is_finite c then
        fold_left (fun m other => m ← m; x ← cost s far neighbor chosen other; set m own other x) (seq 0 (length ct)) (Some m)
      else Some m) (imap pair implied) (Some (zero (length cn) (length ct)));
    s ← unlink far s;
    charge node target delta s.

Fixpoint merge_edges (node neighbor edge : nat) (fars implied : list nat) (s : Solver) : option Solver :=
  match fars with
  | [] => Some s
  | far :: fars => s ← merge_edge node neighbor edge far implied s; merge_edges node neighbor edge fars implied s
  end.

Fixpoint merge_loop (fuel node index : nat) (s : Solver) : option Solver :=
  match fuel with
  | O => None
  | S fuel =>
    live ← alive s !! node;
    l ← adjacency s !! node;
    if live && (index <? length l) then
      edge ← l !! index;
      neighbor ← other s edge node;
      d ← degree s neighbor;
      imp ← (if 1 <? d then implied s node edge else Some None);
      match imp with
      | None => merge_loop fuel node (S index) s
      | Some imp =>
        fars ← adjacency s !! neighbor;
        s ← merge_edges node neighbor edge fars imp s;
        live ← alive s !! neighbor;
        d ← degree s neighbor;
        s ← (if live && (d =? 1) then reduce_one neighbor s else Some s);
        merge_loop fuel node 0 s
      end
    else Some s
  end.

Fixpoint decide_totals (s : Solver) (node : nat) (es : list nat) (totals : list Z) : option (list Z) :=
  match es with
  | [] => Some totals
  | edge :: es =>
    o ← other s edge node;
    theirs ← costs s !! o;
    out ← laid_out s edge node;
    cs ← chunks (length theirs) out;
    decide_totals s node es (charge_costs totals (map (fun costs => min_sum costs theirs) cs))
  end.

Fixpoint decide_edges (node choice : nat) (es : list nat) (s : Solver) : option Solver :=
  match es with
  | [] => Some s
  | edge :: es =>
    neighbor ← other s edge node;
    theirs ← costs s !! neighbor;
    delta ← mapM (fun other => cost s edge node choice other) (seq 0 (length theirs));
    s ← unlink edge s;
    s ← charge_node neighbor delta s;
    decide_edges node choice es s
  end.

Definition decide (node : nat) (s : Solver) : option Solver :=
  es ← adjacency s !! node;
  own ← costs s !! node;
  totals ← decide_totals s node es own;
  let choice := fst (argmin totals) in
  ch ← vset (choices s) node choice;
  s ← kill node (set_choices ch s);
  decide_edges node choice es s.

(** ** The run *)
Fixpoint skip_dead (order : list nat) (s : Solver) : option (list nat) :=
  match order with
  | [] => Some []
  | node :: rest => live ← alive s !! node; if live : bool then Some order else skip_dead rest s
  end.

(** Fuel: a reduction lowers [5 * alive + 2 * edges + pending]; a merge kills
    a node, and between two merges the index runs over the node's edges. *)
Definition reduce_fuel (s : Solver) : nat := S (5 * length (costs s) + 2 * length (edges s) + length (pending s)).
Definition merge_fuel (s : Solver) : nat := S (length (costs s)) * S (length (costs s)).

Fixpoint run_loop (fuel : nat) (order : list nat) (s : Solver) : option Solver :=
  match fuel with
  | O => None
  | S fuel =>
    s ← reduce_optimally (reduce_fuel s) s;
    order ← skip_dead order s;
    match order with
    | [] => Some s
    | node :: _ =>
      s ← merge_loop (merge_fuel s) node 0 s;
      live ← alive s !! node;
      d ← degree s node;
      s ← (if live && (2 <? d) then decide node s else Some s);
      run_loop fuel order s
    end
  end.

Definition run (order : list nat) (s : Solver) : option (list nat) :=
  s ← run_loop (S (length (costs s))) order s;
  s ← back_propagate s;
  Some (choices s).

(** ** [Problem::solve] *)
Definition key_le (a b : (nat * nat) * Matrix) : Prop :=
  fst (fst a) < fst (fst b) \/ fst (fst a) = fst (fst b) /\ snd (fst a) <= snd (fst b).
#[export] Instance key_le_dec a b : Decision (key_le a b).
Proof. unfold key_le. apply _. Defined.

Definition sorted_edges (p : Problem) : list ((nat * nat) * Matrix) := merge_sort key_le (map_to_list (edge_costs p)).

Definition new (p : Problem) : option Solver := link_all (sorted_edges p) (unlinked p).

Record Solution := mkSolution { s_choices : list nat; s_infeasible : list nat }.

(** The nodes of the order, then the others by index. *)
Definition ranked_nodes (order : list nat) (count : nat) : option (list nat) :=
  listed ← fold_left (fun l node => l ← l; vset l node true) order (Some (replicate count false));
  Some (order ++ List.filter (fun node => negb (default true (listed !! node))) (seq 0 count)).

Definition ranks (ranked : list nat) : option (list nat) :=
  fold_left (fun rank '(position, node) => rank ← rank; vset rank node position) (imap pair ranked)
    (Some (replicate (length ranked) 0)).

Definition stuck_nodes (p : Problem) (choices : list nat) : option (list bool) :=
  mapM (fun '(node, choice) => c ← node_costs p !! node; x ← c !! choice; Some (negb (is_finite x))) (imap pair choices).

(** The later-ranked end of an edge whose two finite choices it forbids. *)
Definition blame_edge (choices rank : list nat) (stuck : list bool) (at_fault : option (list bool)) (e : (nat * nat) * Matrix) :
    option (list bool) :=
  let '((lhs, rhs), matrix) := e in
  at_fault ← at_fault;
  sl ← stuck !! lhs;
  sr ← stuck !! rhs;
  if sl || sr then Some at_fault
  else
    cl ← choices !! lhs;
    cr ← choices !! rhs;
    x ← get matrix cl cr;
    if is_finite x then Some at_fault
    else
      rl ← rank !! lhs;
      rr ← rank !! rhs;
      vset at_fault (if rr <? rl then lhs else rhs) true.

Definition rank_le (rank : list nat) (a b : nat) : Prop := default 0 (rank !! a) <= default 0 (rank !! b).
#[export] Instance rank_le_dec rank a b : Decision (rank_le rank a b).
Proof. unfold rank_le. apply _. Defined.

Definition solve (order : list nat) (p : Problem) : option Solution :=
  let count := length (node_costs p) in
  ranked ← ranked_nodes order count;
  rank ← ranks ranked;
  s ← new p;
  choices ← run ranked s;
  stuck ← stuck_nodes p choices;
  at_fault ← fold_left (blame_edge choices rank stuck) (map_to_list (edge_costs p)) (Some stuck);
  let infeasible := List.filter (fun node => default false (at_fault !! node)) (seq 0 count) in
  Some (mkSolution choices
    (merge_sort (rank_le rank) infeasible)).

(** A triangle of two-register nodes with interference and one preference. *)
Definition differ (n : nat) : Matrix :=
  mkMatrix n n (map (fun '(r, c) => if r =? c then INF_COST else 0%Z) (list_prod (seq 0 n) (seq 0 n))).

Definition triangle : option Problem :=
  '(a, p) ← add_node [0; 5; 5]%Z empty_problem;
  '(b, p) ← add_node [0; 1; 9]%Z p;
  '(c, p) ← add_node [3; 0; 4]%Z p;
  p ← add_edge a b (differ 3) p;
  p ← add_edge c b (differ 3) p;
  add_edge a c (differ 3) p.

Example solve_triangle : (p ← triangle; solve [0; 1; 2] p) = Some (mkSolution [2; 0; 1] []).
Proof. reflexivity. Qed.

Definition clique (n : nat) : option Problem :=
  fold_left (fun p '(a, b) => p ← p; if a <? b then add_edge a b (differ n) p else Some p) (list_prod (seq 0 n) (seq 0 n))
    (Some (mkProblem (replicate n (replicate n 0%Z)) ∅)).

Example solve_clique : (p ← clique 5; s ← solve [] p; Some (s_infeasible s)) = Some [].
Proof. vm_compute. reflexivity. Qed.
