(* ===== verification/PbqpSpec.v ===== *)
(** * Costs and matrices of the PBQP solver

    [cap] is the saturating arithmetic of the costs, [mval] reads a matrix as a
    function; the loops that write matrices are described by [mval]. *)
From S2P Require Import Prelude Words Pbqp.
#[local] Open Scope nat_scope.

(** ** Saturating costs *)
Definition cap (x : Z) : Z := Z.min x INF_COST.

Lemma add_cap x y : add x y = cap (x + y).
Proof. unfold add, saturating_add, cap, INF_COST, u64_max. change ((2 ^ 64 - 1) / 4)%Z with 4611686018427387903%Z. lia. Qed.

Lemma INF_pos : (0 < INF_COST)%Z. Proof. reflexivity. Qed.
#[global] Opaque INF_COST.

Lemma cap_add_r x y : (0 <= x)%Z -> cap (x + cap y) = cap (x + y).
Proof. pose proof INF_pos. unfold cap. lia. Qed.
Lemma cap_add_l x y : (0 <= y)%Z -> cap (cap x + y) = cap (x + y).
Proof. pose proof INF_pos. unfold cap. lia. Qed.
Lemma cap_nonneg x : (0 <= x)%Z -> (0 <= cap x)%Z.
Proof. pose proof INF_pos. unfold cap. lia. Qed.
Lemma cap_mono x y : (x <= y)%Z -> (cap x <= cap y)%Z.
Proof. unfold cap. lia. Qed.
Lemma cap_ctx r x y : (0 <= r)%Z -> cap x = cap y -> cap (r + x) = cap (r + y).
Proof. intros Hr E. by rewrite <- (cap_add_r r x), <- (cap_add_r r y), E by done. Qed.

Lemma is_finite_spec c : is_finite c = true <-> (c < INF_COST)%Z.
Proof. apply Z.ltb_lt. Qed.

(** ** Minima *)
Lemma fold_min_le l x : (fold_left Z.min l x <= x)%Z /\ forall y, y ∈ l -> (fold_left Z.min l x <= y)%Z.
Proof.
  revert x; induction l as [|z l IH]; intros x; cbn [fold_left]; [split; [lia|set_solver]|].
  destruct (IH (Z.min x z)) as [H1 H2]. split; [lia|]. intros y [->|Hy]%elem_of_cons; [lia|by apply H2].
Qed.

Lemma fold_min_in l x : fold_left Z.min l x = x \/ fold_left Z.min l x ∈ l.
Proof.
  revert x; induction l as [|z l IH]; intros x; cbn [fold_left]; [by left|].
  destruct (IH (Z.min x z)) as [E|H]; [|right; set_solver]. rewrite E. destruct (Z.min_spec x z) as [[_ ->]|[_ ->]]; [by left|right; set_solver].
Qed.

Lemma minimum_spec l : match minimum l with Some m => m ∈ l /\ (forall y, y ∈ l -> (m <= y)%Z) | None => l = [] end.
Proof.
  destruct l as [|x l]; [done|]. cbn [minimum]. destruct (fold_min_le l x) as [H1 H2]. split.
  - destruct (fold_min_in l x) as [->|H]; set_solver.
  - intros y [->|Hy]%elem_of_cons; [done|by apply H2].
Qed.

Lemma sat_cap x y : cap (saturating_add x y) = cap (x + y).
Proof. rewrite <- add_cap. done. Qed.

(** [min_sum] is the capped minimum of the sums. *)
Lemma min_sum_spec n lhs rhs : 0 < n -> length lhs = n -> length rhs = n ->
  (exists i x y, lhs !! i = Some x /\ rhs !! i = Some y /\ min_sum lhs rhs = cap (x + y)) /\
  (forall i x y, lhs !! i = Some x -> rhs !! i = Some y -> (min_sum lhs rhs <= cap (x + y))%Z).
Proof.
  intros Hn Ll Lr. unfold min_sum. pose proof (minimum_spec (zip_with saturating_add lhs rhs)) as M.
  destruct (minimum (zip_with saturating_add lhs rhs)) as [m|].
  - destruct M as [Hin Hle]. split.
    + apply list_elem_of_lookup in Hin as [i Hi]. apply lookup_zip_with_Some in Hi as (x & y & -> & Hx & Hy).
      exists i, x, y. do 2 (split; [done|]). apply sat_cap.
    + intros i x y Hx Hy. rewrite <- sat_cap. apply cap_mono, Hle. apply list_elem_of_lookup. exists i.
      rewrite lookup_zip_with, Hx, Hy. done.
  - apply (f_equal length) in M. rewrite length_zip_with in M. cbn in M. lia.
Qed.

Lemma argmin_from_spec l : forall best c i, let '(b, m) := argmin_from best c i l in
  (b = best /\ m = c \/ exists j, l !! j = Some m /\ b = i + j) /\ (m <= c)%Z /\ forall y, y ∈ l -> (m <= y)%Z.
Proof.
  induction l as [|x l IH]; intros best c i; cbn [argmin_from]; [split; [by left|split; [lia|set_solver]]|].
  destruct (Z.ltb_spec x c) as [Hlt|Hge].
  - specialize (IH i x (S i)). destruct (argmin_from i x (S i) l) as [b m]. destruct IH as (H1 & H2 & H3).
    split; [|split; [lia|intros y [->|Hy]%elem_of_cons; [lia|by apply H3]]].
    right. destruct H1 as [[-> ->]|(j & Hj & ->)]; [exists 0; split; [done|lia]|exists (S j); split; [done|lia]].
  - specialize (IH best c (S i)). destruct (argmin_from best c (S i) l) as [b m]. destruct IH as (H1 & H2 & H3).
    split; [|split; [lia|intros y [->|Hy]%elem_of_cons; [lia|by apply H3]]].
    destruct H1 as [[-> ->]|(j & Hj & ->)]; [by left|right; exists (S j); split; [done|lia]].
Qed.

Lemma argmin_spec l : l <> [] -> let '(b, m) := argmin l in l !! b = Some m /\ forall y, y ∈ l -> (m <= y)%Z.
Proof.
  destruct l as [|x l]; [done|]. intros _. cbn [argmin]. pose proof (argmin_from_spec l 0 x 1) as H.
  destruct (argmin_from 0 x 1 l) as [b m]. destruct H as (H1 & H2 & H3). split.
  - destruct H1 as [[-> ->]|(j & Hj & ->)]; done.
  - intros y [->|Hy]%elem_of_cons; [done|by apply H3].
Qed.

(** ** Matrices as functions *)
Record wfm (R C : nat) (m : Matrix) : Prop := {
  wfm_rows : rows m = R;
  wfm_cols : cols m = C;
  wfm_length : length (cells m) = R * C;
  wfm_nonneg : Forall (fun x => (0 <= x)%Z) (cells m);
}.

Definition mval (m : Matrix) (r c : nat) : Z := default 0%Z (cells m !! (r * cols m + c)).

Lemma cell_lt R C r c : r < R -> c < C -> r * C + c < R * C.
Proof. nia. Qed.

Lemma cell_inj C r c r' c' : c < C -> c' < C -> r * C + c = r' * C + c' -> r = r' /\ c = c'.
Proof. intros Hc Hc' E. destruct (Nat.lt_trichotomy r r') as [|[|]]; nia. Qed.

Lemma fold_left_eq {A B} (f g : A -> B -> A) l a : (forall a x, f a x = g a x) -> fold_left f l a = fold_left g l a.
Proof. intros H. revert a; induction l as [|x l IH]; intros a; [done|]. cbn [fold_left]. rewrite H. apply IH. Qed.

Section matrix.
Context (R C : nat).

Lemma get_spec m r c : wfm R C m -> r < R -> c < C -> get m r c = Some (mval m r c).
Proof.
  intros [Hr Hc Hl _] H1 H2. unfold get, mval. rewrite Hc. destruct (cells m !! (r * C + c)) eqn:E; [done|].
  apply lookup_ge_None in E. pose proof (cell_lt R C r c H1 H2). lia.
Qed.

Lemma mval_nonneg m r c : wfm R C m -> (0 <= mval m r c)%Z.
Proof.
  intros [_ _ _ Hn]. unfold mval. destruct (cells m !! _) as [x|] eqn:E; cbn; [|lia]. rewrite list.Forall_forall in Hn. apply Hn.
  by eapply list_elem_of_lookup_2.
Qed.

Lemma set_spec m r c x : wfm R C m -> r < R -> c < C -> (0 <= x)%Z -> exists m', set m r c x = Some m' /\ wfm R C m' /\
  forall r' c', c' < C -> mval m' r' c' = if base.decide (r' = r /\ c' = c) then x else mval m r' c'.
Proof.
  intros [Hr Hc Hl Hn] H1 H2 Hx. unfold set. pose proof (cell_lt R C r c H1 H2) as Hlt. rewrite Hc, vset_Some by lia. cbn [mbind option_bind].
  eexists. split; [done|]. split.
  - split; cbn; try done; [by rewrite length_insert|by apply Forall_insert].
  - intros r' c' Hc'. unfold mval. cbn. rewrite ?Hc. destruct (base.decide (r' = r /\ c' = c)) as [[-> ->]|Hne].
    + by rewrite list_lookup_insert_eq by lia.
    + rewrite list_lookup_insert_ne; [done|]. intros E. apply Hne. destruct (cell_inj C r c r' c'); [done..|]. by subst.
Qed.

Lemma zero_spec : wfm R C (zero R C) /\ forall r c, mval (zero R C) r c = 0%Z.
Proof.
  split.
  - split; cbn; [done|done|by rewrite length_replicate|]. apply Forall_replicate. lia.
  - intros r c. unfold mval. cbn. destruct (replicate (R * C) 0%Z !! (r * C + c)) eqn:E; [|done].
    apply lookup_replicate in E as [-> _]. done.
Qed.

(** A loop that sets one cell per item. *)
Lemma set_loop {A} (pr pc : A -> nat) (val : A -> option Z) (v : A -> Z) l m : wfm R C m ->
  (forall x, x ∈ l -> val x = Some (v x) /\ pr x < R /\ pc x < C /\ (0 <= v x)%Z) ->
  exists m', fold_left (fun m x => m ← m; y ← val x; set m (pr x) (pc x) y) l (Some m) = Some m' /\ wfm R C m' /\
    forall r c, c < C -> (exists x, x ∈ l /\ pr x = r /\ pc x = c /\ mval m' r c = v x) \/
      (forall x, x ∈ l -> ~ (pr x = r /\ pc x = c)) /\ mval m' r c = mval m r c.
Proof.
  revert m; induction l as [|x l IH]; intros m Hm Hl; cbn [fold_left].
  { exists m. split; [done|]. split; [done|]. intros r c _. right. split; [set_solver|done]. }
  destruct (Hl x ltac:(by left)) as (Hv & Hr & Hc & Hx). destruct (set_spec m (pr x) (pc x) (v x) Hm Hr Hc Hx) as (m1 & E1 & Hm1 & M1).
  destruct (IH m1 Hm1) as (m' & E & Hm' & M); [intros y Hy; apply Hl; by right|].
  exists m'. cbn [mbind option_bind]. rewrite Hv. cbn [mbind option_bind]. rewrite E1. split; [exact E|]. split; [done|].
  intros r c Hlt. destruct (M r c Hlt) as [(y & Hy & H1 & H2 & H3)|[Hno Hval]].
  - left. exists y. split; [by right|done].
  - rewrite Hval, (M1 r c Hlt). destruct (base.decide (r = pr x /\ c = pc x)) as [[-> ->]|Hne].
    + left. exists x. split; [by left|done].
    + right. split; [|done]. intros y [->|Hy]%elem_of_cons; [|by apply Hno]. intros [<- <-]. by apply Hne.
Qed.

End matrix.

Lemma in_grid R C r c : (r, c) ∈ list_prod (seq 0 R) (seq 0 C) <-> r < R /\ c < C.
Proof. rewrite list_elem_of_In, in_prod_iff, !in_seq. lia. Qed.

Lemma transposed_spec R C m : wfm R C m -> exists t, transposed m = Some t /\ wfm C R t /\
  forall r c, r < R -> c < C -> mval t c r = mval m r c.
Proof.
  intros Hm. pose proof Hm as [Hr Hc _ _]. unfold transposed. rewrite Hr, Hc. destruct (zero_spec C R) as [Hz _].
  destruct (set_loop C R snd fst (fun '(r, c) => get m r c) (fun '(r, c) => mval m r c) (list_prod (seq 0 R) (seq 0 C)) (zero C R) Hz) as (t & E & Ht & M).
  - intros [r c] [H1 H2]%in_grid. split; [by apply (get_spec R C)|]. split; [done|]. split; [done|]. by apply (mval_nonneg R C).
  - exists t. split; [|split; [done|]].
    + rewrite <- E. apply fold_left_eq. by intros ? [r c].
    + intros r c H1 H2. destruct (M c r H1) as [([r' c'] & _ & <- & <- & ->)|[Hno _]]; [done|].
      exfalso. apply (Hno (r, c)); [by apply in_grid|done].
Qed.

(** Two matrices are one when they agree cell by cell. *)
Lemma mval_cells R C m r c : wfm R C m -> r < R -> c < C -> cells m !! (r * C + c) = Some (mval m r c).
Proof. intros Hm Hr Hc. pose proof (get_spec R C m r c Hm Hr Hc) as E. unfold get in E. by rewrite (wfm_cols _ _ _ Hm) in E. Qed.

Lemma cell_split R C i : i < R * C -> exists r c, r < R /\ c < C /\ i = r * C + c.
Proof.
  intros Hi. assert (C <> 0) by lia. exists (i / C), (i mod C). pose proof (Nat.div_mod i C ltac:(done)). pose proof (Nat.mod_upper_bound i C ltac:(done)).
  split; [apply Nat.Div0.div_lt_upper_bound; lia|]. split; [done|]. lia.
Qed.

Lemma zeros_spec R C m : wfm R C m -> forallb (fun x => x =? 0)%Z (cells m) = true -> forall r c, r < R -> c < C -> mval m r c = 0%Z.
Proof.
  intros Hm Hz r c Hr Hc. rewrite forallb_forall in Hz. pose proof (mval_cells R C m r c Hm Hr Hc) as E.
  apply list_elem_of_lookup_2, list_elem_of_In, Hz, Z.eqb_eq in E. done.
Qed.

(** ** Adding costs *)
Lemma length_charge_costs a b : length (charge_costs a b) = length a.
Proof. revert b; induction a as [|x a IH]; intros [|y b]; cbn; try done. by rewrite IH. Qed.

Lemma charge_costs_lookup a b i : charge_costs a b !! i = x ← a !! i; Some (match b !! i with Some y => add x y | None => x end).
Proof.
  revert b i; induction a as [|x a IH]; intros b i; [by destruct b|]. destruct b as [|y b].
  - change ((x :: a) !! i = z ← (x :: a) !! i; Some z). by destruct ((x :: a) !! i).
  - destruct i as [|i]; [done|apply IH].
Qed.

Lemma nonneg_charge a b : Forall (fun x => (0 <= x)%Z) a -> Forall (fun x => (0 <= x)%Z) b -> Forall (fun x => (0 <= x)%Z) (charge_costs a b).
Proof.
  intros Ha Hb. rewrite list.Forall_lookup in *. intros i z. rewrite charge_costs_lookup. destruct (a !! i) as [x|] eqn:Ex; [|done].
  cbn [mbind option_bind]. intros [= <-]. pose proof (Ha i x Ex). destruct (b !! i) as [y|] eqn:Ey; [|done]. pose proof (Hb i y Ey).
  rewrite add_cap. apply cap_nonneg. lia.
Qed.

Lemma charge_cells_spec R C m d : wfm R C m -> wfm R C d -> wfm R C (charge_cells m d) /\
  forall r c, r < R -> c < C -> mval (charge_cells m d) r c = cap (mval m r c + mval d r c).
Proof.
  intros Hm Hd. split.
  - destruct Hm, Hd. split; cbn; try done; [by rewrite length_charge_costs|by apply nonneg_charge].
  - intros r c Hr Hc. unfold mval at 1. cbn [charge_cells cells cols]. rewrite (wfm_cols _ _ _ Hm), charge_costs_lookup.
    rewrite (mval_cells R C m r c Hm Hr Hc), (mval_cells R C d r c Hd Hr Hc). cbn. apply add_cap.
Qed.

(** ** Rows as chunks *)
Lemma chunks_spec R C m : wfm R C m -> 0 < C -> chunks C (cells m) = Some (map (fun r => take C (drop (r * C) (cells m))) (seq 0 R)).
Proof.
  intros Hm HC. unfold chunks, chunks_exact. destruct (Nat.eqb_spec C 0); [lia|]. by rewrite (wfm_length _ _ _ Hm), Nat.div_mul by done.
Qed.

Lemma chunk_lookup R C m r c : wfm R C m -> r < R -> c < C -> take C (drop (r * C) (cells m)) !! c = Some (mval m r c).
Proof. intros Hm Hr Hc. rewrite lookup_take_lt by done. rewrite lookup_drop. by apply (mval_cells R C). Qed.

Lemma chunk_length R C m r : wfm R C m -> r < R -> length (take C (drop (r * C) (cells m))) = C.
Proof. intros Hm Hr. rewrite length_take, length_drop, (wfm_length _ _ _ Hm). nia. Qed.

(** ** Lines of a matrix and [normalize] *)
Definition nonneg (l : list Z) : Prop := Forall (fun x => (0 <= x)%Z) l.
Definition at_ (l : list Z) (i : nat) : Z := default 0%Z (l !! i).

Lemma at_Some l i : i < length l -> l !! i = Some (at_ l i).
Proof. intros [x Hx]%lookup_lt_is_Some_2. unfold at_. by rewrite Hx. Qed.

Lemma at_eq l i x : l !! i = Some x -> at_ l i = x.
Proof. intros H. unfold at_. by rewrite H. Qed.

Lemma at_nonneg l i : nonneg l -> (0 <= at_ l i)%Z.
Proof. intros H. unfold at_. destruct (l !! i) as [x|] eqn:E; cbn; [|lia]. unfold nonneg in H. rewrite list.Forall_lookup in H. by apply (H i). Qed.

Lemma mapM_seq {A} (f : nat -> option A) (g : nat -> A) start n : (forall i, start <= i < start + n -> f i = Some (g i)) ->
  mapM f (seq start n) = Some (map g (seq start n)).
Proof.
  revert start; induction n as [|n IH]; intros start H; [done|]. cbn [seq map]. change (mapM f (start :: seq (S start) n)) with
    (y ← f start; k ← mapM f (seq (S start) n); Some (y :: k)).
  rewrite H by lia. cbn [mbind option_bind]. rewrite IH by (intros i Hi; apply H; lia). done.
Qed.

Lemma write_go (pos : nat -> nat) l k c : (forall j, j < length l -> pos (k + j) < length c) ->
  (forall i j, k <= i < k + length l -> k <= j < k + length l -> pos i = pos j -> i = j) ->
  exists c', fold_left (fun c '(i, x) => c ← c; vset c (pos i) x) (imap (fun i x => (k + i, x)) l) (Some c) = Some c' /\ length c' = length c /\
    (forall j, j < length l -> c' !! pos (k + j) = l !! j) /\
    (forall p, (forall j, j < length l -> p <> pos (k + j)) -> c' !! p = c !! p) /\ (nonneg c -> nonneg l -> nonneg c').
Proof.
  revert k c; induction l as [|x l IH]; intros k c Hlt Hinj; cbn [imap fold_left].
  { exists c. repeat split; try done. intros j Hj. cbn in Hj. lia. }
  cbn [mbind option_bind]. rewrite Nat.add_0_r. pose proof (Hlt 0 ltac:(cbn; lia)) as H0. rewrite Nat.add_0_r in H0. rewrite vset_Some by done.
  destruct (IH (S k) (<[pos k := x]> c)) as (c' & E & L & Hin & Hout & Hn).
  { intros j Hj. rewrite length_insert. specialize (Hlt (S j)). cbn in Hlt. rewrite Nat.add_succ_r in Hlt. apply Hlt. lia. }
  { intros i j Hi Hj. apply Hinj; cbn; lia. }
  exists c'. split; [|split; [by rewrite L, length_insert|split; [|split]]].
  - rewrite <- E. f_equal. apply imap_ext. intros i y _. cbn. by rewrite Nat.add_succ_r.
  - intros [|j] Hj; cbn in Hj.
    + rewrite Nat.add_0_r. cbn. rewrite Hout; [by apply list_lookup_insert_eq|]. intros j Hj' Ep.
      assert (k = S k + j); [|lia]. apply Hinj; [cbn; lia..|done].
    + rewrite Nat.add_succ_r. cbn. apply Hin. lia.
  - intros p Hp. rewrite Hout; [|intros j Hj; specialize (Hp (S j)); rewrite Nat.add_succ_r in Hp; apply Hp; cbn; lia].
    apply list_lookup_insert_ne. intros <-. apply (Hp 0); [cbn; lia|by rewrite Nat.add_0_r].
  - intros Hc Hl. inversion Hl; subst. apply Hn; [by apply Forall_insert|done].
Qed.

Section lines.
Context (start step n len : nat).
Context (Hlt : forall j, j < n -> start + j * step < len) (Hinj : forall i j, i < n -> j < n -> start + i * step = start + j * step -> i = j).

Lemma line_spec m : length (cells m) = len ->
  exists l, line m start step n = Some l /\ length l = n /\ forall j, j < n -> l !! j = cells m !! (start + j * step).
Proof.
  intros L. exists (map (fun j => default 0%Z (cells m !! (start + j * step))) (seq 0 n)). split; [|split; [by rewrite length_map, length_seq|]].
  - apply mapM_seq. intros i Hi. destruct (lookup_lt_is_Some_2 (cells m) (start + i * step)) as [x ->]; [|done]. rewrite L. apply Hlt. lia.
  - intros j Hj. rewrite list_lookup_fmap, lookup_seq_lt by done. cbn.
    destruct (lookup_lt_is_Some_2 (cells m) (start + j * step)) as [x ->]; [|done]. rewrite L. by apply Hlt.
Qed.

Lemma write_line_spec m l : length (cells m) = len -> length l = n ->
  exists m', write_line m start step l = Some m' /\ rows m' = rows m /\ cols m' = cols m /\ length (cells m') = len /\
    (forall j, j < n -> cells m' !! (start + j * step) = l !! j) /\
    (forall p, (forall j, j < n -> p <> start + j * step) -> cells m' !! p = cells m !! p) /\ (nonneg (cells m) -> nonneg l -> nonneg (cells m')).
Proof.
  intros L Ll. destruct (write_go (fun j => start + j * step) l 0 (cells m)) as (c & E & Lc & Hin & Hout & Hn).
  - intros j Hj. rewrite L. apply Hlt. lia.
  - intros i j Hi Hj. apply Hinj; lia.
  - unfold write_line. replace (imap pair l) with (imap (fun i x => (0 + i, x)) l) by by apply imap_ext. rewrite E. cbn [mbind option_bind].
    eexists. split; [done|]. cbn. split; [done|]. split; [done|]. split; [congruence|]. rewrite <- Ll. by split.
Qed.

End lines.

(** The least cost among the finite alternatives of the other end. *)
Lemma line_min_spec l others : nonneg l -> (0 <= line_min l others)%Z /\
  forall j x o, l !! j = Some x -> others !! j = Some o -> (o < INF_COST)%Z -> (line_min l others <= x)%Z.
Proof.
  intros Hl. unfold line_min. set (fin := map fst _). pose proof (minimum_spec fin) as M.
  assert (forall x, x ∈ fin -> (0 <= x)%Z) as Hpos.
  { intros x (p & -> & Hp)%list_elem_of_fmap. apply list_elem_of_In, filter_In in Hp as [Hp _]. destruct p as [x o].
    apply in_combine_l, list_elem_of_In in Hp. unfold nonneg in Hl. rewrite list.Forall_forall in Hl. by apply Hl. }
  assert (forall j x o, l !! j = Some x -> others !! j = Some o -> (o < INF_COST)%Z -> x ∈ fin) as Hin.
  { intros j x o Hx Ho Hf. apply list_elem_of_fmap. exists (x, o). split; [done|]. apply list_elem_of_In, filter_In. split; [|by apply is_finite_spec].
    apply list_elem_of_In, list_elem_of_lookup. exists j. change (zip_with pair l others !! j = Some (x, o)). by rewrite lookup_zip_with, Hx, Ho. }
  destruct (minimum fin) as [m|]; cbn.
  - destruct M as [M1 M2]. split; [by apply Hpos|]. intros j x o Hx Ho Hf. apply M2. by eapply Hin.
  - split; [lia|]. intros j x o Hx Ho Hf. specialize (Hin j x o Hx Ho Hf). rewrite M in Hin. set_solver.
Qed.

(** Moving the minimum [min] of a line to the node's own cost [own] keeps
    every capped sum. *)
Lemma move_min own min x o : (0 <= own)%Z -> (0 <= min)%Z -> (0 <= x)%Z -> (0 <= o)%Z -> ((o < INF_COST)%Z -> (min <= x)%Z) ->
  cap (add own min + o + reduced_cost x min) = cap (own + o + x).
Proof.
  intros ? ? ? ? Hm. pose proof INF_pos. rewrite add_cap. unfold reduced_cost, cap.
  destruct (Z.leb_spec INF_COST x), (Z.lt_ge_cases o INF_COST) as [Ho|Ho]; try specialize (Hm Ho); lia.
Qed.

Section normalize.
Context (start : nat -> nat) (step N n len : nat).
Definition idx (i j : nat) : nat := start i + j * step.
Context (Hlt : forall i j, i < N -> j < n -> idx i j < len).
Context (Hinj : forall i j i' j', i < N -> j < n -> i' < N -> j' < n -> idx i j = idx i' j' -> i = i' /\ j = j').

Definition cval (m : Matrix) (i j : nat) : Z := at_ (cells m) (idx i j).

(** What a step of a [normalize] loop keeps. *)
Record normalized (others : list Z) (st st' : list Z * Matrix) : Prop := {
  nz_length : length (fst st') = length (fst st);
  nz_nonneg : nonneg (fst st');
  nz_rows : rows (snd st') = rows (snd st);
  nz_cols : cols (snd st') = cols (snd st);
  nz_cells : length (cells (snd st')) = length (cells (snd st));
  nz_cells_nonneg : nonneg (cells (snd st'));
  nz_inf : forall i, (INF_COST <= at_ (fst st) i)%Z -> (INF_COST <= at_ (fst st') i)%Z;
  nz_sum : forall i j, i < N -> j < n ->
    cap (at_ (fst st') i + at_ others j + cval (snd st') i j) = cap (at_ (fst st) i + at_ others j + cval (snd st) i j);
}.

Lemma normalized_trans others st1 st2 st3 : normalized others st1 st2 -> normalized others st2 st3 -> normalized others st1 st3.
Proof. intros [] []. split; try congruence; try done; [auto|]. intros i j Hi Hj. by rewrite nz_sum1, nz_sum0. Qed.

Lemma normalized_refl others st : nonneg (fst st) -> nonneg (cells (snd st)) -> normalized others st st.
Proof. by intros. Qed.

(** A line is rewritten and its node's own cost with it. *)
Lemma rewrite_line others own m i l' c' m' : length own = N -> nonneg own -> length (cells m) = len -> nonneg (cells m) -> i < N -> length l' = n ->
  nonneg l' -> (0 <= c')%Z -> write_line m (start i) step l' = Some m' ->
  (INF_COST <= at_ own i -> INF_COST <= c')%Z ->
  (forall j, j < n -> cap (c' + at_ others j + at_ l' j) = cap (at_ own i + at_ others j + cval m i j)) ->
  normalized others (own, m) (<[i := c']> own, m').
Proof.
  intros Lo No Lm Nm Hi Ll Nl Nc E Hinf Hsum.
  destruct (write_line_spec (start i) step n len (fun j Hj => Hlt i j Hi Hj)
    (fun j j' Hj Hj' E => proj2 (Hinj i j i j' Hi Hj Hi Hj' E)) m l' Lm Ll) as (m2 & E2 & Hr & Hc & L2 & Hin & Hout & Hn).
  rewrite E in E2. injection E2 as <-. split; cbn [fst snd]; try done; [by rewrite length_insert|by apply Forall_insert|congruence|by apply Hn| |].
  { intros k Hk. unfold at_. destruct (Nat.eq_dec k i) as [->|Hne]; [rewrite list_lookup_insert_eq by lia; cbn; auto|by rewrite list_lookup_insert_ne]. }
  intros k j Hk Hj. destruct (Nat.eq_dec k i) as [->|Hne].
  - rewrite <- Hsum by done. unfold at_ at 1, cval, at_ at 2, idx. rewrite list_lookup_insert_eq by lia. by rewrite Hin.
  - unfold at_ at 1, cval, at_ at 2. rewrite list_lookup_insert_ne by done. rewrite Hout; [done|].
    intros j' Hj' Ek. destruct (Hinj k j i j' Hk Hj Hi Hj' Ek) as [-> _]. done.
Qed.

Lemma write_line_total m i l' : length (cells m) = len -> i < N -> length l' = n -> exists m', write_line m (start i) step l' = Some m'.
Proof.
  intros Lm Hi Ll. destruct (write_line_spec (start i) step n len (fun j Hj => Hlt i j Hi Hj)
    (fun j j' Hj Hj' E => proj2 (Hinj i j i j' Hi Hj Hi Hj' E)) m l' Lm Ll) as (m2 & E2 & _). by exists m2.
Qed.

Lemma read_line m i : length (cells m) = len -> i < N -> exists l, line m (start i) step n = Some l /\ length l = n /\
  (forall j, j < n -> l !! j = Some (cval m i j)).
Proof.
  intros Lm Hi. destruct (line_spec (start i) step n len (fun j Hj => Hlt i j Hi Hj) m Lm) as (l & E & Ll & Hl). exists l. do 2 (split; [done|]).
  intros j Hj. rewrite Hl by done. apply at_Some. rewrite Lm. by apply Hlt.
Qed.

Lemma normalize_line_spec others own m i : length own = N -> length others = n -> length (cells m) = len ->
  nonneg own -> nonneg others -> nonneg (cells m) -> i < N ->
  exists st, normalize_line (start i) step n i others (own, m) = Some st /\ normalized others (own, m) st.
Proof.
  intros Lo Lt Lm No Nt Nm Hi.
  assert (exists st, (if is_finite (at_ own i) then let min := line_min (map (cval m i) (seq 0 n)) others in
      if (min =? 0)%Z then Some (own, m)
      else m ← write_line m (start i) step (map (fun x => reduced_cost x min) (map (cval m i) (seq 0 n)));
        own ← vset own i (add (at_ own i) min); Some (own, m) else Some (own, m)) = Some st /\ normalized others (own, m) st)
    as ([own1 m1] & E1 & N1).
  { pose proof (normalized_refl others (own, m) No Nm) as Hrefl. destruct (is_finite (at_ own i)) eqn:Hf; [|eauto].
    apply is_finite_spec in Hf. cbn zeta. set (l := map (cval m i) (seq 0 n)).
    assert (forall j, j < n -> l !! j = Some (cval m i j)) as Hl.
    { intros j Hj. unfold l. by rewrite list_lookup_fmap, lookup_seq_lt by done. }
    assert (nonneg l) as Nl.
    { apply list.Forall_forall. intros x (j & -> & _)%list_elem_of_fmap. by apply at_nonneg. }
    destruct (line_min_spec l others Nl) as [M0 M]. set (mn := line_min l others) in *. destruct (Z.eqb_spec mn 0); [eauto|].
    destruct (write_line_total m i (map (fun x => reduced_cost x mn) l) Lm Hi) as (m' & E'); [unfold l; by rewrite !length_map, length_seq|].
    rewrite E'. cbn [mbind option_bind]. rewrite vset_Some by lia. cbn [mbind option_bind]. eexists. split; [done|].
    apply (rewrite_line others own m i (map (fun x => reduced_cost x mn) l) (add (at_ own i) mn) m' Lo No Lm Nm Hi); [unfold l; by rewrite !length_map, length_seq| | |exact E'|lia|].
    - apply list.Forall_forall. intros x (y & -> & _)%list_elem_of_fmap. unfold reduced_cost. pose proof INF_pos. destruct (_ <=? y)%Z; lia.
    - rewrite add_cap. apply cap_nonneg. pose proof (at_nonneg own i No). lia.
    - intros j Hj. rewrite (at_eq (map _ l) j (reduced_cost (cval m i j) mn)) by by rewrite list_lookup_fmap, Hl. apply move_min; [by apply at_nonneg|done|by apply at_nonneg|by apply at_nonneg|].
      intros Ho. apply (M j (cval m i j) (at_ others j)); [by apply Hl|apply at_Some; lia|done]. }
  destruct (read_line m i Lm Hi) as (l & El & Ll & Hl).
  assert (l = map (cval m i) (seq 0 n)) as ->.
  { apply list_eq. intros j. rewrite list_lookup_fmap. destruct (Nat.lt_ge_cases j n) as [Hj|Hj].
    - by rewrite lookup_seq_lt, Hl. - rewrite !lookup_ge_None_2; [done|by rewrite length_seq|lia]. }
  unfold normalize_line. rewrite (at_Some own i) by lia. cbn [mbind option_bind]. rewrite El. cbn [mbind option_bind]. cbn zeta in E1. rewrite E1. cbn [mbind option_bind].
  pose proof N1 as [L1 No1 _ _ Lm1 Nm1 _]. cbn [fst snd] in *. rewrite (at_Some own1 i) by lia. cbn [mbind option_bind].
  destruct (read_line m1 i) as (l1 & -> & Ll1 & Hl1); [lia|done|]. cbn [mbind option_bind].
  destruct (is_finite (at_ own1 i)) eqn:Hf; cbn [negb andb]; [eauto|].
  destruct (negb (forallb (fun x => (x =? 0)%Z) l1)); [|eauto].
  destruct (write_line_total m1 i (replicate n 0%Z)) as (m2 & E2); [lia|done|by rewrite length_replicate|]. rewrite E2. cbn [mbind option_bind].
  eexists. split; [done|]. eapply normalized_trans; [exact N1|]. rewrite <- (list_insert_id own1 i (at_ own1 i)) at 2 by (apply at_Some; lia).
  apply (rewrite_line others own1 m1 i (replicate n 0%Z) (at_ own1 i) m2 ltac:(lia) No1 ltac:(lia) Nm1 Hi); [by rewrite length_replicate|apply Forall_replicate; lia|by apply at_nonneg|exact E2|done|].
  intros j Hj. rewrite (at_eq (replicate n 0%Z) j 0) by by apply lookup_replicate_2.
  assert (INF_COST <= at_ own1 i)%Z by (apply Z.nlt_ge; intros ?%is_finite_spec; congruence).
  pose proof (at_nonneg others j Nt). pose proof (at_nonneg (cells m1) (idx i j) Nm1). unfold cval, cap. lia.
Qed.

Lemma normalize_lines others l own m : length own = N -> length others = n -> length (cells m) = len ->
  nonneg own -> nonneg others -> nonneg (cells m) -> (forall i, i ∈ l -> i < N) ->
  exists st, fold_left (fun st i => st ← st; normalize_line (start i) step n i others st) l (Some (own, m)) = Some st /\ normalized others (own, m) st.
Proof.
  revert own m; induction l as [|i l IH]; intros own m Lo Lt Lm No Nt Nm Hl; cbn [fold_left].
  { eexists. split; [done|]. by apply normalized_refl. }
  cbn [mbind option_bind]. destruct (normalize_line_spec others own m i Lo Lt Lm No Nt Nm) as ([own1 m1] & -> & N1); [apply Hl; by left|].
  pose proof N1 as [L1 No1 _ _ Lm1 Nm1 _]. cbn [fst snd] in *.
  destruct (IH own1 m1) as (st & E & N2); try done; [lia|lia|intros j Hj; apply Hl; by right|].
  exists st. split; [exact E|]. by eapply normalized_trans.
Qed.

End normalize.

(** [normalize] on one edge: it keeps the capped cost of every pair of
    alternatives, and an infinite alternative stays infinite. *)
Record renormalized (R C : nat) (cl cr : list Z) (m : Matrix) (cl' cr' : list Z) (m' : Matrix) : Prop := {
  rn_left : length cl' = R /\ nonneg cl';
  rn_right : length cr' = C /\ nonneg cr';
  rn_matrix : wfm R C m';
  rn_left_inf : forall i, (INF_COST <= at_ cl i)%Z -> (INF_COST <= at_ cl' i)%Z;
  rn_right_inf : forall i, (INF_COST <= at_ cr i)%Z -> (INF_COST <= at_ cr' i)%Z;
  rn_sum : forall r c, r < R -> c < C -> cap (at_ cl' r + at_ cr' c + mval m' r c) = cap (at_ cl r + at_ cr c + mval m r c);
}.

Lemma at_mval R C m r c : wfm R C m -> r < R -> c < C -> at_ (cells m) (r * C + c) = mval m r c.
Proof. intros Hm Hr Hc. by apply at_eq, (mval_cells R C). Qed.

Lemma normalize_matrix_spec R C cl cr m : wfm R C m -> length cl = R -> length cr = C -> nonneg cl -> nonneg cr ->
  exists cl' m1 cr' m', normalize_rows cr cl m = Some (cl', m1) /\ normalize_cols cl' cr m1 = Some (cr', m') /\
    renormalized R C cl cr m cl' cr' m'.
Proof.
  intros Hm Ll Lr Nl Nr. pose proof Hm as [HR HC Hlen Hnn].
  destruct (normalize_lines (fun i => i * C) 1 R C (R * C)) with (others := cr) (l := seq 0 (length cl)) (own := cl) (m := m)
    as ([cl' m1] & E1 & [L1 N1 R1 C1 S1 M1 I1 P1]); try done.
  { intros i j Hi Hj. unfold idx. rewrite Nat.mul_1_r. by apply cell_lt. }
  { intros i j i' j' Hi Hj Hi' Hj'. unfold idx. rewrite !Nat.mul_1_r. by apply cell_inj. }
  { intros i Hi. apply elem_of_seq in Hi. lia. }
  cbn [fst snd] in *.
  assert (wfm R C m1) as Hm1 by (split; [congruence|congruence|lia|done]).
  destruct (normalize_lines (fun i => i) C C R (R * C)) with (others := cl') (l := seq 0 (length cr)) (own := cr) (m := m1)
    as ([cr' m'] & E2 & [L2 N2 R2 C2 S2 M2 I2 P2]); try done; try lia.
  { intros i j Hi Hj. unfold idx. pose proof (cell_lt R C j i Hj Hi). lia. }
  { intros i j i' j' Hi Hj Hi' Hj' E. unfold idx in E. destruct (cell_inj C j i j' i' Hi Hi'); [lia|done]. }
  { intros i Hi. apply elem_of_seq in Hi. lia. }
  cbn [fst snd] in *.
  exists cl', m1, cr', m'. split; [|split].
  - unfold normalize_rows. by rewrite HC.
  - unfold normalize_cols. rewrite (wfm_cols _ _ _ Hm1). by rewrite L1, Ll.
  - assert (wfm R C m') as Hm' by (split; [rewrite R2; apply Hm1|rewrite C2; apply Hm1|lia|done]).
    split; [split; [lia|done]|split; [lia|done]|done|done|done|]. intros r c Hr Hc.
    specialize (P1 r c Hr Hc). specialize (P2 c r Hc Hr). unfold cval, idx in *. rewrite Nat.mul_1_r in P1.
    rewrite !(Nat.add_comm c (r * C)) in P2. rewrite !(at_mval R C) in P1 by done. rewrite !(at_mval R C) in P2 by done.
    rewrite <- P1. rewrite (Z.add_comm (at_ cl' r) (at_ cr c)), <- P2. f_equal. lia.
Qed.

(** ** The state of the PBQP solver: its invariant

    [ok] ties the edges, the adjacency lists and the table [between] together,
    [tidy] says that live edges have live ends and [watched] that a live node
    of degree two or less is pending. [evolves] is what an operation that kills
    no node does to the state, and [potential] is the measure of the
    reductions. *)
(** ** Sums *)
Definition zsum (l : list Z) : Z := fold_right Z.add 0%Z l.
#[global] Arguments zsum _ : simpl never.

Lemma zsum_cons x l : zsum (x :: l) = (x + zsum l)%Z.
Proof. done. Qed.

Lemma zsum_app l l' : zsum (l ++ l') = (zsum l + zsum l')%Z.
Proof. induction l as [|x l IH]; [done|]. cbn [app]. rewrite !zsum_cons. lia. Qed.

Lemma zsum_insert {A} (f : A -> Z) l i x y : l !! i = Some x -> zsum (map f (<[i := y]> l)) = (zsum (map f l) - f x + f y)%Z.
Proof.
  revert i; induction l as [|z l IH]; intros [|i] H; [done|done| |]; cbn in H; simplify_eq.
  - change (<[0 := y]> (x :: l)) with (y :: l). cbn [map]. rewrite !zsum_cons. lia.
  - change (<[S i := y]> (z :: l)) with (z :: <[i := y]> l). cbn [map]. rewrite !zsum_cons, (IH i H). lia.
Qed.

Lemma zsum_mono {A} (f g : A -> Z) l : (forall x, x ∈ l -> (f x <= g x)%Z) -> (zsum (map f l) <= zsum (map g l))%Z.
Proof.
  induction l as [|x l IH]; intros H; [done|]. cbn [map]. rewrite !zsum_cons. pose proof (H x ltac:(by left)).
  specialize (IH ltac:(intros y Hy; apply H; by right)). lia.
Qed.

Lemma zsum_ext {A} (f g : A -> Z) l : (forall x, x ∈ l -> f x = g x) -> zsum (map f l) = zsum (map g l).
Proof. intros H. apply Z.le_antisymm; apply zsum_mono; intros x Hx; rewrite H by done; lia. Qed.

Lemma zsum_nonneg {A} (f : A -> Z) l : (forall x, x ∈ l -> (0 <= f x)%Z) -> (0 <= zsum (map f l))%Z.
Proof.
  intros H. replace 0%Z with (zsum (map (fun _ => 0%Z) l)); [by apply zsum_mono|]. clear H. induction l as [|x l IH]; [done|]. cbn [map]. by rewrite zsum_cons.
Qed.

(** A sum over indices whose summand changes at one of them. *)
Lemma zsum_seq_change (f g : nat -> Z) k m i : k <= i < k + m -> (forall j, j <> i -> g j = f j) ->
  zsum (map g (seq k m)) = (zsum (map f (seq k m)) - f i + g i)%Z.
Proof.
  revert k; induction m as [|m IH]; intros k Hi Hg; [lia|]. cbn [seq map]. rewrite !zsum_cons.
  destruct (Nat.eq_dec k i) as [->|Hne].
  - rewrite (zsum_ext g f (seq (S i) m)); [lia|]. intros j Hj%elem_of_seq. apply Hg. lia.
  - rewrite (IH (S k)) by (done || lia). rewrite (Hg k Hne). lia.
Qed.

(** ** Lists used as sets *)
Lemma position_spec x l : x ∈ l -> exists i, position x l = Some i /\ l !! i = Some x.
Proof.
  induction l as [|y l IH]; [set_solver|]. intros Hx. cbn [position]. destruct (Nat.eqb_spec y x) as [->|Hne]; [by exists 0|].
  destruct IH as (i & -> & Hi); [set_solver|]. by exists (S i).
Qed.

Lemma swap_remove_spec {A} (l : list A) i x : l !! i = Some x -> exists l', swap_remove l i = Some l' /\ l ≡ₚ x :: l'.
Proof.
  intros Hx. pose proof (lookup_lt_Some _ _ _ Hx) as Hi. destruct (snoc_cases l) as [->|(l0 & z & ->)]; [done|].
  unfold swap_remove. rewrite (proj2 (Nat.ltb_lt _ _) Hi). rewrite length_app, Nat.add_sub. rewrite length_app in Hi. cbn [length] in Hi.
  rewrite lookup_app_r, Nat.sub_diag by lia. cbn [lookup list_lookup mbind option_bind].
  destruct (Nat.eq_dec i (length l0)) as [->|Hne].
  - rewrite lookup_app_r, Nat.sub_diag in Hx by lia. injection Hx as ->. exists l0. split.
    + f_equal. rewrite insert_app_r_alt by lia. by rewrite take_app_length.
    + rewrite Permutation_app_comm. done.
  - rewrite lookup_app_l in Hx by lia. exists (<[i := z]> l0). split.
    + f_equal. rewrite insert_app_l by lia. by rewrite <- (length_insert l0 i z), take_app_length.
    + rewrite <- (take_drop_middle l0 i x Hx) at 1. rewrite insert_take_drop by lia. solve_Permutation.
Qed.

Definition count_alive (s : Solver) : Z := zsum (map (fun a : bool => if a then 1%Z else 0%Z) (alive s)).
Definition count_live (s : Solver) : Z := zsum (map (fun e => if e_live e then 1%Z else 0%Z) (edges s)).
Definition potential (s : Solver) : Z := (5 * count_alive s + 2 * count_live s + Z.of_nat (length (pending s)))%Z.

Definition incident (s : Solver) (id i : nat) : Prop :=
  exists e, edges s !! id = Some e /\ e_live e = true /\ (e_lhs e = i \/ e_rhs e = i).

Definition edge_key (e : Edge) : nat * nat := pair_key (e_lhs e) (e_rhs e).

(** Live edges have live ends, those in [D] apart. *)
Definition tidy (D : list nat) (s : Solver) : Prop :=
  forall id i, incident s id i -> alive s !! i = Some true \/ i ∈ D.

Definition watched (s : Solver) : Prop :=
  forall i l, adjacency s !! i = Some l -> length l <= 2 -> alive s !! i = Some true -> i ∈ pending s.

Definition dead (e : Edge) : Edge := mkEdge (e_lhs e) (e_rhs e) (e_matrix e) false.

Lemma incident_dead s s' id e : edges s !! id = Some e -> edges s' = <[id := dead e]> (edges s) ->
  forall id' i, incident s' id' i <-> incident s id' i /\ id' <> id.
Proof.
  intros He Es id' i. unfold incident. rewrite Es. pose proof (lookup_lt_Some _ _ _ He) as Hlt. destruct (Nat.eq_dec id' id) as [->|Hne].
  - rewrite list_lookup_insert_eq by done. split; [|intros [_ []]; done]. intros (e' & [= <-] & ? & _). done.
  - rewrite list_lookup_insert_ne by done. naive_solver.
Qed.

Section invariant.
Context (n : nat) (dim : nat -> nat).

Record ok (s : Solver) : Prop := {
  ok_costs_len : length (costs s) = n;
  ok_adjacency_len : length (adjacency s) = n;
  ok_alive_len : length (alive s) = n;
  ok_choices_len : length (choices s) = n;
  ok_dims : forall i, i < n -> 0 < dim i;
  ok_costs : forall i c, costs s !! i = Some c -> length c = dim i /\ nonneg c;
  ok_choices : forall i c, choices s !! i = Some c -> c < dim i;
  ok_edges : forall id e, edges s !! id = Some e ->
    e_lhs e < n /\ e_rhs e < n /\ e_lhs e <> e_rhs e /\ wfm (dim (e_lhs e)) (dim (e_rhs e)) (e_matrix e);
  ok_nodup : forall i l, adjacency s !! i = Some l -> NoDup l;
  ok_adjacency : forall i l id, adjacency s !! i = Some l -> id ∈ l <-> incident s id i;
  ok_between : forall k id, between s !! k = Some id <-> exists e, edges s !! id = Some e /\ e_live e = true /\ edge_key e = k;
  ok_pending : forall i, i ∈ pending s -> i < n;
  ok_reduced : forall r, r ∈ reduced s -> reduced_node r < n /\
    forall id, id ∈ reduced_edges r -> exists e, edges s !! id = Some e /\ (e_lhs e = reduced_node r \/ e_rhs e = reduced_node r);
}.

(** What an operation that kills no node does, the potential growing by [k]. *)
Record evolves (k : Z) (s s' : Solver) : Prop := {
  ev_alive : alive s' = alive s;
  ev_reduced : reduced s' = reduced s;
  ev_choices : choices s' = choices s;
  ev_edges : forall id e, edges s !! id = Some e -> exists e', edges s' !! id = Some e' /\
    e_lhs e' = e_lhs e /\ e_rhs e' = e_rhs e /\ (e_live e = false -> e' = e);
  ev_potential : (potential s' <= potential s + k)%Z;
  ev_watched : watched s -> watched s';
  ev_tidy : forall D, tidy D s -> tidy D s';
  ev_costs : forall D i, tidy D s -> i ∉ D -> alive s !! i <> Some true -> costs s' !! i = costs s !! i;
}.

Lemma evolves_refl s : evolves 0 s s.
Proof. split; try done; [|lia]. intros id e He. by exists e. Qed.

Lemma evolves_trans j k s1 s2 s3 : evolves j s1 s2 -> evolves k s2 s3 -> evolves (j + k) s1 s3.
Proof.
  intros [A1 R1 C1 E1 P1 W1 T1 K1] [A2 R2 C2 E2 P2 W2 T2 K2]. split; try congruence; try lia; [|auto..|].
  - intros id e He. destruct (E1 id e He) as (e1 & He1 & L1 & Q1 & F1). destruct (E2 id e1 He1) as (e2 & He2 & L2 & Q2 & F2).
    exists e2. split; [done|]. split; [congruence|]. split; [congruence|]. intros F. rewrite <- (F1 F). apply F2. by rewrite (F1 F).
  - intros D i HT Hi Ha. rewrite (K2 D) by (auto; rewrite A1; done). by apply (K1 D).
Qed.

Lemma evolves_weaken j k s s' : (j <= k)%Z -> evolves j s s' -> evolves k s s'.
Proof. intros Hjk []. split; try done. lia. Qed.

Lemma ok_adj s i : ok s -> i < n -> exists l, adjacency s !! i = Some l.
Proof. intros Hok Hi. apply lookup_lt_is_Some_2. by rewrite (ok_adjacency_len s Hok). Qed.

Lemma ok_cost s i : ok s -> i < n -> exists c, costs s !! i = Some c /\ length c = dim i /\ nonneg c.
Proof.
  intros Hok Hi. destruct (lookup_lt_is_Some_2 (costs s) i) as [c Hc]; [by rewrite (ok_costs_len s Hok)|].
  exists c. split; [done|]. by apply (ok_costs s Hok i).
Qed.

Lemma ok_live_adj s id e i l : ok s -> edges s !! id = Some e -> e_live e = true -> e_lhs e = i \/ e_rhs e = i ->
  adjacency s !! i = Some l -> id ∈ l.
Proof. intros Hok He Hl Hi Hadj. apply (ok_adjacency s Hok i l id Hadj). by exists e. Qed.

Lemma unlink_end_spec s id node l : adjacency s !! node = Some l -> id ∈ l -> exists l', l ≡ₚ id :: l' /\
  unlink_end id node s = Some (set_pending ((if length l' <=? 2 then [node] else []) ++ pending s) (set_adjacency (<[node := l']> (adjacency s)) s)).
Proof.
  intros Hl Hin. destruct (position_spec id l Hin) as (i & Hp & Hi). destruct (swap_remove_spec l i id Hi) as (l' & Hs & HP).
  exists l'. split; [done|]. unfold unlink_end. rewrite Hl. cbn [mbind option_bind]. rewrite Hp. cbn [mbind option_bind]. rewrite Hs. cbn [mbind option_bind].
  rewrite vset_Some by by eapply lookup_lt_Some. cbn [mbind option_bind]. by destruct (length l' <=? 2).
Qed.

Lemma same_key s id id' e e' : ok s -> edges s !! id = Some e -> e_live e = true -> edges s !! id' = Some e' -> e_live e' = true ->
  edge_key e = edge_key e' -> id = id'.
Proof.
  intros Hok He Hl He' Hl' Hk. assert (between s !! edge_key e = Some id) as H1 by (apply (ok_between s Hok); by exists e).
  assert (between s !! edge_key e = Some id') as H2 by (apply (ok_between s Hok); by exists e'). congruence.
Qed.

Lemma ok_ends_live s id e : ok s -> edges s !! id = Some e -> e_live e = true -> exists ll lr, adjacency s !! e_lhs e = Some ll /\
  adjacency s !! e_rhs e = Some lr /\ id ∈ ll /\ id ∈ lr.
Proof.
  intros Hok He Hlive. destruct (ok_edges s Hok id e He) as (Hl & Hr & _). destruct (ok_adj s _ Hok Hl) as [ll Hll]. destruct (ok_adj s _ Hok Hr) as [lr Hlr].
  exists ll, lr. do 2 (split; [done|]). split; [by apply (ok_live_adj s id e (e_lhs e)); auto|by apply (ok_live_adj s id e (e_rhs e)); auto].
Qed.

(** What [unlink] does to the fields. *)
Record unlinked (id : nat) (e : Edge) (s s' : Solver) : Prop := {
  ul_costs : costs s' = costs s;
  ul_alive : alive s' = alive s;
  ul_reduced : reduced s' = reduced s;
  ul_choices : choices s' = choices s;
  ul_edges : edges s' = <[id := dead e]> (edges s);
  ul_between : between s' = delete (edge_key e) (between s);
  ul_adjacency_len : length (adjacency s') = length (adjacency s);
  ul_adjacency : forall i l', adjacency s' !! i = Some l' -> exists l, adjacency s !! i = Some l /\
    (l ≡ₚ id :: l' /\ (length l' <= 2 -> i ∈ pending s') \/ l = l' /\ id ∉ l);
  ul_pending : exists p, pending s' = p ++ pending s /\ length p <= 2 /\ forall i, i ∈ p -> i < n;
}.

Lemma unlink_fields s id e : ok s -> edges s !! id = Some e -> e_live e = true -> exists s', unlink id s = Some s' /\ unlinked id e s s'.
Proof.
  intros Hok He Hlive. destruct (ok_ends_live s id e Hok He Hlive) as (ll & lr & Hll & Hlr & Hinl & Hinr).
  destruct (ok_edges s Hok id e He) as (Hl & Hr & Hne & _). pose proof (lookup_lt_Some _ _ _ He) as Hid.
  unfold unlink. rewrite He. cbn [mbind option_bind]. rewrite vset_Some by done. cbn [mbind option_bind]. fold (dead e).
  destruct (unlink_end_spec (set_edges (<[id := dead e]> (edges s)) s) id (e_lhs e) ll Hll Hinl) as (ll' & Pl & ->). cbn [mbind option_bind].
  match goal with |- context [unlink_end id (e_rhs e) ?s1] => destruct (unlink_end_spec s1 id (e_rhs e) lr) as (lr' & Pr & ->) end.
  { cbn. by rewrite list_lookup_insert_ne. } { done. }
  cbn [mbind option_bind set_between set_edges set_adjacency set_pending costs edges adjacency between alive pending reduced choices].
  eexists. split; [done|]. split; cbn; try done; [by rewrite !length_insert| |].
  - intros i l'. destruct (Nat.eq_dec (e_rhs e) i) as [<-|Hr'].
    { rewrite list_lookup_insert_eq by (rewrite length_insert, (ok_adjacency_len s Hok); done). intros [= <-]. exists lr. split; [done|left].
      split; [done|]. intros Hlen. rewrite (proj2 (Nat.leb_le _ _) Hlen). set_solver. }
    rewrite list_lookup_insert_ne by done. destruct (Nat.eq_dec (e_lhs e) i) as [<-|Hl'].
    { rewrite list_lookup_insert_eq by (rewrite (ok_adjacency_len s Hok); done). intros [= <-]. exists ll. split; [done|left].
      split; [done|]. intros Hlen. rewrite (proj2 (Nat.leb_le _ _) Hlen). set_solver. }
    rewrite list_lookup_insert_ne by done. intros Hi. exists l'. split; [done|]. right. split; [done|].
    rewrite (ok_adjacency s Hok i l' id Hi). intros (e' & He' & _ & [|]); congruence.
  - eexists. rewrite app_assoc. split; [done|]. rewrite length_app. split; [by destruct (_ <=? 2), (_ <=? 2); cbn; lia|].
    intros i [Hi|Hi]%elem_of_app; destruct (_ <=? 2) in Hi; set_solver.
Qed.

Lemma unlinked_ok s s' id e : ok s -> edges s !! id = Some e -> e_live e = true -> unlinked id e s s' -> ok s'.
Proof.
  intros Hok He Hlive [Uc Ua Ur Uh Ue Ub Ul Uj Up]. pose proof (lookup_lt_Some _ _ _ He) as Hid. pose proof (incident_dead s s' id e He Ue) as Hinc.
  split; rewrite ?Uc, ?Ul, ?Ua, ?Uh, ?Ur; try (apply Hok).
  - intros id' e'. rewrite Ue. destruct (Nat.eq_dec id' id) as [->|Hd].
    + rewrite list_lookup_insert_eq by done. intros [= <-]. by apply (ok_edges s Hok id e).
    + rewrite list_lookup_insert_ne by done. apply (ok_edges s Hok).
  - intros i l' Hi. destruct (Uj i l' Hi) as (l & Hl0 & [[HP _]|[-> _]]); [|by apply (ok_nodup s Hok i)].
    pose proof (ok_nodup s Hok i l Hl0) as Hnd. rewrite HP in Hnd. by apply list.NoDup_cons in Hnd as [_ ?].
  - intros i l' id' Hi. rewrite Hinc. destruct (Uj i l' Hi) as (l & Hl0 & HP). rewrite <- (ok_adjacency s Hok i l id' Hl0).
    pose proof (ok_nodup s Hok i l Hl0) as Hnd. destruct HP as [[HP _]|[-> Hno]]; [|naive_solver].
    rewrite HP in Hnd |- *. apply list.NoDup_cons in Hnd as [Hn _]. rewrite elem_of_cons. naive_solver.
  - intros k id'. rewrite Ub, Ue. destruct (Nat.eq_dec id' id) as [->|Hd].
    + rewrite list_lookup_insert_eq by done. rewrite lookup_delete_Some, (ok_between s Hok). naive_solver.
    + rewrite list_lookup_insert_ne by done. rewrite lookup_delete_Some, (ok_between s Hok). split; [naive_solver|].
      intros (e' & He' & Hl0 & Hk'). split; [|naive_solver]. intros Hk. destruct Hd. eapply (same_key s id' id e' e); eauto. congruence.
  - intros i. destruct Up as (p & -> & _ & Hp). intros [Hi|Hi]%elem_of_app; [by apply Hp|by apply (ok_pending s Hok)].
  - intros r Hr0. destruct (ok_reduced s Hok r Hr0) as [H1 H2]. split; [done|]. intros id' Hid'. destruct (H2 id' Hid') as (e' & He' & Hends).
    rewrite Ue. destruct (Nat.eq_dec id' id) as [->|Hd]; [rewrite list_lookup_insert_eq by done|rewrite list_lookup_insert_ne by done]; naive_solver.
Qed.

Lemma unlinked_evolves s s' id e : ok s -> edges s !! id = Some e -> e_live e = true -> unlinked id e s s' -> evolves 0 s s'.
Proof.
  intros Hok He Hlive [Uc Ua Ur Uh Ue Ub Ul Uj (p & Up & Hp & _)]. pose proof (lookup_lt_Some _ _ _ He) as Hid.
  split; try done; rewrite ?Ua.
  - intros id' e' He'. rewrite Ue. destruct (Nat.eq_dec id' id) as [->|Hd]; [|rewrite list_lookup_insert_ne by done; by exists e'].
    rewrite list_lookup_insert_eq by done. exists (dead e). assert (e' = e) as -> by congruence. do 3 (split; [done|]). congruence.
  - unfold potential, count_alive, count_live. rewrite Ue, Ua, Up, (zsum_insert _ _ _ e (dead e) He), Hlive, length_app. cbn [dead e_live]. lia.
  - intros Hw i l' Hi Hlen Ha. destruct (Uj i l' Hi) as (l & Hl0 & [[_ H]|[-> _]]); [by apply H|].
    rewrite Up, elem_of_app. right. apply (Hw i l'); [done..|by rewrite <- Ua].
  - intros D HD id' i. rewrite (incident_dead s s' id e He Ue), Ua. intros [Hi _]. by apply (HD id' i).
  - intros. by rewrite Uc.
Qed.

(** [unlink] takes one live edge out. *)
Lemma unlink_spec s id e : ok s -> edges s !! id = Some e -> e_live e = true ->
  exists s', unlink id s = Some s' /\ ok s' /\ evolves 0 s s' /\ costs s' = costs s /\ edges s' = <[id := dead e]> (edges s).
Proof.
  intros Hok He Hlive. destruct (unlink_fields s id e Hok He Hlive) as (s' & E & U). exists s'. split; [done|].
  split; [by apply (unlinked_ok s s' id e)|]. split; [by apply (unlinked_evolves s s' id e)|]. by destruct U.
Qed.

End invariant.
