(* ===== verification/PbqpCost.v ===== *)
(** * Costs of the PBQP solver's state, and the operations that keep them

    [total] is the capped cost of an assignment in the live part of the graph.
    [normalize], [link] and [charge] are described by the invariant they keep
    and by what they do to [total]. *)
From S2P Require Import Prelude Words Pbqp PbqpSpec.
#[local] Open Scope nat_scope.

Definition ncost (s : Solver) (i x : nat) : Z := at_ (default [] (costs s !! i)) x.
Definition ecost (a : nat -> nat) (e : Edge) : Z := mval (e_matrix e) (a (e_lhs e)) (a (e_rhs e)).
Definition is_alive (s : Solver) (i : nat) : bool := default false (alive s !! i).

Definition node_part (s : Solver) (a : nat -> nat) (i : nat) : Z := if is_alive s i then ncost s i (a i) else 0%Z.
Definition edge_part (a : nat -> nat) (e : Edge) : Z := if e_live e then ecost a e else 0%Z.
Definition nodes_cost (s : Solver) (a : nat -> nat) : Z := zsum (map (node_part s a) (seq 0 (length (costs s)))).
Definition edges_cost (s : Solver) (a : nat -> nat) : Z := zsum (map (edge_part a) (edges s)).
Definition total (s : Solver) (a : nat -> nat) : Z := cap (nodes_cost s a + edges_cost s a).

Lemma ncost_eq s i c x : costs s !! i = Some c -> ncost s i x = at_ c x.
Proof. intros H. unfold ncost. by rewrite H. Qed.

(** An infinite alternative stays infinite. *)
Definition inf_mono (s s' : Solver) : Prop := forall i x, (INF_COST <= ncost s i x)%Z -> (INF_COST <= ncost s' i x)%Z.

Lemma is_alive_spec s i : is_alive s i = true <-> alive s !! i = Some true.
Proof. unfold is_alive. destruct (alive s !! i) as [[]|]; naive_solver. Qed.

Lemma edges_cost_dead s s' id e a : edges s !! id = Some e -> e_live e = true -> edges s' = <[id := dead e]> (edges s) ->
  edges_cost s' a = (edges_cost s a - ecost a e)%Z.
Proof.
  intros He Hl E. unfold edges_cost. rewrite E, (zsum_insert _ _ _ e (dead e) He).
  assert (edge_part a (dead e) = 0%Z) as -> by done. assert (edge_part a e = ecost a e) as -> by (unfold edge_part; by rewrite Hl). lia.
Qed.

Lemma nodes_cost_same s s' a : costs s' = costs s -> alive s' = alive s -> nodes_cost s' a = nodes_cost s a.
Proof. intros Ec Ea. unfold nodes_cost. rewrite Ec. apply zsum_ext. intros i _. unfold node_part, is_alive, ncost. by rewrite Ec, Ea. Qed.

Section cost.
Context (n : nat) (dim : nat -> nat).
#[local] Notation ok := (ok n dim).

Definition valid (a : nat -> nat) : Prop := forall i, i < n -> a i < dim i.

Lemma ncost_nonneg s i x : ok s -> (0 <= ncost s i x)%Z.
Proof.
  intros Hok. apply at_nonneg. destruct (costs s !! i) as [c|] eqn:E; cbn; [|constructor]. by apply (ok_costs n dim s Hok i).
Qed.

Lemma node_part_nonneg s a i : ok s -> (0 <= node_part s a i)%Z.
Proof. intros Hok. unfold node_part. destruct (is_alive s i); [by apply ncost_nonneg|lia]. Qed.

Lemma edge_part_nonneg s a e : ok s -> e ∈ edges s -> (0 <= edge_part a e)%Z.
Proof.
  intros Hok [id He]%list_elem_of_lookup. unfold edge_part, ecost. destruct (e_live e); [|lia].
  destruct (ok_edges n dim s Hok id e He) as (_ & _ & _ & Hwf). by eapply mval_nonneg.
Qed.

Lemma nodes_cost_nonneg s a : ok s -> (0 <= nodes_cost s a)%Z.
Proof. intros Hok. apply zsum_nonneg. intros i _. by apply node_part_nonneg. Qed.

Lemma edges_cost_nonneg s a : ok s -> (0 <= edges_cost s a)%Z.
Proof. intros Hok. apply zsum_nonneg. intros e He. by eapply edge_part_nonneg. Qed.

(** ** Elementary changes *)
Definition with_matrix (e : Edge) (m : Matrix) : Edge := mkEdge (e_lhs e) (e_rhs e) m (e_live e).

Lemma set_matrix_incident s id e m : edges s !! id = Some e ->
  forall id' i, incident (set_edges (<[id := with_matrix e m]> (edges s)) s) id' i <-> incident s id' i.
Proof.
  intros He id' i. unfold incident. cbn. pose proof (lookup_lt_Some _ _ _ He). destruct (Nat.eq_dec id' id) as [->|Hd].
  - rewrite list_lookup_insert_eq by done. split; [intros (e' & [= <-] & H1 & H2)|intros (e' & H0 & H1 & H2)]; [by exists e|].
    exists (with_matrix e m). assert (e' = e) as -> by congruence. done.
  - by rewrite list_lookup_insert_ne.
Qed.

Lemma set_matrix_ok s id e m : ok s -> edges s !! id = Some e -> wfm (dim (e_lhs e)) (dim (e_rhs e)) m ->
  ok (set_edges (<[id := with_matrix e m]> (edges s)) s).
Proof.
  intros Hok He Hm. pose proof (set_matrix_incident s id e m He) as Hinc. pose proof (lookup_lt_Some _ _ _ He) as Hid. split; try apply Hok.
  - intros id' e'. cbn. destruct (Nat.eq_dec id' id) as [->|Hd]; [|rewrite list_lookup_insert_ne by done; apply (ok_edges n dim s Hok)].
    rewrite list_lookup_insert_eq by done. intros [= <-]. destruct (ok_edges n dim s Hok id e He) as (? & ? & ? & _). done.
  - intros i l id' Hi. rewrite Hinc. by apply (ok_adjacency n dim s Hok).
  - intros k id'. cbn. rewrite (ok_between n dim s Hok). destruct (Nat.eq_dec id' id) as [->|Hd]; [|by rewrite list_lookup_insert_ne].
    rewrite list_lookup_insert_eq by done. split; [intros (e' & H0 & H1 & H2)|intros (e' & [= <-] & H1 & H2)]; [|by exists e].
    exists (with_matrix e m). assert (e' = e) as -> by congruence. done.
  - intros r Hr. destruct (ok_reduced n dim s Hok r Hr) as [H1 H2]. split; [done|]. intros id' Hid'. destruct (H2 id' Hid') as (e' & He' & Hends). cbn.
    destruct (Nat.eq_dec id' id) as [->|Hd]; [rewrite list_lookup_insert_eq by done|rewrite list_lookup_insert_ne by done]; [|by exists e'].
    exists (with_matrix e m). assert (e' = e) as -> by congruence. done.
Qed.

Lemma set_matrix_evolves s id e m : edges s !! id = Some e -> e_live e = true -> evolves 0 s (set_edges (<[id := with_matrix e m]> (edges s)) s).
Proof.
  intros He Hlive. pose proof (lookup_lt_Some _ _ _ He) as Hid. split; try done.
  - intros id' e' He'. cbn. destruct (Nat.eq_dec id' id) as [->|Hd]; [|rewrite list_lookup_insert_ne by done; by exists e'].
    rewrite list_lookup_insert_eq by done. exists (with_matrix e m). assert (e' = e) as -> by congruence. do 3 (split; [done|]). congruence.
  - unfold potential, count_alive, count_live. cbn. rewrite (zsum_insert _ _ _ e (with_matrix e m) He). cbn. lia.
  - intros D HD id' i. rewrite set_matrix_incident by done. apply HD.
Qed.

Lemma set_cost_ok s i c : ok s -> length c = dim i -> nonneg c -> ok (set_costs (<[i := c]> (costs s)) s).
Proof.
  intros Hok Hlen Hnn. split; try apply Hok; cbn; [rewrite length_insert; apply Hok|].
  intros j c' Hc'. apply list_lookup_insert_Some in Hc' as [(-> & <- & _)|[_ Hc']]; [done|]. by apply (ok_costs n dim s Hok).
Qed.

Lemma set_cost_evolves s i c : (alive s !! i = Some true \/ exists id, incident s id i) -> evolves 0 s (set_costs (<[i := c]> (costs s)) s).
Proof.
  intros Hi. split; try done; cbn; [|unfold potential, count_alive, count_live; cbn; lia|].
  - intros id e He. by exists e.
  - intros D j HD Hj Ha. apply list_lookup_insert_ne. intros ->. destruct Hi as [Hi|[id Hi]]; [done|]. destruct (HD id j Hi); done.
Qed.

Lemma ncost_insert s i c j x : i < length (costs s) -> ncost (set_costs (<[i := c]> (costs s)) s) j x = if base.decide (j = i) then at_ c x else ncost s j x.
Proof. intros Hi. unfold ncost. cbn. destruct (base.decide (j = i)) as [->|Hne]; [by rewrite list_lookup_insert_eq|by rewrite list_lookup_insert_ne]. Qed.

(** The cost of the nodes when the costs of one live node change. *)
Lemma nodes_cost_insert s i c a : i < length (costs s) -> alive s !! i = Some true ->
  nodes_cost (set_costs (<[i := c]> (costs s)) s) a = (nodes_cost s a - ncost s i (a i) + at_ c (a i))%Z.
Proof.
  intros Hi Ha. unfold nodes_cost. cbn [set_costs costs]. rewrite length_insert. rewrite (zsum_seq_change (node_part s a) _ 0 _ i) by first
    [lia|intros j Hj; unfold node_part; change (is_alive (set_costs _ s) j) with (is_alive s j); rewrite ncost_insert by done; by destruct (base.decide (j = i))].
  unfold node_part. change (is_alive (set_costs _ s) i) with (is_alive s i). rewrite (proj2 (is_alive_spec s i) Ha), ncost_insert by done.
  destruct (base.decide (i = i)); [done|congruence].
Qed.

Lemma edges_cost_insert s id e e' a : edges s !! id = Some e ->
  edges_cost (set_edges (<[id := e']> (edges s)) s) a = (edges_cost s a - edge_part a e + edge_part a e')%Z.
Proof. intros He. unfold edges_cost. cbn. by apply zsum_insert. Qed.

Lemma zeros_nonneg k : nonneg (replicate k 0%Z).
Proof. apply Forall_replicate. lia. Qed.

Lemma at_zeros k i : at_ (replicate k 0%Z) i = 0%Z.
Proof. unfold at_. destruct (replicate k 0%Z !! i) eqn:E; [|done]. by apply lookup_replicate in E as [-> _]. Qed.

(** What is left of the cost of the graph without one edge and its two ends. *)
Lemma rest_nonneg s id e a : ok s -> edges s !! id = Some e -> alive s !! e_lhs e = Some true -> alive s !! e_rhs e = Some true ->
  e_live e = true -> (0 <= nodes_cost s a - ncost s (e_lhs e) (a (e_lhs e)) - ncost s (e_rhs e) (a (e_rhs e)) + edges_cost s a - ecost a e)%Z.
Proof.
  intros Hok He Al Ar Hlive. destruct (ok_edges n dim s Hok id e He) as (Hl & Hr & Hne & _). pose proof (ok_costs_len n dim s Hok) as Hlen.
  pose proof (set_cost_ok s (e_lhs e) (replicate (dim (e_lhs e)) 0%Z) Hok (length_replicate _ _) (zeros_nonneg _)) as Hok1. set (s1 := set_costs _ s) in Hok1.
  pose proof (set_cost_ok s1 (e_rhs e) (replicate (dim (e_rhs e)) 0%Z) Hok1 (length_replicate _ _) (zeros_nonneg _)) as Hok2. set (s2 := set_costs _ s1) in Hok2.
  pose proof (nodes_cost_nonneg s2 a Hok2) as N2. unfold s2 in N2. rewrite nodes_cost_insert in N2 by (cbn; rewrite ?length_insert; lia || done).
  unfold s1 in N2. rewrite nodes_cost_insert in N2 by (lia || done). rewrite ncost_insert in N2 by lia. rewrite !at_zeros in N2.
  destruct (base.decide (e_rhs e = e_lhs e)); [congruence|].
  destruct (zero_spec (dim (e_lhs e)) (dim (e_rhs e))) as [Hz Hz0]. pose proof (set_matrix_ok s id e _ Hok He Hz) as Hok3.
  pose proof (edges_cost_nonneg _ a Hok3) as N3. rewrite (edges_cost_insert s id e) in N3 by done. unfold edge_part, ecost in N3. cbn [with_matrix e_live e_matrix] in N3.
  rewrite Hlive, Hz0 in N3. unfold ecost. lia.
Qed.

(** An operation that works on one edge and its ends: [total] is kept, and so
    is everything elsewhere. *)
Record works_on (ns : list nat) (id : nat) (s s' : Solver) : Prop := {
  wo_inf : inf_mono s s';
  wo_costs : forall i, i ∉ ns -> costs s' !! i = costs s !! i;
  wo_edges : forall id', id' <> id -> edges s' !! id' = edges s !! id';
  wo_incident : forall id' i, i ∉ ns -> incident s' id' i <-> incident s id' i;
}.

Lemma works_on_trans ns id s1 s2 s3 : works_on ns id s1 s2 -> works_on ns id s2 s3 -> works_on ns id s1 s3.
Proof.
  intros [I1 C1 E1 N1] [I2 C2 E2 N2]. split; [intros i x Hi; by apply I2, I1|intros i Hi; by rewrite C2, C1|intros i Hi; by rewrite E2, E1|].
  intros j i Hi. by rewrite N2, N1.
Qed.

(** The state between the arithmetic of [normalize] and the test for zero. *)
Lemma recost_spec s id e cl cr cl' cr' m' : ok s -> edges s !! id = Some e -> e_live e = true ->
  costs s !! e_lhs e = Some cl -> costs s !! e_rhs e = Some cr ->
  renormalized (dim (e_lhs e)) (dim (e_rhs e)) cl cr (e_matrix e) cl' cr' m' ->
  let s' := set_edges (<[id := with_matrix e m']> (edges s)) (set_costs (<[e_rhs e := cr']> (<[e_lhs e := cl']> (costs s))) s) in
  ok s' /\ evolves 0 s s' /\ works_on [e_lhs e; e_rhs e] id s s' /\
  (alive s !! e_lhs e = Some true -> alive s !! e_rhs e = Some true -> forall a, valid a -> total s' a = total s a).
Proof.
  intros Hok He Hlive Hcl Hcr [[Ll Nl] [Lr Nr] Hm Il Ir Hsum]. destruct (ok_edges n dim s Hok id e He) as (Hl & Hr & Hne & Hwf). pose proof (ok_costs_len n dim s Hok) as Hlen.
  pose proof (set_cost_ok s (e_lhs e) cl' Hok Ll Nl) as Hok1. set (s1 := set_costs _ s) in Hok1.
  pose proof (set_cost_ok s1 (e_rhs e) cr' Hok1 Lr Nr) as Hok2. set (s2 := set_costs _ s1) in Hok2.
  cbn zeta. change (set_costs _ s) with s2. change (edges s) with (edges s2). set (s' := set_edges _ s2).
  assert (forall i x, ncost s2 i x = if base.decide (i = e_rhs e) then at_ cr' x else if base.decide (i = e_lhs e) then at_ cl' x else ncost s i x) as Hn.
  { intros i x. unfold s2. rewrite ncost_insert by (cbn; rewrite length_insert; lia). unfold s1. by rewrite ncost_insert by lia. }
  assert (forall x, ncost s (e_lhs e) x = at_ cl x) as Hnl by (intros x; unfold ncost; by rewrite Hcl).
  assert (forall x, ncost s (e_rhs e) x = at_ cr x) as Hnr by (intros x; unfold ncost; by rewrite Hcr).
  split; [by apply (set_matrix_ok s2 id e)|]. split; [|split; [split|]].
  - apply (evolves_trans 0 0 s s2 s'); [apply (evolves_trans 0 0 s s1 s2)|]; [apply set_cost_evolves|apply set_cost_evolves|by apply set_matrix_evolves].
    + right. exists id, e. auto. + right. exists id, e. auto.
  - intros i x Hi. change (ncost s' i x) with (ncost s2 i x). rewrite Hn. destruct (base.decide (i = e_rhs e)) as [->|]; [apply Ir; by rewrite <- Hnr|].
    destruct (base.decide (i = e_lhs e)) as [->|]; [apply Il; by rewrite <- Hnl|done].
  - intros i Hi. cbn. rewrite !list_lookup_insert_ne; set_solver.
  - intros id' Hd. cbn. by rewrite list_lookup_insert_ne.
  - intros id' i _. by apply (set_matrix_incident s2 id e m').
  - intros Al Ar a Ha. pose proof (rest_nonneg s id e a Hok He Al Ar Hlive) as Hrest. unfold total. change (nodes_cost s' a) with (nodes_cost s2 a).
    unfold s'. rewrite (edges_cost_insert s2 id e) by done. change (edges_cost s2 a) with (edges_cost s a).
    unfold s2. rewrite nodes_cost_insert by (cbn; rewrite ?length_insert; lia || done). unfold s1. rewrite nodes_cost_insert by (lia || done).
    rewrite ncost_insert by lia. destruct (base.decide (e_rhs e = e_lhs e)); [congruence|].
    specialize (Hsum (a (e_lhs e)) (a (e_rhs e)) (Ha _ Hl) (Ha _ Hr)). rewrite Hnl, Hnr in *. apply (cap_ctx _ _ _ Hrest) in Hsum.
    unfold edge_part, ecost in *. cbn [with_matrix e_live e_matrix e_lhs e_rhs] in *. rewrite Hlive.
    etransitivity; [etransitivity; [|exact Hsum]|]; f_equal; lia.
Qed.

Lemma edges_rest_nonneg s id e a : ok s -> edges s !! id = Some e -> (0 <= edges_cost s a - edge_part a e)%Z.
Proof.
  intros Hok He. destruct (zero_spec (dim (e_lhs e)) (dim (e_rhs e))) as [Hz Hz0]. pose proof (set_matrix_ok s id e _ Hok He Hz) as Hok3.
  pose proof (edges_cost_nonneg _ a Hok3) as N3. rewrite (edges_cost_insert s id e) in N3 by done. unfold edge_part at 2, ecost in N3. cbn [with_matrix e_live e_matrix] in N3.
  rewrite Hz0 in N3. destruct (e_live e); lia.
Qed.

Lemma tidy_ends s id e : tidy [] s -> edges s !! id = Some e -> e_live e = true -> alive s !! e_lhs e = Some true /\ alive s !! e_rhs e = Some true.
Proof.
  intros HT He Hl. destruct (HT id (e_lhs e)) as [H1|]; [by exists e; auto| |set_solver]. destruct (HT id (e_rhs e)) as [H2|]; [by exists e; auto|done|set_solver].
Qed.

(** Taking out an edge whose matrix is zero. *)
Lemma unlink_zero s id e s' : ok s -> edges s !! id = Some e -> e_live e = true -> forallb (fun x => x =? 0)%Z (cells (e_matrix e)) = true ->
  evolves 0 s s' -> costs s' = costs s -> edges s' = <[id := dead e]> (edges s) -> works_on [e_lhs e; e_rhs e] id s s' /\ forall a, valid a -> total s' a = total s a.
Proof.
  intros Hok He Hlive Hz Hev Hc Hes. destruct (ok_edges n dim s Hok id e He) as (Hl & Hr & _ & Hwf). split; [split|].
  - intros i x. unfold ncost. by rewrite Hc. - intros i _. by rewrite Hc. - intros id' Hd. by rewrite Hes, list_lookup_insert_ne.
  - intros id' i Hi. rewrite (incident_dead s s' id e He Hes). split; [naive_solver|]. intros Hinc. split; [done|]. intros ->.
    destruct Hinc as (e' & He' & _ & Hends). assert (e' = e) as -> by congruence. set_solver.
  - intros a Ha. unfold total. rewrite (edges_cost_dead s s' id e a He Hlive Hes), (nodes_cost_same s s' a Hc (ev_alive _ _ _ Hev)).
    unfold ecost. rewrite (zeros_spec _ _ _ Hwf Hz) by auto. f_equal. lia.
Qed.

Lemma normalize_spec s id e : ok s -> edges s !! id = Some e -> e_live e = true -> exists s', normalize id s = Some s' /\
  ok s' /\ evolves 0 s s' /\ works_on [e_lhs e; e_rhs e] id s s' /\
  (alive s !! e_lhs e = Some true -> alive s !! e_rhs e = Some true -> forall a, valid a -> total s' a = total s a).
Proof.
  intros Hok He Hlive. destruct (ok_edges n dim s Hok id e He) as (Hl & Hr & Hne & Hwf). pose proof (ok_costs_len n dim s Hok) as Hlen.
  destruct (ok_cost n dim s _ Hok Hl) as (cl & Hcl & Lcl & Ncl). destruct (ok_cost n dim s _ Hok Hr) as (cr & Hcr & Lcr & Ncr).
  destruct (normalize_matrix_spec _ _ cl cr (e_matrix e) Hwf Lcl Lcr Ncl Ncr) as (cl' & m1 & cr' & m' & E1 & E2 & RN).
  unfold normalize. rewrite He. cbn [mbind option_bind]. rewrite Hcl. cbn [mbind option_bind]. rewrite Hcr. cbn [mbind option_bind].
  rewrite E1. cbn [mbind option_bind]. rewrite E2. cbn [mbind option_bind]. rewrite (vset_Some (costs s)) by (rewrite Hlen; done). cbn [mbind option_bind].
  rewrite (vset_Some (<[e_lhs e := cl']> (costs s))) by (rewrite length_insert, Hlen; done). cbn [mbind option_bind]. rewrite vset_Some by by eapply lookup_lt_Some. cbn [mbind option_bind]. cbn zeta.
  destruct (recost_spec s id e cl cr cl' cr' m' Hok He Hlive Hcl Hcr RN) as (Hok1 & Hev1 & Hw1 & Ht1). fold (with_matrix e m'). set (s1 := set_edges _ _) in *.
  assert (edges s1 !! id = Some (with_matrix e m')) as He1 by (cbn; apply list_lookup_insert_eq; by eapply lookup_lt_Some).
  destruct (forallb _ (cells m')) eqn:Hz; [|by exists s1].
  destruct (unlink_spec n dim s1 id _ Hok1 He1 Hlive) as (s2 & -> & Hok2 & Hev2 & Hc2 & He2).
  destruct (unlink_zero s1 id (with_matrix e m') s2 Hok1 He1 Hlive Hz Hev2 Hc2 He2) as [Hw2 Ht2].
  exists s2. split; [done|]. split; [done|]. split; [by apply (evolves_trans 0 0 s s1 s2)|]. split; [by eapply works_on_trans|].
  intros Al Ar a Ha. rewrite Ht2, Ht1 by done. done.
Qed.

End cost.

(** ** Charging costs to edges and nodes

    [link], [charge] and [charge_node]: each adds a matrix or a vector to the
    cost of the graph. *)
Lemma pair_key_eq a b c d : pair_key a b = pair_key c d <-> a = c /\ b = d \/ a = d /\ b = c.
Proof. unfold pair_key. split; [intros [= H1 H2]; lia|intros [[-> ->]|[-> ->]]; f_equal; lia]. Qed.

Lemma lookup_snoc_cases {A} (l : list A) x i y : (l ++ [x]) !! i = Some y -> l !! i = Some y \/ i = length l /\ y = x.
Proof.
  intros H. destruct (Nat.lt_ge_cases i (length l)); [left; by rewrite lookup_app_l in H by done|].
  rewrite lookup_app_r in H by done. destruct (i - length l) eqn:E; [|done]. injection H as <-. right. split; [lia|done].
Qed.

Section charge.
Context (n : nat) (dim : nat -> nat).
#[local] Notation ok := (ok n dim).
#[local] Notation valid := (valid n dim).

(** The cost of every assignment grows by [f], up to the cap. *)
Definition charged (f : (nat -> nat) -> Z) (s s' : Solver) : Prop :=
  forall a, valid a -> total s' a = cap (nodes_cost s a + edges_cost s a + f a).

Definition linked (lhs rhs : nat) (m : Matrix) (ll lr : list nat) (s : Solver) : Solver :=
  let id := length (edges s) in
  mkSolver (costs s) (edges s ++ [mkEdge lhs rhs m true]) (<[rhs := lr ++ [id]]> (<[lhs := ll ++ [id]]> (adjacency s)))
    (<[pair_key lhs rhs := id]> (between s)) (alive s) (pending s) (reduced s) (choices s).

Section linked.
Context (s : Solver) (lhs rhs : nat) (m : Matrix) (ll lr : list nat).
Context (Hok : ok s) (Hl : lhs < n) (Hr : rhs < n) (Hne : lhs <> rhs) (Hwf : wfm (dim lhs) (dim rhs) m).
Context (Hll : adjacency s !! lhs = Some ll) (Hlr : adjacency s !! rhs = Some lr) (Hnone : between s !! pair_key lhs rhs = None).
#[local] Notation s' := (linked lhs rhs m ll lr s).

Lemma linked_incident id i : incident s' id i <-> incident s id i \/ id = length (edges s) /\ (lhs = i \/ rhs = i).
Proof.
  unfold incident. cbn. split.
  - intros (e & He & Hlive & Hi). apply lookup_snoc_cases in He as [He|[-> ->]]; [left; by exists e|by right].
  - intros [(e & He & Hlive & Hi)|[-> Hi]].
    + exists e. split; [|done]. rewrite lookup_app_l; [done|by eapply lookup_lt_Some].
    + exists (mkEdge lhs rhs m true). split; [|done]. by rewrite lookup_app_r, Nat.sub_diag.
Qed.

Lemma linked_adjacency i l' : adjacency s' !! i = Some l' -> exists l, adjacency s !! i = Some l /\
  (l' = l ++ [length (edges s)] /\ (lhs = i \/ rhs = i) \/ l' = l /\ lhs <> i /\ rhs <> i).
Proof.
  pose proof (ok_adjacency_len n dim s Hok) as Hlen. cbn. intros [(-> & <- & _)|[Hr' H]]%list_lookup_insert_Some; [exists lr; auto|].
  apply list_lookup_insert_Some in H as [(-> & <- & _)|[Hl' H]]; [exists ll; auto|]. exists l'. auto.
Qed.

Lemma fresh_edge i : ~ incident s (length (edges s)) i.
Proof. intros (e & He & _). apply lookup_lt_Some in He. lia. Qed.

Lemma linked_ok : ok s'.
Proof.
  split; try apply Hok.
  - cbn. rewrite !length_insert. apply Hok.
  - cbn. intros id e He. apply lookup_snoc_cases in He as [He|[-> ->]]; [by apply (ok_edges n dim s Hok id)|done].
  - intros i l' Hi. destruct (linked_adjacency i l' Hi) as (l & Hl0 & [[-> _]|[-> _]]); [|by apply (ok_nodup n dim s Hok i)].
    apply list.NoDup_app. split; [by apply (ok_nodup n dim s Hok i)|]. split; [|apply list.NoDup_singleton]. intros x Hx ->%list_elem_of_singleton.
    apply (ok_adjacency n dim s Hok i l _ Hl0) in Hx. by apply fresh_edge in Hx.
  - intros i l' id Hi. rewrite linked_incident. destruct (linked_adjacency i l' Hi) as (l & Hl0 & HP). rewrite <- (ok_adjacency n dim s Hok i l id Hl0).
    destruct HP as [[-> Hends]|[-> [? ?]]]; [rewrite elem_of_app, list_elem_of_singleton|]; naive_solver.
  - intros k id. cbn. destruct (base.decide (k = pair_key lhs rhs)) as [->|Hk].
    + rewrite lookup_insert_eq. split.
      * intros [= <-]. exists (mkEdge lhs rhs m true). split; [|done]. by rewrite lookup_app_r, Nat.sub_diag.
      * intros (e & He & Hlive & Hk). apply lookup_snoc_cases in He as [He|[-> ->]]; [|done].
        assert (between s !! pair_key lhs rhs = Some id) by (apply (ok_between n dim s Hok); by exists e). congruence.
    + rewrite lookup_insert_ne by done. rewrite (ok_between n dim s Hok). split; intros (e & He & Hlive & Hk').
      * exists e. split; [|done]. rewrite lookup_app_l; [done|by eapply lookup_lt_Some].
      * apply lookup_snoc_cases in He as [He|[-> ->]]; [by exists e|]. by destruct Hk.
  - intros r Hr0. destruct (ok_reduced n dim s Hok r Hr0) as [H1 H2]. split; [done|]. intros id Hid. destruct (H2 id Hid) as (e & He & Hends).
    exists e. split; [|done]. cbn. rewrite lookup_app_l; [done|by eapply lookup_lt_Some].
Qed.

Lemma linked_evolves : alive s !! lhs = Some true -> alive s !! rhs = Some true -> evolves 2 s s'.
Proof.
  intros Al Ar. split; try done.
  - intros id e He. exists e. split; [|done]. cbn. rewrite lookup_app_l; [done|by eapply lookup_lt_Some].
  - unfold potential, count_alive, count_live. cbn. rewrite map_app, zsum_app. cbn. change (zsum [1%Z]) with 1%Z. lia.
  - intros Hw i l' Hi Hlen Ha. destruct (linked_adjacency i l' Hi) as (l & Hl0 & HP). apply (Hw i l); [done| |done].
    destruct HP as [[-> _]|[-> _]]; [rewrite length_app in Hlen; lia|done].
  - intros D HD id i. rewrite linked_incident. intros [Hi|[_ [<-|<-]]]; [by apply (HD id i)|by left|by left].
Qed.

End linked.

Lemma link_spec s lhs rhs m : ok s -> lhs < n -> rhs < n -> lhs <> rhs -> wfm (dim lhs) (dim rhs) m -> between s !! pair_key lhs rhs = None ->
  alive s !! lhs = Some true -> alive s !! rhs = Some true ->
  exists s', link lhs rhs m s = Some s' /\ ok s' /\ evolves 2 s s' /\ works_on [lhs; rhs] (length (edges s)) s s' /\
    charged (fun a => mval m (a lhs) (a rhs)) s s' /\
    exists e, edges s' !! length (edges s) = Some e /\ edge_key e = pair_key lhs rhs.
Proof.
  intros Hok Hl Hr Hne Hwf Hnone Al Ar. destruct (ok_adj n dim s lhs Hok Hl) as [ll Hll]. destruct (ok_adj n dim s rhs Hok Hr) as [lr Hlr].
  pose proof (ok_adjacency_len n dim s Hok) as Hlen.
  assert (link lhs rhs m s = normalize (length (edges s)) (linked lhs rhs m ll lr s)) as ->.
  { unfold link, push_adjacency. cbn. rewrite Hll. cbn [mbind option_bind]. rewrite vset_Some by (rewrite Hlen; done). cbn.
    rewrite list_lookup_insert_ne by done. rewrite Hlr. cbn [mbind option_bind]. rewrite vset_Some by (rewrite length_insert, Hlen; done). done. }
  pose proof (linked_ok s lhs rhs m ll lr Hok Hl Hr Hne Hwf Hll Hlr Hnone) as Hok1. assert (evolves 2 s (linked lhs rhs m ll lr s)) as Hev1 by (eapply linked_evolves; eauto).
  set (s1 := linked lhs rhs m ll lr s) in *. set (e := mkEdge lhs rhs m true).
  assert (edges s1 !! length (edges s) = Some e) as He by (cbn; by rewrite lookup_app_r, Nat.sub_diag).
  destruct (normalize_spec n dim s1 _ e Hok1 He eq_refl) as (s' & E & Hok' & Hev & Hw & Ht). exists s'. split; [done|]. split; [done|].
  split; [by apply (evolves_trans 2 0 s s1 s')|]. split.
  - eapply works_on_trans; [|exact Hw]. split; [by intros i x|done|intros id Hd; cbn; destruct (Nat.lt_ge_cases id (length (edges s))); [by rewrite lookup_app_l|]|].
    { rewrite !lookup_ge_None_2; [done|done|rewrite length_app; cbn; lia]. }
    intros id i Hi. unfold s1. rewrite linked_incident. set_solver.
  - split.
    2: { destruct (ev_edges _ _ _ Hev _ e He) as (e' & He' & El & Er & _). exists e'. split; [done|]. unfold edge_key. by rewrite El, Er. }
    intros a Ha. rewrite Ht by done. unfold total. f_equal. unfold edges_cost. cbn. rewrite map_app, zsum_app. cbn [map]. rewrite zsum_cons.
    unfold edge_part at 2. cbn. change (zsum []) with 0%Z. change (nodes_cost s1 a) with (nodes_cost s a). unfold ecost. cbn. lia.
Qed.

(** The matrix of an existing edge grows by [d]. *)
Lemma charge_edge_spec s id e d : ok s -> edges s !! id = Some e -> e_live e = true -> wfm (dim (e_lhs e)) (dim (e_rhs e)) d ->
  alive s !! e_lhs e = Some true -> alive s !! e_rhs e = Some true ->
  exists s', normalize id (set_edges (<[id := with_matrix e (charge_cells (e_matrix e) d)]> (edges s)) s) = Some s' /\
    ok s' /\ evolves 0 s s' /\ works_on [e_lhs e; e_rhs e] id s s' /\ charged (fun a => mval d (a (e_lhs e)) (a (e_rhs e))) s s'.
Proof.
  intros Hok He Hlive Hd Al Ar. destruct (ok_edges n dim s Hok id e He) as (Hl & Hr & _ & Hwf).
  destruct (charge_cells_spec _ _ _ _ Hwf Hd) as [Hm Hval]. pose proof (set_matrix_ok n dim s id e _ Hok He Hm) as Hok1.
  pose proof (set_matrix_evolves s id e (charge_cells (e_matrix e) d) He Hlive) as Hev1. pose proof (lookup_lt_Some _ _ _ He) as Hid.
  set (s1 := set_edges _ s) in *. set (e1 := with_matrix e (charge_cells (e_matrix e) d)) in *.
  assert (edges s1 !! id = Some e1) as He1 by (cbn; by apply list_lookup_insert_eq).
  destruct (normalize_spec n dim s1 id e1 Hok1 He1 Hlive) as (s' & E & Hok' & Hev & Hw & Ht). exists s'. split; [done|]. split; [done|].
  split; [by apply (evolves_trans 0 0 s s1 s')|]. split.
  - eapply works_on_trans; [|exact Hw]. split; [by intros i x|done|intros id' Hne; cbn; by rewrite list_lookup_insert_ne|].
    intros id' i _. by apply set_matrix_incident.
  - intros a Ha. rewrite Ht by done. unfold total. change (nodes_cost s1 a) with (nodes_cost s a). unfold s1. rewrite (edges_cost_insert s id e) by done.
    pose proof (edges_rest_nonneg n dim s id e a Hok He). pose proof (nodes_cost_nonneg n dim s a Hok).
    unfold edge_part, ecost in *. cbn [e1 with_matrix e_live e_matrix e_lhs e_rhs]. rewrite Hlive in *. rewrite Hval by auto.
    rewrite Z.add_assoc, cap_add_r by lia. f_equal. lia.
Qed.

Lemma charge_spec s lhs rhs d : ok s -> lhs < n -> rhs < n -> lhs <> rhs -> wfm (dim lhs) (dim rhs) d ->
  alive s !! lhs = Some true -> alive s !! rhs = Some true ->
  exists s' id, charge lhs rhs d s = Some s' /\ ok s' /\ evolves 2 s s' /\ works_on [lhs; rhs] id s s' /\
    (id = length (edges s) \/ exists e, edges s !! id = Some e /\ e_live e = true /\ edge_key e = pair_key lhs rhs) /\
    charged (fun a => mval d (a lhs) (a rhs)) s s'.
Proof.
  intros Hok Hl Hr Hne Hd Al Ar. unfold charge. destruct (between s !! pair_key lhs rhs) as [id|] eqn:Eb.
  2: { destruct (link_spec s lhs rhs d Hok Hl Hr Hne Hd Eb Al Ar) as (s' & E & Hok' & Hev & Hw & Hc & _). exists s', (length (edges s)). auto 10. }
  pose proof (proj1 (ok_between n dim s Hok _ _) Eb) as (e & He & Hlive & Hk). rewrite He. cbn [mbind option_bind].
  assert (exists d', (if e_lhs e =? lhs then Some d else transposed d) = Some d' /\ wfm (dim (e_lhs e)) (dim (e_rhs e)) d' /\
    e_lhs e ∈ [lhs; rhs] /\ e_rhs e ∈ [lhs; rhs] /\ forall a, valid a -> mval d' (a (e_lhs e)) (a (e_rhs e)) = mval d (a lhs) (a rhs))
    as (d' & -> & Hd' & Il & Ir & Hval).
  { apply pair_key_eq in Hk. destruct Hk as [[E1 E2]|[E1 E2]].
    - rewrite E1, E2, Nat.eqb_refl. exists d. do 2 (split; [done|]). split; [set_solver|]. split; [set_solver|done].
    - rewrite E1, E2. rewrite (proj2 (Nat.eqb_neq rhs lhs)) by done. destruct (transposed_spec _ _ d Hd) as (t & -> & Ht & Hv). exists t.
      do 2 (split; [done|]). split; [set_solver|]. split; [set_solver|]. intros a Ha. by apply Hv; apply Ha. }
  cbn [mbind option_bind]. rewrite vset_Some by by eapply lookup_lt_Some. cbn [mbind option_bind]. fold (with_matrix e (charge_cells (e_matrix e) d')).
  assert (forall i, i ∈ [lhs; rhs] -> alive s !! i = Some true) as Hal by set_solver.
  destruct (charge_edge_spec s id e d' Hok He Hlive Hd' (Hal _ Il) (Hal _ Ir)) as (s' & E & Hok' & Hev & [W1 W2 W3 W4] & Hc). exists s', id. split; [exact E|]. split; [done|].
  split; [by eapply evolves_weaken; [|exact Hev]|]. split; [split; [done|intros i Hi; apply W2; set_solver|done|intros j i Hi; apply W4; set_solver]|]. split; [right; by exists e|].
  intros a Ha. rewrite Hc by done. by rewrite Hval.
Qed.

Lemma normalize_live_spec es s : ok s -> (forall id, id ∈ es -> id < length (edges s)) -> exists s', normalize_live es s = Some s' /\
  ok s' /\ evolves 0 s s' /\ inf_mono s s' /\ (tidy [] s -> forall a, valid a -> total s' a = total s a) /\
  forall i, (forall id, id ∈ es -> ~ incident s id i) -> forall id, incident s' id i <-> incident s id i.
Proof.
  revert s; induction es as [|id es IH]; intros s Hok Hes; cbn [normalize_live].
  { exists s. split; [done|]. split; [done|]. split; [apply evolves_refl|]. by split; [intros i x|]. }
  destruct (lookup_lt_is_Some_2 (edges s) id) as [e He]; [apply Hes; by left|]. rewrite He. cbn [mbind option_bind].
  assert (exists s1, (if e_live e then normalize id s else Some s) = Some s1 /\ ok s1 /\ evolves 0 s s1 /\ inf_mono s s1 /\
    (tidy [] s -> forall a, valid a -> total s1 a = total s a) /\
    forall i, ~ incident s id i -> forall id', incident s1 id' i <-> incident s id' i) as (s1 & -> & Hok1 & Hev1 & Hi1 & Ht1 & Hn1).
  { destruct (e_live e) eqn:Hlive; [|exists s; split; [done|]; split; [done|]; split; [apply evolves_refl|]; by split; [intros i x|]].
    destruct (normalize_spec n dim s id e Hok He Hlive) as (s1 & E & H1 & H2 & [H3 _ _ H5] & H4). exists s1. do 4 (split; [done|]). split.
    - intros HT. destruct (tidy_ends s id e HT He Hlive). by apply H4.
    - intros i Hi id'. apply H5. intros Hin. apply Hi. exists e. set_solver. }
  cbn [mbind option_bind]. destruct (IH s1 Hok1) as (s' & E & Hok' & Hev' & Hi' & Ht' & Hn').
  { intros id' Hid. destruct (lookup_lt_is_Some_2 (edges s) id') as [e' He']; [apply Hes; by right|].
    destruct (ev_edges _ _ _ Hev1 id' e' He') as (e2 & He2 & _). by eapply lookup_lt_Some. }
  exists s'. split; [done|]. split; [done|]. split; [by apply (evolves_trans 0 0 s s1 s')|]. split; [unfold inf_mono in *; eauto|]. split.
  - intros HT a Ha. rewrite Ht' by (auto; by apply (ev_tidy _ _ _ Hev1)). by apply Ht1.
  - intros i Hi id'. assert (~ incident s id i) as Hid by (apply Hi; by left). rewrite Hn'; [by apply Hn1|].
    intros j Hj. rewrite (Hn1 i Hid). apply Hi. by right.
Qed.

Lemma nodes_rest_nonneg s i a : ok s -> i < n -> alive s !! i = Some true -> (0 <= nodes_cost s a - ncost s i (a i))%Z.
Proof.
  intros Hok Hi Ha. pose proof (ok_costs_len n dim s Hok) as Hlen.
  pose proof (set_cost_ok n dim s i (replicate (dim i) 0%Z) Hok (length_replicate _ _) (zeros_nonneg _)) as Hok1.
  pose proof (nodes_cost_nonneg n dim _ a Hok1) as N. rewrite nodes_cost_insert in N by (lia || done). rewrite at_zeros in N. lia.
Qed.

Lemma at_charge_costs c added x : length added = length c -> x < length c -> at_ (charge_costs c added) x = cap (at_ c x + at_ added x).
Proof.
  intros Hlen Hx. apply at_eq. rewrite charge_costs_lookup. rewrite (at_Some c x) by done. cbn [mbind option_bind].
  rewrite (at_Some added x) by lia. by rewrite add_cap.
Qed.

Lemma evolves_push s node : node < n -> ok s -> ok (push_pending node s) /\ evolves 1 s (push_pending node s).
Proof.
  intros Hn Hok. split.
  - split; try apply Hok. intros i [->|Hi]%elem_of_cons; [done|by apply (ok_pending n dim s Hok)].
  - split; try done; [intros id e He; by exists e|unfold potential, count_alive, count_live; cbn; lia|].
    intros Hw i l Hi Hlen Ha. right. by apply (Hw i l).
Qed.

Lemma charge_node_spec s node added : ok s -> node < n -> length added = dim node -> nonneg added -> alive s !! node = Some true ->
  exists s', charge_node node added s = Some s' /\ ok s' /\ evolves 1 s s' /\ inf_mono s s' /\
    (tidy [] s -> charged (fun a => at_ added (a node)) s s') /\
    forall i, (forall id, incident s id node -> ~ incident s id i) -> forall id, incident s' id i <-> incident s id i.
Proof.
  intros Hok Hn Hadded Nadded Ha. pose proof (ok_costs_len n dim s Hok) as Hlen. destruct (ok_cost n dim s node Hok Hn) as (c & Hc & Lc & Nc).
  unfold charge_node. rewrite Hc. cbn [mbind option_bind]. rewrite vset_Some by (rewrite Hlen; done). cbn [mbind option_bind].
  set (c' := charge_costs c added). assert (length c' = dim node) as Lc' by (unfold c'; by rewrite length_charge_costs).
  assert (nonneg c') as Nc' by by apply nonneg_charge.
  pose proof (set_cost_ok n dim s node c' Hok Lc' Nc') as Hok1. pose proof (set_cost_evolves s node c' (or_introl Ha)) as Hev1.
  set (s1 := set_costs _ s) in *. assert (forall x, ncost s node x = at_ c x) as Hnc by (intros x; unfold ncost; by rewrite Hc).
  assert (inf_mono s s1) as Hi1.
  { intros i x Hi. unfold s1. rewrite ncost_insert by lia. destruct (base.decide (i = node)) as [->|]; [|done]. rewrite Hnc in Hi.
    destruct (Nat.lt_ge_cases x (length c)) as [Hx|Hx].
    - unfold c'. rewrite at_charge_costs by lia. pose proof (at_nonneg added x Nadded). unfold cap. lia.
    - unfold at_ in *. rewrite lookup_ge_None_2 in Hi by done. rewrite lookup_ge_None_2 by lia. done. }
  assert (charged (fun a => at_ added (a node)) s s1) as Ht1.
  { intros a Hv. unfold total. change (edges_cost s1 a) with (edges_cost s a). unfold s1. rewrite nodes_cost_insert by (lia || done).
    pose proof (nodes_rest_nonneg s node a Hok Hn Ha). pose proof (edges_cost_nonneg n dim s a Hok). rewrite Hnc in *.
    unfold c'. pose proof (Hv node Hn). rewrite at_charge_costs by lia.
    replace (nodes_cost s a - at_ c (a node) + cap (at_ c (a node) + at_ added (a node)) + edges_cost s a)%Z with
      ((nodes_cost s a - at_ c (a node) + edges_cost s a) + cap (at_ c (a node) + at_ added (a node)))%Z by lia.
    rewrite cap_add_r by lia. f_equal. lia. }
  unfold finite. cbn [s1 set_costs costs]. rewrite list_lookup_insert_eq by lia. cbn [mbind option_bind]. fold s1.
  assert (exists s2, (if length (List.filter is_finite c') <=? 1 then es ← adjacency s1 !! node; normalize_live es s1 else Some s1) = Some s2 /\
    ok s2 /\ evolves 0 s1 s2 /\ inf_mono s1 s2 /\ (tidy [] s1 -> forall a, valid a -> total s2 a = total s1 a) /\
    forall i, (forall id, incident s id node -> ~ incident s id i) -> forall id, incident s2 id i <-> incident s id i) as (s2 & -> & Hok2 & Hev2 & Hi2 & Ht2 & Hn2).
  { destruct (_ <=? 1); [|exists s1; split; [done|]; split; [done|]; split; [apply evolves_refl|]; by split; [intros i x|]].
    destruct (ok_adj n dim s1 node Hok1 Hn) as [l Hl]. rewrite Hl. cbn [mbind option_bind].
    destruct (normalize_live_spec l s1 Hok1) as (s2 & E2 & H1 & H2 & H3 & H4 & H5).
    { intros id Hid. apply (ok_adjacency n dim s1 Hok1 node l id Hl) in Hid as (e & He & _). by eapply lookup_lt_Some. }
    exists s2. do 5 (split; [done|]). intros i Hi. apply H5. intros id Hid. apply (ok_adjacency n dim s1 Hok1 node l id Hl) in Hid. by apply (Hi id). }
  cbn [mbind option_bind]. exists (push_pending node s2). split; [done|]. destruct (evolves_push s2 node Hn Hok2) as [Hok3 Hev3]. split; [done|].
  split; [apply (evolves_trans 0 1 s s2); [by apply (evolves_trans 0 0 s s1 s2)|done]|]. split; [intros i x Hi; by apply Hi2, Hi1|]. split; [|exact Hn2].
  intros HT a Hv. change (total (push_pending node s2) a) with (total s2 a). rewrite Ht2 by (done || by apply (ev_tidy _ _ _ Hev1)). by apply Ht1.
Qed.

End charge.
