(* ===== verification/PbqpReduce.v ===== *)
(** * The optimal reductions of the PBQP solver

    A reduction takes a node out and charges its neighbors with the least cost
    the node can answer with; back-propagation gives it that answer.
    [solves_to] is the contract: an optimum of the smaller graph extends to an
    optimum of the larger. *)
From S2P Require Import Prelude Words Pbqp PbqpSpec PbqpCost.
#[local] Open Scope nat_scope.

Definition other_of (e : Edge) (v : nat) : nat := if e_lhs e =? v then e_rhs e else e_lhs e.

(** The cost of an edge when its end [v] takes [y] and the other takes [x]. *)
Definition eval (e : Edge) (v y x : nat) : Z := if e_lhs e =? v then mval (e_matrix e) y x else mval (e_matrix e) x y.

(** ** The best answer of a node to its fixed neighbors *)
Definition response (s : Solver) (a : nat -> nat) (r : Reduced) (y : nat) : Z :=
  let v := reduced_node r in
  fold_left (fun t id => match edges s !! id with Some e => add t (eval e v y (a (other_of e v))) | None => t end) (reduced_edges r) (ncost s v y).

Definition extend (dim : nat -> nat) (s : Solver) (a : nat -> nat) (r : Reduced) (i : nat) : nat :=
  if i =? reduced_node r then fst (argmin (map (response s a r) (seq 0 (dim (reduced_node r))))) else a i.

Definition propagate (dim : nat -> nat) (s : Solver) (rs : list Reduced) (a : nat -> nat) : nat -> nat := fold_left (extend dim s) rs a.

Definition edge_at (s : Solver) (v y : nat) (a : nat -> nat) (id : nat) : Z :=
  match edges s !! id with Some e => eval e v y (a (other_of e v)) | None => 0%Z end.
Definition star (s : Solver) (a : nat -> nat) (r : Reduced) (y : nat) : Z :=
  (ncost s (reduced_node r) y + zsum (map (edge_at s (reduced_node r) y a) (reduced_edges r)))%Z.

(** Dead nodes and dead edges keep their costs. *)
Record frozen (s s' : Solver) : Prop := {
  fz_nodes : forall i, alive s !! i <> Some true -> alive s' !! i <> Some true /\ costs s' !! i = costs s !! i;
  fz_edges : forall id e, edges s !! id = Some e -> e_live e = false -> edges s' !! id = Some e;
}.

Lemma frozen_refl s : frozen s s.
Proof. by split. Qed.

Lemma frozen_trans s1 s2 s3 : frozen s1 s2 -> frozen s2 s3 -> frozen s1 s3.
Proof.
  intros [N1 E1] [N2 E2]. split; [|eauto]. intros i Hi. destruct (N1 i Hi) as [H1 C1]. destruct (N2 i H1) as [H2 C2]. split; [done|congruence].
Qed.

Lemma evolves_frozen k s s' : tidy [] s -> evolves k s s' -> frozen s s'.
Proof.
  intros HT []. split.
  - intros i Hi. split; [by rewrite ev_alive|]. apply (ev_costs [] i HT); [set_solver|done].
  - intros id e He Hl. destruct (ev_edges id e He) as (e' & He' & _ & _ & Hd). by rewrite <- (Hd Hl).
Qed.

(** The least of [k] capped costs. *)
Definition is_min (f : nat -> Z) (k : nat) (m : Z) : Prop := (exists y, y < k /\ m = cap (f y)) /\ forall y, y < k -> (m <= cap (f y))%Z.

Section reduce.
Context (n : nat) (dim : nat -> nat).
#[local] Notation ok := (ok n dim).
#[local] Notation valid := (valid n dim).
#[local] Notation charged := (charged n dim).

Record solves_to (s s' : Solver) : Prop := {
  st_frozen : frozen s s';
  st_optimum : exists rs, reduced s' = rs ++ reduced s /\ forall F, frozen s' F -> forall a b, valid a -> valid b ->
    (total s' a <= total s' b)%Z -> valid (propagate dim F rs a) /\ (total s (propagate dim F rs a) <= total s b)%Z;
}.

Lemma solves_to_refl s : solves_to s s.
Proof. split; [apply frozen_refl|]. exists []. split; [done|]. intros F _ a b Ha Hb H. done. Qed.

Lemma solves_to_trans s1 s2 s3 : solves_to s1 s2 -> solves_to s2 s3 -> solves_to s1 s3.
Proof.
  intros [F1 (rs1 & E1 & O1)] [F2 (rs2 & E2 & O2)]. split; [by eapply frozen_trans|]. exists (rs2 ++ rs1). split; [by rewrite E2, E1, app_assoc|].
  intros F HF a b Ha Hb Hab. unfold propagate. rewrite fold_left_app. fold (propagate dim F rs2 a). fold (propagate dim F rs1 (propagate dim F rs2 a)).
  destruct (O2 F HF a b Ha Hb Hab) as [Hv H2]. apply (O1 F); [by eapply frozen_trans|done..].
Qed.

(** An operation that keeps [total] and kills no node. *)
Lemma same_total_solves k s s' : tidy [] s -> evolves k s s' -> (forall a, valid a -> total s' a = total s a) -> solves_to s s'.
Proof.
  intros HT Hev Ht. split; [by eapply evolves_frozen|]. exists []. split; [by rewrite (ev_reduced _ _ _ Hev)|]. intros F _ a b Ha Hb H.
  split; [done|]. cbn. by rewrite <- !Ht.
Qed.

(** ** The answer is the best *)
Lemma fold_min_argmin (f : nat -> Z) k : 0 < k -> let y := fst (argmin (map f (seq 0 k))) in y < k /\ forall x, x < k -> (f y <= f x)%Z.
Proof.
  intros Hk. cbn zeta. pose proof (argmin_spec (map f (seq 0 k))) as H. destruct (argmin (map f (seq 0 k))) as [y m]. cbn [fst].
  destruct H as [H1 H2]; [destruct k; [lia|done]|]. rewrite list_lookup_fmap in H1. apply fmap_Some in H1 as (z & Hz & ->).
  apply lookup_seq in Hz as [-> Hy]. split; [done|]. intros x Hx. apply H2. apply list_elem_of_fmap. exists x. split; [done|]. apply elem_of_seq. lia.
Qed.

Lemma eval_nonneg s id e v y x : ok s -> edges s !! id = Some e -> (0 <= eval e v y x)%Z.
Proof. intros Hok He. destruct (ok_edges n dim s Hok id e He) as (_ & _ & _ & Hwf). unfold eval. destruct (_ =? _); by eapply mval_nonneg. Qed.

Lemma edge_at_nonneg s v y a id : ok s -> (0 <= edge_at s v y a id)%Z.
Proof. intros Hok. unfold edge_at. destruct (edges s !! id) as [e|] eqn:He; [by eapply eval_nonneg|lia]. Qed.

Lemma response_fold s a v y ids t : ok s -> (0 <= t)%Z ->
  cap (fold_left (fun t id => match edges s !! id with Some e => add t (eval e v y (a (other_of e v))) | None => t end) ids t) =
  cap (t + zsum (map (edge_at s v y a) ids)).
Proof.
  intros Hok. revert t; induction ids as [|id ids IH]; intros t Ht; cbn [fold_left map]; [f_equal; unfold zsum; cbn; lia|].
  rewrite zsum_cons. unfold edge_at at 1. destruct (edges s !! id) as [e|] eqn:He; [|rewrite IH by done; f_equal; lia].
  pose proof (eval_nonneg s id e v y (a (other_of e v)) Hok He) as H0. rewrite add_cap, IH by (apply cap_nonneg; lia).
  rewrite cap_add_l; [f_equal; lia|]. apply zsum_nonneg. intros j _. by apply edge_at_nonneg.
Qed.

Lemma cap_response s a r y : ok s -> cap (response s a r y) = cap (star s a r y).
Proof. intros Hok. unfold response, star. apply response_fold; [done|by apply ncost_nonneg with n dim]. Qed.

(** The answer attains the least capped cost of the star of the node. *)
Lemma extend_best s a r : ok s -> reduced_node r < n -> extend dim s a r (reduced_node r) < dim (reduced_node r) /\
  forall y, y < dim (reduced_node r) -> (cap (star s a r (extend dim s a r (reduced_node r))) <= cap (star s a r y))%Z.
Proof.
  intros Hok Hr. unfold extend. rewrite Nat.eqb_refl. destruct (fold_min_argmin (response s a r) (dim (reduced_node r))) as [H1 H2].
  { by apply (ok_dims n dim s Hok). }
  split; [done|]. intros y Hy. rewrite <- !cap_response by done. by apply cap_mono, H2.
Qed.

Lemma extend_min s a r m : ok s -> reduced_node r < n -> is_min (star s a r) (dim (reduced_node r)) m ->
  cap (star s a r (extend dim s a r (reduced_node r))) = m.
Proof.
  intros Hok Hr [(y & Hy & ->) Hmin]. destruct (extend_best s a r Hok Hr) as [H1 H2]. specialize (H2 y Hy). specialize (Hmin _ H1). lia.
Qed.

Lemma extend_valid s a r : ok s -> reduced_node r < n -> valid a -> valid (extend dim s a r).
Proof.
  intros Hok Hr Ha i Hi. destruct (extend_best s a r Hok Hr) as [H1 _]. destruct (Nat.eq_dec i (reduced_node r)) as [->|Hne]; [done|].
  unfold extend. rewrite (proj2 (Nat.eqb_neq _ _) Hne). by apply Ha.
Qed.

(** The answer depends on the frozen parts of the state only. *)
Definition same_edge (s s' : Solver) (id : nat) : Prop :=
  edges s' !! id = edges s !! id \/ exists e, edges s !! id = Some e /\ edges s' !! id = Some (dead e).

Lemma response_frozen s s' a r y : costs s' !! reduced_node r = costs s !! reduced_node r ->
  (forall id, id ∈ reduced_edges r -> same_edge s s' id) -> response s' a r y = response s a r y.
Proof.
  intros Hc He. unfold response, ncost. rewrite Hc. generalize (at_ (default [] (costs s !! reduced_node r)) y). revert He.
  induction (reduced_edges r) as [|id ids IH]; intros He t; cbn [fold_left]; [done|].
  destruct (He id) as [->|(e & -> & ->)]; [by left| |]; apply IH; intros j Hj; apply He; by right.
Qed.

Lemma extend_frozen s s' a r i : costs s' !! reduced_node r = costs s !! reduced_node r ->
  (forall id, id ∈ reduced_edges r -> same_edge s s' id) -> extend dim s' a r i = extend dim s a r i.
Proof.
  intros Hc He. unfold extend. destruct (i =? reduced_node r); [|done]. do 2 f_equal. apply map_ext. intros y. by apply response_frozen.
Qed.

(** ** Taking a node out *)
Definition watched_but (v : nat) (s : Solver) : Prop :=
  forall i l, i <> v -> adjacency s !! i = Some l -> length l <= 2 -> alive s !! i = Some true -> i ∈ pending s.

Record detached (v : nat) (ids : list nat) (s s' : Solver) : Prop := {
  de_ok : ok s';
  de_alive : alive s' = <[v := false]> (alive s);
  de_costs : costs s' = costs s;
  de_reduced : reduced s' = reduced s;
  de_choices : choices s' = choices s;
  de_edges : forall id e, edges s !! id = Some e -> edges s' !! id = Some (if base.decide (id ∈ ids) then dead e else e);
  de_edges_len : length (edges s') = length (edges s);
  de_potential : (potential s' <= potential s - 5)%Z;
  de_watched : watched_but v s -> watched s';
  de_tidy : tidy [] s -> tidy [v] s';
  de_cost : forall a, (nodes_cost s a + edges_cost s a)%Z =
    (nodes_cost s' a + edges_cost s' a + (ncost s v (a v) + zsum (map (edge_at s v (a v) a) ids)))%Z;
}.

Lemma ecost_eval a e v : e_lhs e = v \/ e_rhs e = v -> e_lhs e <> e_rhs e -> ecost a e = eval e v (a v) (a (other_of e v)).
Proof.
  unfold ecost, eval, other_of. destruct (Nat.eqb_spec (e_lhs e) v) as [->|Hne]; [done|]. intros [|<-] _; [done|]. done.
Qed.

Lemma kill_spec s v : ok s -> v < n -> alive s !! v = Some true -> exists s', kill v s = Some s' /\ detached v [] s s'.
Proof.
  intros Hok Hv Ha. pose proof (ok_alive_len n dim s Hok) as Hlen. unfold kill. rewrite vset_Some by lia. cbn [mbind option_bind].
  eexists. split; [done|]. split; try done.
  - split; try apply Hok. cbn. rewrite length_insert. apply Hok.
  - unfold potential, count_alive, count_live. cbn. rewrite (zsum_insert _ _ _ true) by done. lia.
  - intros Hw i l Hi Hl. cbn. intros [(-> & Hf & _)|[Hne Hal]]%list_lookup_insert_Some; [done|]. by apply (Hw i l); auto.
  - intros HT id i Hi. destruct (base.decide (i = v)) as [->|Hne]; [right; set_solver|]. left. cbn. rewrite list_lookup_insert_ne by done.
    destruct (HT id i Hi); [done|set_solver].
  - intros a. change (zsum (map (edge_at s v (a v) a) [])) with 0%Z. unfold edges_cost. cbn [set_alive edges].
    unfold nodes_cost. cbn [set_alive costs]. set (s' := set_alive _ _).
    rewrite (zsum_seq_change (node_part s a) (node_part s' a) 0 _ v).
    + unfold node_part, is_alive. cbn [s' set_alive alive]. rewrite list_lookup_insert_eq by lia. rewrite Ha. cbn [default]. unfold ncost. cbn. lia.
    + rewrite (ok_costs_len n dim s Hok). lia.
    + intros j Hj. unfold node_part, is_alive. cbn [s' set_alive alive]. by rewrite list_lookup_insert_ne.
Qed.

Lemma detach_unlink s s1 v ids id e : ok s -> detached v ids s s1 -> edges s !! id = Some e -> e_live e = true ->
  (e_lhs e = v \/ e_rhs e = v) -> id ∉ ids -> exists s2, unlink id s1 = Some s2 /\ detached v (ids ++ [id]) s s2.
Proof.
  intros Hok [Dok Da Dc Dr Dh De Dl Dp Dw Dt Dcost] He Hlive Hend Hnot. assert (edges s1 !! id = Some e) as He1.
  { rewrite (De id e He). destruct (base.decide (id ∈ ids)); done. }
  destruct (unlink_spec n dim s1 id e Dok He1 Hlive) as (s2 & E & Hok2 & Hev & Hc2 & He2). exists s2. split; [done|].
  split; rewrite ?(ev_alive _ _ _ Hev), ?(ev_reduced _ _ _ Hev), ?(ev_choices _ _ _ Hev), ?Hc2; try done.
  - intros id' e' He'. rewrite He2. destruct (Nat.eq_dec id' id) as [->|Hne].
    + rewrite list_lookup_insert_eq by by eapply lookup_lt_Some. assert (e' = e) as -> by congruence. rewrite decide_True by set_solver. done.
    + rewrite list_lookup_insert_ne by done. rewrite (De id' e' He'). destruct (base.decide (id' ∈ ids)); destruct (base.decide (id' ∈ ids ++ [id])); set_solver.
  - by rewrite He2, length_insert.
  - pose proof (ev_potential _ _ _ Hev). lia.
  - intros Hw. by apply (ev_watched _ _ _ Hev), Dw.
  - intros HT. by apply (ev_tidy _ _ _ Hev), Dt.
  - intros a. rewrite Dcost, map_app, zsum_app. cbn [map]. rewrite zsum_cons. change (zsum []) with 0%Z.
    unfold edge_at at 3. rewrite He. rewrite (edges_cost_dead s1 s2 id e a He1 Hlive He2), (nodes_cost_same s1 s2 a Hc2 (ev_alive _ _ _ Hev)).
    destruct (ok_edges n dim s Hok id e He) as (_ & _ & Hne & _). rewrite (ecost_eval a e v Hend Hne). lia.
Qed.

(** All its edges gone, the node is isolated. *)
Lemma detached_tidy s s' v l : ok s -> v < n -> alive s !! v = Some true -> tidy [] s -> adjacency s !! v = Some l -> detached v l s s' -> tidy [] s'.
Proof.
  intros Hok Hv Ha HT Hl [Dok Da Dc Dr Dh De Dl Dp Dw Dt Dcost] id i Hi. destruct (Dt HT id i Hi) as [H| ->%list_elem_of_singleton]; [by left|]. exfalso.
  destruct Hi as (e' & He' & Hlive & Hends). destruct (lookup_lt_is_Some_2 (edges s) id) as [e He]; [rewrite <- Dl; by eapply lookup_lt_Some|].
  pose proof (De id e He) as He2. assert (id ∉ l) as Hnot by (intros Hin; rewrite decide_True in He2 by done; simplify_eq; done).
  rewrite decide_False in He2 by done. simplify_eq. apply Hnot. apply (ok_adjacency n dim s Hok v l id Hl). by exists e'.
Qed.

Lemma isolated_costs s v a a' : ok s -> tidy [] s -> alive s !! v <> Some true -> (forall i, i <> v -> a i = a' i) ->
  nodes_cost s a = nodes_cost s a' /\ edges_cost s a = edges_cost s a'.
Proof.
  intros Hok HT Hv Haa. split; apply zsum_ext.
  - intros i _. unfold node_part. destruct (is_alive s i) eqn:Hi; [|done]. apply is_alive_spec in Hi. rewrite Haa; [done|]. by intros ->.
  - intros e [id He]%list_elem_of_lookup. unfold edge_part. destruct (e_live e) eqn:Hlive; [|done]. destruct (tidy_ends s id e HT He Hlive).
    unfold ecost. rewrite !Haa; [done|by intros <-|by intros <-].
Qed.

Lemma star_ext s a a' r y : ok s -> (forall id e, id ∈ reduced_edges r -> edges s !! id = Some e -> other_of e (reduced_node r) <> reduced_node r) ->
  (forall i, i <> reduced_node r -> a i = a' i) -> star s a r y = star s a' r y.
Proof.
  intros Hok Ho Haa. unfold star. f_equal. apply zsum_ext. intros id Hid. unfold edge_at. destruct (edges s !! id) as [e|] eqn:He; [|done].
  by rewrite Haa by by apply (Ho id e).
Qed.

Lemma other_ne s id e v : ok s -> edges s !! id = Some e -> e_lhs e = v \/ e_rhs e = v -> other_of e v <> v /\ other_of e v < n.
Proof. intros Hok He Hend. destruct (ok_edges n dim s Hok id e He) as (? & ? & ? & _). unfold other_of. destruct (Nat.eqb_spec (e_lhs e) v); split; naive_solver. Qed.

Section detached.
Context (s s2 s' : Solver) (v k : nat) (l : list nat) (r : Reduced).
Context (Hok : ok s) (HT : tidy [] s) (Hv : v < n) (Ha : alive s !! v = Some true) (Hl : adjacency s !! v = Some l).
Context (HD : detached v l s s2) (Hrv : reduced_node r = v) (Hrl : reduced_edges r = l).
Context (Hev : evolves (Z.of_nat k) (set_reduced (r :: reduced s2) s2) s').

Lemma star_edges id : id ∈ l -> exists e, edges s !! id = Some e /\ e_live e = true /\ (e_lhs e = v \/ e_rhs e = v).
Proof. intros Hid. by apply (ok_adjacency n dim s Hok v l id Hl). Qed.

Lemma detached_tidy2 : tidy [] s2.
Proof. by eapply detached_tidy. Qed.

Lemma detached_dead : alive s2 !! v <> Some true.
Proof. rewrite (de_alive _ _ _ _ HD), list_lookup_insert_eq by (rewrite (ok_alive_len n dim s Hok); done). done. Qed.

Lemma detached_frozen : frozen s s'.
Proof.
  apply frozen_trans with (set_reduced (r :: reduced s2) s2); [|eapply evolves_frozen; [|exact Hev]; exact detached_tidy2]. split.
  - intros i Hi. cbn. rewrite (de_costs _ _ _ _ HD). split; [|done]. rewrite (de_alive _ _ _ _ HD). intros [[_ ?]|[_ ?]]%list_lookup_insert_Some; naive_solver.
  - intros id e He Hdead. cbn. rewrite (de_edges _ _ _ _ HD id e He). destruct (base.decide (id ∈ l)); [|done]. f_equal. destruct e. cbn in *. by subst.
Qed.

Lemma extend_later F a i : frozen s' F -> extend dim F a r i = extend dim s a r i.
Proof.
  intros HF. assert (frozen s2 F) as H2F.
  { apply frozen_trans with s'; [|done]. apply frozen_trans with (set_reduced (r :: reduced s2) s2); [by split|]. exact (evolves_frozen _ (set_reduced (r :: reduced s2) s2) _ detached_tidy2 Hev). }
  apply extend_frozen.
  - rewrite Hrv. destruct (fz_nodes _ _ H2F v detached_dead) as [_ ->]. by rewrite (de_costs _ _ _ _ HD).
  - rewrite Hrl. intros id Hid. destruct (star_edges id Hid) as (e & He & _). right. exists e. split; [done|]. apply (fz_edges _ _ H2F); [|done].
    rewrite (de_edges _ _ _ _ HD id e He). by rewrite decide_True.
Qed.

Lemma total_star a : total s a = cap (nodes_cost s2 a + edges_cost s2 a + star s a r (a v)).
Proof. unfold total, star. rewrite (de_cost _ _ _ _ HD a), Hrv, Hrl. done. Qed.

(** Charging the neighbors with the least cost [mu] of the star keeps the optimum. *)
Lemma detached_solves (mu : (nat -> nat) -> Z) : (forall a, valid a -> is_min (star s a r) (dim v) (mu a)) ->
  (forall a b, valid a -> valid b -> (total s' a <= total s' b)%Z ->
    (cap (nodes_cost s2 a + edges_cost s2 a + mu a) <= cap (nodes_cost s2 b + edges_cost s2 b + mu b))%Z) -> solves_to s s'.
Proof.
  intros Hmin Hle. split; [exact detached_frozen|]. exists [r]. split; [by rewrite (ev_reduced _ _ _ Hev); cbn; rewrite (de_reduced _ _ _ _ HD)|].
  intros F HF a b Hva Hvb Hab. cbn [propagate fold_left]. set (a' := extend dim F a r).
  assert (forall i, a' i = extend dim s a r i) as Ea by (intros i; by apply extend_later).
  assert (reduced_node r < n) as Hr by by rewrite Hrv.
  assert (valid a') as Hva' by (intros i Hi; rewrite Ea; by apply extend_valid). split; [done|].
  assert (forall i, i <> v -> a' i = a i) as Haa.
  { intros i Hi. rewrite Ea. unfold extend. rewrite Hrv. by rewrite (proj2 (Nat.eqb_neq _ _) Hi). }
  destruct (isolated_costs s2 v a' a (de_ok _ _ _ _ HD) detached_tidy2 detached_dead Haa) as [N2 E2].
  assert (forall y, star s a' r y = star s a r y) as Es.
  { intros y. apply star_ext; [done| |by rewrite Hrv]. rewrite Hrv, Hrl. intros id e Hid He. destruct (star_edges id Hid) as (e' & He' & _ & Hend).
    assert (e' = e) as -> by congruence. by apply (other_ne s id e v Hok He Hend). }
  specialize (Hle a b Hva Hvb Hab). rewrite !total_star, N2, E2, Es. pose proof (Hmin a Hva) as Ma. pose proof (Hmin b Hvb) as [_ Mb].
  assert (cap (star s a r (a' v)) = mu a) as Eu by (rewrite Ea; rewrite <- Hrv at 1; apply extend_min; [done|done|by rewrite Hrv]).
  specialize (Mb (b v) (Hvb v Hv)).
  assert (forall c, (0 <= nodes_cost s2 c + edges_cost s2 c)%Z) as Hpos.
  { intros c. pose proof (nodes_cost_nonneg n dim s2 c (de_ok _ _ _ _ HD)). pose proof (edges_cost_nonneg n dim s2 c (de_ok _ _ _ _ HD)). lia. }
  rewrite <- (cap_add_r _ (star s a r (a' v))), Eu by done. etransitivity; [exact Hle|].
  rewrite <- (cap_add_r _ (star s b r (b v))) by done. apply cap_mono. lia.
Qed.

End detached.

End reduce.

(** ** R0, R1, R2 and the reduction loop

    Each reduction is total on a state with the invariant, lowers [potential]
    and is a [solves_to] step; the loop ends with its fuel. *)
Lemma min_sum_is_min lhs rhs k f : 0 < k -> length lhs = k -> length rhs = k ->
  (forall y, y < k -> cap (at_ lhs y + at_ rhs y) = cap (f y)) -> is_min f k (min_sum lhs rhs).
Proof.
  intros Hk Ll Lr Hf. destruct (min_sum_spec k lhs rhs Hk Ll Lr) as [(i & x & y & Hx & Hy & E) Hle]. split.
  - exists i. assert (i < k) as Hi by (apply lookup_lt_Some in Hx; lia). split; [done|]. rewrite <- Hf by done. by rewrite (at_eq _ _ _ Hx), (at_eq _ _ _ Hy).
  - intros i' Hi'. rewrite <- Hf by done. apply (Hle i'); apply at_Some; lia.
Qed.

Lemma is_min_ext f g k m : (forall y, y < k -> cap (f y) = cap (g y)) -> is_min f k m -> is_min g k m.
Proof. intros H [(y & Hy & ->) Hmin]. split; [exists y; auto|]. intros z Hz. rewrite <- H by done. auto. Qed.

Lemma is_min_nonneg f k m : (forall y, y < k -> (0 <= f y)%Z) -> is_min f k m -> (0 <= m)%Z.
Proof. intros H [(y & Hy & ->) _]. by apply cap_nonneg, H. Qed.

Lemma is_min_cap f k m : is_min f k m -> cap m = m.
Proof. intros [(y & _ & ->) _]. unfold cap. lia. Qed.

Lemma at_map_seq (f : nat -> Z) k i : i < k -> at_ (map f (seq 0 k)) i = f i.
Proof. intros Hi. apply at_eq. rewrite list_lookup_fmap, lookup_seq_lt by done. done. Qed.

Lemma edge_key_other e v : e_lhs e = v \/ e_rhs e = v -> edge_key e = pair_key v (other_of e v).
Proof. intros Hend. unfold edge_key, other_of. apply pair_key_eq. destruct (Nat.eqb_spec (e_lhs e) v); naive_solver. Qed.

Section steps.
Context (n : nat) (dim : nat -> nat).
#[local] Notation ok := (ok n dim).
#[local] Notation valid := (valid n dim).
#[local] Notation solves_to := (solves_to n dim).

(** The matrix of an edge with the other end's alternatives as rows. *)
Lemma laid_out_spec s id e v : ok s -> edges s !! id = Some e -> e_lhs e = v \/ e_rhs e = v ->
  exists m, laid_out s id (other_of e v) = Some (cells m) /\ wfm (dim (other_of e v)) (dim v) m /\
    forall x y, x < dim (other_of e v) -> y < dim v -> mval m x y = eval e v y x.
Proof.
  intros Hok He Hend. destruct (ok_edges n dim s Hok id e He) as (_ & _ & Hne & Hwf). unfold laid_out, other_of, eval. rewrite He. cbn [mbind option_bind].
  destruct (Nat.eqb_spec (e_lhs e) v) as [Hl|Hl].
  - rewrite Hl in *. rewrite (proj2 (Nat.eqb_neq v (e_rhs e))) by done. destruct (transposed_spec _ _ _ Hwf) as (t & -> & Ht & Hv). exists t. split; [done|]. split; [done|].
    intros x y Hx Hy. by apply Hv.
  - destruct Hend as [|<-]; [done|]. rewrite Nat.eqb_refl. by exists (e_matrix e).
Qed.

Lemma other_spec s id e v : edges s !! id = Some e -> other s id v = Some (other_of e v).
Proof. intros He. unfold other. by rewrite He. Qed.

(** What a reduction of [v] achieves. *)
Record reduces (v : nat) (s s' : Solver) : Prop := {
  rd_ok : ok s';
  rd_tidy : tidy [] s';
  rd_watched : watched_but v s -> watched s';
  rd_potential : (potential s' <= potential s - 3)%Z;
  rd_alive : alive s' = <[v := false]> (alive s);
  rd_choices : choices s' = choices s;
  rd_solves : solves_to s s';
}.

Definition push_reduced (r : Reduced) (s : Solver) : Solver := set_reduced (r :: reduced s) s.

Lemma push_reduced_ok s s2 r v l : ok s -> v < n -> adjacency s !! v = Some l -> detached n dim v l s s2 -> reduced_node r = v -> reduced_edges r = l ->
  ok (push_reduced r s2).
Proof.
  intros Hok Hv Hl HD Hrv Hrl. pose proof (de_ok _ _ _ _ _ _ HD) as Hok2. split; try apply Hok2. intros r' [->|Hr']%elem_of_cons; [|by apply (ok_reduced n dim s2 Hok2)].
  rewrite Hrv, Hrl. split; [done|]. intros id Hid. destruct (proj1 (ok_adjacency n dim s Hok v l id Hl) Hid) as (e & He & _ & Hend).
  exists (dead e). split; [|done]. cbn. rewrite (de_edges _ _ _ _ _ _ HD id e He). by rewrite decide_True.
Qed.

(** The common end of the three reductions. *)
Lemma reduces_intro s s2 s' r v l k mu : ok s -> tidy [] s -> v < n -> alive s !! v = Some true -> adjacency s !! v = Some l ->
  detached n dim v l s s2 -> reduced_node r = v -> reduced_edges r = l -> k <= 2 -> ok s' -> evolves (Z.of_nat k) (push_reduced r s2) s' ->
  (forall a, valid a -> is_min (star s a r) (dim v) (mu a)) ->
  (forall a b, valid a -> valid b -> (total s' a <= total s' b)%Z ->
    (cap (nodes_cost s2 a + edges_cost s2 a + mu a) <= cap (nodes_cost s2 b + edges_cost s2 b + mu b))%Z) -> reduces v s s'.
Proof.
  intros Hok HT Hv Ha Hl HD Hrv Hrl Hk Hok' Hev Hmin Hle. pose proof (detached_tidy n dim s s2 v l Hok Hv Ha HT Hl HD) as HT2. split.
  - done.
  - by apply (ev_tidy _ _ _ Hev).
  - intros Hw. apply (ev_watched _ _ _ Hev). by apply (de_watched _ _ _ _ _ _ HD).
  - pose proof (de_potential _ _ _ _ _ _ HD). pose proof (ev_potential _ _ _ Hev) as Hp. change (potential (push_reduced r s2)) with (potential s2) in Hp. lia.
  - rewrite (ev_alive _ _ _ Hev). apply (de_alive _ _ _ _ _ _ HD).
  - rewrite (ev_choices _ _ _ Hev). apply (de_choices _ _ _ _ _ _ HD).
  - by apply (detached_solves n dim s s2 s' v k l r Hok HT Hv Ha Hl HD Hrv Hrl Hev mu).
Qed.

(** ** R0 *)
Lemma reduce_zero_spec s v : ok s -> tidy [] s -> v < n -> alive s !! v = Some true -> adjacency s !! v = Some [] ->
  exists s', reduce_zero v s = Some s' /\ reduces v s s'.
Proof.
  intros Hok HT Hv Ha Hl. destruct (kill_spec n dim s v Hok Hv Ha) as (s1 & E & HD). unfold reduce_zero. rewrite E. cbn [mbind option_bind].
  eexists. split; [done|]. pose proof (push_reduced_ok s s1 (R0 v) v [] Hok Hv Hl HD eq_refl eq_refl) as Hok'.
  set (c := map (response s (fun _ => 0) (R0 v)) (seq 0 (dim v))).
  set (y := fst (argmin c)). destruct (fold_min_argmin (response s (fun _ => 0) (R0 v)) (dim v)) as [Hy Hle]; [by apply (ok_dims n dim s Hok)|].
  apply (reduces_intro s s1 _ (R0 v) v [] 0 (fun _ => cap (response s (fun _ => 0) (R0 v) y))); try done; [lia|apply evolves_refl| |].
  - intros a _. assert (forall x, star s a (R0 v) x = response s (fun _ => 0) (R0 v) x) as Es.
    { intros x. unfold star, response. cbn. unfold zsum. cbn. lia. }
    split; [exists y; by rewrite Es|]. intros x Hx. rewrite Es. by apply cap_mono, Hle.
  - intros a b _ _ H. unfold total in H. change (nodes_cost (set_reduced _ s1)) with (nodes_cost s1) in H. change (edges_cost (set_reduced _ s1)) with (edges_cost s1) in H.
    pose proof (ncost_nonneg n dim s v y Hok : (0 <= response s (fun _ => 0%nat) (R0 v) y)%Z). pose proof INF_pos. unfold cap in *. lia.
Qed.

(** ** R1 *)
Lemma reduce_one_spec s v id : ok s -> tidy [] s -> v < n -> alive s !! v = Some true -> adjacency s !! v = Some [id] ->
  exists s', reduce_one v s = Some s' /\ reduces v s s'.
Proof.
  intros Hok HT Hv Ha Hl. destruct (proj1 (ok_adjacency n dim s Hok v [id] id Hl) ltac:(by left)) as (e & He & Hlive & Hend).
  destruct (other_ne n dim s id e v Hok He Hend) as [Hune Hu]. set (u := other_of e v) in *. destruct (ok_cost n dim s v Hok Hv) as (c & Hc & Lc & Nc).
  destruct (laid_out_spec s id e v Hok He Hend) as (m & Em & Hm & Hmv). fold u in Em, Hm, Hmv. pose proof (ok_dims n dim s Hok v Hv) as Hd.
  unfold reduce_one. rewrite Hl. cbn [mbind option_bind lookup list_lookup]. rewrite (other_spec s id e v He). fold u. cbn [mbind option_bind].
  rewrite Hc. cbn [mbind option_bind]. rewrite Em. cbn [mbind option_bind]. rewrite Lc, (chunks_spec _ _ m Hm Hd). cbn [mbind option_bind]. cbn zeta.
  rewrite map_map. set (delta := map _ (seq 0 (dim u))).
  destruct (kill_spec n dim s v Hok Hv Ha) as (s1 & -> & HD1). cbn [mbind option_bind].
  destruct (detach_unlink n dim s s1 v [] id e Hok HD1 He Hlive Hend) as (s2 & -> & HD2); [set_solver|]. cbn [mbind option_bind app] in *.
  assert (forall x, x < dim u -> is_min (fun y => ncost s v y + eval e v y x)%Z (dim v) (at_ delta x)) as Hdelta.
  { intros x Hx. unfold delta. rewrite at_map_seq by done. apply min_sum_is_min; [done|done|by apply (chunk_length (dim u))|].
    intros y Hy. unfold ncost. rewrite Hc. cbn. f_equal. f_equal. rewrite <- Hmv by done. apply at_eq. by apply (chunk_lookup (dim u)). }
  assert (forall a, valid a -> is_min (star s a (R1 v id)) (dim v) (at_ delta (a u))) as Hmin.
  { intros a Hva. eapply is_min_ext; [|apply Hdelta, Hva, Hu]. intros y Hy. unfold star. cbn. unfold edge_at, zsum. rewrite He. cbn. f_equal. unfold u. lia. }
  pose proof (push_reduced_ok s s2 (R1 v id) v [id] Hok Hv Hl HD2 eq_refl eq_refl) as Hok3. pose proof (detached_tidy n dim s s2 v [id] Hok Hv Ha HT Hl HD2) as HT2.
  destruct (charge_node_spec n dim (push_reduced (R1 v id) s2) u delta Hok3 Hu) as (s' & E & Hok' & Hev & _ & Hch & _).
  - unfold delta. by rewrite length_map, length_seq.
  - apply list.Forall_lookup. intros x z Hz. pose proof (lookup_lt_Some _ _ _ Hz) as Hx. unfold delta in Hx. rewrite length_map, length_seq in Hx.
    rewrite <- (at_eq _ _ _ Hz). eapply is_min_nonneg; [|by apply Hdelta]. intros y _. pose proof (ncost_nonneg n dim s v y Hok). pose proof (eval_nonneg n dim s id e v y x Hok He). lia.
  - cbn. rewrite (de_alive _ _ _ _ _ _ HD2), list_lookup_insert_ne by done. destruct (HT id u) as [H|H]; [|done|set_solver].
    exists e. split; [done|]. split; [done|]. unfold u, other_of. destruct (_ =? _); auto.
  - exists s'. split; [exact E|]. apply (reduces_intro s s2 s' (R1 v id) v [id] 1 (fun a => at_ delta (a u))); try done; [lia|].
    intros a b Hva Hvb H. specialize (Hch HT2). by rewrite (Hch a Hva), (Hch b Hvb) in H.
Qed.

(** ** R2 *)
Lemma elem_of_grid {A B} (l : list A) (k : list B) i x j y : ((i, x), (j, y)) ∈ list_prod (imap pair l) (imap pair k) <-> l !! i = Some x /\ k !! j = Some y.
Proof.
  rewrite list_elem_of_In, in_prod_iff, <- !list_elem_of_In, !elem_of_lookup_imap. naive_solver.
Qed.

(** The table of the least costs through the node, one alternative of each
    neighbor fixed. *)
Definition through_table (U1 U2 : nat) (L R : list (list Z)) : option Matrix :=
  fold_left (fun m '((l, tl), (r, tr)) => m ← m; set m l r (min_sum tl tr)) (list_prod (imap pair L) (imap pair R)) (Some (zero U1 U2)).

Lemma through_table_spec U1 U2 L R : length L = U1 -> length R = U2 ->
  (forall tl tr, tl ∈ L -> tr ∈ R -> (0 <= min_sum tl tr)%Z) ->
  exists m, through_table U1 U2 L R = Some m /\ wfm U1 U2 m /\
    forall l r tl tr, L !! l = Some tl -> R !! r = Some tr -> mval m l r = min_sum tl tr.
Proof.
  intros HL HR Hnn. destruct (zero_spec U1 U2) as [Hz _].
  destruct (set_loop U1 U2 (fun x : (nat * list Z) * (nat * list Z) => fst (fst x)) (fun x => fst (snd x))
    (fun x => Some (min_sum (snd (fst x)) (snd (snd x)))) (fun x => min_sum (snd (fst x)) (snd (snd x)))
    (list_prod (imap pair L) (imap pair R)) (zero U1 U2) Hz) as (m & E & Hm & Hval).
  - intros [[l tl] [r tr]] [Hl Hr]%elem_of_grid. cbn [fst snd]. split; [done|]. split; [rewrite <- HL; by eapply lookup_lt_Some|].
    split; [rewrite <- HR; by eapply lookup_lt_Some|]. apply Hnn; by eapply list_elem_of_lookup_2.
  - exists m. split; [rewrite <- E; apply fold_left_eq; by intros ? [[l tl] [r tr]]|]. split; [done|]. intros l r tl tr Hl Hr.
    assert (r < U2) as HrU by (rewrite <- HR; by eapply lookup_lt_Some).
    destruct (Hval l r HrU) as [([[l' tl'] [r' tr']] & Hin & El & Er & ->)|[Hno _]].
    + cbn [fst snd] in *. subst. apply elem_of_grid in Hin as [Hl' Hr']. by simplify_eq.
    + exfalso. apply (Hno ((l, tl), (r, tr))); [by apply elem_of_grid|done].
Qed.

Lemma reduce_two_delta s v e1 e2 f g : ok s -> v < n -> edges s !! f = Some e1 -> edges s !! g = Some e2 ->
  (e_lhs e1 = v \/ e_rhs e1 = v) -> (e_lhs e2 = v \/ e_rhs e2 = v) ->
  exists o1 o2 c c1 c2 d, laid_out s f (other_of e1 v) = Some o1 /\ laid_out s g (other_of e2 v) = Some o2 /\
    costs s !! v = Some c /\ chunks (length c) o1 = Some c1 /\ chunks (length c) o2 = Some c2 /\
    through_table (dim (other_of e1 v)) (dim (other_of e2 v)) (map (fun x => zip_with add x c) c1) c2 = Some d /\
    wfm (dim (other_of e1 v)) (dim (other_of e2 v)) d /\
    forall x1 x2, x1 < dim (other_of e1 v) -> x2 < dim (other_of e2 v) ->
      is_min (fun y => ncost s v y + eval e1 v y x1 + eval e2 v y x2)%Z (dim v) (mval d x1 x2).
Proof.
  intros Hok Hv He1 He2 Hend1 Hend2. pose proof (ok_dims n dim s Hok v Hv) as Hd.
  destruct (ok_cost n dim s v Hok Hv) as (c & Hc & Lc & Nc).
  destruct (laid_out_spec s f e1 v Hok He1 Hend1) as (m1 & Em1 & Hm1 & Hv1). destruct (laid_out_spec s g e2 v Hok He2 Hend2) as (m2 & Em2 & Hm2 & Hv2).
  set (u1 := other_of e1 v) in *. set (u2 := other_of e2 v) in *.
  set (c1 := map (fun r => take (dim v) (drop (r * dim v) (cells m1))) (seq 0 (dim u1))).
  set (c2 := map (fun r => take (dim v) (drop (r * dim v) (cells m2))) (seq 0 (dim u2))).
  assert (forall x1 x2, x1 < dim u1 -> x2 < dim u2 -> is_min (fun y => ncost s v y + eval e1 v y x1 + eval e2 v y x2)%Z (dim v)
    (min_sum (zip_with add (take (dim v) (drop (x1 * dim v) (cells m1))) c) (take (dim v) (drop (x2 * dim v) (cells m2))))) as Hmin.
  { intros x1 x2 H1 H2. pose proof (chunk_length _ _ m1 x1 Hm1 H1) as L1. pose proof (chunk_length _ _ m2 x2 Hm2 H2) as L2.
    apply min_sum_is_min; [done|rewrite length_zip_with, L1; lia|done|]. intros y Hy.
    rewrite (at_eq _ y (add (mval m1 x1 y) (at_ c y))) by (rewrite lookup_zip_with, (chunk_lookup (dim u1)), (at_Some c y) by (done || lia); done).
    rewrite (at_eq (take (dim v) (drop (x2 * dim v) (cells m2))) y (mval m2 x2 y)) by by apply (chunk_lookup (dim u2)). unfold ncost. rewrite Hc. cbn [default]. rewrite add_cap, Hv1, Hv2 by done.
    rewrite cap_add_l by by eapply eval_nonneg. f_equal. unfold id. lia. }
  assert (forall x1 x2, x1 < dim u1 -> x2 < dim u2 ->
    (0 <= min_sum (zip_with add (take (dim v) (drop (x1 * dim v) (cells m1))) c) (take (dim v) (drop (x2 * dim v) (cells m2))))%Z) as Hnn.
  { intros x1 x2 H1 H2. eapply is_min_nonneg; [|by apply Hmin]. intros y _. pose proof (ncost_nonneg n dim s v y Hok).
    pose proof (eval_nonneg n dim s f e1 v y x1 Hok He1). pose proof (eval_nonneg n dim s g e2 v y x2 Hok He2). lia. }
  destruct (through_table_spec (dim u1) (dim u2) (map (fun x => zip_with add x c) c1) c2) as (d & Ed & Hdw & Hdv).
  { unfold c1. by rewrite !length_map, length_seq. } { unfold c2. by rewrite length_map, length_seq. }
  { unfold c1, c2. intros tl tr. rewrite map_map. intros (x1 & -> & H1)%list_elem_of_fmap (x2 & -> & H2)%list_elem_of_fmap. apply Hnn; [apply elem_of_seq in H1; lia|apply elem_of_seq in H2; lia]. }
  exists (cells m1), (cells m2), c, c1, c2, d. do 3 (split; [done|]). rewrite Lc, (chunks_spec _ _ m1 Hm1 Hd), (chunks_spec _ _ m2 Hm2 Hd). do 4 (split; [done|]). intros x1 x2 H1 H2. rewrite (Hdv x1 x2 (zip_with add (take (dim v) (drop (x1 * dim v) (cells m1))) c) (take (dim v) (drop (x2 * dim v) (cells m2)))).
  - by apply Hmin.
  - unfold c1. rewrite map_map, list_lookup_fmap, lookup_seq_lt by done. done.
  - unfold c2. rewrite list_lookup_fmap, lookup_seq_lt by done. done.
Qed.

Lemma reduce_two_spec s v f g : ok s -> tidy [] s -> v < n -> alive s !! v = Some true -> adjacency s !! v = Some [f; g] ->
  exists s', reduce_two v s = Some s' /\ reduces v s s'.
Proof.
  intros Hok HT Hv Ha Hl. destruct (proj1 (ok_adjacency n dim s Hok v _ f Hl) ltac:(by left)) as (e1 & He1 & Hlive1 & Hend1).
  destruct (proj1 (ok_adjacency n dim s Hok v _ g Hl) ltac:(by right; left)) as (e2 & He2 & Hlive2 & Hend2).
  pose proof (ok_nodup n dim s Hok v _ Hl) as Hnd. assert (f <> g) as Hfg by (intros ->; apply list.NoDup_cons in Hnd as [Hn _]; set_solver).
  destruct (other_ne n dim s f e1 v Hok He1 Hend1) as [Hune1 Hu1]. destruct (other_ne n dim s g e2 v Hok He2 Hend2) as [Hune2 Hu2].
  destruct (reduce_two_delta s v e1 e2 f g Hok Hv He1 He2 Hend1 Hend2) as (o1 & o2 & c & c1 & c2 & d & Eo1 & Eo2 & Ec & Ec1 & Ec2 & Ed & Hd & Hmin).
  assert (other_of e1 v <> other_of e2 v) as Hne.
  { intros E. apply Hfg. eapply (same_key n dim s f g e1 e2); eauto. rewrite !(edge_key_other _ v), E by done. done. }
  set (u1 := other_of e1 v) in *. set (u2 := other_of e2 v) in *. destruct (ok_cost n dim s u1 Hok Hu1) as (k1 & Hk1 & Lk1 & _). destruct (ok_cost n dim s u2 Hok Hu2) as (k2 & Hk2 & Lk2 & _).
  unfold reduce_two. rewrite Hl. cbn [mbind option_bind lookup list_lookup]. rewrite (other_spec s f e1 v He1). cbn [mbind option_bind].
  rewrite (other_spec s g e2 v He2). cbn [mbind option_bind]. fold u1 u2. rewrite Ec. cbn [mbind option_bind]. rewrite Eo1. cbn [mbind option_bind]. rewrite Ec1. cbn [mbind option_bind].
  cbn zeta. rewrite Eo2. cbn [mbind option_bind]. rewrite Ec2. cbn [mbind option_bind]. rewrite Hk1. cbn [mbind option_bind]. rewrite Hk2. cbn [mbind option_bind].
  rewrite Lk1, Lk2. fold (through_table (dim u1) (dim u2) (map (fun x => zip_with add x c) c1) c2). rewrite Ed. cbn [mbind option_bind].
  destruct (kill_spec n dim s v Hok Hv Ha) as (s0 & -> & HD0). cbn [mbind option_bind].
  destruct (detach_unlink n dim s s0 v [] f e1 Hok HD0 He1 Hlive1 Hend1) as (s1 & -> & HD1); [set_solver|]. cbn [mbind option_bind app] in *.
  destruct (detach_unlink n dim s s1 v [f] g e2 Hok HD1 He2 Hlive2 Hend2) as (s2 & -> & HD2); [set_solver|]. cbn [mbind option_bind app] in *.
  pose proof (push_reduced_ok s s2 (R2 v f g) v _ Hok Hv Hl HD2 eq_refl eq_refl) as Hok3.
  assert (forall e id, edges s !! id = Some e -> e_live e = true -> e_lhs e = v \/ e_rhs e = v -> alive (push_reduced (R2 v f g) s2) !! other_of e v = Some true) as Hal.
  { intros e id He Hlive Hend. destruct (other_ne n dim s id e v Hok He Hend) as [Hn _]. cbn. rewrite (de_alive _ _ _ _ _ _ HD2), list_lookup_insert_ne by done.
    destruct (HT id (other_of e v)) as [H|H]; [|done|set_solver]. exists e. split; [done|]. split; [done|]. unfold other_of. destruct (_ =? _); auto. }
  destruct (charge_spec n dim (push_reduced (R2 v f g) s2) u1 u2 d Hok3 Hu1 Hu2 Hne Hd (Hal _ _ He1 Hlive1 Hend1) (Hal _ _ He2 Hlive2 Hend2)) as (s' & id & E & Hok' & Hev & _ & _ & Hch).
  exists s'. split; [exact E|]. apply (reduces_intro s s2 s' (R2 v f g) v [f; g] 2 (fun a => mval d (a u1) (a u2))); try done.
  - intros a Hva. eapply is_min_ext; [|apply Hmin; apply Hva; done]. intros y Hy. unfold star. cbn. unfold edge_at, zsum. rewrite He1, He2. cbn. f_equal. unfold u1, u2. lia.
  - intros a b Hva Hvb H. by rewrite (Hch a Hva), (Hch b Hvb) in H.
Qed.

(** ** The loop *)
Record progresses (s s' : Solver) : Prop := {
  pg_ok : ok s';
  pg_tidy : tidy [] s';
  pg_watched : watched s';
  pg_alive : (count_alive s' <= count_alive s)%Z;
  pg_choices : choices s' = choices s;
  pg_solves : solves_to s s';
}.

Lemma progresses_refl s : ok s -> tidy [] s -> watched s -> progresses s s.
Proof. intros. split; try done. apply solves_to_refl. Qed.

Lemma progresses_trans s1 s2 s3 : progresses s1 s2 -> progresses s2 s3 -> progresses s1 s3.
Proof. intros [] []. split; try done; [lia|congruence|by eapply solves_to_trans]. Qed.

Lemma count_alive_kill s s' v : alive s' = <[v := false]> (alive s) -> alive s !! v = Some true -> (count_alive s' = count_alive s - 1)%Z.
Proof. intros E Ha. unfold count_alive. rewrite E, (zsum_insert _ _ _ true) by done. lia. Qed.

Lemma reduces_progress v s s' : watched_but v s -> alive s !! v = Some true -> reduces v s s' -> progresses s s'.
Proof. intros Hw Ha []. split; try done; [by auto|]. rewrite (count_alive_kill s s' v) by done. lia. Qed.

(** A node popped from [pending] is looked at once. *)
Lemma reduce_step_spec s v : ok s -> tidy [] s -> watched_but v s -> v < n -> exists s', reduce_step v s = Some s' /\ progresses s s' /\
  (potential s' <= potential s)%Z.
Proof.
  intros Hok HT Hw Hv. unfold reduce_step. destruct (lookup_lt_is_Some_2 (alive s) v) as [b Ha]; [by rewrite (ok_alive_len n dim s Hok)|].
  destruct (ok_adj n dim s v Hok Hv) as [l Hl]. rewrite Ha. cbn [mbind option_bind]. destruct b; cbn [negb].
  2: { exists s. split; [done|]. split; [|done]. apply progresses_refl; [done..|]. intros i k Hk Hlen Hal. apply (Hw i k); try done. by intros ->; rewrite Ha in Hal. }
  unfold degree. rewrite Hl. cbn [mbind option_bind].
  destruct l as [|f [|g [|h l]]]; cbn [length].
  - destruct (reduce_zero_spec s v Hok HT Hv Ha Hl) as (s' & E & H). exists s'. split; [done|]. split; [by eapply reduces_progress|]. pose proof (rd_potential _ _ _ H). lia.
  - destruct (reduce_one_spec s v f Hok HT Hv Ha Hl) as (s' & E & H). exists s'. split; [done|]. split; [by eapply reduces_progress|]. pose proof (rd_potential _ _ _ H). lia.
  - destruct (reduce_two_spec s v f g Hok HT Hv Ha Hl) as (s' & E & H). exists s'. split; [done|]. split; [by eapply reduces_progress|]. pose proof (rd_potential _ _ _ H). lia.
  - exists s. split; [done|]. split; [|done]. apply progresses_refl; [done..|]. intros i k Hk Hlen Hal. apply (Hw i k); try done. intros ->. rewrite Hl in Hk. injection Hk as <-. cbn in Hlen. lia.
Qed.

Lemma set_pending_ok s rest : ok s -> (forall i, i ∈ rest -> i < n) -> ok (set_pending rest s).
Proof. intros Hok Hp. split; try apply Hok. done. Qed.

Lemma count_alive_bounds s : (0 <= count_alive s <= Z.of_nat (length (alive s)))%Z.
Proof. unfold count_alive. induction (alive s) as [|b l IH]; [done|]. cbn [map length]. rewrite zsum_cons. destruct b; lia. Qed.

Lemma count_live_bounds s : (0 <= count_live s <= Z.of_nat (length (edges s)))%Z.
Proof. unfold count_live. induction (edges s) as [|e l IH]; [done|]. cbn [map length]. rewrite zsum_cons. destruct (e_live e); lia. Qed.

(** The loop ends: a step does not raise the potential and each iteration pops
    a pending node. *)
Lemma reduce_optimally_spec fuel s : ok s -> tidy [] s -> watched s -> (potential s <= Z.of_nat fuel)%Z ->
  exists s', reduce_optimally fuel s = Some s' /\ progresses s s' /\ pending s' = [].
Proof.
  revert s; induction fuel as [|fuel IH]; intros s Hok HT Hw Hpot; cbn [reduce_optimally]; destruct (pending s) as [|v rest] eqn:Ep.
  - exists s. split; [done|]. split; [by apply progresses_refl|done].
  - exfalso. unfold potential in Hpot. rewrite Ep in Hpot. cbn in Hpot. pose proof (count_alive_bounds s). pose proof (count_live_bounds s). lia.
  - exists s. split; [done|]. split; [by apply progresses_refl|done].
  - assert (v < n) as Hv by (apply (ok_pending n dim s Hok); rewrite Ep; by left).
    set (s1 := set_pending rest s). assert (ok s1) as Hok1.
    { apply set_pending_ok; [done|]. intros i Hi. apply (ok_pending n dim s Hok). rewrite Ep. by right. }
    assert (watched_but v s1) as Hw1.
    { intros i l Hne Hl Hlen Ha. specialize (Hw i l Hl Hlen Ha). rewrite Ep in Hw. apply elem_of_cons in Hw as [->|Hi]; done. }
    destruct (reduce_step_spec s1 v Hok1 HT Hw1 Hv) as (s2 & E2 & H2 & G8). rewrite E2. cbn [mbind option_bind].
    assert (potential s1 = potential s - 1)%Z as Hp1 by (unfold potential, count_alive, count_live, s1; rewrite Ep; cbn; lia).
    destruct H2 as [G1 G2 G3 G5 G6 G7].
    destruct (IH s2 G1 G2 G3 ltac:(lia)) as (s' & E & H' & Hp). exists s'. split; [done|]. split; [|done].
    apply progresses_trans with s2; [|done]. split; try done. destruct G7 as [[F1 F2] O]. by split.
Qed.

Lemma reduce_fuel_enough s : ok s -> (potential s <= Z.of_nat (reduce_fuel s))%Z.
Proof.
  intros Hok. unfold potential, reduce_fuel. pose proof (count_alive_bounds s). pose proof (count_live_bounds s).
  pose proof (ok_alive_len n dim s Hok). pose proof (ok_costs_len n dim s Hok). lia.
Qed.

End steps.
