(* ===== verification/PbqpMerge.v ===== *)
(** * RM: merging a node whose choice another implies

    [implied] finds, for each alternative of a node, the only alternative of
    its neighbor that stays finite; the neighbor's other edges move to the
    node, which keeps [total], and the neighbor is reduced. *)
From S2P Require Import Prelude Words Pbqp PbqpSpec PbqpCost PbqpReduce.
#[local] Open Scope nat_scope.

Section merge.
Context (n : nat) (dim : nat -> nat).
#[local] Notation ok := (ok n dim).
#[local] Notation valid := (valid n dim).
#[local] Notation progresses := (progresses n dim).

Lemma cost_spec s id e v y x : ok s -> edges s !! id = Some e -> e_lhs e = v \/ e_rhs e = v -> y < dim v -> x < dim (other_of e v) ->
  cost s id v y x = Some (eval e v y x).
Proof.
  intros Hok He Hend Hy Hx. destruct (ok_edges n dim s Hok id e He) as (_ & _ & _ & Hwf). unfold cost, eval, other_of in *. rewrite He. cbn [mbind option_bind].
  destruct (Nat.eqb_spec (e_lhs e) v) as [Hl|Hl].
  - apply (get_spec (dim (e_lhs e)) (dim (e_rhs e))); [done|by rewrite Hl|done].
  - destruct Hend as [|Hr]; [done|]. apply (get_spec (dim (e_lhs e)) (dim (e_rhs e))); [done|done|by rewrite Hr].
Qed.

(** [chosen] is the only alternative of the other end that stays finite when
    [v] takes [y]. *)
Definition only (s : Solver) (e : Edge) (v y chosen : nat) : Prop :=
  (ncost s v y < INF_COST)%Z -> forall x, x < dim (other_of e v) -> (eval e v y x + ncost s (other_of e v) x < INF_COST)%Z -> x = chosen.

Definition implies (s : Solver) (e : Edge) (v : nat) (imp : list nat) : Prop :=
  length imp = dim v /\ forall y c, imp !! y = Some c -> c < dim (other_of e v) /\ only s e v y c.

Section implied.
Context (s : Solver) (id v : nat) (e : Edge) (Hok : ok s) (He : edges s !! id = Some e) (Hend : e_lhs e = v \/ e_rhs e = v).
#[local] Notation u := (other_of e v).

Lemma implied_loop_spec owns : (forall y, y ∈ owns -> y < dim v) -> exists r, implied_loop s id v u owns = Some r /\
  forall imp, r = Some imp -> Forall2 (fun y c => c < dim u /\ only s e v y c) owns imp.
Proof.
  destruct (other_ne n dim s id e v Hok He Hend) as [Hne Hu]. pose proof (ok_dims n dim s Hok u Hu) as Hdu.
  assert (v < n) as Hv by (destruct (ok_edges n dim s Hok id e He) as (? & ? & _); destruct Hend as [<-|<-]; done).
  destruct (ok_cost n dim s v Hok Hv) as (c & Hc & Lc & _). destruct (ok_cost n dim s u Hok Hu) as (t & Ht & Lt & _).
  induction owns as [|y owns IH]; intros Howns; cbn [implied_loop]; [exists (Some []); split; [done|]; by intros imp [= <-]|].
  destruct IH as (r & Er & Hr); [intros z Hz; apply Howns; by right|]. assert (y < dim v) as Hy by (apply Howns; by left).
  rewrite Hc. cbn [mbind option_bind]. rewrite (at_Some c y) by lia. cbn [mbind option_bind].
  assert (forall z, z < dim u -> only s e v y z -> exists r', (rest ← Some r; Some (rest ← rest; Some (z :: rest))) = Some r' /\
    forall imp, r' = Some imp -> Forall2 (fun y c => c < dim u /\ only s e v y c) (y :: owns) imp) as Hcons.
  { intros z Hz Ho. cbn [mbind option_bind]. eexists. split; [done|]. destruct r as [l|]; [|done]. cbn [mbind option_bind]. intros imp [= <-]. constructor; auto. }
  destruct (is_finite (at_ c y)) eqn:Hf; cbn [negb].
  2: { rewrite Er. apply Hcons; [done|]. intros Hlt. exfalso. rewrite (ncost_eq _ _ _ _ Hc) in Hlt. apply is_finite_spec in Hlt. congruence. }
  rewrite Ht. cbn [mbind option_bind].
  rewrite (mapM_seq _ (fun x => (x, add (eval e v y x) (at_ t x)))) by
    (intros x Hx; rewrite (cost_spec s id e v y x) by (done || lia); cbn [mbind option_bind]; by rewrite (at_Some t x) by lia).
  cbn [mbind option_bind]. rewrite Lt. set (sums := map _ (seq 0 (dim u))).
  assert (forall x, x < dim u -> (eval e v y x + ncost s u x < INF_COST)%Z -> (x, add (eval e v y x) (at_ t x)) ∈ List.filter (fun '(_, x) => is_finite x) sums) as Hin.
  { intros x Hx Hlt. apply list_elem_of_In, filter_In. split.
    - apply list_elem_of_In, list_elem_of_fmap. exists x. split; [done|]. apply elem_of_seq. lia.
    - apply is_finite_spec. rewrite add_cap. rewrite (ncost_eq _ _ _ _ Ht) in Hlt. unfold cap. lia. }
  destruct (List.filter (fun '(_, x) => is_finite x) sums) as [|[first w] [|p l]] eqn:Ef.
  - rewrite Er. apply Hcons; [done|]. intros _ x Hx Hlt. specialize (Hin x Hx Hlt). set_solver.
  - rewrite Er. apply Hcons.
    + assert ((first, w) ∈ sums) as Hs by (apply list_elem_of_In; apply (proj1 (filter_In (fun '(_, x) => is_finite x) (first, w) sums)); rewrite Ef; by left).
      apply list_elem_of_fmap in Hs as (z & [= -> _] & Hz). apply elem_of_seq in Hz. lia.
    + intros _ x Hx Hlt. specialize (Hin x Hx Hlt). apply list_elem_of_singleton in Hin. congruence.
  - exists None. done.
Qed.

Lemma implied_spec : exists r, implied s v id = Some r /\ forall imp, r = Some imp -> implies s e v imp.
Proof.
  assert (v < n) as Hv by (destruct (ok_edges n dim s Hok id e He) as (? & ? & _); destruct Hend as [<-|<-]; done).
  destruct (ok_cost n dim s v Hok Hv) as (c & Hc & Lc & _).
  unfold implied. rewrite (other_spec s id e v He). cbn [mbind option_bind]. rewrite Hc. cbn [mbind option_bind]. rewrite Lc.
  destruct (implied_loop_spec (seq 0 (dim v))) as (r & E & H); [intros y Hy; apply elem_of_seq in Hy; lia|]. exists r. split; [done|].
  intros imp ->. specialize (H imp eq_refl). split; [apply Forall2_length in H; by rewrite length_seq in H|].
  intros y z Hz. destruct (Forall2_lookup_r _ _ _ _ _ H Hz) as (y' & Hy' & HP). apply lookup_seq in Hy' as [-> _]. done.
Qed.

End implied.

(** ** Moving an edge *)
Definition merged_delta (s : Solver) (node neighbor far T : nat) (cn : list Z) (l : list (nat * nat)) (m : option Matrix) : option Matrix :=
  fold_left (fun m '(own, chosen) =>
    m ← m;
    c ← cn !! own;
    if is_finite c then
      fold_left (fun m other => m ← m; x ← cost s far neighbor chosen other; set m own other x) (seq 0 T) (Some m)
    else Some m) l m.

Section delta.
Context (s : Solver) (far v u : nat) (ef : Edge) (cn : list Z) (Hok : ok s) (Hef : edges s !! far = Some ef) (Hend : e_lhs ef = u \/ e_rhs ef = u).
Context (Hcn : costs s !! v = Some cn) (Lcn : length cn = dim v).
#[local] Notation t := (other_of ef u).
#[local] Notation row_of own chosen x := (if is_finite (ncost s v own) then eval ef u chosen x else 0%Z).

Lemma merged_delta_spec l m : wfm (dim v) (dim t) m -> (forall own chosen, (own, chosen) ∈ l -> own < dim v /\ chosen < dim u) ->
  exists m', merged_delta s v u far (dim t) cn l (Some m) = Some m' /\ wfm (dim v) (dim t) m' /\
    forall own x, x < dim t -> (exists chosen, (own, chosen) ∈ l /\ is_finite (ncost s v own) = true /\ mval m' own x = eval ef u chosen x) \/
      (forall chosen, (own, chosen) ∈ l -> is_finite (ncost s v own) = false) /\ mval m' own x = mval m own x.
Proof.
  revert m; induction l as [|[own chosen] l IH]; intros m Hm Hl; cbn [merged_delta fold_left].
  { exists m. split; [done|]. split; [done|]. intros own x Hx. right. split; [|done]. intros chosen Hin. set_solver. }
  destruct (Hl own chosen ltac:(by left)) as [Hown Hch]. cbn [mbind option_bind]. rewrite (at_Some cn own) by lia. cbn [mbind option_bind].
  rewrite <- (ncost_eq s v cn own Hcn). fold (merged_delta s v u far (dim t) cn).
  assert (forall o c, (o, c) ∈ l -> o < dim v /\ c < dim u) as Hl' by (intros o c Hin; apply Hl; by right).
  destruct (is_finite (ncost s v own)) eqn:Hf.
  - destruct (set_loop (dim v) (dim t) (fun _ => own) (fun x => x) (fun x => cost s far u chosen x) (fun x => eval ef u chosen x) (seq 0 (dim t)) m Hm)
      as (m1 & E1 & Hm1 & V1).
    { intros x Hx. apply elem_of_seq in Hx. split; [apply cost_spec; done || lia|]. split; [done|]. split; [lia|]. by eapply eval_nonneg. }
    rewrite E1. destruct (IH m1 Hm1 Hl') as (m' & E & Hm' & V). exists m'. split; [done|]. split; [done|]. intros o x Hx.
    destruct (V o x Hx) as [(c & Hin & Hfo & Hv)|[Hno Hv]]; [left; exists c; split; [by right|done]|].
    destruct (V1 o x Hx) as [(x' & Hx' & <- & -> & Hv1)|[Hno1 Hv1]].
    + left. exists chosen. split; [by left|]. split; [done|]. by rewrite Hv, Hv1.
    + right. split; [|by rewrite Hv, Hv1]. intros c [[= -> ->]|Hin]%elem_of_cons; [|by eapply Hno]. exfalso. apply (Hno1 x); [apply elem_of_seq; lia|done].
  - destruct (IH m Hm Hl') as (m' & E & Hm' & V). exists m'. split; [done|]. split; [done|]. intros o x Hx.
    destruct (V o x Hx) as [(c & Hin & Hfo & Hv)|[Hno Hv]]; [left; exists c; split; [by right|done]|].
    right. split; [|done]. intros c [[= -> ->]|Hin]%elem_of_cons; [done|by eapply Hno].
Qed.

Lemma merged_delta_rows imp : length imp = dim v -> (forall y c, imp !! y = Some c -> c < dim u) ->
  exists m', merged_delta s v u far (dim t) cn (imap pair imp) (Some (zero (dim v) (dim t))) = Some m' /\ wfm (dim v) (dim t) m' /\
    forall own chosen x, imp !! own = Some chosen -> x < dim t -> mval m' own x = row_of own chosen x.
Proof.
  intros Limp Himp. destruct (zero_spec (dim v) (dim t)) as [Hz Hz0].
  assert (forall own chosen, (own, chosen) ∈ imap pair imp <-> imp !! own = Some chosen) as Hel by (intros; rewrite elem_of_lookup_imap; naive_solver).
  destruct (merged_delta_spec (imap pair imp) _ Hz) as (m' & E & Hm' & V).
  { intros own chosen Hin%Hel. split; [rewrite <- Limp; by eapply lookup_lt_Some|by eapply Himp]. }
  exists m'. split; [done|]. split; [done|]. intros own chosen x Hin Hx. destruct (V own x Hx) as [(c & Hc%Hel & -> & ->)|[Hno ->]].
  - by simplify_eq.
  - by rewrite (Hno chosen) by by apply Hel.
Qed.

End delta.

Lemma node_le_total s i a : ok s -> i < n -> alive s !! i = Some true -> (ncost s i (a i) <= nodes_cost s a)%Z.
Proof. intros. pose proof (nodes_rest_nonneg n dim s i a). naive_solver lia. Qed.

Lemma edge_le_total s id e a : ok s -> edges s !! id = Some e -> e_live e = true -> (ecost a e <= edges_cost s a)%Z.
Proof. intros Hok He Hl. pose proof (edges_rest_nonneg n dim s id e a Hok He) as H. unfold edge_part in H. rewrite Hl in H. lia. Qed.

(** The state of a merge: [v] absorbs the other end of the edge [id]. *)
Record merging (id v : nat) (e : Edge) (imp : list nat) (s : Solver) : Prop := {
  mg_ok : ok s;
  mg_tidy : tidy [] s;
  mg_edge : edges s !! id = Some e;
  mg_live : e_live e = true;
  mg_end : e_lhs e = v \/ e_rhs e = v;
  mg_implies : implies s e v imp;
}.

Lemma merging_alive id v e imp s : merging id v e imp s -> v < n /\ alive s !! v = Some true /\ other_of e v < n /\ other_of e v <> v /\
  alive s !! other_of e v = Some true.
Proof.
  intros [Hok HT He Hlive Hend _]. destruct (other_ne n dim s id e v Hok He Hend) as [Hne Hu]. destruct (tidy_ends s id e HT He Hlive).
  destruct (ok_edges n dim s Hok id e He) as (? & ? & _). unfold other_of in *. destruct (Nat.eqb_spec (e_lhs e) v); naive_solver.
Qed.

(** An assignment that does not follow [imp] costs infinity. *)
Lemma merging_cost id v e imp s a : merging id v e imp s -> valid a ->
  is_finite (ncost s v (a v)) = true /\ imp !! a v = Some (a (other_of e v)) \/ (INF_COST <= nodes_cost s a + edges_cost s a)%Z.
Proof.
  intros HM Ha. destruct (merging_alive _ _ _ _ _ HM) as (Hv & Av & Hu & Hne & Au). destruct HM as [Hok HT He Hlive Hend [Limp Himp]].
  pose proof (node_le_total s v a Hok Hv Av). pose proof (node_le_total s (other_of e v) a Hok Hu Au). pose proof (edge_le_total s id e a Hok He Hlive).
  pose proof (nodes_cost_nonneg n dim s a Hok). pose proof (edges_cost_nonneg n dim s a Hok).
  destruct (is_finite (ncost s v (a v))) eqn:Hf.
  2: { right. assert (INF_COST <= ncost s v (a v))%Z by (apply Z.nlt_ge; intros ?%is_finite_spec; congruence). lia. }
  destruct (lookup_lt_is_Some_2 imp (a v)) as [c Hc]; [rewrite Limp; by apply Ha|]. destruct (Himp _ _ Hc) as [_ Ho]. apply is_finite_spec in Hf.
  destruct (Z.lt_ge_cases (eval e v (a v) (a (other_of e v)) + ncost s (other_of e v) (a (other_of e v))) INF_COST) as [Hlt|Hge].
  - left. split; [done|]. rewrite Hc. f_equal. symmetry. apply (Ho Hf); [by apply Ha|done].
  - right. destruct (ok_edges n dim s Hok id e He) as (_ & _ & Hle & _). rewrite (ecost_eval a e v Hend Hle) in *. lia.
Qed.

Lemma merging_step id v e imp s s' : merging id v e imp s -> ok s' -> tidy [] s' -> edges s' !! id = Some e ->
  costs s' !! other_of e v = costs s !! other_of e v -> inf_mono s s' -> merging id v e imp s'.
Proof.
  intros [Hok HT He Hlive Hend [Limp Himp]] Hok' HT' He' Hcu Hinf. split; try done. split; [done|]. intros y c Hc. destruct (Himp y c Hc) as [Hcu' Ho]. split; [done|].
  intros Hf x Hx Hlt. apply Ho; [|done|unfold ncost at 1 in Hlt; by rewrite Hcu in Hlt]. apply Z.nle_gt. intros Hge. specialize (Hinf v y Hge). lia.
Qed.

Lemma merge_edge_spec id v e imp far s : merging id v e imp s -> incident s far (other_of e v) -> far <> id ->
  exists s', merge_edge v (other_of e v) id far imp s = Some s' /\ merging id v e imp s' /\ evolves 2 s s' /\
    (forall a, valid a -> total s' a = total s a) /\ forall j, incident s' j (other_of e v) <-> incident s j (other_of e v) /\ j <> far.
Proof.
  intros HM (ef & Hef & Hlivef & Hendf) Hne. destruct (merging_alive _ _ _ _ _ HM) as (Hv & Av & Hu & Hune & Au).
  pose proof HM as [Hok HT He Hlive Hend [Limp Himp]]. set (u := other_of e v) in *.
  destruct (other_ne n dim s far ef u Hok Hef Hendf) as [Htu Ht]. set (t := other_of ef u) in *.
  assert (t <> v) as Htv.
  { intros E. apply Hne. eapply (same_key n dim s far id ef e); eauto. rewrite (edge_key_other ef u Hendf), (edge_key_other e v Hend). fold u t. rewrite E. apply pair_key_eq. auto. }
  destruct (ok_cost n dim s v Hok Hv) as (cn & Hcn & Lcn & _). destruct (ok_cost n dim s t Hok Ht) as (ct & Hct & Lct & _).
  destruct (merged_delta_rows s far v u ef cn Hok Hef Hendf Hcn Lcn imp Limp (fun y c Hc => proj1 (Himp y c Hc))) as (d & Ed & Hd & Vd). fold t in Ed, Hd, Vd.
  unfold merge_edge. rewrite (proj2 (Nat.eqb_neq far id) Hne). rewrite (other_spec s far ef u Hef). fold t. cbn [mbind option_bind].
  rewrite Hcn. cbn [mbind option_bind]. rewrite Hct. cbn [mbind option_bind]. rewrite Lcn, Lct. fold (merged_delta s v u far (dim t) cn (imap pair imp) (Some (zero (dim v) (dim t)))).
  rewrite Ed. cbn [mbind option_bind].
  destruct (unlink_spec n dim s far ef Hok Hef Hlivef) as (s1 & -> & Hok1 & Hev1 & Hc1 & He1). cbn [mbind option_bind].
  pose proof (incident_dead s s1 far ef Hef He1) as Hinc1.
  assert (merging id v e imp s1) as HM1.
  { apply (merging_step id v e imp s s1 HM); [done|by apply (ev_tidy _ _ _ Hev1)|rewrite He1; by rewrite list_lookup_insert_ne|by rewrite Hc1|].
    intros i x. unfold ncost. by rewrite Hc1. }
  assert (alive s1 !! t = Some true) as At.
  { rewrite (ev_alive _ _ _ Hev1). destruct (HT far t) as [|H]; [|done|set_solver]. exists ef. split; [done|]. split; [done|]. unfold t, other_of. destruct (_ =? _); auto. }
  assert (alive s1 !! v = Some true) as Av1 by by rewrite (ev_alive _ _ _ Hev1).
  destruct (charge_spec n dim s1 v t d Hok1 Hv Ht (not_eq_sym Htv) Hd Av1 At) as (s' & id2 & E & Hok' & Hev2 & [W1 W2 W3 W4] & Hid2 & Hch).
  exists s'. split; [exact E|]. pose proof (evolves_trans 0 2 s s1 s' Hev1 Hev2) as Hev. assert (u ∉ [v; t]) as Hu2 by (rewrite !elem_of_cons; set_solver).
  split; [|split; [done|split]].
  - apply (merging_step id v e imp s1 s' HM1); [done|by apply (ev_tidy _ _ _ Hev)| |by apply W2|done]. rewrite W3; [apply HM1|]. intros ->.
    pose proof (mg_edge _ _ _ _ _ HM1) as He'. destruct Hid2 as [->|(e' & He2 & _ & Hk)].
    + apply lookup_lt_Some in He'. lia.
    + assert (e' = e) as -> by congruence. rewrite (edge_key_other e v Hend) in Hk. fold u in Hk. apply pair_key_eq in Hk. naive_solver.
  - intros a Ha. rewrite Hch by done. unfold total.
    pose proof (edges_cost_dead s s1 far ef a Hef Hlivef He1) as Ee1. pose proof (nodes_cost_same s s1 a Hc1 (ev_alive _ _ _ Hev1)) as En1.
    destruct (ok_edges n dim s Hok far ef Hef) as (_ & _ & Hlr & _). pose proof (ecost_eval a ef u Hendf Hlr) as Ec. fold t in Ec.
    pose proof (eval_nonneg n dim s far ef u (a u) (a t) Hok Hef). pose proof (mval_nonneg _ _ d (a v) (a t) Hd).
    destruct (merging_cost id v e imp s1 a HM1 Ha) as [[Hf Himpa]|Hge].
    + rewrite (Vd (a v) (a u) (a t) Himpa (Ha t Ht)). unfold ncost in Hf |- *. rewrite Hc1 in Hf. rewrite Hf. f_equal. lia.
    + unfold cap. lia.
  - intros j. rewrite (W4 j u Hu2). apply Hinc1.
Qed.

Lemma merge_edges_spec id v e imp fars s : merging id v e imp s -> NoDup fars -> (forall far, far ∈ fars -> far <> id -> incident s far (other_of e v)) ->
  exists s' k, merge_edges v (other_of e v) id fars imp s = Some s' /\ merging id v e imp s' /\ evolves k s s' /\
    (forall a, valid a -> total s' a = total s a) /\
    forall j, incident s' j (other_of e v) <-> incident s j (other_of e v) /\ (j = id \/ j ∉ fars).
Proof.
  revert s; induction fars as [|far fars IH]; intros s HM Hnd Hinc; cbn [merge_edges].
  { exists s, 0%Z. split; [done|]. split; [done|]. split; [apply evolves_refl|]. split; [done|]. intros j. set_solver. }
  apply list.NoDup_cons in Hnd as [Hnot Hnd]. destruct (Nat.eq_dec far id) as [->|Hne].
  - unfold merge_edge. rewrite Nat.eqb_refl. cbn [mbind option_bind]. destruct (IH s HM Hnd) as (s' & k & E & HM' & Hev & Ht & Hj); [intros f Hf; apply Hinc; by right|].
    exists s', k. do 4 (split; [done|]). intros j. rewrite Hj, not_elem_of_cons. destruct (Nat.eq_dec j id); tauto.
  - destruct (merge_edge_spec id v e imp far s HM (Hinc far ltac:(by left) Hne) Hne) as (s1 & -> & HM1 & Hev1 & Ht1 & Hj1). cbn [mbind option_bind].
    destruct (IH s1 HM1 Hnd) as (s' & k & E & HM' & Hev & Ht & Hj).
    { intros f Hf Hfi. apply Hj1. split; [apply Hinc; [by right|done]|]. by intros ->. }
    exists s', (2 + k)%Z. do 2 (split; [done|]). split; [by eapply evolves_trans|]. split; [intros a Ha; by rewrite Ht, Ht1|].
    intros j. rewrite Hj, Hj1, not_elem_of_cons. destruct (Nat.eq_dec j id) as [->|]; [|tauto]. assert (id <> far) by congruence. tauto.
Qed.

Lemma nodup_single (l : list nat) x : NoDup l -> (forall y, y ∈ l <-> y = x) -> l = [x].
Proof.
  intros Hnd Hin. destruct l as [|y [|z l]].
  - exfalso. specialize (Hin x). set_solver.
  - f_equal. apply Hin. by left.
  - exfalso. assert (y = x) as -> by (apply Hin; by left). assert (z = x) as -> by (apply Hin; right; by left). apply list.NoDup_cons in Hnd. set_solver.
Qed.

(** One merge: the neighbor gives its edges away and is reduced. *)
Lemma merge_round id v e imp s l : merging id v e imp s -> watched s -> adjacency s !! other_of e v = Some l ->
  exists s' live d s2, merge_edges v (other_of e v) id l imp s = Some s' /\ alive s' !! other_of e v = Some live /\ degree s' (other_of e v) = Some d /\
    (if live && (d =? 1) then reduce_one (other_of e v) s' else Some s') = Some s2 /\ progresses s s2 /\ (count_alive s2 < count_alive s)%Z.
Proof.
  intros HM Hw Hl. pose proof (mg_ok _ _ _ _ _ HM) as Hok. destruct (merge_edges_spec id v e imp l s HM) as (s' & k & E & HM' & Hev & Ht & Hj).
  { by apply (ok_nodup n dim s Hok _ _ Hl). } { intros far Hf _. by apply (ok_adjacency n dim s Hok _ l far Hl). }
  destruct (merging_alive _ _ _ _ _ HM') as (Hv & Av & Hu & Hne & Au). pose proof (mg_ok _ _ _ _ _ HM') as Hok'.
  destruct (ok_adj n dim s' (other_of e v) Hok' Hu) as [l' Hl']. assert (l' = [id]) as ->.
  { apply nodup_single; [by apply (ok_nodup n dim s' Hok' _ _ Hl')|]. intros j. rewrite (ok_adjacency n dim s' Hok' _ l' j Hl'), Hj.
    rewrite <- (ok_adjacency n dim s Hok _ l j Hl). split; [tauto|]. intros ->. split; [|by left]. apply (ok_adjacency n dim s Hok _ l id Hl).
    destruct HM as [_ _ He Hlive Hend _]. exists e. split; [done|]. split; [done|]. unfold other_of. destruct (_ =? _); auto. }
  destruct (reduce_one_spec n dim s' (other_of e v) id Hok' (mg_tidy _ _ _ _ _ HM') Hu Au Hl') as (s2 & E2 & Hr).
  exists s', true, 1, s2. split; [done|]. split; [done|]. split; [unfold degree; by rewrite Hl'|]. split; [done|].
  assert (watched_but (other_of e v) s') as Hw' by (intros i k' _; by apply (ev_watched _ _ _ Hev Hw)).
  pose proof (count_alive_kill s' s2 _ (rd_alive _ _ _ _ _ Hr) Au) as Hc.
  assert (count_alive s' = count_alive s) as Hc' by (unfold count_alive; by rewrite (ev_alive _ _ _ Hev)).
  split; [|lia]. destruct Hr. split; try done; [by auto|lia|rewrite rd_choices; apply Hev|].
  eapply solves_to_trans; [|done]. by apply (same_total_solves n dim k s s' (mg_tidy _ _ _ _ _ HM) Hev).
Qed.

(** A node has at most [n] edges: their other ends differ. *)
Lemma degree_le s i l : ok s -> adjacency s !! i = Some l -> length l <= n.
Proof.
  intros Hok Hl. set (f := fun id => match edges s !! id with Some e => other_of e i | None => 0 end).
  assert (forall id, id ∈ l -> exists e, edges s !! id = Some e /\ e_live e = true /\ (e_lhs e = i \/ e_rhs e = i)) as Hin.
  { intros id Hid. by apply (ok_adjacency n dim s Hok i l id Hl). }
  rewrite <- (length_map f l), <- (length_seq n 0). apply NoDup_incl_length.
  - apply List.NoDup_map_NoDup_ForallPairs; [|apply NoDup_ListNoDup, (ok_nodup n dim s Hok i l Hl)].
    intros a b Ha Hb Hab. apply list_elem_of_In in Ha, Hb. destruct (Hin a Ha) as (ea & Ea & La & Na). destruct (Hin b Hb) as (eb & Eb & Lb & Nb).
    unfold f in Hab. rewrite Ea, Eb in Hab. apply (same_key n dim s a b ea eb Hok Ea La Eb Lb). by rewrite !(edge_key_other _ i), Hab.
  - intros x Hx. apply list_elem_of_In in Hx. apply list_elem_of_fmap in Hx as (id & -> & Hid). apply list_elem_of_In, elem_of_seq.
    destruct (Hin id Hid) as (e & He & _ & Hend). unfold f. rewrite He. pose proof (other_ne n dim s id e i Hok He Hend). lia.
Qed.

Lemma merge_loop_spec fuel v index s : ok s -> tidy [] s -> watched s -> v < n -> index <= n ->
  (count_alive s * (Z.of_nat n + 1) + (Z.of_nat n - Z.of_nat index) < Z.of_nat fuel)%Z ->
  exists s', merge_loop fuel v index s = Some s' /\ progresses s s' /\ (s' = s \/ (count_alive s' < count_alive s)%Z).
Proof.
  revert index s; induction fuel as [|fuel IH]; intros index s Hok HT Hw Hv Hi Hfuel; [pose proof (count_alive_bounds s); nia|]. cbn [merge_loop].
  destruct (lookup_lt_is_Some_2 (alive s) v) as [live Ha]; [by rewrite (ok_alive_len n dim s Hok)|]. destruct (ok_adj n dim s v Hok Hv) as [l Hl].
  rewrite Ha. cbn [mbind option_bind]. rewrite Hl. cbn [mbind option_bind].
  assert (exists s', Some s = Some s' /\ progresses s s' /\ (s' = s \/ (count_alive s' < count_alive s)%Z)) as Hstop by (exists s; split; [done|]; split; [by apply progresses_refl|by left]).
  destruct (live && (index <? length l)) eqn:Hc; [|done]. apply andb_true_iff in Hc as [-> Hlt%Nat.ltb_lt]. pose proof (degree_le s v l Hok Hl) as Hdeg.
  destruct (lookup_lt_is_Some_2 l index Hlt) as [id Hid]. rewrite Hid. cbn [mbind option_bind].
  destruct (proj1 (ok_adjacency n dim s Hok v l id Hl) ltac:(by eapply list_elem_of_lookup_2)) as (e & He & Hlive & Hend).
  rewrite (other_spec s id e v He). cbn [mbind option_bind]. destruct (other_ne n dim s id e v Hok He Hend) as [Hne Hu].
  destruct (ok_adj n dim s (other_of e v) Hok Hu) as [lu Hlu]. assert (degree s (other_of e v) = Some (length lu)) as -> by (unfold degree; by rewrite Hlu). cbn [mbind option_bind].
  destruct (implied_spec s id v e Hok He Hend) as (r & Er & Hr).
  assert (exists imp, (if 1 <? length lu then implied s v id else Some None) = Some imp /\ forall l, imp = Some l -> implies s e v l) as (imp & -> & Himp).
  { destruct (1 <? length lu); [by exists r|]. by exists None. }
  cbn [mbind option_bind]. destruct imp as [imp|].
  - rewrite Hlu. cbn [mbind option_bind]. destruct (merge_round id v e imp s lu) as (s1 & live & d & s2 & E1 & Ea & Ed & E2 & HP & Hlow); [|done..|].
    { split; auto. }
    rewrite E1. cbn [mbind option_bind]. rewrite Ea. cbn [mbind option_bind]. rewrite Ed. cbn [mbind option_bind]. rewrite E2. cbn [mbind option_bind].
    destruct HP. destruct (IH 0 s2) as (s' & E & HP' & Hor); try done; [lia|nia|]. exists s'. split; [done|]. split; [eapply progresses_trans; [|exact HP']; by split|].
    right. destruct Hor as [->|]; lia.
  - apply IH; try done; lia.
Qed.

Lemma merge_fuel_enough s : ok s -> (count_alive s * (Z.of_nat n + 1) + (Z.of_nat n - Z.of_nat 0) < Z.of_nat (merge_fuel s))%Z.
Proof.
  intros Hok. unfold merge_fuel. rewrite (ok_costs_len n dim s Hok). pose proof (count_alive_bounds s). rewrite (ok_alive_len n dim s Hok) in *. nia.
Qed.

End merge.
