(* ===== verification/PbqpRun.v ===== *)
(** * RN, the run of the solver and back-propagation

    The decision and the loop are total; a run that never decides is a
    [solves_to] step; back-propagation computes [propagate]. *)
From stdpp Require Import sorting.
From S2P Require Import Prelude Words Pbqp PbqpSpec PbqpCost PbqpReduce PbqpMerge.
#[local] Open Scope nat_scope.

(** [run_loop] without RN: [None] where a decision would be taken. *)
Fixpoint exact_loop (fuel : nat) (order : list nat) (s : Solver) : option Solver :=
  match fuel with
  | O => None
  | S fuel =>
    s ← reduce_optimally (reduce_fuel s) s;
    order ← skip_dead order s;
    match order with
    | [] => Some s
    | node :: _ =>
      s ← merge_loop (merge_fuel s) node 0 s;
      live ← alive s !! node;
      d ← degree s node;
      if live && (2 <? d) then None else exact_loop fuel order s
    end
  end.

Section run.
Context (n : nat) (dim : nat -> nat).
#[local] Notation ok := (ok n dim).
#[local] Notation valid := (valid n dim).
#[local] Notation progresses := (progresses n dim).

Lemma other_other e v : e_lhs e = v \/ e_rhs e = v -> e_lhs e <> e_rhs e ->
  other_of e (other_of e v) = v /\ (e_lhs e = other_of e v \/ e_rhs e = other_of e v).
Proof. unfold other_of. destruct (Nat.eqb_spec (e_lhs e) v); destruct (Nat.eqb_spec (e_lhs e) (e_rhs e)); rewrite ?Nat.eqb_refl; naive_solver. Qed.

(** ** RN *)
Lemma decide_totals_spec s v es totals : ok s -> length totals = dim v ->
  (forall id, id ∈ es -> incident s id v) -> exists t, decide_totals s v es totals = Some t /\ length t = dim v.
Proof.
  intros Hok. revert totals; induction es as [|id es IH]; intros totals Ht Hes; cbn [decide_totals]; [by exists totals|].
  destruct (Hes id ltac:(by left)) as (e & He & _ & Hend). destruct (other_ne n dim s id e v Hok He Hend) as [Hne Hu].
  destruct (ok_edges n dim s Hok id e He) as (_ & _ & Hlr & _). destruct (other_other e v Hend Hlr) as [Hoo Hendu].
  destruct (ok_cost n dim s _ Hok Hu) as (c & Hc & Lc & _). destruct (laid_out_spec n dim s id e (other_of e v) Hok He Hendu) as (m & Em & Hm & _). rewrite Hoo in Em, Hm.
  rewrite (other_spec s id e v He). cbn [mbind option_bind]. rewrite Hc. cbn [mbind option_bind]. rewrite Em. cbn [mbind option_bind].
  rewrite Lc, (chunks_spec _ _ m Hm) by by apply (ok_dims n dim s Hok). cbn [mbind option_bind]. apply IH; [by rewrite length_charge_costs|].
  intros j Hj. apply Hes. by right.
Qed.

Record deciding (v : nat) (es : list nat) (s : Solver) : Prop := {
  dg_ok : ok s;
  dg_tidy : tidy [v] s;
  dg_watched : watched s;
  dg_edges : forall id, id ∈ es <-> incident s id v;
}.

Lemma decide_edges_spec v choice es s : v < n -> choice < dim v -> NoDup es -> deciding v es s ->
  exists s', decide_edges v choice es s = Some s' /\ deciding v [] s' /\ alive s' = alive s.
Proof.
  intros Hv Hch. revert s; induction es as [|id es IH]; intros s Hnd HD; cbn [decide_edges]; [by exists s|].
  destruct HD as [Hok HT Hw Hes]. apply list.NoDup_cons in Hnd as [Hnot Hnd]. destruct (proj1 (Hes id) ltac:(by left)) as (e & He & Hlive & Hend).
  destruct (other_ne n dim s id e v Hok He Hend) as [Hne Hu]. set (u := other_of e v) in *. destruct (ok_cost n dim s u Hok Hu) as (t & Ht & Lt & _).
  rewrite (other_spec s id e v He). fold u. cbn [mbind option_bind]. rewrite Ht. cbn [mbind option_bind].
  rewrite (mapM_seq _ (eval e v choice)) by (intros x Hx; apply cost_spec with n dim; try done; fold u; lia). cbn [mbind option_bind].
  destruct (unlink_spec n dim s id e Hok He Hlive) as (s1 & -> & Hok1 & Hev1 & Hc1 & He1). cbn [mbind option_bind].
  pose proof (incident_dead s s1 id e He He1) as Hinc1. set (delta := map (eval e v choice) (seq 0 (length t))).
  assert (incident s id u) as Hiu by (exists e; split; [done|]; split; [done|]; unfold u, other_of; destruct (_ =? _); auto).
  destruct (charge_node_spec n dim s1 u delta Hok1 Hu) as (s2 & E2 & Hok2 & Hev2 & _ & _ & Hinc2).
  { unfold delta. by rewrite length_map, length_seq. }
  { apply list.Forall_forall. intros z (x & -> & _)%list_elem_of_fmap. by apply (eval_nonneg n dim s id). }
  { rewrite (ev_alive _ _ _ Hev1). destruct (HT id u Hiu) as [|Hx]; [done|]. set_solver. }
  rewrite E2. cbn [mbind option_bind].
  assert (forall j, incident s2 j v <-> incident s j v /\ j <> id) as Hinc.
  { intros j. rewrite (Hinc2 v); [apply Hinc1|]. intros k Hku Hkv. apply Hinc1 in Hku as [Hku Hkid], Hkv as [Hkv _]. apply Hkid.
    destruct Hku as (ek & Hek & Hlk & Hku). destruct Hkv as (ek' & Hek' & _ & Hkv). assert (ek' = ek) as -> by congruence.
    apply (same_key n dim s k id ek e Hok Hek Hlk He Hlive). rewrite (edge_key_other e v Hend). unfold edge_key. fold u. apply pair_key_eq. naive_solver. }
  destruct (IH s2 Hnd) as (s' & E & HD' & Ha').
  - split; [done| | |].
    + by apply (ev_tidy _ _ _ Hev2), (ev_tidy _ _ _ Hev1).
    + by apply (ev_watched _ _ _ Hev2), (ev_watched _ _ _ Hev1).
    + intros j. rewrite Hinc, <- Hes, elem_of_cons. split; [intros Hj; split; [by right|by intros ->]|]. intros [[->|] ?]; done.
  - exists s'. split; [done|]. split; [done|]. by rewrite Ha', (ev_alive _ _ _ Hev2), (ev_alive _ _ _ Hev1).
Qed.

Lemma set_choice_ok s v choice : ok s -> choice < dim v -> ok (set_choices (<[v := choice]> (choices s)) s).
Proof.
  intros Hok Hch. split; try apply Hok; cbn; [rewrite length_insert; apply Hok|]. intros i c [(-> & -> & _)|[_ Hc]]%list_lookup_insert_Some; [done|].
  by apply (ok_choices n dim s Hok).
Qed.

Lemma rn_decide_spec s v : ok s -> tidy [] s -> watched s -> v < n -> alive s !! v = Some true ->
  exists s', decide v s = Some s' /\ ok s' /\ tidy [] s' /\ watched s' /\ (count_alive s' < count_alive s)%Z.
Proof.
  intros Hok HT Hw Hv Ha. destruct (ok_adj n dim s v Hok Hv) as [l Hl]. destruct (ok_cost n dim s v Hok Hv) as (c & Hc & Lc & _).
  destruct (decide_totals_spec s v l c Hok Lc) as (t & Et & Lt). { intros id. apply (ok_adjacency n dim s Hok v l id Hl). }
  unfold decide. rewrite Hl. cbn [mbind option_bind]. rewrite Hc. cbn [mbind option_bind]. rewrite Et. cbn [mbind option_bind]. cbn zeta.
  pose proof (ok_dims n dim s Hok v Hv) as Hd. assert (fst (argmin t) < dim v) as Hch.
  { pose proof (argmin_spec t) as H. destruct (argmin t) as [b m]. cbn. destruct H as [H _]; [by intros ->; cbn in Lt; lia|]. apply lookup_lt_Some in H. lia. }
  rewrite vset_Some by (rewrite (ok_choices_len n dim s Hok); done). cbn [mbind option_bind].
  pose proof (set_choice_ok s v _ Hok Hch) as Hok1. set (s1 := set_choices _ s) in *.
  destruct (kill_spec n dim s1 v Hok1 Hv Ha) as (s2 & -> & HD). cbn [mbind option_bind].
  pose proof (ok_nodup n dim s Hok v l Hl) as Hnd. assert (deciding v l s2) as HD2.
  { split; [apply HD|by apply (de_tidy _ _ _ _ _ _ HD)|apply (de_watched _ _ _ _ _ _ HD); intros i k _; by apply Hw|].
    intros id. rewrite (ok_adjacency n dim s Hok v l id Hl). unfold incident. split; intros (e & He & H).
    - exists e. split; [|done]. rewrite (de_edges _ _ _ _ _ _ HD id e He). by rewrite decide_False by set_solver.
    - exists e. split; [|done]. destruct (lookup_lt_is_Some_2 (edges s1) id) as [e1 He1]; [rewrite <- (de_edges_len _ _ _ _ _ _ HD); by eapply lookup_lt_Some|].
      pose proof (de_edges _ _ _ _ _ _ HD id e1 He1) as He2. rewrite decide_False in He2 by set_solver. rewrite He in He2. by injection He2 as ->. }
  destruct (decide_edges_spec v (fst (argmin t)) l s2 Hv Hch Hnd HD2) as (s' & E & [Hok' HT' Hw' He'] & Ha'). exists s'. split; [done|]. split; [done|].
  split; [|split; [done|]].
  - intros id i Hi. destruct (HT' id i Hi) as [|Hx]; [by left|]. apply list_elem_of_singleton in Hx as ->. apply He' in Hi. set_solver.
  - assert (alive s' = <[v := false]> (alive s)) as Eal by by rewrite Ha', (de_alive _ _ _ _ _ _ HD). rewrite (count_alive_kill s s' v Eal Ha). lia.
Qed.

(** ** The loop *)
Lemma skip_dead_spec order s : ok s -> (forall i, i ∈ order -> i < n) -> exists rest, skip_dead order s = Some rest /\
  (forall i, i ∈ rest -> i ∈ order) /\ (forall i, i ∈ order -> i ∈ rest \/ alive s !! i <> Some true) /\
  match rest with [] => True | v :: _ => alive s !! v = Some true end.
Proof.
  intros Hok. induction order as [|v order IH]; intros Ho; cbn [skip_dead]; [by exists []; split; [|set_solver]|].
  destruct (lookup_lt_is_Some_2 (alive s) v) as [b Ha]; [rewrite (ok_alive_len n dim s Hok); apply Ho; by left|]. rewrite Ha. cbn [mbind option_bind].
  destruct b; [exists (v :: order); split; [done|]; split; [done|]; split; [by left|done]|].
  destruct IH as (rest & E & H1 & H2 & H3); [intros i Hi; apply Ho; by right|]. exists rest. split; [done|]. split; [intros i Hi; right; by apply H1|]. split; [|done].
  intros i [->|Hi]%elem_of_cons; [right; by rewrite Ha|by apply H2].
Qed.

(** One iteration up to the decision. *)
Lemma iteration_spec order s : ok s -> tidy [] s -> watched s -> (forall i, i ∈ order -> i < n) ->
  exists s1 rest, reduce_optimally (reduce_fuel s) s = Some s1 /\ progresses s s1 /\ skip_dead order s1 = Some rest /\
    (forall i, i ∈ rest -> i ∈ order) /\ (forall i, i ∈ order -> i ∈ rest \/ alive s1 !! i <> Some true) /\
    match rest with
    | [] => True
    | v :: _ => v < n /\ exists s2 live d, merge_loop (merge_fuel s1) v 0 s1 = Some s2 /\ progresses s1 s2 /\ alive s2 !! v = Some live /\
        degree s2 v = Some d /\ (live && (2 <? d) = false -> (count_alive s2 < count_alive s)%Z)
    end.
Proof.
  intros Hok HT Hw Ho. destruct (reduce_optimally_spec n dim (reduce_fuel s) s Hok HT Hw (reduce_fuel_enough n dim s Hok)) as (s1 & E1 & HP1 & Hp1).
  pose proof HP1 as [Hok1 HT1 Hw1 Ha1 _ _]. destruct (skip_dead_spec order s1 Hok1 Ho) as (rest & Er & H1 & H2 & H3). exists s1, rest. do 5 (split; [done|]).
  destruct rest as [|v rest]; [done|]. assert (v < n) as Hv by (apply Ho, H1; by left). split; [done|].
  destruct (merge_loop_spec n dim (merge_fuel s1) v 0 s1 Hok1 HT1 Hw1 Hv ltac:(lia) (merge_fuel_enough n dim s1 Hok1)) as (s2 & E2 & HP2 & Hor).
  pose proof HP2 as [Hok2 _ _ _ _ _]. destruct (lookup_lt_is_Some_2 (alive s2) v) as [live Hlive]; [by rewrite (ok_alive_len n dim s2 Hok2)|].
  destruct (ok_adj n dim s2 v Hok2 Hv) as [l Hl]. exists s2, live, (length l). do 3 (split; [done|]). split; [unfold degree; by rewrite Hl|].
  intros Hstop. destruct Hor as [->|]; [|lia]. exfalso. assert (live = true) as -> by congruence. apply Nat.ltb_ge in Hstop.
  specialize (Hw1 v l Hl Hstop H3). rewrite Hp1 in Hw1. set_solver.
Qed.

(** The run ends: every iteration kills a node. *)
Lemma run_loop_spec fuel order s : ok s -> tidy [] s -> watched s -> (forall i, i ∈ order -> i < n) -> (count_alive s < Z.of_nat fuel)%Z ->
  exists s', run_loop fuel order s = Some s' /\ ok s'.
Proof.
  revert order s; induction fuel as [|fuel IH]; intros order s Hok HT Hw Ho Hf; [pose proof (count_alive_bounds s); lia|]. cbn [run_loop].
  destruct (iteration_spec order s Hok HT Hw Ho) as (s1 & rest & -> & HP1 & Er & Hsub & _ & Hit). cbn [mbind option_bind]. rewrite Er. cbn [mbind option_bind].
  destruct rest as [|v rest]; [exists s1; split; [done|apply HP1]|]. destruct Hit as (Hv & s2 & live & d & E2 & HP2 & Ha & Hd & Hdown).
  rewrite E2. cbn [mbind option_bind]. rewrite Ha. cbn [mbind option_bind]. rewrite Hd. cbn [mbind option_bind].
  destruct HP1 as [_ _ _ Ha1 _ _], HP2 as [Hok2 HT2 Hw2 Ha2 _ _]. destruct (live && (2 <? d)) eqn:Hc.
  - apply andb_true_iff in Hc as [-> _]. destruct (rn_decide_spec s2 v Hok2 HT2 Hw2 Hv Ha) as (s3 & -> & Hok3 & HT3 & Hw3 & Ha3). cbn [mbind option_bind].
    apply IH; try done; [|lia]. intros i Hi. by apply Ho, Hsub.
  - cbn [mbind option_bind]. specialize (Hdown eq_refl). apply IH; try done; [|lia]. intros i Hi. by apply Ho, Hsub.
Qed.

(** A run without a decision keeps the optimum and finishes the nodes of the order. *)
Lemma exact_loop_spec fuel order s s' : ok s -> tidy [] s -> watched s -> (forall i, i ∈ order -> i < n) -> exact_loop fuel order s = Some s' ->
  run_loop fuel order s = Some s' /\ progresses s s' /\ forall i, i ∈ order -> alive s' !! i <> Some true.
Proof.
  revert order s; induction fuel as [|fuel IH]; intros order s Hok HT Hw Ho; [done|]. cbn [exact_loop run_loop].
  destruct (iteration_spec order s Hok HT Hw Ho) as (s1 & rest & -> & HP1 & Er & Hsub & Hcov & Hit). cbn [mbind option_bind]. rewrite Er. cbn [mbind option_bind].
  destruct rest as [|v rest].
  { intros [= <-]. split; [done|]. split; [done|]. intros i Hi. destruct (Hcov i Hi); [set_solver|done]. }
  destruct Hit as (Hv & s2 & live & d & E2 & HP2 & Ha & Hd & _). rewrite E2. cbn [mbind option_bind]. rewrite Ha. cbn [mbind option_bind]. rewrite Hd. cbn [mbind option_bind].
  destruct (live && (2 <? d)) eqn:Hc; [done|]. cbn [mbind option_bind]. intros E. pose proof HP2 as [Hok2 HT2 Hw2 _ _ _].
  destruct (IH (v :: rest) s2 Hok2 HT2 Hw2) as (Er' & HP & Hdead); [intros i Hi; by apply Ho, Hsub|done|]. split; [done|].
  split; [by eapply progresses_trans; [exact HP1|]; eapply progresses_trans|]. intros i Hi. destruct (Hcov i Hi) as [Hr|Hna]; [by apply Hdead|].
  destruct (pg_solves _ _ _ _ HP2) as [F2 _], (pg_solves _ _ _ _ HP) as [F3 _]. apply (fz_nodes _ _ F3). by apply (fz_nodes _ _ F2).
Qed.

(** ** Back-propagation *)
Definition chosen (s : Solver) (i : nat) : nat := default 0 (choices s !! i).

Definition reduced_ok (s : Solver) (r : Reduced) : Prop := reduced_node r < n /\
  forall id, id ∈ reduced_edges r -> exists e, edges s !! id = Some e /\ (e_lhs e = reduced_node r \/ e_rhs e = reduced_node r).

Lemma chosen_valid s : ok s -> valid (chosen s).
Proof.
  intros Hok i Hi. unfold chosen. destruct (lookup_lt_is_Some_2 (choices s) i) as [c Hc]; [by rewrite (ok_choices_len n dim s Hok)|].
  rewrite Hc. by apply (ok_choices n dim s Hok i).
Qed.

Lemma fixed_spec s v ids : ok s -> (forall id, id ∈ ids -> exists e, edges s !! id = Some e /\ (e_lhs e = v \/ e_rhs e = v)) ->
  mapM (fun edge => o ← other s edge v; c ← choices s !! o; Some (edge, c)) ids =
  Some (map (fun id => (id, match edges s !! id with Some e => chosen s (other_of e v) | None => 0 end)) ids).
Proof.
  intros Hok. induction ids as [|id ids IH]; intros Hids; [done|]. destruct (Hids id ltac:(by left)) as (e & He & Hend).
  destruct (other_ne n dim s id e v Hok He Hend) as [_ Ho]. cbn [map].
  change (mapM ?f (id :: ids)) with (y ← f id; k ← mapM f ids; Some (y :: k)). cbn beta. rewrite (other_spec s id e v He). cbn [mbind option_bind].
  unfold chosen at 1. rewrite He. destruct (lookup_lt_is_Some_2 (choices s) (other_of e v)) as [c Hc]; [by rewrite (ok_choices_len n dim s Hok)|]. rewrite Hc.
  cbn [mbind option_bind default]. rewrite IH by (intros j Hj; apply Hids; by right). done.
Qed.

Lemma response_cost_spec s r y : ok s -> reduced_ok s r -> y < dim (reduced_node r) ->
  response_cost s (reduced_node r)
    (map (fun id => (id, match edges s !! id with Some e => chosen s (other_of e (reduced_node r)) | None => 0 end)) (reduced_edges r)) y =
  Some (response s (chosen s) r y).
Proof.
  intros Hok [Hv Hids] Hy. destruct (ok_cost n dim s _ Hok Hv) as (c & Hc & Lc & _). unfold response_cost, response. rewrite Hc. cbn [mbind option_bind].
  rewrite (at_Some c y) by lia. cbn [mbind option_bind]. rewrite (ncost_eq _ _ _ _ Hc). generalize (at_ c y). revert Hids.
  induction (reduced_edges r) as [|id ids IH]; intros Hids t; cbn [map fold_left]; [done|]. cbn [mbind option_bind].
  destruct (Hids id ltac:(by left)) as (e & He & Hend). rewrite He. destruct (other_ne n dim s id e _ Hok He Hend) as [_ Ho].
  rewrite (cost_spec n dim s id e) by (try done; by apply chosen_valid). cbn [mbind option_bind]. apply IH. intros j Hj. apply Hids. by right.
Qed.

Lemma propagate_step s r : ok s -> reduced_ok s r ->
  exists fixed x, mapM (fun edge => o ← other s edge (reduced_node r); c ← choices s !! o; Some (edge, c)) (reduced_edges r) = Some fixed /\
    best_response s (reduced_node r) fixed = Some (extend dim s (chosen s) r (reduced_node r), x).
Proof.
  intros Hok Hr. pose proof Hr as [Hv Hids]. rewrite (fixed_spec s _ _ Hok Hids). destruct (ok_cost n dim s _ Hok Hv) as (c & Hc & Lc & _).
  unfold extend. rewrite Nat.eqb_refl. destruct (argmin (map (response s (chosen s) r) (seq 0 (dim (reduced_node r))))) as [b x] eqn:E. eexists _, x. split; [done|].
  unfold best_response. rewrite Hc. cbn [mbind option_bind]. rewrite Lc, (mapM_seq _ (response s (chosen s) r)) by (intros y Hy; apply response_cost_spec; done || lia).
  cbn [mbind option_bind]. by rewrite E.
Qed.

Lemma extend_ext s a a' r i : ok s -> reduced_ok s r -> (forall j, j < n -> a j = a' j) -> i < n -> extend dim s a r i = extend dim s a' r i.
Proof.
  intros Hok [Hv Hids] Haa Hi. unfold extend. destruct (i =? reduced_node r); [|by apply Haa]. do 2 f_equal. apply map_ext. intros y. unfold response.
  generalize (ncost s (reduced_node r) y). revert Hids. induction (reduced_edges r) as [|id ids IH]; intros Hids t; cbn [fold_left]; [done|].
  destruct (Hids id ltac:(by left)) as (e & He & Hend). rewrite He. destruct (other_ne n dim s id e _ Hok He Hend) as [_ Ho]. rewrite (Haa _ Ho). apply IH.
  intros j Hj. apply Hids. by right.
Qed.

Lemma propagate_ext s rs a a' i : ok s -> (forall r, r ∈ rs -> reduced_ok s r) -> (forall j, j < n -> a j = a' j) -> i < n ->
  propagate dim s rs a i = propagate dim s rs a' i.
Proof.
  intros Hok. revert a a'; induction rs as [|r rs IH]; intros a a' Hrs Haa Hi; cbn [propagate fold_left]; [by apply Haa|].
  apply IH; [intros q Hq; apply Hrs; by right| |done]. intros j Hj. apply extend_ext; try done. apply Hrs. by left.
Qed.

(** The loop computes [propagate]; costs and edges stay. *)
Lemma back_propagate_spec rs s : ok s -> (forall r, r ∈ rs -> reduced_ok s r) ->
  exists ch, back_propagate_loop rs s = Some (set_choices ch s) /\ ok (set_choices ch s) /\
    forall i, i < n -> ch !! i = Some (propagate dim s rs (chosen s) i).
Proof.
  revert s; induction rs as [|r rs IH]; intros s Hok Hrs; cbn [back_propagate_loop].
  { exists (choices s). split; [by destruct s|]. split; [by destruct s|]. intros i Hi. cbn. unfold chosen.
    destruct (lookup_lt_is_Some_2 (choices s) i) as [c Hc]; [by rewrite (ok_choices_len n dim s Hok)|]. by rewrite Hc. }
  pose proof (Hrs r ltac:(by left)) as Hr. destruct (propagate_step s r Hok Hr) as (fixed & x & Ef & Eb). cbn zeta. rewrite Ef. cbn [mbind option_bind].
  rewrite Eb. cbn [mbind option_bind]. rewrite vset_Some by (rewrite (ok_choices_len n dim s Hok); apply Hr). cbn [mbind option_bind].
  destruct (extend_best n dim s (chosen s) r Hok (proj1 Hr)) as [Hlt _].
  destruct (IH (set_choices (<[reduced_node r := extend dim s (chosen s) r (reduced_node r)]> (choices s)) s)) as (ch & E & Hok' & Hch).
  { by apply set_choice_ok. } { intros q Hq. apply Hrs. by right. }
  exists ch. split; [exact E|]. split; [exact Hok'|]. intros i Hi. rewrite Hch by done. f_equal. cbn [propagate fold_left].
  change (propagate dim (set_choices ?c s) rs ?a i) with (propagate dim s rs a i).
  apply propagate_ext; [done|intros q Hq; apply Hrs; by right| |done]. intros j Hj. unfold chosen at 1. cbn.
  destruct (Nat.eq_dec j (reduced_node r)) as [->|Hne].
  - rewrite list_lookup_insert_eq by (rewrite (ok_choices_len n dim s Hok); apply Hr). done.
  - rewrite list_lookup_insert_ne by done. unfold extend. by rewrite (proj2 (Nat.eqb_neq _ _) Hne).
Qed.

End run.

(** ** PBQP problems and the solver built from one

    Well-formed problems, their cost, what [add_node] and [add_edge] add to
    it, and the state [new] starts from, whose [total] is that cost. *)
Definition alternatives (p : Problem) (i : nat) : nat := length (default [] (node_costs p !! i)).

Record wf_problem (p : Problem) : Prop := {
  wp_nodes : forall i c, node_costs p !! i = Some c -> c <> [] /\ nonneg c;
  wp_edges : forall l r m, edge_costs p !! (l, r) = Some m -> l < r /\ r < length (node_costs p) /\ wfm (alternatives p l) (alternatives p r) m;
}.

(** The cost of an assignment: its node costs and edge costs, up to the cap. *)
Definition edge_entry (a : nat -> nat) (e : (nat * nat) * Matrix) : Z := mval (snd e) (a (fst (fst e))) (a (snd (fst e))).
Definition raw_cost (p : Problem) (a : nat -> nat) : Z :=
  (zsum (map (fun i => at_ (default [] (node_costs p !! i)) (a i)) (seq 0 (length (node_costs p)))) +
   zsum (map (edge_entry a) (map_to_list (edge_costs p))))%Z.
Definition problem_cost (p : Problem) (a : nat -> nat) : Z := cap (raw_cost p a).

Definition assignment (p : Problem) (a : nat -> nat) : Prop := forall i, i < length (node_costs p) -> a i < alternatives p i.

Lemma zsum_perm l l' : l ≡ₚ l' -> zsum l = zsum l'.
Proof. induction 1; rewrite ?zsum_cons; lia. Qed.

Lemma edge_entry_nonneg p a e : wf_problem p -> e ∈ map_to_list (edge_costs p) -> (0 <= edge_entry a e)%Z.
Proof. destruct e as [[l r] m]. intros Hp He%elem_of_map_to_list. destruct (wp_edges p Hp l r m He) as (_ & _ & Hm). by eapply mval_nonneg. Qed.

Lemma at_default_nonneg p i x : wf_problem p -> (0 <= at_ (default [] (node_costs p !! i)) x)%Z.
Proof.
  intros Hp. apply at_nonneg. destruct (node_costs p !! i) as [c|] eqn:Hc; cbn; [|constructor]. by apply (wp_nodes p Hp i).
Qed.

Lemma raw_cost_nonneg p a : wf_problem p -> (0 <= raw_cost p a)%Z.
Proof.
  intros Hp. unfold raw_cost. apply Z.add_nonneg_nonneg; apply zsum_nonneg.
  - intros i _. by apply at_default_nonneg.
  - intros e He. by eapply edge_entry_nonneg.
Qed.

(** ** Building a problem *)
Lemma empty_problem_wf : wf_problem empty_problem.
Proof. split; [by intros i c|]. intros l r m. cbn. by rewrite lookup_empty. Qed.

Lemma add_node_spec p c : wf_problem p -> c <> [] -> nonneg c -> exists p', add_node c p = Some (length (node_costs p), p') /\ wf_problem p' /\
  length (node_costs p') = S (length (node_costs p)) /\ alternatives p' (length (node_costs p)) = length c /\
  (forall i, i < length (node_costs p) -> alternatives p' i = alternatives p i) /\
  forall a, problem_cost p' a = cap (raw_cost p a + at_ c (a (length (node_costs p)))).
Proof.
  intros Hp Hc Nc. destruct c as [|x c]; [done|]. eexists. split; [done|]. set (p' := mkProblem _ _). set (k := length (node_costs p)).
  assert (forall i, i < k -> node_costs p' !! i = node_costs p !! i) as Hold by (intros i Hi; cbn; by rewrite lookup_app_l).
  assert (node_costs p' !! k = Some (x :: c)) as Hnew by (cbn; by rewrite lookup_app_r, Nat.sub_diag).
  assert (forall i, i < k -> alternatives p' i = alternatives p i) as Halt by (intros i Hi; unfold alternatives; by rewrite Hold).
  assert (length (node_costs p') = S k) as Hlen by (cbn; rewrite length_app; cbn; lia). split; [split|].
  - intros i c0 H0. cbn in H0. apply lookup_snoc_cases in H0 as [H0|[-> ->]]; [by apply (wp_nodes p Hp i)|done].
  - intros l r m H0. destruct (wp_edges p Hp l r m H0) as (H1 & H2 & H3). fold k in H2. rewrite !Halt by lia. do 2 (split; [lia|]). done.
  - split; [done|]. split; [unfold alternatives; by rewrite Hnew|]. split; [done|]. intros a. unfold problem_cost, raw_cost. f_equal. rewrite Hlen.
    assert (zsum (map (fun i => at_ (default [] (node_costs p' !! i)) (a i)) (seq 0 k)) =
      zsum (map (fun i => at_ (default [] (node_costs p !! i)) (a i)) (seq 0 k))) as E.
    { apply zsum_ext. intros i Hi%elem_of_seq. rewrite Hold by lia. done. }
    rewrite seq_S, map_app, zsum_app, E. cbn [map Nat.add]. rewrite zsum_cons, Hnew. change (zsum []) with 0%Z.
    change (edge_costs p') with (edge_costs p). change (default [] (Some (x :: c))) with (x :: c). fold k. lia.
Qed.

Lemma raw_cost_insert p k m a : edge_costs p !! k = None ->
  raw_cost (mkProblem (node_costs p) (<[k := m]> (edge_costs p))) a = (raw_cost p a + edge_entry a (k, m))%Z.
Proof.
  intros Hk. unfold raw_cost. cbn [node_costs edge_costs].
  rewrite (zsum_perm (map (edge_entry a) (map_to_list (<[k:=m]> (edge_costs p)))) (map (edge_entry a) ((k, m) :: map_to_list (edge_costs p))))
    by by apply Permutation_map, map_to_list_insert.
  cbn [map]. rewrite zsum_cons. lia.
Qed.

Lemma raw_cost_update p k m old a : edge_costs p !! k = Some old ->
  raw_cost (mkProblem (node_costs p) (<[k := m]> (edge_costs p))) a = (raw_cost p a - edge_entry a (k, old) + edge_entry a (k, m))%Z.
Proof.
  intros Hold. assert (edge_costs p = <[k := old]> (delete k (edge_costs p))) as Eold by (by rewrite insert_delete_id).
  assert (<[k := m]> (edge_costs p) = <[k := m]> (delete k (edge_costs p))) as Enew by (by rewrite insert_delete_eq).
  set (q := mkProblem (node_costs p) (delete k (edge_costs p))).
  assert (edge_costs q !! k = None) as Hno by (cbn; by rewrite lookup_delete_eq).
  pose proof (raw_cost_insert q k m a Hno) as H1. pose proof (raw_cost_insert q k old a Hno) as H2. cbn [node_costs edge_costs q] in *.
  rewrite <- Enew in H1. rewrite <- Eold in H2. assert (mkProblem (node_costs p) (edge_costs p) = p) as Ep by by destruct p. rewrite Ep in H2. lia.
Qed.

Lemma add_edge_spec p lhs rhs m : wf_problem p -> lhs < length (node_costs p) -> rhs < length (node_costs p) -> lhs <> rhs ->
  wfm (alternatives p lhs) (alternatives p rhs) m -> exists p', add_edge lhs rhs m p = Some p' /\ wf_problem p' /\ node_costs p' = node_costs p /\
  forall a, assignment p a -> problem_cost p' a = cap (raw_cost p a + mval m (a lhs) (a rhs)).
Proof.
  intros Hp Hl Hr Hne Hm. unfold add_edge. rewrite (proj2 (Nat.eqb_neq lhs rhs) Hne).
  assert (exists l r m', (if lhs <? rhs then Some (lhs, rhs, m) else t ← transposed m; Some (rhs, lhs, t)) = Some (l, r, m') /\ l < r /\ r < length (node_costs p) /\
    wfm (alternatives p l) (alternatives p r) m' /\ forall a, assignment p a -> mval m' (a l) (a r) = mval m (a lhs) (a rhs)) as (l & r & m' & -> & Hlr & Hrn & Hm' & Hv).
  { destruct (Nat.ltb_spec lhs rhs).
    - exists lhs, rhs, m. auto.
    - destruct (transposed_spec _ _ m Hm) as (t & -> & Ht & Hv). exists rhs, lhs, t. split; [done|]. split; [lia|]. split; [done|]. split; [done|]. intros a Ha. by apply Hv; apply Ha. }
  cbn [mbind option_bind]. destruct (lookup_lt_is_Some_2 (node_costs p) l) as [cl Hcl]; [lia|]. destruct (lookup_lt_is_Some_2 (node_costs p) r) as [cr Hcr]; [lia|].
  rewrite Hcl. cbn [mbind option_bind]. rewrite Hcr. cbn [mbind option_bind].
  assert (alternatives p l = length cl) as El by (unfold alternatives; by rewrite Hcl). assert (alternatives p r = length cr) as Er by (unfold alternatives; by rewrite Hcr).
  rewrite (wfm_rows _ _ _ Hm'), (wfm_cols _ _ _ Hm'), El, Er, !Nat.eqb_refl. cbn [andb negb]. cbn zeta.
  set (m2 := match edge_costs p !! (l, r) with Some _ => _ | None => _ end). eexists. split; [done|].
  assert (wfm (alternatives p l) (alternatives p r) m2 /\ forall a, assignment p a ->
    cap (raw_cost (mkProblem (node_costs p) (<[(l, r) := m2]> (edge_costs p))) a) = cap (raw_cost p a + mval m' (a l) (a r))) as [Hm2 Hc2].
  { unfold m2. destruct (edge_costs p !! (l, r)) as [old|] eqn:Eold.
    - destruct (wp_edges p Hp l r old Eold) as (_ & _ & Hwo). destruct (charge_cells_spec _ _ old m' Hwo Hm') as [H1 H2]. split; [done|]. intros a Ha.
      rewrite (raw_cost_update p (l, r) _ old a Eold). unfold edge_entry. cbn [fst snd]. rewrite H2 by (apply Ha; lia).
      assert (0 <= raw_cost p a - mval old (a l) (a r))%Z as Hrest.
      { pose proof (raw_cost_update p (l, r) (zero (alternatives p l) (alternatives p r)) old a Eold) as H. unfold edge_entry in H. cbn [fst snd] in H.
        destruct (zero_spec (alternatives p l) (alternatives p r)) as [Hz Hz0]. rewrite Hz0 in H.
        assert (0 <= raw_cost (mkProblem (node_costs p) (<[(l, r) := zero (alternatives p l) (alternatives p r)]> (edge_costs p))) a)%Z; [|lia].
        apply raw_cost_nonneg. split; [apply (wp_nodes p Hp)|]. intros l0 r0 m0. cbn. rewrite lookup_insert_Some. intros [[[= <- <-] <-]|[_ H0]]; [done|by apply (wp_edges p Hp)]. }
      rewrite cap_add_r by lia. f_equal. lia.
    - split; [done|]. intros a Ha. by rewrite raw_cost_insert. }
  split; [split; [apply (wp_nodes p Hp)|]|split; [done|]].
  - intros l0 r0 m0. cbn. rewrite lookup_insert_Some. intros [[[= <- <-] <-]|[_ H0]]; [done|by apply (wp_edges p Hp)].
  - intros a Ha. unfold problem_cost. rewrite Hc2 by done. by rewrite Hv.
Qed.

(** ** The solver of a problem *)
Section link_all.
Context (n : nat) (dim : nat -> nat).
#[local] Notation ok := (ok n dim).
#[local] Notation valid := (valid n dim).

Record fresh (s : Solver) : Prop := {
  fr_ok : ok s;
  fr_tidy : tidy [] s;
  fr_watched : watched s;
  fr_alive : forall i, i < n -> alive s !! i = Some true;
  fr_reduced : reduced s = [];
}.

Lemma link_all_spec es s : fresh s -> NoDup (map fst es) ->
  (forall l r m, ((l, r), m) ∈ es -> l < r /\ r < n /\ wfm (dim l) (dim r) m /\ between s !! (l, r) = None) ->
  exists s', link_all es s = Some s' /\ fresh s' /\
    forall a, valid a -> total s' a = cap (nodes_cost s a + edges_cost s a + zsum (map (edge_entry a) es)).
Proof.
  revert s; induction es as [|[[l r] m] es IH]; intros s HF Hnd Hes; cbn [link_all].
  { exists s. split; [done|]. split; [done|]. intros a _. unfold total. cbn [map]. change (zsum []) with 0%Z. f_equal. lia. }
  destruct (Hes l r m ltac:(by left)) as (Hlr & Hr & Hm & Hb). destruct HF as [Hok HT Hw Ha Hred]. cbn [map] in Hnd. apply list.NoDup_cons in Hnd as [Hnot Hnd].
  assert (pair_key l r = (l, r)) as Hk by (unfold pair_key; f_equal; lia).
  destruct (link_spec n dim s l r m Hok ltac:(lia) Hr ltac:(lia) Hm ltac:(by rewrite Hk) (Ha l ltac:(lia)) (Ha r Hr)) as (s1 & -> & Hok1 & Hev & Hwo & Hch & e1 & He1 & Hk1).
  cbn [mbind option_bind]. destruct (IH s1) as (s' & E & HF' & Ht); [|done|..].
  - split; [done|by apply (ev_tidy _ _ _ Hev)|by apply (ev_watched _ _ _ Hev)|by rewrite (ev_alive _ _ _ Hev)|by rewrite (ev_reduced _ _ _ Hev)].
  - intros l' r' m' Hin. destruct (Hes l' r' m' ltac:(by right)) as (H1 & H2 & H3 & H4). do 3 (split; [done|]).
    destruct (between s1 !! (l', r')) as [id|] eqn:Eb; [|done]. exfalso. apply (ok_between n dim s1 Hok1) in Eb as (e & He & Hlive & Hke).
    destruct (Nat.eq_dec id (length (edges s))) as [->|Hne].
    + assert (e = e1) as -> by congruence. apply Hnot. apply list_elem_of_fmap. exists ((l', r'), m'). split; [|done]. cbn. congruence.
    + rewrite (wo_edges _ _ _ _ Hwo) in He by done. assert (between s !! (l', r') = Some id) as Hs by (apply (ok_between n dim s Hok); by exists e). congruence.
  - exists s'. split; [done|]. split; [done|]. intros a Hv. rewrite Ht by done. cbn [map]. rewrite zsum_cons. specialize (Hch a Hv). unfold total in Hch.
    assert (0 <= zsum (map (edge_entry a) es))%Z as Hnn.
    { apply zsum_nonneg. intros [[l' r'] m'] Hin. destruct (Hes l' r' m' ltac:(by right)) as (_ & _ & H3 & _). by eapply mval_nonneg. }
    rewrite <- cap_add_l, Hch, cap_add_l by done. f_equal. unfold edge_entry at 2. cbn. lia.
Qed.

End link_all.

Lemma sorted_edges_perm p : sorted_edges p ≡ₚ map_to_list (edge_costs p).
Proof. apply merge_sort_Permutation. Qed.

Lemma unlinked_fresh p : wf_problem p -> fresh (length (node_costs p)) (alternatives p) (Pbqp.unlinked p).
Proof.
  intros Hp. set (n := length (node_costs p)). assert (forall id e, edges (Pbqp.unlinked p) !! id = Some e -> False) as He by done.
  split; [|by intros id i (e & ? & _)| | |done].
  - split; cbn; rewrite ?length_replicate; try done.
    + intros i Hi. destruct (lookup_lt_is_Some_2 (node_costs p) i Hi) as [c Hc]. destruct (wp_nodes p Hp i c Hc) as [Hne _]. unfold alternatives. rewrite Hc. destruct c; [done|cbn; lia].
    + intros i c Hc. unfold alternatives. rewrite Hc. split; [done|]. by apply (wp_nodes p Hp i).
    + intros i c [-> Hi]%lookup_replicate. destruct (lookup_lt_is_Some_2 (node_costs p) i Hi) as [c Hc]. destruct (wp_nodes p Hp i c Hc) as [Hne _]. unfold alternatives. rewrite Hc. destruct c; [done|cbn; lia].
    + intros i l [-> _]%lookup_replicate. constructor.
    + intros i l id [-> _]%lookup_replicate. split; [set_solver|]. by intros (e & ? & _).
    + intros k id. rewrite lookup_empty. split; [done|]. by intros (e & ? & _).
    + intros i Hi%elem_of_seq. lia.
    + intros r Hr. set_solver.
  - intros i l Hl _ _. cbn in *. apply lookup_lt_Some in Hl. rewrite length_replicate in Hl. apply elem_of_seq. lia.
  - intros i Hi. cbn. by apply lookup_replicate_2.
Qed.

(** [new] starts from the cost of the problem. *)
Lemma new_spec p : wf_problem p -> exists s, new p = Some s /\ fresh (length (node_costs p)) (alternatives p) s /\
  forall a, assignment p a -> total s a = problem_cost p a.
Proof.
  intros Hp. pose proof (unlinked_fresh p Hp) as HF. pose proof (sorted_edges_perm p) as HP.
  destruct (link_all_spec _ _ (sorted_edges p) _ HF) as (s & E & HF' & Ht).
  - rewrite (Permutation_map fst HP). apply NoDup_fst_map_to_list.
  - intros l r m Hin. rewrite HP in Hin. apply elem_of_map_to_list in Hin. destruct (wp_edges p Hp l r m Hin) as (H1 & H2 & H3). do 3 (split; [done|]). cbn. apply lookup_empty.
  - exists s. split; [done|]. split; [done|]. intros a Ha. rewrite Ht by done. unfold problem_cost, raw_cost. f_equal.
    rewrite (zsum_perm _ _ (Permutation_map (edge_entry a) HP)). f_equal. change (edges_cost (Pbqp.unlinked p) a) with 0%Z. rewrite Z.add_0_r.
    apply zsum_ext. intros i Hi%elem_of_seq. unfold node_part, is_alive. cbn. rewrite lookup_replicate_2 by (cbn in Hi; lia). done.
Qed.
