(* ===== verification/PbqpTheorems.v ===== *)
(** * The PBQP solver: what [Problem::solve] promises

    The solve is total and gives every node one of its alternatives; its
    verdict [infeasible] is exact; the reductions keep the optimum, and a run
    that needs no decision is optimal. *)
From stdpp Require Import sorting.
From S2P Require Import Prelude Words Pbqp PbqpSpec PbqpCost PbqpReduce PbqpMerge PbqpRun.
#[local] Open Scope nat_scope.

(** ** The run of a problem *)
Lemma count_alive_lt n dim s : ok n dim s -> (count_alive s < Z.of_nat (S (length (costs s))))%Z.
Proof. intros Hok. pose proof (count_alive_bounds s). rewrite (ok_alive_len n dim s Hok) in *. rewrite (ok_costs_len n dim s Hok). lia. Qed.

Lemma taken_ok n dim s : ok n dim s -> ok n dim (set_reduced [] s) /\ forall r, r ∈ reduced s -> reduced_ok n (set_reduced [] s) r.
Proof. intros Hok. split; [split; try apply Hok; intros r Hr; set_solver|]. intros r Hr. by apply (ok_reduced n dim s Hok). Qed.

Lemma back_propagate_run n dim s : ok n dim s -> exists ch, back_propagate s = Some (set_choices ch (set_reduced [] s)) /\
  ok n dim (set_choices ch (set_reduced [] s)) /\ forall i, i < n -> ch !! i = Some (propagate dim s (reduced s) (chosen s) i).
Proof. intros Hok. destruct (taken_ok n dim s Hok) as [H1 H2]. by apply (back_propagate_spec n dim (reduced s) (set_reduced [] s)). Qed.

(** The choices of a run are alternatives of their nodes. *)
Definition in_range (p : Problem) (choices : list nat) : Prop :=
  length choices = length (node_costs p) /\ forall i c, choices !! i = Some c -> c < alternatives p i.

Lemma run_spec p ranked s : fresh (length (node_costs p)) (alternatives p) s -> (forall i, i ∈ ranked -> i < length (node_costs p)) ->
  exists ch, run ranked s = Some ch /\ in_range p ch.
Proof.
  intros [Hok HT Hw _ _] Hr. destruct (run_loop_spec _ _ _ ranked s Hok HT Hw Hr (count_alive_lt _ _ _ Hok)) as (s' & E & Hok').
  destruct (back_propagate_run _ _ s' Hok') as (ch & Eb & Hok2 & _). exists ch. unfold run. rewrite E. cbn [mbind option_bind]. rewrite Eb. cbn [mbind option_bind].
  split; [done|]. split; [apply (ok_choices_len _ _ _ Hok2)|apply (ok_choices _ _ _ Hok2)].
Qed.

(** ** Ranks *)
Lemma fold_vset {A B} (pos : B -> nat) (val : B -> A) l a : (forall x, x ∈ l -> pos x < length a) ->
  exists a', fold_left (fun a x => a ← a; vset a (pos x) (val x)) l (Some a) = Some a' /\ length a' = length a /\
    forall i, (exists x, x ∈ l /\ pos x = i /\ a' !! i = Some (val x)) \/ ((forall x, x ∈ l -> pos x <> i) /\ a' !! i = a !! i).
Proof.
  revert a; induction l as [|x l IH]; intros a Hl; cbn [fold_left]; [exists a; split; [done|]; split; [done|]; intros i; right; split; [set_solver|done]|].
  cbn [mbind option_bind]. rewrite vset_Some by (apply Hl; by left). destruct (IH (<[pos x := val x]> a)) as (a' & E & L & V).
  { intros y Hy. rewrite length_insert. apply Hl. by right. }
  exists a'. split; [done|]. split; [by rewrite L, length_insert|]. intros i. destruct (V i) as [(y & Hy & Hp & Hv)|[Hno Hv]]; [left; exists y; split; [by right|done]|].
  destruct (Nat.eq_dec (pos x) i) as [<-|Hne].
  - left. exists x. split; [by left|]. split; [done|]. rewrite Hv. apply list_lookup_insert_eq, Hl. by left.
  - right. split; [intros y [->|Hy]%elem_of_cons; [done|by apply Hno]|]. rewrite Hv. by apply list_lookup_insert_ne.
Qed.

Lemma ranked_nodes_spec order count : (forall i, i ∈ order -> i < count) -> exists ranked, ranked_nodes order count = Some ranked /\
  (forall i, i ∈ ranked <-> i < count) /\ (exists l, ranked = order ++ l) /\ count <= length ranked.
Proof.
  intros Ho. unfold ranked_nodes. destruct (fold_vset (fun x : nat => x) (fun _ => true) order (replicate count false)) as (a & -> & L & V).
  { intros x Hx. rewrite length_replicate. by apply Ho. }
  cbn [mbind option_bind]. eexists. split; [done|]. set (rest := List.filter _ _).
  assert (forall i, i ∈ order ++ rest <-> i < count) as Hin.
  { intros i. rewrite elem_of_app. unfold rest. rewrite (list_elem_of_In (List.filter _ _)), filter_In, <- list_elem_of_In, elem_of_seq. split; [intros [Hi|[Hi _]]; [by apply Ho|lia]|].
    intros Hi. destruct (V i) as [(x & Hx & <- & _)|[_ Hv]]; [by left|]. right. split; [lia|]. rewrite Hv, lookup_replicate_2 by done. done. }
  split; [done|]. split; [by eexists|]. rewrite <- (length_seq count 0) at 1. apply NoDup_incl_length; [apply seq_NoDup|].
  intros x Hx. apply list_elem_of_In, Hin. apply in_seq in Hx. lia.
Qed.

Lemma ranks_spec ranked count : (forall i, i ∈ ranked <-> i < count) -> count <= length ranked -> exists rank, ranks ranked = Some rank /\
  length rank = length ranked /\ forall i, i < count -> exists k, rank !! i = Some k /\ ranked !! k = Some i.
Proof.
  intros Hin Hlen. unfold ranks. destruct (fold_vset (fun x : nat * nat => snd x) (fun x => fst x) (imap pair ranked) (replicate (length ranked) 0)) as (rank & E & L & V).
  { intros [k i] Hx. apply elem_of_lookup_imap in Hx as (k' & i' & [= <- <-] & Hx). rewrite length_replicate. cbn. assert (i < count) by (apply Hin; by eapply list_elem_of_lookup_2). lia. }
  rewrite length_replicate in L. exists rank. split; [rewrite <- E; apply fold_left_eq; by intros ? [? ?]|]. split; [done|]. intros i Hi.
  destruct (V i) as [([k j] & Hx & <- & Hv)|[Hno _]].
  - apply elem_of_lookup_imap in Hx as (k' & i' & [= <- <-] & Hx). exists k. auto.
  - exfalso. apply Hin, list_elem_of_lookup in Hi as [k Hk]. apply (Hno (k, i)); [|done]. apply elem_of_lookup_imap. by exists k, i.
Qed.

(** ** The verdict *)
Definition pick (choices : list nat) (i : nat) : nat := default 0 (choices !! i).
Definition node_cost (p : Problem) (i x : nat) : Z := at_ (default [] (node_costs p !! i)) x.

Lemma in_range_pick p ch : wf_problem p -> in_range p ch -> assignment p (pick ch).
Proof.
  intros Hp [L H] i Hi. unfold pick. destruct (lookup_lt_is_Some_2 ch i) as [c Hc]; [by rewrite L|]. rewrite Hc. by apply (H i).
Qed.

Lemma mapM_all {A B} (f : A -> option B) (g : A -> B) l : (forall x, x ∈ l -> f x = Some (g x)) -> mapM f l = Some (map g l).
Proof.
  induction l as [|x l IH]; intros H; [done|]. change (mapM f (x :: l)) with (y ← f x; k ← mapM f l; Some (y :: k)). rewrite H by by left.
  cbn [mbind option_bind]. rewrite IH by (intros y Hy; apply H; by right). done.
Qed.

Definition stuck (p : Problem) (ch : list nat) (i : nat) : bool := negb (is_finite (node_cost p i (pick ch i))).

Lemma stuck_nodes_spec p ch : in_range p ch -> exists l, stuck_nodes p ch = Some l /\ length l = length ch /\
  forall i, i < length ch -> l !! i = Some (stuck p ch i).
Proof.
  intros [L H]. unfold stuck_nodes. rewrite (mapM_all _ (fun x : nat * nat => stuck p ch (fst x))).
  - eexists. split; [done|]. split; [by rewrite length_map, length_imap|]. intros i Hi. rewrite list_lookup_fmap, list_lookup_imap.
    destruct (lookup_lt_is_Some_2 ch i Hi) as [c Hc]. by rewrite Hc.
  - intros [i c] Hx. apply elem_of_lookup_imap in Hx as (i' & c' & [= <- <-] & Hc). pose proof (lookup_lt_Some _ _ _ Hc) as Hi. rewrite L in Hi.
    destruct (lookup_lt_is_Some_2 (node_costs p) i Hi) as [cs Hcs]. rewrite Hcs. cbn [mbind option_bind]. specialize (H i c Hc). unfold alternatives in H. rewrite Hcs in H. cbn in H.
    rewrite (at_Some cs c H). cbn [mbind option_bind]. unfold stuck, node_cost, pick. cbn [fst]. by rewrite Hcs, Hc.
Qed.

(** The edge [e] is at fault, and [i] is its later-ranked end. *)
Definition blames (p : Problem) (ch rank : list nat) (e : (nat * nat) * Matrix) (i : nat) : Prop :=
  let '((l, r), m) := e in
  stuck p ch l = false /\ stuck p ch r = false /\ (INF_COST <= mval m (pick ch l) (pick ch r))%Z /\
  i = if default 0 (rank !! r) <? default 0 (rank !! l) then l else r.

Section blame.
Context (p : Problem) (ch rank : list nat) (st : list bool) (Hp : wf_problem p) (Hch : in_range p ch).
Context (Hst : forall i, i < length ch -> st !! i = Some (stuck p ch i)) (Hrank : length ch <= length rank).

Lemma blame_edge_spec e f : e ∈ map_to_list (edge_costs p) -> length f = length ch -> exists f', blame_edge ch rank st (Some f) e = Some f' /\
  length f' = length ch /\ forall i, f' !! i = Some true <-> f !! i = Some true \/ blames p ch rank e i.
Proof.
  destruct e as [[l r] m]. intros He%elem_of_map_to_list Lf. destruct (wp_edges p Hp l r m He) as (Hlr & Hr & Hm). pose proof Hch as [L Hc].
  pose proof (in_range_pick p ch Hp Hch) as Ha. unfold blame_edge, blames. cbn [mbind option_bind]. rewrite (Hst l) by lia. cbn [mbind option_bind].
  rewrite (Hst r) by lia. cbn [mbind option_bind]. destruct (stuck p ch l) eqn:El, (stuck p ch r) eqn:Er; cbn [orb]; try (exists f; split; [done|]; split; [done|]; naive_solver).
  destruct (lookup_lt_is_Some_2 ch l) as [cl Hcl]; [lia|]. destruct (lookup_lt_is_Some_2 ch r) as [cr Hcr]; [lia|]. rewrite Hcl. cbn [mbind option_bind]. rewrite Hcr. cbn [mbind option_bind].
  pose proof (Ha l ltac:(lia)) as Hpl. pose proof (Ha r Hr) as Hpr. unfold pick in *. rewrite Hcl in *. rewrite Hcr in *. cbn [default] in *. unfold id in *.
  rewrite (get_spec _ _ m cl cr Hm Hpl Hpr). cbn [mbind option_bind]. destruct (is_finite (mval m cl cr)) eqn:Hf.
  { apply is_finite_spec in Hf. exists f. split; [done|]. split; [done|]. intros i. split; [by left|]. intros [|(_ & _ & ? & _)]; [done|lia]. }
  destruct (lookup_lt_is_Some_2 rank l) as [rl Hrl]; [lia|]. destruct (lookup_lt_is_Some_2 rank r) as [rr Hrr]; [lia|].
  rewrite Hrl. cbn [mbind option_bind]. rewrite Hrr. cbn [mbind option_bind default]. set (b := if rr <? rl then l else r). assert (b < length f) as Hb by (unfold b; destruct (_ <? _); lia).
  rewrite vset_Some by done. eexists. split; [done|]. split; [by rewrite length_insert|]. intros i. rewrite list_lookup_insert_Some.
  assert (INF_COST <= mval m cl cr)%Z as Hge by (apply Z.nlt_ge; intros ?%is_finite_spec; congruence).
  destruct (Nat.eq_dec b i) as [->|Hne]; naive_solver.
Qed.

Lemma blame_edges_spec es f : (forall e, e ∈ es -> e ∈ map_to_list (edge_costs p)) -> length f = length ch ->
  exists f', fold_left (blame_edge ch rank st) es (Some f) = Some f' /\ length f' = length ch /\
    forall i, f' !! i = Some true <-> f !! i = Some true \/ exists e, e ∈ es /\ blames p ch rank e i.
Proof.
  revert f; induction es as [|e es IH]; intros f Hes Lf; cbn [fold_left]; [exists f; split; [done|]; split; [done|]; set_solver|].
  destruct (blame_edge_spec e f (Hes e ltac:(by left)) Lf) as (f1 & -> & L1 & V1). destruct (IH f1) as (f' & E & L' & V'); [intros x Hx; apply Hes; by right|done|].
  exists f'. split; [done|]. split; [done|]. intros i. rewrite V', V1. setoid_rewrite elem_of_cons. naive_solver.
Qed.

End blame.

(** Everything [solve] returns. *)
Definition at_fault (p : Problem) (ch rank : list nat) (i : nat) : Prop :=
  stuck p ch i = true \/ exists e, e ∈ map_to_list (edge_costs p) /\ blames p ch rank e i.

Lemma solve_spec order p : wf_problem p -> (forall i, i ∈ order -> i < length (node_costs p)) ->
  exists ranked rank s ch sol, ranked_nodes order (length (node_costs p)) = Some ranked /\ ranks ranked = Some rank /\
    (forall i, i ∈ ranked <-> i < length (node_costs p)) /\ (exists l, ranked = order ++ l) /\
    (forall i, i < length (node_costs p) -> exists k, rank !! i = Some k /\ ranked !! k = Some i) /\
    new p = Some s /\ run ranked s = Some ch /\ in_range p ch /\ solve order p = Some sol /\ s_choices sol = ch /\
    (forall i, i ∈ s_infeasible sol <-> i < length (node_costs p) /\ at_fault p ch rank i) /\ Sorted (rank_le rank) (s_infeasible sol).
Proof.
  intros Hp Ho. set (n := length (node_costs p)) in *. destruct (ranked_nodes_spec order n Ho) as (ranked & Er & Hin & Hpre & Hlen).
  destruct (ranks_spec ranked n Hin Hlen) as (rank & Ek & Lk & Hk). destruct (new_spec p Hp) as (s & Es & HF & _).
  destruct (run_spec p ranked s HF) as (ch & Ec & Hch); [intros i; by apply Hin|]. pose proof Hch as [Lch Hr]. fold n in Lch.
  destruct (stuck_nodes_spec p ch Hch) as (st & Est & Lst & Hst).
  destruct (blame_edges_spec p ch rank st Hp Hch Hst ltac:(lia) (map_to_list (edge_costs p)) st) as (f & Ef & Lf & Hf); [done|done|].
  unfold solve. fold n. rewrite Er. cbn [mbind option_bind]. rewrite Ek. cbn [mbind option_bind]. rewrite Es. cbn [mbind option_bind]. rewrite Ec. cbn [mbind option_bind].
  rewrite Est. cbn [mbind option_bind]. rewrite Ef. cbn [mbind option_bind]. cbn zeta. eexists ranked, rank, s, ch, _. do 9 (split; [done|]). split; [done|]. cbn [s_infeasible]. split.
  - intros i. rewrite merge_sort_Permutation, list_elem_of_In, filter_In, in_seq. unfold at_fault. split.
    + intros [Hi Hb]. assert (i < n) as Hin' by lia. split; [done|]. destruct (f !! i) as [b|] eqn:Eb; [|done]. cbn in Hb. subst b.
      destruct (proj1 (Hf i) Eb) as [H|H]; [left|by right]. rewrite Hst in H by lia. congruence.
    + intros [Hi Hor]. split; [lia|]. assert (f !! i = Some true) as ->; [|done]. apply Hf. destruct Hor as [H|H]; [left|by right]. rewrite Hst by lia. congruence.
  - apply Sorted_merge_sort. intros a b. unfold rank_le. lia.
Qed.

(** C35: C34. [solve] returns, for every well-formed problem and every order of
    its nodes: each loop ends within its fuel, no lookup is out of range, and
    each node gets one of its alternatives. *)
Theorem pbqp_solve_total p order : wf_problem p -> (forall i, i ∈ order -> i < length (node_costs p)) ->
  exists sol, solve order p = Some sol /\ length (s_choices sol) = node_count p /\
    forall i c, s_choices sol !! i = Some c -> c < alternatives p i.
Proof.
  intros Hp Ho. destruct (solve_spec order p Hp Ho) as (ranked & rank & s & ch & sol & _ & _ & _ & _ & _ & _ & _ & [L H] & E & <- & _). by exists sol.
Qed.

(** C36: C35. [infeasible] lists, earliest rank first, each node whose own choice
    costs infinity and the later-ranked end of each edge whose two finite
    choices do; it is empty exactly when no chosen cost is infinite. *)
Theorem pbqp_infeasible p order sol : wf_problem p -> (forall i, i ∈ order -> i < length (node_costs p)) -> solve order p = Some sol ->
  exists ranked rank, ranked_nodes order (node_count p) = Some ranked /\ ranks ranked = Some rank /\
    (forall i, i < node_count p -> exists k, rank !! i = Some k /\ ranked !! k = Some i) /\ Sorted (rank_le rank) (s_infeasible sol) /\
    (forall i, i ∈ s_infeasible sol <-> i < node_count p /\ at_fault p (s_choices sol) rank i) /\
    (s_infeasible sol = [] <->
      (forall i, i < node_count p -> (node_cost p i (pick (s_choices sol) i) < INF_COST)%Z) /\
      (forall l r m, edge_costs p !! (l, r) = Some m -> (mval m (pick (s_choices sol) l) (pick (s_choices sol) r) < INF_COST)%Z)).
Proof.
  intros Hp Ho Hsol. destruct (solve_spec order p Hp Ho) as (ranked & rank & s & ch & sol' & Er & Ek & _ & _ & Hk & _ & _ & Hch & E & Ec & Hinf & Hs).
  assert (sol' = sol) as -> by congruence. rewrite Ec. exists ranked, rank. do 5 (split; [done|]). assert (forall i, stuck p ch i = false <-> (node_cost p i (pick ch i) < INF_COST)%Z) as Hst.
  { intros i. unfold stuck. rewrite <- is_finite_spec. by destruct (is_finite _). }
  split.
  - intros Hnil. assert (forall i, i < node_count p -> ~ at_fault p ch rank i) as Hno by (intros i Hi Hf; assert (i ∈ s_infeasible sol) as Hx by (by apply Hinf); rewrite Hnil in Hx; set_solver).
    assert (forall i, i < node_count p -> stuck p ch i = false) as Hfin by (intros i Hi; destruct (stuck p ch i) eqn:Ei; [by exfalso; apply (Hno i Hi); left|done]).
    split; [intros i Hi; by apply Hst, Hfin|]. intros l r m He. destruct (wp_edges p Hp l r m He) as (Hlr & Hr & _). apply Z.nle_gt. intros Hge.
    unfold node_count in *. apply (Hno (if default 0 (rank !! r) <? default 0 (rank !! l) then l else r)); [destruct (_ <? _); lia|]. right. exists ((l, r), m). split; [by apply elem_of_map_to_list|].
    split; [apply Hfin; lia|]. split; [by apply Hfin|done].
  - intros [Hn He]. apply elem_of_nil_inv. intros i [Hi [Hstuck|([[l r] m] & Hin%elem_of_map_to_list & _ & _ & Hge & _)]]%Hinf.
    + specialize (Hn i Hi). apply Hst in Hn. congruence.
    + specialize (He l r m Hin). lia.
Qed.

(** ** The optimum *)
Lemma total_ext n dim s a b : ok n dim s -> (forall i, i < n -> a i = b i) -> total s a = total s b.
Proof.
  intros Hok Hab. unfold total. f_equal. f_equal; apply zsum_ext.
  - intros i Hi%elem_of_seq. rewrite (ok_costs_len n dim s Hok) in Hi. unfold node_part. by rewrite Hab by lia.
  - intros e [id He]%list_elem_of_lookup. destruct (ok_edges n dim s Hok id e He) as (? & ? & _). unfold edge_part, ecost. by rewrite !Hab.
Qed.

Lemma total_dead n dim s a : ok n dim s -> tidy [] s -> (forall i, i < n -> alive s !! i <> Some true) -> total s a = 0%Z.
Proof.
  intros Hok HT Hd. assert (nodes_cost s a = 0%Z /\ edges_cost s a = 0%Z) as [E1 E2]; [|by unfold total; rewrite E1, E2].
  assert (forall k, zsum (replicate k 0%Z) = 0%Z) as Hz by (induction k; [done|cbn; by rewrite zsum_cons]). split.
  - unfold nodes_cost. rewrite (zsum_ext _ (fun _ => 0%Z)); [induction (seq 0 (length (costs s))) as [|x l IH]; [done|cbn; by rewrite zsum_cons]|].
    intros i Hi%elem_of_seq. rewrite (ok_costs_len n dim s Hok) in Hi. unfold node_part. destruct (is_alive s i) eqn:Ei; [|done]. apply is_alive_spec in Ei. by apply Hd in Ei; [|lia].
  - unfold edges_cost. rewrite (zsum_ext _ (fun _ => 0%Z)); [induction (edges s) as [|x l IH]; [done|cbn; by rewrite zsum_cons]|].
    intros e [id He]%list_elem_of_lookup. unfold edge_part. destruct (e_live e) eqn:El; [|done]. destruct (tidy_ends s id e HT He El) as [H _].
    destruct (ok_edges n dim s Hok id e He) as (Hl & _). by apply Hd in H.
Qed.

(** Whether the solve of [p] ends without a heuristic decision. *)
Definition undecided (order : list nat) (p : Problem) : bool :=
  match ranked ← ranked_nodes order (length (node_costs p)); s ← new p; exact_loop (S (length (costs s))) ranked s with Some _ => true | None => false end.

(** C37: C36. When the reductions and merges alone finish the graph, no assignment
    costs less than the solution. *)
Theorem pbqp_optimal p order sol : wf_problem p -> (forall i, i ∈ order -> i < length (node_costs p)) -> undecided order p = true -> solve order p = Some sol ->
  forall b, assignment p b -> (problem_cost p (pick (s_choices sol)) <= problem_cost p b)%Z.
Proof.
  intros Hp Ho Hu Hsol b Hb. destruct (solve_spec order p Hp Ho) as (ranked & rank & s & ch & sol' & Er & _ & Hin & _ & _ & Es & Ec & Hch & E & Ech & _).
  assert (sol' = sol) as -> by congruence. rewrite Ech. unfold undecided in Hu. rewrite Er in Hu. cbn [mbind option_bind] in Hu. rewrite Es in Hu. cbn [mbind option_bind] in Hu.
  destruct (exact_loop (S (length (costs s))) ranked s) as [s1|] eqn:Ex; [|done]. destruct (new_spec p Hp) as (s0 & Es0 & HF & Ht). assert (s0 = s) as -> by congruence.
  destruct HF as [Hok HT Hw _ Hred]. destruct (exact_loop_spec _ _ _ ranked s s1 Hok HT Hw ltac:(intros i; by apply Hin) Ex) as (Erun & [Hok1 HT1 _ _ Hc1 [_ (rs & Ers & Hopt)]] & Hdead).
  rewrite Hred, app_nil_r in Ers. destruct (back_propagate_run _ _ s1 Hok1) as (ch' & Eb & Hok2 & Hprop).
  assert (ch' = ch) as -> by (unfold run in Ec; rewrite Erun in Ec; cbn [mbind option_bind] in Ec; rewrite Eb in Ec; cbn [mbind option_bind] in Ec; by injection Ec).
  destruct (Hopt s1 (frozen_refl _) (chosen s1) b (chosen_valid _ _ s1 Hok1) Hb) as [Hv Hle].
  { rewrite !(total_dead _ _ s1) by (done || intros i Hi; by apply Hdead, Hin). done. }
  rewrite <- (Ht b Hb), <- Ht by by apply in_range_pick. rewrite (total_ext _ _ s (pick ch) (propagate (alternatives p) s1 (reduced s1) (chosen s1)) Hok); [by rewrite Ers|].
  intros i Hi. unfold pick. by rewrite Hprop.
Qed.

(** C38: C37. The optimal reductions end within their fuel, leave only nodes with
    three edges or more, and are exact: an assignment that is best for what
    they leave extends, by back-propagation, to one that is best for the
    problem. *)
Theorem pbqp_reductions_exact p : wf_problem p -> exists s s', new p = Some s /\ reduce_optimally (reduce_fuel s) s = Some s' /\ pending s' = [] /\
  (forall i l, alive s' !! i = Some true -> adjacency s' !! i = Some l -> 2 < length l) /\
  forall a b, assignment p a -> assignment p b -> (total s' a <= total s' b)%Z ->
    assignment p (propagate (alternatives p) s' (reduced s') a) /\ (problem_cost p (propagate (alternatives p) s' (reduced s') a) <= problem_cost p b)%Z.
Proof.
  intros Hp. destruct (new_spec p Hp) as (s & Es & [Hok HT Hw _ Hred] & Ht).
  destruct (reduce_optimally_spec _ _ _ s Hok HT Hw (reduce_fuel_enough _ _ s Hok)) as (s' & E & [Hok' HT' Hw' _ _ [_ (rs & Ers & Hopt)]] & Hpend).
  exists s, s'. do 3 (split; [done|]). split.
  - intros i l Ha Hl. apply Nat.nle_gt. intros Hlen. specialize (Hw' i l Hl Hlen Ha). rewrite Hpend in Hw'. set_solver.
  - intros a b Ha Hb Hle. rewrite Hred, app_nil_r in Ers. destruct (Hopt s' (frozen_refl _) a b Ha Hb Hle) as [Hv H]. rewrite Ers. split; [done|].
    by rewrite <- !Ht.
Qed.

(** Charges in sequence, each end first or second. *)
Definition charge_edges (cs : list (nat * nat * Matrix)) (p : Problem) : option Problem :=
  fold_left (fun p '(l, r, m) => p ← p; add_edge l r m p) cs (Some p).

(** C38. However its edges were charged (either end first, an edge more than
    once), a problem costs what its nodes and all the charged matrices cost,
    up to the cap. *)
Theorem pbqp_charges_sum p cs : wf_problem p ->
  (forall l r m, (l, r, m) ∈ cs -> l < length (node_costs p) /\ r < length (node_costs p) /\ l <> r /\ wfm (alternatives p l) (alternatives p r) m) ->
  exists p', charge_edges cs p = Some p' /\ wf_problem p' /\ node_costs p' = node_costs p /\
    forall a, assignment p a -> problem_cost p' a = cap (raw_cost p a + zsum (map (fun '(l, r, m) => mval m (a l) (a r)) cs)).
Proof.
  unfold charge_edges. revert p; induction cs as [|[[l r] m] cs IH]; intros p Hp Hcs; cbn [fold_left].
  { exists p. do 3 (split; [done|]). intros a _. unfold problem_cost. cbn [map]. change (zsum []) with 0%Z. f_equal. lia. }
  destruct (Hcs l r m ltac:(by left)) as (Hl & Hr & Hne & Hm). destruct (add_edge_spec p l r m Hp Hl Hr Hne Hm) as (p1 & E1 & Hp1 & Hn1 & Hc1).
  cbn [mbind option_bind]. rewrite E1. destruct (IH p1 Hp1) as (p' & E & Hp' & Hn' & Hc').
  { intros l' r' m' Hin. unfold alternatives. rewrite !Hn1. apply Hcs. by right. }
  exists p'. split; [done|]. split; [done|]. split; [by rewrite Hn', Hn1|]. intros a Ha.
  assert (0 <= zsum (map (fun '(l, r, m) => mval m (a l) (a r)) cs))%Z as Hnn.
  { apply zsum_nonneg. intros [[l' r'] m'] Hin. destruct (Hcs l' r' m' ltac:(by right)) as (_ & _ & _ & H). by eapply mval_nonneg. }
  rewrite Hc' by (intros i; unfold alternatives; rewrite Hn1; apply Ha). cbn [map]. rewrite zsum_cons, <- cap_add_l by done.
  change (cap (raw_cost p1 a)) with (problem_cost p1 a). rewrite Hc1, cap_add_l by done. f_equal. lia.
Qed.

(** ** Concrete problems *)
Definition wf_check (p : Problem) : bool :=
  forallb (fun c => negb (length c =? 0) && forallb (fun x => (0 <=? x)%Z) c) (node_costs p) &&
  forallb (fun '((l, r), m) => (l <? r) && (r <? length (node_costs p)) && (rows m =? alternatives p l) && (cols m =? alternatives p r) &&
    (length (cells m) =? rows m * cols m) && forallb (fun x => (0 <=? x)%Z) (cells m)) (map_to_list (edge_costs p)).

Lemma nonneg_check l : forallb (fun x => (0 <=? x)%Z) l = true -> nonneg l.
Proof. intros H. rewrite forallb_forall in H. apply list.Forall_forall. intros x Hx. apply Z.leb_le, H. by apply list_elem_of_In. Qed.

Lemma wf_check_sound p : wf_check p = true -> wf_problem p.
Proof.
  intros [H1 H2]%andb_true_iff. rewrite forallb_forall in H1, H2. split.
  - intros i c Hc. specialize (H1 c). apply andb_true_iff in H1 as [H3 H4]; [|by apply list_elem_of_In; eapply list_elem_of_lookup_2].
    split; [intros ->; done|by apply nonneg_check].
  - intros l r m He. specialize (H2 ((l, r), m)). rewrite !andb_true_iff in H2. destruct H2 as [[[[[A1 A2] A3] A4] A5] A6]; [by apply list_elem_of_In, elem_of_map_to_list|].
    apply Nat.ltb_lt in A1, A2. apply Nat.eqb_eq in A3, A4, A5. do 2 (split; [done|]). split; [done|done|congruence|by apply nonneg_check].
Qed.

Definition triangle_problem : Problem := default empty_problem triangle.
Definition choice_of (o : option Solution) : list nat := match o with Some sol => s_choices sol | None => [] end.

Lemma triangle_wf : wf_problem triangle_problem.
Proof. apply wf_check_sound. vm_compute. reflexivity. Qed.

Lemma order_check order k : forallb (fun i => i <? k) order = true -> forall i, i ∈ order -> i < k.
Proof. intros H i Hi. rewrite forallb_forall in H. apply Nat.ltb_lt, H. by apply list_elem_of_In. Qed.

Lemma pbqp_solve_total_witness : exists sol, solve [2; 0; 1] triangle_problem = Some sol /\ length (s_choices sol) = node_count triangle_problem /\
  forall i c, s_choices sol !! i = Some c -> c < alternatives triangle_problem i.
Proof. apply (pbqp_solve_total triangle_problem [2; 0; 1]); [exact triangle_wf|apply order_check; reflexivity]. Defined.

(** Four interfering nodes and three registers: one node is at fault. *)
Definition crowded : Problem := default empty_problem
  (fold_left (fun p '(a, b) => p ← p; if a <? b then add_edge a b (differ 3) p else Some p) (list_prod (seq 0 4) (seq 0 4))
    (Some (mkProblem (replicate 4 (replicate 3 0%Z)) ∅))).

Example crowded_infeasible : (sol ← solve [0; 1; 2; 3] crowded; Some (s_choices sol, s_infeasible sol)) = Some ([0; 0; 1; 2], [1]).
Proof. vm_compute. reflexivity. Qed.

Definition crowded_solution : Solution := mkSolution [0; 0; 1; 2]%nat [1]%nat.

Lemma pbqp_infeasible_witness : exists ranked rank, ranked_nodes [0; 1; 2; 3] (node_count crowded) = Some ranked /\ ranks ranked = Some rank /\
  (forall i, i < node_count crowded -> exists k, rank !! i = Some k /\ ranked !! k = Some i) /\ Sorted (rank_le rank) (s_infeasible crowded_solution) /\
  (forall i, i ∈ s_infeasible crowded_solution <-> i < node_count crowded /\ at_fault crowded (s_choices crowded_solution) rank i) /\
  (s_infeasible crowded_solution = [] <->
    (forall i, i < node_count crowded -> (node_cost crowded i (pick (s_choices crowded_solution) i) < INF_COST)%Z) /\
    (forall l r m, edge_costs crowded !! (l, r) = Some m ->
      (mval m (pick (s_choices crowded_solution) l) (pick (s_choices crowded_solution) r) < INF_COST)%Z)).
Proof.
  apply (pbqp_infeasible crowded [0; 1; 2; 3] crowded_solution); [apply wf_check_sound; vm_compute; reflexivity|apply order_check; reflexivity|vm_compute; reflexivity].
Defined.

Lemma pbqp_optimal_witness : (problem_cost triangle_problem (pick [2; 0; 1]%nat) <= problem_cost triangle_problem (pick [0; 1; 2]%nat))%Z.
Proof.
  apply (pbqp_optimal triangle_problem [0; 1; 2] (mkSolution [2; 0; 1] [])); [exact triangle_wf|apply order_check; reflexivity|vm_compute; reflexivity|vm_compute; reflexivity|].
  intros i Hi. assert (i < 3) as Hi3 by exact Hi. destruct i as [|[|[|]]]; [vm_compute; lia..|lia].
Defined.

Lemma pbqp_reductions_exact_witness : exists s s', new crowded = Some s /\ reduce_optimally (reduce_fuel s) s = Some s' /\ pending s' = [] /\
  (forall i l, alive s' !! i = Some true -> adjacency s' !! i = Some l -> 2 < length l) /\
  forall a b, assignment crowded a -> assignment crowded b -> (total s' a <= total s' b)%Z ->
    assignment crowded (propagate (alternatives crowded) s' (reduced s') a) /\
    (problem_cost crowded (propagate (alternatives crowded) s' (reduced s') a) <= problem_cost crowded b)%Z.
Proof. apply (pbqp_reductions_exact crowded). apply wf_check_sound. vm_compute. reflexivity. Defined.

Lemma pbqp_charges_sum_witness : exists p', charge_edges [(2, 0, differ 3); (0, 2, differ 3)] triangle_problem = Some p' /\ wf_problem p' /\
  node_costs p' = node_costs triangle_problem /\
  forall a, assignment triangle_problem a -> problem_cost p' a = cap (raw_cost triangle_problem a +
    zsum (map (fun '(l, r, m) => mval m (a l) (a r)) [(2, 0, differ 3); (0, 2, differ 3)])).
Proof.
  apply (pbqp_charges_sum triangle_problem); [exact triangle_wf|]. intros l r m Hin. apply list_elem_of_In in Hin.
  assert (nonneg (cells (differ 3))) as Hn by (apply nonneg_check; vm_compute; reflexivity).
  destruct Hin as [[= <- <- <-]|[[= <- <- <-]|[]]]; (split; [vm_compute; lia|split; [vm_compute; lia|split; [done|split; [reflexivity|reflexivity|reflexivity|exact Hn]]]]).
Defined.
