(* ===== verification/Memory.v ===== *)
(** * Guest memory of the simulator ([libs/simcore/src/memory.rs])

    An [AddressSpace] keeps the mappings of a guest in a [BTreeMap] from their
    first address; a [Memory] keeps the bytes, in backings made of sparse pages.
    A [BTreeMap] is the list of its entries in ascending key order, a [HashMap]
    a [gmap]. A [u64] is a [Z]; additions and subtractions that leave the range
    panic. Lengths and slice indices ([usize]) are [nat]. The outer [option] is
    a panic or the end of a loop's fuel. *)
From S2P Require Import Prelude Words.

(** ** [BTreeMap<u64, _>] *)

Fixpoint tree_insert {A} (k : Z) (v : A) (t : list (Z * A)) : list (Z * A) :=
  match t with
  | [] => [(k, v)]
  | (j, w) :: t' => if k <? j then (k, v) :: t else if k =? j then (k, v) :: t' else (j, w) :: tree_insert k v t'
  end.
Definition tree_remove {A} (k : Z) (t : list (Z * A)) : list (Z * A) := base.filter (fun e => e.1 <> k) t.
(** [range(..k)] and [range(..=k)], ascending. *)
Definition range_below {A} (k : Z) (t : list (Z * A)) : list (Z * A) := base.filter (fun e => e.1 < k) t.
Definition range_to {A} (k : Z) (t : list (Z * A)) : list (Z * A) := base.filter (fun e => e.1 <= k) t.

Notation next_back := list.last.

(** ** Permissions and errors *)

Definition NONE : Z := 0.
Definition READ : Z := Z.shiftl 1 0.
Definition WRITE : Z := Z.shiftl 1 1.
Definition EXECUTE : Z := Z.shiftl 1 2.
Definition READ_WRITE : Z := Z.lor READ WRITE.
Definition ALL : Z := Z.lor (Z.lor READ WRITE) EXECUTE.

Definition contains (self other : Z) : bool := Z.land self other =? other.

Inductive MemoryAccess := Read | Write | Fetch | Map | Protect | Unmap.

Inductive MemoryErrorReason :=
  | Unmapped | PermissionDenied | OverlappingMapping | InvalidRange
  | UnknownBacking | BackingOutOfBounds | DeviceAccess | IdentityExhausted.

#[export] Instance MemoryAccess_eq_dec : EqDecision MemoryAccess.
Proof. solve_decision. Defined.
#[export] Instance MemoryErrorReason_eq_dec : EqDecision MemoryErrorReason.
Proof. solve_decision. Defined.

Record MemoryError := mkError { err_address : Z; err_access : MemoryAccess; err_reason : MemoryErrorReason }.

Definition checked_end (address size : Z) (access : MemoryAccess) : result Z MemoryError :=
  if size =? 0 then Err (mkError address access InvalidRange)
  else match checked_add address size with
       | Some e => Ok e
       | None => Err (mkError address access InvalidRange)
       end.

(** ** Address spaces *)

Record Mapping := mkMapping {
  m_end : Z;
  m_backing : Z;
  m_offset : Z;
  m_permissions : Z;
  m_generation : Z;
}.

Record MappingInfo := mkInfo { i_start : Z; i_mapping : Mapping }.

Record AddressSpace := mkSpace { s_id : Z; s_generation : Z; s_mappings : list (Z * Mapping) }.

(** [AddressSpace::new]; the argument is the process-wide counter. *)
Definition new_space (next_id : Z) : option (AddressSpace * Z) :=
  assert! negb (next_id =? u64_max); Some (mkSpace next_id 0 [], wrap64 (next_id + 1)).

Definition mappings (s : AddressSpace) : list MappingInfo := (fun '(a, m) => mkInfo a m) <$> s_mappings s.

Definition mapping_at (s : AddressSpace) (address : Z) : option MappingInfo :=
  match next_back (range_to address (s_mappings s)) with
  | Some (start, m) => if address <? m_end m then Some (mkInfo start m) else None
  | None => None
  end.

Definition next_generation (s : AddressSpace) (address : Z) (access : MemoryAccess)
  : AddressSpace * result Z MemoryError :=
  match checked_add (s_generation s) 1 with
  | Some g => (mkSpace (s_id s) g (s_mappings s), Ok g)
  | None => (s, Err (mkError address access IdentityExhausted))
  end.

Definition overlaps (s : AddressSpace) (start end_ : Z) : bool :=
  match next_back (range_below end_ (s_mappings s)) with
  | Some (other_start, other) => (other_start <? end_) && (start <? m_end other)
  | None => false
  end.

Fixpoint mapped_loop (fuel : nat) (s : AddressSpace) (cursor end_ : Z) : option bool :=
  if cursor <? end_ then
    match fuel with
    | O => None
    | S fuel =>
        match next_back (range_to cursor (s_mappings s)) with
        | None => Some false
        | Some (_, m) => if m_end m <=? cursor then Some false else mapped_loop fuel s (Z.min (m_end m) end_) end_
        end
    end
  else Some true.

(** Each turn of the loop passes one mapping. *)
Definition mapped_range (s : AddressSpace) (start end_ : Z) : option bool :=
  mapped_loop (S (length (s_mappings s))) s start end_.

(** The body of [replace_range]'s loop: cut [start..end_] out of one mapping. *)
Definition replace_one (start end_ : Z) (permissions : option Z) (generation : Z)
    (t : list (Z * Mapping)) (e : Z * Mapping) : option (list (Z * Mapping)) :=
  let '(mapping_start, m) := e in
  let t := tree_remove mapping_start t in
  let t := if mapping_start <? start
           then tree_insert mapping_start (mkMapping start (m_backing m) (m_offset m) (m_permissions m) (m_generation m)) t
           else t in
  let middle_start := Z.max mapping_start start in
  let middle_end := Z.min (m_end m) end_ in
  t ← match permissions with
      | Some new_permissions =>
          delta ← checked_sub middle_start mapping_start;
          offset ← checked_add (m_offset m) delta;
          Some (tree_insert middle_start (mkMapping middle_end (m_backing m) offset new_permissions generation) t)
      | None => Some t
      end;
  if end_ <? m_end m then
    delta ← checked_sub end_ mapping_start;
    offset ← checked_add (m_offset m) delta;
    Some (tree_insert end_ (mkMapping (m_end m) (m_backing m) offset (m_permissions m) (m_generation m)) t)
  else Some t.

Fixpoint replace_all (start end_ : Z) (permissions : option Z) (generation : Z)
    (t : list (Z * Mapping)) (affected : list (Z * Mapping)) : option (list (Z * Mapping)) :=
  match affected with
  | [] => Some t
  | e :: rest => t ← replace_one start end_ permissions generation t e;
                 replace_all start end_ permissions generation t rest
  end.

Definition replace_range (s : AddressSpace) (start end_ : Z) (permissions : option Z) (access : MemoryAccess)
  : option (AddressSpace * result unit MemoryError) :=
  mapped ← mapped_range s start end_;
  if negb mapped then Some (s, Err (mkError start access Unmapped))
  else match next_generation s start access with
       | (s, Err e) => Some (s, Err e)
       | (s, Ok generation) =>
           let affected := base.filter (fun e => start < m_end e.2) (range_below end_ (s_mappings s)) in
           t ← replace_all start end_ permissions generation (s_mappings s) affected;
           Some (mkSpace (s_id s) (s_generation s) t, Ok tt)
       end.

(** ** Backings *)

Definition PAGE : Z := 4096.
Definition PAGE_LEN : nat := Z.to_nat PAGE.

Record Backing := mkBacking { b_size : Z; b_pages : gmap Z (list Z) }.

Record Memory := mkMemory { next_backing_id : Z; backings : gmap Z Backing }.

Definition new_memory : Memory := mkMemory 1 ∅.

Definition create_backing (mem : Memory) (size : Z) : Memory * result Z MemoryError :=
  if size =? 0 then (mem, Err (mkError 0 Map InvalidRange))
  else let id := next_backing_id mem in
       match checked_add id 1 with
       | None => (mem, Err (mkError 0 Map IdentityExhausted))
       | Some next => (mkMemory next (<[id := mkBacking size ∅]> (backings mem)), Ok id)
       end.

Definition map (mem : Memory) (s : AddressSpace) (address size backing backing_offset permissions : Z)
  : AddressSpace * result unit MemoryError :=
  match checked_end address size Map with
  | Err e => (s, Err e)
  | Ok end_ =>
  match checked_end backing_offset size Map with
  | Err e => (s, Err e)
  | Ok backing_end =>
  match backings mem !! backing with
  | None => (s, Err (mkError address Map UnknownBacking))
  | Some b =>
      if b_size b <? backing_end then (s, Err (mkError address Map BackingOutOfBounds))
      else if overlaps s address end_ then (s, Err (mkError address Map OverlappingMapping))
      else match next_generation s address Map with
           | (s, Err e) => (s, Err e)
           | (s, Ok generation) =>
               let m := mkMapping end_ backing backing_offset permissions generation in
               (mkSpace (s_id s) (s_generation s) (tree_insert address m (s_mappings s)), Ok tt)
           end
  end end end.

Definition protect (s : AddressSpace) (address size permissions : Z)
  : option (AddressSpace * result unit MemoryError) :=
  match checked_end address size Protect with
  | Err e => Some (s, Err e)
  | Ok end_ => replace_range s address end_ (Some permissions) Protect
  end.

Definition unmap (s : AddressSpace) (address size : Z) : option (AddressSpace * result unit MemoryError) :=
  match checked_end address size Unmap with
  | Err e => Some (s, Err e)
  | Ok end_ => replace_range s address end_ None Unmap
  end.

(** ** Access *)

Record Span := mkSpan { sp_backing : Z; sp_offset : Z; sp_len : nat }.

Definition access_permission (access : MemoryAccess) : option Z :=
  match access with
  | Read => Some READ
  | Write => Some WRITE
  | Fetch => Some EXECUTE
  | Map | Protect | Unmap => None
  end.

Fixpoint resolve_loop (fuel : nat) (s : AddressSpace) (permission : Z) (access : MemoryAccess)
    (cursor end_ : Z) (spans : list Span) : option (result (list Span) MemoryError) :=
  if cursor <? end_ then
    match fuel with
    | O => None
    | S fuel =>
        match next_back (range_to cursor (s_mappings s)) with
        | Some (mapping_start, m) =>
            if cursor <? m_end m then
              if contains (m_permissions m) permission then
                let span_end := Z.min (m_end m) end_ in
                delta ← checked_sub cursor mapping_start;
                offset ← checked_add (m_offset m) delta;
                len ← checked_sub span_end cursor;
                resolve_loop fuel s permission access span_end end_
                  (spans ++ [mkSpan (m_backing m) offset (Z.to_nat len)])
              else Some (Err (mkError cursor access PermissionDenied))
            else Some (Err (mkError cursor access Unmapped))
        | None => Some (Err (mkError cursor access Unmapped))
        end
    end
  else Some (Ok spans).

(** A span of the result covers one mapping of the space. *)
Definition resolve (s : AddressSpace) (address : Z) (size : nat) (access : MemoryAccess)
  : option (result (list Span) MemoryError) :=
  match access_permission access with
  | None => Some (Err (mkError address access InvalidRange))
  | Some permission =>
      if (size =? 0)%nat then Some (Ok [])
      else match checked_end address (Z.of_nat size) access with
           | Err e => Some (Err e)
           | Ok end_ => resolve_loop (S (length (s_mappings s))) s permission access address end_ []
           end
  end.

Fixpoint read_backing (fuel : nat) (b : Backing) (offset : Z) (copied : nat) (destination : list Z)
  : option (list Z) :=
  if (copied <? length destination)%nat then
    match fuel with
    | O => None
    | S fuel =>
        current ← checked_add offset (Z.of_nat copied);
        let page_number := current / PAGE in
        let page_offset := Z.to_nat (current mod PAGE) in
        let len := Nat.min (PAGE_LEN - page_offset) (length destination - copied) in
        chunk ← match b_pages b !! page_number with
                | Some page => slice page page_offset (page_offset + len)
                | None => Some (replicate len 0)
                end;
        destination ← copy_at destination copied chunk;
        read_backing fuel b offset (copied + len) destination
    end
  else Some destination.

Fixpoint write_backing (fuel : nat) (b : Backing) (offset : Z) (copied : nat) (source : list Z) : option Backing :=
  if (copied <? length source)%nat then
    match fuel with
    | O => None
    | S fuel =>
        current ← checked_add offset (Z.of_nat copied);
        let page_number := current / PAGE in
        let page_offset := Z.to_nat (current mod PAGE) in
        let len := Nat.min (PAGE_LEN - page_offset) (length source - copied) in
        bytes ← slice source copied (copied + len);
        b ← if existsb (fun byte => negb (byte =? 0)) bytes || bool_decide (is_Some (b_pages b !! page_number)) then
              let page := default (replicate PAGE_LEN 0) (b_pages b !! page_number) in
              page ← copy_at page page_offset bytes;
              Some (mkBacking (b_size b) (<[page_number := page]> (b_pages b)))
            else Some b;
        write_backing fuel b offset (copied + len) source
    end
  else Some b.

Fixpoint copy_spans (mem : Memory) (destination : list Z) (destination_offset : nat) (spans : list Span)
  : option (list Z) :=
  match spans with
  | [] => Some destination
  | span :: rest =>
      b ← backings mem !! sp_backing span;
      part ← slice destination destination_offset (destination_offset + sp_len span);
      part ← read_backing (length part) b (sp_offset span) 0 part;
      destination ← copy_at destination destination_offset part;
      copy_spans mem destination (destination_offset + sp_len span) rest
  end.

Definition copy_out (mem : Memory) (s : AddressSpace) (address : Z) (destination : list Z) (access : MemoryAccess)
  : option (result (list Z) MemoryError) :=
  spans <-? resolve s address (length destination) access;
  destination ← copy_spans mem destination 0 spans;
  Some (Ok destination).

Definition read mem s address destination := copy_out mem s address destination Read.
Definition fetch mem s address destination := copy_out mem s address destination Fetch.

Fixpoint write_spans (mem : Memory) (source : list Z) (source_offset : nat) (spans : list Span) : option Memory :=
  match spans with
  | [] => Some mem
  | span :: rest =>
      b ← backings mem !! sp_backing span;
      part ← slice source source_offset (source_offset + sp_len span);
      b ← write_backing (length part) b (sp_offset span) 0 part;
      write_spans (mkMemory (next_backing_id mem) (<[sp_backing span := b]> (backings mem)))
        source (source_offset + sp_len span) rest
  end.

Definition write (mem : Memory) (s : AddressSpace) (address : Z) (source : list Z)
  : option (result Memory MemoryError) :=
  spans <-? resolve s address (length source) Write;
  mem ← write_spans mem source 0 spans;
  Some (Ok mem).

Definition validate (s : AddressSpace) (address : Z) (size : nat) (access : MemoryAccess)
  : option (result unit MemoryError) :=
  _ <-? resolve s address size access; Some (Ok tt).
