(* ===== verification/MemorySpec.v ===== *)
(** * What an address space denotes

    An address space is a partial function from addresses to places ([view]):
    the backing and offset of a byte, its permissions, and the generation of
    its mapping. [chain] is the invariant of the mapping table: entries in
    ascending order, not empty and disjoint, offsets that stay words. The
    lemmas give every operation on the table as an operation on [view]. *)
From S2P Require Import Prelude Words Memory.

Record Place := mkPlace { p_backing : Z; p_offset : Z; p_permissions : Z; p_generation : Z }.

Definition place (k : Z) (m : Mapping) (a : Z) : Place :=
  mkPlace (m_backing m) (m_offset m + (a - k)) (m_permissions m) (m_generation m).

Fixpoint view (t : list (Z * Mapping)) (a : Z) : option Place :=
  match t with
  | [] => None
  | (k, m) :: t' => if (k <=? a) && (a <? m_end m) then Some (place k m a) else view t' a
  end.

(** One mapping on its own. *)
Definition entry_ok (lo k : Z) (m : Mapping) : Prop :=
  lo <= k < m_end m /\ m_end m <= u64_max /\ 0 <= m_offset m /\ m_offset m + (m_end m - k) <= u64_max.

Fixpoint chain (lo : Z) (t : list (Z * Mapping)) : Prop :=
  match t with
  | [] => True
  | (k, m) :: t' => entry_ok lo k m /\ chain (m_end m) t'
  end.

Ltac zcase := repeat match goal with
  | |- context [Z.leb ?a ?b] => destruct (Z.leb_spec a b)
  | |- context [Z.ltb ?a ?b] => destruct (Z.ltb_spec a b)
  end; cbn [andb orb negb].

Lemma chain_weaken lo lo' t : lo' <= lo -> chain lo t -> chain lo' t.
Proof. destruct t as [|[k m] t]; [done|]. unfold entry_ok. cbn [chain]. unfold entry_ok. intuition lia. Qed.

Lemma chain_elem lo t k m : chain lo t -> (k, m) ∈ t -> entry_ok lo k m.
Proof.
  revert lo. induction t as [|[j w] t IH]; intros lo Hc Hin; [by apply elem_of_nil in Hin|destruct Hc as [Hw Ht]].
  apply elem_of_cons in Hin as [[= -> ->]|Hin]; [done|]. apply (IH (m_end w)) in Hin; [|done].
  unfold entry_ok in *. lia.
Qed.

Lemma view_below lo t a : chain lo t -> a < lo -> view t a = None.
Proof.
  revert lo. induction t as [|[k m] t IH]; intros lo; [done|]. intros [Hk Ht] Ha. cbn [view]. unfold entry_ok in Hk.
  zcase; try lia. apply (IH (m_end m)); [done|lia].
Qed.

Lemma view_elem lo t k m a : chain lo t -> (k, m) ∈ t -> k <= a < m_end m -> view t a = Some (place k m a).
Proof.
  revert lo. induction t as [|[j w] t IH]; intros lo Hc Hin Ha; [by apply elem_of_nil in Hin|destruct Hc as [Hw Ht]].
  apply elem_of_cons in Hin as [[= -> ->]|Hin]; cbn [view].
  - zcase; lia || done.
  - pose proof (chain_elem _ _ _ _ Ht Hin) as E. unfold entry_ok in E. zcase; try lia; by apply (IH (m_end w)).
Qed.

Lemma view_Some_elem t a p : view t a = Some p -> exists k m, (k, m) ∈ t /\ k <= a < m_end m /\ p = place k m a.
Proof.
  induction t as [|[k m] t IH]; cbn [view]; [done|]. zcase; intros H1; try (apply IH in H1 as (k' & m' & Hin & ?);
    exists k', m'; split; [by right|done]).
  injection H1 as <-. exists k, m. split; [by left|]. split; [lia|done].
Qed.

(** [range(..=a).next_back()] finds the mapping of [a], if there is one. *)
Lemma next_back_cons {A} (x : A) l : next_back (x :: l) = match next_back l with Some y => Some y | None => Some x end.
Proof. destruct l as [|y l]; [done|]. cbn [list.last]. by destruct (next_back (y :: l)) eqn:E; [|apply last_None in E]. Qed.

Lemma range_to_cons a k (m : Mapping) t : range_to a ((k, m) :: t) = if k <=? a then (k, m) :: range_to a t else range_to a t.
Proof. unfold range_to. rewrite filter_cons. cbn. case_decide; zcase; done || lia. Qed.

Lemma range_below_to {A} a (t : list (Z * A)) : range_below a t = range_to (a - 1) t.
Proof. unfold range_below, range_to. apply list_filter_iff. intros [k m]. cbn. lia. Qed.

Lemma range_to_above lo a t : chain lo t -> a < lo -> range_to a t = [].
Proof.
  revert lo. induction t as [|[k m] t IH]; intros lo; [done|]. intros [Hk Ht] Ha. unfold entry_ok in Hk.
  rewrite range_to_cons. zcase; [lia|]. apply (IH (m_end m)); [done|lia].
Qed.

Lemma next_back_spec lo t a : chain lo t ->
  match next_back (range_to a t) with
  | Some (k, m) => (k, m) ∈ t /\ k <= a /\ view t a = (if a <? m_end m then Some (place k m a) else None) /\
      (forall b, m_end m <= b <= a -> view t b = None)
  | None => forall b, b <= a -> view t b = None
  end.
Proof.
  revert lo. induction t as [|[k m] t IH]; intros lo Hc; [done|]. destruct Hc as [Hk Ht]. pose proof Hk as Hk'. unfold entry_ok in Hk'.
  rewrite range_to_cons. destruct (Z.leb_spec k a) as [Hka|Hka].
  - rewrite next_back_cons. specialize (IH _ Ht). destruct (next_back (range_to a t)) as [[j w]|] eqn:E.
    + destruct IH as (Hin & Hj & Hv & Hn). pose proof (chain_elem _ _ _ _ Ht Hin) as Ew. unfold entry_ok in Ew.
      split; [by right|]. split; [done|]. cbn [view]. split; [zcase; try lia; rewrite Hv; zcase; lia || done|].
      intros b Hb. zcase; try lia; by apply Hn.
    + split; [by left|]. split; [done|]. cbn [view]. split; [zcase; try lia; try done; by apply IH|].
      intros b Hb. zcase; try lia; by apply IH; lia.
  - rewrite (range_to_above (m_end m)) by (done || lia). intros b Hb. apply (view_below k); [|lia].
    split; [|done]. unfold entry_ok. lia.
Qed.

Lemma mapping_at_spec lo t s a : s_mappings s = t -> chain lo t ->
  (fun i => place (i_start i) (i_mapping i) a) <$> mapping_at s a = view t a.
Proof.
  intros Es Hc. unfold mapping_at. rewrite Es. pose proof (next_back_spec lo t a Hc) as H.
  destruct (next_back (range_to a t)) as [[k m]|].
  - destruct H as (_ & _ & -> & _). by zcase.
  - by rewrite H by lia.
Qed.

Lemma overlaps_spec lo s start end_ : chain lo (s_mappings s) -> start < end_ ->
  overlaps s start end_ = false <-> forall a, start <= a < end_ -> view (s_mappings s) a = None.
Proof.
  intros Hc Hlt. unfold overlaps. rewrite range_below_to. pose proof (next_back_spec lo _ (end_ - 1) Hc) as H.
  destruct (next_back _) as [[k m]|].
  - destruct H as (Hin & Hk & Hv & Hn). pose proof (chain_elem _ _ _ _ Hc Hin) as E. unfold entry_ok in E. zcase; try lia.
    + split; [done|]. intros Hall. specialize (Hall (Z.max start k) ltac:(lia)).
      by rewrite (view_elem lo _ k m) in Hall by (done || lia).
    + split; [|done]. intros _ a Ha. apply Hn. lia.
  - split; [|done]. intros _ a Ha. apply H. lia.
Qed.

(** ** Insertion and removal *)

Lemma filter_id {A} (P : A -> Prop) `{forall x, Decision (P x)} (l : list A) : Forall P l -> base.filter P l = l.
Proof. induction 1 as [|x l Hx _ IH]; [done|]. by rewrite filter_cons_True, IH. Qed.

(** Entries that do not overlap a free range lie on one side of it. *)
Lemma free_apart lo t k e : chain lo t -> k < e -> (forall a, k <= a < e -> view t a = None) ->
  forall j w, (j, w) ∈ t -> m_end w <= k \/ e <= j.
Proof.
  intros Hc Hke Hfree j w Hin. pose proof (chain_elem _ _ _ _ Hc Hin) as E. unfold entry_ok in E.
  destruct (Z.le_gt_cases (m_end w) k); [by left|]. destruct (Z.le_gt_cases e j); [by right|].
  specialize (Hfree (Z.max k j) ltac:(lia)). by rewrite (view_elem lo t j w) in Hfree by (done || lia).
Qed.

Lemma insert_spec lo t k m : chain lo t -> entry_ok lo k m -> (forall a, k <= a < m_end m -> view t a = None) ->
  chain lo (tree_insert k m t) /\
  (forall a, view (tree_insert k m t) a = if (k <=? a) && (a <? m_end m) then Some (place k m a) else view t a).
Proof.
  intros Hc Hm Hfree. pose proof (free_apart lo t k (m_end m) Hc ltac:(unfold entry_ok in Hm; lia) Hfree) as Hap. clear Hfree.
  revert lo Hc Hm. induction t as [|[j w] t IH]; intros lo Hc Hm; cbn [tree_insert]; [done|].
  destruct Hc as [Hw Ht]. pose proof Hm as Em. pose proof Hw as Ew. unfold entry_ok in Em, Ew.
  destruct (Hap j w ltac:(by left)) as [Hl|Hr].
  - destruct (IH ltac:(intros j' w' Hin; apply Hap; by right) (m_end w) Ht) as [Hc Hv]; [unfold entry_ok; lia|].
    replace (k <? j) with false by lia. replace (k =? j) with false by lia. split; [by split|].
    intros a. cbn [view]. rewrite Hv. zcase; lia || done.
  - replace (k <? j) with true by lia. split; [|done]. split; [done|]. split; [unfold entry_ok; lia|done].
Qed.

Lemma remove_spec lo t k m : chain lo t -> (k, m) ∈ t ->
  chain lo (tree_remove k t) /\
  (forall a, view (tree_remove k t) a = if (k <=? a) && (a <? m_end m) then None else view t a).
Proof.
  revert lo. induction t as [|[j w] t IH]; intros lo Hc Hin; [by apply elem_of_nil in Hin|]. destruct Hc as [Hw Ht].
  pose proof Hw as Ew. unfold entry_ok in Ew. unfold tree_remove in *. rewrite filter_cons. cbn [fst].
  apply elem_of_cons in Hin as [[= -> ->]|Hin].
  - rewrite decide_False by naive_solver. rewrite filter_id.
    + split; [apply (chain_weaken (m_end w)); [lia|done]|]. intros a. cbn [view].
      zcase; try done. by apply (view_below (m_end w)).
    + apply Forall_forall. intros [k' m'] Hin%list_elem_of_In. pose proof (chain_elem _ _ _ _ Ht Hin) as E. unfold entry_ok in E. cbn. lia.
  - pose proof (chain_elem _ _ _ _ Ht Hin) as E. unfold entry_ok in E. destruct (IH _ Ht Hin) as [Hc Hv].
    rewrite decide_True by lia. split; [by split|]. intros a. cbn [view]. rewrite Hv. zcase; lia || done.
Qed.

Lemma elem_insert k m (t : list (Z * Mapping)) j w : (j, w) ∈ t -> j <> k -> (j, w) ∈ tree_insert k m t.
Proof.
  induction t as [|[i v] t IH]; intros Hin Hne; [by apply elem_of_nil in Hin|]. cbn [tree_insert].
  destruct (k <? i); [by right|]. apply elem_of_cons in Hin as [[= -> ->]|Hin].
  - rewrite (proj2 (Z.eqb_neq _ _)) by congruence. by left.
  - destruct (k =? i); right; [done|by apply IH].
Qed.

Lemma elem_remove k (t : list (Z * Mapping)) j w : (j, w) ∈ t -> j <> k -> (j, w) ∈ tree_remove k t.
Proof. intros Hin Hne. unfold tree_remove. apply list_elem_of_filter. done. Qed.

(** An address lies in one entry. *)
Lemma chain_unique lo t a k m j w : chain lo t -> (k, m) ∈ t -> (j, w) ∈ t -> k <= a < m_end m -> j <= a < m_end w ->
  k = j /\ m = w.
Proof.
  revert lo. induction t as [|[i v] t IH]; intros lo Hc H1 H2 Ha Hb; [by apply elem_of_nil in H1|]. destruct Hc as [Hv Ht].
  apply elem_of_cons in H1, H2. destruct H1 as [[= -> ->]|H1], H2 as [[= -> ->]|H2].
  - done.
  - pose proof (chain_elem _ _ _ _ Ht H2) as E. unfold entry_ok in E. lia.
  - pose proof (chain_elem _ _ _ _ Ht H1) as E. unfold entry_ok in E. lia.
  - by apply (IH (m_end v)).
Qed.

(** ** Changing a range *)

(** What [protect] and [unmap] make of a place. *)
Definition change (permissions : option Z) (generation : Z) (p : Place) : option Place :=
  q ← permissions; Some (mkPlace (p_backing p) (p_offset p) q generation).

Section Replace.
Context (start end_ generation : Z) (permissions : option Z) (Hrange : 0 <= start < end_).

(** A step that refines what part of one vacated entry denotes. *)
Lemma fill_spec (t : list (Z * Mapping)) k (m : Mapping) j n :
  chain 0 t -> entry_ok 0 j n -> k <= j -> m_end n <= m_end m -> (forall a, j <= a < m_end n -> view t a = None) ->
  chain 0 (tree_insert j n t) /\
  (forall a, view (tree_insert j n t) a = if (j <=? a) && (a <? m_end n) then Some (place j n a) else view t a) /\
  (forall i w, (i, w) ∈ t -> ~ (k <= i < m_end m) -> (i, w) ∈ tree_insert j n t).
Proof.
  intros Hc Hn Hk Hm Hfree. destruct (insert_spec 0 t j n Hc Hn Hfree) as [H1 H2]. split; [done|]. split; [done|].
  intros i w Hin Hi. apply elem_insert; [done|]. unfold entry_ok in Hn. lia.
Qed.

(** The entry being replaced. *)
Context (t : list (Z * Mapping)) (k : Z) (m : Mapping) (Hc : chain 0 t) (Hin : (k, m) ∈ t) (Hk : k < end_) (Hm : start < m_end m).

Definition keeps (t' : list (Z * Mapping)) : Prop := forall j w, (j, w) ∈ t -> ~ (k <= j < m_end m) -> (j, w) ∈ t'.

Lemma entry_bounds : entry_ok 0 k m.
Proof. by apply (chain_elem 0 t). Qed.

Lemma entry_view a : k <= a < m_end m -> view t a = Some (place k m a).
Proof. by apply (view_elem 0). Qed.

Ltac filled Hv := let a := fresh in intros a; rewrite Hv; zcase; try lia; try done; rewrite entry_view by lia; done.

Lemma left_step t0 : chain 0 t0 -> keeps t0 -> (forall a, view t0 a = if (k <=? a) && (a <? m_end m) then None else view t a) ->
  exists t1, t1 = (if k <? start then tree_insert k (mkMapping start (m_backing m) (m_offset m) (m_permissions m) (m_generation m)) t0 else t0) /\
    chain 0 t1 /\ keeps t1 /\
    (forall a, view t1 a = if (k <=? a) && (a <? m_end m) then if a <? start then view t a else None else view t a).
Proof.
  intros Hc0 Hi0 Hv0. pose proof entry_bounds as E. unfold entry_ok in E. eexists. split; [done|].
  destruct (Z.ltb_spec k start).
  - set (n := mkMapping _ _ _ _ _). destruct (fill_spec t0 k m k n) as (A & B & C); [done|unfold entry_ok; cbn; lia|lia|cbn; lia| |].
    + intros a Ha. cbn in Ha. rewrite Hv0. zcase; lia || done.
    + split; [done|]. split; [intros j w; auto|]. intros a. rewrite B, Hv0. cbn [n m_end].
      zcase; try lia; try done. by rewrite entry_view by lia.
  - split; [done|]. split; [done|]. intros a. rewrite Hv0. zcase; lia || done.
Qed.

Lemma middle_step t1 : chain 0 t1 -> keeps t1 ->
  (forall a, view t1 a = if (k <=? a) && (a <? m_end m) then if a <? start then view t a else None else view t a) ->
  exists t2, (match permissions with
      | Some q => delta ← checked_sub (k `max` start) k; offset ← checked_add (m_offset m) delta;
          Some (tree_insert (k `max` start) (mkMapping (m_end m `min` end_) (m_backing m) offset q generation) t1)
      | None => Some t1 end) = Some t2 /\ chain 0 t2 /\ keeps t2 /\
    (forall a, view t2 a = if (k <=? a) && (a <? m_end m) then
       if a <? start then view t a else if a <? end_ then view t a ≫= change permissions generation else None else view t a).
Proof.
  intros Hc1 Hi1 Hv1. pose proof entry_bounds as E. unfold entry_ok in E. destruct permissions as [q|].
  - unfold checked_sub, checked_add. replace (k <=? k `max` start) with true by lia. cbn [mbind option_bind].
    replace (m_offset m + (k `max` start - k) <=? u64_max) with true by lia. cbn [mbind option_bind].
    eexists. split; [done|]. set (mid := mkMapping _ _ _ _ _).
    destruct (fill_spec t1 k m (k `max` start) mid) as (A & B & C); [done|unfold entry_ok; cbn; lia|lia|cbn; lia| |].
    + intros a Ha. cbn in Ha. rewrite Hv1. zcase; lia || done.
    + split; [done|]. split; [intros j w; auto|]. intros a. rewrite B, Hv1. cbn [mid m_end].
      zcase; try lia; try done. rewrite entry_view by lia. cbn. unfold place. cbn. f_equal. f_equal. lia.
  - eexists. split; [done|]. split; [done|]. split; [done|]. intros a. rewrite Hv1. zcase; try done; try lia.
    by destruct (view t a).
Qed.

Lemma right_step t2 : chain 0 t2 -> keeps t2 ->
  (forall a, view t2 a = if (k <=? a) && (a <? m_end m) then
     if a <? start then view t a else if a <? end_ then view t a ≫= change permissions generation else None else view t a) ->
  exists t3, (if end_ <? m_end m then delta ← checked_sub end_ k; offset ← checked_add (m_offset m) delta;
      Some (tree_insert end_ (mkMapping (m_end m) (m_backing m) offset (m_permissions m) (m_generation m)) t2)
    else Some t2) = Some t3 /\ chain 0 t3 /\ keeps t3 /\
    (forall a, view t3 a = if (k <=? a) && (a <? m_end m) && (start <=? a) && (a <? end_)
                           then view t a ≫= change permissions generation else view t a).
Proof.
  intros Hc2 Hi2 Hv2. pose proof entry_bounds as E. unfold entry_ok in E. destruct (Z.ltb_spec end_ (m_end m)).
  - unfold checked_sub, checked_add. replace (k <=? end_) with true by lia. cbn [mbind option_bind].
    replace (m_offset m + (end_ - k) <=? u64_max) with true by lia. cbn [mbind option_bind].
    eexists. split; [done|]. set (rest := mkMapping _ _ _ _ _).
    destruct (fill_spec t2 k m end_ rest) as (A & B & C); [done|unfold entry_ok; cbn; lia|lia|cbn; lia| |].
    + intros a Ha. cbn in Ha. rewrite Hv2. zcase; lia || done.
    + split; [done|]. split; [intros j w; auto|]. intros a. rewrite B, Hv2. cbn [rest m_end].
      zcase; try lia; try done. rewrite entry_view by lia. unfold place. cbn. f_equal. f_equal. lia.
  - eexists. split; [done|]. split; [done|]. split; [done|]. intros a. rewrite Hv2. zcase; lia || done.
Qed.

Lemma replace_one_spec : exists t', replace_one start end_ permissions generation t (k, m) = Some t' /\ chain 0 t' /\ keeps t' /\
    (forall a, view t' a = if (k <=? a) && (a <? m_end m) && (start <=? a) && (a <? end_)
                           then view t a ≫= change permissions generation else view t a).
Proof.
  destruct (remove_spec 0 t k m Hc Hin) as [Hc0 Hv0]. unfold replace_one.
  destruct (left_step (tree_remove k t) Hc0) as (t1 & <- & Hc1 & Hi1 & Hv1); [|done|].
  { intros j w Hj Hn. apply elem_remove; [done|]. pose proof entry_bounds. unfold entry_ok in *. lia. }
  destruct (middle_step t1 Hc1 Hi1 Hv1) as (t2 & -> & Hc2 & Hi2 & Hv2). cbn [mbind option_bind].
  apply (right_step t2 Hc2 Hi2 Hv2).
Qed.
End Replace.

(** ** The whole of [replace_range] *)

Lemma range_filter_elem start end_ (t : list (Z * Mapping)) k m :
  (k, m) ∈ base.filter (fun e : Z * Mapping => start < m_end e.2) (range_below end_ t) <-> (k, m) ∈ t /\ k < end_ /\ start < m_end m.
Proof. unfold range_below. rewrite !list_elem_of_filter. cbn. tauto. Qed.

Lemma chain_filter (P : Z * Mapping -> Prop) `{forall x, Decision (P x)} lo t : chain lo t -> chain lo (base.filter P t).
Proof.
  revert lo. induction t as [|[k m] t IH]; intros lo; [done|]. intros [Hk Ht]. rewrite filter_cons. case_decide.
  - split; [done|]. by apply IH.
  - unfold entry_ok in Hk. apply (chain_weaken (m_end m)); [lia|]. by apply IH.
Qed.

Lemma replace_all_spec start end_ generation permissions affected : 0 <= start < end_ ->
  forall lo t, chain lo affected -> chain 0 t -> (forall k m, (k, m) ∈ affected -> (k, m) ∈ t /\ k < end_ /\ start < m_end m) ->
  exists t', replace_all start end_ permissions generation t affected = Some t' /\ chain 0 t' /\
    (forall a, view t' a = if bool_decide (is_Some (view affected a)) && (start <=? a) && (a <? end_)
                           then view t a ≫= change permissions generation else view t a).
Proof.
  intros Hr. induction affected as [|[k m] rest IH]; intros lo t Haff Hc Hin; cbn [replace_all].
  - exists t. split; [done|]. split; [done|]. intros a. by rewrite bool_decide_eq_false_2 by (by intros [? ?]).
  - destruct Haff as [Hk Hrest]. destruct (Hin k m ltac:(by left)) as (Hkm & Hk1 & Hk2).
    destruct (replace_one_spec start end_ generation permissions Hr t k m Hc Hkm Hk1 Hk2) as (t1 & -> & Hc1 & Hi1 & Hv1).
    cbn [mbind option_bind]. destruct (IH (m_end m) t1 Hrest Hc1) as (t2 & -> & Hc2 & Hv2).
    { intros j w Hj. destruct (Hin j w ltac:(by right)) as (? & ? & ?). split; [|done]. apply Hi1; [done|].
      pose proof (chain_elem _ _ _ _ Hrest Hj) as E. unfold entry_ok in E. lia. }
    exists t2. split; [done|]. split; [done|]. intros a. rewrite Hv2, Hv1. cbn [view]. unfold entry_ok in Hk.
    destruct ((k <=? a) && (a <? m_end m)) eqn:Ea.
    + rewrite (bool_decide_eq_false_2 (is_Some (view rest a))), (bool_decide_eq_true_2 (is_Some (Some _))); [done|by eexists|].
      rewrite (view_below (m_end m)) by (done || lia). by intros [? ?].
    + done.
Qed.

(** ** Walking a range *)

(** The mappings that end above [c]: the measure of the loops over a range. *)
Definition remaining (t : list (Z * Mapping)) (c : Z) : nat := length (base.filter (fun e : Z * Mapping => c < m_end e.2) t).

Lemma remaining_le t c : (remaining t c <= length t)%nat.
Proof. apply length_filter. Qed.

Lemma remaining_mono t c c' : c <= c' -> (remaining t c' <= remaining t c)%nat.
Proof.
  intros Hcc. unfold remaining. induction t as [|e t IH]; [done|]. rewrite !filter_cons. repeat case_decide; cbn [length]; lia.
Qed.

Lemma remaining_lt t c c' k m : (k, m) ∈ t -> c < m_end m -> m_end m <= c' -> (remaining t c' < remaining t c)%nat.
Proof.
  intros Hin H1 H2. unfold remaining. induction t as [|e t IH]; [by apply elem_of_nil in Hin|]. rewrite !filter_cons.
  pose proof (remaining_mono t c c' ltac:(lia)) as M. unfold remaining in M.
  apply elem_of_cons in Hin as [<-|Hin]; cbn [snd].
  - rewrite decide_False, decide_True by lia. cbn [length]. lia.
  - specialize (IH Hin). repeat case_decide; cbn [length]; lia.
Qed.

Lemma mapped_loop_spec t s : s_mappings s = t -> chain 0 t -> forall fuel cursor end_, cursor <= end_ -> (remaining t cursor < fuel)%nat ->
  exists b, mapped_loop fuel s cursor end_ = Some b /\ (b = true <-> forall a, cursor <= a < end_ -> is_Some (view t a)).
Proof.
  intros Es Hc. induction fuel as [|fuel IH]; intros cursor end_ Hle Hf; [lia|]. cbn [mapped_loop]. rewrite Es.
  destruct (Z.ltb_spec cursor end_) as [Hlt|Hge]; [|exists true; split; [done|]; split; [intros; lia|done]].
  pose proof (next_back_spec 0 t cursor Hc) as H. destruct (next_back _) as [[k m]|].
  - destruct H as (Hin & Hk & Hv & _). destruct (Z.leb_spec (m_end m) cursor).
    + exists false. split; [done|]. split; [done|]. intros Hall. specialize (Hall cursor ltac:(lia)). rewrite Hv in Hall.
      by rewrite (proj2 (Z.ltb_ge _ _)) in Hall by lia; destruct Hall.
    + destruct (Z.le_gt_cases end_ (m_end m)).
      * rewrite Z.min_r by lia. exists true. split; [destruct fuel; cbn [mapped_loop]; by rewrite Z.ltb_irrefl|]. split; [|done].
        intros _ a Ha. rewrite (view_elem 0 t k m) by (done || lia). by eexists.
      * rewrite Z.min_l by lia. destruct (IH (m_end m) end_) as (b & -> & Hb); [lia|pose proof (remaining_lt t cursor (m_end m) k m Hin); lia|].
        exists b. split; [done|]. rewrite Hb. split; intros Hall a Ha; [|apply Hall; lia].
        destruct (Z.lt_ge_cases a (m_end m)); [|apply Hall; lia]. rewrite (view_elem 0 t k m) by (done || lia). by eexists.
  - exists false. split; [done|]. split; [done|]. intros Hall. specialize (Hall cursor ltac:(lia)). rewrite H in Hall by lia. by destruct Hall.
Qed.

Lemma mapped_range_spec s start end_ : chain 0 (s_mappings s) -> start <= end_ ->
  exists b, mapped_range s start end_ = Some b /\ (b = true <-> forall a, start <= a < end_ -> is_Some (view (s_mappings s) a)).
Proof.
  intros Hc Hle. apply (mapped_loop_spec (s_mappings s)); [done..|]. pose proof (remaining_le (s_mappings s) start). lia.
Qed.

(** ** The state of an address space *)

Definition space_ok (s : AddressSpace) : Prop := chain 0 (s_mappings s) /\ 0 <= s_generation s <= u64_max.

Lemma replace_range_spec s start end_ permissions access : space_ok s -> 0 <= start < end_ ->
  exists s' r, replace_range s start end_ permissions access = Some (s', r) /\
    ((exists a, start <= a < end_ /\ view (s_mappings s) a = None) /\ s' = s /\ r = Err (mkError start access Unmapped) \/
     (forall a, start <= a < end_ -> is_Some (view (s_mappings s) a)) /\ s_generation s = u64_max /\
       s' = s /\ r = Err (mkError start access IdentityExhausted) \/
     (forall a, start <= a < end_ -> is_Some (view (s_mappings s) a)) /\ s_generation s < u64_max /\
       r = Ok tt /\ space_ok s' /\ s_generation s' = s_generation s + 1 /\ s_id s' = s_id s /\
       forall a, view (s_mappings s') a = if (start <=? a) && (a <? end_)
                  then view (s_mappings s) a ≫= change permissions (s_generation s + 1) else view (s_mappings s) a).
Proof.
  intros [Hc Hg] Hr. unfold replace_range. destruct (mapped_range_spec s start end_ Hc ltac:(lia)) as (b & -> & Hb).
  cbn [mbind option_bind]. destruct b; cbn [negb].
  - assert (forall a, start <= a < end_ -> is_Some (view (s_mappings s) a)) as Hall by (by apply Hb). clear Hb.
    unfold next_generation, checked_add. destruct (Z.leb_spec (s_generation s + 1) u64_max).
    + set (affected := base.filter _ _). cbn [s_mappings] in affected.
      destruct (replace_all_spec start end_ (s_generation s + 1) permissions affected Hr 0 (s_mappings s)) as (t' & E & Hc' & Hv).
      { unfold affected, range_below. by repeat apply chain_filter. }
      { done. }
      { intros k m. apply range_filter_elem. }
      cbn [s_mappings]. rewrite E. cbn [mbind option_bind]. eexists _, _. split; [done|]. right; right. cbn.
      split; [done|]. split; [lia|]. split; [done|]. split; [split; [done|cbn; lia]|]. split; [done|]. split; [done|].
      intros a. rewrite Hv. destruct ((start <=? a) && (a <? end_)) eqn:Ea; [|by rewrite <- andb_assoc, Ea, andb_false_r].
      rewrite <- andb_assoc, Ea, andb_true_r. destruct (Hall a ltac:(lia)) as [p Ep].
      destruct (view_Some_elem _ _ _ Ep) as (k & m & Hin & Ha & _).
      rewrite bool_decide_eq_true_2; [done|]. rewrite (view_elem 0 affected k m); [by eexists| |  |done].
      * unfold affected, range_below. by repeat apply chain_filter.
      * apply range_filter_elem. split; [done|]. lia.
    + eexists _, _. split; [done|]. right; left. split; [done|]. split; [lia|done].
  - eexists _, _. split; [done|]. left. split; [|done].
    destruct (decide (Exists (fun a => view (s_mappings s) a = None) (seqZ start (end_ - start)))) as [Hex|Hno].
    + apply Exists_exists in Hex as (a & Ha%list_elem_of_In%elem_of_seqZ & Hn). exists a. split; [lia|done].
    + exfalso. apply not_Exists_Forall in Hno; [|apply _]. rewrite Stdlib.Lists.List.Forall_forall in Hno. cut (false = true); [done|]. apply Hb.
      intros a Ha. destruct (view (s_mappings s) a) eqn:E; [by eexists|]. exfalso. apply (Hno a); [|done].
      apply list_elem_of_In, elem_of_seqZ. lia.
Qed.
