(* ===== verification/MemoryBytes.v ===== *)
(** * Bytes of guest memory

    A [Memory] is a function from locations, a backing and an offset in it, to
    bytes ([byte_at]); pages that are absent hold zeros. The lemmas give an
    access as one step per byte: [resolve] finds the locations of a range or
    its first fault, [copy_spans] reads them, [write_spans] writes them in
    order ([puts]). *)
From S2P Require Import Prelude Words Memory MemorySpec.

(** ** Faults and locations *)

Definition loc : Type := Z * Z.

Definition fault (t : list (Z * Mapping)) (permission a : Z) : option MemoryErrorReason :=
  match view t a with
  | None => Some Unmapped
  | Some p => if contains (p_permissions p) permission then None else Some PermissionDenied
  end.

Definition loc_of (t : list (Z * Mapping)) (a : Z) : loc :=
  match view t a with Some p => (p_backing p, p_offset p) | None => (0, 0) end.

Definition locs_of (t : list (Z * Mapping)) (a n : Z) : list loc := loc_of t <$> seqZ a n.

Definition span_locs (sp : Span) : list loc := (fun i => (sp_backing sp, sp_offset sp + i)) <$> seqZ 0 (Z.of_nat (sp_len sp)).

(** A span lies in one mapping. *)
Definition span_in (t : list (Z * Mapping)) (sp : Span) : Prop :=
  exists k m, (k, m) ∈ t /\ sp_backing sp = m_backing m /\ m_offset m <= sp_offset sp /\
    sp_offset sp + Z.of_nat (sp_len sp) <= m_offset m + (m_end m - k).

Lemma span_locs_of t k m c e lo : chain lo t -> (k, m) ∈ t -> k <= c < e -> e <= m_end m ->
  span_locs (mkSpan (m_backing m) (m_offset m + (c - k)) (Z.to_nat (e - c))) = locs_of t c (e - c).
Proof.
  intros Hc Hin Hk He. unfold span_locs, locs_of. cbn [sp_backing sp_offset sp_len]. rewrite Z2Nat.id by lia.
  replace (seqZ c (e - c)) with (Z.add c <$> seqZ 0 (e - c)) by (rewrite fmap_add_seqZ; f_equal; lia).
  rewrite <- list_fmap_compose. apply list_fmap_ext. intros i x Hx%lookup_seqZ. unfold loc_of. cbn.
  rewrite (view_elem lo t k m) by (done || lia). unfold place. cbn. f_equal. lia.
Qed.

(** The outcome of resolving a range: the first fault, or every location. *)
Definition resolved (t : list (Z * Mapping)) (permission : Z) (access : MemoryAccess) (c e : Z) (spans : list Span)
    (r : result (list Span) MemoryError) : Prop :=
  (exists sp, r = Ok (spans ++ sp) /\ (forall a, c <= a < e -> fault t permission a = None) /\
     concat (span_locs <$> sp) = locs_of t c (e - c) /\ Forall (span_in t) sp) \/
  (exists a why, c <= a < e /\ fault t permission a = Some why /\ (forall b, c <= b < a -> fault t permission b = None) /\
     r = Err (mkError a access why)).

Lemma resolved_step t permission access c m_ e spans sp r : c < m_ <= e ->
  (forall a, c <= a < m_ -> fault t permission a = None) -> span_in t sp -> span_locs sp = locs_of t c (m_ - c) ->
  resolved t permission access m_ e (spans ++ [sp]) r -> resolved t permission access c e spans r.
Proof.
  intros Hm Hf Hin Hl [(sps & -> & Hg & Hls & Hins)|(a & why & Ha & Hw & Hb & ->)].
  - left. exists (sp :: sps). split; [by rewrite <- app_assoc|]. split; [|split; [|by constructor]].
    + intros a Ha. destruct (Z.lt_ge_cases a m_); [apply Hf|apply Hg]; lia.
    + cbn. rewrite Hl, Hls. unfold locs_of. replace (e - c) with ((m_ - c) + (e - m_)) by lia.
      rewrite seqZ_app by lia. rewrite fmap_app. do 3 f_equal. lia.
  - right. exists a, why. split; [lia|]. split; [done|]. split; [|done].
    intros b Hc. destruct (Z.lt_ge_cases b m_); [apply Hf|apply Hb]; lia.
Qed.

Lemma resolve_loop_done fuel s permission access c e spans : e <= c ->
  resolve_loop fuel s permission access c e spans = Some (Ok spans).
Proof. intros H. destruct fuel; cbn [resolve_loop]; by rewrite (proj2 (Z.ltb_ge c e) H). Qed.

Lemma resolved_nil t permission access c spans : resolved t permission access c c spans (Ok spans).
Proof.
  left. exists []. rewrite app_nil_r. split; [done|]. split; [intros; lia|]. unfold locs_of. by rewrite seqZ_nil by lia.
Qed.

Lemma resolve_loop_spec t s permission access : s_mappings s = t -> chain 0 t -> forall fuel c e spans,
  c <= e <= u64_max -> (c < e -> (remaining t c < fuel)%nat) ->
  exists r, resolve_loop fuel s permission access c e spans = Some r /\ resolved t permission access c e spans r.
Proof.
  intros Es Hc. induction fuel as [|fuel IH]; intros c e spans He Hf.
  { rewrite resolve_loop_done by lia. assert (c = e) as -> by lia. eexists. split; [done|]. apply resolved_nil. }
  destruct (Z.lt_ge_cases c e) as [Hlt|Hge].
  2:{ rewrite resolve_loop_done by lia. assert (c = e) as -> by lia. eexists. split; [done|]. apply resolved_nil. }
  cbn [resolve_loop]. rewrite Es, (proj2 (Z.ltb_lt c e) Hlt).
  pose proof (next_back_spec 0 t c Hc) as H. destruct (next_back _) as [[k m]|].
  - destruct H as (Hin & Hk & Hv & _). pose proof (chain_elem _ _ _ _ Hc Hin) as E. unfold entry_ok in E.
    destruct (Z.ltb_spec c (m_end m)).
    + assert (forall a, k <= a < m_end m -> fault t permission a = if contains (m_permissions m) permission then None else Some PermissionDenied) as Hfault
        by (intros a Ha; unfold fault; by rewrite (view_elem 0 t k m)).
      destruct (contains (m_permissions m) permission) eqn:Ep.
      * unfold checked_sub, checked_add. replace (k <=? c) with true by lia. cbn [mbind option_bind].
        replace (m_offset m + (c - k) <=? u64_max) with true by lia. cbn [mbind option_bind].
        replace (c <=? m_end m `min` e) with true by lia. cbn [mbind option_bind].
        destruct (IH (m_end m `min` e) e (spans ++ [mkSpan (m_backing m) (m_offset m + (c - k)) (Z.to_nat (m_end m `min` e - c))])) as (r & -> & Hr).
        { lia. }
        { intros Hmore. pose proof (remaining_lt t c (m_end m `min` e) k m Hin). lia. }
        eexists. split; [done|]. eapply resolved_step; [| | | |exact Hr]; [lia|intros a Ha; apply Hfault; lia| |].
        { exists k, m. cbn. split; [done|]. split; [done|]. lia. }
        { by apply (span_locs_of t k m c _ 0); try lia. }
      * eexists. split; [done|]. right. exists c, PermissionDenied. split; [lia|]. split; [apply Hfault; lia|]. split; [intros; lia|done].
    + eexists. split; [done|]. right. exists c, Unmapped. split; [lia|]. unfold fault. rewrite Hv.
      split; [done|]. split; [intros; lia|done].
  - eexists. split; [done|]. right. exists c, Unmapped. split; [lia|]. unfold fault. rewrite H by lia. split; [done|]. split; [intros; lia|done].
Qed.

Lemma resolve_spec s address size access permission : space_ok s -> 0 <= address <= u64_max -> access_permission access = Some permission ->
  exists r, resolve s address size access = Some r /\
    (size = 0%nat /\ r = Ok [] \/
     (0 < size)%nat /\ u64_max < address + Z.of_nat size /\ r = Err (mkError address access InvalidRange) \/
     (0 < size)%nat /\ address + Z.of_nat size <= u64_max /\
       resolved (s_mappings s) permission access address (address + Z.of_nat size) [] r).
Proof.
  intros [Hc _] Ha Hp. unfold resolve. rewrite Hp. destruct (Nat.eqb_spec size 0) as [->|Hn]; [eexists; split; [done|]; by left|].
  unfold checked_end. replace (Z.of_nat size =? 0) with false by lia. unfold checked_add.
  destruct (Z.leb_spec (address + Z.of_nat size) u64_max).
  - pose proof (remaining_le (s_mappings s) address).
    destruct (resolve_loop_spec (s_mappings s) s permission access eq_refl Hc (S (length (s_mappings s))) address (address + Z.of_nat size) [])
      as (r & -> & Hr); [lia|lia|]. eexists. split; [done|]. right; right. split; [lia|done].
  - eexists. split; [done|]. right; left. split; [lia|]. split; [lia|done].
Qed.

(** ** Pages *)

Definition backing_byte (b : Backing) (o : Z) : Z :=
  match b_pages b !! (o / PAGE) with Some page => default 0 (page !! Z.to_nat (o mod PAGE)) | None => 0 end.

Definition pages_ok (b : Backing) : Prop := map_Forall (fun _ page => length page = PAGE_LEN) (b_pages b).

(** The part of a page a copy handles in one turn. *)
Lemma page_split o i n : 0 <= o -> (i < Nat.min (PAGE_LEN - Z.to_nat (o mod PAGE)) n)%nat ->
  (o + Z.of_nat i) / PAGE = o / PAGE /\ Z.to_nat ((o + Z.of_nat i) mod PAGE) = (Z.to_nat (o mod PAGE) + i)%nat.
Proof.
  unfold PAGE_LEN, PAGE. intros Ho Hi. pose proof (Z.mod_pos_bound o 4096 ltac:(lia)). pose proof (Z.div_mod o 4096 ltac:(lia)).
  assert (0 <= o mod 4096 + Z.of_nat i < 4096) by lia.
  split; [symmetry; apply (Z.div_unique_pos _ _ _ (o mod 4096 + Z.of_nat i)); lia|].
  rewrite <- (Z.mod_unique_pos (o + Z.of_nat i) 4096 (o / 4096) (o mod 4096 + Z.of_nat i)) by lia. lia.
Qed.

Lemma page_offset_lt o : (Z.to_nat (o mod PAGE) < PAGE_LEN)%nat.
Proof. unfold PAGE_LEN, PAGE. pose proof (Z.mod_pos_bound o 4096 ltac:(lia)). lia. Qed.

Lemma read_backing_spec b offset : pages_ok b -> 0 <= offset -> forall fuel copied destination,
  offset + Z.of_nat (length destination) <= u64_max -> (length destination - copied <= fuel)%nat ->
  exists d, read_backing fuel b offset copied destination = Some d /\ length d = length destination /\
    forall i, (i < length destination)%nat ->
      d !! i = if (i <? copied)%nat then destination !! i else Some (backing_byte b (offset + Z.of_nat i)).
Proof.
  intros Hp Ho. induction fuel as [|fuel IH]; intros copied dst Hd Hf; cbn [read_backing].
  { rewrite (proj2 (Nat.ltb_ge _ _)) by lia. eexists. split; [done|]. split; [done|]. intros i Hi. natcase; lia || done. }
  destruct (Nat.ltb_spec copied (length dst)) as [Hlt|Hge].
  2:{ eexists. split; [done|]. split; [done|]. intros i Hi. natcase; lia || done. }
  unfold checked_add. replace (offset + Z.of_nat copied <=? u64_max) with true by lia. cbn [mbind option_bind].
  set (current := offset + Z.of_nat copied). set (len := Nat.min _ _). pose proof (page_offset_lt current) as Hoff.
  assert (exists chunk, (match b_pages b !! (current / PAGE) with
      | Some page => slice page (Z.to_nat (current mod PAGE)) (Z.to_nat (current mod PAGE) + len)
      | None => Some (replicate len 0) end) = Some chunk /\ length chunk = len /\
      forall i, (i < len)%nat -> chunk !! i = Some (backing_byte b (current + Z.of_nat i))) as (chunk & -> & Hlen & Hchunk).
  { destruct (b_pages b !! (current / PAGE)) as [page|] eqn:Ep.
    - pose proof (Hp _ _ Ep) as Hpage. cbn in Hpage. destruct (slice_spec page (Z.to_nat (current mod PAGE)) len ltac:(lia)) as (s & -> & Hs & Hl).
      exists s. split; [done|]. split; [done|]. intros i Hi. rewrite Hl by done. unfold backing_byte.
      destruct (page_split current i (length dst - copied) ltac:(lia) Hi) as [-> ->]. rewrite Ep.
      destruct (page !! _) eqn:El; [done|]. apply lookup_ge_None in El. lia.
    - eexists. split; [done|]. split; [apply length_replicate|]. intros i Hi. rewrite lookup_replicate_2 by done. unfold backing_byte.
      destruct (page_split current i (length dst - copied) ltac:(lia) Hi) as [-> _]. by rewrite Ep. }
  cbn [mbind option_bind]. destruct (copy_at_spec dst copied chunk) as (d1 & -> & Hd1 & Hl1); [lia|]. cbn [mbind option_bind].
  destruct (IH (copied + len)%nat d1) as (d2 & -> & Hd2 & Hl2); [lia|lia|]. exists d2. split; [done|]. split; [lia|].
  intros i Hi. rewrite Hl2 by lia. rewrite Hl1, Hlen. natcase; try lia; try done.
  rewrite Hchunk by lia. by replace (current + Z.of_nat (i - copied)) with (offset + Z.of_nat i) by lia.
Qed.

(** What is stored at [o] after [source] is written at [offset], from index [copied] on. *)
Definition written (b : Backing) (offset : Z) (copied : nat) (source : list Z) (o : Z) : Z :=
  if (offset + Z.of_nat copied <=? o) && (o <? offset + Z.of_nat (length source))
  then default 0 (source !! Z.to_nat (o - offset)) else backing_byte b o.

(** The offsets a turn of the copy covers, by page. *)
Lemma page_range current n o : 0 <= current -> 0 <= o -> (Z.to_nat (current mod PAGE) + n <= PAGE_LEN)%nat ->
  current <= o < current + Z.of_nat n <->
  o / PAGE = current / PAGE /\ (Z.to_nat (current mod PAGE) <= Z.to_nat (o mod PAGE) < Z.to_nat (current mod PAGE) + n)%nat.
Proof.
  intros Hc Ho Hn. pose proof (Z.mod_pos_bound current PAGE ltac:(unfold PAGE; lia)). pose proof (Z.div_mod current PAGE ltac:(unfold PAGE; lia)).
  pose proof (Z.mod_pos_bound o PAGE ltac:(unfold PAGE; lia)). pose proof (Z.div_mod o PAGE ltac:(unfold PAGE; lia)).
  split; [|intros [E ?]; rewrite E in *; lia]. intros Hr.
  destruct (page_split current (Z.to_nat (o - current)) n Hc ltac:(lia)) as [E1 E2].
  replace (current + Z.of_nat (Z.to_nat (o - current))) with o in * by lia. rewrite E1, E2. lia.
Qed.

Lemma page_index current o : 0 <= current <= o -> o / PAGE = current / PAGE ->
  (Z.to_nat (o mod PAGE) - Z.to_nat (current mod PAGE))%nat = Z.to_nat (o - current).
Proof.
  intros Ho E. pose proof (Z.mod_pos_bound current PAGE ltac:(unfold PAGE; lia)). pose proof (Z.div_mod current PAGE ltac:(unfold PAGE; lia)).
  pose proof (Z.mod_pos_bound o PAGE ltac:(unfold PAGE; lia)). pose proof (Z.div_mod o PAGE ltac:(unfold PAGE; lia)). rewrite E in *. lia.
Qed.

(** One page of a write: the bytes are stored, unless they are all zero and the page is absent. *)
Lemma write_page_stored b current bytes : pages_ok b -> 0 <= current -> (Z.to_nat (current mod PAGE) + length bytes <= PAGE_LEN)%nat ->
  exists page, copy_at (default (replicate PAGE_LEN 0) (b_pages b !! (current / PAGE))) (Z.to_nat (current mod PAGE)) bytes = Some page /\
    pages_ok (mkBacking (b_size b) (<[current / PAGE := page]> (b_pages b))) /\
    forall o, 0 <= o -> backing_byte (mkBacking (b_size b) (<[current / PAGE := page]> (b_pages b))) o = written b current 0 bytes o.
Proof.
  intros Hp Hc Hn. set (old := default _ _).
  assert (length old = PAGE_LEN) as Hold by (unfold old; destruct (b_pages b !! _) as [page|] eqn:E; [exact (Hp _ _ E)|apply length_replicate]).
  destruct (copy_at_spec old (Z.to_nat (current mod PAGE)) bytes) as (page & -> & Hlen & Hl); [lia|]. exists page. split; [done|]. split.
  - unfold pages_ok. cbn. apply map_Forall_insert_2; [cbn; lia|done].
  - intros o Ho. unfold backing_byte, written. cbn [b_pages]. rewrite Z.add_0_r. pose proof (page_range current (length bytes) o Hc Ho Hn) as R.
    destruct (decide (o / PAGE = current / PAGE)) as [E|E].
    + rewrite E, lookup_insert_eq, Hl. destruct ((current <=? o) && (o <? current + Z.of_nat (length bytes))) eqn:Er.
      * assert (current <= o < current + Z.of_nat (length bytes)) as Hr by lia. pose proof (proj1 R Hr) as [_ Hi]. natcase; try lia.
        by rewrite page_index by (done || lia).
      * assert (~ (Z.to_nat (current mod PAGE) <= Z.to_nat (o mod PAGE) < Z.to_nat (current mod PAGE) + length bytes)%nat) by lia.
        pose proof (page_offset_lt o). assert (default 0 (old !! Z.to_nat (o mod PAGE)) = backing_byte b o) as Eo.
        { unfold backing_byte, old. rewrite E. destruct (b_pages b !! (current / PAGE)); cbn [default]; [done|]. by rewrite lookup_replicate_2. }
        unfold backing_byte in Eo. natcase; try lia; done.
    + rewrite lookup_insert_ne by done. zcase; try done. exfalso. apply E, R. lia.
Qed.

Lemma write_page b current bytes : pages_ok b -> 0 <= current -> (Z.to_nat (current mod PAGE) + length bytes <= PAGE_LEN)%nat ->
  exists b', (if existsb (fun byte => negb (byte =? 0)) bytes || bool_decide (is_Some (b_pages b !! (current / PAGE))) then
                page ← copy_at (default (replicate PAGE_LEN 0) (b_pages b !! (current / PAGE))) (Z.to_nat (current mod PAGE)) bytes;
                Some (mkBacking (b_size b) (<[current / PAGE := page]> (b_pages b)))
              else Some b) = Some b' /\ b_size b' = b_size b /\ pages_ok b' /\
    forall o, 0 <= o -> backing_byte b' o = written b current 0 bytes o.
Proof.
  intros Hp Hc Hn. destruct (write_page_stored b current bytes Hp Hc Hn) as (page & -> & Hp' & Hv).
  destruct (_ || _) eqn:E; [by eexists|]. exists b. split; [done|]. split; [done|]. split; [done|]. intros o Ho.
  apply orb_false_iff in E as [Ex En%bool_decide_eq_false]. unfold written. rewrite Z.add_0_r. zcase; try done.
  apply eq_None_not_Some in En. unfold backing_byte.
  destruct (page_range current (length bytes) o Hc Ho Hn) as [R _]. destruct R as [-> _]; [lia|]. rewrite En.
  destruct (bytes !! _) as [v|] eqn:Ev; [|done]. cbn. apply list_elem_of_lookup_2, list_elem_of_In in Ev.
  destruct (Z.eqb_spec v 0) as [->|Hne]; [done|]. rewrite (proj2 (existsb_exists _ bytes)) in Ex; [done|].
  exists v. split; [done|]. lia.
Qed.

Lemma write_backing_spec offset source : 0 <= offset -> offset + Z.of_nat (length source) <= u64_max -> forall fuel b copied,
  pages_ok b -> (length source - copied <= fuel)%nat ->
  exists b', write_backing fuel b offset copied source = Some b' /\ b_size b' = b_size b /\ pages_ok b' /\
    forall o, 0 <= o -> backing_byte b' o = written b offset copied source o.
Proof.
  intros Ho Hm. assert (forall b copied o, (length source <= copied)%nat -> backing_byte b o = written b offset copied source o) as Hdone
    by (intros b copied o Hc; unfold written; zcase; lia || done).
  induction fuel as [|fuel IH]; intros b copied Hp Hf; cbn [write_backing].
  { rewrite (proj2 (Nat.ltb_ge _ _)) by lia. exists b. split; [done|]. split; [done|]. split; [done|]. intros; apply Hdone; lia. }
  destruct (Nat.ltb_spec copied (length source)) as [Hlt|Hge].
  2:{ exists b. split; [done|]. split; [done|]. split; [done|]. intros; apply Hdone; lia. }
  unfold checked_add. replace (offset + Z.of_nat copied <=? u64_max) with true by lia. cbn [mbind option_bind].
  set (current := offset + Z.of_nat copied). set (len := Nat.min _ _). pose proof (page_offset_lt current) as Hoff.
  destruct (slice_spec source copied len) as (bytes & -> & Hlen & Hb); [lia|]. cbn [mbind option_bind].
  destruct (write_page b current bytes Hp) as (b1 & -> & Hs1 & Hp1 & Hv1); [lia|lia|]. cbn [mbind option_bind].
  destruct (IH b1 (copied + len)%nat Hp1) as (b2 & -> & Hs2 & Hp2 & Hv2); [lia|]. exists b2. split; [done|]. split; [congruence|].
  split; [done|]. intros o Hoo. rewrite Hv2 by done. unfold written at 1. rewrite Hv1 by done. unfold written.
  zcase; try lia; try done. rewrite Hb by lia. do 2 f_equal. lia.
Qed.

(** ** Memory as a function *)

Definition byte_at (mem : Memory) (l : loc) : Z :=
  match backings mem !! l.1 with Some b => backing_byte b l.2 | None => 0 end.

Definition backing_ok (next id : Z) (b : Backing) : Prop := 1 <= id < next /\ 0 < b_size b <= u64_max /\ pages_ok b.

Definition memory_ok (mem : Memory) : Prop :=
  1 <= next_backing_id mem <= u64_max /\ map_Forall (backing_ok (next_backing_id mem)) (backings mem).

(** Every mapping lies in a backing of the memory. *)
Definition backed (mem : Memory) (s : AddressSpace) : Prop :=
  forall k m, (k, m) ∈ s_mappings s -> exists b, backings mem !! m_backing m = Some b /\ m_offset m + (m_end m - k) <= b_size b.

Definition guest_ok (mem : Memory) (s : AddressSpace) : Prop := space_ok s /\ memory_ok mem /\ backed mem s.

Definition span_backed (mem : Memory) (sp : Span) : Prop :=
  0 <= sp_offset sp /\ exists b, backings mem !! sp_backing sp = Some b /\ sp_offset sp + Z.of_nat (sp_len sp) <= b_size b.

Lemma span_in_backed mem s sp : guest_ok mem s -> span_in (s_mappings s) sp -> span_backed mem sp.
Proof.
  intros ([Hc _] & _ & Hb) (k & m & Hin & E1 & E2 & E3). destruct (Hb k m Hin) as (b & Eb & Hs).
  pose proof (chain_elem _ _ _ _ Hc Hin) as E. unfold entry_ok in E. split; [lia|]. exists b. rewrite E1. split; [done|]. lia.
Qed.

Lemma length_span_locs sp : length (span_locs sp) = sp_len sp.
Proof. unfold span_locs. rewrite length_fmap, length_seqZ. lia. Qed.

Lemma lookup_span_locs sp i : (i < sp_len sp)%nat -> span_locs sp !! i = Some (sp_backing sp, sp_offset sp + Z.of_nat i).
Proof. intros Hi. unfold span_locs. rewrite list_lookup_fmap, (lookup_seqZ_lt 0) by lia. done. Qed.

Lemma read_span mem sp b part : memory_ok mem -> backings mem !! sp_backing sp = Some b -> 0 <= sp_offset sp ->
  sp_offset sp + Z.of_nat (sp_len sp) <= b_size b -> length part = sp_len sp ->
  read_backing (length part) b (sp_offset sp) 0 part = Some (byte_at mem <$> span_locs sp).
Proof.
  intros [_ Hm] Eb Ho Hs Hl. destruct (Hm _ _ Eb) as (_ & Hb & Hp).
  destruct (read_backing_spec b (sp_offset sp) Hp Ho (length part) 0 part) as (d & -> & Hd & Hv); [lia|lia|].
  f_equal. apply list_eq_same_length with (n := sp_len sp); [rewrite length_fmap; apply length_span_locs|lia|].
  intros i x y Hi. rewrite Hv, list_lookup_fmap, lookup_span_locs by lia. cbn. unfold byte_at. cbn. rewrite Eb. congruence.
Qed.

Lemma copy_spans_spec mem : memory_ok mem -> forall spans destination offset, Forall (span_backed mem) spans ->
  length destination = (offset + length (concat (span_locs <$> spans)))%nat ->
  copy_spans mem destination offset spans = Some (take offset destination ++ (byte_at mem <$> concat (span_locs <$> spans))).
Proof.
  intros Hm. induction spans as [|sp spans IH]; intros dst off Hf Hl; cbn [copy_spans].
  - cbn in *. rewrite app_nil_r, take_ge by lia. done.
  - apply Forall_cons_1 in Hf as [(Ho & b & Eb & Hs) Hf]. cbn in Hl. rewrite length_app, length_span_locs in Hl. rewrite Eb. cbn [mbind option_bind].
    destruct (slice_spec dst off (sp_len sp)) as (part & -> & Hp & _); [lia|]. cbn [mbind option_bind].
    rewrite (read_span mem sp b part Hm Eb Ho Hs Hp). cbn [mbind option_bind]. set (bytes := byte_at mem <$> span_locs sp).
    assert (length bytes = sp_len sp) as Hb by (unfold bytes; by rewrite length_fmap, length_span_locs).
    unfold copy_at. rewrite (proj2 (Nat.leb_le _ _)) by lia. cbn [mbind option_bind]. rewrite IH; [|done|].
    + f_equal. cbn [fmap list_fmap concat]. rewrite fmap_app, !app_assoc. f_equal. rewrite app_assoc_reverse.
      rewrite take_app_ge by (rewrite length_take; lia). f_equal. rewrite length_take, Nat.min_l by lia. rewrite take_app_le by lia. rewrite take_ge by lia. done.
    + rewrite !length_app, length_take, length_drop. lia.
Qed.

(** Bytes stored one by one, in order. *)
Fixpoint puts (f : loc -> Z) (ls : list loc) (vs : list Z) : loc -> Z :=
  match ls, vs with
  | l :: ls, v :: vs => puts (fun x => if decide (x = l) then v else f x) ls vs
  | _, _ => f
  end.

Lemma puts_app f l1 l2 v1 v2 : length l1 = length v1 -> puts f (l1 ++ l2) (v1 ++ v2) = puts (puts f l1 v1) l2 v2.
Proof. revert f v1. induction l1 as [|l l1 IH]; intros f [|v v1] H; try done. cbn. apply IH. by injection H. Qed.

Lemma puts_ext (P : loc -> Prop) ls : forall f g vs, (forall l, P l -> f l = g l) -> forall l, P l -> puts f ls vs l = puts g ls vs l.
Proof.
  induction ls as [|x ls IH]; intros f g vs H l Hl; [by apply H|]. destruct vs as [|v vs]; [by apply H|]. cbn. apply IH; [|done].
  intros y Hy. case_decide; [done|]. by apply H.
Qed.

Lemma span_locs_S b o n : span_locs (mkSpan b o (S n)) = (b, o) :: span_locs (mkSpan b (o + 1) n).
Proof.
  unfold span_locs. cbn [sp_backing sp_offset sp_len]. rewrite (seqZ_cons 0) by lia. cbn. f_equal; [f_equal; lia|].
  replace (Z.pred (Z.of_nat (S n))) with (Z.of_nat n) by lia. replace (seqZ (Z.succ 0) (Z.of_nat n)) with (Z.add 1 <$> seqZ 0 (Z.of_nat n)) by (by rewrite fmap_add_seqZ).
  rewrite <- list_fmap_compose. apply list_fmap_ext. intros _ x _. cbn. f_equal. lia.
Qed.

Lemma puts_span b : forall vs f o l, puts f (span_locs (mkSpan b o (length vs))) vs l =
  if bool_decide (l.1 = b) && (o <=? l.2) && (l.2 <? o + Z.of_nat (length vs)) then default 0 (vs !! Z.to_nat (l.2 - o)) else f l.
Proof.
  induction vs as [|v vs IH]; intros f o [b' x].
  - cbn. destruct (bool_decide _); cbn; [zcase; lia || done|done].
  - cbn [length]. rewrite span_locs_S. cbn [puts]. rewrite IH. cbn [fst snd]. case_bool_decide as Eb; cbn [andb].
    + subst b'. destruct (decide (x = o)) as [->|Hne].
      * rewrite decide_True by done. zcase; try lia. by rewrite Z.sub_diag.
      * rewrite decide_False by congruence. zcase; try lia; try done.
        by replace (Z.to_nat (x - o)) with (S (Z.to_nat (x - (o + 1)))) by lia.
    + rewrite decide_False by congruence. done.
Qed.

(** A memory whose backings differ from those of another in their pages only. *)
Definition same_shape (mem mem' : Memory) : Prop :=
  next_backing_id mem' = next_backing_id mem /\ forall id, b_size <$> backings mem' !! id = b_size <$> backings mem !! id.

Lemma same_shape_refl mem : same_shape mem mem.
Proof. done. Qed.

Lemma same_shape_trans m1 m2 m3 : same_shape m1 m2 -> same_shape m2 m3 -> same_shape m1 m3.
Proof. intros [A B] [C D]. split; [congruence|]. intros id. by rewrite D. Qed.

Lemma same_shape_lookup mem mem' id b : same_shape mem mem' -> backings mem !! id = Some b ->
  exists b', backings mem' !! id = Some b' /\ b_size b' = b_size b.
Proof. intros [_ H] E. specialize (H id). rewrite E in H. apply fmap_Some in H as (b' & ? & ?). eauto. Qed.

Lemma backed_shape mem mem' s : same_shape mem mem' -> backed mem s -> backed mem' s.
Proof.
  intros Hs Hb k m Hin. destruct (Hb k m Hin) as (b & Eb & Hl). destruct (same_shape_lookup _ _ _ _ Hs Eb) as (b' & ? & Es). exists b'. rewrite Es. done.
Qed.

Lemma span_backed_shape mem mem' sp : same_shape mem mem' -> span_backed mem sp -> span_backed mem' sp.
Proof.
  intros Hs (Ho & b & Eb & Hl). destruct (same_shape_lookup _ _ _ _ Hs Eb) as (b' & ? & Es). split; [done|]. exists b'. rewrite Es. done.
Qed.

Lemma write_span mem sp b part : memory_ok mem -> backings mem !! sp_backing sp = Some b -> 0 <= sp_offset sp ->
  sp_offset sp + Z.of_nat (sp_len sp) <= b_size b -> length part = sp_len sp ->
  exists b', write_backing (length part) b (sp_offset sp) 0 part = Some b' /\
    let mem' := mkMemory (next_backing_id mem) (<[sp_backing sp := b']> (backings mem)) in
    memory_ok mem' /\ same_shape mem mem' /\ forall l, 0 <= l.2 -> byte_at mem' l = puts (byte_at mem) (span_locs sp) part l.
Proof.
  intros [Hn Hm] Eb Ho Hs Hl. destruct (Hm _ _ Eb) as (Hid & Hb & Hp).
  destruct (write_backing_spec (sp_offset sp) part Ho ltac:(lia) (length part) b 0 Hp ltac:(lia)) as (b' & -> & Hs' & Hp' & Hv).
  exists b'. split; [done|]. cbn. split; [|split].
  - split; [done|]. apply map_Forall_insert_2; [|done]. split; [done|]. rewrite Hs'. done.
  - split; [done|]. intros id. cbn. destruct (decide (sp_backing sp = id)) as [<-|Hne].
    + rewrite lookup_insert_eq, Eb. cbn. by rewrite Hs'.
    + by rewrite lookup_insert_ne.
  - intros [id o] Hoo. cbn in Hoo. destruct sp as [B O n]. cbn [sp_backing sp_offset sp_len] in *. subst n. rewrite puts_span.
    unfold byte_at at 1. cbn [fst snd backings]. destruct (decide (id = B)) as [->|Hne].
    + rewrite lookup_insert_eq, Hv by done. rewrite bool_decide_eq_true_2 by done. unfold written, byte_at. cbn [fst snd andb]. rewrite Z.add_0_r, Eb. done.
    + rewrite lookup_insert_ne by done. rewrite bool_decide_eq_false_2 by done. done.
Qed.

Lemma write_spans_spec source : forall spans mem offset, memory_ok mem -> Forall (span_backed mem) spans ->
  length source = (offset + length (concat (span_locs <$> spans)))%nat ->
  exists mem', write_spans mem source offset spans = Some mem' /\ memory_ok mem' /\ same_shape mem mem' /\
    forall l, 0 <= l.2 -> byte_at mem' l = puts (byte_at mem) (concat (span_locs <$> spans)) (drop offset source) l.
Proof.
  induction spans as [|sp spans IH]; intros mem off Hm Hf Hl; cbn [write_spans].
  - exists mem. split; [done|]. split; [done|]. split; [done|]. done.
  - apply Forall_cons_1 in Hf as [(Ho & b & Eb & Hs) Hf]. cbn in Hl. rewrite length_app, length_span_locs in Hl. rewrite Eb. cbn [mbind option_bind].
    unfold slice. rewrite (proj2 (Nat.leb_le _ _)), (proj2 (Nat.leb_le _ _)) by lia. cbn [andb mbind option_bind].
    set (part := take _ _). assert (length part = sp_len sp) as Hp by (unfold part; rewrite length_take, length_drop; lia).
    destruct (write_span mem sp b part Hm Eb Ho Hs Hp) as (b' & -> & Hm1 & Hs1 & Hv1). cbn [mbind option_bind]. set (mem1 := mkMemory _ _) in *.
    destruct (IH mem1 (off + sp_len sp)%nat Hm1) as (mem2 & -> & Hm2 & Hs2 & Hv2); [|lia|].
    { revert Hf. apply Forall_impl. intros sp'. by apply span_backed_shape. }
    exists mem2. split; [done|]. split; [done|]. split; [by eapply same_shape_trans|]. intros l Hl2. rewrite Hv2 by done.
    cbn [fmap list_fmap concat]. replace (drop off source) with (part ++ drop (off + sp_len sp) source).
    + rewrite puts_app by (by rewrite length_span_locs). by apply (puts_ext (fun l => 0 <= l.2)).
    + unfold part. replace (off + sp_len sp - off)%nat with (sp_len sp) by lia. rewrite <- drop_drop. apply take_drop.
Qed.
