(* ===== verification/MemoryTheorems.v ===== *)
(** * Guest memory: theorems

    What the operations of [libs/simcore/src/memory.rs] promise: mapping
    operations change the page table they denote on their range only, an
    access fails at its first offending byte, copies move bytes one by one,
    what is written is read back, and no sequence of operations panics. *)
From S2P Require Import Prelude Words Memory MemorySpec MemoryBytes.

(** ** Mapping operations *)

(** A change of [start..end_] that succeeds: the new state and its page table. *)
Definition changed (s s' : AddressSpace) (start end_ : Z) (f : Z -> option Place) : Prop :=
  s_generation s < u64_max /\ s_generation s' = s_generation s + 1 /\ s_id s' = s_id s /\
  forall a, view (s_mappings s') a = if (start <=? a) && (a <? end_) then f a else view (s_mappings s) a.

Definition all_mapped (s : AddressSpace) (start end_ : Z) : Prop := forall a, start <= a < end_ -> is_Some (view (s_mappings s) a).
Definition none_mapped (s : AddressSpace) (start end_ : Z) : Prop := forall a, start <= a < end_ -> view (s_mappings s) a = None.

(** The outcomes of [protect] ([permissions] given) and [unmap]. *)
Inductive replaced (s : AddressSpace) (address size : Z) (permissions : option Z) (access : MemoryAccess)
    : AddressSpace -> result unit MemoryError -> Prop :=
  | replaced_range : size = 0 \/ u64_max < address + size ->
      replaced s address size permissions access s (Err (mkError address access InvalidRange))
  | replaced_hole a : 0 < size -> address + size <= u64_max -> address <= a < address + size -> view (s_mappings s) a = None ->
      replaced s address size permissions access s (Err (mkError address access Unmapped))
  | replaced_exhausted : 0 < size -> address + size <= u64_max -> all_mapped s address (address + size) -> s_generation s = u64_max ->
      replaced s address size permissions access s (Err (mkError address access IdentityExhausted))
  | replaced_ok s' : 0 < size -> address + size <= u64_max -> all_mapped s address (address + size) ->
      changed s s' address (address + size) (fun a => view (s_mappings s) a ≫= change permissions (s_generation s + 1)) ->
      replaced s address size permissions access s' (Ok tt).

(** The outcomes of [map]. *)
Inductive mapped (mem : Memory) (s : AddressSpace) (address size backing offset permissions : Z)
    : AddressSpace -> result unit MemoryError -> Prop :=
  | mapped_range_bad : size = 0 \/ u64_max < address + size ->
      mapped mem s address size backing offset permissions s (Err (mkError address Map InvalidRange))
  | mapped_offset_bad : 0 < size -> address + size <= u64_max -> u64_max < offset + size ->
      mapped mem s address size backing offset permissions s (Err (mkError offset Map InvalidRange))
  | mapped_unknown : 0 < size -> address + size <= u64_max -> offset + size <= u64_max -> backings mem !! backing = None ->
      mapped mem s address size backing offset permissions s (Err (mkError address Map UnknownBacking))
  | mapped_outside b : 0 < size -> address + size <= u64_max -> offset + size <= u64_max -> backings mem !! backing = Some b ->
      b_size b < offset + size ->
      mapped mem s address size backing offset permissions s (Err (mkError address Map BackingOutOfBounds))
  | mapped_overlap b : 0 < size -> address + size <= u64_max -> backings mem !! backing = Some b -> offset + size <= b_size b ->
      ~ none_mapped s address (address + size) ->
      mapped mem s address size backing offset permissions s (Err (mkError address Map OverlappingMapping))
  | mapped_exhausted b : 0 < size -> address + size <= u64_max -> backings mem !! backing = Some b -> offset + size <= b_size b ->
      none_mapped s address (address + size) -> s_generation s = u64_max ->
      mapped mem s address size backing offset permissions s (Err (mkError address Map IdentityExhausted))
  | mapped_ok b s' : 0 < size -> address + size <= u64_max -> backings mem !! backing = Some b -> offset + size <= b_size b ->
      none_mapped s address (address + size) ->
      changed s s' address (address + size)
        (fun a => Some (mkPlace backing (offset + (a - address)) permissions (s_generation s + 1))) ->
      mapped mem s address size backing offset permissions s' (Ok tt).

Definition is_word (x : Z) : Prop := 0 <= x <= u64_max.

Lemma checked_end_spec address size access : is_word address -> is_word size ->
  checked_end address size access = (if (size =? 0) || (u64_max <? address + size) then Err (mkError address access InvalidRange) else Ok (address + size)).
Proof. intros Ha Hs. unfold checked_end, checked_add. destruct (Z.eqb_spec size 0); cbn [orb]; [done|]. zcase; lia || done. Qed.

(** A new state in whose page table every place was one of the old state's, or is within a backing. *)
Lemma backed_view mem s : chain 0 (s_mappings s) -> backed mem s <->
  forall a p, view (s_mappings s) a = Some p -> exists b, backings mem !! p_backing p = Some b /\ p_offset p < b_size b.
Proof.
  intros Hc. split.
  - intros Hb a p Hp. destruct (view_Some_elem _ _ _ Hp) as (k & m & Hin & Ha & ->). destruct (Hb k m Hin) as (b & Eb & Hs).
    exists b. split; [done|]. cbn. lia.
  - intros H k m Hin. pose proof (chain_elem _ _ _ _ Hc Hin) as E. unfold entry_ok in E.
    destruct (H (m_end m - 1) (place k m (m_end m - 1))) as (b & Eb & Hs); [apply (view_elem 0); done || lia|].
    exists b. split; [done|]. cbn in Hs. lia.
Qed.

Lemma replaced_spec mem s address size permissions access : guest_ok mem s -> is_word address -> is_word size ->
  exists s' r, (match checked_end address size access with
                | Err e => Some (s, Err e)
                | Ok end_ => replace_range s address end_ permissions access end) = Some (s', r) /\
    replaced s address size permissions access s' r /\ guest_ok mem s'.
Proof.
  intros (Hs & Hm & Hb) Ha Hz. unfold is_word in *. rewrite checked_end_spec by done. destruct (_ || _) eqn:E.
  - exists s, (Err (mkError address access InvalidRange)). split; [done|]. split; [apply replaced_range; lia|done].
  - destruct (replace_range_spec s address (address + size) permissions access Hs) as (s' & r & -> & H); [lia|].
    exists s', r. split; [done|]. destruct H as [((a & Hr & Hv) & -> & ->)|[(Hall & Hg & -> & ->)|(Hall & Hg & -> & Hs' & Hg' & Hi & Hv)]].
    + split; [apply (replaced_hole _ _ _ _ _ a); done || lia|done].
    + split; [apply replaced_exhausted; done || lia|done].
    + split; [apply replaced_ok; done || lia|]. split; [done|]. split; [done|]. apply backed_view; [by destruct Hs'|].
      intros a p. rewrite Hv. pose proof (proj1 (backed_view mem s (proj1 Hs)) Hb a) as Hba. destruct (_ && _); [|by apply Hba].
      destruct (view (s_mappings s) a) as [q|]; [|done]. cbn. unfold change. destruct permissions; [|done]. intros [= <-]. cbn. by apply Hba.
Qed.

Lemma mapped_spec mem s address size backing offset permissions : guest_ok mem s ->
  is_word address -> is_word size -> is_word offset ->
  exists s' r, map mem s address size backing offset permissions = (s', r) /\
    mapped mem s address size backing offset permissions s' r /\ guest_ok mem s'.
Proof.
  intros (Hs & Hm & Hb) Ha Hz Ho. unfold is_word in *. unfold map. rewrite !checked_end_spec by done.
  destruct ((size =? 0) || (u64_max <? address + size)) eqn:E1.
  { exists s, (Err (mkError address Map InvalidRange)). split; [done|]. split; [apply mapped_range_bad; lia|done]. }
  destruct ((size =? 0) || (u64_max <? offset + size)) eqn:E2.
  { exists s, (Err (mkError offset Map InvalidRange)). split; [done|]. split; [apply mapped_offset_bad; lia|done]. }
  destruct (backings mem !! backing) as [b|] eqn:Eb.
  2:{ eexists s, _. split; [done|]. split; [apply mapped_unknown; done || lia|done]. }
  destruct (Z.ltb_spec (b_size b) (offset + size)).
  { eexists s, _. split; [done|]. split; [apply (mapped_outside _ _ _ _ _ _ _ b); done || lia|done]. }
  pose proof (overlaps_spec 0 s address (address + size) (proj1 Hs) ltac:(lia)) as Hov. destruct (overlaps _ _ _).
  { eexists s, _. split; [done|]. split; [apply (mapped_overlap _ _ _ _ _ _ _ b); try (done || lia)|done]. intros Hn. by pose proof (proj2 Hov Hn). }
  assert (none_mapped s address (address + size)) as Hnone by (exact (proj1 Hov eq_refl)). clear Hov.
  unfold next_generation, checked_add. destruct Hs as [Hc Hg]. destruct (Z.leb_spec (s_generation s + 1) u64_max).
  - set (m := mkMapping _ _ _ _ _). destruct (insert_spec 0 (s_mappings s) address m Hc) as [Hc' Hv]; [unfold entry_ok; cbn; lia|done|].
    cbn [m_end m] in Hv. eexists _, _. split; [done|]. split.
    + apply (mapped_ok _ _ _ _ _ _ _ b); try (done || lia). split; [lia|]. split; [done|]. split; [done|]. exact Hv.
    + split; [split; [done|cbn; lia]|]. split; [done|]. apply backed_view; [done|]. intros a p. cbn [s_mappings]. rewrite Hv.
      destruct (_ && _) eqn:Er; [|by apply backed_view]. intros [= <-]. exists b. cbn. split; [done|]. lia.
  - eexists s, _. split; [done|]. split; [apply (mapped_exhausted _ _ _ _ _ _ _ b); done || lia|done].
Qed.

(** C15: [Memory::map], [protect] and [unmap] implement page-table operations:
    each one changes exactly the addresses of its range, or fails with the
    documented reason and changes nothing; [protect] keeps the bytes an address
    reaches, [unmap] drops them, a range with a hole is refused whole. *)
Theorem address_space_refines mem s address size : guest_ok mem s -> is_word address -> is_word size ->
  (forall backing offset permissions, is_word offset -> exists s' r,
     map mem s address size backing offset permissions = (s', r) /\
     mapped mem s address size backing offset permissions s' r /\ guest_ok mem s') /\
  (forall permissions, exists s' r, protect s address size permissions = Some (s', r) /\
     replaced s address size (Some permissions) Protect s' r /\ guest_ok mem s') /\
  (exists s' r, unmap s address size = Some (s', r) /\ replaced s address size None Unmap s' r /\ guest_ok mem s').
Proof.
  intros Hg Ha Hs. split; [|split].
  - intros backing offset permissions Ho. by apply mapped_spec.
  - intros permissions. by apply replaced_spec.
  - by apply replaced_spec.
Qed.

(** ** Accesses *)

Lemma length_locs_of t a n : length (locs_of t a (Z.of_nat n)) = n.
Proof. unfold locs_of. rewrite length_fmap, length_seqZ. lia. Qed.

(** The range is inside the address space and every byte of it permits the access. *)
Definition accessible (s : AddressSpace) (permission a n : Z) : Prop :=
  n = 0 \/ a + n <= u64_max /\ forall b, a <= b < a + n -> fault (s_mappings s) permission b = None.

(** The error of an access that is not [accessible]: its range, or its first fault. *)
Definition first_fault (s : AddressSpace) (permission : Z) (access : MemoryAccess) (a n : Z) (e : MemoryError) : Prop :=
  0 < n /\
  (u64_max < a + n /\ e = mkError a access InvalidRange \/
   a + n <= u64_max /\ exists b why, a <= b < a + n /\ fault (s_mappings s) permission b = Some why /\
     (forall c, a <= c < b -> fault (s_mappings s) permission c = None) /\ e = mkError b access why).

Lemma first_fault_excludes s permission access a n e : first_fault s permission access a n e -> ~ accessible s permission a n.
Proof.
  intros (Hn & H) [->|[Hle Hall]]; [lia|]. destruct H as [[? _]|(_ & b & why & Hb & Hf & _)]; [lia|]. by rewrite Hall in Hf.
Qed.

Lemma access_spec mem s a n access permission : guest_ok mem s -> is_word a -> access_permission access = Some permission ->
  (exists spans, resolve s a n access = Some (Ok spans) /\ accessible s permission a (Z.of_nat n) /\
     Forall (span_backed mem) spans /\ concat (span_locs <$> spans) = locs_of (s_mappings s) a (Z.of_nat n)) \/
  (exists e, resolve s a n access = Some (Err e) /\ first_fault s permission access a (Z.of_nat n) e).
Proof.
  intros Hg Ha Hp. destruct (resolve_spec s a n access permission (proj1 Hg) Ha Hp) as (r & -> & [(-> & ->)|[(Hn & Hx & ->)|(Hn & Hx & Hr)]]).
  - left. exists []. split; [done|]. split; [by left|]. split; [constructor|]. unfold locs_of. by rewrite seqZ_nil.
  - right. eexists. split; [done|]. split; [lia|]. left. split; [lia|done].
  - destruct Hr as [(sp & -> & Hf & Hl & Hin)|(b & why & Hb & Hw & Hpre & ->)].
    + left. exists sp. split; [done|]. split; [by right|]. split; [revert Hin; apply Forall_impl; intros x; by apply span_in_backed|].
      rewrite Hl. f_equal. lia.
    + right. eexists. split; [done|]. split; [lia|]. right. split; [done|]. by exists b, why.
Qed.

(** C16: An access succeeds exactly if its whole range is mapped with the
    permission it needs; otherwise it fails at the first byte that is not,
    with the reason for that byte. Reads, fetches and [validate] agree, and a
    write that fails changes nothing. *)
Theorem access_fails_first mem s a access permission : guest_ok mem s -> is_word a -> access_permission access = Some permission ->
  (forall n, exists r, validate s a n access = Some r /\
     (r = Ok tt /\ accessible s permission a (Z.of_nat n) \/
      exists e, r = Err e /\ first_fault s permission access a (Z.of_nat n) e)) /\
  (forall destination, exists r, copy_out mem s a destination access = Some r /\
     match r with
     | Ok bytes => length bytes = length destination /\ validate s a (length destination) access = Some (Ok tt)
     | Err e => validate s a (length destination) access = Some (Err e)
     end) /\
  (access = Write -> forall source e, write mem s a source = Some (Err e) <-> validate s a (length source) Write = Some (Err e)).
Proof.
  intros Hg Ha Hp. split; [|split].
  - intros n. unfold validate. destruct (access_spec mem s a n access permission Hg Ha Hp) as [(spans & -> & Hacc & _)|(e & -> & He)]; cbn.
    + eexists. split; [done|]. by left.
    + eexists. split; [done|]. right. by exists e.
  - intros dst. unfold copy_out, validate. destruct (access_spec mem s a (length dst) access permission Hg Ha Hp) as [(spans & -> & _ & Hf & Hl)|(e & -> & He)];
      cbn [try_bind mbind option_bind]; [|by eexists].
    rewrite (copy_spans_spec mem (proj1 (proj2 Hg)) spans dst 0 Hf) by (by rewrite Hl, length_locs_of).
    cbn [mbind option_bind]. eexists. split; [done|]. cbn. split; [|done]. rewrite take_0. cbn [app]. by rewrite Hl, length_fmap, length_locs_of.
  - intros -> source e. unfold write, validate. destruct (access_spec mem s a (length source) Write permission Hg Ha Hp) as [(spans & -> & _ & Hf & Hl)|(e' & -> & He)];
      cbn [try_bind mbind option_bind]; [|by split; intros [= ->]].
    destruct (write_spans_spec source spans mem 0 (proj1 (proj2 Hg)) Hf) as (mem' & -> & _); [|done].
    by rewrite Hl, length_locs_of.
Qed.

(** ** Bytes *)

Lemma write_shape mem s a source : guest_ok mem s -> is_word a -> accessible s WRITE a (Z.of_nat (length source)) ->
  exists mem', write mem s a source = Some (Ok mem') /\ guest_ok mem' s /\ same_shape mem mem' /\
    forall l, 0 <= l.2 -> byte_at mem' l = puts (byte_at mem) (locs_of (s_mappings s) a (Z.of_nat (length source))) source l.
Proof.
  intros Hg Ha Hacc. unfold write.
  destruct (access_spec mem s a (length source) Write WRITE Hg Ha eq_refl) as [(spans & -> & _ & Hf & Hl)|(e & -> & He)]; cbn [try_bind mbind option_bind].
  - destruct (write_spans_spec source spans mem 0 (proj1 (proj2 Hg)) Hf) as (mem' & -> & Hm & Hs & Hv); [by rewrite Hl, length_locs_of|].
    cbn [mbind option_bind]. exists mem'. split; [done|]. split; [|by rewrite Hl in Hv].
    destruct Hg as (? & ? & ?). split; [done|]. split; [done|]. by apply (backed_shape mem).
  - by apply first_fault_excludes in He.
Qed.

Lemma guest_memory_bytes mem s a : guest_ok mem s -> is_word a ->
  (forall access permission destination, access_permission access = Some permission ->
     accessible s permission a (Z.of_nat (length destination)) ->
     copy_out mem s a destination access =
       Some (Ok (byte_at mem <$> locs_of (s_mappings s) a (Z.of_nat (length destination))))) /\
  (forall source, accessible s WRITE a (Z.of_nat (length source)) ->
     exists mem', write mem s a source = Some (Ok mem') /\ guest_ok mem' s /\
       forall l, 0 <= l.2 -> byte_at mem' l = puts (byte_at mem) (locs_of (s_mappings s) a (Z.of_nat (length source))) source l).
Proof.
  intros Hg Ha. split.
  - intros access permission dst Hp Hacc. unfold copy_out.
    destruct (access_spec mem s a (length dst) access permission Hg Ha Hp) as [(spans & -> & _ & Hf & Hl)|(e & -> & He)]; cbn [try_bind mbind option_bind].
    + rewrite (copy_spans_spec mem (proj1 (proj2 Hg)) spans dst 0 Hf) by (by rewrite Hl, length_locs_of).
      cbn [mbind option_bind]. rewrite take_0. cbn [app]. by rewrite Hl.
    + by apply first_fault_excludes in He.
  - intros source Hacc. destruct (write_shape mem s a source Hg Ha Hacc) as (mem' & ? & ? & _ & ?). by exists mem'.
Qed.

Lemma create_backing_spec mem s size : guest_ok mem s -> is_word size ->
  guest_ok (create_backing mem size).1 s /\
  forall id, (create_backing mem size).2 = Ok id ->
    (forall o, byte_at (create_backing mem size).1 (id, o) = 0) /\ forall l, l.1 <> id -> byte_at (create_backing mem size).1 l = byte_at mem l.
Proof.
  unfold is_word. intros Hg Hz. unfold create_backing, checked_add. destruct (Z.eqb_spec size 0); [done|].
  destruct (Z.leb_spec (next_backing_id mem + 1) u64_max); [|done]. cbn [fst snd].
  destruct Hg as (Hs & [Hn Hm] & Hb). assert (backings mem !! next_backing_id mem = None) as Hfresh.
  { destruct (backings mem !! _) eqn:E; [|done]. destruct (Hm _ _ E) as [? _]. lia. }
  split; [split; [done|]; split|intros id [= <-]; split].
  - split; [cbn; lia|]. cbn. apply map_Forall_insert_2; [split; [lia|]; split; [cbn; lia|apply map_Forall_empty]|].
    intros id b E. destruct (Hm _ _ E) as (? & ? & ?). split; [lia|done].
  - intros k m Hin. destruct (Hb k m Hin) as (b & Eb & Hl). exists b. cbn. split; [|done]. rewrite lookup_insert_ne by congruence. done.
  - intros o. unfold byte_at. cbn. rewrite lookup_insert_eq. unfold backing_byte. cbn. by rewrite lookup_empty.
  - intros [id o] Hne. unfold byte_at. cbn in *. by rewrite lookup_insert_ne by done.
Qed.

(** C17: Copies move bytes one by one: a read returns the byte at the location
    of each address, whatever pages and mappings it crosses and whichever
    pages are absent; a write stores its bytes in order and changes no other
    location; a new backing holds zeros. *)
Theorem guest_memory_refines mem s a : guest_ok mem s -> is_word a ->
  (forall access permission destination, access_permission access = Some permission ->
     accessible s permission a (Z.of_nat (length destination)) ->
     copy_out mem s a destination access =
       Some (Ok (byte_at mem <$> locs_of (s_mappings s) a (Z.of_nat (length destination))))) /\
  (forall source, accessible s WRITE a (Z.of_nat (length source)) ->
     exists mem', write mem s a source = Some (Ok mem') /\ guest_ok mem' s /\
       forall l, 0 <= l.2 -> byte_at mem' l = puts (byte_at mem) (locs_of (s_mappings s) a (Z.of_nat (length source))) source l) /\
  (forall size id, is_word size -> (create_backing mem size).2 = Ok id ->
     (forall o, byte_at (create_backing mem size).1 (id, o) = 0) /\ forall l, l.1 <> id -> byte_at (create_backing mem size).1 l = byte_at mem l).
Proof.
  intros Hg Ha. destruct (guest_memory_bytes mem s a Hg Ha) as [Hr Hw]. split; [done|]. split; [done|].
  intros size id Hz. by apply (create_backing_spec mem s size).
Qed.

Lemma loc_of_nonneg s a : space_ok s -> 0 <= (loc_of (s_mappings s) a).2.
Proof.
  intros [Hc _]. unfold loc_of. destruct (view (s_mappings s) a) as [p|] eqn:E; [|done].
  destruct (view_Some_elem _ _ _ E) as (k & m & Hin & Ha & ->). pose proof (chain_elem _ _ _ _ Hc Hin) as Ek.
  unfold entry_ok in Ek. cbn. lia.
Qed.

Lemma puts_other f ls : forall vs l, l ∉ ls -> puts f ls vs l = f l.
Proof.
  revert f. induction ls as [|x ls IH]; intros f vs l Hl; [done|]. destruct vs as [|v vs]; [done|]. cbn.
  apply not_elem_of_cons in Hl as [Hne Hl]. rewrite IH by done. by rewrite decide_False.
Qed.

Lemma puts_read f ls : NoDup ls -> forall vs g, length ls = length vs -> (forall l, l ∈ ls -> g l = puts f ls vs l) -> g <$> ls = vs.
Proof.
  revert f. induction ls as [|x ls IH]; intros f Hnd vs g Hl Hg; destruct vs as [|v vs]; try done.
  inversion_clear Hnd as [|? ? Hx Hnd']. cbn in *. f_equal.
  - rewrite Hg by (by left). rewrite puts_other by done. by rewrite decide_True.
  - eapply IH; [done|lia|]. intros l Hin. apply Hg. by right.
Qed.

(** What is written is read back, and the rest of memory is unchanged:
    after a write to a range whose addresses reach distinct bytes, a read of
    the range returns the bytes written, and any range that reaches none of
    them reads as before. *)
Theorem write_then_read mem s a source destination : guest_ok mem s -> is_word a -> length destination = length source ->
  let n := Z.of_nat (length source) in
  accessible s WRITE a n -> accessible s READ a n -> NoDup (locs_of (s_mappings s) a n) ->
  exists mem', write mem s a source = Some (Ok mem') /\ read mem' s a destination = Some (Ok source) /\
    forall b other, is_word b -> accessible s READ b (Z.of_nat (length other)) ->
      (forall l, l ∈ locs_of (s_mappings s) b (Z.of_nat (length other)) -> l ∉ locs_of (s_mappings s) a n) ->
      read mem' s b other = read mem s b other.
Proof.
  intros Hg Ha Hlen n Hw Hr Hnd. destruct (guest_memory_bytes mem s a Hg Ha) as (_ & Hwrite).
  destruct (Hwrite source Hw) as (mem' & E & Hg' & Hv). exists mem'. split; [done|]. split.
  - unfold read. rewrite (proj1 (guest_memory_bytes mem' s a Hg' Ha) Read READ destination eq_refl) by (by rewrite Hlen). do 2 f_equal.
    rewrite Hlen. apply (puts_read (byte_at mem) _ Hnd source); [apply length_locs_of|]. intros l Hl. apply Hv.
    apply list_elem_of_fmap in Hl as (x & -> & _). apply loc_of_nonneg, Hg.
  - intros b other Hb Hacc Hdis. unfold read. rewrite (proj1 (guest_memory_bytes mem' s b Hg' Hb) Read READ other eq_refl Hacc).
    rewrite (proj1 (guest_memory_bytes mem s b Hg Hb) Read READ other eq_refl Hacc). do 2 f_equal. apply list_fmap_ext. intros i l Hl.
    apply list_elem_of_lookup_2 in Hl. rewrite Hv; [by apply puts_other, Hdis|].
    apply list_elem_of_fmap in Hl as (x & -> & _). apply loc_of_nonneg, Hg.
Qed.

(** ** Sequences of operations *)

Inductive guest_op :=
  | Create (size : Z)
  | MapAt (address size backing offset permissions : Z)
  | ProtectAt (address size permissions : Z)
  | UnmapAt (address size : Z)
  | WriteAt (address : Z) (bytes : list Z)
  | AccessAt (access : MemoryAccess) (address : Z) (size : nat).

Definition op_words (op : guest_op) : Prop :=
  match op with
  | Create size => is_word size
  | MapAt address size backing offset permissions => is_word address /\ is_word size /\ is_word offset
  | ProtectAt address size _ | UnmapAt address size => is_word address /\ is_word size
  | WriteAt address _ | AccessAt _ address _ => is_word address
  end.

(** One operation on a guest; an operation that fails leaves the guest it left. *)
Definition run_op (g : Memory * AddressSpace) (op : guest_op) : option (Memory * AddressSpace) :=
  let '(mem, s) := g in
  match op with
  | Create size => Some ((create_backing mem size).1, s)
  | MapAt address size backing offset permissions => Some (mem, (map mem s address size backing offset permissions).1)
  | ProtectAt address size permissions => '(s, _) ← protect s address size permissions; Some (mem, s)
  | UnmapAt address size => '(s, _) ← unmap s address size; Some (mem, s)
  | WriteAt address bytes => r ← write mem s address bytes; Some (match r with Ok mem => mem | Err _ => mem end, s)
  | AccessAt access address size => _ ← copy_out mem s address (replicate size 0) access; Some g
  end.

Fixpoint run_ops (g : Memory * AddressSpace) (ops : list guest_op) : option (Memory * AddressSpace) :=
  match ops with [] => Some g | op :: ops => g ← run_op g op; run_ops g ops end.

Lemma guest_initial id s next : new_space id = Some (s, next) -> guest_ok new_memory s.
Proof.
  unfold new_space. destruct (_ =? _); [done|]. intros [= <- <-]. split; [split; [done|unfold u64_max; cbn; lia]|]. split.
  - split; [unfold u64_max; cbn; lia|]. apply map_Forall_empty.
  - intros k m Hin. by apply elem_of_nil in Hin.
Qed.

Lemma run_op_ok g op : guest_ok g.1 g.2 -> op_words op -> exists g', run_op g op = Some g' /\ guest_ok g'.1 g'.2.
Proof.
  destruct g as [mem s]. cbn [fst snd]. intros Hg Hw. destruct op; cbn [run_op op_words] in *.
  - eexists. split; [done|]. by apply create_backing_spec.
  - destruct Hw as (? & ? & ?). destruct (mapped_spec mem s address size backing offset permissions Hg) as (s' & r & -> & _ & ?); [done..|]. by eexists.
  - destruct Hw. destruct (replaced_spec mem s address size (Some permissions) Protect Hg) as (s' & r & E & _ & ?); [done..|].
    unfold protect. rewrite E. by eexists.
  - destruct Hw. destruct (replaced_spec mem s address size None Unmap Hg) as (s' & r & E & _ & ?); [done..|].
    unfold unmap. rewrite E. by eexists.
  - destruct (access_spec mem s address (length bytes) Write WRITE Hg Hw eq_refl) as [(spans & _ & Ha & _)|(e & E & _)].
    + destruct (proj2 (guest_memory_bytes mem s address Hg Hw) bytes Ha) as (mem' & -> & Hg' & _). by eexists.
    + unfold write. rewrite E. by eexists.
  - destruct (access_permission access) as [permission|] eqn:Ep.
    + destruct (access_spec mem s address size access permission Hg Hw Ep) as [(spans & _ & Ha & _)|(e & E & _)].
      * rewrite (proj1 (guest_memory_bytes mem s address Hg Hw) access permission (replicate size 0) Ep); [by eexists|].
        by rewrite length_replicate.
      * unfold copy_out. rewrite length_replicate, E. by eexists.
    + unfold copy_out, resolve. rewrite Ep. by eexists.
Qed.

Lemma run_ops_ok ops : Forall op_words ops -> forall g, guest_ok g.1 g.2 -> exists g', run_ops g ops = Some g' /\ guest_ok g'.1 g'.2.
Proof.
  induction 1 as [|op ops Hop _ IH]; intros g Hg; cbn [run_ops]; [by exists g|].
  destruct (run_op_ok g op Hg Hop) as (g' & -> & Hg'). by apply IH.
Qed.

(** No sequence of operations on a new guest panics, whatever their
    arguments: no arithmetic overflows, no slice or backing is out of range,
    every loop ends, and the state stays well formed. *)
Theorem guest_never_panics id s next ops : new_space id = Some (s, next) -> Forall op_words ops ->
  exists mem' s', run_ops (new_memory, s) ops = Some (mem', s') /\ guest_ok mem' s'.
Proof.
  intros Hs Hops. destruct (run_ops_ok ops Hops (new_memory, s)) as ([mem' s'] & E & Hg); [by eapply guest_initial|].
  by exists mem', s'.
Qed.

(** ** Witnesses *)

Ltac by_evaluation := match goal with |- ?P => refine (bool_decide_eq_true_1 P _); vm_compute; reflexivity end.

#[local] Instance is_word_dec x : Decision (is_word x).
Proof. unfold is_word. apply _. Defined.
#[local] Instance op_words_dec op : Decision (op_words op).
Proof. destruct op; cbn; apply _. Defined.

(** Two adjacent mappings: 4096 bytes of the first backing from offset 4000,
    across a page boundary, then 50 bytes of the second. *)
Definition demo_ops : list guest_op :=
  [Create 16384; Create 100; MapAt 8192 4096 1 4000 READ_WRITE; MapAt 12288 50 2 10 READ_WRITE; ProtectAt 8200 8 READ;
   WriteAt 8280 (replicate 20 7)].
Definition demo_start : AddressSpace := mkSpace 1 0 [].
Definition demo_mem : Memory := default new_memory (fst <$> run_ops (new_memory, demo_start) demo_ops).
Definition demo_space : AddressSpace := default demo_start (snd <$> run_ops (new_memory, demo_start) demo_ops).

Lemma demo_words : Forall op_words demo_ops.
Proof. by_evaluation. Qed.

Lemma demo_ok : guest_ok demo_mem demo_space.
Proof.
  destruct (run_ops_ok demo_ops demo_words (new_memory, demo_start)) as (g & E & Hg).
  { by apply (guest_initial 1 _ 2). }
  unfold demo_mem, demo_space. rewrite E. exact Hg.
Qed.

Lemma address_space_refines_witness : exists s', unmap demo_space 8300 100 = Some (s', Ok tt) /\ guest_ok demo_mem s' /\
  view (s_mappings s') 8299 = view (s_mappings demo_space) 8299 /\ view (s_mappings s') 8300 = None.
Proof.
  destruct (address_space_refines demo_mem demo_space 8300 100 demo_ok ltac:(by_evaluation) ltac:(by_evaluation)) as (_ & _ & s' & r & E & _ & Hg).
  exists s'. pose proof E as E'. vm_compute in E'. injection E' as <- <-. split; [exact E|]. split; [exact Hg|]. by split.
Defined.

Lemma access_fails_first_witness : exists e, copy_out demo_mem demo_space 12300 (replicate 40 0) Read = Some (Err e) /\
  validate demo_space 12300 40 Read = Some (Err e) /\ e = mkError 12338 Read Unmapped.
Proof.
  destruct (access_fails_first demo_mem demo_space 12300 Read READ demo_ok ltac:(by_evaluation) eq_refl) as (_ & H & _).
  destruct (H (replicate 40 0)) as (r & E & Hr). exists (mkError 12338 Read Unmapped). split; [vm_compute; reflexivity|].
  split; [|done]. pose proof E as E'. vm_compute in E'. injection E' as <-. exact Hr.
Defined.

Lemma accessible_check s permission a n : a + n <= u64_max ->
  Forall (fun b => fault (s_mappings s) permission b = None) (seqZ a n) -> accessible s permission a n.
Proof.
  intros Hle H. right. split; [done|]. intros b Hb. rewrite Stdlib.Lists.List.Forall_forall in H. apply H.
  apply list_elem_of_In, elem_of_seqZ. lia.
Qed.

(** 40 bytes across the two mappings. *)
Lemma demo_accessible permission : permission = READ \/ permission = WRITE -> accessible demo_space permission 12268 40.
Proof. intros [-> | ->]; (apply accessible_check; [done|by_evaluation]). Qed.

Lemma guest_memory_refines_witness : exists mem',
  copy_out demo_mem demo_space 12268 (replicate 40 0) Read = Some (Ok (byte_at demo_mem <$> locs_of (s_mappings demo_space) 12268 40)) /\
  write demo_mem demo_space 12268 (replicate 40 9) = Some (Ok mem') /\ byte_at mem' (2, 15) = 9 /\ byte_at mem' (2, 30) = 0.
Proof.
  destruct (guest_memory_refines demo_mem demo_space 12268 demo_ok ltac:(by_evaluation)) as (Hr & Hw & _).
  destruct (Hw (replicate 40 9)) as (mem' & E & _ & Hv); [by apply demo_accessible; right|]. exists mem'. split; [|split; [exact E|]].
  - apply (Hr Read READ (replicate 40 0) eq_refl). by apply demo_accessible; left.
  - rewrite !Hv by done. split; vm_compute; reflexivity.
Defined.

Lemma write_then_read_witness : exists mem', write demo_mem demo_space 12268 (seqZ 1 40) = Some (Ok mem') /\
  read mem' demo_space 12268 (replicate 40 0) = Some (Ok (seqZ 1 40)).
Proof.
  destruct (write_then_read demo_mem demo_space 12268 (seqZ 1 40) (replicate 40 0) demo_ok ltac:(by_evaluation) eq_refl) as (mem' & E & Hr & _).
  - by apply demo_accessible; right.
  - by apply demo_accessible; left.
  - by_evaluation.
  - exists mem'. split; [exact E|exact Hr].
Defined.

Lemma guest_never_panics_witness : exists mem' s', run_ops (new_memory, demo_start) demo_ops = Some (mem', s') /\ guest_ok mem' s'.
Proof. apply (guest_never_panics 1 demo_start 2 demo_ops); [reflexivity|exact demo_words]. Defined.
