(* ===== verification/MemoryService.v ===== *)
(** * The memory service of the simulator ([libs/simcore/src/memory_service.rs])

    The service owns a guest memory and serialises the effects of one
    instruction at a time ([core/src/backend/exec/protocol.rs]): stores are
    staged until the instruction commits, atomic effects and reads act at once,
    reads of a read-to-clear device consume its value. An operation takes the
    state and returns the next one with its [result]; the outer [option] is a
    panic. A [RequestId] is the pair of its fields. *)
From Stdlib Require Import String.
From S2P Require Import Prelude Words ApInt ApIntSpec ApIntOps ApIntArith Lang Memory MemorySpec MemoryBytes MemoryTheorems.
#[local] Open Scope string_scope.
#[local] Open Scope Z_scope.
#[local] Open Scope list_scope.

(** ** The effect protocol *)

Notation RequestId := (Z * Z)%type.
Notation instruction := fst (only parsing).
Notation sequence := snd (only parsing).

Inductive MemOrdering := Relaxed | Acquire | Release | AcqRel | SeqCst.

Inductive MemoryEffect :=
  | EffRead (address : Z) (size : nat)
  | EffWrite (address : Z) (bytes : list Z)
  | EffLoadReserved (address : Z) (size : nat) (ordering : MemOrdering)
  | EffStoreConditional (address : Z) (size : nat) (value : Z) (ordering : MemOrdering)
  | EffAtomicRmw (op : AtomicRmwOp) (address : Z) (size : nat) (value : Z) (ordering : MemOrdering)
  | EffFence (pred succ kind : Z)
  | EffException (cause : Z).

Record EffectRequest := mkRequest { rq_id : RequestId; rq_pc : Z; rq_effect : MemoryEffect }.

Inductive ResponseValue := Word (w : Z) | Bytes (bits : list Z) | Done.

Inductive SimTrap :=
  | MissingRegister (class : string) (index : Z)
  | MissingAttribute (op attribute : string)
  | InvalidAttribute (op attribute : string)
  | InvalidInstruction (op reason : string)
  | BadAddress (address : Z) (size : nat)
  | MemoryFault (address : Z) (size : nat) (access reason : string)
  | ProgramNotLoaded
  | PcNotMapped (pc : Z)
  | MaxCyclesExceeded (max_cycles until_pc : Z)
  | Exception (cause pc : Z).

Record EffectResponse := mkResponse { rs_id : RequestId; rs_result : result ResponseValue SimTrap }.

Definition access_name (access : MemoryAccess) : string :=
  match access with
  | Read => "read" | Write => "write" | Fetch => "fetch" | Map => "map" | Protect => "protect" | Unmap => "unmap"
  end.

Definition reason_name (reason : MemoryErrorReason) : string :=
  match reason with
  | Unmapped => "unmapped"
  | PermissionDenied => "permission denied"
  | OverlappingMapping => "overlapping mapping"
  | InvalidRange => "invalid range"
  | UnknownBacking => "unknown backing"
  | BackingOutOfBounds => "backing out of bounds"
  | DeviceAccess => "device access"
  | IdentityExhausted => "identity exhausted"
  end.

Definition memory_trap (error : MemoryError) (size : nat) : SimTrap :=
  MemoryFault (err_address error) size (access_name (err_access error)) (reason_name (err_reason error)).

Definition bad_address (address : Z) (size : nat) : SimTrap := BadAddress address size.
Definition protocol_trap (reason : string) : SimTrap := InvalidInstruction "memory service" reason.

(** [Result::map_err(|error| memory_trap(error, size))]. *)
Definition or_trap {A} (size : nat) (c : option (result A MemoryError)) : option (result A SimTrap) :=
  r ← c; Some (match r with Ok a => Ok a | Err e => Err (memory_trap e size) end).

(** ** State *)

Record PendingStore := mkStore { ps_id : RequestId; ps_address : Z; ps_bytes : list Z }.

Record PendingInstruction := mkPending {
  pi_id : Z;
  pi_next_sequence : Z;
  pi_stores : list PendingStore;
  pi_failed : bool;
  pi_generation : Z;
}.

Record ReadToClear := mkDevice { rc_backing : Z; rc_value : Z; rc_reads : Z }.

Record MemoryService := mkService {
  ms_memory : Memory;
  ms_space : AddressSpace;
  ms_active : option PendingInstruction;
  ms_last : option Z;
  ms_reservation : option (Z * nat * Z);
  ms_devices : list ReadToClear;
  ms_order : Z;
  ms_orders : gmap RequestId Z;
}.

Definition new_service (space : AddressSpace) : MemoryService :=
  mkService new_memory space None None None [] 0 ∅.

Definition set_memory (m : Memory) (st : MemoryService) : MemoryService :=
  mkService m (ms_space st) (ms_active st) (ms_last st) (ms_reservation st) (ms_devices st) (ms_order st) (ms_orders st).
Definition set_space (s : AddressSpace) (st : MemoryService) : MemoryService :=
  mkService (ms_memory st) s (ms_active st) (ms_last st) (ms_reservation st) (ms_devices st) (ms_order st) (ms_orders st).
Definition set_active (a : option PendingInstruction) (st : MemoryService) : MemoryService :=
  mkService (ms_memory st) (ms_space st) a (ms_last st) (ms_reservation st) (ms_devices st) (ms_order st) (ms_orders st).
Definition set_reservation (r : option (Z * nat * Z)) (st : MemoryService) : MemoryService :=
  mkService (ms_memory st) (ms_space st) (ms_active st) (ms_last st) r (ms_devices st) (ms_order st) (ms_orders st).
Definition set_devices (d : list ReadToClear) (st : MemoryService) : MemoryService :=
  mkService (ms_memory st) (ms_space st) (ms_active st) (ms_last st) (ms_reservation st) d (ms_order st) (ms_orders st).

(** ** Words *)

Definition word_from_bytes (bytes : list Z) : Z :=
  snd (fold_left (fun '(index, value) byte => (index + 1, Z.lor value (Z.shiftl byte (index * 8)))) bytes (0, 0)).

(** [u64::to_le_bytes]. *)
Definition to_le_bytes (value : Z) : list Z := (fun i => Z.land (Z.shiftr value (8 * i)) 255) <$> seqZ 0 8.

(** A shift of a [u64] by 64 or more panics. *)
Definition width_mask (size : nat) : option Z :=
  if (size =? 8)%nat then Some u64_max else assert! (size * 8 <? 64)%nat; Some (Z.shiftl 1 (Z.of_nat (size * 8)) - 1).

(** ** Devices *)

Definition prune_read_to_clear (st : MemoryService) : MemoryService :=
  set_devices (base.filter (fun d => existsb (fun i => m_backing (i_mapping i) =? rc_backing d) (mappings (ms_space st))) (ms_devices st)) st.

(** [position(|device| device.backing == mapping.backing)]. *)
Fixpoint device_position (backing : Z) (devices : list ReadToClear) : option nat :=
  match devices with
  | [] => None
  | d :: devices => if rc_backing d =? backing then Some 0%nat else S <$> device_position backing devices
  end.

Fixpoint device_loop (fuel : nat) (st : MemoryService) (address cursor end_ : Z) (access : MemoryAccess)
  : option (result (option (nat * Z)) MemoryError) :=
  if cursor <? end_ then
    match fuel with
    | O => None
    | S fuel =>
        match mapping_at (ms_space st) cursor with
        | None => Some (Ok None)
        | Some i =>
            match device_position (m_backing (i_mapping i)) (ms_devices st) with
            | Some index =>
                if (i_start i <=? address) && (end_ <=? m_end (i_mapping i)) then
                  sum ← checked_add (m_offset (i_mapping i)) address;
                  offset ← checked_sub sum (i_start i);
                  Some (Ok (Some (index, offset)))
                else Some (Err (mkError address access DeviceAccess))
            | None => device_loop fuel st address (Z.min (m_end (i_mapping i)) end_) end_ access
            end
        end
    end
  else Some (Ok None).

Definition device_for_access (st : MemoryService) (address : Z) (size : nat) (access : MemoryAccess)
  : option (result (option (nat * Z)) MemoryError) :=
  match checked_add address (Z.of_nat size) with
  | None => Some (Err (mkError address access InvalidRange))
  | Some end_ => device_loop (S (length (s_mappings (ms_space st)))) st address address end_ access
  end.

Definition validate_ram_access (st : MemoryService) (address : Z) (size : nat) (access : MemoryAccess)
  : option (result unit MemoryError) :=
  _ <-? validate (ms_space st) address size access;
  d <-? device_for_access st address size access;
  match d with
  | Some _ => Some (Err (mkError address access DeviceAccess))
  | None => Some (Ok tt)
  end.

(** ** Effects

    [Step A] is what a handler returns: the next state and its [Result]. *)

Notation Step A := (option (MemoryService * result A SimTrap)).

Definition step_bind {A B} (c : Step A) (k : MemoryService -> A -> Step B) : Step B :=
  '(st, r) ← c; match r with Ok a => k st a | Err e => Some (st, Err e) end.

(** A check that leaves the state, then the rest of the handler. *)
Definition checked {A B} (st : MemoryService) (c : option (result A SimTrap)) (k : A -> Step B) : Step B :=
  r ← c; match r with Ok a => k a | Err e => Some (st, Err e) end.

Definition consume_device (st : MemoryService) (index : nat) (offset : Z) (size : nat) : Step ResponseValue :=
  d ← ms_devices st !! index;
  assert! offset * 8 <? 64;
  let value := Z.shiftr (rc_value d) (offset * 8) in
  reads ← checked_add (rc_reads d) 1;
  mask ← width_mask size;
  Some (set_devices (<[index := mkDevice (rc_backing d) 0 reads]> (ms_devices st)) st, Ok (Word (Z.land value mask))).

Definition read_effect (st : MemoryService) (address : Z) (size : nat) : Step ResponseValue :=
  checked st (or_trap size (validate (ms_space st) address size Read)) (fun _ =>
  checked st (or_trap size (device_for_access st address size Read)) (fun device =>
  match device with
  | Some (index, offset) => consume_device st index offset size
  | None =>
      checked st (or_trap size (read (ms_memory st) (ms_space st) address (replicate size 0))) (fun bytes =>
      Some (st, Ok (if (size <=? 8)%nat then Word (word_from_bytes bytes) else Bytes bytes)))
  end)).

Definition push_store (s : PendingStore) (a : PendingInstruction) : PendingInstruction :=
  mkPending (pi_id a) (pi_next_sequence a) (pi_stores a ++ [s]) (pi_failed a) (pi_generation a).

Definition write_effect (st : MemoryService) (id : RequestId) (address : Z) (bytes : list Z) : Step ResponseValue :=
  checked st (or_trap (length bytes) (validate (ms_space st) address (length bytes) Write)) (fun _ =>
  checked st (or_trap (length bytes) (device_for_access st address (length bytes) Write)) (fun device =>
  match device with
  | Some _ => Some (st, Err (memory_trap (mkError address Write DeviceAccess) (length bytes)))
  | None =>
      active ← ms_active st;
      Some (set_active (Some (push_store (mkStore id address bytes) active)) st, Ok Done)
  end)).

Definition read_word (st : MemoryService) (address : Z) (size : nat) : Step Z :=
  if (8 <? size)%nat then Some (st, Err (bad_address address size))
  else step_bind (read_effect st address size) (fun st value =>
    match value with Word w => Some (st, Ok w) | _ => None end).

Definition write_word (st : MemoryService) (address : Z) (size : nat) (value : Z) : Step unit :=
  if (size =? 0)%nat || (8 <? size)%nat then Some (st, Err (bad_address address size))
  else checked st (or_trap size (write (ms_memory st) (ms_space st) address (take size (to_le_bytes value))))
         (fun m => Some (set_memory m st, Ok tt)).

Definition load_reserved (st : MemoryService) (address : Z) (size : nat) : Step ResponseValue :=
  checked st (or_trap size (validate_ram_access st address size Read)) (fun _ =>
  step_bind (read_word st address size) (fun st value =>
  Some (set_reservation (Some (address, size, s_generation (ms_space st))) st, Ok (Word value)))).

Definition store_conditional (st : MemoryService) (address : Z) (size : nat) (value : Z) : Step ResponseValue :=
  let success := bool_decide (ms_reservation st = Some (address, size, s_generation (ms_space st))) in
  let st := set_reservation None st in
  if success then
    checked st (or_trap size (validate_ram_access st address size Write)) (fun _ =>
    step_bind (write_word st address size value) (fun st _ => Some (st, Ok (Word 1))))
  else Some (st, Ok (Word 0)).

Definition atomic_rmw (st : MemoryService) (op : AtomicRmwOp) (address : Z) (size : nat) (value : Z) : Step ResponseValue :=
  checked st (or_trap size (validate_ram_access st address size Read)) (fun _ =>
  checked st (or_trap size (validate_ram_access st address size Write)) (fun _ =>
  step_bind (read_word st address size) (fun st old =>
  let width := Z.of_nat size * 8 in
  if (width <? 2 ^ 32) && (width <=? 64) then
    a ← new width old;
    b ← new width value;
    r ← atomic_apply op a b;
    step_bind (write_word st address size (to_u64 r)) (fun st _ => Some (st, Ok (Word old)))
  else Some (st, Err (bad_address address size))))).

Definition execute_effect (st : MemoryService) (id : RequestId) (effect : MemoryEffect) : Step ResponseValue :=
  match effect with
  | EffRead address size => read_effect st address size
  | EffWrite address bytes => write_effect st id address bytes
  | EffLoadReserved address size _ => load_reserved st address size
  | EffStoreConditional address size value _ => store_conditional st address size value
  | EffAtomicRmw op address size value _ => atomic_rmw st op address size value
  | EffFence _ _ _ | EffException _ => Some (st, Ok Done)
  end.

Definition linearizes_immediately (effect : MemoryEffect) : bool :=
  match effect with
  | EffRead _ _ | EffLoadReserved _ _ _ | EffStoreConditional _ _ _ _ | EffAtomicRmw _ _ _ _ _ | EffFence _ _ _ => true
  | EffWrite _ _ | EffException _ => false
  end.

(** ** The protocol *)

(** [take_memory_order] followed by the insertion of the order under [id]. *)
Definition take_memory_order (st : MemoryService) (id : RequestId) : option MemoryService :=
  next ← checked_add (ms_order st) 1;
  Some (mkService (ms_memory st) (ms_space st) (ms_active st) (ms_last st) (ms_reservation st) (ms_devices st) next
          (<[id := ms_order st]> (ms_orders st))).

Definition begin_instruction (st : MemoryService) (id : Z) : MemoryService * result unit SimTrap :=
  if bool_decide (is_Some (ms_active st)) || match ms_last st with Some last => id <=? last | None => false end
  then (st, Err (protocol_trap "instruction identity is stale or already active"))
  else let st := prune_read_to_clear st in
       (mkService (ms_memory st) (ms_space st) (Some (mkPending id 0 [] false (s_generation (ms_space st)))) (Some id)
          (ms_reservation st) (ms_devices st) (ms_order st) ∅, Ok tt).

Definition observing (effect : MemoryEffect) : bool :=
  match effect with
  | EffRead _ _ | EffLoadReserved _ _ _ | EffStoreConditional _ _ _ _ | EffAtomicRmw _ _ _ _ _ | EffFence _ _ _ => true
  | EffWrite _ _ | EffException _ => false
  end.

(** The refusals of [service], in its order. *)
Definition refusal (st : MemoryService) (request : EffectRequest) : option SimTrap :=
  match ms_active st with
  | None => Some (protocol_trap "effect request has no active instruction")
  | Some active =>
      if negb (instruction (rq_id request) =? pi_id active) || negb (sequence (rq_id request) =? pi_next_sequence active)
      then Some (protocol_trap "effect request identity is stale or out of sequence")
      else if pi_failed active then Some (protocol_trap "faulted instruction must be aborted")
      else if negb (pi_generation active =? s_generation (ms_space st))
      then Some (protocol_trap "address-space mappings changed during instruction")
      else if negb (bool_decide (pi_stores active = [])) && observing (rq_effect request)
      then Some (protocol_trap "staged store must commit before a later observing effect")
      else None
  end.

Definition finish_effect (active : PendingInstruction) (failed : bool) : option PendingInstruction :=
  next ← checked_add (pi_next_sequence active) 1;
  Some (mkPending (pi_id active) next (pi_stores active) failed (pi_generation active)).

Definition is_ok {A E} (r : result A E) : bool := match r with Ok _ => true | Err _ => false end.

Definition service (st : MemoryService) (request : EffectRequest) (ready : bool) : Step (option EffectResponse) :=
  match refusal st request with
  | Some trap => Some (st, Err trap)
  | None =>
      if negb ready then Some (st, Ok None)
      else
        '(st, r) ← execute_effect st (rq_id request) (rq_effect request);
        st ← if is_ok r && linearizes_immediately (rq_effect request) then take_memory_order st (rq_id request) else Some st;
        active ← ms_active st;
        active ← finish_effect active (negb (is_ok r));
        Some (set_active (Some active) st, Ok (Some (mkResponse (rq_id request) r)))
  end.

Fixpoint validate_stores (s : AddressSpace) (stores : list PendingStore) : option (result unit SimTrap) :=
  match stores with
  | [] => Some (Ok tt)
  | store :: stores =>
      _ <-? or_trap (length (ps_bytes store)) (validate s (ps_address store) (length (ps_bytes store)) Write);
      validate_stores s stores
  end.

Fixpoint write_stores (st : MemoryService) (stores : list PendingStore) : Step unit :=
  match stores with
  | [] => Some (st, Ok tt)
  | store :: stores =>
      checked st (or_trap (length (ps_bytes store)) (write (ms_memory st) (ms_space st) (ps_address store) (ps_bytes store)))
        (fun m => st ← take_memory_order (set_memory m st) (ps_id store); write_stores st stores)
  end.

Definition commit_instruction (st : MemoryService) (id : Z) : Step unit :=
  match ms_active st with
  | Some active =>
      if (pi_id active =? id) && negb (pi_failed active) && (pi_generation active =? s_generation (ms_space st)) then
        checked st (validate_stores (ms_space st) (pi_stores active)) (fun _ =>
        let drained := mkPending (pi_id active) (pi_next_sequence active) [] (pi_failed active) (pi_generation active) in
        step_bind (write_stores (set_active (Some drained) st) (pi_stores active)) (fun st _ =>
        Some (set_active None st, Ok tt)))
      else Some (st, Err (protocol_trap "commit identity is stale"))
  | None => Some (st, Err (protocol_trap "commit identity is stale"))
  end.

Definition abort_instruction (st : MemoryService) (id : Z) : MemoryService * result unit SimTrap :=
  match ms_active st with
  | Some active => if pi_id active =? id then (set_active None st, Ok tt) else (st, Err (protocol_trap "abort identity is stale"))
  | None => (st, Err (protocol_trap "abort identity is stale"))
  end.

(** ** Mapping through the service *)

Definition service_unmap (st : MemoryService) (address size : Z) : option (MemoryService * result unit MemoryError) :=
  '(s, r) ← unmap (ms_space st) address size;
  let st := set_space s st in
  Some (if is_ok r then prune_read_to_clear st else st, r).

Definition map_read_to_clear (st : MemoryService) (address size value permissions : Z)
  : MemoryService * result unit MemoryError :=
  let st := prune_read_to_clear st in
  if (size =? 0) || (8 <? size) then (st, Err (mkError address Map InvalidRange))
  else match create_backing (ms_memory st) size with
       | (m, Err e) => (set_memory m st, Err e)
       | (m, Ok backing) =>
           let '(s, r) := map m (ms_space st) address size backing 0 permissions in
           let st := set_space s (set_memory m st) in
           match r with
           | Err e => (st, Err e)
           | Ok _ => (set_devices (ms_devices st ++ [mkDevice backing value 0]) st, Ok tt)
           end
       end.

Definition read_to_clear_value (st : MemoryService) (address : Z) : option Z :=
  i ← mapping_at (ms_space st) address;
  index ← device_position (m_backing (i_mapping i)) (ms_devices st);
  rc_value <$> ms_devices st !! index.

Definition read_to_clear_count (st : MemoryService) (address : Z) : option Z :=
  i ← mapping_at (ms_space st) address;
  index ← device_position (m_backing (i_mapping i)) (ms_devices st);
  rc_reads <$> ms_devices st !! index.

Definition effect_order (st : MemoryService) (id : RequestId) : option Z := ms_orders st !! id.

(** ** The state of the memory service

    [service_ok] is the invariant: a well-formed guest, devices of at most
    eight bytes, and staged stores that are writable as long as the mappings do
    not change. The lemmas give a device lookup as a property of the bytes of
    the access, the words that travel as bytes, and the value an atomic
    operation stores. *)
(** ** Invariant *)

Definition device_ok (mem : Memory) (d : ReadToClear) : Prop :=
  exists b, backings mem !! rc_backing d = Some b /\ b_size b <= 8.

Definition store_ok (s : AddressSpace) (p : PendingStore) : Prop :=
  is_word (ps_address p) /\ accessible s WRITE (ps_address p) (Z.of_nat (length (ps_bytes p))).

Definition active_ok (s : AddressSpace) (a : PendingInstruction) : Prop :=
  0 <= pi_next_sequence a <= u64_max /\ pi_generation a <= s_generation s /\
  (pi_generation a = s_generation s -> Forall (store_ok s) (pi_stores a)).

Definition service_ok (st : MemoryService) : Prop :=
  guest_ok (ms_memory st) (ms_space st) /\ Forall (device_ok (ms_memory st)) (ms_devices st) /\
  (forall a, ms_active st = Some a -> active_ok (ms_space st) a) /\ 0 <= ms_order st <= u64_max.

(** ** Devices *)

(** The device an address belongs to. *)
Definition device_at (st : MemoryService) (a : Z) : option nat :=
  p ← view (s_mappings (ms_space st)) a; device_position (p_backing p) (ms_devices st).

Lemma device_position_spec backing devices i : device_position backing devices = Some i ->
  exists d, devices !! i = Some d /\ rc_backing d = backing.
Proof.
  revert i. induction devices as [|d devices IH]; intros i; cbn [device_position]; [done|].
  destruct (Z.eqb_spec (rc_backing d) backing); [intros [= <-]; by exists d|].
  intros (j & Hj & ->)%fmap_Some. by apply IH.
Qed.

Lemma mapping_at_cases s a : space_ok s ->
  match mapping_at s a with
  | Some i => (i_start i, i_mapping i) ∈ s_mappings s /\ i_start i <= a < m_end (i_mapping i) /\
      entry_ok 0 (i_start i) (i_mapping i) /\
      forall b, i_start i <= b < m_end (i_mapping i) -> view (s_mappings s) b = Some (place (i_start i) (i_mapping i) b)
  | None => view (s_mappings s) a = None
  end.
Proof.
  intros [Hc _]. unfold mapping_at. pose proof (next_back_spec 0 (s_mappings s) a Hc) as H. destruct (next_back _) as [[k m]|]; [|apply H; lia].
  destruct H as (Hin & Hk & Hv & _). destruct (Z.ltb_spec a (m_end m)); [|done]. cbn. split; [done|]. split; [lia|].
  split; [by apply (chain_elem 0 (s_mappings s))|]. intros b Hb. by apply (view_elem 0).
Qed.

(** The range lies in one entry of the mapping table. *)
Definition in_one_mapping (st : MemoryService) (a n : Z) : Prop :=
  exists k m, (k, m) ∈ s_mappings (ms_space st) /\ k <= a /\ a + n <= m_end m.

(** What looking for a device in a range finds. *)
Inductive device_found (st : MemoryService) (a n : Z) (access : MemoryAccess) : result (option (nat * Z)) MemoryError -> Prop :=
  | found_none : (forall b, a <= b < a + n -> device_at st b = None) -> device_found st a n access (Ok None)
  | found_device i p d : 0 < n -> view (s_mappings (ms_space st)) a = Some p -> device_at st a = Some i -> ms_devices st !! i = Some d ->
      rc_backing d = p_backing p -> 0 <= p_offset p -> p_offset p + n <= 8 -> device_found st a n access (Ok (Some (i, p_offset p)))
  | found_part b i : a <= b < a + n -> device_at st b = Some i -> ~ in_one_mapping st a n ->
      device_found st a n access (Err (mkError a access DeviceAccess)).

Lemma device_in st k m i d : service_ok st -> (k, m) ∈ s_mappings (ms_space st) -> ms_devices st !! i = Some d -> rc_backing d = m_backing m ->
  m_offset m + (m_end m - k) <= 8.
Proof.
  intros (Hg & Hd & _) Hin Ed Eb. destruct Hg as (_ & _ & Hb). destruct (Hb k m Hin) as (b & E & Hs).
  rewrite Forall_lookup in Hd. destruct (Hd i d Ed) as (b' & E' & Hs'). rewrite Eb, E in E'. injection E' as <-. lia.
Qed.

Lemma device_loop_spec st a n access : service_ok st -> 0 <= a -> 0 < n -> a + n <= u64_max -> a + 7 <= u64_max ->
  (forall b, a <= b < a + n -> is_Some (view (s_mappings (ms_space st)) b)) -> forall fuel c,
  a <= c <= a + n -> (c < a + n -> (remaining (s_mappings (ms_space st)) c < fuel)%nat) ->
  (forall b, a <= b < c -> device_at st b = None) ->
  exists r, device_loop fuel st a c (a + n) access = Some r /\ device_found st a n access r.
Proof.
  intros Hok Ha Hn Hm Hm7 Hall. induction fuel as [|fuel IH]; intros c Hc Hf Hb; cbn [device_loop].
  { rewrite (proj2 (Z.ltb_ge _ _)) by lia. eexists. split; [done|]. apply found_none. intros b Hr. apply Hb. lia. }
  destruct (Z.ltb_spec c (a + n)) as [Hlt|Hge].
  2:{ eexists. split; [done|]. apply found_none. intros b Hr. apply Hb. lia. }
  pose proof (mapping_at_cases (ms_space st) c (proj1 (proj1 Hok))) as H. destruct (mapping_at (ms_space st) c) as [[k m]|].
  2:{ destruct (Hall c ltac:(lia)) as [p Hp]. congruence. }
  cbn [i_start i_mapping] in *. destruct H as (Hin & Hk & He & Hv). unfold entry_ok in He.
  destruct (device_position (m_backing m) (ms_devices st)) as [i|] eqn:Ed.
  - destruct (device_position_spec _ _ _ Ed) as (d & Hd & Hdb). pose proof (device_in st k m i d Hok Hin Hd Hdb) as H8.
    destruct ((k <=? a) && (a + n <=? m_end m)) eqn:Er.
    + assert (k <= a /\ a + n <= m_end m) as [Hka Hna] by lia. unfold checked_add, checked_sub.
      replace (m_offset m + a <=? u64_max) with true by lia. cbn [mbind option_bind].
      replace (k <=? m_offset m + a) with true by lia. cbn [mbind option_bind]. eexists. split; [done|].
      replace (m_offset m + a - k) with (p_offset (place k m a)) by (cbn; lia).
      apply (found_device _ _ _ _ i (place k m a) d); [done|apply Hv; lia| |done|done|cbn; lia|cbn; lia].
      unfold device_at. rewrite Hv by lia. done.
    + eexists. split; [done|]. apply (found_part _ _ _ _ c i); [lia| |]; [unfold device_at; rewrite Hv by lia; done|].
      intros (j & w & Hw & Hj & He'). destruct (chain_unique 0 (s_mappings (ms_space st)) c k m j w) as [-> ->]; [|done|done|lia|lia|].
      * destruct Hok as ((Hs & _) & _). exact (proj1 Hs).
      * apply andb_false_iff in Er as [E|E]; [apply Z.leb_gt in E|apply Z.leb_gt in E]; lia.
  - destruct (IH (m_end m `min` (a + n))) as (r & -> & Hr); [lia| | |by exists r].
    + intros Hmore. pose proof (remaining_lt (s_mappings (ms_space st)) c (m_end m `min` (a + n)) k m Hin). lia.
    + intros b Hr. destruct (Z.lt_ge_cases b c); [apply Hb; lia|]. unfold device_at. rewrite Hv by lia. done.
Qed.

Lemma device_for_access_spec st a n access permission : service_ok st -> is_word a -> a + 7 <= u64_max ->
  accessible (ms_space st) permission a (Z.of_nat n) ->
  exists r, device_for_access st a n access = Some r /\ device_found st a (Z.of_nat n) access r.
Proof.
  intros Hok Ha H7 Hacc. unfold is_word in Ha. unfold device_for_access, checked_add.
  destruct (Nat.eq_dec n 0%nat) as [->|Hn].
  - change (Z.of_nat 0) with 0 in *. replace (a + 0 <=? u64_max) with true by lia. cbn [device_loop]. rewrite (proj2 (Z.ltb_ge a (a + 0))) by lia.
    eexists. split; [done|]. apply found_none. intros; lia.
  - destruct Hacc as [Hz|[Hle Hall]]; [lia|]. replace (a + Z.of_nat n <=? u64_max) with true by lia.
    pose proof (remaining_le (s_mappings (ms_space st)) a). apply device_loop_spec; try done; try lia.
    intros b Hb. specialize (Hall b Hb). unfold fault in Hall. destruct (view _ b); [by eexists|done].
Qed.

(** ** Words as bytes *)

Lemma lor_byte acc byte i : 0 <= i -> 0 <= acc < 2 ^ (8 * i) -> Z.lor acc (Z.shiftl byte (i * 8)) = acc + 2 ^ (8 * i) * byte.
Proof.
  intros Hi Ha. rewrite Z.shiftl_mul_pow2 by lia. replace (i * 8) with (8 * i) by lia.
  assert (Z.land acc (byte * 2 ^ (8 * i)) = 0) as E.
  { apply Z.bits_inj'. intros k Hk. rewrite Z.land_spec, Z.bits_0, <- Z.shiftl_mul_pow2, Z.shiftl_spec by lia.
    destruct (Z.ltb_spec k (8 * i)); [rewrite (Z.testbit_neg_r byte) by lia; apply andb_false_r|].
    by rewrite (bounded_testbit acc (8 * i)) by lia. }
  rewrite <- Z.lxor_lor, <- Z.add_nocarry_lxor by done. lia.
Qed.

Lemma word_fold v n : forall i acc, 0 <= i -> 0 <= acc < 2 ^ (8 * i) ->
  (fold_left (fun '(index, value) byte => (index + 1, Z.lor value (Z.shiftl byte (index * 8))))
    ((fun j => Z.land (Z.shiftr v (8 * j)) 255) <$> seqZ i (Z.of_nat n)) (i, acc)).2
  = acc + 2 ^ (8 * i) * (Z.shiftr v (8 * i) mod 2 ^ (8 * Z.of_nat n)).
Proof.
  induction n as [|n IH]; intros i acc Hi Ha.
  - change (Z.of_nat 0) with 0. rewrite seqZ_nil, Z.mod_1_r by lia. cbn. lia.
  - rewrite seqZ_cons by lia. cbn [fmap list_fmap fold_left]. rewrite lor_byte by done.
    change 255 with (Z.ones 8). rewrite Z.land_ones by lia. set (x := Z.shiftr v (8 * i)).
    pose proof (Z.mod_pos_bound x (2 ^ 8) ltac:(lia)) as Hx.
    assert (2 ^ (8 * (i + 1)) = 2 ^ (8 * i) * 2 ^ 8) as E8 by (rewrite <- Z.pow_add_r by lia; f_equal; lia).
    pose proof (pow2_pos (8 * i) ltac:(lia)).
    replace (Z.pred (Z.of_nat (S n))) with (Z.of_nat n) by lia. replace (Z.succ i) with (i + 1) by lia.
    rewrite IH; [|lia|rewrite E8; nia]. rewrite E8.
    replace (8 * Z.of_nat (S n)) with (8 + 8 * Z.of_nat n) by lia. rewrite Z.pow_add_r, Z.rem_mul_r by (try apply pow2_pos; lia).
    replace (Z.shiftr v (8 * (i + 1))) with (x / 2 ^ 8); [lia|].
    unfold x. rewrite <- Z.shiftr_div_pow2, Z.shiftr_shiftr by lia. f_equal. lia.
Qed.

(** A word written as bytes is read back modulo the bytes written. *)
Lemma word_bytes v n : (n <= 8)%nat -> word_from_bytes (take n (to_le_bytes v)) = v mod 2 ^ (8 * Z.of_nat n).
Proof.
  intros Hn. unfold word_from_bytes, to_le_bytes. rewrite <- fmap_take.
  assert (take n (seqZ 0 8) = seqZ 0 (Z.of_nat n)) as ->.
  { replace 8 with (Z.of_nat n + Z.of_nat (8 - n)) by lia. rewrite seqZ_app by lia. rewrite take_app_le by (rewrite length_seqZ; lia).
    apply take_ge. rewrite length_seqZ. lia. }
  rewrite (word_fold v n 0 0) by lia. cbn [Z.mul]. rewrite Z.shiftr_0_r. lia.
Qed.

(** ** Atomic operations *)

Definition amo_value (op : AtomicRmwOp) (w x y : Z) : Z :=
  match op with
  | AmoAdd => (x + y) mod 2 ^ w
  | AmoSwap => y
  | AmoXor => Z.lxor x y
  | AmoAnd => Z.land x y
  | AmoOr => Z.lor x y
  | AmoMin => if sign_of w x <? sign_of w y then x else y
  | AmoMax => if sign_of w y <? sign_of w x then x else y
  | AmoMinU => if x <? y then x else y
  | AmoMaxU => if y <? x then x else y
  end.

Lemma new_word w v : 0 < w <= 64 -> new w v = Some (repr w false v).
Proof.
  intros Hw. unfold new. rewrite (proj2 (Z.ltb_lt 0 w)), (proj2 (Z.ltb_ge 64 w)) by lia. by rewrite masked_repr by lia.
Qed.

Lemma to_u64_repr w s v : 0 < w <= 64 -> to_u64 (repr w s v) = v mod 2 ^ w.
Proof.
  intros Hw. unfold to_u64. destruct (wf_small (repr w s v)) as [-> _]; [by apply repr_wf; lia|cbn; lia|]. apply uval_repr. lia.
Qed.

Lemma is_lt_compare x y : is_lt (x ?= y) = (x <? y).
Proof. by unfold is_lt, Z.ltb. Qed.
Lemma is_gt_compare x y : is_gt (x ?= y) = (y <? x).
Proof. rewrite Z.compare_antisym. unfold is_gt, Z.ltb. by destruct (y ?= x). Qed.

Lemma uval_with_signed a s : uval (with_signed a s) = uval a.
Proof. done. Qed.
Lemma sval_with_signed a s : sval (with_signed a s) = sign_of (width a) (uval a).
Proof. done. Qed.

Ltac by_order op compare w :=
  unfold op; rewrite ?scmp_spec, ?ucmp_spec by (try apply with_signed_wf; done); cbn [fmap option_fmap option_map mbind option_bind];
  rewrite compare, ?sval_with_signed, ?uval_with_signed; eexists; split; [done|]; split; [done|]; split; [done|];
  repeat match goal with U : uval ?a = _ |- _ => rewrite ?U; change (width a) with w; clear U end; by case_match.

Lemma atomic_apply_spec op w v1 v2 : 0 < w <= 64 -> exists a b r, new w v1 = Some a /\ new w v2 = Some b /\
  atomic_apply op a b = Some r /\ to_u64 r = amo_value op w (v1 mod 2 ^ w) (v2 mod 2 ^ w) mod 2 ^ w.
Proof.
  intros Hw. rewrite !new_word by done. set (a := repr w false v1). set (b := repr w false v2).
  assert (wf a /\ wf b) as [Ha Hb] by (split; apply repr_wf; lia).
  assert (uval a = v1 mod 2 ^ w /\ uval b = v2 mod 2 ^ w) as [Ua Ub] by (split; apply uval_repr; lia).
  exists a, b. assert (forall v, to_u64 (repr w false v) = v mod 2 ^ w) as Hto by (intros v; by apply to_u64_repr).
  assert (to_u64 a = (v1 mod 2 ^ w) mod 2 ^ w /\ to_u64 b = (v2 mod 2 ^ w) mod 2 ^ w) as [Ta Tb] by (unfold a, b; by rewrite !Hto, !Z.mod_mod by (apply Z.pow_nonzero; lia)).
  destruct op; cbn [atomic_apply amo_value].
  - rewrite add_repr by done. eexists. split; [done|]. split; [done|]. split; [done|]. cbn [signed andb]. change (width a) with w.
    rewrite Hto, Ua, Ub, Z.mod_mod by (apply Z.pow_nonzero; lia). done.
  - exists b. done.
  - rewrite xor_repr by done. eexists. split; [done|]. split; [done|]. split; [done|]. change (width a) with w. by rewrite Hto, Ua, Ub.
  - rewrite and_repr by done. eexists. split; [done|]. split; [done|]. split; [done|]. change (width a) with w. by rewrite Hto, Ua, Ub.
  - rewrite or_repr by done. eexists. split; [done|]. split; [done|]. split; [done|]. change (width a) with w. by rewrite Hto, Ua, Ub.
  - by_order slt is_lt_compare w.
  - by_order sgt is_gt_compare w.
  - by_order ult is_lt_compare w.
  - by_order ugt is_gt_compare w.
Qed.
