(* ===== verification/MemoryServiceTheorems.v ===== *)
(** * The memory service: theorems

    Every effect has the outcome its kind promises, or is refused and changes
    nothing; the stores of an instruction reach memory together, in order, when
    it commits, and never when it does not; the protocol accepts each effect of
    an instruction once, in sequence. *)
From Stdlib Require Import String Sorted.
From S2P Require Import Prelude Words ApInt ApIntSpec Lang Memory MemorySpec MemoryBytes MemoryTheorems MemoryService.
#[local] Open Scope Z_scope.
#[local] Open Scope list_scope.

(** ** Ordinary memory *)

(** The range permits the access and belongs to no device. *)
Definition ram (st : MemoryService) (permission a n : Z) : Prop :=
  accessible (ms_space st) permission a n /\ forall b, a <= b < a + n -> device_at st b = None.

Definition contents (st : MemoryService) (a : Z) (n : nat) : list Z :=
  byte_at (ms_memory st) <$> locs_of (s_mappings (ms_space st)) a (Z.of_nat n).

(** Memory after the bytes of a list are stored at [a]. *)
Definition stores (st : MemoryService) (m : Memory) (a : Z) (bytes : list Z) : Prop :=
  guest_ok m (ms_space st) /\ same_shape (ms_memory st) m /\
  forall l, 0 <= l.2 -> byte_at m l = puts (byte_at (ms_memory st)) (locs_of (s_mappings (ms_space st)) a (Z.of_nat (length bytes))) bytes l.

Definition bytes_of_word (n : nat) (v : Z) : list Z := take n (to_le_bytes v).

Lemma validate_cases st a n access permission : service_ok st -> is_word a -> access_permission access = Some permission ->
  (validate (ms_space st) a n access = Some (Ok tt) /\ accessible (ms_space st) permission a (Z.of_nat n)) \/
  (exists e, validate (ms_space st) a n access = Some (Err e) /\ ~ accessible (ms_space st) permission a (Z.of_nat n)).
Proof.
  intros (Hg & _) Ha Hp. unfold validate. destruct (access_spec _ _ a n access permission Hg Ha Hp) as [(spans & -> & Hacc & _)|(e & -> & He)]; cbn.
  - by left.
  - right. exists e. split; [done|]. by eapply first_fault_excludes.
Qed.

Lemma found_ram st permission a n access r : accessible (ms_space st) permission a n -> device_found st a n access r ->
  match r with Ok None => ram st permission a n | _ => ~ ram st permission a n end.
Proof.
  intros Hacc [H|i p d Hn Hv Hd _ _ _ _|b i Hb Hd _].
  - by split.
  - intros [_ H]. rewrite H in Hd by lia. done.
  - intros [_ H]. by rewrite H in Hd.
Qed.

Lemma validate_ram_cases st a n access permission : service_ok st -> is_word a -> a + 7 <= u64_max -> access_permission access = Some permission ->
  (validate_ram_access st a n access = Some (Ok tt) /\ ram st permission a (Z.of_nat n)) \/
  (exists e, validate_ram_access st a n access = Some (Err e) /\ ~ ram st permission a (Z.of_nat n)).
Proof.
  intros Hok Ha H7 Hp. unfold validate_ram_access.
  destruct (validate_cases st a n access permission Hok Ha Hp) as [(-> & Hacc)|(e & -> & Hacc)]; cbn [try_bind mbind option_bind].
  2:{ right. exists e. split; [done|]. by intros [? _]. }
  destruct (device_for_access_spec st a n access permission Hok Ha H7 Hacc) as (r & -> & Hr). cbn [try_bind mbind option_bind].
  pose proof (found_ram st permission a (Z.of_nat n) access r Hacc Hr) as H. destruct r as [[d|]|e].
  - right. by eexists.
  - by left.
  - right. by exists e.
Qed.

Lemma read_ram st a n : service_ok st -> is_word a -> a + 7 <= u64_max -> ram st READ a (Z.of_nat n) ->
  read_effect st a n = Some (st, Ok (if (n <=? 8)%nat then Word (word_from_bytes (contents st a n)) else Bytes (contents st a n))).
Proof.
  intros Hok Ha H7 [Hacc Hd]. unfold read_effect, checked, or_trap.
  destruct (validate_cases st a n Read READ Hok Ha eq_refl) as [(-> & _)|(e & _ & H)]; [|done]. cbn [mbind option_bind].
  destruct (device_for_access_spec st a n Read READ Hok Ha H7 Hacc) as (r & -> & Hr). cbn [mbind option_bind].
  assert (r = Ok None) as -> by (destruct Hr as [H|i p d Hn Hv Hda _ _ _ _|b i Hb Hda _]; [done|rewrite Hd in Hda by lia; done|by rewrite Hd in Hda]).
  unfold read. rewrite (proj1 (guest_memory_bytes _ _ a (proj1 Hok) Ha) Read READ (replicate n 0) eq_refl) by (by rewrite length_replicate).
  rewrite length_replicate. done.
Qed.

Lemma read_word_ram st a n : service_ok st -> is_word a -> a + 7 <= u64_max -> ram st READ a (Z.of_nat n) -> (n <= 8)%nat ->
  read_word st a n = Some (st, Ok (word_from_bytes (contents st a n))).
Proof.
  intros Hok Ha H7 Hr Hn. unfold read_word. rewrite (proj2 (Nat.ltb_ge _ _)) by lia. rewrite read_ram by done.
  rewrite (proj2 (Nat.leb_le _ _)) by lia. done.
Qed.

Lemma write_bytes st a bytes : service_ok st -> is_word a -> accessible (ms_space st) WRITE a (Z.of_nat (length bytes)) ->
  exists m, write (ms_memory st) (ms_space st) a bytes = Some (Ok m) /\ stores st m a bytes.
Proof.
  intros (Hg & _) Ha Hacc. destruct (write_shape _ _ a bytes Hg Ha Hacc) as (m & -> & Hg' & Hs & Hv). exists m. done.
Qed.

Lemma length_bytes_of_word n v : (n <= 8)%nat -> length (bytes_of_word n v) = n.
Proof. intros Hn. unfold bytes_of_word, to_le_bytes. rewrite length_take, length_fmap, length_seqZ. lia. Qed.

Lemma write_word_ram st a n v : service_ok st -> is_word a -> accessible (ms_space st) WRITE a (Z.of_nat n) -> (0 < n <= 8)%nat ->
  exists m, write_word st a n v = Some (set_memory m st, Ok tt) /\ stores st m a (bytes_of_word n v).
Proof.
  intros Hok Ha Hacc Hn. unfold write_word. rewrite (proj2 (Nat.eqb_neq _ _)), (proj2 (Nat.ltb_ge _ _)) by lia. cbn [orb].
  destruct (write_bytes st a (bytes_of_word n v) Hok Ha) as (m & E & Hs); [by rewrite length_bytes_of_word by lia|].
  unfold bytes_of_word in E. rewrite E. by exists m.
Qed.

(** ** The outcome of an effect *)

Definition arguments (effect : MemoryEffect) : Prop :=
  match effect with
  | EffRead a _ | EffLoadReserved a _ _ | EffStoreConditional a _ _ _ => is_word a /\ a + 7 <= u64_max
  | EffWrite a bytes => is_word a /\ a + 7 <= u64_max
  | EffAtomicRmw _ a n _ _ => is_word a /\ a + 7 <= u64_max /\ (0 < n)%nat
  | EffFence _ _ _ | EffException _ => True
  end.

(** Why an effect is refused. *)
Definition refused (st : MemoryService) (effect : MemoryEffect) : Prop :=
  match effect with
  | EffRead a n => ~ accessible (ms_space st) READ a (Z.of_nat n) \/
      (exists b i, a <= b < a + Z.of_nat n /\ device_at st b = Some i) /\ ~ in_one_mapping st a (Z.of_nat n)
  | EffWrite a bytes => ~ ram st WRITE a (Z.of_nat (length bytes))
  | EffLoadReserved a n _ => ~ ram st READ a (Z.of_nat n) \/ (8 < n)%nat
  | EffStoreConditional a n _ _ => ms_reservation st = Some (a, n, s_generation (ms_space st)) /\
      (~ ram st WRITE a (Z.of_nat n) \/ ~ (0 < n <= 8)%nat)
  | EffAtomicRmw _ a n _ _ => ~ ram st READ a (Z.of_nat n) \/ ~ ram st WRITE a (Z.of_nat n) \/ (8 < n)%nat
  | EffFence _ _ _ | EffException _ => False
  end.

(** A refused store-conditional has lost its reservation; nothing else changes. *)
Definition after_refusal (st : MemoryService) (effect : MemoryEffect) : MemoryService :=
  match effect with EffStoreConditional _ _ _ _ => set_reservation None st | _ => st end.

Inductive outcome (st : MemoryService) (id : RequestId) : MemoryEffect -> MemoryService -> result ResponseValue SimTrap -> Prop :=
  | out_read a n : ram st READ a (Z.of_nat n) ->
      outcome st id (EffRead a n) st (Ok (if (n <=? 8)%nat then Word (word_from_bytes (contents st a n)) else Bytes (contents st a n)))
  | out_device a n i p d : accessible (ms_space st) READ a (Z.of_nat n) -> device_at st a = Some i -> ms_devices st !! i = Some d ->
      view (s_mappings (ms_space st)) a = Some p -> p_offset p + Z.of_nat n <= 8 ->
      outcome st id (EffRead a n) (set_devices (<[i := mkDevice (rc_backing d) 0 (rc_reads d + 1)]> (ms_devices st)) st)
        (Ok (Word (Z.shiftr (rc_value d) (8 * p_offset p) mod 2 ^ (8 * Z.of_nat n))))
  | out_write a bytes active : ram st WRITE a (Z.of_nat (length bytes)) -> ms_active st = Some active ->
      outcome st id (EffWrite a bytes) (set_active (Some (push_store (mkStore id a bytes) active)) st) (Ok Done)
  | out_load_reserved a n o : ram st READ a (Z.of_nat n) -> (n <= 8)%nat ->
      outcome st id (EffLoadReserved a n o) (set_reservation (Some (a, n, s_generation (ms_space st))) st)
        (Ok (Word (word_from_bytes (contents st a n))))
  | out_conditional_lost a n v o : ms_reservation st <> Some (a, n, s_generation (ms_space st)) ->
      outcome st id (EffStoreConditional a n v o) (set_reservation None st) (Ok (Word 0))
  | out_conditional a n v o m : ms_reservation st = Some (a, n, s_generation (ms_space st)) -> ram st WRITE a (Z.of_nat n) -> (0 < n <= 8)%nat ->
      stores st m a (bytes_of_word n v) ->
      outcome st id (EffStoreConditional a n v o) (set_memory m (set_reservation None st)) (Ok (Word 1))
  | out_atomic op a n v o m : ram st READ a (Z.of_nat n) -> ram st WRITE a (Z.of_nat n) -> (0 < n <= 8)%nat ->
      (let w := 8 * Z.of_nat n in let old := word_from_bytes (contents st a n) in
       stores st m a (bytes_of_word n (amo_value op w (old mod 2 ^ w) (v mod 2 ^ w) mod 2 ^ w))) ->
      outcome st id (EffAtomicRmw op a n v o) (set_memory m st) (Ok (Word (word_from_bytes (contents st a n))))
  | out_fence p s k : outcome st id (EffFence p s k) st (Ok Done)
  | out_exception c : outcome st id (EffException c) st (Ok Done)
  | out_refused effect e : refused st effect -> outcome st id effect (after_refusal st effect) (Err e).

(** ** Preservation *)

Lemma ok_set_memory st m a bytes : service_ok st -> stores st m a bytes -> service_ok (set_memory m st).
Proof.
  intros (Hg & Hd & Ha & Ho) (Hg' & Hs & _). split; [done|]. split; [|done]. cbn. revert Hd. apply Forall_impl.
  intros d (b & Eb & H8). destruct (same_shape_lookup _ _ _ _ Hs Eb) as (b' & Eb' & Es). exists b'. rewrite Es. done.
Qed.

Lemma ok_set_reservation st r : service_ok st -> service_ok (set_reservation r st).
Proof. done. Qed.

Lemma ok_set_active st a : service_ok st -> (forall x, a = Some x -> active_ok (ms_space st) x) -> service_ok (set_active a st).
Proof. intros (Hg & Hd & _ & Ho) Ha. done. Qed.

Lemma ok_consumed st i d reads : service_ok st -> ms_devices st !! i = Some d ->
  service_ok (set_devices (<[i := mkDevice (rc_backing d) 0 reads]> (ms_devices st)) st).
Proof.
  intros (Hg & Hd & Ha & Ho) Hi. split; [done|]. split; [|done]. cbn. apply Forall_insert; [done|].
  rewrite Forall_lookup in Hd. exact (Hd i d Hi).
Qed.

Lemma ok_pushed st id a bytes active : service_ok st -> ms_active st = Some active -> is_word a ->
  accessible (ms_space st) WRITE a (Z.of_nat (length bytes)) -> service_ok (set_active (Some (push_store (mkStore id a bytes) active)) st).
Proof.
  intros Hok Hact Ha Hacc. apply ok_set_active; [done|]. intros x [= <-]. pose proof Hok as (_ & _ & H & _). destruct (H active Hact) as (Hn & Hg & Hf).
  split; [done|]. split; [done|]. cbn. intros E. apply Forall_app. split; [by apply Hf|]. by constructor; [split|constructor].
Qed.

(** ** Executing an effect *)

Definition counted (st : MemoryService) : Prop := Forall (fun d => 0 <= rc_reads d < u64_max) (ms_devices st).

Lemma consume_spec st i d off n : ms_devices st !! i = Some d -> 0 <= rc_reads d < u64_max -> 0 <= off -> 0 < Z.of_nat n -> off + Z.of_nat n <= 8 ->
  consume_device st i off n = Some (set_devices (<[i := mkDevice (rc_backing d) 0 (rc_reads d + 1)]> (ms_devices st)) st,
    Ok (Word (Z.shiftr (rc_value d) (8 * off) mod 2 ^ (8 * Z.of_nat n)))).
Proof.
  intros Hd Hr Ho Hn H8. unfold consume_device. rewrite Hd. cbn [mbind option_bind]. rewrite (proj2 (Z.ltb_lt _ _)) by lia.
  unfold checked_add. rewrite (proj2 (Z.leb_le _ _)) by lia. cbn [mbind option_bind].
  replace (off * 8) with (8 * off) by lia.
  assert (exists k, width_mask n = Some (Z.ones k) /\ k = 8 * Z.of_nat n) as (k & -> & ->).
  { unfold width_mask. destruct (Nat.eqb_spec n 8) as [->|Hne]; [by exists 64|]. rewrite (proj2 (Nat.ltb_lt _ _)) by lia.
    eexists. split; [|done]. unfold Z.ones. rewrite Nat2Z.inj_mul, Z.mul_comm. done. }
  cbn [mbind option_bind]. by rewrite Z.land_ones by lia.
Qed.

Lemma read_effect_spec st id a n : service_ok st -> counted st -> is_word a -> a + 7 <= u64_max ->
  exists st' r, read_effect st a n = Some (st', r) /\ outcome st id (EffRead a n) st' r /\ service_ok st'.
Proof.
  intros Hok Hc Ha H7. destruct (validate_cases st a n Read READ Hok Ha eq_refl) as [(E & Hacc)|(e & E & Hacc)].
  2:{ unfold read_effect, checked, or_trap. rewrite E. eexists _, _. split; [done|]. split; [|done]. apply out_refused. by left. }
  destruct (device_for_access_spec st a n Read READ Hok Ha H7 Hacc) as (r & Ed & Hr). pose proof (found_ram st READ a (Z.of_nat n) Read r Hacc Hr) as Hram.
  destruct r as [[[i off]|]|e].
  - unfold read_effect, checked, or_trap. rewrite E, Ed. cbn [mbind option_bind].
    inversion Hr as [|i' p d Hn Hv Hda Hd Hb Ho H8 |]; subst. unfold counted in Hc. rewrite Forall_lookup in Hc.
    rewrite (consume_spec st i d (p_offset p) n) by (try apply (Hc i); done || lia). eexists _, _. split; [done|].
    split; [by apply (out_device st id a n i p d)|by apply ok_consumed].
  - rewrite read_ram by done. eexists _, _. split; [done|]. split; [by apply out_read|done].
  - unfold read_effect, checked, or_trap. rewrite E, Ed. eexists _, _. split; [done|]. split; [|done]. apply out_refused. right. inversion Hr; subst. split; [by eexists _, _|done].
Qed.

Lemma write_effect_spec st id a bytes active : service_ok st -> ms_active st = Some active -> is_word a -> a + 7 <= u64_max ->
  exists st' r, write_effect st id a bytes = Some (st', r) /\ outcome st id (EffWrite a bytes) st' r /\ service_ok st'.
Proof.
  intros Hok Hact Ha H7. unfold write_effect, checked, or_trap.
  destruct (validate_cases st a (length bytes) Write WRITE Hok Ha eq_refl) as [(-> & Hacc)|(e & -> & Hacc)]; cbn [mbind option_bind].
  2:{ eexists _, _. split; [done|]. split; [|done]. apply out_refused. by intros [? _]. }
  destruct (device_for_access_spec st a (length bytes) Write WRITE Hok Ha H7 Hacc) as (r & -> & Hr). cbn [mbind option_bind].
  pose proof (found_ram st WRITE a (Z.of_nat (length bytes)) Write r Hacc Hr) as Hram. destruct r as [[d|]|e].
  - eexists _, _. split; [done|]. split; [by apply out_refused|done].
  - rewrite Hact. cbn [mbind option_bind]. eexists _, _. split; [done|]. split; [by apply out_write|by apply ok_pushed].
  - eexists _, _. split; [done|]. split; [by apply out_refused|done].
Qed.

Lemma load_reserved_spec st id a n o : service_ok st -> is_word a -> a + 7 <= u64_max ->
  exists st' r, load_reserved st a n = Some (st', r) /\ outcome st id (EffLoadReserved a n o) st' r /\ service_ok st'.
Proof.
  intros Hok Ha H7. unfold load_reserved, checked, or_trap.
  destruct (validate_ram_cases st a n Read READ Hok Ha H7 eq_refl) as [(-> & Hr)|(e & -> & Hr)]; cbn [mbind option_bind].
  - destruct (Nat.leb_spec n 8).
    + rewrite read_word_ram by done. cbn. eexists _, _. split; [done|]. split; [by apply out_load_reserved|done].
    + unfold read_word. rewrite (proj2 (Nat.ltb_lt _ _)) by lia. cbn. eexists _, _. split; [done|]. split; [|done]. apply out_refused. by right.
  - eexists _, _. split; [done|]. split; [|done]. apply out_refused. by left.
Qed.

Lemma store_conditional_spec st id a n v o : service_ok st -> is_word a -> a + 7 <= u64_max ->
  exists st' r, store_conditional st a n v = Some (st', r) /\ outcome st id (EffStoreConditional a n v o) st' r /\ service_ok st'.
Proof.
  intros Hok Ha H7. unfold store_conditional. case_bool_decide as Hres.
  2:{ eexists _, _. split; [done|]. split; [by apply out_conditional_lost|done]. }
  unfold checked, or_trap. set (st0 := set_reservation None st).
  destruct (validate_ram_cases st0 a n Write WRITE Hok Ha H7 eq_refl) as [(-> & Hr)|(e & -> & Hr)]; cbn [mbind option_bind].
  2:{ eexists _, _. split; [done|]. split; [|done]. apply out_refused. split; [done|]. by left. }
  destruct (decide (0 < n <= 8)%nat) as [Hn|Hn].
  - destruct (write_word_ram st0 a n v Hok Ha (proj1 Hr) Hn) as (m & -> & Hs). cbn. eexists _, _. split; [done|].
    split; [by apply out_conditional|]. by eapply (ok_set_memory st0).
  - unfold write_word. replace ((n =? 0)%nat || (8 <? n)%nat) with true.
    + eexists _, _. split; [done|]. split; [|done]. apply out_refused. split; [done|]. by right.
    + destruct (Nat.eqb_spec n 0), (Nat.ltb_spec 8 n); done || lia.
Qed.

Lemma atomic_rmw_spec st id op a n v o : service_ok st -> is_word a -> a + 7 <= u64_max -> (0 < n)%nat ->
  exists st' r, atomic_rmw st op a n v = Some (st', r) /\ outcome st id (EffAtomicRmw op a n v o) st' r /\ service_ok st'.
Proof.
  intros Hok Ha H7 Hn0. unfold atomic_rmw, checked, or_trap.
  destruct (validate_ram_cases st a n Read READ Hok Ha H7 eq_refl) as [(-> & Hr)|(e & -> & Hr)]; cbn [mbind option_bind].
  2:{ eexists _, _. split; [done|]. split; [|done]. apply out_refused. by left. }
  destruct (validate_ram_cases st a n Write WRITE Hok Ha H7 eq_refl) as [(-> & Hw)|(e & -> & Hw)]; cbn [mbind option_bind].
  2:{ eexists _, _. split; [done|]. split; [|done]. apply out_refused. right. by left. }
  destruct (Nat.leb_spec n 8).
  2:{ unfold read_word. rewrite (proj2 (Nat.ltb_lt _ _)) by lia. cbn. eexists _, _. split; [done|]. split; [|done]. apply out_refused. right. by right. }
  rewrite read_word_ram by done. cbn [step_bind mbind option_bind].
  replace ((Z.of_nat n * 8 <? 2 ^ 32) && (Z.of_nat n * 8 <=? 64)) with true by lia.
  destruct (atomic_apply_spec op (Z.of_nat n * 8) (word_from_bytes (contents st a n)) v ltac:(lia)) as (x & y & z & -> & -> & E & Ez).
  cbn [mbind option_bind]. rewrite E. cbn [mbind option_bind]. rewrite Ez. replace (Z.of_nat n * 8) with (8 * Z.of_nat n) by lia.
  destruct (write_word_ram st a n (amo_value op (8 * Z.of_nat n) (word_from_bytes (contents st a n) mod 2 ^ (8 * Z.of_nat n)) (v mod 2 ^ (8 * Z.of_nat n)) mod 2 ^ (8 * Z.of_nat n))
    Hok Ha (proj1 Hw) ltac:(lia)) as (m & -> & Hs). cbn [step_bind mbind option_bind]. eexists _, _. split; [done|].
  split; [by apply out_atomic|by eapply ok_set_memory].
Qed.

(** C18: An effect of an active instruction, at an address below the last
    seven of the address space and of positive size if it is atomic, does what
    its kind promises or is refused for a reason of its kind: a read returns the
    bytes of the range as a little-endian word, a read of a device consumes its
    value, a write is staged, a store-conditional stores exactly if its
    reservation stands, an atomic operation returns the old value and stores
    the result at the access width. A read is refused only when a byte of it
    cannot be read or when it touches a device without lying in one mapping.
    An effect that is refused leaves memory, devices and staged stores as they
    were but for the reservation of a store-conditional. As long as the read
    counters of the devices have room, no such effect panics or breaks the
    state. *)
Theorem effects_behave st active id effect : service_ok st -> counted st -> ms_active st = Some active -> arguments effect ->
  exists st' r, execute_effect st id effect = Some (st', r) /\ outcome st id effect st' r /\ service_ok st'.
Proof.
  intros Hok Hc Hact Hargs. destruct effect; cbn [execute_effect arguments] in *.
  - apply read_effect_spec; tauto.
  - eapply write_effect_spec; [done|exact Hact|tauto..].
  - apply load_reserved_spec; tauto.
  - apply store_conditional_spec; tauto.
  - apply atomic_rmw_spec; tauto.
  - eexists _, _. split; [done|]. split; [by constructor|done].
  - eexists _, _. split; [done|]. split; [by constructor|done].
Qed.

(** ** Committing *)

(** The stores of a list, one after the other. *)
Definition puts_stores (s : AddressSpace) (f : loc -> Z) (l : list PendingStore) : loc -> Z :=
  fold_left (fun f p => puts f (locs_of (s_mappings s) (ps_address p) (Z.of_nat (length (ps_bytes p)))) (ps_bytes p)) l f.

Lemma puts_stores_ext s l : forall f g, (forall x, 0 <= x.2 -> f x = g x) -> forall x, 0 <= x.2 -> puts_stores s f l x = puts_stores s g l x.
Proof.
  induction l as [|p l IH]; intros f g H x Hx; [by apply H|]. cbn. apply IH; [|done]. intros y Hy.
  by apply (puts_ext (fun l => 0 <= l.2)).
Qed.

(** Orders handed out from [next] on. *)
Fixpoint numbered (next : Z) (ids : list RequestId) (orders : gmap RequestId Z) : gmap RequestId Z :=
  match ids with [] => orders | id :: ids => numbered (next + 1) ids (<[id := next]> orders) end.

Lemma numbered_other ids : forall next orders id, id ∉ ids -> numbered next ids orders !! id = orders !! id.
Proof.
  induction ids as [|x ids IH]; intros next orders id Hid; [done|]. cbn. apply not_elem_of_cons in Hid as [Hne Hid].
  rewrite IH by done. by rewrite lookup_insert_ne.
Qed.

Lemma numbered_lookup ids : NoDup ids -> forall next orders i id, ids !! i = Some id -> numbered next ids orders !! id = Some (next + Z.of_nat i).
Proof.
  induction 1 as [|x ids Hx Hnd IH]; intros next orders i id Hi; [done|]. cbn. destruct i as [|i]; cbn in Hi.
  - injection Hi as ->. rewrite numbered_other by done. rewrite lookup_insert_eq. f_equal. lia.
  - rewrite (IH (next + 1) _ i id Hi). f_equal. lia.
Qed.

Lemma write_stores_spec l : forall st, service_ok st -> Forall (store_ok (ms_space st)) l -> ms_order st + Z.of_nat (length l) <= u64_max ->
  exists st', write_stores st l = Some (st', Ok tt) /\ service_ok st' /\ same_shape (ms_memory st) (ms_memory st') /\
    (forall x, 0 <= x.2 -> byte_at (ms_memory st') x = puts_stores (ms_space st) (byte_at (ms_memory st)) l x) /\
    ms_space st' = ms_space st /\ ms_active st' = ms_active st /\ ms_last st' = ms_last st /\ ms_reservation st' = ms_reservation st /\
    ms_devices st' = ms_devices st /\ ms_order st' = ms_order st + Z.of_nat (length l) /\ ms_orders st' = numbered (ms_order st) (ps_id <$> l) (ms_orders st).
Proof.
  induction l as [|p l IH]; intros st Hok Hl Ho; cbn [write_stores].
  - exists st. cbn. repeat (split; [done|]). split; [lia|done].
  - apply Forall_cons_1 in Hl as [[Ha Hacc] Hl]. cbn [length] in Ho. unfold checked, or_trap.
    destruct (write_bytes st (ps_address p) (ps_bytes p) Hok Ha Hacc) as (m & -> & Hs). cbn [mbind option_bind].
    pose proof (ok_set_memory _ _ _ _ Hok Hs) as Hok1. destruct Hs as (Hg & Hsh & Hv). unfold take_memory_order, checked_add.
    cbn [set_memory ms_order]. rewrite (proj2 (Z.leb_le _ _)) by lia. cbn [mbind option_bind]. set (st1 := mkService _ _ _ _ _ _ _ _).
    destruct (IH st1) as (st2 & -> & Hok2 & Hsh2 & Hv2 & E1 & E2 & E3 & E4 & E5 & E6 & E7); [| |cbn; lia|].
    + destruct Hok1 as (A & B & C & D). split; [done|]. split; [done|]. split; [done|]. cbn. cbn in D. lia.
    + done.
    + exists st2. split; [done|]. split; [done|]. split; [by eapply same_shape_trans|]. split.
      * intros x Hx. rewrite Hv2 by done. cbn. by apply puts_stores_ext.
      * cbn in *. repeat (split; [done|]). split; [lia|done].
Qed.

Lemma validate_stores_spec mem s l : guest_ok mem s -> Forall (store_ok s) l -> validate_stores s l = Some (Ok tt).
Proof.
  intros Hg. induction 1 as [|p l [Ha Hacc] _ IH]; cbn [validate_stores]; [done|]. unfold or_trap, validate.
  destruct (access_spec mem s (ps_address p) (length (ps_bytes p)) Write WRITE Hg Ha eq_refl) as [(spans & -> & _)|(e & _ & He)]; [done|].
  by apply first_fault_excludes in He.
Qed.

(** The instruction [id] is active, unharmed, and the mappings are the ones it started with. *)
Definition committable (st : MemoryService) (id : Z) (a : PendingInstruction) : Prop :=
  ms_active st = Some a /\ pi_id a = id /\ pi_failed a = false /\ pi_generation a = s_generation (ms_space st).

Lemma commit_refused st id : (forall a, ~ committable st id a) -> commit_instruction st id = Some (st, Err (protocol_trap "commit identity is stale")).
Proof.
  intros H. unfold commit_instruction. destruct (ms_active st) as [a|] eqn:E; [|done]. destruct (_ && _) eqn:Eb; [|done].
  apply andb_prop in Eb as [Eb E3]. apply andb_prop in Eb as [E1 E2]. exfalso. apply (H a). split; [done|]. split; [lia|].
  split; [by apply negb_true_iff|lia].
Qed.

Lemma commit_succeeds st id a : service_ok st -> committable st id a -> ms_order st + Z.of_nat (length (pi_stores a)) <= u64_max ->
  exists st', commit_instruction st id = Some (st', Ok tt) /\ service_ok st' /\
    (forall x, 0 <= x.2 -> byte_at (ms_memory st') x = puts_stores (ms_space st) (byte_at (ms_memory st)) (pi_stores a) x) /\
    ms_active st' = None /\ ms_space st' = ms_space st /\ ms_devices st' = ms_devices st /\ ms_last st' = ms_last st /\
    ms_reservation st' = ms_reservation st /\ ms_order st' = ms_order st + Z.of_nat (length (pi_stores a)) /\
    ms_orders st' = numbered (ms_order st) (ps_id <$> pi_stores a) (ms_orders st).
Proof.
  intros Hok (Hact & Hid & Hf & Hg) Ho. pose proof Hok as (Hguest & _ & Ha & _). destruct (Ha a Hact) as (Hn & _ & Hs). specialize (Hs Hg).
  unfold commit_instruction. rewrite Hact, Hid, Hf, Hg, !Z.eqb_refl. cbn [negb andb]. unfold checked.
  rewrite (validate_stores_spec (ms_memory st)) by done. cbn [mbind option_bind]. set (drained := mkPending _ _ _ _ _).
  destruct (write_stores_spec (pi_stores a) (set_active (Some drained) st)) as (st1 & -> & Hok1 & _ & Hv & E1 & E2 & E3 & E4 & E5 & E6 & E7).
  - apply ok_set_active; [done|]. intros x [= <-]. split; [done|]. split; [cbn; lia|]. intros _. cbn. constructor.
  - done.
  - done.
  - cbn [step_bind mbind option_bind]. eexists. split; [done|]. split; [by apply ok_set_active|]. cbn in *. repeat (split; [done|]). done.
Qed.

(** C19: The staged stores of an instruction reach memory together or not at
    all: committing the active instruction, if no effect of it faulted and no
    mapping changed, stores every one of them in program order and gives them
    consecutive memory-order indices; any other commit is refused and changes
    nothing; aborting drops them. *)
Theorem commit_all_or_nothing st id : service_ok st ->
  (forall a, committable st id a -> ms_order st + Z.of_nat (length (pi_stores a)) <= u64_max ->
     exists st', commit_instruction st id = Some (st', Ok tt) /\ service_ok st' /\ ms_active st' = None /\
       (forall x, 0 <= x.2 -> byte_at (ms_memory st') x = puts_stores (ms_space st) (byte_at (ms_memory st)) (pi_stores a) x) /\
       (NoDup (ps_id <$> pi_stores a) -> forall i p, pi_stores a !! i = Some p -> effect_order st' (ps_id p) = Some (ms_order st + Z.of_nat i))) /\
  ((forall a, ~ committable st id a) -> commit_instruction st id = Some (st, Err (protocol_trap "commit identity is stale"))) /\
  (forall a, ms_active st = Some a -> pi_id a = id -> abort_instruction st id = (set_active None st, Ok tt)).
Proof.
  intros Hok. split; [|split].
  - intros a Hc Ho. destruct (commit_succeeds st id a Hok Hc Ho) as (st' & E & Hok' & Hv & Hact & _ & _ & _ & _ & _ & Hor).
    exists st'. repeat (split; [done|]). intros Hnd i p Hi. unfold effect_order. rewrite Hor. apply numbered_lookup; [done|].
    by rewrite list_lookup_fmap, Hi.
  - apply commit_refused.
  - intros a Hact Hid. unfold abort_instruction. by rewrite Hact, Hid, Z.eqb_refl.
Qed.

(** ** Sequences of operations *)

Inductive service_op :=
  | OpBegin (id : Z)
  | OpService (request : EffectRequest) (ready : bool)
  | OpCommit (id : Z)
  | OpAbort (id : Z)
  | OpUnmap (address size : Z)
  | OpMapDevice (address size value permissions : Z)
  | OpGuest (op : guest_op).

Definition service_words (op : service_op) : Prop :=
  match op with
  | OpService request _ => arguments (rq_effect request)
  | OpUnmap address size | OpMapDevice address size _ _ => is_word address /\ is_word size
  | OpGuest op => op_words op
  | OpBegin _ | OpCommit _ | OpAbort _ => True
  end.

(** One operation of a client, and the effects it made the service accept.
    [OpGuest] goes through [memory_and_space_mut]. *)
Definition run_service_op (st : MemoryService) (op : service_op) : option (MemoryService * list RequestId) :=
  match op with
  | OpBegin id => Some ((begin_instruction st id).1, [])
  | OpService request ready =>
      '(st, r) ← service st request ready;
      Some (st, match r with Ok (Some response) => [rs_id response] | _ => [] end)
  | OpCommit id => '(st, _) ← commit_instruction st id; Some (st, [])
  | OpAbort id => Some ((abort_instruction st id).1, [])
  | OpUnmap address size => '(st, _) ← service_unmap st address size; Some (st, [])
  | OpMapDevice address size value permissions => Some ((map_read_to_clear st address size value permissions).1, [])
  | OpGuest op => '(m, s) ← run_op (ms_memory st, ms_space st) op; Some (set_space s (set_memory m st), [])
  end.

Fixpoint run_service (st : MemoryService) (ops : list service_op) : option (MemoryService * list RequestId) :=
  match ops with
  | [] => Some (st, [])
  | op :: ops => '(st, ids) ← run_service_op st op; '(st, rest) ← run_service st ops; Some (st, ids ++ rest)
  end.

(** Requests in program order. *)
Definition id_lt (x y : RequestId) : Prop := x.1 < y.1 \/ x.1 = y.1 /\ x.2 < y.2.

(** [id] is before every effect the service can still accept. *)
Definition past (st : MemoryService) (id : RequestId) : Prop :=
  match ms_active st with
  | Some a => id_lt id (pi_id a, pi_next_sequence a)
  | None => exists last, ms_last st = Some last /\ id.1 <= last
  end.

Definition staged (st : MemoryService) : Z := match ms_active st with Some a => Z.of_nat (length (pi_stores a)) | None => 0 end.

(** After [k] operations: the counters are at most [k]. *)
Definition within (k : Z) (st : MemoryService) : Prop :=
  service_ok st /\ ms_order st + staged st <= k /\ Forall (fun d => 0 <= rc_reads d <= k) (ms_devices st) /\
  (forall a, ms_active st = Some a -> pi_next_sequence a <= k /\ ms_last st = Some (pi_id a)).

(** Nothing accepted by [st] is accepted again by [st']. *)
Definition advances (st st' : MemoryService) : Prop := forall id, past st id -> past st' id.

Lemma within_weaken k k' st : k <= k' -> within k st -> within k' st.
Proof.
  intros Hk (Hok & Ho & Hd & Ha). split; [done|]. split; [lia|]. split.
  - revert Hd. apply Forall_impl. lia.
  - intros a E. destruct (Ha a E). split; [lia|done].
Qed.

(** *** Changes of the guest *)

(** A guest change after which the state is still well formed: backings keep
    their sizes, and the mappings change with their generation. *)
Definition guest_change (m : Memory) (s : AddressSpace) (m' : Memory) (s' : AddressSpace) : Prop :=
  guest_ok m' s' /\ (forall id b, backings m !! id = Some b -> exists b', backings m' !! id = Some b' /\ b_size b' = b_size b) /\
  (s' = s \/ s_generation s < s_generation s').

Lemma replaced_change mem s address size permissions access s' r : replaced s address size permissions access s' r -> guest_ok mem s' ->
  guest_change mem s mem s'.
Proof.
  intros H Hg. split; [done|]. split; [intros id b E; by exists b|]. inversion H as [| | |s0 H1 H2 H3 (Hlt & E & _)]; subst; try (by left). right. lia.
Qed.

Lemma mapped_change mem s address size backing offset permissions s' r : mapped mem s address size backing offset permissions s' r ->
  guest_ok mem s' -> guest_change mem s mem s'.
Proof.
  intros H Hg. split; [done|]. split; [intros id b E; by exists b|]. inversion H as [| | | | | |b s0 H1 H2 H3 H4 H5 (Hlt & E & _)]; subst; try (by left).
  right. lia.
Qed.

Lemma create_change mem s size : guest_ok mem s -> is_word size -> guest_change mem s (create_backing mem size).1 s.
Proof.
  intros Hg Hz. split; [by apply create_backing_spec|]. split; [|by left]. intros id b E. exists b. split; [|done].
  unfold create_backing. destruct (_ =? _); [done|]. destruct (checked_add _ _) as [n|]; [|done]. cbn.
  rewrite lookup_insert_ne; [done|]. intros <-. destruct Hg as (_ & [_ Hm] & _). destruct (Hm _ _ E) as [? _]. lia.
Qed.

Lemma run_op_change mem s op : guest_ok mem s -> op_words op ->
  exists m' s', run_op (mem, s) op = Some (m', s') /\ guest_change mem s m' s'.
Proof.
  intros Hg Hw. destruct op; cbn [run_op op_words] in *.
  - eexists _, _. split; [done|]. by apply create_change.
  - destruct Hw as (? & ? & ?). destruct (mapped_spec mem s address size backing offset permissions Hg) as (s' & r & -> & Hm & ?); [done..|].
    eexists _, _. split; [done|]. by eapply mapped_change.
  - destruct Hw. destruct (replaced_spec mem s address size (Some permissions) Protect Hg) as (s' & r & E & Hr & ?); [done..|].
    unfold protect. rewrite E. eexists _, _. split; [done|]. by eapply replaced_change.
  - destruct Hw. destruct (replaced_spec mem s address size None Unmap Hg) as (s' & r & E & Hr & ?); [done..|].
    unfold unmap. rewrite E. eexists _, _. split; [done|]. by eapply replaced_change.
  - destruct (access_spec mem s address (length bytes) Write WRITE Hg Hw eq_refl) as [(spans & _ & Ha & _)|(e & E & _)].
    + destruct (write_shape mem s address bytes Hg Hw Ha) as (mem' & -> & Hg' & Hs & _). eexists _, _. split; [done|].
      split; [done|]. split; [intros id b; by apply same_shape_lookup|by left].
    + unfold write. rewrite E. eexists _, _. split; [done|]. split; [done|]. split; [intros id b Eb; by exists b|by left].
  - destruct (run_op_ok (mem, s) (AccessAt access address size) Hg Hw) as (g' & E & _). cbn [run_op] in E.
    destruct (copy_out _ _ _ _ _); [|done]. cbn in *. eexists _, _. split; [done|]. split; [done|]. split; [intros id b Eb; by exists b|by left].
Qed.

Lemma change_ok st m s : service_ok st -> guest_change (ms_memory st) (ms_space st) m s -> service_ok (set_space s (set_memory m st)).
Proof.
  intros (Hg & Hd & Ha & Ho) (Hg' & Hb & Hs). split; [done|]. split; [|split; [|done]].
  - cbn. revert Hd. apply Forall_impl. intros d (b & Eb & H8). destruct (Hb _ _ Eb) as (b' & Eb' & Es). exists b'. by rewrite Es.
  - cbn. intros a E. destruct (Ha a E) as (Hn & Hge & Hf). destruct Hs as [-> |Hlt]; [done|]. split; [done|]. split; [lia|]. intros; lia.
Qed.

Lemma change_within k st m s : within k st -> guest_change (ms_memory st) (ms_space st) m s -> within k (set_space s (set_memory m st)).
Proof. intros (Hok & Ho & Hd & Ha) Hc. split; [by apply change_ok|done]. Qed.

Lemma Forall_sub {A} (P : A -> Prop) (Q : A -> Prop) `{forall x, Decision (Q x)} l : Forall P l -> Forall P (base.filter Q l).
Proof. induction 1; [constructor|]. rewrite filter_cons. case_decide; [by constructor|done]. Qed.

Lemma prune_within k st : within k st -> within k (prune_read_to_clear st).
Proof.
  intros ((Hg & Hd & Ha & Ho) & Hw & Hr & Hs). split; [|split; [done|split; [|done]]].
  - split; [done|]. split; [|done]. cbn. by apply Forall_sub.
  - cbn. by apply Forall_sub.
Qed.

(** *** The operations *)

(** What one operation guarantees. *)
Definition progress (k : Z) (st : MemoryService) (o : option (MemoryService * list RequestId)) : Prop :=
  exists st' ids, o = Some (st', ids) /\ within (k + 1) st' /\ advances st st' /\
    (ids = [] \/ exists id, ids = [id] /\ past st' id /\ forall x, past st x -> id_lt x id).

Lemma quiet k st st' : within k st' -> advances st st' -> progress k st (Some (st', [])).
Proof. intros Hw Ha. exists st', []. split; [done|]. split; [by apply (within_weaken k); [lia|]|]. split; [done|]. by left. Qed.

Lemma advances_same st st' : ms_active st' = ms_active st -> ms_last st' = ms_last st -> advances st st'.
Proof. intros E1 E2 x. unfold past. by rewrite E1, E2. Qed.

Lemma unchanged k st : within k st -> progress k st (Some (st, [])).
Proof. intros Hw. by apply quiet; [|intros x Hx]. Qed.

Lemma begin_progress k st id : 0 <= k -> within k st -> progress k st (run_service_op st (OpBegin id)).
Proof.
  intros Hk Hw. cbn [run_service_op]. unfold begin_instruction. destruct (_ || _) eqn:E; cbn [fst]; [by apply unchanged|].
  apply orb_false_iff in E as [Ea%bool_decide_eq_false El]. apply eq_None_not_Some in Ea.
  destruct (prune_within k st Hw) as ((Hg & Hd & _ & Ho) & Hs & Hr & _). apply quiet.
  - split; [|split; [|split; [done|]]].
    + split; [done|]. split; [done|]. split; [|done]. cbn. intros a [= <-]. split; [unfold u64_max; cbn; lia|]. split; [done|]. intros _. cbn. constructor.
    + unfold staged in *. cbn in *. rewrite Ea in Hs. lia.
    + cbn. intros a [= <-]. cbn. done.
  - intros x Hx. unfold past in *. rewrite Ea in Hx. cbn. destruct Hx as (last & El' & Hx). rewrite El' in El. left. cbn. lia.
Qed.

Lemma commit_progress k st id : within k st -> k + 1 <= u64_max -> progress k st (run_service_op st (OpCommit id)).
Proof.
  intros Hw Hk. pose proof Hw as (Hok & Hs & Hr & Ha). cbn [run_service_op].
  destruct (ms_active st) as [a|] eqn:Eact.
  2:{ unfold commit_instruction. rewrite Eact. cbn [mbind option_bind]. by apply unchanged. }
  destruct (decide (pi_id a = id /\ pi_failed a = false /\ pi_generation a = s_generation (ms_space st))) as [Hc|Hc].
  - unfold staged in Hs. rewrite Eact in Hs.
    destruct (commit_succeeds st id a Hok) as (st' & -> & Hok' & _ & E1 & E2 & E3 & E4 & E5 & E6 & _); [done|lia|].
    cbn [mbind option_bind]. apply quiet.
    + split; [done|]. unfold staged. rewrite E1, E3, E6. split; [lia|]. split; [done|]. by intros.
    + intros x Hx. unfold past in *. rewrite Eact in Hx. rewrite E1, E4. destruct (Ha a eq_refl) as [_ Hl]. exists (pi_id a). split; [done|].
      destruct Hx as [Hx|[Hx _]]; cbn in Hx; lia.
  - rewrite commit_refused; [by apply unchanged|].
    + intros a' (E & ? & ? & ?). apply Hc. rewrite Eact in E. by injection E as <-.
Qed.

Lemma abort_progress k st id : within k st -> progress k st (run_service_op st (OpAbort id)).
Proof.
  intros Hw. pose proof Hw as (Hok & Hs & Hr & Ha). cbn [run_service_op]. unfold abort_instruction. destruct (ms_active st) as [a|] eqn:Eact; [|by apply unchanged].
  destruct (_ =? _); cbn [fst]; [|by apply unchanged]. apply quiet.
  - split; [by apply ok_set_active|]. split; [|split; [done|by intros]]. unfold staged in *. rewrite Eact in Hs. cbn. lia.
  - intros x Hx. unfold past in *. rewrite Eact in Hx. cbn. destruct (Ha a eq_refl) as [_ Hl]. exists (pi_id a). split; [done|].
    destruct Hx as [Hx|[Hx _]]; cbn in Hx; lia.
Qed.

Lemma unmap_progress k st address size : within k st -> is_word address -> is_word size -> progress k st (run_service_op st (OpUnmap address size)).
Proof.
  intros Hw Ha Hs. cbn [run_service_op]. unfold service_unmap, unmap. pose proof Hw as ((Hg & _) & _).
  destruct (replaced_spec (ms_memory st) (ms_space st) address size None Unmap Hg Ha Hs) as (s' & r & -> & Hr & Hg').
  cbn [mbind option_bind]. pose proof (change_within k st _ _ Hw (replaced_change _ _ _ _ _ _ _ _ Hr Hg')) as Hw'.
  replace (set_space s' (set_memory (ms_memory st) st)) with (set_space s' st) in Hw' by done.
  destruct (is_ok r); (apply quiet; [try apply prune_within; done|by apply advances_same]).
Qed.

Lemma device_progress k st address size value permissions : within k st -> 0 <= k -> is_word address -> is_word size ->
  progress k st (run_service_op st (OpMapDevice address size value permissions)).
Proof.
  intros Hw Hk Ha Hs. cbn [run_service_op]. unfold map_read_to_clear. pose proof (prune_within k st Hw) as Hw1. set (st1 := prune_read_to_clear st) in *.
  destruct ((size =? 0) || (8 <? size)) eqn:E8; cbn [fst]; [by apply quiet; [|apply advances_same]|].
  pose proof Hw1 as ((Hg & _) & _). pose proof (create_change (ms_memory st1) (ms_space st1) size Hg Hs) as Hc1.
  destruct (create_backing (ms_memory st1) size) as [m [backing|e]] eqn:Ec; cbn [fst] in Hc1.
  2:{ cbn [fst]. apply quiet; [|by apply advances_same]. by apply (change_within k st1 m (ms_space st1)). }
  pose proof (change_within k st1 m (ms_space st1) Hw1 Hc1) as Hw2.
  destruct (mapped_spec m (ms_space st1) address size backing 0 permissions (proj1 Hc1)) as (s & r & -> & Hm & Hg'); [done..|].
  pose proof (change_within k _ m s Hw2 (mapped_change _ _ _ _ _ _ _ _ _ Hm Hg')) as Hw3.
  destruct r as [[]|e]; cbn [fst]; [|by apply quiet; [|apply advances_same]].
  apply quiet; [|by apply advances_same]. destruct Hw3 as ((Hg3 & Hd3 & Ha3 & Ho3) & Hs3 & Hr3 & Hl3). cbn in *.
  split; [split; [done|]; split; [|done]|split; [done|split; [|done]]].
  - cbn. apply Forall_app. split; [done|]. constructor; [|constructor]. unfold create_backing in Ec.
    destruct (Z.eqb_spec size 0); [done|]. destruct (checked_add _ _) as [n'|]; [|done]. injection Ec as <- <-. eexists. cbn. rewrite lookup_insert_eq.
    split; [done|]. cbn. lia.
  - cbn. apply Forall_app. split; [done|]. constructor; [cbn; lia|constructor].
Qed.

(** What an effect leaves of the protocol's state. *)
Lemma outcome_frame st id effect st' r a : outcome st id effect st' r -> ms_active st = Some a ->
  ms_last st' = ms_last st /\ ms_order st' = ms_order st /\
  (exists a', ms_active st' = Some a' /\ pi_id a' = pi_id a /\ pi_next_sequence a' = pi_next_sequence a /\
     Z.of_nat (length (pi_stores a')) + (if is_ok r && linearizes_immediately effect then 1 else 0) <= Z.of_nat (length (pi_stores a)) + 1) /\
  (forall k, Forall (fun d => 0 <= rc_reads d <= k) (ms_devices st) -> Forall (fun d => 0 <= rc_reads d <= k + 1) (ms_devices st')).
Proof.
  intros H Hact. assert (forall k, Forall (fun d => 0 <= rc_reads d <= k) (ms_devices st) -> Forall (fun d => 0 <= rc_reads d <= k + 1) (ms_devices st)) as Hmono
    by (intros k; apply Forall_impl; lia).
  assert (exists a', Some a = Some a' /\ pi_id a' = pi_id a /\ pi_next_sequence a' = pi_next_sequence a /\
     Z.of_nat (length (pi_stores a')) + 1 <= Z.of_nat (length (pi_stores a)) + 1) as Hsame by (exists a; repeat (split; [done|]); lia).
  assert (exists a', Some a = Some a' /\ pi_id a' = pi_id a /\ pi_next_sequence a' = pi_next_sequence a /\
     Z.of_nat (length (pi_stores a')) + 0 <= Z.of_nat (length (pi_stores a)) + 1) as Hsame0 by (exists a; repeat (split; [done|]); lia).
  destruct H as [ | a0 n i p d Hacc Hdev Hd _ _| a0 bytes active Hram Hact'| | | | | | |effect e _]; cbn [is_ok linearizes_immediately andb];
    cbn [ms_last ms_order ms_active ms_devices set_devices set_active set_reservation set_memory]; rewrite ?Hact; try (repeat (split; [done|]); done).
  - split; [done|]. split; [done|]. split; [done|]. intros k Hf. apply Forall_insert; [by apply Hmono|]. cbn.
    rewrite Forall_lookup in Hf. specialize (Hf i d Hd). cbn in Hf. lia.
  - assert (active = a) as -> by congruence. split; [done|]. split; [done|]. split; [|done]. exists (push_store (mkStore id a0 bytes) a).
    split; [done|]. split; [done|]. split; [done|]. cbn. rewrite length_app. cbn. lia.
  - destruct effect; cbn [after_refusal ms_last ms_order ms_active ms_devices set_reservation]; rewrite ?Hact; done.
Qed.

Lemma service_progress k st request ready : 0 <= k -> within k st -> k + 1 <= u64_max -> arguments (rq_effect request) ->
  progress k st (run_service_op st (OpService request ready)).
Proof.
  intros Hk Hw Hk1 Hargs. pose proof Hw as (Hok & Hs & Hr & Ha). cbn [run_service_op]. unfold service, refusal.
  destruct (ms_active st) as [a|] eqn:Eact; [|by apply unchanged]. destruct (_ || _) eqn:Eid; [by apply unchanged|].
  destruct (pi_failed a); [by apply unchanged|]. destruct (negb (_ =? s_generation _)); [by apply unchanged|].
  destruct (negb _ && observing _); [by apply unchanged|]. destruct (negb ready); [by apply unchanged|].
  destruct (effects_behave st a (rq_id request) (rq_effect request) Hok) as (st1 & r & -> & Hout & Hok1); [|done|done|].
  { unfold counted. revert Hr. apply Forall_impl. lia. }
  cbn [mbind option_bind]. destruct (outcome_frame _ _ _ _ _ a Hout Eact) as (El & Eo & (a1 & Ea1 & Eid1 & En1 & Hst) & Hdev).
  destruct (Ha a eq_refl) as [Hn Hl]. unfold staged in Hs. rewrite Eact in Hs.
  set (took := is_ok r && linearizes_immediately (rq_effect request)) in *.
  assert (exists st2, (if took then take_memory_order st1 (rq_id request) else Some st1) = Some st2 /\ service_ok st2 /\
    ms_active st2 = Some a1 /\ ms_last st2 = ms_last st /\ ms_order st2 = ms_order st + (if took then 1 else 0) /\ ms_devices st2 = ms_devices st1)
    as (st2 & -> & Hok2 & Ea2 & El2 & Eo2 & Ed2).
  { destruct took; [|exists st1; repeat (split; [done|]); split; [lia|done]]. unfold take_memory_order, checked_add. rewrite (proj2 (Z.leb_le _ _)) by lia.
    eexists. split; [done|]. destruct Hok1 as (A & B & C & D). split; [split; [done|]; split; [done|]; split; [done|]; cbn; lia|].
    split; [done|]. split; [done|]. cbn. split; [lia|done]. }
  cbn [mbind option_bind]. rewrite Ea2. cbn [mbind option_bind]. unfold finish_effect, checked_add. rewrite En1, (proj2 (Z.leb_le _ _)) by lia.
  cbn [mbind option_bind]. eexists _, _. split; [done|]. pose proof Hok2 as (_ & _ & Hact2 & _). destruct (Hact2 a1 Ea2) as (Hn1 & Hg1 & Hf1).
  apply orb_false_iff in Eid as [Ei%negb_false_iff Es%negb_false_iff].
  split; [|split; [|right; eexists; split; [done|split]]].
  - split; [|split; [|split]].
    + apply ok_set_active; [done|]. intros x [= <-]. split; [cbn; lia|]. split; done.
    + unfold staged. cbn. rewrite Eo2. lia.
    + cbn. rewrite Ed2. by apply Hdev.
    + intros x [= <-]. cbn. rewrite El2, Hl, Eid1. split; [lia|done].
  - intros x Hx. unfold past in *. rewrite Eact in Hx. cbn. rewrite Eid1. unfold id_lt in *. cbn in *. lia.
  - unfold past. cbn. rewrite Eid1. unfold id_lt. cbn. right. lia.
  - intros x Hx. unfold past in Hx. rewrite Eact in Hx. unfold id_lt in *. cbn in *. lia.
Qed.

Lemma op_progress k st op : 0 <= k -> within k st -> k + 1 <= u64_max -> service_words op -> progress k st (run_service_op st op).
Proof.
  intros Hk Hw Hk1 Hop. destruct op; cbn [service_words] in Hop.
  - by apply begin_progress.
  - by apply service_progress.
  - by apply commit_progress.
  - by apply abort_progress.
  - destruct Hop. by apply unmap_progress.
  - destruct Hop. by apply device_progress.
  - cbn [run_service_op]. destruct (run_op_change (ms_memory st) (ms_space st) op (proj1 (proj1 Hw)) Hop) as (m & s & -> & Hc).
    cbn [mbind option_bind]. apply quiet; [by apply change_within|by apply advances_same].
Qed.

Lemma run_service_progress ops : Forall service_words ops -> forall k st, 0 <= k -> within k st -> k + Z.of_nat (length ops) <= u64_max ->
  exists st' ids, run_service st ops = Some (st', ids) /\ service_ok st' /\ StronglySorted id_lt ids /\
    forall x y, past st x -> y ∈ ids -> id_lt x y.
Proof.
  induction 1 as [|op ops Hop _ IH]; intros k st Hk Hw Hl; cbn [run_service length] in *.
  - exists st, []. split; [done|]. split; [by destruct Hw|]. split; [constructor|]. intros x y _ Hy. by apply elem_of_nil in Hy.
  - destruct (op_progress k st op Hk Hw ltac:(lia) Hop) as (st1 & ids & -> & Hw1 & Hadv & Hids). cbn [mbind option_bind].
    destruct (IH (k + 1) st1 ltac:(lia) Hw1 ltac:(lia)) as (st2 & rest & -> & Hok & Hsort & Hpast). cbn [mbind option_bind].
    exists st2, (ids ++ rest). split; [done|]. split; [done|]. destruct Hids as [-> |(id & -> & Hid & Hlt)]; cbn [app].
    + split; [done|]. intros x y Hx. apply Hpast. by apply Hadv.
    + split.
      * constructor; [done|]. apply Stdlib.Lists.List.Forall_forall. intros y Hy%list_elem_of_In. by apply Hpast.
      * intros x y Hx Hy. apply elem_of_cons in Hy as [-> |Hy]; [by apply Hlt|]. apply (Hpast x y); [by apply Hadv|done].
Qed.

(** C20: Whatever a client does with a new service, in any order, nothing
    panics and the state stays well formed: fewer than 2^64 operations, no
    access to the last seven bytes of the address space and no atomic of size
    zero. Each effect is accepted once, in program order: the identities
    accepted over the whole run increase. *)
Theorem service_accepts_in_order id s next ops : new_space id = Some (s, next) -> Forall service_words ops ->
  Z.of_nat (length ops) <= u64_max ->
  exists st ids, run_service (new_service s) ops = Some (st, ids) /\ service_ok st /\ StronglySorted id_lt ids.
Proof.
  intros Hs Hops Hl. destruct (run_service_progress ops Hops 0 (new_service s)) as (st & ids & E & Hok & Hsort & _); [done| |lia|by exists st, ids].
  split; [|split; [done|split; [constructor|done]]]. split; [by eapply guest_initial|]. split; [constructor|]. split; [done|].
  unfold u64_max. cbn. lia.
Qed.

(** ** Witnesses *)

#[local] Instance is_word_decision x : Decision (is_word x).
Proof. unfold is_word. apply _. Defined.
#[local] Instance arguments_dec effect : Decision (arguments effect).
Proof. destruct effect; cbn; apply _. Defined.
#[local] Instance guest_words_dec op : Decision (op_words op).
Proof. destruct op; cbn; apply _. Defined.
#[local] Instance service_words_dec op : Decision (service_words op).
Proof. destruct op; cbn; apply _. Defined.

(** Two pages of memory, a device of eight bytes, and an instruction with two
    overlapping staged stores. *)
Definition service_demo : list service_op :=
  [OpGuest (Create 8192); OpGuest (MapAt 4096 8192 1 0 READ_WRITE); OpMapDevice 65536 8 1027 READ; OpBegin 3;
   OpService (mkRequest (3, 0) 0 (EffWrite 4100 [1; 2; 3; 4])) true;
   OpService (mkRequest (3, 1) 0 (EffWrite 4102 [9; 8])) true].
Definition idle_service : MemoryService := default (new_service demo_start) (fst <$> run_service (new_service demo_start) (take 4 service_demo)).
Definition staged_service : MemoryService := default (new_service demo_start) (fst <$> run_service (new_service demo_start) service_demo).

Lemma service_demo_ok n : service_ok (default (new_service demo_start) (fst <$> run_service (new_service demo_start) (take n service_demo))).
Proof.
  destruct (run_service_progress (take n service_demo)) with (k := 0) (st := new_service demo_start) as (st & ids & -> & Hok & _); [| | | |done].
  - apply Forall_take. by_evaluation.
  - done.
  - split; [|split; [done|split; [constructor|done]]]. split; [by apply (guest_initial 1 _ 2)|]. split; [constructor|]. split; [done|].
    unfold u64_max. cbn. lia.
  - rewrite length_take. unfold u64_max. cbn. lia.
Qed.

Lemma effects_behave_witness : exists st', execute_effect idle_service (3, 0) (EffRead 65538 1) = Some (st', Ok (Word 0)) /\
  service_ok st' /\ read_to_clear_value st' 65536 = Some 0.
Proof.
  destruct (effects_behave idle_service (mkPending 3 0 [] false 2) (3, 0) (EffRead 65538 1) (service_demo_ok 4)) as (st' & r & E & _ & Hok);
    [unfold counted; by_evaluation|vm_compute; reflexivity|by_evaluation|].
  exists st'. assert (run : (fun x => (x.2, read_to_clear_value x.1 65536)) <$> execute_effect idle_service (3, 0) (EffRead 65538 1) = Some (Ok (Word 0), Some 0))
    by (vm_compute; reflexivity).
  rewrite E in run. cbn in run. injection run as -> run. split; [exact E|]. split; [exact Hok|exact run].
Defined.

Lemma commit_all_or_nothing_witness : exists st', commit_instruction staged_service 3 = Some (st', Ok tt) /\
  read (ms_memory st') (ms_space st') 4100 (replicate 4 0) = Some (Ok [1; 2; 9; 8]) /\ effect_order st' (3, 1) = Some 1.
Proof.
  destruct (commit_all_or_nothing staged_service 3 (service_demo_ok 6)) as (Hcommit & _).
  destruct (Hcommit (mkPending 3 2 [mkStore (3, 0) 4100 [1; 2; 3; 4]; mkStore (3, 1) 4102 [9; 8]] false 2)) as (st' & E & _).
  - repeat split; vm_compute; reflexivity.
  - apply Z.leb_le. vm_compute. reflexivity.
  - exists st'. assert (run : (fun x => (read (ms_memory x.1) (ms_space x.1) 4100 (replicate 4 0), effect_order x.1 (3, 1))) <$> commit_instruction staged_service 3
      = Some (Some (Ok [1; 2; 9; 8]), Some 1)) by (vm_compute; reflexivity).
    rewrite E in run. cbn [fmap option_fmap option_map fst] in run. injection run as run1 run2. split; [exact E|]. split; [exact run1|exact run2].
Defined.

Lemma service_accepts_in_order_witness : exists st ids, run_service (new_service demo_start) service_demo = Some (st, ids) /\ service_ok st /\
  StronglySorted id_lt ids.
Proof. apply (service_accepts_in_order 1 demo_start 2 service_demo); [reflexivity|by_evaluation|apply Z.leb_le; vm_compute; reflexivity]. Defined.

(** *** The two panics outside those bounds *)

(** An atomic operation of size zero passes every check and then asks for an
    integer of width zero. *)
Example atomic_of_size_zero_panics : execute_effect idle_service (3, 0) (EffAtomicRmw AmoAdd 4096 0 1 Relaxed) = None.
Proof. vm_compute. reflexivity. Qed.

(** A device at the end of the address space, split by [protect]: the offset of
    a byte is computed as [backing_offset + address - start], whose sum leaves
    the word. *)
Example device_offset_overflows :
  (st ← fst <$> run_service (new_service demo_start) [OpMapDevice (2 ^ 64 - 9) 8 7 READ; OpGuest (ProtectAt (2 ^ 64 - 5) 4 READ); OpBegin 1];
   Some (is_ok (default (Ok tt) (validate (ms_space st) (2 ^ 64 - 4) 1 Read)), read_effect st (2 ^ 64 - 4) 1)) = Some (true, None).
Proof. vm_compute. reflexivity. Qed.
