(* ===== verification/ObjFile.v ===== *)
(** * Object files ([core/src/backend/binary/mod.rs])

    A relocatable object in format-neutral form: what the object writer builds,
    the ELF writer serialises and the JIT loader loads. Machine integers are
    [Z]; the little-endian bytes of an integer are [le_bytes], the integer of
    some bytes [le_value]. *)
From Stdlib Require Import String.
From S2P Require Import Prelude Words.
From stdpp Require Import strings.
#[local] Open Scope Z_scope.
#[local] Open Scope list_scope.

Inductive SectionKind := Text | ReadOnlyData | Data | UninitializedData.
#[export] Instance SectionKind_eq_dec : EqDecision SectionKind.
Proof. solve_decision. Defined.
Inductive SymBinding := Local | Global.
#[export] Instance SymBinding_eq_dec : EqDecision SymBinding.
Proof. solve_decision. Defined.
Inductive SymKind := NoType | Func | Object.
#[export] Instance SymKind_eq_dec : EqDecision SymKind.
Proof. solve_decision. Defined.

Record ObjReloc := mkReloc { r_offset : Z; r_symbol : string; r_type : Z; r_addend : Z }.
Record ObjSection := mkSection {
  o_name : string; o_kind : SectionKind; o_align : Z; o_data : list Z; o_relocs : list ObjReloc;
  o_spans : list (Z * Z) }.
Record ObjSymbol := mkSymbol {
  y_name : string; y_section : option nat; y_value : Z; y_size : Z; y_binding : SymBinding; y_kind : SymKind }.
Record ObjectFile := mkObject { o_sections : list ObjSection; o_symbols : list ObjSymbol }.

(** ** The target's object format ([core/src/backend/binary/format.rs]) *)

Inductive ElfClass := Elf32 | Elf64.
#[export] Instance ElfClass_eq_dec : EqDecision ElfClass.
Proof. solve_decision. Defined.

Record RelocKind := mkRelocKind { k_type : Z; k_addend : Z; k_field_offset : Z }.

Record ObjectFormatInfo := mkFormat {
  elf_machine : Z; elf_class : ElfClass; elf_flags : Z;
  reloc_for : string -> option RelocKind; absolute_reloc : Z -> option Z;
  pc_rel_scale : string -> Z; pc_rel_from_end : string -> bool }.

Definition EM_RISCV : Z := 243.
Definition EM_AARCH64 : Z := 183.
Definition EM_X86_64 : Z := 62.

(** ** Little-endian bytes *)

(** The first [n] bytes of [to_le_bytes]. *)
Definition le_bytes (n : nat) (v : Z) : list Z := (fun i => Z.land (Z.shiftr v (8 * i)) 255) <$> seqZ 0 (Z.of_nat n).
(** [from_le_bytes]. *)
Fixpoint le_value (bytes : list Z) : Z := match bytes with [] => 0 | b :: bytes => b + 256 * le_value bytes end.

Definition bytes_ok (l : list Z) : Prop := Forall (fun b => 0 <= b < 256) l.

Lemma byte_shift v i : Z.land (Z.shiftr v (8 * i)) 255 = Z.shiftr v (8 * i) mod 256.
Proof. change 255 with (Z.ones 8). by rewrite Z.land_ones by lia. Qed.

Lemma le_value_bytes v n : forall i, 0 <= i ->
  le_value ((fun j => Z.land (Z.shiftr v (8 * j)) 255) <$> seqZ i (Z.of_nat n)) = Z.shiftr v (8 * i) mod 2 ^ (8 * Z.of_nat n).
Proof.
  induction n as [|n IH]; intros i Hi.
  - change (Z.of_nat 0) with 0. by rewrite seqZ_nil, Z.mod_1_r by lia.
  - rewrite seqZ_cons by lia. cbn [fmap list_fmap le_value]. rewrite byte_shift.
    replace (Z.pred (Z.of_nat (S n))) with (Z.of_nat n) by lia. unfold fmap in IH. rewrite IH by lia.
    replace (8 * Z.of_nat (S n)) with (8 + 8 * Z.of_nat n) by lia. rewrite Z.pow_add_r, Z.rem_mul_r by (try apply pow2_pos; lia).
    rewrite <- Z.shiftr_div_pow2, Z.shiftr_shiftr by lia. by replace (8 * i + 8) with (8 * Z.succ i) by lia.
Qed.

Lemma length_le_bytes n v : length (le_bytes n v) = n.
Proof. unfold le_bytes. rewrite length_fmap, length_seqZ. lia. Qed.

Lemma le_value_le_bytes n v : le_value (le_bytes n v) = v mod 2 ^ (8 * Z.of_nat n).
Proof. unfold le_bytes. by rewrite le_value_bytes, Z.shiftr_0_r by lia. Qed.

Lemma le_bytes_ok n v : bytes_ok (le_bytes n v).
Proof. apply Forall_fmap, Forall_true. intros i. cbn [compose]. rewrite byte_shift. apply Z.mod_pos_bound. lia. Qed.

Lemma le_value_bounds l : bytes_ok l -> 0 <= le_value l < 2 ^ (8 * Z.of_nat (length l)).
Proof.
  induction 1 as [|b l Hb Hl IH]; [done|]. cbn [le_value length].
  replace (8 * Z.of_nat (S (length l))) with (8 + 8 * Z.of_nat (length l)) by lia. rewrite Z.pow_add_r by lia. lia.
Qed.

Lemma le_bytes_mod n v : le_bytes n (v mod 2 ^ (8 * Z.of_nat n)) = le_bytes n v.
Proof.
  unfold le_bytes. apply list_fmap_ext. intros k x Hx. apply lookup_seqZ in Hx as [-> Hk].
  apply Z.bits_inj'. intros i Hi. rewrite !Z.land_spec, !Z.shiftr_spec, Z.testbit_mod_pow2 by lia.
  destruct (Z.ltb_spec i 8).
  - by rewrite (proj2 (Z.ltb_lt _ _)) by lia.
  - by rewrite (bounded_testbit 255 8), !andb_false_r by lia.
Qed.

Lemma le_bytes_S n v : le_bytes (S n) v = Z.land v 255 :: le_bytes n (Z.shiftr v 8).
Proof.
  unfold le_bytes. rewrite seqZ_cons by lia. cbn [fmap list_fmap]. f_equal.
  replace (Z.pred (Z.of_nat (S n))) with (Z.of_nat n) by lia.
  change (Z.succ 0) with (1 + 0). rewrite <- (fmap_add_seqZ 1 0), <- list_fmap_compose. apply list_fmap_ext. intros k x Hx. apply lookup_seqZ in Hx as [-> Hk].
  cbn [compose]. rewrite Z.shiftr_shiftr by lia. do 2 f_equal. lia.
Qed.

Lemma le_bytes_value l : bytes_ok l -> le_bytes (length l) (le_value l) = l.
Proof.
  induction 1 as [|b l Hb Hl IH]; [done|]. cbn [length le_value]. rewrite le_bytes_S.
  change 255 with (Z.ones 8). rewrite Z.land_ones, Z.shiftr_div_pow2 by lia.
  change (2 ^ 8) with 256. rewrite (Z.mul_comm 256), Z.mod_add, Z.div_add, Z.mod_small, Z.div_small, Z.add_0_l by lia. by rewrite IH.
Qed.
