(* ===== verification/Elf.v ===== *)
(** * ELF objects ([core/src/backend/binary/elf.rs], [elf_read.rs])

    [write_elf] serialises an object file as a relocatable ELF file, [parse_elf]
    reads one back into its sections, symbols and relocations. A Rust string is
    the string of its UTF-8 bytes; [usize] and [u64] are [Z], positions in the
    output [nat]. The outer [option] is a panic; reading errors are
    [ElfReadError]. The index of each relocation section, which [write_elf]
    collects and never reads, is left out, and so is the capacity it reserves. *)
From Stdlib Require Import String Ascii.
From S2P Require Import Prelude Words ObjFile.
From stdpp Require Import strings pretty.
#[local] Open Scope Z_scope.
#[local] Open Scope list_scope.

(** ** Constants *)

Definition ET_REL : Z := 1.
Definition SHT_PROGBITS : Z := 1.
Definition SHT_SYMTAB : Z := 2.
Definition SHT_STRTAB : Z := 3.
Definition SHT_RELA : Z := 4.
Definition SHT_NOBITS : Z := 8.
Definition SHF_WRITE : Z := 1.
Definition SHF_ALLOC : Z := 2.
Definition SHF_EXECINSTR : Z := 4.
Definition STB_LOCAL : Z := 0.
Definition STB_GLOBAL : Z := 1.
Definition STT_NOTYPE : Z := 0.
Definition STT_OBJECT : Z := 1.
Definition STT_FUNC : Z := 2.
Definition SHN_UNDEF : Z := 0.

(** ** Strings and bytes *)

Definition str_bytes (s : string) : list Z := (fun c => Z.of_N (N_of_ascii c)) <$> list_ascii_of_string s.
Definition bytes_str (l : list Z) : string := string_of_list_ascii ((fun b => ascii_of_N (Z.to_N b)) <$> l).

Definition in_class (lo hi : Z) (b : option Z) : bool := match b with Some b => (lo <=? b) && (b <=? hi) | None => false end.
Definition continuation (b : option Z) : bool := in_class 0x80 0xBF b.

(** The first character of some bytes: how many bytes it takes, and whether they
    are one (the loop of [core::str::lossy::Utf8Chunks]). *)
Definition utf8_char (l : list Z) : nat * bool :=
  let b := l !! 0%nat in
  if in_class 0 0x7F b then (1%nat, true)
  else if in_class 0xC2 0xDF b then if continuation (l !! 1%nat) then (2%nat, true) else (1%nat, false)
  else if in_class 0xE0 0xEF b then
    let second := if in_class 0xE0 0xE0 b then in_class 0xA0 0xBF (l !! 1%nat)
                  else if in_class 0xED 0xED b then in_class 0x80 0x9F (l !! 1%nat) else continuation (l !! 1%nat) in
    if negb second then (1%nat, false) else if continuation (l !! 2%nat) then (3%nat, true) else (2%nat, false)
  else if in_class 0xF0 0xF4 b then
    let second := if in_class 0xF0 0xF0 b then in_class 0x90 0xBF (l !! 1%nat)
                  else if in_class 0xF4 0xF4 b then in_class 0x80 0x8F (l !! 1%nat) else continuation (l !! 1%nat) in
    if negb second then (1%nat, false) else if negb (continuation (l !! 2%nat)) then (2%nat, false)
    else if continuation (l !! 3%nat) then (4%nat, true) else (3%nat, false)
  else (1%nat, false).

Fixpoint lossy (fuel : nat) (l : list Z) : list Z :=
  match fuel, l with
  | S fuel, _ :: _ =>
      let '(n, ok) := utf8_char l in (if ok : bool then take n l else [0xEF; 0xBF; 0xBD]) ++ lossy fuel (drop n l)
  | _, _ => []
  end.
Definition from_utf8_lossy (l : list Z) : string := bytes_str (lossy (length l) l).

(** ** The writer *)

Definition inc_u32 (a : Z) : option Z := if a + 1 <? 2 ^ 32 then Some (a + 1) else None.
Definition as_u32 (v : Z) : Z := v mod 2 ^ 32.
Definition as_u16 (v : Z) : Z := v mod 2 ^ 16.

(** [Enc::addr]. *)
Definition addr (class : ElfClass) (v : Z) : list Z := match class with Elf32 => le_bytes 4 v | Elf64 => le_bytes 8 v end.

Record OutSection := mkOut {
  s_name : string; s_type : Z; s_flags : Z; s_link : Z; s_info : Z; s_addralign : Z; s_entsize : Z; s_data : list Z }.

Record StrTab := mkStrTab { t_data : list Z; t_offsets : gmap string Z }.
Definition strtab_new : StrTab := mkStrTab [0] ∅.
Definition intern (t : StrTab) (s : string) : StrTab * Z :=
  match t_offsets t !! s with
  | Some off => (t, off)
  | None =>
      let off := as_u32 (Z.of_nat (length (t_data t))) in
      (mkStrTab (t_data t ++ str_bytes s ++ [0]) (<[s := off]> (t_offsets t)), off)
  end.

Definition sym_entry (class : ElfClass) (name info shndx value size : Z) : list Z :=
  le_bytes 4 name ++
  match class with
  | Elf32 => le_bytes 4 value ++ le_bytes 4 size ++ [info] ++ [0] ++ le_bytes 2 shndx
  | Elf64 => [info] ++ [0] ++ le_bytes 2 shndx ++ le_bytes 8 value ++ le_bytes 8 size
  end.

Definition sym_bind (sym : ObjSymbol) : Z := match y_binding sym with Local => STB_LOCAL | Global => STB_GLOBAL end.
Definition sym_type (sym : ObjSymbol) : Z := match y_kind sym with NoType => STT_NOTYPE | Func => STT_FUNC | Object => STT_OBJECT end.
Definition sym_info (sym : ObjSymbol) : Z := Z.lor (Z.shiftl (sym_bind sym) 4) (sym_type sym).

(** The ELF index of each section of the object, and the next free index. *)
Fixpoint index_sections (sections : list ObjSection) (next : Z) : option (list Z * Z) :=
  match sections with
  | [] => Some ([], next)
  | section :: sections =>
      n ← inc_u32 next;
      n ← (match o_relocs section with [] => Some n | _ :: _ => inc_u32 n end);
      '(index, last) ← index_sections sections n;
      Some (next :: index, last)
  end.

(** [sort_by_key] on whether a symbol is global, a stable sort. *)
Definition sym_order (symbols : list ObjSymbol) : list ObjSymbol :=
  base.filter (fun s => y_binding s = Local) symbols ++ base.filter (fun s => y_binding s = Global) symbols.

Definition undefined_symbol (name : string) : ObjSymbol := mkSymbol name None 0 0 Global NoType.
Fixpoint undefined_from (relocs : list ObjReloc) (seen : list string) : list ObjSymbol :=
  match relocs with
  | [] => []
  | reloc :: relocs =>
      if bool_decide (r_symbol reloc ∈ seen) then undefined_from relocs seen
      else undefined_symbol (r_symbol reloc) :: undefined_from relocs (seen ++ [r_symbol reloc])
  end.
Definition all_syms (obj : ObjectFile) : list ObjSymbol :=
  let order := sym_order (o_symbols obj) in
  order ++ undefined_from (concat (o_relocs <$> o_sections obj)) (y_name <$> order).

Fixpoint write_symbols (class : ElfClass) (section_index : list Z) (syms : list ObjSymbol) (i : Z) (strtab : StrTab)
    (sym_index : gmap string Z) (data : list Z) : option (StrTab * gmap string Z * list Z) :=
  match syms with
  | [] => Some (strtab, sym_index, data)
  | sym :: syms =>
      let '(strtab, name) := intern strtab (y_name sym) in
      shndx ← (match y_section sym with Some s => index ← section_index !! s; Some (as_u16 index) | None => Some SHN_UNDEF end);
      n ← inc_u32 (as_u32 i);
      write_symbols class section_index syms (i + 1) strtab (<[y_name sym := n]> sym_index)
        (data ++ sym_entry class name (sym_info sym) shndx (y_value sym) (y_size sym))
  end.

Definition rela_entry (class : ElfClass) (sym_index : gmap string Z) (reloc : ObjReloc) : list Z :=
  let sym := default 0 (sym_index !! r_symbol reloc) in
  addr class (r_offset reloc) ++
  match class with
  | Elf32 => le_bytes 4 (Z.lor (as_u32 (Z.shiftl sym 8)) (Z.land (r_type reloc) 0xFF)) ++ le_bytes 4 (as_u32 (r_addend reloc))
  | Elf64 => le_bytes 8 (Z.lor (wrap64 (Z.shiftl sym 32)) (r_type reloc)) ++ le_bytes 8 (wrap64 (r_addend reloc))
  end.

Definition sym_entsize (class : ElfClass) : Z := match class with Elf32 => 16 | Elf64 => 24 end.
Definition rela_entsize (class : ElfClass) : Z := match class with Elf32 => 12 | Elf64 => 24 end.
Definition word_align (class : ElfClass) : Z := match class with Elf32 => 4 | Elf64 => 8 end.

Definition section_header (kind : SectionKind) : Z * Z :=
  match kind with
  | Text => (SHT_PROGBITS, Z.lor SHF_ALLOC SHF_EXECINSTR)
  | ReadOnlyData => (SHT_PROGBITS, SHF_ALLOC)
  | Data => (SHT_PROGBITS, Z.lor SHF_WRITE SHF_ALLOC)
  | UninitializedData => (SHT_NOBITS, Z.lor SHF_WRITE SHF_ALLOC)
  end.

(** The sections of the object and their relocation sections. *)
Definition out_sections (class : ElfClass) (symtab_index : Z) (sym_index : gmap string Z) (section : ObjSection) (index : Z) : list OutSection :=
  let '(sh_type, sh_flags) := section_header (o_kind section) in
  mkOut (o_name section) sh_type sh_flags 0 0 (o_align section) 0 (o_data section) ::
  match o_relocs section with
  | [] => []
  | relocs => [mkOut (".rela" +:+ o_name section) SHT_RELA 0 symtab_index index (word_align class) (rela_entsize class)
                 (concat (rela_entry class sym_index <$> relocs))]
  end.

Definition symtab_section (class : ElfClass) (strtab_index first_global : Z) (data : list Z) : OutSection :=
  mkOut ".symtab" SHT_SYMTAB 0 strtab_index first_global (word_align class) (sym_entsize class) data.
Definition strtab_section (name : string) (data : list Z) : OutSection := mkOut name SHT_STRTAB 0 0 0 1 0 data.

Fixpoint intern_all (t : StrTab) (names : list string) : StrTab * list Z :=
  match names with
  | [] => (t, [])
  | name :: names => let '(t, off) := intern t name in let '(t, offs) := intern_all t names in (t, off :: offs)
  end.

(** [pos.div_ceil(align) * align] in [u64]. *)
Definition align_to (pos align : Z) : option Z :=
  let v := (pos + align - 1) / align * align in if v <=? u64_max then Some v else None.

Fixpoint layout (sections : list OutSection) (pos : Z) : option (list Z * Z) :=
  match sections with
  | [] => Some ([], pos)
  | section :: sections =>
      off ← align_to pos (Z.max (s_addralign section) 1);
      next ← (if s_type section =? SHT_NOBITS then Some off else checked_add off (Z.of_nat (length (s_data section))));
      '(offsets, last) ← layout sections next;
      Some (off :: offsets, last)
  end.

Definition resize (l : list Z) (n : nat) : list Z := take n l ++ replicate (n - length l) 0.

Definition elf_header (class : ElfClass) (fmt : ObjectFormatInfo) (shoff ehsize shentsize shnum shstrndx : Z) : list Z :=
  [0x7F; 0x45; 0x4C; 0x46] ++ [match class with Elf32 => 1 | Elf64 => 2 end] ++ [1] ++ [1] ++ replicate 9 0 ++
  le_bytes 2 ET_REL ++ le_bytes 2 (elf_machine fmt) ++ le_bytes 4 1 ++ addr class 0 ++ addr class 0 ++ addr class shoff ++
  le_bytes 4 (elf_flags fmt) ++ le_bytes 2 ehsize ++ le_bytes 2 0 ++ le_bytes 2 0 ++ le_bytes 2 shentsize ++ le_bytes 2 shnum ++ le_bytes 2 shstrndx.

Fixpoint write_bodies (out : list Z) (sections : list (OutSection * Z)) : list Z :=
  match sections with
  | [] => out
  | (section, offset) :: sections =>
      let out := resize out (Z.to_nat offset) in
      write_bodies (if s_type section =? SHT_NOBITS then out else out ++ s_data section) sections
  end.

Definition header_entry (class : ElfClass) (section : OutSection) (offset name : Z) : list Z :=
  le_bytes 4 name ++ le_bytes 4 (s_type section) ++ addr class (s_flags section) ++ addr class 0 ++ addr class offset ++
  addr class (Z.of_nat (length (s_data section))) ++ le_bytes 4 (s_link section) ++ le_bytes 4 (s_info section) ++
  addr class (s_addralign section) ++ addr class (s_entsize section).

Definition ehsize_of (class : ElfClass) : Z := match class with Elf32 => 52 | Elf64 => 64 end.
Definition shentsize_of (class : ElfClass) : Z := match class with Elf32 => 40 | Elf64 => 64 end.

(** The sections [write_elf] builds, with the offsets of their names, and the index
    of the last of them. *)
Definition build_sections (obj : ObjectFile) (class : ElfClass) : option (list OutSection * list Z * Z) :=
  '(section_index, symtab_index) ← index_sections (o_sections obj) 1;
  strtab_index ← inc_u32 symtab_index;
  shstrtab_index ← inc_u32 strtab_index;
  let order := sym_order (o_symbols obj) in
  first_global ← inc_u32 (as_u32 (Z.of_nat (length (base.filter (fun s => y_binding s = Local) order))));
  '(strtab, sym_index, symtab) ← write_symbols class section_index (all_syms obj) 0 strtab_new ∅ (sym_entry class 0 0 SHN_UNDEF 0 0);
  let sections := concat (zip_with (out_sections class symtab_index sym_index) (o_sections obj) section_index) ++
    [symtab_section class strtab_index first_global symtab; strtab_section ".strtab" (t_data strtab)] in
  let '(shstrtab, names) := intern_all strtab_new (s_name <$> sections) in
  let '(shstrtab, name) := intern shstrtab ".shstrtab" in
  Some (sections ++ [strtab_section ".shstrtab" (t_data shstrtab)], names ++ [name], shstrtab_index).

Definition write_elf (obj : ObjectFile) (fmt : ObjectFormatInfo) : option (list Z) :=
  let class := elf_class fmt in
  '(sections, names, shstrtab_index) ← build_sections obj class;
  '(offsets, pos) ← layout sections (ehsize_of class);
  shoff ← align_to pos 8;
  shnum ← (let n := as_u16 (Z.of_nat (length sections)) in if n + 1 <? 2 ^ 16 then Some (n + 1) else None);
  let out := elf_header class fmt shoff (ehsize_of class) (shentsize_of class) shnum (as_u16 shstrtab_index) in
  let out := resize (write_bodies out (zip sections offsets)) (Z.to_nat shoff) in
  Some (out ++ replicate (Z.to_nat (shentsize_of class)) 0 ++
    concat (zip_with (fun so name => header_entry class so.1 so.2 name) (zip sections offsets) names)).

(** ** The reader *)

Inductive ElfReadError := NotAnElf | UnsupportedEncoding (what : string) | Truncated (what : string).

Record ElfSection := mkElfSection {
  f_name : string; f_type : Z; f_flags : Z; f_size : Z; f_addralign : Z; f_link : Z; f_info : Z; f_data : list Z }.
Record ElfSymbol := mkElfSymbol {
  m_name : string; m_value : Z; m_size : Z; m_binding : Z; m_type : Z; m_section : option string }.
Record ElfRela := mkElfRela { v_section : string; v_offset : Z; v_symbol : string; v_type : Z; v_addend : Z }.
Record ElfFile := mkElfFile {
  elf_file_class : ElfClass; etype : Z; machine : Z; file_flags : Z;
  sections : list ElfSection; symbols : list ElfSymbol; relocations : list ElfRela }.

(** A [Reader] over [bytes]: reading moves the position or fails. *)
Definition Reader (A : Type) : Type := list Z -> Z -> result (A * Z) ElfReadError.
Definition read_ret {A} (a : A) : Reader A := fun _ pos => Ok (a, pos).
Definition read_bind {A B} (r : Reader A) (k : A -> Reader B) : Reader B :=
  fun bytes pos => match r bytes pos with Ok (a, pos) => k a bytes pos | Err e => Err e end.
Declare Scope reader_scope.
Delimit Scope reader_scope with reader.
Notation "x <~ r ; k" := (read_bind r (fun x => k)) (at level 100, r at next level, right associativity) : reader_scope.
Open Scope reader_scope.

Definition read_take (n : nat) (what : string) : Reader (list Z) :=
  fun bytes pos =>
    if u64_max <? pos + Z.of_nat n then Err (Truncated what)
    else if Z.of_nat (length bytes) <? pos + Z.of_nat n then Err (Truncated what)
    else Ok (take n (drop (Z.to_nat pos) bytes), pos + Z.of_nat n).
Definition read_int (n : nat) (what : string) : Reader Z := bytes <~ read_take n what; read_ret (le_value bytes).
Definition read_addr (class : ElfClass) (what : string) : Reader Z := match class with Elf32 => read_int 4 what | Elf64 => read_int 8 what end.

(** [Vec::get]-like position of the first zero, or the end. *)
Fixpoint until_nul (l : list Z) : list Z := match l with [] => [] | b :: l => if b =? 0 then [] else b :: until_nul l end.
Definition str_at (table : list Z) (offset : Z) : option string :=
  if offset <=? Z.of_nat (length table) then Some (from_utf8_lossy (until_nul (drop (Z.to_nat offset) table))) else None.

Record Header := mkHeader {
  h_etype : Z; h_machine : Z; h_shoff : Z; h_flags : Z; h_shentsize : Z; h_shnum : Z; h_shstrndx : Z }.
Definition read_header (class : ElfClass) : Reader Header :=
  etype <~ read_int 2 "e_type"; machine <~ read_int 2 "e_machine"; _ <~ read_int 4 "e_version";
  _ <~ read_addr class "e_entry"; _ <~ read_addr class "e_phoff"; shoff <~ read_addr class "e_shoff";
  flags <~ read_int 4 "e_flags"; _ <~ read_int 2 "e_ehsize"; _ <~ read_int 2 "e_phentsize"; _ <~ read_int 2 "e_phnum";
  shentsize <~ read_int 2 "e_shentsize"; shnum <~ read_int 2 "e_shnum"; shstrndx <~ read_int 2 "e_shstrndx";
  read_ret (mkHeader etype machine shoff flags shentsize shnum shstrndx).

Record RawSection := mkRaw {
  w_name : Z; w_type : Z; w_flags : Z; w_offset : Z; w_size : Z; w_link : Z; w_info : Z; w_addralign : Z }.
Definition read_raw (class : ElfClass) : Reader RawSection :=
  name_off <~ read_int 4 "sh_name"; sh_type <~ read_int 4 "sh_type"; flags <~ read_addr class "sh_flags";
  _ <~ read_addr class "sh_addr"; offset <~ read_addr class "sh_offset"; size <~ read_addr class "sh_size";
  link <~ read_int 4 "sh_link"; info <~ read_int 4 "sh_info"; addralign <~ read_addr class "sh_addralign";
  read_ret (mkRaw name_off sh_type flags offset size link info addralign).

Definition run {A} (r : Reader A) (bytes : list Z) (pos : Z) : result A ElfReadError :=
  match r bytes pos with Ok (a, _) => Ok a | Err e => Err e end.

(** The loop over [0..shnum], [n] iterations from [i]. *)
Fixpoint raw_sections (class : ElfClass) (bytes : list Z) (shoff shentsize : Z) (n : nat) (i : Z) : option (result (list RawSection) ElfReadError) :=
  match n with
  | O => Some (Ok [])
  | S n =>
      pos ← checked_add shoff (i * shentsize);
      raw <-? Some (run (read_raw class) bytes pos);
      rest <-? raw_sections class bytes shoff shentsize n (i + 1);
      Some (Ok (raw :: rest))
  end.

Definition section_data (bytes : list Z) (s : RawSection) : result (list Z) ElfReadError :=
  if w_type s =? 8 then Ok []
  else
    let end_ := w_offset s + w_size s in
    if (u64_max <? end_) || (Z.of_nat (length bytes) <? end_) then Err (Truncated "section data")
    else Ok (take (Z.to_nat (w_size s)) (drop (Z.to_nat (w_offset s)) bytes)).

Fixpoint read_sections (bytes shstrtab : list Z) (raw : list RawSection) : option (result (list ElfSection) ElfReadError) :=
  match raw with
  | [] => Some (Ok [])
  | s :: raw =>
      name ← str_at shstrtab (w_name s);
      data <-? Some (section_data bytes s);
      rest <-? read_sections bytes shstrtab raw;
      Some (Ok (mkElfSection name (w_type s) (w_flags s) (w_size s) (w_addralign s) (w_link s) (w_info s) data :: rest))
  end.

Definition section_name (sections : list ElfSection) (idx : nat) : string :=
  match sections !! idx with Some s => f_name s | None => "section(" +:+ pretty idx +:+ ")" end.

Definition read_symbol (class : ElfClass) : Reader (Z * Z * Z * Z * Z) :=
  name_off <~ read_int 4 "st_name";
  match class with
  | Elf32 =>
      value <~ read_int 4 "st_value"; size <~ read_int 4 "st_size"; info <~ read_int 1 "st_info"; _ <~ read_int 1 "st_other";
      shndx <~ read_int 2 "st_shndx"; read_ret (name_off, value, size, info, shndx)
  | Elf64 =>
      info <~ read_int 1 "st_info"; _ <~ read_int 1 "st_other"; shndx <~ read_int 2 "st_shndx";
      value <~ read_int 8 "st_value"; size <~ read_int 8 "st_size"; read_ret (name_off, value, size, info, shndx)
  end.

(** The symbols from index [i] on, with the names of all of them. *)
Fixpoint read_symbols (class : ElfClass) (sections : list ElfSection) (table strtab : list Z) (n : nat) (i : Z)
  : option (result (list ElfSymbol * list string) ElfReadError) :=
  match n with
  | O => Some (Ok ([], []))
  | S n =>
      entry <-? Some (run (read_symbol class) table (i * sym_entsize class));
      let '(name_off, value, size, info, shndx) := entry in
      name ← str_at strtab name_off;
      rest <-? read_symbols class sections table strtab n (i + 1);
      let sym := mkElfSymbol name value size (Z.shiftr info 4) (Z.land info 0xF)
        (if negb (shndx =? 0) && (shndx <? 0xFF00) then Some (section_name sections (Z.to_nat shndx)) else None) in
      Some (Ok ((if i =? 0 then rest.1 else sym :: rest.1), name :: rest.2))
  end.

Definition read_rela (class : ElfClass) : Reader (Z * Z * Z * Z) :=
  offset <~ read_addr class "r_offset";
  match class with
  | Elf32 => info <~ read_int 4 "r_info"; addend <~ read_int 4 "r_addend";
      read_ret (offset, Z.shiftr info 8, Z.land info 0xFF, if addend <? 2 ^ 31 then addend else addend - 2 ^ 32)
  | Elf64 => info <~ read_int 8 "r_info"; addend <~ read_int 8 "r_addend"; read_ret (offset, Z.shiftr info 32, as_u32 info, as_i64 addend)
  end.

Fixpoint read_relas (class : ElfClass) (target : string) (names : list string) (data : list Z) (n : nat) (i : Z)
  : result (list ElfRela) ElfReadError :=
  match n with
  | O => Ok []
  | S n =>
      match run (read_rela class) data (i * rela_entsize class) with
      | Err e => Err e
      | Ok (offset, sym, r_type, addend) =>
          match read_relas class target names data n (i + 1) with
          | Err e => Err e
          | Ok rest => Ok (mkElfRela target offset (default "" (names !! Z.to_nat sym)) r_type addend :: rest)
          end
      end
  end.

(** The relocations of every [SHT_RELA] section, in order. *)
Fixpoint read_relocations (class : ElfClass) (all : list ElfSection) (names : list string) (rest : list ElfSection) : result (list ElfRela) ElfReadError :=
  match rest with
  | [] => Ok []
  | s :: rest =>
      let here := if f_type s =? SHT_RELA
        then read_relas class (section_name all (Z.to_nat (f_info s))) names (f_data s) (Z.to_nat (Z.of_nat (length (f_data s)) / rela_entsize class)) 0
        else Ok [] in
      match here with
      | Err e => Err e
      | Ok rs => match read_relocations class all names rest with Err e => Err e | Ok rs' => Ok (rs ++ rs') end
      end
  end.

Definition find_symtab (sections : list ElfSection) : option ElfSection := List.find (fun s => f_type s =? SHT_SYMTAB) sections.

Definition parse_elf (bytes : list Z) : option (result ElfFile ElfReadError) :=
  if (length bytes <? 16)%nat || negb (bool_decide (take 4 bytes = [0x7F; 0x45; 0x4C; 0x46])) then Some (Err NotAnElf)
  else
    let b4 := default 0 (bytes !! 4%nat) in
    class <-? Some (if b4 =? 1 then Ok Elf32 else if b4 =? 2 then Ok Elf64 else Err (UnsupportedEncoding "unknown ELF class"));
    if negb (default 0 (bytes !! 5%nat) =? 1) then Some (Err (UnsupportedEncoding "big-endian objects are not supported"))
    else
      h <-? Some (run (read_header class) bytes 16);
      raw <-? raw_sections class bytes (h_shoff h) (h_shentsize h) (Z.to_nat (h_shnum h)) 0;
      shstrtab <-? Some (match raw !! Z.to_nat (h_shstrndx h) with Some s => section_data bytes s | None => Ok [] end);
      sections <-? read_sections bytes shstrtab raw;
      syms <-? match find_symtab sections with
               | Some symtab =>
                   let strtab := match sections !! Z.to_nat (f_link symtab) with Some s => f_data s | None => [] end in
                   read_symbols class sections (f_data symtab) strtab (Z.to_nat (Z.of_nat (length (f_data symtab)) / sym_entsize class)) 0
               | None => Some (Ok ([], []))
               end;
      relocations <-? Some (read_relocations class sections syms.2 sections);
      Some (Ok (mkElfFile class (h_etype h) (h_machine h) (h_flags h) sections syms.1 relocations)).

(** ** Alignment and padding *)

Lemma align_to_spec pos a : 0 <= pos -> 1 <= a -> pos + a <= u64_max -> exists v, align_to pos a = Some v /\ pos <= v < pos + a /\ v mod a = 0.
Proof.
  intros. unfold align_to. pose proof (Z.div_mod (pos + a - 1) a ltac:(lia)). pose proof (Z.mod_pos_bound (pos + a - 1) a ltac:(lia)).
  rewrite (proj2 (Z.leb_le _ _)) by lia. eexists. split; [done|]. split; [lia|]. by apply Z.mod_mul; lia.
Qed.

Lemma resize_prefix l n : (length l <= n)%nat -> l `prefix_of` Elf.resize l n /\ length (Elf.resize l n) = n.
Proof. intros. unfold Elf.resize. rewrite take_ge by done. split; [by eexists|]. rewrite length_app, length_replicate. lia. Qed.
