(* ===== verification/ElfSpec.v ===== *)
(** * Bytes that decode

    [decodes r l a] says that the reader [r] reads [a] from the bytes [l], wherever
    they are; it composes along the bind of readers, so a reader is checked
    against a writer field by field. The lemmas below it place the parts of a file:
    entries of a table, strings of a string table, bodies of sections. *)
From Stdlib Require Import String Ascii.
From S2P Require Import Prelude Words ObjFile Elf.
From stdpp Require Import strings pretty.
#[local] Open Scope Z_scope.
#[local] Open Scope list_scope.

(** ** Places in a list of bytes *)

Definition at_pos (bytes : list Z) (pos : Z) (l : list Z) : Prop :=
  exists pre post, bytes = pre ++ l ++ post /\ Z.of_nat (length pre) = pos.

Lemma at_pos_app bytes pos a b : at_pos bytes pos (a ++ b) -> at_pos bytes pos a /\ at_pos bytes (pos + Z.of_nat (length a)) b.
Proof.
  intros (pre & post & -> & <-). split; [exists pre, (b ++ post); by rewrite <- app_assoc|].
  exists (pre ++ a), post. rewrite length_app, <- !app_assoc. split; [done|lia].
Qed.

Lemma at_pos_prefix a b pos l : a `prefix_of` b -> at_pos a pos l -> at_pos b pos l.
Proof. intros [k ->] (pre & post & -> & <-). exists pre, (post ++ k). by rewrite <- !app_assoc. Qed.

Lemma at_pos_here bytes l : at_pos (bytes ++ l) (Z.of_nat (length bytes)) l.
Proof. exists bytes, []. by rewrite app_nil_r. Qed.

Lemma at_pos_drop bytes pos l : at_pos bytes pos l -> 0 <= pos /\ pos + Z.of_nat (length l) <= Z.of_nat (length bytes) /\
  exists post, drop (Z.to_nat pos) bytes = l ++ post.
Proof.
  intros (pre & post & -> & <-). rewrite !length_app. split; [lia|]. split; [lia|]. exists post. rewrite Nat2Z.id. by rewrite drop_app_length.
Qed.

Lemma at_pos_take bytes pos l : at_pos bytes pos l -> take (length l) (drop (Z.to_nat pos) bytes) = l.
Proof. intros (_ & _ & post & ->)%at_pos_drop. by rewrite take_app_length. Qed.

(** The entries of a table of entries of one size. *)
Lemma at_pos_concat entries n i e : Forall (fun e => length e = n) entries -> entries !! i = Some e ->
  at_pos (concat entries) (Z.of_nat i * Z.of_nat n) e.
Proof.
  intros H. revert i. induction H as [|x entries Hx H IH]; intros i Hi; [done|]. cbn [concat]. destruct i as [|i].
  - injection Hi as ->. exists [], (concat entries). done.
  - destruct (IH i Hi) as (pre & post & -> & E). exists (x ++ pre), post. rewrite <- !app_assoc, length_app, Hx. split; [done|lia].
Qed.

Lemma length_concat_uniform entries n : Forall (fun e : list Z => length e = n) entries -> length (concat entries) = (length entries * n)%nat.
Proof. induction 1 as [|x entries Hx H IH]; [done|]. cbn [concat length]. rewrite length_app, IH. lia. Qed.

(** ** Readers *)

Definition decodes {A} (r : Reader A) (l : list Z) (a : A) : Prop :=
  forall bytes pos, Z.of_nat (length bytes) <= u64_max -> at_pos bytes pos l -> r bytes pos = Ok (a, pos + Z.of_nat (length l)).

Lemma decodes_ret {A} (a : A) : decodes (read_ret a) [] a.
Proof. intros bytes pos _ _. unfold read_ret. do 2 f_equal. cbn. lia. Qed.

Lemma decodes_bind {A B} (r : Reader A) (k : A -> Reader B) l l' a b : decodes r l a -> decodes (k a) l' b -> decodes (read_bind r k) (l ++ l') b.
Proof.
  intros Hr Hk bytes pos Hb H. apply at_pos_app in H as [H1 H2]. unfold read_bind. rewrite Hr, Hk by done. rewrite length_app. do 2 f_equal. lia.
Qed.

Lemma decodes_take n l what : length l = n -> decodes (read_take n what) l l.
Proof.
  intros <- bytes pos Hb H. pose proof (at_pos_drop _ _ _ H) as (H0 & H1 & _). unfold read_take.
  rewrite !(proj2 (Z.ltb_ge _ _)) by lia. by rewrite at_pos_take.
Qed.

Lemma decodes_int n v what : 0 <= v < 2 ^ (8 * Z.of_nat n) -> decodes (read_int n what) (le_bytes n v) v.
Proof.
  intros Hv bytes pos Hb H. unfold read_int, read_bind. rewrite (decodes_take n (le_bytes n v)) by (done || apply length_le_bytes).
  unfold read_ret. by rewrite le_value_le_bytes, Z.mod_small.
Qed.

Lemma decodes_byte v what : 0 <= v < 256 -> decodes (read_int 1 what) [v] v.
Proof.
  intros Hv. pose proof (decodes_int 1 v what Hv) as H. assert (E : le_bytes 1 v = [v]); [|by rewrite E in H].
  rewrite le_bytes_S. change 255 with (Z.ones 8). by rewrite Z.land_ones, Z.mod_small by lia.
Qed.

Definition class_bits (class : ElfClass) : Z := match class with Elf32 => 32 | Elf64 => 64 end.

Lemma decodes_addr class v what : 0 <= v < 2 ^ class_bits class -> decodes (read_addr class what) (addr class v) v.
Proof. destruct class; intros Hv; [by apply (decodes_int 4)|by apply (decodes_int 8)]. Qed.

Lemma decodes_last {A B} (r : Reader A) (k : A -> Reader B) l a b : decodes r l a -> decodes (k a) [] b -> decodes (read_bind r k) l b.
Proof. intros Hr Hk. rewrite <- (app_nil_r l). by eapply decodes_bind. Qed.

Lemma decodes_run {A} (r : Reader A) l a bytes pos rest : decodes r l a -> Z.of_nat (length bytes) <= u64_max -> at_pos bytes pos (l ++ rest) ->
  run r bytes pos = Ok a.
Proof. intros Hr Hb [H _]%at_pos_app. unfold run. by rewrite Hr. Qed.

(** One field: a number of fixed width, an address or a byte. *)
Ltac field := first [apply decodes_int; lia | apply decodes_addr; lia | apply decodes_byte; lia].
Ltac fields := repeat first [eapply decodes_bind; [field|] | eapply decodes_last; [field|]]; apply decodes_ret.

Lemma length_addr class v : Z.of_nat (length (addr class v)) = class_bits class / 8.
Proof. destruct class; cbn [addr]; by rewrite length_le_bytes. Qed.

(** ** Strings *)

Fixpoint utf8_valid (fuel : nat) (l : list Z) : bool :=
  match fuel, l with
  | S fuel, _ :: _ => let '(n, ok) := utf8_char l in ok && utf8_valid fuel (drop n l)
  | _, [] => true
  | O, _ :: _ => false
  end.

(** What every Rust string satisfies, and that it holds no NUL. *)
Definition text_ok (s : string) : bool :=
  utf8_valid (length (str_bytes s)) (str_bytes s) && forallb (fun b => negb (b =? 0)) (str_bytes s).

Lemma lossy_valid fuel l : utf8_valid fuel l = true -> lossy fuel l = l.
Proof.
  revert l. induction fuel as [|fuel IH]; intros [|b l]; try done. cbn [utf8_valid lossy]. destruct (utf8_char (b :: l)) as [n ok].
  intros [-> H]%andb_true_iff. rewrite IH by done. apply take_drop.
Qed.

Lemma bytes_str_bytes s : bytes_str (str_bytes s) = s.
Proof.
  unfold bytes_str, str_bytes. rewrite <- list_fmap_compose. rewrite (list_fmap_ext _ id).
  - rewrite list_fmap_id. apply string_of_list_ascii_of_string.
  - intros i c _. cbn [compose]. rewrite N2Z.id. apply ascii_N_embedding.
Qed.

Lemma until_nul_app l post : forallb (fun b => negb (b =? 0)) l = true -> until_nul (l ++ [0] ++ post) = l.
Proof.
  induction l as [|b l IH]; [done|]. cbn [forallb]. intros [Hb H]%andb_true_iff. cbn [until_nul app]. rewrite negb_true_iff in Hb. rewrite Hb. f_equal. by apply IH.
Qed.

Lemma str_at_text table off s : text_ok s = true -> at_pos table off (str_bytes s ++ [0]) -> str_at table off = Some s.
Proof.
  intros [Hv Hz]%andb_true_iff H. destruct (at_pos_drop _ _ _ H) as (H0 & H1 & post & E). rewrite length_app in H1. cbn [length] in H1.
  unfold str_at. rewrite (proj2 (Z.leb_le _ _)) by lia. rewrite E, <- app_assoc, until_nul_app by done.
  unfold from_utf8_lossy. by rewrite lossy_valid, bytes_str_bytes.
Qed.

(** ** String tables *)

Definition holds_str (t : StrTab) (s : string) (off : Z) : Prop := 0 <= off < 2 ^ 32 /\ at_pos (t_data t) off (str_bytes s ++ [0]).
Definition strtab_ok (t : StrTab) : Prop := forall s off, t_offsets t !! s = Some off -> holds_str t s off.

Lemma strtab_new_ok : strtab_ok strtab_new.
Proof. intros s off H. cbn in H. by rewrite lookup_empty in H. Qed.

Lemma holds_str_prefix t t' s off : t_data t `prefix_of` t_data t' -> holds_str t s off -> holds_str t' s off.
Proof. intros Hp [Hr H]. split; [done|by eapply at_pos_prefix]. Qed.

Lemma intern_spec t s t' off : intern t s = (t', off) -> strtab_ok t -> Z.of_nat (length (t_data t')) < 2 ^ 32 ->
  strtab_ok t' /\ holds_str t' s off /\ t_data t `prefix_of` t_data t'.
Proof.
  unfold intern. intros E Ht Hl. destruct (t_offsets t !! s) as [o|] eqn:El; injection E as <- <-; [by auto|].
  cbn [t_data t_offsets] in *. rewrite length_app in Hl. assert (Hp : t_data t `prefix_of` t_data t ++ str_bytes s ++ [0]) by by eexists.
  assert (Hs : holds_str (mkStrTab (t_data t ++ str_bytes s ++ [0]) (<[s:=as_u32 (Z.of_nat (length (t_data t)))]> (t_offsets t))) s (as_u32 (Z.of_nat (length (t_data t))))).
  { unfold as_u32. rewrite Z.mod_small by lia. split; [lia|apply at_pos_here]. }
  split; [|done]. intros s' off'. cbn [t_offsets]. rewrite lookup_insert_Some. intros [[<- <-]|[_ H]]; [done|].
  eapply (holds_str_prefix t); [done|by apply Ht].
Qed.

Lemma intern_prefix t s t' off : intern t s = (t', off) -> t_data t `prefix_of` t_data t'.
Proof. unfold intern. destruct (t_offsets t !! s); intros [= <- <-]; [done|]. cbn. by eexists. Qed.

Lemma intern_all_prefix names : forall t t' offs, intern_all t names = (t', offs) -> t_data t `prefix_of` t_data t'.
Proof.
  induction names as [|s names IH]; intros t t' offs E; cbn [intern_all] in E; [by injection E as <- <-|].
  destruct (intern t s) as [t1 o] eqn:E1, (intern_all t1 names) as [t2 os] eqn:E2. injection E as <- <-.
  etrans; [by eapply intern_prefix|by eapply IH].
Qed.

Lemma intern_all_spec names : forall t t' offs, intern_all t names = (t', offs) -> strtab_ok t -> Z.of_nat (length (t_data t')) < 2 ^ 32 ->
  strtab_ok t' /\ Forall2 (holds_str t') names offs.
Proof.
  induction names as [|s names IH]; intros t t' offs E Ht Hl; cbn [intern_all] in E; [injection E as <- <-; by auto|].
  destruct (intern t s) as [t1 off] eqn:E1, (intern_all t1 names) as [t2 offs2] eqn:E2. injection E as <- <-.
  pose proof (intern_all_prefix _ _ _ _ E2) as Hp. pose proof (prefix_length _ _ Hp).
  destruct (intern_spec t s t1 off E1 Ht) as (H4 & H5 & _); [lia|]. destruct (IH _ _ _ E2 H4 Hl) as [H1 H2].
  split; [done|]. constructor; [by eapply holds_str_prefix|done].
Qed.

(** ** Entries *)

Definition fits (class : ElfClass) (v : Z) : Prop := 0 <= v < 2 ^ class_bits class.

Ltac by_class class := destruct class; unfold fits, class_bits in *.

Lemma decodes_symbol class name info shndx value size : 0 <= name < 2 ^ 32 -> 0 <= info < 256 -> 0 <= shndx < 2 ^ 16 ->
  fits class value -> fits class size -> decodes (read_symbol class) (sym_entry class name info shndx value size) (name, value, size, info, shndx).
Proof. intros Hn Hi Hs Hv Hz. unfold read_symbol, sym_entry. by_class class; fields. Qed.

Lemma length_sym_entry class name info shndx value size : Z.of_nat (length (sym_entry class name info shndx value size)) = sym_entsize class.
Proof. unfold sym_entry. destruct class; by rewrite !length_app, !length_le_bytes. Qed.

(** The two parts of [r_info]. *)
Lemma pack_info k sym t : 0 <= k -> 0 <= sym -> 0 <= t < 2 ^ k ->
  Z.lor (Z.shiftl sym k) t = sym * 2 ^ k + t /\ Z.shiftr (Z.lor (Z.shiftl sym k) t) k = sym /\ Z.land (Z.lor (Z.shiftl sym k) t) (Z.ones k) = t.
Proof.
  intros Hk Hs Ht. assert (E : Z.lor (Z.shiftl sym k) t = sym * 2 ^ k + t).
  { rewrite Z.shiftl_mul_pow2 by done. symmetry. rewrite <- Z.lxor_lor; [apply Z.add_nocarry_lxor|].
    all: apply Z.bits_inj'; intros i Hi; rewrite Z.land_spec, Z.bits_0, <- Z.shiftl_mul_pow2, Z.shiftl_spec by done.
    all: destruct (Z.lt_ge_cases i k); [by rewrite Z.testbit_neg_r by lia|by rewrite (bounded_testbit t k), andb_false_r]. }
  split; [done|]. rewrite E, Z.shiftr_div_pow2, Z.land_ones by done. pose proof (pow2_pos k Hk). split.
  - rewrite Z.div_add_l, Z.div_small; lia.
  - rewrite Z.add_comm, Z.mod_add, Z.mod_small; lia.
Qed.

(** What a relocation of the class can hold. *)
Definition sym_limit (class : ElfClass) : Z := match class with Elf32 => 2 ^ 24 | Elf64 => 2 ^ 32 end.
Definition rela_ok (class : ElfClass) (r : ObjReloc) : Prop :=
  fits class (r_offset r) /\ 0 <= r_type r < match class with Elf32 => 2 ^ 8 | Elf64 => 2 ^ 32 end /\
  - 2 ^ (class_bits class - 1) <= r_addend r < 2 ^ (class_bits class - 1).

Lemma signed_wrap a n : 0 < n -> - 2 ^ (n - 1) <= a < 2 ^ (n - 1) ->
  (if a mod 2 ^ n <? 2 ^ (n - 1) then a mod 2 ^ n else a mod 2 ^ n - 2 ^ n) = a.
Proof.
  intros Hn Ha. assert (E : 2 ^ n = 2 * 2 ^ (n - 1)) by (rewrite <- Z.pow_succ_r by lia; f_equal; lia). destruct (Z.lt_ge_cases a 0).
  - assert (Em : a mod 2 ^ n = a + 2 ^ n) by (symmetry; apply Z.mod_unique with (-1); lia). rewrite Em. rewrite (proj2 (Z.ltb_ge _ _)) by lia. lia.
  - rewrite Z.mod_small by lia. by rewrite (proj2 (Z.ltb_lt _ _)) by lia.
Qed.

Lemma decodes_rela class sym_index r : rela_ok class r -> 0 <= default 0 (sym_index !! r_symbol r) < sym_limit class ->
  decodes (read_rela class) (rela_entry class sym_index r) (r_offset r, default 0 (sym_index !! r_symbol r), r_type r, r_addend r).
Proof.
  intros (Ho & Ht & Ha). unfold rela_entry. set (sym := default 0 _). intros Hs. unfold read_rela, sym_limit in *.
  by_class class; cbn [addr].
  - unfold as_u32. rewrite Z.shiftl_mul_pow2, Z.mod_small, <- Z.shiftl_mul_pow2 by lia.
    change 0xFF with (Z.ones 8). rewrite Z.land_ones, (Z.mod_small (r_type r)) by lia. destruct (pack_info 8 sym (r_type r)) as (E & E1 & E2); [lia..|].
    eapply decodes_bind; [by apply (decodes_addr Elf32)|]. eapply decodes_bind; [apply (decodes_int 4); change (8 * Z.of_nat 4) with 32; lia|].
    eapply decodes_last; [apply (decodes_int 4); change (8 * Z.of_nat 4) with 32; apply Z.mod_pos_bound; lia|].
    rewrite E1, E2. pose proof (signed_wrap (r_addend r) 32 ltac:(done) Ha) as Hw. change (2 ^ (32 - 1)) with (2 ^ 31) in Hw. rewrite Hw. apply decodes_ret.
  - unfold wrap64. rewrite Z.shiftl_mul_pow2, Z.mod_small, <- Z.shiftl_mul_pow2 by lia.
    destruct (pack_info 32 sym (r_type r)) as (E & E1 & E2); [lia..|].
    eapply decodes_bind; [by apply (decodes_addr Elf64)|]. eapply decodes_bind; [apply (decodes_int 8); change (8 * Z.of_nat 8) with 64; lia|].
    eapply decodes_last; [apply (decodes_int 8); change (8 * Z.of_nat 8) with 64; apply Z.mod_pos_bound; lia|].
    rewrite E1. unfold as_u32. rewrite <- Z.land_ones, E2 by lia. unfold as_i64.
    pose proof (signed_wrap (r_addend r) 64 ltac:(done) Ha) as Hw. change (2 ^ (64 - 1)) with (2 ^ 63) in Hw. rewrite Hw. apply decodes_ret.
Qed.

Lemma length_rela_entry class sym_index r : Z.of_nat (length (rela_entry class sym_index r)) = rela_entsize class.
Proof. unfold rela_entry. destruct class; by rewrite !length_app, !length_le_bytes. Qed.

(** The fields of a section header that are read back. *)
Definition raw_of (s : OutSection) (offset name : Z) : RawSection :=
  mkRaw name (s_type s) (s_flags s) offset (Z.of_nat (length (s_data s))) (s_link s) (s_info s) (s_addralign s).

Record out_ok (class : ElfClass) (s : OutSection) : Prop := mkOutOk {
  out_type : 0 <= s_type s < 2 ^ 32; out_flags : fits class (s_flags s); out_link : 0 <= s_link s < 2 ^ 32; out_info : 0 <= s_info s < 2 ^ 32;
  out_align : fits class (s_addralign s); out_size : fits class (Z.of_nat (length (s_data s))); out_name : text_ok (s_name s) = true }.

Lemma decodes_raw class s offset name : out_ok class s -> fits class offset -> 0 <= name < 2 ^ 32 ->
  exists l rest, header_entry class s offset name = l ++ rest /\ decodes (read_raw class) l (raw_of s offset name).
Proof.
  intros [H1 H2 H3 H4 H5 H6 _] Ho Hn. unfold header_entry, fits in *. rewrite !app_assoc. eexists _, _. split; [done|]. rewrite <- !app_assoc.
  unfold read_raw. assert (0 <= 0 < 2 ^ class_bits class) by (destruct class; done). fields.
Qed.

Lemma length_header_entry class s offset name : Z.of_nat (length (header_entry class s offset name)) = shentsize_of class.
Proof. unfold header_entry. rewrite !length_app, !length_le_bytes. destruct class; cbn [addr]; by rewrite !length_le_bytes. Qed.

(** The null section header. *)
Lemma decodes_null class : exists l rest, replicate (Z.to_nat (shentsize_of class)) 0 = l ++ rest /\ decodes (read_raw class) l (mkRaw 0 0 0 0 0 0 0 0).
Proof.
  destruct (decodes_raw class (mkOut "" 0 0 0 0 0 0 []) 0 0) as (l & rest & E & H).
  - by split; destruct class.
  - by destruct class.
  - done.
  - exists l, rest. split; [|done]. rewrite <- E. by destruct class.
Qed.
