(* ===== verification/ElfTheorems.v ===== *)
(** * What is written is read back

    [write_elf] never panics on an object whose numbers fit its class
    ([elf_ok]), and [parse_elf] reads its output as [elf_view]: the sections
    with their contents, the symbols in ELF order with the synthesised undefined
    ones, and every relocation with its section and symbol by name
    ([elf_roundtrip]). *)
From Stdlib Require Import String Ascii.
From S2P Require Import Prelude Words ObjFile Elf ElfSpec.
From stdpp Require Import strings pretty.
#[local] Open Scope Z_scope.
#[local] Open Scope list_scope.

(** ** Symbols *)

Definition shndx_of (section_index : list Z) (sym : ObjSymbol) : option Z :=
  match y_section sym with Some s => as_u16 <$> section_index !! s | None => Some SHN_UNDEF end.

Definition symbol_entry (class : ElfClass) (section_index : list Z) (sym : ObjSymbol) (name : Z) : list Z :=
  sym_entry class name (sym_info sym) (default 0 (shndx_of section_index sym)) (y_value sym) (y_size sym).

Lemma inc_u32_small a : a + 1 < 2 ^ 32 -> inc_u32 a = Some (a + 1).
Proof. intros. unfold inc_u32. by rewrite (proj2 (Z.ltb_lt _ _)). Qed.

(** The loop over the symbols interns their names in order, and appends their
    entries; the last symbol of a name gives its index. *)
Lemma write_symbols_spec class section_index syms : forall i strtab index data,
  0 <= i -> i + Z.of_nat (length syms) < 2 ^ 32 -> Forall (fun sym => is_Some (shndx_of section_index sym)) syms ->
  exists index', write_symbols class section_index syms i strtab index data =
    Some ((intern_all strtab (y_name <$> syms)).1, index',
          data ++ concat (zip_with (symbol_entry class section_index) syms (intern_all strtab (y_name <$> syms)).2)) /\
  (forall name v, index' !! name = Some v -> index !! name = Some v \/ exists k sym, syms !! k = Some sym /\ y_name sym = name /\ v = i + Z.of_nat k + 1) /\
  (forall name, is_Some (index !! name) \/ name ∈ (y_name <$> syms) -> is_Some (index' !! name)).
Proof.
  induction syms as [|sym syms IH]; intros i strtab index data Hi Hn Hs.
  { exists index. cbn. rewrite app_nil_r. split; [done|]. split; [by left|]. intros name [H|H]; [done|by apply elem_of_nil in H]. }
  cbn [write_symbols length fmap list_fmap intern_all] in *. inversion Hs as [|? ? [shndx Hsh] Hs']; subst. destruct (intern strtab (y_name sym)) as [t name] eqn:E.
  assert (E1 : (match y_section sym with Some s => index0 ← section_index !! s; Some (as_u16 index0) | None => Some SHN_UNDEF end) = Some shndx).
  { unfold shndx_of in Hsh. destruct (y_section sym) as [s|]; [|done]. by destruct (section_index !! s). }
  rewrite E1. cbn [mbind option_bind]. unfold as_u32. rewrite Z.mod_small, inc_u32_small by lia. cbn [mbind option_bind].
  destruct (IH (i + 1) t (<[y_name sym := i + 1]> index) (data ++ sym_entry class name (sym_info sym) shndx (y_value sym) (y_size sym)))
    as (index' & Ew & Hidx & Hdom); [lia|lia|done|].
  exists index'. unfold fmap in *. rewrite Ew. destruct (intern_all t (list_fmap _ _ y_name syms)) as [t2 offs]. cbn [fst snd zip_with concat].
  unfold symbol_entry at 2. rewrite Hsh. cbn [default from_option]. rewrite <- app_assoc. split; [done|]. split.
  - intros nm v [H|(k & s & Hk & Hnm & ->)]%Hidx.
    + apply lookup_insert_Some in H as [[<- <-]|[_ H]]; [|by left]. right. exists 0%nat, sym. split; [done|]. split; [done|]. lia.
    + right. exists (S k), s. split; [done|]. split; [done|]. lia.
  - intros nm H. apply Hdom. rewrite lookup_insert_is_Some'. rewrite elem_of_cons in H. naive_solver.
Qed.

(** Reading the entries back, from index [i] on. *)
Definition view_symbol (sections : list ElfSection) (shndx : Z) (sym : ObjSymbol) : ElfSymbol :=
  mkElfSymbol (y_name sym) (y_value sym) (y_size sym) (sym_bind sym) (sym_type sym)
    (if negb (shndx =? 0) && (shndx <? 0xFF00) then Some (section_name sections (Z.to_nat shndx)) else None).

Lemma sym_info_parts sym : 0 <= sym_info sym < 256 /\ Z.shiftr (sym_info sym) 4 = sym_bind sym /\ Z.land (sym_info sym) 0xF = sym_type sym.
Proof. unfold sym_info, sym_bind, sym_type. by destruct (y_binding sym), (y_kind sym). Qed.

Record symbol_ok (class : ElfClass) (sym : ObjSymbol) : Prop := mkSymbolOk {
  symbol_name : text_ok (y_name sym) = true; symbol_value : fits class (y_value sym); symbol_size : fits class (y_size sym) }.

Lemma shndx_range section_index sym : 0 <= default 0 (shndx_of section_index sym) < 2 ^ 16.
Proof.
  unfold shndx_of, as_u16. destruct (y_section sym) as [s|]; [|done]. destruct (section_index !! s); cbn; [apply Z.mod_pos_bound|]; lia.
Qed.

Lemma read_symbols_spec class sections section_index strtab table syms : forall names i,
  0 < i -> Z.of_nat (length table) <= u64_max -> Forall (symbol_ok class) syms -> Forall2 (holds_str strtab) (y_name <$> syms) names ->
  at_pos table (i * sym_entsize class) (concat (zip_with (symbol_entry class section_index) syms names)) ->
  read_symbols class sections table (t_data strtab) (length syms) i =
    Some (Ok ((fun sym => view_symbol sections (default 0 (shndx_of section_index sym)) sym) <$> syms, y_name <$> syms)).
Proof.
  induction syms as [|sym syms IH]; intros names i Hi Hb Hok Hn Ha; [done|]. inversion Hok as [|? ? [Ht Hv Hz] Hok']; subst.
  cbn [fmap list_fmap] in Hn. inversion Hn as [|? name ? names' Hname Hn']; subst. cbn [zip_with concat] in Ha. cbn [length read_symbols].
  destruct (sym_info_parts sym) as (Hi1 & Hi2 & Hi3).
  rewrite (decodes_run (read_symbol class) (symbol_entry class section_index sym name) (name, y_value sym, y_size sym, sym_info sym, default 0 (shndx_of section_index sym)) _ _ _
    (decodes_symbol class name (sym_info sym) _ _ _ (proj1 Hname) Hi1 (shndx_range _ _) Hv Hz) Hb Ha).
  cbn [try_bind mbind option_bind]. rewrite (str_at_text _ _ (y_name sym)) by (done || apply Hname). cbn [mbind option_bind].
  apply at_pos_app in Ha as [_ Ha]. unfold symbol_entry at 1 in Ha. rewrite length_sym_entry in Ha.
  replace (i * sym_entsize class + sym_entsize class) with ((i + 1) * sym_entsize class) in Ha by lia.
  rewrite (IH names') by (done || lia). cbn [try_bind mbind option_bind]. rewrite (proj2 (Z.eqb_neq i 0)) by lia. cbn [fst snd].
  unfold view_symbol at 1. rewrite Hi2, Hi3. done.
Qed.

(** ** Indices of sections *)

Definition primary (s : ObjSection) : OutSection :=
  mkOut (o_name s) (section_header (o_kind s)).1 (section_header (o_kind s)).2 0 0 (o_align s) 0 (o_data s).

Definition rela_out (class : ElfClass) (symtab : Z) (sym_index : gmap string Z) (s : ObjSection) (index : Z) : OutSection :=
  mkOut (".rela" +:+ o_name s) SHT_RELA 0 symtab index (word_align class) (rela_entsize class) (concat (rela_entry class sym_index <$> o_relocs s)).

Lemma out_sections_eq class symtab sym_index s index :
  out_sections class symtab sym_index s index = primary s :: (if decide (o_relocs s = []) then [] else [rela_out class symtab sym_index s index]).
Proof. unfold out_sections, primary, rela_out. destruct (section_header (o_kind s)). destruct (o_relocs s); by destruct (decide _). Qed.

Lemma out_sections_cons class symtab sym_index s index : exists rest, out_sections class symtab sym_index s index = primary s :: rest /\
  length rest = match o_relocs s with [] => 0%nat | _ => 1%nat end.
Proof. rewrite out_sections_eq. destruct (o_relocs s); by eexists. Qed.

Lemma index_sections_spec sections : forall next, 0 <= next -> next + 2 * Z.of_nat (length sections) < 2 ^ 32 ->
  exists idx last, index_sections sections next = Some (idx, last) /\ length idx = length sections /\
    last <= next + 2 * Z.of_nat (length sections) /\
    forall class symtab sym_index, let L := concat (zip_with (out_sections class symtab sym_index) sections idx) in
      last = next + Z.of_nat (length L) /\
      forall k s, sections !! k = Some s -> exists i, idx !! k = Some i /\ next <= i < last /\ L !! Z.to_nat (i - next) = Some (primary s).
Proof.
  induction sections as [|s sections IH]; intros next H0 Hn.
  { exists [], next. cbn. split; [done|]. split; [done|]. split; [lia|]. intros _ _ _. split; [lia|]. done. }
  cbn [index_sections length] in *. rewrite inc_u32_small by lia. cbn [mbind option_bind].
  set (n := match o_relocs s with [] => next + 1 | _ => next + 1 + 1 end).
  assert (E : (match o_relocs s with [] => Some (next + 1) | _ :: _ => inc_u32 (next + 1) end) = Some n).
  { unfold n. destruct (o_relocs s); [done|]. by rewrite inc_u32_small by lia. }
  rewrite E. cbn [mbind option_bind]. destruct (IH n) as (idx & last & Ei & Hl & Hle & H); [unfold n; destruct (o_relocs s); lia..|].
  rewrite Ei. exists (next :: idx), last. split; [done|]. split; [cbn; lia|]. split; [unfold n in *; destruct (o_relocs s); lia|].
  intros class symtab sym_index. destruct (H class symtab sym_index) as [Hlast Hk]. cbn [zip_with concat].
  destruct (out_sections_cons class symtab sym_index s next) as (rest & -> & Hr). rewrite length_app. cbn [length app].
  assert (Hn' : n = next + 1 + Z.of_nat (length rest)) by (unfold n; rewrite Hr; destruct (o_relocs s); lia). split; [lia|].
  intros [|k] s' Hs'; [injection Hs' as <-|].
  - exists next. rewrite Z.sub_diag. split; [done|]. split; [lia|]. done.
  - destruct (Hk k s' Hs') as (i & Hi & Hb & HL). exists i. split; [done|]. split; [lia|].
    replace (Z.to_nat (i - next)) with (S (length rest + Z.to_nat (i - n))) by lia. etrans; [apply (lookup_app_r rest); lia|].
    by replace (length rest + Z.to_nat (i - n) - length rest)%nat with (Z.to_nat (i - n)) by lia.
Qed.

(** ** Relocations *)

Definition view_rela (s : ObjSection) (r : ObjReloc) : ElfRela := mkElfRela (o_name s) (r_offset r) (r_symbol r) (r_type r) (r_addend r).

Definition view_section (s : OutSection) : ElfSection :=
  mkElfSection (s_name s) (s_type s) (s_flags s) (Z.of_nat (length (s_data s))) (s_addralign s) (s_link s) (s_info s)
    (if s_type s =? SHT_NOBITS then [] else s_data s).

(** The index of a relocation's symbol names it. *)
Definition indexes (class : ElfClass) (sym_index : gmap string Z) (names : list string) (r : ObjReloc) : Prop :=
  let sym := default 0 (sym_index !! r_symbol r) in 0 <= sym < sym_limit class /\ names !! Z.to_nat sym = Some (r_symbol r).

Lemma read_relas_spec class s sym_index names relocs : forall data i, Z.of_nat (length data) <= u64_max ->
  Forall (rela_ok class) relocs -> Forall (indexes class sym_index names) relocs ->
  at_pos data (i * rela_entsize class) (concat (rela_entry class sym_index <$> relocs)) ->
  read_relas class (o_name s) names data (length relocs) i = Ok (view_rela s <$> relocs).
Proof.
  induction relocs as [|r relocs IH]; intros data i Hb Hok Hi Ha; [done|]. inversion Hok as [|? ? Hr Hok']; subst. inversion Hi as [|? ? [Hs Hn] Hi']; subst.
  cbn [length read_relas fmap list_fmap concat] in *.
  rewrite (decodes_run (read_rela class) _ _ _ _ _ (decodes_rela class sym_index r Hr Hs) Hb Ha). apply at_pos_app in Ha as [_ Ha].
  rewrite length_rela_entry in Ha. replace (i * rela_entsize class + rela_entsize class) with ((i + 1) * rela_entsize class) in Ha by lia.
  rewrite (IH data) by done. by rewrite Hn.
Qed.

Lemma length_relas class sym_index relocs :
  Z.of_nat (length (concat (rela_entry class sym_index <$> relocs))) = Z.of_nat (length relocs) * rela_entsize class.
Proof.
  induction relocs as [|r relocs IH]; [done|]. rewrite fmap_cons. cbn [concat length]. rewrite length_app, Nat2Z.inj_add, length_rela_entry, IH. lia.
Qed.

Definition relocs_of (sections : list ObjSection) : list ElfRela := concat ((fun s => view_rela s <$> o_relocs s) <$> sections).

Lemma read_relocations_spec class symtab sym_index all names sections rest more : forall idx,
  length idx = length sections ->
  (forall k s i, sections !! k = Some s -> idx !! k = Some i -> section_name all (Z.to_nat i) = o_name s) ->
  Forall (fun s => Z.of_nat (length (concat (rela_entry class sym_index <$> o_relocs s))) <= u64_max /\
    Forall (rela_ok class) (o_relocs s) /\ Forall (indexes class sym_index names) (o_relocs s)) sections ->
  read_relocations class all names rest = Ok more ->
  read_relocations class all names ((view_section <$> concat (zip_with (out_sections class symtab sym_index) sections idx)) ++ rest) =
    Ok (relocs_of sections ++ more).
Proof.
  induction sections as [|s sections IH]; intros [|i idx] Hl Hn Hs Hr; try done. inversion Hs as [|? ? (Hb & Hok & Hix) Hs']; subst.
  cbn [zip_with concat]. rewrite fmap_app, <- app_assoc. unfold relocs_of. rewrite fmap_cons. cbn [concat]. rewrite <- app_assoc. fold (relocs_of sections).
  assert (IH' : read_relocations class all names ((view_section <$> concat (zip_with (out_sections class symtab sym_index) sections idx)) ++ rest) =
    Ok (relocs_of sections ++ more)) by (apply IH; [by injection Hl|intros k s' j Hk Hj; by apply (Hn (S k) s')|done|done]).
  assert (Hh : forall e, f_type e =? SHT_RELA = false -> forall l r, read_relocations class all names l = Ok r -> read_relocations class all names (e :: l) = Ok r).
  { intros e He l r E. cbn [read_relocations]. by rewrite He, E. }
  rewrite out_sections_eq. assert (Hty : f_type (view_section (primary s)) =? SHT_RELA = false) by by (cbn; destruct (o_kind s)).
  destruct (decide (o_relocs s = [])) as [E|E].
  - rewrite E. cbn [fmap list_fmap app]. apply Hh; [done|exact IH'].
  - rewrite !fmap_cons, fmap_nil. cbn [app]. apply Hh; [done|]. cbn [read_relocations view_section f_type f_info f_data rela_out s_type s_info s_data].
    rewrite Z.eqb_refl. change (SHT_RELA =? SHT_NOBITS) with false. cbn match. rewrite (Hn 0%nat s i) by done.
    rewrite length_relas, Z.div_mul, Nat2Z.id by by destruct class.
    rewrite (read_relas_spec class s sym_index names) by (done || (exists [], []; by rewrite app_nil_r)). by rewrite IH'.
Qed.

(** ** Layout *)

(** Room a list of sections takes at most. *)
Definition weight (sections : list OutSection) : Z :=
  foldr (fun s n => Z.max (s_addralign s) 1 + Z.of_nat (length (s_data s)) + n) 0 sections.

Lemma weight_nonneg sections : 0 <= weight sections.
Proof. induction sections as [|s sections IH]; [done|]. cbn [weight foldr]. fold (weight sections). lia. Qed.

Lemma weight_data sections s : s ∈ sections -> Z.of_nat (length (s_data s)) <= weight sections.
Proof.
  induction sections as [|x sections IH]; [by intros ?%elem_of_nil|]. pose proof (weight_nonneg sections). cbn [weight foldr]. fold (weight sections).
  intros [->|Hs]%elem_of_cons; [lia|]. specialize (IH Hs). lia.
Qed.

(** Where the body of a section is. *)
Definition body_at (out : list Z) (s : OutSection) (off : Z) : Prop := s_type s = SHT_NOBITS \/ at_pos out off (s_data s).

Lemma body_at_prefix a b s off : a `prefix_of` b -> body_at a s off -> body_at b s off.
Proof. intros Hp [H|H]; [by left|right; by eapply at_pos_prefix]. Qed.

Lemma layout_spec sections : forall pos, 0 <= pos -> pos + weight sections <= u64_max ->
  exists offs last, layout sections pos = Some (offs, last) /\ length offs = length sections /\ pos <= last <= pos + weight sections /\
  forall out, Z.of_nat (length out) <= pos ->
    let out' := write_bodies out (zip sections offs) in
    out `prefix_of` out' /\ Z.of_nat (length out') <= last /\
    Forall2 (fun s off => 0 <= off <= last /\ off mod Z.max (s_addralign s) 1 = 0 /\ body_at out' s off) sections offs.
Proof.
  induction sections as [|s sections IH]; intros pos Hp Hw.
  { exists [], pos. split; [done|]. split; [done|]. split; [cbn; lia|]. intros out Ho. cbn. split; [done|]. split; [done|]. constructor. }
  pose proof (weight_nonneg sections). cbn [weight foldr] in Hw. fold (weight sections) in Hw. cbn [layout].
  destruct (align_to_spec pos (Z.max (s_addralign s) 1)) as (off & -> & Hoff & Hmod); [lia..|]. cbn [mbind option_bind].
  set (next := if s_type s =? SHT_NOBITS then off else off + Z.of_nat (length (s_data s))).
  assert (E : (if s_type s =? SHT_NOBITS then Some off else checked_add off (Z.of_nat (length (s_data s)))) = Some next).
  { unfold next, checked_add. destruct (s_type s =? SHT_NOBITS); [done|]. by rewrite (proj2 (Z.leb_le _ _)) by lia. }
  rewrite E. cbn [mbind option_bind]. assert (Hnext : off <= next <= off + Z.of_nat (length (s_data s))) by (unfold next; destruct (_ =? _); lia).
  destruct (IH next) as (offs & last & -> & Hl & Hlast & Hout); [lia..|]. cbn [mbind option_bind]. exists (off :: offs), last.
  split; [done|]. split; [cbn; lia|]. split; [cbn [weight foldr]; fold (weight sections); lia|]. intros out Ho. cbn [zip zip_with write_bodies].
  destruct (resize_prefix out (Z.to_nat off)) as [Hpre Hlen]; [lia|]. set (out1 := if s_type s =? SHT_NOBITS then _ else _).
  assert (Hout1 : out `prefix_of` out1 /\ Z.of_nat (length out1) <= next /\ body_at out1 s off).
  { unfold out1, next, body_at. destruct (Z.eqb_spec (s_type s) SHT_NOBITS); [split; [done|]; split; [lia|]; by left|].
    split; [by apply prefix_app_r|]. split; [rewrite length_app; lia|]. right. pose proof (at_pos_here (Elf.resize out (Z.to_nat off)) (s_data s)) as Ha. rewrite Hlen, Z2Nat.id in Ha by lia. exact Ha. }
  destruct Hout1 as (H1 & H2 & H3). destruct (Hout out1 H2) as (H4 & H5 & H6). split; [by etrans|]. split; [done|].
  constructor; [split; [lia|]; split; [done|by eapply body_at_prefix]|done].
Qed.

(** ** Section headers *)

Definition raw_entry (class : ElfClass) (e : list Z) (raw : RawSection) : Prop :=
  Z.of_nat (length e) = shentsize_of class /\ exists l rest, e = l ++ rest /\ decodes (read_raw class) l raw.

Lemma raw_sections_spec class bytes shoff entries raws : forall i, 0 <= i -> Z.of_nat (length bytes) <= u64_max ->
  Forall2 (raw_entry class) entries raws -> at_pos bytes (shoff + i * shentsize_of class) (concat entries) ->
  raw_sections class bytes shoff (shentsize_of class) (length entries) i = Some (Ok raws).
Proof.
  intros i Hi Hb H. revert i Hi. induction H as [|e raw entries raws (Hl & l & rest & -> & Hd) H IH]; intros i Hi Ha; [done|].
  cbn [length raw_sections concat] in *. pose proof (at_pos_drop _ _ _ Ha) as (H0 & H1 & _). unfold checked_add.
  rewrite (proj2 (Z.leb_le _ _)) by lia. cbn [mbind option_bind]. rewrite <- app_assoc in Ha.
  rewrite (decodes_run _ _ _ _ _ _ Hd Hb Ha). cbn [try_bind mbind option_bind]. rewrite app_assoc in Ha. apply at_pos_app in Ha as [_ Ha]. rewrite Hl in Ha.
  rewrite (IH (i + 1)); [done|lia|]. replace (shoff + (i + 1) * shentsize_of class) with (shoff + i * shentsize_of class + shentsize_of class) by lia. done.
Qed.

Lemma section_data_at bytes s off name : body_at bytes s off -> Z.of_nat (length bytes) <= u64_max ->
  section_data bytes (raw_of s off name) = Ok (if s_type s =? SHT_NOBITS then [] else s_data s).
Proof.
  intros [H|H] Hb; unfold section_data, raw_of; cbn [w_type w_offset w_size].
  - by rewrite H.
  - change 8 with SHT_NOBITS. destruct (s_type s =? SHT_NOBITS); [done|]. destruct (at_pos_drop _ _ _ H) as (H0 & H1 & _).
    rewrite !(proj2 (Z.ltb_ge _ _)) by lia. cbn [orb]. by rewrite Nat2Z.id, at_pos_take.
Qed.

Lemma read_sections_spec class bytes shstrtab sections : forall offs names, Z.of_nat (length bytes) <= u64_max ->
  Forall (out_ok class) sections -> Forall2 (body_at bytes) sections offs -> Forall2 (holds_str shstrtab) (s_name <$> sections) names ->
  read_sections bytes (t_data shstrtab) (zip_with (fun so name => raw_of so.1 so.2 name) (zip sections offs) names) = Some (Ok (view_section <$> sections)).
Proof.
  induction sections as [|s sections IH]; intros offs names Hb Hok Ho Hn; inversion Hok as [|? ? Hs Hok']; subst; [done|].
  inversion Ho as [|? off ? offs' Hoff Ho']; subst. cbn [fmap list_fmap] in Hn. inversion Hn as [|? name ? names' Hname Hn']; subst.
  cbn [zip zip_with read_sections fst snd w_name raw_of]. rewrite (str_at_text _ _ (s_name s)) by (apply Hs || apply Hname). cbn [mbind option_bind].
  change (mkRaw _ _ _ _ _ _ _ _) with (raw_of s off name). rewrite (section_data_at _ _ _ _ Hoff Hb). cbn [try_bind mbind option_bind].
  rewrite (IH offs' names' Hb Hok' Ho' Hn'). done.
Qed.

(** ** The file *)

(** What [write_elf] does with the sections it built. *)
Definition finish (fmt : ObjectFormatInfo) (sections : list OutSection) (names : list Z) (last : Z) : option (list Z) :=
  let class := elf_class fmt in
  '(offsets, pos) ← layout sections (ehsize_of class);
  shoff ← align_to pos 8;
  shnum ← (let n := as_u16 (Z.of_nat (length sections)) in if n + 1 <? 2 ^ 16 then Some (n + 1) else None);
  let out := elf_header class fmt shoff (ehsize_of class) (shentsize_of class) shnum (as_u16 last) in
  let out := Elf.resize (write_bodies out (zip sections offsets)) (Z.to_nat shoff) in
  Some (out ++ replicate (Z.to_nat (shentsize_of class)) 0 ++
    concat (zip_with (fun so name => header_entry class so.1 so.2 name) (zip sections offsets) names)).

Lemma write_elf_finish obj fmt : write_elf obj fmt = '(sections, names, last) ← build_sections obj (elf_class fmt); finish fmt sections names last.
Proof. unfold write_elf, finish. by destruct (build_sections _ _) as [[[? ?] ?]|]. Qed.

Definition null_raw : RawSection := mkRaw 0 0 0 0 0 0 0 0.
Definition raws_of (sections : list OutSection) (offs names : list Z) : list RawSection :=
  zip_with (fun so name => raw_of so.1 so.2 name) (zip sections offs) names.

Lemma elf_header_parts class fmt shoff eh she shnum last : exists tail, 
  elf_header class fmt shoff eh she shnum last = [0x7F; 0x45; 0x4C; 0x46; match class with Elf32 => 1 | Elf64 => 2 end; 1; 1] ++ replicate 9 0 ++ tail /\
  (0 <= elf_machine fmt < 2 ^ 16 -> 0 <= elf_flags fmt < 2 ^ 32 -> fits class shoff -> 0 <= eh < 2 ^ 16 -> 0 <= she < 2 ^ 16 -> 0 <= shnum < 2 ^ 16 -> 0 <= last < 2 ^ 16 ->
   decodes (read_header class) tail (mkHeader ET_REL (elf_machine fmt) shoff (elf_flags fmt) she shnum last)).
Proof.
  eexists. split; [done|]. intros. unfold read_header, fits in *. change ET_REL with 1.
  assert (0 <= 0 < 2 ^ class_bits class) by (destruct class; done). fields.
Qed.

Lemma length_elf_header class fmt shoff eh she shnum last : Z.of_nat (length (elf_header class fmt shoff eh she shnum last)) = ehsize_of class.
Proof. unfold elf_header. rewrite !length_app, !length_le_bytes. destruct class; cbn [addr]; by rewrite !length_le_bytes. Qed.

Lemma raw_entries class sections offs names : Forall (out_ok class) sections -> Forall (fits class) offs -> Forall (fun n => 0 <= n < 2 ^ 32) names ->
  length offs = length sections -> length names = length sections ->
  Forall2 (raw_entry class) (zip_with (fun so name => header_entry class so.1 so.2 name) (zip sections offs) names) (raws_of sections offs names).
Proof.
  unfold raws_of. revert offs names. induction sections as [|s sections IH]; intros [|off offs] [|name names] Hs Ho Hn E1 E2; try done. cbn [zip zip_with].
  inversion Hs; inversion Ho; inversion Hn; subst. constructor; [|apply IH; cbn in *; auto with lia]. cbn [fst snd].
  split; [apply length_header_entry|]. by apply decodes_raw.
Qed.

Lemma fits_small class v : 0 <= v < 2 ^ 32 -> fits class v.
Proof. unfold fits. destruct class; cbn; lia. Qed.

Lemma length_concat_le entries n : Forall (fun e : list Z => Z.of_nat (length e) = n) entries -> Z.of_nat (length (concat entries)) = Z.of_nat (length entries) * n.
Proof. induction 1 as [|e entries He H IH]; [done|]. cbn [concat length]. rewrite length_app. lia. Qed.

(** The parts of the finished file. *)
Lemma finish_spec fmt sections names last shstrtab : let class := elf_class fmt in
  0 <= elf_machine fmt < 2 ^ 16 -> 0 <= elf_flags fmt < 2 ^ 32 -> 0 <= last < 2 ^ 16 ->
  Forall (out_ok class) sections -> weight sections < 2 ^ 31 -> Z.of_nat (length sections) < 0xFF00 -> Forall2 (holds_str shstrtab) (s_name <$> sections) names ->
  exists bytes offs shoff, finish fmt sections names last = Some bytes /\ Z.of_nat (length bytes) < 2 ^ 32 /\ length offs = length sections /\
    Forall2 (fun s off => off mod Z.max (s_addralign s) 1 = 0 /\ body_at bytes s off) sections offs /\
    take 4 bytes = [0x7F; 0x45; 0x4C; 0x46] /\ bytes !! 4%nat = Some (match class with Elf32 => 1 | Elf64 => 2 end) /\ bytes !! 5%nat = Some 1 /\ (16 <= length bytes)%nat /\
    run (read_header class) bytes 16 = Ok (mkHeader ET_REL (elf_machine fmt) shoff (elf_flags fmt) (shentsize_of class) (Z.of_nat (length sections) + 1) last) /\
    raw_sections class bytes shoff (shentsize_of class) (S (length sections)) 0 = Some (Ok (null_raw :: raws_of sections offs names)).
Proof.
  intros class Hm Hf Hlast Hok Hw Hn Hnames. pose proof (weight_nonneg sections). assert (Heh : 0 <= ehsize_of class <= 64) by by destruct class.
  assert (Hsh : 40 <= shentsize_of class <= 64) by by destruct class.
  destruct (layout_spec sections (ehsize_of class)) as (offs & pos & Elay & Hlo & Hpos & Hout); [lia|unfold u64_max; lia|].
  destruct (align_to_spec pos 8) as (shoff & Eal & Hshoff & _); [lia|done|unfold u64_max; lia|].
  unfold finish. fold class. rewrite Elay. cbn [mbind option_bind]. rewrite Eal. cbn [mbind option_bind].
  unfold as_u16. rewrite (Z.mod_small (Z.of_nat (length sections))), (Z.mod_small last), (proj2 (Z.ltb_lt _ _)) by lia. cbn [mbind option_bind].
  set (hdr := elf_header class fmt shoff (ehsize_of class) (shentsize_of class) (Z.of_nat (length sections) + 1) last).
  assert (Hlh : Z.of_nat (length hdr) = ehsize_of class) by apply length_elf_header.
  destruct (Hout hdr) as (Hp1 & Hlb & Hbodies); [lia|]. set (body := write_bodies hdr (zip sections offs)) in *.
  destruct (resize_prefix body (Z.to_nat shoff)) as [Hp2 Hlr]; [lia|]. set (out := Elf.resize body (Z.to_nat shoff)) in *.
  set (entries := zip_with _ (zip sections offs) names). set (bytes := out ++ _).
  assert (Hp3 : out `prefix_of` bytes) by by eexists.
  assert (Hln : length names = length sections) by (apply Forall2_length in Hnames; rewrite length_fmap in Hnames; lia).
  assert (Hoffs : Forall (fits class) offs).
  { assert (Hl : pos < 2 ^ 32) by lia. clear -Hbodies Hl. induction Hbodies as [|s off ? ? (? & _) _ IH]; constructor; [apply fits_small; lia|done]. }
  assert (Hent : Forall2 (raw_entry class) (replicate (Z.to_nat (shentsize_of class)) 0 :: entries) (null_raw :: raws_of sections offs names)).
  { constructor.
    - split; [rewrite length_replicate; lia|apply decodes_null].
    - apply raw_entries; try done. clear -Hnames. induction Hnames as [|? ? ? ? [? _] ? IH]; by constructor. }
  assert (Hle : length entries = length sections) by (unfold entries; rewrite !length_zip_with; lia).
  assert (Hlt : Z.of_nat (length (concat entries)) = Z.of_nat (length sections) * shentsize_of class).
  { rewrite (length_concat_le entries (shentsize_of class)); [by rewrite Hle|]. apply Forall2_cons in Hent as [_ Hent].
    clear -Hent. induction Hent as [|? ? ? ? [? _] ? IH]; by constructor. }
  assert (Hlen : Z.of_nat (length bytes) < 2 ^ 32).
  { unfold bytes. rewrite !length_app, length_replicate, Hlr. nia. }
  assert (Hu : Z.of_nat (length bytes) <= u64_max) by (unfold u64_max; lia).
  exists bytes, offs, shoff. split; [done|]. split; [done|]. split; [done|].
  assert (Hph : hdr `prefix_of` bytes) by (etrans; [done|by etrans]).
  split. { eapply Forall2_impl; [exact Hbodies|]. intros s off (_ & Ha & Hb). split; [done|]. eapply body_at_prefix; [|exact Hb]. by etrans. }
  destruct (elf_header_parts class fmt shoff (ehsize_of class) (shentsize_of class) (Z.of_nat (length sections) + 1) last) as (tail & Eh & Hd).
  fold hdr in Eh. destruct Hph as [post Epost]. rewrite Eh, <- !app_assoc in Epost.
  split; [by rewrite Epost|]. split; [by rewrite Epost|]. split; [by rewrite Epost|]. split.
  { apply Nat2Z.inj_le. rewrite Epost, !length_app. cbn. lia. }
  split.
  - apply (decodes_run _ tail _ _ _ post); [|done|].
    + apply Hd; try lia. apply fits_small. lia.
    + exists ([0x7F; 0x45; 0x4C; 0x46; match class with Elf32 => 1 | Elf64 => 2 end; 1; 1] ++ replicate 9 0), []. by rewrite app_nil_r, <- app_assoc.
  - rewrite <- Hle. change (S (length entries)) with (length (replicate (Z.to_nat (shentsize_of class)) 0 :: entries)).
    apply raw_sections_spec; [done|done|done|]. rewrite Z.mul_0_l, Z.add_0_r. cbn [concat].
    replace shoff with (Z.of_nat (length out)) by lia. apply at_pos_here.
Qed.

(** ** The object *)

(** What an object needs for its class: names that are text, numbers that fit, an
    index in range for each symbol, and a file below two gigabytes. *)
Record elf_ok (obj : ObjectFile) (fmt : ObjectFormatInfo) : Prop := mkElfOk {
  ok_machine : 0 <= elf_machine fmt < 2 ^ 16;
  ok_flags : 0 <= elf_flags fmt < 2 ^ 32;
  ok_sections : Forall (fun s => text_ok (o_name s) = true /\ fits (elf_class fmt) (o_align s) /\
    Forall (rela_ok (elf_class fmt)) (o_relocs s) /\ Forall (fun r => text_ok (r_symbol r) = true) (o_relocs s)) (o_sections obj);
  ok_symbols : Forall (fun sym => symbol_ok (elf_class fmt) sym /\
    match y_section sym with Some k => (k < length (o_sections obj))%nat | None => True end) (o_symbols obj);
  ok_count : 2 * Z.of_nat (length (o_sections obj)) + 4 < 0xFF00;
  ok_indices : Z.of_nat (length (all_syms obj)) + 1 < sym_limit (elf_class fmt);
  ok_size : forall sections names last, build_sections obj (elf_class fmt) = Some (sections, names, last) -> weight sections < 2 ^ 31 }.

Lemma undefined_from_names relocs : forall seen r, r ∈ relocs -> r_symbol r ∈ seen \/ r_symbol r ∈ (y_name <$> undefined_from relocs seen).
Proof.
  induction relocs as [|x relocs IH]; intros seen r; [by intros ?%elem_of_nil|]. cbn [undefined_from]. intros [->|H]%elem_of_cons.
  - case_bool_decide; [by left|]. right. rewrite fmap_cons. by left.
  - case_bool_decide; [by apply IH|]. destruct (IH (seen ++ [r_symbol x]) r H) as [Hs|Hs].
    + apply elem_of_app in Hs as [Hs|Hs]; [by left|]. right. rewrite fmap_cons. apply elem_of_cons. left. cbn. set_solver.
    + right. rewrite fmap_cons. by right.
Qed.

Lemma undefined_from_ok relocs : forall seen, Forall (fun sym => exists r, r ∈ relocs /\ sym = undefined_symbol (r_symbol r)) (undefined_from relocs seen).
Proof.
  induction relocs as [|x relocs IH]; intros seen; [constructor|]. cbn [undefined_from]. case_bool_decide.
  - eapply Forall_impl; [apply IH|]. intros sym (r & Hr & ->). exists r. set_solver.
  - constructor; [exists x; set_solver|]. eapply Forall_impl; [apply IH|]. intros sym (r & Hr & ->). exists r. set_solver.
Qed.

Lemma reloc_named obj s r : s ∈ o_sections obj -> r ∈ o_relocs s -> r_symbol r ∈ (y_name <$> all_syms obj).
Proof.
  intros Hs Hr. unfold all_syms. rewrite fmap_app, elem_of_app. apply undefined_from_names. apply list_elem_of_In, in_concat.
  exists (o_relocs s). split; apply list_elem_of_In; [by apply list_elem_of_fmap_2|done].
Qed.

Lemma elem_sym_order l sym : sym ∈ sym_order l <-> sym ∈ l.
Proof. unfold sym_order. rewrite elem_of_app, !list_elem_of_filter. destruct (y_binding sym); naive_solver. Qed.

Lemma all_syms_ok obj fmt : elf_ok obj fmt -> Forall (fun sym => symbol_ok (elf_class fmt) sym /\
    match y_section sym with Some k => (k < length (o_sections obj))%nat | None => True end) (all_syms obj).
Proof.
  intros H. unfold all_syms. apply list.Forall_app. split.
  - apply list.Forall_forall. intros sym Hs%(proj1 (elem_sym_order _ _)). pose proof (ok_symbols _ _ H) as Hk. rewrite list.Forall_forall in Hk. by apply Hk.
  - eapply Forall_impl; [apply undefined_from_ok|]. intros sym (r & Hr & ->). cbn [undefined_symbol y_section]. split; [|done].
    apply list_elem_of_In, in_concat in Hr as (l & Hl%list_elem_of_In%list_elem_of_fmap & Hr%list_elem_of_In). destruct Hl as (s & -> & Hs).
    pose proof (ok_sections _ _ H) as Hk. rewrite list.Forall_forall in Hk. destruct (Hk s Hs) as (_ & _ & _ & Ht). rewrite list.Forall_forall in Ht.
    assert (H0 : fits (elf_class fmt) 0) by by apply fits_small. split; [by apply Ht|done|done].
Qed.

Lemma rela_text s : text_ok s = true -> text_ok (".rela" +:+ s) = true.
Proof.
  unfold text_ok. intros [Hv Hz]%andb_true_iff. apply andb_true_iff. split; [|exact Hz].
  change (str_bytes (".rela" +:+ s)) with ([46; 114; 101; 108; 97] ++ str_bytes s). cbn [app length utf8_valid utf8_char lookup list_lookup]. exact Hv.
Qed.

(** An entry of the sections built. *)
Definition built_from (obj : ObjectFile) (class : ElfClass) (symtab : Z) (sym_index : gmap string Z) (idx : list Z) : list OutSection :=
  concat (zip_with (out_sections class symtab sym_index) (o_sections obj) idx).

Lemma primary_header s : 0 <= (section_header (o_kind s)).1 < 2 ^ 32 /\ 0 <= (section_header (o_kind s)).2 < 2 ^ 32.
Proof. by destruct (o_kind s). Qed.

Lemma built_out_ok obj fmt symtab sym_index idx : elf_ok obj fmt -> 0 <= symtab < 2 ^ 32 -> Forall (fun i => 0 <= i < 2 ^ 32) idx ->
  weight (built_from obj (elf_class fmt) symtab sym_index idx) < 2 ^ 32 -> Forall (out_ok (elf_class fmt)) (built_from obj (elf_class fmt) symtab sym_index idx).
Proof.
  intros H Hsym Hidx Hw. apply list.Forall_forall. intros e He. pose proof (weight_data _ _ He) as Hd.
  assert (Hz : fits (elf_class fmt) (Z.of_nat (length (s_data e)))) by (apply fits_small; lia). clear Hw Hd. unfold built_from in He.
  apply list_elem_of_In, in_concat in He as (l & Hl%list_elem_of_In & He%list_elem_of_In). apply list_elem_of_lookup in Hl as (k & Hk).
  apply lookup_zip_with_Some in Hk as (s & i & -> & Hs & Hi). rewrite out_sections_eq in He.
  pose proof (ok_sections _ _ H) as Hk. rewrite list.Forall_forall in Hk. destruct (Hk s ltac:(by eapply list_elem_of_lookup_2)) as (Ht & Ha & _ & _).
  rewrite list.Forall_forall in Hidx. specialize (Hidx i ltac:(by eapply list_elem_of_lookup_2)). destruct (primary_header s) as [H1 H2].
  assert (H0 : forall v, 0 <= v < 2 ^ 32 -> fits (elf_class fmt) v) by apply fits_small.
  apply elem_of_cons in He as [->|He]; [by split; auto|]. destruct (decide _); [by apply elem_of_nil in He|]. apply list_elem_of_singleton in He as ->.
  split; cbn [rela_out s_type s_flags s_link s_info s_addralign s_name]; first [by apply rela_text|by apply H0|apply H0; by destruct (elf_class fmt)|done].
Qed.

Definition null_entry (class : ElfClass) : list Z := sym_entry class 0 0 SHN_UNDEF 0 0.
Definition symbol_table (obj : ObjectFile) (class : ElfClass) (idx offs : list Z) : list Z :=
  null_entry class ++ concat (zip_with (symbol_entry class idx) (all_syms obj) offs).
Definition all_sections (obj : ObjectFile) (class : ElfClass) (symtab : Z) (sym_index : gmap string Z) (idx offs : list Z) (first_global : Z)
    (strtab shstrtab : StrTab) : list OutSection :=
  built_from obj class symtab sym_index idx ++
  [symtab_section class (symtab + 1) first_global (symbol_table obj class idx offs); strtab_section ".strtab" (t_data strtab)] ++
  [strtab_section ".shstrtab" (t_data shstrtab)].

Lemma shndx_total obj fmt idx : elf_ok obj fmt -> length idx = length (o_sections obj) -> Forall (fun sym => is_Some (shndx_of idx sym)) (all_syms obj).
Proof.
  intros H Hl. eapply Forall_impl; [by apply (all_syms_ok obj fmt)|]. intros sym [_ Hs]. unfold shndx_of. destruct (y_section sym) as [k|]; [|done].
  rewrite <- Hl in Hs. destruct (lookup_lt_is_Some_2 idx k Hs) as [i ->]. done.
Qed.

Lemma indexes_all obj fmt class sym_index : elf_class fmt = class -> elf_ok obj fmt ->
  (forall name v, sym_index !! name = Some v -> exists k sym, all_syms obj !! k = Some sym /\ y_name sym = name /\ v = Z.of_nat k + 1) ->
  (forall name, name ∈ (y_name <$> all_syms obj) -> is_Some (sym_index !! name)) ->
  forall s, s ∈ o_sections obj -> Forall (indexes class sym_index ("" :: (y_name <$> all_syms obj))) (o_relocs s).
Proof.
  intros <- H Hidx Hdom s Hs. apply list.Forall_forall. intros r Hr. pose proof (reloc_named obj s r Hs Hr) as Hn. unfold indexes.
  destruct (Hdom _ Hn) as [v Ev]. rewrite Ev. destruct (Hidx _ _ Ev) as (k & sym & Hk & <- & ->).
  change (default 0 (Some (Z.of_nat k + 1))) with (Z.of_nat k + 1). cbv zeta. pose proof (ok_indices _ _ H). apply lookup_lt_Some in Hk as Hlt. split; [lia|]. replace (Z.to_nat (Z.of_nat k + 1)) with (S k) by lia.
  cbn [lookup list_lookup]. etrans; [apply list_lookup_fmap|by rewrite Hk].
Qed.

Lemma weight_app a b : weight (a ++ b) = weight a + weight b.
Proof. induction a as [|s a IH]; [done|]. cbn [app weight foldr]. fold (weight (a ++ b)) (weight a). lia. Qed.

(** What [build_sections] builds. *)
Lemma build_spec obj fmt : elf_ok obj fmt -> let class := elf_class fmt in
  exists idx symtab sym_index first_global strtab offs names shstrtab,
    let sections := all_sections obj class symtab sym_index idx offs first_global strtab shstrtab in
    build_sections obj class = Some (sections, names, symtab + 2) /\
    symtab = 1 + Z.of_nat (length (built_from obj class symtab sym_index idx)) /\ symtab + 3 < 0xFF00 /\
    length idx = length (o_sections obj) /\
    (forall k s, o_sections obj !! k = Some s -> exists i, idx !! k = Some i /\ 1 <= i < symtab /\
      built_from obj class symtab sym_index idx !! Z.to_nat (i - 1) = Some (primary s)) /\
    Forall (out_ok class) sections /\ weight sections < 2 ^ 31 /\
    Forall2 (holds_str strtab) (y_name <$> all_syms obj) offs /\ [0] `prefix_of` t_data strtab /\
    Forall2 (holds_str shstrtab) (s_name <$> sections) names /\ [0] `prefix_of` t_data shstrtab /\
    (forall s, s ∈ o_sections obj -> Forall (indexes class sym_index ("" :: (y_name <$> all_syms obj))) (o_relocs s)).
Proof.
  intros H class. pose proof (ok_count _ _ H). pose proof (ok_indices _ _ H) as Hi. fold class in Hi. assert (Hlim : sym_limit class <= 2 ^ 32) by by destruct class.
  destruct (index_sections_spec (o_sections obj) 1) as (idx & symtab & Eidx & Hlidx & Hle & Hparts); [lia|lia|].
  destruct (write_symbols_spec class idx (all_syms obj) 0 strtab_new ∅ (null_entry class)) as (sym_index & Ew & Hidx & Hdom); [lia|lia|by eapply shndx_total|].
  destruct (intern_all strtab_new (y_name <$> all_syms obj)) as [strtab offs] eqn:Est. cbn [fst snd] in Ew.
  destruct (Hparts class symtab sym_index) as [Hlast Hk]. set (first_global := Z.of_nat (length (base.filter (fun s => y_binding s = Local) (sym_order (o_symbols obj)))) + 1).
  assert (Hfg : 0 <= first_global < 2 ^ 32).
  { unfold first_global. pose proof (length_filter (fun s => y_binding s = Local) (sym_order (o_symbols obj))).
    assert (length (sym_order (o_symbols obj)) <= length (all_syms obj))%nat by (unfold all_syms; rewrite length_app; lia). unfold class in *. lia. }
  destruct (intern_all strtab_new (s_name <$> built_from obj class symtab sym_index idx ++ [symtab_section class (symtab + 1) first_global (symbol_table obj class idx offs); strtab_section ".strtab" (t_data strtab)]))
    as [t1 names1] eqn:En. destruct (intern t1 ".shstrtab") as [shstrtab name] eqn:Esh.
  exists idx, symtab, sym_index, first_global, strtab, offs, (names1 ++ [name]), shstrtab. intros sections.
  assert (Eb : build_sections obj class = Some (sections, names1 ++ [name], symtab + 2)).
  { unfold build_sections. rewrite Eidx. cbn [mbind option_bind]. rewrite (inc_u32_small symtab) by lia. cbn [mbind option_bind].
    rewrite (inc_u32_small (symtab + 1)) by lia. cbn [mbind option_bind].
    unfold as_u32. rewrite Z.mod_small, inc_u32_small by (unfold first_global in Hfg; lia). cbn [mbind option_bind]. fold first_global (null_entry class). rewrite Ew. cbn [mbind option_bind].
    fold (built_from obj class symtab sym_index idx) (symbol_table obj class idx offs). rewrite En, Esh. unfold sections, all_sections.
    rewrite <- app_assoc. do 2 f_equal. lia. }
  pose proof (ok_size _ _ H _ _ _ Eb) as Hw. assert (Hdata : forall s, s ∈ sections -> Z.of_nat (length (s_data s)) < 2 ^ 32) by (intros s Hs%weight_data; lia).
  assert (Hbuilt : weight (built_from obj class symtab sym_index idx) < 2 ^ 32).
  { unfold sections, all_sections in Hw. rewrite weight_app in Hw.
    pose proof (weight_nonneg ([symtab_section class (symtab + 1) first_global (symbol_table obj class idx offs); strtab_section ".strtab" (t_data strtab)] ++ [strtab_section ".shstrtab" (t_data shstrtab)])). lia. }
  assert (Hst : Z.of_nat (length (t_data strtab)) < 2 ^ 32) by (apply (Hdata (strtab_section ".strtab" (t_data strtab))); unfold sections, all_sections; set_solver).
  assert (Hsh : Z.of_nat (length (t_data shstrtab)) < 2 ^ 32) by (apply (Hdata (strtab_section ".shstrtab" (t_data shstrtab))); unfold sections, all_sections; set_solver).
  assert (Hsd : Z.of_nat (length (symbol_table obj class idx offs)) < 2 ^ 32)
    by (apply (Hdata (symtab_section class (symtab + 1) first_global (symbol_table obj class idx offs))); unfold sections, all_sections; set_solver).
  destruct (intern_all_spec _ _ _ _ Est strtab_new_ok Hst) as [_ Hoffs]. pose proof (intern_prefix _ _ _ _ Esh) as Hpre.
  pose proof (prefix_length _ _ Hpre). destruct (intern_all_spec _ _ _ _ En strtab_new_ok) as [Ht1 Hn1]; [lia|].
  destruct (intern_spec _ _ _ _ Esh Ht1 Hsh) as (_ & Hname & _).
  assert (Hsym : symtab = 1 + Z.of_nat (length (built_from obj class symtab sym_index idx))) by exact Hlast.
  split; [exact Eb|]. split; [exact Hsym|]. split; [lia|]. split; [done|]. split; [exact Hk|]. split.
  { unfold sections, all_sections. apply list.Forall_app. split.
    - apply (built_out_ok obj fmt); [done|lia| |done]. apply list.Forall_forall. intros i (k & Hki)%list_elem_of_lookup.
      apply lookup_lt_Some in Hki as Hlt. rewrite Hlidx in Hlt. destruct (lookup_lt_is_Some_2 _ _ Hlt) as [s Hs]. destruct (Hk _ _ Hs) as (i' & Ei' & Hb & _).
      assert (i = i') as -> by congruence. lia.
    - assert (Hfit : forall v, 0 <= v < 2 ^ 32 -> fits class v) by apply fits_small.
      repeat apply Forall_cons_2; [| | |constructor]; split; cbn [symtab_section strtab_section s_type s_flags s_link s_info s_addralign s_name s_data];
        first [lia|done|apply Hfit; lia|apply Hfit; by destruct class]. }
  split; [done|]. split; [done|]. split; [by apply (intern_all_prefix _ _ _ _ Est)|]. split.
  { unfold sections, all_sections. rewrite app_assoc, fmap_app. apply Forall2_app; [|by constructor].
    eapply Forall2_impl; [exact Hn1|]. intros s off Hs. by eapply holds_str_prefix. }
  split; [etrans; [by apply (intern_all_prefix _ _ _ _ En)|done]|].
  apply (indexes_all obj fmt); [done|done| |].
  - intros nm v [E|(k & sym & Ek & En' & ->)]%Hidx; [by rewrite lookup_empty in E|]. exists k, sym. split; [done|]. split; [done|]. lia.
  - intros nm Hnm. apply Hdom. by right.
Qed.

(** ** The file read back *)

Definition null_section : ElfSection := mkElfSection "" 0 0 0 0 0 0 [].

Lemma raws_lookup {P : OutSection -> Z -> Prop} sections offs names k s :
  sections !! k = Some s -> Forall2 P sections offs -> length names = length sections ->
  exists off name, raws_of sections offs names !! k = Some (raw_of s off name) /\ P s off.
Proof.
  intros Hk Ho Hn. destruct (Forall2_lookup_l _ _ _ _ _ Ho Hk) as (off & Eo & Hp).
  destruct (lookup_lt_is_Some_2 names k) as [name En]; [rewrite Hn; by eapply lookup_lt_Some|]. exists off, name. split; [|done].
  unfold raws_of. apply lookup_zip_with_Some. exists (s, off), name. split; [done|]. split; [|done].
  apply lookup_zip_with_Some. by exists s, off.
Qed.

(** The string at offset 0 of a table is empty. *)
Lemma str_at_zero table : [0] `prefix_of` table -> str_at table 0 = Some "".
Proof. intros [rest ->]. reflexivity. Qed.

Lemma read_sections_null bytes shstrtab raws ss : [0] `prefix_of` shstrtab -> read_sections bytes shstrtab raws = Some (Ok ss) ->
  read_sections bytes shstrtab (null_raw :: raws) = Some (Ok (null_section :: ss)).
Proof.
  intros Hp E. cbn [read_sections null_raw w_name]. rewrite (str_at_zero _ Hp). cbn [mbind option_bind].
  assert (Ed : section_data bytes null_raw = Ok []).
  { unfold section_data, null_raw. cbn [w_type w_offset w_size Z.eqb]. change (0 + 0) with 0.
    by rewrite (proj2 (Z.ltb_ge u64_max 0)), (proj2 (Z.ltb_ge _ 0)) by (unfold u64_max; lia). }
  rewrite Ed. cbn [try_bind mbind option_bind]. by rewrite E.
Qed.

(** No section of the object is the symbol table. *)
Lemma find_symtab_skip class symtab sym_index sections idx rest :
  find_symtab ((view_section <$> concat (zip_with (out_sections class symtab sym_index) sections idx)) ++ rest) = find_symtab rest.
Proof.
  revert idx. induction sections as [|s sections IH]; intros [|i idx]; [done..|]. cbn [zip_with concat]. rewrite fmap_app, <- app_assoc, out_sections_eq.
  assert (Hty : f_type (view_section (primary s)) =? SHT_SYMTAB = false) by by (cbn; destruct (o_kind s)).
  specialize (IH idx). unfold find_symtab in *. destruct (decide _); rewrite ?fmap_cons, fmap_nil; cbn [app List.find]; rewrite Hty; exact IH.
Qed.

(** The null symbol is read and skipped. *)
Lemma read_symbols_null class sections table strtab n syms names : Z.of_nat (length table) <= u64_max -> [0] `prefix_of` strtab -> at_pos table 0 (null_entry class) ->
  read_symbols class sections table strtab n 1 = Some (Ok (syms, names)) ->
  read_symbols class sections table strtab (S n) 0 = Some (Ok (syms, "" :: names)).
Proof.
  intros Hb Hp Ha E. cbn [read_symbols]. rewrite Z.mul_0_l. rewrite <- (app_nil_r (null_entry class)) in Ha.
  rewrite (decodes_run _ _ (0, 0, 0, 0, SHN_UNDEF) _ _ _ (decodes_symbol class 0 0 SHN_UNDEF 0 0 ltac:(done) ltac:(done) ltac:(done)
    ltac:(by apply fits_small) ltac:(by apply fits_small)) Hb Ha). cbn [try_bind mbind option_bind].
  rewrite (str_at_zero _ Hp). cbn [mbind option_bind]. change (0 + 1) with 1. rewrite E. done.
Qed.

Lemma length_symbol_table obj class idx offs : length offs = length (all_syms obj) ->
  Z.of_nat (length (symbol_table obj class idx offs)) = (Z.of_nat (length (all_syms obj)) + 1) * sym_entsize class.
Proof.
  intros Hl. unfold symbol_table. rewrite length_app, Nat2Z.inj_add. unfold null_entry at 1. rewrite length_sym_entry.
  rewrite (length_concat_le _ (sym_entsize class)); [rewrite length_zip_with_l_eq by done; lia|].
  apply list.Forall_forall. intros e (k & Hk)%list_elem_of_lookup. apply lookup_zip_with_Some in Hk as (sym & off & -> & _). apply length_sym_entry.
Qed.

(** What a reader sees of a symbol of the object, and of the object. *)
Definition symbol_view (obj : ObjectFile) (sym : ObjSymbol) : ElfSymbol :=
  mkElfSymbol (y_name sym) (y_value sym) (y_size sym) (sym_bind sym) (sym_type sym)
    (k ← y_section sym; s ← o_sections obj !! k; Some (o_name s)).
Definition elf_view (obj : ObjectFile) (fmt : ObjectFormatInfo) (sections : list OutSection) : ElfFile :=
  mkElfFile (elf_class fmt) ET_REL (elf_machine fmt) (elf_flags fmt) (null_section :: (view_section <$> sections))
    (symbol_view obj <$> all_syms obj) (relocs_of (o_sections obj)).

Lemma section_name_at obj class symtab sym_index idx rest k s i : 1 <= i ->
  built_from obj class symtab sym_index idx !! Z.to_nat (i - 1) = Some (primary s) -> o_sections obj !! k = Some s ->
  section_name (null_section :: (view_section <$> built_from obj class symtab sym_index idx ++ rest)) (Z.to_nat i) = o_name s.
Proof.
  intros Hi Hb Hs. unfold section_name. replace (Z.to_nat i) with (S (Z.to_nat (i - 1))) by lia. rewrite lookup_cons, list_lookup_fmap.
  by rewrite (lookup_app_l_Some _ _ _ _ Hb).
Qed.

Lemma view_symbol_eq obj all idx sym :
  (forall k s, o_sections obj !! k = Some s -> exists i, idx !! k = Some i /\ 1 <= i < 0xFF00 /\ section_name all (Z.to_nat i) = o_name s) ->
  match y_section sym with Some k => (k < length (o_sections obj))%nat | None => True end ->
  view_symbol all (default 0 (shndx_of idx sym)) sym = symbol_view obj sym.
Proof.
  intros Hi Hs. unfold view_symbol, symbol_view, shndx_of. destruct (y_section sym) as [k|]; [|done].
  destruct (lookup_lt_is_Some_2 _ _ Hs) as [s Es]. destruct (Hi k s Es) as (i & -> & Hb & Hn). cbn [mbind option_bind]. rewrite Es. cbn [option_bind].
  change (default 0 (as_u16 <$> Some i)) with (as_u16 i). unfold as_u16. rewrite Z.mod_small by lia.
  by rewrite (proj2 (Z.eqb_neq _ _)), (proj2 (Z.ltb_lt _ _)), Hn by lia.
Qed.

(** The symbol table, as [parse_elf] reads it. *)
Lemma read_symtab obj class idx strtab offs all :
  Z.of_nat (length (symbol_table obj class idx offs)) <= u64_max -> Forall (symbol_ok class) (all_syms obj) ->
  Forall2 (holds_str strtab) (y_name <$> all_syms obj) offs -> [0] `prefix_of` t_data strtab ->
  read_symbols class all (symbol_table obj class idx offs) (t_data strtab)
    (Z.to_nat (Z.of_nat (length (symbol_table obj class idx offs)) / sym_entsize class)) 0 =
  Some (Ok ((fun sym => view_symbol all (default 0 (shndx_of idx sym)) sym) <$> all_syms obj, "" :: (y_name <$> all_syms obj))).
Proof.
  intros Hb Hok Hn Hp. assert (Hl : length offs = length (all_syms obj)) by (apply Forall2_length in Hn; rewrite length_fmap in Hn; lia).
  rewrite length_symbol_table, Z.div_mul by (done || by destruct class).
  replace (Z.to_nat (Z.of_nat (length (all_syms obj)) + 1)) with (S (length (all_syms obj))) by lia.
  assert (He : Z.of_nat (length (null_entry class)) = sym_entsize class) by apply length_sym_entry.
  apply read_symbols_null; [done|done|exists [], (concat (zip_with (symbol_entry class idx) (all_syms obj) offs)); done|].
  apply (read_symbols_spec class all idx strtab _ (all_syms obj) offs); [done|done|done|done|].
  rewrite Z.mul_1_l, <- He. exists (null_entry class), []. by rewrite app_nil_r.
Qed.

(** The sections of a file that are the object's own. *)
Definition contents (sections : list ElfSection) : list ElfSection :=
  base.filter (fun e => f_type e = SHT_PROGBITS \/ f_type e = SHT_NOBITS) sections.
Definition section_view (s : ObjSection) : ElfSection := view_section (primary s).

Lemma contents_built class symtab sym_index sections : forall idx, length idx = length sections ->
  contents (view_section <$> concat (zip_with (out_sections class symtab sym_index) sections idx)) = section_view <$> sections.
Proof.
  unfold contents. induction sections as [|s sections IH]; intros [|i idx] Hl; try done. injection Hl as Hl.
  cbn [zip_with concat]. rewrite fmap_app, list.filter_app, IH by done. rewrite fmap_cons, out_sections_eq, fmap_cons.
  rewrite filter_cons_True by (cbn; destruct (o_kind s); auto). cbn [app]. unfold section_view at 1. f_equal.
  destruct (decide _); [done|]. rewrite fmap_cons, fmap_nil, filter_cons_False by by intros [|]. done.
Qed.

(** The steps of [parse_elf]. *)
Lemma parse_steps bytes class h raw s shstrtab symtab ss syms names relocs :
  (16 <= length bytes)%nat -> take 4 bytes = [0x7F; 0x45; 0x4C; 0x46] ->
  bytes !! 4%nat = Some (match class with Elf32 => 1 | Elf64 => 2 end) -> bytes !! 5%nat = Some 1 ->
  run (read_header class) bytes 16 = Ok h -> raw_sections class bytes (h_shoff h) (h_shentsize h) (Z.to_nat (h_shnum h)) 0 = Some (Ok raw) ->
  raw !! Z.to_nat (h_shstrndx h) = Some s -> section_data bytes s = Ok shstrtab -> read_sections bytes shstrtab raw = Some (Ok ss) ->
  find_symtab ss = Some symtab ->
  read_symbols class ss (f_data symtab) (match ss !! Z.to_nat (f_link symtab) with Some s => f_data s | None => [] end)
    (Z.to_nat (Z.of_nat (length (f_data symtab)) / sym_entsize class)) 0 = Some (Ok (syms, names)) ->
  read_relocations class ss names ss = Ok relocs ->
  parse_elf bytes = Some (Ok (mkElfFile class (h_etype h) (h_machine h) (h_flags h) ss syms relocs)).
Proof.
  intros Hl H4 H5 H6 Hh Hr Hs Hd Hss Hf Hsy Hre. unfold parse_elf. rewrite (proj2 (Nat.ltb_ge _ _)), H4, bool_decide_eq_true_2, H5, H6 by done.
  cbn [negb orb]. change (default 0 (Some 1) =? 1) with true.
  assert (Ec : (let b4 := default 0 (Some (match class with Elf32 => 1 | Elf64 => 2 end)) in
    if b4 =? 1 then Ok Elf32 else if b4 =? 2 then Ok Elf64 else Err (UnsupportedEncoding "unknown ELF class")) = Ok class) by by destruct class.
  cbv zeta in Ec |- *. rewrite Ec. cbn [try_bind mbind option_bind negb]. rewrite Hh. cbn [try_bind mbind option_bind]. rewrite Hr. cbn [try_bind mbind option_bind].
  rewrite Hs, Hd. cbn [try_bind mbind option_bind]. rewrite Hss. cbn [try_bind mbind option_bind]. rewrite Hf, Hsy. cbn [try_bind mbind option_bind fst snd].
  by rewrite Hre.
Qed.

(** Each section built is where its index says. *)
Lemma built_named obj class symtab sym_index idx rest : length idx = length (o_sections obj) -> symtab < 0xFF00 ->
  (forall k s, o_sections obj !! k = Some s -> exists i, idx !! k = Some i /\ 1 <= i < symtab /\
    built_from obj class symtab sym_index idx !! Z.to_nat (i - 1) = Some (primary s)) ->
  forall k s, o_sections obj !! k = Some s -> exists i, idx !! k = Some i /\ 1 <= i < 0xFF00 /\
    section_name (null_section :: (view_section <$> built_from obj class symtab sym_index idx ++ rest)) (Z.to_nat i) = o_name s.
Proof.
  intros Hl Hs Hidx k s Hk. destruct (Hidx k s Hk) as (i & Hi & Hb & Hp). exists i. split; [done|]. split; [lia|]. eapply section_name_at; [lia|done|done].
Qed.

Lemma weight_relas class symtab sym_index sections : forall idx s, length idx = length sections -> s ∈ sections ->
  Z.of_nat (length (concat (rela_entry class sym_index <$> o_relocs s))) <= weight (concat (zip_with (out_sections class symtab sym_index) sections idx)).
Proof.
  induction sections as [|x sections IH]; intros [|i idx] s Hl Hs; try done; [by apply elem_of_nil in Hs|]. cbn [zip_with concat]. rewrite weight_app.
  pose proof (weight_nonneg (out_sections class symtab sym_index x i)). pose proof (weight_nonneg (concat (zip_with (out_sections class symtab sym_index) sections idx))).
  apply elem_of_cons in Hs as [->|Hs].
  - rewrite out_sections_eq. destruct (decide (o_relocs x = [])) as [->|Hn]; [cbn; lia|].
    pose proof (weight_data (primary x :: [rela_out class symtab sym_index x i]) (rela_out class symtab sym_index x i) ltac:(set_solver)) as Hw. cbn [rela_out s_data] in Hw. lia.
  - specialize (IH idx s ltac:(by injection Hl) Hs). lia.
Qed.

(** The relocations, as [parse_elf] reads them. *)
Lemma read_built_relocations obj fmt symtab sym_index idx all rest : elf_ok obj fmt -> length idx = length (o_sections obj) ->
  weight (built_from obj (elf_class fmt) symtab sym_index idx) <= u64_max ->
  (forall k s, o_sections obj !! k = Some s -> exists i, idx !! k = Some i /\ 1 <= i < 0xFF00 /\ section_name all (Z.to_nat i) = o_name s) ->
  (forall s, s ∈ o_sections obj -> Forall (indexes (elf_class fmt) sym_index ("" :: (y_name <$> all_syms obj))) (o_relocs s)) ->
  read_relocations (elf_class fmt) all ("" :: (y_name <$> all_syms obj)) rest = Ok [] ->
  read_relocations (elf_class fmt) all ("" :: (y_name <$> all_syms obj))
    (null_section :: ((view_section <$> built_from obj (elf_class fmt) symtab sym_index idx) ++ rest)) = Ok (relocs_of (o_sections obj)).
Proof.
  intros H Hl Hw Hn Hix Hr. cbn [read_relocations null_section f_type]. change (0 =? SHT_RELA) with false. cbn match.
  unfold built_from in *. rewrite (read_relocations_spec (elf_class fmt) symtab sym_index all _ _ rest []); [by rewrite app_nil_r|done| | |done].
  - intros k s i Hs Hi. destruct (Hn k s Hs) as (i' & Ei & _ & E). by assert (i = i') as -> by congruence.
  - apply list.Forall_forall. intros s Hs. pose proof (ok_sections _ _ H) as Hk. rewrite list.Forall_forall in Hk. destruct (Hk s Hs) as (_ & _ & Hrel & _).
    split; [|split; [done|by apply Hix]]. etrans; [by apply (weight_relas (elf_class fmt) symtab sym_index (o_sections obj) idx s)|done].
Qed.

(** The file as [parse_elf] reads it. *)
Lemma parse_written obj fmt : elf_ok obj fmt -> exists bytes sections,
  write_elf obj fmt = Some bytes /\ parse_elf bytes = Some (Ok (elf_view obj fmt sections)) /\
  contents (view_section <$> sections) = section_view <$> o_sections obj.
Proof.
  intros H. destruct (build_spec obj fmt H) as (idx & symtab & sym_index & fg & strtab & offs & names & shstrtab &
    Eb & Hsym & Hcount & Hlidx & Hidx & Hout & Hw & Hst & Hst0 & Hnames & Hsh0 & Hix).
  set (B := built_from obj (elf_class fmt) symtab sym_index idx) in *.
  set (out := all_sections obj (elf_class fmt) symtab sym_index idx offs fg strtab shstrtab) in *.
  set (tabs := [symtab_section (elf_class fmt) (symtab + 1) fg (symbol_table obj (elf_class fmt) idx offs); strtab_section ".strtab" (t_data strtab)] ++
    [strtab_section ".shstrtab" (t_data shstrtab)]).
  assert (Eo : out = B ++ tabs) by done.
  assert (Hlen : Z.of_nat (length out) = symtab + 2) by (rewrite Eo, length_app; cbn [tabs app length]; lia).
  destruct (finish_spec fmt out names (symtab + 2) shstrtab) as (bytes & foffs & shoff & Ef & Hb & Hlo & Hbody & T4 & T5 & T6 & T16 & Ehdr & Eraw);
    try apply H; try done; try lia.
  assert (Hu : Z.of_nat (length bytes) <= u64_max) by (unfold u64_max; lia).
  assert (Hln : length names = length out) by (apply Forall2_length in Hnames; rewrite length_fmap in Hnames; lia).
  assert (Hbo : Forall2 (body_at bytes) out foffs) by (eapply Forall2_impl; [exact Hbody|]; by intros ? ? [_ ?]).
  assert (Hsyms : Forall (symbol_ok (elf_class fmt)) (all_syms obj)) by (eapply Forall_impl; [by apply (all_syms_ok obj fmt)|]; by intros ? [? _]).
  assert (Hd : forall s, s ∈ out -> Z.of_nat (length (s_data s)) <= u64_max) by (intros s Hs%weight_data; unfold u64_max; lia).
  assert (Hnamed : forall k s, o_sections obj !! k = Some s -> exists i, idx !! k = Some i /\ 1 <= i < 0xFF00 /\
    section_name (null_section :: (view_section <$> out)) (Z.to_nat i) = o_name s) by (apply built_named; [done|lia|done]).
  assert (Hlast : out !! Z.to_nat (symtab + 1) = Some (strtab_section ".shstrtab" (t_data shstrtab)))
    by (rewrite Eo, lookup_app_r by lia; by replace (Z.to_nat (symtab + 1) - length B)%nat with 2%nat by lia).
  assert (Hstr : out !! Z.to_nat symtab = Some (strtab_section ".strtab" (t_data strtab)))
    by (rewrite Eo, lookup_app_r by lia; by replace (Z.to_nat symtab - length B)%nat with 1%nat by lia).
  destruct (raws_lookup _ foffs names _ _ Hlast Hbo Hln) as (off & name & Er & Hoff).
  exists bytes, out. split; [by rewrite write_elf_finish, Eb|]. split.
  - unfold elf_view. eapply (parse_steps bytes (elf_class fmt) (mkHeader _ _ _ _ _ _ _) _ _ _
      (view_section (symtab_section (elf_class fmt) (symtab + 1) fg (symbol_table obj (elf_class fmt) idx offs)))); [done|done|done|done|exact Ehdr| | | | | | |]; cbn [h_shoff h_shentsize h_shnum h_shstrndx].
    + replace (Z.to_nat (Z.of_nat (length out) + 1)) with (S (length out)) by lia. exact Eraw.
    + replace (Z.to_nat (symtab + 2)) with (S (Z.to_nat (symtab + 1))) by lia. exact Er.
    + apply (section_data_at _ _ _ _ Hoff Hu).
    + apply read_sections_null; [done|]. by apply (read_sections_spec (elf_class fmt)).
    + unfold find_symtab. cbn [List.find null_section f_type]. change (0 =? SHT_SYMTAB) with false. cbn match. rewrite Eo, fmap_app.
      transitivity (find_symtab (view_section <$> tabs)); [apply find_symtab_skip|done].
    + cbn [view_section symtab_section f_data f_link s_data s_link s_type]. change (SHT_SYMTAB =? SHT_NOBITS) with false. cbn match.
      replace (Z.to_nat (symtab + 1)) with (S (Z.to_nat symtab)) by lia. rewrite lookup_cons, list_lookup_fmap, Hstr. cbn [fmap option_fmap option_map view_section strtab_section f_data s_data s_type].
      change (SHT_STRTAB =? SHT_NOBITS) with false. cbn match. erewrite read_symtab; [|apply (Hd (symtab_section (elf_class fmt) (symtab + 1) fg (symbol_table obj (elf_class fmt) idx offs)));
        rewrite Eo; unfold tabs; set_solver|done|done|done]. do 3 f_equal.
      apply list_fmap_ext. intros i sym Hi. apply view_symbol_eq; [exact Hnamed|]. pose proof (all_syms_ok obj fmt H) as Hall. by apply (Forall_lookup_1 _ _ _ _ Hall Hi).
    + rewrite Eo, fmap_app. apply (read_built_relocations obj fmt); [done|done| | |done|done].
      * pose proof (weight_nonneg tabs). rewrite Eo, weight_app in Hw. fold B. unfold u64_max. lia.
      * intros k s Hs. destruct (Hnamed k s Hs) as (i & Hi & Hbi & E). exists i. split; [done|]. split; [done|]. by rewrite <- fmap_app, <- Eo.
  - rewrite Eo. unfold contents. rewrite fmap_app, list.filter_app. fold (contents (view_section <$> B)). unfold B, built_from. rewrite contents_built by done. apply app_nil_r.
Qed.

(** ** The round trip *)

(** C14: on an object whose names are text and whose numbers fit the class of the
    format, [write_elf] does not panic, and [parse_elf] accepts its output: it
    reads back the header fields; the object's sections in order, with their
    contents, type, flags, size and alignment; the symbols, locals first and the
    synthesised undefined ones last, each with the name of its section; and
    every relocation of every section with its offset, type, addend and the name
    of its symbol. *)
Theorem elf_roundtrip (obj : ObjectFile) (fmt : ObjectFormatInfo) : elf_ok obj fmt ->
  exists bytes file, write_elf obj fmt = Some bytes /\ parse_elf bytes = Some (Ok file) /\
    elf_file_class file = elf_class fmt /\ etype file = ET_REL /\ machine file = elf_machine fmt /\ file_flags file = elf_flags fmt /\
    contents (sections file) = section_view <$> o_sections obj /\
    symbols file = symbol_view obj <$> all_syms obj /\
    relocations file = relocs_of (o_sections obj).
Proof.
  intros H. destruct (parse_written obj fmt H) as (bytes & ss & Ew & Ep & Ec). exists bytes, (elf_view obj fmt ss).
  split; [exact Ew|]. split; [exact Ep|]. do 4 (split; [reflexivity|]). split; [|split; reflexivity].
  unfold contents, elf_view. cbn [sections]. rewrite filter_cons_False by by intros [|]. exact Ec.
Qed.

(** A 64-bit object with a call to an undefined function, uninitialised data and
    initialised data that refers to the code. *)
Definition sample_object : ObjectFile :=
  mkObject [mkSection ".text" Text 16 [0xE8; 0; 0; 0; 0; 0xC3] [mkReloc 1 "puts" 4 (-4); mkReloc 3 "f" 2 5] [];
            mkSection ".bss" UninitializedData 8 [0; 0; 0] [] []; mkSection ".data" Data 4 [1; 2; 3; 4] [mkReloc 0 "main" 2 7] []]
    [mkSymbol "main" (Some 0%nat) 0 6 Global Func; mkSymbol "f" (Some 2%nat) 1 2 Local Object].
Definition sample_format (class : ElfClass) : ObjectFormatInfo := mkFormat 62 class 7 (fun _ => None) (fun _ => None) (fun _ => 0) (fun _ => true).

Lemma elf_roundtrip_witness : exists bytes file, write_elf sample_object (sample_format Elf64) = Some bytes /\ parse_elf bytes = Some (Ok file) /\
  elf_file_class file = Elf64 /\ etype file = ET_REL /\ machine file = 62 /\ file_flags file = 7 /\
  contents (sections file) = section_view <$> o_sections sample_object /\
  symbols file = symbol_view sample_object <$> all_syms sample_object /\ relocations file = relocs_of (o_sections sample_object).
Proof.
  apply (elf_roundtrip sample_object (sample_format Elf64)). split.
  1-2: done.
  1: by repeat constructor; vm_compute.
  1: by repeat constructor; vm_compute.
  1-2: by vm_compute.
  intros out names last E. vm_compute in E. injection E as <- _ _. by vm_compute.
Defined.

(** The reader panics instead of reporting a malformed file: a section header that
    names a string past the end of the string table, here a file of one section
    that is its own empty string table. *)
Example name_past_table : parse_elf ([0x7F; 0x45; 0x4C; 0x46; 2; 1; 1] ++ replicate 9 0 ++
  le_bytes 2 1 ++ le_bytes 2 62 ++ le_bytes 4 1 ++ le_bytes 8 0 ++ le_bytes 8 0 ++ le_bytes 8 64 ++ le_bytes 4 0 ++
  le_bytes 2 64 ++ le_bytes 2 0 ++ le_bytes 2 0 ++ le_bytes 2 64 ++ le_bytes 2 1 ++ le_bytes 2 0 ++ le_bytes 4 1 ++ replicate 60 0) = None.
Proof. vm_compute. reflexivity. Qed.
