(* ===== verification/Encode.v ===== *)
(** * Instruction encodings ([core/src/backend/binary/encodings.rs])

    An instruction's encoding is a list of shapes, each a fixed bit map with the
    guard over the operands that selects it. [encode_with] picks a shape and
    scatters the operands into its word, [decode_with] matches a word and
    gathers them back, [patch_with] fills a field that was left zero. An
    operation is what the engines read of it: the register ports of its opcode,
    its attributes, its SSA operands and results. A [u128] is a [Z] below
    [2 ^ 128]; the outer [option] is a panic (a shift past the width, an
    arithmetic overflow). The operand cache of [Operands] is not modelled: an
    operand is the same each time it is read. *)
From Stdlib Require Import String.
From S2P Require Import Prelude Words ObjFile.
From stdpp Require Import strings.
#[local] Open Scope Z_scope.
#[local] Open Scope list_scope.

(** ** Machine integers *)

Definition u128_max : Z := 2 ^ 128 - 1.
Definition as_u128 (v : Z) : Z := v mod 2 ^ 128.
Definition as_i128 (v : Z) : Z := if v <? 2 ^ 127 then v else v - 2 ^ 128.

(** Shifts of [u128] and [u64]: bits past the top are lost. *)
Definition shl (w v s : Z) : option Z := if s <? w then Some (Z.shiftl v s mod 2 ^ w) else None.
Definition shr (w v s : Z) : option Z := if s <? w then Some (Z.shiftr v s) else None.
Definition add_u16 (a b : Z) : option Z := if a + b <? 2 ^ 16 then Some (a + b) else None.

(** ** Runs *)

Record FieldRun := mkRun { op_lo : Z; word_lo : Z; run_width : Z }.

Definition run_mask (width : Z) : Z := if 128 <=? width then u128_max else Z.ones width.

Fixpoint scatter (word value : Z) (runs : list FieldRun) : option Z :=
  match runs with
  | [] => Some word
  | run :: runs =>
      v ← shr 128 value (op_lo run);
      v ← shl 128 (Z.land v (run_mask (run_width run))) (word_lo run);
      scatter (Z.lor word v) value runs
  end.

Fixpoint gather_from (value word : Z) (runs : list FieldRun) : option Z :=
  match runs with
  | [] => Some value
  | run :: runs =>
      v ← shr 32 word (word_lo run);
      v ← shl 64 (Z.land v (wrap64 (run_mask (run_width run)))) (op_lo run);
      gather_from (Z.lor value v) word runs
  end.
Definition gather (word : Z) (runs : list FieldRun) : option Z := gather_from 0 word runs.

(** ** Guards *)

Inductive CmpOp := Eq | Ne | Lt | Le | Gt | Ge | ULt | ULe | UGt | UGe.

Inductive Guard :=
  | GTrue
  | Not (guard : Guard)
  | And (guards : list Guard)
  | Or (guards : list Guard)
  | Bit (op : string) (bit : Z)
  | SliceEq (op : string) (lo hi value : Z)
  | SignedFits (op : string) (width bits : Z)
  | UnsignedFits (op : string) (width bits : Z)
  | Cmp (op : string) (width cmp_width : Z) (cmp : CmpOp) (value : Z)
  | Same (a b : string) (width : Z).

Inductive Truth := No | Yes | Undecided.
#[export] Instance Truth_eq_dec : EqDecision Truth.
Proof. solve_decision. Defined.

Definition truth_of (value : bool) : Truth := if value then Yes else No.
Definition truth_not (t : Truth) : Truth := match t with No => Yes | Yes => No | Undecided => Undecided end.
Definition truth_and (a b : Truth) : Truth :=
  match a, b with No, _ | _, No => No | Undecided, _ | _, Undecided => Undecided | _, _ => Yes end.
Definition truth_or (a b : Truth) : Truth :=
  match a, b with Yes, _ | _, Yes => Yes | Undecided, _ | _, Undecided => Undecided | _, _ => No end.

(** ** Operations and their operands ([core/src/backend/registers.rs]) *)

Notation BlockId := nat (only parsing).
Notation ValueId := nat (only parsing).

(** Of a [RegClassInfo], the registers of the class. *)
Record RegClass := mkClass { class_name : string; registers : list Z }.
Notation PhysReg := (RegClass * Z)%type.

(** [OtherAttr] stands for the kinds of attribute that are no operand. *)
Inductive AttributeValue :=
  | Str (s : string)
  | Int (v : Z)
  | UInt (v : Z)
  | Register (class : RegClass) (index : Z)
  | Block (b : BlockId)
  | OtherAttr.

(** Of a [RegPort], what resolving a slot reads. *)
Record RegPort := mkPort { port_name : string; port_def : bool }.

Record OpHandle := mkOp {
  op_id : string * string; op_ports : list RegPort; op_attributes : list (string * AttributeValue);
  op_operands : list ValueId; op_results : list ValueId }.

Definition attr (op : OpHandle) (name : string) : option AttributeValue :=
  snd <$> List.find (fun a => bool_decide (a.1 = name)) (op_attributes op).

Inductive RegSlot := Value (v : ValueId) | Phys (r : PhysReg).

Fixpoint reg_slots_from (op : OpHandle) (ports : list RegPort) (next_operand next_result : nat) : list (string * RegSlot) :=
  match ports with
  | [] => []
  | port :: ports =>
      match attr op (port_name port) with
      | Some (Register class index) => (port_name port, Phys (class, index)) :: reg_slots_from op ports next_operand next_result
      | Some _ => reg_slots_from op ports next_operand next_result
      | None =>
          let slot := if port_def port then op_results op !! next_result else op_operands op !! next_operand in
          let rest := if port_def port then reg_slots_from op ports next_operand (S next_result)
                      else reg_slots_from op ports (S next_operand) next_result in
          match slot with Some v => (port_name port, Value v) :: rest | None => rest end
      end
  end.
Definition reg_slots (op : OpHandle) : list (string * RegSlot) := reg_slots_from op (op_ports op) 0 0.
Definition reg_slot (op : OpHandle) (name : string) : option RegSlot :=
  snd <$> List.find (fun s => bool_decide (s.1 = name)) (reg_slots op).

Notation RegAssignment := (gmap ValueId (RegClass * Z)) (only parsing).

Definition slot_register (slot : RegSlot) (assignment : RegAssignment) : option PhysReg :=
  match slot with Phys register => Some register | Value v => assignment !! v end.

Inductive FixupTarget := ToBlock (b : BlockId) | ToSymbol (s : string).

Inductive Operand :=
  | Known (bits signed : Z)
  | Fixup (target : FixupTarget)
  | Missing.

Section Operands.
Context (op : OpHandle) (assignment : RegAssignment).

(** [Operands::get]. *)
Definition get (name : string) : Operand :=
  match reg_slot op name with
  | Some slot =>
      match slot_register slot assignment with
      | Some (_, index) => Known index index
      | None => Missing
      end
  | None =>
      match attr op name with
      | Some (Int v) => Known (as_u128 v) v
      | Some (UInt v) => Known v v
      | Some (Str s) => Fixup (ToSymbol s)
      | Some (Block b) => Fixup (ToBlock b)
      | _ => Missing
      end
  end.
End Operands.

(** A pattern read as two's complement. *)
Definition signed (pattern width : Z) : Z :=
  if (0 <? width) && (width <? 128) && Z.testbit pattern (width - 1)
  then Z.lor (as_i128 pattern) (Z.lnot (as_i128 (run_mask width)))
  else as_i128 pattern.

(** ** Evaluating guards *)

Section Holds.
Context (operands : string -> Operand).

Definition pattern (name : string) (width : Z) : option Z :=
  match operands name with Known bits _ => Some (Z.land bits (run_mask width)) | _ => None end.
Definition is_fixup (name : string) : bool := match operands name with Fixup _ => true | _ => false end.
Definition fixup_fits (name : string) : Truth := if is_fixup name then No else Undecided.

(** A leaf that reads the pattern of an operand. *)
Definition on_pattern (p : option Z) (unknown : Truth) (test : Z -> option bool) : option Truth :=
  match p with Some p => truth_of <$> test p | None => Some unknown end.

Definition compare (cmp : CmpOp) (p rhs at_ : Z) : bool :=
  match cmp with
  | Eq => p =? rhs
  | Ne => negb (p =? rhs)
  | Lt => signed p at_ <? signed rhs at_
  | Le => signed p at_ <=? signed rhs at_
  | Gt => signed rhs at_ <? signed p at_
  | Ge => signed rhs at_ <=? signed p at_
  | ULt => p <? rhs
  | ULe => p <=? rhs
  | UGt => rhs <? p
  | UGe => rhs <=? p
  end.

(** [1i128 << (bits - 1)] and its negation. *)
Definition signed_limit (bits : Z) : option Z := if (1 <=? bits) && (bits <? 128) then Some (2 ^ (bits - 1)) else None.

Fixpoint holds (guard : Guard) : option Truth :=
  match guard with
  | GTrue => Some Yes
  | Not guard => truth_not <$> holds guard
  | And guards => fold_left (fun acc guard => acc ← acc; t ← holds guard; Some (truth_and acc t)) guards (Some Yes)
  | Or guards => fold_left (fun acc guard => acc ← acc; t ← holds guard; Some (truth_or acc t)) guards (Some No)
  | Bit op bit =>
      width ← add_u16 bit 1;
      on_pattern (pattern op width) Undecided (fun p => v ← shr 128 p bit; Some (Z.land v 1 =? 1))
  | SliceEq op lo hi value =>
      width ← add_u16 hi 1;
      on_pattern (pattern op width) Undecided (fun p => v ← shr 128 p lo; Some (v =? value))
  | SignedFits op width bits =>
      on_pattern (pattern op width) (fixup_fits op)
        (fun p => limit ← signed_limit bits; Some ((- limit <=? signed p width) && (signed p width <? limit)))
  | UnsignedFits op width bits =>
      on_pattern (pattern op width) (fixup_fits op) (fun p => limit ← shl 128 1 bits; Some (p <? limit))
  | Cmp op width cmp_width cmp value =>
      on_pattern (pattern op width) Undecided
        (fun p => Some (compare cmp p (Z.land (as_u128 value) (run_mask cmp_width)) cmp_width))
  | Same a b width =>
      match pattern a width, pattern b width with
      | Some a, Some b => Some (truth_of (a =? b))
      | _, _ => Some Undecided
      end
  end.
End Holds.

(** ** Encoding *)

Record EncodeField := mkEncodeField {
  e_attr : string; int_range : option (Z * Z * Z); align_mask : Z; nonzero : bool; e_runs : list FieldRun }.
Record PatchField := mkPatchField { p_attr : string; p_range : option (Z * Z); dropped_mask : Z; p_runs : list FieldRun }.
Record EncodeShape := mkEncodeShape {
  shape_guard : Guard; const_word : Z; width_bytes : nat; e_fields : list EncodeField; patch : list PatchField }.
Record EncodeSpec := mkEncodeSpec { e_shapes : list EncodeShape; spec_width_bytes : nat * nat }.

Record EncodedFixup := mkFixup { x_target : FixupTarget; x_patch : PatchField }.
Record EncodedInst := mkInst { i_bytes : list Z; i_fixups : list EncodedFixup }.

Fixpoint select (operands : string -> Operand) (shapes : list EncodeShape) : option (option EncodeShape) :=
  match shapes with
  | [] => Some None
  | shape :: shapes =>
      t ← holds operands (shape_guard shape);
      if decide (t = Yes) then Some (Some shape) else select operands shapes
  end.

(** The conditions under which the value of a field has an encoding. *)
Definition in_range (field : EncodeField) (bits signed : Z) : bool :=
  match int_range field with
  | Some (min, max, umax) => ((min <=? signed) && (signed <? max)) || (bits <? umax)
  | None => true
  end.
Definition encodable (field : EncodeField) (bits signed : Z) : bool :=
  in_range field bits signed && (Z.land bits (align_mask field) =? 0) && negb (nonzero field && (bits =? 0)).

Definition find_patch (shape : EncodeShape) (name : string) : option PatchField :=
  List.find (fun p => bool_decide (p_attr p = name)) (patch shape).

Fixpoint encode_fields (operands : string -> Operand) (shape : EncodeShape) (fields : list EncodeField)
    (word : Z) (fixups : list EncodedFixup) : option (option (Z * list EncodedFixup)) :=
  match fields with
  | [] => Some (Some (word, fixups))
  | field :: fields =>
      match operands (e_attr field) with
      | Missing => Some None
      | Fixup target =>
          match find_patch shape (e_attr field) with
          | None => Some None
          | Some p => encode_fields operands shape fields word (fixups ++ [mkFixup target p])
          end
      | Known bits signed =>
          if encodable field bits signed then
            word ← scatter word bits (e_runs field);
            encode_fields operands shape fields word fixups
          else Some None
      end
  end.

Definition encode_shape (operands : string -> Operand) (shape : EncodeShape) : option (option EncodedInst) :=
  r ← encode_fields operands shape (e_fields shape) (const_word shape) [];
  match r with
  | None => Some None
  | Some (word, fixups) =>
      if (width_bytes shape <=? 16)%nat then Some (Some (mkInst (le_bytes (width_bytes shape) word) fixups)) else None
  end.

Definition encode_operands (operands : string -> Operand) (spec : EncodeSpec) : option (option EncodedInst) :=
  shape ← select operands (e_shapes spec);
  match shape with None => Some None | Some shape => encode_shape operands shape end.

(** ** Patching *)

Fixpoint runs_past (width_bits : Z) (runs : list FieldRun) : option bool :=
  match runs with
  | [] => Some false
  | run :: runs => e ← add_u16 (word_lo run) (run_width run); if width_bits <? e then Some true else runs_past width_bits runs
  end.

Definition patch_with (bytes : list Z) (value : Z) (field : PatchField) : option (option (list Z)) :=
  let fits := match p_range field with Some (min, max) => (min <=? value) && (value <? max) | None => true end in
  if negb fits then Some None
  else if negb (dropped_mask field =? 0) && negb (Z.land (as_u128 value) (dropped_mask field) =? 0) then Some None
  else
    let len := Nat.min (length bytes) 16 in
    past ← runs_past (8 * Z.of_nat len) (p_runs field);
    if past : bool then Some None
    else
      word ← scatter (le_value (take 16 bytes)) (as_u128 value) (p_runs field);
      Some (Some (le_bytes len word ++ drop len bytes)).

(** ** Decoding *)

Inductive DecodeFieldKind := RegisterField (class : RegClass) | IntField.
Record DecodeField := mkDecodeField { d_attr : string; d_kind : DecodeFieldKind; d_runs : list FieldRun }.
Record DecodeShape := mkDecodeShape { fixed_mask : Z; d_const_word : Z; d_fields : list DecodeField }.
Record DecodeSpec := mkDecodeSpec { d_op : string * string; d_shapes : list DecodeShape; d_attrs : list string }.

(** The greatest of [op_lo + width], or 0. *)
Fixpoint op_bits (runs : list FieldRun) : option Z :=
  match runs with
  | [] => Some 0
  | run :: runs => e ← add_u16 (op_lo run) (run_width run); bits ← op_bits runs; Some (Z.max e bits)
  end.

Definition register_index (class : RegClass) (value : Z) (runs : list FieldRun) : option Z :=
  bits ← op_bits runs;
  let low := if 16 <=? bits then 2 ^ 16 - 1 else Z.ones bits in
  let high := match registers class with [] => 0 | r :: _ => Z.ldiff r low end in
  if forallb (fun r => Z.ldiff r low =? high) (registers class) then Some (Z.lor high (value mod 2 ^ 16))
  else Some (value mod 2 ^ 16).

Definition decode_field (word : Z) (field : DecodeField) : option (string * AttributeValue) :=
  value ← gather word (d_runs field);
  match d_kind field with
  | RegisterField class => index ← register_index class value (d_runs field); Some (d_attr field, Register class index)
  | IntField => Some (d_attr field, Int (as_i64 value))
  end.

Section Decode.
(** The ports each opcode declares, a table the machine description generates. *)
Context (ports_of : string * string -> list RegPort).

Definition decode_with (word : Z) (spec : DecodeSpec) : option (option OpHandle) :=
  match List.find (fun shape => Z.land word (fixed_mask shape) =? d_const_word shape) (d_shapes spec) with
  | None => Some None
  | Some shape =>
      attributes ← mapM (decode_field word) (d_fields shape);
      if forallb (fun declared => existsb (fun a => bool_decide (a.1 = declared)) attributes) (d_attrs spec)
      then Some (Some (mkOp (d_op spec) (ports_of (d_op spec)) attributes [] []))
      else None
  end.
End Decode.

Definition encode_with (op : OpHandle) (spec : EncodeSpec) (assignment : RegAssignment) : option (option EncodedInst) :=
  encode_operands (get op assignment) spec.

Definition encoded_width (op : OpHandle) (spec : EncodeSpec) (assignment : RegAssignment) : option nat :=
  match e_shapes spec with
  | [shape] => Some (width_bytes shape)
  | shapes =>
      shape ← select (get op assignment) shapes;
      match shape with None => Some (spec_width_bytes spec).2 | Some shape => Some (width_bytes shape) end
  end.
