(* ===== verification/EncodeBits.v ===== *)
(** * The bits of an encoding

    [spread] and [collect] are [scatter] and [gather] as total functions on
    bits; [cover] is the set of operand bits the runs of a field carry.
    [shape_ok] is what the generator guarantees of a shape: runs inside the
    word, apart from each other and from the fixed bits. Under it [encode_shape]
    has a closed form, gathering a field gives back the operand's covered
    bits ([collect_field]), and guards, shapes and fields depend on the operands
    they name only. *)
From Stdlib Require Import String.
From S2P Require Import Prelude Words ObjFile Encode.
From stdpp Require Import strings.
#[local] Open Scope Z_scope.
#[local] Open Scope list_scope.

#[export] Instance FieldRun_eq_dec : EqDecision FieldRun.
Proof. solve_decision. Defined.

(** ** Runs on bits *)

Definition in_word (r : FieldRun) (k : Z) : bool := (word_lo r <=? k) && (k <? word_lo r + run_width r).
Definition in_op (r : FieldRun) (i : Z) : bool := (op_lo r <=? i) && (i <? op_lo r + run_width r).

Definition spread (value : Z) (runs : list FieldRun) : Z :=
  foldr (fun r w => Z.lor (Z.shiftl (Z.land (Z.shiftr value (op_lo r)) (Z.ones (run_width r))) (word_lo r)) w) 0 runs.
Definition collect (word : Z) (runs : list FieldRun) : Z :=
  foldr (fun r v => Z.lor (Z.shiftl (Z.land (Z.shiftr word (word_lo r)) (Z.ones (run_width r))) (op_lo r)) v) 0 runs.
Definition cover (runs : list FieldRun) : Z := foldr (fun r m => Z.lor (Z.shiftl (Z.ones (run_width r)) (op_lo r)) m) 0 runs.
(** The word bits of the runs. *)
Definition footprint (runs : list FieldRun) : Z := foldr (fun r m => Z.lor (Z.shiftl (Z.ones (run_width r)) (word_lo r)) m) 0 runs.

(** A run of a word of [bits] bits. *)
Definition run_ok (bits : Z) (r : FieldRun) : bool :=
  (0 <=? op_lo r) && (0 <=? word_lo r) && (1 <=? run_width r) && (op_lo r + run_width r <=? 128) && (word_lo r + run_width r <=? bits).

Lemma run_ok_spec bits r : run_ok bits r = true <->
  0 <= op_lo r /\ 0 <= word_lo r /\ 1 <= run_width r /\ op_lo r + run_width r <= 128 /\ word_lo r + run_width r <= bits.
Proof. unfold run_ok. rewrite !andb_true_iff, !Z.leb_le. tauto. Qed.

Lemma run_mask_ones w : 0 <= w <= 128 -> run_mask w = Z.ones w.
Proof. intros H. unfold run_mask. destruct (Z.leb_spec 128 w); [|done]. by replace w with 128 by lia. Qed.

Lemma piece_testbit v lo hi w k : 0 <= lo -> 0 <= hi -> 0 <= w -> 0 <= k ->
  Z.testbit (Z.shiftl (Z.land (Z.shiftr v lo) (Z.ones w)) hi) k = (hi <=? k) && (k <? hi + w) && Z.testbit v (k - hi + lo).
Proof.
  intros. rewrite Z.shiftl_spec by lia. destruct (Z.leb_spec hi k); cbn [andb].
  - rewrite Z.land_spec, Z.shiftr_spec, Z.testbit_ones_nonneg by lia.
    destruct (Z.ltb_spec (k - hi) w), (Z.ltb_spec k (hi + w)); try lia; by rewrite ?andb_true_r, ?andb_false_r.
  - by rewrite Z.testbit_neg_r by lia.
Qed.

Lemma piece_nonneg v lo hi w : 0 <= hi -> 0 <= w -> 0 <= Z.shiftl (Z.land (Z.shiftr v lo) (Z.ones w)) hi.
Proof. intros. apply Z.shiftl_nonneg, Z.land_nonneg. right. rewrite Z.ones_equiv. pose proof (pow2_pos w). lia. Qed.

Lemma piece_bound v lo hi w bits : 0 <= lo -> 0 <= hi -> 0 <= w -> hi + w <= bits ->
  0 <= Z.shiftl (Z.land (Z.shiftr v lo) (Z.ones w)) hi < 2 ^ bits.
Proof.
  intros. apply testbit_bounded; [lia|by apply piece_nonneg|]. intros k Hk. rewrite piece_testbit by lia.
  by rewrite (proj2 (Z.ltb_ge k (hi + w))), andb_false_r by lia.
Qed.

Lemma lor_bound a b n : 0 <= n -> 0 <= a < 2 ^ n -> 0 <= b < 2 ^ n -> 0 <= Z.lor a b < 2 ^ n.
Proof.
  intros Hn Ha Hb. apply testbit_bounded; [done|by apply Z.lor_nonneg; lia|]. intros k Hk.
  by rewrite Z.lor_spec, (bounded_testbit a n), (bounded_testbit b n).
Qed.

Lemma spread_testbit v bits runs k : forallb (run_ok bits) runs = true -> 0 <= k ->
  Z.testbit (spread v runs) k = existsb (fun r => in_word r k && Z.testbit v (k - word_lo r + op_lo r)) runs.
Proof.
  intros H Hk. induction runs as [|r runs IH]; [apply Z.bits_0|]. cbn [forallb] in H. apply andb_true_iff in H as [Hr H].
  apply run_ok_spec in Hr. cbn [spread foldr existsb]. fold (spread v runs). by rewrite Z.lor_spec, piece_testbit, IH by (lia || done).
Qed.

Lemma collect_testbit w bits runs i : forallb (run_ok bits) runs = true -> 0 <= i ->
  Z.testbit (collect w runs) i = existsb (fun r => in_op r i && Z.testbit w (i - op_lo r + word_lo r)) runs.
Proof.
  intros H Hk. induction runs as [|r runs IH]; [apply Z.bits_0|]. cbn [forallb] in H. apply andb_true_iff in H as [Hr H].
  apply run_ok_spec in Hr. cbn [collect foldr existsb]. fold (collect w runs). by rewrite Z.lor_spec, piece_testbit, IH by (lia || done).
Qed.

Lemma ones_shift_testbit w lo i : 0 <= w -> 0 <= lo -> 0 <= i -> Z.testbit (Z.shiftl (Z.ones w) lo) i = (lo <=? i) && (i <? lo + w).
Proof.
  intros. rewrite Z.shiftl_spec by lia. destruct (Z.leb_spec lo i); cbn [andb].
  - rewrite Z.testbit_ones_nonneg by lia. destruct (Z.ltb_spec (i - lo) w), (Z.ltb_spec i (lo + w)); lia || done.
  - by rewrite Z.testbit_neg_r by lia.
Qed.

Lemma cover_testbit bits runs i : forallb (run_ok bits) runs = true -> 0 <= i ->
  Z.testbit (cover runs) i = existsb (fun r => in_op r i) runs.
Proof.
  intros H Hk. induction runs as [|r runs IH]; [apply Z.bits_0|]. cbn [forallb] in H. apply andb_true_iff in H as [Hr H].
  apply run_ok_spec in Hr. cbn [cover foldr existsb]. fold (cover runs). by rewrite Z.lor_spec, ones_shift_testbit, IH by (lia || done).
Qed.

Lemma footprint_testbit bits runs k : forallb (run_ok bits) runs = true -> 0 <= k ->
  Z.testbit (footprint runs) k = existsb (fun r => in_word r k) runs.
Proof.
  intros H Hk. induction runs as [|r runs IH]; [apply Z.bits_0|]. cbn [forallb] in H. apply andb_true_iff in H as [Hr H].
  apply run_ok_spec in Hr. cbn [footprint foldr existsb]. fold (footprint runs). by rewrite Z.lor_spec, ones_shift_testbit, IH by (lia || done).
Qed.

Lemma spread_bound v bits runs : 0 <= bits -> forallb (run_ok bits) runs = true -> 0 <= spread v runs < 2 ^ bits.
Proof.
  intros Hb. induction runs as [|r runs IH]; cbn [forallb]; [intros _; cbn; pose proof (pow2_pos bits); lia|].
  intros [Hr H]%andb_true_iff. apply run_ok_spec in Hr. apply lor_bound; [done|apply piece_bound; lia|by apply IH].
Qed.

Lemma scatter_spread bits word v runs : 0 <= bits <= 128 -> 0 <= word < 2 ^ bits -> forallb (run_ok bits) runs = true ->
  scatter word v runs = Some (Z.lor word (spread v runs)).
Proof.
  intros Hb. revert word. induction runs as [|r runs IH]; intros word Hw H; [cbn; by rewrite Z.lor_0_r|].
  cbn [forallb] in H. apply andb_true_iff in H as [Hr H]. apply run_ok_spec in Hr.
  cbn [scatter spread foldr]. fold (spread v runs). unfold shr, shl.
  rewrite (proj2 (Z.ltb_lt (op_lo r) 128)), run_mask_ones by lia. cbn [mbind option_bind].
  rewrite (proj2 (Z.ltb_lt (word_lo r) 128)) by lia. cbn [mbind option_bind].
  pose proof (piece_bound v (op_lo r) (word_lo r) (run_width r) bits).
  assert (2 ^ bits <= 2 ^ 128) by (apply Z.pow_le_mono_r; lia).
  rewrite Z.mod_small by lia. rewrite IH; [by rewrite Z.lor_assoc|apply lor_bound; lia|done].
Qed.

(** Runs of an operand of at most 63 bits in a 32-bit word. *)
Definition narrow (r : FieldRun) : bool := run_ok 32 r && (op_lo r + run_width r <=? 63).

Lemma narrow_ok runs : forallb narrow runs = true -> forallb (run_ok 32) runs = true.
Proof. rewrite !forallb_forall. intros H r Hr. by apply H, andb_true_iff in Hr as []. Qed.

Lemma collect_bound w runs : forallb narrow runs = true -> 0 <= collect w runs < 2 ^ 63.
Proof.
  induction runs as [|r runs IH]; cbn [forallb]; [done|]. unfold narrow at 1. rewrite !andb_true_iff, Z.leb_le.
  intros [[Hr Hb] H]. apply run_ok_spec in Hr. apply lor_bound; [done|apply piece_bound; lia|by apply IH].
Qed.

Lemma gather_collect word runs : forallb narrow runs = true -> gather word runs = Some (collect word runs).
Proof.
  intros H. enough (Hg : forall acc, 0 <= acc < 2 ^ 63 -> gather_from acc word runs = Some (Z.lor acc (collect word runs))) by by apply Hg.
  induction runs as [|r runs IH]; intros acc Ha; [cbn; by rewrite Z.lor_0_r|].
  cbn [forallb] in H. unfold narrow at 1 in H. rewrite !andb_true_iff, Z.leb_le in H. destruct H as [[Hr Hb] H]. apply run_ok_spec in Hr.
  cbn [gather_from collect foldr]. fold (collect word runs). unfold shr, shl.
  rewrite (proj2 (Z.ltb_lt (word_lo r) 32)), run_mask_ones by lia. cbn [mbind option_bind].
  rewrite (proj2 (Z.ltb_lt (op_lo r) 64)) by lia. cbn [mbind option_bind].
  assert (wrap64 (Z.ones (run_width r)) = Z.ones (run_width r)) as ->.
  { apply wrap64_small. unfold is_u64. rewrite Z.ones_equiv. pose proof (pow2_pos (run_width r)).
    assert (2 ^ run_width r <= 2 ^ 64) by (apply Z.pow_le_mono_r; lia). lia. }
  pose proof (piece_bound word (word_lo r) (op_lo r) (run_width r) 63). rewrite Z.mod_small by lia.
  rewrite IH; [by rewrite Z.lor_assoc|done|apply lor_bound; lia].
Qed.

(** ** Well-formed shapes *)

Fixpoint all_pairs {A} (R : A -> A -> bool) (l : list A) : bool :=
  match l with [] => true | x :: l => forallb (R x) l && all_pairs R l end.

Definition apart (a b : FieldRun) : bool := (word_lo a + run_width a <=? word_lo b) || (word_lo b + run_width b <=? word_lo a).
Definition fields_apart (f g : EncodeField) : bool :=
  negb (bool_decide (e_attr f = e_attr g)) && forallb (fun a => forallb (apart a) (e_runs g)) (e_runs f).
Definition field_ok (bits const : Z) (f : EncodeField) : bool :=
  forallb (run_ok bits) (e_runs f) && all_pairs apart (e_runs f) && (Z.land const (footprint (e_runs f)) =? 0).

Definition shape_bits (s : EncodeShape) : Z := 8 * Z.of_nat (width_bytes s).
Definition shape_ok (s : EncodeShape) : bool :=
  (width_bytes s <=? 16)%nat && (0 <=? const_word s) && (const_word s <? 2 ^ shape_bits s) &&
  forallb (field_ok (shape_bits s) (const_word s)) (e_fields s) && all_pairs fields_apart (e_fields s).

(** A guard whose tests do not overflow. *)
Fixpoint guard_ok (g : Guard) : bool :=
  match g with
  | GTrue => true
  | Not g => guard_ok g
  | And gs | Or gs => forallb guard_ok gs
  | Bit _ bit => (0 <=? bit) && (bit <? 128)
  | SliceEq _ lo hi _ => (0 <=? lo) && (lo <=? hi) && (hi <? 128)
  | SignedFits _ _ bits => (1 <=? bits) && (bits <? 128)
  | UnsignedFits _ _ bits => (0 <=? bits) && (bits <? 128)
  | Cmp _ _ _ _ _ | Same _ _ _ => true
  end.

Definition spec_ok (spec : EncodeSpec) : bool := forallb (fun s => shape_ok s && guard_ok (shape_guard s)) (e_shapes spec).

Definition operand_ok (o : Operand) : Prop := match o with Known bits _ => 0 <= bits < 2 ^ 128 | _ => True end.

Lemma all_pairs_elem {A} (R : A -> A -> bool) l x y : all_pairs R l = true -> x ∈ l -> y ∈ l -> x = y \/ R x y = true \/ R y x = true.
Proof.
  induction l as [|z l IH]; [by intros _ ?%elem_of_nil|]. cbn [all_pairs]. rewrite andb_true_iff, forallb_forall.
  intros [Hz Hl] [->|Hx]%elem_of_cons [->|Hy]%elem_of_cons; auto.
  - right. left. by apply Hz, list_elem_of_In.
  - right. right. by apply Hz, list_elem_of_In.
Qed.

Lemma apart_excl a b k : in_word a k = true -> in_word b k = true -> apart a b = true \/ apart b a = true -> False.
Proof. unfold in_word, apart. rewrite !andb_true_iff, !orb_true_iff, !Z.leb_le, !Z.ltb_lt. lia. Qed.

Lemma fields_apart_excl f g a b k : fields_apart f g = true -> a ∈ e_runs f -> b ∈ e_runs g -> in_word a k = true -> in_word b k = true -> False.
Proof.
  unfold fields_apart. rewrite andb_true_iff, forallb_forall. intros [_ H] Ha%list_elem_of_In Hb%list_elem_of_In Ka Kb.
  specialize (H a Ha). rewrite forallb_forall in H. apply (apart_excl a b k); auto.
Qed.

Lemma shape_ok_spec s : shape_ok s = true -> (width_bytes s <= 16)%nat /\ 0 <= const_word s < 2 ^ shape_bits s /\
  (forall f, f ∈ e_fields s -> field_ok (shape_bits s) (const_word s) f = true) /\ all_pairs fields_apart (e_fields s) = true.
Proof.
  unfold shape_ok. rewrite !andb_true_iff, Nat.leb_le, Z.leb_le, Z.ltb_lt, forallb_forall. intros [[[[H1 H2] H3] H4] H5].
  split; [done|]. split; [done|]. split; [|done]. intros f Hf%list_elem_of_In. by apply H4.
Qed.

Lemma field_ok_spec bits const f : field_ok bits const f = true ->
  forallb (run_ok bits) (e_runs f) = true /\ all_pairs apart (e_runs f) = true /\ Z.land const (footprint (e_runs f)) = 0.
Proof. unfold field_ok. by rewrite !andb_true_iff, Z.eqb_eq; intros [[? ?] ?]. Qed.

Lemma shape_bits_le s : (width_bytes s <= 16)%nat -> 0 <= shape_bits s <= 128.
Proof. unfold shape_bits. lia. Qed.

(** Attributes of distinct fields are distinct. *)
Lemma field_by_attr s f g : shape_ok s = true -> f ∈ e_fields s -> g ∈ e_fields s -> e_attr f = e_attr g -> f = g.
Proof.
  intros (_ & _ & _ & Hp)%shape_ok_spec Hf Hg E. destruct (all_pairs_elem _ _ f g Hp Hf Hg) as [|[H|H]]; [done| |];
    unfold fields_apart in H; apply andb_true_iff in H as [H _]; by rewrite bool_decide_eq_true_2 in H.
Qed.

(** ** The closed form of [encode_fields] *)

Definition known_bits (o : Operand) : Z := match o with Known bits _ => bits | _ => 0 end.
Definition is_known (o : Operand) : bool := match o with Known _ _ => true | _ => false end.

Section Fields.
Context (operands : string -> Operand).

Definition field_bits (f : EncodeField) : Z := spread (known_bits (operands (e_attr f))) (e_runs f).
Definition fields_bits (fields : list EncodeField) : Z := foldr (fun f w => Z.lor (field_bits f) w) 0 fields.
Definition accepts (s : EncodeShape) (f : EncodeField) : bool :=
  match operands (e_attr f) with
  | Known bits signed => encodable f bits signed
  | Fixup _ => bool_decide (is_Some (find_patch s (e_attr f)))
  | Missing => false
  end.
Definition fixups_of (s : EncodeShape) (fields : list EncodeField) : list EncodedFixup :=
  concat ((fun f => match operands (e_attr f), find_patch s (e_attr f) with Fixup t, Some p => [mkFixup t p] | _, _ => [] end) <$> fields).

Lemma spread_0 runs : spread 0 runs = 0.
Proof. induction runs as [|r runs IH]; [done|]. cbn [spread foldr]. fold (spread 0 runs). by rewrite Z.shiftr_0_l, Z.land_0_l, Z.shiftl_0_l, IH. Qed.

Lemma encode_fields_closed s fields : forall bits word fixups, 0 <= bits <= 128 -> 0 <= word < 2 ^ bits ->
  forallb (fun f => forallb (run_ok bits) (e_runs f)) fields = true ->
  encode_fields operands s fields word fixups =
    Some (if forallb (accepts s) fields then Some (Z.lor word (fields_bits fields), fixups ++ fixups_of s fields) else None).
Proof.
  induction fields as [|f fields IH]; intros bits word fixups Hb Hw H; [cbn; by rewrite Z.lor_0_r, app_nil_r|].
  cbn [forallb] in H. apply andb_true_iff in H as [Hf H]. cbn [encode_fields forallb fixups_of fields_bits foldr fmap list_fmap concat].
  fold (fields_bits fields). change (concat _) with (fixups_of s fields). unfold accepts at 1, field_bits.
  destruct (operands (e_attr f)) as [b v|t|] eqn:E; cbn [known_bits andb].
  - destruct (encodable f b v); [|done]. rewrite (scatter_spread bits) by done. cbn [mbind option_bind].
    rewrite (IH bits) by (done || (apply lor_bound; [lia|done|by apply spread_bound; [lia|]])). cbn [andb app]. by rewrite Z.lor_assoc.
  - destruct (find_patch s (e_attr f)) as [p|]; [|by rewrite bool_decide_eq_false_2 by by intros [? ?]].
    rewrite bool_decide_eq_true_2 by done. rewrite (IH bits) by done. rewrite spread_0, Z.lor_0_l. cbn [andb app]. by rewrite <- app_assoc.
  - done.
Qed.

Lemma fields_bits_bound fields bits : 0 <= bits -> forallb (fun f => forallb (run_ok bits) (e_runs f)) fields = true ->
  0 <= fields_bits fields < 2 ^ bits.
Proof.
  intros Hb. induction fields as [|f fields IH]; cbn [forallb fields_bits foldr]; [pose proof (pow2_pos bits); lia|].
  intros [Hf H]%andb_true_iff. apply lor_bound; [done|by apply spread_bound|by apply IH].
Qed.

Lemma fields_bits_testbit fields k : Z.testbit (fields_bits fields) k = existsb (fun f => Z.testbit (field_bits f) k) fields.
Proof.
  induction fields as [|f fields IH]; [apply Z.bits_0|]. cbn [fields_bits foldr existsb]. fold (fields_bits fields). by rewrite Z.lor_spec, IH.
Qed.

Definition shape_word (s : EncodeShape) : Z := Z.lor (const_word s) (fields_bits (e_fields s)).

Lemma shape_runs_ok s : shape_ok s = true -> forallb (fun f => forallb (run_ok (shape_bits s)) (e_runs f)) (e_fields s) = true.
Proof.
  intros (_ & _ & H & _)%shape_ok_spec. apply forallb_forall. intros f Hf%list_elem_of_In. by apply H, field_ok_spec in Hf as [].
Qed.

Lemma shape_word_bound s : shape_ok s = true -> 0 <= shape_word s < 2 ^ shape_bits s.
Proof.
  intros Hs. pose proof (shape_ok_spec _ Hs) as (Hw & Hc & _). pose proof (shape_bits_le s Hw).
  apply lor_bound; [lia|done|]. apply fields_bits_bound; [lia|by apply shape_runs_ok].
Qed.

(** What encoding with a shape gives. *)
Lemma encode_shape_closed s : shape_ok s = true ->
  encode_shape operands s =
    Some (if forallb (accepts s) (e_fields s) then Some (mkInst (le_bytes (width_bytes s) (shape_word s)) (fixups_of s (e_fields s))) else None).
Proof.
  intros Hs. pose proof (shape_ok_spec _ Hs) as (Hw & Hc & _). unfold encode_shape.
  rewrite (encode_fields_closed s _ (shape_bits s)); [|by apply shape_bits_le|done|by apply shape_runs_ok].
  cbn [mbind option_bind]. destruct (forallb _ _); [|done]. rewrite (proj2 (Nat.leb_le _ _)) by done. done.
Qed.
End Fields.

(** ** Gathering a field gives back its operand *)

Section Collect.
Context (operands : string -> Operand) (s : EncodeShape) (Hs : shape_ok s = true).

(** At a word bit of a run, the word of the shape holds the operand bit of the run. *)
Lemma shape_word_run f r k : f ∈ e_fields s -> r ∈ e_runs f -> in_word r k = true ->
  Z.testbit (shape_word operands s) k = Z.testbit (known_bits (operands (e_attr f))) (k - word_lo r + op_lo r).
Proof using Hs.
  intros Hf Hr Hk. pose proof (shape_ok_spec _ Hs) as (_ & _ & Hok & Hap).
  destruct (field_ok_spec _ _ _ (Hok f Hf)) as (Hruns & Hpairs & Hconst).
  assert (Hk0 : 0 <= k).
  { rewrite forallb_forall in Hruns. specialize (Hruns r ltac:(by apply list_elem_of_In)). apply run_ok_spec in Hruns.
    unfold in_word in Hk. rewrite andb_true_iff, Z.leb_le, Z.ltb_lt in Hk. lia. }
  unfold shape_word. rewrite Z.lor_spec, fields_bits_testbit.
  assert (Z.testbit (const_word s) k = false) as ->.
  { apply (f_equal (fun z => Z.testbit z k)) in Hconst. rewrite Z.land_spec, Z.bits_0, (footprint_testbit (shape_bits s)) in Hconst by done.
    apply andb_false_iff in Hconst as [?|E]; [done|]. exfalso. rewrite <- not_true_iff_false in E. apply E, existsb_exists.
    exists r. split; [by apply list_elem_of_In|done]. }
  cbn [orb]. apply eq_true_iff_eq. rewrite existsb_exists. split.
  - intros (g & Hg%list_elem_of_In & Hb). unfold field_bits in Hb. destruct (field_ok_spec _ _ _ (Hok g Hg)) as (Hgruns & _ & _).
    rewrite (spread_testbit _ (shape_bits s)) in Hb by done. apply existsb_exists in Hb as (r' & Hr'%list_elem_of_In & Hb).
    apply andb_true_iff in Hb as [Hk' Hb]. destruct (all_pairs_elem _ _ f g Hap Hf Hg) as [->|[H|H]].
    + destruct (all_pairs_elem _ _ r r' Hpairs Hr Hr') as [->|H]; [done|]. exfalso. by apply (apart_excl r r' k).
    + exfalso. by apply (fields_apart_excl f g r r' k).
    + exfalso. by apply (fields_apart_excl g f r' r k).
  - intros Hb. exists f. split; [by apply list_elem_of_In|]. unfold field_bits. rewrite (spread_testbit _ (shape_bits s)) by done.
    apply existsb_exists. exists r. split; [by apply list_elem_of_In|]. by rewrite Hk.
Qed.

(** Bits outside the fields are the fixed bits. *)
Lemma shape_word_fixed k : 0 <= k -> (forall f, f ∈ e_fields s -> Z.testbit (footprint (e_runs f)) k = false) ->
  Z.testbit (shape_word operands s) k = Z.testbit (const_word s) k.
Proof using Hs.
  intros Hk H. unfold shape_word. rewrite Z.lor_spec, fields_bits_testbit. pose proof (shape_ok_spec _ Hs) as (_ & _ & Hok & _).
  destruct (existsb _ _) eqn:E; [|apply orb_false_r]. exfalso. apply existsb_exists in E as (f & Hf%list_elem_of_In & Hb).
  specialize (H f Hf). unfold field_bits in Hb. destruct (field_ok_spec _ _ _ (Hok f Hf)) as (Hruns & _ & _).
  rewrite (spread_testbit _ (shape_bits s)) in Hb by done. rewrite (footprint_testbit (shape_bits s)) in H by done.
  apply existsb_exists in Hb as (r & Hr & Hb). apply andb_true_iff in Hb as [Hb _].
  apply not_true_iff_false in H. apply H, existsb_exists. eauto.
Qed.

Lemma collect_field w f : f ∈ e_fields s -> (forall k, 0 <= k < shape_bits s -> Z.testbit w k = Z.testbit (shape_word operands s) k) ->
  collect w (e_runs f) = Z.land (known_bits (operands (e_attr f))) (cover (e_runs f)).
Proof using Hs.
  intros Hf Hw. pose proof (shape_ok_spec _ Hs) as (_ & _ & Hok & _). destruct (field_ok_spec _ _ _ (Hok f Hf)) as (Hruns & _ & _).
  apply Z.bits_inj'. intros i Hi. rewrite (collect_testbit _ (shape_bits s)), Z.land_spec, (cover_testbit (shape_bits s)) by done.
  rewrite andb_comm. assert (He : forall r, r ∈ e_runs f -> in_op r i && Z.testbit w (i - op_lo r + word_lo r) = in_op r i && Z.testbit (known_bits (operands (e_attr f))) i).
  { intros r Hr. destruct (in_op r i) eqn:E; [|done]. cbn [andb]. rewrite forallb_forall in Hruns.
    specialize (Hruns r ltac:(by apply list_elem_of_In)). apply run_ok_spec in Hruns.
    unfold in_op in E. rewrite andb_true_iff, Z.leb_le, Z.ltb_lt in E. rewrite Hw by lia.
    rewrite (shape_word_run f r) by (done || unfold in_word; rewrite andb_true_iff, Z.leb_le, Z.ltb_lt; lia). f_equal. lia. }
  clear -He. induction (e_runs f) as [|r runs IH]; [done|]. cbn [existsb]. rewrite He, IH by set_solver. by rewrite andb_orb_distrib_l.
Qed.
End Collect.

(** ** What guards read *)

(** The operands a guard reads, each with the width it reads it at. *)
Fixpoint reads (g : Guard) : list (string * Z) :=
  match g with
  | GTrue => []
  | Not g => reads g
  | And gs | Or gs => concat (reads <$> gs)
  | Bit op bit => [(op, bit + 1)]
  | SliceEq op _ hi _ => [(op, hi + 1)]
  | SignedFits op w _ | UnsignedFits op w _ | Cmp op w _ _ _ => [(op, w)]
  | Same a b w => [(a, w); (b, w)]
  end.

(** Induction with the hypothesis for each conjunct. *)
Lemma guard_nested_ind (P : Guard -> Prop) :
  P GTrue -> (forall g, P g -> P (Not g)) -> (forall gs, Forall P gs -> P (And gs)) -> (forall gs, Forall P gs -> P (Or gs)) ->
  (forall op bit, P (Bit op bit)) -> (forall op lo hi v, P (SliceEq op lo hi v)) -> (forall op w b, P (SignedFits op w b)) ->
  (forall op w b, P (UnsignedFits op w b)) -> (forall op w cw c v, P (Cmp op w cw c v)) -> (forall a b w, P (Same a b w)) ->
  forall g, P g.
Proof.
  intros H0 Hnot Hand Hor H1 H2 H3 H4 H5 H6. fix IH 1. intros g. destruct g as [|g|gs|gs| | | | | |].
  - apply H0.
  - apply Hnot, IH.
  - apply Hand. induction gs as [|g gs IHgs]; constructor; [apply IH|apply IHgs].
  - apply Hor. induction gs as [|g gs IHgs]; constructor; [apply IH|apply IHgs].
  - apply H1.
  - apply H2.
  - apply H3.
  - apply H4.
  - apply H5.
  - apply H6.
Qed.

(** The folds of [And] and [Or] over tests that do not fail. *)
Definition truths (op : Truth -> Truth -> Truth) (unit : Truth) (l : list Truth) : Truth := fold_left op l unit.

Lemma fold_holds (f : Guard -> option Truth) (op : Truth -> Truth -> Truth) gs ts : mapM f gs = Some ts -> forall unit,
  fold_left (fun acc g => acc ← acc; t ← f g; Some (op acc t)) gs (Some unit) = Some (truths op unit ts).
Proof.
  revert ts. induction gs as [|g gs IH]; intros ts H unit; [by injection H as <-|]. cbn [mapM] in H. unfold mbind, option_bind in H.
  cbn in H. destruct (f g) as [t|] eqn:E; [|done]. cbn in H. destruct (mapM f gs) as [ts'|] eqn:E2; [|done]. injection H as <-.
  cbn [fold_left]. cbn [mbind option_bind]. rewrite E. cbn [mbind option_bind]. by rewrite (IH ts').
Qed.

Lemma on_pattern_is_Some p u test : (forall p, is_Some (test p)) -> is_Some (on_pattern p u test).
Proof. intros H. destruct p as [p|]; [|done]. cbn. destruct (H p) as [b ->]. done. Qed.

Lemma forallb_Forall {A} (f : A -> bool) (P : A -> Prop) l : Forall (fun x => f x = true -> P x) l -> forallb f l = true -> Forall P l.
Proof. induction 1; cbn [forallb]; [constructor|]. intros [??]%andb_true_iff. constructor; auto. Qed.

(** Guards that are well formed do not panic. *)
Lemma holds_total operands g : guard_ok g = true -> is_Some (holds operands g).
Proof.
  induction g as [|g IH|gs IH|gs IH|op bit|op lo hi v|op w b|op w b|op w cw c v|a b w] using guard_nested_ind; cbn [guard_ok]; intros H.
  - done.
  - destruct (IH H) as [t E]. cbn [holds]. by rewrite E.
  - cbn [holds]. destruct (mapM_is_Some_2 (holds operands) gs) as [ts E].
    { by apply (forallb_Forall guard_ok). }
    by rewrite (fold_holds _ _ _ ts).
  - cbn [holds]. destruct (mapM_is_Some_2 (holds operands) gs) as [ts E].
    { by apply (forallb_Forall guard_ok). }
    by rewrite (fold_holds _ _ _ ts).
  - rewrite andb_true_iff, Z.leb_le, Z.ltb_lt in H. cbn [holds]. unfold add_u16. rewrite (proj2 (Z.ltb_lt _ _)) by lia. cbn [mbind option_bind].
    apply on_pattern_is_Some. intros p. unfold shr. by rewrite (proj2 (Z.ltb_lt _ _)) by lia.
  - rewrite !andb_true_iff, !Z.leb_le, Z.ltb_lt in H. cbn [holds]. unfold add_u16. rewrite (proj2 (Z.ltb_lt _ _)) by lia. cbn [mbind option_bind].
    apply on_pattern_is_Some. intros p. unfold shr. by rewrite (proj2 (Z.ltb_lt _ _)) by lia.
  - cbn [holds]. apply on_pattern_is_Some. intros p. unfold signed_limit. by rewrite H.
  - rewrite andb_true_iff, Z.leb_le, Z.ltb_lt in H. cbn [holds]. apply on_pattern_is_Some. intros p. unfold shl.
    by rewrite (proj2 (Z.ltb_lt _ _)) by lia.
  - cbn [holds]. by apply on_pattern_is_Some.
  - cbn [holds]. by destruct (pattern operands a w), (pattern operands b w).
Qed.

(** Operands that look alike to a guard give it the same value. *)
Definition alike (o o' : string -> Operand) (rs : list (string * Z)) : Prop :=
  forall name w, (name, w) ∈ rs -> pattern o name w = pattern o' name w /\ is_fixup o name = is_fixup o' name.

Lemma fold_left_ext {A B} (f g : A -> B -> A) l : (forall x, x ∈ l -> forall a, f a x = g a x) -> forall a, fold_left f l a = fold_left g l a.
Proof. induction l as [|x l IH]; intros H a; [done|]. cbn [fold_left]. rewrite H, IH by set_solver. done. Qed.

Lemma holds_alike o o' g : alike o o' (reads g) -> holds o g = holds o' g.
Proof.
  induction g as [|g IH|gs IH|gs IH|op bit|op lo hi v|op w b|op w b|op w cw c v|a b w] using guard_nested_ind; intros H.
  - done.
  - cbn [holds]. by rewrite IH.
  - cbn [holds]. apply fold_left_ext. intros g Hg a. rewrite list.Forall_forall in IH. rewrite (IH g); [done..|].
    intros n w Hn. apply H. cbn [reads]. apply list_elem_of_In, in_concat. exists (reads g). split; apply list_elem_of_In; [by apply list_elem_of_fmap_2|done].
  - cbn [holds]. apply fold_left_ext. intros g Hg a. rewrite list.Forall_forall in IH. rewrite (IH g); [done..|].
    intros n w Hn. apply H. cbn [reads]. apply list_elem_of_In, in_concat. exists (reads g). split; apply list_elem_of_In; [by apply list_elem_of_fmap_2|done].
  - cbn [holds]. unfold add_u16. destruct (bit + 1 <? 2 ^ 16); [|done]. cbn [mbind option_bind]. destruct (H op (bit + 1)) as [-> _]; [set_solver|done].
  - cbn [holds]. unfold add_u16. destruct (hi + 1 <? 2 ^ 16); [|done]. cbn [mbind option_bind]. destruct (H op (hi + 1)) as [-> _]; [set_solver|done].
  - cbn [holds]. unfold fixup_fits. destruct (H op w) as [-> ->]; [set_solver|done].
  - cbn [holds]. unfold fixup_fits. destruct (H op w) as [-> ->]; [set_solver|done].
  - cbn [holds]. destruct (H op w) as [-> _]; [set_solver|done].
  - cbn [holds]. destruct (H a w) as [-> _]; [set_solver|]. destruct (H b w) as [-> _]; [set_solver|done].
Qed.

Definition spec_reads (spec : EncodeSpec) : list (string * Z) := concat ((fun s => reads (shape_guard s)) <$> e_shapes spec).

Lemma select_alike o o' spec : alike o o' (spec_reads spec) -> select o (e_shapes spec) = select o' (e_shapes spec).
Proof.
  unfold spec_reads. induction (e_shapes spec) as [|s shapes IH]; [done|]. cbn [fmap list_fmap concat select]. intros H.
  rewrite (holds_alike o o') by (intros n w Hn; apply H; set_solver). destruct (holds o' (shape_guard s)) as [t|]; [|done].
  cbn [mbind option_bind]. destruct (decide (t = Yes)); [done|]. apply IH. intros name w Hn. apply H. set_solver.
Qed.

Lemma select_total o spec : spec_ok spec = true -> exists r, select o (e_shapes spec) = Some r /\
  match r with Some s => s ∈ e_shapes spec /\ shape_ok s = true | None => True end.
Proof.
  unfold spec_ok. induction (e_shapes spec) as [|s shapes IH]; cbn [forallb select]; [by exists None|].
  rewrite !andb_true_iff. intros [[Hs Hg] H]. destruct (holds_total o _ Hg) as [t ->]. cbn [mbind option_bind].
  destruct (decide (t = Yes)); [exists (Some s); set_solver|]. destruct (IH H) as ([r|] & -> & Hr); [|by exists None].
  exists (Some r). split; [done|]. set_solver.
Qed.

Lemma encode_shape_ext o o' s : shape_ok s = true -> (forall f, f ∈ e_fields s -> o (e_attr f) = o' (e_attr f)) ->
  encode_shape o s = encode_shape o' s.
Proof.
  intros Hs H. unfold encode_shape. enough (E : forall word fixups, encode_fields o s (e_fields s) word fixups = encode_fields o' s (e_fields s) word fixups) by by rewrite E.
  induction (e_fields s) as [|f fields IH]; intros word fixups; [done|]. cbn [encode_fields]. rewrite H by set_solver.
  destruct (o' (e_attr f)); [|by destruct (find_patch _ _); [apply IH; set_solver|]|done].
  destruct (encodable _ _ _); [|done]. destruct (scatter _ _ _); [|done]. apply IH. set_solver.
Qed.
