(* ===== verification/EncodeTheorems.v ===== *)
(** * Instruction encodings: theorems

    What the table-driven engines promise. [encode_with] refuses an instruction
    for a stated reason or gives a word that holds the fixed bits of a shape and
    every operand in its field ([encode_with_spec]); [decode_with] undoes it
    ([decode_encode]); patching a fixup gives the bytes that encoding the resolved
    value would have given ([patch_is_encoding]). *)
From Stdlib Require Import String.
From S2P Require Import Prelude Words ObjFile Encode EncodeBits.
From stdpp Require Import strings.
#[local] Open Scope Z_scope.
#[local] Open Scope list_scope.

(** ** Register slots *)

Lemma reg_slots_attr op name ports : forall a b,
  match attr op name with
  | Some (Register c i) => name ∈ (port_name <$> ports) ->
      List.find (fun s : string * RegSlot => bool_decide (s.1 = name)) (reg_slots_from op ports a b) = Some (name, Phys (c, i))
  | Some _ => List.find (fun s : string * RegSlot => bool_decide (s.1 = name)) (reg_slots_from op ports a b) = None
  | None => True
  end.
Proof.
  induction ports as [|[n def] ports IH]; intros a b.
  { destruct (attr op name) as [[]|]; try done. by intros ?%elem_of_nil. }
  cbn [reg_slots_from port_name port_def fmap list_fmap]. destruct (decide (n = name)) as [->|Hn].
  - pose proof (IH a b) as Ha. destruct (attr op name) as [[]|] eqn:E; try done. intros _. cbn. by rewrite bool_decide_eq_true_2.
  - assert (Hskip : forall v a b, match attr op name with
      | Some (Register c i) => name ∈ n :: (port_name <$> ports) ->
          List.find (fun s : string * RegSlot => bool_decide (s.1 = name)) ((n, v) :: reg_slots_from op ports a b) = Some (name, Phys (c, i))
      | Some _ => List.find (fun s : string * RegSlot => bool_decide (s.1 = name)) ((n, v) :: reg_slots_from op ports a b) = None
      | None => True end).
    { intros v a' b'. specialize (IH a' b'). cbn [List.find fst]. rewrite bool_decide_eq_false_2 by done.
      destruct (attr op name) as [[]|]; try done. intros [->|H]%elem_of_cons; [done|by apply IH]. }
    assert (Hpass : forall a b, match attr op name with
      | Some (Register c i) => name ∈ n :: (port_name <$> ports) ->
          List.find (fun s : string * RegSlot => bool_decide (s.1 = name)) (reg_slots_from op ports a b) = Some (name, Phys (c, i))
      | Some _ => List.find (fun s : string * RegSlot => bool_decide (s.1 = name)) (reg_slots_from op ports a b) = None
      | None => True end).
    { intros a' b'. specialize (IH a' b'). destruct (attr op name) as [[]|]; try done. intros [->|H]%elem_of_cons; [done|by apply IH]. }
    destruct (attr op n) as [[]|]; [apply Hpass|apply Hpass|apply Hpass|apply Hskip|apply Hpass|apply Hpass|].
    destruct (if def then _ else _) as [v|]; [destruct def; apply Hskip|destruct def; apply Hpass].
Qed.

Lemma reg_slot_register op name c i : attr op name = Some (Register c i) -> name ∈ (port_name <$> op_ports op) -> reg_slot op name = Some (Phys (c, i)).
Proof. intros E H. pose proof (reg_slots_attr op name (op_ports op) 0 0) as Hs. rewrite E in Hs. unfold reg_slot, reg_slots. by rewrite Hs. Qed.

Lemma reg_slot_int op name v : attr op name = Some (Int v) -> reg_slot op name = None.
Proof. intros E. pose proof (reg_slots_attr op name (op_ports op) 0 0) as Hs. rewrite E in Hs. unfold reg_slot, reg_slots. by rewrite Hs. Qed.

(** ** Encoding *)

Lemma elem_accepts o s : forallb (accepts o s) (e_fields s) = false -> exists f, f ∈ e_fields s /\ accepts o s f = false.
Proof.
  induction (e_fields s) as [|f fields IH]; [done|]. cbn [forallb]. destruct (accepts o s f) eqn:E; [|exists f; set_solver].
  intros (g & Hg & H)%IH. exists g. set_solver.
Qed.

(** The word of a shape as numbers on its bits: the fixed bits, and each operand
    in the bits its field carries, zero where the operand is a fixup. *)
Definition spells (operands : string -> Operand) (s : EncodeShape) (word : Z) : Prop :=
  0 <= word < 2 ^ shape_bits s /\
  (forall f, f ∈ e_fields s -> collect word (e_runs f) = Z.land (known_bits (operands (e_attr f))) (cover (e_runs f))) /\
  (forall k, 0 <= k -> (forall f, f ∈ e_fields s -> Z.testbit (footprint (e_runs f)) k = false) -> Z.testbit word k = Z.testbit (const_word s) k).

Lemma shape_word_spells o s : shape_ok s = true -> spells o s (shape_word o s).
Proof.
  intros Hs. split; [by apply shape_word_bound|]. split; [intros f Hf; by apply (collect_field o s)|]. intros k Hk Hf. by apply shape_word_fixed.
Qed.

(** C11: Encoding with well-formed tables never panics. It refuses exactly when no
    guard selects a shape, or a field of the selected shape does not accept
    its operand: it has no value, its value does not fit, or it is a fixup and the
    shape has no patch for it. Otherwise the bytes hold the fixed bits of the
    first shape whose guard holds and every operand in its field, and the
    fixups are the operands left to resolve, in order. *)
Theorem encode_with_spec (op : OpHandle) (spec : EncodeSpec) (assignment : gmap nat (RegClass * Z)) :
  spec_ok spec = true ->
  exists r, encode_with op spec assignment = Some r /\
  match r with
  | None => select (get op assignment) (e_shapes spec) = Some None \/
      exists s f, select (get op assignment) (e_shapes spec) = Some (Some s) /\ f ∈ e_fields s /\ accepts (get op assignment) s f = false
  | Some inst => exists s, select (get op assignment) (e_shapes spec) = Some (Some s) /\
      length (i_bytes inst) = width_bytes s /\ bytes_ok (i_bytes inst) /\ spells (get op assignment) s (le_value (i_bytes inst)) /\
      i_fixups inst = fixups_of (get op assignment) s (e_fields s)
  end.
Proof.
  intros Hok. unfold encode_with, encode_operands. destruct (select_total (get op assignment) spec Hok) as ([s|] & E & Hs).
  - rewrite E. cbn [mbind option_bind]. destruct Hs as [_ Hs]. rewrite encode_shape_closed by done. eexists. split; [done|].
    destruct (forallb _ _) eqn:Ha.
    + exists s. cbn [i_bytes i_fixups]. rewrite length_le_bytes, le_value_le_bytes.
      split; [done|]. split; [done|]. split; [apply le_bytes_ok|]. split; [|done].
      rewrite Z.mod_small by by apply shape_word_bound. by apply shape_word_spells.
    + right. apply elem_accepts in Ha as (f & Hf & Ha). exists s, f. done.
  - rewrite E. cbn [mbind option_bind]. exists None. split; [done|]. by left.
Qed.

(** ** Decoding undoes encoding *)

(** A decoding shape that reads an encoding shape backwards. *)
Definition mirrors (s : EncodeShape) (d : DecodeShape) : bool :=
  (width_bytes s <=? 4)%nat && (d_const_word d =? const_word s) && (Z.land (const_word s) (fixed_mask d) =? const_word s) &&
  (0 <=? fixed_mask d) && (fixed_mask d <? 2 ^ shape_bits s) &&
  forallb (fun f => forallb narrow (e_runs f) && (Z.land (fixed_mask d) (footprint (e_runs f)) =? 0)) (e_fields s) &&
  bool_decide (Forall2 (fun f df => e_attr f = d_attr df /\ e_runs f = d_runs df) (e_fields s) (d_fields d)).

(** Shapes that no word matches both of. *)
Definition conflicting (a b : DecodeShape) : bool :=
  negb (Z.land (Z.lxor (d_const_word a) (d_const_word b)) (Z.land (fixed_mask a) (fixed_mask b)) =? 0).

(** A register field holds the low bits of an index; the class completes it. *)
Definition completes (class : RegClass) (runs : list FieldRun) (index : Z) : Prop :=
  exists n, 0 <= n /\ op_bits runs = Some n /\ cover runs = Z.ones n /\
  (forall r, r ∈ registers class -> 0 <= r < 2 ^ 16) /\ index ∈ registers class /\
  ((forall r, r ∈ registers class -> Z.ldiff r (Z.ones n) = Z.ldiff index (Z.ones n)) \/ index < 2 ^ n).

(** The attribute that decoding gives for a field: the register a slot ended up
    in, or an immediate whose bits are all carried. *)
Inductive decodable (op : OpHandle) (assignment : gmap nat (RegClass * Z)) (f : EncodeField) : DecodeFieldKind -> AttributeValue -> Prop :=
  | decodable_register class c index :
      (slot ← reg_slot op (e_attr f); slot_register slot assignment) = Some (c, index) ->
      completes class (e_runs f) index -> decodable op assignment f (RegisterField class) (Register class index)
  | decodable_int v :
      reg_slot op (e_attr f) = None -> attr op (e_attr f) = Some (Int v) \/ attr op (e_attr f) = Some (UInt v) ->
      0 <= v -> Z.land v (cover (e_runs f)) = v -> decodable op assignment f IntField (Int v).

Lemma lor_ldiff_land a m : Z.lor (Z.ldiff a m) (Z.land a m) = a.
Proof. apply Z.bits_inj'. intros k Hk. rewrite Z.lor_spec, Z.ldiff_spec, Z.land_spec. by destruct (Z.testbit a k), (Z.testbit m k). Qed.

Lemma register_index_completes class runs index : completes class runs index ->
  register_index class (Z.land index (cover runs)) runs = Some index.
Proof.
  intros (n & Hn & Hb & Hc & Hr & Hi & Hd). unfold register_index. rewrite Hb, Hc. cbn [mbind option_bind].
  pose proof (Hr index Hi) as Hri. assert (Hmod : Z.land index (Z.ones n) mod 2 ^ 16 = Z.land index (Z.ones n)).
  { apply Z.mod_small. rewrite Z.land_ones by done. pose proof (Z.mod_pos_bound index (2 ^ n) (pow2_pos n Hn)).
    pose proof (Z.mod_le index (2 ^ n)). pose proof (pow2_pos n Hn). lia. }
  rewrite Hmod. set (low := if 16 <=? n then 2 ^ 16 - 1 else Z.ones n).
  assert (Hlow : Z.land index (Z.ones n) = Z.land index low).
  { unfold low. destruct (Z.leb_spec 16 n); [|done]. change (2 ^ 16 - 1) with (Z.ones 16). rewrite !Z.land_ones by lia.
    assert (2 ^ 16 <= 2 ^ n) by (apply Z.pow_le_mono_r; lia). by rewrite !Z.mod_small by lia. }
  set (high := match registers class with [] => 0 | r :: _ => Z.ldiff r low end).
  destruct (forallb (fun r => Z.ldiff r low =? high) (registers class)) eqn:E.
  - rewrite forallb_forall in E. assert (Z.ldiff index low = high) as <- by by apply Z.eqb_eq, E, list_elem_of_In.
    rewrite Hlow. by rewrite lor_ldiff_land.
  - f_equal. rewrite Z.land_ones by done. destruct Hd as [Hd|Hd]; [|apply Z.mod_small; lia]. exfalso. apply not_true_iff_false in E. apply E.
    assert (Hdl : forall r, r ∈ registers class -> Z.ldiff r low = Z.ldiff index low).
    { intros r Hrr. unfold low. destruct (Z.leb_spec 16 n); [|by apply Hd]. change (2 ^ 16 - 1) with (Z.ones 16).
      rewrite !Z.ldiff_ones_r by lia. pose proof (Hr r Hrr). by rewrite !Z.shiftr_div_pow2, !Z.div_small by lia. }
    apply forallb_forall. intros r Hrr%list_elem_of_In. apply Z.eqb_eq. rewrite (Hdl r Hrr). unfold high.
    destruct (registers class) as [|r0 rs]; [by apply elem_of_nil in Hi|]. symmetry. apply Hdl. set_solver.
Qed.

Lemma cover_bound runs : forallb narrow runs = true -> 0 <= cover runs < 2 ^ 63.
Proof.
  induction runs as [|r runs IH]; cbn [forallb]; [done|]. unfold narrow at 1. rewrite !andb_true_iff, Z.leb_le.
  intros [[Hr Hb] H]. apply run_ok_spec in Hr. apply lor_bound; [done| |by apply IH].
  pose proof (piece_bound (Z.ones (run_width r)) 0 (op_lo r) (run_width r) 63) as Hp. rewrite Z.shiftr_0_r, Z.land_diag in Hp. lia.
Qed.

Lemma covered_bound v runs : forallb narrow runs = true -> Z.land v (cover runs) = v -> 0 <= v -> v < 2 ^ 63.
Proof.
  intros H <- Hv. pose proof (cover_bound runs H). apply (testbit_bounded _ 63); [done|done|]. intros k Hk.
  by rewrite Z.land_spec, (bounded_testbit (cover runs) 63), andb_false_r.
Qed.

Lemma decodable_known op assignment f kind a : forallb narrow (e_runs f) = true -> decodable op assignment f kind a ->
  exists bits, get op assignment (e_attr f) = Known bits bits /\
  match kind, a with
  | RegisterField class, Register class' index => class' = class /\ index = bits /\ completes class (e_runs f) bits
  | IntField, Int v => v = bits /\ 0 <= bits < 2 ^ 63 /\ Z.land bits (cover (e_runs f)) = bits
  | _, _ => False
  end.
Proof.
  intros Hn [class c index E Hc|v E Ha Hv Hcov]; unfold get.
  - exists index. destruct (reg_slot op (e_attr f)) as [slot|]; [|done]. cbn [mbind option_bind] in E. by rewrite E.
  - exists v. pose proof (covered_bound v _ Hn Hcov Hv) as Hb. rewrite E. split; [|done].
    destruct Ha as [-> | ->]; [|done]. f_equal. apply Z.mod_small. lia.
Qed.

(** The attributes decoding builds, field by field. *)
Definition decoded (op : OpHandle) (assignment : gmap nat (RegClass * Z)) (f : EncodeField) (a : string * AttributeValue) : Prop :=
  a.1 = e_attr f /\ exists kind, decodable op assignment f kind a.2.

Lemma decode_fields_spec op assignment s w fields dfields :
  shape_ok s = true -> fields ⊆ e_fields s -> forallb (fun f => forallb narrow (e_runs f)) fields = true ->
  (forall k, 0 <= k < shape_bits s -> Z.testbit w k = Z.testbit (shape_word (get op assignment) s) k) ->
  Forall2 (fun f df => e_attr f = d_attr df /\ e_runs f = d_runs df) fields dfields ->
  Forall2 (fun f df => exists a, decodable op assignment f (d_kind df) a) fields dfields ->
  exists attrs, mapM (decode_field w) dfields = Some attrs /\ Forall2 (decoded op assignment) fields attrs.
Proof.
  intros Hs Hsub Hn Hw Hm Hd. induction Hd as [|f df fields dfields [a Ha] Hd IH]; [exists []; by constructor|].
  inversion Hm as [|? ? ? ? [En Er] Hm']; subst. cbn [forallb] in Hn. apply andb_true_iff in Hn as [Hnf Hn].
  destruct IH as (attrs & E & H); [set_solver|done..|]. destruct (decodable_known _ _ _ _ _ Hnf Ha) as (bits & Eb & Hk).
  assert (Hdec : decode_field w df = Some (e_attr f, a)).
  { unfold decode_field. rewrite <- Er, (gather_collect w) by done. cbn [mbind option_bind].
    rewrite (collect_field (get op assignment) s Hs w f) by (done || set_solver). rewrite Eb. cbn [known_bits]. rewrite <- En.
    destruct (d_kind df) as [class|], a as [| | |class' index| |]; try done.
    - destruct Hk as (-> & -> & Hc). by rewrite register_index_completes.
    - destruct Hk as (-> & Hb & ->). unfold as_i64. by rewrite (proj2 (Z.ltb_lt _ _)) by lia. }
  exists ((e_attr f, a) :: attrs). split; [apply mapM_Some; constructor; [done|by apply mapM_Some]|]. constructor; [|done].
  split; [done|]. by exists (d_kind df).
Qed.

Lemma find_attr op assignment s fields attrs f : shape_ok s = true -> fields ⊆ e_fields s -> Forall2 (decoded op assignment) fields attrs -> f ∈ fields ->
  exists a, List.find (fun a : string * AttributeValue => bool_decide (a.1 = e_attr f)) attrs = Some a /\ decoded op assignment f a.
Proof.
  intros Hs Hsub H. induction H as [|g a fields attrs Ha H IH]; [by intros ?%elem_of_nil|]. intros Hf. cbn [List.find].
  destruct (decide (a.1 = e_attr f)) as [E|E].
  - rewrite bool_decide_eq_true_2 by done. exists a. split; [done|]. replace f with g; [done|].
    apply (field_by_attr s); [done|set_solver..|]. destruct Ha as [<- _]. done.
  - rewrite bool_decide_eq_false_2 by done. apply IH; [set_solver|]. apply elem_of_cons in Hf as [->|]; [|done]. by destruct Ha.
Qed.

(** An encoding table, a shape it selects, and a decoding table that reads the
    shape backwards. *)
Record inverts (ports_of : string * string -> list RegPort) (op : OpHandle) (assignment : gmap nat (RegClass * Z)) (s : EncodeShape)
    (dspec : DecodeSpec) (d : DecodeShape) : Prop := mkInverts {
  inv_shape : shape_ok s = true;
  inv_mirrors : mirrors s d = true;
  inv_in : d ∈ d_shapes dspec;
  inv_conflicting : all_pairs conflicting (d_shapes dspec) = true;
  inv_fields : Forall2 (fun f df => exists a, decodable op assignment f (d_kind df) a) (e_fields s) (d_fields d);
  inv_ports : forall f class index df, f ∈ e_fields s -> decodable op assignment f df (Register class index) ->
    e_attr f ∈ (port_name <$> ports_of (d_op dspec));
  inv_attrs : forall name, name ∈ d_attrs dspec -> name ∈ (e_attr <$> e_fields s) }.

Lemma mirrors_spec s d : mirrors s d = true ->
  (width_bytes s <= 4)%nat /\ d_const_word d = const_word s /\ Z.land (const_word s) (fixed_mask d) = const_word s /\
  0 <= fixed_mask d < 2 ^ shape_bits s /\
  (forall f, f ∈ e_fields s -> forallb narrow (e_runs f) = true /\ Z.land (fixed_mask d) (footprint (e_runs f)) = 0) /\
  Forall2 (fun f df => e_attr f = d_attr df /\ e_runs f = d_runs df) (e_fields s) (d_fields d).
Proof.
  unfold mirrors. rewrite !andb_true_iff, Nat.leb_le, !Z.eqb_eq, Z.leb_le, Z.ltb_lt, bool_decide_eq_true, forallb_forall.
  intros [[[[[[H1 H2] H3] H4] H5] H6] H7]. repeat (split; [done|]). split; [|done]. intros f Hf%list_elem_of_In. specialize (H6 f Hf).
  by rewrite andb_true_iff, Z.eqb_eq in H6.
Qed.

(** The word of a shape, whatever follows it in the fetch window, matches its mirror. *)
Lemma mirror_matches o s d w : shape_ok s = true -> mirrors s d = true ->
  (forall k, 0 <= k < shape_bits s -> Z.testbit w k = Z.testbit (shape_word o s) k) -> Z.land w (fixed_mask d) = d_const_word d.
Proof.
  intros Hs (_ & -> & Hc & Hm & Hf & _)%mirrors_spec Hw. rewrite <- Hc. apply Z.bits_inj'. intros k Hk. rewrite !Z.land_spec.
  destruct (Z.testbit (fixed_mask d) k) eqn:E; [|by rewrite !andb_false_r]. rewrite !andb_true_r.
  destruct (Z.lt_ge_cases k (shape_bits s)) as [Hlt|Hge].
  2: { by rewrite (bounded_testbit (fixed_mask d) (shape_bits s)) in E by (unfold shape_bits in *; lia). }
  rewrite Hw by lia. apply shape_word_fixed; [done..|]. intros f Hin. destruct (Hf f Hin) as [_ H0].
  apply (f_equal (fun z => Z.testbit z k)) in H0. by rewrite Z.land_spec, Z.bits_0, E in H0.
Qed.

Lemma conflicting_excl a b w : conflicting a b = true -> Z.land w (fixed_mask a) = d_const_word a -> Z.land w (fixed_mask b) = d_const_word b -> False.
Proof.
  unfold conflicting. rewrite negb_true_iff, Z.eqb_neq. intros H Ha Hb. apply H. rewrite <- Ha, <- Hb. apply Z.bits_inj'. intros k Hk.
  rewrite !Z.land_spec, Z.lxor_spec, !Z.land_spec, Z.bits_0.
  by destruct (Z.testbit w k), (Z.testbit (fixed_mask a) k), (Z.testbit (fixed_mask b) k).
Qed.

Lemma find_mirror w d shapes : all_pairs conflicting shapes = true -> d ∈ shapes -> Z.land w (fixed_mask d) = d_const_word d ->
  List.find (fun shape => Z.land w (fixed_mask shape) =? d_const_word shape) shapes = Some d.
Proof.
  intros Hp Hd Hm. destruct (List.find _ shapes) as [d'|] eqn:E.
  - apply find_some in E as [Hd'%list_elem_of_In Hm'%Z.eqb_eq]. destruct (all_pairs_elem _ _ d d' Hp Hd Hd') as [->|[H|H]]; [done| |];
      exfalso; by eapply conflicting_excl.
  - pose proof (find_none _ _ E d ltac:(by apply list_elem_of_In)) as Hn. cbn in Hn. by rewrite Hm, Z.eqb_refl in Hn.
Qed.

Lemma fixups_none o s fields : (forall f, f ∈ fields -> is_known (o (e_attr f)) = true) -> fixups_of o s fields = [].
Proof.
  unfold fixups_of. induction fields as [|f fields IH]; intros H; [done|]. cbn [fmap list_fmap concat]. rewrite IH by set_solver.
  specialize (H f ltac:(set_solver)). by destruct (o (e_attr f)).
Qed.

Lemma narrow_fields s d : mirrors s d = true -> forallb (fun f => forallb narrow (e_runs f)) (e_fields s) = true.
Proof. intros (_ & _ & _ & _ & H & _)%mirrors_spec. apply forallb_forall. intros f Hf%list_elem_of_In. by apply H. Qed.

(** The operand of a field of the decoded operation. *)
Lemma get_decoded ports_of op assignment s dspec d attrs f : inverts ports_of op assignment s dspec d ->
  Forall2 (decoded op assignment) (e_fields s) attrs -> f ∈ e_fields s ->
  get (mkOp (d_op dspec) (ports_of (d_op dspec)) attrs [] []) ∅ (e_attr f) = get op assignment (e_attr f).
Proof.
  intros Hi Ha Hf. set (op' := mkOp _ _ _ _ _).
  destruct (find_attr op assignment s (e_fields s) attrs f (inv_shape _ _ _ _ _ _ Hi)) as (a & E & _ & kind & Hk); [done..|].
  assert (Hattr : attr op' (e_attr f) = Some a.2) by (unfold attr; cbn [op_attributes op']; by rewrite E).
  pose proof (narrow_fields _ _ (inv_mirrors _ _ _ _ _ _ Hi)) as Hn. rewrite forallb_forall in Hn. specialize (Hn f ltac:(by apply list_elem_of_In)).
  destruct (decodable_known _ _ _ _ _ Hn Hk) as (bits & -> & Hm). unfold get.
  destruct kind as [class|], (a.2) as [| | |class' index| |] eqn:Ea; try done.
  - destruct Hm as (-> & -> & _). rewrite (reg_slot_register op' _ class bits); [done|done|]. by apply (inv_ports _ _ _ _ _ _ Hi f class bits (RegisterField class)).
  - destruct Hm as (-> & Hb & _). rewrite (reg_slot_int op' _ bits), Hattr by done. f_equal. apply Z.mod_small. lia.
Qed.

(** C9: Decoding undoes encoding. Where a decoding table mirrors the shape that was
    selected and no word matches two of its shapes, every register is one its
    field and class name, and every immediate is non-negative and carried whole
    by its field (a field holds no sign), the word fetched at an instruction, whatever bytes follow it, decodes
    to an operation with the same registers and immediates; and when the guards
    read only operands the shape spells, that operation encodes to the same
    bytes and reports their number as its width. *)
Theorem decode_encode ports_of op spec assignment s dspec d inst w :
  inverts ports_of op assignment s dspec d ->
  select (get op assignment) (e_shapes spec) = Some (Some s) -> encode_with op spec assignment = Some (Some inst) ->
  0 <= w -> w mod 2 ^ (8 * Z.of_nat (length (i_bytes inst))) = le_value (i_bytes inst) ->
  i_fixups inst = [] /\
  exists op', decode_with ports_of w dspec = Some (Some op') /\ op_id op' = d_op dspec /\
    (forall f, f ∈ e_fields s -> get op' ∅ (e_attr f) = get op assignment (e_attr f)) /\
    ((forall name width, (name, width) ∈ spec_reads spec -> name ∈ (e_attr <$> e_fields s)) ->
      encode_with op' spec ∅ = Some (Some inst) /\ encoded_width op' spec ∅ = Some (length (i_bytes inst))).
Proof.
  intros Hi Hsel Henc Hw0 Hw. pose proof (inv_shape _ _ _ _ _ _ Hi) as Hs. pose proof (inv_mirrors _ _ _ _ _ _ Hi) as Hm.
  unfold encode_with, encode_operands in Henc. rewrite Hsel in Henc. cbn [mbind option_bind] in Henc.
  pose proof Henc as Henc'. rewrite encode_shape_closed in Henc by done. destruct (forallb _ _); [|done]. injection Henc as <-.
  cbn [i_bytes i_fixups] in *. rewrite length_le_bytes, le_value_le_bytes, (Z.mod_small (shape_word _ _)) in Hw by by apply shape_word_bound.
  assert (Hbits : forall k, 0 <= k < shape_bits s -> Z.testbit w k = Z.testbit (shape_word (get op assignment) s) k).
  { intros k Hk. rewrite <- Hw, Z.testbit_mod_pow2 by lia. by rewrite (proj2 (Z.ltb_lt _ _)) by (unfold shape_bits in Hk; lia). }
  destruct (decode_fields_spec op assignment s w (e_fields s) (d_fields d) Hs) as (attrs & E & Ha);
    [done|by eapply narrow_fields|done|by apply mirrors_spec in Hm as (_ & _ & _ & _ & _ & ?)|by apply (inv_fields _ _ _ _ _ _ Hi)|].
  assert (Hknown : forall f, f ∈ e_fields s -> is_known (get op assignment (e_attr f)) = true).
  { intros f Hf. destruct (find_attr op assignment s (e_fields s) attrs f Hs) as (a & _ & _ & kind & Hk); [done..|].
    pose proof (narrow_fields _ _ Hm) as Hn. rewrite forallb_forall in Hn. specialize (Hn f ltac:(by apply list_elem_of_In)).
    by destruct (decodable_known _ _ _ _ _ Hn Hk) as (bits & -> & _). }
  split; [by apply fixups_none|]. set (op' := mkOp (d_op dspec) (ports_of (d_op dspec)) attrs [] []). exists op'.
  assert (Hget : forall f, f ∈ e_fields s -> get op' ∅ (e_attr f) = get op assignment (e_attr f)) by (intros f; by apply (get_decoded ports_of op assignment s dspec d)).
  assert (Hdec : decode_with ports_of w dspec = Some (Some op')).
  { unfold decode_with. rewrite (find_mirror w d) by (try apply (inv_conflicting _ _ _ _ _ _ Hi); try apply (inv_in _ _ _ _ _ _ Hi); by eapply mirror_matches).
    rewrite E. cbn [mbind option_bind]. assert (forallb (fun declared => existsb (fun a : string * AttributeValue => bool_decide (a.1 = declared)) attrs) (d_attrs dspec) = true) as ->; [|done].
    apply forallb_forall. intros name Hname%list_elem_of_In%(inv_attrs _ _ _ _ _ _ Hi). apply list_elem_of_fmap in Hname as (f & -> & Hf).
    destruct (find_attr op assignment s (e_fields s) attrs f Hs) as (a & Hfind & _); [done..|]. apply find_some in Hfind. apply existsb_exists. eauto. }
  split; [done|]. split; [done|]. split; [done|]. intros Hr.
  assert (Hsel' : select (get op' ∅) (e_shapes spec) = Some (Some s)).
  { rewrite <- Hsel. apply select_alike. intros name width Hn%Hr. apply list_elem_of_fmap in Hn as (f & -> & Hf).
    unfold pattern, is_fixup. by rewrite Hget. }
  rewrite length_le_bytes. split.
  - unfold encode_with, encode_operands. rewrite Hsel'. cbn [mbind option_bind]. rewrite <- Henc'. by apply encode_shape_ext.
  - unfold encoded_width. destruct (e_shapes spec) as [|s1 [|s2 l]]; [done| |rewrite Hsel'; done].
    cbn [select] in Hsel. destruct (holds _ _) as [t|]; [|done]. cbn [mbind option_bind] in Hsel. destruct (decide (t = Yes)); [|done]. by injection Hsel as ->.
Qed.

(** ** Patching *)

Definition override (o : string -> Operand) (name : string) (x : Operand) : string -> Operand :=
  fun n => if decide (n = name) then x else o n.

(** A patch re-scatters into the field of its attribute, under a range the field accepts. *)
Definition ranges_agree (p : PatchField) (f : EncodeField) : bool :=
  match int_range f, p_range p with
  | None, _ => true
  | Some (min, max, _), Some (min', max') => (min <=? min') && (max' <=? max)
  | Some _, None => false
  end.
Definition patch_ok (p : PatchField) (f : EncodeField) : bool :=
  bool_decide (e_attr f = p_attr p) && bool_decide (p_runs p = e_runs f) && (dropped_mask p =? align_mask f) && negb (nonzero f) && ranges_agree p f.
Definition patches_ok (s : EncodeShape) : bool := forallb (fun p => existsb (patch_ok p) (e_fields s)) (patch s).

(** The values a patch can represent. *)
Definition patch_fits (p : PatchField) (value : Z) : bool :=
  match p_range p with Some (min, max) => (min <=? value) && (value <? max) | None => true end &&
  (Z.land (as_u128 value) (dropped_mask p) =? 0).

Lemma find_patch_spec s name p : find_patch s name = Some p -> p ∈ patch s /\ p_attr p = name.
Proof. unfold find_patch. intros [H%list_elem_of_In E]%find_some. by apply bool_decide_eq_true in E. Qed.

Lemma runs_past_ok bits runs : bits <= 128 -> forallb (run_ok bits) runs = true -> runs_past bits runs = Some false.
Proof.
  intros Hb. induction runs as [|r runs IH]; [done|]. cbn [forallb runs_past]. intros [Hr H]%andb_true_iff. apply run_ok_spec in Hr.
  unfold add_u16. rewrite (proj2 (Z.ltb_lt _ _)) by lia. cbn [mbind option_bind]. by rewrite (proj2 (Z.ltb_ge _ _)), IH by (done || lia).
Qed.

Section Override.
Context (o : string -> Operand) (f : EncodeField) (bits signed : Z) (target : FixupTarget).
Context (Hfix : o (e_attr f) = Fixup target).
#[local] Notation o' := (override o (e_attr f) (Known bits signed)).

Lemma field_bits_override g : (e_attr g = e_attr f -> g = f) ->
  field_bits o' g = if decide (g.(e_attr) = f.(e_attr)) then spread bits (e_runs f) else field_bits o g.
Proof. intros Hg. unfold field_bits, override. destruct (decide (e_attr g = e_attr f)) as [E|]; [by rewrite (Hg E)|done]. Qed.

Lemma fields_bits_override fields : (forall g, g ∈ fields -> e_attr g = e_attr f -> g = f) ->
  fields_bits o' fields = Z.lor (fields_bits o fields) (if bool_decide (Exists (fun g => e_attr g = e_attr f) fields) then spread bits (e_runs f) else 0).
Proof using Hfix.
  induction fields as [|g fields IH]; intros H; [done|]. cbn [fields_bits foldr]. fold (fields_bits o' fields) (fields_bits o fields).
  rewrite IH, field_bits_override by set_solver. destruct (decide (e_attr g = e_attr f)) as [E|E].
  - rewrite (bool_decide_eq_true_2 (Exists _ (g :: fields))) by by constructor. unfold field_bits. rewrite E, Hfix. cbn [known_bits]. rewrite spread_0, Z.lor_0_l.
    destruct (bool_decide _); [|by rewrite Z.lor_0_r, Z.lor_comm]. by rewrite (Z.lor_comm (fields_bits _ _)), Z.lor_assoc, Z.lor_diag.
  - rewrite <- Z.lor_assoc. f_equal. f_equal. rewrite (bool_decide_ext (Exists _ (g :: fields)) (Exists (fun g => e_attr g = e_attr f) fields)); [done|].
    rewrite Exists_cons. naive_solver.
Qed.

Lemma fixups_override s fields : (forall g, g ∈ fields -> e_attr g = e_attr f -> g = f) ->
  fixups_of o' s fields = base.filter (fun x => p_attr (x_patch x) <> e_attr f) (fixups_of o s fields).
Proof using Hfix.
  unfold fixups_of. induction fields as [|g fields IH]; intros H; [done|]. cbn [fmap list_fmap concat]. rewrite list.filter_app, IH by set_solver.
  f_equal. unfold override. destruct (decide (e_attr g = e_attr f)) as [E|E].
  - rewrite E, Hfix. destruct (find_patch s (e_attr f)) as [p|] eqn:Ep; [|done]. apply find_patch_spec in Ep as [_ Ep].
    by rewrite list.filter_cons_False by (cbn; tauto).
  - destruct (o (e_attr g)); try done. destruct (find_patch s (e_attr g)) as [p|] eqn:Ep; [|done]. apply find_patch_spec in Ep as [_ Ep].
    by rewrite list.filter_cons_True by (cbn; congruence).
Qed.

Lemma accepts_override s : shape_ok s = true -> f ∈ e_fields s -> encodable f bits signed = true ->
  forallb (accepts o s) (e_fields s) = true -> forallb (accepts o' s) (e_fields s) = true.
Proof.
  intros Hs Hf He H. rewrite forallb_forall in *. intros g Hg. specialize (H g Hg). unfold accepts, override in *.
  destruct (decide (e_attr g = e_attr f)) as [E|]; [|done]. by rewrite (field_by_attr s g f Hs) by (done || by apply list_elem_of_In).
Qed.
End Override.

Lemma elem_fixups o s fields x : x ∈ fixups_of o s fields ->
  exists f, f ∈ fields /\ o (e_attr f) = Fixup (x_target x) /\ find_patch s (e_attr f) = Some (x_patch x).
Proof.
  unfold fixups_of. intros H%list_elem_of_In%in_concat. destruct H as (l & Hl%list_elem_of_In%list_elem_of_fmap & Hx).
  destruct Hl as (f & -> & Hf). exists f. split; [done|]. destruct (o (e_attr f)) as [|t|], (find_patch s (e_attr f)) as [p|]; try done.
  by destruct Hx as [<-|[]].
Qed.

(** Patching the field of a fixup encodes the value in the operand's place. *)
Lemma patch_encodes (o : string -> Operand) (s : EncodeShape) (inst : EncodedInst) (x : EncodedFixup) (value : Z) :
  shape_ok s = true -> patches_ok s = true -> encode_shape o s = Some (Some inst) -> x ∈ i_fixups inst ->
  exists r, patch_with (i_bytes inst) value (x_patch x) = Some r /\ (r = None <-> patch_fits (x_patch x) value = false) /\
  forall bytes, r = Some bytes ->
    encode_shape (override o (p_attr (x_patch x)) (Known (as_u128 value) value)) s =
      Some (Some (mkInst bytes (base.filter (fun y => p_attr (x_patch y) <> p_attr (x_patch x)) (i_fixups inst)))).
Proof.
  intros Hs Hp He Hx. rewrite encode_shape_closed in He by done. destruct (forallb _ _) eqn:Hacc; [|done]. injection He as <-.
  cbn [i_bytes i_fixups] in *. destruct (elem_fixups _ _ _ _ Hx) as (f & Hf & Hfix & Hfp). apply find_patch_spec in Hfp as [Hpin Hpa].
  destruct x as [target p]. cbn [x_patch x_target] in *. unfold patches_ok in Hp. rewrite forallb_forall in Hp.
  specialize (Hp p ltac:(by apply list_elem_of_In)). apply existsb_exists in Hp as (g & Hg%list_elem_of_In & Hp).
  unfold patch_ok in Hp. rewrite !andb_true_iff, !bool_decide_eq_true, Z.eqb_eq, negb_true_iff in Hp. destruct Hp as ((((Ha & Hr) & Hm) & Hz) & Hra).
  replace g with f in * by (apply (field_by_attr s); congruence || done). clear g Hg.
  pose proof (shape_ok_spec _ Hs) as (Hw & _ & Hok & _). pose proof (shape_bits_le s Hw) as Hb. destruct (field_ok_spec _ _ _ (Hok f Hf)) as (Hruns & _ & _).
  unfold patch_with. destruct (patch_fits p value) eqn:Hfits; unfold patch_fits in Hfits.
  - apply andb_true_iff in Hfits as [Hrange Hdrop]. rewrite Hrange, Hdrop, andb_false_r. cbn [negb].
    rewrite length_le_bytes, Nat.min_l, (take_ge (le_bytes _ _)), (drop_ge (le_bytes _ _)) by (rewrite ?length_le_bytes; lia).
    change (8 * Z.of_nat (width_bytes s)) with (shape_bits s). rewrite Hr, runs_past_ok by (done || lia). cbn [mbind option_bind].
    rewrite le_value_le_bytes. change (8 * Z.of_nat (width_bytes s)) with (shape_bits s).
    rewrite (Z.mod_small (shape_word _ _)), (scatter_spread (shape_bits s)) by (done || lia || by apply shape_word_bound). cbn [mbind option_bind].
    rewrite app_nil_r. eexists. split; [done|]. split; [done|]. intros bytes [= <-]. rewrite <- Ha, encode_shape_closed by done.
    assert (Huniq : forall g, g ∈ e_fields s -> e_attr g = e_attr f -> g = f) by (intros g Hg E; by apply (field_by_attr s)).
    rewrite (accepts_override o f (as_u128 value) value s); [|done|done| |done].
    + rewrite (fixups_override o f _ _ target) by done. unfold shape_word. rewrite (fields_bits_override o f _ _ target) by done.
      rewrite bool_decide_eq_true_2 by (apply list.Exists_exists; by exists f). by rewrite Z.lor_assoc.
    + unfold encodable. rewrite <- Hm, Hdrop, Hz. cbn [andb negb]. rewrite !andb_true_r. unfold in_range, ranges_agree in *.
      destruct (int_range f) as [[[min max] umax]|]; [|done]. destruct (p_range p) as [[min' max']|]; [|done].
      rewrite !andb_true_iff, !Z.leb_le in *. rewrite Z.ltb_lt in Hrange. apply orb_true_iff. left. apply andb_true_iff. rewrite Z.leb_le, Z.ltb_lt. lia.
  - exists None. split; [|done]. destruct (match p_range p with Some _ => _ | None => _ end); [|done]. cbn [andb negb] in *. rewrite Hfits.
    destruct (Z.eqb_spec (dropped_mask p) 0) as [E|]; [|done]. by rewrite E, Z.land_0_r in Hfits.
Qed.


(** ** Concrete tables *)

#[local] Open Scope string_scope.

Definition demo_class : RegClass := mkClass "GPR" [0; 1; 2; 3; 4; 5; 6; 7; 8; 9; 10; 11; 12; 13; 14; 15].

(** [mov rd, rs] with a prefix byte when either index is above seven. *)
Definition mov_rr : EncodeSpec := mkEncodeSpec
  [mkEncodeShape (Or [Bit "rd" 3; Bit "rs" 3]) 0xC08B40 3
     [mkEncodeField "rd" None 0 false [mkRun 3 2 1; mkRun 0 19 3]; mkEncodeField "rs" None 0 false [mkRun 3 0 1; mkRun 0 16 3]] [];
   mkEncodeShape GTrue 0xC08B 2
     [mkEncodeField "rd" None 0 false [mkRun 0 11 3]; mkEncodeField "rs" None 0 false [mkRun 0 8 3]] []] (2, 3)%nat.
Definition mov_rr_decode : DecodeSpec := mkDecodeSpec ("test", "mov")
  [mkDecodeShape 0xC0FFFA 0xC08B40
     [mkDecodeField "rd" (RegisterField demo_class) [mkRun 3 2 1; mkRun 0 19 3]; mkDecodeField "rs" (RegisterField demo_class) [mkRun 3 0 1; mkRun 0 16 3]];
   mkDecodeShape 0xC0FF 0xC08B
     [mkDecodeField "rd" (RegisterField demo_class) [mkRun 0 11 3]; mkDecodeField "rs" (RegisterField demo_class) [mkRun 0 8 3]]] ["rd"; "rs"].
Definition demo_ports (_ : string * string) : list RegPort := [mkPort "rd" true; mkPort "rs" false].
(** [rd] is a value placed in register 9, [rs] register 2. *)
Definition demo_mov : OpHandle := mkOp ("test", "mov") (demo_ports ("test", "mov")) [("rs", Register demo_class 2)] [] [7%nat].
Definition demo_assignment : gmap nat (RegClass * Z) := {[7%nat := (demo_class, 9)]}.
Definition demo_shape : EncodeShape := default (mkEncodeShape GTrue 0 0 [] []) (e_shapes mov_rr !! 0%nat).
Definition demo_mirror : DecodeShape := default (mkDecodeShape 0 0 []) (d_shapes mov_rr_decode !! 0%nat).

Lemma encode_with_spec_witness : spec_ok mov_rr = true /\
  exists r, encode_with demo_mov mov_rr demo_assignment = Some r /\
  match r with
  | None => select (get demo_mov demo_assignment) (e_shapes mov_rr) = Some None \/
      exists s f, select (get demo_mov demo_assignment) (e_shapes mov_rr) = Some (Some s) /\ f ∈ e_fields s /\ accepts (get demo_mov demo_assignment) s f = false
  | Some inst => exists s, select (get demo_mov demo_assignment) (e_shapes mov_rr) = Some (Some s) /\
      length (i_bytes inst) = width_bytes s /\ bytes_ok (i_bytes inst) /\ spells (get demo_mov demo_assignment) s (le_value (i_bytes inst)) /\
      i_fixups inst = fixups_of (get demo_mov demo_assignment) s (e_fields s)
  end.
Proof. split; [by vm_compute|]. apply (encode_with_spec demo_mov mov_rr demo_assignment). by vm_compute. Defined.

Lemma demo_completes runs index : op_bits runs = Some 4 -> cover runs = Z.ones 4 -> index ∈ registers demo_class -> completes demo_class runs index.
Proof.
  intros Hb Hc Hi. exists 4. assert (Hr : forall r, r ∈ registers demo_class -> 0 <= r < 2 ^ 4).
  { cbn. intros r Hr. repeat (apply elem_of_cons in Hr as [->|Hr]; [lia|]). by apply elem_of_nil in Hr. }
  split; [done|]. split; [done|]. split; [done|]. split; [intros r Hin; specialize (Hr r Hin); lia|]. split; [done|]. right. by apply Hr.
Qed.

Lemma demo_inverts : inverts demo_ports demo_mov demo_assignment demo_shape mov_rr_decode demo_mirror.
Proof.
  split; [by vm_compute|by vm_compute|by left|by vm_compute| | |].
  - cbn. repeat constructor.
    + exists (Register demo_class 9). apply (decodable_register _ _ _ demo_class demo_class); [by vm_compute|]. by apply demo_completes; vm_compute; [..|set_solver].
    + exists (Register demo_class 2). apply (decodable_register _ _ _ demo_class demo_class); [by vm_compute|]. by apply demo_completes; vm_compute; [..|set_solver].
  - cbn. intros f class index df Hf _. set_solver.
  - cbn. set_solver.
Qed.

(** [44 8B CA] followed by the first byte of the next instruction. *)
Lemma decode_encode_witness : exists inst, encode_with demo_mov mov_rr demo_assignment = Some (Some inst) /\ i_bytes inst = [0x44; 0x8B; 0xCA] /\
  i_fixups inst = [] /\
  exists op', decode_with demo_ports 0xDECA8B44 mov_rr_decode = Some (Some op') /\ op_id op' = d_op mov_rr_decode /\
    (forall f, f ∈ e_fields demo_shape -> get op' ∅ (e_attr f) = get demo_mov demo_assignment (e_attr f)) /\
    ((forall name width, (name, width) ∈ spec_reads mov_rr -> name ∈ (e_attr <$> e_fields demo_shape)) ->
      encode_with op' mov_rr ∅ = Some (Some inst) /\ encoded_width op' mov_rr ∅ = Some (length (i_bytes inst))).
Proof.
  exists (mkInst [0x44; 0x8B; 0xCA] []). split; [by vm_compute|]. split; [done|].
  apply (decode_encode demo_ports demo_mov mov_rr demo_assignment demo_shape mov_rr_decode demo_mirror (mkInst [0x44; 0x8B; 0xCA] []) 0xDECA8B44 demo_inverts);
    by vm_compute.
Defined.

(** [add rd, imm]: one byte of immediate when it fits signed and is not zero, else four. *)
Definition small_imm : Guard := And [SignedFits "imm" 32 8; Cmp "imm" 32 64 Ne 0].
Definition add_imm : EncodeSpec := mkEncodeSpec
  [mkEncodeShape small_imm 0xC083 3
     [mkEncodeField "rd" None 0 false [mkRun 0 8 3]; mkEncodeField "imm" (Some (-128, 256, 256)) 0 false [mkRun 0 16 8]]
     [mkPatchField "imm" (Some (-128, 128)) 0 [mkRun 0 16 8]];
   mkEncodeShape (Not small_imm) 0xC081 6
     [mkEncodeField "rd" None 0 false [mkRun 0 8 3]; mkEncodeField "imm" (Some (- 2 ^ 31, 2 ^ 32, 2 ^ 32)) 0 false [mkRun 0 16 32]]
     [mkPatchField "imm" (Some (- 2 ^ 31, 2 ^ 31)) 0 [mkRun 0 16 32]]] (3, 6)%nat.
Definition demo_add (imm : AttributeValue) : OpHandle := mkOp ("test", "add") [mkPort "rd" true] [("rd", Register demo_class 1); ("imm", imm)] [] [].
Definition wide_shape : EncodeShape := default (mkEncodeShape GTrue 0 0 [] []) (e_shapes add_imm !! 1%nat).
Definition wide_fixup : EncodedFixup := mkFixup (ToSymbol "g") (mkPatchField "imm" (Some (- 2 ^ 31, 2 ^ 31)) 0 [mkRun 0 16 32]).


(** One 32-bit immediate spelled in two ways selects one shape, but the narrow
    field accepts only the signed spelling. *)
Example unsigned_spelling_refused :
  encode_with (demo_add (Int (-1))) add_imm ∅ = Some (Some (mkInst [0x83; 0xC1; 0xFF] [])) /\
  encode_with (demo_add (Int 0xFFFFFFFF)) add_imm ∅ = Some None /\
  select (get (demo_add (Int 0xFFFFFFFF)) ∅) (e_shapes add_imm) = select (get (demo_add (Int (-1))) ∅) (e_shapes add_imm) /\
  encode_with (demo_add (Int 0xFFFFFF7F)) add_imm ∅ = Some (Some (mkInst [0x81; 0xC1; 0x7F; 0xFF; 0xFF; 0xFF] [])).
Proof. by vm_compute. Qed.
