(* ===== verification/Writer.v ===== *)
(** * The object writer ([core/src/backend/binary/writer.rs])

    [write_module] walks the items of an assembly module, encodes its
    instructions, lays out sections and symbols, and resolves what the encodings
    left open: branch targets by patching, symbols by relocations, symbol
    differences by their value. An item is what the writer reads of an
    operation: its attributes, for an instruction also the record of its opcode,
    for a symbol the assignment and the blocks. The outer [option] is a panic,
    the inner sum a [BinaryEmitError]; offsets and lengths are [Z]. *)
From Stdlib Require Import String.
From S2P Require Import Prelude Words ObjFile Elf Encode.
From stdpp Require Import strings.
#[local] Open Scope string_scope.
#[local] Open Scope Z_scope.
#[local] Open Scope list_scope.

(** ** Items ([core/src/backend/mod.rs], [core/src/dialects/builtin/global.rs]) *)

(** [Sequential] is the variant [None]. *)
Inductive ControlFlow := Sequential | Conditional | Unconditional.
#[export] Instance ControlFlow_eq_dec : EqDecision ControlFlow.
Proof. solve_decision. Defined.
Record MemoryEffects := mkEffects { effect_reads : bool; effect_writes : bool }.

(** Of an [InstrInfo], what emission reads. *)
Record InstrInfo := mkInfo { n_name : string; control_flow : ControlFlow; effects : MemoryEffects; n_encode : option EncodeSpec }.

(** [m_info] is there where the operation is a machine instruction; [m_defines]
    says whether [execution_regs] reports a register it writes. *)
Record MachineOp := mkMachineOp { m_op : OpHandle; m_info : option InstrInfo; m_defines : bool }.

Record SymbolDifference := mkDifference { d_offset : Z; d_symbol : string; d_base : string; d_width : Z }.

(** A [GlobalOp], as its accessors read it. *)
Record GlobalOp := mkGlobal {
  g_name : string; is_external : bool; g_align : option Z; g_size : option Z; g_bytes : option (list Z);
  g_section : option string; g_private : bool; g_relocations : list (Z * string * Z * Z);
  g_differences : option (list SymbolDifference) }.

Inductive Item :=
  | GlobalItem (global : GlobalOp)
  | SkipItem
  | SectionItem (op : OpHandle) (body : list Item)
  | SymbolItem (op : OpHandle) (assignment : gmap ValueId (RegClass * Z)) (blocks : list (BlockId * list Item))
  | LiteralItem (op : OpHandle)
  | DataRelocItem (op : OpHandle)
  | InstItem (op : MachineOp).

(** [AttributeValue::as_int]. *)
Definition as_int (a : AttributeValue) : option Z :=
  match a with Int v => Some v | UInt v => if v <? 2 ^ 63 then Some v else None | _ => None end.
Definition as_int_attr (a : option AttributeValue) : option Z := a ← a; as_int a.
Definition as_string_attr (a : option AttributeValue) : option string := match a with Some (Str s) => Some s | _ => None end.

Definition op_name (op : OpHandle) : string := (op_id op).2.

Definition symbol_differences (global : GlobalOp) : option (list SymbolDifference) :=
  match g_differences global with
  | None => Some []
  | Some entries =>
      size ← (match g_bytes global with Some bytes => Some (Z.of_nat (length bytes)) | None => g_size global end);
      if forallb (fun d => existsb (Z.eqb (d_width d)) [1; 2; 4; 8] && (d_offset d + d_width d <=? u64_max) && (d_offset d + d_width d <=? size)) entries
      then Some entries else None
  end.

Definition branch_successors (op : OpHandle) : list BlockId :=
  omap (fun a => match a.2 with Block b => Some b | _ => None end) (op_attributes op).

(** The operation of [items] that a fall-through to [next] makes redundant: its
    position, where the last operation that is code jumps to [next] and does
    nothing else. The list is reversed, each item with its position. *)
Fixpoint fallthrough_from (items : list (nat * Item)) (next : BlockId) : option nat :=
  match items with
  | [] => None
  | (i, item) :: items =>
      match item with
      | SkipItem => fallthrough_from items next
      | GlobalItem global => if is_external global then fallthrough_from items next else None
      | InstItem m =>
          info ← m_info m;
          if bool_decide (control_flow info = Unconditional) && negb (effect_reads (effects info)) && negb (effect_writes (effects info)) &&
             negb (m_defines m) && bool_decide (branch_successors (m_op m) = [next])
          then Some i else None
      | _ => None
      end
  end.
Definition fallthrough_branch (block : list Item) (next : BlockId) : option nat := fallthrough_from (reverse (imap pair block)) next.

(** ** Emission *)

Inductive BinaryEmitError :=
  | MissingSymbolName
  | MissingEncoder (op : string)
  | CannotEncode (op : string)
  | UnsupportedOp (op : string)
  | UnknownBlockTarget (op : string)
  | MisalignedTarget (op : string) (delta : Z)
  | FixupOutOfRange (op : string) (value : Z)
  | SymbolOperandUnsupported (op : string)
  | CannotResolveSymbolDifference (symbol base : string).

Record PendingFixup := mkPending {
  q_section : nat; q_offset : Z; q_len : Z; q_info : InstrInfo; q_target : FixupTarget; q_patch : PatchField }.

Record ObjectEmission := mkEmission {
  b_obj : ObjectFile; current_section : option nat; b_assignment : gmap ValueId (RegClass * Z);
  block_starts : gmap BlockId Z; b_fixups : list PendingFixup; b_differences : list (nat * SymbolDifference) }.
Definition emission_default : ObjectEmission := mkEmission (mkObject [] []) None ∅ ∅ [] [].

Notation Emit := (option (result ObjectEmission BinaryEmitError)) (only parsing).

Definition set_obj (obj : ObjectFile) (st : ObjectEmission) : ObjectEmission :=
  mkEmission obj (current_section st) (b_assignment st) (block_starts st) (b_fixups st) (b_differences st).
Definition set_current (section : option nat) (st : ObjectEmission) : ObjectEmission :=
  mkEmission (b_obj st) section (b_assignment st) (block_starts st) (b_fixups st) (b_differences st).
Definition set_assignment (assignment : gmap ValueId (RegClass * Z)) (st : ObjectEmission) : ObjectEmission :=
  mkEmission (b_obj st) (current_section st) assignment (block_starts st) (b_fixups st) (b_differences st).
Definition set_start (block : BlockId) (start : Z) (st : ObjectEmission) : ObjectEmission :=
  mkEmission (b_obj st) (current_section st) (b_assignment st) (<[block := start]> (block_starts st)) (b_fixups st) (b_differences st).
Definition add_fixups (fixups : list PendingFixup) (st : ObjectEmission) : ObjectEmission :=
  mkEmission (b_obj st) (current_section st) (b_assignment st) (block_starts st) (b_fixups st ++ fixups) (b_differences st).
Definition add_differences (differences : list (nat * SymbolDifference)) (st : ObjectEmission) : ObjectEmission :=
  mkEmission (b_obj st) (current_section st) (b_assignment st) (block_starts st) (b_fixups st) (b_differences st ++ differences).
Definition push_symbol (symbol : ObjSymbol) (st : ObjectEmission) : ObjectEmission :=
  set_obj (mkObject (o_sections (b_obj st)) (o_symbols (b_obj st) ++ [symbol])) st.

(** [state.obj.sections[section]], read and written; out of range, a panic. *)
Definition the_section (section : nat) (st : ObjectEmission) : option ObjSection := o_sections (b_obj st) !! section.
Definition set_section (section : nat) (s : ObjSection) (st : ObjectEmission) : ObjectEmission :=
  set_obj (mkObject (<[section := s]> (o_sections (b_obj st))) (o_symbols (b_obj st))) st.

Definition with_data (data : list Z) (s : ObjSection) : ObjSection := mkSection (o_name s) (o_kind s) (o_align s) data (o_relocs s) (o_spans s).
Definition with_align (align : Z) (s : ObjSection) : ObjSection := mkSection (o_name s) (o_kind s) align (o_data s) (o_relocs s) (o_spans s).
Definition add_reloc (r : ObjReloc) (s : ObjSection) : ObjSection := mkSection (o_name s) (o_kind s) (o_align s) (o_data s) (o_relocs s ++ [r]) (o_spans s).
Definition add_span (span : Z * Z) (s : ObjSection) : ObjSection := mkSection (o_name s) (o_kind s) (o_align s) (o_data s) (o_relocs s) (o_spans s ++ [span]).
Definition data_len (s : ObjSection) : Z := Z.of_nat (length (o_data s)).

Definition section_kind (name : string) : SectionKind :=
  if bool_decide (name = ".text") || String.prefix ".text." name then Text
  else if bool_decide (name = ".bss") || String.prefix ".bss." name then UninitializedData
  else if bool_decide (name = ".rodata") || String.prefix ".rodata." name then ReadOnlyData
  else Data.
Definition new_section (name : string) : ObjSection :=
  mkSection name (section_kind name) (if decide (section_kind name = Text) then 4 else 1) [] [] [].

Definition ensure_section (obj : ObjectFile) (name : string) : ObjectFile * nat :=
  match list_find (fun s => o_name s = name) (o_sections obj) with
  | Some (i, _) => (obj, i)
  | None => (mkObject (o_sections obj ++ [new_section name]) (o_symbols obj), length (o_sections obj))
  end.
Definition ensure (name : string) (st : ObjectEmission) : ObjectEmission * nat :=
  let '(obj, section) := ensure_section (b_obj st) name in (set_obj obj st, section).

(** The current section, or the one named [default]. *)
Definition section_or (default : string) (st : ObjectEmission) : ObjectEmission * nat :=
  let '(st, section) := match current_section st with Some section => (st, section) | None => ensure default st end in
  (set_current (Some section) st, section).

(** [len.div_ceil(align) * align]. *)
Definition align_up (len align : Z) : option Z := if align =? 0 then None else align_to len align.
Definition pad_to (size : Z) (s : ObjSection) : ObjSection := with_data (Elf.resize (o_data s) (Z.to_nat size)) s.

Section Write.
Context (fmt : ObjectFormatInfo).

(** ** Data *)

Fixpoint global_relocs (offset : Z) (relocs : list (Z * string * Z * Z)) (s : ObjSection) : option (result ObjSection BinaryEmitError) :=
  match relocs with
  | [] => Some (Ok s)
  | (relative, symbol, addend, width) :: relocs =>
      r_type <-? Some (match (if width <? 2 ^ 8 then absolute_reloc fmt width else None) with
                       | Some r_type => Ok r_type | None => Err (UnsupportedOp "global") end);
      at_ ← checked_add offset relative;
      global_relocs offset relocs (add_reloc (mkReloc at_ symbol r_type addend) s)
  end.

Fixpoint move_differences (offset : Z) (differences : list SymbolDifference) : option (list SymbolDifference) :=
  match differences with
  | [] => Some []
  | d :: differences =>
      at_ ← checked_add (d_offset d) offset;
      rest ← move_differences offset differences;
      Some (mkDifference at_ (d_symbol d) (d_base d) (d_width d) :: rest)
  end.

Definition emit_global (global : GlobalOp) (st : ObjectEmission) : Emit :=
  if is_external global then Some (Ok st)
  else
    align ← g_align global;
    let name := default (match g_bytes global with Some _ => ".data" | None => ".bss" end) (g_section global) in
    let '(st, section) := ensure name st in
    s ← the_section section st;
    offset ← align_up (data_len s) align;
    let s := pad_to offset s in
    '(s, size) ← match g_bytes global with
                 | Some bytes => Some (with_data (o_data s ++ bytes) s, Z.of_nat (length bytes))
                 | None => size ← g_size global; end_ ← checked_add offset size; Some (pad_to end_ s, size)
                 end;
    let s := with_align (Z.max (o_align s) align) s in
    s <-? global_relocs offset (g_relocations global) s;
    let st := set_section section s st in
    differences <-? Some (match symbol_differences global with Some d => Ok d | None => Err (CannotEncode "global") end);
    differences ← move_differences offset differences;
    Some (Ok (push_symbol (mkSymbol (g_name global) (Some section) offset size (if g_private global then Local else Global) Object)
      (add_differences (pair section <$> differences) st))).

Definition append_bytes (section : nat) (bytes : list Z) (st : ObjectEmission) : option ObjectEmission :=
  s ← the_section section st; Some (set_section section (with_data (o_data s ++ bytes) s) st).

Definition literal_bytes (op : OpHandle) : option (list Z) :=
  kind ← as_string_attr (attr op "kind");
  if existsb (String.eqb kind) ["asciz"; "string"; "ascii"] then
    value ← as_string_attr (attr op "value");
    Some (if String.eqb kind "ascii" then str_bytes value else str_bytes value ++ [0])
  else if existsb (String.eqb kind) ["byte"; "half"; "word"; "dword"; "space"] then
    value ← as_int_attr (attr op "value");
    if String.eqb kind "space" then if 0 <=? value then Some (replicate (Z.to_nat value) 0) else None
    else if String.eqb kind "dword" then Some (le_bytes 8 value)
    else
      let width := if String.eqb kind "byte" then 1%nat else if String.eqb kind "half" then 2%nat else 4%nat in
      if (value <? - 2 ^ (8 * Z.of_nat width - 1)) || (2 ^ (8 * Z.of_nat width) - 1 <? value) then None
      else Some (le_bytes width value)
  else None.

Definition emit_literal (op : OpHandle) (st : ObjectEmission) : Emit :=
  bytes <-? Some (match literal_bytes op with Some bytes => Ok bytes | None => Err (UnsupportedOp "literal") end);
  let '(st, section) := section_or ".text" st in
  st ← append_bytes section bytes st;
  Some (Ok st).

(** The symbol, width, relocation type and addend of a data relocation. *)
Definition data_reloc (op : OpHandle) : option (string * Z * Z * Z) :=
  symbol ← as_string_attr (attr op "symbol");
  width ← as_int_attr (attr op "width");
  r_type ← (if (0 <=? width) && (width <? 2 ^ 8) then absolute_reloc fmt width else None);
  addend ← as_int_attr (attr op "addend");
  Some (symbol, width, r_type, addend).

Definition emit_data_reloc (op : OpHandle) (st : ObjectEmission) : Emit :=
  parts <-? Some (match data_reloc op with Some parts => Ok parts | None => Err (UnsupportedOp "data_reloc") end);
  let '(symbol, width, r_type, addend) := parts in
  let '(st, section) := section_or ".data" st in
  s ← the_section section st;
  let offset := data_len s in
  Some (Ok (set_section section (add_reloc (mkReloc offset symbol r_type addend) (pad_to (offset + width) s)) st)).

(** ** Instructions *)

Definition encode_op (m : MachineOp) (st : ObjectEmission) : Emit :=
  info <-? Some (match m_info m with Some info => Ok info | None => Err (UnsupportedOp (op_name (m_op m))) end);
  spec <-? Some (match n_encode info with Some spec => Ok spec | None => Err (MissingEncoder (op_name (m_op m))) end);
  encoded ← encode_with (m_op m) spec (b_assignment st);
  encoded <-? Some (match encoded with Some encoded => Ok encoded | None => Err (CannotEncode (op_name (m_op m))) end);
  let '(st, section) := section_or ".text" st in
  s ← the_section section st;
  let offset := data_len s in
  let len := Z.of_nat (length (i_bytes encoded)) mod 2 ^ 8 in
  let s := add_span (offset, len) (with_data (o_data s ++ i_bytes encoded) s) in
  Some (Ok (add_fixups ((fun x => mkPending section offset len info (x_target x) (x_patch x)) <$> i_fixups encoded) (set_section section s st))).

(** ** Walking *)

(** The items from position [i] on, less the one at [omitted]. *)
Definition walk_items (write : ObjectEmission -> Item -> Emit) (omitted : option nat) : nat -> list Item -> ObjectEmission -> Emit :=
  fix walk i items st :=
    match items with
    | [] => Some (Ok st)
    | item :: items =>
        if bool_decide (omitted = Some i) then walk (S i) items st
        else st <-? write st item; walk (S i) items st
    end.

Definition omitted_of (block : list Item) (rest : list (BlockId * list Item)) : option nat :=
  match rest with (next, _) :: _ => fallthrough_branch block next | [] => None end.

Definition write_blocks_with (write : ObjectEmission -> Item -> Emit) (section : nat) : list (BlockId * list Item) -> ObjectEmission -> Emit :=
  fix walk blocks st :=
    match blocks with
    | [] => Some (Ok st)
    | (block, items) :: blocks =>
        s ← the_section section st;
        st <-? walk_items write (omitted_of items blocks) 0 items (set_start block (data_len s) st);
        walk blocks st
    end.

(** The name of a symbol and its alignment. *)
Definition symbol_align (op : OpHandle) : Z :=
  Z.max (match as_int_attr (attr op "align") with Some align => if 0 <=? align then align else 1 | None => 1 end) 1.

(** The beginning and the end of a symbol, around its blocks. *)
Definition open_symbol (op : OpHandle) (assignment : gmap ValueId (RegClass * Z)) (st : ObjectEmission)
  : option (result (ObjectEmission * nat * Z * string) BinaryEmitError) :=
  name <-? Some (match as_string_attr (attr op "name") with Some name => Ok name | None => Err MissingSymbolName end);
  let '(st, section) := section_or ".text" (set_assignment assignment st) in
  s ← the_section section st;
  aligned ← align_up (data_len s) (symbol_align op);
  let s := pad_to aligned s in
  let s := with_align (Z.max (o_align s) (symbol_align op)) s in
  Some (Ok (set_section section s st, section, data_len s, name)).
Definition close_symbol (op : OpHandle) (section : nat) (start : Z) (name : string) (st : ObjectEmission) : Emit :=
  s ← the_section section st;
  size ← checked_sub (data_len s) start;
  Some (Ok (push_symbol (mkSymbol name (Some section) start size
    (if bool_decide (as_string_attr (attr op "binding") = Some "local") then Local else Global)
    (if bool_decide (as_string_attr (attr op "kind") = Some "object") then Object else Func)) st)).

Fixpoint write_op (st : ObjectEmission) (item : Item) {struct item} : Emit :=
  match item with
  | GlobalItem global => emit_global global st
  | SkipItem => Some (Ok st)
  | SectionItem op body =>
      let enclosing := current_section st in
      let '(st, section) := ensure (default ".text" (as_string_attr (attr op "name"))) st in
      st <-? walk_items write_op None 0 body (set_current (Some section) st);
      Some (Ok (set_current enclosing st))
  | SymbolItem op assignment blocks =>
      opened <-? open_symbol op assignment st;
      let '(st, section, start, name) := opened in
      st <-? write_blocks_with write_op section blocks st;
      close_symbol op section start name st
  | LiteralItem op => emit_literal op st
  | DataRelocItem op => emit_data_reloc op st
  | InstItem m => encode_op m st
  end.

Definition walk_block (items : list Item) (st : ObjectEmission) : Emit := walk_items write_op None 0 items st.
Definition write_blocks (section : nat) (blocks : list (BlockId * list Item)) (st : ObjectEmission) : Emit :=
  write_blocks_with write_op section blocks st.

(** ** Resolution *)

(** Subtraction of [i64]s, and the mask of the low [scale] bits. *)
Definition sub_i64 (a b : Z) : option Z := if (- 2 ^ 63 <=? a - b) && (a - b <? 2 ^ 63) then Some (a - b) else None.
Definition scale_mask (scale : Z) : option Z := if scale <? 63 then Some (Z.ones scale) else None.

Definition patch_section (section : nat) (offset len value : Z) (patch : PatchField) (name : string) (st : ObjectEmission) : Emit :=
  s ← the_section section st;
  bytes ← slice (o_data s) (Z.to_nat offset) (Z.to_nat (offset + len));
  r ← patch_with bytes value patch;
  bytes <-? Some (match r with Some bytes => Ok bytes | None => Err (FixupOutOfRange name value) end);
  data ← copy_at (o_data s) (Z.to_nat offset) bytes;
  Some (Ok (set_section section (with_data data s) st)).

Definition resolve_fixup (fixup : PendingFixup) (st : ObjectEmission) : Emit :=
  let name := n_name (q_info fixup) in
  match q_target fixup with
  | ToBlock block =>
      target <-? Some (match block_starts st !! block with Some target => Ok target | None => Err (UnknownBlockTarget name) end);
      base ← (if pc_rel_from_end fmt name then checked_add (q_offset fixup) (q_len fixup) else Some (q_offset fixup));
      delta ← sub_i64 (as_i64 target) (as_i64 base);
      mask ← scale_mask (pc_rel_scale fmt name);
      if negb (Z.land delta mask =? 0) then Some (Err (MisalignedTarget name delta))
      else patch_section (q_section fixup) (q_offset fixup) (q_len fixup) (Z.shiftr delta (pc_rel_scale fmt name)) (q_patch fixup) name st
  | ToSymbol symbol =>
      kind <-? Some (match reloc_for fmt name with Some kind => Ok kind | None => Err (SymbolOperandUnsupported name) end);
      s ← the_section (q_section fixup) st;
      at_ ← checked_add (q_offset fixup) (k_field_offset kind);
      Some (Ok (set_section (q_section fixup) (add_reloc (mkReloc at_ symbol (k_type kind) (k_addend kind)) s) st))
  end.

Fixpoint resolve_fixups (fixups : list PendingFixup) (st : ObjectEmission) : Emit :=
  match fixups with
  | [] => Some (Ok st)
  | fixup :: fixups => st <-? resolve_fixup fixup st; resolve_fixups fixups st
  end.

(** The section and value each name is last defined with. *)
Definition symbol_values (symbols : list ObjSymbol) : gmap string (option nat * Z) :=
  fold_left (fun m sym => <[y_name sym := (y_section sym, y_value sym)]> m) symbols ∅.

Definition resolve_difference (symbols : gmap string (option nat * Z)) (section : nat) (d : SymbolDifference) (st : ObjectEmission) : Emit :=
  match symbols !! d_symbol d, symbols !! d_base d with
  | Some (Some symbol_section, symbol), Some (Some base_section, base) =>
      if decide (symbol_section = base_section) then
        s ← the_section section st;
        if (8 <? d_width d) || (Z.of_nat (length (o_data s)) <? d_offset d + d_width d) then None
        else
          data ← copy_at (o_data s) (Z.to_nat (d_offset d)) (le_bytes (Z.to_nat (d_width d)) (wrap64 (symbol - base)));
          Some (Ok (set_section section (with_data data s) st))
      else Some (Err (CannotResolveSymbolDifference (d_symbol d) (d_base d)))
  | _, _ => Some (Err (CannotResolveSymbolDifference (d_symbol d) (d_base d)))
  end.
Fixpoint resolve_differences (symbols : gmap string (option nat * Z)) (differences : list (nat * SymbolDifference)) (st : ObjectEmission) : Emit :=
  match differences with
  | [] => Some (Ok st)
  | (section, d) :: differences => st <-? resolve_difference symbols section d st; resolve_differences symbols differences st
  end.
Definition resolve_symbol_differences (st : ObjectEmission) : Emit :=
  resolve_differences (symbol_values (o_symbols (b_obj st))) (b_differences st) st.

Definition finish_object (st : ObjectEmission) : option (result ObjectFile BinaryEmitError) :=
  st <-? resolve_fixups (b_fixups st) st;
  st <-? resolve_symbol_differences st;
  Some (Ok (b_obj st)).

Definition write_module (items : list Item) : option (result ObjectFile BinaryEmitError) :=
  st <-? walk_block items emission_default; finish_object st.

(** ** Trying out a layout *)

(** The items a block being laid out may hold. *)
Definition code_item (item : Item) : bool := match item with SkipItem | InstItem _ | GlobalItem _ => true | _ => false end.

Definition layout_start (assignment : gmap ValueId (RegClass * Z)) : ObjectEmission * nat :=
  let '(st, section) := ensure ".text" (set_assignment assignment emission_default) in (set_current (Some section) st, section).

Definition valid_block_layout (assignment : gmap ValueId (RegClass * Z)) (blocks : list (BlockId * list Item)) : option bool :=
  if existsb (fun b => existsb (fun item => negb (code_item item)) b.2) blocks then Some false
  else
    let '(st, section) := layout_start assignment in
    r ← (st <-? write_blocks section blocks st; resolve_fixups (b_fixups st) st);
    Some (match r with Ok _ => true | Err _ => false end).
End Write.
