(* ===== verification/WriterSpec.v ===== *)
(** * A two-pass reference assembler

    What the blocks of a symbol assemble to, stated without fixups
    ([assemble]): every instruction is encoded once to get its length, the
    blocks get their starts, and every instruction is encoded again with the
    displacement of each branch target in the operand's place. The lemmas
    say that emitting code appends it, and that resolving the fixups of an
    instruction encodes it again. *)
From Stdlib Require Import String.
From S2P Require Import Prelude Words ObjFile Elf Encode EncodeBits EncodeTheorems Writer.
From stdpp Require Import strings.
#[local] Open Scope string_scope.
#[local] Open Scope Z_scope.
#[local] Open Scope list_scope.

(** ** Code *)

(** An instruction that encodes: its operands, the shape selected, the encoding. *)
Record Code := mkCode { c_info : InstrInfo; c_operands : string -> Operand; c_shape : EncodeShape; c_inst : EncodedInst }.

Definition code_of (assignment : gmap nat (RegClass * Z)) (m : MachineOp) : option Code :=
  info ← m_info m;
  spec ← n_encode info;
  shape ← mjoin (select (get (m_op m) assignment) (e_shapes spec));
  inst ← mjoin (encode_shape (get (m_op m) assignment) shape);
  Some (mkCode info (get (m_op m) assignment) shape inst).

Definition code_len (c : Code) : Z := Z.of_nat (length (i_bytes (c_inst c))).

(** The instructions of the items from position [i] on, less the omitted one. *)
Fixpoint kept (omitted : option nat) (i : nat) (items : list Item) : list MachineOp :=
  match items with
  | [] => []
  | item :: items =>
      match item with
      | InstItem m => if bool_decide (omitted = Some i) then kept omitted (S i) items else m :: kept omitted (S i) items
      | _ => kept omitted (S i) items
      end
  end.

Fixpoint coded_blocks (assignment : gmap nat (RegClass * Z)) (blocks : list (nat * list Item)) : option (list (nat * list Code)) :=
  match blocks with
  | [] => Some []
  | (b, items) :: blocks =>
      codes ← mapM (code_of assignment) (kept (omitted_of items blocks) 0 items);
      rest ← coded_blocks assignment blocks;
      Some ((b, codes) :: rest)
  end.

(** ** The two passes *)

Fixpoint size_of (codes : list Code) : Z := match codes with [] => 0 | c :: codes => code_len c + size_of codes end.

Fixpoint starts_of (pos : Z) (starts : gmap nat Z) (blocks : list (nat * list Code)) : gmap nat Z :=
  match blocks with [] => starts | (b, codes) :: blocks => starts_of (pos + size_of codes) (<[b := pos]> starts) blocks end.

Section Assemble.
Context (fmt : ObjectFormatInfo) (starts : gmap nat Z).

(** From an instruction at [pos] to [start], in the units of its operand. *)
Definition displacement (c : Code) (pos start : Z) : option Z :=
  let name := n_name (c_info c) in
  let delta := start - (if pc_rel_from_end fmt name then pos + code_len c else pos) in
  let unit := 2 ^ pc_rel_scale fmt name in
  if delta mod unit =? 0 then Some (delta / unit) else None.
Definition target_value (c : Code) (pos : Z) (b : nat) : option Z := start ← starts !! b; displacement c pos start.

Definition resolved (c : Code) (pos : Z) : string -> Operand := fun name =>
  match c_operands c name with
  | Fixup (ToBlock b) => match target_value c pos b with Some v => Known (as_u128 v) v | None => Missing end
  | x => x
  end.

Definition fixup_ok (c : Code) (pos : Z) (x : EncodedFixup) : bool :=
  match x_target x with
  | ToBlock b => match target_value c pos b with Some v => patch_fits (x_patch x) v | None => false end
  | ToSymbol _ => bool_decide (is_Some (reloc_for fmt (n_name (c_info c))))
  end.

Definition reloc_of (c : Code) (pos : Z) (x : EncodedFixup) : option ObjReloc :=
  match x_target x with
  | ToBlock _ => None
  | ToSymbol symbol => kind ← reloc_for fmt (n_name (c_info c)); Some (mkReloc (pos + k_field_offset kind) symbol (k_type kind) (k_addend kind))
  end.

Definition assemble_code (c : Code) (pos : Z) : option (list Z * list ObjReloc) :=
  if forallb (fixup_ok c pos) (i_fixups (c_inst c)) then
    inst ← mjoin (encode_shape (resolved c pos) (c_shape c));
    Some (i_bytes inst, omap (reloc_of c pos) (i_fixups (c_inst c)))
  else None.

Fixpoint assemble_codes (pos : Z) (codes : list Code) : option (list Z * list ObjReloc) :=
  match codes with
  | [] => Some ([], [])
  | c :: codes =>
      '(bytes, relocs) ← assemble_code c pos;
      '(rest, relocs') ← assemble_codes (pos + code_len c) codes;
      Some (bytes ++ rest, relocs ++ relocs')
  end.
End Assemble.

(** The bytes and relocations of some blocks, from position 0 of a section. *)
Definition assemble (fmt : ObjectFormatInfo) (assignment : gmap nat (RegClass * Z)) (blocks : list (nat * list Item)) : option (list Z * list ObjReloc) :=
  coded ← coded_blocks assignment blocks;
  assemble_codes fmt (starts_of 0 ∅ coded) 0 (concat (snd <$> coded)).

(** ** Well-formed inputs *)

Definition machine_ok (m : MachineOp) : bool :=
  match m_info m with
  | Some info => match n_encode info with Some spec => spec_ok spec && forallb patches_ok (e_shapes spec) | None => true end
  | None => true
  end.
Definition code_only (item : Item) : bool :=
  match item with SkipItem => true | InstItem m => machine_ok m | GlobalItem global => is_external global | _ => false end.

Record format_ok (fmt : ObjectFormatInfo) : Prop := mkFormatOk {
  scale_ok : forall name, 0 <= pc_rel_scale fmt name < 63;
  field_offset_ok : forall name kind, reloc_for fmt name = Some kind -> 0 <= k_field_offset kind < 2 ^ 62 }.

(** What is known of a [Code]. *)
Record code_wf (c : Code) : Prop := mkCodeWf {
  wf_shape : shape_ok (c_shape c) = true; wf_patches : patches_ok (c_shape c) = true;
  wf_inst : encode_shape (c_operands c) (c_shape c) = Some (Some (c_inst c)); wf_len : 0 <= code_len c <= 16 }.

Lemma code_of_spec assignment m : machine_ok m = true ->
  match code_of assignment m with
  | Some c => code_wf c /\ exists spec, m_info m = Some (c_info c) /\ n_encode (c_info c) = Some spec /\
      encode_with (m_op m) spec assignment = Some (Some (c_inst c))
  | None => m_info m = None \/ exists info, m_info m = Some info /\ (n_encode info = None \/
      exists spec, n_encode info = Some spec /\ encode_with (m_op m) spec assignment = Some None)
  end.
Proof.
  unfold machine_ok, code_of. destruct (m_info m) as [info|]; [|by left]. cbn [mbind option_bind].
  destruct (n_encode info) as [spec|] eqn:En; [|right; exists info; by auto]. intros [Hok Hp]%andb_true_iff. cbn [mbind option_bind].
  unfold encode_with, encode_operands. destruct (select_total (get (m_op m) assignment) spec Hok) as ([s|] & E & Hs).
  2: { rewrite E. right. exists info. split; [done|]. right. exists spec. by rewrite E. }
  destruct Hs as [Hin Hs]. rewrite forallb_forall in Hp. specialize (Hp s ltac:(by apply list_elem_of_In)).
  rewrite E. cbn [mjoin option_join mbind option_bind]. pose proof (encode_shape_closed (get (m_op m) assignment) s Hs) as Ec.
  destruct (forallb _ (e_fields s)); rewrite Ec; cbn [mjoin option_join mbind option_bind].
  - split; [|exists spec; by rewrite E].
    pose proof (shape_ok_spec _ Hs) as (Hw & _). split; cbn [c_shape c_operands c_inst]; [done|done|done|].
    unfold code_len. cbn [c_inst i_bytes]. rewrite length_le_bytes. lia.
  - right. exists info. split; [done|]. right. exists spec. by rewrite E.
Qed.

(** ** Encoding with other operands *)

Lemma encode_fields_ext o o' s fields : (forall f, f ∈ fields -> o (e_attr f) = o' (e_attr f)) ->
  forall word fixups, encode_fields o s fields word fixups = encode_fields o' s fields word fixups.
Proof.
  induction fields as [|f fields IH]; intros H word fixups; [done|]. cbn [encode_fields]. rewrite <- H by set_solver.
  assert (IH' : forall word fixups, encode_fields o s fields word fixups = encode_fields o' s fields word fixups) by (apply IH; set_solver).
  destruct (o (e_attr f)) as [bits v|t|]; [|destruct (find_patch _ _); [apply IH'|done]|done].
  destruct (encodable f bits v); [|done]. destruct (scatter _ _ _); [apply IH'|done].
Qed.

Lemma encode_shape_agree o o' s : (forall f, f ∈ e_fields s -> o (e_attr f) = o' (e_attr f)) -> encode_shape o s = encode_shape o' s.
Proof. intros H. unfold encode_shape. by rewrite (encode_fields_ext o o' s _ H). Qed.

#[local] Notation attr_of x := (p_attr (x_patch x)).

Lemma fixups_attrs o s fields : (fun x => attr_of x) <$> fixups_of o s fields `sublist_of` e_attr <$> fields.
Proof.
  unfold fixups_of. induction fields as [|f fields IH]; [done|]. cbn [fmap list_fmap concat]. rewrite fmap_app.
  destruct (o (e_attr f)) as [|t|]; try by apply sublist_cons. destruct (find_patch s (e_attr f)) as [p|] eqn:E; [|by apply sublist_cons].
  apply find_patch_spec in E as [_ E]. cbn. rewrite E. by apply sublist_skip.
Qed.

Lemma fields_nodup (fields : list EncodeField) : all_pairs fields_apart fields = true -> NoDup (e_attr <$> fields).
Proof.
  induction fields as [|f fields IH]; [constructor|]. cbn [all_pairs]. intros [Hf H]%andb_true_iff. rewrite fmap_cons. constructor; [|by apply IH].
  intros (g & E & Hg)%list_elem_of_fmap. rewrite forallb_forall in Hf. specialize (Hf g ltac:(by apply list_elem_of_In)).
  apply andb_true_iff in Hf as [Hf _]. rewrite negb_true_iff, bool_decide_eq_false in Hf. done.
Qed.

Lemma fixups_nodup o s : shape_ok s = true -> NoDup ((fun x => attr_of x) <$> fixups_of o s (e_fields s)).
Proof.
  intros H. eapply sublist_NoDup; [|apply fixups_attrs]. apply fields_nodup. unfold shape_ok in H. by rewrite !andb_true_iff in H; destruct H as [_ H].
Qed.

(** The operands with the values of some fixups in their place. *)
Definition over (value : nat -> option Z) (xs : list EncodedFixup) (o : string -> Operand) : string -> Operand := fun name =>
  match List.find (fun x => bool_decide (attr_of x = name)) xs with
  | Some x => match x_target x with ToBlock b => match value b with Some v => Known (as_u128 v) v | None => Missing end | ToSymbol _ => o name end
  | None => o name
  end.

Lemma over_block value x xs o b v : x_target x = ToBlock b -> value b = Some v -> attr_of x ∉ ((fun x => attr_of x) <$> xs) ->
  forall name, over value xs (override o (attr_of x) (Known (as_u128 v) v)) name = over value (x :: xs) o name.
Proof.
  intros Ht Hv Hx name. unfold over, override. cbn [List.find]. destruct (bool_decide_reflect (attr_of x = name)) as [E|E].
  - rewrite Ht, Hv. destruct (List.find _ xs) as [y|] eqn:Ey; [|by rewrite decide_True].
    apply find_some in Ey as [Hy Ey%bool_decide_eq_true]. contradict Hx. apply list_elem_of_fmap. exists y. split; [congruence|by apply list_elem_of_In].
  - by rewrite decide_False by done.
Qed.

Lemma over_symbol value x xs o t : x_target x = ToSymbol t -> attr_of x ∉ ((fun x => attr_of x) <$> xs) ->
  forall name, over value xs o name = over value (x :: xs) o name.
Proof.
  intros Ht Hx name. unfold over. cbn [List.find]. destruct (bool_decide_reflect (attr_of x = name)) as [E|E]; [|done].
  rewrite Ht. destruct (List.find _ xs) as [y|] eqn:Ey; [|done].
  apply find_some in Ey as [Hy Ey%bool_decide_eq_true]. contradict Hx. apply list_elem_of_fmap. exists y. split; [congruence|by apply list_elem_of_In].
Qed.

(** Overriding every fixup of an encoding resolves its operands. *)
Lemma over_resolved fmt starts c pos : code_wf c ->
  encode_shape (over (target_value fmt starts c pos) (i_fixups (c_inst c)) (c_operands c)) (c_shape c) =
  encode_shape (resolved fmt starts c pos) (c_shape c).
Proof.
  intros [Hs _ Hi _]. rewrite encode_shape_closed in Hi by done. destruct (forallb _ (e_fields _)) eqn:Ha; [|done]. injection Hi as Hi.
  rewrite <- Hi. cbn [i_fixups]. apply encode_shape_agree. intros f Hf. rewrite forallb_forall in Ha. specialize (Ha f ltac:(by apply list_elem_of_In)).
  unfold over, resolved, accepts in *. destruct (List.find _ _) as [x|] eqn:Ex.
  - apply find_some in Ex as [Hx%list_elem_of_In Ex%bool_decide_eq_true]. apply elem_fixups in Hx as (g & Hg & Ht & Hp). apply find_patch_spec in Hp as [_ Hp].
    replace g with f in * by (apply (field_by_attr (c_shape c)); congruence || done). rewrite Ht. by destruct (x_target x).
  - destruct (c_operands c (e_attr f)) as [|[b|t]|] eqn:Eo; try done. exfalso. apply bool_decide_eq_true in Ha as [p Hp].
    eapply find_none in Ex; [|apply in_concat; eexists; split; [apply list_elem_of_In, list_elem_of_fmap; exists f; by split|rewrite Eo, Hp; by left]].
    apply bool_decide_eq_false in Ex. by apply find_patch_spec in Hp as [_ ?].
Qed.

(** ** Resolving *)

(** An emission of one text section. *)
Definition text_state (align : Z) (assignment : gmap nat (RegClass * Z)) (symbols : list ObjSymbol) (data : list Z) (relocs : list ObjReloc)
    (spans : list (Z * Z)) (starts : gmap nat Z) (fixups : list PendingFixup) : ObjectEmission :=
  mkEmission (mkObject [mkSection ".text" Text align data relocs spans] symbols) (Some 0%nat) assignment starts fixups [].

Definition pending (c : Code) (pos : Z) (x : EncodedFixup) : PendingFixup := mkPending 0 pos (code_len c) (c_info c) (x_target x) (x_patch x).

Lemma slice_middle {A} (a b d : list A) n : length a = n -> slice (a ++ b ++ d) n (n + length b) = Some b.
Proof.
  intros <-. unfold slice. rewrite (proj2 (Nat.leb_le _ _)), (proj2 (Nat.leb_le _ _)) by (rewrite ?length_app; lia). cbn [andb].
  rewrite drop_app_length. replace (length a + length b - length a)%nat with (length b) by lia. by rewrite take_app_length.
Qed.

Lemma copy_middle {A} (a b b' d : list A) n : length a = n -> length b' = length b -> copy_at (a ++ b ++ d) n b' = Some (a ++ b' ++ d).
Proof.
  intros <- Hb. unfold copy_at. rewrite (proj2 (Nat.leb_le _ _)) by (rewrite !length_app; lia).
  rewrite take_app_length, Hb, (app_assoc a b d), drop_app_length' by (rewrite length_app; lia). done.
Qed.

Lemma encoded_length o s inst : shape_ok s = true -> encode_shape o s = Some (Some inst) -> length (i_bytes inst) = width_bytes s.
Proof. intros Hs. rewrite encode_shape_closed by done. destruct (forallb _ _); [|done]. intros [= <-]. cbn. by rewrite length_le_bytes. Qed.

Lemma scaled_delta delta scale : 0 <= scale < 63 -> scale_mask scale = Some (Z.ones scale) /\
  Z.land delta (Z.ones scale) = delta mod 2 ^ scale /\ Z.shiftr delta scale = delta / 2 ^ scale.
Proof.
  intros. unfold scale_mask. rewrite (proj2 (Z.ltb_lt _ _)) by lia. rewrite Z.land_ones, Z.shiftr_div_pow2 by lia. done.
Qed.

Section Resolve.
Context (fmt : ObjectFormatInfo) (align : Z) (assignment : gmap nat (RegClass * Z)) (symbols : list ObjSymbol)
  (spans : list (Z * Z)) (starts : gmap nat Z) (fixups : list PendingFixup).
Context (Hfmt : format_ok fmt) (Hstarts : forall b v, starts !! b = Some v -> 0 <= v < 2 ^ 62).

#[local] Notation text data relocs := (text_state align assignment symbols data relocs spans starts fixups).
#[local] Notation value c pos := (target_value fmt starts c pos).

Lemma resolve_block c pos x b data relocs : x_target x = ToBlock b -> 0 <= pos -> 0 <= code_len c <= 16 -> pos + 16 <= 2 ^ 62 ->
  match value c pos b with
  | Some v => resolve_fixup fmt (pending c pos x) (text data relocs) = patch_section 0 pos (code_len c) v (x_patch x) (n_name (c_info c)) (text data relocs)
  | None => exists e, resolve_fixup fmt (pending c pos x) (text data relocs) = Some (Err e)
  end.
Proof using Hfmt Hstarts.
  intros Ht Hp Hc Hb. unfold target_value, resolve_fixup, pending. cbn [q_target q_info q_offset q_len q_section q_patch block_starts text_state]. rewrite Ht.
  destruct (starts !! b) as [start|] eqn:Es; cbn [mbind option_bind try_bind]; [|by eexists]. specialize (Hstarts b start Es).
  unfold displacement. set (name := n_name (c_info c)). set (base := if pc_rel_from_end fmt name then pos + code_len c else pos).
  assert (Eb : (if pc_rel_from_end fmt name then checked_add pos (code_len c) else Some pos) = Some base).
  { unfold base, checked_add, u64_max. destruct (pc_rel_from_end fmt name); [|done]. by rewrite (proj2 (Z.leb_le _ _)) by lia. }
  assert (Hbase : 0 <= base <= 2 ^ 62) by (unfold base; destruct (pc_rel_from_end fmt name); lia).
  rewrite Eb. cbn [mbind option_bind]. unfold as_i64. rewrite !(proj2 (Z.ltb_lt _ _)) by lia. unfold sub_i64.
  rewrite (proj2 (Z.leb_le _ _)), (proj2 (Z.ltb_lt _ _)) by lia. cbn [andb mbind option_bind].
  destruct (scaled_delta (start - base) (pc_rel_scale fmt name) (scale_ok _ Hfmt name)) as (-> & E1 & E2). cbn [mbind option_bind]. rewrite E1, E2.
  destruct (_ =? 0); [done|]. by eexists.
Qed.

Lemma patch_text c pos o inst inst' x v done post relocs : shape_ok (c_shape c) = true ->
  Z.of_nat (length done) = pos -> encode_shape o (c_shape c) = Some (Some inst) -> Z.of_nat (length (i_bytes inst)) = code_len c ->
  patch_with (i_bytes inst) v (x_patch x) = Some (Some (i_bytes inst')) -> length (i_bytes inst') = length (i_bytes inst) ->
  patch_section 0 pos (code_len c) v (x_patch x) (n_name (c_info c)) (text (done ++ i_bytes inst ++ post) relocs) = Some (Ok (text (done ++ i_bytes inst' ++ post) relocs)).
Proof.
  intros Hs Hd He Hl Hp Hl'. unfold patch_section, the_section, text_state. cbn [b_obj o_sections lookup list_lookup mbind option_bind o_data].
  rewrite <- Hl, <- Hd. replace (Z.to_nat (Z.of_nat (length done) + Z.of_nat (length (i_bytes inst)))) with (length done + length (i_bytes inst))%nat by lia.
  rewrite Nat2Z.id, slice_middle by done. cbn [mbind option_bind]. rewrite Hp. cbn [mbind option_bind try_bind]. by rewrite copy_middle by done.
Qed.

Lemma resolve_inst c pos : 0 <= pos -> pos + 16 <= 2 ^ 62 -> 0 <= code_len c <= 16 -> shape_ok (c_shape c) = true -> patches_ok (c_shape c) = true ->
  forall xs o inst done post relocs, Z.of_nat (length done) = pos ->
  encode_shape o (c_shape c) = Some (Some inst) -> Z.of_nat (length (i_bytes inst)) = code_len c ->
  (forall x, x ∈ xs -> x ∈ i_fixups inst) -> NoDup ((fun x => p_attr (x_patch x)) <$> xs) ->
  let r := resolve_fixups fmt (pending c pos <$> xs) (text (done ++ i_bytes inst ++ post) relocs) in
  if forallb (fixup_ok fmt starts c pos) xs then
    exists inst', encode_shape (over (value c pos) xs o) (c_shape c) = Some (Some inst') /\
      r = Some (Ok (text (done ++ i_bytes inst' ++ post) (relocs ++ omap (reloc_of fmt c pos) xs)))
  else exists e, r = Some (Err e).
Proof using Hfmt Hstarts.
  intros Hp Hb Hc Hs Hpa. induction xs as [|x xs IH]; intros o inst done post relocs Hd He Hl Hin Hnd.
  { exists inst. cbn. by rewrite app_nil_r. }
  rewrite fmap_cons in Hnd. apply NoDup_cons in Hnd as [Hx Hnd]. cbn [fmap list_fmap resolve_fixups forallb omap list_omap]. unfold fixup_ok at 1.
  destruct (x_target x) as [b|t] eqn:Ht.
  - pose proof (resolve_block c pos x b (done ++ i_bytes inst ++ post) relocs Ht Hp Hc Hb) as Hr. destruct (value c pos b) as [v|] eqn:Ev.
    2: { destruct Hr as [e ->]. by exists e. }
    rewrite Hr. destruct (patch_encodes o (c_shape c) inst x v Hs Hpa He ltac:(by apply Hin; left)) as (r & Er & Hfit & Hbytes).
    destruct (patch_fits (x_patch x) v) eqn:Ef; cbn [andb].
    2: { assert (r = None) as -> by by apply Hfit. unfold patch_section, the_section, text_state. cbn [b_obj o_sections lookup list_lookup mbind option_bind o_data].
         rewrite <- Hl, <- Hd. replace (Z.to_nat (Z.of_nat (length done) + Z.of_nat (length (i_bytes inst)))) with (length done + length (i_bytes inst))%nat by lia.
         rewrite Nat2Z.id, slice_middle by done. cbn [mbind option_bind]. rewrite Er. by eexists. }
    destruct r as [bytes|]; [|by destruct Hfit as [Hfit _]; specialize (Hfit eq_refl)]. specialize (Hbytes bytes eq_refl).
    assert (Hlb : length bytes = length (i_bytes inst)) by (rewrite (encoded_length _ _ _ Hs Hbytes : length bytes = _); by rewrite (encoded_length _ _ _ Hs He)).
    rewrite (patch_text c pos o inst (mkInst bytes []) x v) by done. cbn [try_bind mbind option_bind i_bytes].
    specialize (IH _ _ done post relocs Hd Hbytes). cbn [i_bytes i_fixups] in IH. rewrite Hlb in IH.
    assert (Hr' : reloc_of fmt c pos x = None) by (unfold reloc_of; by rewrite Ht). rewrite Hr'.
    rewrite <- (encode_shape_agree _ _ (c_shape c) (fun f _ => over_block _ x xs o b v Ht Ev Hx (e_attr f))). apply IH; [done| |done].
    intros y Hy. apply list_elem_of_filter. split; [|apply Hin; by right]. intros E. apply Hx, list_elem_of_fmap. exists y. split; [congruence|done].
  - unfold resolve_fixup. cbn [pending q_target q_info q_offset q_section]. rewrite Ht.
    assert (Hr' : reloc_of fmt c pos x = kind ← reloc_for fmt (n_name (c_info c)); Some (mkReloc (pos + k_field_offset kind) t (k_type kind) (k_addend kind)))
      by (unfold reloc_of; by rewrite Ht). rewrite Hr'.
    destruct (reloc_for fmt (n_name (c_info c))) as [kind|] eqn:Ek; cbn [try_bind mbind option_bind]; [|rewrite bool_decide_eq_false_2 by (by intros [? ?]); cbn [andb]; by eexists].
    rewrite bool_decide_eq_true_2 by done. cbn [andb]. unfold the_section, text_state. cbn [b_obj o_sections lookup list_lookup mbind option_bind].
    pose proof (field_offset_ok _ Hfmt _ _ Ek). unfold checked_add, u64_max. rewrite (proj2 (Z.leb_le _ _)) by lia. cbn [mbind option_bind try_bind].
    rewrite <- (encode_shape_agree _ _ (c_shape c) (fun f _ => over_symbol _ x xs o t Ht Hx (e_attr f))).
    specialize (IH o inst done post (relocs ++ [mkReloc (pos + k_field_offset kind) t (k_type kind) (k_addend kind)]) Hd He Hl). rewrite <- app_assoc in IH.
    apply IH; [|done]. intros y Hy. apply Hin. by right.
Qed.

(** Resolving the fixups of an instruction encodes it again. *)
Lemma resolve_code c pos done post relocs : code_wf c -> Z.of_nat (length done) = pos -> pos + 16 <= 2 ^ 62 ->
  let r := resolve_fixups fmt (pending c pos <$> i_fixups (c_inst c)) (text (done ++ i_bytes (c_inst c) ++ post) relocs) in
  match assemble_code fmt starts c pos with
  | Some (bytes, rs) => Z.of_nat (length bytes) = code_len c /\ r = Some (Ok (text (done ++ bytes ++ post) (relocs ++ rs)))
  | None => exists e, r = Some (Err e)
  end.
Proof using Hfmt Hstarts.
  intros Hw Hd Hb r. pose proof Hw as [Hs Hp Hi Hl]. assert (Hnd : NoDup ((fun x => p_attr (x_patch x)) <$> i_fixups (c_inst c))).
  { rewrite encode_shape_closed in Hi by done. destruct (forallb _ _); [|done]. injection Hi as <-. by apply fixups_nodup. }
  pose proof (resolve_inst c pos ltac:(lia) Hb Hl Hs Hp (i_fixups (c_inst c)) _ _ done post relocs Hd Hi eq_refl (fun x H => H) Hnd) as H.
  unfold assemble_code. destruct (forallb _ (i_fixups (c_inst c))); [|exact H]. cbv zeta in H. fold r in H. destruct H as (inst' & He & Hr).
  rewrite over_resolved in He by done. rewrite He. cbn [mjoin option_join mbind option_bind]. split; [|exact Hr].
  unfold code_len. rewrite (encoded_length _ _ _ Hs He), (encoded_length _ _ _ Hs Hi). done.
Qed.

Lemma resolve_fixups_app xs ys st : resolve_fixups fmt (xs ++ ys) st = try_bind (resolve_fixups fmt xs st) (resolve_fixups fmt ys).
Proof.
  revert st. induction xs as [|x xs IH]; intros st; [done|]. cbn [app resolve_fixups]. rewrite try_bind_assoc.
  destruct (resolve_fixup fmt x st) as [[st'|e]|]; cbn [try_bind mbind option_bind]; [apply IH|done|done].
Qed.

Fixpoint pendings (pos : Z) (codes : list Code) : list PendingFixup :=
  match codes with [] => [] | c :: codes => (pending c pos <$> i_fixups (c_inst c)) ++ pendings (pos + code_len c) codes end.
Definition code_bytes (codes : list Code) : list Z := concat ((fun c => i_bytes (c_inst c)) <$> codes).

Lemma length_code_bytes codes : Z.of_nat (length (code_bytes codes)) = size_of codes.
Proof. induction codes as [|c codes IH]; [done|]. unfold code_bytes. cbn [fmap list_fmap concat size_of]. rewrite length_app. fold (code_bytes codes). unfold code_len. lia. Qed.

Lemma resolve_codes codes : forall done relocs pos, Forall code_wf codes -> Z.of_nat (length done) = pos -> pos + size_of codes + 16 <= 2 ^ 62 ->
  let r := resolve_fixups fmt (pendings pos codes) (text (done ++ code_bytes codes) relocs) in
  match assemble_codes fmt starts pos codes with
  | Some (bytes, rs) => Z.of_nat (length bytes) = size_of codes /\ r = Some (Ok (text (done ++ bytes) (relocs ++ rs)))
  | None => exists e, r = Some (Err e)
  end.
Proof using Hfmt Hstarts.
  induction codes as [|c codes IH]; intros done relocs pos Hw Hd Hb r.
  { split; [done|]. unfold r. cbn. by rewrite !app_nil_r. }
  inversion Hw as [|? ? Hc Hw']; subst. cbn [size_of assemble_codes] in *. pose proof (wf_len _ Hc). pose proof (length_code_bytes codes).
  unfold r, code_bytes. cbn [pendings fmap list_fmap concat]. fold (code_bytes codes). rewrite resolve_fixups_app.
  pose proof (resolve_code c _ done (code_bytes codes) relocs Hc eq_refl ltac:(lia)) as Hr. cbv zeta in Hr.
  destruct (assemble_code _ _ _ _) as [[bytes rs]|]; cbn [mbind option_bind]; [|destruct Hr as [e ->]; by exists e].
  destruct Hr as [Hl ->]. cbn [try_bind mbind option_bind]. rewrite app_assoc.
  pose proof (IH (done ++ bytes) (relocs ++ rs) (Z.of_nat (length done) + code_len c) Hw' ltac:(rewrite length_app; lia) ltac:(lia)) as Hrest. cbv zeta in Hrest.
  destruct (assemble_codes _ _ _ _) as [[rest rs']|]; cbn [mbind option_bind]; [|exact Hrest].
  destruct Hrest as [Hlr ->]. rewrite length_app. split; [lia|]. by rewrite <- !app_assoc.
Qed.
End Resolve.

(** ** Emitting code *)

Fixpoint spans_of (pos : Z) (codes : list Code) : list (Z * Z) :=
  match codes with [] => [] | c :: codes => (pos, code_len c) :: spans_of (pos + code_len c) codes end.

Lemma code_bytes_app a b : code_bytes (a ++ b) = code_bytes a ++ code_bytes b.
Proof. unfold code_bytes. by rewrite fmap_app, concat_app. Qed.
Lemma spans_of_app a b : forall pos, spans_of pos (a ++ b) = spans_of pos a ++ spans_of (pos + size_of a) b.
Proof. induction a as [|c a IH]; intros pos; [cbn; by rewrite Z.add_0_r|]. cbn [app spans_of size_of]. by rewrite IH, Z.add_assoc. Qed.
Lemma pendings_app a b : forall pos, pendings pos (a ++ b) = pendings pos a ++ pendings (pos + size_of a) b.
Proof. induction a as [|c a IH]; intros pos; [cbn; by rewrite Z.add_0_r|]. cbn [app pendings size_of]. by rewrite IH, Z.add_assoc, app_assoc. Qed.

Section Emit.
Context (fmt : ObjectFormatInfo) (align : Z) (assignment : gmap nat (RegClass * Z)) (symbols : list ObjSymbol) (relocs : list ObjReloc).

#[local] Notation text data spans starts fixups := (text_state align assignment symbols data relocs spans starts fixups).

Lemma encode_code m data spans starts fixups : machine_ok m = true ->
  let pos := Z.of_nat (length data) in
  match code_of assignment m with
  | Some c => code_wf c /\ encode_op m (text data spans starts fixups) =
      Some (Ok (text (data ++ i_bytes (c_inst c)) (spans ++ [(pos, code_len c)]) starts (fixups ++ (pending c pos <$> i_fixups (c_inst c)))))
  | None => exists e, encode_op m (text data spans starts fixups) = Some (Err e)
  end.
Proof.
  intros H pos. pose proof (code_of_spec assignment m H) as Hc. unfold encode_op. destruct (code_of assignment m) as [c|].
  - destruct Hc as (Hw & spec & -> & Es & Ee). split; [done|]. cbn [try_bind mbind option_bind]. rewrite Es. cbn [try_bind mbind option_bind b_assignment text_state].
    rewrite Ee. cbn [try_bind mbind option_bind]. pose proof (wf_len _ Hw). fold (code_len c). rewrite (Z.mod_small (code_len c)) by lia. done.
  - destruct Hc as [->|(info & -> & [E|(spec & E & Ee)])]; cbn [try_bind mbind option_bind].
    + by eexists.
    + rewrite E. by eexists.
    + rewrite E. cbn [try_bind mbind option_bind b_assignment text_state]. rewrite Ee. by eexists.
Qed.

(** Where coding all of them fails, emitting them fails. *)
Definition emits {A} (o : option A) (r : option (result ObjectEmission BinaryEmitError)) (ok : A -> Prop) (st : A -> ObjectEmission) : Prop :=
  match o with Some a => ok a /\ r = Some (Ok (st a)) | None => exists e, r = Some (Err e) end.

Lemma walk_codes omitted items : forall i data spans starts fixups, forallb code_only items = true ->
  emits (mapM (code_of assignment) (kept omitted i items)) (walk_items (write_op fmt) omitted i items (text data spans starts fixups)) (Forall code_wf)
    (fun codes => let pos := Z.of_nat (length data) in text (data ++ code_bytes codes) (spans ++ spans_of pos codes) starts (fixups ++ pendings pos codes)).
Proof.
  induction items as [|item items IH]; intros i data spans starts fixups Hc.
  { cbn. split; [constructor|]. by rewrite !app_nil_r. }
  cbn [forallb] in Hc. apply andb_true_iff in Hc as [Hi Hc].
  assert (Hskip : forall r, r = walk_items (write_op fmt) omitted (S i) items (text data spans starts fixups) ->
    emits (mapM (code_of assignment) (kept omitted (S i) items)) r (Forall code_wf)
      (fun codes => let pos := Z.of_nat (length data) in text (data ++ code_bytes codes) (spans ++ spans_of pos codes) starts (fixups ++ pendings pos codes)))
    by (intros r ->; by apply IH).
  destruct item as [global| | | | | |m]; try done; cbn [kept walk_items].
  - apply Hskip. cbn [write_op code_only] in *. unfold emit_global. rewrite Hi. by destruct (bool_decide _).
  - apply Hskip. by destruct (bool_decide _).
  - destruct (bool_decide_reflect (omitted = Some i)); [by apply Hskip|]. cbn [mapM]. cbn [write_op].
    pose proof (encode_code m data spans starts fixups Hi) as He. cbv zeta in He. destruct (code_of assignment m) as [c|]; cbn [mbind option_bind].
    2: { destruct He as [e ->]. by exists e. }
    destruct He as [Hw ->]. cbn [try_bind mbind option_bind].
    specialize (IH (S i) (data ++ i_bytes (c_inst c)) (spans ++ [(Z.of_nat (length data), code_len c)]) starts (fixups ++ (pending c (Z.of_nat (length data)) <$> i_fixups (c_inst c))) Hc).
    unfold emits in *. destruct (mapM _ _) as [codes|]; cbn [mbind option_bind]; [|exact IH]. destruct IH as [Hwf ->]. split; [by constructor|].
    rewrite length_app, Nat2Z.inj_add. fold (code_len c). unfold code_bytes. cbn [fmap list_fmap concat spans_of pendings]. by rewrite <- !app_assoc.
Qed.

Lemma write_codes blocks : forall data spans starts fixups, forallb (fun b => forallb code_only b.2) blocks = true ->
  emits (coded_blocks assignment blocks) (write_blocks fmt 0 blocks (text data spans starts fixups)) (fun coded => Forall code_wf (concat (snd <$> coded)))
    (fun coded => let pos := Z.of_nat (length data) in let codes := concat (snd <$> coded) in
      text (data ++ code_bytes codes) (spans ++ spans_of pos codes) (starts_of pos starts coded) (fixups ++ pendings pos codes)).
Proof.
  unfold write_blocks. induction blocks as [|[b items] blocks IH]; intros data spans starts fixups Hc.
  { cbn. split; [constructor|]. by rewrite !app_nil_r. }
  cbn [forallb snd] in Hc. apply andb_true_iff in Hc as [Hi Hc]. cbn [write_blocks_with coded_blocks].
  unfold the_section at 1. cbn [b_obj o_sections text_state lookup list_lookup mbind option_bind].
  pose proof (walk_codes (omitted_of items blocks) items 0 data spans (<[b := Z.of_nat (length data)]> starts) fixups Hi) as Hw. unfold emits in Hw.
  change (set_start b _ _) with (text data spans (<[b := Z.of_nat (length data)]> starts) fixups).
  destruct (mapM _ _) as [codes|]; cbn [mbind option_bind].
  2: { destruct Hw as [e ->]. by exists e. }
  destruct Hw as [Hwf ->]. cbn [try_bind mbind option_bind].
  specialize (IH (data ++ code_bytes codes) (spans ++ spans_of (Z.of_nat (length data)) codes) (<[b := Z.of_nat (length data)]> starts) (fixups ++ pendings (Z.of_nat (length data)) codes) Hc).
  unfold emits in *. destruct (coded_blocks assignment blocks) as [coded|]; cbn [mbind option_bind]; [|exact IH]. destruct IH as [Hwf' ->].
  cbn [fmap list_fmap concat snd starts_of]. split; [by apply list.Forall_app|]. rewrite length_app, Nat2Z.inj_add, length_code_bytes.
  by rewrite code_bytes_app, spans_of_app, pendings_app, <- !app_assoc.
Qed.
End Emit.
