(* ===== verification/WriterTheorems.v ===== *)
(** * What the object writer emits

    Blocks of code assemble to what the two-pass reference assembles them to
    ([layout_assembles]). *)
From Stdlib Require Import String.
From S2P Require Import Prelude Words ObjFile Elf Encode EncodeBits EncodeTheorems Writer WriterSpec.
From stdpp Require Import strings.
#[local] Open Scope string_scope.
#[local] Open Scope Z_scope.
#[local] Open Scope list_scope.

(** ** Bounds of the layout *)

Lemma size_of_bound codes : Forall code_wf codes -> 0 <= size_of codes <= 16 * Z.of_nat (length codes).
Proof. induction 1 as [|c codes Hc H IH]; [done|]. pose proof (wf_len _ Hc). cbn [size_of length]. lia. Qed.

Lemma size_of_app a b : size_of (a ++ b) = size_of a + size_of b.
Proof. induction a as [|c a IH]; [done|]. cbn [app size_of]. lia. Qed.

Lemma starts_bound coded : forall pos starts limit, Forall code_wf (concat (snd <$> coded)) -> 0 <= pos -> pos + size_of (concat (snd <$> coded)) <= limit ->
  (forall b v, starts !! b = Some v -> 0 <= v <= limit) -> forall b v, starts_of pos starts coded !! b = Some v -> 0 <= v <= limit.
Proof.
  induction coded as [|[b codes] coded IH]; intros pos starts limit Hw Hp Hl Hs b' v; [apply Hs|].
  cbn [fmap list_fmap concat snd starts_of] in *. apply list.Forall_app in Hw as [Hc Hw]. rewrite size_of_app in Hl.
  pose proof (size_of_bound _ Hc). pose proof (size_of_bound _ Hw). apply IH; [done|lia|lia|].
  intros b'' v' [[<- <-]|[_ H']]%lookup_insert_Some; [lia|by apply (Hs b'')].
Qed.

Lemma kept_length omitted items : forall i, (length (kept omitted i items) <= length items)%nat.
Proof.
  induction items as [|item items IH]; intros i; [done|]. cbn [kept length]. specialize (IH (S i)).
  destruct item; try lia. destruct (bool_decide _); cbn [length]; lia.
Qed.

Lemma coded_length assignment blocks : forall coded, coded_blocks assignment blocks = Some coded ->
  (length (concat (snd <$> coded)) <= length (concat (snd <$> blocks)))%nat.
Proof.
  induction blocks as [|[b items] blocks IH]; intros coded E; cbn [coded_blocks] in E; [by injection E as <-|].
  destruct (mapM _ _) as [codes|] eqn:Em; [|done]. cbn [mbind option_bind] in E. destruct (coded_blocks assignment blocks) as [coded'|]; [|done].
  injection E as <-. cbn [fmap list_fmap concat snd]. rewrite !length_app. specialize (IH _ eq_refl). apply mapM_Some, Forall2_length in Em.
  pose proof (kept_length (omitted_of items blocks) items 0). unfold fmap in *. lia.
Qed.

(** ** Writing and resolving *)

(** Emitting the blocks and resolving them assembles them. *)
Lemma write_assembles fmt align assignment symbols blocks :
  format_ok fmt -> forallb (fun b => forallb code_only b.2) blocks = true -> 16 * Z.of_nat (length (concat (snd <$> blocks))) + 16 <= 2 ^ 62 ->
  match assemble fmt assignment blocks with
  | Some (code, relocs) => exists coded bytes fixups, coded_blocks assignment blocks = Some coded /\ length bytes = length code /\
      let spans := spans_of 0 (concat (snd <$> coded)) in let starts := starts_of 0 ∅ coded in
      write_blocks fmt 0 blocks (text_state align assignment symbols [] [] [] ∅ []) = Some (Ok (text_state align assignment symbols bytes [] spans starts fixups)) /\
      forall align' symbols', resolve_fixups fmt fixups (text_state align' assignment symbols' bytes [] spans starts fixups) =
        Some (Ok (text_state align' assignment symbols' code relocs spans starts fixups))
  | None => (exists e, write_blocks fmt 0 blocks (text_state align assignment symbols [] [] [] ∅ []) = Some (Err e)) \/
      exists bytes spans starts fixups,
      write_blocks fmt 0 blocks (text_state align assignment symbols [] [] [] ∅ []) = Some (Ok (text_state align assignment symbols bytes [] spans starts fixups)) /\
      forall align' symbols', exists e, resolve_fixups fmt fixups (text_state align' assignment symbols' bytes [] spans starts fixups) = Some (Err e)
  end.
Proof.
  intros Hf Hc Hl. pose proof (write_codes fmt align assignment symbols [] blocks [] [] ∅ [] Hc) as Hw. unfold emits, assemble in *.
  destruct (coded_blocks assignment blocks) as [coded|] eqn:Ec; cbn [mbind option_bind]; [|by left].
  destruct Hw as [Hwf Hw]. cbn [app length] in Hw. change (Z.of_nat 0) with 0 in Hw. set (codes := concat (snd <$> coded)) in *.
  pose proof (coded_length _ _ _ Ec) as Hlc. fold codes in Hlc. pose proof (size_of_bound _ Hwf).
  assert (Hr := fun al sy => resolve_codes fmt al assignment sy (spans_of 0 codes) (starts_of 0 ∅ coded) (pendings 0 codes) Hf
    (fun b v Hb => ltac:(assert (0 <= v <= 2 ^ 62 - 16); [apply (starts_bound coded 0 ∅ (2 ^ 62 - 16) Hwf ltac:(done) ltac:(fold codes; lia) ltac:(intros ? ?; by rewrite lookup_empty) b v Hb)|lia]))
    codes [] [] 0 Hwf eq_refl ltac:(lia)). cbn [app] in Hr. pose proof (length_code_bytes codes) as Hlb.
  destruct (assemble_codes fmt (starts_of 0 ∅ coded) 0 codes) as [[code relocs]|].
  - exists coded, (code_bytes codes), (pendings 0 codes). split; [done|]. split; [destruct (Hr align symbols) as [Hx _]; lia|].
    split; [exact Hw|]. intros al sy. by destruct (Hr al sy).
  - right. exists (code_bytes codes), (spans_of 0 codes), (starts_of 0 ∅ coded), (pendings 0 codes). split; [exact Hw|]. intros al sy. apply Hr.
Qed.

(** The symbol a module of one symbol defines. *)
Definition code_symbol (op : OpHandle) (name : string) (size : Z) : ObjSymbol :=
  mkSymbol name (Some 0%nat) 0 size (if bool_decide (as_string_attr (attr op "binding") = Some "local") then Local else Global)
    (if bool_decide (as_string_attr (attr op "kind") = Some "object") then Object else Func).

Lemma open_empty op assignment name : as_string_attr (attr op "name") = Some name ->
  open_symbol op assignment emission_default =
    Some (Ok (text_state (Z.max 4 (symbol_align op)) assignment [] [] [] [] ∅ [], 0%nat, 0, name)).
Proof.
  intros En. unfold open_symbol. rewrite En. cbn [try_bind mbind option_bind].
  change (section_or ".text" (set_assignment assignment emission_default)) with (text_state 4 assignment [] [] [] [] ∅ [], 0%nat). cbn match.
  unfold the_section at 1. cbn [b_obj o_sections text_state lookup list_lookup mbind option_bind].
  assert (Ha : align_up (data_len (mkSection ".text" Text 4 [] [] [])) (symbol_align op) = Some 0).
  { unfold align_up, align_to, data_len, symbol_align. cbn [o_data length]. set (a := Z.max _ 1). assert (1 <= a) by lia.
    rewrite (proj2 (Z.eqb_neq a 0)) by lia. change (Z.of_nat 0) with 0. by rewrite Z.add_0_l, Z.div_small, Z.mul_0_l by lia. }
  rewrite Ha. reflexivity.
Qed.

Lemma close_text op align assignment bytes relocs spans starts fixups name :
  close_symbol op 0 0 name (text_state align assignment [] bytes relocs spans starts fixups) =
    Some (Ok (text_state align assignment [code_symbol op name (Z.of_nat (length bytes))] bytes relocs spans starts fixups)).
Proof.
  unfold close_symbol, the_section, checked_sub. cbn [b_obj o_sections text_state lookup list_lookup mbind option_bind]. unfold data_len. cbn [o_data].
  by rewrite (proj2 (Z.leb_le _ _)), Z.sub_0_r by lia.
Qed.

Lemma finish_text fmt align assignment symbols bytes relocs spans starts fixups :
  finish_object fmt (text_state align assignment symbols bytes relocs spans starts fixups) =
    (st <-? resolve_fixups fmt fixups (text_state align assignment symbols bytes relocs spans starts fixups);
     st <-? resolve_symbol_differences st; Some (Ok (b_obj st))).
Proof. reflexivity. Qed.

(** C12: where the blocks of a symbol hold only code, [valid_block_layout] says
    whether they assemble, and never panics; and writing a module of that one
    symbol succeeds exactly when they do, with the bytes and relocations of the
    reference assembler: each instruction encoded with the displacement of its
    branch target in the operand's place, each use of a symbol a relocation,
    the instructions one after the other, less the branches to the next block. *)
Theorem layout_assembles (fmt : ObjectFormatInfo) (assignment : gmap nat (RegClass * Z)) (op : OpHandle) (name : string) (blocks : list (nat * list Item)) :
  format_ok fmt -> forallb (fun b => forallb code_only b.2) blocks = true -> 16 * Z.of_nat (length (concat (snd <$> blocks))) + 16 <= 2 ^ 62 ->
  as_string_attr (attr op "name") = Some name ->
  valid_block_layout fmt assignment blocks = Some (bool_decide (is_Some (assemble fmt assignment blocks))) /\
  match assemble fmt assignment blocks with
  | Some (code, relocs) => exists coded, coded_blocks assignment blocks = Some coded /\
      write_module fmt [SymbolItem op assignment blocks] =
        Some (Ok (mkObject [mkSection ".text" Text (Z.max 4 (symbol_align op)) code relocs (spans_of 0 (concat (snd <$> coded)))]
                    [code_symbol op name (Z.of_nat (length code))]))
  | None => exists e, write_module fmt [SymbolItem op assignment blocks] = Some (Err e)
  end.
Proof.
  intros Hf Hc Hl En. split.
  - unfold valid_block_layout. assert (existsb (fun b => existsb (fun item => negb (code_item item)) b.2) blocks = false) as ->.
    { apply not_true_is_false. intros ((b & items) & Hb & (item & Hi & Hn)%existsb_exists)%existsb_exists. rewrite forallb_forall in Hc.
      specialize (Hc _ Hb). rewrite forallb_forall in Hc. specialize (Hc _ Hi). by destruct item. }
    change (layout_start assignment) with (text_state 4 assignment [] [] [] [] ∅ [], 0%nat). cbn match.
    pose proof (write_assembles fmt 4 assignment [] blocks Hf Hc Hl) as Hw. destruct (assemble fmt assignment blocks) as [[code relocs]|].
    + destruct Hw as (coded & bytes & fixups & _ & _ & -> & Hr). cbn [try_bind mbind option_bind b_fixups text_state].
      change (mkEmission _ _ _ _ _ _) with (text_state 4 assignment [] bytes [] (spans_of 0 (concat (snd <$> coded))) (starts_of 0 ∅ coded) fixups).
      rewrite Hr. cbn [mbind option_bind]. by rewrite bool_decide_eq_true_2.
    + rewrite bool_decide_eq_false_2 by by intros [? ?]. destruct Hw as [[e ->]|(bytes & spans & starts & fixups & -> & Hr)]; [done|].
      cbn [try_bind mbind option_bind b_fixups text_state]. destruct (Hr 4 []) as [e He].
      change (mkEmission _ _ _ _ _ _) with (text_state 4 assignment [] bytes [] spans starts fixups). by rewrite He.
  - unfold write_module, walk_block. cbn [walk_items write_op]. rewrite bool_decide_eq_false_2 by done. rewrite (open_empty op assignment name En).
    cbn [try_bind mbind option_bind]. pose proof (write_assembles fmt (Z.max 4 (symbol_align op)) assignment [] blocks Hf Hc Hl) as Hw.
    unfold write_blocks in Hw. destruct (assemble fmt assignment blocks) as [[code relocs]|].
    + destruct Hw as (coded & bytes & fixups & Ec & Hlb & -> & Hr). exists coded. split; [done|]. cbn [try_bind mbind option_bind].
      rewrite close_text, Hlb. cbn [try_bind mbind option_bind]. rewrite finish_text. by rewrite (Hr (Z.max 4 (symbol_align op)) [code_symbol op name (Z.of_nat (length code))]).
    + destruct Hw as [[e ->]|(bytes & spans & starts & fixups & -> & Hr)]; [by exists e|]. cbn [try_bind mbind option_bind].
      rewrite close_text. cbn [try_bind mbind option_bind]. rewrite finish_text.
      destruct (Hr (Z.max 4 (symbol_align op)) [code_symbol op name (Z.of_nat (length bytes))]) as [e He]. exists e. by rewrite He.
Qed.

(** ** What every emission keeps *)

Fixpoint spans_ok (from : Z) (spans : list (Z * Z)) (limit : Z) : Prop :=
  match spans with [] => from <= limit | (off, len) :: spans => from <= off /\ 0 <= len /\ spans_ok (off + len) spans limit end.

Record section_wf (s : ObjSection) : Prop := mkSectionWf {
  section_wf_kind : o_kind s = section_kind (o_name s); section_wf_spans : spans_ok 0 (o_spans s) (data_len s) }.

(** A section grows: it keeps its name, its bytes stay at least as many. *)
Record section_le (s s' : ObjSection) : Prop := mkSectionLe {
  le_name : o_name s' = o_name s; le_len : data_len s <= data_len s'; le_spans : o_spans s `prefix_of` o_spans s' }.
Definition sections_le (l l' : list ObjSection) : Prop := forall i s, l !! i = Some s -> exists s', l' !! i = Some s' /\ section_le s s'.

Definition symbol_wf (l : list ObjSection) (sym : ObjSymbol) : Prop :=
  exists i s, y_section sym = Some i /\ l !! i = Some s /\ 0 <= y_value sym /\ 0 <= y_size sym /\ y_value sym + y_size sym <= data_len s.
Definition fixup_wf (l : list ObjSection) (q : PendingFixup) : Prop :=
  exists s shape, l !! q_section q = Some s /\ 0 <= q_offset q /\ q_offset q + q_len q <= data_len s /\
    shape_ok shape = true /\ patches_ok shape = true /\ q_patch q ∈ patch shape /\ q_len q = Z.of_nat (width_bytes shape).
Definition difference_wf (l : list ObjSection) (d : nat * SymbolDifference) : Prop :=
  exists s, l !! d.1 = Some s /\ 0 <= d_offset d.2 /\ d_width d.2 ∈ [1; 2; 4; 8] /\ d_offset d.2 + d_width d.2 <= data_len s.

Definition room (l : list ObjSection) : Z := foldr (fun s n => data_len s + n) 0 l.

#[local] Notation sections_of st := (o_sections (b_obj st)).

Record emission_wf (st : ObjectEmission) : Prop := mkEmissionWf {
  wf_names : NoDup (o_name <$> sections_of st);
  wf_sections : Forall section_wf (sections_of st);
  wf_symbols : Forall (symbol_wf (sections_of st)) (o_symbols (b_obj st));
  wf_current : match current_section st with Some i => is_Some (sections_of st !! i) | None => True end;
  wf_fixups : Forall (fixup_wf (sections_of st)) (b_fixups st);
  wf_differences : Forall (difference_wf (sections_of st)) (b_differences st);
  wf_starts : forall b v, block_starts st !! b = Some v -> 0 <= v <= room (sections_of st) }.

Lemma section_le_refl s : section_le s s.
Proof. by split. Qed.
Lemma section_le_trans a b c : section_le a b -> section_le b c -> section_le a c.
Proof. intros [H1 H2 H3] [H4 H5 H6]. split; [congruence|lia|by etrans]. Qed.
Lemma sections_le_refl l : sections_le l l.
Proof. intros i s Hi. exists s. split; [done|apply section_le_refl]. Qed.
Lemma sections_le_trans a b c : sections_le a b -> sections_le b c -> sections_le a c.
Proof.
  intros H1 H2 i s Hi. destruct (H1 i s Hi) as (s' & Hi' & Hl). destruct (H2 i s' Hi') as (s'' & Hi'' & Hl').
  exists s''. split; [done|by eapply section_le_trans].
Qed.

Lemma data_len_nonneg s : 0 <= data_len s.
Proof. unfold data_len. lia. Qed.
Lemma room_nonneg l : 0 <= room l.
Proof. induction l as [|s l IH]; [done|]. cbn [room foldr]. fold (room l). pose proof (data_len_nonneg s). lia. Qed.
Lemma room_app a b : room (a ++ b) = room a + room b.
Proof. induction a as [|s a IH]; [done|]. cbn [app room foldr]. fold (room (a ++ b)) (room a). lia. Qed.
Lemma room_in l i s : l !! i = Some s -> data_len s <= room l.
Proof. intros Hi. rewrite <- (take_drop_middle l i s Hi), room_app. cbn [room foldr]. fold (room (drop (S i) l)). pose proof (room_nonneg (take i l)). pose proof (room_nonneg (drop (S i) l)). lia. Qed.
Lemma room_insert l i s s' : l !! i = Some s -> room (<[i := s']> l) = room l + data_len s' - data_len s.
Proof.
  intros Hi. rewrite (insert_take_drop l i s') by by eapply lookup_lt_Some. rewrite <- (take_drop_middle l i s Hi) at 3. rewrite !room_app.
  cbn [room foldr]. fold (room (drop (S i) l)). lia.
Qed.

Section Mono.
Context (l l' : list ObjSection) (Hle : sections_le l l').

Lemma symbol_wf_mono sym : symbol_wf l sym -> symbol_wf l' sym.
Proof using Hle. intros (i & s & Hs & Hi & H0 & H1 & H2). destruct (Hle i s Hi) as (s' & Hi' & [_ Hl _]). exists i, s'. repeat split; try done. lia. Qed.
Lemma fixup_wf_mono q : fixup_wf l q -> fixup_wf l' q.
Proof using Hle. intros (s & sh & Hi & H0 & H1 & H2). destruct (Hle _ s Hi) as (s' & Hi' & [_ Hl _]). exists s', sh. split; [done|]. split; [done|]. split; [lia|done]. Qed.
Lemma difference_wf_mono d : difference_wf l d -> difference_wf l' d.
Proof using Hle. intros (s & Hi & H0 & H1 & H2). destruct (Hle _ s Hi) as (s' & Hi' & [_ Hl _]). exists s'. repeat split; try done. lia. Qed.
End Mono.

(** Replacing the sections by larger ones. *)
Lemma sections_wf st l' : emission_wf st -> sections_le (sections_of st) l' -> NoDup (o_name <$> l') -> Forall section_wf l' -> room (sections_of st) <= room l' ->
  emission_wf (set_obj (mkObject l' (o_symbols (b_obj st))) st).
Proof.
  intros [H1 H2 H3 H4 H5 H6 H7] Hle Hn Hs Hr. split; cbn [set_obj b_obj o_sections o_symbols current_section b_fixups b_differences block_starts]; try done.
  - eapply Forall_impl; [exact H3|]. by apply symbol_wf_mono.
  - destruct (current_section st) as [i|]; [|done]. destruct H4 as [s Hi]. destruct (Hle i s Hi) as (s' & -> & _). done.
  - eapply Forall_impl; [exact H5|]. by apply fixup_wf_mono.
  - eapply Forall_impl; [exact H6|]. by apply difference_wf_mono.
  - intros b v Hb. specialize (H7 b v Hb). lia.
Qed.

Lemma insert_le (l : list ObjSection) i s s' : l !! i = Some s -> section_le s s' -> sections_le l (<[i := s']> l).
Proof.
  intros Hi Hs j t Hj. destruct (decide (i = j)) as [->|Hn].
  - exists s'. rewrite list_lookup_insert_eq by by eapply lookup_lt_Some. split; [done|]. by simplify_eq.
  - exists t. rewrite list_lookup_insert_ne by done. split; [done|apply section_le_refl].
Qed.

Lemma insert_names (l : list ObjSection) i s s' : l !! i = Some s -> o_name s' = o_name s -> o_name <$> <[i := s']> l = o_name <$> l.
Proof. intros Hi Hn. rewrite list_fmap_insert, Hn. apply list_insert_id. by rewrite list_lookup_fmap, Hi. Qed.

Lemma set_section_wf st i s s' : emission_wf st -> sections_of st !! i = Some s -> section_le s s' -> section_wf s' ->
  emission_wf (set_section i s' st) /\ sections_le (sections_of st) (sections_of (set_section i s' st)) /\
  room (sections_of (set_section i s' st)) = room (sections_of st) + data_len s' - data_len s.
Proof.
  intros Hw Hi Hle Hs. pose proof (room_insert _ i s s' Hi) as Hr. pose proof (le_len _ _ Hle). pose proof (insert_le _ i s s' Hi Hle).
  split; [|split; [done|exact Hr]]. apply sections_wf; [done|done| | |lia].
  - rewrite (insert_names _ i s s' Hi (le_name _ _ Hle)). apply Hw.
  - apply Forall_insert; [apply Hw|done].
Qed.

Lemma spans_ok_mono spans : forall from a b, a <= b -> spans_ok from spans a -> spans_ok from spans b.
Proof. induction spans as [|[off len] spans IH]; intros from a b Hab; cbn [spans_ok]; [lia|]. intros (H0 & H1 & H2). split; [done|]. split; [done|]. by apply (IH _ a). Qed.
Lemma spans_ok_snoc spans : forall from limit len, 0 <= len -> spans_ok from spans limit -> spans_ok from (spans ++ [(limit, len)]) (limit + len).
Proof. induction spans as [|[off l] spans IH]; intros from limit len Hl; cbn [spans_ok app]; [lia|]. intros (H0 & H1 & H2). split; [done|]. split; [done|]. by apply IH. Qed.

(** ** Steps that succeed, fail or panic *)

Definition runs {A E} (r : option (result A E)) (Q : A -> Prop) : Prop :=
  match r with Some (Ok a) => Q a | Some (Err _) => True | None => False end.

Lemma runs_bind {A B E} (c : option (result A E)) (k : A -> option (result B E)) (Q : A -> Prop) (R : B -> Prop) :
  runs c Q -> (forall a, Q a -> runs (k a) R) -> runs (try_bind c k) R.
Proof. unfold runs. destruct c as [[a|e]|]; [intros Hq Hk; by apply Hk|done|done]. Qed.

Lemma runs_impl {A E} (r : option (result A E)) (Q R : A -> Prop) : runs r Q -> (forall a, Q a -> R a) -> runs r R.
Proof. unfold runs. destruct r as [[a|e]|]; [intros Hq Hr; by apply Hr|done|done]. Qed.

(** An emission step: at most [w] more bytes, and the symbols [names]. *)
Record step (st : ObjectEmission) (w : Z) (names : list string) (st' : ObjectEmission) : Prop := mkStep {
  step_wf : emission_wf st'; step_le : sections_le (sections_of st) (sections_of st');
  step_room : room (sections_of st') <= room (sections_of st) + w;
  step_names : y_name <$> o_symbols (b_obj st') = (y_name <$> o_symbols (b_obj st)) ++ names }.

Lemma step_refl st : emission_wf st -> step st 0 [] st.
Proof. intros H. split; [done|apply sections_le_refl|lia|by rewrite app_nil_r]. Qed.

Lemma step_trans a b c w w' ns ns' : step a w ns b -> step b w' ns' c -> step a (w + w') (ns ++ ns') c.
Proof.
  intros [H1 H2 H3 H4] [H5 H6 H7 H8]. split; [done|by eapply sections_le_trans|lia|]. by rewrite H8, H4, app_assoc.
Qed.

Lemma step_weaken a b w w' ns ns' : step a w ns b -> w <= w' -> ns = ns' -> step a w' ns' b.
Proof. intros [H1 H2 H3 H4] Hw ->. split; [done|done|lia|done]. Qed.

(** Changes that leave the object alone. *)
Lemma wf_set_current st i : emission_wf st -> match i with Some i => is_Some (sections_of st !! i) | None => True end -> emission_wf (set_current i st).
Proof. intros [H1 H2 H3 H4 H5 H6 H7] Hi. by split. Qed.
Lemma wf_set_assignment st a : emission_wf st -> emission_wf (set_assignment a st).
Proof. intros [H1 H2 H3 H4 H5 H6 H7]. by split. Qed.
Lemma wf_set_start st b v : emission_wf st -> 0 <= v <= room (sections_of st) -> emission_wf (set_start b v st).
Proof.
  intros [H1 H2 H3 H4 H5 H6 H7] Hv. split; try done. intros b' v'. cbn [set_start block_starts b_obj]. intros [[<- <-]|[_ Hb]]%lookup_insert_Some; [done|by apply (H7 b')].
Qed.
Lemma wf_add_fixups st qs : emission_wf st -> Forall (fixup_wf (sections_of st)) qs -> emission_wf (add_fixups qs st).
Proof. intros [H1 H2 H3 H4 H5 H6 H7] Hq. split; try done. cbn. by apply list.Forall_app. Qed.
Lemma wf_add_differences st ds : emission_wf st -> Forall (difference_wf (sections_of st)) ds -> emission_wf (add_differences ds st).
Proof. intros [H1 H2 H3 H4 H5 H6 H7] Hd. split; try done. cbn. by apply list.Forall_app. Qed.
Lemma wf_push_symbol st sym : emission_wf st -> symbol_wf (sections_of st) sym -> emission_wf (push_symbol sym st).
Proof. intros [H1 H2 H3 H4 H5 H6 H7] Hs. split; try done. cbn. apply list.Forall_app. by repeat constructor. Qed.

Lemma new_section_wf name : section_wf (new_section name).
Proof. by split. Qed.

Lemma ensure_step st name st' i : emission_wf st -> ensure name st = (st', i) ->
  step st 0 [] st' /\ is_Some (sections_of st' !! i) /\ current_section st' = current_section st /\ b_assignment st' = b_assignment st.
Proof.
  intros Hw. unfold ensure, ensure_section. destruct (list_find _ _) as [[j s]|] eqn:E.
  - apply list_find_Some in E as (Hi & _). intros [= <- <-]. split; [|split; [by eexists|done]].
    split; cbn; [by destruct Hw; split|apply sections_le_refl|lia|by rewrite app_nil_r].
  - apply list_find_None in E. intros [= <- <-]. split; [|split; [cbn; rewrite lookup_app_r, Nat.sub_diag by done; by eexists|done]].
    assert (Hle : sections_le (sections_of st) (sections_of st ++ [new_section name])).
    { intros i s Hi. exists s. split; [by apply lookup_app_l_Some|apply section_le_refl]. }
    split; cbn [set_obj b_obj o_sections o_symbols]; [|done|rewrite room_app; change (room [new_section name]) with 0; lia|by rewrite app_nil_r].
    apply (sections_wf st (sections_of st ++ [new_section name])); [done|done| | |rewrite room_app; change (room [new_section name]) with 0; lia].
    + rewrite fmap_app. apply NoDup_app. split; [apply Hw|]. split; [|cbn; apply NoDup_singleton].
      intros n (s & -> & Hs)%list_elem_of_fmap Hn%list_elem_of_singleton. rewrite list.Forall_forall in E. by apply (E s Hs).
    + apply list.Forall_app. split; [apply Hw|]. constructor; [apply new_section_wf|constructor].
Qed.

Lemma section_or_step st name st' i : emission_wf st -> section_or name st = (st', i) ->
  step st 0 [] st' /\ is_Some (sections_of st' !! i) /\ b_assignment st' = b_assignment st.
Proof.
  intros Hw. unfold section_or. destruct (current_section st) as [j|] eqn:Ej.
  - intros [= <- <-]. pose proof (wf_current _ Hw) as Hc. rewrite Ej in Hc. split; [|done].
    split; cbn; [by apply wf_set_current|apply sections_le_refl|lia|by rewrite app_nil_r].
  - destruct (ensure name st) as [st1 j] eqn:Ee. intros [= <- <-]. destruct (ensure_step st name st1 j Hw Ee) as ([H1 H2 H3 H4] & Hs & _ & Ha).
    split; [|done]. split; [by apply wf_set_current|done|done|done].
Qed.

(** Sections that grow. *)
Lemma grown_step st i s s' : emission_wf st -> sections_of st !! i = Some s -> section_le s s' -> section_wf s' ->
  step st (data_len s' - data_len s) [] (set_section i s' st).
Proof.
  intros Hw Hi Hle Hs. destruct (set_section_wf st i s s' Hw Hi Hle Hs) as (H1 & H2 & H3). split; [done|done|lia|cbn; by rewrite app_nil_r].
Qed.

Lemma section_at st i s : emission_wf st -> sections_of st !! i = Some s -> section_wf s.
Proof. intros Hw Hi. pose proof (wf_sections _ Hw) as H. by apply (Forall_lookup_1 _ _ _ _ H Hi). Qed.

Lemma with_data_wf s data : section_wf s -> data_len s <= Z.of_nat (length data) -> section_wf (with_data data s) /\ section_le s (with_data data s).
Proof.
  intros [Hk Hs] Hl. split; [|by split]. split; [done|]. by apply (spans_ok_mono _ 0 (data_len s)).
Qed.
Lemma with_align_wf s a : section_wf s -> section_wf (with_align a s) /\ section_le s (with_align a s).
Proof. intros [Hk Hs]. by split; split. Qed.
Lemma add_reloc_wf s r : section_wf s -> section_wf (add_reloc r s) /\ section_le s (add_reloc r s).
Proof. intros [Hk Hs]. by split; split. Qed.
Lemma pad_to_wf s n : section_wf s -> data_len s <= n -> section_wf (pad_to n s) /\ section_le s (pad_to n s) /\ data_len (pad_to n s) = n.
Proof.
  intros Hs Hn. pose proof (data_len_nonneg s). destruct (resize_prefix (o_data s) (Z.to_nat n)) as [_ Hl]; [unfold data_len in *; lia|].
  destruct (with_data_wf s (Elf.resize (o_data s) (Z.to_nat n)) Hs) as [H1 H2]; [lia|]. split; [done|]. split; [done|]. unfold data_len, pad_to. cbn. lia.
Qed.

Lemma align_up_bounds len a : 0 <= len -> 1 <= a -> len + a <= u64_max -> exists v, align_up len a = Some v /\ len <= v < len + a.
Proof.
  intros H0 H1 H2. destruct (align_to_spec len a H0 H1 H2) as (v & Ev & Hv & _). exists v. split; [|done]. unfold align_up. by rewrite (proj2 (Z.eqb_neq _ _)) by lia.
Qed.

(** ** The items of a module *)

(** [verify_impl] of a global, and its numbers in range. *)
Definition verify_global (g : GlobalOp) : bool :=
  match symbol_differences g with
  | None => false
  | Some _ =>
      if is_external g then bool_decide (g_bytes g = None) && bool_decide (g_size g = None) && bool_decide (g_align g = None)
      else xorb (bool_decide (is_Some (g_bytes g))) (bool_decide (is_Some (g_size g))) &&
           match g_align g with Some a => (0 <? a) && (Z.land a (a - 1) =? 0) | None => false end
  end.
Definition global_ranges (g : GlobalOp) : bool :=
  forallb (fun r => let '(relative, _, _, _) := r in (0 <=? relative) && (relative <? 2 ^ 62)) (g_relocations g) &&
  forallb (fun d => 0 <=? d_offset d) (default [] (g_differences g)) && (0 <=? default 0 (g_size g)).

Definition sum_of {A} (f : A -> Z) (l : list A) : Z := foldr (fun x n => f x + n) 0 l.

(** Bytes an item adds at most, padding included. *)
Fixpoint item_weight (item : Item) : Z :=
  match item with
  | GlobalItem g => if is_external g then 0 else default 0 (g_align g) + match g_bytes g with Some b => Z.of_nat (length b) | None => default 0 (g_size g) end
  | SkipItem => 0
  | SectionItem _ body => sum_of item_weight body
  | SymbolItem op _ blocks => symbol_align op + sum_of (fun b => sum_of item_weight b.2) blocks
  | LiteralItem op => match literal_bytes op with Some b => Z.of_nat (length b) | None => 0 end
  | DataRelocItem _ => 2 ^ 8
  | InstItem _ => 16
  end.

(** The symbols an item defines, in the order they are emitted. *)
Fixpoint item_names (item : Item) : list string :=
  match item with
  | GlobalItem g => if is_external g then [] else [g_name g]
  | SectionItem _ body => concat (item_names <$> body)
  | SymbolItem op _ blocks => concat ((fun b => concat (item_names <$> b.2)) <$> blocks) ++ [default "" (as_string_attr (attr op "name"))]
  | _ => []
  end.

Fixpoint item_ok (item : Item) : bool :=
  match item with
  | GlobalItem g => verify_global g && global_ranges g
  | SectionItem _ body => forallb item_ok body
  | SymbolItem _ _ blocks => forallb (fun b => forallb item_ok b.2) blocks
  | InstItem m => machine_ok m
  | _ => true
  end.

Lemma item_nested_ind (P : Item -> Prop) :
  (forall g, P (GlobalItem g)) -> P SkipItem -> (forall op body, Forall P body -> P (SectionItem op body)) ->
  (forall op assignment blocks, Forall (fun b => Forall P b.2) blocks -> P (SymbolItem op assignment blocks)) ->
  (forall op, P (LiteralItem op)) -> (forall op, P (DataRelocItem op)) -> (forall m, P (InstItem m)) -> forall item, P item.
Proof.
  intros H1 H2 H3 H4 H5 H6 H7. fix IH 1. intros [g| |op body|op a blocks|op|op|m]; [apply H1|apply H2| | |apply H5|apply H6|apply H7].
  - apply H3. induction body as [|i body IHb]; constructor; [apply IH|apply IHb].
  - apply H4. induction blocks as [|[b items] blocks IHb]; constructor; [|apply IHb].
    induction items as [|i items IHi]; constructor; [apply IH|apply IHi].
Qed.

Lemma sum_of_nonneg {A} (f : A -> Z) l : (forall x, x ∈ l -> 0 <= f x) -> 0 <= sum_of f l.
Proof.
  induction l as [|x l IH]; intros H; [done|]. cbn [sum_of foldr]. fold (sum_of f l). specialize (IH ltac:(intros; apply H; by right)).
  specialize (H x ltac:(by left)). lia.
Qed.

Lemma item_weight_nonneg item : item_ok item = true -> 0 <= item_weight item.
Proof.
  induction item as [g| |op body IH|op a blocks IH|op|op|m] using item_nested_ind; cbn [item_weight item_ok]; try done; intros Hok.
  - unfold verify_global, global_ranges in Hok. rewrite !andb_true_iff in Hok. destruct (is_external g); [done|].
    destruct Hok as [Hv [_ Hz%Z.leb_le]]. destruct (symbol_differences g); [|done]. rewrite !andb_true_iff in Hv. destruct Hv as [_ Ha].
    destruct (g_align g) as [a|]; [|done]. rewrite andb_true_iff, Z.ltb_lt in Ha. change (default 0 (Some a)) with a. destruct (g_bytes g); lia.
  - apply sum_of_nonneg. intros x Hx. rewrite list.Forall_forall in IH. rewrite forallb_forall in Hok. apply IH; [done|]. by apply Hok, list_elem_of_In.
  - assert (0 <= sum_of (fun b => sum_of item_weight b.2) blocks).
    { apply sum_of_nonneg. intros b Hb. apply sum_of_nonneg. intros x Hx. rewrite list.Forall_forall in IH. specialize (IH b Hb). rewrite list.Forall_forall in IH.
      rewrite forallb_forall in Hok. specialize (Hok b ltac:(by apply list_elem_of_In)). rewrite forallb_forall in Hok. apply IH; [done|]. by apply Hok, list_elem_of_In. }
    unfold symbol_align. lia.
  - destruct (literal_bytes op); lia.
Qed.

(** ** Emission steps *)

Lemma literal_step op st : emission_wf st -> runs (emit_literal op st) (step st (item_weight (LiteralItem op)) []).
Proof.
  intros Hw. unfold emit_literal. cbn [item_weight]. destruct (literal_bytes op) as [bytes|]; cbn [try_bind mbind option_bind]; [|done].
  destruct (section_or ".text" st) as [st1 i] eqn:E. destruct (section_or_step st _ _ _ Hw E) as (H1 & [s Hs] & _). unfold append_bytes, the_section.
  rewrite Hs. cbn [mbind option_bind]. destruct (with_data_wf s (o_data s ++ bytes) (section_at _ _ _ (step_wf _ _ _ _ H1) Hs)) as [H2 H3].
  { unfold data_len. rewrite length_app. lia. }
  cbn [runs]. eapply step_weaken; [eapply step_trans; [exact H1|eapply grown_step; [apply H1|exact Hs|exact H3|exact H2]]| |done]. unfold data_len. cbn. rewrite length_app. lia.
Qed.

Lemma data_reloc_step fmt op st : emission_wf st -> runs (emit_data_reloc fmt op st) (step st (2 ^ 8) []).
Proof.
  intros Hw. unfold emit_data_reloc. destruct (data_reloc fmt op) as [[[[symbol width] r_type] addend]|] eqn:Ed; cbn [try_bind mbind option_bind]; [|done].
  assert (Hwd : 0 <= width < 2 ^ 8).
  { unfold data_reloc in Ed. destruct (as_string_attr _); [|done]. cbn [mbind option_bind] in Ed. destruct (as_int_attr (attr op "width")) as [v|]; [|done].
    cbn [mbind option_bind] in Ed. destruct ((0 <=? v) && (v <? 2 ^ 8)) eqn:Ev; [|done]. rewrite andb_true_iff, Z.leb_le, Z.ltb_lt in Ev.
    destruct (absolute_reloc fmt v); [|done]. cbn [mbind option_bind] in Ed. destruct (as_int_attr _); [|done]. by simplify_eq/=. }
  destruct (section_or ".data" st) as [st1 i] eqn:E. destruct (section_or_step st _ _ _ Hw E) as (H1 & [s Hs] & _). unfold the_section.
  rewrite Hs. cbn [mbind option_bind runs]. destruct (pad_to_wf s (data_len s + width) (section_at _ _ _ (step_wf _ _ _ _ H1) Hs)) as (H2 & H3 & H4); [lia|].
  destruct (add_reloc_wf (pad_to (data_len s + width) s) (mkReloc (data_len s) symbol r_type addend) H2) as [H5 H6].
  eapply step_weaken; [eapply step_trans; [exact H1|apply grown_step; [apply H1|exact Hs|by eapply section_le_trans|exact H5]]| |done].
  change (data_len (add_reloc _ _)) with (data_len (pad_to (data_len s + width) s)). lia.
Qed.

Lemma inst_step m st : machine_ok m = true -> emission_wf st -> runs (encode_op m st) (step st 16 []).
Proof.
  intros Hm Hw. pose proof (code_of_spec (b_assignment st) m Hm) as Hc. unfold encode_op. destruct (code_of (b_assignment st) m) as [c|] eqn:Ec.
  2: { destruct Hc as [->|(info & -> & [E|(spec & E & Ee)])]; cbn [try_bind mbind option_bind]; [done|by rewrite E|]. rewrite E. cbn [try_bind mbind option_bind]. by rewrite Ee. }
  destruct Hc as (Hcw & spec & -> & Es & Ee). cbn [try_bind mbind option_bind]. rewrite Es. cbn [try_bind mbind option_bind]. rewrite Ee. cbn [try_bind mbind option_bind].
  destruct (section_or ".text" st) as [st1 i] eqn:E. destruct (section_or_step st _ _ _ Hw E) as (H1 & [s Hs] & _). unfold the_section.
  rewrite Hs. cbn [mbind option_bind runs]. pose proof (wf_len _ Hcw). fold (code_len c). rewrite (Z.mod_small (code_len c)) by lia.
  set (s' := add_span _ _). pose proof (section_at _ _ _ (step_wf _ _ _ _ H1) Hs) as [Hk Hsp].
  assert (Hl : data_len s' = data_len s + code_len c) by (unfold s', data_len; cbn; rewrite length_app; unfold code_len; lia).
  assert (H2 : section_wf s') by (split; [done|]; rewrite Hl; by apply spans_ok_snoc; [lia|]).
  assert (H3 : section_le s s') by (split; [done|lia|by eexists]). pose proof (grown_step _ i s s' (step_wf _ _ _ _ H1) Hs H3 H2) as H4.
  destruct H4 as [Hw4 Hle4 Hr4 Hn4]. eapply step_weaken; [eapply step_trans; [exact H1|split; [|exact Hle4|exact Hr4|exact Hn4]]|lia|done].
  apply wf_add_fixups; [done|]. apply list.Forall_forall. intros q (x & -> & Hx)%list_elem_of_fmap. exists s', (c_shape c).
  cbn [q_section q_offset q_len q_patch]. destruct Hcw as [Hsh Hpa Hi Hlen]. split; [apply list_lookup_insert_eq; by eapply lookup_lt_Some|].
  pose proof (data_len_nonneg s). split; [lia|]. split; [lia|]. split; [done|]. split; [done|]. split; [|unfold code_len; by rewrite (encoded_length _ _ _ Hsh Hi)].
  rewrite encode_shape_closed in Hi by done. destruct (forallb _ _); [|done]. injection Hi as Hi. rewrite <- Hi in Hx. cbn [i_fixups] in Hx.
  apply elem_fixups in Hx as (f & _ & _ & Hp). by apply find_patch_spec in Hp as [? _].
Qed.

Lemma relocs_run fmt offset relocs : 0 <= offset < 2 ^ 62 -> forallb (fun r => let '(relative, _, _, _) := r in (0 <=? relative) && (relative <? 2 ^ 62)) relocs = true ->
  forall s, section_wf s -> runs (global_relocs fmt offset relocs s) (fun s' => section_wf s' /\ section_le s s' /\ data_len s' = data_len s).
Proof.
  intros Ho. induction relocs as [|[[[relative symbol] addend] width] relocs IH]; intros Hr s Hs.
  { cbn. split; [done|]. split; [apply section_le_refl|done]. }
  cbn [forallb] in Hr. rewrite !andb_true_iff, Z.leb_le, Z.ltb_lt in Hr. destruct Hr as [[H0 H1] Hr]. cbn [global_relocs].
  destruct (if width <? 2 ^ 8 then absolute_reloc fmt width else None) as [r_type|]; cbn [try_bind mbind option_bind]; [|done].
  unfold checked_add, u64_max. rewrite (proj2 (Z.leb_le _ _)) by lia. cbn [mbind option_bind].
  destruct (add_reloc_wf s (mkReloc (offset + relative) symbol r_type addend) Hs) as [H2 H3].
  eapply runs_impl; [by apply IH|]. intros s' (H4 & H5 & H6). split; [done|]. split; [by eapply section_le_trans|]. by rewrite H6.
Qed.

Lemma differences_moved offset size ds : 0 <= offset -> offset + size < 2 ^ 62 ->
  forallb (fun d => existsb (Z.eqb (d_width d)) [1; 2; 4; 8] && (d_offset d + d_width d <=? u64_max) && (d_offset d + d_width d <=? size)) ds = true ->
  forallb (fun d => 0 <=? d_offset d) ds = true ->
  exists ds', move_differences offset ds = Some ds' /\
    Forall (fun d => 0 <= d_offset d /\ d_width d ∈ [1; 2; 4; 8] /\ d_offset d + d_width d <= offset + size) ds'.
Proof.
  intros Ho Hs. induction ds as [|d ds IH]; intros Hd Hn; [by exists []|]. cbn [forallb move_differences] in *.
  rewrite !andb_true_iff in Hd. rewrite andb_true_iff in Hn. destruct Hd as [[[Hw _] Hsz%Z.leb_le] Hd], Hn as [H0%Z.leb_le Hn].
  apply existsb_exists in Hw as (w & Hin%list_elem_of_In & Ew%Z.eqb_eq). rewrite <- Ew in Hin. assert (1 <= d_width d) by set_solver by lia.
  unfold checked_add, u64_max. rewrite (proj2 (Z.leb_le _ _)) by lia. cbn [mbind option_bind]. destruct (IH Hd Hn) as (ds' & -> & Hds).
  eexists. split; [done|]. constructor; [|done]. cbn. split; [lia|]. split; [done|]. lia.
Qed.

(** The body of a global, after its padding. *)
Lemma global_body g s offset size : section_wf s -> data_len s = offset -> 0 <= size -> offset + size < 2 ^ 62 ->
  size = match g_bytes g with Some b => Z.of_nat (length b) | None => default 0 (g_size g) end ->
  xorb (bool_decide (is_Some (g_bytes g))) (bool_decide (is_Some (g_size g))) = true ->
  exists s2, (match g_bytes g with
      | Some bytes => Some (with_data (o_data s ++ bytes) s, Z.of_nat (length bytes))
      | None => size ← g_size g; end_ ← checked_add offset size; Some (pad_to end_ s, size) end) = Some (s2, size) /\
    section_wf s2 /\ section_le s s2 /\ data_len s2 = offset + size.
Proof.
  intros Hs Hl H0 Hsz -> Hx. destruct (g_bytes g) as [bytes|].
  - eexists. split; [done|]. assert (El : Z.of_nat (length (o_data s ++ bytes)) = offset + Z.of_nat (length bytes)) by (rewrite length_app; unfold data_len in Hl; lia).
    destruct (with_data_wf s (o_data s ++ bytes) Hs) as [H5 H6]; [lia|]. split; [done|]. split; [done|]. exact El.
  - destruct (g_size g) as [z|]; [|by rewrite bool_decide_eq_false_2, bool_decide_eq_false_2 in Hx by by intros [? ?]]. change (default 0 (Some z)) with z in *. cbn [mbind option_bind].
    unfold checked_add, u64_max. rewrite (proj2 (Z.leb_le _ _)) by lia. cbn [mbind option_bind]. eexists. split; [done|].
    destruct (pad_to_wf s (offset + z) Hs) as (H5 & H6 & H7); [lia|]. done.
Qed.

(** The differences of a global, from the section's start. *)
Lemma global_differences g ds offset size : symbol_differences g = Some ds -> 0 <= offset -> offset + size < 2 ^ 62 ->
  size = match g_bytes g with Some b => Z.of_nat (length b) | None => default 0 (g_size g) end ->
  xorb (bool_decide (is_Some (g_bytes g))) (bool_decide (is_Some (g_size g))) = true ->
  forallb (fun d => 0 <=? d_offset d) (default [] (g_differences g)) = true ->
  exists ds', move_differences offset ds = Some ds' /\
    Forall (fun d => 0 <= d_offset d /\ d_width d ∈ [1; 2; 4; 8] /\ d_offset d + d_width d <= offset + size) ds'.
Proof.
  intros Eds H0 Hsz Esize Hx Hd. unfold symbol_differences in Eds. destruct (g_differences g) as [entries|]; [|injection Eds as <-; by exists []].
  assert (Esz : (match g_bytes g with Some bytes => Some (Z.of_nat (length bytes)) | None => g_size g end) = Some size).
  { rewrite Esize. destruct (g_bytes g); [done|]. destruct (g_size g); [done|]. by destruct Hx. }
  rewrite Esz in Eds. cbn [mbind option_bind] in Eds. destruct (forallb _ entries) eqn:Ef; [|done]. injection Eds as <-.
  apply (differences_moved offset size); [lia|lia|exact Ef|exact Hd].
Qed.

Lemma global_step fmt g st : item_ok (GlobalItem g) = true -> emission_wf st -> room (sections_of st) + item_weight (GlobalItem g) < 2 ^ 62 ->
  runs (emit_global fmt g st) (step st (item_weight (GlobalItem g)) (item_names (GlobalItem g))).
Proof.
  cbn [item_ok item_weight item_names]. unfold verify_global, global_ranges, emit_global. rewrite !andb_true_iff. intros [Hv [[Hr Hd0] Hz%Z.leb_le]] Hw Hroom.
  destruct (symbol_differences g) as [ds|] eqn:Eds; [|done]. destruct (is_external g); [cbn [runs]; by apply step_refl|].
  rewrite !andb_true_iff in Hv. destruct Hv as [Hx Ha]. destruct (g_align g) as [a|]; [|done]. rewrite andb_true_iff, Z.ltb_lt in Ha. destruct Ha as [Ha _].
  change (default 0 (Some a)) with a in *. cbn [mbind option_bind]. set (name := default _ (g_section g)).
  destruct (ensure name st) as [st1 i] eqn:Ee. destruct (ensure_step st name st1 i Hw Ee) as (H1 & [s Hs] & _). pose proof (step_room _ _ _ _ H1) as Hr1.
  unfold the_section at 1. rewrite Hs. cbn [mbind option_bind]. pose proof (room_in _ i s Hs) as Hin. pose proof (data_len_nonneg s) as Hdl.
  set (size := match g_bytes g with Some b => Z.of_nat (length b) | None => default 0 (g_size g) end) in *. assert (Hsize : 0 <= size) by (unfold size; destruct (g_bytes g); lia).
  destruct (align_up_bounds (data_len s) a) as (offset & -> & Hoff); [lia|lia|unfold u64_max; lia|]. cbn [mbind option_bind].
  destruct (pad_to_wf s offset (section_at _ _ _ (step_wf _ _ _ _ H1) Hs)) as (H2 & H3 & H4); [lia|].
  destruct (global_body g (pad_to offset s) offset size H2 H4 Hsize ltac:(lia) eq_refl Hx) as (s2 & -> & H5 & H6 & H7). cbn [mbind option_bind]. destruct (with_align_wf s2 (Z.max (o_align s2) a) H5) as [H8 H9].
  eapply runs_bind; [by apply relocs_run; [lia|exact Hr|exact H8]|]. intros s4 (H10 & H11 & H12).
  assert (Hle : section_le s s4) by (eapply section_le_trans; [exact H3|]; eapply section_le_trans; [exact H6|]; by eapply section_le_trans).
  assert (Hl4 : data_len s4 = offset + size) by (rewrite H12; exact H7).
  pose proof (grown_step _ i s s4 (step_wf _ _ _ _ H1) Hs Hle H10) as H13. cbn [try_bind mbind option_bind].
  destruct (global_differences g ds offset size Eds ltac:(lia) ltac:(lia) eq_refl Hx Hd0) as (ds' & -> & Hds). cbn [mbind option_bind runs].
  assert (Hat : sections_of (set_section i s4 st1) !! i = Some s4) by (apply list_lookup_insert_eq; by eapply lookup_lt_Some).
  destruct H13 as [Hw13 Hle13 Hr13 Hn13]. eapply step_weaken; [eapply step_trans; [exact H1|]| |]; [|instantiate (1 := data_len s4 - data_len s); lia|by rewrite app_nil_l].
  split; [|exact Hle13|exact Hr13|].
  - apply wf_push_symbol; [apply wf_add_differences; [exact Hw13|]|].
    + apply list.Forall_fmap. eapply Forall_impl; [exact Hds|]. intros d (Hd1 & Hd2 & Hd3). exists s4. cbn. split; [exact Hat|]. split; [done|]. split; [done|]. lia.
    + exists i, s4. cbn. split; [done|]. split; [exact Hat|]. lia.
  - cbn. by rewrite fmap_app.
Qed.

(** ** Walking *)

Lemma fallthrough_inst block next k : fallthrough_branch block next = Some k -> exists m, block !! k = Some (InstItem m).
Proof.
  unfold fallthrough_branch. assert (Hf : forall l, fallthrough_from l next = Some k -> exists m, (k, InstItem m) ∈ l).
  { induction l as [|[i item] l IH]; [done|]. cbn [fallthrough_from]. assert (Hl : fallthrough_from l next = Some k -> exists m, (k, InstItem m) ∈ (i, item) :: l).
    { intros [m Hm]%IH. exists m. by right. }
    destruct item as [g| | | | | |m]; try done; [by destruct (is_external g); [apply Hl|]|].
    destruct (m_info m) as [info|]; [|done]. cbn [mbind option_bind]. destruct (_ && _); [|done]. intros [= ->]. exists m. by left. }
  intros [m Hm%(proj1 (elem_of_reverse _ _))]%Hf. exists m. apply list_elem_of_lookup in Hm as [j Hj]. rewrite list_lookup_imap in Hj.
  destruct (block !! j) as [item|] eqn:Ej; [|done]. cbn in Hj. by injection Hj as -> ->.
Qed.

(** What writing an item does. *)
Definition item_step (fmt : ObjectFormatInfo) (item : Item) : Prop :=
  item_ok item = true -> forall st, emission_wf st -> room (sections_of st) + item_weight item < 2 ^ 62 ->
  runs (write_op fmt st item) (step st (item_weight item) (item_names item)).

Lemma sum_of_cons {A} (f : A -> Z) x l : sum_of f (x :: l) = f x + sum_of f l.
Proof. done. Qed.

Lemma items_nonneg items : forallb item_ok items = true -> 0 <= sum_of item_weight items.
Proof. intros H. apply sum_of_nonneg. intros x Hx. rewrite forallb_forall in H. by apply item_weight_nonneg, H, list_elem_of_In. Qed.

Lemma walk_step fmt omitted items : Forall (item_step fmt) items -> forallb item_ok items = true ->
  forall i st, (forall k item, omitted = Some (i + k)%nat -> items !! k = Some item -> item_names item = []) ->
  emission_wf st -> room (sections_of st) + sum_of item_weight items < 2 ^ 62 ->
  runs (walk_items (write_op fmt) omitted i items st) (step st (sum_of item_weight items) (concat (item_names <$> items))).
Proof.
  induction items as [|item items IH]; intros Hs Hok i st Hom Hw Hr; [by apply step_refl|]. cbn [forallb] in Hok. apply andb_true_iff in Hok as [Hi Hok].
  inversion Hs as [|? ? Hstep Hs']; subst. rewrite sum_of_cons in *. pose proof (item_weight_nonneg _ Hi) as Hn1. pose proof (items_nonneg _ Hok) as Hn2.
  assert (Hom' : forall k x, omitted = Some (S i + k)%nat -> items !! k = Some x -> item_names x = []).
  { intros k x Ek Hx. apply (Hom (S k)); [by rewrite Ek, Nat.add_succ_r|done]. }
  cbn [walk_items fmap list_fmap concat]. destruct (bool_decide_reflect (omitted = Some i)) as [Eo|Eo].
  - rewrite (Hom 0%nat item) by (by rewrite ?Nat.add_0_r). eapply runs_impl; [apply (IH Hs' Hok (S i) st Hom' Hw); lia|].
    intros st' Hst. eapply step_weaken; [exact Hst|lia|done].
  - eapply runs_bind; [apply Hstep; [done|done|lia]|]. intros st1 H1. pose proof (step_room _ _ _ _ H1) as Hr1.
    eapply runs_impl; [apply (IH Hs' Hok (S i) st1 Hom'); [apply H1|lia]|]. intros st' Hst. by eapply step_trans.
Qed.

Lemma blocks_step fmt section blocks : Forall (fun b => Forall (item_step fmt) b.2) blocks -> forallb (fun b => forallb item_ok b.2) blocks = true ->
  forall st, emission_wf st -> is_Some (sections_of st !! section) -> room (sections_of st) + sum_of (fun b => sum_of item_weight b.2) blocks < 2 ^ 62 ->
  runs (write_blocks_with (write_op fmt) section blocks st)
    (step st (sum_of (fun b => sum_of item_weight b.2) blocks) (concat ((fun b => concat (item_names <$> b.2)) <$> blocks))).
Proof.
  induction blocks as [|[b items] blocks IH]; intros Hs Hok st Hw Hsec Hr; [by apply step_refl|]. cbn [forallb snd] in Hok. apply andb_true_iff in Hok as [Hi Hok].
  inversion Hs as [|? ? Hstep Hs']; subst. cbn [snd] in Hstep. rewrite sum_of_cons in *. cbn [snd] in *. pose proof (items_nonneg _ Hi) as Hn1.
  assert (Hn2 : 0 <= sum_of (fun b => sum_of item_weight b.2) blocks).
  { apply sum_of_nonneg. intros x Hx. apply items_nonneg. rewrite forallb_forall in Hok. by apply Hok, list_elem_of_In. }
  cbn [write_blocks_with fmap list_fmap concat]. destruct Hsec as [s Hsec]. unfold the_section. rewrite Hsec. cbn [mbind option_bind].
  pose proof (room_in _ _ _ Hsec) as Hin. pose proof (data_len_nonneg s) as Hdl.
  eapply runs_bind; [apply (walk_step fmt (omitted_of items blocks) items Hstep Hi 0 (set_start b (data_len s) st))|].
  - intros k item Ek Hk. unfold omitted_of in Ek. destruct blocks as [|[next ?] ?]; [done|]. apply fallthrough_inst in Ek as [m Em]. cbn in Em. by simplify_eq/=.
  - by apply wf_set_start.
  - cbn. lia.
  - intros st1 H1. pose proof (step_room _ _ _ _ H1) as Hr1. destruct (step_le _ _ _ _ H1 section s Hsec) as (s1 & Hs1 & _).
    eapply runs_impl; [apply (IH Hs' Hok st1); [apply H1|by eexists|cbn in Hr1; lia]|]. intros st' Hst.
    destruct (step_trans _ _ _ _ _ _ _ H1 Hst) as [H2 H3 H4 H5]. split; [exact H2|exact H3|exact H4|exact H5].
Qed.

Lemma open_step op assignment st : emission_wf st -> room (sections_of st) + symbol_align op < 2 ^ 62 ->
  runs (open_symbol op assignment st) (fun r => let '(st', section, start, name) := r in as_string_attr (attr op "name") = Some name /\
    step st (symbol_align op) [] st' /\ exists s, sections_of st' !! section = Some s /\ data_len s = start).
Proof.
  intros Hw Hr. unfold open_symbol. destruct (as_string_attr _) as [name|]; cbn [try_bind mbind option_bind]; [|done].
  destruct (section_or ".text" (set_assignment assignment st)) as [st1 i] eqn:E. destruct (section_or_step _ _ _ _ (wf_set_assignment _ assignment Hw) E) as (H1 & [s Hs] & _).
  unfold the_section. rewrite Hs. cbn [mbind option_bind]. pose proof (step_room _ _ _ _ H1) as Hr1. cbn in Hr1. pose proof (room_in _ _ _ Hs) as Hin. pose proof (data_len_nonneg s) as Hdl.
  assert (Hal : 1 <= symbol_align op) by (unfold symbol_align; lia).
  destruct (align_up_bounds (data_len s) (symbol_align op)) as (v & -> & Hv); [lia|done|unfold u64_max; lia|]. cbn [mbind option_bind runs]. split; [done|].
  destruct (pad_to_wf s v (section_at _ _ _ (step_wf _ _ _ _ H1) Hs)) as (H2 & H3 & H4); [lia|].
  destruct (with_align_wf (pad_to v s) (Z.max (o_align (pad_to v s)) (symbol_align op)) H2) as [H5 H6].
  set (s' := with_align _ _) in *. assert (El : data_len s' = v) by exact H4.
  pose proof (grown_step st1 i s s' (step_wf _ _ _ _ H1) Hs ltac:(by eapply section_le_trans) H5) as H7.
  split; [|exists s'; split; [apply list_lookup_insert_eq; by eapply lookup_lt_Some|done]].
  destruct (step_trans _ _ _ _ _ _ _ H1 H7) as [H8 H9 H10 H11]. change (sections_of (set_assignment assignment st)) with (sections_of st) in H10. split; [exact H8|exact H9|lia|exact H11].
Qed.

Lemma item_steps fmt item : item_step fmt item.
Proof.
  induction item as [g| |op body IH|op a blocks IH|op|op|m] using item_nested_ind; intros Hok st Hw Hr.
  - by apply global_step.
  - by apply step_refl.
  - cbn [write_op item_ok item_weight item_names] in *. destruct (ensure _ st) as [st1 i] eqn:E. destruct (ensure_step _ _ _ _ Hw E) as (H1 & Hs & Hc & _).
    pose proof (step_room _ _ _ _ H1) as Hr1. eapply runs_bind; [apply (walk_step fmt None body IH Hok 0 (set_current (Some i) st1)); [done|by apply wf_set_current; [apply H1|]|cbn; lia]|].
    intros st2 H2. cbn [runs].
    assert (H1' : step st 0 [] (set_current (Some i) st1)) by (destruct H1; split; [by apply wf_set_current|done|done|done]).
    destruct (step_trans _ _ _ _ _ _ _ H1' H2) as [H3 H4 H5 H6]. split; [|exact H4|change (room (sections_of st2) <= room (sections_of st) + sum_of item_weight body); lia|exact H6].
    apply wf_set_current; [done|]. pose proof (wf_current _ Hw) as Hcur. destruct (current_section st) as [j|]; [|done]. destruct Hcur as [s Hj].
    destruct (H4 j s Hj) as (s' & Hj' & _). by eexists.
  - cbn [write_op item_ok item_weight item_names] in *. assert (Hn2 : 0 <= sum_of (fun b => sum_of item_weight b.2) blocks).
    { apply sum_of_nonneg. intros x Hx. apply items_nonneg. rewrite forallb_forall in Hok. by apply Hok, list_elem_of_In. }
    eapply runs_bind; [apply open_step; [done|lia]|]. intros [[[st1 section] start] name] (En & H1 & s & Hs & El). rewrite En. cbn [default from_option].
    pose proof (step_room _ _ _ _ H1) as Hr1. eapply runs_bind; [apply (blocks_step fmt section blocks IH Hok st1); [apply H1|by eexists|lia]|]. intros st2 H2.
    destruct (step_le _ _ _ _ H2 section s Hs) as (s2 & Hs2 & Hle). unfold close_symbol, the_section. rewrite Hs2. cbn [mbind option_bind].
    pose proof (le_len _ _ Hle) as Hll. pose proof (data_len_nonneg s) as Hdl. unfold checked_sub. rewrite (proj2 (Z.leb_le _ _)) by lia. cbn [mbind option_bind runs].
    destruct (step_trans _ _ _ _ _ _ _ H1 H2) as [H3 H4 H5 H6]. split; [|exact H4|exact H5|cbn; rewrite fmap_app, H6, <- app_assoc; done].
    apply wf_push_symbol; [done|]. exists section, s2. cbn. split; [done|]. split; [done|]. lia.
  - by apply literal_step.
  - by apply data_reloc_step.
  - by apply inst_step.
Qed.

(** ** Resolving a module *)

Lemma scatter_total bits v runs : bits <= 128 -> forallb (run_ok bits) runs = true -> forall word, is_Some (scatter word v runs).
Proof.
  intros Hb. induction runs as [|r runs IH]; intros H word; [by eexists|]. cbn [forallb] in H. apply andb_true_iff in H as [Hr H]. apply run_ok_spec in Hr.
  cbn [scatter]. unfold shr, shl. rewrite !(proj2 (Z.ltb_lt _ _)) by lia. by apply IH.
Qed.

Lemma patch_total s p bytes v : shape_ok s = true -> patches_ok s = true -> p ∈ patch s -> length bytes = width_bytes s ->
  exists r, patch_with bytes v p = Some r /\ forall b, r = Some b -> length b = length bytes.
Proof.
  intros Hs Hp Hin Hl. unfold patches_ok in Hp. rewrite forallb_forall in Hp. specialize (Hp p ltac:(by apply list_elem_of_In)).
  apply existsb_exists in Hp as (f & Hf%list_elem_of_In & Hp). unfold patch_ok in Hp. rewrite !andb_true_iff, !bool_decide_eq_true in Hp. destruct Hp as ((((_ & Hr) & _) & _) & _).
  pose proof (shape_ok_spec _ Hs) as (Hw & _ & Hok & _). pose proof (shape_bits_le s Hw) as Hb. destruct (field_ok_spec _ _ _ (Hok f Hf)) as (Hruns & _ & _).
  unfold patch_with. destruct (negb _); [by exists None|]. destruct (_ && _); [by exists None|].
  rewrite Hl, Nat.min_l by lia. change (8 * Z.of_nat (width_bytes s)) with (shape_bits s). rewrite Hr, runs_past_ok by (done || lia). cbn [mbind option_bind].
  destruct (scatter_total (shape_bits s) (as_u128 v) (e_runs f) ltac:(lia) Hruns (le_value (take 16 bytes))) as [word ->]. cbn [mbind option_bind].
  eexists. split; [done|]. intros b [= <-]. rewrite length_app, length_le_bytes, length_drop. lia.
Qed.

Lemma replaced_step st i s data : emission_wf st -> sections_of st !! i = Some s -> length data = length (o_data s) -> step st 0 [] (set_section i (with_data data s) st).
Proof.
  intros Hw Hi Hl. destruct (with_data_wf s data (section_at _ _ _ Hw Hi)) as [H1 H2]; [unfold data_len; lia|].
  eapply step_weaken; [by apply (grown_step st i s)| |done]. unfold data_len. cbn. lia.
Qed.

Lemma resolve_step fmt q st : format_ok fmt -> emission_wf st -> room (sections_of st) < 2 ^ 62 -> fixup_wf (sections_of st) q -> runs (resolve_fixup fmt q st) (step st 0 []).
Proof.
  intros Hf Hw Hr (s & shape & Hi & H0 & H1 & Hsh & Hpa & Hin & Hq). pose proof (room_in _ _ _ Hi) as Hroom. unfold resolve_fixup.
  destruct (q_target q) as [b|symbol].
  - destruct (block_starts st !! b) as [target|] eqn:Eb; cbn [try_bind mbind option_bind]; [|done]. pose proof (wf_starts _ Hw b target Eb) as Ht.
    set (base := if pc_rel_from_end fmt (n_name (q_info q)) then q_offset q + q_len q else q_offset q).
    assert (Ebase : (if pc_rel_from_end fmt (n_name (q_info q)) then checked_add (q_offset q) (q_len q) else Some (q_offset q)) = Some base).
    { unfold base, checked_add, u64_max. destruct (pc_rel_from_end _ _); [|done]. by rewrite (proj2 (Z.leb_le _ _)) by lia. }
    assert (Hbase : 0 <= base < 2 ^ 62) by (unfold base; destruct (pc_rel_from_end _ _); lia).
    rewrite Ebase. cbn [mbind option_bind]. unfold as_i64. rewrite !(proj2 (Z.ltb_lt _ _)) by lia. unfold sub_i64.
    rewrite (proj2 (Z.leb_le _ _)), (proj2 (Z.ltb_lt _ _)) by lia. cbn [andb mbind option_bind].
    destruct (scaled_delta (target - base) (pc_rel_scale fmt (n_name (q_info q))) (scale_ok _ Hf _)) as (-> & _ & _). cbn [mbind option_bind].
    destruct (negb _); [done|]. unfold patch_section, the_section. rewrite Hi. cbn [mbind option_bind].
    unfold data_len in H1. destruct (slice_spec (o_data s) (Z.to_nat (q_offset q)) (Z.to_nat (q_len q))) as (bytes & Es & Hl & _); [lia|].
    replace (Z.to_nat (q_offset q + q_len q)) with (Z.to_nat (q_offset q) + Z.to_nat (q_len q))%nat by lia. rewrite Es. cbn [mbind option_bind].
    destruct (patch_total shape (q_patch q) bytes (Z.shiftr (target - base) (pc_rel_scale fmt (n_name (q_info q)))) Hsh Hpa Hin ltac:(lia)) as (r & -> & Hb).
    cbn [mbind option_bind]. destruct r as [bytes'|]; cbn [try_bind mbind option_bind]; [|done]. specialize (Hb _ eq_refl).
    destruct (copy_at_spec (o_data s) (Z.to_nat (q_offset q)) bytes') as (data & -> & Hld & _); [lia|]. cbn [mbind option_bind runs]. by apply replaced_step.
  - destruct (reloc_for fmt _) as [kind|] eqn:Ek; cbn [try_bind mbind option_bind]; [|done]. unfold the_section. rewrite Hi. cbn [mbind option_bind].
    pose proof (field_offset_ok _ Hf _ _ Ek). unfold checked_add, u64_max. rewrite (proj2 (Z.leb_le _ _)) by lia. cbn [mbind option_bind runs].
    destruct (add_reloc_wf s (mkReloc (q_offset q + k_field_offset kind) symbol (k_type kind) (k_addend kind)) (section_at _ _ _ Hw Hi)) as [H2 H3].
    eapply step_weaken; [by apply (grown_step st (q_section q) s)| |done]. unfold data_len. cbn. lia.
Qed.

(** A loop whose body keeps the emission well formed. *)
Lemma loop_step {A} (body : A -> ObjectEmission -> option (result ObjectEmission BinaryEmitError)) (loop : list A -> ObjectEmission -> option (result ObjectEmission BinaryEmitError))
    (P : list ObjSection -> A -> Prop) :
  (forall st, loop [] st = Some (Ok st)) -> (forall x l st, loop (x :: l) st = try_bind (body x st) (loop l)) ->
  (forall l l' x, sections_le l l' -> P l x -> P l' x) ->
  (forall x st, emission_wf st -> room (sections_of st) < 2 ^ 62 -> P (sections_of st) x -> runs (body x st) (step st 0 [])) ->
  forall l st, emission_wf st -> room (sections_of st) < 2 ^ 62 -> Forall (P (sections_of st)) l -> runs (loop l st) (step st 0 []).
Proof.
  intros Hnil Hcons Hmono Hbody. induction l as [|x l IH]; intros st Hw Hr Hl; [rewrite Hnil; by apply step_refl|].
  inversion Hl as [|? ? Hx Hl']; subst. rewrite Hcons. eapply runs_bind; [by apply Hbody|]. intros st1 H1. pose proof (step_room _ _ _ _ H1) as Hr1.
  eapply runs_impl; [apply IH; [apply H1|lia|]|].
  - eapply Forall_impl; [exact Hl'|]. intros y. apply Hmono, H1.
  - intros st2 H2. exact (step_trans _ _ _ _ _ _ _ H1 H2).
Qed.

Lemma difference_step symbols d st : emission_wf st -> difference_wf (sections_of st) d -> runs (resolve_difference symbols d.1 d.2 st) (step st 0 []).
Proof.
  intros Hw (s & Hi & H0 & Hwd & H1). unfold resolve_difference. destruct (symbols !! d_symbol d.2) as [[[i|] v]|]; [|done..].
  destruct (symbols !! d_base d.2) as [[[j|] v']|]; [|done..]. destruct (decide (i = j)); [|done]. unfold the_section. rewrite Hi. cbn [mbind option_bind].
  assert (1 <= d_width d.2 <= 8) by set_solver by lia. unfold data_len in H1. rewrite !(proj2 (Z.ltb_ge _ _)) by lia. cbn [orb].
  destruct (copy_at_spec (o_data s) (Z.to_nat (d_offset d.2)) (le_bytes (Z.to_nat (d_width d.2)) (wrap64 (v - v')))) as (data & -> & Hl & _); [rewrite length_le_bytes; lia|].
  cbn [mbind option_bind runs]. by apply replaced_step.
Qed.

(** What holds of an emitted object. *)
Record object_wf (obj : ObjectFile) : Prop := mkObjectWf {
  obj_names : NoDup (o_name <$> o_sections obj);
  obj_sections : Forall section_wf (o_sections obj);
  obj_symbols : Forall (symbol_wf (o_sections obj)) (o_symbols obj) }.

(** C13: writing a module of well-formed items never panics. It fails with an
    error, or the object has one section per name, of the kind the name says,
    with the spans of its instructions inside it, in order and apart; it has
    the symbols the items define, in the order they are emitted; and every
    symbol lies inside its section. *)
Theorem write_module_wf (fmt : ObjectFormatInfo) (items : list Item) :
  format_ok fmt -> forallb item_ok items = true -> sum_of item_weight items < 2 ^ 62 ->
  exists r, write_module fmt items = Some r /\
  forall obj, r = Ok obj -> object_wf obj /\ y_name <$> o_symbols obj = concat (item_names <$> items).
Proof.
  intros Hf Hok Hr.
  assert (Hw0 : emission_wf emission_default).
  { by split; cbn; try by constructor. }
  assert (H : runs (write_module fmt items) (fun obj => object_wf obj /\ y_name <$> o_symbols obj = concat (item_names <$> items))).
  { eapply runs_bind; [apply (walk_step fmt None items); [apply list.Forall_forall; intros ? _; apply item_steps|done|done|done|exact Hr]|].
    intros st H1. pose proof (step_room _ _ _ _ H1) as Hr1. cbn in Hr1. pose proof (step_wf _ _ _ _ H1) as Hw1.
    eapply runs_bind; [apply (loop_step (resolve_fixup fmt) (resolve_fixups fmt) fixup_wf)|].
    1-2: done. 1: by intros; eapply fixup_wf_mono. 1: intros; by apply resolve_step. 1: exact Hw1. 1: lia. 1: apply Hw1.
    intros st2 H2. pose proof (step_room _ _ _ _ H2) as Hr2. pose proof (step_wf _ _ _ _ H2) as Hw2.
    eapply runs_bind; [apply (loop_step (fun d => resolve_difference (symbol_values (o_symbols (b_obj st2))) d.1 d.2) (resolve_differences (symbol_values (o_symbols (b_obj st2)))) difference_wf)|].
    1: done. 1: by intros [? ?]. 1: by intros; eapply difference_wf_mono. 1: intros; by apply difference_step. 1: exact Hw2. 1: lia. 1: apply Hw2.
    intros st3 H3. cbn [runs]. split; [split; apply H3|]. rewrite (step_names _ _ _ _ H3), (step_names _ _ _ _ H2), (step_names _ _ _ _ H1). cbn. by rewrite !app_nil_r. }
  unfold runs in H. destruct (write_module fmt items) as [[obj|e]|]; [exists (Ok obj)|exists (Err e)|done]; split; [done| |done|done].
  intros ? [= <-]. exact H.
Qed.

(** ** A module *)

(** The shape of an AArch64 branch, and of a return. *)
Definition branch_spec : EncodeSpec := mkEncodeSpec
  [mkEncodeShape GTrue 0x14000000 4 [mkEncodeField "imm" (Some (- 2 ^ 25, 2 ^ 25, 2 ^ 26)) 0 false [mkRun 0 0 26]] [mkPatchField "imm" (Some (- 2 ^ 25, 2 ^ 25)) 0 [mkRun 0 0 26]]]
  (4%nat, 4%nat).
Definition ret_spec : EncodeSpec := mkEncodeSpec [mkEncodeShape GTrue 0xD65F03C0 4 [] []] (4%nat, 4%nat).
Definition inst (name : string) (flow : ControlFlow) (spec : EncodeSpec) (attrs : list (string * AttributeValue)) : Item :=
  InstItem (mkMachineOp (mkOp ("arm64", name) [] attrs [] []) (Some (mkInfo name flow (mkEffects false false) (Some spec))) false).
Definition jump (flow : ControlFlow) (b : nat) : Item := inst "b" flow branch_spec [("imm", Block b)].
Definition call (s : string) : Item := inst "b" Conditional branch_spec [("imm", Str s)].
Definition arm_format : ObjectFormatInfo :=
  mkFormat EM_AARCH64 Elf64 0 (fun name => if String.eqb name "b" then Some (mkRelocKind 282 0 0) else None) (fun width => if width =? 8 then Some 257 else None) (fun _ => 2) (fun _ => false).

(** Three blocks: the jump from the first to the second falls through. *)
Definition demo_blocks : list (nat * list Item) :=
  [(0%nat, [jump Conditional 2; jump Unconditional 1]); (1%nat, [call "g"; jump Conditional 0]); (2%nat, [inst "ret" Unconditional ret_spec []])].
Definition asm_op (name : string) (attrs : list (string * AttributeValue)) : OpHandle := mkOp ("asm", name) [] attrs [] [].
Definition demo_symbol : OpHandle := asm_op "symbol" [("name", Str "f"); ("align", Int 16)].
Definition demo_module : list Item :=
  [SectionItem (asm_op "section" [("name", Str ".text")]) [SymbolItem demo_symbol ∅ demo_blocks];
   GlobalItem (mkGlobal "table" false (Some 8) None (Some [1; 2; 3; 4; 5; 6; 7; 8; 0; 0; 0; 0]) None true [(0, "f", 4, 8)] (Some [mkDifference 8 "f" "f" 4]))].

Lemma arm_format_ok : format_ok arm_format.
Proof. split; [done|]. intros name kind. cbn. destruct (String.eqb name "b"); [|done]. by intros [= <-]. Qed.

Lemma layout_assembles_witness :
  valid_block_layout arm_format ∅ demo_blocks = Some (bool_decide (is_Some (assemble arm_format ∅ demo_blocks))) /\
  match assemble arm_format ∅ demo_blocks with
  | Some (code, relocs) => exists coded, coded_blocks ∅ demo_blocks = Some coded /\
      write_module arm_format [SymbolItem demo_symbol ∅ demo_blocks] =
        Some (Ok (mkObject [mkSection ".text" Text (Z.max 4 (symbol_align demo_symbol)) code relocs (spans_of 0 (concat (snd <$> coded)))]
                    [code_symbol demo_symbol "f" (Z.of_nat (length code))]))
  | None => exists e, write_module arm_format [SymbolItem demo_symbol ∅ demo_blocks] = Some (Err e)
  end.
Proof. apply (layout_assembles arm_format ∅ demo_symbol "f" demo_blocks); [apply arm_format_ok|reflexivity|by vm_compute|reflexivity]. Defined.

Example demo_assembles : assemble arm_format ∅ demo_blocks =
  Some ([3; 0; 0; 0x14; 0; 0; 0; 0x14; 0xFE; 0xFF; 0xFF; 0x17; 0xC0; 3; 0x5F; 0xD6], [mkReloc 4 "g" 282 0]).
Proof. vm_compute. reflexivity. Qed.

Lemma write_module_wf_witness : exists r, write_module arm_format demo_module = Some r /\
  forall obj, r = Ok obj -> object_wf obj /\ y_name <$> o_symbols obj = concat (item_names <$> demo_module).
Proof. apply (write_module_wf arm_format demo_module); [apply arm_format_ok|reflexivity|by vm_compute]. Defined.

(** A jump to the symbol it is in becomes a relocation, though the symbol is
    defined in the same section of the object. *)
Example defined_symbol_relocated : exists text symbols,
  write_module arm_format [SymbolItem demo_symbol ∅ [(0%nat, [call "f"])]] = Some (Ok (mkObject [text] symbols)) /\
  o_relocs text = [mkReloc 0 "f" 282 0] /\ y_name <$> symbols = ["f"].
Proof. eexists _, _. split; [vm_compute; reflexivity|]. split; reflexivity. Qed.

(** A nonzero literal in a [.bss] section is accepted and its bytes are lost: the
    file has the section's size and no contents. *)
Example bss_literal_lost : exists obj bytes file,
  write_module arm_format [SectionItem (asm_op "section" [("name", Str ".bss")]) [LiteralItem (asm_op "literal" [("kind", Str "word"); ("value", Int 5)])]] = Some (Ok obj) /\
  (o_data <$> o_sections obj) = [[5; 0; 0; 0]] /\ write_elf obj arm_format = Some bytes /\ parse_elf bytes = Some (Ok file) /\
  (fun s => (f_name s, f_size s, f_data s)) <$> sections file !! 1%nat = Some (".bss", 4, []).
Proof. eexists _, _, _. split; [vm_compute; reflexivity|]. split; [reflexivity|]. split; [vm_compute; reflexivity|]. split; [vm_compute; reflexivity|]. reflexivity. Qed.
