(* ===== verification/Jit.v ===== *)
(** * The JIT loader ([libs/jit/src/loader.rs], [libs/jit/src/reloc.rs])

    [load] lays the sections of an object out in one mapping, with a trampoline
    for each external branch target between the text and the data, copies their
    bytes and applies their relocations against run-time addresses. The mapping
    ([ExecMap::new], [mmap]) is a zeroed vector of bytes at [base], a parameter;
    writing outside it is a panic of the model. The last steps, which make
    the mapping executable and flush the instruction cache, change no byte.
    Addresses are [Z], offsets into the mapping and into sections [nat]. *)
From Stdlib Require Import String.
From S2P Require Import Prelude Words ObjFile.
From stdpp Require Import strings.
#[local] Open Scope Z_scope.
#[local] Open Scope list_scope.

Inductive JitError :=
  | Emit (message : string)
  | UnresolvedSymbol (name : string)
  | RelocUnsupported (machine rtype : Z)
  | RelocRange (rtype value : Z).

(** ** Relocations *)

Definition R_X86_64_PC32 : Z := 2.
Definition R_X86_64_PLT32 : Z := 4.
Definition R_AARCH64_ADR_PREL_LO21 : Z := 274.
Definition R_AARCH64_CONDBR19 : Z := 280.
Definition R_AARCH64_JUMP26 : Z := 282.
Definition R_AARCH64_CALL26 : Z := 283.
Definition R_RISCV_BRANCH : Z := 16.
Definition R_RISCV_JAL : Z := 17.

Definition needs_trampoline (machine rtype : Z) : bool :=
  if machine =? EM_X86_64 then rtype =? R_X86_64_PLT32
  else if machine =? EM_AARCH64 then (rtype =? R_AARCH64_CALL26) || (rtype =? R_AARCH64_JUMP26) || (rtype =? R_AARCH64_CONDBR19)
  else if machine =? EM_RISCV then (rtype =? R_RISCV_JAL) || (rtype =? R_RISCV_BRANCH)
  else false.

(** An [i64] sum that leaves the range panics. *)
Definition i64 (v : Z) : option Z := if (- 2 ^ 63 <=? v) && (v <? 2 ^ 63) then Some v else None.

Definition fits_signed (value bits : Z) : bool :=
  let min := - Z.shiftl 1 (bits - 1) in
  let max := Z.shiftl 1 (bits - 1) - 1 in
  (min <=? value) && (value <=? max).

Definition as_u32 (v : Z) : Z := v mod 2 ^ 32.

Definition u32_bytes (v : Z) : list Z := le_bytes 4 v.
Definition u64_bytes (v : Z) : list Z := le_bytes 8 v.

Definition write_u32 (image : list Z) (site : nat) (value : Z) : option (list Z) := copy_at image site (u32_bytes value).

Definition patch_u32 (image : list Z) (site : nat) (clear_mask set_bits : Z) : option (list Z) :=
  word ← slice image site (site + 4);
  write_u32 image site (Z.lor (Z.ldiff (le_value word) clear_mask) set_bits).

(** [s + addend - p], each step an [i64]. *)
Definition displacement (s p addend : Z) : option Z := t ← i64 (as_i64 s + addend); i64 (t - as_i64 p).

Definition apply (machine rtype : Z) (image : list Z) (site : nat) (s p addend : Z) : option (result (list Z) JitError) :=
  if (machine =? EM_X86_64) && ((rtype =? R_X86_64_PC32) || (rtype =? R_X86_64_PLT32)) then
    value ← displacement s p addend;
    if negb (fits_signed value 32) then Some (Err (RelocRange rtype value))
    else Ok <$> write_u32 image site (as_u32 value)
  else if (machine =? EM_AARCH64) && ((rtype =? R_AARCH64_CALL26) || (rtype =? R_AARCH64_JUMP26)) then
    value ← displacement s p addend;
    let scaled := Z.shiftr value 2 in
    if negb (Z.land value 3 =? 0) || negb (fits_signed scaled 26) then Some (Err (RelocRange rtype value))
    else Ok <$> patch_u32 image site 0x03FFFFFF (Z.land (as_u32 scaled) 0x03FFFFFF)
  else if (machine =? EM_AARCH64) && (rtype =? R_AARCH64_CONDBR19) then
    value ← displacement s p addend;
    let scaled := Z.shiftr value 2 in
    if negb (Z.land value 3 =? 0) || negb (fits_signed scaled 19) then Some (Err (RelocRange rtype value))
    else Ok <$> patch_u32 image site (Z.shiftl 0x7FFFF 5) (Z.shiftl (Z.land (as_u32 scaled) 0x7FFFF) 5)
  else if (machine =? EM_AARCH64) && (rtype =? R_AARCH64_ADR_PREL_LO21) then
    value ← displacement s p addend;
    if negb (fits_signed value 21) then Some (Err (RelocRange rtype value))
    else
      let immlo := Z.land (as_u32 value) 3 in
      let immhi := Z.land (as_u32 (Z.shiftr value 2)) 0x7FFFF in
      Ok <$> patch_u32 image site (Z.lor (Z.shiftl 3 29) (Z.shiftl 0x7FFFF 5)) (Z.lor (Z.shiftl immlo 29) (Z.shiftl immhi 5))
  else if (machine =? EM_RISCV) && (rtype =? R_RISCV_JAL) then
    value ← displacement s p addend;
    if negb (Z.land value 1 =? 0) || negb (fits_signed value 21) then Some (Err (RelocRange rtype value))
    else
      let v := as_u32 value in
      let imm := Z.lor (Z.lor (Z.lor (Z.shiftl (Z.land (Z.shiftr v 20) 1) 31) (Z.shiftl (Z.land (Z.shiftr v 1) 0x3FF) 21))
                   (Z.shiftl (Z.land (Z.shiftr v 11) 1) 20)) (Z.shiftl (Z.land (Z.shiftr v 12) 0xFF) 12) in
      Ok <$> patch_u32 image site 0xFFFFF000 imm
  else if (machine =? EM_RISCV) && (rtype =? R_RISCV_BRANCH) then
    value ← displacement s p addend;
    if negb (Z.land value 1 =? 0) || negb (fits_signed value 13) then Some (Err (RelocRange rtype value))
    else
      let v := as_u32 value in
      let imm := Z.lor (Z.lor (Z.lor (Z.shiftl (Z.land (Z.shiftr v 12) 1) 31) (Z.shiftl (Z.land (Z.shiftr v 5) 0x3F) 25))
                   (Z.shiftl (Z.land (Z.shiftr v 1) 0xF) 8)) (Z.shiftl (Z.land (Z.shiftr v 11) 1) 7) in
      Ok <$> patch_u32 image site 0xFE000F80 imm
  else Some (Err (RelocUnsupported machine rtype)).

Definition trampoline (machine addr : Z) : result (list Z) JitError :=
  if machine =? EM_X86_64 then Ok ([0x49; 0xBB] ++ u64_bytes addr ++ [0x41; 0xFF; 0xE3])
  else if machine =? EM_AARCH64 then Ok (u32_bytes 0x58000050 ++ u32_bytes 0xD61F0200 ++ u64_bytes addr)
  else Err (RelocUnsupported machine 0).

Definition trampoline_size (machine : Z) : option nat :=
  if machine =? EM_X86_64 then Some 13%nat else if machine =? EM_AARCH64 then Some 16%nat else None.

(** ** Layout *)

Definition align_up (value align : Z) : option Z :=
  t ← checked_add value align; t ← checked_sub t 1; m ← checked_sub align 1; Some (Z.land t (Z.lnot m)).

Notation Placed := (nat * Z)%type.

(** The closure [place]: the sections of one kind, in order, from [cursor] on. *)
Fixpoint place (kind : SectionKind) (index : nat) (sections : list ObjSection) (cursor : Z) (placed : list Placed)
  : option (Z * list Placed) :=
  match sections with
  | [] => Some (cursor, placed)
  | section :: sections =>
      if decide (o_kind section = kind) then
        offset ← align_up cursor (Z.max (o_align section) 1);
        next ← checked_add offset (Z.of_nat (length (o_data section)));
        place kind (S index) sections next (placed ++ [(index, offset)])
      else place kind (S index) sections cursor placed
  end.

(** Defined symbols by name; the last one of a name wins. *)
Definition defined_symbols (obj : ObjectFile) : gmap string ObjSymbol :=
  fold_left (fun m s => match y_section s with Some _ => <[y_name s := s]> m | None => m end) (o_symbols obj) ∅.

(** External branch targets, in the order they are met. *)
Definition ext_branches (machine : Z) (obj : ObjectFile) : list string :=
  fold_left (fun ext r =>
      if bool_decide (defined_symbols obj !! r_symbol r = None) && needs_trampoline machine (r_type r) && bool_decide (r_symbol r ∉ ext)
      then ext ++ [r_symbol r] else ext)
    (concat (o_relocs <$> o_sections obj)) [].

Fixpoint place_trampolines (size : nat) (names : list string) (cursor : Z) (offsets : gmap string Z) : option (Z * gmap string Z) :=
  match names with
  | [] => Some (cursor, offsets)
  | name :: names => next ← checked_add cursor (Z.of_nat size); place_trampolines size names next (<[name := cursor]> offsets)
  end.

Record Layout := mkLayout { y_placed : list Placed; y_trampolines : gmap string Z; y_total : Z }.

Definition lay_out (machine : Z) (obj : ObjectFile) : option (result Layout JitError) :=
  let ext := ext_branches machine obj in
  '(cursor, placed) ← place Text 0 (o_sections obj) 0 [];
  match (match ext with [] => Some 0%nat | _ :: _ => trampoline_size machine end) with
  | None => Some (Err (RelocUnsupported machine 0))
  | Some size =>
      cursor ← align_up cursor 16;
      '(cursor, trampolines) ← place_trampolines size ext cursor ∅;
      '(cursor, placed) ← place ReadOnlyData 0 (o_sections obj) cursor placed;
      '(cursor, placed) ← place Data 0 (o_sections obj) cursor placed;
      '(cursor, placed) ← place UninitializedData 0 (o_sections obj) cursor placed;
      Some (Ok (mkLayout placed trampolines (Z.max cursor 1)))
  end.

(** The offset part of [section_addr]. *)
Definition section_offset (placed : list Placed) (index : nat) : option Z :=
  snd <$> List.find (fun p => (p.1 =? index)%nat) placed.

(** ** Filling the mapping *)

Fixpoint copy_sections (sections : list ObjSection) (placed : list Placed) (image : list Z) : option (list Z) :=
  match placed with
  | [] => Some image
  | (index, offset) :: placed =>
      section ← sections !! index;
      image ← copy_at image (Z.to_nat offset) (o_data section);
      copy_sections sections placed image
  end.

Fixpoint emit_trampolines (machine : Z) (host_symbols offsets : gmap string Z) (names : list string) (image : list Z)
  : option (result (list Z) JitError) :=
  match names with
  | [] => Some (Ok image)
  | name :: names =>
      match host_symbols !! name with
      | None => Some (Err (UnresolvedSymbol name))
      | Some host =>
          match trampoline machine host with
          | Err e => Some (Err e)
          | Ok code =>
              offset ← offsets !! name;
              image ← copy_at image (Z.to_nat offset) code;
              emit_trampolines machine host_symbols offsets names image
          end
      end
  end.

Definition unplaced (name : string) : JitError := Emit ("symbol '" +:+ name +:+ "' in unplaced section")%string.

Definition symbol_addr (placed : list Placed) (base : Z) (s : ObjSymbol) (section : nat) : option (result Z JitError) :=
  match section_offset placed section with
  | None => Some (Err (unplaced (y_name s)))
  | Some offset => addr ← checked_add (base + offset) (y_value s); Some (Ok addr)
  end.

Fixpoint symbol_table (placed : list Placed) (base : Z) (symbols : list ObjSymbol) (table : gmap string Z)
  : option (result (gmap string Z) JitError) :=
  match symbols with
  | [] => Some (Ok table)
  | s :: symbols =>
      match y_section s with
      | None => symbol_table placed base symbols table
      | Some section =>
          addr <-? symbol_addr placed base s section;
          let fresh := match y_binding s with Global => true | Local => bool_decide (table !! y_name s = None) end in
          symbol_table placed base symbols (if fresh then <[y_name s := addr]> table else table)
      end
  end.

Definition resolve_symbol (machine rtype : Z) (symbol : string) (obj : ObjectFile) (layout : Layout) (base : Z) (host_symbols : gmap string Z)
  : option (result Z JitError) :=
  match defined_symbols obj !! symbol with
  | Some sym => section ← y_section sym; symbol_addr (y_placed layout) base sym section
  | None =>
      if needs_trampoline machine rtype then offset ← y_trampolines layout !! symbol; Some (Ok (base + offset))
      else match host_symbols !! symbol with
           | Some a => Some (Ok a)
           | None => Some (Err (UnresolvedSymbol symbol))
           end
  end.

Fixpoint relocate_section (machine : Z) (obj : ObjectFile) (layout : Layout) (base : Z) (host_symbols : gmap string Z) (offset : Z)
    (relocs : list ObjReloc) (image : list Z) : option (result (list Z) JitError) :=
  match relocs with
  | [] => Some (Ok image)
  | r :: relocs =>
      p ← checked_add (base + offset) (r_offset r);
      s <-? resolve_symbol machine (r_type r) (r_symbol r) obj layout base host_symbols;
      image <-? apply machine (r_type r) image (Z.to_nat (p - base)) s p (r_addend r);
      relocate_section machine obj layout base host_symbols offset relocs image
  end.

Fixpoint relocate (machine : Z) (obj : ObjectFile) (layout : Layout) (base : Z) (host_symbols : gmap string Z) (index : nat)
    (sections : list ObjSection) (image : list Z) : option (result (list Z) JitError) :=
  match sections with
  | [] => Some (Ok image)
  | section :: sections =>
      match section_offset (y_placed layout) index with
      | None => relocate machine obj layout base host_symbols (S index) sections image
      | Some offset =>
          image <-? relocate_section machine obj layout base host_symbols offset (o_relocs section) image;
          relocate machine obj layout base host_symbols (S index) sections image
      end
  end.

Record Loaded := mkLoaded { l_image : list Z; l_symbols : gmap string Z }.

(** [base] is where the mapping was made. *)
Definition load (machine : Z) (obj : ObjectFile) (host_symbols : gmap string Z) (base : Z) : option (result Loaded JitError) :=
  layout <-? lay_out machine obj;
  image ← copy_sections (o_sections obj) (y_placed layout) (replicate (Z.to_nat (y_total layout)) 0);
  image <-? emit_trampolines machine host_symbols (y_trampolines layout) (ext_branches machine obj) image;
  symbols <-? symbol_table (y_placed layout) base (o_symbols obj) ∅;
  image <-? relocate machine obj layout base host_symbols 0 (o_sections obj) image;
  Some (Ok (mkLoaded image symbols)).
