(* ===== verification/JitReloc.v ===== *)
(** * What a relocation does to the word it patches

    A [Field] says where an instruction word holds a displacement; the
    relocations of [Jit] are described by the field they fill ([field_of]) and
    [apply] is shown to fill exactly that field, or to fail. *)
From Stdlib Require Import String.
From stdpp Require Import strings.
From S2P Require Import Prelude Words ApInt ApIntSpec ApIntArith Lang LangSpec Bits ObjFile Jit.
#[local] Open Scope Z_scope.
#[local] Open Scope list_scope.

(** ** Fields *)

(** The displacement is a multiple of [2 ^ f_align]; bit [f_align + i] of it is
    bit [f_bits !! i] of the word. *)
Record Field := mkField { f_align : nat; f_bits : list Z }.

Definition f_width (f : Field) : Z := Z.of_nat (f_align f) + size (f_bits f).
Definition f_decode (f : Field) (word : Z) : Z :=
  sign_of (f_width f) (bval (replicate (f_align f) false ++ (Z.testbit word <$> f_bits f))).
Definition f_fits (f : Field) (d : Z) : bool :=
  (d mod 2 ^ Z.of_nat (f_align f) =? 0) && (- 2 ^ (f_width f - 1) <=? d) && (d <? 2 ^ (f_width f - 1)).

(** The fields of the architecture manuals. *)
Definition field_of (machine rtype : Z) : option Field :=
  if (machine =? EM_X86_64) && ((rtype =? R_X86_64_PC32) || (rtype =? R_X86_64_PLT32)) then Some (mkField 0 (seqZ 0 32))
  else if (machine =? EM_AARCH64) && ((rtype =? R_AARCH64_CALL26) || (rtype =? R_AARCH64_JUMP26)) then Some (mkField 2 (seqZ 0 26))
  else if (machine =? EM_AARCH64) && (rtype =? R_AARCH64_CONDBR19) then Some (mkField 2 (seqZ 5 19))
  else if (machine =? EM_AARCH64) && (rtype =? R_AARCH64_ADR_PREL_LO21) then Some (mkField 0 (seqZ 29 2 ++ seqZ 5 19))
  else if (machine =? EM_RISCV) && (rtype =? R_RISCV_JAL) then Some (mkField 1 (seqZ 21 10 ++ [20] ++ seqZ 12 8 ++ [31]))
  else if (machine =? EM_RISCV) && (rtype =? R_RISCV_BRANCH) then Some (mkField 1 (seqZ 8 4 ++ seqZ 25 6 ++ [7; 31]))
  else None.

(** [word'] is [word] with displacement [d] in field [f]. *)
Definition fills (f : Field) (d word word' : Z) : Prop :=
  0 <= word' < 2 ^ 32 /\ f_decode f word' = d /\
  forall k, 0 <= k < 32 -> k ∉ f_bits f -> Z.testbit word' k = Z.testbit word k.

Definition word_at (image : list Z) (site : nat) : Z := le_value (take 4 (drop site image)).

(** [image'] is [image] with the word at [site] replaced by [word]. *)
Definition patched (image : list Z) (site : nat) (word : Z) : list Z :=
  take site image ++ u32_bytes word ++ drop (site + 4) image.

(** ** Words and bytes *)

Lemma length_u32_bytes v : length (u32_bytes v) = 4%nat.
Proof. done. Qed.

Lemma le_value_u32 v : le_value (u32_bytes v) = v mod 2 ^ 32.
Proof. apply (le_value_le_bytes 4). Qed.

Lemma u32_bytes_mod v : u32_bytes (v mod 2 ^ 32) = u32_bytes v.
Proof. apply (le_bytes_mod 4). Qed.

Lemma u32_bytes_ok v : bytes_ok (u32_bytes v).
Proof. apply le_bytes_ok. Qed.

Lemma u64_bytes_ok v : bytes_ok (u64_bytes v).
Proof. apply le_bytes_ok. Qed.

Lemma length_patched image site word : (site + 4 <= length image)%nat -> length (patched image site word) = length image.
Proof. intros. unfold patched. rewrite !length_app, length_take, length_drop, length_u32_bytes. lia. Qed.

Lemma patched_ok image site word : bytes_ok image -> bytes_ok (patched image site word).
Proof.
  intros H. unfold patched, bytes_ok. rewrite !Forall_app. repeat split; [by apply Forall_take|apply u32_bytes_ok|by apply Forall_drop].
Qed.

Lemma patched_lookup image site word i : (site + 4 <= length image)%nat -> (i < site \/ site + 4 <= i)%nat ->
  patched image site word !! i = image !! i.
Proof.
  intros Hl [H|H]; unfold patched.
  - rewrite lookup_app_l by (rewrite length_take; lia). by rewrite lookup_take_lt.
  - rewrite lookup_app_r by (rewrite length_take; lia). rewrite length_take, Nat.min_l by lia.
    rewrite lookup_app_r, length_u32_bytes, lookup_drop by (rewrite length_u32_bytes; lia). f_equal. lia.
Qed.

Lemma word_at_patched image site word : (site + 4 <= length image)%nat -> 0 <= word < 2 ^ 32 -> word_at (patched image site word) site = word.
Proof.
  intros Hl Hw. unfold word_at, patched. rewrite drop_app_ge by (rewrite length_take; lia).
  rewrite length_take, Nat.min_l, Nat.sub_diag, drop_0, take_app_length' by (done || lia). by rewrite le_value_u32, Z.mod_small.
Qed.

Lemma word_at_ext a b site : (forall i, (site <= i < site + 4)%nat -> a !! i = b !! i) -> word_at a site = word_at b site.
Proof.
  intros H. unfold word_at. f_equal. apply list_eq. intros i. destruct (Nat.lt_ge_cases i 4).
  - rewrite !lookup_take_lt, !lookup_drop by lia. apply H. lia.
  - by rewrite !lookup_take_ge by lia.
Qed.

(** ** Filling a field *)

Lemma f_width_pos f : f_bits f <> [] -> 0 < f_width f.
Proof. unfold f_width, size. destruct (f_bits f); [done|]. cbn [length]. lia. Qed.

(** A word whose field holds the bits of a displacement that fits decodes to it. *)
Lemma decode_bits f d word : f_bits f <> [] -> f_fits f d = true ->
  (Z.testbit word <$> f_bits f) = (Z.testbit d <$> seqZ (Z.of_nat (f_align f)) (size (f_bits f))) -> f_decode f word = d.
Proof.
  intros Hne Hf E. pose proof (f_width_pos f Hne) as Hw. unfold f_fits in Hf. apply andb_prop in Hf as [[H0 H1]%andb_prop H2].
  unfold f_decode. rewrite E.
  assert ((replicate (f_align f) false ++ (Z.testbit d <$> seqZ (Z.of_nat (f_align f)) (size (f_bits f))))
          = (Z.testbit d <$> seqZ 0 (f_width f))) as ->.
  { unfold f_width. rewrite seqZ_app by auto with lia. rewrite fmap_app. f_equal. symmetry. apply list_eq. intros i.
    rewrite list_lookup_fmap. destruct (Nat.lt_ge_cases i (f_align f)) as [Hi|Hi].
    - rewrite lookup_replicate_2 by done. rewrite lookup_seqZ_lt by lia. cbn. f_equal.
      rewrite <- (Z.mod_pow2_bits_low d (Z.of_nat (f_align f))) by lia. apply Z.eqb_eq in H0. rewrite H0. apply Z.testbit_0_l.
    - rewrite lookup_seqZ_ge by lia. symmetry. apply lookup_ge_None. by rewrite length_replicate. }
  replace (bval (Z.testbit d <$> seqZ 0 (f_width f))) with (d mod 2 ^ f_width f); [apply sign_of_small; lia|].
  symmetry. replace (f_width f) with (Z.of_nat (Z.to_nat (f_width f))) by lia. set (n := Z.to_nat (f_width f)).
  rewrite <- (bval_of_bits (fun i => Z.testbit d (Z.of_nat i)) d n) by done. f_equal. unfold seqZ.
  rewrite Nat2Z.id, <- list_fmap_compose. apply list_fmap_ext. intros. cbn. f_equal. lia.
Qed.

Definition outside (f : Field) : list Z := base.filter (fun k => k ∉ f_bits f) (seqZ 0 32).

(** [mask] is the field, and [set] holds the displacement there. *)
Definition is_mask (f : Field) (mask : Z) : bool :=
  forallb (fun k => (0 <=? k) && (k <? 32) && Z.testbit mask k) (f_bits f) && forallb (fun k => negb (Z.testbit mask k)) (outside f).
Definition sets (f : Field) (set d : Z) : Prop :=
  (Z.testbit set <$> f_bits f) = (Z.testbit d <$> seqZ (Z.of_nat (f_align f)) (size (f_bits f))) /\
  (Z.testbit set <$> outside f) = ((fun _ => false) <$> outside f).

Lemma fill_bits f mask set d word : f_bits f <> [] -> f_fits f d = true -> is_mask f mask = true -> sets f set d ->
  fills f d word (Z.lor (Z.ldiff word mask) set mod 2 ^ 32).
Proof.
  intros Hne Hf [Hin Hout]%andb_prop [Es Eo]. set (word' := Z.lor (Z.ldiff word mask) set).
  rewrite forallb_forall in Hin, Hout. setoid_rewrite <- list_elem_of_In in Hin. setoid_rewrite <- list_elem_of_In in Hout.
  assert (forall k, 0 <= k < 32 -> Z.testbit (word' mod 2 ^ 32) k = Z.testbit word k && negb (Z.testbit mask k) || Z.testbit set k) as Hb.
  { intros k Hk. rewrite Z.mod_pow2_bits_low by lia. unfold word'. by rewrite Z.lor_spec, Z.ldiff_spec. }
  split; [apply Z.mod_pos_bound; lia|]. split.
  - apply decode_bits; [done|done|]. rewrite <- Es. apply list_fmap_ext. intros i k Hk%list_elem_of_lookup_2.
    destruct (andb_prop _ _ (Hin k Hk)) as [Hr Hm]. by rewrite Hb, Hm, andb_false_r by lia.
  - intros k Hk Hk'. rewrite Hb by done.
    assert (k ∈ outside f) as Ho by (apply list_elem_of_filter; split; [done|apply elem_of_seqZ; lia]).
    pose proof (Hout k Ho) as ->%negb_true_iff. apply list_elem_of_lookup in Ho as [i Hi].
    apply (f_equal (fun l => l !! i)) in Eo. rewrite !list_lookup_fmap, Hi in Eo. injection Eo as ->. by rewrite andb_true_r, orb_false_r.
Qed.

Lemma scaled_piece_testbit v a ones m b k : 0 <= a -> 0 <= m -> 0 <= b -> 0 <= k -> ones = Z.ones m ->
  Z.testbit (Z.shiftl (Z.land (Z.shiftr v a) ones) b) k = (b <=? k) && (k <? b + m) && Z.testbit v (k - b + a).
Proof.
  intros Ha Hm Hb Hk ->. rewrite Z.shiftl_spec by done. destruct (Z.leb_spec b k); cbn [andb].
  - rewrite Z.land_spec, Z.shiftr_spec, Z.testbit_ones by lia.
    destruct (Z.leb_spec 0 (k - b)); [|lia]. destruct (Z.ltb_spec (k - b) m), (Z.ltb_spec k (b + m)); cbn [andb]; try lia;
      by rewrite ?andb_true_r, ?andb_false_r.
  - apply Z.testbit_neg_r. lia.
Qed.

(** ** What [apply] sets *)

Lemma as_u32_testbit d k : 0 <= k < 32 -> Z.testbit (as_u32 d) k = Z.testbit d k.
Proof. intros. unfold as_u32. apply Z.mod_pow2_bits_low. lia. Qed.

(** A concrete position of a word made of pieces. *)
Ltac piece_bit := rewrite ?Z.lor_spec;
  repeat first
    [ rewrite (scaled_piece_testbit _ _ 0x3FF 10) by (lia || done) | rewrite (scaled_piece_testbit _ _ 0xFF 8) by (lia || done)
    | rewrite (scaled_piece_testbit _ _ 0x3F 6) by (lia || done) | rewrite (scaled_piece_testbit _ _ 0xF 4) by (lia || done)
    | rewrite (scaled_piece_testbit _ _ 1 1) by (lia || done) | rewrite (scaled_piece_testbit _ _ 3 2) by (lia || done)
    | rewrite (scaled_piece_testbit _ _ 0x7FFFF 19) by (lia || done) | rewrite (scaled_piece_testbit _ _ 0x3FFFFFF 26) by (lia || done)];
  cbn [Z.leb Z.ltb Z.compare Pos.compare Pos.compare_cont andb orb Z.add Z.sub Z.opp Pos.add Pos.sub Pos.succ Pos.add_carry];
  rewrite ?orb_false_r, ?as_u32_testbit, ?Z.shiftr_spec by lia.

Lemma cons_ext {A} (x y : A) l l' : x = y -> l = l' -> x :: l = y :: l'.
Proof. congruence. Qed.

Ltac each_bit :=
  split; cbn [f_bits f_align];
  repeat match goal with
         | |- context [seqZ ?a ?b] => let l := eval vm_compute in (seqZ a b) in change (seqZ a b) with l
         | |- context [outside ?f] => let l := eval vm_compute in (outside f) in change (outside f) with l
         end; cbn [app fmap list_fmap]; repeat (apply cons_ext; [piece_bit; reflexivity|]); reflexivity.

Lemma jal_set d :
  sets (mkField 1 (seqZ 21 10 ++ [20] ++ seqZ 12 8 ++ [31]))
    (Z.lor (Z.lor (Z.lor (Z.shiftl (Z.land (Z.shiftr (as_u32 d) 20) 1) 31) (Z.shiftl (Z.land (Z.shiftr (as_u32 d) 1) 0x3FF) 21))
                  (Z.shiftl (Z.land (Z.shiftr (as_u32 d) 11) 1) 20)) (Z.shiftl (Z.land (Z.shiftr (as_u32 d) 12) 0xFF) 12)) d.
Proof. each_bit. Qed.

Lemma branch_set d :
  sets (mkField 1 (seqZ 8 4 ++ seqZ 25 6 ++ [7; 31]))
    (Z.lor (Z.lor (Z.lor (Z.shiftl (Z.land (Z.shiftr (as_u32 d) 12) 1) 31) (Z.shiftl (Z.land (Z.shiftr (as_u32 d) 5) 0x3F) 25))
                  (Z.shiftl (Z.land (Z.shiftr (as_u32 d) 1) 0xF) 8)) (Z.shiftl (Z.land (Z.shiftr (as_u32 d) 11) 1) 7)) d.
Proof. each_bit. Qed.

Lemma adr_set d :
  sets (mkField 0 (seqZ 29 2 ++ seqZ 5 19))
    (Z.lor (Z.shiftl (Z.land (as_u32 d) 3) 29) (Z.shiftl (Z.land (as_u32 (Z.shiftr d 2)) 0x7FFFF) 5)) d.
Proof. rewrite <- (Z.shiftr_0_r (as_u32 d)), <- (Z.shiftr_0_r (as_u32 (Z.shiftr d 2))). each_bit. Qed.

Lemma cond_set d : sets (mkField 2 (seqZ 5 19)) (Z.shiftl (Z.land (as_u32 (Z.shiftr d 2)) 0x7FFFF) 5) d.
Proof. rewrite <- (Z.shiftr_0_r (as_u32 _)). each_bit. Qed.

Lemma call_set d : sets (mkField 2 (seqZ 0 26)) (Z.land (as_u32 (Z.shiftr d 2)) 0x3FFFFFF) d.
Proof. rewrite <- (Z.shiftr_0_r (as_u32 _)), <- (Z.shiftl_0_r (Z.land _ _)). each_bit. Qed.

Lemma rel32_set d : sets (mkField 0 (seqZ 0 32)) (as_u32 d) d.
Proof.
  split; cbn [f_bits f_align]; [|done]. apply list_fmap_ext. intros i k Hk. apply list_elem_of_lookup_2, elem_of_seqZ in Hk. by apply as_u32_testbit.
Qed.

(** ** [apply] *)

Lemma fits_signed_spec v n : 0 < n -> fits_signed v n = (- 2 ^ (n - 1) <=? v) && (v <? 2 ^ (n - 1)).
Proof. intros. unfold fits_signed. rewrite Z.shiftl_mul_pow2, Z.mul_1_l by lia. f_equal. apply eq_true_iff_eq. lia. Qed.

Lemma unscaled_fits v a bits : bits <> [] ->
  negb (Z.land v (Z.ones (Z.of_nat a)) =? 0) || negb (fits_signed v (Z.of_nat a + size bits)) = negb (f_fits (mkField a bits) v).
Proof.
  intros Hn. pose proof (f_width_pos (mkField a bits) Hn) as Hw. unfold f_width in Hw. cbn [f_align f_bits] in Hw.
  rewrite fits_signed_spec, Z.land_ones by lia. unfold f_fits, f_width. cbn [f_align f_bits]. by rewrite <- negb_andb, <- andb_assoc.
Qed.

Lemma scaled_fits v a bits : bits <> [] ->
  negb (Z.land v (Z.ones (Z.of_nat a)) =? 0) || negb (fits_signed (Z.shiftr v (Z.of_nat a)) (size bits)) = negb (f_fits (mkField a bits) v).
Proof.
  intros Hn. assert (0 < size bits) as Hs by (unfold size; destruct bits; [done|cbn [length]; lia]).
  rewrite fits_signed_spec, Z.land_ones, Z.shiftr_div_pow2 by lia. unfold f_fits, f_width. cbn [f_align f_bits].
  rewrite <- negb_andb, <- andb_assoc. f_equal. destruct (Z.eqb_spec (v mod 2 ^ Z.of_nat a) 0) as [E|]; [|done]. cbn [andb].
  pose proof (pow2_pos (Z.of_nat a) ltac:(lia)). pose proof (Z.div_mod v (2 ^ Z.of_nat a) ltac:(lia)).
  replace (Z.of_nat a + size bits - 1) with (Z.of_nat a + (size bits - 1)) by lia. rewrite Z.pow_add_r by lia.
  apply eq_true_iff_eq. rewrite !andb_true_iff, !Z.leb_le, !Z.ltb_lt. nia.
Qed.

Lemma write_u32_spec image site v : (site + 4 <= length image)%nat -> write_u32 image site v = Some (patched image site (v mod 2 ^ 32)).
Proof.
  intros H. unfold write_u32, copy_at, patched. rewrite length_u32_bytes, (proj2 (Nat.leb_le _ _)) by done. by rewrite u32_bytes_mod.
Qed.

Lemma patch_u32_spec image site mask set : (site + 4 <= length image)%nat ->
  patch_u32 image site mask set = Some (patched image site (Z.lor (Z.ldiff (word_at image site) mask) set mod 2 ^ 32)).
Proof.
  intros H. unfold patch_u32, slice. rewrite (proj2 (Nat.leb_le _ _)), (proj2 (Nat.leb_le _ _)) by lia. cbn.
  rewrite write_u32_spec by done. unfold word_at. do 7 f_equal. lia.
Qed.

Lemma write_u32_all image site set : (site + 4 <= length image)%nat ->
  write_u32 image site set = Some (patched image site (Z.lor (Z.ldiff (word_at image site) (-1)) set mod 2 ^ 32)).
Proof. intros. by rewrite write_u32_spec, Z.ldiff_m1_r by done. Qed.

(** The end of each branch of [apply]: the range check, then the patch. *)
Lemma apply_end f bad rtype d image site mask set patch : f_bits f <> [] -> bad = negb (f_fits f d) ->
  is_mask f mask = true -> sets f set d -> patch = Some (patched image site (Z.lor (Z.ldiff (word_at image site) mask) set mod 2 ^ 32)) ->
  let r := if bad : bool then Some (Err (RelocRange rtype d)) else Ok <$> patch in
  if f_fits f d then exists word, fills f d (word_at image site) word /\ r = Some (Ok (patched image site word))
  else r = Some (Err (RelocRange rtype d)).
Proof.
  intros Hne -> Hm Hs ->. cbn. destruct (f_fits f d) eqn:Hf; [|done]. cbn. eexists. split; [by apply (fill_bits f mask set)|done].
Qed.

(** C22: Applying a relocation fills the bits its type names: if the
    displacement [s + addend - p] is aligned and within the signed range of the
    field, the word at the site decodes to it, every other bit of the word and
    every other byte of the image is kept; otherwise the error is [RelocRange]
    with that displacement, and [RelocUnsupported] for a type of another
    machine. The x86 rel32, AArch64 imm26, imm19 and ADR, and RISC-V J and B
    scattered immediates are covered. *)
Theorem apply_fills machine rtype image site s p addend d :
  (site + 4 <= length image)%nat -> displacement s p addend = Some d ->
  match field_of machine rtype with
  | None => apply machine rtype image site s p addend = Some (Err (RelocUnsupported machine rtype))
  | Some f =>
      if f_fits f d then exists word, fills f d (word_at image site) word /\
        apply machine rtype image site s p addend = Some (Ok (patched image site word))
      else apply machine rtype image site s p addend = Some (Err (RelocRange rtype d))
  end.
Proof.
  intros Hl Hd. unfold field_of, apply. rewrite Hd. cbn [mbind option_bind].
  destruct (_ && _); [|destruct (_ && _); [|destruct (_ && _); [|destruct (_ && _); [|destruct (_ && _); [|destruct (_ && _); [|done]]]]]].
  - apply (apply_end _ _ _ _ _ _ (-1) (as_u32 d)); [done| |done|apply rel32_set|by apply write_u32_all].
    by rewrite <- unscaled_fits, Z.land_0_r.
  - apply (apply_end _ _ _ _ _ _ 0x3FFFFFF (Z.land (as_u32 (Z.shiftr d 2)) 0x3FFFFFF));
      [done|by rewrite <- scaled_fits|done|apply call_set|by apply patch_u32_spec].
  - apply (apply_end _ _ _ _ _ _ (Z.shiftl 0x7FFFF 5) (Z.shiftl (Z.land (as_u32 (Z.shiftr d 2)) 0x7FFFF) 5));
      [done|by rewrite <- scaled_fits|done|apply cond_set|by apply patch_u32_spec].
  - eapply (apply_end _ _ _ _ _ _ (Z.lor (Z.shiftl 3 29) (Z.shiftl 0x7FFFF 5))); [done| |done|apply adr_set|by apply patch_u32_spec].
    by rewrite <- unscaled_fits, Z.land_0_r.
  - eapply (apply_end _ _ _ _ _ _ 0xFFFFF000); [done|by rewrite <- unscaled_fits|done|apply jal_set|by apply patch_u32_spec].
  - eapply (apply_end _ _ _ _ _ _ 0xFE000F80); [done|by rewrite <- unscaled_fits|done|apply branch_set|by apply patch_u32_spec].
Qed.

(** [jal ra, 0] at address 4096 + 4, relocated to reach 2048. *)
Lemma apply_fills_witness :
  exists word, fills (mkField 1 (seqZ 21 10 ++ [20] ++ seqZ 12 8 ++ [31])) (-2052) (word_at [19; 0; 0; 0; 239; 0; 0; 0] 4) word /\
    apply EM_RISCV R_RISCV_JAL [19; 0; 0; 0; 239; 0; 0; 0] 4 2048 4100 0 = Some (Ok (patched [19; 0; 0; 0; 239; 0; 0; 0] 4 word)).
Proof. apply (apply_fills EM_RISCV R_RISCV_JAL [19; 0; 0; 0; 239; 0; 0; 0] 4 2048 4100 0 (-2052)); [cbn; lia|reflexivity]. Defined.

(** ** The layout of a loaded object

    [lay_out] places the sections and trampolines in ascending, disjoint
    regions ([lay_out_spec]); bytes copied to disjoint regions can all be read
    back ([copy_all_spec]). *)
(** ** Pieces copied into an image *)

Notation Piece := (nat * list Z)%type.

Fixpoint copy_all (image : list Z) (pieces : list Piece) : option (list Z) :=
  match pieces with [] => Some image | (o, b) :: pieces => image ← copy_at image o b; copy_all image pieces end.

Definition apart (p q : Piece) : Prop := (p.1 + length p.2 <= q.1 \/ q.1 + length q.2 <= p.1)%nat.
Definition piece_in (image : list Z) (p : Piece) : Prop := forall j, (j < length p.2)%nat -> image !! (p.1 + j)%nat = p.2 !! j.
Definition off_piece (i : nat) (p : Piece) : Prop := (i < p.1 \/ p.1 + length p.2 <= i)%nat.

Lemma copy_all_spec pieces : forall image, ForallOrdPairs apart pieces -> Forall (fun p => p.1 + length p.2 <= length image)%nat pieces ->
  exists image', copy_all image pieces = Some image' /\ length image' = length image /\
    Forall (piece_in image') pieces /\ forall i, Forall (off_piece i) pieces -> image' !! i = image !! i.
Proof.
  induction pieces as [|[o b] pieces IH]; intros image Ha Hb; cbn [copy_all]; [by exists image|].
  inversion Ha as [|?? Ho Ha']; subst. inversion Hb as [|?? Hl Hb']; subst. cbn in Hl.
  destruct (copy_at_spec image o b Hl) as (image1 & -> & Hl1 & H1). cbn.
  destruct (IH image1 Ha') as (image' & -> & Hl' & Hin & Hout); [by rewrite Hl1|].
  exists image'. split; [done|]. split; [congruence|]. split.
  - constructor; [|done]. intros j Hj. cbn in Hj |- *. rewrite Hout, H1.
    + natcase; try lia. f_equal. lia.
    + revert Ho. apply Forall_impl. intros [o' b']. unfold apart, off_piece. cbn. lia.
  - intros i Hi. inversion Hi as [|?? Hi0 Hi']; subst. rewrite Hout, H1 by done. unfold off_piece in Hi0. cbn in Hi0. natcase; lia || done.
Qed.

Lemma copy_all_ok pieces : forall image image', bytes_ok image -> Forall (fun p => bytes_ok p.2) pieces ->
  copy_all image pieces = Some image' -> bytes_ok image'.
Proof.
  induction pieces as [|[o b] pieces IH]; intros image image' Hi Hp E; cbn [copy_all] in E; [by injection E as <-|].
  inversion Hp as [|?? Hb Hp']; subst. unfold copy_at in E. destruct (_ <=? _)%nat; [|done]. cbn in E.
  eapply IH; [|exact Hp'|exact E]. unfold bytes_ok. rewrite !Forall_app. repeat split; [by apply Forall_take|done|by apply Forall_drop].
Qed.

(** ** Alignment *)

Definition pow2_align (a : Z) : Prop := a = 0 \/ exists k, 0 <= k <= 62 /\ a = 2 ^ k.

Lemma align_up_spec v a : 0 <= v < 2 ^ 62 -> pow2_align a ->
  exists r, align_up v (Z.max a 1) = Some r /\ v <= r < v + Z.max a 1 /\ (Z.max a 1 | r).
Proof.
  intros Hv Ha. assert (exists k, 0 <= k <= 62 /\ Z.max a 1 = 2 ^ k) as (k & Hk & ->).
  { destruct Ha as [->|(k & Hk & ->)]; [by exists 0|]. exists k. split; [done|]. pose proof (pow2_pos k). lia. }
  pose proof (pow2_pos k ltac:(lia)) as Hp. assert (2 ^ k <= 2 ^ 62) as Hle by (apply Z.pow_le_mono_r; lia).
  unfold align_up, checked_add, checked_sub, u64_max.
  rewrite (proj2 (Z.leb_le _ _)) by lia. cbn [mbind option_bind]. rewrite (proj2 (Z.leb_le _ _)) by lia. cbn [mbind option_bind].
  rewrite (proj2 (Z.leb_le _ _)) by lia. cbn [mbind option_bind]. eexists. split; [done|].
  replace (2 ^ k - 1) with (Z.ones k) by (rewrite Z.ones_equiv; lia). rewrite <- Z.ldiff_land, Z.ldiff_ones_r, Z.shiftl_mul_pow2, Z.shiftr_div_pow2 by lia.
  split; [|by exists ((v + 2 ^ k - 1) / 2 ^ k)]. pose proof (Z.div_mod (v + 2 ^ k - 1) (2 ^ k) ltac:(lia)). pose proof (Z.mod_pos_bound (v + 2 ^ k - 1) (2 ^ k) Hp). lia.
Qed.

(** ** Ascending regions *)

Section Layout.
Context (sections : list ObjSection).

Definition data_of (i : nat) : list Z := from_option o_data [] (sections !! i).
Definition align_of (i : nat) : Z := Z.max (from_option o_align 0 (sections !! i)) 1.
Definition piece_of (p : Placed) : Piece := (Z.to_nat p.2, data_of p.1).

Fixpoint packed (lo : Z) (placed : list Placed) (hi : Z) : Prop :=
  match placed with
  | [] => lo <= hi
  | (i, o) :: placed => lo <= o /\ (align_of i | o) /\ packed (o + Z.of_nat (length (data_of i))) placed hi
  end.

Lemma packed_le lo placed : forall hi, packed lo placed hi -> lo <= hi.
Proof. revert lo; induction placed as [|[i o] placed IH]; intros lo hi H; [done|]. destruct H as (? & _ & H%IH). lia. Qed.

Lemma packed_weaken lo lo' placed hi : lo' <= lo -> packed lo placed hi -> packed lo' placed hi.
Proof. destruct placed as [|[i o] placed]; cbn; [lia|]. intros Hl (? & ? & ?). repeat split; [lia|done|done]. Qed.

Lemma packed_app lo a m b hi : packed lo a m -> packed m b hi -> packed lo (a ++ b) hi.
Proof.
  revert lo; induction a as [|[i o] a IH]; intros lo Ha Hb; cbn [app packed] in *; [by eapply packed_weaken|].
  destruct Ha as (? & ? & ?). repeat split; [done|done|by apply IH].
Qed.

Lemma packed_in lo placed hi p : packed lo placed hi -> p ∈ placed ->
  lo <= p.2 /\ p.2 + Z.of_nat (length (data_of p.1)) <= hi /\ (align_of p.1 | p.2).
Proof.
  revert lo; induction placed as [|[i o] placed IH]; intros lo H Hin; [by apply not_elem_of_nil in Hin|].
  destruct H as (? & ? & H). apply elem_of_cons in Hin as [->|Hin]; [by pose proof (packed_le _ _ _ H)|].
  destruct (IH _ H Hin) as (? & ? & ?). repeat split; [lia|done|done].
Qed.

Lemma packed_apart lo placed hi : 0 <= lo -> packed lo placed hi -> ForallOrdPairs apart (piece_of <$> placed).
Proof.
  revert lo; induction placed as [|[i o] placed IH]; intros lo Hlo H; [constructor|]. destruct H as (? & ? & H).
  rewrite fmap_cons. constructor; [|eapply IH; [|exact H]; lia].
  apply Forall_fmap, Forall_forall. intros p Hp%list_elem_of_In. destruct (packed_in _ _ _ p H Hp) as (? & _ & _). unfold apart, piece_of. cbn. lia.
Qed.

(** ** [place] *)

Definition weight (s : ObjSection) : Z := Z.of_nat (length (o_data s)) + Z.max (o_align s) 1.
Definition weights (l : list ObjSection) : Z := foldr (fun s n => weight s + n) 0 l.

Lemma weights_nonneg l : 0 <= weights l.
Proof. induction l as [|s l IH]; cbn [weights foldr]; [done|]. fold (weights l). unfold weight. lia. Qed.

Lemma place_spec kind rest : forall index cursor placed, drop index sections = rest -> Forall (fun s => pow2_align (o_align s)) rest ->
  0 <= cursor -> cursor + weights rest < 2 ^ 62 ->
  exists cursor' new, place kind index rest cursor placed = Some (cursor', placed ++ new) /\ cursor' <= cursor + weights rest /\
    packed cursor new cursor' /\ NoDup new.*1 /\
    forall i, i ∈ new.*1 <-> (index <= i)%nat /\ exists s, sections !! i = Some s /\ o_kind s = kind.
Proof.
  induction rest as [|s rest IH]; intros index cursor placed Hd Ha Hc Hw; cbn [place].
  { exists cursor, []. rewrite app_nil_r. split; [done|]. split; [cbn; lia|]. split; [cbn; lia|]. split; [constructor|].
    intros i. split; [intros H; by apply elem_of_nil in H|]. intros (Hi & s & Hs & _).
    apply (f_equal (fun l => l !! (i - index)%nat)) in Hd. rewrite lookup_drop in Hd. replace (index + (i - index))%nat with i in Hd by lia. by rewrite Hs, lookup_nil in Hd. }
  inversion Ha as [|?? Ha0 Ha']; subst. cbn [weights foldr] in Hw. fold (weights rest) in Hw. pose proof (weights_nonneg rest).
  assert (sections !! index = Some s) as Hs.
  { apply (f_equal (fun l => l !! 0%nat)) in Hd. rewrite lookup_drop in Hd. by rewrite Nat.add_0_r in Hd. }
  assert (drop (S index) sections = rest) as Hd' by (rewrite <- Nat.add_1_r, <- drop_drop, Hd; done).
  unfold weight in Hw. destruct (decide (o_kind s = kind)) as [Hk|Hk].
  - destruct (align_up_spec cursor (o_align s)) as (o & -> & Ho & Hdiv); [lia|done|]. cbn [mbind option_bind].
    unfold checked_add, u64_max. rewrite (proj2 (Z.leb_le _ _)) by lia. cbn [mbind option_bind].
    destruct (IH (S index) (o + Z.of_nat (length (o_data s))) (placed ++ [(index, o)]) Hd' Ha') as (c' & new & -> & Hc' & Hp & Hn & Hi); [lia|lia|].
    exists c', ((index, o) :: new). rewrite <- app_assoc. split; [done|]. cbn [weights foldr]. fold (weights rest). unfold weight.
    split; [lia|]. split; [|split].
    + cbn [packed]. unfold align_of, data_of. rewrite Hs. cbn. split; [lia|done].
    + rewrite fmap_cons. constructor; [|done]. intros (Hlt & _)%Hi. cbn in Hlt. lia.
    + intros i. rewrite fmap_cons, elem_of_cons, Hi. cbn. split.
      * intros [->|(Hlt & ?)]; [split; [lia|by exists s]|]. split; [lia|done].
      * intros (Hle & Hex). destruct (decide (i = index)); [by left|right]. split; [lia|done].
  - destruct (IH (S index) cursor placed Hd' Ha') as (c' & new & -> & Hc' & Hp & Hn & Hi); [lia|lia|].
    exists c', new. split; [done|]. cbn [weights foldr]. fold (weights rest). unfold weight. split; [lia|]. split; [done|]. split; [done|].
    intros i. rewrite Hi. split; intros (Hle & s' & Hs' & Hk'); (split; [|by exists s']); [lia|].
    destruct (decide (i = index)) as [->|]; [congruence|lia].
Qed.

End Layout.

(** ** Trampolines *)

Lemma place_trampolines_spec size names : forall cursor offsets, NoDup names -> 0 <= cursor ->
  cursor + Z.of_nat size * Z.of_nat (length names) < 2 ^ 62 ->
  exists offsets', place_trampolines size names cursor offsets = Some (cursor + Z.of_nat size * Z.of_nat (length names), offsets') /\
    (forall k name, names !! k = Some name -> offsets' !! name = Some (cursor + Z.of_nat size * Z.of_nat k)) /\
    forall name, name ∉ names -> offsets' !! name = offsets !! name.
Proof.
  induction names as [|name names IH]; intros cursor offsets Hn Hc Hb; cbn [place_trampolines].
  { exists offsets. cbn. split; [do 2 f_equal; lia|done]. }
  inversion_clear Hn as [|?? Hni Hn']. cbn [length] in Hb |- *. unfold checked_add, u64_max. rewrite (proj2 (Z.leb_le _ _)) by nia.
  cbn [mbind option_bind]. destruct (IH (cursor + Z.of_nat size) (<[name := cursor]> offsets) Hn') as (offsets' & -> & Hk & Ho); [lia|lia|].
  exists offsets'. split; [do 2 f_equal; lia|]. split.
  - intros [|k] name' E; cbn in E.
    + injection E as <-. rewrite Ho, lookup_insert_eq by done. f_equal. lia.
    + rewrite (Hk k name' E). f_equal. lia.
  - intros name' Hname. apply not_elem_of_cons in Hname as [? ?]. rewrite Ho by done. by rewrite lookup_insert_ne.
Qed.

(** ** [lay_out] *)

Lemma ordpairs_app {A} (R : A -> A -> Prop) a b : ForallOrdPairs R a -> ForallOrdPairs R b ->
  (forall x y, x ∈ a -> y ∈ b -> R x y) -> ForallOrdPairs R (a ++ b).
Proof.
  intros Ha Hb H. induction Ha as [|x a Hx Ha IH]; cbn [app]; [done|]. constructor.
  - apply Forall_app. split; [done|]. apply Forall_forall. intros y Hy%list_elem_of_In. apply H; [by left|done].
  - apply IH. intros x' y Hx' Hy. apply H; [by right|done].
Qed.

Lemma ordpairs_app_inv {A} (R : A -> A -> Prop) a b : ForallOrdPairs R (a ++ b) -> ForallOrdPairs R a.
Proof.
  induction a as [|x a IH]; cbn [app]; intros H; [constructor|]. inversion H as [|?? Hx Ha]; subst.
  apply Forall_app in Hx as [? _]. constructor; [done|by apply IH].
Qed.

Lemma ordpairs_lookup {A} (R : A -> A -> Prop) l k m x y : ForallOrdPairs R l -> (k < m)%nat -> l !! k = Some x -> l !! m = Some y -> R x y.
Proof.
  intros H; revert k m; induction H as [|z l Hz H IH]; intros k m Hkm Hx Hy; [done|]. destruct k as [|k], m as [|m]; try lia; cbn in Hx, Hy.
  - injection Hx as ->. rewrite Forall_forall in Hz. apply Hz, list_elem_of_In. by eapply list_elem_of_lookup_2.
  - apply (IH k m); [lia|done|done].
Qed.

Definition tramp_size (machine : Z) (ext : list string) : nat :=
  match ext with [] => 0%nat | _ :: _ => default 0%nat (trampoline_size machine) end.

Definition tramp_piece (y : Layout) (code : string -> list Z) (name : string) : Piece :=
  (Z.to_nat (default 0 (y_trampolines y !! name)), code name).

(** Every section has one place, aligned; sections and trampolines are disjoint
    and lie in the mapping. *)
Record laid (machine : Z) (obj : ObjectFile) (y : Layout) : Prop := mkLaid {
  la_nodup : NoDup (y_placed y).*1;
  la_all : forall i, i ∈ (y_placed y).*1 <-> (i < length (o_sections obj))%nat;
  la_in : forall p, p ∈ y_placed y ->
    0 <= p.2 /\ p.2 + Z.of_nat (length (data_of (o_sections obj) p.1)) <= y_total y /\ (align_of (o_sections obj) p.1 | p.2);
  la_total : 0 < y_total y < 2 ^ 60;
  la_tramp : forall name, name ∈ ext_branches machine obj -> exists o, y_trampolines y !! name = Some o /\
    0 <= o /\ o + Z.of_nat (tramp_size machine (ext_branches machine obj)) <= y_total y;
  la_supported : ext_branches machine obj = [] \/ is_Some (trampoline_size machine);
  la_apart : forall code : string -> list Z,
    (forall n, n ∈ ext_branches machine obj -> length (code n) = tramp_size machine (ext_branches machine obj)) ->
    ForallOrdPairs apart ((piece_of (o_sections obj) <$> y_placed y) ++ (tramp_piece y code <$> ext_branches machine obj)) }.

Definition fits_layout (machine : Z) (obj : ObjectFile) : Prop :=
  Forall (fun s => pow2_align (o_align s)) (o_sections obj) /\
  4 * weights (o_sections obj) + 16 * Z.of_nat (length (ext_branches machine obj)) + 16 < 2 ^ 60.

Lemma ext_branches_fold machine obj l : forall acc, NoDup acc ->
  let ext := fold_left (fun ext r =>
      if bool_decide (defined_symbols obj !! r_symbol r = None) && needs_trampoline machine (r_type r) && bool_decide (r_symbol r ∉ ext)
      then ext ++ [r_symbol r] else ext) l acc in
  NoDup ext /\ forall n, n ∈ ext <-> n ∈ acc \/ exists r, r ∈ l /\ r_symbol r = n /\ defined_symbols obj !! n = None /\ needs_trampoline machine (r_type r) = true.
Proof.
  induction l as [|r l IH]; intros acc H; cbn [fold_left].
  { split; [done|]. intros n. split; [by left|]. intros [|(r & Hr & _)]; [done|by apply elem_of_nil in Hr]. }
  destruct (_ && _ && _) eqn:E.
  - apply andb_prop in E as [[E1%bool_decide_eq_true E2]%andb_prop E3%bool_decide_eq_true].
    destruct (IH (acc ++ [r_symbol r])) as [Hn Hi].
    { apply list.NoDup_app. split; [done|]. split; [|apply NoDup_singleton]. intros x Hx ->%list_elem_of_singleton. done. }
    split; [done|]. intros n. rewrite Hi, elem_of_app, list_elem_of_singleton. split.
    + intros [[Hx | ->]|(r' & ? & ?)]; [by left| |]; right; [exists r|exists r']; (split; [|done]); [by left|by right].
    + intros [Hx|(r' & [->|?]%elem_of_cons & <- & ?)]; [by left; left|by left; right|]. right. by exists r'.
  - destruct (IH acc H) as [Hn Hi]. split; [done|]. intros n. rewrite Hi. split.
    + intros [Hx|(r' & ? & ?)]; [by left|]. right. exists r'. split; [by right|done].
    + intros [Hx|(r' & [->|?]%elem_of_cons & <- & Hd & Ht)]; [by left| |right; by exists r'].
      rewrite Ht, bool_decide_true in E by done. cbn in E. apply bool_decide_eq_false in E. left. by destruct (decide (r_symbol r ∈ acc)).
Qed.

Lemma ext_branches_nodup machine obj : NoDup (ext_branches machine obj).
Proof. apply (ext_branches_fold machine obj). constructor. Qed.

(** The trampolines are for the undefined symbols that branches refer to. *)
Lemma ext_branches_in machine obj n : n ∈ ext_branches machine obj <->
  exists r, r ∈ concat (o_relocs <$> o_sections obj) /\ r_symbol r = n /\ defined_symbols obj !! n = None /\ needs_trampoline machine (r_type r) = true.
Proof.
  destruct (ext_branches_fold machine obj (concat (o_relocs <$> o_sections obj)) [] ltac:(constructor)) as [_ H]. unfold ext_branches.
  rewrite H. split; [intros [Hn|]; [by apply elem_of_nil in Hn|done]|by right].
Qed.

Lemma trampoline_size_le machine size : trampoline_size machine = Some size -> (size <= 16)%nat.
Proof. unfold trampoline_size. repeat destruct (_ =? _); intros [= <-]; lia. Qed.

(** The trampolines, in a row from [c] on. *)
Lemma tramps_apart y code size c names :
  (forall k name, names !! k = Some name -> y_trampolines y !! name = Some (c + Z.of_nat size * Z.of_nat k)) -> 0 <= c ->
  (forall n, n ∈ names -> length (code n) = size) -> ForallOrdPairs apart (tramp_piece y code <$> names).
Proof.
  revert c; induction names as [|name names IH]; intros c Hk Hc Hl; [constructor|]. rewrite fmap_cons. constructor.
  - apply Forall_fmap, Forall_forall. intros n Hn%list_elem_of_In. pose proof Hn as [k Hnk]%list_elem_of_lookup. unfold apart, tramp_piece. cbn.
    rewrite (Hk 0%nat name), (Hk (S k) n) by done. cbn. rewrite (Hl name) by left. left. nia.
  - apply (IH (c + Z.of_nat size)); [|lia|intros n Hn; apply Hl; by right]. intros k n Hn. rewrite (Hk (S k) n Hn). f_equal. lia.
Qed.

Lemma tramp_supported machine (ext : list string) :
  let slot := match ext with [] => Some 0%nat | _ :: _ => trampoline_size machine end in
  slot = Some (tramp_size machine ext) /\ (tramp_size machine ext <= 16)%nat /\ (ext = [] \/ is_Some (trampoline_size machine))
  \/ ext <> [] /\ trampoline_size machine = None /\ slot = None.
Proof.
  unfold tramp_size. destruct ext; [left; split; [done|split; [lia|by left]]|].
  destruct (trampoline_size machine) eqn:E; [|by right]. left. cbn. split; [done|]. split; [by apply (trampoline_size_le machine)|by right].
Qed.

Lemma lay_out_spec machine obj : fits_layout machine obj ->
  (ext_branches machine obj <> [] /\ trampoline_size machine = None /\ lay_out machine obj = Some (Err (RelocUnsupported machine 0))) \/
  exists y, lay_out machine obj = Some (Ok y) /\ laid machine obj y.
Proof.
  intros [Ha Hb]. pose proof (weights_nonneg (o_sections obj)) as Hw. unfold lay_out.
  set (ext := ext_branches machine obj) in *. set (ss := o_sections obj) in *.
  destruct (place_spec ss Text ss 0 0 [] (drop_0 _) Ha ltac:(done) ltac:(lia)) as (c1 & texts & -> & Hc1 & Hp1 & Hn1 & Hi1).
  cbn [mbind option_bind app]. pose proof (packed_le ss _ _ _ Hp1).
  destruct (tramp_supported machine ext) as [(-> & Hsize & Hsup)|(Hne & Hnone & ->)]; [right|by left].
  set (size := tramp_size machine ext) in *.
  destruct (align_up_spec c1 16) as (c2 & Hc2 & Hc2' & _); [lia|right; exists 4; done|].
  change (Z.max 16 1) with 16 in *. rewrite Hc2. cbn [mbind option_bind].
  destruct (place_trampolines_spec size ext c2 ∅ (ext_branches_nodup machine obj)) as (tr & -> & Htr & _); [lia|nia|]. cbn [mbind option_bind].
  set (c3 := c2 + _). assert (c2 <= c3 <= c2 + 16 * Z.of_nat (length ext)) as Hc3 by (subst c3; nia).
  destruct (place_spec ss ReadOnlyData ss 0 c3 texts (drop_0 _) Ha ltac:(lia) ltac:(lia)) as (c4 & rods & -> & Hc4 & Hp4 & Hn4 & Hi4).
  cbn [mbind option_bind]. pose proof (packed_le ss _ _ _ Hp4).
  destruct (place_spec ss Data ss 0 c4 (texts ++ rods) (drop_0 _) Ha ltac:(lia) ltac:(lia)) as (c5 & datas & -> & Hc5 & Hp5 & Hn5 & Hi5).
  cbn [mbind option_bind]. pose proof (packed_le ss _ _ _ Hp5).
  destruct (place_spec ss UninitializedData ss 0 c5 ((texts ++ rods) ++ datas) (drop_0 _) Ha ltac:(lia) ltac:(lia)) as (c6 & bss & -> & Hc6 & Hp6 & Hn6 & Hi6).
  cbn [mbind option_bind]. pose proof (packed_le ss _ _ _ Hp6).
  eexists. split; [done|]. rewrite <- !app_assoc. set (highs := rods ++ datas ++ bss).
  assert (packed ss c3 highs c6) as Hhigh by (eapply packed_app; [done|by eapply packed_app]).
  assert (packed ss 0 (texts ++ highs) c6) as Hall by (eapply packed_app; [done|by eapply packed_weaken; [|exact Hhigh]; lia]).
  assert (forall p, p ∈ texts ++ highs -> p.2 + Z.of_nat (length (data_of ss p.1)) <= c1 \/ c3 <= p.2) as Hside.
  { intros p [Hp|Hp]%elem_of_app; [left; by apply (packed_in _ _ _ _ _ Hp1 Hp)|right; by apply (packed_in _ _ _ _ _ Hhigh Hp)]. }
  assert (forall k name, ext !! k = Some name -> tr !! name = Some (c2 + Z.of_nat size * Z.of_nat k) /\
    c2 + Z.of_nat size * Z.of_nat k + Z.of_nat size <= c3) as Htr'.
  { intros k name Hk. split; [by apply Htr|]. apply lookup_lt_Some in Hk. subst c3. nia. }
  split; cbn [y_placed y_trampolines y_total]; fold ss ext size.
  - unfold highs. rewrite !fmap_app. apply list.NoDup_app. split; [done|]. split; [|apply list.NoDup_app; split; [done|split; [|apply list.NoDup_app; split; [done|split; [|done]]]]];
      intros i Hi; rewrite ?elem_of_app, ?Hi4, ?Hi5, ?Hi6.
    + apply Hi1 in Hi as (_ & s & Hs & Hk). intros [(_ & s' & ? & ?)|[(_ & s' & ? & ?)|(_ & s' & ? & ?)]]; congruence.
    + apply Hi4 in Hi as (_ & s & Hs & Hk). intros [(_ & s' & ? & ?)|(_ & s' & ? & ?)]; congruence.
    + apply Hi5 in Hi as (_ & s & Hs & Hk). intros (_ & s' & ? & ?); congruence.
  - intros i. unfold highs. rewrite !fmap_app, !elem_of_app, Hi1, Hi4, Hi5, Hi6. rewrite <- lookup_lt_is_Some. split.
    + intros [(_ & s & Hs & _)|[(_ & s & Hs & _)|[(_ & s & Hs & _)|(_ & s & Hs & _)]]]; by exists s.
    + intros [s Hs]. destruct (o_kind s) eqn:Hk; [left|right; left|right; right; left|right; right; right]; (split; [lia|by exists s]).
  - intros p Hp. destruct (packed_in _ _ _ _ _ Hall Hp) as (? & ? & ?). repeat split; [done|lia|done].
  - lia.
  - intros name [k Hk]%list_elem_of_lookup. destruct (Htr' k name Hk) as [-> ?]. eexists. split; [done|]. lia.
  - done.
  - intros code Hcode. apply ordpairs_app.
    + by eapply packed_apart; [|exact Hall].
    + apply (tramps_apart _ code size c2); [intros k name Hk; by apply Htr'|lia|done].
    + intros x t (p & -> & Hp)%list_elem_of_fmap (name & -> & Hname)%list_elem_of_fmap. pose proof (Hcode name Hname) as Hl.
      apply list_elem_of_lookup in Hname as [k Hk]. destruct (Htr' k name Hk) as [Hk' ?].
      destruct (packed_in _ _ _ _ _ Hall Hp) as (? & _ & _).
      unfold apart, piece_of, tramp_piece. cbn [fst snd y_trampolines]. rewrite Hk', Hl. cbn [default from_option id].
      destruct (Hside p Hp); [left|right]; lia.
Qed.
