(* ===== verification/JitTheorems.v ===== *)
(** * What the JIT loader guarantees

    [load] either builds an image in which every section is at an aligned
    place, every relocated field reaches its symbol and every trampoline jumps
    to its host function, or it returns an error that states the reason; it does
    not panic and does not write outside the mapping ([load_relocates]). *)
From Stdlib Require Import String.
From stdpp Require Import strings.
From S2P Require Import Prelude Words ObjFile Jit JitReloc.
#[local] Open Scope Z_scope.
#[local] Open Scope list_scope.

Section Load.
Context (machine : Z) (obj : ObjectFile) (host : gmap string Z) (base : Z).

(** ** The specification *)

Definition reloc_ok (len : nat) (r : ObjReloc) : Prop :=
  0 <= r_offset r /\ r_offset r + 4 <= Z.of_nat len /\ - 2 ^ 60 <= r_addend r < 2 ^ 60.
Definition sites_apart (a b : ObjReloc) : Prop := r_offset a + 4 <= r_offset b \/ r_offset b + 4 <= r_offset a.

(** Alignments are powers of two, relocated words are inside their section and
    do not overlap, and sizes and addresses leave room below [2 ^ 63]. *)
Record object_ok : Prop := mkObjectOk {
  ok_layout : fits_layout machine obj;
  ok_relocs : Forall (fun s => Forall (reloc_ok (length (o_data s))) (o_relocs s) /\ ForallOrdPairs sites_apart (o_relocs s)) (o_sections obj);
  ok_values : Forall (fun s => 0 <= y_value s < 2 ^ 60) (o_symbols obj);
  ok_hosts : map_Forall (fun _ a => 0 <= a < 2 ^ 62) host;
  ok_base : 0 <= base < 2 ^ 60 }.

(** The address a symbol is loaded at. *)
Definition address (y : Layout) (s : ObjSymbol) : option Z :=
  sec ← y_section s; o ← section_offset (y_placed y) sec; Some (base + o + y_value s).

(** The address a relocation refers to. *)
Definition target (y : Layout) (r : ObjReloc) : option Z :=
  match defined_symbols obj !! r_symbol r with
  | Some s => address y s
  | None => if needs_trampoline machine (r_type r) then o ← y_trampolines y !! r_symbol r; Some (base + o) else host !! r_symbol r
  end.

(** [word'] is [word] with its field reaching the target. *)
Definition reaches (y : Layout) (o : Z) (r : ObjReloc) (word word' : Z) : Prop :=
  exists f s, target y r = Some s /\ field_of machine (r_type r) = Some f /\
    let d := s + r_addend r - (base + o + r_offset r) in f_fits f d = true /\ fills f d word word'.

(** A global definition of a name wins over local ones, the last of them;
    without one it is the first definition. *)
Definition definitions (n : string) (l : list ObjSymbol) : list ObjSymbol :=
  base.filter (fun s => y_name s = n /\ is_Some (y_section s)) l.
Definition globals (n : string) (l : list ObjSymbol) : list ObjSymbol :=
  base.filter (fun s => y_name s = n /\ is_Some (y_section s) /\ y_binding s = Global) l.
Definition exported (n : string) (l : list ObjSymbol) : option ObjSymbol :=
  match list.last (globals n l) with Some g => Some g | None => head (definitions n l) end.

Record loaded_by (y : Layout) (l : Loaded) : Prop := mkLoadedBy {
  lo_laid : laid machine obj y;
  lo_length : length (l_image l) = Z.to_nat (y_total y);
  lo_data : forall i s o j, o_sections obj !! i = Some s -> (i, o) ∈ y_placed y -> (j < length (o_data s))%nat ->
    Forall (fun r => (j < Z.to_nat (r_offset r) \/ Z.to_nat (r_offset r) + 4 <= j)%nat) (o_relocs s) ->
    l_image l !! (Z.to_nat o + j)%nat = o_data s !! j;
  lo_relocs : forall i s o, o_sections obj !! i = Some s -> (i, o) ∈ y_placed y ->
    Forall (fun r => reaches y o r (word_at (o_data s) (Z.to_nat (r_offset r))) (word_at (l_image l) (Z.to_nat (o + r_offset r)))) (o_relocs s);
  lo_tramps : forall n, n ∈ ext_branches machine obj -> exists a code o, host !! n = Some a /\ trampoline machine a = Ok code /\
    y_trampolines y !! n = Some o /\ piece_in (l_image l) (Z.to_nat o, code);
  lo_symbols : forall n, l_symbols l !! n = exported n (o_symbols obj) ≫= address y }.

Definition is_reloc (r : ObjReloc) : Prop := r ∈ concat (o_relocs <$> o_sections obj).

Inductive load_error : JitError -> Prop :=
  | err_unplaced s sec : s ∈ o_symbols obj -> y_section s = Some sec -> (length (o_sections obj) <= sec)%nat -> load_error (unplaced (y_name s))
  | err_unresolved r : is_reloc r -> defined_symbols obj !! r_symbol r = None -> host !! r_symbol r = None -> load_error (UnresolvedSymbol (r_symbol r))
  | err_no_trampolines : ext_branches machine obj <> [] -> trampoline_size machine = None -> load_error (RelocUnsupported machine 0)
  | err_unsupported r : is_reloc r -> field_of machine (r_type r) = None -> load_error (RelocUnsupported machine (r_type r))
  | err_range y i s o r f t : laid machine obj y -> o_sections obj !! i = Some s -> (i, o) ∈ y_placed y -> r ∈ o_relocs s ->
      target y r = Some t -> field_of machine (r_type r) = Some f -> f_fits f (t + r_addend r - (base + o + r_offset r)) = false ->
      load_error (RelocRange (r_type r) (t + r_addend r - (base + o + r_offset r))).

(** ** Relocating as one pass over all sites *)

Notation Site := (Z * ObjReloc)%type.

Fixpoint patch_all (y : Layout) (sites : list Site) (image : list Z) : option (result (list Z) JitError) :=
  match sites with
  | [] => Some (Ok image)
  | (o, r) :: sites =>
      p ← checked_add (base + o) (r_offset r);
      s <-? resolve_symbol machine (r_type r) (r_symbol r) obj y base host;
      image <-? apply machine (r_type r) image (Z.to_nat (p - base)) s p (r_addend r);
      patch_all y sites image
  end.

Fixpoint sites_from (y : Layout) (index : nat) (sections : list ObjSection) : list Site :=
  match sections with
  | [] => []
  | s :: sections => from_option (fun o => pair o <$> o_relocs s) [] (section_offset (y_placed y) index) ++ sites_from y (S index) sections
  end.

Lemma patch_all_app y a b image : patch_all y (a ++ b) image = try_bind (patch_all y a image) (patch_all y b).
Proof.
  revert image; induction a as [|[o r] a IH]; intros image; [done|]. cbn [app patch_all].
  destruct (checked_add _ _); [|done]. cbn [mbind option_bind]. rewrite try_bind_assoc.
  destruct (resolve_symbol _ _ _ _ _ _ _) as [[s|]|]; [|done|done]. cbn [try_bind mbind option_bind]. rewrite try_bind_assoc.
  destruct (apply _ _ _ _ _ _ _) as [[image'|]|]; [|done|done]. apply IH.
Qed.

Lemma relocate_section_patch y o relocs image :
  relocate_section machine obj y base host o relocs image = patch_all y (pair o <$> relocs) image.
Proof.
  revert image; induction relocs as [|r relocs IH]; intros image; [done|]. cbn [relocate_section fmap list_fmap patch_all].
  destruct (checked_add _ _); [|done]. cbn. destruct (resolve_symbol _ _ _ _ _ _ _) as [[s|]|]; [|done|done]. cbn.
  destruct (apply _ _ _ _ _ _ _) as [[image'|]|]; [|done|done]. apply IH.
Qed.

Lemma relocate_patch y sections : forall index image,
  relocate machine obj y base host index sections image = patch_all y (sites_from y index sections) image.
Proof.
  induction sections as [|s sections IH]; intros index image; [done|]. cbn [relocate sites_from].
  destruct (section_offset _ _) as [o|]; [|apply IH]. cbn [from_option]. rewrite patch_all_app, <- relocate_section_patch.
  unfold try_bind. destruct (relocate_section _ _ _ _ _ _ _ _) as [[image'|]|]; [apply IH|done|done].
Qed.

(** ** Applying all relocations *)

Lemma as_i64_small x : 0 <= x < 2 ^ 63 -> as_i64 x = x.
Proof. intros. unfold as_i64. by rewrite (proj2 (Z.ltb_lt _ _)) by lia. Qed.

Lemma displacement_small s p a : 0 <= s < 2 ^ 62 -> 0 <= p < 2 ^ 62 -> - 2 ^ 60 <= a < 2 ^ 60 -> displacement s p a = Some (s + a - p).
Proof.
  intros. unfold displacement. rewrite !as_i64_small by lia. unfold i64.
  rewrite (proj2 (Z.leb_le _ _)), (proj2 (Z.ltb_lt _ _)) by lia. cbn [andb mbind option_bind].
  by rewrite (proj2 (Z.leb_le _ _)), (proj2 (Z.ltb_lt _ _)) by lia.
Qed.

Definition site_of (st : Site) : nat := Z.to_nat (st.1 + r_offset st.2).
Definition off_site (i : nat) (st : Site) : Prop := (i < site_of st \/ site_of st + 4 <= i)%nat.
Definition apart_sites (a b : Site) : Prop := (site_of a + 4 <= site_of b \/ site_of b + 4 <= site_of a)%nat.

(** A site of the object, inside an image of [len] bytes. *)
Definition site_ok (y : Layout) (len : nat) (st : Site) : Prop :=
  (exists i s, o_sections obj !! i = Some s /\ (i, st.1) ∈ y_placed y /\ st.2 ∈ o_relocs s) /\
  0 <= st.1 /\ 0 <= r_offset st.2 /\ st.1 + r_offset st.2 + 4 <= Z.of_nat len /\ - 2 ^ 60 <= r_addend st.2 < 2 ^ 60.

Definition resolves (y : Layout) (r : ObjReloc) : Prop :=
  match resolve_symbol machine (r_type r) (r_symbol r) obj y base host with
  | Some (Ok t) => target y r = Some t /\ 0 <= t < 2 ^ 62
  | Some (Err e) => load_error e
  | None => False
  end.

Lemma site_is_reloc y len st : site_ok y len st -> is_reloc st.2.
Proof.
  intros [(i & s & Hs & _ & Hr) _]. unfold is_reloc. rewrite list_elem_of_In, in_concat. exists (o_relocs s).
  rewrite <- !list_elem_of_In, list_elem_of_fmap. split; [|done]. exists s. split; [done|]. by eapply list_elem_of_lookup_2.
Qed.

Lemma patch_all_spec y sites : 0 <= base < 2 ^ 60 -> laid machine obj y -> forall image, Z.of_nat (length image) <= 2 ^ 60 ->
  Forall (site_ok y (length image)) sites -> ForallOrdPairs apart_sites sites -> Forall (fun st => resolves y st.2) sites ->
  match patch_all y sites image with
  | Some (Ok image') => length image' = length image /\
      Forall (fun st => reaches y st.1 st.2 (word_at image (site_of st)) (word_at image' (site_of st))) sites /\
      forall i, Forall (off_site i) sites -> image' !! i = image !! i
  | Some (Err e) => load_error e
  | None => False
  end.
Proof.
  intros Hbase Hlaid. induction sites as [|[o r] sites IH]; intros image Hlen Hok Hap Hres; [done|].
  inversion Hok as [|?? Hst Hok']; subst. inversion Hap as [|?? Hap0 Hap']; subst. inversion Hres as [|?? Hr Hres']; subst.
  pose proof (site_is_reloc _ _ _ Hst) as His. destruct Hst as ((i & s & Hs & Hp & Hin) & Ho & Hr0 & Hr1 & Hadd). cbn [fst snd] in *. cbn [patch_all].
  unfold checked_add, u64_max. rewrite (proj2 (Z.leb_le _ _)) by lia. cbn [mbind option_bind].
  unfold resolves in Hr. destruct (resolve_symbol _ _ _ _ _ _ _) as [[t|e]|]; [|done|done]. destruct Hr as [Ht Htr]. cbn [try_bind mbind option_bind].
  replace (base + o + r_offset r - base) with (o + r_offset r) by lia. change (Z.to_nat (o + r_offset r)) with (site_of (o, r)).
  assert (site_of (o, r) + 4 <= length image)%nat as Hsite by (unfold site_of; cbn; lia).
  pose proof (apply_fills machine (r_type r) image (site_of (o, r)) t (base + o + r_offset r) (r_addend r) _ Hsite
    (displacement_small t (base + o + r_offset r) (r_addend r) ltac:(lia) ltac:(lia) Hadd)) as Ha.
  destruct (field_of machine (r_type r)) as [f|] eqn:Hf; [|rewrite Ha; cbn; by apply err_unsupported].
  destruct (f_fits f _) eqn:Hfit; [|rewrite Ha; cbn; by eapply err_range].
  destruct Ha as (w & Hw & ->). cbn [try_bind mbind option_bind]. set (image1 := patched image (site_of (o, r)) w) in *.
  assert (length image1 = length image) as Hl1 by (by apply length_patched).
  specialize (IH image1). rewrite Hl1 in IH. specialize (IH Hlen Hok' Hap' Hres').
  destruct (patch_all y sites image1) as [[image'|e]|]; [|done|done]. destruct IH as (Hl' & Hall & Hout). split; [done|]. split.
  - constructor; cbn [fst snd].
    + exists f, t. split; [done|]. split; [done|]. cbn. split; [done|].
      replace (word_at image' (site_of (o, r))) with w; [done|]. rewrite (word_at_ext image' image1).
      * symmetry. apply word_at_patched; [done|by apply Hw].
      * intros k Hk. apply Hout. revert Hap0. apply Forall_impl. intros st. unfold apart_sites, off_site. lia.
    + rewrite Forall_forall in Hall, Hap0 |- *. intros st Hin'. pose proof (Hap0 st Hin') as Hap_st. specialize (Hall st Hin').
      rewrite (word_at_ext image1 image) in Hall; [done|]. intros k Hk. apply patched_lookup; [done|]. unfold apart_sites in Hap_st. lia.
  - intros k Hk. inversion Hk as [|?? Hk0 Hk']; subst. rewrite Hout by done. apply patched_lookup; [done|]. unfold off_site in Hk0. lia.
Qed.
(** ** Symbols *)

Lemma section_offset_in (placed : list Placed) i o : NoDup placed.*1 -> (i, o) ∈ placed -> section_offset placed i = Some o.
Proof.
  unfold section_offset. induction placed as [|[j o'] placed IH]; intros Hn Hin; [by apply elem_of_nil in Hin|].
  rewrite fmap_cons in Hn. inversion_clear Hn as [|?? Hj Hn']. cbn [List.find fst]. apply elem_of_cons in Hin as [[= -> ->]|Hin].
  - by rewrite Nat.eqb_refl.
  - destruct (Nat.eqb_spec j i) as [->|]; [|by apply IH]. exfalso. apply Hj. apply list_elem_of_fmap. by exists (i, o).
Qed.

Lemma section_offset_out (placed : list Placed) i o : section_offset placed i = Some o -> (i, o) ∈ placed.
Proof.
  unfold section_offset. destruct (List.find _ placed) as [[j o']|] eqn:E; [|done]. cbn. intros [= ->].
  apply List.find_some in E as [Hin Hj%Nat.eqb_eq]. cbn in Hj. subst j. by apply list_elem_of_In.
Qed.

Lemma section_placed y i : laid machine obj y -> (i < length (o_sections obj))%nat -> exists o, section_offset (y_placed y) i = Some o.
Proof.
  intros [Hn Hall _ _ _ _ _] Hi%Hall. apply list_elem_of_fmap in Hi as ([j o] & -> & Hin). exists o. by apply section_offset_in.
Qed.

Lemma section_unplaced y i : laid machine obj y -> section_offset (y_placed y) i = None -> (length (o_sections obj) <= i)%nat.
Proof. intros Hl E. destruct (Nat.lt_ge_cases i (length (o_sections obj))) as [Hi|]; [|done]. destruct (section_placed y i Hl Hi) as [o Ho]. congruence. Qed.

Lemma place_bounds y i o : laid machine obj y -> section_offset (y_placed y) i = Some o -> 0 <= o < 2 ^ 60.
Proof. intros [_ _ Hin Ht _ _ _] H%section_offset_out%Hin. cbn in H. lia. Qed.

Lemma defined_fold l : forall m : gmap string ObjSymbol, (forall n s, m !! n = Some s -> s ∈ o_symbols obj /\ y_name s = n /\ is_Some (y_section s)) ->
  (forall s, s ∈ l -> s ∈ o_symbols obj) ->
  forall n s, fold_left (fun m s => match y_section s with Some _ => <[y_name s := s]> m | None => m end) l m !! n = Some s ->
  s ∈ o_symbols obj /\ y_name s = n /\ is_Some (y_section s).
Proof.
  induction l as [|x l IH]; intros m Hm Hl n s E; cbn [fold_left] in E; [by apply Hm|].
  eapply IH; [|intros; apply Hl; by right|exact E]. intros n' s' H. destruct (y_section x) eqn:Ex; [|by apply Hm].
  apply lookup_insert_Some in H as [[<- <-]|[_ H]]; [|by apply Hm]. split; [apply Hl; by left|]. by rewrite Ex.
Qed.

Lemma defined_in n s : defined_symbols obj !! n = Some s -> s ∈ o_symbols obj /\ y_name s = n /\ is_Some (y_section s).
Proof. apply defined_fold; [|done]. intros ? ? H. by rewrite lookup_empty in H. Qed.

(** Every defined symbol is in a section of the object. *)
Definition symbols_placed : Prop := forall s sec, s ∈ o_symbols obj -> y_section s = Some sec -> (sec < length (o_sections obj))%nat.

Lemma value_bound s : object_ok -> s ∈ o_symbols obj -> 0 <= y_value s < 2 ^ 60.
Proof. intros H Hs. pose proof (ok_values H) as Hv. rewrite Forall_forall in Hv. apply Hv. by apply list_elem_of_In. Qed.

Lemma symbol_addr_spec y s sec : object_ok -> laid machine obj y -> s ∈ o_symbols obj -> y_section s = Some sec ->
  match section_offset (y_placed y) sec with
  | Some o => address y s = Some (base + o + y_value s) /\ 0 <= base + o + y_value s < 2 ^ 62 /\
      symbol_addr (y_placed y) base s sec = Some (Ok (base + o + y_value s))
  | None => symbol_addr (y_placed y) base s sec = Some (Err (unplaced (y_name s))) /\ (length (o_sections obj) <= sec)%nat
  end.
Proof.
  intros Hok Hl Hs Hsec. pose proof (value_bound s Hok Hs). pose proof (ok_base Hok). unfold symbol_addr, address. rewrite Hsec. cbn [mbind option_bind].
  destruct (section_offset _ _) as [o|] eqn:E; [|by split; [|by apply (section_unplaced y)]].
  pose proof (place_bounds _ _ _ Hl E). cbn [mbind option_bind]. split; [done|]. split; [lia|]. unfold checked_add, u64_max.
  by rewrite (proj2 (Z.leb_le _ _)) by lia.
Qed.

Lemma resolves_ok y r : object_ok -> laid machine obj y -> symbols_placed -> is_reloc r -> resolves y r.
Proof.
  intros Hok Hl Hpl Hr. unfold resolves, resolve_symbol, target. destruct (defined_symbols obj !! r_symbol r) as [s|] eqn:Ed.
  - destruct (defined_in _ _ Ed) as (Hs & _ & [sec Hsec]). rewrite Hsec. cbn [mbind option_bind].
    pose proof (symbol_addr_spec y s sec Hok Hl Hs Hsec) as Ha. destruct (section_offset _ _) as [o|] eqn:Eo.
    + destruct Ha as (-> & ? & ->). done.
    + destruct Ha as [_ ?]. pose proof (Hpl s sec Hs Hsec). lia.
  - destruct (needs_trampoline machine (r_type r)) eqn:Et.
    + destruct (la_tramp _ _ _ Hl (r_symbol r)) as (o & Ho & ? & ?); [apply ext_branches_in; by exists r|].
      rewrite Ho. cbn [mbind option_bind]. split; [done|]. pose proof (la_total _ _ _ Hl). pose proof (ok_base Hok). lia.
    + destruct (host !! r_symbol r) as [a|] eqn:Eh; [|by apply err_unresolved]. split; [done|]. by apply (ok_hosts Hok _ _ Eh).
Qed.
Lemma globals_cons n x l : globals n (x :: l) =
  if bool_decide (y_name x = n /\ is_Some (y_section x) /\ y_binding x = Global) then x :: globals n l else globals n l.
Proof. unfold globals. rewrite filter_cons. by case_decide; case_bool_decide. Qed.

Lemma definitions_cons n x l : definitions n (x :: l) =
  if bool_decide (y_name x = n /\ is_Some (y_section x)) then x :: definitions n l else definitions n l.
Proof. unfold definitions. rewrite filter_cons. by case_decide; case_bool_decide. Qed.

(** The table after some symbols, from the table before them. *)
Definition table_after (y : Layout) (l : list ObjSymbol) (table t : gmap string Z) : Prop :=
  forall n, t !! n =
    match list.last (globals n l) with
    | Some g => address y g
    | None => match table !! n with Some a => Some a | None => head (definitions n l) ≫= address y end
    end.

Lemma table_after_step y x l table t sec a : y_section x = Some sec -> address y x = Some a ->
  table_after y l (if match y_binding x with Global => true | Local => bool_decide (table !! y_name x = None) end then <[y_name x := a]> table else table) t ->
  table_after y (x :: l) table t.
Proof.
  intros Hsec Ha IH n. specialize (IH n). rewrite globals_cons, definitions_cons. destruct (decide (y_name x = n)) as [Hn|Hn].
  - rewrite (bool_decide_true (y_name x = n /\ is_Some _)) by (rewrite Hsec; by split). rewrite Hn in IH. cbn [head]. destruct (y_binding x).
    + rewrite bool_decide_false by naive_solver. rewrite IH. destruct (list.last (globals n l)); [done|].
      destruct (table !! n) as [a'|] eqn:Et; [rewrite bool_decide_false, Et by done; done|]. rewrite bool_decide_true, lookup_insert_eq by done. by cbn.
    + rewrite bool_decide_true by (rewrite Hsec; by repeat split). rewrite last_cons, IH, lookup_insert_eq. by destruct (list.last (globals n l)).
  - rewrite !bool_decide_false by naive_solver. rewrite IH. destruct (list.last (globals n l)); [done|].
    assert ((if match y_binding x with Global => true | Local => bool_decide (table !! y_name x = None) end then <[y_name x := a]> table else table) !! n = table !! n) as ->; [|done].
    destruct (match y_binding x with Global => true | Local => _ end); [by rewrite lookup_insert_ne|done].
Qed.

Lemma symbol_table_spec y l : object_ok -> laid machine obj y -> (forall s, s ∈ l -> s ∈ o_symbols obj) -> forall table,
  match symbol_table (y_placed y) base l table with
  | Some (Ok t) => (forall s sec, s ∈ l -> y_section s = Some sec -> (sec < length (o_sections obj))%nat) /\ table_after y l table t
  | Some (Err e) => load_error e
  | None => False
  end.
Proof.
  intros Hok Hl. induction l as [|x l IH]; intros Hin table; cbn [symbol_table].
  { split; [intros s sec H; by apply elem_of_nil in H|]. intros n. cbn. by destruct (table !! n). }
  specialize (IH (fun s Hs => Hin s (list_elem_of_further s x l Hs))). destruct (y_section x) as [sec|] eqn:Hsec.
  - pose proof (symbol_addr_spec y x sec Hok Hl (Hin x (list_elem_of_here x l)) Hsec) as Hx.
    destruct (section_offset _ _) as [o|] eqn:Eo.
    + destruct Hx as (Ha & _ & ->). cbn [try_bind mbind option_bind]. specialize (IH (if match y_binding x with Global => true | Local => bool_decide (table !! y_name x = None) end then <[y_name x := base + o + y_value x]> table else table)).
      destruct (symbol_table _ _ _ _) as [[t|]|]; [|done|done]. destruct IH as [Hpl IH]. split; [|by eapply table_after_step].
      intros s sec' [->|Hs]%elem_of_cons Hsec'; [|by eapply Hpl].
      assert (sec' = sec) as -> by congruence. apply (la_all _ _ _ Hl). apply section_offset_out in Eo. apply list_elem_of_fmap. by exists (sec, o).
    + destruct Hx as [-> Hsec']. cbn. by eapply err_unplaced; [apply Hin; left|exact Hsec|].
  - specialize (IH table). destruct (symbol_table _ _ _ _) as [[t|]|]; [|done|done]. destruct IH as [Hpl IH]. split.
    + intros s sec' [->|Hs]%elem_of_cons Hsec'; [congruence|by eapply Hpl].
    + intros n. assert (~ is_Some (y_section x)) as Hno by (rewrite Hsec; apply is_Some_None).
      rewrite globals_cons, definitions_cons, !bool_decide_false by tauto. apply IH.
Qed.
(** ** Filling the mapping *)

Lemma copy_sections_all placed : (forall p, p ∈ placed -> (p.1 < length (o_sections obj))%nat) ->
  forall image, copy_sections (o_sections obj) placed image = copy_all image (piece_of (o_sections obj) <$> placed).
Proof.
  induction placed as [|[i o] placed IH]; intros Hin image; [done|]. cbn [copy_sections fmap list_fmap copy_all piece_of fst snd].
  destruct (lookup_lt_is_Some_2 (o_sections obj) i (Hin (i, o) (list_elem_of_here _ _))) as [s Hs]. unfold data_of. rewrite Hs. cbn [mbind option_bind from_option].
  destruct (copy_at _ _ _); [|done]. cbn. apply IH. intros p Hp. apply Hin. by right.
Qed.

Lemma copy_all_app a b image : copy_all image (a ++ b) = (copy_all image a ≫= fun image => copy_all image b).
Proof. revert image; induction a as [|[o d] a IH]; intros image; [done|]. cbn [app copy_all]. destruct (copy_at _ _ _); [apply IH|done]. Qed.

(** The code of a trampoline to a host symbol. *)
Definition tramp_code (n : string) : list Z :=
  match host !! n with Some a => match trampoline machine a with Ok code => code | Err _ => [] end | None => [] end.

Lemma trampoline_ok size a : trampoline_size machine = Some size -> exists code, trampoline machine a = Ok code /\ length code = size.
Proof.
  unfold trampoline_size, trampoline. destruct (_ =? EM_X86_64); [intros [= <-]; by eexists|].
  destruct (_ =? EM_AARCH64); [intros [= <-]; by eexists|done].
Qed.

Lemma emit_spec y size names : trampoline_size machine = Some size -> forall image,
  (forall n, n ∈ names -> exists o, y_trampolines y !! n = Some o /\ 0 <= o /\ o + Z.of_nat size <= Z.of_nat (length image)) ->
  match emit_trampolines machine host (y_trampolines y) names image with
  | Some (Ok image') => (forall n, n ∈ names -> is_Some (host !! n)) /\ copy_all image (tramp_piece y tramp_code <$> names) = Some image'
  | Some (Err e) => exists n, n ∈ names /\ host !! n = None /\ e = UnresolvedSymbol n
  | None => False
  end.
Proof.
  intros Hsize. induction names as [|n names IH]; intros image Hin; cbn [emit_trampolines].
  { split; [intros n H; by apply elem_of_nil in H|done]. }
  destruct (host !! n) as [a|] eqn:Hh; [|exists n; by split; [left|]].
  destruct (trampoline_ok size a Hsize) as (code & Hc & Hl). rewrite Hc. destruct (Hin n (list_elem_of_here _ _)) as (o & Ho & ? & ?). rewrite Ho. cbn [mbind option_bind].
  destruct (copy_at_spec image (Z.to_nat o) code) as (image1 & E1 & Hl1 & _); [lia|]. rewrite E1.
  specialize (IH image1). rewrite Hl1 in IH. specialize (IH (fun n' H => Hin n' (list_elem_of_further _ _ _ H))).
  assert (tramp_piece y tramp_code n = (Z.to_nat o, code)) as Ep by (unfold tramp_piece, tramp_code; by rewrite Ho, Hh, Hc).
  cbn [fmap list_fmap copy_all]. rewrite Ep, E1. cbn [mbind option_bind]. destruct (emit_trampolines _ _ _ _ _) as [[image'|e]|]; [| |done].
  - destruct IH as [Hall Hcopy]. split; [|done]. intros n' [->|Hn']%elem_of_cons; [by rewrite Hh|by apply Hall].
  - destruct IH as (n' & Hn' & Hh' & ->). exists n'. split; [by right|done].
Qed.
(** ** Sites *)

Lemma places_apart y i j o o' : laid machine obj y -> (i, o) ∈ y_placed y -> (j, o') ∈ y_placed y -> i <> j ->
  apart (piece_of (o_sections obj) (i, o)) (piece_of (o_sections obj) (j, o')).
Proof.
  intros Hl [k Hk]%list_elem_of_lookup [m Hm]%list_elem_of_lookup Hij.
  pose proof (ordpairs_app_inv _ _ _ (la_apart _ _ _ Hl (fun _ => replicate _ 0) (fun _ _ => length_replicate _ _))) as Hap.
  assert (forall k p, y_placed y !! k = Some p -> (piece_of (o_sections obj) <$> y_placed y) !! k = Some (piece_of (o_sections obj) p)) as Hp
    by (intros ? ? E; by rewrite list_lookup_fmap, E).
  assert (k <> m) by congruence. destruct (Nat.lt_ge_cases k m).
  - by apply (ordpairs_lookup _ _ k m _ _ Hap); [|apply Hp|apply Hp].
  - pose proof (ordpairs_lookup _ _ m k _ _ Hap ltac:(lia) (Hp _ _ Hm) (Hp _ _ Hk)) as H'. unfold apart in *. lia.
Qed.

Lemma sites_from_in y o r : forall ss index, drop index (o_sections obj) = ss -> (o, r) ∈ sites_from y index ss ->
  exists i s, (index <= i)%nat /\ o_sections obj !! i = Some s /\ (i, o) ∈ y_placed y /\ r ∈ o_relocs s.
Proof.
  induction ss as [|s ss IH]; intros index Hd H; [by apply elem_of_nil in H|]. cbn [sites_from] in H. apply elem_of_app in H as [H|H].
  - destruct (section_offset _ _) as [o'|] eqn:Eo; [|by apply elem_of_nil in H]. cbn in H. apply list_elem_of_fmap in H as (r' & [= -> ->] & Hr).
    exists index, s. split; [done|]. split; [|by split; [apply section_offset_out|]].
    apply (f_equal (fun l => l !! 0%nat)) in Hd. rewrite lookup_drop, Nat.add_0_r in Hd. done.
  - destruct (IH (S index)) as (i & s' & ? & ?); [by rewrite <- Nat.add_1_r, <- drop_drop, Hd|done|]. exists i, s'. split; [lia|done].
Qed.

Lemma in_sites_from y s o r ss : forall index k, ss !! k = Some s -> section_offset (y_placed y) (index + k) = Some o -> r ∈ o_relocs s ->
  (o, r) ∈ sites_from y index ss.
Proof.
  induction ss as [|s' ss IH]; intros index k Hs Ho Hr; [done|]. cbn [sites_from]. apply elem_of_app. destruct k as [|k]; cbn in Hs.
  - left. injection Hs as ->. rewrite Nat.add_0_r in Ho. rewrite Ho. cbn. apply list_elem_of_fmap. by exists r.
  - right. apply (IH (S index) k Hs); [|done]. by rewrite Nat.add_succ_r in Ho.
Qed.

Lemma relocs_ok i s : object_ok -> o_sections obj !! i = Some s ->
  Forall (reloc_ok (length (o_data s))) (o_relocs s) /\ ForallOrdPairs sites_apart (o_relocs s).
Proof. intros Hok Hs. exact (Forall_lookup_1 _ _ _ _ (ok_relocs Hok) Hs). Qed.

Lemma reloc_in i s r : object_ok -> o_sections obj !! i = Some s -> r ∈ o_relocs s -> reloc_ok (length (o_data s)) r.
Proof. intros Hok Hs Hr. destruct (relocs_ok i s Hok Hs) as [H _]. rewrite Forall_forall in H. by apply H, list_elem_of_In. Qed.

Lemma data_of_at i s : o_sections obj !! i = Some s -> data_of (o_sections obj) i = o_data s.
Proof. intros H. unfold data_of. by rewrite H. Qed.

(** A byte of one section is off the sites of the others. *)
Lemma off_other y i s o j s' o' r k : object_ok -> laid machine obj y -> o_sections obj !! i = Some s -> (i, o) ∈ y_placed y ->
  o_sections obj !! j = Some s' -> (j, o') ∈ y_placed y -> r ∈ o_relocs s' -> i <> j -> (k < length (o_data s))%nat ->
  off_site (Z.to_nat o + k) (o', r).
Proof.
  intros Hok Hl Hs Hp Hs' Hp' Hr Hij Hk. pose proof (places_apart y i j o o' Hl Hp Hp' Hij) as Ha. destruct (reloc_in j s' r Hok Hs' Hr) as (? & ? & _).
  destruct (la_in _ _ _ Hl _ Hp') as (? & _). cbn in *. unfold apart, piece_of, off_site, site_of in *. cbn [fst snd] in *.
  rewrite (data_of_at i s Hs), (data_of_at j s' Hs') in Ha. lia.
Qed.

Lemma sites_all_apart y : object_ok -> laid machine obj y -> forall ss index, drop index (o_sections obj) = ss ->
  ForallOrdPairs apart_sites (sites_from y index ss).
Proof.
  intros Hok Hl. induction ss as [|s ss IH]; intros index Hd; cbn [sites_from]; [constructor|].
  assert (o_sections obj !! index = Some s) as Hs by (apply (f_equal (fun l => l !! 0%nat)) in Hd; rewrite lookup_drop, Nat.add_0_r in Hd; done).
  assert (drop (S index) (o_sections obj) = ss) as Hd' by (by rewrite <- Nat.add_1_r, <- drop_drop, Hd).
  destruct (section_offset _ _) as [o|] eqn:Eo; [|by apply IH]. cbn [from_option]. pose proof (section_offset_out _ _ _ Eo) as Hp.
  pose proof (place_bounds _ _ _ Hl Eo). destruct (relocs_ok index s Hok Hs) as [Hr Ha]. apply ordpairs_app; [|by apply IH|].
  - induction Ha as [|r l Hr0 Ha IHa]; [constructor|]. inversion Hr as [|?? Hr1 Hr']; subst. rewrite fmap_cons. constructor; [|by apply IHa].
    apply Forall_fmap. rewrite Forall_forall in Hr0, Hr' |- *. intros r' Hin. specialize (Hr0 r' Hin). specialize (Hr' r' Hin).
    unfold sites_apart, apart_sites, site_of, reloc_ok in *. cbn. lia.
  - intros st [o' r'] (r & -> & Hrin)%list_elem_of_fmap Hin'. destruct (sites_from_in y o' r' ss (S index) Hd' Hin') as (j & s' & Hj & Hs' & Hp' & Hr').
    destruct (reloc_in index s r Hok Hs Hrin) as (? & ? & _). pose proof (off_other y index s o j s' o' r') as Hoff.
    pose proof (Hoff (Z.to_nat (r_offset r)) Hok Hl Hs Hp Hs' Hp' Hr' ltac:(lia) ltac:(lia)).
    pose proof (Hoff (Z.to_nat (r_offset r) + 3)%nat Hok Hl Hs Hp Hs' Hp' Hr' ltac:(lia) ltac:(lia)).
    unfold off_site, apart_sites, site_of in *. cbn [fst snd] in *. lia.
Qed.
(** ** [load] *)

Lemma tramp_code_length n : is_Some (trampoline_size machine) -> n ∈ ext_branches machine obj -> is_Some (host !! n) ->
  length (tramp_code n) = tramp_size machine (ext_branches machine obj).
Proof.
  intros [size Hsize] Hn [a Ha]. unfold tramp_code, tramp_size. rewrite Ha. destruct (trampoline_ok size a Hsize) as (code & -> & ->).
  rewrite Hsize. destruct (ext_branches machine obj); [by apply elem_of_nil in Hn|done].
Qed.

Lemma emit_branches y image : laid machine obj y -> length image = Z.to_nat (y_total y) ->
  match emit_trampolines machine host (y_trampolines y) (ext_branches machine obj) image with
  | Some (Ok image') => (forall n, n ∈ ext_branches machine obj -> is_Some (host !! n) /\ length (tramp_code n) = tramp_size machine (ext_branches machine obj)) /\
      copy_all image (tramp_piece y tramp_code <$> ext_branches machine obj) = Some image'
  | Some (Err e) => load_error e
  | None => False
  end.
Proof.
  intros Hl Hlen. destruct (la_supported _ _ _ Hl) as [->|Hsup].
  { split; [intros n H; by apply elem_of_nil in H|done]. }
  pose proof Hsup as [size Hsize]. pose proof (la_total _ _ _ Hl).
  assert (forall n, n ∈ ext_branches machine obj -> exists o, y_trampolines y !! n = Some o /\ 0 <= o /\ o + Z.of_nat size <= Z.of_nat (length image)) as Hin.
  { intros n Hn. destruct (la_tramp _ _ _ Hl n Hn) as (o & ? & ? & Hb). exists o. split; [done|]. split; [done|].
    unfold tramp_size in Hb. rewrite Hsize in Hb. destruct (ext_branches machine obj); [by apply elem_of_nil in Hn|]. cbn in Hb. lia. }
  pose proof (emit_spec y size (ext_branches machine obj) Hsize image Hin) as He. destruct (emit_trampolines _ _ _ _ _) as [[image'|e]|]; [| |done].
  - destruct He as [Hall ->]. split; [|done]. intros n Hn. split; [by apply Hall|]. by apply tramp_code_length; [| |apply Hall].
  - destruct He as (n & Hn & Hh & ->). apply ext_branches_in in Hn as (r & Hr & <- & Hd & _). by apply err_unresolved.
Qed.

Lemma pieces_in_bounds y : laid machine obj y ->
  (forall n, n ∈ ext_branches machine obj -> length (tramp_code n) = tramp_size machine (ext_branches machine obj)) ->
  Forall (fun p => p.1 + length p.2 <= Z.to_nat (y_total y))%nat
    ((piece_of (o_sections obj) <$> y_placed y) ++ (tramp_piece y tramp_code <$> ext_branches machine obj)).
Proof.
  intros Hl Hcode. apply Forall_app. split; apply Forall_fmap, Forall_forall.
  - intros p Hp%list_elem_of_In. destruct (la_in _ _ _ Hl p Hp) as (? & ? & _). unfold piece_of. cbn. lia.
  - intros n Hn%list_elem_of_In. destruct (la_tramp _ _ _ Hl n Hn) as (o & Ho & ? & ?). unfold tramp_piece. cbn. rewrite Ho, (Hcode n Hn). cbn. lia.
Qed.

(** The mapping before relocation: sections and trampolines are in place. *)
Lemma filled y : laid machine obj y ->
  match copy_sections (o_sections obj) (y_placed y) (replicate (Z.to_nat (y_total y)) 0) ≫= emit_trampolines machine host (y_trampolines y) (ext_branches machine obj) with
  | Some (Ok image) => length image = Z.to_nat (y_total y) /\ (forall n, n ∈ ext_branches machine obj -> is_Some (host !! n)) /\
      Forall (piece_in image) ((piece_of (o_sections obj) <$> y_placed y) ++ (tramp_piece y tramp_code <$> ext_branches machine obj)) /\
      ForallOrdPairs apart ((piece_of (o_sections obj) <$> y_placed y) ++ (tramp_piece y tramp_code <$> ext_branches machine obj))
  | Some (Err e) => load_error e
  | None => False
  end.
Proof.
  intros Hl. set (image0 := replicate (Z.to_nat (y_total y)) 0). assert (length image0 = Z.to_nat (y_total y)) as Hl0 by apply length_replicate.
  rewrite copy_sections_all.
  2:{ intros p Hp. apply (la_all _ _ _ Hl). apply list_elem_of_fmap. by exists p. }
  destruct (copy_all_spec (piece_of (o_sections obj) <$> y_placed y) image0) as (image1 & E1 & Hl1 & _).
  { exact (ordpairs_app_inv _ _ _ (la_apart _ _ _ Hl (fun _ => replicate _ 0) (fun _ _ => length_replicate _ _))). }
  { rewrite Hl0. apply Forall_fmap, Forall_forall. intros p Hp%list_elem_of_In. destruct (la_in _ _ _ Hl p Hp) as (? & ? & _). unfold piece_of. cbn. lia. }
  rewrite E1. cbn [mbind option_bind]. pose proof (emit_branches y image1 Hl ltac:(congruence)) as He.
  destruct (emit_trampolines _ _ _ _ _) as [[image2|e]|]; [|done|done]. destruct He as [Hall E2].
  assert (forall n, n ∈ ext_branches machine obj -> length (tramp_code n) = tramp_size machine (ext_branches machine obj)) as Hcode by (intros; by apply Hall).
  pose proof (la_apart _ _ _ Hl tramp_code Hcode) as Hap.
  destruct (copy_all_spec _ image0 Hap) as (image' & E & Hl' & Hin & _); [rewrite Hl0; by apply pieces_in_bounds|].
  rewrite copy_all_app, E1 in E. cbn in E. assert (image' = image2) as -> by congruence.
  split; [congruence|]. split; [intros; by apply Hall|done].
Qed.

Lemma all_sites_ok y : object_ok -> laid machine obj y -> Forall (site_ok y (Z.to_nat (y_total y))) (sites_from y 0 (o_sections obj)).
Proof.
  intros Hok Hl. apply Forall_forall. intros [o r] Hin%list_elem_of_In. destruct (sites_from_in y o r _ 0 (drop_0 _) Hin) as (i & s & _ & Hs & Hp & Hr).
  split; [by exists i, s|]. cbn [fst snd]. destruct (reloc_in i s r Hok Hs Hr) as (? & ? & ?). destruct (la_in _ _ _ Hl _ Hp) as (? & Hb & _). cbn [fst snd] in *.
  rewrite (data_of_at i s Hs) in Hb. lia.
Qed.

(** Patching the sites of a filled mapping loads the object. *)
Lemma patched_loads y image image' t : object_ok -> laid machine obj y -> length image = Z.to_nat (y_total y) ->
  (forall n, n ∈ ext_branches machine obj -> is_Some (host !! n)) ->
  Forall (piece_in image) ((piece_of (o_sections obj) <$> y_placed y) ++ (tramp_piece y tramp_code <$> ext_branches machine obj)) ->
  ForallOrdPairs apart ((piece_of (o_sections obj) <$> y_placed y) ++ (tramp_piece y tramp_code <$> ext_branches machine obj)) ->
  length image' = length image ->
  Forall (fun st => reaches y st.1 st.2 (word_at image (site_of st)) (word_at image' (site_of st))) (sites_from y 0 (o_sections obj)) ->
  (forall i, Forall (off_site i) (sites_from y 0 (o_sections obj)) -> image' !! i = image !! i) ->
  table_after y (o_symbols obj) ∅ t -> loaded_by y (mkLoaded image' t).
Proof.
  intros Hok Hl Hlen Hhost Hpieces Hap Hlen' Hreach Hkeep Ht.
  assert (forall i s o j, o_sections obj !! i = Some s -> (i, o) ∈ y_placed y -> (j < length (o_data s))%nat -> image !! (Z.to_nat o + j)%nat = o_data s !! j) as Hdata.
  { intros i s o j Hs Hp Hj. apply Forall_app in Hpieces as [Hpieces _]. rewrite Forall_fmap, Forall_forall in Hpieces.
    pose proof (Hpieces (i, o) (proj1 (list_elem_of_In _ _) Hp) j) as H. cbn [compose piece_of fst snd] in H. rewrite (data_of_at i s Hs) in H. by apply H. }
  split; cbn [l_image l_symbols]; [done|congruence| | | |].
  - intros i s o j Hs Hp Hj Hoff. rewrite Hkeep; [by apply (Hdata i)|]. apply Forall_forall. intros [o' r] Hin%list_elem_of_In.
    destruct (sites_from_in y o' r _ 0 (drop_0 _) Hin) as (i' & s' & _ & Hs' & Hp' & Hr). destruct (decide (i = i')) as [<-|Hne].
    + assert (s' = s) as -> by congruence. assert (o' = o) as ->.
      { pose proof (section_offset_in _ _ _ (la_nodup _ _ _ Hl) Hp). pose proof (section_offset_in _ _ _ (la_nodup _ _ _ Hl) Hp'). congruence. }
      rewrite Forall_forall in Hoff. specialize (Hoff r (proj1 (list_elem_of_In _ _) Hr)). destruct (la_in _ _ _ Hl _ Hp) as (? & _).
      destruct (reloc_in i s r Hok Hs Hr) as (? & ? & _). unfold off_site, site_of. cbn [fst snd] in *. lia.
    + by apply (off_other y i s o i' s' o' r j).
  - intros i s o Hs Hp. apply Forall_forall. intros r Hr%list_elem_of_In. rewrite Forall_forall in Hreach.
    pose proof (section_offset_in _ _ _ (la_nodup _ _ _ Hl) Hp) as Ho. pose proof (in_sites_from y s o r (o_sections obj) 0 i Hs Ho Hr) as Hin.
    specialize (Hreach (o, r) (proj1 (list_elem_of_In _ _) Hin)). cbn [fst snd site_of] in Hreach. unfold site_of in Hreach. cbn [fst snd] in Hreach.
    destruct (reloc_in i s r Hok Hs Hr) as (? & ? & _). destruct (la_in _ _ _ Hl _ Hp) as (? & _). cbn [fst snd] in *.
    replace (word_at (o_data s) (Z.to_nat (r_offset r))) with (word_at image (Z.to_nat (o + r_offset r))); [done|]. unfold word_at. f_equal. apply list_eq. intros k.
    destruct (Nat.lt_ge_cases k 4); [|by rewrite !lookup_take_ge by lia]. rewrite !lookup_take_lt, !lookup_drop by lia.
    rewrite <- (Hdata i s o) by (done || lia). f_equal. lia.
  - intros n Hn. destruct (Hhost n Hn) as [a Ha]. destruct (la_tramp _ _ _ Hl n Hn) as (o & Ho & Ho0 & _).
    destruct (la_supported _ _ _ Hl) as [E|[size Hsize]]; [rewrite E in Hn; by apply elem_of_nil in Hn|]. destruct (trampoline_ok size a Hsize) as (code & Hc & _).
    exists a, code, o. do 3 (split; [done|]).
    assert (tramp_piece y tramp_code n = (Z.to_nat o, code)) as Ep by (unfold tramp_piece, tramp_code; by rewrite Ho, Ha, Hc).
    pose proof Hn as [m Hm]%list_elem_of_lookup. intros j Hj. cbn [fst snd] in *. rewrite Hkeep.
    + apply Forall_app in Hpieces as [_ Hpieces]. rewrite Forall_fmap, Forall_forall in Hpieces. specialize (Hpieces n (proj1 (list_elem_of_In _ _) Hn)).
      cbn [compose] in Hpieces. rewrite Ep in Hpieces. by apply Hpieces.
    + apply Forall_forall. intros [o' r] Hin%list_elem_of_In. destruct (sites_from_in y o' r _ 0 (drop_0 _) Hin) as (i' & s' & _ & Hs' & Hp' & Hr).
      pose proof Hp' as [k Hk]%list_elem_of_lookup. assert (k < length (y_placed y))%nat by (by eapply lookup_lt_Some).
      assert (apart (piece_of (o_sections obj) (i', o')) (Z.to_nat o, code)) as Happ.
      { apply (ordpairs_lookup _ _ k (length (y_placed y) + m) _ _ Hap); [lia| |].
        - rewrite lookup_app_l by (rewrite length_fmap; lia). by rewrite list_lookup_fmap, Hk.
        - rewrite lookup_app_r, length_fmap by (rewrite length_fmap; lia). replace (length (y_placed y) + m - length (y_placed y))%nat with m by lia. by rewrite list_lookup_fmap, Hm; cbn; rewrite Ep. }
      destruct (reloc_in i' s' r Hok Hs' Hr) as (? & ? & _). destruct (la_in _ _ _ Hl _ Hp') as (? & _).
      unfold apart, piece_of, off_site, site_of in *. cbn [fst snd] in *. rewrite (data_of_at i' s' Hs') in Happ. lia.
  - intros n. rewrite (Ht n), lookup_empty. unfold exported. by destruct (list.last (globals n (o_symbols obj))).
Qed.

(** C21: Loading an object whose alignments are powers of two, whose
    relocated words lie inside their sections and apart, and whose sizes and
    addresses leave room ([object_ok]; [load] checks none of it) never panics
    and never writes outside the mapping. If it succeeds, every section is at an aligned place
    of its own with its bytes kept outside the relocated words, every
    relocated field, decoded as its architecture does, is the distance to
    the address of its symbol (through the trampoline where the symbol is an
    undefined branch target), every trampoline holds the code for its host
    address, and the symbol table is exact. If it fails, the error names a
    real cause: an unplaced, unresolved, out-of-range or unsupported item. *)
Theorem load_relocates : object_ok ->
  match load machine obj host base with
  | Some (Ok l) => exists y, loaded_by y l
  | Some (Err e) => load_error e
  | None => False
  end.
Proof.
  intros Hok. unfold load. destruct (lay_out_spec machine obj (ok_layout Hok)) as [(Hne & Hnone & ->)|(y & -> & Hl)]; [by apply err_no_trampolines|].
  cbn [try_bind mbind option_bind]. pose proof (filled y Hl) as Hf.
  destruct (copy_sections _ _ _) as [image0|]; [|done]. cbn [mbind option_bind] in Hf |- *.
  destruct (emit_trampolines _ _ _ _ _) as [[image|e]|]; [|done|done]. cbn [try_bind mbind option_bind]. destruct Hf as (Hlen & Hhost & Hpieces & Hap).
  pose proof (symbol_table_spec y (o_symbols obj) Hok Hl (fun _ H => H) ∅) as Hs.
  destruct (symbol_table _ _ _ _) as [[t|e]|]; [|done|done]. cbn [try_bind mbind option_bind]. destruct Hs as [Hpl Ht].
  rewrite relocate_patch. pose proof (la_total _ _ _ Hl). pose proof (all_sites_ok y Hok Hl) as Hsites. rewrite <- Hlen in Hsites.
  pose proof (patch_all_spec y (sites_from y 0 (o_sections obj)) (ok_base Hok) Hl image ltac:(lia) Hsites
    (sites_all_apart y Hok Hl _ 0 (drop_0 _))) as Hp.
  assert (Forall (fun st => resolves y st.2) (sites_from y 0 (o_sections obj))) as Hres.
  { eapply Forall_impl; [|exact Hsites]. intros st Hst. apply resolves_ok; [done|done|exact Hpl|by eapply site_is_reloc]. }
  specialize (Hp Hres). destruct (patch_all _ _ _) as [[image'|e]|]; [|done|done]. cbn. destruct Hp as (Hlen' & Hreach & Hkeep).
  exists y. by apply (patched_loads y image).
Qed.
End Load.

(** ** Examples *)

(** [main: call puts; ret] and four bytes of data. *)
Definition demo_object : ObjectFile := mkObject
  [mkSection ".rodata" ReadOnlyData 8 [1; 2; 3; 4] [] []; mkSection ".text" Text 16 [0xE8; 0; 0; 0; 0; 0xC3] [mkReloc 1 "puts" R_X86_64_PLT32 (-4)] []]
  [mkSymbol "main" (Some 1%nat) 0 6 Global Func; mkSymbol "table" (Some 0%nat) 0 4 Local Object; mkSymbol "puts" None 0 0 Global NoType].
Definition demo_host : gmap string Z := {["puts"%string := 0x7F0000001000]}.

Lemma demo_object_ok : object_ok EM_X86_64 demo_object demo_host 65536.
Proof.
  split.
  - split; [|by vm_compute]. constructor; [right; by exists 3|]. constructor; [right; by exists 4|constructor].
  - constructor; [by repeat constructor|]. constructor; [|constructor]. split; [|by repeat constructor].
    constructor; [|constructor]. unfold reloc_ok; cbn. lia.
  - repeat constructor; cbn; lia.
  - intros n a H. unfold demo_host in H. apply lookup_singleton_Some in H as [_ <-]. lia.
  - lia.
Qed.

(** The call goes to the trampoline at offset 16. *)
Example demo_loads :
  match load EM_X86_64 demo_object demo_host 65536 with
  | Some (Ok l) => l_image l = [0xE8; 11; 0; 0; 0; 0xC3] ++ replicate 10 0 ++ [0x49; 0xBB; 0; 16; 0; 0; 0; 127; 0; 0; 0x41; 0xFF; 0xE3; 0; 0; 0; 1; 2; 3; 4]
  | _ => False
  end.
Proof. vm_compute. reflexivity. Qed.

Lemma load_relocates_witness :
  object_ok EM_X86_64 demo_object demo_host 65536 /\
  match load EM_X86_64 demo_object demo_host 65536 with
  | Some (Ok l) => exists y, loaded_by EM_X86_64 demo_object demo_host 65536 y l
  | Some (Err e) => load_error EM_X86_64 demo_object demo_host 65536 e
  | None => False
  end.
Proof. split; [exact demo_object_ok|apply load_relocates, demo_object_ok]. Defined.

(** A local symbol defined after a global one of the same name takes over the
    relocations, while the table of symbols keeps the global one. *)
Definition shadowed_object : ObjectFile := mkObject
  [mkSection ".text" Text 16 [0xE8; 0; 0; 0; 0; 0xC3; 0xC3] [mkReloc 1 "f" R_X86_64_PLT32 (-4)] []]
  [mkSymbol "f" (Some 0%nat) 5 1 Global Func; mkSymbol "f" (Some 0%nat) 6 1 Local Func].

Example shadowed_symbol_disagrees :
  match load EM_X86_64 shadowed_object ∅ 65536 with
  | Some (Ok l) => l_symbols l !! "f"%string = Some (65536 + 5) /\ f_decode (mkField 0 (seqZ 0 32)) (word_at (l_image l) 1) = 6 - 5
  | _ => False
  end.
Proof. vm_compute. by split. Qed.

(** A relocation past the end of the mapping is written there: the write is
    not checked against the section, and the model, whose writes are, has no
    result. *)
Definition outside_object : ObjectFile := mkObject
  [mkSection ".text" Text 16 [0xE8; 0; 0; 0; 0; 0xC3] [mkReloc 1000 "f" R_X86_64_PC32 (-4)] []]
  [mkSymbol "f" (Some 0%nat) 5 1 Global Func].

Example outside_site_unchecked : load EM_X86_64 outside_object ∅ 65536 = None.
Proof. vm_compute. reflexivity. Qed.
