(* ===== verification/Extract.v ===== *)
(** * Least-cost extraction ([libs/relational/src/extract.rs], [csr.rs])

    [fold] gives each id of a relational database the least cost of its
    members. The members of the ids are flattened into one table whose child
    lists are ranges of one vector, the parents of a slot are read from a
    compressed-sparse-row map, and a worklist of dirty members runs to a
    fixpoint. The closure [members] that pushes the members of an id is the
    list of what it pushes, [outside] a function. [u32] and [u64] are [Z],
    [usize] is [nat]; an index out of range and an overflow panic, [as u32] wraps. *)
From S2P Require Import Prelude Words.
#[local] Open Scope Z_scope.
#[local] Open Scope list_scope.

(** ** [Csr] *)

Record Csr := mkCsr { offsets : list Z; data : list Z }.

Definition u32_max : Z := 2 ^ 32 - 1.
Definition as_u32 (v : nat) : Z := Z.of_nat v mod 2 ^ 32.
Definition add_u32 (a b : Z) : option Z := if a + b <=? u32_max then Some (a + b) else None.

(** [v[i] += 1]. *)
Definition bump (v : list Z) (i : nat) : option (list Z) := x ← v !! i; y ← add_u32 x 1; Some (<[i := y]> v).

Fixpoint count_keys (entries : list (Z * Z)) (offsets : list Z) : option (list Z) :=
  match entries with
  | [] => Some offsets
  | (key, _) :: entries => offsets ← bump offsets (S (Z.to_nat key)); count_keys entries offsets
  end.

(** [for i in i..i + n { offsets[i + 1] += offsets[i] }]. *)
Fixpoint sum_offsets (i n : nat) (offsets : list Z) : option (list Z) :=
  match n with
  | O => Some offsets
  | S n => a ← offsets !! S i; b ← offsets !! i; c ← add_u32 a b; sum_offsets (S i) n (<[S i := c]> offsets)
  end.

Fixpoint place_values (entries : list (Z * Z)) (cursor data : list Z) : option (list Z) :=
  match entries with
  | [] => Some data
  | (key, value) :: entries =>
      slot ← cursor !! Z.to_nat key;
      _ ← data !! Z.to_nat slot;
      cursor ← bump cursor (Z.to_nat key);
      place_values entries cursor (<[Z.to_nat slot := value]> data)
  end.

Definition build (keys : nat) (entries : list (Z * Z)) : option Csr :=
  offsets ← count_keys entries (replicate (keys + 1) 0);
  offsets ← sum_offsets 0 keys offsets;
  total ← offsets !! keys;
  data ← place_values entries offsets (replicate (Z.to_nat total) 0);
  Some (mkCsr offsets data).

(** The same loops, over a closure that hands over the entries. *)
Definition build_with (keys : nat) (entries : list (Z * Z)) : option Csr := build keys entries.

Definition get (csr : Csr) (key : Z) : option (list Z) :=
  let key := Z.to_nat key in
  if (length (offsets csr) <=? key + 1)%nat then Some []
  else a ← offsets csr !! key; b ← offsets csr !! (key + 1)%nat; slice (data csr) (Z.to_nat a) (Z.to_nat b).

(** ** The table of members *)

Definition NONE : Z := u32_max.
Definition UNPRICED : Z := u64_max.

Definition sum (cost term : Z) : Z :=
  match checked_add cost term with
  | Some total => total
  | None => if (cost =? UNPRICED) || (term =? UNPRICED) then UNPRICED else UNPRICED - 1
  end.

Record Entry := mkEntry { tag : Z; slot : nat; base_price : Z; child_range : nat * nat; costable : bool }.
Record Table := mkTable { entries : list Entry; parents : Csr; children : list nat }.

(** What a client pushes: a tag, a price and the children. *)
Record Member := mkMember { m_tag : Z; m_price : Z; m_children : list Z }.

Section Push.
Context (index : list Z) (outside : Z -> option Z).

(** The loop of [push] over the children of the member at [position]. *)
Fixpoint push_children (position : Z) (ids : list Z) (base : Z) (ok : bool) (kids : list nat) (edges : list (Z * Z))
  : option (Z * bool * list nat * list (Z * Z)) :=
  match ids with
  | [] => Some (base, ok, kids, edges)
  | child :: ids =>
      i ← index !! Z.to_nat child;
      if i =? NONE then
        match outside child with
        | Some cost => push_children position ids (sum base cost) ok kids edges
        | None => push_children position ids base false kids edges
        end
      else push_children position ids base ok (kids ++ [Z.to_nat i]) (edges ++ [(i, position)])
  end.

Definition push (slot : nat) (m : Member) (entries : list Entry) (kids : list nat) (edges : list (Z * Z))
  : option (list Entry * list nat * list (Z * Z)) :=
  let start := length kids in
  '(base, ok, kids, edges) ← push_children (as_u32 (length entries)) (m_children m) (m_price m) true kids edges;
  Some (entries ++ [mkEntry (m_tag m) slot base (start, length kids) ok], kids, edges).

Fixpoint push_all (slot : nat) (ms : list Member) (entries : list Entry) (kids : list nat) (edges : list (Z * Z)) :=
  match ms with
  | [] => Some (entries, kids, edges)
  | m :: ms => '(entries, kids, edges) ← push slot m entries kids edges; push_all slot ms entries kids edges
  end.

Fixpoint push_ids (members : Z -> list Member) (slot : nat) (ids : list Z) (entries : list Entry) (kids : list nat) (edges : list (Z * Z)) :=
  match ids with
  | [] => Some (entries, kids, edges)
  | id :: ids => '(entries, kids, edges) ← push_all slot (members id) entries kids edges; push_ids members (S slot) ids entries kids edges
  end.
End Push.

(** [index[id] = slot] for every id. *)
Fixpoint fill_index (slot : nat) (ids : list Z) (index : list Z) : option (list Z) :=
  match ids with
  | [] => Some index
  | id :: ids => _ ← index !! Z.to_nat id; fill_index (S slot) ids (<[Z.to_nat id := as_u32 slot]> index)
  end.

(** ** The fixpoint *)

Fixpoint add_costs (cost : list (option Z)) (slots : list nat) (total : Z) : option (option Z) :=
  match slots with
  | [] => Some (Some total)
  | slot :: slots => c ← cost !! slot; match c with Some c => add_costs cost slots (sum total c) | None => Some None end
  end.

Definition cost_of (t : Table) (m : Entry) (cost : list (option Z)) : option (option Z) :=
  if negb (costable m) then Some None
  else slots ← slice (children t) (child_range m).1 (child_range m).2; add_costs cost slots (base_price m).

Record Sweep := mkSweep { cost : list (option Z); dirty : list bool; next : list bool; queued : nat }.

(** The loop over the parents of an improved slot. *)
Fixpoint wake (position : nat) (ps : list Z) (dirty next : list bool) (queued : nat) : option (list bool * list bool * nat) :=
  match ps with
  | [] => Some (dirty, next, queued)
  | parent :: ps =>
      let parent := Z.to_nat parent in
      if (position <? parent)%nat then _ ← dirty !! parent; wake position ps (<[parent := true]> dirty) next queued
      else was ← next !! parent; wake position ps dirty (<[parent := true]> next) (if was : bool then queued else S queued)
  end.

Definition visit (t : Table) (position : nat) (s : Sweep) : option Sweep :=
  was ← dirty s !! position;
  let s := mkSweep (cost s) (<[position := false]> (dirty s)) (next s) (queued s) in
  if negb was then Some s
  else
    member ← entries t !! position;
    total ← cost_of t member (cost s);
    match total with
    | None => Some s
    | Some total =>
        best ← cost s !! slot member;
        if match best with None => true | Some best => total <? best end then
          ps ← get (parents t) (as_u32 (slot member));
          '(dirty, next, queued) ← wake position ps (dirty s) (next s) (queued s);
          Some (mkSweep (<[slot member := Some total]> (cost s)) dirty next queued)
        else Some s
    end.

Fixpoint sweep (t : Table) (positions : list nat) (s : Sweep) : option Sweep :=
  match positions with [] => Some s | p :: positions => s ← visit t p s; sweep t positions s end.

(** One round of the [while] loop, with the swap of [dirty] and [next]. *)
Definition round (t : Table) (s : Sweep) : option Sweep :=
  s ← sweep t (seq 0 (length (entries t))) (mkSweep (cost s) (dirty s) (next s) 0);
  Some (mkSweep (cost s) (next s) (replicate (length (dirty s)) false) (queued s)).

Fixpoint rounds (t : Table) (fuel : nat) (s : Sweep) : option (list (option Z)) :=
  match queued s with
  | O => Some (cost s)
  | S _ => match fuel with O => None | S fuel => s ← round t s; rounds t fuel s end
  end.

Definition costs (t : Table) (slots fuel : nat) : option (list (option Z)) :=
  let n := length (entries t) in
  rounds t fuel (mkSweep (replicate slots None) (replicate n true) (replicate n false) n).

Fixpoint choose (t : Table) (cost : list (option Z)) (members : list Entry) (chosen : list (option (Z * Z))) : option (list (option (Z * Z))) :=
  match members with
  | [] => Some chosen
  | member :: members =>
      settled ← cost !! slot member;
      match settled with
      | None => choose t cost members chosen
      | Some settled =>
          best ← chosen !! slot member;
          match best with
          | Some _ => choose t cost members chosen
          | None =>
              c ← cost_of t member cost;
              if bool_decide (c = Some settled) then
                kids ← slice (children t) (child_range member).1 (child_range member).2;
                if existsb (Nat.eqb (slot member)) kids then choose t cost members chosen
                else choose t cost members (<[slot member := Some (tag member, settled)]> chosen)
              else choose t cost members chosen
          end
      end
  end.

(** [fuel] bounds the rounds. *)
Definition fold (bound : nat) (ids : list Z) (outside : Z -> option Z) (members : Z -> list Member) (fuel : nat)
  : option (list (option (Z * Z))) :=
  index ← fill_index 0 ids (replicate bound NONE);
  '(entries, children, edges) ← push_ids index outside members 0 ids [] [] [];
  parents ← build (length ids) edges;
  let table := mkTable entries parents children in
  cost ← costs table (length ids) fuel;
  choose table cost entries (replicate (length ids) None).

(** ** Extractions ([libs/egraph/src/extract.rs])

    What an extraction holds of a class is the row it chose and the cost; the
    node is read from the row. The layers are listed from the innermost scope;
    the members of a class are its rows with the price [cost_of] gives them and
    the operands they spell. *)

Definition Layer : Type := gmap Z (option (Z * Z)).
Definition Extraction : Type := list Layer.

Fixpoint chosen (x : Extraction) (id : Z) : option (Z * Z) :=
  match x with
  | [] => None
  | best :: base => match best !! id with Some settled => settled | None => chosen base id end
  end.

Definition extracted_row (x : Extraction) (id : Z) : option Z := fst <$> chosen x id.
Definition extracted_cost (x : Extraction) (id : Z) : option Z := snd <$> chosen x id.

(** The loop that fills [best]. *)
Fixpoint settle (layered : bool) (classes : list (Z * option (Z * Z))) (best : Layer) : Layer :=
  match classes with
  | [] => best
  | (class, Some c) :: classes => settle layered classes (<[class := Some c]> best)
  | (class, None) :: classes => settle layered classes (if layered then <[class := None]> best else best)
  end.

Definition extraction (bound : nat) (classes : list Z) (base : Extraction) (members : Z -> list Member) (fuel : nat) : option Extraction :=
  answers ← fold bound classes (extracted_cost base) members fuel;
  Some (settle (match base with [] => false | _ :: _ => true end) (zip classes answers) ∅ :: base).

Definition extract_best (bound : nat) (classes : list Z) (members : Z -> list Member) (fuel : nat) : option Extraction :=
  extraction bound classes [] members fuel.

Definition refresh (base : Extraction) (bound : nat) (dirty : list Z) (members : Z -> list Member) (fuel : nat) : option Extraction :=
  extraction bound dirty base members fuel.
