(* ===== verification/ExtractSpec.v ===== *)
(** * Spellings and their costs

    A spelling of an id is a member of it with a spelling of each child, no id
    spelled inside itself. [spells] is the abstract specification of
    extraction: the cost of an id is the least of its spellings, with prices
    added as numbers and an [UNPRICED] term making the total [UNPRICED]. *)
From S2P Require Import Prelude Words Extract.
#[local] Open Scope Z_scope.
#[local] Open Scope list_scope.

(** ** Totals *)

Definition unpriced (l : list Z) : bool := existsb (Z.eqb UNPRICED) l.
Definition total_of (l : list Z) : Z := if unpriced l then UNPRICED else foldr Z.add 0 l.

(** A total that a [u64] can tell from [UNPRICED]. *)
Definition safe_total (l : list Z) : Prop := unpriced l = true \/ foldr Z.add 0 l < UNPRICED.

Definition price_ok (p : Z) : Prop := 0 <= p <= UNPRICED.

Lemma unpriced_perm l k : l ≡ₚ k -> unpriced l = unpriced k.
Proof. induction 1; cbn; [done|by f_equal| |congruence]. by destruct (UNPRICED =? x), (UNPRICED =? y). Qed.

Lemma add_perm l k : l ≡ₚ k -> foldr Z.add 0 l = foldr Z.add 0 k.
Proof. induction 1; cbn; lia. Qed.

Lemma total_perm l k : l ≡ₚ k -> total_of l = total_of k.
Proof. intros H. unfold total_of. by rewrite (unpriced_perm _ _ H), (add_perm _ _ H). Qed.

Lemma safe_perm l k : l ≡ₚ k -> safe_total l -> safe_total k.
Proof. intros H. unfold safe_total. by rewrite (unpriced_perm _ _ H), (add_perm _ _ H). Qed.

Lemma add_nonneg l : Forall price_ok l -> 0 <= foldr Z.add 0 l.
Proof. induction 1 as [|x l [] _ IH]; cbn; lia. Qed.

Lemma unpriced_cons x l : unpriced (x :: l) = (UNPRICED =? x) || unpriced l.
Proof. done. Qed.

Lemma total_ok l : Forall price_ok l -> safe_total l -> price_ok (total_of l).
Proof.
  intros Hl Hs. unfold total_of, price_ok. pose proof (add_nonneg l Hl). destruct Hs as [->|Hs]; [unfold UNPRICED, u64_max; lia|].
  destruct (unpriced l); unfold UNPRICED, u64_max in *; lia.
Qed.

(** A total is at least each of its terms. *)
Lemma total_ge l x : Forall price_ok l -> x ∈ l -> x <= total_of l.
Proof.
  intros Hl Hx. unfold total_of. destruct (unpriced l) eqn:E.
  - rewrite Forall_forall in Hl. apply (Hl x). by apply list_elem_of_In.
  - clear E. induction Hl as [|y l Hy Hl IH]; [by apply elem_of_nil in Hx|]. cbn. pose proof (add_nonneg l Hl).
    apply elem_of_cons in Hx as [->|Hx]; [lia|]. specialize (IH Hx). destruct Hy. lia.
Qed.

(** Lower terms give a lower total. *)
Lemma total_mono l k : Forall2 Z.le l k -> Forall price_ok l -> Forall price_ok k -> safe_total l -> total_of l <= total_of k.
Proof.
  intros H Hl Hk Hs. unfold total_of at 2. destruct (unpriced k) eqn:Ek; [by apply total_ok|].
  assert (unpriced l = false) as El.
  { clear Hs. induction H as [|x y l k Hxy H IH]; [done|]. inversion Hl; subst. inversion Hk as [|?? Hy]; subst. rewrite unpriced_cons in Ek |- *.
    apply orb_false_iff in Ek as [Ey Ek]. rewrite IH by done. apply Z.eqb_neq in Ey. unfold price_ok in *. destruct (Z.eqb_spec UNPRICED x); [lia|done]. }
  unfold total_of. rewrite El. clear -H. induction H; cbn; lia.
Qed.

(** The sums the code computes, in any order. *)
Lemma sum_ok a b : price_ok a -> price_ok b -> price_ok (sum a b).
Proof.
  unfold price_ok, sum, checked_add, UNPRICED. intros. destruct (Z.leb_spec (a + b) u64_max); [lia|].
  destruct ((a =? u64_max) || (b =? u64_max)); unfold u64_max in *; lia.
Qed.

Lemma sum_unpriced a b : price_ok a -> price_ok b -> a = UNPRICED \/ b = UNPRICED -> sum a b = UNPRICED.
Proof.
  unfold price_ok, sum, checked_add, UNPRICED. intros Ha Hb H. destruct (Z.leb_spec (a + b) u64_max); [lia|].
  destruct H as [-> | ->]; by rewrite Z.eqb_refl, ?orb_true_r.
Qed.

Lemma sums_unpriced l : forall p, price_ok p -> Forall price_ok l -> unpriced (p :: l) = true -> fold_left sum l p = UNPRICED.
Proof.
  induction l as [|x l IH]; intros p Hp Hl H.
  - apply orb_prop in H as [H|H]; [symmetry; by apply Z.eqb_eq|done].
  - inversion Hl as [|?? Hx Hl']; subst. cbn [fold_left]. apply IH; [by apply sum_ok|done|]. rewrite !unpriced_cons in *.
    destruct (Z.eqb_spec UNPRICED p) as [<-|]; [by rewrite sum_unpriced by auto|]. destruct (Z.eqb_spec UNPRICED x) as [<-|]; [by rewrite sum_unpriced by auto|].
    cbn [orb] in H. by rewrite H, orb_true_r.
Qed.

Lemma sums_total l : forall p, price_ok p -> Forall price_ok l -> safe_total (p :: l) -> fold_left sum l p = total_of (p :: l).
Proof.
  intros p Hp Hl Hs. unfold total_of. destruct (unpriced (p :: l)) eqn:E; [by apply sums_unpriced|].
  destruct Hs as [Hs|Hs]; [by rewrite E in Hs|]. clear E. revert p Hp Hs. induction Hl as [|x l Hx Hl IH]; intros p Hp Hs; cbn [fold_left foldr] in *; [lia|].
  pose proof (add_nonneg l Hl). unfold price_ok in *.
  assert (sum p x = p + x) as -> by (unfold sum, checked_add; rewrite (proj2 (Z.leb_le _ _)); [done|unfold UNPRICED in *; lia]).
  rewrite IH by lia. lia.
Qed.

(** ** Spellings *)

Lemma Forall2_and_r {A B} (P R : A -> B -> Prop) (Q : B -> Prop) l k :
  Forall2 P l k -> Forall Q k -> (forall x y, P x y -> Q y -> R x y) -> Forall2 R l k.
Proof. intros H Hq Hr. induction H; inversion Hq; subst; constructor; auto. Qed.

Lemma Forall2_and_l {A B} (P R : A -> B -> Prop) (Q : A -> Prop) l k :
  Forall2 P l k -> Forall Q l -> (forall x y, P x y -> Q x -> R x y) -> Forall2 R l k.
Proof. intros H Hq Hr. induction H; inversion Hq; subst; constructor; auto. Qed.

Section Child.
Context (ids : list Z) (outside : Z -> option Z).

(** The cost of a child, from the costs [v] of the ids. *)
Definition child_cost (v : Z -> Z -> Prop) (c x : Z) : Prop := (c ∉ ids /\ outside c = Some x) \/ (c ∈ ids /\ v c x).

Lemma child_mono (v w : Z -> Z -> Prop) c x : (forall c x, v c x -> w c x) -> child_cost v c x -> child_cost w c x.
Proof. unfold child_cost. naive_solver. Qed.

Lemma children_mono (v w : Z -> Z -> Prop) cs xs : (forall c x, v c x -> w c x) -> Forall2 (child_cost v) cs xs -> Forall2 (child_cost w) cs xs.
Proof. intros H. apply Forall2_impl. intros. by eapply child_mono. Qed.

(** Children that each have some height have a common one. *)
Lemma common_height (P : nat -> Z -> Z -> Prop) cs ys : (forall n n' c y, (n <= n')%nat -> P n c y -> P n' c y) ->
  Forall2 (child_cost (fun c y => exists n, P n c y)) cs ys -> exists n, Forall2 (child_cost (P n)) cs ys.
Proof.
  intros Hmono H. induction H as [|c y cs ys Hy H [n IH]]; [by exists 0%nat|]. destruct Hy as [Hy|[Hin [n' Hy]]].
  - exists n. constructor; [by left|done].
  - exists (n `max` n')%nat. constructor; [right; split; [done|]; eapply Hmono; [|exact Hy]; lia|].
    revert IH. apply children_mono. intros. eapply Hmono; [|done]. lia.
Qed.
End Child.

Definition total (m : Member) (cs : list Z) : Z := total_of (m_price m :: cs).

Section Spell.
Context (ids : list Z) (outside : Z -> option Z) (members : Z -> list Member).
Notation child_cost := (child_cost ids outside).

(** [spells n path id c]: a spelling of [id] of height [n] at most, that
    spells no id of [path], costs [c]. *)
Fixpoint spells (n : nat) (path : list Z) (id c : Z) : Prop :=
  match n with
  | O => False
  | S n => id ∉ path /\ exists m cs, m ∈ members id /\ Forall2 (child_cost (spells n (id :: path))) (m_children m) cs /\ c = total m cs
  end.

Definition spelled (id c : Z) : Prop := exists n, spells n [] id c.
Definition least (id c : Z) : Prop := spelled id c /\ forall c', spelled id c' -> c <= c'.

Lemma spells_weaken n : forall n' path path' id c, (n <= n')%nat -> path' ⊆ path -> spells n path id c -> spells n' path' id c.
Proof.
  induction n as [|n IH]; intros n' path path' id c Hn Hp H; [done|]. destruct n' as [|n']; [lia|]. cbn [spells] in *.
  destruct H as (Hid & m & cs & Hm & Hcs & ->). split; [set_solver|]. exists m, cs. split; [done|]. split; [|done].
  revert Hcs. apply children_mono. intros. apply (IH n' (id :: path)); [lia|set_solver|done].
Qed.

(** No path is longer than the ids. *)
Lemma spells_short n : forall path id c, id ∈ ids -> NoDup path -> path ⊆ ids -> spells n path id c -> spells (length ids - length path) path id c.
Proof.
  induction n as [|n IH]; intros path id c Hin Hnd Hsub H; [done|]. cbn [spells] in H. destruct H as (Hid & m & cs & Hm & Hcs & ->).
  assert (NoDup (id :: path)) as Hnd' by (by constructor). assert (id :: path ⊆ ids) as Hsub' by set_solver.
  assert (length (id :: path) <= length ids)%nat as Hle by (by apply submseteq_length, NoDup_submseteq). cbn [length] in Hle.
  replace (length ids - length path)%nat with (S (length ids - length (id :: path))) by (cbn [length]; lia). cbn [spells].
  split; [done|]. exists m, cs. split; [done|]. split; [|done]. revert Hcs. apply Forall2_impl. intros x y [?|[? ?]]; [by left|right].
  split; [done|]. by apply IH.
Qed.

Lemma spelled_short id c : id ∈ ids -> spelled id c <-> spells (length ids) [] id c.
Proof.
  intros Hin. split; [|by exists (length ids)]. intros [n H]. pose proof (spells_short n [] id c Hin ltac:(constructor) ltac:(set_solver) H) as Hs.
  cbn [length] in Hs. by rewrite Nat.sub_0_r in Hs.
Qed.

(** ** Inputs whose sums do not overflow *)

Record priced : Prop := mkPriced {
  pr_outside : forall c x, outside c = Some x -> price_ok x;
  pr_price : forall id m, id ∈ ids -> m ∈ members id -> price_ok (m_price m);
  pr_safe : forall id m cs, id ∈ ids -> m ∈ members id -> Forall2 (child_cost spelled) (m_children m) cs -> safe_total (m_price m :: cs) }.

Lemma spells_spelled n path id c : spells n path id c -> spelled id c.
Proof. intros H. exists n. eapply spells_weaken; [done| |exact H]. set_solver. Qed.

Lemma spells_ok n path id c : priced -> id ∈ ids -> spells n path id c -> price_ok c.
Proof.
  intros Hp. revert path id c. induction n as [|n IH]; intros path id c Hid H; [done|]. cbn [spells] in H. destruct H as (_ & m & cs & Hm & Hcs & ->).
  apply total_ok.
  - constructor; [by eapply pr_price|]. clear -IH Hp Hcs. induction Hcs as [|c x cs xs Hx Hcs IHc]; constructor; [|done].
    destruct Hx as [[_ Hx]|[Hin Hx]]; [by eapply pr_outside|by eapply IH].
  - eapply pr_safe; [done|done|done|]. revert Hcs. apply children_mono. apply spells_spelled.
Qed.

Lemma spelled_ok id c : priced -> id ∈ ids -> spelled id c -> price_ok c.
Proof. intros Hp Hid [n H]. by eapply spells_ok. Qed.

Lemma children_ok cs xs : priced -> Forall2 (child_cost spelled) cs xs -> Forall price_ok xs.
Proof.
  intros Hp H. induction H as [|c x cs xs Hx H IH]; constructor; [|done]. destruct Hx as [[_ Hx]|[Hin Hx]]; [by eapply pr_outside|by eapply spelled_ok].
Qed.
End Spell.

(** ** The fixpoint of extraction

    The rounds of [costs] over a table that represents the members
    ([table_ok]) keep the costs of the ids grounded in spellings and reach the
    least ones ([rounds_spec]). *)
Section Rounds.
Context (ids : list Z) (outside : Z -> option Z) (members : Z -> list Member).
Hypothesis ids_nodup : NoDup ids.
Hypothesis Hpriced : priced ids outside members.

Notation costs_of_slots := (list (option Z)).

(** ** The costs of the ids *)

Definition slot_of (id : Z) : option nat := fst <$> list_find (eq id) ids.
Definition env (cost : costs_of_slots) (id : Z) : option Z := s ← slot_of id; mjoin (cost !! s).

Lemma slot_of_at s id : ids !! s = Some id -> slot_of id = Some s.
Proof.
  intros H. unfold slot_of. destruct (list_find (eq id) ids) as [[i x]|] eqn:E.
  - apply list_find_Some in E as (Hi & <- & _). cbn. f_equal. by eapply NoDup_lookup.
  - apply list_find_None in E. exfalso. by eapply (Forall_lookup_1 _ _ _ _ E H).
Qed.

Lemma slot_of_some id s : slot_of id = Some s -> ids !! s = Some id.
Proof. unfold slot_of. destruct (list_find (eq id) ids) as [[i x]|] eqn:E; [|done]. apply list_find_Some in E as (Hi & <- & _). by intros [= <-]. Qed.

Lemma slot_of_in id : id ∈ ids -> exists s, slot_of id = Some s /\ ids !! s = Some id.
Proof. intros [s H]%list_elem_of_lookup. exists s. by rewrite (slot_of_at s id H). Qed.

Lemma env_at cost s id : ids !! s = Some id -> env cost id = mjoin (cost !! s).
Proof. intros H. unfold env. by rewrite (slot_of_at s id H). Qed.

Definition mval (cost : costs_of_slots) (m : Member) : option Z :=
  xs ← mapM (fun c => if decide (c ∈ ids) then env cost c else outside c) (m_children m); Some (total m xs).

(** The children of a member, from the costs. *)
Lemma mval_some cost m x : mval cost m = Some x <->
  exists xs, Forall2 (child_cost ids outside (fun c x => env cost c = Some x)) (m_children m) xs /\ x = total m xs.
Proof.
  unfold mval. destruct (mapM _ _) as [xs|] eqn:E; cbn.
  - apply mapM_Some in E. assert (Forall2 (child_cost ids outside (fun c x => env cost c = Some x)) (m_children m) xs) as H.
    { revert E. apply Forall2_impl. intros c y. unfold child_cost. case_decide; [by right|by left]. }
    split; [intros [= <-]; by exists xs|]. intros (ys & Hy & ->). do 2 f_equal. clear E. revert ys Hy. induction H as [|c y cs xs Hc H IH]; intros ys Hy; inversion Hy; subst; [done|].
    f_equal; [|by apply IH]. unfold child_cost in *. naive_solver.
  - split; [done|]. intros (xs & H & _). exfalso. assert (mapM (fun c => if decide (c ∈ ids) then env cost c else outside c) (m_children m) = Some xs) as E'; [|congruence].
    apply mapM_Some. revert H. apply Forall2_impl. intros c y. unfold child_cost. case_decide; naive_solver.
Qed.

(** ** Grounded costs *)

(** A spelling whose parts cost at least what their ids are known to cost. *)
Fixpoint grown (cost : costs_of_slots) (n : nat) (path : list Z) (id c : Z) : Prop :=
  match n with
  | O => False
  | S n => id ∉ path /\ (exists b, env cost id = Some b /\ b <= c) /\
      exists m cs, m ∈ members id /\ Forall2 (child_cost ids outside (grown cost n (id :: path))) (m_children m) cs /\ c = total m cs
  end.

Definition good (cost : costs_of_slots) : Prop := forall id c, env cost id = Some c -> exists n, grown cost n [] id c.

Definition better (cost cost' : costs_of_slots) : Prop :=
  length cost = length cost' /\ forall s c', cost' !! s = Some (Some c') -> exists c, cost !! s = Some (Some c) /\ c <= c'.

Lemma better_refl cost : better cost cost.
Proof. split; [done|]. intros s c H. by exists c. Qed.

Lemma better_trans a b c : better a b -> better b c -> better a c.
Proof.
  intros [L1 H1] [L2 H2]. split; [congruence|]. intros s x Hx. destruct (H2 s x Hx) as (y & Hy & ?). destruct (H1 s y Hy) as (z & Hz & ?). exists z. split; [done|lia].
Qed.

Lemma better_env cost cost' id c' : better cost cost' -> env cost' id = Some c' -> exists c, env cost id = Some c /\ c <= c'.
Proof.
  intros [_ H]. unfold env. destruct (slot_of id) as [s|]; [|done]. cbn. destruct (cost' !! s) as [[x|]|] eqn:E; [|done|done]. intros [= ->].
  destruct (H s c' E) as (c & -> & ?). by exists c.
Qed.

Lemma grown_better cost cost' n : better cost cost' -> forall path id c, grown cost' n path id c -> grown cost n path id c.
Proof.
  intros Hb. induction n as [|n IH]; intros path id c H; [done|]. destruct H as (Hp & (b & Hb1 & ?) & m & cs & Hm & Hcs & ->).
  destruct (better_env cost cost' id b Hb Hb1) as (b' & Hb' & ?). split; [done|]. split; [exists b'; split; [done|lia]|]. exists m, cs.
  split; [done|]. split; [|done]. revert Hcs. apply children_mono. apply IH.
Qed.

Lemma grown_spells cost n : forall path id c, grown cost n path id c -> spells ids outside members n path id c.
Proof.
  induction n as [|n IH]; intros path id c H; [done|]. destruct H as (Hp & _ & m & cs & Hm & Hcs & ->). split; [done|]. exists m, cs.
  split; [done|]. split; [|done]. revert Hcs. apply children_mono. apply IH.
Qed.

Lemma grown_height cost n : forall n' path id c, (n <= n')%nat -> grown cost n path id c -> grown cost n' path id c.
Proof.
  induction n as [|n IH]; intros n' path id c Hn H; [done|]. destruct n' as [|n']; [lia|]. destruct H as (Hp & Hb & m & cs & Hm & Hcs & ->).
  split; [done|]. split; [done|]. exists m, cs. split; [done|]. split; [|done]. revert Hcs. apply children_mono. intros. apply IH; [lia|done].
Qed.

Lemma good_spelled cost id c : good cost -> env cost id = Some c -> spelled ids outside members id c.
Proof. intros Hg H. destruct (Hg id c H) as [n Hn]. exists n. by apply (grown_spells cost). Qed.

Lemma env_in cost id c : env cost id = Some c -> id ∈ ids.
Proof. unfold env. destruct (slot_of id) eqn:E; [|done]. intros _. by eapply list_elem_of_lookup_2, slot_of_some. Qed.

(** An id that costs more than a spelling is no part of it. *)
Lemma grown_avoids cost id n : forall path path' x c, (forall y, y ∈ path' -> y ∈ path \/ y = id) -> (forall b, env cost id = Some b -> c < b) ->
  x ∈ ids -> grown cost n path x c -> grown cost n path' x c.
Proof.
  induction n as [|n IH]; intros path path' x c Hp Hc Hx H; [done|]. pose proof (grown_spells _ _ _ _ _ H) as Hsp.
  destruct H as (Hxp & (b & Hb & Hbc) & m & cs & Hm & Hcs & ->).
  assert (x <> id) as Hne by (intros ->; specialize (Hc b Hb); lia). split; [intros Hin; destruct (Hp x Hin); done|]. split; [by exists b|].
  exists m, cs. split; [done|]. split; [|done].
  assert (Forall (fun y => y <= total m cs) cs) as Hle.
  { apply Forall_forall. intros y Hy%list_elem_of_In. apply total_ge; [|by right]. constructor; [by eapply pr_price|].
    apply (children_ok ids outside members (m_children m)); [done|]. revert Hcs. apply children_mono. intros. by eapply spells_spelled, grown_spells. }
  refine (Forall2_and_r _ _ _ _ _ Hcs Hle _). intros c' y [?|[Hin Hy]] Hyle; [by left|right]. split; [done|].
  apply (IH (x :: path)); [set_solver| |done|done]. intros b' Hb'. specialize (Hc b' Hb'). lia.
Qed.

(** ** The cost of a member *)

Lemma children_spelled cost m xs : good cost ->
  Forall2 (child_cost ids outside (fun c x => env cost c = Some x)) (m_children m) xs ->
  Forall2 (child_cost ids outside (spelled ids outside members)) (m_children m) xs.
Proof. intros Hg. apply children_mono. intros. by apply (good_spelled cost). Qed.

Lemma member_terms_ok cost id m xs : good cost -> id ∈ ids -> m ∈ members id ->
  Forall2 (child_cost ids outside (fun c x => env cost c = Some x)) (m_children m) xs -> Forall price_ok (m_price m :: xs) /\ safe_total (m_price m :: xs).
Proof.
  intros Hg Hid Hm H. pose proof (children_spelled _ _ _ Hg H) as Hs. split; [|by eapply pr_safe].
  constructor; [by eapply pr_price|]. by eapply children_ok.
Qed.

(** Better costs make members cheaper. *)
Lemma mval_better cost cost' id m x' : good cost -> good cost' -> better cost cost' -> id ∈ ids -> m ∈ members id ->
  mval cost' m = Some x' -> exists x, mval cost m = Some x /\ x <= x'.
Proof.
  intros Hg Hg' Hb Hid Hm (xs' & Hxs' & ->)%mval_some.
  assert (exists xs, Forall2 (child_cost ids outside (fun c x => env cost c = Some x)) (m_children m) xs /\ Forall2 Z.le xs xs') as (xs & Hxs & Hle).
  { clear -Hxs' Hb. induction Hxs' as [|c y cs ys Hy Hys IH]; [by exists []|]. destruct IH as (xs & Hxs & Hle). destruct Hy as [[? ?]|[Hin Hy]].
    - exists (y :: xs). split; constructor; [by left|done|done|done].
    - destruct (better_env _ _ _ _ Hb Hy) as (x & Hx & ?). exists (x :: xs). split; constructor; [by right|done|done|done]. }
  exists (total m xs). split; [apply mval_some; by exists xs|].
  destruct (member_terms_ok cost id m xs Hg Hid Hm Hxs). destruct (member_terms_ok cost' id m xs' Hg' Hid Hm Hxs').
  apply total_mono; [by constructor|done|done|done].
Qed.

Lemma env_insert_ne cost s id x c : ids !! s = Some id -> c <> id -> env (<[s:=x]> cost) c = env cost c.
Proof.
  intros Hs Hne. unfold env. destruct (slot_of c) as [s'|] eqn:E; [|done]. cbn. rewrite list_lookup_insert_ne; [done|].
  intros ->. apply slot_of_some in E. congruence.
Qed.

Lemma mval_insert cost s id x m : ids !! s = Some id -> id ∉ m_children m -> mval (<[s:=x]> cost) m = mval cost m.
Proof.
  intros Hs Hid. unfold mval. assert (mapM (fun c => if decide (c ∈ ids) then env (<[s:=x]> cost) c else outside c) (m_children m)
    = mapM (fun c => if decide (c ∈ ids) then env cost c else outside c) (m_children m)) as ->; [|done].
  revert Hid. generalize (m_children m) as cs. induction cs as [|c cs IH]; intros Hid; [done|]. cbn. apply not_elem_of_cons in Hid as [Hne Hid].
  rewrite IH by done. case_decide; [|done]. by rewrite (env_insert_ne _ _ id).
Qed.

Definition improves (cost : costs_of_slots) (s : nat) (x : Z) : Prop := forall b, cost !! s = Some (Some b) -> x < b.

Lemma improve_better cost s x : (s < length cost)%nat -> improves cost s x -> better (<[s:=Some x]> cost) cost.
Proof.
  intros Hs Hi. split; [apply length_insert|]. intros s' c' H. destruct (decide (s = s')) as [<-|].
  - exists x. rewrite list_lookup_insert_eq by done. split; [done|]. specialize (Hi c' H). lia.
  - exists c'. rewrite list_lookup_insert_ne by done. done.
Qed.

(** Costing an id by one of its members keeps the costs grounded. *)
Lemma good_insert cost s id m x : good cost -> length cost = length ids -> ids !! s = Some id -> m ∈ members id -> mval cost m = Some x ->
  improves cost s x -> good (<[s:=Some x]> cost).
Proof.
  intros Hg Hl Hs Hm Hx Hi. assert (s < length cost)%nat as Hlt by (rewrite Hl; by eapply lookup_lt_Some).
  pose proof (improve_better cost s x Hlt Hi) as Hb. assert (id ∈ ids) as Hid by (by eapply list_elem_of_lookup_2).
  intros id' c Hc. destruct (decide (id' = id)) as [->|Hne].
  - rewrite (env_at _ s), list_lookup_insert_eq in Hc by done. cbn in Hc. injection Hc as <-.
    pose proof Hx as (xs & Hxs & ->)%mval_some. destruct (member_terms_ok cost id m xs Hg Hid Hm Hxs) as [Hok _].
    assert (exists n, Forall2 (child_cost ids outside (grown (<[s:=Some (total m xs)]> cost) n [id])) (m_children m) xs) as [n Hn].
    { apply common_height; [intros; by eapply grown_height|].
      assert (Forall (fun y => y <= total m xs) xs) as Hle by (apply Forall_forall; intros y Hy%list_elem_of_In; apply total_ge; [done|by right]).
      refine (Forall2_and_r _ _ _ _ _ Hxs Hle _). intros c y [?|[Hin Hy]] Hle'; [by left|right]. split; [done|]. destruct (Hg c y Hy) as [n Hn]. exists n.
      apply (grown_better _ cost n Hb). apply (grown_avoids cost id n []); [set_solver| |done|done].
      intros b Hbid. rewrite (env_at _ s) in Hbid by done. destruct (cost !! s) as [[b'|]|] eqn:E; [|done|done]. injection Hbid as <-. specialize (Hi b' E). lia. }
    exists (S n). split; [set_solver|]. split; [exists (total m xs); by rewrite (env_at _ s), list_lookup_insert_eq|]. by exists m, xs.
  - rewrite (env_insert_ne _ s id) in Hc by done. destruct (Hg id' c Hc) as [n Hn]. exists n. by apply (grown_better _ cost).
Qed.

(** ** The table *)

(** [flat] lists the members with their slots, in scan order. *)
Record table_ok (t : Table) (flat : list (nat * Member)) : Prop := mkTableOk {
  tk_flat : forall q s m, flat !! q = Some (s, m) -> exists id, ids !! s = Some id /\ m ∈ members id;
  tk_members : forall s id m, ids !! s = Some id -> m ∈ members id -> exists q, flat !! q = Some (s, m);
  tk_len : length (entries t) = length flat;
  tk_entry : forall q s m, flat !! q = Some (s, m) -> exists e, entries t !! q = Some e /\ slot e = s /\ tag e = m_tag m /\
    (forall cost, good cost -> length cost = length ids -> cost_of t e cost = Some (mval cost m)) /\
    exists kids, slice (children t) (child_range e).1 (child_range e).2 = Some kids /\
      forall id, ids !! s = Some id -> existsb (Nat.eqb s) kids = bool_decide (id ∈ m_children m);
  tk_parents : forall s id, ids !! s = Some id -> exists ps, get (parents t) (as_u32 s) = Some ps /\
    Forall (fun p => (Z.to_nat p < length flat)%nat) ps /\
    forall q s' m, flat !! q = Some (s', m) -> id ∈ m_children m -> exists p, p ∈ ps /\ Z.to_nat p = q }.

Context (t : Table) (flat : list (nat * Member)).
Hypothesis Htable : table_ok t flat.

Definition settled (cost : costs_of_slots) (q : nat) : Prop := forall s m x, flat !! q = Some (s, m) -> mval cost m = Some x ->
  exists b, cost !! s = Some (Some b) /\ b <= x.

(** ** Waking the parents *)

Lemma marked (v : list bool) i q : (i < length v)%nat -> <[i:=true]> v !! q = Some true <-> v !! q = Some true \/ q = i.
Proof.
  intros Hi. rewrite list_lookup_insert_Some. destruct (decide (q = i)) as [->|]; naive_solver.
Qed.

Lemma woken_cons (A C : nat -> Prop) p ps q : C (Z.to_nat p) ->
  (A q \/ q = Z.to_nat p) \/ (C q /\ exists p', p' ∈ ps /\ Z.to_nat p' = q) <-> A q \/ (C q /\ exists p', p' ∈ p :: ps /\ Z.to_nat p' = q).
Proof. intros Hc. setoid_rewrite elem_of_cons. naive_solver. Qed.

Lemma asleep_cons (A C : nat -> Prop) p ps q : ~ C (Z.to_nat p) ->
  A q \/ (C q /\ exists p', p' ∈ ps /\ Z.to_nat p' = q) <-> A q \/ (C q /\ exists p', p' ∈ p :: ps /\ Z.to_nat p' = q).
Proof. intros Hc. setoid_rewrite elem_of_cons. naive_solver. Qed.

Lemma wake_spec position ps : forall dirty next queued, length dirty = length flat -> length next = length flat ->
  Forall (fun p => (Z.to_nat p < length flat)%nat) ps ->
  exists dirty' next' queued', wake position ps dirty next queued = Some (dirty', next', queued') /\
    length dirty' = length flat /\ length next' = length flat /\
    (forall q, dirty' !! q = Some true <-> dirty !! q = Some true \/ (position < q)%nat /\ exists p, p ∈ ps /\ Z.to_nat p = q) /\
    (forall q, next' !! q = Some true <-> next !! q = Some true \/ (q <= position)%nat /\ exists p, p ∈ ps /\ Z.to_nat p = q) /\
    ((queued = 0%nat -> forall q, next !! q <> Some true) -> queued' = 0%nat -> forall q, next' !! q <> Some true).
Proof.
  induction ps as [|p ps IH]; intros dirty next queued Hd Hn Hps; cbn [wake].
  { exists dirty, next, queued. split; [done|]. split; [done|]. split; [done|]. split; [|split; [|done]];
      intros q; split; [by left| |by left|]; intros [|(_ & p & Hp & _)]; (done || by apply elem_of_nil in Hp). }
  inversion Hps as [|?? Hp Hps']; subst. destruct (Nat.ltb_spec position (Z.to_nat p)) as [Hlt|Hle].
  - destruct (lookup_lt_is_Some_2 dirty (Z.to_nat p)) as [b Hb]; [lia|]. rewrite Hb. cbn [mbind option_bind].
    destruct (IH (<[Z.to_nat p := true]> dirty) next queued) as (d & n & k & -> & ? & ? & Hd' & Hn' & Hk); [by rewrite length_insert|done|done|].
    exists d, n, k. split; [done|]. split; [done|]. split; [done|]. split; [|split; [|done]]; intros q.
    + rewrite Hd', marked by lia. by apply (woken_cons (fun q => dirty !! q = Some true) (fun q => (position < q)%nat)).
    + rewrite Hn'. apply (asleep_cons (fun q => next !! q = Some true) (fun q => (q <= position)%nat)). lia.
  - destruct (lookup_lt_is_Some_2 next (Z.to_nat p)) as [b Hb]; [lia|]. rewrite Hb. cbn [mbind option_bind].
    destruct (IH dirty (<[Z.to_nat p := true]> next) (if b then queued else S queued)) as (d & n & k & -> & ? & ? & Hd' & Hn' & Hk); [done|by rewrite length_insert|done|].
    exists d, n, k. split; [done|]. split; [done|]. split; [done|]. split; [|split]; [intros q|intros q|].
    + rewrite Hd'. apply (asleep_cons (fun q => dirty !! q = Some true) (fun q => (position < q)%nat)). lia.
    + rewrite Hn', marked by lia. by apply (woken_cons (fun q => next !! q = Some true) (fun q => (q <= position)%nat)).
    + intros Hq. apply Hk. destruct b; [|lia]. intros -> q. exfalso. by apply (Hq eq_refl (Z.to_nat p)).
Qed.

(** ** One sweep *)

(** The state of a sweep that started from [cost0] and has visited the members
    before [p]. *)
Record running (cost0 : costs_of_slots) (p : nat) (st : Sweep) : Prop := mkRunning {
  rn_cost : length (cost st) = length ids;
  rn_dirty : length (dirty st) = length flat;
  rn_next : length (next st) = length flat;
  rn_good : good (cost st);
  rn_better : better (cost st) cost0;
  rn_cover : forall q, (q < length flat)%nat -> dirty st !! q = Some true \/ next st !! q = Some true \/ settled (cost st) q;
  rn_done : forall q, (q < p)%nat -> dirty st !! q <> Some true;
  rn_ahead : forall q, (p <= q)%nat -> next st !! q <> Some true;
  rn_queued : queued st = 0%nat -> forall q, next st !! q <> Some true;
  rn_reached : forall q s m x, (q < p)%nat -> flat !! q = Some (s, m) -> mval cost0 m = Some x ->
    exists b, cost st !! s = Some (Some b) /\ b <= x;
  rn_progress : (forall s, s ∈ seq 0 (length ids) -> forall x, cost st !! s = Some (Some x) -> ~ improves cost0 s x) ->
    queued st = 0%nat }.

Lemma settled_better cost cost' q : good cost -> good cost' -> better cost cost' -> settled cost q ->
  forall s m x, flat !! q = Some (s, m) -> mval cost' m = Some x -> exists b, cost !! s = Some (Some b) /\ b <= x.
Proof.
  intros Hg Hg' Hb Hs s m x Hf Hx. destruct (tk_flat _ _ Htable q s m Hf) as (id & Hid & Hm).
  destruct (mval_better cost cost' id m x Hg Hg' Hb (list_elem_of_lookup_2 _ _ _ Hid) Hm Hx) as (y & Hy & ?).
  destruct (Hs s m y Hf Hy) as (b & Hb' & ?). exists b. split; [done|lia].
Qed.

(** The visit of a member that is not dirty, has no cost or is no improvement. *)
Lemma visit_keeps cost0 p st d : good cost0 -> (p < length flat)%nat -> running cost0 p st -> settled (cost st) p ->
  d = <[p := false]> (dirty st) -> running cost0 (S p) (mkSweep (cost st) d (next st) (queued st)).
Proof.
  intros Hg0 Hp [Hc Hd Hn Hg Hb Hcov Hdone Hah Hq Hr Hpr] Hs ->. split; cbn [cost dirty next queued]; try done.
  - by rewrite length_insert.
  - intros q Hq'. destruct (decide (q = p)) as [->|]; [by right; right|]. rewrite list_lookup_insert_ne by done. by apply Hcov.
  - intros q Hq'. destruct (decide (q = p)) as [->|]; [by rewrite list_lookup_insert_eq by lia|]. rewrite list_lookup_insert_ne by done. apply Hdone. lia.
  - intros q Hq'. apply Hah. lia.
  - intros q s m x Hq' Hf Hx. destruct (decide (q = p)) as [->|]; [|apply (Hr q s m x); [lia|done|done]].
    by apply (settled_better (cost st) cost0 p Hg Hg0 Hb Hs s m x).
Qed.

(** The visit of a member that improves its id. *)
Lemma visit_improves cost0 p st s m id x (ps : list Z) d n k : good cost0 -> running cost0 p st -> flat !! p = Some (s, m) -> ids !! s = Some id ->
  m ∈ members id -> mval (cost st) m = Some x -> improves (cost st) s x ->
  (forall q s' m', flat !! q = Some (s', m') -> id ∈ m_children m' -> exists p', p' ∈ ps /\ Z.to_nat p' = q) ->
  length d = length flat -> length n = length flat ->
  (forall q, d !! q = Some true <-> <[p := false]> (dirty st) !! q = Some true \/ (p < q)%nat /\ exists p', p' ∈ ps /\ Z.to_nat p' = q) ->
  (forall q, n !! q = Some true <-> next st !! q = Some true \/ (q <= p)%nat /\ exists p', p' ∈ ps /\ Z.to_nat p' = q) ->
  (k = 0%nat -> forall q, n !! q <> Some true) ->
  running cost0 (S p) (mkSweep (<[s := Some x]> (cost st)) d n k).
Proof.
  intros Hg0 [Hc Hd Hn Hg Hb Hcov Hdone Hah Hq Hr Hpr] Hf Hid Hm Hx Hi Hps Hld Hln Hdd Hnn Hk.
  assert (p < length flat)%nat as Hp by (by eapply lookup_lt_Some). assert (s < length (cost st))%nat as Hs by (rewrite Hc; by eapply lookup_lt_Some).
  pose proof (good_insert _ _ _ _ _ Hg Hc Hid Hm Hx Hi) as Hg'. pose proof (improve_better _ _ _ Hs Hi) as Hb'.
  split; cbn [cost dirty next queued]; try done.
  - by rewrite length_insert.
  - by apply (better_trans _ (cost st)).
  - intros q Hq'. rewrite Hdd, Hnn. destruct (lookup_lt_is_Some_2 flat q Hq') as [[s' m'] Hf'].
    destruct (decide (id ∈ m_children m')) as [Hin|Hin].
    { destruct (Hps q s' m' Hf' Hin) as (p' & ? & ?). destruct (Nat.lt_ge_cases p q); [left; right|right; left; right]; (split; [done|by exists p']). }
    assert (settled (cost st) q -> settled (<[s:=Some x]> (cost st)) q) as Hset.
    { intros Hset s2 m2 y Hf2 Hy. assert (m2 = m') as -> by congruence. rewrite (mval_insert _ _ id) in Hy by done.
      destruct (Hset s2 m' y Hf2 Hy) as (b & Hb2 & ?). destruct Hb' as [_ Hb']. destruct (Hb' s2 b Hb2) as (b' & ? & ?). exists b'. split; [done|lia]. }
    destruct (decide (q = p)) as [->|Hqp].
    { right; right. intros s2 m2 y Hf2 Hy. assert (s2 = s /\ m2 = m) as [-> ->] by (split; congruence). assert (m' = m) as -> by congruence.
      rewrite (mval_insert _ _ id) in Hy by done. exists x. rewrite list_lookup_insert_eq by done. split; [done|]. assert (y = x) by congruence. lia. }
    rewrite list_lookup_insert_ne by done. destruct (Hcov q Hq') as [?|[?|?]]; [by left; left|by right; left; left|right; right; by apply Hset].
  - intros q Hq'. rewrite Hdd. intros [H|[? _]]; [|lia]. destruct (decide (q = p)) as [->|]; [by rewrite list_lookup_insert_eq in H by lia|].
    rewrite list_lookup_insert_ne in H by done. apply (Hdone q); [lia|done].
  - intros q Hq'. rewrite Hnn. intros [H|[? _]]; [|lia]. apply (Hah q); [lia|done].
  - intros q s' m' y Hq' Hf' Hy. destruct (decide (q = p)) as [->|].
    + assert (s' = s /\ m' = m) as [-> ->] by (split; congruence). destruct (mval_better (cost st) cost0 id m y Hg Hg0 Hb (list_elem_of_lookup_2 _ _ _ Hid) Hm Hy) as (x' & Hx' & ?).
      exists x. rewrite list_lookup_insert_eq by done. split; [done|]. assert (x' = x) by congruence. lia.
    + destruct (Hr q s' m' y) as (b & Hb2 & ?); [lia|done|done|]. destruct Hb' as [_ Hb']. destruct (Hb' s' b Hb2) as (b' & ? & ?). exists b'. split; [done|lia].
  - intros Hno. exfalso. apply (Hno s) with x; [apply elem_of_seq; lia|by rewrite list_lookup_insert_eq|]. intros b Hb0. destruct Hb as [_ Hb].
    destruct (Hb s b Hb0) as (b' & Hb'' & ?). specialize (Hi b' Hb''). lia.
Qed.

Lemma visit_spec cost0 p st : good cost0 -> (p < length flat)%nat -> running cost0 p st ->
  exists st', visit t p st = Some st' /\ running cost0 (S p) st'.
Proof.
  intros Hg0 Hp Hrun. pose proof Hrun as [Hc Hd Hn Hg Hb Hcov Hdone Hah Hq Hr Hpr]. unfold visit.
  destruct (lookup_lt_is_Some_2 (dirty st) p) as [was Hwas]; [lia|]. rewrite Hwas. cbn [mbind option_bind]. destruct was; cbn [negb cost dirty next queued].
  2:{ eexists. split; [done|]. apply visit_keeps; [done|done|done| |done]. destruct (Hcov p Hp) as [H|[H|H]]; [congruence|by apply Hah in H|done]. }
  destruct (lookup_lt_is_Some_2 flat p Hp) as [[s m] Hf]. destruct (tk_flat _ _ Htable p s m Hf) as (id & Hid & Hm).
  destruct (tk_entry _ _ Htable p s m Hf) as (e & He & Hslot & _ & Hcost & _). rewrite He. cbn [mbind option_bind]. rewrite Hcost by done. cbn [mbind option_bind].
  destruct (mval (cost st) m) as [x|] eqn:Hx.
  2:{ eexists. split; [done|]. apply visit_keeps; [done|done|done| |done]. intros s' m' y Hf' Hy. congruence. }
  assert (s < length (cost st))%nat as Hs by (rewrite Hc; by eapply lookup_lt_Some).
  rewrite Hslot. destruct (lookup_lt_is_Some_2 (cost st) s Hs) as [best Hbest]. rewrite Hbest. cbn [mbind option_bind].
  destruct (match best with None => true | Some best => x <? best end) eqn:Hbetter.
  - destruct (tk_parents _ _ Htable s id Hid) as (ps & -> & Hps & Hpar). cbn [mbind option_bind].
    destruct (wake_spec p ps (<[p:=false]> (dirty st)) (next st) (queued st)) as (d & n & k & -> & Hld & Hln & Hdd & Hnn & Hk); [by rewrite length_insert|done|done|].
    cbn [mbind option_bind]. eexists. split; [done|]. apply (visit_improves cost0 p st s m id x ps); try done; [|by apply Hk].
    intros b Hb'. rewrite Hbest in Hb'. injection Hb' as ->. lia.
  - eexists. split; [done|]. apply visit_keeps; [done|done|done| |done]. intros s' m' y Hf' Hy. assert (s' = s /\ y = x) as [-> ->] by (split; congruence).
    destruct best as [b|]; [|done]. exists b. split; [done|]. lia.
Qed.

Lemma sweep_spec cost0 k : good cost0 -> forall p st, (p + k = length flat)%nat -> running cost0 p st ->
  exists st', sweep t (seq p k) st = Some st' /\ running cost0 (length flat) st'.
Proof.
  intros Hg0. induction k as [|k IH]; intros p st Hk Hrun; cbn [seq sweep].
  - exists st. split; [done|]. by replace (length flat) with p by lia.
  - destruct (visit_spec cost0 p st Hg0 ltac:(lia) Hrun) as (st1 & -> & H1). cbn [mbind option_bind]. apply IH; [lia|done].
Qed.

(** ** The rounds *)

(** The costs know the spellings of height [k]. *)
Definition knows (cost : costs_of_slots) (k : nat) : Prop := forall id c, id ∈ ids -> spells ids outside members k [] id c ->
  exists b, env cost id = Some b /\ b <= c.

(** The state before a round. *)
Record ready (k : nat) (st : Sweep) : Prop := mkReady {
  rd_cost : length (cost st) = length ids;
  rd_dirty : length (dirty st) = length flat;
  rd_next : length (next st) = length flat;
  rd_none : forall q, next st !! q <> Some true;
  rd_good : good (cost st);
  rd_cover : forall q, (q < length flat)%nat -> dirty st !! q = Some true \/ settled (cost st) q;
  rd_queued : queued st = 0%nat -> forall q, dirty st !! q <> Some true;
  rd_knows : knows (cost st) k }.

(** A spelling by a member costs at least what the costs of its children give. *)
Lemma member_knows cost k id m cs : good cost -> knows cost k -> id ∈ ids -> m ∈ members id ->
  Forall2 (child_cost ids outside (spells ids outside members k [id])) (m_children m) cs ->
  exists x, mval cost m = Some x /\ x <= total m cs.
Proof.
  intros Hg Hk Hid Hm Hcs.
  assert (exists xs, Forall2 (child_cost ids outside (fun c x => env cost c = Some x)) (m_children m) xs /\ Forall2 Z.le xs cs) as (xs & Hxs & Hle).
  { clear Hm. induction Hcs as [|c y l ys Hy Hl IH]; [by exists []|]. destruct IH as (xs & Hxs & Hle). destruct Hy as [[? ?]|[Hin Hy]].
    - exists (y :: xs). split; constructor; [by left|done|done|done].
    - destruct (Hk c y Hin) as (b & Hb & ?); [eapply spells_weaken; [done| |exact Hy]; set_solver|]. exists (b :: xs). split; constructor; [by right|done|done|done]. }
  exists (total m xs). split; [apply mval_some; by exists xs|]. destruct (member_terms_ok cost id m xs Hg Hid Hm Hxs).
  apply total_mono; [by constructor|done| |done]. constructor; [by eapply pr_price|].
  apply (children_ok ids outside members (m_children m)); [done|]. revert Hcs. apply children_mono. intros. by eapply spells_spelled.
Qed.

Lemma round_knows cost cost' k : good cost -> knows cost k ->
  (forall q s m x, (q < length flat)%nat -> flat !! q = Some (s, m) -> mval cost m = Some x -> exists b, cost' !! s = Some (Some b) /\ b <= x) ->
  knows cost' (S k).
Proof.
  intros Hg Hk Hr id c Hid H. cbn [spells] in H. destruct H as (_ & m & cs & Hm & Hcs & ->).
  destruct (member_knows cost k id m cs Hg Hk Hid Hm Hcs) as (x & Hx & ?). destruct (slot_of_in id Hid) as (s & _ & Hs).
  destruct (tk_members _ _ Htable s id m Hs Hm) as [q Hq]. destruct (Hr q s m x) as (b & Hb & ?); [by eapply lookup_lt_Some|done|done|].
  exists b. rewrite (env_at _ s) by done. rewrite Hb. split; [done|lia].
Qed.

(** One round extends the height of the spellings known by one; a round that
    improves nothing is the last. *)
Lemma round_spec k st : ready k st -> exists st', round t st = Some st' /\ ready (S k) st' /\
  ((forall id x b, env (cost st') id = Some x -> env (cost st) id = Some b -> b <= x) -> (forall id x, env (cost st') id = Some x -> is_Some (env (cost st) id)) ->
   queued st' = 0%nat).
Proof.
  intros [Hc Hd Hn Hnone Hg Hcov _ Hk]. unfold round. rewrite (tk_len _ _ Htable).
  assert (running (cost st) 0 (mkSweep (cost st) (dirty st) (next st) 0)) as Hrun.
  { split; cbn [cost dirty next queued]; try done; [apply better_refl| |lia|lia]. intros q Hq. destruct (Hcov q Hq); [by left|by right; right]. }
  destruct (sweep_spec (cost st) (length flat) Hg 0 _ eq_refl Hrun) as (st1 & -> & [Hc1 Hd1 Hn1 Hg1 Hb1 Hcov1 Hdone1 _ Hq1 Hr1 Hpr1]).
  cbn [mbind option_bind]. eexists. split; [done|]. split.
  - split; cbn [cost dirty next queued]; [exact Hc1|exact Hn1|rewrite length_replicate; exact Hd1| |done| |exact Hq1|by apply (round_knows (cost st))].
    + intros q H. apply lookup_replicate in H as [? _]. done.
    + intros q Hq. destruct (Hcov1 q Hq) as [H|[H|H]]; [by apply Hdone1 in H|by left|by right].
  - cbn [cost queued]. intros Hle Hsome. apply Hpr1. intros s Hs x Hx Hi. apply elem_of_seq in Hs.
    destruct (lookup_lt_is_Some_2 ids s) as [id Hid]; [lia|]. assert (env (cost st1) id = Some x) as Hx' by (by rewrite (env_at _ s), Hx).
    destruct (Hsome id x Hx') as [b Hb]. specialize (Hle id x b Hx' Hb). rewrite (env_at _ s) in Hb by done.
    destruct (cost st !! s) as [[b'|]|] eqn:E; [|done|done]. injection Hb as ->. specialize (Hi b E). lia.
Qed.

(** The costs of the ids, when every member is settled. *)
Record final (cost : costs_of_slots) : Prop := mkFinal {
  fi_length : length cost = length ids;
  fi_good : good cost;
  fi_settled : forall q, (q < length flat)%nat -> settled cost q }.

Lemma final_knows cost k : final cost -> knows cost k.
Proof.
  intros [Hl Hg Hs]. induction k as [|k IH]; [by intros id c _ []|]. apply (round_knows cost cost); [done|done|].
  intros q s m x Hq Hf Hx. by apply (Hs q Hq s m x).
Qed.

Lemma final_least cost id c : final cost -> id ∈ ids -> env cost id = Some c <-> least ids outside members id c.
Proof.
  intros Hf Hid. split.
  - intros H. split; [by apply (good_spelled cost); [apply Hf|]|]. intros c' [n Hn]. destruct (final_knows cost n Hf id c' Hid Hn) as (b & Hb & ?). congruence.
  - intros [[n Hn] Hleast]. destruct (final_knows cost n Hf id c Hid Hn) as (b & Hb & ?). specialize (Hleast b (good_spelled cost id b (fi_good _ Hf) Hb)).
    rewrite Hb. f_equal. lia.
Qed.

Lemma rounds_spec fuel : forall k st, ready k st -> (length ids + 1 <= k + fuel)%nat -> ((length ids < k)%nat -> queued st = 0%nat) ->
  exists cost, rounds t fuel st = Some cost /\ final cost.
Proof.
  induction fuel as [|fuel IH]; intros k st Hr Hf Hq.
  all: assert (queued st = 0%nat -> final (cost st)) as Hfin by
    (intros E; destruct Hr as [? ? ? ? ? Hcov Hqd _]; split; [done|done|]; intros q Hlt; destruct (Hcov q Hlt) as [H'|]; [by apply (Hqd E) in H'|done]).
  - exists (cost st). cbn [rounds]. rewrite Hq by lia. split; [done|]. apply Hfin, Hq. lia.
  - cbn [rounds]. destruct (queued st) as [|n] eqn:E; [exists (cost st); split; [done|by apply Hfin]|].
    destruct (round_spec k st Hr) as (st' & -> & Hr' & Hlast). cbn [mbind option_bind]. apply (IH (S k)); [done|lia|]. intros Hk. apply Hlast.
    + intros id x b Hx Hb. pose proof (good_spelled _ _ _ (rd_good _ _ Hr') Hx) as Hs. pose proof (env_in _ _ _ Hx) as Hid. apply spelled_short in Hs; [|done].
      destruct (rd_knows _ _ Hr id x Hid) as (b' & Hb' & ?); [|congruence]. eapply spells_weaken; [|done|exact Hs]. lia.
    + intros id x Hx. pose proof (good_spelled _ _ _ (rd_good _ _ Hr') Hx) as Hs. pose proof (env_in _ _ _ Hx) as Hid. apply spelled_short in Hs; [|done].
      destruct (rd_knows _ _ Hr id x Hid) as (b' & Hb' & ?); [|by exists b']. eapply spells_weaken; [|done|exact Hs]. lia.
Qed.

Lemma costs_spec fuel : (length ids + 1 <= fuel)%nat -> exists cost, costs t (length ids) fuel = Some cost /\ final cost.
Proof.
  intros Hf. unfold costs. apply (rounds_spec fuel 0); [|lia|lia]. assert (forall id, env (replicate (length ids) None) id = None) as He.
  { intros id. unfold env. destruct (slot_of id) as [s|]; [|done]. cbn. destruct (_ !! s) as [x|] eqn:E; [|done]. apply lookup_replicate in E as [-> _]. done. }
  rewrite (tk_len _ _ Htable). split; cbn [cost dirty next queued].
  - by rewrite length_replicate.
  - by rewrite length_replicate.
  - by rewrite length_replicate.
  - intros q H. apply lookup_replicate in H as [? _]. done.
  - intros id c H. by rewrite He in H.
  - intros q Hq. left. by apply lookup_replicate.
  - intros E q H. apply lookup_replicate in H as [_ Hlt]. lia.
  - by intros id c _ [].
Qed.
End Rounds.
