(* ===== verification/ExtractTable.v ===== *)
(** * The table of members

    [Csr::build] groups values under their keys in the order they were given
    ([csr_groups]), and pushing the members of the ids gives a table that
    represents them ([table_built]). *)
From S2P Require Import Prelude Words Extract ExtractSpec.
#[local] Open Scope Z_scope.
#[local] Open Scope list_scope.

(** ** Counting sort *)

Definition at_key (k : nat) (e : Z * Z) : Prop := Z.to_nat e.1 = k.
#[export] Instance at_key_dec k e : Decision (at_key k e).
Proof. unfold at_key. apply _. Defined.

(** The values given for a key, and how many keys of the entries are smaller. *)
Definition values (k : nat) (l : list (Z * Z)) : list Z := snd <$> base.filter (at_key k) l.
Definition below (k : nat) (l : list (Z * Z)) : nat := length (base.filter (fun e : Z * Z => (Z.to_nat e.1 < k)%nat) l).

Lemma values_snoc k l e : values k (l ++ [e]) = values k l ++ (if decide (at_key k e) then [e.2] else []).
Proof. unfold values. rewrite list.filter_app, fmap_app, list.filter_cons, list.filter_nil. by destruct (decide (at_key k e)). Qed.

Lemma values_cons k e l : values k (e :: l) = (if decide (at_key k e) then [e.2] else []) ++ values k l.
Proof. unfold values. rewrite list.filter_cons. by destruct (decide (at_key k e)). Qed.

Lemma below_cons k e l : below k (e :: l) = ((if decide (Z.to_nat e.1 < k)%nat then 1 else 0) + below k l)%nat.
Proof. unfold below. rewrite list.filter_cons. by destruct (decide (Z.to_nat e.1 < k)%nat). Qed.

Lemma below_succ k l : below (S k) l = (below k l + length (values k l))%nat.
Proof.
  induction l as [|e l IH]; [done|]. rewrite !below_cons, values_cons, length_app, IH. unfold at_key. repeat case_decide; cbn [length]; lia.
Qed.

Lemma below_mono k k' l : (k <= k')%nat -> (below k l <= below k' l)%nat.
Proof. intros H. induction l as [|e l IH]; [done|]. rewrite !below_cons. repeat case_decide; lia. Qed.

Lemma below_zero l : below 0 l = 0%nat.
Proof. induction l as [|e l IH]; [done|]. rewrite below_cons, IH. case_decide; lia. Qed.

Lemma below_all k l : Forall (fun e => (Z.to_nat e.1 < k)%nat) l -> below k l = length l.
Proof. induction 1 as [|e l He Hl IH]; [done|]. rewrite below_cons, IH. case_decide; cbn [length]; lia. Qed.

Lemma values_le k l : (length (values k l) <= length l)%nat.
Proof. induction l as [|e l IH]; [done|]. rewrite values_cons, length_app. case_decide; cbn [length]; lia. Qed.

Lemma below_le k l : (below k l <= length l)%nat.
Proof. induction l as [|e l IH]; [done|]. rewrite below_cons. case_decide; cbn [length]; lia. Qed.

Definition counts (v : list Z) (f : nat -> nat) : Prop := forall i, (i < length v)%nat -> v !! i = Some (Z.of_nat (f i)).

Lemma bump_at v f i : counts v f -> (i < length v)%nat -> Z.of_nat (f i) < u32_max ->
  exists v', bump v i = Some v' /\ length v' = length v /\ counts v' (fun j => if decide (j = i) then S (f j) else f j).
Proof.
  intros Hv Hi Hf. unfold bump. rewrite (Hv i Hi). cbn [mbind option_bind]. unfold add_u32. rewrite (proj2 (Z.leb_le _ _)) by lia. cbn [mbind option_bind].
  eexists. split; [done|]. split; [apply length_insert|]. intros j Hj. rewrite length_insert in Hj. case_decide as Hd.
  - subst j. rewrite list_lookup_insert_eq by done. f_equal. lia.
  - rewrite list_lookup_insert_ne by done. by apply Hv.
Qed.

Lemma count_keys_spec l : forall v f, counts v f -> Forall (fun e => (S (Z.to_nat e.1) < length v)%nat) l ->
  (forall i, (i < length v)%nat -> Z.of_nat (f i + length l) <= u32_max) ->
  exists v', count_keys l v = Some v' /\ length v' = length v /\ counts v' (fun i => f i + match i with O => 0 | S k => length (values k l) end)%nat.
Proof.
  induction l as [|[key value] l IH]; intros v f Hv Hl Hb; cbn [count_keys].
  - exists v. split; [done|]. split; [done|]. intros i Hi. rewrite (Hv i Hi). destruct i; cbn; do 2 f_equal; lia.
  - inversion Hl as [|?? He Hl']; subst. cbn in He. destruct (bump_at v f (S (Z.to_nat key)) Hv He) as (v1 & -> & Hl1 & H1); [specialize (Hb _ He); cbn [length] in Hb; lia|].
    cbn [mbind option_bind]. destruct (IH v1 _ H1) as (v' & -> & Hl2 & H2); [by rewrite Hl1| |].
    { intros i Hi. rewrite Hl1 in Hi. specialize (Hb i Hi). cbn [length] in Hb. case_decide; lia. }
    exists v'. split; [done|]. split; [congruence|]. intros i Hi. rewrite (H2 i Hi). do 2 f_equal. destruct i as [|k]; [by case_decide|].
    rewrite values_cons, length_app. unfold at_key. cbn [fst snd]. repeat case_decide; cbn [length]; lia.
Qed.

Lemma sum_offsets_spec l n : forall i v, (i + n + 1 = length v)%nat -> Z.of_nat (length l) <= u32_max ->
  (forall j, (j <= i)%nat -> v !! j = Some (Z.of_nat (below j l))) -> (forall j, (i < j)%nat -> (j < length v)%nat -> v !! j = Some (Z.of_nat (length (values (j - 1) l)))) ->
  exists v', sum_offsets i n v = Some v' /\ length v' = length v /\ counts v' (fun j => below j l).
Proof.
  induction n as [|n IH]; intros i v Hl Hb Hlo Hhi; cbn [sum_offsets].
  - exists v. split; [done|]. split; [done|]. intros j Hj. apply Hlo. lia.
  - rewrite (Hhi (S i)), (Hlo i) by lia. cbn [mbind option_bind]. unfold add_u32. replace (S i - 1)%nat with i by lia.
    pose proof (below_succ i l) as Hs. pose proof (below_le (S i) l). rewrite (proj2 (Z.leb_le _ _)) by lia. cbn [mbind option_bind].
    destruct (IH (S i) (<[S i := Z.of_nat (length (values i l)) + Z.of_nat (below i l)]> v)) as (v' & -> & Hl' & H'); rewrite ?length_insert; try lia.
    + intros j Hj. destruct (decide (j = S i)) as [->|]; [rewrite list_lookup_insert_eq by lia; f_equal; lia|]. rewrite list_lookup_insert_ne by done. apply Hlo. lia.
    + intros j Hj Hj'. rewrite list_lookup_insert_ne by lia. apply Hhi; lia.
    + exists v'. rewrite length_insert in Hl'. done.
Qed.

(** [data] holds the values placed so far. *)
Definition holds (all seen : list (Z * Z)) (data : list Z) : Prop :=
  length data = length all /\ forall k j x, values k seen !! j = Some x -> data !! (below k all + j)%nat = Some x.

Lemma values_prefix k seen rest : (length (values k seen) <= length (values k (seen ++ rest)))%nat.
Proof. unfold values. rewrite list.filter_app, fmap_app, length_app. lia. Qed.

Lemma place_values_spec keys rest : forall seen all cursor data, all = seen ++ rest -> Forall (fun e => (Z.to_nat e.1 < keys)%nat) all -> Z.of_nat (length all) < u32_max ->
  (keys <= length cursor)%nat -> (forall k, (k < keys)%nat -> cursor !! k = Some (Z.of_nat (below k all + length (values k seen)))) -> holds all seen data ->
  exists data', place_values rest cursor data = Some data' /\ holds all all data'.
Proof.
  induction rest as [|[key value] rest IH]; intros seen all cursor data Hall Hk Hb Hc Hcur Hh; cbn [place_values].
  - exists data. rewrite app_nil_r in Hall. subst. done.
  - set (k := Z.to_nat key). assert (k < keys)%nat as Hkk by (rewrite Hall, Forall_app in Hk; destruct Hk as [_ Hk]; by inversion Hk).
    rewrite (Hcur k Hkk). cbn [mbind option_bind]. rewrite Nat2Z.id. set (slot := (below k all + length (values k seen))%nat).
    assert (length (values k seen) < length (values k all))%nat as Hroom.
    { rewrite Hall. replace (seen ++ (key, value) :: rest) with ((seen ++ [(key, value)]) ++ rest) by (by rewrite <- app_assoc).
      pose proof (values_prefix k (seen ++ [(key, value)]) rest) as Hp. rewrite values_snoc, length_app in Hp. case_decide as Hd; [cbn [length] in Hp; lia|by destruct Hd]. }
    destruct Hh as [Hlen Hh]. assert (slot < length data)%nat as Hslot.
    { pose proof (below_succ k all). pose proof (below_le (S k) all). lia. }
    destruct (lookup_lt_is_Some_2 data slot Hslot) as [old Hold]. rewrite Hold. cbn [mbind option_bind].
    unfold bump. rewrite (Hcur k Hkk). cbn [mbind option_bind]. unfold add_u32. pose proof (below_succ k all) as Hsucc. pose proof (below_le (S k) all).
    rewrite (proj2 (Z.leb_le _ _)) by lia. cbn [mbind option_bind].
    apply (IH (seen ++ [(key, value)])); [by rewrite <- app_assoc|done|done|by rewrite length_insert| |].
    + intros k' Hk'. rewrite values_snoc, length_app. destruct (decide (k' = k)) as [->|Hne].
      * rewrite list_lookup_insert_eq by lia. case_decide as Hd; [|by destruct Hd]. cbn [length]. f_equal. lia.
      * rewrite list_lookup_insert_ne by done. rewrite (Hcur k' Hk'). case_decide as Hd; [by unfold at_key in Hd; cbn in Hd|]. cbn [length]. do 2 f_equal. lia.
    + split; [by rewrite length_insert|]. intros k' j x Hx. rewrite values_snoc in Hx. apply lookup_app_Some in Hx as [Hx|[Hj Hx]].
      * destruct (decide ((below k' all + j)%nat = slot)) as [Heq|]; [|rewrite list_lookup_insert_ne by done; by apply Hh]. exfalso.
        apply lookup_lt_Some in Hx. pose proof (values_prefix k' seen ((key, value) :: rest)) as Hp. rewrite <- Hall in Hp. pose proof (below_succ k' all).
        destruct (Nat.lt_trichotomy k' k) as [Hlt|[->|Hlt]]; [pose proof (below_mono (S k') k all Hlt); lia|lia|pose proof (below_mono (S k) k' all Hlt); lia].
      * case_decide as Hd; [|by rewrite lookup_nil in Hx]. unfold at_key in Hd. cbn in Hd. fold k in Hd. subst k'.
        apply list_lookup_singleton_Some in Hx as [Hj0 <-]. cbn [snd]. replace (below k all + j)%nat with slot by lia. by apply list_lookup_insert_eq.
Qed.

(** [Csr::build] is a counting sort: for entries whose keys are below
    [keys] and fewer than [u32::MAX] of them, it does not panic, and [get]
    returns the values given for a key, in the order they were given, and
    nothing for a key out of range. *)
Theorem csr_groups keys entries : Forall (fun e => (Z.to_nat e.1 < keys)%nat) entries -> Z.of_nat (length entries) < u32_max ->
  exists csr, build keys entries = Some csr /\
    forall key, get csr key = Some (if (Z.to_nat key <? keys)%nat then values (Z.to_nat key) entries else []).
Proof.
  intros Hk Hb. unfold build.
  destruct (count_keys_spec entries (replicate (keys + 1) 0) (fun _ => 0%nat)) as (v1 & -> & Hl1 & H1).
  { intros i Hi. rewrite length_replicate in Hi. by apply lookup_replicate. }
  { revert Hk. apply Forall_impl. intros e He. rewrite length_replicate. lia. }
  { intros. lia. }
  cbn [mbind option_bind]. rewrite length_replicate in Hl1.
  destruct (sum_offsets_spec entries keys 0 v1) as (v2 & -> & Hl2 & H2); [lia|lia| | |].
  { intros j Hj. assert (j = 0)%nat as -> by lia. rewrite (H1 0%nat) by lia. by rewrite below_zero. }
  { intros j Hj Hj'. rewrite (H1 j) by lia. destruct j as [|j]; [lia|]. by replace (S j - 1)%nat with j by lia. }
  cbn [mbind option_bind]. rewrite (H2 keys) by lia. cbn [mbind option_bind]. rewrite Nat2Z.id, (below_all keys entries Hk).
  destruct (place_values_spec keys entries [] entries v2 (replicate (length entries) 0)) as (data & -> & Hlen & Hdata); [done|done|done|lia| | |].
  { intros k Hkk. rewrite (H2 k) by lia. cbn. do 2 f_equal. lia. }
  { split; [apply length_replicate|]. intros k j x Hx. done. }
  cbn [mbind option_bind]. eexists. split; [done|]. intros key. unfold get. cbn [offsets Extract.data]. set (k := Z.to_nat key).
  destruct (Nat.ltb_spec k keys) as [Hlt|Hge]; [|by rewrite (proj2 (Nat.leb_le _ _)) by lia]. rewrite (proj2 (Nat.leb_gt _ _)) by lia.
  rewrite (H2 k), (H2 (k + 1)%nat) by lia. cbn [mbind option_bind]. rewrite !Nat2Z.id, Nat.add_1_r, below_succ.
  pose proof (below_succ k entries). pose proof (below_le (S k) entries).
  destruct (slice_spec data (below k entries) (length (values k entries))) as (s & -> & Hs & Hi); [lia|]. f_equal. apply list_eq. intros j.
  destruct (Nat.lt_ge_cases j (length (values k entries))) as [Hj|Hj]; [|by rewrite !lookup_ge_None_2 by lia].
  rewrite Hi by done. destruct (lookup_lt_is_Some_2 _ _ Hj) as [x Hx]. rewrite Hx. by apply Hdata.
Qed.

(** ** Pushing the members *)

Section Built.
Context (bound : nat) (ids : list Z) (outside : Z -> option Z) (members : Z -> list Member).

(** The members with their slots, in scan order. *)
Fixpoint flat_from (slot : nat) (l : list Z) : list (nat * Member) :=
  match l with [] => [] | id :: l => (pair slot <$> members id) ++ flat_from (S slot) l end.
Definition flat : list (nat * Member) := flat_from 0 ids.

(** Ids are distinct indices below [bound], and the table is within [u32]. *)
Record input_ok : Prop := mkInputOk {
  in_nodup : NoDup ids;
  in_bound : Forall (fun id => 0 <= id /\ (Z.to_nat id < bound)%nat) ids;
  in_ids : Z.of_nat (length ids) < u32_max;
  in_children : forall s m, (s, m) ∈ flat -> Forall (fun c => 0 <= c /\ (Z.to_nat c < bound)%nat) (m_children m);
  in_flat : Z.of_nat (length flat) <= u32_max;
  in_edges : Z.of_nat (length (concat ((fun x => m_children x.2) <$> flat))) < u32_max }.
Hypothesis Hin : input_ok.

Notation slot_of := (slot_of ids).

Lemma as_u32_small n : Z.of_nat n <= u32_max -> as_u32 n = Z.of_nat n.
Proof. intros. unfold as_u32. apply Z.mod_small. unfold u32_max in *. lia. Qed.

(** The dense array from ids to slots. *)
Definition index_ok (index : list Z) : Prop := forall c, 0 <= c -> (Z.to_nat c < bound)%nat ->
  index !! Z.to_nat c = Some (match slot_of c with Some s => Z.of_nat s | None => NONE end).

Lemma fill_index_spec rest : forall slot index, drop slot ids = rest -> length index = bound ->
  (forall c, 0 <= c -> (Z.to_nat c < bound)%nat -> index !! Z.to_nat c = Some (match slot_of c with Some s => if (s <? slot)%nat then Z.of_nat s else NONE | None => NONE end)) ->
  exists index', fill_index slot rest index = Some index' /\ index_ok index'.
Proof.
  induction rest as [|id rest IH]; intros slot index Hd Hl Hi; cbn [fill_index].
  - exists index. split; [done|]. intros c Hc Hb. rewrite (Hi c Hc Hb). destruct (slot_of c) as [s|] eqn:E; [|done]. apply slot_of_some in E.
    apply (f_equal length) in Hd. rewrite length_drop in Hd. cbn in Hd. apply lookup_lt_Some in E. by rewrite (proj2 (Nat.ltb_lt _ _)) by lia.
  - assert (ids !! slot = Some id) as Hs by (apply (f_equal (fun l => l !! 0%nat)) in Hd; rewrite lookup_drop, Nat.add_0_r in Hd; done).
    destruct (Forall_lookup_1 _ _ _ _ (in_bound Hin) Hs) as [Hid0 Hidb]. rewrite (Hi id Hid0 Hidb). cbn [mbind option_bind].
    apply IH; [by rewrite <- Nat.add_1_r, <- drop_drop, Hd|by rewrite length_insert|]. intros c Hc Hb.
    assert (slot < length ids)%nat by (by eapply lookup_lt_Some). pose proof (in_ids Hin).
    destruct (decide (c = id)) as [->|Hne].
    + rewrite list_lookup_insert_eq by lia. rewrite (slot_of_at _ (in_nodup Hin) slot id Hs), (proj2 (Nat.ltb_lt _ _)) by lia. f_equal. apply as_u32_small. lia.
    + rewrite list_lookup_insert_ne by lia. rewrite (Hi c Hc Hb). destruct (slot_of c) as [s|] eqn:E; [|done]. f_equal.
      assert (s <> slot) by (intros ->; apply slot_of_some in E; congruence). destruct (Nat.ltb_spec s slot), (Nat.ltb_spec s (S slot)); lia || done.
Qed.

(** What [push] records of a member. *)
Definition inner (m : Member) : list nat := omap slot_of (m_children m).
Definition outer (m : Member) : option (list Z) := mapM outside (base.filter (fun c => c ∉ ids) (m_children m)).

Lemma slot_of_none c : slot_of c = None -> c ∉ ids.
Proof. intros H [s Hs]%list_elem_of_lookup. by rewrite (slot_of_at _ (in_nodup Hin) s c Hs) in H. Qed.

Lemma push_children_spec index position cs : index_ok index -> Forall (fun c => 0 <= c /\ (Z.to_nat c < bound)%nat) cs -> forall base ok kids edges,
  exists base' ok', push_children index outside position cs base ok kids edges
    = Some (base', ok', kids ++ omap slot_of cs, edges ++ ((fun s => (Z.of_nat s, position)) <$> omap slot_of cs)) /\
    match mapM outside (base.filter (fun c => c ∉ ids) cs) with
    | Some xs => ok' = ok /\ base' = fold_left sum xs base
    | None => ok' = false
    end.
Proof.
  intros Hi. induction 1 as [|c cs [Hc0 Hcb] Hcs IH]; intros base ok kids edges; cbn [push_children].
  { exists base, ok. by rewrite !app_nil_r. }
  rewrite (Hi c Hc0 Hcb). cbn [mbind option_bind omap list_omap]. rewrite list.filter_cons. destruct (slot_of c) as [s|] eqn:E.
  - pose proof (slot_of_some _ _ _ E) as Hs. assert (c ∈ ids) by (by eapply list_elem_of_lookup_2). rewrite decide_False by tauto.
    pose proof (in_ids Hin). apply lookup_lt_Some in Hs. destruct (Z.eqb_spec (Z.of_nat s) NONE) as [Hnone|_]; [unfold NONE in Hnone; lia|].
    rewrite Nat2Z.id. destruct (IH base ok (kids ++ [s]) (edges ++ [(Z.of_nat s, position)])) as (b' & ok' & -> & Hb'). exists b', ok'.
    rewrite <- !app_assoc. done.
  - rewrite Z.eqb_refl. rewrite decide_True by (by apply slot_of_none). cbn [mapM]. destruct (outside c) as [x|] eqn:Ex.
    + destruct (IH (sum base x) ok kids edges) as (b' & ok' & -> & Hb'). exists b', ok'. split; [done|]. cbn [mbind option_bind].
      by destruct (mapM outside _) as [xs|].
    + destruct (IH base false kids edges) as (b' & ok' & -> & Hb'). exists b', ok'. split; [done|]. cbn [mbind option_bind].
      by destruct (mapM outside _); [destruct Hb'|].
Qed.

Definition entry_for (kids : list nat) (e : Entry) (x : nat * Member) : Prop :=
  slot e = x.1 /\ tag e = m_tag x.2 /\ slice kids (child_range e).1 (child_range e).2 = Some (inner x.2) /\
  match outer x.2 with Some xs => costable e = true /\ base_price e = fold_left sum xs (m_price x.2) | None => costable e = false end.

Lemma slice_app {A} (l k s : list A) a b : slice l a b = Some s -> slice (l ++ k) a b = Some s.
Proof.
  unfold slice. intros H. destruct ((a <=? b)%nat && (b <=? length l)%nat) eqn:E; [|done]. apply andb_prop in E as [E1%Nat.leb_le E2%Nat.leb_le].
  rewrite length_app, (proj2 (Nat.leb_le _ _)), (proj2 (Nat.leb_le _ _)) by lia. cbn. rewrite drop_app_le by lia. rewrite take_app_le by (rewrite length_drop; lia). done.
Qed.

Lemma entry_for_app kids k e x : entry_for kids e x -> entry_for (kids ++ k) e x.
Proof. intros (? & ? & ? & ?). repeat split; [done|done|by apply slice_app|done]. Qed.

(** The edges of members from a position on. *)
Fixpoint edges_from (position : nat) (l : list (nat * Member)) : list (Z * Z) :=
  match l with [] => [] | x :: l => ((fun s => (Z.of_nat s, as_u32 position)) <$> inner x.2) ++ edges_from (S position) l end.

Lemma edges_from_app p l k : edges_from p (l ++ k) = edges_from p l ++ edges_from (p + length l) k.
Proof.
  revert p; induction l as [|x l IH]; intros p; cbn [app edges_from length]; [by rewrite Nat.add_0_r|].
  rewrite IH, app_assoc. do 2 f_equal. lia.
Qed.

(** The table after the members [seen]. *)
Definition pushed (seen : list (nat * Member)) (es : list Entry) (kids : list nat) (edges : list (Z * Z)) : Prop :=
  Forall2 (entry_for kids) es seen /\ edges = edges_from 0 seen.

Lemma push_spec index slot m seen es kids edges : index_ok index -> Forall (fun c => 0 <= c /\ (Z.to_nat c < bound)%nat) (m_children m) ->
  pushed seen es kids edges ->
  exists es' kids' edges', push index outside slot m es kids edges = Some (es', kids', edges') /\ pushed (seen ++ [(slot, m)]) es' kids' edges'.
Proof.
  intros Hi Hm [Hes ->]. unfold push.
  destruct (push_children_spec index (as_u32 (length es)) (m_children m) Hi Hm (m_price m) true kids (edges_from 0 seen)) as (b & ok & -> & H).
  cbn [mbind option_bind]. fold (inner m). do 3 eexists. split; [done|]. split.
  - apply Forall2_app.
    + revert Hes. apply Forall2_impl. intros. by apply entry_for_app.
    + constructor; [|constructor]. split; [done|]. split; [done|]. cbn [child_range fst snd]. split.
      * unfold slice. rewrite length_app, (proj2 (Nat.leb_le _ _)), (proj2 (Nat.leb_le _ _)) by lia. cbn.
        rewrite drop_app_length. f_equal. apply take_ge. lia.
      * fold (outer m) in H. cbn [snd costable base_price]. by destruct (outer m).
  - rewrite edges_from_app. cbn [edges_from]. rewrite app_nil_r. cbn [snd]. by rewrite (Forall2_length Hes).
Qed.

Lemma push_all_spec index slot ms : index_ok index -> Forall (fun m => Forall (fun c => 0 <= c /\ (Z.to_nat c < bound)%nat) (m_children m)) ms ->
  forall seen es kids edges, pushed seen es kids edges ->
  exists es' kids' edges', push_all index outside slot ms es kids edges = Some (es', kids', edges') /\ pushed (seen ++ (pair slot <$> ms)) es' kids' edges'.
Proof.
  intros Hi. induction 1 as [|m ms Hm Hms IH]; intros seen es kids edges Hp; cbn [push_all].
  - exists es, kids, edges. cbn. by rewrite app_nil_r.
  - destruct (push_spec index slot m seen es kids edges Hi Hm Hp) as (es1 & k1 & e1 & -> & H1). cbn [mbind option_bind].
    destruct (IH _ _ _ _ H1) as (es' & k' & e' & -> & H'). exists es', k', e'. split; [done|]. rewrite <- app_assoc in H'. done.
Qed.

Lemma push_ids_spec index rest : index_ok index -> forall slot seen es kids edges, pushed seen es kids edges -> flat = seen ++ flat_from slot rest ->
  exists es' kids' edges', push_ids index outside members slot rest es kids edges = Some (es', kids', edges') /\ pushed flat es' kids' edges'.
Proof.
  intros Hi. induction rest as [|id rest IH]; intros slot seen es kids edges Hp Hf; cbn [push_ids flat_from] in *.
  - exists es, kids, edges. split; [done|]. rewrite app_nil_r in Hf. by rewrite Hf.
  - assert (Forall (fun m => Forall (fun c => 0 <= c /\ (Z.to_nat c < bound)%nat) (m_children m)) (members id)) as Hms.
    { apply Forall_forall. intros m Hm%list_elem_of_In. apply (in_children Hin slot m). rewrite Hf, !elem_of_app. right; left. apply list_elem_of_fmap. by exists m. }
    destruct (push_all_spec index slot (members id) Hi Hms seen es kids edges Hp) as (es1 & k1 & e1 & -> & H1).
    cbn [mbind option_bind]. apply (IH (S slot) _ _ _ _ H1). by rewrite <- app_assoc.
Qed.

(** ** The table represents the members *)

Lemma flat_from_lookup l : forall slot q s m, flat_from slot l !! q = Some (s, m) -> exists id, (slot <= s)%nat /\ l !! (s - slot)%nat = Some id /\ m ∈ members id.
Proof.
  induction l as [|id l IH]; intros slot q s m H; cbn [flat_from] in H; [done|]. apply lookup_app_Some in H as [H|[_ H]].
  - rewrite list_lookup_fmap in H. destruct (members id !! q) as [m'|] eqn:E; [|done]. injection H as -> ->. exists id. split; [done|].
    rewrite Nat.sub_diag. split; [done|]. by eapply list_elem_of_lookup_2.
  - destruct (IH _ _ _ _ H) as (id' & Hle & Hl & Hm). exists id'. split; [lia|]. split; [|done]. by replace (s - slot)%nat with (S (s - S slot)) by lia.
Qed.

Lemma flat_from_in l : forall slot s id m, l !! s = Some id -> m ∈ members id -> (slot + s, m)%nat ∈ flat_from slot l.
Proof.
  induction l as [|id' l IH]; intros slot s id m Hs Hm; [done|]. cbn [flat_from]. apply elem_of_app. destruct s as [|s]; cbn in Hs.
  - left. injection Hs as ->. rewrite Nat.add_0_r. apply list_elem_of_fmap. by exists m.
  - right. replace (slot + S s)%nat with (S slot + s)%nat by lia. by apply (IH (S slot) s id).
Qed.

Lemma edges_from_in (x : Z) l : forall p q, (x, q) ∈ edges_from p l <-> exists i y s, l !! i = Some y /\ s ∈ inner y.2 /\ x = Z.of_nat s /\ q = as_u32 (p + i).
Proof.
  induction l as [|y l IH]; intros p q; cbn [edges_from].
  - split; [intros H; by apply elem_of_nil in H|]. by intros (i & y & s & H & _).
  - rewrite elem_of_app, list_elem_of_fmap, IH. split.
    + intros [(s & [= -> ->] & Hs)|(i & y' & s & ? & ? & ? & ->)]; [exists 0%nat, y, s; rewrite Nat.add_0_r; done|]. exists (S i), y', s. rewrite Nat.add_succ_r. done.
    + intros ([|i] & y' & s & Hi & Hs & -> & ->); cbn in Hi; [injection Hi as <-; left; exists s; by rewrite Nat.add_0_r|]. right. exists i, y', s. by rewrite Nat.add_succ_r.
Qed.

Lemma edges_length p l : (length (edges_from p l) <= length (concat ((fun x => m_children x.2) <$> l)))%nat.
Proof.
  revert p; induction l as [|y l IH]; intros p; [done|]. cbn [edges_from fmap list_fmap concat]. rewrite !length_app, length_fmap. specialize (IH (S p)).
  unfold inner. assert (forall cs, length (omap slot_of cs) <= length cs)%nat as Ho; [|by apply Nat.add_le_mono; [apply Ho|exact IH]].
  induction cs as [|c cs IHc]; [done|]. cbn. destruct (slot_of c); cbn [length]; lia.
Qed.

Lemma values_in k (l : list (Z * Z)) x : x ∈ values k l <-> exists key, Z.to_nat key = k /\ (key, x) ∈ l.
Proof.
  unfold values. rewrite list_elem_of_fmap. split.
  - intros ([key y] & -> & [H ?]%list_elem_of_filter). by exists key.
  - intros (key & H & ?). exists (key, x). split; [done|]. by apply list_elem_of_filter.
Qed.

Lemma inner_in m s id : ids !! s = Some id -> s ∈ inner m <-> id ∈ m_children m.
Proof.
  intros Hs. unfold inner. rewrite list_elem_of_omap. split.
  - intros (c & Hc & H%slot_of_some). assert (c = id) as -> by congruence. done.
  - intros H. exists id. split; [done|]. by apply slot_of_at; [apply in_nodup|].
Qed.

Lemma add_costs_spec cost slots : Forall (fun s => s < length cost)%nat slots -> forall total,
  add_costs cost slots total = Some (match mapM (fun s => mjoin (cost !! s)) slots with Some ys => Some (fold_left sum ys total) | None => None end).
Proof.
  induction 1 as [|s slots Hs Hl IH]; intros total; [done|]. cbn [add_costs mapM]. destruct (lookup_lt_is_Some_2 cost s Hs) as [c Hc]. rewrite Hc. cbn [mbind option_bind mjoin option_join].
  destruct c as [c|]; [|done]. rewrite IH. cbn [mbind option_bind]. by destruct (mapM _ slots).
Qed.

(** The children of a member are its outer and its inner ones. *)
Lemma split_children cost cs :
  match mapM (fun c => if decide (c ∈ ids) then env ids cost c else outside c) cs with
  | Some xs => exists os ys, mapM outside (base.filter (fun c => c ∉ ids) cs) = Some os /\ mapM (fun s => mjoin (cost !! s)) (omap slot_of cs) = Some ys /\ xs ≡ₚ os ++ ys
  | None => mapM outside (base.filter (fun c => c ∉ ids) cs) = None \/ mapM (fun s => mjoin (cost !! s)) (omap slot_of cs) = None
  end.
Proof.
  induction cs as [|c cs IH]; cbn [mapM]; [by exists [], []|]. rewrite list.filter_cons. cbn [omap list_omap]. destruct (decide (c ∈ ids)) as [Hc|Hc].
  - rewrite decide_False by tauto. destruct (slot_of_in _ (in_nodup Hin) c Hc) as (s & Hs & _). assert (env ids cost c = mjoin (cost !! s)) as -> by (unfold env; by rewrite Hs). rewrite Hs. cbn [mbind option_bind mapM].
    destruct (mjoin (cost !! s)) as [x|]; [|by right]. destruct (mapM _ cs) as [xs|]; cbn [mbind option_bind].
    + destruct IH as (os & ys & -> & -> & Hp). exists os, (x :: ys). split; [done|]. split; [done|]. rewrite Hp. by apply Permutation_middle.
    + destruct IH as [-> | ->]; [by left|by right].
  - rewrite decide_True by done. destruct (slot_of c) as [s|] eqn:Hs; [apply slot_of_some in Hs; destruct Hc; by eapply list_elem_of_lookup_2|]. cbn [mapM].
    destruct (outside c) as [x|]; [|by left]. destruct (mapM _ cs) as [xs|]; cbn [mbind option_bind].
    + destruct IH as (os & ys & -> & -> & Hp). exists (x :: os), ys. split; [done|]. split; [done|]. by rewrite Hp.
    + destruct IH as [-> | ->]; [by left|by right].
Qed.

Context (Hpriced : priced ids outside members).

(** The cost the table gives a member is the total of its price and children. *)
Lemma entry_cost t e s m cost id : (s, m) ∈ flat -> ids !! s = Some id -> m ∈ members id -> good ids outside members cost -> length cost = length ids ->
  entry_for (children t) e (s, m) -> cost_of t e cost = Some (mval ids outside cost m).
Proof.
  intros Hf Hs Hm Hg Hl (_ & _ & Hslice & Hout). unfold cost_of, mval. cbn [snd] in *. unfold outer in Hout. pose proof (split_children cost (m_children m)) as Hsp.
  fold (inner m) in Hsp. destruct (mapM outside _) as [os|] eqn:Eo.
  2:{ rewrite Hout. cbn. destruct (mapM _ (m_children m)); [|done]. destruct Hsp as (? & ? & ? & _). congruence. }
  destruct Hout as [-> Hbase]. cbn [negb]. rewrite Hslice. cbn [mbind option_bind]. rewrite add_costs_spec.
  2:{ apply Forall_forall. intros s' Hs'%list_elem_of_In. unfold inner in Hs'. apply list_elem_of_omap in Hs' as (c & _ & Hc%slot_of_some). rewrite Hl. by eapply lookup_lt_Some. }
  destruct (mapM _ (m_children m)) as [xs|] eqn:Ex.
  - destruct Hsp as (os' & ys & Eos & -> & Hp). assert (os' = os) as -> by congruence. cbn [mbind option_bind]. do 2 f_equal. rewrite Hbase, <- fold_left_app.
    destruct (member_terms_ok ids outside members Hpriced cost id m xs Hg (list_elem_of_lookup_2 _ _ _ Hs) Hm) as [Hok Hsafe].
    { apply mapM_Some in Ex. revert Ex. apply Forall2_impl. intros c y. unfold child_cost. case_decide; [by right|by left]. }
    inversion Hok as [|?? Hprice Hxs]; subst. unfold total. assert (m_price m :: xs ≡ₚ m_price m :: os ++ ys) as Hperm by (by constructor).
    rewrite (total_perm _ _ Hperm). apply sums_total; [done|by rewrite <- Hp|by apply (safe_perm _ _ Hperm)].
  - destruct Hsp as [Hn|Hn]; [congruence|]. by rewrite Hn.
Qed.

Lemma table_built : exists index es kids edges csr, fill_index 0 ids (replicate bound NONE) = Some index /\
  push_ids index outside members 0 ids [] [] [] = Some (es, kids, edges) /\ build (length ids) edges = Some csr /\
  table_ok ids outside members (mkTable es csr kids) flat.
Proof.
  destruct (fill_index_spec ids 0 (replicate bound NONE) (drop_0 _)) as (index & Hidx & Hi); [apply length_replicate| |].
  { intros c Hc Hb. rewrite lookup_replicate_2 by done. by destruct (slot_of c). }
  destruct (push_ids_spec index ids Hi 0 [] [] [] []) as (es & kids & edges & Hpush & Hes & ->); [by split; [constructor|]|done|].
  assert (forall q s m, flat !! q = Some (s, m) -> exists id, ids !! s = Some id /\ m ∈ members id) as Hflat.
  { intros q s m H. destruct (flat_from_lookup ids 0 q s m H) as (id & _ & Hs & Hm). rewrite Nat.sub_0_r in Hs. by exists id. }
  assert (forall x p, (x, p) ∈ edges_from 0 flat -> (Z.to_nat x < length ids)%nat /\ (Z.to_nat p < length flat)%nat) as Hedge.
  { intros x p (i & [s' m] & s & Hy & Hs & -> & ->)%edges_from_in. rewrite Nat2Z.id. apply list_elem_of_omap in Hs as (c & _ & Hc%slot_of_some).
    apply lookup_lt_Some in Hc. apply lookup_lt_Some in Hy. pose proof (in_flat Hin). rewrite as_u32_small by lia. lia. }
  destruct (csr_groups (length ids) (edges_from 0 flat)) as (csr & Hcsr & Hget).
  { apply Forall_forall. intros [x p] H%list_elem_of_In. by apply (Hedge x p). }
  { pose proof (edges_length 0 flat). pose proof (in_edges Hin). lia. }
  exists index, es, kids, (edges_from 0 flat), csr. do 3 (split; [done|]). split; cbn [entries children parents].
  - done.
  - intros s id m Hs Hm. apply list_elem_of_lookup. by apply (flat_from_in ids 0 s id).
  - by rewrite (Forall2_length Hes).
  - intros q s m Hq. destruct (Forall2_lookup_r _ _ _ _ _ Hes Hq) as (e & He & Hfor). destruct (Hflat q s m Hq) as (id & Hs & Hm). exists e.
    split; [done|]. split; [apply Hfor|]. split; [apply Hfor|]. split.
    + intros cost Hg Hl. apply (entry_cost _ e s m cost id); try done. by eapply list_elem_of_lookup_2.
    + exists (inner m). split; [apply Hfor|]. intros id' Hs'. apply eq_true_iff_eq. rewrite bool_decide_eq_true, <- (inner_in m s id' Hs'), existsb_exists, list_elem_of_In.
      split; [intros (x & Hx & ->%Nat.eqb_eq); done|]. intros Hx. exists s. split; [done|apply Nat.eqb_refl].
  - intros s id Hs. assert (s < length ids)%nat as Hlt by (by eapply lookup_lt_Some). pose proof (in_ids Hin). rewrite Hget, as_u32_small, Nat2Z.id, (proj2 (Nat.ltb_lt _ _)) by lia.
    eexists. split; [done|]. split.
    + apply Forall_forall. intros p (x & _ & Hx)%list_elem_of_In%values_in. by apply (Hedge x p).
    + intros q s' m Hq Hid. exists (Z.of_nat q). split; [|lia]. apply values_in. exists (Z.of_nat s). split; [lia|].
      apply edges_from_in. exists q, (s', m), s. split; [done|]. split; [by apply (inner_in m s id)|]. split; [done|].
      apply lookup_lt_Some in Hq. pose proof (in_flat Hin). by rewrite as_u32_small by lia.
Qed.
End Built.
