(* ===== verification/ExtractTheorems.v ===== *)
(** * What extraction guarantees

    [fold] returns the least cost of every id with the first member that
    attains it ([fold_least]), with positive prices reading the answers off ends
    ([positive_prices_expand]), and folding only the ids that changed, over
    the costs of an earlier fold, gives the answer of a full fold
    ([refresh_is_full]). *)
From S2P Require Import Prelude Words Extract ExtractSpec ExtractTable.
#[local] Open Scope Z_scope.
#[local] Open Scope list_scope.

(** ** Choosing a member *)

Lemma find_first {A} (f : A -> bool) l x : List.find f l = Some x ->
  exists pre post, l = pre ++ x :: post /\ f x = true /\ Forall (fun y => f y = false) pre.
Proof.
  induction l as [|y l IH]; [done|]. cbn. destruct (f y) eqn:E.
  - intros [= ->]. by exists [], l.
  - intros (pre & post & -> & Hx & Hpre)%IH. exists (y :: pre), post. split; [done|]. split; [done|]. by constructor.
Qed.

Lemma find_app {A} (f : A -> bool) l k : List.find f (l ++ k) = match List.find f l with Some x => Some x | None => List.find f k end.
Proof. induction l as [|x l IH]; [done|]. cbn. by destruct (f x). Qed.

Section Choose.
Context (ids : list Z) (outside : Z -> option Z) (members : Z -> list Member).
Hypothesis ids_nodup : NoDup ids.
Hypothesis Hpriced : priced ids outside members.
Context (t : Table) (l : list (nat * Member)).
Hypothesis Htable : table_ok ids outside members t l.
Context (cost : list (option Z)).
Hypothesis Hfinal : final ids outside members l cost.

Notation env := (env ids cost).
Notation mval := (mval ids outside cost).

Definition candidate (id : Z) (m : Member) : bool := bool_decide (mval m = env id) && negb (bool_decide (id ∈ m_children m)).
Definition of_slot (s : nat) (id : Z) (x : nat * Member) : bool := (x.1 =? s)%nat && candidate id x.2.
Definition pick (s : nat) (id : Z) (seen : list (nat * Member)) : option (Z * Z) :=
  c ← env id; x ← List.find (of_slot s id) seen; Some (m_tag x.2, c).

Lemma choose_spec rest : forall k seen chosen, l = seen ++ rest -> k = length seen -> length chosen = length ids ->
  (forall s id, ids !! s = Some id -> chosen !! s = Some (pick s id seen)) ->
  exists chosen', choose t cost (drop k (entries t)) chosen = Some chosen' /\ length chosen' = length ids /\
    forall s id, ids !! s = Some id -> chosen' !! s = Some (pick s id l).
Proof.
  induction rest as [|[s m] rest IH]; intros k seen chosen Hl -> Hlen Hch.
  { rewrite app_nil_r in Hl. subst seen. rewrite drop_ge by (by rewrite (tk_len _ _ _ _ _ Htable)). by exists chosen. }
  assert (l !! length seen = Some (s, m)) as Hq by (rewrite Hl, lookup_app_r, Nat.sub_diag by lia; done).
  destruct (tk_entry _ _ _ _ _ Htable _ s m Hq) as (e & He & Hs & Htag & Hcost & kids & Hkids & Hself).
  destruct (tk_flat _ _ _ _ _ Htable _ s m Hq) as (id & Hid & Hm). rewrite (drop_S _ _ _ He). cbn [choose]. rewrite Hs, Htag.
  assert (s < length ids)%nat as Hlt by (by eapply lookup_lt_Some). pose proof (fi_length _ _ _ _ _ Hfinal) as Hcl.
  assert (forall chosen1, length chosen1 = length ids -> (forall s' id', ids !! s' = Some id' -> chosen1 !! s' = Some (pick s' id' (seen ++ [(s, m)]))) ->
    exists chosen', choose t cost (drop (S (length seen)) (entries t)) chosen1 = Some chosen' /\ length chosen' = length ids /\
      forall s id, ids !! s = Some id -> chosen' !! s = Some (pick s id l)) as Hnext.
  { intros chosen1 Hl1 H1. apply (IH _ (seen ++ [(s, m)])); [by rewrite <- app_assoc|by rewrite length_app, Nat.add_1_r|done|done]. }
  assert (forall s' id', ids !! s' = Some id' -> s' <> s -> pick s' id' (seen ++ [(s, m)]) = pick s' id' seen) as Hother.
  { intros s' id' _ Hne. unfold pick. rewrite find_app. cbn [List.find]. unfold of_slot at 2. cbn [fst snd]. rewrite (proj2 (Nat.eqb_neq s s')) by done. by destruct (List.find _ seen). }
  assert (pick s id (seen ++ [(s, m)]) = pick s id seen -> exists chosen', choose t cost (drop (S (length seen)) (entries t)) chosen = Some chosen' /\ length chosen' = length ids /\
      forall s id, ids !! s = Some id -> chosen' !! s = Some (pick s id l)) as Hskip.
  { intros Heq. apply Hnext; [done|]. intros s' id' Hid'. rewrite (Hch s' id' Hid'). destruct (decide (s' = s)) as [->|]; [|by rewrite Hother].
    assert (id' = id) as -> by congruence. by rewrite Heq. }
  destruct (lookup_lt_is_Some_2 cost s) as [c Hc]; [lia|]. rewrite Hc. cbn [mbind option_bind].
  assert (env id = c) as Henv by (by rewrite (env_at ids ids_nodup cost s id Hid), Hc).
  destruct c as [c|]; [|apply Hskip; unfold pick; by rewrite Henv]. rewrite (Hch s id Hid). cbn [mbind option_bind].
  assert (pick s id (seen ++ [(s, m)]) = match pick s id seen with Some x => Some x | None => if candidate id m then Some (m_tag m, c) else None end) as Hpick.
  { unfold pick. rewrite Henv, find_app. cbn [mbind option_bind List.find]. destruct (List.find _ seen); [done|]. unfold of_slot. cbn [fst snd]. rewrite Nat.eqb_refl. cbn [andb].
    by destruct (candidate id m). }
  destruct (pick s id seen) as [x|] eqn:Ep; [by apply Hskip|]. rewrite Hcost by (done || apply Hfinal). cbn [mbind option_bind]. rewrite Hkids.
  cbn [mbind option_bind]. rewrite (Hself id Hid). unfold candidate in Hpick. rewrite Henv in Hpick.
  case_bool_decide as Hv; [|by apply Hskip]. cbn [andb] in Hpick. case_bool_decide; cbn [negb] in Hpick; [by apply Hskip|].
  apply Hnext; [by rewrite length_insert|]. intros s' id' Hid'. destruct (decide (s' = s)) as [->|Hne].
  - assert (id' = id) as -> by congruence. by rewrite list_lookup_insert_eq, Hpick by lia.
  - rewrite list_lookup_insert_ne by done. by rewrite (Hch s' id' Hid'), Hother.
Qed.
End Choose.

Lemma find_of_slot ids outside members cost s id l : forall slot, l !! (s - slot)%nat = Some id -> (slot <= s)%nat ->
  List.find (of_slot ids outside cost s id) (flat_from members slot l) = pair s <$> List.find (candidate ids outside cost id) (members id).
Proof.
  assert (forall f s' ms, s' <> s -> List.find (fun x : nat * Member => (x.1 =? s)%nat && f x.2) (pair s' <$> ms) = None) as Hno.
  { intros f s' ms Hne. induction ms as [|m ms IH]; [done|]. cbn. by rewrite (proj2 (Nat.eqb_neq s' s)). }
  assert (forall slot l, (s < slot)%nat -> List.find (of_slot ids outside cost s id) (flat_from members slot l) = None) as Hpast.
  { intros slot l0. revert slot. induction l0 as [|id' l0 IH]; intros slot Hlt; [done|]. cbn [flat_from]. rewrite find_app. unfold of_slot at 1. rewrite Hno by lia. apply IH. lia. }
  induction l as [|id' l IH]; intros slot Hs Hle; [done|]. cbn [flat_from]. rewrite find_app. destruct (decide (slot = s)) as [->|Hne].
  - rewrite Nat.sub_diag in Hs. injection Hs as ->. rewrite Hpast by lia.
    assert (forall ms, List.find (of_slot ids outside cost s id) (pair s <$> ms) = pair s <$> List.find (candidate ids outside cost id) ms) as ->; [|by destruct (List.find _ _)].
    induction ms as [|m ms IHm]; [done|]. cbn. unfold of_slot at 1. cbn [fst snd]. rewrite Nat.eqb_refl. cbn [andb]. by destruct (candidate _ _ _ _ m).
  - unfold of_slot at 1. rewrite Hno by done. apply IH; [|lia]. by replace (s - slot)%nat with (S (s - S slot)) in Hs by lia.
Qed.

(** ** [fold] *)

Section Fold.
Context (bound : nat) (ids : list Z) (outside : Z -> option Z) (members : Z -> list Member).

(** [m] spells [id] at the cost [c], its children at their least costs. *)
Definition attains (id : Z) (m : Member) (c : Z) : Prop :=
  id ∉ m_children m /\ exists xs, Forall2 (child_cost ids outside (least ids outside members)) (m_children m) xs /\ c = total m xs.

(** What [fold] answers for an id. *)
Definition answer_ok (id : Z) (answer : option (Z * Z)) : Prop :=
  match answer with
  | None => forall c, ~ spelled ids outside members id c
  | Some (tg, c) => least ids outside members id c /\ exists pre m post, members id = pre ++ m :: post /\ m_tag m = tg /\
      attains id m c /\ Forall (fun m' => ~ attains id m' c) pre
  end.

Context (Hin : input_ok bound ids members) (Hpriced : priced ids outside members).

Lemma candidate_attains t cost id m c : table_ok ids outside members t (flat ids members) -> final ids outside members (flat ids members) cost ->
  id ∈ ids -> env ids cost id = Some c -> candidate ids outside cost id m = true <-> attains id m c.
Proof.
  intros Ht Hf Hid Hc. unfold candidate, attains. rewrite andb_true_iff, bool_decide_eq_true, negb_true_iff, bool_decide_eq_false, Hc, mval_some.
  split; (intros [H1 H2]; split; [try done|try done]); [destruct H1 as (xs & Hxs & ->)|destruct H2 as (xs & Hxs & ->)]; exists xs; (split; [|done]);
    revert Hxs; apply Forall2_impl; intros x y [?|[Hx Hy]]; (by left) || right; (split; [done|]);
    by apply (final_least ids outside members (in_nodup _ _ _ Hin) Hpriced t (flat ids members) Ht cost x y Hf Hx).
Qed.

(** Some member attains the least cost. *)
Lemma attained t cost id c : table_ok ids outside members t (flat ids members) -> final ids outside members (flat ids members) cost ->
  id ∈ ids -> env ids cost id = Some c -> exists m, m ∈ members id /\ attains id m c.
Proof.
  intros Ht Hf Hid Hc. destruct (proj1 (final_least ids outside members (in_nodup _ _ _ Hin) Hpriced t _ Ht cost id c Hf Hid) Hc) as [[n Hn] _].
  destruct n as [|n]; [done|]. cbn [spells] in Hn. destruct Hn as (_ & m & cs & Hm & Hcs & Ecs). exists m. split; [done|].
  destruct (member_knows ids outside members (in_nodup _ _ _ Hin) Hpriced t _ Ht cost n id m cs (fi_good _ _ _ _ _ Hf) (final_knows ids outside members (in_nodup _ _ _ Hin) Hpriced t _ Ht cost n Hf) Hid Hm Hcs) as (x & Hx & Hle).
  destruct (slot_of_in ids (in_nodup _ _ _ Hin) id Hid) as (s & _ & Hs). destruct (tk_members _ _ _ _ _ Ht s id m Hs Hm) as [q Hq].
  destruct (fi_settled _ _ _ _ _ Hf q (lookup_lt_Some _ _ _ Hq) s m x Hq Hx) as (b & Hb & Hbx).
  assert (b = c) as -> by (rewrite (env_at ids (in_nodup _ _ _ Hin) cost s id Hs), Hb in Hc; by injection Hc).
  apply (candidate_attains t cost id m c Ht Hf Hid Hc). unfold candidate. assert (x = c) as -> by lia. rewrite Hx, Hc, bool_decide_true by done. cbn [andb].
  apply negb_true_iff, bool_decide_eq_false. intros Hself. clear -Hcs Hself Hid.
  induction Hcs as [|z y zs ys Hy Hcs IH]; [by apply elem_of_nil in Hself|]. apply elem_of_cons in Hself as [<-|?]; [|by apply IH].
  destruct Hy as [[? _]|[_ Hy]]; [done|]. destruct n; [done|]. cbn [spells] in Hy. destruct Hy as [Hy _]. apply Hy. by left.
Qed.

(** [fold] answers every id. *)
Lemma fold_answers fuel : (length ids + 1 <= fuel)%nat ->
  exists answers, fold bound ids outside members fuel = Some answers /\ length answers = length ids /\
    forall s id, ids !! s = Some id -> exists answer, answers !! s = Some answer /\ answer_ok id answer.
Proof.
  intros Hfuel. pose proof (in_nodup _ _ _ Hin) as Hnd.
  destruct (table_built bound ids outside members Hin Hpriced) as (index & es & kids & edges & csr & E1 & E2 & E3 & Ht).
  unfold fold. rewrite E1. cbn [mbind option_bind]. rewrite E2. cbn [mbind option_bind]. rewrite E3. cbn [mbind option_bind].
  destruct (costs_spec ids outside members Hnd Hpriced _ _ Ht fuel Hfuel) as (cost & -> & Hf). cbn [mbind option_bind].
  destruct (choose_spec ids outside members Hnd _ _ Ht cost Hf (flat ids members) 0 [] (replicate (length ids) None)) as (answers & Hch & Hlen & Hans); [done|done|apply length_replicate| |].
  { intros s id Hs. unfold pick. cbn [List.find]. rewrite lookup_replicate_2 by (by eapply lookup_lt_Some). by destruct (env ids cost id). }
  cbn [drop entries] in Hch. exists answers. split; [done|]. split; [done|]. intros s id Hs. rewrite (Hans s id Hs). eexists. split; [done|].
  assert (id ∈ ids) as Hid by (by eapply list_elem_of_lookup_2). unfold pick, flat. rewrite (find_of_slot _ _ _ _ _ id) by (rewrite ?Nat.sub_0_r; done || lia).
  destruct (env ids cost id) as [c|] eqn:Hc; cbn [mbind option_bind answer_ok].
  2:{ intros c [n Hn]. destruct (final_knows ids outside members (in_nodup _ _ _ Hin) Hpriced _ _ Ht cost n Hf id c Hid Hn) as (b & Hb & _). congruence. }
  destruct (attained _ _ _ _ Ht Hf Hid Hc) as (m0 & Hm0 & Ha0). destruct (List.find _ (members id)) as [m|] eqn:Hfind; cbn.
  - apply find_first in Hfind as (pre & post & Hms & Hm & Hpre). split; [by apply (final_least ids outside members (in_nodup _ _ _ Hin) Hpriced _ _ Ht cost id c Hf Hid)|].
    exists pre, m, post. split; [done|]. split; [done|]. split; [by apply (candidate_attains _ cost id m c Ht Hf Hid Hc)|].
    revert Hpre. apply Forall_impl. intros m' Hm' Ha. apply (candidate_attains _ cost id m' c Ht Hf Hid Hc) in Ha. congruence.
  - apply (candidate_attains _ cost id m0 c Ht Hf Hid Hc) in Ha0. apply list_elem_of_In in Hm0. by rewrite (List.find_none _ _ Hfind m0 Hm0) in Ha0.
Qed.
(** C7: With sums of prices along spellings that do not reach the unpriced
    value, [fold] terminates within one round more than there are ids, without
    panicking. For each id it answers with the least cost of its spellings and
    the tag of the first member, in scan order, that attains it without having
    the id for a child; it answers with nothing exactly for the ids that have
    no spelling. *)
Theorem fold_least fuel : (length ids + 1 <= fuel)%nat ->
  exists answers, fold bound ids outside members fuel = Some answers /\ length answers = length ids /\
    forall s id, ids !! s = Some id -> exists answer, answers !! s = Some answer /\ answer_ok id answer.
Proof. exact (fold_answers fuel). Qed.
End Fold.

(** ** Reading off the answers *)

Section Expand.
Context (bound : nat) (ids : list Z) (outside : Z -> option Z) (members : Z -> list Member).
Context (Hin : input_ok bound ids members) (Hpriced : priced ids outside members).

Notation attains := (attains ids outside members).
Notation least := (least ids outside members).

(** Reading an id off [answers], the member of the answered tag and then its
    children, ends at height [n] at most with a term of cost [c]. *)
Fixpoint reads_off (answers : list (option (Z * Z))) (n : nat) (id c : Z) : Prop :=
  match n with
  | O => False
  | S n => exists s tg m xs, ids !! s = Some id /\ answers !! s = Some (Some (tg, c)) /\
      List.find (fun m => m_tag m =? tg) (members id) = Some m /\
      Forall2 (child_cost ids outside (reads_off answers n)) (m_children m) xs /\ c = total m xs
  end.

(** Taking [m] for [id] costs more than its children that are ids, or is
    passed over because it has [id] for a child. *)
Definition settles (id : Z) (m : Member) : Prop :=
  0 < m_price m \/ id ∈ m_children m \/ Forall (fun c => c ∉ ids) (m_children m).

Lemma reads_height answers n : forall n' id c, (n <= n')%nat -> reads_off answers n id c -> reads_off answers n' id c.
Proof.
  induction n as [|n IH]; intros n' id c Hn H; [done|]. destruct n' as [|n']; [lia|]. destruct H as (s & tg & m & xs & Hs & Ha & Hm & Hxs & ->).
  exists s, tg, m, xs. do 3 (split; [done|]). split; [|done]. revert Hxs. apply children_mono. intros. apply IH; [lia|done].
Qed.

Lemma find_tagged pre m post : NoDup (m_tag <$> pre ++ m :: post) -> List.find (fun m' => m_tag m' =? m_tag m) (pre ++ m :: post) = Some m.
Proof.
  induction pre as [|x pre IH]; cbn; [by rewrite Z.eqb_refl|]. intros Hn. inversion Hn as [|?? Hx Hn']; subst. destruct (Z.eqb_spec (m_tag x) (m_tag m)) as [E|]; [|by apply IH].
  exfalso. apply Hx. rewrite E. apply list_elem_of_fmap. exists m. split; [done|]. set_solver.
Qed.

Lemma least_unique id c c' : least id c -> least id c' -> c = c'.
Proof. intros [H1 H2] [H1' H2']. specialize (H2 c' H1'). specialize (H2' c H1). lia. Qed.

(** A positive price makes a finite total exceed the terms it adds. *)
Lemma total_gt m xs x : 0 < m_price m -> Forall price_ok (m_price m :: xs) -> total m xs < UNPRICED -> x ∈ xs -> x < total m xs.
Proof.
  intros Hp Hok Hfin Hx. unfold total, total_of in *. destruct (unpriced _); [lia|]. inversion Hok as [|?? _ Hxs]; subst. cbn.
  assert (x <= foldr Z.add 0 xs); [|lia]. clear -Hxs Hx. induction Hxs as [|y xs Hy Hxs IH]; [by apply elem_of_nil in Hx|].
  pose proof (add_nonneg xs Hxs). unfold price_ok in Hy. cbn. apply elem_of_cons in Hx as [->|Hx]; [lia|]. specialize (IH Hx). lia.
Qed.

Lemma total_above id m xs : id ∈ ids -> m ∈ members id -> 0 < m_price m -> total m xs < UNPRICED ->
  Forall2 (child_cost ids outside least) (m_children m) xs -> Forall (fun y => 0 <= y < total m xs) xs.
Proof.
  intros Hid Hm Hp Hfin Hxs.
  assert (Forall price_ok xs) as Hok by (apply (children_ok ids outside members (m_children m)); [done|]; revert Hxs; apply children_mono; by intros ?? []).
  apply Forall_forall. intros y Hy%list_elem_of_In. pose proof Hok as Hok'. rewrite Forall_forall in Hok'. specialize (Hok' y). unfold price_ok in Hok'.
  split; [apply Hok'; by apply list_elem_of_In|]. apply total_gt; [done|constructor; [by eapply pr_price|done]|done|done].
Qed.

(** C8: Reading the answers of [fold] off ends. Where the tags of an id tell
    its members apart, every member that has an id for a child has a positive
    price or its own id for a child, and the sums of prices along spellings
    do not reach the unpriced value, following the answered members from an id
    whose answer is priced ends with a term of exactly the cost answered. *)
Theorem positive_prices_expand fuel : (length ids + 1 <= fuel)%nat ->
  (forall id, id ∈ ids -> NoDup (m_tag <$> members id)) -> (forall id m, id ∈ ids -> m ∈ members id -> settles id m) ->
  exists answers, fold bound ids outside members fuel = Some answers /\
    forall s id tg c, ids !! s = Some id -> answers !! s = Some (Some (tg, c)) -> c < UNPRICED -> exists n, reads_off answers n id c.
Proof.
  intros Hfuel Htags Hset. destruct (fold_answers bound ids outside members Hin Hpriced fuel Hfuel) as (answers & E & _ & Hans).
  exists answers. split; [done|]. intros s id tg c Hs Ha Hfin.
  assert (forall s id tg c, ids !! s = Some id -> answers !! s = Some (Some (tg, c)) -> answer_ok ids outside members id (Some (tg, c))) as Hok.
  { intros s' id' tg' c' Hs' Ha'. destruct (Hans s' id' Hs') as (a & Ha2 & Hok). by replace (Some (tg', c')) with a by congruence. }
  assert (forall x y, x ∈ ids -> least x y -> exists s tg, ids !! s = Some x /\ answers !! s = Some (Some (tg, y))) as Hleast.
  { intros x y [s' Hs']%list_elem_of_lookup Hy. destruct (Hans s' x Hs') as ([[tg' y']|] & Ha' & Hx); [|by destruct Hy as [Hy _]; apply Hx in Hy].
    exists s', tg'. destruct Hx as [Hx _]. by rewrite (least_unique x y y' Hy Hx). }
  assert (0 <= c) as Hc0.
  { destruct (Hok _ _ _ _ Hs Ha) as [[Hsp _] _]. assert (price_ok c) as [? _]; [|done]. eapply spelled_ok; [done|by eapply list_elem_of_lookup_2|done]. }
  revert s id tg Hs Ha Hfin Hc0. induction (Z.lt_wf 0 c) as [c _ IH]. intros s id tg Hs Ha Hfin Hc0.
  assert (id ∈ ids) as Hid by (by eapply list_elem_of_lookup_2).
  destruct (Hok _ _ _ _ Hs Ha) as (_ & pre & m & post & Hms & <- & (Hself & xs & Hxs & ->) & _). assert (m ∈ members id) as Hm by (rewrite Hms; set_solver).
  assert (exists n, Forall2 (child_cost ids outside (reads_off answers n)) (m_children m) xs) as [n Hn].
  { apply common_height; [intros; by eapply reads_height|]. destruct (Hset id m Hid Hm) as [Hp|[?|Hout]]; [|done|].
    - assert (Forall (fun y => 0 <= y < total m xs) xs) as Hrange by (by apply (total_above id)).
      refine (Forall2_and_r _ _ _ _ _ Hxs Hrange _). intros x y [?|[Hx Hy]] Hr; [by left|right]. split; [done|].
      destruct (Hleast x y Hx Hy) as (s' & tg' & Hs' & Ha'). apply (IH y ltac:(lia) s' x tg'); [done|done|lia|lia].
    - refine (Forall2_and_l _ _ _ _ _ Hxs Hout _). intros x y [?|[Hx Hy]] Hr; [by left|done]. }
  exists (S n), s, (m_tag m), m, xs. split; [done|]. split; [done|]. split; [|done]. specialize (Htags id Hid). rewrite Hms in *. by apply find_tagged.
Qed.
End Expand.

(** ** Layered extractions *)

Definition nothing : Z -> option Z := fun _ => None.

Lemma layer_set (best : Layer) c a id :
  (<[c := a]> best : Layer) !! id = if decide (id = c) then Some a else best !! id.
Proof. unfold Layer in *. case_decide as H; [subst; by apply lookup_insert_eq|by apply lookup_insert_ne]. Qed.

Lemma layer_empty id : (∅ : Layer) !! id = None.
Proof. unfold Layer. apply lookup_empty. Qed.

Lemma settle_out layered l : forall best id, id ∉ l.*1 -> settle layered l best !! id = best !! id.
Proof.
  induction l as [|[c a] l IH]; intros best id Hid; [done|]. rewrite fmap_cons in Hid. apply not_elem_of_cons in Hid as [Hne Hid]. cbn in Hne.
  destruct a as [a|]; cbn [settle]; rewrite IH by done; [by rewrite layer_set, decide_False|]. destruct layered; [by rewrite layer_set, decide_False|done].
Qed.

Lemma settle_in layered l : forall best id a, NoDup l.*1 -> (id, a) ∈ l ->
  settle layered l best !! id = match a with Some a => Some (Some a) | None => if layered then Some None else best !! id end.
Proof.
  induction l as [|[c b] l IH]; intros best id a Hn Hin; [by apply elem_of_nil in Hin|]. rewrite fmap_cons in Hn. inversion_clear Hn as [|?? Hc Hn'].
  cbn in Hc. apply elem_of_cons in Hin as [[= -> ->]|Hin].
  - destruct b as [b|]; cbn [settle]; rewrite settle_out by done; [by rewrite layer_set, decide_True|]. destruct layered; [by rewrite layer_set, decide_True|done].
  - assert (id <> c) as Hne by (intros ->; apply Hc, list_elem_of_fmap; by exists (c, a)).
    destruct b as [b|]; cbn [settle]; rewrite (IH _ id a Hn' Hin); destruct a, layered; try done; by rewrite layer_set, decide_False.
Qed.

(** An extraction answers for the classes it recomputed as [fold] did, and for
    the others as its base. *)
Lemma extraction_spec bound classes base members fuel : input_ok bound classes members -> priced classes (extracted_cost base) members -> (length classes + 1 <= fuel)%nat ->
  exists x, extraction bound classes base members fuel = Some x /\
    (forall id, id ∈ classes -> answer_ok classes (extracted_cost base) members id (chosen x id)) /\
    (forall id, id ∉ classes -> chosen x id = chosen base id).
Proof.
  intros Hin Hp Hfuel. destruct (fold_answers bound classes (extracted_cost base) members Hin Hp fuel Hfuel) as (answers & E & Hlen & Hans). unfold extraction. rewrite E. cbn [mbind option_bind].
  eexists. split; [done|]. assert ((zip classes answers).*1 = classes) as Hfst by (apply fst_zip; lia). split.
  - intros id [s Hs]%list_elem_of_lookup. destruct (Hans s id Hs) as (a & Ha & Hok). cbn [chosen].
    rewrite (settle_in _ _ _ id a); [|rewrite Hfst; by apply (in_nodup bound classes members)|].
    + destruct a as [a|]; [done|]. destruct base; [by rewrite layer_empty|done].
    + apply list_elem_of_lookup. exists s. apply lookup_zip_with_Some. by exists id, a.
  - intros id Hid. cbn [chosen]. by rewrite settle_out, layer_empty by (by rewrite Hfst).
Qed.

Lemma answer_unique ids outside members id a b : answer_ok ids outside members id a -> answer_ok ids outside members id b -> a = b.
Proof.
  destruct a as [[t1 c1]|], b as [[t2 c2]|]; cbn; [|by intros [[H _] _] Hb; destruct (Hb c1)|by intros Ha [[H _] _]; destruct (Ha c2)|done].
  intros [[H1 L1] (p1 & m1 & q1 & E1 & <- & A1 & F1)] [[H2 L2] (p2 & m2 & q2 & E2 & <- & A2 & F2)].
  assert (c1 = c2) as <- by (specialize (L1 c2 H2); specialize (L2 c1 H1); lia). do 2 f_equal. rewrite E1 in E2. clear E1.
  revert p2 E2 F2. induction F1 as [|x p1 Hx F1 IH]; intros [|y p2] E2 F2; cbn in E2; injection E2.
  - by intros _ ->.
  - intros _ ->. inversion F2; subst. done.
  - intros _ ->. done.
  - intros E2' ->. inversion F2; subst. by apply (IH p2).
Qed.

Section Agree.
Context (ids1 ids2 : list Z) (out1 out2 : Z -> option Z) (members1 members2 : Z -> list Member) (K : Z -> Prop).

(** Two graphs that share the part [K], closed under children. *)
Hypothesis shared : forall id, K id -> id ∈ ids1 /\ id ∈ ids2 /\ members1 id = members2 id /\ forall m, m ∈ members1 id -> forall c, c ∈ m_children m -> K c.

Lemma spells_agree n : forall path path' id c, K id -> (forall y, y ∈ path' -> K y -> y ∈ path) ->
  spells ids1 out1 members1 n path id c -> spells ids2 out2 members2 n path' id c.
Proof.
  induction n as [|n IH]; intros path path' id c Hid Hp H; [done|]. cbn [spells] in *. destruct H as (Hnp & m & cs & Hm & Hcs & ->).
  destruct (shared id Hid) as (_ & _ & Hms & Hch). specialize (Hch m Hm). rewrite Hms in Hm. split; [intros Hy; apply Hnp; by apply Hp|]. exists m, cs. split; [done|]. split; [|done].
  clear Hm Hms. induction Hcs as [|x y xs ys Hy Hcs IHc]; constructor; [|apply IHc; intros z Hz; apply Hch; by right].
  assert (K x) as Hx by (apply Hch; by left). destruct (shared x Hx) as (? & ? & _). destruct Hy as [[? _]|[_ Hy]]; [done|]. right. split; [done|].
  apply (IH (id :: path)); [done| |done]. intros z [->|Hz]%elem_of_cons Hk; [by left|right; by apply Hp].
Qed.
End Agree.

Lemma answer_ext ids1 out1 members1 ids2 out2 members2 id a : members1 id = members2 id ->
  (forall c, spelled ids1 out1 members1 id c <-> spelled ids2 out2 members2 id c) ->
  (forall m c, m ∈ members1 id -> attains ids1 out1 members1 id m c <-> attains ids2 out2 members2 id m c) ->
  answer_ok ids1 out1 members1 id a -> answer_ok ids2 out2 members2 id a.
Proof.
  intros Hms Hs Ha. destruct a as [[tg c]|]; cbn; [|intros H c; rewrite <- Hs; apply H].
  intros [[H1 H2] (pre & m & post & E & Ht & Hm & Hpre)]. split; [split; [by apply Hs|intros c' Hc'; apply H2; by apply Hs]|].
  exists pre, m, post. rewrite <- Hms. split; [done|]. split; [done|]. split; [apply Ha; [rewrite E; set_solver|done]|].
  rewrite Forall_forall in Hpre |- *. intros m' Hm' Hatt. apply (Hpre m' Hm'). apply Ha; [rewrite E; apply elem_of_app; left; by apply list_elem_of_In|done].
Qed.

Lemma least_ext ids1 out1 members1 ids2 out2 members2 id c :
  (forall c, spelled ids1 out1 members1 id c <-> spelled ids2 out2 members2 id c) -> least ids1 out1 members1 id c <-> least ids2 out2 members2 id c.
Proof. intros H. unfold least. rewrite H. by setoid_rewrite H. Qed.

Lemma attains_ext ids1 out1 members1 ids2 out2 members2 id m c :
  (forall x y, x ∈ m_children m -> child_cost ids1 out1 (least ids1 out1 members1) x y <-> child_cost ids2 out2 (least ids2 out2 members2) x y) ->
  attains ids1 out1 members1 id m c <-> attains ids2 out2 members2 id m c.
Proof.
  intros H. unfold attains.
  assert (forall xs, Forall2 (child_cost ids1 out1 (least ids1 out1 members1)) (m_children m) xs <-> Forall2 (child_cost ids2 out2 (least ids2 out2 members2)) (m_children m) xs) as He;
    [|by setoid_rewrite He].
  revert H. generalize (m_children m) as cs. induction cs as [|x cs IH]; intros H xs.
  - split; intros Hn; inversion Hn; constructor.
  - split; intros Hn; inversion Hn; subst; constructor; try (apply H; [by left|done]); by apply IH; [intros; apply H; by right|].
Qed.

(** Answers on a shared part are the same. *)
Lemma answers_agree ids1 ids2 members1 members2 (K : Z -> Prop) id a :
  (forall id, K id -> id ∈ ids1 /\ id ∈ ids2 /\ members1 id = members2 id /\ forall m, m ∈ members1 id -> forall c, c ∈ m_children m -> K c) ->
  K id -> answer_ok ids1 nothing members1 id a -> answer_ok ids2 nothing members2 id a.
Proof.
  intros Hk Hid.
  assert (forall id, K id -> id ∈ ids2 /\ id ∈ ids1 /\ members2 id = members1 id /\ forall m, m ∈ members2 id -> forall c, c ∈ m_children m -> K c) as Hk'.
  { intros x Hx. destruct (Hk x Hx) as (? & ? & <- & ?). done. }
  assert (forall x c, K x -> spelled ids1 nothing members1 x c <-> spelled ids2 nothing members2 x c) as Hsp.
  { intros x c Hx. split; intros [n Hn]; exists n; [apply (spells_agree ids1 ids2 nothing nothing members1 members2 K Hk n []) |apply (spells_agree ids2 ids1 nothing nothing members2 members1 K Hk' n [])]; by try done. }
  destruct (Hk id Hid) as (_ & _ & Hms & Hch). apply answer_ext; [done|by intros; apply Hsp|]. intros m c Hm. apply attains_ext. intros x y Hx.
  assert (K x) as Hkx by (by apply (Hch m)). destruct (Hk x Hkx) as (? & ? & _). unfold child_cost. rewrite (least_ext ids1 nothing members1 ids2 nothing members2 x y) by (intros; by apply Hsp). tauto.
Qed.

(** ** Refreshing part of an extraction *)

Section Refresh.
Context (ids dirty : list Z) (members : Z -> list Member) (base : Extraction).
Context (Hpriced : priced ids nothing members).

(** The operands of a member are ids; an id outside [dirty] has no child in
    [dirty]; and the base answers for the ids outside [dirty]. *)
Hypothesis dirty_ids : dirty ⊆ ids.
Hypothesis operands : forall id m c, id ∈ ids -> m ∈ members id -> c ∈ m_children m -> c ∈ ids.
Hypothesis upward : forall id m c, id ∈ ids -> id ∉ dirty -> m ∈ members id -> c ∈ m_children m -> c ∉ dirty.
Hypothesis base_ok : forall id, id ∈ ids -> id ∉ dirty -> answer_ok ids nothing members id (chosen base id).

Notation full_least := (least ids nothing members).
Notation full_spelled := (spelled ids nothing members).

Lemma base_least id x : id ∈ ids -> id ∉ dirty -> extracted_cost base id = Some x <-> full_least id x.
Proof.
  intros Hid Hd. pose proof (base_ok id Hid Hd) as Ha. unfold extracted_cost. destruct (chosen base id) as [[tg c]|]; cbn in *.
  - destruct Ha as [[H1 H2] _]. split; [by intros [= <-]|]. intros [H3 H4]. specialize (H2 x H3). specialize (H4 c H1). f_equal. lia.
  - split; [done|]. intros [H _]. by destruct (Ha x).
Qed.

Lemma clean_avoids n path path' id c : id ∈ ids -> id ∉ dirty -> (forall y, y ∈ path' -> y ∈ dirty) ->
  spells ids nothing members n path id c -> spells ids nothing members n path' id c.
Proof.
  intros Hid Hd Hp. apply (spells_agree ids ids nothing nothing members members (fun x => x ∈ ids /\ x ∉ dirty)); [|done|].
  - intros x [Hx Hxd]. do 3 (split; [done|]). intros m Hm y Hy. split; [by eapply operands|by eapply upward].
  - intros y Hy [_ Hyd]. by apply Hp in Hy.
Qed.

Lemma dirty_to_full n : forall path id c, id ∈ dirty -> (forall y, y ∈ path -> y ∈ dirty) ->
  spells dirty (extracted_cost base) members n path id c -> exists n', spells ids nothing members n' path id c.
Proof.
  induction n as [|n IH]; intros path id c Hid Hp H; [done|]. cbn [spells] in H. destruct H as (Hnp & m & cs & Hm & Hcs & ->).
  assert (exists n', Forall2 (child_cost ids nothing (spells ids nothing members n' (id :: path))) (m_children m) cs) as [n' Hn'].
  { apply common_height; [intros k k' x y Hk; by apply spells_weaken|].
    assert (Forall (fun c => c ∈ ids) (m_children m)) as Hch by (apply Forall_forall; intros x Hx%list_elem_of_In; by eapply operands; [apply dirty_ids|..]).
    refine (Forall2_and_l _ _ _ _ _ Hcs Hch _). intros x y Hy Hx. right. split; [done|].
    destruct Hy as [[Hxd Hy]|[Hxd Hy]].
    - apply base_least in Hy as [[k Hk] _]; [|done|done]. exists k. apply (clean_avoids k []); [done|done| |done]. intros z [->|Hz]%elem_of_cons; [done|by apply Hp].
    - apply IH; [done| |done]. intros z [->|Hz]%elem_of_cons; [done|by apply Hp]. }
  exists (S n'). cbn [spells]. split; [done|]. by exists m, cs.
Qed.

Lemma full_to_dirty n : forall path id c, id ∈ dirty -> spells ids nothing members n path id c ->
  exists c', c' <= c /\ spells dirty (extracted_cost base) members n path id c'.
Proof.
  induction n as [|n IH]; intros path id c Hid H; [done|]. cbn [spells] in H. destruct H as (Hnp & m & cs & Hm & Hcs & ->).
  assert (forall x y, child_cost ids nothing (spells ids nothing members n (id :: path)) x y ->
    exists y', y' <= y /\ child_cost dirty (extracted_cost base) (spells dirty (extracted_cost base) members n (id :: path)) x y' /\ child_cost ids nothing full_spelled x y') as Hchild.
  { intros x y [[_ Hy]|[Hx Hy]]; [done|]. destruct (decide (x ∈ dirty)) as [Hxd|Hxd].
    - destruct (IH _ _ _ Hxd Hy) as (y' & Hle & Hy'). exists y'. split; [done|]. split; [by right|]. right. split; [done|].
      destruct (dirty_to_full n [] x y' Hxd) as [k Hk]; [intros z Hz; by apply elem_of_nil in Hz|eapply spells_weaken; [done| |exact Hy']; set_solver|by exists k].
    - pose proof (base_ok x Hx Hxd) as Ha. pose proof (base_least x) as Hb. unfold extracted_cost in Hb. destruct (chosen base x) as [[tg y']|] eqn:E.
      + destruct Ha as [[H1 H2] _]. exists y'. split; [apply H2; by eapply spells_spelled|]. split; [left; split; [done|]; unfold extracted_cost; by rewrite E|by right].
      + exfalso. apply (Ha y). by eapply spells_spelled. }
  assert (exists ys, Forall2 Z.le ys cs /\ Forall2 (child_cost dirty (extracted_cost base) (spells dirty (extracted_cost base) members n (id :: path))) (m_children m) ys /\
    Forall2 (child_cost ids nothing full_spelled) (m_children m) ys) as (ys & Hle & Hys & Hfull).
  { revert Hcs. generalize (m_children m) as xs. clear -Hchild. intros xs Hcs. induction Hcs as [|x y xs ys Hy Hcs (zs & ? & ? & ?)]; [by exists []|].
    destruct (Hchild x y Hy) as (y' & ? & ? & ?). exists (y' :: zs). split; [by constructor|]. split; by constructor. }
  exists (total m ys). assert (id ∈ ids) as Hids by (by apply dirty_ids). split.
  - assert (Forall price_ok (m_price m :: ys)) by (constructor; [by eapply pr_price|by apply (children_ok ids nothing members (m_children m))]).
    apply total_mono; [by constructor|done| |by eapply pr_safe]. constructor; [by eapply pr_price|].
    apply (children_ok ids nothing members (m_children m)); [done|]. revert Hcs. apply children_mono. intros. by eapply spells_spelled.
  - cbn [spells]. split; [done|]. by exists m, ys.
Qed.

Lemma dirty_spelled id c : id ∈ dirty -> spelled dirty (extracted_cost base) members id c -> full_spelled id c.
Proof. intros Hid [n Hn]. destruct (dirty_to_full n [] id c Hid) as [k Hk]; [intros z Hz; by apply elem_of_nil in Hz|done|by exists k]. Qed.

Lemma dirty_least id c : id ∈ dirty -> least dirty (extracted_cost base) members id c <-> full_least id c.
Proof.
  intros Hid. split; intros [H1 H2].
  - split; [by apply dirty_spelled|]. intros c' [n Hn]. destruct (full_to_dirty n [] id c' Hid Hn) as (c2 & ? & Hc2). specialize (H2 c2 (ex_intro _ n Hc2)). lia.
  - destruct H1 as [n Hn]. destruct (full_to_dirty n [] id c Hid Hn) as (c2 & Hle & Hc2). pose proof (dirty_spelled id c2 Hid (ex_intro _ n Hc2)) as Hf.
    pose proof (H2 c2 Hf). assert (c2 = c) as -> by lia. split; [by exists n|]. intros c' Hc'. by apply H2, dirty_spelled.
Qed.

(** An answer over the dirty ids is one over all of them. *)
Lemma dirty_answer id a : id ∈ dirty -> answer_ok dirty (extracted_cost base) members id a -> answer_ok ids nothing members id a.
Proof.
  intros Hid. assert (forall m c, m ∈ members id -> attains dirty (extracted_cost base) members id m c <-> attains ids nothing members id m c) as Hatt.
  { intros m c Hm. apply attains_ext. intros x y Hx. assert (x ∈ ids) as Hxi by (eapply operands; [by apply dirty_ids|done|done]).
    unfold child_cost. destruct (decide (x ∈ dirty)) as [Hd|Hd]; [rewrite dirty_least by done; tauto|]. rewrite base_least by done. tauto. }
  destruct a as [[tg c]|]; cbn.
  - intros [Hl (pre & m & post & E & Ht & Hm & Hpre)]. split; [by apply dirty_least|]. exists pre, m, post. do 2 (split; [done|]).
    split; [apply Hatt; [rewrite E; set_solver|done]|]. rewrite Forall_forall in Hpre |- *. intros m' Hm' Ha. apply (Hpre m' Hm'), Hatt; [|done].
    rewrite E. apply elem_of_app. left. by apply list_elem_of_In.
  - intros Hno c [n Hn]. destruct (full_to_dirty n [] id c Hid Hn) as (c2 & _ & Hc2). by apply (Hno c2); exists n.
Qed.

Lemma dirty_priced : (forall c x, extracted_cost base c = Some x -> price_ok x) -> priced dirty (extracted_cost base) members.
Proof.
  intros Hbase. split; [done|intros id m Hid; apply (pr_price _ _ _ Hpriced); by apply dirty_ids|].
  intros id m cs Hid Hm Hcs. apply (pr_safe _ _ _ Hpriced id); [by apply dirty_ids|done|].
  assert (Forall (fun c => c ∈ ids) (m_children m)) as Hch by (apply Forall_forall; intros x Hx%list_elem_of_In; by eapply operands; [apply dirty_ids|..]).
  refine (Forall2_and_l _ _ _ _ _ Hcs Hch _). intros x y Hy Hx. right. split; [done|]. destruct Hy as [[Hd Hy]|[Hd Hy]]; [|by apply dirty_spelled].
  apply base_least in Hy as [Hy _]; done.
Qed.
End Refresh.

(** An extraction that answers for every id as a full one does. *)
Definition extraction_of (ids : list Z) (members : Z -> list Member) (x : Extraction) : Prop :=
  (forall id, id ∈ ids -> answer_ok ids nothing members id (chosen x id)) /\ forall id c, extracted_cost x id = Some c -> price_ok c.

(** An extraction over priced classes has priced costs. *)
Lemma layer_priced classes base members x : priced classes (extracted_cost base) members -> (forall id c, extracted_cost base id = Some c -> price_ok c) ->
  (forall id, id ∈ classes -> answer_ok classes (extracted_cost base) members id (chosen x id)) -> (forall id, id ∉ classes -> chosen x id = chosen base id) ->
  forall id c, extracted_cost x id = Some c -> price_ok c.
Proof.
  intros Hp Hb Hin Hout id c H. destruct (decide (id ∈ classes)) as [Hid|Hid].
  - specialize (Hin id Hid). unfold extracted_cost in H. destruct (chosen x id) as [[tg c']|]; [|done]. injection H as ->. destruct Hin as [[Hs _] _]. by eapply spelled_ok.
  - apply (Hb id). unfold extracted_cost in *. by rewrite <- Hout.
Qed.

(** The costs of a member's own price and of the operands it spells. *)
Lemma extract_best_full bound ids members fuel : input_ok bound ids members -> priced ids nothing members -> (length ids + 1 <= fuel)%nat ->
  exists x, extract_best bound ids members fuel = Some x /\ extraction_of ids members x.
Proof.
  intros Hin Hp Hf. destruct (extraction_spec bound ids [] members fuel Hin Hp Hf) as (x & Hx & Hok & Hout). exists x. split; [done|]. split; [done|].
  by apply (layer_priced ids [] members x Hp).
Qed.

(** C6: Refreshing an extraction on a set of dirty classes is re-extracting the
    whole graph: if the classes outside the set kept their rows and no row of
    them has an operand in it, and the extraction refreshed was one of the graph
    as it was (itself refreshed or not), and the sums of prices along spellings do
    not reach the unpriced value, then [refresh] does not panic and the
    choice and the cost of every class are those of [extract_best]. *)
Theorem refresh_is_full bound ids0 members0 ids members dirty base fuel fuel' :
  extraction_of ids0 members0 base ->
  input_ok bound ids members -> priced ids nothing members -> input_ok bound dirty members -> dirty ⊆ ids ->
  (forall id m c, id ∈ ids -> m ∈ members id -> c ∈ m_children m -> c ∈ ids) ->
  (forall id, id ∈ ids -> id ∉ dirty -> id ∈ ids0 /\ members0 id = members id /\ forall m c, m ∈ members id -> c ∈ m_children m -> c ∉ dirty) ->
  (length dirty + 1 <= fuel)%nat -> (length ids + 1 <= fuel')%nat ->
  exists x full, refresh base bound dirty members fuel = Some x /\ extract_best bound ids members fuel' = Some full /\
    extraction_of ids members x /\ forall id, id ∈ ids -> chosen x id = chosen full id.
Proof.
  intros [Hbase Hbp] Hin Hp Hind Hsub Hops Hclean Hf Hf'.
  assert (forall id m c, id ∈ ids -> id ∉ dirty -> m ∈ members id -> c ∈ m_children m -> c ∉ dirty) as Hup.
  { intros id m c Hid Hd Hm Hc. destruct (Hclean id Hid Hd) as (_ & _ & H). by apply (H m c). }
  assert (forall id, id ∈ ids -> id ∉ dirty -> answer_ok ids nothing members id (chosen base id)) as Hbok.
  { intros id Hid Hd. destruct (Hclean id Hid Hd) as (Hid0 & _). specialize (Hbase id Hid0).
    apply (answers_agree ids0 ids members0 members (fun x => x ∈ ids /\ x ∉ dirty)); [|done|done].
    intros y [Hy Hyd]. destruct (Hclean y Hy Hyd) as (? & E & Hnd). do 3 (split; [done|]). rewrite E. intros m Hm c Hc. split; [by eapply Hops|by eapply Hnd]. }
  pose proof (dirty_priced ids dirty members base Hp Hsub Hops Hup Hbok Hbp) as Hdp.
  destruct (extraction_spec bound dirty base members fuel Hind Hdp Hf) as (x & Hx & Hxin & Hxout).
  destruct (extract_best_full bound ids members fuel' Hin Hp Hf') as (full & Hfull & Hfok & _).
  assert (forall id, id ∈ ids -> answer_ok ids nothing members id (chosen x id)) as Hxok.
  { intros id Hid. destruct (decide (id ∈ dirty)) as [Hd|Hd]; [|rewrite Hxout by done; by apply Hbok].
    apply (dirty_answer ids dirty members base Hp Hsub Hops Hup Hbok id); [done|by apply Hxin]. }
  exists x, full. split; [done|]. split; [done|]. split; [split; [done|by apply (layer_priced dirty base members x)]|].
  intros id Hid. by apply (answer_unique ids nothing members id); [apply Hxok|apply Hfok].
Qed.

(** ** Checking a concrete graph *)

Section Check.
Context (bound : nat) (ids : list Z) (outside : Z -> option Z) (members : Z -> list Member).

Fixpoint combos (ls : list (list Z)) : list (list Z) :=
  match ls with [] => [[]] | l :: ls => x ← l; cons x <$> combos ls end.

(** The costs of all spellings. *)
Fixpoint enum (n : nat) (path : list Z) (id : Z) : list Z :=
  match n with
  | O => []
  | S n =>
      if decide (id ∈ path) then []
      else m ← members id; total m <$> combos ((fun c => if decide (c ∈ ids) then enum n (id :: path) c else option_list (outside c)) <$> m_children m)
  end.

Lemma combos_in ls xs : Forall2 (fun l x => x ∈ l) ls xs -> xs ∈ combos ls.
Proof.
  induction 1 as [|l x ls xs Hx H IH]; cbn [combos]; [by left|]. apply list_elem_of_bind. exists x. split; [|done]. apply list_elem_of_fmap. by exists xs.
Qed.

Lemma children_combos (v : Z -> list Z) (w : Z -> Z -> Prop) cs xs : (forall c x, w c x -> x ∈ v c) -> Forall2 (child_cost ids outside w) cs xs ->
  xs ∈ combos ((fun c => if decide (c ∈ ids) then v c else option_list (outside c)) <$> cs).
Proof.
  intros H Hx. apply combos_in, Forall2_fmap_l. revert Hx. apply Forall2_impl. intros c x [[Hc Hx]|[Hc Hx]]; cbn.
  - rewrite decide_False by done. rewrite Hx. by left.
  - rewrite decide_True by done. by apply H.
Qed.

Lemma enum_spells n : forall path id c, spells ids outside members n path id c -> c ∈ enum n path id.
Proof.
  induction n as [|n IH]; intros path id c H; [done|]. cbn [spells enum] in *. destruct H as (Hp & m & cs & Hm & Hcs & ->). rewrite decide_False by done.
  apply list_elem_of_bind. exists m. split; [|done]. apply list_elem_of_fmap. exists cs. split; [done|]. apply (children_combos (enum n (id :: path)) (spells ids outside members n (id :: path))); [apply IH|done].
Qed.

Definition safe_check (l : list Z) : bool := unpriced l || (foldr Z.add 0 l <? UNPRICED).
Definition priced_check : bool :=
  forallb (fun id => forallb (fun m => (0 <=? m_price m) && (m_price m <=? UNPRICED) &&
    forallb (fun cs => safe_check (m_price m :: cs)) (combos ((fun c => if decide (c ∈ ids) then enum (length ids) [] c else option_list (outside c)) <$> m_children m)))
    (members id)) ids.

Lemma priced_check_sound : (forall c x, outside c = Some x -> price_ok x) -> priced_check = true -> priced ids outside members.
Proof.
  intros Ho H. unfold priced_check in H. rewrite forallb_forall in H.
  assert (forall id m, id ∈ ids -> m ∈ members id -> (0 <=? m_price m) && (m_price m <=? UNPRICED) = true /\
    forall cs, cs ∈ combos ((fun c => if decide (c ∈ ids) then enum (length ids) [] c else option_list (outside c)) <$> m_children m) -> safe_check (m_price m :: cs) = true) as Hm.
  { intros id m Hid Hin. apply list_elem_of_In in Hid, Hin. specialize (H id Hid). rewrite forallb_forall in H. specialize (H m Hin). apply andb_prop in H as [? H].
    split; [done|]. intros cs Hcs. rewrite forallb_forall in H. by apply H, list_elem_of_In. }
  split; [done| |].
  - intros id m Hid Hin. destruct (Hm id m Hid Hin) as [[H1 H2]%andb_prop _]. unfold price_ok. lia.
  - intros id m cs Hid Hin Hcs. destruct (Hm id m Hid Hin) as [_ Hs]. specialize (Hs cs). unfold safe_check, safe_total in *. rewrite orb_true_iff, Z.ltb_lt in Hs. apply Hs.
    apply (children_combos _ (fun c x => c ∈ ids /\ spelled ids outside members c x)).
    + intros c x [Hc Hx]. apply enum_spells. by apply spelled_short.
    + revert Hcs. apply Forall2_impl. intros c x [?|[Hc Hx]]; [by left|by right].
Qed.

Definition input_check : bool :=
  bool_decide (NoDup ids) && forallb (fun id => (0 <=? id) && (Z.to_nat id <? bound)%nat) ids && (Z.of_nat (length ids) <? u32_max) &&
  forallb (fun x : nat * Member => forallb (fun c => (0 <=? c) && (Z.to_nat c <? bound)%nat) (m_children x.2)) (flat ids members) &&
  (Z.of_nat (length (flat ids members)) <=? u32_max) && (Z.of_nat (length (concat ((fun x => m_children x.2) <$> flat ids members))) <? u32_max).

Lemma input_check_sound : input_check = true -> input_ok bound ids members.
Proof.
  unfold input_check. intros H. apply andb_prop in H as [[[[[H1 H2]%andb_prop H3]%andb_prop H4]%andb_prop H5]%andb_prop H6].
  assert (forall l, forallb (fun c => (0 <=? c) && (Z.to_nat c <? bound)%nat) l = true -> Forall (fun c => 0 <= c /\ (Z.to_nat c < bound)%nat) l) as Hl.
  { intros l Hl. apply Forall_forall. rewrite forallb_forall in Hl. intros c Hc%Hl%andb_prop. rewrite Z.leb_le, Nat.ltb_lt in Hc. done. }
  split; [by apply bool_decide_eq_true in H1|by apply Hl|lia| |lia|lia].
  intros s m Hm. rewrite forallb_forall in H4. apply Hl. apply (H4 (s, m)). by apply list_elem_of_In.
Qed.
End Check.

(** ** Examples *)

Lemma csr_groups_witness : exists csr, build 3 [(2, 10); (0, 20); (2, 30)] = Some csr /\
  forall key, get csr key = Some (if (Z.to_nat key <? 3)%nat then values (Z.to_nat key) [(2, 10); (0, 20); (2, 30)] else []).
Proof. apply (csr_groups 3 [(2, 10); (0, 20); (2, 30)]); [repeat constructor; cbn; lia|done]. Defined.

(** [0] is a leaf or [1] plus one; [1] is [0] plus one; [2] has no spelling. *)
Definition demo_members (id : Z) : list Member :=
  if id =? 0 then [mkMember 10 1 [1]; mkMember 11 3 []] else if id =? 1 then [mkMember 12 1 [0]] else [mkMember 13 1 [2]].

Lemma fold_least_witness : exists answers, fold 3 [0; 1; 2] nothing demo_members 4 = Some answers /\ length answers = 3%nat /\
  forall s id, [0; 1; 2] !! s = Some id -> exists answer, answers !! s = Some answer /\ answer_ok [0; 1; 2] nothing demo_members id answer.
Proof.
  apply (fold_least 3 [0; 1; 2] nothing demo_members); [by apply input_check_sound; vm_compute|by apply priced_check_sound; [|vm_compute]|cbn; lia].
Defined.

Example demo_fold : fold 3 [0; 1; 2] nothing demo_members 4 = Some [Some (11, 3); Some (12, 4); None].
Proof. vm_compute. reflexivity. Qed.

Ltac concrete := match goal with |- ?P => refine (bool_decide_eq_true_1 P _); vm_compute; reflexivity end.
Ltac each_in H := cbn [m_children] in H; repeat (apply elem_of_cons in H as [->|H]; [cbn [m_children] in *; try concrete|]); try (by apply elem_of_nil in H).

Lemma demo_in : input_ok 3 [0; 1; 2] demo_members.
Proof. by apply input_check_sound; vm_compute. Qed.
Lemma demo_priced : priced [0; 1; 2] nothing demo_members.
Proof. by apply priced_check_sound; [|vm_compute]. Qed.

(** A class with a free cast of itself, and one that uses it. *)
Definition loop_members (id : Z) : list Member := if id =? 0 then [mkMember 0 0 [0]; mkMember 1 2 []] else [mkMember 2 3 [0]].

Lemma positive_prices_expand_witness : exists answers, fold 2 [0; 1] nothing loop_members 3 = Some answers /\
  forall s id tg c, [0; 1] !! s = Some id -> answers !! s = Some (Some (tg, c)) -> c < UNPRICED -> exists n, reads_off [0; 1] nothing loop_members answers n id c.
Proof.
  apply (positive_prices_expand 2 [0; 1] nothing loop_members).
  - by apply input_check_sound; vm_compute.
  - by apply priced_check_sound; [|vm_compute].
  - cbn. lia.
  - intros id Hid. each_in Hid; concrete.
  - intros id m Hid Hm. each_in Hid; cbn in Hm; each_in Hm; (by left) || (right; left; concrete).
Defined.

(** [1] gets a row of its own price 2; [0] refers to it, [2] does not. *)
Definition demo_changed (id : Z) : list Member :=
  if id =? 0 then [mkMember 10 1 [1]; mkMember 11 3 []] else if id =? 1 then [mkMember 12 1 [0]; mkMember 14 1 []] else [mkMember 13 1 [2]].

Lemma refresh_is_full_witness : exists base, extract_best 3 [0; 1; 2] demo_members 4 = Some base /\
  exists x full, refresh base 3 [0; 1] demo_changed 3 = Some x /\ extract_best 3 [0; 1; 2] demo_changed 4 = Some full /\
    extraction_of [0; 1; 2] demo_changed x /\ forall id, id ∈ [0; 1; 2] -> chosen x id = chosen full id.
Proof.
  destruct (extract_best_full 3 [0; 1; 2] demo_members 4 demo_in demo_priced) as (base & Hb & Hbase); [cbn; lia|]. exists base. split; [exact Hb|]. clear Hb.
  apply (refresh_is_full 3 [0; 1; 2] demo_members [0; 1; 2] demo_changed [0; 1] base 3 4 Hbase).
  - by apply input_check_sound; vm_compute.
  - by apply priced_check_sound; [|vm_compute].
  - by apply input_check_sound; vm_compute.
  - intros x Hx. each_in Hx.
  - intros id m c _. unfold demo_changed. destruct (id =? 0); [|destruct (id =? 1)]; intros Hm Hc; each_in Hm; each_in Hc.
  - intros id Hid Hd. each_in Hid; [destruct Hd; concrete|destruct Hd; concrete|]. split; [concrete|]. split; [done|].
    intros m c Hm Hc. each_in Hm. each_in Hc.
  - cbn. lia.
  - cbn. lia.
Defined.

(** Zero prices: both ids are chosen through the other, and no reading ends. *)
Definition zero_cycle (id : Z) : list Member := if id =? 0 then [mkMember 0 0 [1]; mkMember 1 3 []] else [mkMember 2 0 [0]].

Example zero_prices_choose_a_cycle : fold 2 [0; 1] nothing zero_cycle 3 = Some [Some (0, 3); Some (2, 3)].
Proof. vm_compute. reflexivity. Qed.

(** Two finite terms whose sum is exactly the unpriced value. *)
Example finite_sum_is_unpriced : sum (UNPRICED - 1) 1 = UNPRICED.
Proof. vm_compute. reflexivity. Qed.

(** After a saturated sum, one more finite price loses to an unpriced member. *)
Definition saturated (id : Z) : list Member :=
  if id =? 0 then [mkMember 0 (2 ^ 63) []] else if id =? 1 then [mkMember 1 (2 ^ 63) [0]] else [mkMember 2 UNPRICED []; mkMember 3 1 [1]].

Example saturated_loses_to_unpriced : fold 3 [0; 1; 2] nothing saturated 4 = Some [Some (0, 2 ^ 63); Some (1, UNPRICED - 1); Some (2, UNPRICED)].
Proof. vm_compute. reflexivity. Qed.
